(* ===== verification/_CoqProject ===== *)
-Q . S2P
Prelude.v
Bytes.v
Text.v
Search.v
VecMap.v
Ids.v
Lsn.v
Membership.v
TermHistory.v
TimelineState.v
ControlFileFormat.v
Bincode.v
Messages.v
WalDecoder.v
WalDecoderProps.v
DecoderPositions.v
WalGenerator.v
WalStorage.v
Disk.v
ControlFile.v
EndOfWal.v
PhysicalStorage.v
PhysicalStorageLaws.v
WalOnDisk.v
EndOfWalProps.v
WalDurable.v
WalMaintenance.v
SafeKeeper.v
DummyStores.v
WalRecovery.v
SafeKeeperSafety.v
SafeKeeperRuns.v
WalProposer.v
Election.v
PhysicalSafeKeeper.v
Wire.v
WireRoundtrip.v
Key.v
Shard.v
KeySpace.v
KeySpaceProps.v
Partition.v
TenantSize.v
Scheduler.v
IntentState.v
TenantShard.v
ShardScheduling.v
StorconService.v
StorconInvariant.v
StorconReach.v
Reconciler.v
ReconcilerProps.v
ReconcilerRuns.v
GenerationSafety.v
ReconcilerProgress.v
LwLsn.v
LwLsnProps.v
Pagestream.v
PagestreamProps.v
ComputeHook.v
ComputeHookProps.v
SeqWait.v
