(* ===== verification/Prelude.v ===== *)
(** * A verification development for the Neon storage layer

    ** The program

    Neon separates Postgres compute from storage.  A compute node's
    _walproposer_ ([pgxn/neon/walproposer.c]) streams WAL to a set of
    _safekeepers_ ([safekeeper/src]), which make it durable by a Paxos-like
    consensus: a proposer is elected for a term by a quorum, tells each
    safekeeper where its WAL has to be cut, and streams from there; WAL flushed
    by a quorum in the proposer's term is committed.  _Pageservers_ turn the WAL
    into pages under 18-byte keys ([libs/pageserver_api]), split over shards by
    a hash of the key, and work on sets of keys as sorted lists of ranges.
    The compute reads pages over the _pagestream_ protocol ([pgxn/neon/communicator.c],
    [libs/pageserver_api/src/models.rs]) and asks for them at the LSNs of a shared
    cache of last writes ([pgxn/neon/neon_lwlsncache.c]).

    The _storage controller_ ([storage_controller/src]) decides on which
    pageservers the shards of each tenant are attached and kept as secondaries:
    a scheduler scores the nodes, every shard has an intent, and the service
    changes nodes, shards and scheduler together under one lock.  A _reconciler_
    then brings the pageservers from the observed locations of a shard to its
    intent, with generations that the database issues.

    A safekeeper keeps the consensus state of a timeline in a control file and
    its WAL in segment files; both are modelled down to the operations on the
    directory, each of which may fail, and to what a crash leaves of them.

    ** The files

    Shared:
    - [Prelude]: outcomes of fallible code, the state-and-error monad [ST] with
      its weakest preconditions [wp], record updates, machine integers.
    - [Bytes], [Text], [Search]: byte buffers and endianness, hexadecimal text,
      the binary search of the standard library.
    - [VecMap] ([libs/utils/src/vec_map.rs]), [Ids] ([libs/utils/src/id.rs],
      [shard.rs]), [Lsn] ([libs/utils/src/lsn.rs], segment names of
      [xlog_utils.rs]), [Membership] ([libs/safekeeper_api/src/membership.rs]).
    - [SeqWait] ([libs/utils/src/seqwait.rs]): a counter with tasks that wait for it;
      no wakeup is lost ([no_lost_wakeup]).

    The safekeeper:
    - [TermHistory], [Messages], [SafeKeeper] ([safekeeper/src/safekeeper.rs]),
      [TimelineState] ([safekeeper/src/state.rs]), [WalStorage] (the trait of
      [wal_storage.rs]): the acceptor, one definition per handler, over the
      classes [ControlStorage] and [WalStorage]; [DummyStores]: the stores of the
      unit tests, instances of both.
    - [Disk]: a directory with failing operations and crashes
      ([libs/utils/src/crashsafe.rs] and what the code uses of [tokio::fs]).
    - [ControlFileFormat], [Bincode], [ControlFile]
      ([safekeeper/src/control_file.rs], [control_file_upgrade.rs]): the format of
      the control file with the upgrades of older ones, a serialization that
      satisfies the laws asked of [bincode], and the file on disk, an instance of
      [ControlStorage].
    - [WalDecoder], [WalDecoderProps], [DecoderPositions]
      ([libs/postgres_ffi/src/waldecoder_handler.rs]): the streaming decoder of
      WAL records; [WalGenerator] ([wal_generator.rs]): their encoder.
    - [EndOfWal], [PhysicalStorage] ([safekeeper/src/wal_storage.rs], the end of
      the WAL in [xlog_utils.rs]): the WAL in segment files.
      [PhysicalStorageLaws] makes it an instance of [WalStorage]; [WalOnDisk],
      [WalDurable], [WalMaintenance], [EndOfWalProps] and [WalRecovery] relate it
      to an abstract log with a durable part.
    - [SafeKeeperSafety], [SafeKeeperRuns]: the invariant of a safekeeper, what
      each handler does, and runs of messages.
    - [WalProposer], [Election]: the proposer's decisions, and the system of
      safekeepers as a step relation with crashes and restarts.
    - [PhysicalSafeKeeper]: the safekeeper over its files, across a restart.
    - [Wire], [WireRoundtrip]: the messages as bytes, and the round trips.

    The pageserver's data:
    - [Key], [Shard] ([libs/pageserver_api/src/key.rs], [shard.rs]).
    - [KeySpace], [KeySpaceProps], [Partition]
      ([libs/pageserver_api/src/keyspace.rs]).
    - [TenantSize] ([libs/tenant_size_model/src]).

    Between compute and pageserver:
    - [LwLsn] ([neon_lwlsncache.c], [neon_get_request_lsns] of [pagestore_smgr.c],
      [neon_prefetch_response_usable] of [communicator.c]): the cache of last-written
      LSNs, an operation being what is done under one acquisition of the lock;
      [LwLsnProps]: backends that write and look up as a step relation.
    - [Pagestream] ([models.rs], [communicator.c], [pagestore_client.h]): requests and
      responses as bytes, in Rust and in C, in versions 2 and 3; [PagestreamProps].

    The storage controller:
    - [Scheduler] ([storage_controller/src/scheduler.rs], [node.rs],
      [libs/pageserver_api/src/models/utilization.rs]): the nodes with their
      cached utilization and counts, the scores of candidates, [schedule_shard].
    - [IntentState], [TenantShard] ([tenant_shard.rs]): the locations a shard is
      to have and their effect on the counts, scheduling, optimization, observed
      state and the decision to start a reconciler; [ShardScheduling]: what
      scheduling and optimization of one shard do.
    - [StorconService] ([service.rs], [context_iterator.rs], [drain_utils.rs]):
      the operations on nodes and tenants; [StorconInvariant], [StorconReach]:
      their invariant, and the states that operations called as [admissible] says reach.
    - [Reconciler] ([reconciler.rs], [node.rs], [libs/utils/src/backoff.rs], the
      generation of a shard in [persistence.rs], the task in [tenant_shard.rs]):
      one definition per method, against an environment of pageservers, compute
      hook, database and other tasks; [ReconcilerProps]: a specification of each;
      [ReconcilerRuns]: live migration, the intent, and the composition with the
      shard that spawns the task and processes its result; [GenerationSafety]:
      the life of a shard as a step relation; [ReconcilerProgress]: termination.
    - [ComputeHook] ([compute_hook.rs]): what the computes are told, with the locks that
      notifications are sent under in a store; [ComputeHookProps]: calls that overtake each
      other as a step relation.

    ** What the theorems show

    Consensus: at most one proposer is elected in a term, over all executions
    with crashes and failing disks ([election_safety]); a safekeeper keeps its
    invariant over any messages, and each handler does what the protocol asks;
    the commit LSN of the proposer is acknowledged by a quorum.

    Durability: [persist] of the control file is atomic under faults and crashes
    ([control_file_crash_safe]); flushed WAL survives crashes, and a restart
    finds it ([flushed_wal_survives], [restart_finds_flushed_records]), under the
    assumptions that syncing is on ([no_sync] is false), that opening and removing
    files does not fail ([open_error_loses_flushed_wal] and
    [failed_removal_loses_flushed_wal] show what happens otherwise), that WAL is not
    truncated beyond the write position nor the segment being written removed
    ([op_ok]), and that the WAL ends before the last segment of the LSN space.
    [restarted_safekeeper_safe] puts consensus and control file together.

    Data: encoders and decoders are inverse to each other, the decoder's result
    does not depend on how the stream is cut, keys are placed on exactly one
    shard and the compute agrees outside of the init fork, operations on keyspaces are the operations on
    sets of keys, and the tenant size is the optimum it claims to be.

    Reads: for a block that is not doubtful ([lw_doubtful]), a lookup in the cache
    never returns an LSN below its last write ([lwlsn_never_stale]), so that requests wait for that write and
    prefetched pages that lack it are not used ([request_lsns_cover_writes]); the
    cache is one of the most recently used blocks.  The C and the Rust side of the
    protocol understand each other, and refuse what is not a message or not the
    response to the request ([pagestream_call], [pagestream_refuses]).  A block
    becomes doubtful when a lookup that takes the lock twice enters it with a maximum
    that is out of date, or when its database is created while it is cached, and is
    so until its next write; examples show that its LSN can then be too old.

    Placement: [schedule_shard] returns the best usable node, scheduling a shard
    fulfils its placement policy, and in the states that the operations of the
    service reach the counts of the scheduler are exact, shards are well formed
    and the optimizations of the background loop can be applied
    ([reachable_consistent], [optimize_all_plan_applies]).  The operations are called
    as [admissible] says, which the code does not check; for its main cases an example
    shows the operation that breaks the invariant without it.

    Reconciliation: whatever fails, a pageserver is attached only with a
    generation that was issued for it, and no generation is issued twice
    ([generations_exclusive]); a live migration lets go of the origin only after
    the destination has caught up and the computes were told
    ([live_migrate_keeps_serving]); a reconciler that succeeds has reached the
    intent, and its shard is settled once the result is processed
    ([reconcile_reaches_intent], [successful_reconcile_settles]); it does
    succeed if everything answers ([reconcile_finishes]).  The assumption is that
    a pageserver reports a location only as it was configured or attached again
    ([honest]).  Stale locations are left out of the first one: an example shows
    that they can get a generation of another node.

    Notifications: the hook keeps the layout that updates and detaches add up to
    ([hook_implements_layout]), and once the call for the last change has succeeded
    the computes have it ([computes_know_layout]).  The assumptions are that the
    control plane has applied what it reports as applied, and applies nothing after
    its sender has given up.  Tenants that got a new lock while a call was under way
    ([hs_overtaken]) are left out: an example has the computes go back to old shards.

    ** Conventions

    A machine integer is the [Z] of its value; wrapping operations are written
    out ([wrapping_add], ...) with the release profile, in which [debug_assert]
    is absent and plain arithmetic wraps.  [outcome] has a constructor for
    panics.  A loop without a structural argument takes fuel and returns
    [None] when it runs out; the theorems about such a loop show that the fuel
    they name is enough ([2^64] steps for the scan for the end of the WAL, the
    number of keys and ranges for the keyspaces).  A reconciler runs for as many
    requests as its environment has steps, which is a list of any length; its
    loops take the length as fuel, and [loop_unfold] shows that it is enough.  Code
    outside the repository is a class or an argument, with its documented
    behaviour as laws and an instance for the witnesses.

    ** What is not modelled

    Tasks, locks, sockets, metrics and logging; the proxy, the compute tools and
    the HTTP services; code generated from Postgres headers.  Of the compute: the
    prefetch ring, the local file cache and the connections, which work on the
    memory, files and callbacks of Postgres, and the messages of the feature
    [testing].  Of the pageserver: how it answers a request, which is a parameter
    (its source is not in the tree).  Of the storage
    controller: what pageservers do with the requests of a reconciler, the
    database other than the generation of a shard (and of that, the generation
    given when a tenant is taken over from outside), startup, shard splits and the
    management of safekeepers; an operation that waits between two sections under
    the lock is modelled section by section.  These are clients of other services,
    handlers that call what is modelled, or SQL. *)

From stdpp Require Export base numbers list strings gmap sorting.
From Stdlib Require Export ZArith Lia Bool.
From Stdlib Require Export Strings.Byte.

#[global] Open Scope Z_scope.

(** ** Outcomes

    A Rust function that may return an [anyhow]/typed error or panic
    (assertion, [unwrap], indexing) yields an [outcome]. *)

Inductive outcome (E A : Type) : Type :=
| Ok (a : A)
| Err (e : E)
| Panic.
Arguments Ok {E A} a.
Arguments Err {E A} e.
Arguments Panic {E A}.

#[export] Instance outcome_eq_dec `{EqDecision E, EqDecision A} :
  EqDecision (outcome E A).
Proof. solve_decision. Defined.

#[export] Instance outcome_ret {E} : MRet (outcome E) := λ A a, Ok a.
#[export] Instance outcome_bind {E} : MBind (outcome E) := λ A B f m,
  match m with Ok a => f a | Err e => Err e | Panic => Panic end.
#[export] Instance outcome_fmap {E} : FMap (outcome E) := λ A B f m,
  match m with Ok a => Ok (f a) | Err e => Err e | Panic => Panic end.

Definition is_ok {E A} (r : outcome E A) : bool :=
  match r with Ok _ => true | _ => false end.

Definition is_panic {E A} (r : outcome E A) : bool :=
  match r with Panic => true | _ => false end.

(** [opt.ok_or(e)] and [opt.unwrap()]. *)
Definition ok_or {E A} (o : option A) (e : E) : outcome E A :=
  match o with Some a => Ok a | None => Err e end.

Definition unwrap {E A} (o : option A) : outcome E A :=
  match o with Some a => Ok a | None => Panic end.

(** ** State and errors

    A method taking [&mut self] and returning [Result<A>] is a function from
    the state to the outcome and the state it leaves behind: the state is kept
    on the error paths, because Rust does not roll [self] back. *)

Definition ST (S E A : Type) : Type := S → outcome E A * S.

#[export] Instance ST_ret {S E} : MRet (ST S E) := λ A a s, (Ok a, s).
#[export] Instance ST_bind {S E} : MBind (ST S E) := λ A B f m s,
  match m s with
  | (Ok a, s') => f a s'
  | (Err e, s') => (Err e, s')
  | (Panic, s') => (Panic, s')
  end.

Definition st_get {S E} : ST S E S := λ s, (Ok s, s).
Definition st_put {S E} (s' : S) : ST S E unit := λ _, (Ok tt, s').
Definition st_modify {S E} (f : S → S) : ST S E unit := λ s, (Ok tt, f s).
Definition st_fail {S E A} (e : E) : ST S E A := λ s, (Err e, s).
Definition st_panic {S E A} : ST S E A := λ s, (Panic, s).

(** [assert!(b)] and [if !b { bail!(e) }]. *)
Definition st_assert {S E} (b : bool) : ST S E unit :=
  if b then mret tt else st_panic.
Definition st_ensure {S E} (b : bool) (e : E) : ST S E unit :=
  if b then mret tt else st_fail e.

Definition st_lift {S E A} (r : outcome E A) : ST S E A := λ s, (r, s).

(** Run a method of a field of [self]: [self.field.method(...)]. *)
Definition st_zoom {S T E A} (get : S → T) (set : T → S → S) (m : ST T E A) :
    ST S E A :=
  λ s, let '(r, t) := m (get s) in (r, set t s).

(** [?] with an error conversion ([with_context], [From]). *)
Definition st_map_err {S E E' A} (f : E → E') (m : ST S E A) : ST S E' A :=
  λ s, match m s with
       | (Ok a, s') => (Ok a, s')
       | (Err e, s') => (Err (f e), s')
       | (Panic, s') => (Panic, s')
       end.

(** [for i in lo..lo+n { v.push(body(i)?) }] *)
Fixpoint st_for {S E A} (n : nat) (lo : Z) (body : Z → ST S E A) : ST S E (list A) :=
  match n with
  | O => mret []
  | Datatypes.S n' => x ← body lo; xs ← st_for n' (lo + 1) body; mret (x :: xs)
  end.

(** A loop that is given fuel: [None] when it is still running at the end of it. *)
Definition fueled (E A : Type) : Type := option (outcome E A).

#[export] Instance fueled_ret {E} : MRet (fueled E) := λ A a, Some (Ok a).
#[export] Instance fueled_bind {E} : MBind (fueled E) := λ A B f m,
  match m with
  | Some (Ok a) => f a
  | Some (Err e) => Some (Err e)
  | Some Panic => Some Panic
  | None => None
  end.

(** [for x in l { v.push(body(x)?) }] *)
Fixpoint fueled_mapM {E A B} (body : A → fueled E B) (l : list A) : fueled E (list B) :=
  match l with
  | [] => mret []
  | x :: l' => y ← body x; ys ← fueled_mapM body l'; mret (y :: ys)
  end.

Lemma fueled_mapM_ok {E A B} (body : A → fueled E B) l ys :
  fueled_mapM body l = Some (Ok ys) ↔ Forall2 (λ x y, body x = Some (Ok y)) l ys.
Proof.
  revert ys. induction l as [|x l IH]; intros ys; simpl; unfold mbind, fueled_bind, mret, fueled_ret.
  - split; [by intros [= <-]|]. by inversion 1.
  - split.
    + destruct (body x) as [[y|e|]|] eqn:Hx; [|done..].
      destruct (fueled_mapM body l) as [[zs|e|]|]; [|done..].
      intros [= <-]. constructor; [done|by apply IH].
    + inversion 1 as [|? y ? zs Hx Hl]; simplify_eq. rewrite Hx.
      apply IH in Hl. by rewrite Hl.
Qed.

(** ** Weakest preconditions for [ST]

    [wp m Q s]: running [m] in [s] ends in an outcome and a state satisfying
    [Q]. [ST] programs are total, so this is total correctness. *)

Definition wp {S E A} (m : ST S E A) (Q : outcome E A → S → Prop) (s : S) : Prop :=
  Q (m s).1 (m s).2.

Section wp.
Context {S E : Type}.
Implicit Types s : S.

Lemma wp_mono {A} (m : ST S E A) (Q Q' : outcome E A → S → Prop) s :
  wp m Q s → (∀ r s', Q r s' → Q' r s') → wp m Q' s.
Proof. unfold wp. auto. Qed.

Lemma wp_ret {A} (a : A) (Q : outcome E A → S → Prop) s :
  Q (Ok a) s → wp (mret a) Q s.
Proof. done. Qed.

Lemma wp_bind {A B} (m : ST S E A) (f : A → ST S E B) Q s :
  wp m (λ r s', match r with
                | Ok a => wp (f a) Q s'
                | Err e => Q (Err e) s'
                | Panic => Q Panic s'
                end) s →
  wp (m ≫= f) Q s.
Proof.
  unfold wp, mbind, ST_bind.
  destruct (m s) as [[a|e|] s'] eqn:?; simpl; done.
Qed.

Lemma wp_bind_assoc {A B D} (m : ST S E A) (f : A → ST S E B) (g : B → ST S E D) Q s :
  wp ((m ≫= f) ≫= g) Q s → wp (m ≫= λ a, f a ≫= g) Q s.
Proof.
  unfold wp, mbind, ST_bind. destruct (m s) as [[a|e|] s']; simpl; done.
Qed.

Lemma wp_get (Q : outcome E S → S → Prop) s : Q (Ok s) s → wp st_get Q s.
Proof. done. Qed.

Lemma wp_modify f (Q : outcome E unit → S → Prop) s :
  Q (Ok tt) (f s) → wp (st_modify f) Q s.
Proof. done. Qed.

Lemma wp_fail {A} e (Q : outcome E A → S → Prop) s :
  Q (Err e) s → wp (st_fail e) Q s.
Proof. done. Qed.

Lemma wp_panic {A} (Q : outcome E A → S → Prop) s :
  Q Panic s → wp st_panic Q s.
Proof. done. Qed.

Lemma wp_assert b (Q : outcome E unit → S → Prop) s :
  (b = true → Q (Ok tt) s) → (b = false → Q Panic s) →
  wp (st_assert b) Q s.
Proof. destruct b; cbv [wp st_assert]; simpl; auto. Qed.

Lemma wp_ensure b e (Q : outcome E unit → S → Prop) s :
  (b = true → Q (Ok tt) s) → (b = false → Q (Err e) s) →
  wp (st_ensure b e) Q s.
Proof. destruct b; cbv [wp st_ensure]; simpl; auto. Qed.

Lemma wp_lift {A} (r : outcome E A) Q s : Q r s → wp (st_lift r) Q s.
Proof. done. Qed.

Lemma wp_if {A} (b : bool) (m1 m2 : ST S E A) Q s :
  (b = true → wp m1 Q s) → (b = false → wp m2 Q s) →
  wp (if b then m1 else m2) Q s.
Proof. destruct b; auto. Qed.

Lemma wp_zoom {T A} (get : S → T) set (m : ST T E A) Q s :
  wp m (λ r t, Q r (set t s)) (get s) → wp (st_zoom get set m) Q s.
Proof. unfold wp, st_zoom. by destruct (m (get s)). Qed.

Lemma wp_map_err {E' A} (f : E' → E) (m : ST S E' A) (Q : outcome E A → S → Prop) s :
  wp m (λ r s', Q (match r with Ok a => Ok a | Err e => Err (f e) | Panic => Panic end) s') s →
  wp (st_map_err f m) Q s.
Proof. unfold wp, st_map_err. by destruct (m s) as [[]]. Qed.

(** What a [wp] says of a run whose result is known. *)
Lemma wp_run {A} (m : ST S E A) Q s r s' :
  wp m Q s → m s = (r, s') → Q r s'.
Proof. unfold wp. by intros ? Hm; rewrite Hm in *. Qed.

Lemma run_wp {A} (m : ST S E A) (Q : outcome E A → S → Prop) s :
  (∀ r s', m s = (r, s') → Q r s') → wp m Q s.
Proof. unfold wp. destruct (m s); simpl; auto. Qed.
End wp.

(** Symbolic execution of [ST] programs: one syntactic step. *)
Ltac wp_step :=
  lazymatch goal with
  | |- wp (mret _) _ _ => apply wp_ret
  | |- wp (mbind _ _) _ _ => apply wp_bind
  | |- wp st_get _ _ => apply wp_get
  | |- wp (st_modify _) _ _ => apply wp_modify
  | |- wp (st_fail _) _ _ => apply wp_fail
  | |- wp st_panic _ _ => apply wp_panic
  | |- wp (st_assert _) _ _ => apply wp_assert; intros ?
  | |- wp (st_ensure _ _) _ _ => apply wp_ensure; intros ?
  | |- wp (st_lift _) _ _ => apply wp_lift
  | |- wp (if _ then _ else _) _ _ => apply wp_if; intros ?
  | |- wp (st_zoom _ _ _) _ _ => apply wp_zoom
  | |- wp (st_map_err _ _) _ _ => apply wp_map_err
  end; cbv beta.
Ltac wp_steps := repeat (wp_step; try progress simpl).

(** Turn the boolean tests of the code into propositions. *)
Ltac bool_prop :=
  repeat match goal with
  | H : _ && _ = true |- _ => apply andb_true_iff in H as [? ?]
  | H : _ && _ = false |- _ => apply andb_false_iff in H
  | H : _ || _ = false |- _ => apply orb_false_iff in H as [? ?]
  | H : _ || _ = true |- _ => apply orb_true_iff in H
  | H : negb _ = true |- _ => apply negb_true_iff in H
  | H : negb _ = false |- _ => apply negb_false_iff in H
  | H : (_ <? _) = true |- _ => apply Z.ltb_lt in H
  | H : (_ <? _) = false |- _ => apply Z.ltb_ge in H
  | H : (_ <=? _) = true |- _ => apply Z.leb_le in H
  | H : (_ <=? _) = false |- _ => apply Z.leb_gt in H
  | H : (_ =? _) = true |- _ => apply Z.eqb_eq in H
  | H : (_ =? _) = false |- _ => apply Z.eqb_neq in H
  | H : bool_decide _ = true |- _ => apply bool_decide_eq_true in H
  | H : bool_decide _ = false |- _ => apply bool_decide_eq_false in H
  end.

(** ** Record update

    [r <| field := v |>] for [r.field = v] of the source.  A record type is
    declared updatable by its eta expansion; the setter of a field is found by
    abstracting the projection in it. *)

Class Settable (R : Type) := eta_expansion : R → R.
Class FieldSetter {R T : Type} (proj : R → T) := field_upd : (T → T) → R → R.
#[global] Arguments field_upd {R T} proj {_} _ _.

Ltac head_const t := lazymatch t with ?f _ => head_const f | ?c => c end.

Ltac solve_field_setter :=
  match goal with
  | |- @FieldSetter ?R ?T ?proj =>
    let inst := constr:(_ : Settable R) in
    let h := head_const inst in
    let e := eval unfold h in inst in
    let e := eval cbv beta in e in
    let a := eval pattern proj in e in
    match a with
    | ?F proj =>
      let s := eval cbv beta in (λ f : T → T, F (λ r, f (proj r))) in exact s
    end
  end.
#[export] Hint Extern 1 (FieldSetter _) => solve_field_setter : typeclass_instances.

#[warnings="-postfix-notation-not-level-1"]
Notation "r <| f := v |>" := (field_upd f (λ _, v) r)
  (at level 12, f at level 9, left associativity, format "r  <| f  :=  v |>").

(** ** Machine integers

    An unsigned integer of width [w] is a [Z]; the operations of the source
    are written out with their wrap-around or failure. *)

Definition u8_max : Z := 2 ^ 8 - 1.
Definition u16_max : Z := 2 ^ 16 - 1.
Definition u32_max : Z := 2 ^ 32 - 1.
Definition u64_max : Z := 2 ^ 64 - 1.

Definition in_u (w x : Z) : Prop := 0 ≤ x < 2 ^ w.

#[export] Instance in_u_dec w x : Decision (in_u w x).
Proof. unfold in_u. apply _. Defined.

Definition wrap (w x : Z) : Z := x mod 2 ^ w.
Definition wrapping_add (w x y : Z) : Z := wrap w (x + y).
Definition wrapping_sub (w x y : Z) : Z := wrap w (x - y).
Definition wrapping_mul (w x y : Z) : Z := wrap w (x * y).

Definition checked_add (w x y : Z) : option Z :=
  if x + y <? 2 ^ w then Some (x + y) else None.
Definition checked_sub (x y : Z) : option Z :=
  if y <=? x then Some (x - y) else None.
Definition saturating_sub (x y : Z) : Z := Z.max 0 (x - y).

(** [overflowing_add]: the wrapped sum and the carry. *)
Definition overflowing_add (w x y : Z) : Z * bool :=
  (wrap w (x + y), 2 ^ w <=? x + y).

Lemma wrap_small w x : in_u w x → wrap w x = x.
Proof. unfold in_u, wrap. intros. apply Z.mod_small; lia. Qed.

Lemma wrap_in_u w x : 0 ≤ w → in_u w (wrap w x).
Proof. intros. unfold in_u, wrap. apply Z.mod_pos_bound, Z.pow_pos_nonneg; lia. Qed.

Lemma checked_sub_Some x y z : checked_sub x y = Some z ↔ y ≤ x ∧ z = x - y.
Proof. unfold checked_sub. case_match; bool_prop; naive_solver lia. Qed.

Create HintDb neon discriminated.
#[export] Hint Resolve wrap_in_u wrap_small : neon.

(** ** Lists *)

(** [Iterator::take_while] and [Iterator::skip_while]. *)
Fixpoint take_while {A} (p : A → bool) (l : list A) : list A :=
  match l with
  | [] => []
  | x :: l' => if p x then x :: take_while p l' else []
  end.

Fixpoint skip_while {A} (p : A → bool) (l : list A) : list A :=
  match l with
  | [] => []
  | x :: l' => if p x then skip_while p l' else l
  end.

Lemma take_skip_while {A} (p : A → bool) l : take_while p l ++ skip_while p l = l.
Proof. induction l as [|x l IH]; simpl; [done|]. destruct (p x); simpl; congruence. Qed.

Lemma take_while_prefix {A} (p : A → bool) l : take_while p l `prefix_of` l.
Proof. exists (skip_while p l). by rewrite take_skip_while. Qed.

Lemma take_while_Forall {A} (p : A → bool) l : Forall (λ x, p x = true) (take_while p l).
Proof. induction l as [|x l IH]; simpl; [done|]. destruct (p x) eqn:?; auto. Qed.

Lemma take_while_all {A} (p : A → bool) l :
  Forall (λ x, p x = true) l → take_while p l = l.
Proof. induction 1 as [|x l Hx _ IH]; simpl; [done|]. by rewrite Hx, IH. Qed.

Lemma forallb_true_Forall {A} (p : A → bool) l :
  forallb p l = true ↔ Forall (λ x, p x = true) l.
Proof. rewrite forallb_forall, Forall_forall. setoid_rewrite list_elem_of_In. done. Qed.

(** Cutting one piece out of a concatenation. *)
Lemma slice_concat {A} (ls : list (list A)) i l :
  ls !! i = Some l →
  take (length l) (drop (length (concat (take i ls))) (concat ls)) = l
  ∧ (length (concat (take i ls)) + length l ≤ length (concat ls))%nat.
Proof.
  intros Hi. rewrite <- (take_drop_middle ls i l Hi) at 2 4.
  rewrite concat_app. cbn [concat]. split.
  - by rewrite drop_app_length, take_app_length.
  - rewrite !length_app. lia.
Qed.

Lemma filter_none {A} (P : A → Prop) `{∀ x, Decision (P x)} l :
  Forall (λ x, ¬ P x) l → filter P l = [].
Proof.
  induction 1 as [|x l Hx _ IH]; [done|]. by rewrite filter_cons_False.
Qed.

Lemma filter_all {A} (P : A → Prop) `{∀ x, Decision (P x)} l :
  Forall P l → filter P l = l.
Proof.
  induction 1 as [|x l Hx _ IH]; [done|]. rewrite filter_cons_True by done. by rewrite IH.
Qed.

(** ** Sums *)

Definition Zsum {A} (f : A → Z) (l : list A) : Z := foldr (λ x s, f x + s) 0 l.
#[global] Arguments Zsum : simpl never.

Lemma Zsum_cons {A} (f : A → Z) x l : Zsum f (x :: l) = f x + Zsum f l.
Proof. done. Qed.

Lemma Zsum_app {A} (f : A → Z) l1 l2 : Zsum f (l1 ++ l2) = Zsum f l1 + Zsum f l2.
Proof. induction l1 as [|x l1 IH]; [done|]. rewrite <- app_comm_cons, !Zsum_cons, IH. lia. Qed.

Lemma Zsum_bind {A B} (f : B → Z) (g : A → list B) l :
  Zsum f (l ≫= g) = Zsum (λ x, Zsum f (g x)) l.
Proof. induction l as [|x l IH]; [done|]. rewrite bind_cons, Zsum_app, Zsum_cons. lia. Qed.

Lemma Zsum_fmap {A B} (f : B → Z) (g : A → B) l : Zsum f (g <$> l) = Zsum (λ x, f (g x)) l.
Proof. induction l as [|x l IH]; [done|]. rewrite fmap_cons, !Zsum_cons. lia. Qed.

Lemma Zsum_perm {A} (f : A → Z) l1 l2 : l1 ≡ₚ l2 → Zsum f l1 = Zsum f l2.
Proof. induction 1; rewrite ?Zsum_cons; lia. Qed.

Lemma Zsum_mono {A} (f g : A → Z) l : (∀ x, x ∈ l → f x ≤ g x) → Zsum f l ≤ Zsum g l.
Proof.
  induction l as [|x l IH]; intros Hfg; [done|]. rewrite !Zsum_cons.
  assert (f x ≤ g x) by (apply Hfg; left). assert (Zsum f l ≤ Zsum g l); [|lia].
  apply IH. intros y Hy. apply Hfg. by right.
Qed.

Lemma Zsum_ext {A} (f g : A → Z) l : (∀ x, x ∈ l → f x = g x) → Zsum f l = Zsum g l.
Proof.
  intros Hfg. apply Z.le_antisymm; apply Zsum_mono; intros x Hx; rewrite (Hfg x Hx); lia.
Qed.

Lemma Zsum_nonneg {A} (f : A → Z) l : (∀ x, x ∈ l → 0 ≤ f x) → 0 ≤ Zsum f l.
Proof.
  intros Hf. etrans; [|apply (Zsum_mono (λ _, 0) f l Hf)].
  clear. induction l; [done|]. rewrite Zsum_cons. lia.
Qed.

Lemma Zsum_submseteq {A} (f : A → Z) l1 l2 :
  l1 ⊆+ l2 → (∀ x, x ∈ l2 → 0 ≤ f x) → Zsum f l1 ≤ Zsum f l2.
Proof.
  intros [k Hk]%submseteq_Permutation Hf. rewrite (Zsum_perm _ _ _ Hk), Zsum_app.
  assert (0 ≤ Zsum f k); [|lia]. apply Zsum_nonneg. intros x Hx. apply Hf. rewrite Hk.
  apply elem_of_app. by right.
Qed.
