(* ===== verification/Bytes.v ===== *)
(** * Byte strings and byte buffers

    Bytes as [Byte.byte], big- and little-endian integers, UTF-8 validation
    ([std::str::from_utf8]), and the interface of the buffers of the [bytes]
    crate ([Buf] for reading, [BufMut] for writing) that the wire protocol code
    uses.  The crate is not part of the repository, so its buffers are a class
    with the documented behaviour of its accessors as laws; [list byte] is an
    instance, used by the witnesses. *)

From S2P Require Import Prelude.

Abbreviation bytes := (list byte).

#[export] Instance byte_eq_dec : EqDecision byte := Byte.byte_eq_dec.

Definition byte_val (b : byte) : Z := Z.of_N (Byte.to_N b).

(** [z as u8]: truncation to the low eight bits. *)
Definition byte_of (z : Z) : byte :=
  match Byte.of_N (Z.to_N (z mod 256)) with Some b => b | None => "000"%byte end.

Lemma byte_val_bound b : 0 ≤ byte_val b < 256.
Proof. unfold byte_val. pose proof (Byte.to_N_bounded b). lia. Qed.

Lemma byte_val_of z : byte_val (byte_of z) = z mod 256.
Proof.
  unfold byte_val, byte_of.
  pose proof (Z.mod_pos_bound z 256 ltac:(lia)) as Hb.
  pose proof (Byte.to_of_N_option_map (Z.to_N (z mod 256))) as Ho.
  destruct (Byte.of_N _) as [b|] eqn:E; simpl in Ho.
  - destruct (Z.to_N (z mod 256) <=? 255)%N eqn:?; [|done].
    injection Ho as ->. lia.
  - destruct (Z.to_N (z mod 256) <=? 255)%N eqn:El; [done|].
    apply N.leb_gt in El. lia.
Qed.

Lemma byte_of_val b : byte_of (byte_val b) = b.
Proof.
  unfold byte_of, byte_val.
  pose proof (Byte.to_N_bounded b) as Hb.
  rewrite Z.mod_small by lia. rewrite N2Z.id, Byte.of_to_N. done.
Qed.

(** ** Integers as byte strings *)

(** The integer whose most significant byte comes first. *)
Definition be_value (l : bytes) : Z :=
  fold_left (λ acc b, acc * 256 + byte_val b) l 0.

Fixpoint be_bytes (n : nat) (z : Z) : bytes :=
  match n with
  | O => []
  | S n' => be_bytes n' (z / 256) ++ [byte_of z]
  end.

Definition le_value (l : bytes) : Z := be_value (reverse l).
Definition le_bytes (n : nat) (z : Z) : bytes := reverse (be_bytes n z).

Lemma length_be_bytes n z : length (be_bytes n z) = n.
Proof. revert z; induction n as [|n IH]; intros z; simpl; [done|]. rewrite length_app, IH. simpl. lia. Qed.

Lemma length_le_bytes n z : length (le_bytes n z) = n.
Proof. unfold le_bytes. by rewrite length_reverse, length_be_bytes. Qed.

Lemma be_value_snoc l b : be_value (l ++ [b]) = be_value l * 256 + byte_val b.
Proof. unfold be_value. by rewrite fold_left_app. Qed.

Lemma be_value_bytes n z : be_value (be_bytes n z) = z mod 256 ^ Z.of_nat n.
Proof.
  revert z; induction n as [|n IH]; intros z; simpl be_bytes.
  - by rewrite Z.mod_1_r.
  - rewrite be_value_snoc, IH, byte_val_of.
    rewrite Nat2Z.inj_succ, Z.pow_succ_r by lia.
    rewrite (Z.rem_mul_r z 256) by lia. lia.
Qed.

Lemma le_value_bytes n z : le_value (le_bytes n z) = z mod 256 ^ Z.of_nat n.
Proof. unfold le_value, le_bytes. by rewrite reverse_involutive, be_value_bytes. Qed.

Lemma be_value_bound l : 0 ≤ be_value l < 256 ^ Z.of_nat (length l).
Proof.
  induction l as [|b l IH] using rev_ind; [done|].
  rewrite be_value_snoc, length_app. simpl length.
  pose proof (byte_val_bound b).
  replace (Z.of_nat (length l + 1)) with (Z.succ (Z.of_nat (length l))) by lia.
  rewrite Z.pow_succ_r by lia. lia.
Qed.

(** A value of the width written is read back unchanged. *)
Lemma be_roundtrip n w z :
  w = 8 * Z.of_nat n → in_u w z → be_value (be_bytes n z) = z.
Proof.
  intros -> Hz. rewrite be_value_bytes. apply Z.mod_small.
  unfold in_u in Hz. rewrite Z.pow_mul_r in Hz by lia. apply Hz.
Qed.

Lemma le_roundtrip n w z :
  w = 8 * Z.of_nat n → in_u w z → le_value (le_bytes n z) = z.
Proof. intros. unfold le_value, le_bytes. rewrite reverse_involutive. by eapply be_roundtrip. Qed.

(** A byte string is the one of its value. *)
Lemma byte_of_snoc v b : byte_of (v * 256 + byte_val b) = b.
Proof.
  rewrite <- (byte_of_val b) at 2. unfold byte_of.
  by rewrite Z.add_comm, Z.mod_add.
Qed.

Lemma be_bytes_of_value l : be_bytes (length l) (be_value l) = l.
Proof.
  induction l as [|b l IH] using rev_ind; [done|].
  rewrite length_app, Nat.add_1_r, be_value_snoc. simpl. rewrite byte_of_snoc. f_equal.
  rewrite Z.div_add_l by done. pose proof (byte_val_bound b).
  by rewrite Z.div_small, Z.add_0_r.
Qed.

Lemma le_bytes_of_value l : le_bytes (length l) (le_value l) = l.
Proof.
  unfold le_bytes, le_value. rewrite <- (length_reverse l), be_bytes_of_value.
  apply reverse_involutive.
Qed.

Lemma le_value_bound l : 0 ≤ le_value l < 256 ^ Z.of_nat (length l).
Proof. unfold le_value. rewrite <- (length_reverse l). apply be_value_bound. Qed.

(** Two's complement reading of a [w]-bit value. *)
Definition to_signed (w x : Z) : Z := if x <? 2 ^ (w - 1) then x else x - 2 ^ w.

Lemma to_signed_roundtrip w x :
  0 < w → - 2 ^ (w - 1) ≤ x < 2 ^ (w - 1) → to_signed w (wrap w x) = x.
Proof.
  intros Hw Hx. unfold to_signed, wrap.
  assert (Hp : 2 ^ w = 2 * 2 ^ (w - 1)) by (rewrite <- Z.pow_succ_r by lia; f_equal; lia).
  destruct (decide (0 ≤ x)).
  - rewrite Z.mod_small by lia. case_match; bool_prop; lia.
  - rewrite <- (Z.mod_add x 1) by lia. rewrite Z.mod_small by lia.
    case_match; bool_prop; lia.
Qed.

Lemma be_bytes_1 z : be_bytes 1 z = [byte_of z].
Proof. done. Qed.

#[global] Opaque be_bytes le_bytes.

(** ** UTF-8 validation

    [std::str::from_utf8] accepts exactly the well-formed byte sequences of
    table 3-7 of the Unicode standard: no overlong form, no surrogate, nothing
    above U+10FFFF. *)

Definition in_range (lo hi : Z) (b : byte) : bool :=
  (lo <=? byte_val b) && (byte_val b <=? hi).

Definition is_cont (b : byte) : bool := in_range 128 191 b.

(** The length of the well-formed sequence at the head of the list, if any. *)
Definition utf8_char_len (l : bytes) : option nat :=
  match l with
  | b0 :: r =>
    if in_range 0 127 b0 then Some 1%nat
    else if in_range 194 223 b0 then
      match r with b1 :: _ => if is_cont b1 then Some 2%nat else None | _ => None end
    else if in_range 224 239 b0 then
      match r with
      | b1 :: b2 :: _ =>
        let lo := if byte_val b0 =? 224 then 160 else 128 in
        let hi := if byte_val b0 =? 237 then 159 else 191 in
        if in_range lo hi b1 && is_cont b2 then Some 3%nat else None
      | _ => None
      end
    else if in_range 240 244 b0 then
      match r with
      | b1 :: b2 :: b3 :: _ =>
        let lo := if byte_val b0 =? 240 then 144 else 128 in
        let hi := if byte_val b0 =? 244 then 143 else 191 in
        if in_range lo hi b1 && is_cont b2 && is_cont b3 then Some 4%nat else None
      | _ => None
      end
    else None
  | [] => None
  end.

Fixpoint utf8_valid_fuel (fuel : nat) (l : bytes) : bool :=
  match l, fuel with
  | [], _ => true
  | _, O => false
  | _, S fuel' =>
    match utf8_char_len l with
    | Some n => utf8_valid_fuel fuel' (drop n l)
    | None => false
    end
  end.

(** Every character takes at least one byte, so the length is enough fuel. *)
Definition utf8_valid (l : bytes) : bool := utf8_valid_fuel (length l) l.

(** ASCII text is UTF-8: the fuel of [utf8_valid] is enough there. *)
Lemma utf8_valid_ascii l :
  Forall (λ b, byte_val b < 128) l → utf8_valid l = true.
Proof.
  unfold utf8_valid.
  induction 1 as [|b l Hb _ IH]; simpl; [done|].
  pose proof (byte_val_bound b).
  assert (in_range 0 127 b = true) as -> by (unfold in_range; apply andb_true_iff; split; apply Z.leb_le; lia).
  simpl. done.
Qed.

(** ** Reading: [bytes::Buf] *)

Class Buf (B : Type) := {
  buf_view : B → bytes;
  get_u8 : ∀ {E}, ST B E Z;
  get_u16 : ∀ {E}, ST B E Z;
  get_u32 : ∀ {E}, ST B E Z;
  get_u64 : ∀ {E}, ST B E Z;
  get_u32_le : ∀ {E}, ST B E Z;
  get_u64_le : ∀ {E}, ST B E Z;
  get_i32 : ∀ {E}, ST B E Z;
  get_i64 : ∀ {E}, ST B E Z;
  buf_advance : ∀ {E}, nat → ST B E unit;
  split_to : ∀ {E}, nat → ST B E bytes;
  copy_to_bytes : ∀ {E}, nat → ST B E bytes;
}.

(** [Buf::remaining]: how many bytes are left. *)
Definition remaining {B} `{Buf B} (b : B) : Z := Z.of_nat (length (buf_view b)).
Definition buf_is_empty {B} `{Buf B} (b : B) : bool := bool_decide (buf_view b = []).

(** A documented accessor: consumes [n] bytes and decodes them, or panics when
    fewer are left. *)
Definition reads {B E A} `{Buf B} (n : nat) (dec : bytes → A) (f : ST B E A) : Prop :=
  ∀ b, if decide (n ≤ length (buf_view b))%nat
       then ∃ b', f b = (Ok (dec (take n (buf_view b))), b')
                  ∧ buf_view b' = drop n (buf_view b)
       else (f b).1 = Panic.

Class BufLaws (B : Type) `{Buf B} := {
  get_u8_reads E : reads 1 be_value (@get_u8 B _ E);
  get_u16_reads E : reads 2 be_value (@get_u16 B _ E);
  get_u32_reads E : reads 4 be_value (@get_u32 B _ E);
  get_u64_reads E : reads 8 be_value (@get_u64 B _ E);
  get_u32_le_reads E : reads 4 le_value (@get_u32_le B _ E);
  get_u64_le_reads E : reads 8 le_value (@get_u64_le B _ E);
  get_i32_reads E : reads 4 (to_signed 32 ∘ be_value) (@get_i32 B _ E);
  get_i64_reads E : reads 8 (to_signed 64 ∘ be_value) (@get_i64 B _ E);
  buf_advance_reads E n : reads n (λ _, tt) (@buf_advance B _ E n);
  split_to_reads E n : reads n id (@split_to B _ E n);
  copy_to_bytes_reads E n : reads n id (@copy_to_bytes B _ E n);
}.

(** An accessor run on a buffer that starts with the bytes it wants. *)
Lemma reads_run {B E A} `{Buf B} n (dec : bytes → A) (f : ST B E A) b h t :
  reads n dec f → buf_view b = h ++ t → length h = n →
  ∃ b', f b = (Ok (dec h), b') ∧ buf_view b' = t.
Proof.
  intros Hf Hv <-. specialize (Hf b). rewrite Hv in Hf.
  rewrite take_app_length, drop_app_length in Hf.
  rewrite decide_True in Hf by (rewrite length_app; lia). done.
Qed.

(** ** Writing: [bytes::BufMut] *)

Class BufMut (M : Type) := {
  bufmut_view : M → bytes;
  put_slice : bytes → M → M;
  put_u8 : Z → M → M;
  put_u16 : Z → M → M;
  put_u32 : Z → M → M;
  put_u64 : Z → M → M;
  put_i32 : Z → M → M;
  put_i64 : Z → M → M;
  put_u32_le : Z → M → M;
  put_u64_le : Z → M → M;
  put_i64_le : Z → M → M;
  (** [buf[i] = x] *)
  bufmut_set : nat → Z → M → M;
}.

Class BufMutLaws (M : Type) `{BufMut M} := {
  put_slice_view l m : bufmut_view (put_slice l m) = bufmut_view m ++ l;
  put_u8_view x m : bufmut_view (put_u8 x m) = bufmut_view m ++ be_bytes 1 x;
  put_u16_view x m : bufmut_view (put_u16 x m) = bufmut_view m ++ be_bytes 2 x;
  put_u32_view x m : bufmut_view (put_u32 x m) = bufmut_view m ++ be_bytes 4 x;
  put_u64_view x m : bufmut_view (put_u64 x m) = bufmut_view m ++ be_bytes 8 x;
  put_i32_view x m : bufmut_view (put_i32 x m) = bufmut_view m ++ be_bytes 4 x;
  put_i64_view x m : bufmut_view (put_i64 x m) = bufmut_view m ++ be_bytes 8 x;
  put_u32_le_view x m : bufmut_view (put_u32_le x m) = bufmut_view m ++ le_bytes 4 x;
  put_u64_le_view x m : bufmut_view (put_u64_le x m) = bufmut_view m ++ le_bytes 8 x;
  put_i64_le_view x m : bufmut_view (put_i64_le x m) = bufmut_view m ++ le_bytes 8 x;
  bufmut_set_view i x m : bufmut_view (bufmut_set i x m) = <[i := byte_of x]> (bufmut_view m);
}.

#[export] Hint Rewrite @put_slice_view @put_u8_view @put_u16_view @put_u32_view
  @put_u64_view @put_i32_view @put_i64_view @put_u32_le_view @put_u64_le_view
  @put_i64_le_view @bufmut_set_view using typeclasses eauto : buf_view.

(** ** Plain byte strings implement both interfaces *)

Definition list_read {E A} (n : nat) (dec : bytes → A) : ST bytes E A := λ b,
  if decide (n ≤ length b)%nat then (Ok (dec (take n b)), drop n b) else (Panic, b).

#[export] Instance list_Buf : Buf bytes := {|
  buf_view := id;
  get_u8 E := list_read 1 be_value;
  get_u16 E := list_read 2 be_value;
  get_u32 E := list_read 4 be_value;
  get_u64 E := list_read 8 be_value;
  get_u32_le E := list_read 4 le_value;
  get_u64_le E := list_read 8 le_value;
  get_i32 E := list_read 4 (to_signed 32 ∘ be_value);
  get_i64 E := list_read 8 (to_signed 64 ∘ be_value);
  buf_advance E n := list_read n (λ _, tt);
  split_to E n := list_read n id;
  copy_to_bytes E n := list_read n id;
|}.

#[export] Instance list_BufLaws : BufLaws bytes.
Proof.
  split; intros; intros b; simpl; unfold list_read, id;
    destruct (decide _); simpl; eauto.
Qed.

#[export] Instance list_BufMut : BufMut bytes := {|
  bufmut_view := id;
  put_slice l m := m ++ l;
  put_u8 x m := m ++ be_bytes 1 x;
  put_u16 x m := m ++ be_bytes 2 x;
  put_u32 x m := m ++ be_bytes 4 x;
  put_u64 x m := m ++ be_bytes 8 x;
  put_i32 x m := m ++ be_bytes 4 x;
  put_i64 x m := m ++ be_bytes 8 x;
  put_u32_le x m := m ++ le_bytes 4 x;
  put_u64_le x m := m ++ le_bytes 8 x;
  put_i64_le x m := m ++ le_bytes 8 x;
  bufmut_set i x m := <[i := byte_of x]> m;
|}.

#[export] Instance list_BufMutLaws : BufMutLaws bytes.
Proof. by split. Qed.
