(* ===== verification/Text.v ===== *)
(** * Text: hexadecimal formatting and parsing

    The parts of [core::fmt] and [core::num] the repository uses for LSNs, WAL
    file names, generation suffixes and shard ids.  A [&str] is the list of its
    characters (Unicode scalar values). *)

From stdpp Require Import strings.
From Stdlib Require Import Ascii.
From S2P Require Import Prelude.

Abbreviation char := Z.
Abbreviation str := (list Z).

(** An ASCII literal as a [str]. *)
Fixpoint lit (s : string) : str :=
  match s with
  | EmptyString => []
  | String a s' => Z.of_N (N_of_ascii a) :: lit s'
  end.

(** ** Whitespace: [char::is_whitespace] and [str::trim] *)

Definition is_whitespace (c : char) : bool :=
  ((9 <=? c) && (c <=? 13)) || (c =? 32) || (c =? 133) || (c =? 160)
  || (c =? 5760) || ((8192 <=? c) && (c <=? 8202)) || (c =? 8232) || (c =? 8233)
  || (c =? 8239) || (c =? 8287) || (c =? 12288).

Definition trim_start (s : str) : str := skip_while is_whitespace s.
Definition trim (s : str) : str :=
  reverse (trim_start (reverse (trim_start s))).

(** [str::split] on one character: always at least one piece. *)
Fixpoint split (sep : char) (s : str) : list str :=
  match s with
  | [] => [[]]
  | c :: s' =>
    if c =? sep then [] :: split sep s'
    else match split sep s' with
         | p :: ps => (c :: p) :: ps
         | [] => [[c]]
         end
  end.

(** ** Hexadecimal digits *)

Definition digit_upper (d : Z) : char := if d <? 10 then 48 + d else 55 + d.
Definition digit_lower (d : Z) : char := if d <? 10 then 48 + d else 87 + d.

(** [char::to_digit(16)] *)
Definition digit_value (c : char) : option Z :=
  if (48 <=? c) && (c <=? 57) then Some (c - 48)
  else if (65 <=? c) && (c <=? 70) then Some (c - 55)
  else if (97 <=? c) && (c <=? 102) then Some (c - 87)
  else None.

Definition is_ascii_hexdigit (c : char) : bool :=
  match digit_value c with Some _ => true | None => false end.

(** Most significant digit first, no leading zero; [fuel] digits are enough for
    values below [16 ^ fuel]. *)
Fixpoint hex_digits (fuel : nat) (z : Z) : list Z :=
  match fuel with
  | O => []
  | S fuel' => if z <? 16 then [z] else hex_digits fuel' (z / 16) ++ [z mod 16]
  end.

(** [{:X}] and [{:x}] of an unsigned integer of at most 64 bits. *)
Definition fmt_upper_hex (z : Z) : str := digit_upper <$> hex_digits 16 z.
Definition fmt_lower_hex (z : Z) : str := digit_lower <$> hex_digits 16 z.

(** Zero padding to a minimum width: [{:>08X}], [{:08x}]. *)
Definition pad_zero (width : nat) (s : str) : str :=
  replicate (width - length s) 48 ++ s.

(** [uN::from_str_radix(s, 16)] for [N = w]: an optional [+], then at least one
    digit; a value that does not fit is an error. *)
Fixpoint radix16_go (w acc : Z) (s : str) : option Z :=
  match s with
  | [] => Some acc
  | c :: s' =>
    d ← digit_value c;
    if acc * 16 + d <? 2 ^ w then radix16_go w (acc * 16 + d) s' else None
  end.

Definition from_str_radix16 (w : Z) (s : str) : option Z :=
  match s with
  | [] => None
  | c :: s' =>
    if c =? 43 then (if bool_decide (s' = []) then None else radix16_go w 0 s')
    else radix16_go w 0 s
  end.

(** ** Parsing undoes printing *)

Definition digits_value (acc : Z) (l : list Z) : Z :=
  fold_left (λ a d, a * 16 + d) l acc.

Definition hex_digit (d : Z) : Prop := 0 ≤ d < 16.

Lemma digit_value_upper d : hex_digit d → digit_value (digit_upper d) = Some d.
Proof.
  unfold hex_digit, digit_value, digit_upper. intros.
  repeat (case_match; bool_prop); try lia; f_equal; lia.
Qed.

Lemma digit_value_lower d : hex_digit d → digit_value (digit_lower d) = Some d.
Proof.
  unfold hex_digit, digit_value, digit_lower. intros.
  repeat (case_match; bool_prop); try lia; f_equal; lia.
Qed.

Lemma digits_value_app a l1 l2 :
  digits_value a (l1 ++ l2) = digits_value (digits_value a l1) l2.
Proof. apply fold_left_app. Qed.

Lemma digits_value_zeros a n : digits_value a (replicate n 0) = a * 16 ^ Z.of_nat n.
Proof.
  revert a; induction n as [|n IH]; intros a; simpl replicate.
  - simpl. lia.
  - simpl. rewrite IH. rewrite Nat2Z.inj_succ, Z.pow_succ_r by lia. lia.
Qed.

Lemma hex_digits_spec fuel z :
  0 ≤ z < 16 ^ Z.of_nat fuel →
  Forall hex_digit (hex_digits fuel z) ∧ digits_value 0 (hex_digits fuel z) = z.
Proof.
  revert z; induction fuel as [|fuel IH]; intros z Hz.
  { simpl in *. split; [constructor|]. cbn. lia. }
  simpl. destruct (z <? 16) eqn:?; bool_prop.
  { split; [repeat constructor; lia|]. cbn. lia. }
  rewrite Nat2Z.inj_succ, Z.pow_succ_r in Hz by lia.
  destruct (IH (z / 16)) as [Hf Hv].
  { split; [apply Z.div_pos; lia|]. apply Z.div_lt_upper_bound; lia. }
  pose proof (Z.mod_pos_bound z 16 ltac:(lia)).
  pose proof (Z.div_mod z 16 ltac:(lia)).
  split.
  - apply Forall_app; split; [done|]. repeat constructor; lia.
  - rewrite digits_value_app, Hv. cbn. lia.
Qed.

Lemma hex_digits_nonempty fuel z : (0 < fuel)%nat → hex_digits fuel z ≠ [].
Proof. destruct fuel; simpl; [lia|]. intros _. case_match; [done|]. by destruct (hex_digits _ _). Qed.

Lemma length_hex_digits fuel n z :
  0 ≤ z < 16 ^ Z.of_nat n → (0 < n)%nat → (length (hex_digits fuel z) ≤ n)%nat.
Proof.
  revert z n; induction fuel as [|fuel IH]; intros z n Hz Hn; simpl; [lia|].
  destruct (z <? 16) eqn:?; bool_prop; [simpl; lia|].
  rewrite length_app. simpl.
  destruct n as [|[|n]]; [lia|simpl in Hz; lia|].
  rewrite Nat2Z.inj_succ, Z.pow_succ_r in Hz by lia.
  assert (length (hex_digits fuel (z / 16)) ≤ S n)%nat; [|lia].
  apply IH; [|lia]. split; [apply Z.div_pos; lia|]. apply Z.div_lt_upper_bound; lia.
Qed.

Section parse_print.
Variable enc : Z → char.
Hypothesis enc_value : ∀ d, hex_digit d → digit_value (enc d) = Some d.

Lemma digits_value_ge a l : 0 ≤ a → Forall hex_digit l → a ≤ digits_value a l.
Proof.
  revert a; induction l as [|d l IH]; intros a Ha Hl; simpl; [lia|].
  inversion_clear Hl as [|?? Hd Hl']. unfold hex_digit in Hd.
  specialize (IH (a * 16 + d) ltac:(lia) Hl'). lia.
Qed.

Lemma radix16_go_enc w a l :
  0 ≤ a → Forall hex_digit l → digits_value a l < 2 ^ w →
  radix16_go w a (enc <$> l) = Some (digits_value a l).
Proof.
  revert a; induction l as [|d l IH]; intros a Ha Hl Hw; [done|].
  inversion_clear Hl as [|?? Hd Hl']. simpl. rewrite enc_value by done. simpl.
  unfold hex_digit in Hd.
  pose proof (digits_value_ge (a * 16 + d) l ltac:(lia) Hl').
  cbn in Hw. change (fold_left _ l (a * 16 + d)) with (digits_value (a * 16 + d) l) in *.
  assert ((a * 16 + d <? 2 ^ w) = true) as -> by (apply Z.ltb_lt; lia).
  apply IH; [lia|done|done].
Qed.

Lemma enc_not_plus d : hex_digit d → enc d ≠ 43.
Proof. intros Hd E. specialize (enc_value d Hd). rewrite E in enc_value. done. Qed.

Lemma from_str_radix16_enc w l :
  l ≠ [] → Forall hex_digit l → digits_value 0 l < 2 ^ w →
  from_str_radix16 w (enc <$> l) = Some (digits_value 0 l).
Proof.
  intros Hne Hl Hw. destruct l as [|d l]; [done|].
  unfold from_str_radix16.
  change (enc <$> d :: l) with (enc d :: (enc <$> l)). cbv iota.
  assert ((enc d =? 43) = false) as ->.
  { apply Z.eqb_neq, enc_not_plus. by inversion Hl. }
  apply (radix16_go_enc w 0 (d :: l)); [lia|done|done].
Qed.
End parse_print.

Lemma from_str_radix16_upper w z :
  w ≤ 64 → in_u w z → from_str_radix16 w (fmt_upper_hex z) = Some z.
Proof.
  intros Hw Hz. unfold fmt_upper_hex, in_u in *.
  assert (2 ^ w ≤ 2 ^ 64) by (apply Z.pow_le_mono_r; lia).
  destruct (hex_digits_spec 16 z) as [Hf Hv]; [change (16 ^ Z.of_nat 16) with (2 ^ 64); lia|].
  rewrite (from_str_radix16_enc _ digit_value_upper); rewrite ?Hv; try done; try lia.
  by apply hex_digits_nonempty; lia.
Qed.

Lemma pad_zero_digits (enc : Z → char) width l :
  enc 0 = 48 →
  pad_zero width (enc <$> l) = enc <$> (replicate (width - length l) 0 ++ l).
Proof.
  intros E. unfold pad_zero. rewrite length_fmap, fmap_app. f_equal.
  by rewrite fmap_replicate, E.
Qed.

(** A zero-padded field of [width] digits. *)
Lemma padded_field (enc : Z → char) w width z :
  (∀ d, hex_digit d → digit_value (enc d) = Some d) → enc 0 = 48 →
  (0 < width ≤ 16)%nat → w ≤ 64 → in_u w z → 2 ^ w ≤ 16 ^ Z.of_nat width →
  length (pad_zero width (enc <$> hex_digits 16 z)) = width
  ∧ from_str_radix16 w (pad_zero width (enc <$> hex_digits 16 z)) = Some z
  ∧ Forall (λ c, is_ascii_hexdigit c = true) (pad_zero width (enc <$> hex_digits 16 z)).
Proof.
  intros He H0 Hwd Hw Hz Hp. unfold in_u in Hz.
  assert (2 ^ w ≤ 2 ^ 64) by (apply Z.pow_le_mono_r; lia).
  destruct (hex_digits_spec 16 z) as [Hf Hv]; [change (16 ^ Z.of_nat 16) with (2 ^ 64); lia|].
  pose proof (length_hex_digits 16 width z ltac:(lia) ltac:(lia)) as Hlen.
  rewrite pad_zero_digits by done.
  set (l := replicate _ 0 ++ hex_digits 16 z).
  assert (Hl : Forall hex_digit l).
  { apply Forall_app; split; [|done]. apply Forall_replicate. unfold hex_digit; lia. }
  assert (Hval : digits_value 0 l = z).
  { unfold l. rewrite digits_value_app, digits_value_zeros, Z.mul_0_l. done. }
  split_and!.
  - rewrite length_fmap. unfold l. rewrite length_app, length_replicate. lia.
  - rewrite from_str_radix16_enc; rewrite ?Hval; try done; try lia.
    intros E. apply app_eq_nil in E as [_ E]. by apply hex_digits_nonempty in E; [|lia].
  - apply Forall_fmap. eapply Forall_impl; [exact Hl|]. intros d Hd. simpl.
    unfold is_ascii_hexdigit. by rewrite He.
Qed.

(** ** Splitting *)

Lemma split_app_sep sep l r :
  Forall (λ c, c ≠ sep) l → split sep (l ++ sep :: r) = l :: split sep r.
Proof.
  induction 1 as [|c l Hc _ IH]; simpl; [by rewrite Z.eqb_refl|].
  apply Z.eqb_neq in Hc as ->. by rewrite IH.
Qed.

Lemma split_no_sep sep l : Forall (λ c, c ≠ sep) l → split sep l = [l].
Proof.
  induction 1 as [|c l Hc _ IH]; simpl; [done|].
  apply Z.eqb_neq in Hc as ->. by rewrite IH.
Qed.

(** ** Byte ranges of strings *)

(** [&s[lo..hi]] on the UTF-8 code units of a string: cutting a character panics. *)
Definition is_char_boundary (s : list Z) (i : nat) : bool :=
  match s !! i with
  | Some c => negb ((128 <=? c) && (c <? 192))
  | None => bool_decide (i = length s)
  end.

Definition str_slice {E} (s : list Z) (lo hi : nat) : outcome E (list Z) :=
  if bool_decide (lo ≤ hi)%nat && is_char_boundary s lo && is_char_boundary s hi
  then Ok (take (hi - lo) (drop lo s)) else Panic.

Lemma str_slice_ascii {E} s lo hi :
  Forall (λ c, c < 128) s → (lo ≤ hi ≤ length s)%nat →
  str_slice (E := E) s lo hi = Ok (take (hi - lo) (drop lo s)).
Proof.
  intros Hd Hl.
  assert (Hb : ∀ j, (j ≤ length s)%nat → is_char_boundary s j = true).
  { intros j Hj. unfold is_char_boundary. destruct (s !! j) as [c|] eqn:Ec.
    - rewrite Forall_lookup in Hd. specialize (Hd _ _ Ec). simpl in Hd.
      rewrite (proj2 (Z.leb_gt 128 c)) by lia. done.
    - apply lookup_ge_None in Ec. apply bool_decide_eq_true. lia. }
  unfold str_slice. rewrite !Hb, bool_decide_eq_true_2 by lia. done.
Qed.

Lemma hexdigit_ascii c : is_ascii_hexdigit c = true → c < 128.
Proof.
  unfold is_ascii_hexdigit, digit_value. intros. repeat case_match; bool_prop; lia || done.
Qed.

Lemma str_slice_hex {E} s lo hi :
  Forall (λ c, is_ascii_hexdigit c = true) s → (lo ≤ hi ≤ length s)%nat →
  str_slice (E := E) s lo hi = Ok (take (hi - lo) (drop lo s)).
Proof.
  intros Hd. apply str_slice_ascii. eapply Forall_impl; [done|]. apply hexdigit_ascii.
Qed.
