(* ===== verification/Search.v ===== *)
(** * Binary search

    [core::slice::binary_search_by] of the standard library, which the key
    space and the LSN-indexed vectors search with, and what it guarantees on a
    slice that is sorted for the comparison. *)

From S2P Require Import Prelude.

(** [Result<usize, usize>] *)
Inductive search_result := Found (i : nat) | NotFound (i : nat).

Section Search.
Context {A : Type} (f : A → comparison).

(** The loop narrows [base .. base + size]; every turn drops half of it, so the
    length of the slice is enough fuel. *)
Fixpoint search_base (l : list A) (fuel base size : nat) : nat :=
  match fuel with
  | O => base
  | S fuel' =>
    if (size <=? 1)%nat then base
    else
      let half := Nat.div2 size in
      let mid := (base + half)%nat in
      let base' := match l !! mid with
                   | Some x => match f x with Gt => base | _ => mid end
                   | None => base
                   end in
      search_base l fuel' base' (size - half)
  end.

Definition binary_search_by (l : list A) : search_result :=
  let base := search_base l (length l) 0 (length l) in
  match l !! base with
  | None => NotFound 0
  | Some x =>
    match f x with
    | Eq => Found base
    | Lt => NotFound (base + 1)
    | Gt => NotFound base
    end
  end.

(** Sorted for [f]: first the smaller elements, then the equal ones, then the
    greater ones. *)
Definition cmp_le (c d : comparison) : Prop :=
  match c, d with
  | Gt, Gt | Eq, (Eq | Gt) | Lt, _ => True
  | _, _ => False
  end.

Definition search_sorted (l : list A) : Prop :=
  ∀ i j x y, (i ≤ j)%nat → l !! i = Some x → l !! j = Some y → cmp_le (f x) (f y).

Lemma div2_bounds n :
  (2 ≤ n)%nat → (1 ≤ Nat.div2 n < n)%nat ∧ (2 * Nat.div2 n ≤ n)%nat.
Proof. intros. rewrite Nat.div2_div. pose proof (Nat.div_mod_eq n 2).
  pose proof (Nat.mod_upper_bound n 2). lia. Qed.

(** What the loop keeps: everything from [base + size] on is greater, and the
    element at [base] is not, unless [base] is 0. *)
Lemma search_base_spec l fuel : ∀ base size,
  search_sorted l → (size ≤ fuel)%nat → (1 ≤ size)%nat → (base + size ≤ length l)%nat →
  (∀ j y, (base + size ≤ j)%nat → l !! j = Some y → f y = Gt) →
  (base = 0%nat ∨ ∃ x, l !! base = Some x ∧ f x ≠ Gt) →
  let b := search_base l fuel base size in
  (b < length l)%nat
  ∧ (∀ j y, (b < j)%nat → l !! j = Some y → f y = Gt)
  ∧ (b = 0%nat ∨ ∃ x, l !! b = Some x ∧ f x ≠ Gt).
Proof.
  induction fuel as [|fuel IH]; intros base size Hs Hf H1 Hl Hgt Hb; simpl; [lia|].
  destruct (Nat.leb_spec size 1).
  { replace size with 1%nat in * by lia. split_and!; [lia| |done].
    intros j y Hj. apply Hgt. lia. }
  pose proof (div2_bounds size ltac:(lia)) as Hh. set (half := Nat.div2 size) in *.
  destruct (l !! (base + half)%nat) as [x|] eqn:Hx; [|apply lookup_ge_None in Hx; lia].
  assert (Hlow : f x ≠ Gt → let b := search_base l fuel (base + half) (size - half) in
    (b < length l)%nat ∧ (∀ j y, (b < j)%nat → l !! j = Some y → f y = Gt)
    ∧ (b = 0%nat ∨ ∃ x, l !! b = Some x ∧ f x ≠ Gt)).
  { intros Hne. apply IH; try done; try lia; [|by right; exists x].
    intros j y Hj. apply Hgt. lia. }
  destruct (f x) eqn:Ex; [by apply Hlow|by apply Hlow|].
  apply IH; try done; try lia. intros j y Hj Hy.
  pose proof (Hs (base + half)%nat j x y ltac:(lia) Hx Hy) as Hle. rewrite Ex in Hle.
  by destruct (f y).
Qed.

(** On a sorted slice the search finds an equal element if there is one, and
    otherwise the place that separates the smaller from the greater ones. *)
Lemma binary_search_by_spec l :
  search_sorted l →
  match binary_search_by l with
  | Found i => ∃ x, l !! i = Some x ∧ f x = Eq
  | NotFound i => (i ≤ length l)%nat
      ∧ (∀ j x, (j < i)%nat → l !! j = Some x → f x = Lt)
      ∧ (∀ j x, (i ≤ j)%nat → l !! j = Some x → f x = Gt)
  end.
Proof.
  intros Hs. unfold binary_search_by.
  destruct l as [|x0 l0]; [simpl; split_and!; [lia|done|done]|].
  set (l := x0 :: l0) in *. assert (Hlen : (1 ≤ length l)%nat) by (simpl; lia).
  destruct (search_base_spec l (length l) 0 (length l) Hs ltac:(lia) Hlen ltac:(lia))
    as (Hb & Hgt & Hne); [|by left|].
  { intros j y Hj Hy. apply lookup_lt_Some in Hy. lia. }
  set (b := search_base l (length l) 0 (length l)) in *. clearbody b.
  destruct (l !! b) as [x|] eqn:Hx; [|apply lookup_ge_None in Hx; lia].
  assert (Hlt : f x ≠ Gt → f x ≠ Eq → ∀ j y, (j ≤ b)%nat → l !! j = Some y → f y = Lt).
  { intros H1 H2 j y Hj Hy. pose proof (Hs j b y x Hj Hy Hx) as Hle.
    by destruct (f y), (f x). }
  destruct (f x) eqn:Ex.
  - by exists x.
  - split_and!; [lia| |].
    + intros j y Hj. apply Hlt; [done|done|lia].
    + intros j y Hj. apply Hgt. lia.
  - destruct Hne as [->|(x' & Hx' & Hne)]; [|congruence]. split_and!; [lia|lia|].
    intros j y Hj Hy. destruct (decide (j = 0%nat)) as [->|]; [congruence|].
    apply (Hgt j y); [lia|done].
Qed.
End Search.
