(* ===== verification/VecMap.v ===== *)
(** * Ordered maps kept in a vector

    [libs/utils/src/vec_map.rs]: an append-only map whose entries are in the
    order of their keys.  The growth of a [Vec] is up to the allocator: the
    capacity after a push or an append is given by a parameter [grow], which
    gets the old capacity and the number of entries needed.  An entry takes
    [elem_size] bytes.  A Rust [Ord] is a total order. *)

From S2P Require Import Prelude Search.

Class Ord (K : Type) := ord_cmp : K → K → comparison.

Class OrdLaws (K : Type) `{Ord K} := {
  ord_eq : ∀ x y : K, ord_cmp x y = Eq ↔ x = y;
  ord_flip : ∀ x y : K, ord_cmp y x = CompOpp (ord_cmp x y);
  ord_trans : ∀ x y z : K, ord_cmp x y = Lt → ord_cmp y z = Lt → ord_cmp x z = Lt;
}.

#[export] Instance Z_ord : Ord Z := Z.compare.
#[export] Program Instance Z_ord_laws : OrdLaws Z.
Next Obligation. intros. apply Z.compare_eq_iff. Qed.
Next Obligation. intros. apply Z.compare_antisym. Qed.
Next Obligation. unfold ord_cmp, Z_ord. intros x y z. rewrite !Z.compare_lt_iff. lia. Qed.

Inductive VecMapOrdering := Greater | GreaterOrEqual.

#[export] Instance VecMapOrdering_eq_dec : EqDecision VecMapOrdering.
Proof. solve_decision. Defined.

Inductive VecMapError := InvalidKey | ExtendOrderingError.

Record VecMap (K V : Type) := mkVecMap {
  vm_data : list (K * V);
  vm_capacity : nat;
  vm_ordering : VecMapOrdering;
}.
Arguments mkVecMap {K V} _ _ _.
Arguments vm_data {K V} _.
Arguments vm_capacity {K V} _.
Arguments vm_ordering {K V} _.

(** [std::ops::Bound] *)
Inductive Bound (K : Type) := Included (k : K) | Excluded (k : K) | Unbounded.
Arguments Included {K} k.
Arguments Excluded {K} k.
Arguments Unbounded {K}.

Section VecMap.
Context {K V : Type} `{Ord K}.
Context (grow : nat → nat → nat) (elem_size : Z).
Implicit Types self other : VecMap K V.

Definition VecMap_new (ordering : VecMapOrdering) : VecMap K V := mkVecMap [] 0 ordering.

Definition VecMap_default : VecMap K V := mkVecMap [] 0 Greater.

Definition VecMap_with_capacity (capacity : nat) (ordering : VecMapOrdering) : VecMap K V :=
  mkVecMap [] capacity ordering.

Definition VecMap_is_empty self : bool :=
  match vm_data self with [] => true | _ => false end.

Definition VecMap_as_slice self : list (K * V) := vm_data self.

(** [self.data.binary_search_by_key(&k, extract_key)] *)
Definition search_key self (k : K) : search_result :=
  binary_search_by (λ entry : K * V, ord_cmp entry.1 k) (vm_data self).

Definition start_index self (b : Bound K) : nat :=
  match b with
  | Unbounded => 0
  | Included k => match search_key self k with Found i => i | NotFound i => i end
  | Excluded k => match search_key self k with Found i => i + 1 | NotFound i => i end
  end.

Definition end_index self (b : Bound K) : nat :=
  match b with
  | Unbounded => length (vm_data self)
  | Included k => match search_key self k with Found i => i + 1 | NotFound i => i end
  | Excluded k => match search_key self k with Found i => i | NotFound i => i end
  end.

Definition VecMap_slice_range self (lo hi : Bound K) : outcome VecMapError (list (K * V)) :=
  let start_idx := start_index self lo in
  let end_idx := end_index self hi in
  if (start_idx <=? end_idx)%nat && (end_idx <=? length (vm_data self))%nat
  then Ok (take (end_idx - start_idx) (drop start_idx (vm_data self)))
  else Panic.

Definition validate_key_order self (key : K) : outcome VecMapError unit :=
  match last (vm_data self) with
  | Some (last_key, _) =>
    match vm_ordering self, ord_cmp key last_key with
    | Greater, (Lt | Eq) => Err InvalidKey
    | Greater, Gt => Ok tt
    | GreaterOrEqual, Lt => Err InvalidKey
    | GreaterOrEqual, (Eq | Gt) => Ok tt
    end
  | None => Ok tt
  end.

(** [Layout::array::<(K, V)>(cap).unwrap().size()]; an array may not be larger
    than [isize::MAX]. *)
Definition layout_size (cap : nat) : outcome VecMapError Z :=
  if Z.of_nat cap * elem_size <=? 2 ^ 63 - 1 then Ok (Z.of_nat cap * elem_size) else Panic.

(** [instrument_vec_op] with an operation that leaves [data'] in the vector;
    the new size and the growth in bytes. *)
Definition instrument_vec_op self (data' : list (K * V)) : outcome VecMapError (VecMap K V * Z) :=
  let old_cap := vm_capacity self in
  let new_cap := if (length data' <=? old_cap)%nat then old_cap
                 else grow old_cap (length data') in
  match (old_cap ?= new_cap)%nat with
  | Lt =>
    old_size ← layout_size old_cap;
    new_size ← layout_size new_cap;
    Ok (mkVecMap data' new_cap (vm_ordering self), wrapping_sub 64 new_size old_size)
  | Eq => Ok (mkVecMap data' new_cap (vm_ordering self), 0)
  | Gt => Panic
  end.

(** Mutating methods return the outcome with the state left behind. *)
Definition VecMap_append self (key : K) (value : V) : outcome VecMapError (VecMap K V * Z) :=
  _ ← validate_key_order self key;
  instrument_vec_op self (vm_data self ++ [(key, value)]).

Definition VecMap_append_or_update_last self (key : K) (value : V) :
    outcome VecMapError (VecMap K V * (option V * Z)) :=
  match last (vm_data self) with
  | Some (last_key, last_value) =>
    match ord_cmp key last_key with
    | Lt => Err InvalidKey
    | Eq => Ok (mkVecMap (<[Nat.pred (length (vm_data self)) := (last_key, value)]> (vm_data self))
                  (vm_capacity self) (vm_ordering self), (Some last_value, 0))
    | Gt => '(self', delta) ← instrument_vec_op self (vm_data self ++ [(key, value)]);
            Ok (self', (None, delta))
    end
  | None => '(self', delta) ← instrument_vec_op self (vm_data self ++ [(key, value)]);
            Ok (self', (None, delta))
  end.

(** Both maps afterwards, and the growth. *)
Definition VecMap_extend self other :
    outcome VecMapError (VecMap K V * VecMap K V * Z) :=
  if negb (bool_decide (vm_ordering self = vm_ordering other)) then Err ExtendOrderingError
  else
    _ ← match last (vm_data other) with
        | Some (other_first, _) => validate_key_order self other_first
        | None => Ok tt
        end;
    '(self', delta) ← instrument_vec_op self (vm_data self ++ vm_data other);
    Ok (self', mkVecMap [] (vm_capacity other) (vm_ordering other), delta).

(** The loop of [from_iter]. *)
Fixpoint append_all self (l : list (K * V)) : outcome VecMapError (VecMap K V) :=
  match l with
  | [] => Ok self
  | (key, value) :: l' =>
    match VecMap_append self key value with
    | Ok (self', _) => append_all self' l'
    | _ => Panic
    end
  end.

Definition VecMap_from_iter (initial_capacity : nat) (l : list (K * V))
    (ordering : VecMapOrdering) : outcome VecMapError (VecMap K V) :=
  append_all (VecMap_with_capacity initial_capacity ordering) l.
End VecMap.

(** ** Order *)

Section order.
Context {K : Type} `{OrdLaws K}.

Definition key_lt (x y : K) : Prop := ord_cmp x y = Lt.
Definition key_le (x y : K) : Prop := ord_cmp x y ≠ Gt.

Lemma key_gt x y : ord_cmp x y = Gt ↔ key_lt y x.
Proof. unfold key_lt. rewrite (ord_flip x y). destruct (ord_cmp x y); naive_solver. Qed.

Lemma key_le_lt_eq x y : key_le x y ↔ key_lt x y ∨ x = y.
Proof.
  unfold key_le, key_lt. rewrite <- (ord_eq x y). destruct (ord_cmp x y); naive_solver.
Qed.

Lemma key_lt_irrefl x : ¬ key_lt x x.
Proof. unfold key_lt. by rewrite (proj2 (ord_eq x x)). Qed.

Lemma key_lt_trans x y z : key_lt x y → key_lt y z → key_lt x z.
Proof. apply ord_trans. Qed.

Lemma key_le_lt_trans x y z : key_le x y → key_lt y z → key_lt x z.
Proof. intros [Hlt| ->]%key_le_lt_eq ?; [by eapply key_lt_trans|done]. Qed.

Lemma key_lt_le_trans x y z : key_lt x y → key_le y z → key_lt x z.
Proof. intros Hlt [?| <-]%key_le_lt_eq; [by eapply key_lt_trans|done]. Qed.

Lemma key_le_trans x y z : key_le x y → key_le y z → key_le x z.
Proof.
  intros Hxy [Hlt| <-]%key_le_lt_eq; [|done]. apply key_le_lt_eq. left. by eapply key_le_lt_trans.
Qed.

Lemma key_not_lt x y : ¬ key_lt x y ↔ key_le y x.
Proof.
  unfold key_le, key_lt. rewrite (ord_flip x y). destruct (ord_cmp x y); simpl; naive_solver.
Qed.

Lemma key_not_le x y : ¬ key_le x y ↔ key_lt y x.
Proof.
  rewrite <- key_gt. unfold key_le. destruct (ord_cmp x y); naive_solver.
Qed.
End order.

(** ** The map is ordered *)

Section spec.
Context {K V : Type} `{KO : Ord K} {KL : OrdLaws K}.
Context (grow : nat → nat → nat) (elem_size : Z).
Implicit Types self other : VecMap K V.

(** The order between consecutive keys the map asks for. *)
Definition key_step (ordering : VecMapOrdering) (x y : K) : Prop :=
  match ordering with Greater => key_lt x y | GreaterOrEqual => key_le x y end.

Definition vm_sorted self : Prop :=
  StronglySorted (λ e1 e2, key_step (vm_ordering self) e1.1 e2.1) (vm_data self).

Lemma key_step_trans o x y z : key_step o x y → key_step o y z → key_step o x z.
Proof. destruct o; [apply key_lt_trans|apply key_le_trans]. Qed.

Lemma validate_key_order_ok self key :
  validate_key_order self key = Ok tt
  ↔ ∀ e, last (vm_data self) = Some e → key_step (vm_ordering self) e.1 key.
Proof.
  unfold validate_key_order, key_step, key_le, key_lt.
  destruct (last (vm_data self)) as [[k v]|]; [|done].
  rewrite (ord_flip k key). transitivity (match vm_ordering self with
    | Greater => ord_cmp k key = Lt | GreaterOrEqual => ord_cmp k key ≠ Gt end).
  - destruct (vm_ordering self), (ord_cmp k key); simpl; naive_solver.
  - split; [by intros Hk e [= <-]|]. intros Hk. apply (Hk (k, v)). done.
Qed.

(** Everything is at most the last entry. *)
Lemma sorted_last o (l : list (K * V)) e x :
  StronglySorted (λ e1 e2, key_step o e1.1 e2.1) l → last l = Some e → x ∈ l →
  x = e ∨ key_step o x.1 e.1.
Proof.
  intros Hs. destruct l as [|e' l _] using rev_ind; [done|]. rewrite last_snoc.
  intros [= ->] [Hx|Hx]%elem_of_app; [right|left; by apply list_elem_of_singleton].
  apply StronglySorted_app in Hs as [Hs _]. apply Hs; [done|]. by apply list_elem_of_singleton.
Qed.

Lemma sorted_snoc o (l : list (K * V)) key value :
  StronglySorted (λ e1 e2, key_step o e1.1 e2.1) l →
  (∀ e, last l = Some e → key_step o e.1 key) →
  StronglySorted (λ e1 e2, key_step o e1.1 e2.1) (l ++ [(key, value)]).
Proof.
  intros Hs Hl. apply StronglySorted_app. split_and!; [|done|repeat constructor].
  intros x y Hx ->%list_elem_of_singleton. simpl.
  destruct (last l) as [e|] eqn:He; [|apply last_None in He; subst; by apply elem_of_nil in Hx].
  destruct (sorted_last o l e x) as [->|]; auto. eapply key_step_trans; eauto.
Qed.

Lemma instrument_data self data' self' delta :
  instrument_vec_op grow elem_size self data' = Ok (self', delta) →
  vm_data self' = data' ∧ vm_ordering self' = vm_ordering self
  ∧ (vm_capacity self ≤ vm_capacity self')%nat.
Proof.
  unfold instrument_vec_op. set (c := if (_ <=? _)%nat then _ else _).
  destruct (Nat.compare_spec (vm_capacity self) c) as [Hc|Hc|Hc]; [| |done].
  - intros [= <- _]. simpl. split_and!; [done..|lia].
  - unfold layout_size. repeat case_match; simpl; [|done..]. intros [= <- _]. simpl.
    split_and!; [done..|lia].
Qed.

Lemma instrument_no_err self data' e :
  instrument_vec_op grow elem_size self data' = Err e → False.
Proof.
  unfold instrument_vec_op, layout_size. repeat case_match; simpl; done.
Qed.

Lemma validate_key_order_err self key e :
  validate_key_order self key = Err e →
  e = InvalidKey ∧ ∃ e, last (vm_data self) = Some e ∧ ¬ key_step (vm_ordering self) e.1 key.
Proof.
  intros Hv. split.
  - unfold validate_key_order in Hv. repeat case_match; simplify_eq; done.
  - destruct (last (vm_data self)) as [e'|] eqn:He.
    + exists e'. split; [done|]. intros Hstep.
      assert (Hok : validate_key_order self key = Ok tt); [|congruence].
      apply validate_key_order_ok. intros e'' He''. rewrite He in He''. by simplify_eq.
    + unfold validate_key_order in Hv. by rewrite He in Hv.
Qed.

(** Replacing the value of the last entry. *)
Lemma update_last self key value old :
  vm_sorted self → last (vm_data self) = Some (key, old) →
  let self' := mkVecMap (<[Nat.pred (length (vm_data self)) := (key, value)]> (vm_data self))
                 (vm_capacity self) (vm_ordering self) in
  vm_sorted self' ∧ last (vm_data self') = Some (key, value)
  ∧ vm_data self' = take (length (vm_data self) - 1) (vm_data self) ++ [(key, value)].
Proof.
  destruct self as [data cap o]. unfold vm_sorted. simpl. intros Hs Hl.
  destruct data as [|e data _] using rev_ind; [done|].
  rewrite last_snoc in Hl. injection Hl as ->.
  rewrite length_app, Nat.add_1_r. simpl. rewrite Nat.sub_0_r, insert_app_r_alt, Nat.sub_diag by lia.
  simpl. rewrite take_app_length, last_snoc. split_and!; try done.
  apply StronglySorted_app in Hs as (Hs & Hd & _). apply StronglySorted_app.
  split_and!; [|done|repeat constructor].
  intros x y Hx ->%list_elem_of_singleton. apply (Hs x (key, old) Hx). by apply list_elem_of_singleton.
Qed.

(** ** Ranges *)

#[export] Instance key_lt_dec (x y : K) : Decision (key_lt x y).
Proof. unfold key_lt. apply _. Defined.
#[export] Instance key_le_dec (x y : K) : Decision (key_le x y).
Proof. unfold key_le. apply _. Defined.

Definition above (lo : Bound K) (k : K) : Prop :=
  match lo with Included x => key_le x k | Excluded x => key_lt x k | Unbounded => True end.
Definition below (hi : Bound K) (k : K) : Prop :=
  match hi with Included x => key_le k x | Excluded x => key_lt k x | Unbounded => True end.

#[export] Instance above_dec lo k : Decision (above lo k).
Proof. destruct lo; apply _. Defined.
#[export] Instance below_dec hi k : Decision (below hi k).
Proof. destruct hi; apply _. Defined.

(** The lower bound is not greater than the upper bound. *)
Definition bounds_ordered (lo hi : Bound K) : Prop :=
  match lo, hi with
  | Excluded x, Excluded y => key_lt x y
  | Included x, Included y | Included x, Excluded y | Excluded x, Included y => key_le x y
  | _, _ => True
  end.

Section strict.
Context (self : VecMap K V) (Hord : vm_ordering self = Greater) (Hs : vm_sorted self).

Lemma sorted_lookup_lt i j e1 e2 :
  (i < j)%nat → vm_data self !! i = Some e1 → vm_data self !! j = Some e2 → key_lt e1.1 e2.1.
Proof using KL Hord Hs.
  intros Hij H1 H2. unfold vm_sorted in Hs. rewrite Hord in Hs.
  rewrite <- (take_drop_middle _ _ _ H1) in Hs.
  apply StronglySorted_app in Hs as (_ & _ & Hs'). apply StronglySorted_inv in Hs' as [_ Hs'].
  rewrite Forall_forall in Hs'. apply Hs'. apply list_elem_of_lookup. exists (j - S i)%nat.
  rewrite lookup_drop. by replace (S i + (j - S i))%nat with j by lia.
Qed.

Lemma search_key_sorted k : search_sorted (λ e : K * V, ord_cmp e.1 k) (vm_data self).
Proof using KL Hord Hs.
  intros i j x y Hij Hx Hy. destruct (decide (i = j)) as [->|Hne].
  { assert (x = y) as -> by congruence. by destruct (ord_cmp _ _). }
  assert (Hlt : key_lt x.1 y.1) by (eapply (sorted_lookup_lt i j); eauto; lia).
  unfold cmp_le. destruct (ord_cmp x.1 k) eqn:Hx', (ord_cmp y.1 k) eqn:Hy'; try done.
  - apply ord_eq in Hx'. subst k. by apply (key_lt_irrefl y.1), (key_lt_trans _ x.1).
  - apply ord_eq in Hy'. subst k. apply key_gt in Hx'. by apply (key_lt_irrefl x.1), (key_lt_trans _ y.1).
  - apply key_gt in Hx'. apply (key_lt_irrefl x.1).
    by apply (key_lt_trans _ y.1), (key_lt_trans _ k).
Qed.

(** Where the search ends: the entries before a start index are those not above
    the bound, the entries before an end index those below it. *)
Lemma search_key_spec k :
  match search_key self k with
  | Found i => (i < length (vm_data self))%nat ∧ ∀ j e, vm_data self !! j = Some e →
      ((j < i)%nat ↔ key_lt e.1 k) ∧ ((j ≤ i)%nat ↔ key_le e.1 k)
  | NotFound i => (i ≤ length (vm_data self))%nat ∧ ∀ j e, vm_data self !! j = Some e →
      ((j < i)%nat ↔ key_lt e.1 k) ∧ ((j < i)%nat ↔ key_le e.1 k)
  end.
Proof using KL Hord Hs.
  unfold search_key. pose proof (binary_search_by_spec _ _ (search_key_sorted k)) as Hb.
  destruct (binary_search_by _ _) as [i|i].
  - destruct Hb as (x & Hx & Hk%ord_eq). subst k. split; [by eapply lookup_lt_Some|].
    intros j e Hj. destruct (Nat.lt_trichotomy j i) as [Hji|[->|Hji]].
    + assert (key_lt e.1 x.1) by by eapply (sorted_lookup_lt j i).
      split; split; try (done || lia). intros _. apply key_le_lt_eq. by left.
    + assert (e = x) as -> by congruence. split; split; try lia.
      * intros []%key_lt_irrefl.
      * intros _. apply key_le_lt_eq. by right.
    + assert (Hlt : key_lt x.1 e.1) by by eapply (sorted_lookup_lt i j).
      split; split; try lia.
      * intros Hlt'. destruct (key_lt_irrefl x.1). by eapply key_lt_trans.
      * intros Hle. destruct (key_lt_irrefl x.1). by eapply key_lt_le_trans.
  - destruct Hb as (Hi & Hlt & Hgt). split; [done|]. intros j e Hj.
    destruct (decide (j < i)%nat) as [Hji|Hji].
    + pose proof (Hlt j e Hji Hj) as Hc. split; split; try done. intros _.
      apply key_le_lt_eq. by left.
    + pose proof (proj1 (key_gt _ _) (Hgt j e ltac:(lia) Hj)) as Hc.
      split; (split; [done|]); [intros Hlt'%(key_lt_trans _ _ _ Hc)|intros Hle%(key_lt_le_trans _ _ _ Hc)];
        by destruct (key_lt_irrefl k).
Qed.

Lemma start_index_spec lo j e :
  vm_data self !! j = Some e → ((start_index self lo ≤ j)%nat ↔ above lo e.1).
Proof using KL Hord Hs.
  intros Hj. destruct lo as [k|k|]; simpl; [| |split; [done|intros _; lia]];
    pose proof (search_key_spec k) as Hk; destruct (search_key self k) as [i|i];
    destruct Hk as [_ Hk]; destruct (Hk j e Hj) as [H1 H2].
  - rewrite <- key_not_lt, <- H1. lia.
  - rewrite <- key_not_lt, <- H1. lia.
  - rewrite <- key_not_le, <- H2. lia.
  - rewrite <- key_not_le, <- H2. lia.
Qed.

Lemma end_index_spec hi :
  (end_index self hi ≤ length (vm_data self))%nat
  ∧ ∀ j e, vm_data self !! j = Some e → ((j < end_index self hi)%nat ↔ below hi e.1).
Proof using KL Hord Hs.
  destruct hi as [k|k|]; simpl.
  1, 2: pose proof (search_key_spec k) as Hk; destruct (search_key self k) as [i|i];
    destruct Hk as [Hi Hk]; (split; [lia|]); intros j e Hj; destruct (Hk j e Hj) as [H1 H2];
    rewrite <- ?H1, <- ?H2; lia.
  split; [done|]. intros j e Hj. apply lookup_lt_Some in Hj. done.
Qed.

(** A slice between two indices is what a predicate selects that holds just
    there. *)
Lemma filter_slice {A} (P : A → Prop) `{∀ x, Decision (P x)} (l : list A) s e :
  (s ≤ e ≤ length l)%nat → (∀ j x, l !! j = Some x → (P x ↔ (s ≤ j < e)%nat)) →
  filter P l = take (e - s) (drop s l).
Proof.
  intros Hse HP. rewrite <- (take_drop s l) at 1. rewrite filter_app, filter_none; simpl.
  - rewrite <- (take_drop (e - s) (drop s l)) at 1. rewrite filter_app.
    rewrite (filter_none _ (drop (e - s) _)), app_nil_r.
    + apply filter_all. rewrite Forall_lookup. intros j x Hj.
      apply lookup_take_Some in Hj as [Hj Hlt]. rewrite lookup_drop in Hj. apply HP in Hj.
      apply Hj. lia.
    + rewrite Forall_lookup. intros j x Hj. rewrite !lookup_drop in Hj. rewrite (HP _ _ Hj). lia.
  - rewrite Forall_lookup. intros j x Hj. apply lookup_take_Some in Hj as [Hj Hlt].
    rewrite (HP _ _ Hj). lia.
Qed.
End strict.

Lemma bounds_ordered_le self lo hi :
  vm_ordering self = Greater → vm_sorted self → bounds_ordered lo hi →
  (start_index self lo ≤ end_index self hi)%nat.
Proof using KL.
  intros Hord Hs Hb. destruct (le_lt_dec (start_index self lo) (end_index self hi)) as [|Hlt]; [done|].
  exfalso. assert (He : (start_index self lo ≤ length (vm_data self))%nat).
  { destruct lo as [k|k|]; simpl; [| |lia]; pose proof (search_key_spec self Hord Hs k) as Hk;
      destruct (search_key self k); lia. }
  destruct (lookup_lt_is_Some_2 (vm_data self) (end_index self hi) ltac:(lia)) as [e Hj].
  pose proof (start_index_spec self Hord Hs lo _ _ Hj) as Ha.
  pose proof (proj2 (end_index_spec self Hord Hs hi) _ _ Hj) as Hbl.
  assert (Hna : ¬ above lo e.1) by (rewrite <- Ha; lia).
  assert (Hnb : ¬ below hi e.1) by (rewrite <- Hbl; lia).
  destruct lo as [x|x|], hi as [y|y|]; simpl in *; rewrite ?key_not_le, ?key_not_lt in *; try done.
  - apply (key_lt_irrefl e.1). eapply key_lt_le_trans; [exact Hna|]. by eapply key_le_trans, key_le_lt_eq; [|left].
  - apply (key_lt_irrefl e.1). eapply key_lt_le_trans; [exact Hna|]. by eapply key_le_trans.
  - apply (key_lt_irrefl e.1). eapply key_le_lt_trans; [exact Hna|]. by eapply key_le_lt_trans.
  - apply (key_lt_irrefl e.1). eapply key_le_lt_trans; [exact Hna|]. by eapply key_lt_le_trans.
Qed.

(** A slice of a strictly ordered map holds exactly the entries in the range;
    it panics only when the bounds are reversed. *)
Theorem slice_range_exact self (lo hi : Bound K)
    (Hord : vm_ordering self = Greater) (Hs : vm_sorted self) :
  match VecMap_slice_range self lo hi with
  | Ok l => l = filter (λ e, above lo e.1 ∧ below hi e.1) (vm_data self)
  | Err _ => False
  | Panic => ¬ bounds_ordered lo hi
  end.
Proof using KL.
  unfold VecMap_slice_range. destruct (end_index_spec self Hord Hs hi) as [Hlen Hend].
  rewrite (proj2 (Nat.leb_le (end_index self hi) _)), andb_true_r by done.
  destruct (Nat.leb_spec (start_index self lo) (end_index self hi)) as [Hle|Hlt].
  - symmetry. apply filter_slice; [lia|]. intros j e Hj.
    rewrite <- (start_index_spec self Hord Hs lo j e Hj), <- (Hend j e Hj). done.
  - intros Hb. pose proof (bounds_ordered_le self lo hi Hord Hs Hb). lia.
Qed.

(** ** Mutation keeps the order *)

(** [append] adds an entry exactly when its key is in order, and [append_or_update_last]
    exactly when it is not below the last key; both keep the map ordered. *)
Theorem append_keeps_order self key value (Hs : vm_sorted self) :
  match VecMap_append grow elem_size self key value with
  | Ok (self', _) =>
    vm_sorted self' ∧ vm_data self' = vm_data self ++ [(key, value)]
    ∧ vm_ordering self' = vm_ordering self
    ∧ ∀ e, last (vm_data self) = Some e → key_step (vm_ordering self) e.1 key
  | Err e => e = InvalidKey
             ∧ ∃ e, last (vm_data self) = Some e ∧ ¬ key_step (vm_ordering self) e.1 key
  | Panic => True
  end
  ∧ match VecMap_append_or_update_last grow elem_size self key value with
    | Ok (self', (old, _)) =>
      vm_sorted self' ∧ last (vm_data self') = Some (key, value)
      ∧ vm_data self' = (if old then take (length (vm_data self) - 1) (vm_data self)
                         else vm_data self) ++ [(key, value)]
    | Err e => e = InvalidKey ∧ ∃ e, last (vm_data self) = Some e ∧ key_lt key e.1
    | Panic => True
    end.
Proof using KL.
  split.
  - unfold VecMap_append. destruct (validate_key_order self key) as [[]|e|] eqn:Hv; simpl; [| |done].
    + rewrite validate_key_order_ok in Hv.
      destruct (instrument_vec_op _ _ _ _) as [[self' d]|e|] eqn:Hi; [| |done].
      * apply instrument_data in Hi as (Hd & Ho & _). split_and!; try done.
        unfold vm_sorted. rewrite Hd, Ho. by apply sorted_snoc.
      * by apply instrument_no_err in Hi.
    + apply validate_key_order_err in Hv. naive_solver.
  - unfold VecMap_append_or_update_last.
    assert (Hpush : (∀ e, last (vm_data self) = Some e → key_lt e.1 key) →
      match '(self', delta) ← instrument_vec_op grow elem_size self (vm_data self ++ [(key, value)]);
            Ok (self', (None, delta)) with
      | Ok (self', (old, _)) => vm_sorted self' ∧ last (vm_data self') = Some (key, value)
          ∧ vm_data self' = (if old : option V then take (length (vm_data self) - 1) (vm_data self)
                             else vm_data self) ++ [(key, value)]
      | Err e => e = InvalidKey ∧ ∃ e, last (vm_data self) = Some e ∧ key_lt key e.1
      | Panic => True
      end).
    { intros Hlt. destruct (instrument_vec_op _ _ _ _) as [[self' d]|e|] eqn:Hi; simpl; [| |done].
      - apply instrument_data in Hi as (Hd & Ho & _). unfold vm_sorted. rewrite Hd, Ho, last_snoc.
        split_and!; try done. apply sorted_snoc; [done|]. intros e He. specialize (Hlt e He).
        destruct (vm_ordering self); [done|]. apply key_le_lt_eq. by left.
      - by apply instrument_no_err in Hi. }
    destruct (last (vm_data self)) as [[lk lv]|] eqn:Hl; [|by apply Hpush].
    destruct (ord_cmp key lk) eqn:Hc.
    + apply ord_eq in Hc. subst lk. by apply (update_last self key value lv).
    + simpl. eauto.
    + apply Hpush. intros e [= <-]. by apply key_gt.
Qed.

(** [extend] keeps the order when the first of the new keys is in order; the
    code looks at the last of them instead. *)
Lemma extend_keeps_order self other self' other' delta :
  vm_sorted self → vm_sorted other →
  (∀ e e', last (vm_data self) = Some e → head (vm_data other) = Some e' →
     key_step (vm_ordering self) e.1 e'.1) →
  VecMap_extend grow elem_size self other = Ok (self', other', delta) →
  vm_sorted self' ∧ vm_data self' = vm_data self ++ vm_data other ∧ vm_data other' = [].
Proof using KL.
  intros Hs Ho Hfirst. unfold VecMap_extend. case_bool_decide as Hord; [|done]. simpl.
  destruct (match last (vm_data other) with Some _ => _ | None => _ end); [|done..]. simpl.
  destruct (instrument_vec_op _ _ _ _) as [[m d]|e|] eqn:Hi; [|done..]. intros [= <- <- _].
  apply instrument_data in Hi as (Hd & Hor & _). split_and!; [|done|done].
  unfold vm_sorted in *. rewrite Hd, Hor. apply StronglySorted_app.
  split_and!; [|done|by rewrite Hord]. intros x y Hx Hy.
  destruct (last (vm_data self)) as [e|] eqn:He;
    [|apply last_None in He; rewrite He in Hx; by apply elem_of_nil in Hx].
  destruct (vm_data other) as [|e' l] eqn:Hdata; [by apply elem_of_nil in Hy|].
  assert (Hstep : key_step (vm_ordering self) x.1 e'.1).
  { destruct (sorted_last _ _ _ _ Hs He Hx) as [->|Hxe]; [by apply Hfirst|].
    eapply key_step_trans; [exact Hxe|]. by apply Hfirst. }
  apply elem_of_cons in Hy as [->|Hy]; [done|]. eapply key_step_trans; [exact Hstep|].
  apply StronglySorted_inv in Ho as [_ Ho]. rewrite Forall_forall, <- Hord in Ho. by apply Ho.
Qed.

(** Collecting entries: with room for them, the map holds them if they are in
    order, and the collection panics if they are not. *)
Lemma append_all_spec l : ∀ self,
  vm_sorted self → (length (vm_data self) + length l ≤ vm_capacity self)%nat →
  StronglySorted (λ e1 e2 : K * V, key_step (vm_ordering self) e1.1 e2.1) (vm_data self ++ l) ∧
    append_all grow elem_size self l
    = Ok (mkVecMap (vm_data self ++ l) (vm_capacity self) (vm_ordering self))
  ∨ ¬ StronglySorted (λ e1 e2 : K * V, key_step (vm_ordering self) e1.1 e2.1) (vm_data self ++ l)
    ∧ append_all grow elem_size self l = Panic.
Proof using KL.
  induction l as [|[k v] l IH]; intros self Hs Hcap; simpl in *.
  { left. rewrite app_nil_r. split; [done|]. by destruct self. }
  unfold VecMap_append. destruct (validate_key_order self k) as [[]|e|] eqn:Hv; simpl.
  - unfold instrument_vec_op. rewrite length_app. simpl.
    rewrite (proj2 (Nat.leb_le _ _)), Nat.compare_refl by lia.
    rewrite validate_key_order_ok in Hv.
    specialize (IH (mkVecMap (vm_data self ++ [(k, v)]) (vm_capacity self) (vm_ordering self))).
    simpl in IH. rewrite length_app, <- app_assoc in IH. simpl in IH.
    apply IH; [by apply sorted_snoc|lia].
  - right. split; [|done]. apply validate_key_order_err in Hv as (_ & e' & He & Hn). intros Hss.
    apply StronglySorted_app in Hss as (Hss & _). apply Hn, (Hss e' (k, v)); [|left].
    by apply last_Some_elem_of.
  - exfalso. clear -Hv. unfold validate_key_order in Hv. repeat case_match; done.
Qed.

Theorem from_iter_sorted (ordering : VecMapOrdering) (l : list (K * V)) :
  let sorted := StronglySorted (λ e1 e2 : K * V, key_step ordering e1.1 e2.1) l in
  (sorted → VecMap_from_iter grow elem_size (length l) l ordering
            = Ok (mkVecMap l (length l) ordering))
  ∧ (¬ sorted → VecMap_from_iter grow elem_size (length l) l ordering = Panic).
Proof using KL.
  destruct (append_all_spec l (VecMap_with_capacity (length l) ordering)) as [[Hs Ha]|[Hs Ha]];
    [constructor|simpl; lia|..]; simpl in Hs, Ha; unfold VecMap_from_iter; tauto.
Qed.
End spec.

(** ** Examples *)

Lemma slice_range_exact_witness :
  let m := mkVecMap [(10, true); (20, false); (30, true)] 3 Greater in
  VecMap_slice_range m (Excluded 10) (Included 25) = Ok [(20, false)]
  ∧ filter (λ e : Z * bool, above (Excluded 10) e.1 ∧ below (Included 25) e.1) (vm_data m)
    = [(20, false)].
Proof.
  intros m. assert (Hs : vm_sorted m) by (repeat constructor).
  pose proof (slice_range_exact m (Excluded 10) (Included 25) eq_refl Hs) as Hr.
  assert (Hm : VecMap_slice_range m (Excluded 10) (Included 25) = Ok [(20, false)])
    by (vm_compute; reflexivity).
  rewrite Hm in Hr. split; [exact Hm|symmetry; exact Hr].
Defined.

Lemma append_keeps_order_witness :
  let m := mkVecMap [(10, true); (20, false)] 2 Greater in
  VecMap_append (λ _ n, n) 16 m 20 true = Err InvalidKey
  ∧ ∃ e, last (vm_data m) = Some e ∧ ¬ key_step Greater e.1 20.
Proof.
  intros m. assert (Hs : vm_sorted m) by (repeat constructor).
  destruct (append_keeps_order (λ _ n, n) 16 m 20 true Hs) as [Ha _].
  assert (Hm : VecMap_append (λ _ n, n) 16 m 20 true = Err InvalidKey)
    by (vm_compute; reflexivity).
  rewrite Hm in Ha. split; [exact Hm|apply Ha].
Defined.

(** [extend] compares the last key of the other map with the last key of this
    one; smaller keys before it come in out of order. *)
Example extend_breaks_order :
  let self := mkVecMap [(5, true)] 4 Greater in
  let other := mkVecMap [(1, false); (9, false)] 2 Greater in
  VecMap_extend (λ _ n, n) 16 self other
  = Ok (mkVecMap [(5, true); (1, false); (9, false)] 4 Greater, mkVecMap [] 2 Greater, 0).
Proof. vm_compute. reflexivity. Qed.

(** With equal keys, which [GreaterOrEqual] admits, the search may end in the
    middle of them: a range that includes the key does not get all its entries. *)
Example slice_range_misses_equal_keys :
  let m := mkVecMap [(1, 10); (1, 11); (1, 12)] 3 GreaterOrEqual in
  VecMap_slice_range m (Included 1) Unbounded = Ok [(1, 12)].
Proof. vm_compute. reflexivity. Qed.
