(* ===== verification/Ids.v ===== *)
(** * Identifiers

    [libs/utils/src/id.rs] and the identifier half of [libs/utils/src/shard.rs]:
    tenant and timeline ids, shard numbers and counts, [TenantShardId] and
    [ShardIndex], with their text and packed forms.

    Text is the list of its UTF-8 code units, as [str::len] and the byte slices
    of the source see it.  The [hex] crate is a parameter. *)

From S2P Require Import Prelude Bytes Text.

Inductive FromHexError :=
  | InvalidHexCharacter (c : Z) (index : nat)
  | OddLength
  | InvalidStringLength.

(** ** The [hex] crate *)

(** Two lower case digits of a byte. *)
Definition hex_pair (b : byte) : list Z :=
  [digit_lower (byte_val b / 16); digit_lower (byte_val b mod 16)].

(** [hex::decode_to_slice(text, &mut [0; n])] *)
Class HexCrate := decode_to_slice : list Z → nat → outcome FromHexError bytes.

(** What its documentation promises: it never panics, an input that is not two
    digits per byte of the output is refused, and so is one with another
    character; lower case digits are read as the bytes they stand for. *)
Class HexCrateLaws `{HexCrate} : Prop := {
  decode_no_panic s n : decode_to_slice s n ≠ Panic;
  decode_length s n bs : decode_to_slice s n = Ok bs →
    length s = (2 * n)%nat ∧ length bs = n;
  decode_digits s n bs : decode_to_slice s n = Ok bs →
    Forall (λ c, is_ascii_hexdigit c = true) s;
  decode_lower bs : decode_to_slice (concat (hex_pair <$> bs)) (length bs) = Ok bs;
}.

(** ** [Id], [TenantId], [TimelineId] *)

Inductive IdError := SliceParseError (len : Z).

(** [[u8; 16]] *)
Abbreviation Id := bytes.
Abbreviation TenantId := bytes.
Abbreviation TimelineId := bytes.

(** [ShardNumber(u8)], [ShardCount(u8)] *)
Abbreviation ShardNumber := Z.
Abbreviation ShardCount := Z.

Definition Id_wf (id : Id) : Prop := length id = 16%nat.

#[export] Instance Id_wf_dec id : Decision (Id_wf id).
Proof. unfold Id_wf. apply _. Defined.

Definition Id_from_slice (src : bytes) : outcome IdError Id :=
  if negb (bool_decide (length src = 16%nat)) then Err (SliceParseError (Z.of_nat (length src)))
  else Ok src.

Definition HEX : list Z := lit "0123456789abcdef".

(** The index is below 16, the length of the table. *)
Definition Id_hex_encode (self : Id) : list Z :=
  concat ((λ b,
    [nth (Z.to_nat (Z.land (Z.shiftr (byte_val b) 4) 15)) HEX 0;
     nth (Z.to_nat (Z.land (byte_val b) 15)) HEX 0]) <$> self).

Section Text.
Context `{HexCrate}.

Definition Id_from_hex (hex : list Z) : outcome FromHexError Id := decode_to_slice hex 16.

Definition Id_from_str (s : list Z) : outcome FromHexError Id := Id_from_hex s.

(** ** Pairs of tenant and timeline *)

Record TenantTimelineId := { ttid_tenant_id : TenantId; ttid_timeline_id : TimelineId }.

Definition TenantTimelineId_empty : TenantTimelineId :=
  {| ttid_tenant_id := replicate 16 x00; ttid_timeline_id := replicate 16 x00 |}.

Definition TenantTimelineId_display (self : TenantTimelineId) : list Z :=
  Id_hex_encode (ttid_tenant_id self) ++ 47 :: Id_hex_encode (ttid_timeline_id self).

Definition anyhow_hex {A} (r : outcome FromHexError A) : outcome string A :=
  match r with Ok a => Ok a | Err _ => Err "hex"%string | Panic => Panic end.

Definition TenantTimelineId_from_str (s : list Z) : outcome string TenantTimelineId :=
  let parts := split 47 s in
  p0 ← ok_or (parts !! 0%nat) "TenantTimelineId must contain tenant_id"%string;
  tenant_id ← anyhow_hex (Id_from_str p0);
  p1 ← ok_or (parts !! 1%nat) "TenantTimelineId must contain timeline_id"%string;
  timeline_id ← anyhow_hex (Id_from_str p1);
  if bool_decide (is_Some (parts !! 2%nat))
  then Err "TenantTimelineId must contain only tenant_id and timeline_id"%string
  else Ok {| ttid_tenant_id := tenant_id; ttid_timeline_id := timeline_id |}.

(** ** Shards *)

(** Unsharded tenants have one shard. *)
Definition ShardCount_count (self : ShardCount) : Z := if 0 <? self then self else 1.
Definition ShardCount_is_unsharded (self : ShardCount) : bool := self =? 0.

Record ShardIndex := mkShardIndex { si_shard_number : ShardNumber; si_shard_count : ShardCount }.

Record TenantShardId := mkTenantShardId {
  tenant_id : TenantId;
  shard_number : ShardNumber;
  shard_count : ShardCount;
}.

Definition TenantShardId_unsharded (tenant_id : TenantId) : TenantShardId :=
  mkTenantShardId tenant_id 0 0.

(** Inclusive range, as its two ends. *)
Definition TenantShardId_tenant_range (tenant_id : TenantId) : TenantShardId * TenantShardId :=
  (mkTenantShardId tenant_id 0 0, mkTenantShardId tenant_id u8_max u8_max).

Definition TenantShardId_is_shard_zero (self : TenantShardId) : bool := shard_number self =? 0.

Definition TenantShardId_is_unsharded (self : TenantShardId) : bool :=
  (shard_number self =? 0) && ShardCount_is_unsharded (shard_count self).

Definition TenantShardId_to_index (self : TenantShardId) : ShardIndex :=
  mkShardIndex (shard_number self) (shard_count self).

Definition split_loop (self : TenantShardId) (new_shard_count : ShardCount) (shard_number' : Z)
    (child_shards : list TenantShardId) : list TenantShardId :=
  let effective_old_shard_count := Z.max (shard_count self) 1 in
  if shard_number' `mod` effective_old_shard_count =? shard_number self
  then child_shards ++ [mkTenantShardId (tenant_id self) shard_number' new_shard_count]
  else child_shards.

Definition TenantShardId_split (self : TenantShardId) (new_shard_count : ShardCount) :
    list TenantShardId :=
  fold_left (λ acc n, split_loop self new_shard_count n acc)
    (seqZ 0 new_shard_count) [].

(** [{:02x}] *)
Definition fmt_02x (z : Z) : list Z := pad_zero 2 (fmt_lower_hex z).

Definition ShardSlug_display (self : TenantShardId) : list Z :=
  fmt_02x (shard_number self) ++ fmt_02x (shard_count self).

Definition TenantShardId_display (self : TenantShardId) : list Z :=
  if negb (shard_count self =? 0)
  then Id_hex_encode (tenant_id self) ++ 45 :: ShardSlug_display self
  else Id_hex_encode (tenant_id self).

(** The array written by [decode_to_slice] on success. *)
Definition shard_parts (bs : bytes) : Z * Z :=
  (byte_val (nth 0 bs x00), byte_val (nth 1 bs x00)).

Definition TenantShardId_from_str (s : list Z) : outcome FromHexError TenantShardId :=
  if bool_decide (length s = 32%nat) then
    id ← Id_from_str s;
    Ok (mkTenantShardId id 0 0)
  else if bool_decide (length s = 37%nat) then
    id ← Id_from_hex (take 32 s);
    parts ← decode_to_slice (take 4 (drop 33 s)) 2;
    Ok (mkTenantShardId id (shard_parts parts).1 (shard_parts parts).2)
  else Err InvalidStringLength.

(** [impl From<[u8; 18]>] and the packed form of [serialize] *)
Definition TenantShardId_from_array (b : bytes) : TenantShardId :=
  mkTenantShardId (take 16 b) (byte_val (nth 16 b x00)) (byte_val (nth 17 b x00)).

Definition TenantShardId_packed (self : TenantShardId) : bytes :=
  tenant_id self ++ [byte_of (shard_number self); byte_of (shard_count self)].

Definition ShardIndex_unsharded : ShardIndex := mkShardIndex 0 0.

Definition ShardIndex_is_unsharded (self : ShardIndex) : bool :=
  (si_shard_number self =? 0) && (si_shard_count self =? 0).

Definition ShardIndex_get_suffix (self : ShardIndex) : list Z :=
  if ShardIndex_is_unsharded self then []
  else 45 :: fmt_02x (si_shard_number self) ++ fmt_02x (si_shard_count self).

Definition ShardIndex_display (self : ShardIndex) : list Z :=
  fmt_02x (si_shard_number self) ++ fmt_02x (si_shard_count self).

Definition ShardIndex_from_str (s : list Z) : outcome FromHexError ShardIndex :=
  if bool_decide (length s = 4%nat) then
    parts ← decode_to_slice s 2;
    Ok (mkShardIndex (shard_parts parts).1 (shard_parts parts).2)
  else Err InvalidStringLength.

Definition ShardIndex_from_array (b : bytes) : ShardIndex :=
  mkShardIndex (byte_val (nth 0 b x00)) (byte_val (nth 1 b x00)).

Definition ShardIndex_packed (self : ShardIndex) : bytes :=
  [byte_of (si_shard_number self); byte_of (si_shard_count self)].

End Text.

(** ** Properties *)

Lemma HEX_digit d : 0 ≤ d < 16 → nth (Z.to_nat d) HEX 0 = digit_lower d.
Proof.
  intros Hd.
  assert (Hall : Forall (λ d, nth (Z.to_nat d) HEX 0 = digit_lower d) (seqZ 0 16)).
  { vm_compute. repeat constructor. }
  rewrite Forall_forall in Hall. apply Hall, elem_of_seqZ. lia.
Qed.

(** The table-driven encoder writes two lower case digits per byte. *)
Lemma Id_hex_encode_pairs id : Id_hex_encode id = concat (hex_pair <$> id).
Proof.
  unfold Id_hex_encode. f_equal. apply list_fmap_ext. intros _ b _.
  pose proof (byte_val_bound b). unfold hex_pair.
  change 15 with (Z.ones 4). rewrite !Z.land_ones, Z.shiftr_div_pow2 by lia.
  change (2 ^ 4) with 16.
  rewrite (Z.mod_small (byte_val b / 16)) by
    (split; [apply Z.div_pos | apply Z.div_lt_upper_bound]; lia).
  rewrite !HEX_digit; [done | apply Z.mod_pos_bound; lia |
    split; [apply Z.div_pos | apply Z.div_lt_upper_bound]; lia].
Qed.

Lemma fmt_02x_pair z : in_u 8 z → fmt_02x z = hex_pair (byte_of z).
Proof.
  intros Hz.
  assert (Hall : forallb (λ z, bool_decide (fmt_02x z = hex_pair (byte_of z))) (seqZ 0 256) = true)
    by (vm_compute; reflexivity).
  apply forallb_true_Forall in Hall. rewrite Forall_forall in Hall.
  eapply bool_decide_eq_true, Hall, elem_of_seqZ. unfold in_u in Hz. lia.
Qed.

Lemma length_pairs bs : length (concat (hex_pair <$> bs)) = (2 * length bs)%nat.
Proof.
  induction bs as [|b bs IH]; [done|]. rewrite fmap_cons. cbn [concat].
  rewrite length_app, IH. simpl. lia.
Qed.

Lemma byte_val_of_u8 z : in_u 8 z → byte_val (byte_of z) = z.
Proof. intros. rewrite byte_val_of. apply Z.mod_small. done. Qed.

Section Roundtrip.
Context `{HexCrateLaws}.

Lemma Id_from_hex_encode id : Id_wf id → Id_from_hex (Id_hex_encode id) = Ok id.
Proof.
  intros Hid. unfold Id_from_hex. rewrite Id_hex_encode_pairs. rewrite <- Hid. apply decode_lower.
Qed.

Lemma length_Id_hex_encode id : Id_wf id → length (Id_hex_encode id) = 32%nat.
Proof. intros Hid. rewrite Id_hex_encode_pairs, length_pairs, Hid. done. Qed.

Lemma decode_slug a b :
  in_u 8 a → in_u 8 b →
  ∃ bs, decode_to_slice (fmt_02x a ++ fmt_02x b) 2 = Ok bs ∧ shard_parts bs = (a, b).
Proof.
  intros Ha Hb. exists [byte_of a; byte_of b]. split.
  - rewrite !fmt_02x_pair by done. apply (decode_lower [byte_of a; byte_of b]).
  - unfold shard_parts. simpl. by rewrite !byte_val_of_u8.
Qed.

Lemma length_fmt_02x z : in_u 8 z → length (fmt_02x z) = 2%nat.
Proof. intros. by rewrite fmt_02x_pair. Qed.

Lemma TenantShardId_from_str_suffix t n c sep :
  Id_wf t → in_u 8 n → in_u 8 c →
  TenantShardId_from_str (Id_hex_encode t ++ sep :: fmt_02x n ++ fmt_02x c)
  = Ok (mkTenantShardId t n c).
Proof.
  intros Ht Hn Hc. pose proof (length_Id_hex_encode t Ht) as Hl.
  destruct (decode_slug n c Hn Hc) as (bs & Hd & Hp). unfold TenantShardId_from_str.
  rewrite bool_decide_eq_false_2, bool_decide_eq_true_2
    by (rewrite length_app; cbn [length]; rewrite length_app, !length_fmt_02x, Hl; done).
  rewrite drop_app_ge, Hl by (rewrite Hl; lia). cbn [Nat.sub]. rewrite skipn_cons, drop_0.
  rewrite (take_app_length' _ _ 32), Id_from_hex_encode by done. cbn [mbind outcome_bind].
  rewrite take_ge by (rewrite length_app, !length_fmt_02x; done).
  rewrite Hd. cbn [mbind outcome_bind]. by rewrite Hp.
Qed.

(** The text form of a shard id is read back: with a shard suffix as it is, and
    without one as the unsharded tenant. *)
Theorem TenantShardId_roundtrip (id : TenantShardId)
    (Hid : Id_wf (tenant_id id)) (Hn : in_u 8 (shard_number id)) (Hc : in_u 8 (shard_count id))
    (Hu : shard_count id = 0 → shard_number id = 0) :
  TenantShardId_from_str (TenantShardId_display id) = Ok id
  ∧ TenantShardId_from_array (TenantShardId_packed id) = id.
Proof.
  destruct id as [t n c]; simpl in *. split.
  - unfold TenantShardId_display, TenantShardId_from_str, Id_from_str. simpl.
    destruct (Z.eqb_spec c 0) as [->|Hc0]; simpl.
    + rewrite Hu by done. rewrite bool_decide_eq_true_2 by by apply length_Id_hex_encode.
      by rewrite Id_from_hex_encode.
    + unfold ShardSlug_display; simpl.
      by apply TenantShardId_from_str_suffix.
  - unfold TenantShardId_packed, TenantShardId_from_array; simpl.
    unfold Id_wf in Hid. rewrite (take_app_length' _ _ 16) by done.
    rewrite !app_nth2 by (rewrite Hid; lia). rewrite Hid. simpl. by rewrite !byte_val_of_u8.
Qed.

(** ... and the same for the index and for the pair of ids. *)
Theorem ShardIndex_roundtrip (si : ShardIndex)
    (Hn : in_u 8 (si_shard_number si)) (Hc : in_u 8 (si_shard_count si)) :
  ShardIndex_from_str (ShardIndex_display si) = Ok si
  ∧ ShardIndex_from_array (ShardIndex_packed si) = si.
Proof.
  destruct si as [n c]; simpl in *. split.
  - unfold ShardIndex_from_str, ShardIndex_display; cbn [si_shard_number si_shard_count].
    rewrite bool_decide_eq_true_2 by (rewrite length_app, !length_fmt_02x; done).
    destruct (decode_slug n c Hn Hc) as (bs & -> & Hp). cbn [mbind outcome_bind]. by rewrite Hp.
  - unfold ShardIndex_from_array, ShardIndex_packed; simpl. by rewrite !byte_val_of_u8.
Qed.

Lemma hex_no_slash id : Forall (λ c, c ≠ 47) (Id_hex_encode id).
Proof.
  rewrite Id_hex_encode_pairs. apply Forall_concat, Forall_fmap, Forall_true. intros b.
  pose proof (byte_val_bound b). unfold hex_pair, digit_lower. simpl.
  pose proof (Z.mod_pos_bound (byte_val b) 16).
  assert (0 ≤ byte_val b / 16) by (apply Z.div_pos; lia).
  repeat constructor; case_match; lia.
Qed.

Theorem TenantTimelineId_roundtrip (id : TenantTimelineId)
    (Ht : Id_wf (ttid_tenant_id id)) (Hl : Id_wf (ttid_timeline_id id)) :
  TenantTimelineId_from_str (TenantTimelineId_display id) = Ok id.
Proof.
  unfold TenantTimelineId_from_str, TenantTimelineId_display, Id_from_str.
  rewrite split_app_sep, split_no_sep by apply hex_no_slash. simpl.
  rewrite !Id_from_hex_encode by done. simpl.
  by destruct id.
Qed.

(** The byte between the tenant and the shard suffix is not looked at: any
    character in its place is accepted. *)
Theorem TenantShardId_separator_ignored (t : TenantId) (n c sep : Z)
    (Ht : Id_wf t) (Hn : in_u 8 n) (Hc : in_u 8 c) :
  TenantShardId_from_str (Id_hex_encode t ++ sep :: fmt_02x n ++ fmt_02x c)
  = Ok (mkTenantShardId t n c).
Proof. by apply TenantShardId_from_str_suffix. Qed.
End Roundtrip.

(** ** An implementation of the hex crate's contract *)

Fixpoint hex_decode (s : list Z) (i : nat) : outcome FromHexError bytes :=
  match s with
  | a :: b :: s' =>
    da ← ok_or (digit_value a) (InvalidHexCharacter a i);
    db ← ok_or (digit_value b) (InvalidHexCharacter b (i + 1));
    rest ← hex_decode s' (i + 2);
    Ok (byte_of (da * 16 + db) :: rest)
  | [] => Ok []
  | [_] => Err OddLength
  end.

Definition hex_decode_to_slice : HexCrate := λ s n,
  if bool_decide (length s = 2 * n)%nat then hex_decode s 0 else Err InvalidStringLength.

Lemma hex_decode_sound n : ∀ s i, (length s ≤ n)%nat →
  match hex_decode s i with
  | Ok bs => length s = (2 * length bs)%nat ∧ Forall (λ c, is_ascii_hexdigit c = true) s
  | Err _ => True
  | Panic => False
  end.
Proof.
  induction n as [|n IH]; intros [|a [|b s]] i Hn; simpl in *; try done; try lia.
  unfold is_ascii_hexdigit. destruct (digit_value a) eqn:Ea; [|done]. simpl.
  destruct (digit_value b) eqn:Eb; [|done]. simpl.
  specialize (IH s (i + 2)%nat ltac:(lia)). destruct (hex_decode s _); [|done|done].
  simpl. destruct IH as [IHl IHf]. split; [lia|].
  repeat constructor; [by rewrite Ea | by rewrite Eb | done].
Qed.

Lemma hex_decode_lower bs : ∀ i, hex_decode (concat (hex_pair <$> bs)) i = Ok bs.
Proof.
  induction bs as [|b bs IH]; intros i; [done|]. rewrite fmap_cons. cbn [concat hex_pair app hex_decode].
  pose proof (byte_val_bound b).
  assert (0 ≤ byte_val b / 16 < 16) by
    (split; [apply Z.div_pos | apply Z.div_lt_upper_bound]; lia).
  rewrite !digit_value_lower by (done || by apply Z.mod_pos_bound). simpl. rewrite IH. simpl.
  rewrite Z.mul_comm, <- Z.div_mod by lia. by rewrite byte_of_val.
Qed.

Lemma hex_decode_laws : @HexCrateLaws hex_decode_to_slice.
Proof.
  split; unfold decode_to_slice, hex_decode_to_slice.
  - intros s n. case_match; [|done].
    pose proof (hex_decode_sound (length s) s 0 ltac:(lia)). by destruct (hex_decode s 0).
  - intros s n bs. case_match eqn:E; [|done]. apply bool_decide_eq_true in E. intros Hd.
    pose proof (hex_decode_sound (length s) s 0 ltac:(lia)) as Hs. rewrite Hd in Hs. lia.
  - intros s n bs. case_match eqn:E; [|done]. intros Hd.
    pose proof (hex_decode_sound (length s) s 0 ltac:(lia)) as Hs. rewrite Hd in Hs. tauto.
  - intros bs. rewrite bool_decide_eq_true_2 by apply length_pairs. apply hex_decode_lower.
Qed.

Lemma TenantShardId_roundtrip_witness :
  @TenantShardId_from_str hex_decode_to_slice
    (lit "01020304050607080102030405060708-0104")
  = Ok (mkTenantShardId [x01;x02;x03;x04;x05;x06;x07;x08;x01;x02;x03;x04;x05;x06;x07;x08] 1 4).
Proof.
  apply (@TenantShardId_roundtrip hex_decode_to_slice hex_decode_laws
    (mkTenantShardId [x01;x02;x03;x04;x05;x06;x07;x08;x01;x02;x03;x04;x05;x06;x07;x08] 1 4));
    [done | unfold in_u; simpl; lia | unfold in_u; simpl; lia | done].
Defined.

Lemma TenantTimelineId_roundtrip_witness :
  @TenantTimelineId_from_str hex_decode_to_slice
    (lit "00000000000000000000000000000000/00000000000000000000000000000000")
  = Ok TenantTimelineId_empty.
Proof.
  apply (@TenantTimelineId_roundtrip hex_decode_to_slice hex_decode_laws TenantTimelineId_empty); done.
Defined.

Lemma ShardIndex_roundtrip_witness :
  @ShardIndex_from_str hex_decode_to_slice (lit "0204") = Ok (mkShardIndex 2 4).
Proof.
  apply (@ShardIndex_roundtrip hex_decode_to_slice hex_decode_laws (mkShardIndex 2 4));
    unfold in_u; simpl; lia.
Defined.

Lemma TenantShardId_separator_ignored_witness :
  @TenantShardId_from_str hex_decode_to_slice (lit "00000000000000000000000000000000x0104")
  = Ok (mkTenantShardId (replicate 16 x00) 1 4).
Proof.
  apply (@TenantShardId_separator_ignored hex_decode_to_slice hex_decode_laws
    (replicate 16 x00) 1 4 120); [done | unfold in_u; lia | unfold in_u; lia].
Defined.
