(* ===== verification/Lsn.v ===== *)
(** * Log sequence numbers and WAL file names

    [libs/utils/src/lsn.rs]: the [Lsn] newtype over [u64], its arithmetic,
    parsing and printing; [libs/postgres_ffi/src/xlog_utils.rs]: segment numbers
    and the names of WAL segment files.  An [Lsn] is the [Z] of its [u64].  The
    methods that take a segment size divide by it; a zero size panics in the
    source and is excluded by the hypotheses below ([TimelinePersistentState::new]
    rejects it). *)

From S2P Require Import Prelude Text.

Abbreviation Lsn := Z.

(** ** libs/utils/src/lsn.rs *)

Definition XLOG_BLCKSZ : Z := 8192.

Definition Lsn_MAX : Lsn := u64_max.
Definition Lsn_INVALID : Lsn := 0.

Definition Lsn_checked_sub (self other : Z) : option Lsn := checked_sub self other.
Definition Lsn_saturating_sub (self other : Z) : Lsn := saturating_sub self other.
Definition Lsn_widening_sub (self other : Z) : Z := self - other.

(** The only error of the parsers. *)
Inductive LsnParseError : Type := LsnParseError_.

Definition Lsn_from_hex (s : str) : outcome LsnParseError Lsn :=
  match from_str_radix16 64 s with
  | Some n => Ok n
  | None => Err LsnParseError_
  end.

Definition Lsn_segment_offset (self seg_sz : Z) : Z := self mod seg_sz.
Definition Lsn_segment_lsn (self seg_sz : Z) : Lsn := self - self mod seg_sz.
Definition Lsn_segment_number (self seg_sz : Z) : Z := self / seg_sz.
Definition Lsn_block_offset (self : Lsn) : Z := self mod XLOG_BLCKSZ.
Definition Lsn_page_lsn (self : Lsn) : Lsn := self - Lsn_block_offset self.

(** The last subtraction underflows when the block starts before the segment;
    [u64] subtraction wraps in a release build. *)
Definition Lsn_page_offset_in_segment (self seg_sz : Z) : Z :=
  wrapping_sub 64 (self - Lsn_block_offset self) (Lsn_segment_lsn self seg_sz).

Definition Lsn_remaining_in_block (self : Lsn) : Z := XLOG_BLCKSZ - self mod XLOG_BLCKSZ.

Definition Lsn_calc_padding (self sz : Z) : Z := wrapping_sub 64 sz self mod sz.

(** [(self.0 + 7) & !7] *)
Definition Lsn_align (self : Lsn) : Lsn := Z.ldiff (wrapping_add 64 self 7) 7.
Definition Lsn_is_aligned (self : Lsn) : bool := self =? Lsn_align self.
Definition Lsn_is_valid (self : Lsn) : bool := negb (self =? Lsn_INVALID).

(** [impl FromStr]: exactly two hexadecimal [u32] separated by a slash. *)
Definition Lsn_from_str (s : str) : outcome LsnParseError Lsn :=
  match split 47 (trim s) with
  | [left_s; right_s] =>
    match from_str_radix16 32 left_s, from_str_radix16 32 right_s with
    | Some left_num, Some right_num => Ok (Z.lor (Z.shiftl left_num 32) right_num)
    | _, _ => Err LsnParseError_
    end
  | _ => Err LsnParseError_
  end.

(** [impl Display]: [{:X}/{:X}]. *)
Definition Lsn_display (self : Lsn) : str :=
  fmt_upper_hex (Z.shiftr self 32) ++ 47 :: fmt_upper_hex (Z.land self u32_max).

(** [impl Add<u64>]: panics when the addition overflows. *)
Definition Lsn_add {E} (self other : Z) : outcome E Lsn := unwrap (checked_add 64 self other).

(** [AtomicLsn]: each method is one atomic step on the shared cell. *)
Definition AtomicLsn_load {E} : ST Lsn E Lsn := st_get.
Definition AtomicLsn_store {E} (lsn : Lsn) : ST Lsn E unit := st_put lsn.

(** The cell has already been updated, wrapping, when the assertion fails. *)
Definition AtomicLsn_fetch_add {E} (val : Z) : ST Lsn E Lsn :=
  prev ← st_get;
  _ ← st_put (wrapping_add 64 prev val);
  _ ← st_assert (match checked_add 64 prev val with Some _ => true | None => false end);
  mret prev.

Definition AtomicLsn_fetch_max {E} (lsn : Lsn) : ST Lsn E Lsn :=
  prev ← st_get;
  _ ← st_put (Z.max prev lsn);
  mret prev.

Record RecordLsn := { rl_last : Lsn; rl_prev : Lsn }.

(** [impl MonotonicCounter<Lsn> for RecordLsn] *)
Definition RecordLsn_cnt_advance {E} (lsn : Lsn) : ST RecordLsn E unit :=
  self ← st_get;
  _ ← st_assert (rl_last self <=? lsn);
  st_put {| rl_last := lsn; rl_prev := rl_last self |}.

Definition RecordLsn_cnt_value (self : RecordLsn) : Lsn := rl_last self.

(** ** libs/postgres_ffi/src/xlog_utils.rs *)

Definition XLOG_FNAME_LEN : nat := 24.

Definition XLogSegmentsPerXLogId (wal_segsz_bytes : Z) : Z := 2 ^ 32 / wal_segsz_bytes.

(** [u64] arithmetic wraps in a release build. *)
Definition XLogSegNoOffsetToRecPtr (segno offset wal_segsz_bytes : Z) : Z :=
  wrapping_add 64 (wrapping_mul 64 segno wal_segsz_bytes) offset.

Definition XLogFileName (tli logSegNo wal_segsz_bytes : Z) : str :=
  pad_zero 8 (fmt_upper_hex tli)
  ++ pad_zero 8 (fmt_upper_hex (logSegNo / XLogSegmentsPerXLogId wal_segsz_bytes))
  ++ pad_zero 8 (fmt_upper_hex (logSegNo mod XLogSegmentsPerXLogId wal_segsz_bytes)).

(** The name as the list of its UTF-8 code units. *)
Definition XLogFromFileName (fname : str) (wal_seg_size : Z) :
    outcome LsnParseError (Z * Z) :=
  tli_s ← str_slice fname 0 8;
  tli ← ok_or (from_str_radix16 32 tli_s) LsnParseError_;
  log_s ← str_slice fname 8 16;
  log ← ok_or (from_str_radix16 32 log_s) LsnParseError_;
  seg_s ← str_slice fname 16 24;
  seg ← ok_or (from_str_radix16 32 seg_s) LsnParseError_;
  Ok (wrapping_add 64 (wrapping_mul 64 log (XLogSegmentsPerXLogId wal_seg_size)) seg, tli).

Definition IsXLogFileName (fname : str) : bool :=
  bool_decide (length fname = XLOG_FNAME_LEN) && forallb is_ascii_hexdigit fname.

Definition IsPartialXLogFileName (fname : str) : bool :=
  bool_decide (lit ".partial" `suffix_of` fname)
  && IsXLogFileName (take (length fname - 8) fname).

Section normalize.
(** Sizes of the generated [bindgen] page header structs. *)
Variable XLOG_SIZE_OF_XLOG_LONG_PHD XLOG_SIZE_OF_XLOG_SHORT_PHD : Z.

Definition normalize_lsn {E} (lsn seg_sz : Z) : outcome E Lsn :=
  if lsn mod XLOG_BLCKSZ =? 0 then
    let hdr_size :=
      if lsn mod seg_sz =? 0 then XLOG_SIZE_OF_XLOG_LONG_PHD
      else XLOG_SIZE_OF_XLOG_SHORT_PHD in
    Lsn_add lsn hdr_size
  else Ok (Lsn_align lsn).
End normalize.

(** ** Lemmas *)

(** Hexadecimal text contains neither slashes nor whitespace. *)
Lemma hexdigit_char c :
  is_ascii_hexdigit c = true → c ≠ 47 ∧ is_whitespace c = false.
Proof.
  unfold is_ascii_hexdigit, digit_value, is_whitespace.
  intros H. repeat (case_match; bool_prop); try done;
    (split; [lia|]); repeat apply orb_false_intro;
    rewrite ?andb_false_iff, ?Z.leb_gt, ?Z.eqb_neq; lia.
Qed.

Lemma fmt_upper_hex_chars z :
  in_u 64 z → Forall (λ c, is_ascii_hexdigit c = true) (fmt_upper_hex z).
Proof.
  intros Hz. unfold fmt_upper_hex. apply Forall_fmap.
  eapply Forall_impl; [apply (hex_digits_spec 16 z); unfold in_u in Hz; done|].
  intros d Hd. simpl. unfold is_ascii_hexdigit. by rewrite digit_value_upper.
Qed.

Lemma skip_while_app {A} (p : A → bool) l r :
  Forall (λ x, p x = true) l → skip_while p (l ++ r) = skip_while p r.
Proof. induction 1 as [|x l Hx _ IH]; simpl; [done|]. by rewrite Hx. Qed.

Lemma skip_while_head {A} (p : A → bool) x l : p x = false → skip_while p (x :: l) = x :: l.
Proof. simpl. by intros ->. Qed.

(** Trimming leaves a text whose ends are not whitespace. *)
Lemma trim_surrounded ws1 ws2 s :
  Forall (λ c, is_whitespace c = true) ws1 → Forall (λ c, is_whitespace c = true) ws2 →
  s ≠ [] → Forall (λ c, is_whitespace c = false) s → trim (ws1 ++ s ++ ws2) = s.
Proof.
  intros H1 H2 Hne Hs. unfold trim, trim_start.
  rewrite skip_while_app by done.
  destruct s as [|c s]; [done|]. inversion Hs; subst.
  change ((c :: s) ++ ws2) with (c :: (s ++ ws2)).
  rewrite skip_while_head by done.
  change (c :: s ++ ws2) with ((c :: s) ++ ws2).
  rewrite reverse_app, skip_while_app by (by apply Forall_reverse).
  destruct (reverse (c :: s)) as [|d t] eqn:Er.
  { apply (f_equal length) in Er. rewrite length_reverse in Er. done. }
  rewrite skip_while_head.
  - by rewrite <- Er, reverse_involutive.
  - apply Forall_reverse in Hs. rewrite Er in Hs. by inversion Hs.
Qed.

Lemma shiftr_land_recombine l :
  in_u 64 l →
  in_u 32 (Z.shiftr l 32) ∧ in_u 32 (Z.land l u32_max)
  ∧ Z.lor (Z.shiftl (Z.shiftr l 32) 32) (Z.land l u32_max) = l.
Proof.
  unfold in_u, u32_max. intros Hl.
  change (2 ^ 32 - 1) with (Z.ones 32).
  rewrite Z.land_ones, Z.shiftr_div_pow2 by lia.
  split_and!.
  - apply Z.div_pos; lia.
  - apply Z.div_lt_upper_bound; lia.
  - apply Z.mod_pos_bound; lia.
  - apply Z.mod_pos_bound; lia.
  - rewrite <- Z.shiftr_div_pow2, <- Z.land_ones by lia.
    apply Z.bits_inj'. intros n Hn.
    rewrite Z.lor_spec, Z.land_spec, Z.shiftl_spec by lia.
    destruct (decide (n < 32)).
    + rewrite Z.testbit_neg_r by lia. rewrite Z.ones_spec_low by lia. simpl. by rewrite andb_true_r.
    + rewrite Z.shiftr_spec by lia. rewrite Z.ones_spec_high by lia.
      rewrite andb_false_r, orb_false_r. f_equal. lia.
Qed.

(** ** Theorems *)

(** Parsing undoes printing, also with whitespace around the text. *)
Theorem Lsn_display_from_str (l : Lsn) (ws1 ws2 : str)
    (Hl : in_u 64 l)
    (H1 : Forall (λ c, is_whitespace c = true) ws1)
    (H2 : Forall (λ c, is_whitespace c = true) ws2) :
  Lsn_from_str (ws1 ++ Lsn_display l ++ ws2) = Ok l.
Proof.
  destruct (shiftr_land_recombine l Hl) as (Hhi & Hlo & Hl').
  assert (Hsub : ∀ z, in_u 32 z → in_u 64 z) by (unfold in_u; intros; lia).
  pose proof (fmt_upper_hex_chars _ (Hsub _ Hhi)) as Chi.
  pose proof (fmt_upper_hex_chars _ (Hsub _ Hlo)) as Clo.
  unfold Lsn_from_str. rewrite trim_surrounded; [|done|done| |].
  - unfold Lsn_display.
    rewrite split_app_sep, split_no_sep.
    + rewrite !from_str_radix16_upper by (done || lia). by rewrite Hl'.
    + eapply Forall_impl; [exact Clo|]. intros c Hc. by apply hexdigit_char.
    + eapply Forall_impl; [exact Chi|]. intros c Hc. by apply hexdigit_char.
  - unfold Lsn_display. by destruct (fmt_upper_hex _).
  - unfold Lsn_display. repeat apply Forall_app_2.
    + eapply Forall_impl; [exact Chi|]. intros c Hc. by apply hexdigit_char.
    + constructor; [done|]. eapply Forall_impl; [exact Clo|]. intros c Hc. by apply hexdigit_char.
Qed.

Lemma Lsn_display_from_str_witness :
  Lsn_from_str (lit " 16/3C490F8 ") = Ok (0x16 * 2 ^ 32 + 0x3C490F8).
Proof.
  apply (Lsn_display_from_str (0x16 * 2 ^ 32 + 0x3C490F8) [32] [32]);
    [unfold in_u; lia | by repeat constructor | by repeat constructor].
Defined.

Lemma Lsn_calc_padding_eq l sz :
  in_u 64 l → 0 < sz < 2 ^ 64 → (sz | 2 ^ 64) ∨ l ≤ sz → Lsn_calc_padding l sz = (- l) mod sz.
Proof.
  intros Hl Hsz Hdom. unfold Lsn_calc_padding, wrapping_sub, wrap.
  destruct Hdom as [[k Hk]|Hle].
  - rewrite Hk. rewrite Z.mul_comm, Z.rem_mul_r by nia.
    rewrite Z.mul_comm, Z_mod_plus_full, Zmod_mod.
    replace (sz - l) with (- l + 1 * sz) by lia. apply Z_mod_plus_full.
  - unfold in_u in Hl. rewrite (Z.mod_small (sz - l)) by lia.
    replace (sz - l) with (- l + 1 * sz) by lia. apply Z_mod_plus_full.
Qed.

Lemma Lsn_align_eq x : 0 ≤ x ≤ 2 ^ 64 - 8 → Lsn_align x = (x + 7) / 8 * 8.
Proof.
  intros Hx. unfold Lsn_align, wrapping_add. rewrite wrap_small by (unfold in_u; lia).
  change 7 with (Z.ones 3) at 2. rewrite Z.ldiff_ones_r by lia.
  by rewrite Z.shiftr_div_pow2, Z.shiftl_mul_pow2 by lia.
Qed.

(** The padding completes the chunk exactly when the chunk size divides 2^64
    (a power of two) or the position is inside the first chunk. *)
Theorem Lsn_calc_padding_spec (l sz : Z)
    (Hl : in_u 64 l) (Hsz : 0 < sz < 2 ^ 64)
    (Hdom : (sz | 2 ^ 64) ∨ l ≤ sz) :
  0 ≤ Lsn_calc_padding l sz < sz
  ∧ (l + Lsn_calc_padding l sz) mod sz = 0
  ∧ (∀ p, 0 ≤ p → (l + p) mod sz = 0 → Lsn_calc_padding l sz ≤ p).
Proof.
  rewrite Lsn_calc_padding_eq by done. split_and!; try (apply Z.mod_pos_bound; lia).
  - rewrite Zplus_mod_idemp_r. by rewrite Z.add_opp_diag_r.
  - intros p Hp0 Hm.
    assert ((- l) mod sz = p mod sz) as ->.
    { replace (- l) with (p - (l + p)) by lia.
      rewrite Zminus_mod, Hm, Z.sub_0_r. apply Zmod_mod. }
    apply Z.mod_le; lia.
Qed.

Lemma Lsn_calc_padding_spec_witness :
  0 ≤ Lsn_calc_padding 8191 8192 < 8192 ∧ (8191 + Lsn_calc_padding 8191 8192) mod 8192 = 0.
Proof.
  destruct (Lsn_calc_padding_spec 8191 8192) as (? & ? & _);
    [unfold in_u; lia | lia | right; lia | done].
Defined.

(** Outside that domain the wrap-around shows: position 11, chunks of 10. *)
Example Lsn_calc_padding_not_power_of_two :
  Lsn_calc_padding 11 10 = 5 ∧ (11 + 5) mod 10 ≠ 0.
Proof. vm_compute. split; congruence. Qed.

(** Rounding up to 8 gives the least aligned position, up to the last one. *)
Theorem Lsn_align_spec (l : Lsn) (Hl : 0 ≤ l ≤ 2 ^ 64 - 8) :
  l ≤ Lsn_align l < l + 8 ∧ Lsn_align l mod 8 = 0
  ∧ Lsn_is_aligned (Lsn_align l) = true
  ∧ (Lsn_is_aligned l = true ↔ l mod 8 = 0).
Proof.
  pose proof (Z.div_mod (l + 7) 8 ltac:(lia)).
  pose proof (Z.mod_pos_bound (l + 7) 8 ltac:(lia)).
  rewrite (Lsn_align_eq l) by done.
  assert (0 ≤ (l + 7) / 8 * 8 ≤ 2 ^ 64 - 8) by lia.
  split_and!; try lia.
  - apply Z_mod_mult.
  - unfold Lsn_is_aligned. rewrite Lsn_align_eq by done. apply Z.eqb_eq.
    replace ((l + 7) / 8 * 8 + 7) with (7 + (l + 7) / 8 * 8) by lia.
    rewrite Z.div_add by lia. done.
  - unfold Lsn_is_aligned. rewrite Lsn_align_eq by done. rewrite Z.eqb_eq.
    pose proof (Z.div_mod l 8 ltac:(lia)). pose proof (Z.mod_pos_bound l 8 ltac:(lia)).
    split; intros; lia.
Qed.

(** Three fields of eight characters *)
Lemma XLogFromFileName_fields (a b c suffix : str) (x y z seg_sz : Z) :
  length a = 8%nat → length b = 8%nat → length c = 8%nat →
  Forall (λ c, is_ascii_hexdigit c = true) (a ++ b ++ c) → Forall (λ c, c < 128) suffix →
  from_str_radix16 32 a = Some x → from_str_radix16 32 b = Some y → from_str_radix16 32 c = Some z →
  XLogFromFileName ((a ++ b ++ c) ++ suffix) seg_sz =
    Ok (wrapping_add 64 (wrapping_mul 64 y (XLogSegmentsPerXLogId seg_sz)) z, x).
Proof.
  intros L1 L2 L3 Hhex Hsuf P1 P2 P3. unfold XLogFromFileName.
  assert (Forall (λ c, c < 128) ((a ++ b ++ c) ++ suffix)).
  { apply Forall_app_2; [|done]. by apply (Forall_impl (λ c, is_ascii_hexdigit c = true)); [|apply hexdigit_ascii]. }
  rewrite !str_slice_ascii by (done || rewrite !length_app; lia).
  rewrite <- !app_assoc.
  assert (take (8 - 0) (drop 0 (a ++ b ++ c ++ suffix)) = a) as ->.
  { rewrite drop_0. by apply take_app_length'. }
  assert (take (16 - 8) (drop 8 (a ++ b ++ c ++ suffix)) = b) as ->.
  { rewrite drop_app_length' by done. by apply take_app_length'. }
  assert (take (24 - 16) (drop 16 (a ++ b ++ c ++ suffix)) = c) as ->.
  { rewrite app_assoc, drop_app_length' by (rewrite length_app; lia).
    by apply take_app_length'. }
  cbn [mbind outcome_bind]. rewrite P1. cbn [mbind outcome_bind ok_or].
  rewrite P2. cbn [mbind outcome_bind ok_or]. by rewrite P3.
Qed.

Lemma XLogFileName_parse (tli segno seg_sz : Z) (suffix : str) :
  in_u 32 tli → 0 < seg_sz ≤ 2 ^ 32 → 0 ≤ segno < 2 ^ 32 * XLogSegmentsPerXLogId seg_sz →
  Forall (λ c, c < 128) suffix →
  IsXLogFileName (XLogFileName tli segno seg_sz) = true
  ∧ XLogFromFileName (XLogFileName tli segno seg_sz ++ suffix) seg_sz = Ok (segno, tli).
Proof.
  intros Htli Hsz Hseg Hsuf.
  set (n := XLogSegmentsPerXLogId seg_sz) in *.
  assert (Hn : 0 < n ≤ 2 ^ 32).
  { unfold n, XLogSegmentsPerXLogId. split.
    - apply Z.div_str_pos. lia.
    - apply Z.div_le_upper_bound; nia. }
  assert (Hq : in_u 32 (segno / n)).
  { unfold in_u. split; [apply Z.div_pos; lia|apply Z.div_lt_upper_bound; lia]. }
  assert (Hr : in_u 32 (segno mod n)).
  { unfold in_u. pose proof (Z.mod_pos_bound segno n). lia. }
  assert (F : ∀ z, in_u 32 z →
    length (pad_zero 8 (fmt_upper_hex z)) = 8%nat
    ∧ from_str_radix16 32 (pad_zero 8 (fmt_upper_hex z)) = Some z
    ∧ Forall (λ c, is_ascii_hexdigit c = true) (pad_zero 8 (fmt_upper_hex z))).
  { intros z Hz. apply padded_field; try done; try lia. apply digit_value_upper. }
  destruct (F _ Htli) as (L1 & P1 & C1), (F _ Hq) as (L2 & P2 & C2), (F _ Hr) as (L3 & P3 & C3).
  unfold XLogFileName. fold n. clear F. split.
  - unfold IsXLogFileName. apply andb_true_iff; split.
    + apply bool_decide_eq_true. rewrite !length_app. unfold XLOG_FNAME_LEN. lia.
    + apply forallb_true_Forall. apply Forall_app_2; [done|by apply Forall_app_2].
  - rewrite (XLogFromFileName_fields _ _ _ suffix _ _ _ seg_sz L1 L2 L3
      (Forall_app_2 _ _ _ C1 (Forall_app_2 _ _ _ C2 C3)) Hsuf P1 P2 P3). fold n.
    pose proof (Z.div_mod segno n ltac:(lia)). pose proof (Z.mod_pos_bound segno n ltac:(lia)).
    assert (0 ≤ segno / n) by (apply Z.div_pos; lia).
    unfold wrapping_add, wrapping_mul. unfold in_u in *.
    rewrite (wrap_small 64 (segno / n * n)) by (unfold in_u; nia).
    rewrite wrap_small by (unfold in_u; nia). do 2 f_equal. lia.
Qed.

Lemma XLogFileName_length (tli segno seg_sz : Z) :
  IsXLogFileName (XLogFileName tli segno seg_sz) = true →
  length (XLogFileName tli segno seg_sz) = 24%nat.
Proof. unfold IsXLogFileName. intros [Hl _]%andb_true_iff. by apply bool_decide_eq_true in Hl. Qed.

(** The name of a segment, complete or partial, is recognised and reads back as
    the number of the segment. *)
Theorem XLogFileName_roundtrip (tli segno seg_sz : Z)
    (Htli : in_u 32 tli) (Hsz : 0 < seg_sz ≤ 2 ^ 32)
    (Hseg : 0 ≤ segno < 2 ^ 32 * XLogSegmentsPerXLogId seg_sz) :
  let name := XLogFileName tli segno seg_sz in
  let partial := name ++ lit ".partial" in
  IsXLogFileName name = true ∧ XLogFromFileName name seg_sz = Ok (segno, tli)
  ∧ IsPartialXLogFileName partial = true ∧ IsXLogFileName partial = false
  ∧ XLogFromFileName partial seg_sz = Ok (segno, tli).
Proof.
  intros name partial.
  destruct (XLogFileName_parse tli segno seg_sz []) as [Hi Hp]; [done..|].
  destruct (XLogFileName_parse tli segno seg_sz (lit ".partial")) as [_ Hpp];
    [done..|by repeat constructor|].
  rewrite app_nil_r in Hp. pose proof (XLogFileName_length _ _ _ Hi) as Hl. fold name in Hi, Hp, Hl.
  split_and!; [done|done| | |done].
  - unfold IsPartialXLogFileName, partial. apply andb_true_iff. split.
    + apply bool_decide_eq_true. by eexists.
    + rewrite length_app, Hl. simpl. by rewrite take_app_length'.
  - unfold IsXLogFileName, partial. apply andb_false_iff. left. apply bool_decide_eq_false.
    rewrite length_app, Hl. done.
Qed.

Lemma XLogFileName_roundtrip_witness :
  XLogFromFileName (lit "000000010000000A000000FF") (16 * 2 ^ 20) = Ok (0xAFF, 1)
  ∧ IsPartialXLogFileName (lit "000000010000000A000000FF.partial") = true.
Proof.
  destruct (XLogFileName_roundtrip 1 0xAFF (16 * 2 ^ 20)) as (_ & Hp & Hpp & _);
    [vm_compute; split; congruence..|]. split; [exact Hp|exact Hpp].
Defined.

(** Segment number and offset determine the position they were taken from. *)
Theorem segment_decompose (l seg_sz : Z) (Hl : in_u 64 l) (Hsz : 0 < seg_sz) :
  XLogSegNoOffsetToRecPtr (Lsn_segment_number l seg_sz) (Lsn_segment_offset l seg_sz) seg_sz = l
  ∧ 0 ≤ Lsn_segment_offset l seg_sz < seg_sz
  ∧ Lsn_segment_lsn l seg_sz ≤ l < Lsn_segment_lsn l seg_sz + seg_sz.
Proof.
  unfold XLogSegNoOffsetToRecPtr, Lsn_segment_number, Lsn_segment_offset, Lsn_segment_lsn.
  pose proof (Z.div_mod l seg_sz ltac:(lia)).
  pose proof (Z.mod_pos_bound l seg_sz ltac:(lia)).
  unfold in_u in Hl.
  assert (0 ≤ l / seg_sz) by (apply Z.div_pos; lia).
  split_and!; try lia.
  unfold wrapping_add, wrapping_mul.
  rewrite (wrap_small 64 (l / seg_sz * seg_sz)) by (unfold in_u; nia).
  rewrite wrap_small by (unfold in_u; nia). lia.
Qed.
