(* ===== verification/Membership.v ===== *)
(** * Safekeeper membership configurations

    [libs/safekeeper_api/src/membership.rs]: generations, member sets and
    configurations.  A [String] field is its UTF-8 byte string. *)

From S2P Require Import Prelude Bytes.

(** [utils::id::NodeId]: a [u64]. *)
Abbreviation NodeId := Z.

(** [SafekeeperGeneration(u32)] *)
Abbreviation SafekeeperGeneration := Z.

Definition INVALID_GENERATION : SafekeeperGeneration := 0.
Definition INITIAL_GENERATION : SafekeeperGeneration := 1.

Definition SafekeeperGeneration_previous (self : SafekeeperGeneration) :
  option SafekeeperGeneration := checked_sub self 1.

Definition SafekeeperGeneration_next (self : SafekeeperGeneration) : SafekeeperGeneration :=
  wrapping_add 32 self 1.

Record SafekeeperId := {
  sk_id : NodeId;
  sk_host : bytes;
  sk_pg_port : Z;
}.

#[export] Instance SafekeeperId_eq_dec : EqDecision SafekeeperId.
Proof. solve_decision. Defined.

Record MemberSet := { ms_m : list SafekeeperId }.

#[export] Instance MemberSet_eq_dec : EqDecision MemberSet.
Proof. solve_decision. Defined.

Definition MemberSet_empty : MemberSet := {| ms_m := [] |}.

(** The ids are collected into a [HashSet] whose size is compared. *)
Definition MemberSet_new (members : list SafekeeperId) : outcome string MemberSet :=
  let hs : gset NodeId := list_to_set (sk_id <$> members) in
  if bool_decide (size hs ≠ length members)
  then Err "duplicate safekeeper id in the set"%string
  else Ok {| ms_m := members |}.

Definition MemberSet_contains (self : MemberSet) (sk : NodeId) : bool :=
  existsb (λ m, sk_id m =? sk) (ms_m self).

(** [&mut self]: the set afterwards, unchanged on the error path. *)
Definition MemberSet_add (sk : SafekeeperId) : ST MemberSet string unit :=
  self ← st_get;
  if MemberSet_contains self (sk_id sk)
  then st_fail "sk is already member of the set"%string
  else st_put {| ms_m := ms_m self ++ [sk] |}.

Record Configuration := {
  cfg_generation : SafekeeperGeneration;
  cfg_members : MemberSet;
  cfg_new_members : option MemberSet;
}.

#[export] Instance Configuration_eq_dec : EqDecision Configuration.
Proof. solve_decision. Defined.

Definition Configuration_empty : Configuration := {|
  cfg_generation := INVALID_GENERATION;
  cfg_members := MemberSet_empty;
  cfg_new_members := None;
|}.

Definition Configuration_new (members : MemberSet) : Configuration := {|
  cfg_generation := INITIAL_GENERATION;
  cfg_members := members;
  cfg_new_members := None;
|}.

Definition Configuration_contains (self : Configuration) (sk : NodeId) : bool :=
  MemberSet_contains (cfg_members self) sk
  || match cfg_new_members self with
     | Some m => MemberSet_contains m sk
     | None => false
     end.

(** ** A member set never holds two members with one id *)

Definition MemberSet_wf (s : MemberSet) : Prop := NoDup (sk_id <$> ms_m s).

Definition Configuration_wf (c : Configuration) : Prop :=
  MemberSet_wf (cfg_members c) ∧ match cfg_new_members c with
                                 | Some m => MemberSet_wf m
                                 | None => True
                                 end.

Lemma MemberSet_contains_spec s i :
  MemberSet_contains s i = true ↔ i ∈ sk_id <$> ms_m s.
Proof.
  unfold MemberSet_contains. rewrite existsb_exists, list_elem_of_fmap.
  split.
  - intros (x & Hx & E). apply Z.eqb_eq in E. exists x. by rewrite list_elem_of_In.
  - intros (x & -> & Hx). exists x. rewrite list_elem_of_In in Hx. by rewrite Z.eqb_refl.
Qed.

Lemma list_to_set_size_length {A} `{Countable A} (l : list A) :
  (size (list_to_set l : gset A) ≤ length l)%nat
  ∧ (size (list_to_set l : gset A) = length l ↔ NoDup l).
Proof.
  induction l as [|x l [IHle IHnd]]; simpl.
  { split; [done|]. split; [constructor|done]. }
  destruct (decide (x ∈ (list_to_set l : gset A))) as [Hin|Hnin].
  - assert ({[x]} ∪ list_to_set l = (list_to_set l : gset A)) as -> by set_solver.
    split; [lia|]. split; [lia|]. inversion_clear 1. set_solver.
  - rewrite size_union by set_solver. rewrite size_singleton.
    split; [lia|]. split.
    + intros E. constructor; [set_solver|]. apply IHnd. lia.
    + inversion_clear 1. f_equal. by apply IHnd.
Qed.

Lemma MemberSet_new_wf ms s : MemberSet_new ms = Ok s → MemberSet_wf s ∧ ms_m s = ms.
Proof.
  unfold MemberSet_new. case_match; [done|]. intros [= <-]. split; [|done].
  bool_prop. unfold MemberSet_wf. simpl.
  destruct (list_to_set_size_length (sk_id <$> ms)) as [_ Hnd]. apply Hnd.
  rewrite length_fmap. by apply dec_stable.
Qed.

Lemma MemberSet_new_ok ms : NoDup (sk_id <$> ms) → MemberSet_new ms = Ok {| ms_m := ms |}.
Proof.
  intros Hnd. unfold MemberSet_new. rewrite bool_decide_eq_false_2; [done|].
  intros Hne. apply Hne. rewrite <- (length_fmap sk_id ms).
  by apply list_to_set_size_length.
Qed.

Lemma MemberSet_add_run s m :
  MemberSet_add m s =
    if bool_decide (sk_id m ∈ sk_id <$> ms_m s)
    then (Err "sk is already member of the set"%string, s)
    else (Ok tt, {| ms_m := ms_m s ++ [m] |}).
Proof.
  unfold MemberSet_add. simpl. unfold mbind, ST_bind, st_get; simpl.
  destruct (MemberSet_contains s (sk_id m)) eqn:E.
  - rewrite bool_decide_eq_true_2; [done|]. by apply MemberSet_contains_spec.
  - rewrite bool_decide_eq_false_2; [done|].
    intros Hin. apply MemberSet_contains_spec in Hin. congruence.
Qed.

Lemma MemberSet_add_wf s m : MemberSet_wf s → MemberSet_wf (MemberSet_add m s).2.
Proof.
  rewrite MemberSet_add_run. case_bool_decide; simpl; [done|].
  unfold MemberSet_wf; simpl. intros. rewrite fmap_app, NoDup_app.
  split_and!; [done| |repeat constructor; set_solver].
  simpl. intros y Hy. rewrite list_elem_of_singleton. by intros ->.
Qed.
