(* ===== verification/TermHistory.v ===== *)
(** * Term histories

    [safekeeper/src/safekeeper.rs]: [TermLsn], [TermHistory] and
    [AcceptorState] -- the history of term switches of a safekeeper's WAL, its
    wire decoding, and the search for the point up to which the histories of a
    proposer and of a safekeeper agree. *)

From S2P Require Import Prelude Bytes Lsn.

(** [safekeeper_api::Term]: a [u64]. *)
Abbreviation Term := Z.
Definition INITIAL_TERM : Term := 0.

Record TermLsn := { tl_term : Term; tl_lsn : Lsn }.

#[export] Instance TermLsn_eq_dec : EqDecision TermLsn.
Proof. solve_decision. Defined.

(** [struct TermHistory(Vec<TermLsn>)] *)
Abbreviation TermHistory := (list TermLsn).

Definition TermHistory_empty : TermHistory := [].

(** ** Decoding

    [BytesF]: reads that fail instead of panicking on a short buffer. *)

Section decode.
Context {B : Type} `{Buf B}.

Definition get_u8_f : ST B string Z :=
  self ← st_get;
  _ ← st_ensure (negb (buf_is_empty self)) "no bytes left, expected 1"%string;
  get_u8.

Definition get_u16_f : ST B string Z :=
  self ← st_get;
  _ ← st_ensure (negb (remaining self <? 2)) "no bytes left, expected 2"%string;
  get_u16.

Definition get_u32_f : ST B string Z :=
  self ← st_get;
  _ ← st_ensure (negb (remaining self <? 4)) "only bytes left, expected 4"%string;
  get_u32.

Definition get_u64_f : ST B string Z :=
  self ← st_get;
  _ ← st_ensure (negb (remaining self <? 8)) "only bytes left, expected 8"%string;
  get_u64.

(** [n_entries] as [u32], then pairs of [u64], all in network order. *)
Definition TermHistory_from_bytes : ST B string TermHistory :=
  n_entries ← st_map_err (λ _, "TermHistory misses len"%string) get_u32_f;
  st_for (Z.to_nat n_entries) 0 (λ _,
    term ← st_map_err (λ _, "TermHistory pos misses term"%string) get_u64_f;
    lsn ← st_map_err (λ _, "TermHistory pos misses lsn"%string) get_u64_f;
    mret {| tl_term := term; tl_lsn := lsn |}).

(** The little-endian format of protocol version 2. *)
Definition TermHistory_from_bytes_le : ST B string TermHistory :=
  b ← st_get;
  _ ← st_ensure (negb (remaining b <? 4)) "TermHistory misses len"%string;
  n_entries ← get_u32_le;
  st_for (Z.to_nat n_entries) 0 (λ _,
    b ← st_get;
    _ ← st_ensure (negb (remaining b <? 16)) "TermHistory is incomplete"%string;
    term ← get_u64_le;
    lsn ← get_u64_le;
    mret {| tl_term := term; tl_lsn := lsn |}).
End decode.

(** ** Truncation and comparison *)

(** The loop breaks at the first switch strictly after [up_to]. *)
Definition TermHistory_up_to (self : TermHistory) (up_to : Lsn) : TermHistory :=
  take_while (λ e, negb (up_to <? tl_lsn e)) self.

(** The loop looking for the last common term: the index of the last entry of
    the common prefix; two different start LSNs of one term panic. *)
Fixpoint last_common_idx (i : nat) (prop_th sk_th : TermHistory) (acc : option nat) :
    outcome string (option nat) :=
  match prop_th, sk_th with
  | p :: prop_th', s :: sk_th' =>
    if negb (tl_term p =? tl_term s) then Ok acc
    else if negb (tl_lsn p =? tl_lsn s) then Panic
    else last_common_idx (S i) prop_th' sk_th' (Some i)
  | _, _ => Ok acc
  end.

Definition find_highest_common_point (prop_th sk_th : TermHistory) (sk_wal_end : Lsn) :
    outcome string (option TermLsn) :=
  if match last sk_th with
     | Some sk_th_last => sk_wal_end <? tl_lsn sk_th_last
     | None => false
     end
  then Panic
  else
    idx ← last_common_idx 0 prop_th sk_th None;
    match idx with
    | None => Ok None
    | Some idx =>
      common ← unwrap (prop_th !! idx);
      if bool_decide (idx = length prop_th - 1)%nat then
        Ok (Some {| tl_term := tl_term common; tl_lsn := sk_wal_end |})
      else
        prop_common_term_end ← unwrap (prop_th !! (idx + 1)%nat);
        sk_common_term_end ←
          (if bool_decide (idx + 1 < length sk_th)%nat
           then tl_lsn <$> unwrap (sk_th !! (idx + 1)%nat)
           else Ok sk_wal_end);
        Ok (Some {| tl_term := tl_term common;
                    tl_lsn := Z.min (tl_lsn prop_common_term_end) sk_common_term_end |})
    end.

(** ** [AcceptorState]: the persistent consensus state *)

Record AcceptorState := mkAcceptorState {
  as_term : Term;
  as_term_history : TermHistory;
}.

#[export] Instance AcceptorState_eq_dec : EqDecision AcceptorState.
Proof. solve_decision. Defined.
#[export] Instance AcceptorState_settable : Settable AcceptorState := λ s,
  mkAcceptorState (as_term s) (as_term_history s).

Definition AcceptorState_get_last_log_term (self : AcceptorState) (flush_lsn : Lsn) : Term :=
  match last (TermHistory_up_to (as_term_history self) flush_lsn) with
  | Some e => tl_term e
  | None => 0
  end.

(** ** Well-formed histories *)

(** Terms strictly increase, start LSNs do not decrease. *)
Definition TermHistory_wf (th : TermHistory) : Prop :=
  StronglySorted (λ e1 e2, tl_term e1 < tl_term e2 ∧ tl_lsn e1 ≤ tl_lsn e2) th.

(** The term that wrote the WAL at a position, according to a history. *)
Definition term_at (th : TermHistory) (l : Lsn) : Term :=
  AcceptorState_get_last_log_term {| as_term := 0; as_term_history := th |} l.

Lemma take_while_stop {A} (p : A → bool) c x t :
  p x = false → take_while p (c ++ x :: t) = take_while p c.
Proof. intros Hx. induction c as [|y c IH]; simpl; [by rewrite Hx|]. by rewrite IH. Qed.

(** A history continuing after [l] says what its prefix says. *)
Lemma term_at_prefix c r l :
  match r with [] => True | e :: _ => l < tl_lsn e end →
  term_at (c ++ r) l = term_at c l.
Proof.
  destruct r as [|e r]; intros He; [by rewrite app_nil_r|].
  unfold term_at, AcceptorState_get_last_log_term, TermHistory_up_to; simpl.
  rewrite take_while_stop; [done|]. apply negb_false_iff. by apply Z.ltb_lt.
Qed.

(** What the loop computes: the histories split at their longest common prefix. *)
Lemma last_common_idx_spec i prop_th sk_th acc r :
  last_common_idx i prop_th sk_th acc = Ok r →
  ∃ c pr sr, prop_th = c ++ pr ∧ sk_th = c ++ sr
    ∧ r = (if decide (c = []) then acc else Some (i + length c - 1)%nat)
    ∧ match pr, sr with p :: _, s :: _ => tl_term p ≠ tl_term s | _, _ => True end.
Proof.
  revert i sk_th acc; induction prop_th as [|p pt IH]; intros i [|s st] acc; simpl.
  - intros [= <-]. by exists [], [], [].
  - intros [= <-]. by exists [], [], (s :: st).
  - intros [= <-]. by exists [], (p :: pt), [].
  - destruct (tl_term p =? tl_term s) eqn:Et; simpl; bool_prop.
    2:{ intros [= <-]. by exists [], (p :: pt), (s :: st). }
    destruct (tl_lsn p =? tl_lsn s) eqn:El; simpl; bool_prop; [|done].
    intros (c & pr & sr & -> & -> & Hr & Hd)%IH.
    exists (p :: c), pr, sr. split_and!; try done.
    + by destruct p, s; simpl in *; subst.
    + rewrite Hr. rewrite (decide_False (P := p :: c = [])) by done.
      case_decide; subst; simpl; f_equal; lia.
Qed.

(** The first entries after the common prefix are of different terms. *)
Definition diverge (pr sr : TermHistory) : Prop :=
  match pr, sr with p :: _, s :: _ => tl_term p ≠ tl_term s | _, _ => True end.

(** The end of the last common term, given what follows it in the two. *)
Definition divergence_lsn (pr sr : TermHistory) (wal_end : Lsn) : Lsn :=
  match pr, sr with
  | [], _ => wal_end
  | x :: _, y :: _ => Z.min (tl_lsn x) (tl_lsn y)
  | x :: _, [] => Z.min (tl_lsn x) wal_end
  end.

Lemma last_common_idx_app i c pr sr acc :
  diverge pr sr →
  last_common_idx i (c ++ pr) (c ++ sr) acc
  = Ok (if decide (c = []) then acc else Some (i + length c - 1)%nat).
Proof.
  intros Hd. revert i acc. induction c as [|e c IH]; intros i acc; simpl.
  - destruct pr as [|x pr], sr as [|y sr]; simpl; try done.
    simpl in Hd. by rewrite (proj2 (Z.eqb_neq _ _)).
  - rewrite !Z.eqb_refl. simpl. rewrite IH.
    case_decide; subst; simpl; do 2 f_equal; lia.
Qed.

(** The point computed from the split of the two histories: the end of the
    last common term in either of them. *)
Lemma find_highest_common_point_app c pr sr wal_end :
  diverge pr sr →
  match last (c ++ sr) with Some x => tl_lsn x ≤ wal_end | None => True end →
  find_highest_common_point (c ++ pr) (c ++ sr) wal_end
  = Ok ((λ e, {| tl_term := tl_term e;
                 tl_lsn := divergence_lsn pr sr wal_end |}) <$> last c).
Proof.
  intros Hd Hlast. unfold find_highest_common_point.
  replace (match last (c ++ sr) with Some _ => _ | None => false end) with false
    by (destruct (last (c ++ sr)); [symmetry; by apply Z.ltb_ge|done]).
  rewrite last_common_idx_app by done. simpl.
  destruct c as [|e c _] using rev_ind; [done|].
  rewrite last_snoc, decide_False by (by destruct c). simpl.
  set (n := (length (c ++ [e]) - 1)%nat).
  assert (Hn : (n + 1)%nat = length (c ++ [e])) by (unfold n; rewrite length_app; simpl; lia).
  assert (He : ((c ++ [e]) ++ pr) !! n = Some e).
  { rewrite <- app_assoc, lookup_app_r by (rewrite length_app in Hn; simpl in Hn; lia).
    replace (n - length c)%nat with 0%nat; [done|].
    rewrite length_app in Hn; simpl in Hn; lia. }
  assert (Hnext : ∀ r, ((c ++ [e]) ++ r) !! (n + 1)%nat = head r).
  { intros r. rewrite Hn, lookup_app_r by lia. rewrite Nat.sub_diag. by destruct r. }
  rewrite He, !length_app. simpl. destruct pr as [|x pr].
  - rewrite bool_decide_eq_true_2; [done|]. rewrite length_app in Hn; simpl in *; lia.
  - rewrite bool_decide_eq_false_2 by (rewrite length_app in Hn; simpl in *; lia).
    rewrite (Hnext (x :: pr)). simpl. rewrite length_app in Hn. simpl in Hn.
    destruct sr as [|y sr].
    + by rewrite bool_decide_eq_false_2 by (simpl; lia).
    + rewrite bool_decide_eq_true_2 by (simpl; lia). by rewrite (Hnext (y :: sr)).
Qed.

(** The point found, in terms of the split of the two histories. *)
Lemma find_highest_common_point_split prop_th sk_th wal_end p :
  find_highest_common_point prop_th sk_th wal_end = Ok (Some p) →
  ∃ c e pr sr, prop_th = (c ++ [e]) ++ pr ∧ sk_th = (c ++ [e]) ++ sr
    ∧ diverge pr sr
    ∧ match last sk_th with Some x => tl_lsn x ≤ wal_end | None => True end
    ∧ tl_lsn p = divergence_lsn pr sr wal_end.
Proof.
  intros Hf. pose proof Hf as Hf'. unfold find_highest_common_point in Hf'.
  destruct (match last sk_th with Some _ => _ | None => false end) eqn:Hlast; [done|].
  assert (Hlast' : match last sk_th with Some x => tl_lsn x ≤ wal_end | None => True end).
  { destruct (last sk_th); [by apply Z.ltb_ge|done]. }
  destruct (last_common_idx 0 prop_th sk_th None) as [r| |] eqn:Hidx; [|done..]. clear Hf'.
  apply last_common_idx_spec in Hidx as (c & pr & sr & -> & -> & _ & Hd).
  rewrite find_highest_common_point_app in Hf by done.
  destruct c as [|e c _] using rev_ind; [done|].
  rewrite last_snoc in Hf. injection Hf as <-. by exists c, e, pr, sr.
Qed.

Lemma take_while_Forall_all {A} (p : A → bool) c r :
  Forall (λ x, p x = true) c → take_while p (c ++ r) = c ++ take_while p r.
Proof. induction 1 as [|x c Hx _ IH]; simpl; [done|]. by rewrite Hx, IH. Qed.

Lemma term_at_last c e r l :
  Forall (λ x, tl_lsn x ≤ l) (c ++ [e]) →
  match r with [] => True | y :: _ => l < tl_lsn y end →
  term_at ((c ++ [e]) ++ r) l = tl_term e.
Proof.
  intros Hc Hr. rewrite term_at_prefix by done.
  unfold term_at, AcceptorState_get_last_log_term, TermHistory_up_to; simpl.
  rewrite take_while_all; [by rewrite last_snoc|].
  eapply Forall_impl; [exact Hc|]. intros x Hx. simpl in *.
  apply negb_true_iff, Z.ltb_ge. done.
Qed.

(** In a history sorted by [R], what precedes an entry is related to it. *)
Lemma StronglySorted_middle {A} (R : relation A) c e r :
  StronglySorted R (c ++ e :: r) → Forall (λ x, R x e) c ∧ Forall (R e) r.
Proof.
  intros Hs. split.
  - apply Forall_forall. intros x Hx.
    eapply StronglySorted_app_1_elem_of; [exact Hs|done|]. by left.
  - apply StronglySorted_app in Hs as (_ & _ & Hs). by inversion Hs.
Qed.

Lemma term_at_entry c e r :
  StronglySorted (λ e1 e2, tl_lsn e1 < tl_lsn e2) (c ++ e :: r) →
  term_at (c ++ e :: r) (tl_lsn e) = tl_term e.
Proof.
  intros [Hc Hr]%StronglySorted_middle. rewrite cons_middle, app_assoc. apply term_at_last.
  - apply Forall_app; split; [|repeat constructor; lia].
    eapply Forall_impl; [exact Hc|]. simpl; lia.
  - destruct r; [done|]. by inversion Hr.
Qed.

(** Before the divergence point the histories say the same. *)
Lemma divergence_before c pr sr wal_end l :
  (pr = [] → sr = []) → l < divergence_lsn pr sr wal_end →
  term_at (c ++ pr) l = term_at (c ++ sr) l.
Proof.
  intros Hsr Hlt. rewrite (term_at_prefix _ pr), (term_at_prefix _ sr); [done| |];
    destruct pr as [|x pr], sr as [|y sr]; simpl in *; try done; try lia.
  specialize (Hsr eq_refl). done.
Qed.

Lemma divergence_le c pr sr wal_end :
  (pr = [] → sr = []) → TermHistory_wf (c ++ sr) →
  match last (c ++ sr) with Some x => tl_lsn x ≤ wal_end | None => True end →
  divergence_lsn pr sr wal_end ≤ wal_end.
Proof.
  intros Hsr Hwf Hle. destruct pr as [|x pr], sr as [|y sr]; simpl in *; try lia.
  destruct (last (y :: sr)) as [z|] eqn:Ez; [|by apply last_None in Ez].
  rewrite last_app, Ez in Hle. assert (tl_lsn y ≤ tl_lsn z); [|lia].
  apply StronglySorted_middle in Hwf as [_ Hy].
  apply last_Some_elem_of, elem_of_cons in Ez as [->|Hz]; [lia|].
  rewrite Forall_forall in Hy. by apply Hy in Hz as [_ ?].
Qed.

(** At the divergence point they differ, unless the WAL ends there. *)
Lemma divergence_at c e pr sr wal_end :
  diverge pr sr →
  TermHistory_wf ((c ++ [e]) ++ pr) → TermHistory_wf ((c ++ [e]) ++ sr) →
  StronglySorted (λ e1 e2, tl_lsn e1 < tl_lsn e2) ((c ++ [e]) ++ pr) →
  StronglySorted (λ e1 e2, tl_lsn e1 < tl_lsn e2) ((c ++ [e]) ++ sr) →
  divergence_lsn pr sr wal_end < wal_end →
  let l := divergence_lsn pr sr wal_end in
  term_at ((c ++ [e]) ++ pr) l ≠ term_at ((c ++ [e]) ++ sr) l.
Proof.
  intros Hd Hwfp Hwfs Hsp Hss Hlt l.
  assert (Hnext : ∀ x r, TermHistory_wf ((c ++ [e]) ++ x :: r) → tl_term e < tl_term x).
  { intros x r Hw. rewrite <- app_assoc in Hw. apply StronglySorted_middle in Hw as [_ H1].
    inversion H1; subst. lia. }
  assert (Hbefore : ∀ x r l', StronglySorted (λ e1 e2, tl_lsn e1 < tl_lsn e2)
    ((c ++ [e]) ++ x :: r) → l' = tl_lsn x → Forall (λ y, tl_lsn y ≤ l') (c ++ [e])).
  { intros x r l' Hs ->. apply StronglySorted_middle in Hs as [Hs _].
    eapply Forall_impl; [exact Hs|]. simpl; lia. }
  destruct pr as [|x pr]; [simpl in *; lia|]. pose proof (Hnext _ _ Hwfp) as Hx.
  destruct sr as [|y sr]; subst l; simpl divergence_lsn in *.
  - rewrite Z.min_l by lia. rewrite term_at_entry, term_at_last; [lia|eauto|done..].
  - pose proof (Hnext _ _ Hwfs) as Hy. simpl in Hd.
    destruct (Z.lt_trichotomy (tl_lsn x) (tl_lsn y)) as [Hxy|[Hxy|Hxy]].
    + rewrite Z.min_l by lia. rewrite term_at_entry, term_at_last; [lia|eauto|done..].
    + rewrite Z.min_l by lia. rewrite term_at_entry, Hxy, term_at_entry by done. done.
    + rewrite Z.min_r by lia.
      rewrite (term_at_entry _ y), term_at_last; [lia|eauto|done..].
Qed.

(** ** Theorems *)

(** The divergence point: the safekeeper's WAL agrees, byte for byte of who
    wrote it, with the proposer's history before it, and it lies within the
    safekeeper's WAL.  The proposer was elected with the highest term, so its
    last term is at least every term of the safekeeper's history. *)
Theorem find_highest_common_point_agrees (prop_th sk_th : TermHistory) (wal_end : Lsn)
    (p lastp : TermLsn)
    (Hwf : TermHistory_wf sk_th)
    (Hlastp : last prop_th = Some lastp)
    (Hmax : Forall (λ e, tl_term e ≤ tl_term lastp) sk_th)
    (Hp : find_highest_common_point prop_th sk_th wal_end = Ok (Some p)) :
  (∀ l, l < tl_lsn p → term_at prop_th l = term_at sk_th l)
  ∧ tl_lsn p ≤ wal_end
  ∧ (TermHistory_wf prop_th →
     StronglySorted (λ e1 e2, tl_lsn e1 < tl_lsn e2) prop_th →
     StronglySorted (λ e1 e2, tl_lsn e1 < tl_lsn e2) sk_th →
     tl_lsn p < wal_end → term_at prop_th (tl_lsn p) ≠ term_at sk_th (tl_lsn p)).
Proof.
  apply find_highest_common_point_split in Hp
    as (c & e & pr & sr & -> & -> & Hd & Hle & Hl).
  assert (Hsr : pr = [] → sr = []).
  { intros ->. destruct sr as [|y sr]; [done|exfalso].
    rewrite app_nil_r, last_snoc in Hlastp. injection Hlastp as ->.
    rewrite <- app_assoc in Hwf. apply StronglySorted_middle in Hwf as [_ Hy].
    apply Forall_app in Hmax as [_ Hmax]. inversion Hmax; inversion Hy; subst. lia. }
  rewrite Hl. split_and!.
  - intros l. by apply divergence_before.
  - by eapply divergence_le.
  - intros. by apply divergence_at.
Qed.

(** A divergent history: the safekeeper wrote in term 2 what the proposer of
    term 3 never saw. *)
Lemma find_highest_common_point_agrees_witness :
  let prop_th := [ {| tl_term := 1; tl_lsn := 10 |}; {| tl_term := 3; tl_lsn := 40 |} ] in
  let sk_th := [ {| tl_term := 1; tl_lsn := 10 |}; {| tl_term := 2; tl_lsn := 30 |} ] in
  find_highest_common_point prop_th sk_th 50 = Ok (Some {| tl_term := 1; tl_lsn := 30 |})
  ∧ (∀ l, l < 30 → term_at prop_th l = term_at sk_th l)
  ∧ term_at prop_th 30 ≠ term_at sk_th 30.
Proof.
  assert (Hs : ∀ (R : relation TermLsn) x y, R x y → StronglySorted R [x; y])
    by (intros; repeat constructor; done).
  split; [by vm_compute|].
  destruct (find_highest_common_point_agrees
    [ {| tl_term := 1; tl_lsn := 10 |}; {| tl_term := 3; tl_lsn := 40 |} ]
    [ {| tl_term := 1; tl_lsn := 10 |}; {| tl_term := 2; tl_lsn := 30 |} ] 50
    {| tl_term := 1; tl_lsn := 30 |} {| tl_term := 3; tl_lsn := 40 |}) as (H1 & _ & H3).
  - apply Hs; simpl; lia.
  - done.
  - repeat constructor; simpl; lia.
  - by vm_compute.
  - split; [exact H1|]. apply H3; try apply Hs; simpl; lia.
Defined.
