(* ===== verification/TimelineState.v ===== *)
(** * Timeline state of a safekeeper

    [safekeeper/src/state.rs]: the persistent per-timeline state, its in-memory
    layer and the transactional updates ([start_change], [finish_change]),
    against the interface [control_file::Storage] of the control file.  The
    data of [wal_backup_partial.rs] that is part of the control file is here
    too.  The wall clock ([SystemTime::now]) is an argument. *)

From S2P Require Import Prelude Bytes Text Ids Lsn Membership TermHistory.

(** ** Data of the control file *)

(** [wal_backup_partial::UploadStatus] *)
Inductive UploadStatus := InProgress | Uploaded | Deleting.

#[export] Instance UploadStatus_eq_dec : EqDecision UploadStatus.
Proof. solve_decision. Defined.

(** [wal_backup_partial::PartialRemoteSegment]; the name is a byte string. *)
Record PartialRemoteSegment := mkPartialRemoteSegment {
  prs_status : UploadStatus;
  prs_name : bytes;
  prs_commit_lsn : Lsn;
  prs_flush_lsn : Lsn;
  prs_term : Term;
}.

#[export] Instance PartialRemoteSegment_eq_dec : EqDecision PartialRemoteSegment.
Proof. solve_decision. Defined.

Definition PartialRemoteSegment_eq_without_status (self other : PartialRemoteSegment) : bool :=
  bool_decide (prs_name self = prs_name other)
  && (prs_commit_lsn self =? prs_commit_lsn other)
  && (prs_flush_lsn self =? prs_flush_lsn other)
  && (prs_term self =? prs_term other).

(** [wal_backup_partial::State] is its vector of segments. *)
Abbreviation PartialBackupState := (list PartialRemoteSegment).

Definition PartialBackupState_uploaded_segment (self : PartialBackupState) :
    option PartialRemoteSegment :=
  List.find (λ seg, bool_decide (prs_status seg = Uploaded)) self.

Inductive EvictionState :=
| Present
| Offloaded (flush_lsn : Lsn).

#[export] Instance EvictionState_eq_dec : EqDecision EvictionState.
Proof. solve_decision. Defined.

(** [safekeeper_api::ServerInfo] *)
Record ServerInfo := mkServerInfo {
  si_pg_version : Z;
  si_system_id : Z;
  si_wal_seg_size : Z;
}.

#[export] Instance ServerInfo_eq_dec : EqDecision ServerInfo.
Proof. solve_decision. Defined.
#[export] Instance ServerInfo_settable : Settable ServerInfo := λ s,
  mkServerInfo (si_pg_version s) (si_system_id s) (si_wal_seg_size s).

Definition UNKNOWN_SERVER_VERSION : Z := 0.

(** [TenantId], [TimelineId], [PgUuid]: arrays of 16 bytes. *)
Abbreviation Id16 := bytes.
Definition zero_id : Id16 := replicate 16 x00.

Record TimelinePersistentState := mkTimelinePersistentState {
  ps_tenant_id : Id16;
  ps_timeline_id : Id16;
  ps_mconf : Configuration;
  ps_acceptor_state : AcceptorState;
  ps_server : ServerInfo;
  ps_proposer_uuid : Id16;
  ps_timeline_start_lsn : Lsn;
  ps_local_start_lsn : Lsn;
  ps_commit_lsn : Lsn;
  ps_backup_lsn : Lsn;
  ps_peer_horizon_lsn : Lsn;
  ps_remote_consistent_lsn : Lsn;
  ps_partial_backup : PartialBackupState;
  ps_eviction_state : EvictionState;
  ps_creation_ts : Z;
}.

#[export] Instance TimelinePersistentState_eq_dec : EqDecision TimelinePersistentState.
Proof. solve_decision. Defined.
#[export] Instance TimelinePersistentState_settable : Settable TimelinePersistentState := λ s,
  mkTimelinePersistentState (ps_tenant_id s) (ps_timeline_id s) (ps_mconf s)
    (ps_acceptor_state s) (ps_server s) (ps_proposer_uuid s) (ps_timeline_start_lsn s)
    (ps_local_start_lsn s) (ps_commit_lsn s) (ps_backup_lsn s) (ps_peer_horizon_lsn s)
    (ps_remote_consistent_lsn s) (ps_partial_backup s) (ps_eviction_state s)
    (ps_creation_ts s).

Definition ps_term (s : TimelinePersistentState) : Term := as_term (ps_acceptor_state s).

Definition TimelinePersistentState_new (ttid : TenantTimelineId) (mconf : Configuration)
    (server_info : ServerInfo) (start_lsn commit_lsn : Lsn) (now : Z) :
    outcome string TimelinePersistentState :=
  if si_wal_seg_size server_info =? 0 then Err "uninitialized wal_seg_size"%string
  else if si_pg_version server_info =? UNKNOWN_SERVER_VERSION
  then Err "uninitialized pg_version"%string
  else if commit_lsn <? start_lsn
  then Err "commit_lsn is smaller than start_lsn"%string
  else
    let term_history : TermHistory :=
      if negb (commit_lsn =? Lsn_INVALID)
      then [{| tl_term := INITIAL_TERM; tl_lsn := start_lsn |}]
      else TermHistory_empty in
    Ok {|
      ps_tenant_id := ttid_tenant_id ttid;
      ps_timeline_id := ttid_timeline_id ttid;
      ps_mconf := mconf;
      ps_acceptor_state := {| as_term := INITIAL_TERM; as_term_history := term_history |};
      ps_server := server_info;
      ps_proposer_uuid := zero_id;
      ps_timeline_start_lsn := start_lsn;
      ps_local_start_lsn := start_lsn;
      ps_commit_lsn := commit_lsn;
      ps_backup_lsn := start_lsn;
      ps_peer_horizon_lsn := start_lsn;
      ps_remote_consistent_lsn := 0;
      ps_partial_backup := [];
      ps_eviction_state := Present;
      ps_creation_ts := now;
    |}.

(** [postgres_ffi::WAL_SEGMENT_SIZE] *)
Definition WAL_SEGMENT_SIZE : Z := 16 * 1024 * 1024.

Definition TimelinePersistentState_empty (now : Z) : outcome string TimelinePersistentState :=
  match TimelinePersistentState_new TenantTimelineId_empty Configuration_empty
          {| si_pg_version := 170000; si_system_id := 0; si_wal_seg_size := WAL_SEGMENT_SIZE |}
          Lsn_INVALID Lsn_INVALID now with
  | Ok s => Ok s
  | Err _ | Panic => Panic
  end.

(** The in-memory values, not flushed yet. *)
Record TimelineMemState := mkTimelineMemState {
  mem_commit_lsn : Lsn;
  mem_backup_lsn : Lsn;
  mem_peer_horizon_lsn : Lsn;
  mem_remote_consistent_lsn : Lsn;
  mem_proposer_uuid : Id16;
}.

#[export] Instance TimelineMemState_settable : Settable TimelineMemState := λ m,
  mkTimelineMemState (mem_commit_lsn m) (mem_backup_lsn m) (mem_peer_horizon_lsn m)
    (mem_remote_consistent_lsn m) (mem_proposer_uuid m).

(** The in-memory fields as they are in a persistent state. *)
Definition mem_of (s : TimelinePersistentState) : TimelineMemState := {|
  mem_commit_lsn := ps_commit_lsn s;
  mem_backup_lsn := ps_backup_lsn s;
  mem_peer_horizon_lsn := ps_peer_horizon_lsn s;
  mem_remote_consistent_lsn := ps_remote_consistent_lsn s;
  mem_proposer_uuid := ps_proposer_uuid s;
|}.

(** ** [control_file::Storage]

    The trait: dereferencing to the state held in memory, and [persist].  The
    laws speak of a second view, [ctrl_durable]: the states a restart may load
    from disk.  A failed [persist] leaves the in-memory state alone, but it may
    or may not have reached the disk (it can fail after the rename).

    A state without a membership configuration is saved in an older format,
    which has neither the configuration nor the time of creation. *)

Definition saved_as (s st : TimelinePersistentState) : Prop :=
  st = s
  ∨ (cfg_generation (ps_mconf s) = INVALID_GENERATION
     ∧ st = s <| ps_mconf := Configuration_empty |> <| ps_creation_ts := 0 |>).

Class ControlStorage (C : Type) := {
  ctrl_deref : C → TimelinePersistentState;
  ctrl_persist : TimelinePersistentState → ST C string unit;
}.

(** [ctrl_inv] is the representation invariant of the storage. *)
Class ControlStorageLaws (C : Type) `{ControlStorage C} := {
  ctrl_inv : C → Prop;
  ctrl_durable : C → TimelinePersistentState → Prop;
  ctrl_durable_some c : ctrl_inv c → ∃ st, ctrl_durable c st;
  ctrl_persist_spec c s :
    ctrl_inv c →
    wp (ctrl_persist s) (λ r c', ctrl_inv c' ∧ match r with
      | Ok _ => ctrl_deref c' = s ∧ ∀ st, ctrl_durable c' st → saved_as s st
      | Err _ => ctrl_deref c' = ctrl_deref c
                 ∧ ∀ st, ctrl_durable c' st → ctrl_durable c st ∨ saved_as s st
      | Panic => False
      end) c;
}.

Lemma saved_as_fields s st :
  saved_as s st →
  ps_term st = ps_term s ∧ ps_commit_lsn st = ps_commit_lsn s
  ∧ ps_timeline_start_lsn st = ps_timeline_start_lsn s
  ∧ cfg_generation (ps_mconf st) = cfg_generation (ps_mconf s).
Proof. by intros [->|[Hg ->]]. Qed.

(** ** [TimelineState] *)

Record TimelineState (C : Type) := mkTimelineState {
  ts_inmem : TimelineMemState;
  ts_pers : C;
}.
Arguments mkTimelineState {C} _ _.
Arguments ts_inmem {C} _.
Arguments ts_pers {C} _.
#[export] Instance TimelineState_settable {C} : Settable (TimelineState C) := λ s,
  mkTimelineState (ts_inmem s) (ts_pers s).

Section TimelineState.
Context {C : Type} `{ControlStorage C}.

Definition TimelineState_new (state : C) : TimelineState C :=
  let s := ctrl_deref state in
  {| ts_inmem := {|
       mem_commit_lsn := ps_commit_lsn s;
       mem_backup_lsn := ps_backup_lsn s;
       mem_peer_horizon_lsn := ps_peer_horizon_lsn s;
       mem_remote_consistent_lsn := ps_remote_consistent_lsn s;
       mem_proposer_uuid := ps_proposer_uuid s;
     |};
     ts_pers := state |}.

(** [impl Deref for TimelineState] *)
Definition TimelineState_deref (self : TimelineState C) : TimelinePersistentState :=
  ctrl_deref (ts_pers self).

Definition TimelineState_start_change (self : TimelineState C) : TimelinePersistentState :=
  ctrl_deref (ts_pers self)
    <| ps_commit_lsn := mem_commit_lsn (ts_inmem self) |>
    <| ps_backup_lsn := mem_backup_lsn (ts_inmem self) |>
    <| ps_peer_horizon_lsn := mem_peer_horizon_lsn (ts_inmem self) |>
    <| ps_remote_consistent_lsn := mem_remote_consistent_lsn (ts_inmem self) |>
    <| ps_proposer_uuid := mem_proposer_uuid (ts_inmem self) |>.

Definition pers_zoom {A} (m : ST C string A) : ST (TimelineState C) string A :=
  st_zoom ts_pers (λ c self, self <| ts_pers := c |>) m.

Definition TimelineState_finish_change (s : TimelinePersistentState) :
    ST (TimelineState C) string unit :=
  self ← st_get;
  _ ← (if bool_decide (s = ctrl_deref (ts_pers self)) then mret tt
       else pers_zoom (ctrl_persist s));
  st_modify (λ self, self <| ts_inmem := ts_inmem self
    <| mem_commit_lsn := ps_commit_lsn s |>
    <| mem_backup_lsn := ps_backup_lsn s |>
    <| mem_peer_horizon_lsn := ps_peer_horizon_lsn s |>
    <| mem_remote_consistent_lsn := ps_remote_consistent_lsn s |>
    <| mem_proposer_uuid := ps_proposer_uuid s |> |>).

Definition TimelineState_flush : ST (TimelineState C) string unit :=
  self ← st_get;
  TimelineState_finish_change (TimelineState_start_change self).

(** The response: the term before and after. *)
Definition TimelineState_term_bump (to : option Term) :
    ST (TimelineState C) string (Term * Term) :=
  self ← st_get;
  let before := ps_term (TimelineState_deref self) in
  let state := TimelineState_start_change self in
  let new := match to with
             | Some to => Z.max (ps_term state) to
             | None => wrapping_add 64 (ps_term state) 1
             end in
  _ ← (if ps_term state <? new then
         TimelineState_finish_change
           (state <| ps_acceptor_state := ps_acceptor_state state <| as_term := new |> |>)
       else mret tt);
  self ← st_get;
  mret (before, ps_term (TimelineState_deref self)).

(** The response: the configuration before and after. *)
Definition TimelineState_membership_switch (to : Configuration) :
    ST (TimelineState C) string (Configuration * Configuration) :=
  self ← st_get;
  let before := ps_mconf (TimelineState_deref self) in
  _ ← (if cfg_generation to <=? cfg_generation (ps_mconf (TimelineState_deref self))
       then mret tt
       else TimelineState_finish_change
              (TimelineState_start_change self <| ps_mconf := to |>));
  self ← st_get;
  mret (before, ps_mconf (TimelineState_deref self)).
End TimelineState.

(** ** What a transaction does *)

Section laws.
Context {C : Type} `{ControlStorageLaws C}.
Implicit Types self : TimelineState C.

(** The states a restart may load. *)
Definition TimelineState_durable self : TimelinePersistentState → Prop := ctrl_durable (ts_pers self).

Definition TimelineState_inv self : Prop := ctrl_inv (ts_pers self).

(** [self] is unchanged but for what a failed write of [s] may have left on disk. *)
Definition change_failed (s : TimelinePersistentState) self self' : Prop :=
  TimelineState_inv self'
  ∧ TimelineState_deref self' = TimelineState_deref self
  ∧ ts_inmem self' = ts_inmem self
  ∧ ∀ st, TimelineState_durable self' st → TimelineState_durable self st ∨ saved_as s st.

(** [s] is the state, in memory and (unless nothing changed) on disk. *)
Definition change_done (s : TimelinePersistentState) self self' : Prop :=
  TimelineState_inv self'
  ∧ TimelineState_deref self' = s
  ∧ ts_inmem self' = mem_of s
  ∧ ((∀ st, TimelineState_durable self' st → saved_as s st)
     ∨ (s = TimelineState_deref self ∧ ts_pers self' = ts_pers self)).

Lemma finish_change_spec s self :
  TimelineState_inv self →
  wp (TimelineState_finish_change s) (λ r self', match r with
    | Ok _ => change_done s self self'
    | Err _ => change_failed s self self'
    | Panic => False
    end) self.
Proof.
  intros Hinv. unfold TimelineState_finish_change. wp_step. wp_step. wp_step. wp_step.
  - bool_prop. repeat wp_step. unfold change_done, mem_of. simpl. naive_solver.
  - unfold pers_zoom. wp_step. eapply wp_mono; [by apply ctrl_persist_spec|].
    intros [a|e|] c' [Hi Hc]; [|unfold change_failed; naive_solver..].
    wp_step. unfold change_done, mem_of, TimelineState_inv, TimelineState_deref, TimelineState_durable.
    simpl. naive_solver.
Qed.

Lemma start_change_term self :
  ps_acceptor_state (TimelineState_start_change self)
  = ps_acceptor_state (TimelineState_deref self).
Proof. done. Qed.

Lemma mem_of_start_change self : mem_of (TimelineState_start_change self) = ts_inmem self.
Proof. by destruct self as [[] ?]. Qed.

(** [flush] makes the in-memory values persistent and changes nothing else. *)
Lemma flush_spec self :
  TimelineState_inv self →
  wp TimelineState_flush (λ r self', match r with
    | Ok _ => TimelineState_deref self' = TimelineState_start_change self
              ∧ ts_inmem self' = ts_inmem self
    | Err _ => TimelineState_deref self' = TimelineState_deref self
               ∧ ts_inmem self' = ts_inmem self
    | Panic => False
    end) self.
Proof.
  intros Hinv. unfold TimelineState_flush. wp_step. wp_step.
  eapply wp_mono; [by apply finish_change_spec|].
  intros [a|e|] self'; [|unfold change_failed; naive_solver..].
  unfold change_done. rewrite mem_of_start_change. naive_solver.
Qed.

(** [term_bump]: the term becomes the requested one if that is higher (the next
    one without a request), the rest of the state is the one with in-memory
    values; an error leaves the state in memory as it was. *)
Theorem term_bump_spec self to :
  TimelineState_inv self → in_u 64 (ps_term (TimelineState_deref self)) →
  ps_term (TimelineState_deref self) ≠ u64_max →
  let old := ps_term (TimelineState_deref self) in
  let new := match to with Some t => Z.max old t | None => old + 1 end in
  wp (TimelineState_term_bump to) (λ r self', match r with
    | Ok (before, after) =>
      before = old ∧ after = new ∧ ps_term (TimelineState_deref self') = new
      ∧ ts_inmem self' = ts_inmem self
      ∧ (old < new → ∀ st, TimelineState_durable self' st → ps_term st = new)
    | Err _ => TimelineState_deref self' = TimelineState_deref self
               ∧ ts_inmem self' = ts_inmem self
    | Panic => False
    end) self.
Proof.
  intros Hinv Hu Hmax old new.
  unfold TimelineState_term_bump. wp_step. wp_step.
  replace (match to with Some t => _ | None => _ end) with new; last first.
  { subst new. destruct to; [done|]. unfold wrapping_add. symmetry. apply wrap_small.
    change (ps_term (TimelineState_start_change self)) with old. subst old.
    unfold in_u, u64_max in *. lia. }
  change (ps_term (TimelineState_start_change self)) with old.
  wp_step. wp_step; bool_prop.
  - eapply wp_mono; [by apply finish_change_spec|].
    intros [a|e|] self' Hc; [|unfold change_failed in Hc; naive_solver..].
    destruct Hc as (_ & Hd & Hm & Hdur). repeat wp_step. rewrite Hd, Hm.
    split_and!; [done..| |].
    + apply mem_of_start_change.
    + intros _ st Hst. destruct Hdur as [Hdur|[Heq _]].
      { by destruct (saved_as_fields _ _ (Hdur st Hst)) as [-> _]. }
      assert (new = old); [|lia].
      change new with (ps_term (TimelineState_start_change self
        <| ps_acceptor_state := ps_acceptor_state (TimelineState_start_change self)
             <| as_term := new |> |>)). by rewrite Heq.
  - repeat wp_step. split_and!; [done| |.. ]; fold old.
    all: subst new; destruct to; try lia; done.
Qed.

(** [membership_switch] never goes back: the generation of the configuration
    only grows, and the response tells what was and what is in force. *)
Theorem membership_switch_spec self to :
  TimelineState_inv self →
  wp (TimelineState_membership_switch to) (λ r self', match r with
    | Ok (before, after) =>
      before = ps_mconf (TimelineState_deref self)
      ∧ after = ps_mconf (TimelineState_deref self')
      ∧ after = (if cfg_generation before <? cfg_generation to then to else before)
      ∧ ps_acceptor_state (TimelineState_deref self')
        = ps_acceptor_state (TimelineState_deref self)
      ∧ ts_inmem self' = ts_inmem self
    | Err _ => TimelineState_deref self' = TimelineState_deref self
               ∧ ts_inmem self' = ts_inmem self
    | Panic => False
    end) self.
Proof.
  intros Hinv. unfold TimelineState_membership_switch. wp_step. wp_step. wp_step. wp_step; bool_prop.
  - repeat wp_step. split_and!; try done.
    by rewrite (proj2 (Z.ltb_ge _ _)).
  - eapply wp_mono; [by apply finish_change_spec|].
    intros [a|e|] self' Hc; [|unfold change_failed in Hc; naive_solver..].
    destruct Hc as (_ & Hd & Hm & Hdur). repeat wp_step. rewrite Hd, Hm.
    rewrite (proj2 (Z.ltb_lt _ _)) by done.
    split_and!; try done. apply mem_of_start_change.
Qed.
End laws.
