(* ===== verification/ControlFileFormat.v ===== *)
(** * The format of the control file

    [safekeeper/src/control_file_upgrade.rs] and the part of
    [safekeeper/src/control_file.rs] that is about bytes: magic number, format
    version, the serialized state and a checksum.  States of the formats before
    the current one are upgraded when they are read, and a state without a
    membership configuration is still written in the format before.

    Of other crates: [LeSer] is the serialization of [utils::bin_ser], which is
    [bincode]; [Crc32c] the checksum; [ReadBytesExt] and [WriteBytesExt] the
    extensions of [byteorder].  Logging is left out. *)

From S2P Require Import Prelude Bytes Text Ids Lsn Membership TermHistory TimelineState.

(** ** Other crates *)

(** Serialization can be refused; what is written is read back, from the full
    contents of the slice. *)
Class LeSer (A : Type) := {
  ser : A → outcome string bytes;
  des : bytes → outcome string A;
}.
Class LeSerLaws (A : Type) `{LeSer A} := {
  ser_no_panic (a : A) : ser a ≠ Panic;
  des_no_panic (buf : bytes) : des buf ≠ Panic;
  des_ser (a : A) (buf : bytes) : ser a = Ok buf → des buf = Ok a;
}.

Class Crc32c := crc32c : bytes → Z.
Class Crc32cLaws `{Crc32c} := crc32c_in_u32 buf : in_u 32 (crc32c buf).

Class ByteOrder := {
  read_u32_le : ST bytes string Z;
  write_u32_le : Z → bytes → outcome string bytes;
}.
Class ByteOrderLaws `{ByteOrder} := {
  read_u32_le_spec (buf : bytes) :
    if decide (4 ≤ length buf)%nat
    then read_u32_le buf = (Ok (le_value (take 4 buf)), drop 4 buf)
    else ∃ e buf', read_u32_le buf = (Err e, buf');
  write_u32_le_spec n (buf : bytes) : write_u32_le n buf = Ok (buf ++ le_bytes 4 n);
}.

(** ** States of the older formats *)

Record AcceptorStateV1 := mkAcceptorStateV1 {
  acc1_term : Term;
  acc1_epoch : Term;
}.

Record ServerInfoV2 := mkServerInfoV2 {
  srv2_pg_version : Z;
  srv2_system_id : Z;
  srv2_tenant_id : Id16;
  srv2_timeline_id : Id16;
  srv2_wal_seg_size : Z;
}.

Record SafeKeeperStateV1 := mkSafeKeeperStateV1 {
  v1_acceptor_state : AcceptorStateV1;
  v1_server : ServerInfoV2;
  v1_proposer_uuid : Id16;
  v1_commit_lsn : Lsn;
  v1_truncate_lsn : Lsn;
  v1_wal_start_lsn : Lsn;
}.

Record SafeKeeperStateV2 := mkSafeKeeperStateV2 {
  v2_acceptor_state : AcceptorState;
  v2_server : ServerInfoV2;
  v2_proposer_uuid : Id16;
  v2_commit_lsn : Lsn;
  v2_truncate_lsn : Lsn;
  v2_wal_start_lsn : Lsn;
}.

(** From here on the ids are serialized in hex. *)
Record ServerInfoV3 := mkServerInfoV3 {
  srv3_pg_version : Z;
  srv3_system_id : Z;
  srv3_tenant_id : Id16;
  srv3_timeline_id : Id16;
  srv3_wal_seg_size : Z;
}.

Record SafeKeeperStateV3 := mkSafeKeeperStateV3 {
  v3_acceptor_state : AcceptorState;
  v3_server : ServerInfoV3;
  v3_proposer_uuid : Id16;
  v3_commit_lsn : Lsn;
  v3_truncate_lsn : Lsn;
  v3_wal_start_lsn : Lsn;
}.

Record PersistedPeerInfo := mkPersistedPeerInfo {
  peer_backup_lsn : Lsn;
  peer_term : Term;
  peer_flush_lsn : Lsn;
  peer_commit_lsn : Lsn;
}.

Definition PersistedPeerInfo_new : PersistedPeerInfo := {|
  peer_backup_lsn := Lsn_INVALID;
  peer_term := INITIAL_TERM;
  peer_flush_lsn := 0;
  peer_commit_lsn := 0;
|}.

(** [struct PersistedPeers(Vec<(NodeId, PersistedPeerInfo)>)] *)
Abbreviation PersistedPeers := (list (NodeId * PersistedPeerInfo)).

Record SafeKeeperStateV4 := mkSafeKeeperStateV4 {
  v4_tenant_id : Id16;
  v4_timeline_id : Id16;
  v4_acceptor_state : AcceptorState;
  v4_server : ServerInfo;
  v4_proposer_uuid : Id16;
  v4_commit_lsn : Lsn;
  v4_s3_wal_lsn : Lsn;
  v4_peer_horizon_lsn : Lsn;
  v4_remote_consistent_lsn : Lsn;
  v4_peers : PersistedPeers;
}.

Record SafeKeeperStateV7 := mkSafeKeeperStateV7 {
  v7_tenant_id : Id16;
  v7_timeline_id : Id16;
  v7_acceptor_state : AcceptorState;
  v7_server : ServerInfo;
  v7_proposer_uuid : Id16;
  v7_timeline_start_lsn : Lsn;
  v7_local_start_lsn : Lsn;
  v7_commit_lsn : Lsn;
  v7_backup_lsn : Lsn;
  v7_peer_horizon_lsn : Lsn;
  v7_remote_consistent_lsn : Lsn;
  v7_peers : PersistedPeers;
}.

Record SafeKeeperStateV8 := mkSafeKeeperStateV8 {
  v8_tenant_id : Id16;
  v8_timeline_id : Id16;
  v8_acceptor_state : AcceptorState;
  v8_server : ServerInfo;
  v8_proposer_uuid : Id16;
  v8_timeline_start_lsn : Lsn;
  v8_local_start_lsn : Lsn;
  v8_commit_lsn : Lsn;
  v8_backup_lsn : Lsn;
  v8_peer_horizon_lsn : Lsn;
  v8_remote_consistent_lsn : Lsn;
  v8_peers : PersistedPeers;
  v8_partial_backup : PartialBackupState;
}.

Record TimelinePersistentStateV9 := mkTimelinePersistentStateV9 {
  v9_tenant_id : Id16;
  v9_timeline_id : Id16;
  v9_acceptor_state : AcceptorState;
  v9_server : ServerInfo;
  v9_proposer_uuid : Id16;
  v9_timeline_start_lsn : Lsn;
  v9_local_start_lsn : Lsn;
  v9_commit_lsn : Lsn;
  v9_backup_lsn : Lsn;
  v9_peer_horizon_lsn : Lsn;
  v9_remote_consistent_lsn : Lsn;
  v9_peers : PersistedPeers;
  v9_partial_backup : PartialBackupState;
  v9_eviction_state : EvictionState;
}.

(** ** Upgrades *)

(** [SystemTime::UNIX_EPOCH] *)
Definition UNIX_EPOCH : Z := 0.

(** The full term history is stored. *)
Definition upgrade_v1 (oldstate : SafeKeeperStateV1) : TimelinePersistentState := {|
  ps_tenant_id := srv2_tenant_id (v1_server oldstate);
  ps_timeline_id := srv2_timeline_id (v1_server oldstate);
  ps_mconf := Configuration_empty;
  ps_acceptor_state := {|
    as_term := acc1_term (v1_acceptor_state oldstate);
    as_term_history := [{| tl_term := acc1_epoch (v1_acceptor_state oldstate); tl_lsn := 0 |}];
  |};
  ps_server := {|
    si_pg_version := srv2_pg_version (v1_server oldstate);
    si_system_id := srv2_system_id (v1_server oldstate);
    si_wal_seg_size := srv2_wal_seg_size (v1_server oldstate);
  |};
  ps_proposer_uuid := v1_proposer_uuid oldstate;
  ps_timeline_start_lsn := 0;
  ps_local_start_lsn := 0;
  ps_commit_lsn := v1_commit_lsn oldstate;
  ps_backup_lsn := 0;
  ps_peer_horizon_lsn := v1_truncate_lsn oldstate;
  ps_remote_consistent_lsn := 0;
  ps_partial_backup := [];
  ps_eviction_state := Present;
  ps_creation_ts := UNIX_EPOCH;
|}.

(** Some ids are in hex. *)
Definition upgrade_v2 (oldstate : SafeKeeperStateV2) : TimelinePersistentState := {|
  ps_tenant_id := srv2_tenant_id (v2_server oldstate);
  ps_timeline_id := srv2_timeline_id (v2_server oldstate);
  ps_mconf := Configuration_empty;
  ps_acceptor_state := v2_acceptor_state oldstate;
  ps_server := {|
    si_pg_version := srv2_pg_version (v2_server oldstate);
    si_system_id := srv2_system_id (v2_server oldstate);
    si_wal_seg_size := srv2_wal_seg_size (v2_server oldstate);
  |};
  ps_proposer_uuid := v2_proposer_uuid oldstate;
  ps_timeline_start_lsn := 0;
  ps_local_start_lsn := 0;
  ps_commit_lsn := v2_commit_lsn oldstate;
  ps_backup_lsn := 0;
  ps_peer_horizon_lsn := v2_truncate_lsn oldstate;
  ps_remote_consistent_lsn := 0;
  ps_partial_backup := [];
  ps_eviction_state := Present;
  ps_creation_ts := UNIX_EPOCH;
|}.

(** The ids move to the top, and there are more LSNs. *)
Definition upgrade_v3 (oldstate : SafeKeeperStateV3) : TimelinePersistentState := {|
  ps_tenant_id := srv3_tenant_id (v3_server oldstate);
  ps_timeline_id := srv3_timeline_id (v3_server oldstate);
  ps_mconf := Configuration_empty;
  ps_acceptor_state := v3_acceptor_state oldstate;
  ps_server := {|
    si_pg_version := srv3_pg_version (v3_server oldstate);
    si_system_id := srv3_system_id (v3_server oldstate);
    si_wal_seg_size := srv3_wal_seg_size (v3_server oldstate);
  |};
  ps_proposer_uuid := v3_proposer_uuid oldstate;
  ps_timeline_start_lsn := 0;
  ps_local_start_lsn := 0;
  ps_commit_lsn := v3_commit_lsn oldstate;
  ps_backup_lsn := 0;
  ps_peer_horizon_lsn := v3_truncate_lsn oldstate;
  ps_remote_consistent_lsn := 0;
  ps_partial_backup := [];
  ps_eviction_state := Present;
  ps_creation_ts := UNIX_EPOCH;
|}.

(** There is a [timeline_start_lsn]. *)
Definition upgrade_v4 (oldstate : SafeKeeperStateV4) : TimelinePersistentState := {|
  ps_tenant_id := v4_tenant_id oldstate;
  ps_timeline_id := v4_timeline_id oldstate;
  ps_mconf := Configuration_empty;
  ps_acceptor_state := v4_acceptor_state oldstate;
  ps_server := {|
    si_pg_version := si_pg_version (v4_server oldstate);
    si_system_id := si_system_id (v4_server oldstate);
    si_wal_seg_size := si_wal_seg_size (v4_server oldstate);
  |};
  ps_proposer_uuid := v4_proposer_uuid oldstate;
  ps_timeline_start_lsn := 0;
  ps_local_start_lsn := 0;
  ps_commit_lsn := v4_commit_lsn oldstate;
  ps_backup_lsn := Lsn_INVALID;
  ps_peer_horizon_lsn := v4_peer_horizon_lsn oldstate;
  ps_remote_consistent_lsn := 0;
  ps_partial_backup := [];
  ps_eviction_state := Present;
  ps_creation_ts := UNIX_EPOCH;
|}.

Definition upgrade_v5 (oldstate : TimelinePersistentState) : TimelinePersistentState :=
  if negb (ps_timeline_start_lsn oldstate =? 0) then oldstate
  else oldstate <| ps_timeline_start_lsn := 1 |> <| ps_local_start_lsn := 1 |>.

Definition upgrade_v6 (oldstate : TimelinePersistentState) : TimelinePersistentState :=
  if negb (si_pg_version (ps_server oldstate) =? 0) then oldstate
  else oldstate <| ps_server := ps_server oldstate <| si_pg_version := 140005 |> |>.

Definition upgrade_v7 (oldstate : SafeKeeperStateV7) : TimelinePersistentState := {|
  ps_tenant_id := v7_tenant_id oldstate;
  ps_timeline_id := v7_timeline_id oldstate;
  ps_mconf := Configuration_empty;
  ps_acceptor_state := v7_acceptor_state oldstate;
  ps_server := v7_server oldstate;
  ps_proposer_uuid := v7_proposer_uuid oldstate;
  ps_timeline_start_lsn := v7_timeline_start_lsn oldstate;
  ps_local_start_lsn := v7_local_start_lsn oldstate;
  ps_commit_lsn := v7_commit_lsn oldstate;
  ps_backup_lsn := v7_backup_lsn oldstate;
  ps_peer_horizon_lsn := v7_peer_horizon_lsn oldstate;
  ps_remote_consistent_lsn := v7_remote_consistent_lsn oldstate;
  ps_partial_backup := [];
  ps_eviction_state := Present;
  ps_creation_ts := UNIX_EPOCH;
|}.

Definition upgrade_v8 (oldstate : SafeKeeperStateV8) : TimelinePersistentState := {|
  ps_tenant_id := v8_tenant_id oldstate;
  ps_timeline_id := v8_timeline_id oldstate;
  ps_mconf := Configuration_empty;
  ps_acceptor_state := v8_acceptor_state oldstate;
  ps_server := v8_server oldstate;
  ps_proposer_uuid := v8_proposer_uuid oldstate;
  ps_timeline_start_lsn := v8_timeline_start_lsn oldstate;
  ps_local_start_lsn := v8_local_start_lsn oldstate;
  ps_commit_lsn := v8_commit_lsn oldstate;
  ps_backup_lsn := v8_backup_lsn oldstate;
  ps_peer_horizon_lsn := v8_peer_horizon_lsn oldstate;
  ps_remote_consistent_lsn := v8_remote_consistent_lsn oldstate;
  ps_partial_backup := v8_partial_backup oldstate;
  ps_eviction_state := Present;
  ps_creation_ts := UNIX_EPOCH;
|}.

Definition upgrade_v9 (oldstate : TimelinePersistentStateV9) : TimelinePersistentState := {|
  ps_tenant_id := v9_tenant_id oldstate;
  ps_timeline_id := v9_timeline_id oldstate;
  ps_mconf := Configuration_empty;
  ps_acceptor_state := v9_acceptor_state oldstate;
  ps_server := v9_server oldstate;
  ps_proposer_uuid := v9_proposer_uuid oldstate;
  ps_timeline_start_lsn := v9_timeline_start_lsn oldstate;
  ps_local_start_lsn := v9_local_start_lsn oldstate;
  ps_commit_lsn := v9_commit_lsn oldstate;
  ps_backup_lsn := v9_backup_lsn oldstate;
  ps_peer_horizon_lsn := v9_peer_horizon_lsn oldstate;
  ps_remote_consistent_lsn := v9_remote_consistent_lsn oldstate;
  ps_partial_backup := v9_partial_backup oldstate;
  ps_eviction_state := v9_eviction_state oldstate;
  ps_creation_ts := UNIX_EPOCH;
|}.

(** The assertion of the source is a panic. *)
Definition downgrade_v10_to_v9 (state : TimelinePersistentState) :
    outcome string TimelinePersistentStateV9 :=
  if cfg_generation (ps_mconf state) =? INVALID_GENERATION then Ok {|
    v9_tenant_id := ps_tenant_id state;
    v9_timeline_id := ps_timeline_id state;
    v9_acceptor_state := ps_acceptor_state state;
    v9_server := ps_server state;
    v9_proposer_uuid := ps_proposer_uuid state;
    v9_timeline_start_lsn := ps_timeline_start_lsn state;
    v9_local_start_lsn := ps_local_start_lsn state;
    v9_commit_lsn := ps_commit_lsn state;
    v9_backup_lsn := ps_backup_lsn state;
    v9_peer_horizon_lsn := ps_peer_horizon_lsn state;
    v9_remote_consistent_lsn := ps_remote_consistent_lsn state;
    v9_peers := [];
    v9_partial_backup := ps_partial_backup state;
    v9_eviction_state := ps_eviction_state state;
  |}
  else Panic.

(** ** The file *)

Class ControlFormat := {
  cf_crc32c :: Crc32c;
  cf_byteorder :: ByteOrder;
  cf_v1 :: LeSer SafeKeeperStateV1;
  cf_v2 :: LeSer SafeKeeperStateV2;
  cf_v3 :: LeSer SafeKeeperStateV3;
  cf_v4 :: LeSer SafeKeeperStateV4;
  cf_v7 :: LeSer SafeKeeperStateV7;
  cf_v8 :: LeSer SafeKeeperStateV8;
  cf_v9 :: LeSer TimelinePersistentStateV9;
  cf_v10 :: LeSer TimelinePersistentState;
}.
Class ControlFormatLaws `{ControlFormat} := {
  cf_crc32c_laws :: Crc32cLaws;
  cf_byteorder_laws :: ByteOrderLaws;
  cf_v1_laws :: LeSerLaws SafeKeeperStateV1;
  cf_v2_laws :: LeSerLaws SafeKeeperStateV2;
  cf_v3_laws :: LeSerLaws SafeKeeperStateV3;
  cf_v4_laws :: LeSerLaws SafeKeeperStateV4;
  cf_v7_laws :: LeSerLaws SafeKeeperStateV7;
  cf_v8_laws :: LeSerLaws SafeKeeperStateV8;
  cf_v9_laws :: LeSerLaws TimelinePersistentStateV9;
  cf_v10_laws :: LeSerLaws TimelinePersistentState;
}.

Definition SK_MAGIC : Z := 0xcafeceef.
Definition SK_FORMAT_VERSION : Z := 10.
Definition PREV_FORMAT_VERSION : Z := 9.
Definition CHECKSUM_SIZE : nat := 4.

Section format.
Context `{ControlFormat}.

Definition upgrade_control_file (buf : bytes) (version : Z) : outcome string TimelinePersistentState :=
  if version =? 1 then oldstate ← des buf; Ok (upgrade_v1 oldstate)
  else if version =? 2 then oldstate ← des buf; Ok (upgrade_v2 oldstate)
  else if version =? 3 then oldstate ← des buf; Ok (upgrade_v3 oldstate)
  else if version =? 4 then oldstate ← des buf; Ok (upgrade_v4 oldstate)
  else if version =? 5 then oldstate ← des buf; Ok (upgrade_v5 oldstate)
  else if version =? 6 then oldstate ← des buf; Ok (upgrade_v6 oldstate)
  else if version =? 7 then oldstate ← des buf; Ok (upgrade_v7 oldstate)
  else if version =? 8 then oldstate ← des buf; Ok (upgrade_v8 oldstate)
  else if version =? 9 then oldstate ← des buf; Ok (upgrade_v9 oldstate)
  else Err "unsupported safekeeper control file version"%string.

(** The state is the part of the slice that is not read yet. *)
Definition deser_sk_state : ST bytes string TimelinePersistentState :=
  magic ← read_u32_le;
  _ ← st_ensure (magic =? SK_MAGIC) "bad control file magic"%string;
  version ← read_u32_le;
  buf ← st_get;
  if version =? SK_FORMAT_VERSION then st_lift (des buf)
  else st_lift (upgrade_control_file buf version).

(** [load_control_file], once the file has been read.  The subtraction
    [buf.len() - CHECKSUM_SIZE] panics on a shorter file, at the latest as the
    bound of the slice. *)
Definition parse_control_file (buf : bytes) : outcome string TimelinePersistentState :=
  if (length buf <? CHECKSUM_SIZE)%nat then Panic else
  let data := take (length buf - CHECKSUM_SIZE) buf in
  let calculated_checksum := crc32c data in
  let expected_checksum := le_value (drop (length buf - CHECKSUM_SIZE) buf) in
  if calculated_checksum =? expected_checksum then (deser_sk_state data).1
  else Err "safekeeper control file checksum mismatch"%string.

(** [ser_into] a vector *)
Definition ser_into {A} `{LeSer A} (a : A) (buf : bytes) : outcome string bytes :=
  b ← ser a; Ok (buf ++ b).

Definition write_to_buf (self : TimelinePersistentState) : outcome string bytes :=
  buf ← write_u32_le SK_MAGIC [];
  buf ← (if cfg_generation (ps_mconf self) =? INVALID_GENERATION then
           prev ← downgrade_v10_to_v9 self;
           buf ← write_u32_le PREV_FORMAT_VERSION buf;
           ser_into prev buf
         else
           buf ← write_u32_le SK_FORMAT_VERSION buf;
           ser_into self buf);
  let checksum := crc32c buf in
  Ok (buf ++ le_bytes CHECKSUM_SIZE checksum).
End format.

(** ** Reading back what was written *)

Section laws.
Context `{ControlFormatLaws}.

(** The part after magic number and version. *)
Definition read_version (version : Z) (buf : bytes) : outcome string TimelinePersistentState :=
  if version =? SK_FORMAT_VERSION then des buf else upgrade_control_file buf version.

Lemma deser_sk_state_spec version buf :
  in_u 32 version →
  (deser_sk_state (le_bytes 4 SK_MAGIC ++ le_bytes 4 version ++ buf)).1 = read_version version buf.
Proof.
  intros Hv. unfold deser_sk_state, mbind, ST_bind.
  pose proof (read_u32_le_spec (le_bytes 4 SK_MAGIC ++ le_bytes 4 version ++ buf)) as Hr.
  rewrite decide_True in Hr by (rewrite length_app, length_le_bytes; lia).
  rewrite take_app_length', drop_app_length' in Hr by done. rewrite Hr.
  rewrite (le_roundtrip 4 32) by done. simpl.
  pose proof (read_u32_le_spec (le_bytes 4 version ++ buf)) as Hr2.
  rewrite decide_True in Hr2 by (rewrite length_app, length_le_bytes; lia).
  rewrite take_app_length', drop_app_length' in Hr2 by (by rewrite length_le_bytes).
  rewrite Hr2, (le_roundtrip 4 32) by done. simpl.
  unfold read_version. by destruct (version =? SK_FORMAT_VERSION).
Qed.

Lemma parse_control_file_spec data :
  parse_control_file (data ++ le_bytes CHECKSUM_SIZE (crc32c data)) = (deser_sk_state data).1.
Proof.
  unfold parse_control_file. rewrite length_app, length_le_bytes.
  rewrite (proj2 (Nat.ltb_ge _ _)) by (unfold CHECKSUM_SIZE; lia).
  replace (length data + CHECKSUM_SIZE - CHECKSUM_SIZE)%nat with (length data) by lia.
  rewrite take_app_length, drop_app_length.
  unfold CHECKSUM_SIZE. rewrite (le_roundtrip 4 32) by (done || apply crc32c_in_u32).
  by rewrite Z.eqb_refl.
Qed.

Lemma upgrade_downgrade state prev :
  downgrade_v10_to_v9 state = Ok prev →
  cfg_generation (ps_mconf state) = INVALID_GENERATION
  ∧ upgrade_v9 prev = state <| ps_mconf := Configuration_empty |> <| ps_creation_ts := 0 |>.
Proof. unfold downgrade_v10_to_v9. case_match; bool_prop; [|done]. by intros [= <-]. Qed.

(** The state that the file holds. *)
Definition saved (state : TimelinePersistentState) : TimelinePersistentState :=
  if cfg_generation (ps_mconf state) =? INVALID_GENERATION
  then state <| ps_mconf := Configuration_empty |> <| ps_creation_ts := UNIX_EPOCH |>
  else state.

Lemma parse_write_saved state buf :
  write_to_buf state = Ok buf → parse_control_file buf = Ok (saved state).
Proof.
  unfold write_to_buf, saved, mbind, outcome_bind, ser_into. rewrite write_u32_le_spec. simpl.
  rewrite !write_u32_le_spec.
  destruct (Z.eqb_spec (cfg_generation (ps_mconf state)) INVALID_GENERATION) as [Hg|Hg].
  - destruct (downgrade_v10_to_v9 state) as [prev| |] eqn:Hp; [|done..].
    destruct (upgrade_downgrade _ _ Hp) as [_ Hup].
    unfold mbind, outcome_bind. destruct (ser prev) as [b| |] eqn:Hb; [|done..]. intros [= <-].
    rewrite parse_control_file_spec, <- app_assoc, deser_sk_state_spec by done.
    unfold read_version, upgrade_control_file. simpl. rewrite (des_ser _ _ Hb). simpl. by rewrite Hup.
  - unfold mbind, outcome_bind. destruct (ser state) as [b| |] eqn:Hb; [|done..]. intros [= <-].
    rewrite parse_control_file_spec, <- app_assoc, deser_sk_state_spec by done.
    unfold read_version. simpl. by apply des_ser.
Qed.

Lemma parse_write state buf :
  write_to_buf state = Ok buf → ∃ st, parse_control_file buf = Ok st ∧ saved_as state st.
Proof.
  intros Hw. exists (saved state). split; [by apply parse_write_saved|]. unfold saved.
  case_match; bool_prop; [by right|by left].
Qed.

Lemma write_no_panic state : write_to_buf state ≠ Panic.
Proof.
  unfold write_to_buf, mbind, outcome_bind, ser_into. rewrite write_u32_le_spec. simpl.
  rewrite !write_u32_le_spec. unfold downgrade_v10_to_v9.
  destruct (Z.eqb_spec (cfg_generation (ps_mconf state)) INVALID_GENERATION) as [Hg|Hg];
    unfold mbind, outcome_bind.
  - match goal with |- context [ser ?x] => pose proof (ser_no_panic x); by destruct (ser x) end.
  - pose proof (ser_no_panic state). by destruct (ser state).
Qed.

Lemma read_u32_le_no_panic buf : (read_u32_le buf).1 ≠ Panic.
Proof.
  pose proof (read_u32_le_spec buf) as Hr. destruct (decide _); [by rewrite Hr|].
  destruct Hr as (e & buf' & ->). done.
Qed.

Lemma des_then_no_panic {A} `{LeSerLaws A} (f : A → TimelinePersistentState) buf :
  (oldstate ← des buf; Ok (f oldstate)) ≠ Panic.
Proof.
  unfold mbind, outcome_bind. pose proof (des_no_panic buf) as Hd. by destruct (des buf).
Qed.

Lemma upgrade_no_panic buf version : upgrade_control_file buf version ≠ Panic.
Proof.
  unfold upgrade_control_file. do 9 (destruct (_ =? _); [apply des_then_no_panic|]). done.
Qed.

Lemma deser_no_panic buf : (deser_sk_state buf).1 ≠ Panic.
Proof.
  unfold deser_sk_state, mbind, ST_bind. pose proof (read_u32_le_no_panic buf).
  destruct (read_u32_le buf) as [[magic| |] buf1]; [|done..]. unfold st_ensure.
  destruct (magic =? SK_MAGIC); [|done]. simpl. pose proof (read_u32_le_no_panic buf1).
  destruct (read_u32_le buf1) as [[version| |] buf2]; [|done..]. simpl.
  destruct (version =? SK_FORMAT_VERSION); [apply des_no_panic|apply upgrade_no_panic].
Qed.

(** ** The files that are accepted *)

(** The state [st] is in the file, as [body] in the format [version]. *)
Definition in_format (version : Z) (body : bytes) (st : TimelinePersistentState) : Prop :=
  (version = 1 ∧ ∃ old, des body = Ok old ∧ st = upgrade_v1 old)
  ∨ (version = 2 ∧ ∃ old, des body = Ok old ∧ st = upgrade_v2 old)
  ∨ (version = 3 ∧ ∃ old, des body = Ok old ∧ st = upgrade_v3 old)
  ∨ (version = 4 ∧ ∃ old, des body = Ok old ∧ st = upgrade_v4 old)
  ∨ (version = 5 ∧ ∃ old, des body = Ok old ∧ st = upgrade_v5 old)
  ∨ (version = 6 ∧ ∃ old, des body = Ok old ∧ st = upgrade_v6 old)
  ∨ (version = 7 ∧ ∃ old, des body = Ok old ∧ st = upgrade_v7 old)
  ∨ (version = 8 ∧ ∃ old, des body = Ok old ∧ st = upgrade_v8 old)
  ∨ (version = 9 ∧ ∃ old, des body = Ok old ∧ st = upgrade_v9 old)
  ∨ (version = 10 ∧ des body = Ok st).

Lemma in_format_u32 version body st : in_format version body st → in_u 32 version.
Proof. unfold in_format, in_u. intros Hf. repeat destruct Hf as [[-> _]|Hf]; try done. by destruct Hf as [-> _]. Qed.

Lemma des_then_Ok {A} `{LeSer A} (f : A → TimelinePersistentState) buf st :
  (oldstate ← des buf; Ok (f oldstate)) = Ok st ↔ ∃ old, des buf = Ok old ∧ st = f old.
Proof. unfold mbind, outcome_bind. destruct (des buf) as [old| |]; naive_solver. Qed.

Lemma read_version_Ok version body st : read_version version body = Ok st ↔ in_format version body st.
Proof.
  unfold read_version, upgrade_control_file, in_format, SK_FORMAT_VERSION.
  destruct (Z.eqb_spec version 10) as [->|]; [split; [by auto 11|by intuition discriminate]|].
  repeat match goal with
  | |- context [if version =? ?n then _ else _] => destruct (Z.eqb_spec version n) as [->|]
  end; rewrite ?des_then_Ok; (split; [by auto 11|by intuition discriminate]).
Qed.

(** A number that was read stood at the front of the slice. *)
Lemma read_u32_le_Ok buf x buf' :
  read_u32_le buf = (Ok x, buf') → buf = le_bytes 4 x ++ buf'.
Proof.
  pose proof (read_u32_le_spec buf) as Hr. destruct (decide _) as [Hl|];
    [|destruct Hr as (e & b & Hr); by rewrite Hr].
  rewrite Hr. intros [= <- <-]. rewrite <- (take_drop 4 buf) at 1. f_equal.
  rewrite <- (le_bytes_of_value (take 4 buf)) at 1. f_equal. rewrite length_take. lia.
Qed.

Lemma deser_sk_state_Ok data st :
  (deser_sk_state data).1 = Ok st →
  ∃ version body, data = le_bytes 4 SK_MAGIC ++ le_bytes 4 version ++ body
    ∧ in_format version body st.
Proof.
  unfold deser_sk_state, mbind, ST_bind.
  destruct (read_u32_le data) as [[magic| |] buf1] eqn:Hm; [|done..]. unfold st_ensure.
  destruct (Z.eqb_spec magic SK_MAGIC) as [->|]; [|done]. simpl.
  destruct (read_u32_le buf1) as [[version| |] buf2] eqn:Hv; [|done..]. simpl. intros Hst.
  apply read_u32_le_Ok in Hm as ->. apply read_u32_le_Ok in Hv as ->.
  exists version, buf2. split; [done|]. apply read_version_Ok. unfold read_version.
  by destruct (version =? SK_FORMAT_VERSION).
Qed.

Lemma parse_control_file_Ok buf st :
  parse_control_file buf = Ok st →
  ∃ data, buf = data ++ le_bytes CHECKSUM_SIZE (crc32c data) ∧ (deser_sk_state data).1 = Ok st.
Proof.
  unfold parse_control_file. destruct (Nat.ltb_spec (length buf) CHECKSUM_SIZE); [done|].
  destruct (Z.eqb_spec (crc32c (take (length buf - CHECKSUM_SIZE) buf))
    (le_value (drop (length buf - CHECKSUM_SIZE) buf))) as [Hc|]; [|done].
  intros Hd. eexists. split; [|exact Hd]. rewrite Hc.
  rewrite <- (take_drop (length buf - CHECKSUM_SIZE) buf) at 1. f_equal.
  rewrite <- (le_bytes_of_value (drop _ buf)) at 1. f_equal. rewrite length_drop. lia.
Qed.

(** What an upgrade must not lose: the acceptor's term and history, how much is
    committed, and whose timeline it is. *)
Definition upgraded (buf : bytes) (version : Z) (acceptor : AcceptorState) (commit_lsn : Lsn)
    (ttid : Id16 * Id16) (server : ServerInfo) : Prop :=
  ∃ st, upgrade_control_file buf version = Ok st
    ∧ ps_acceptor_state st = acceptor ∧ ps_commit_lsn st = commit_lsn
    ∧ (ps_tenant_id st, ps_timeline_id st) = ttid ∧ ps_server st = server
    ∧ ps_mconf st = Configuration_empty.

(** ** Theorems *)

(** C31: A control file that was written can be read, and holds the state it was
    written from; without a membership configuration the configuration and the
    time of creation are reset. *)
Theorem control_file_roundtrip (state : TimelinePersistentState) (buf : bytes)
    (Hw : write_to_buf state = Ok buf) :
  parse_control_file buf = Ok (saved state).
Proof. by apply parse_write_saved. Qed.

(** C32: Exactly these files are read: the magic number, one of the format versions 1 to
    10, a state that can be deserialized in that format, and the checksum of all that;
    the result is the state, upgraded by the function of its version.  A file that is
    shorter than the checksum panics; every other file, with another magic number, an
    unknown version, a state that does not deserialize or another checksum, is an
    error. *)
Theorem parse_control_file_exact (buf : bytes) :
  (∀ st, parse_control_file buf = Ok st ↔
     ∃ version body, in_format version body st
       ∧ let data := le_bytes 4 SK_MAGIC ++ le_bytes 4 version ++ body in
         buf = data ++ le_bytes CHECKSUM_SIZE (crc32c data))
  ∧ (parse_control_file buf = Panic ↔ (length buf < CHECKSUM_SIZE)%nat).
Proof.
  split; [intros st; split|].
  - intros (data & -> & Hd)%parse_control_file_Ok. apply deser_sk_state_Ok in Hd as (version & body & -> & Hv).
    by exists version, body.
  - intros (version & body & Hf & ->). rewrite parse_control_file_spec.
    rewrite deser_sk_state_spec by by eapply in_format_u32. by apply read_version_Ok.
  - unfold parse_control_file. destruct (Nat.ltb_spec (length buf) CHECKSUM_SIZE); [done|].
    split; [|lia]. case_match; [|done]. by intros ?%deser_no_panic.
Qed.

(** Reading a control file of an older format keeps the term, the term
    history, the commit LSN, the ids and the server of the state it was written
    from (the first format has the last term of the history only). *)
Theorem upgrade_control_file_keeps (buf : bytes) :
  (∀ old : SafeKeeperStateV1, ser old = Ok buf → let srv := v1_server old in
    upgraded buf 1 {| as_term := acc1_term (v1_acceptor_state old);
                      as_term_history := [{| tl_term := acc1_epoch (v1_acceptor_state old); tl_lsn := 0 |}] |}
      (v1_commit_lsn old) (srv2_tenant_id srv, srv2_timeline_id srv)
      (mkServerInfo (srv2_pg_version srv) (srv2_system_id srv) (srv2_wal_seg_size srv)))
  ∧ (∀ old : SafeKeeperStateV2, ser old = Ok buf → let srv := v2_server old in
    upgraded buf 2 (v2_acceptor_state old) (v2_commit_lsn old) (srv2_tenant_id srv, srv2_timeline_id srv)
      (mkServerInfo (srv2_pg_version srv) (srv2_system_id srv) (srv2_wal_seg_size srv)))
  ∧ (∀ old : SafeKeeperStateV3, ser old = Ok buf → let srv := v3_server old in
    upgraded buf 3 (v3_acceptor_state old) (v3_commit_lsn old) (srv3_tenant_id srv, srv3_timeline_id srv)
      (mkServerInfo (srv3_pg_version srv) (srv3_system_id srv) (srv3_wal_seg_size srv)))
  ∧ (∀ old : SafeKeeperStateV4, ser old = Ok buf →
    upgraded buf 4 (v4_acceptor_state old) (v4_commit_lsn old) (v4_tenant_id old, v4_timeline_id old)
      (v4_server old))
  ∧ (∀ old : SafeKeeperStateV7, ser old = Ok buf →
    upgraded buf 7 (v7_acceptor_state old) (v7_commit_lsn old) (v7_tenant_id old, v7_timeline_id old)
      (v7_server old))
  ∧ (∀ old : SafeKeeperStateV8, ser old = Ok buf →
    upgraded buf 8 (v8_acceptor_state old) (v8_commit_lsn old) (v8_tenant_id old, v8_timeline_id old)
      (v8_server old))
  ∧ (∀ old : TimelinePersistentStateV9, ser old = Ok buf →
    upgraded buf 9 (v9_acceptor_state old) (v9_commit_lsn old) (v9_tenant_id old, v9_timeline_id old)
      (v9_server old)).
Proof.
  split_and!; intros old Hser%des_ser; try intros srv; unfold upgraded, upgrade_control_file; simpl;
    rewrite Hser; (eexists; split; [done|]); try done.
  split_and!; try done. simpl. by destruct (v4_server old).
Qed.
End laws.
