(* ===== verification/Bincode.v ===== *)
(** * A serialization of the control states

    An implementation of the interface of [ControlFileFormat]: the fixed-width
    little-endian encoding that [utils::bin_ser::LeSer] promises, with a length
    of 8 bytes before a sequence, a byte before an optional value, 4 bytes for
    the variant of an enum, and ids in hex where the source asks for it.  It
    shows that the laws can be satisfied, and the examples compare it with the
    bytes that the unit tests of [control_file_upgrade.rs] expect. *)

From S2P Require Import Prelude Bytes Text Ids Lsn Membership TermHistory TimelineState.
From S2P Require Import ControlFileFormat.

(** ** Codecs *)

(** Values out of range are refused; what is encoded is decoded, whatever follows. *)
Record codec (A : Type) := mkCodec {
  enc : A → option bytes;
  dec : bytes → option (A * bytes);
  dec_enc a b rest : enc a = Some b → dec (b ++ rest) = Some (a, rest);
}.
Arguments mkCodec {A} _ _ _.
Arguments enc {A} _ _.
Arguments dec {A} _ _.
Arguments dec_enc {A} _ _ _ _.

Definition get_bytes (n : nat) (buf : bytes) : option (bytes * bytes) :=
  if decide (n ≤ length buf)%nat then Some (take n buf, drop n buf) else None.

Lemma get_bytes_app n h rest : length h = n → get_bytes n (h ++ rest) = Some (h, rest).
Proof.
  intros <-. unfold get_bytes. rewrite decide_True by (rewrite length_app; lia).
  by rewrite take_app_length, drop_app_length.
Qed.

(** [u8] to [u64] *)
Program Definition c_uint (n : nat) : codec Z := {|
  enc z := if decide (in_u (8 * Z.of_nat n) z) then Some (le_bytes n z) else None;
  dec buf := '(h, t) ← get_bytes n buf; Some (le_value h, t);
|}.
Next Obligation.
  intros n z b rest. simpl. destruct (decide _) as [Hz|]; [|done]. intros [= <-].
  rewrite get_bytes_app by apply length_le_bytes. simpl.
  by rewrite (le_roundtrip n (8 * Z.of_nat n)).
Qed.

(** [[u8; n]] *)
Program Definition c_array (n : nat) : codec bytes := {|
  enc l := if decide (length l = n) then Some l else None;
  dec := get_bytes n;
|}.
Next Obligation.
  intros n l b rest. simpl. destruct (decide _); [|done]. intros [= <-]. by apply get_bytes_app.
Qed.

(** Records, as nested pairs *)
Program Definition c_pair {A B} (ca : codec A) (cb : codec B) : codec (A * B) := {|
  enc p := a ← enc ca p.1; b ← enc cb p.2; Some (a ++ b);
  dec buf := '(a, t) ← dec ca buf; '(b, t) ← dec cb t; Some ((a, b), t);
|}.
Next Obligation.
  intros A B ca cb [a b] bs rest. simpl. destruct (enc ca a) as [ba|] eqn:Ha; [|done]. simpl.
  destruct (enc cb b) as [bb|] eqn:Hb; [|done]. simpl. intros [= <-].
  rewrite <- app_assoc, (dec_enc ca _ _ _ Ha). simpl. by rewrite (dec_enc cb _ _ _ Hb).
Qed.

Program Definition c_iso {A B} (c : codec B) (f : A → B) (g : B → A) (Hgf : ∀ a, g (f a) = a) :
    codec A := {|
  enc a := enc c (f a);
  dec buf := '(b, t) ← dec c buf; Some (g b, t);
|}.
Next Obligation.
  intros A B c f g Hgf a b rest Ha. simpl in *. rewrite (dec_enc c _ _ _ Ha). simpl. by rewrite Hgf.
Qed.

#[local] Infix "⊗" := c_pair (at level 60, right associativity).

Fixpoint enc_all {A} (c : codec A) (l : list A) : option bytes :=
  match l with
  | [] => Some []
  | a :: l => b ← enc c a; bs ← enc_all c l; Some (b ++ bs)
  end.
Fixpoint dec_all {A} (c : codec A) (n : nat) (buf : bytes) : option (list A * bytes) :=
  match n with
  | O => Some ([], buf)
  | S n => '(a, t) ← dec c buf; '(l, t) ← dec_all c n t; Some (a :: l, t)
  end.

Lemma dec_enc_all {A} (c : codec A) l : ∀ b rest,
  enc_all c l = Some b → dec_all c (length l) (b ++ rest) = Some (l, rest).
Proof.
  induction l as [|a l IH]; intros b rest; simpl; [by intros [= <-]|].
  destruct (enc c a) as [ba|] eqn:Ha; [|done]. simpl.
  destruct (enc_all c l) as [bl|] eqn:Hl; [|done]. simpl. intros [= <-].
  rewrite <- app_assoc, (dec_enc c _ _ _ Ha). simpl. by rewrite IH.
Qed.

(** [Vec<T>], of elements that take at least a byte each: a length beyond the end
    of the input is refused at once. *)
Program Definition c_list {A} (c : codec A) : codec (list A) := {|
  enc l := n ← enc (c_uint 8) (Z.of_nat (length l)); b ← enc_all c l;
           if decide (length l ≤ length b)%nat then Some (n ++ b) else None;
  dec buf := '(n, t) ← dec (c_uint 8) buf;
             if n <=? Z.of_nat (length t) then dec_all c (Z.to_nat n) t else None;
|}.
Next Obligation.
  intros A c l b rest. cbv beta. destruct (enc (c_uint 8) _) as [n|] eqn:Hn; [|done]. simpl.
  destruct (enc_all c l) as [bl|] eqn:Hl; [|done]. simpl. destruct (decide _); [|done].
  intros [= <-]. rewrite <- app_assoc.
  pose proof (dec_enc (c_uint 8) _ _ (bl ++ rest) Hn) as Hd.
  simpl in Hd. rewrite Hd. simpl. rewrite (proj2 (Z.leb_le _ _)) by (rewrite length_app; lia).
  rewrite Nat2Z.id. by apply dec_enc_all.
Qed.

(** [Option<T>] *)
Definition dec_option {A} (c : codec A) (buf : bytes) : option (option A * bytes) :=
  match buf with
  | x00 :: t => Some (None, t)
  | x01 :: t => '(a, t) ← dec c t; Some (Some a, t)
  | _ => None
  end.
Program Definition c_option {A} (c : codec A) : codec (option A) := {|
  enc o := match o with None => Some [x00] | Some a => b ← enc c a; Some (x01 :: b) end;
  dec := dec_option c;
|}.
Next Obligation.
  intros A c [a|] b rest; simpl; [|by intros [= <-]].
  destruct (enc c a) as [ba|] eqn:Ha; [|done]. simpl. intros [= <-]. simpl.
  by rewrite (dec_enc c _ _ _ Ha).
Qed.

(** Ids with [serde(with = hex)]: a string of digits. *)
Definition hex_text (id : bytes) : bytes := byte_of <$> concat (hex_pair <$> id).

Lemma digit_lower_byte d : 0 ≤ d < 16 → 0 ≤ digit_lower d < 256.
Proof. unfold digit_lower. case_match; lia. Qed.

Lemma hex_text_chars id : byte_val <$> hex_text id = concat (hex_pair <$> id).
Proof.
  unfold hex_text. rewrite <- list_fmap_compose. induction id as [|b id IH]; [done|].
  rewrite fmap_cons. cbn [concat hex_pair app fmap list_fmap]. unfold compose at 1 2.
  pose proof (byte_val_bound b).
  assert (0 ≤ byte_val b / 16 < 16) by
    (split; [apply Z.div_pos | apply Z.div_lt_upper_bound]; lia).
  pose proof (Z.mod_pos_bound (byte_val b) 16 ltac:(lia)).
  rewrite !byte_val_of, !Z.mod_small by by apply digit_lower_byte.
  do 2 f_equal. exact IH.
Qed.

Lemma length_hex_text id : length (hex_text id) = (2 * length id)%nat.
Proof. unfold hex_text. by rewrite length_fmap, length_pairs. Qed.

Definition dec_hex (buf : bytes) : option (bytes * bytes) :=
  '(n, t) ← dec (c_uint 8) buf;
  '(h, t) ← (if n =? 32 then get_bytes 32 t else None);
  match hex_decode (byte_val <$> h) 0 with
  | Ok id => if decide (length id = 16%nat) then Some (id, t) else None
  | _ => None
  end.
Program Definition c_hex : codec bytes := {|
  enc id := if decide (length id = 16%nat) then Some (le_bytes 8 32 ++ hex_text id) else None;
  dec := dec_hex;
|}.
Next Obligation.
  intros id b rest. simpl. destruct (decide _) as [Hl|]; [|done]. intros [= <-]. unfold dec_hex.
  rewrite <- app_assoc, (dec_enc (c_uint 8) 32 (le_bytes 8 32)) by done. simpl.
  rewrite get_bytes_app by (rewrite length_hex_text, Hl; done). simpl.
  rewrite hex_text_chars, hex_decode_lower. by rewrite decide_True.
Qed.

(** ** The states *)

Abbreviation c_u16 := (c_uint 2).
Abbreviation c_u32 := (c_uint 4).
Abbreviation c_u64 := (c_uint 8).
Abbreviation c_id := (c_array 16).

Lemma byte_iso (b : byte) : byte_of (byte_val b) = b.
Proof. apply byte_of_val. Qed.
Definition c_string : codec bytes := c_list (c_iso (c_uint 1) byte_val byte_of byte_iso).

Definition upload_status_variant (s : UploadStatus) : Z :=
  match s with InProgress => 0 | Uploaded => 1 | Deleting => 2 end.
Program Definition c_upload_status : codec UploadStatus :=
  c_iso c_u32 upload_status_variant
    (λ v, if v =? 0 then InProgress else if v =? 1 then Uploaded else Deleting) _.
Next Obligation. by intros []. Qed.

Definition dec_eviction (buf : bytes) : option (EvictionState * bytes) :=
  '(v, t) ← dec c_u32 buf;
  if v =? 0 then Some (Present, t)
  else if v =? 1 then '(lsn, t) ← dec c_u64 t; Some (Offloaded lsn, t)
  else None.
Program Definition c_eviction : codec EvictionState := {|
  enc e := match e with
           | Present => Some (le_bytes 4 0)
           | Offloaded lsn => b ← enc c_u64 lsn; Some (le_bytes 4 1 ++ b)
           end;
  dec := dec_eviction;
|}.
Next Obligation.
  intros [|lsn] b rest; cbv beta iota; unfold dec_eviction.
  - intros [= <-]. by rewrite (dec_enc c_u32 0 (le_bytes 4 0)).
  - destruct (enc c_u64 lsn) as [bl|] eqn:Hl; [|done]. intros [= <-].
    rewrite <- app_assoc, (dec_enc c_u32 1 (le_bytes 4 1)) by done.
    pose proof (dec_enc c_u64 _ _ rest Hl) as Hd. simpl in *. by rewrite Hd.
Qed.

(** [SystemTime]: seconds and nanoseconds *)
Program Definition c_time : codec Z :=
  c_iso (c_pair c_u64 c_u32) (λ z, (z / 10 ^ 9, z mod 10 ^ 9)) (λ '(s, ns), s * 10 ^ 9 + ns) _.
Next Obligation. intros z. simpl. rewrite Z.mul_comm, <- Z.div_mod by lia. done. Qed.

Program Definition c_term_lsn : codec TermLsn :=
  c_iso (c_u64 ⊗ c_u64)
    (λ s, (tl_term s, tl_lsn s))
    (λ '(f0, f1), Build_TermLsn f0 f1) _.
Next Obligation. by intros []. Qed.

Program Definition c_acceptor : codec AcceptorState :=
  c_iso (c_u64 ⊗ (c_list c_term_lsn))
    (λ s, (as_term s, as_term_history s))
    (λ '(f0, f1), mkAcceptorState f0 f1) _.
Next Obligation. by intros []. Qed.

Program Definition c_server : codec ServerInfo :=
  c_iso (c_u32 ⊗ c_u64 ⊗ c_u32)
    (λ s, (si_pg_version s, (si_system_id s, si_wal_seg_size s)))
    (λ '(f0, (f1, f2)), mkServerInfo f0 f1 f2) _.
Next Obligation. by intros []. Qed.

Program Definition c_safekeeper_id : codec SafekeeperId :=
  c_iso (c_u64 ⊗ c_string ⊗ c_u16)
    (λ s, (sk_id s, (sk_host s, sk_pg_port s)))
    (λ '(f0, (f1, f2)), Build_SafekeeperId f0 f1 f2) _.
Next Obligation. by intros []. Qed.

Program Definition c_member_set : codec MemberSet :=
  c_iso (c_list c_safekeeper_id)
    (λ s, ms_m s)
    (λ 'f0, Build_MemberSet f0) _.
Next Obligation. by intros []. Qed.

Program Definition c_mconf : codec Configuration :=
  c_iso (c_u32 ⊗ c_member_set ⊗ (c_option c_member_set))
    (λ s, (cfg_generation s, (cfg_members s, cfg_new_members s)))
    (λ '(f0, (f1, f2)), Build_Configuration f0 f1 f2) _.
Next Obligation. by intros []. Qed.

Program Definition c_segment : codec PartialRemoteSegment :=
  c_iso (c_upload_status ⊗ c_string ⊗ c_u64 ⊗ c_u64 ⊗ c_u64)
    (λ s, (prs_status s, (prs_name s, (prs_commit_lsn s, (prs_flush_lsn s, prs_term s)))))
    (λ '(f0, (f1, (f2, (f3, f4)))), mkPartialRemoteSegment f0 f1 f2 f3 f4) _.
Next Obligation. by intros []. Qed.

Program Definition c_peer : codec PersistedPeerInfo :=
  c_iso (c_u64 ⊗ c_u64 ⊗ c_u64 ⊗ c_u64)
    (λ s, (peer_backup_lsn s, (peer_term s, (peer_flush_lsn s, peer_commit_lsn s))))
    (λ '(f0, (f1, (f2, f3))), mkPersistedPeerInfo f0 f1 f2 f3) _.
Next Obligation. by intros []. Qed.

Definition c_peers : codec PersistedPeers := c_list (c_pair c_u64 c_peer).

Program Definition c_acceptor_v1 : codec AcceptorStateV1 :=
  c_iso (c_u64 ⊗ c_u64)
    (λ s, (acc1_term s, acc1_epoch s))
    (λ '(f0, f1), mkAcceptorStateV1 f0 f1) _.
Next Obligation. by intros []. Qed.

Program Definition c_server_v2 : codec ServerInfoV2 :=
  c_iso (c_u32 ⊗ c_u64 ⊗ c_id ⊗ c_id ⊗ c_u32)
    (λ s, (srv2_pg_version s, (srv2_system_id s, (srv2_tenant_id s, (srv2_timeline_id s,
      srv2_wal_seg_size s)))))
    (λ '(f0, (f1, (f2, (f3, f4)))), mkServerInfoV2 f0 f1 f2 f3 f4) _.
Next Obligation. by intros []. Qed.

Program Definition c_server_v3 : codec ServerInfoV3 :=
  c_iso (c_u32 ⊗ c_u64 ⊗ c_hex ⊗ c_hex ⊗ c_u32)
    (λ s, (srv3_pg_version s, (srv3_system_id s, (srv3_tenant_id s, (srv3_timeline_id s,
      srv3_wal_seg_size s)))))
    (λ '(f0, (f1, (f2, (f3, f4)))), mkServerInfoV3 f0 f1 f2 f3 f4) _.
Next Obligation. by intros []. Qed.

Program Definition c_v1 : codec SafeKeeperStateV1 :=
  c_iso (c_acceptor_v1 ⊗ c_server_v2 ⊗ c_id ⊗ c_u64 ⊗ c_u64 ⊗ c_u64)
    (λ s, (v1_acceptor_state s, (v1_server s, (v1_proposer_uuid s, (v1_commit_lsn s,
      (v1_truncate_lsn s, v1_wal_start_lsn s))))))
    (λ '(f0, (f1, (f2, (f3, (f4, f5))))), mkSafeKeeperStateV1 f0 f1 f2 f3 f4 f5) _.
Next Obligation. by intros []. Qed.

Program Definition c_v2 : codec SafeKeeperStateV2 :=
  c_iso (c_acceptor ⊗ c_server_v2 ⊗ c_id ⊗ c_u64 ⊗ c_u64 ⊗ c_u64)
    (λ s, (v2_acceptor_state s, (v2_server s, (v2_proposer_uuid s, (v2_commit_lsn s,
      (v2_truncate_lsn s, v2_wal_start_lsn s))))))
    (λ '(f0, (f1, (f2, (f3, (f4, f5))))), mkSafeKeeperStateV2 f0 f1 f2 f3 f4 f5) _.
Next Obligation. by intros []. Qed.

Program Definition c_v3 : codec SafeKeeperStateV3 :=
  c_iso (c_acceptor ⊗ c_server_v3 ⊗ c_hex ⊗ c_u64 ⊗ c_u64 ⊗ c_u64)
    (λ s, (v3_acceptor_state s, (v3_server s, (v3_proposer_uuid s, (v3_commit_lsn s,
      (v3_truncate_lsn s, v3_wal_start_lsn s))))))
    (λ '(f0, (f1, (f2, (f3, (f4, f5))))), mkSafeKeeperStateV3 f0 f1 f2 f3 f4 f5) _.
Next Obligation. by intros []. Qed.

Program Definition c_v4 : codec SafeKeeperStateV4 :=
  c_iso (c_hex ⊗ c_hex ⊗ c_acceptor ⊗ c_server ⊗ c_hex ⊗ c_u64 ⊗ c_u64 ⊗ c_u64 ⊗ c_u64 ⊗ c_peers)
    (λ s, (v4_tenant_id s, (v4_timeline_id s, (v4_acceptor_state s, (v4_server s,
      (v4_proposer_uuid s, (v4_commit_lsn s, (v4_s3_wal_lsn s, (v4_peer_horizon_lsn s,
      (v4_remote_consistent_lsn s, v4_peers s))))))))))
    (λ '(f0, (f1, (f2, (f3, (f4, (f5, (f6, (f7, (f8, f9))))))))), mkSafeKeeperStateV4 f0 f1 f2 f3
      f4 f5 f6 f7 f8 f9) _.
Next Obligation. by intros []. Qed.

Program Definition c_v7 : codec SafeKeeperStateV7 :=
  c_iso (c_hex ⊗ c_hex ⊗ c_acceptor ⊗ c_server ⊗ c_hex ⊗ c_u64 ⊗ c_u64 ⊗ c_u64 ⊗ c_u64 ⊗ c_u64 ⊗
      c_u64 ⊗ c_peers)
    (λ s, (v7_tenant_id s, (v7_timeline_id s, (v7_acceptor_state s, (v7_server s,
      (v7_proposer_uuid s, (v7_timeline_start_lsn s, (v7_local_start_lsn s, (v7_commit_lsn s,
      (v7_backup_lsn s, (v7_peer_horizon_lsn s, (v7_remote_consistent_lsn s, v7_peers
      s))))))))))))
    (λ '(f0, (f1, (f2, (f3, (f4, (f5, (f6, (f7, (f8, (f9, (f10, f11))))))))))),
      mkSafeKeeperStateV7 f0 f1 f2 f3 f4 f5 f6 f7 f8 f9 f10 f11) _.
Next Obligation. by intros []. Qed.

Program Definition c_v8 : codec SafeKeeperStateV8 :=
  c_iso (c_hex ⊗ c_hex ⊗ c_acceptor ⊗ c_server ⊗ c_hex ⊗ c_u64 ⊗ c_u64 ⊗ c_u64 ⊗ c_u64 ⊗ c_u64 ⊗
      c_u64 ⊗ c_peers ⊗ (c_list c_segment))
    (λ s, (v8_tenant_id s, (v8_timeline_id s, (v8_acceptor_state s, (v8_server s,
      (v8_proposer_uuid s, (v8_timeline_start_lsn s, (v8_local_start_lsn s, (v8_commit_lsn s,
      (v8_backup_lsn s, (v8_peer_horizon_lsn s, (v8_remote_consistent_lsn s, (v8_peers s,
      v8_partial_backup s)))))))))))))
    (λ '(f0, (f1, (f2, (f3, (f4, (f5, (f6, (f7, (f8, (f9, (f10, (f11, f12)))))))))))),
      mkSafeKeeperStateV8 f0 f1 f2 f3 f4 f5 f6 f7 f8 f9 f10 f11 f12) _.
Next Obligation. by intros []. Qed.

Program Definition c_v9 : codec TimelinePersistentStateV9 :=
  c_iso (c_hex ⊗ c_hex ⊗ c_acceptor ⊗ c_server ⊗ c_hex ⊗ c_u64 ⊗ c_u64 ⊗ c_u64 ⊗ c_u64 ⊗ c_u64 ⊗
      c_u64 ⊗ c_peers ⊗ (c_list c_segment) ⊗ c_eviction)
    (λ s, (v9_tenant_id s, (v9_timeline_id s, (v9_acceptor_state s, (v9_server s,
      (v9_proposer_uuid s, (v9_timeline_start_lsn s, (v9_local_start_lsn s, (v9_commit_lsn s,
      (v9_backup_lsn s, (v9_peer_horizon_lsn s, (v9_remote_consistent_lsn s, (v9_peers s,
      (v9_partial_backup s, v9_eviction_state s))))))))))))))
    (λ '(f0, (f1, (f2, (f3, (f4, (f5, (f6, (f7, (f8, (f9, (f10, (f11, (f12, f13))))))))))))),
      mkTimelinePersistentStateV9 f0 f1 f2 f3 f4 f5 f6 f7 f8 f9 f10 f11 f12 f13) _.
Next Obligation. by intros []. Qed.

Program Definition c_v10 : codec TimelinePersistentState :=
  c_iso (c_hex ⊗ c_hex ⊗ c_mconf ⊗ c_acceptor ⊗ c_server ⊗ c_hex ⊗ c_u64 ⊗ c_u64 ⊗ c_u64 ⊗ c_u64 ⊗
      c_u64 ⊗ c_u64 ⊗ (c_list c_segment) ⊗ c_eviction ⊗ c_time)
    (λ s, (ps_tenant_id s, (ps_timeline_id s, (ps_mconf s, (ps_acceptor_state s, (ps_server s,
      (ps_proposer_uuid s, (ps_timeline_start_lsn s, (ps_local_start_lsn s, (ps_commit_lsn s,
      (ps_backup_lsn s, (ps_peer_horizon_lsn s, (ps_remote_consistent_lsn s, (ps_partial_backup s,
      (ps_eviction_state s, ps_creation_ts s)))))))))))))))
    (λ '(f0, (f1, (f2, (f3, (f4, (f5, (f6, (f7, (f8, (f9, (f10, (f11, (f12, (f13,
      f14)))))))))))))), mkTimelinePersistentState f0 f1 f2 f3 f4 f5 f6 f7 f8 f9 f10 f11 f12 f13
      f14) _.
Next Obligation. by intros []. Qed.

(** ** The interface *)

Definition codec_LeSer {A} (c : codec A) : LeSer A := {|
  ser a := ok_or (enc c a) "serialize error"%string;
  des buf := match dec c buf with
             | Some (a, []) => Ok a
             | _ => Err "deserialize error"%string
             end;
|}.

Lemma codec_LeSer_laws {A} (c : codec A) : @LeSerLaws A (codec_LeSer c).
Proof.
  split; simpl.
  - intros a. by destruct (enc c a).
  - intros buf. by destruct (dec c buf) as [[a [|]]|].
  - intros a buf. destruct (enc c a) as [b|] eqn:Ha; [|done]. intros [= <-].
    pose proof (dec_enc c _ _ [] Ha) as Hd. by rewrite app_nil_r in Hd; rewrite Hd.
Qed.

(** A checksum, and the accessors of [byteorder]. *)
Definition test_crc32c : Crc32c := λ buf, wrap 32 (foldr (λ b acc, byte_val b + 31 * acc) 7 buf).

Definition test_byteorder : ByteOrder := {|
  read_u32_le buf :=
    if decide (4 ≤ length buf)%nat then (Ok (le_value (take 4 buf)), drop 4 buf)
    else (Err "failed to fill whole buffer"%string, buf);
  write_u32_le n buf := Ok (buf ++ le_bytes 4 n);
|}.

Definition test_control_format : ControlFormat := {|
  cf_crc32c := test_crc32c; cf_byteorder := test_byteorder;
  cf_v1 := codec_LeSer c_v1; cf_v2 := codec_LeSer c_v2; cf_v3 := codec_LeSer c_v3;
  cf_v4 := codec_LeSer c_v4; cf_v7 := codec_LeSer c_v7; cf_v8 := codec_LeSer c_v8;
  cf_v9 := codec_LeSer c_v9; cf_v10 := codec_LeSer c_v10;
|}.

Lemma test_control_laws : @ControlFormatLaws test_control_format.
Proof.
  split; try apply codec_LeSer_laws.
  - intros buf. by apply wrap_in_u.
  - split; simpl; [|done]. intros buf. destruct (decide _); [done|by eauto].
Qed.

(** ** The unit tests of [control_file_upgrade.rs] *)

Definition hex_bytes (s : string) : bytes :=
  match hex_decode (lit s) 0 with Ok b => b | _ => [] end.

Definition test_tenant_id : Id16 := hex_bytes "cf0480929707ee75372337efaa5ecf96".
Definition test_timeline_id : Id16 := hex_bytes "112ded66422aa5e953e5440fa5427ac4".

Definition test_state_v1 : SafeKeeperStateV1 := {|
  v1_acceptor_state := {| acc1_term := 42; acc1_epoch := 43 |};
  v1_server := {| srv2_pg_version := 14; srv2_system_id := 0x1234567887654321;
                  srv2_tenant_id := test_tenant_id; srv2_timeline_id := test_timeline_id;
                  srv2_wal_seg_size := 0x12345678 |};
  v1_proposer_uuid := reverse test_timeline_id;
  v1_commit_lsn := 1234567800;
  v1_truncate_lsn := 123456780;
  v1_wal_start_lsn := 1234567800 - 8;
|}.

Example roundtrip_v1 : enc c_v1 test_state_v1 = Some (hex_bytes (
    "2a000000000000002b000000000000000e0000002143658778563412cf0480929707ee75372337efaa5ecf96" ++
    "112ded66422aa5e953e5440fa5427ac478563412c47a42a50f44e553e9a52a4266ed2d117802964900000000" ++
    "0ccd5b07000000007002964900000000")).
Proof. vm_compute. reflexivity. Qed.

Definition test_state_v4 : SafeKeeperStateV4 := {|
  v4_tenant_id := test_tenant_id;
  v4_timeline_id := test_timeline_id;
  v4_acceptor_state := {| as_term := 42; as_term_history := [{| tl_term := 41; tl_lsn := 1 |}] |};
  v4_server := {| si_pg_version := 14; si_system_id := 0x1234567887654321;
                  si_wal_seg_size := 0x12345678 |};
  v4_proposer_uuid := reverse test_timeline_id;
  v4_commit_lsn := 1234567800;
  v4_s3_wal_lsn := 1234567300;
  v4_peer_horizon_lsn := 9999999;
  v4_remote_consistent_lsn := 1234560000;
  v4_peers := [(1, {| peer_backup_lsn := 1234567000; peer_term := 42;
                     peer_flush_lsn := 1234567800 - 8; peer_commit_lsn := 1234567600 |})];
|}.

Example roundtrip_v4 : enc c_v4 test_state_v4 = Some (hex_bytes (
    "2000000000000000636630343830393239373037656537353337323333376566616135656366393620000000" ++
    "0000000031313264656436363432326161356539353365353434306661353432376163342a00000000000000" ++
    "0100000000000000290000000000000001000000000000000e00000021436587785634127856341220000000" ++
    "0000000063343761343261353066343465353533653961353261343236366564326431317802964900000000" ++
    "84009649000000007f9698000000000000e49549000000000100000000000000010000000000000058ff9549" ++
    "000000002a000000000000007002964900000000b001964900000000")).
Proof. vm_compute. reflexivity. Qed.

(** ** Control files *)

(** [TimelinePersistentState::empty()] with a configuration, as in the tests of
    [control_file.rs] *)
Definition test_control_state : TimelinePersistentState := {|
  ps_tenant_id := test_tenant_id;
  ps_timeline_id := test_timeline_id;
  ps_mconf := {| cfg_generation := 42; cfg_members := MemberSet_empty; cfg_new_members := None |};
  ps_acceptor_state := {| as_term := 42; as_term_history := [{| tl_term := 41; tl_lsn := 1 |}] |};
  ps_server := {| si_pg_version := 170000; si_system_id := 0; si_wal_seg_size := WAL_SEGMENT_SIZE |};
  ps_proposer_uuid := zero_id;
  ps_timeline_start_lsn := 1;
  ps_local_start_lsn := 1;
  ps_commit_lsn := 42;
  ps_backup_lsn := 0;
  ps_peer_horizon_lsn := 0;
  ps_remote_consistent_lsn := 0;
  ps_partial_backup := [];
  ps_eviction_state := Present;
  ps_creation_ts := 1700000000123456789;
|}.

Definition test_control_file : bytes :=
  match @write_to_buf test_control_format test_control_state with Ok buf => buf | _ => [] end.

Lemma control_file_roundtrip_witness :
  @write_to_buf test_control_format test_control_state = Ok test_control_file
  ∧ @parse_control_file test_control_format test_control_file = Ok test_control_state.
Proof.
  assert (Hw : @write_to_buf test_control_format test_control_state = Ok test_control_file)
    by (vm_compute; reflexivity).
  split; [exact Hw|].
  exact (@control_file_roundtrip _ test_control_laws test_control_state test_control_file Hw).
Defined.

(** The states of the formats 5 and 6 are read with the current definition of the
    struct, which has a configuration behind the ids.  A state laid out as in the
    formats 4 and 7, without one, cannot be read as either. *)
Definition test_state_v7 : SafeKeeperStateV7 := {|
  v7_tenant_id := test_tenant_id;
  v7_timeline_id := test_timeline_id;
  v7_acceptor_state := v4_acceptor_state test_state_v4;
  v7_server := v4_server test_state_v4;
  v7_proposer_uuid := v4_proposer_uuid test_state_v4;
  v7_timeline_start_lsn := 8;
  v7_local_start_lsn := 8;
  v7_commit_lsn := v4_commit_lsn test_state_v4;
  v7_backup_lsn := 8;
  v7_peer_horizon_lsn := 8;
  v7_remote_consistent_lsn := 8;
  v7_peers := v4_peers test_state_v4;
|}.

Example format_6_unreadable :
  ∃ buf, enc c_v7 test_state_v7 = Some buf
    ∧ @upgrade_control_file test_control_format buf 7 = Ok (upgrade_v7 test_state_v7)
    ∧ @upgrade_control_file test_control_format buf 6 = Err "deserialize error"%string
    ∧ @upgrade_control_file test_control_format buf 5 = Err "deserialize error"%string.
Proof. eexists. split; [vm_compute; reflexivity|]. split_and!; vm_compute; reflexivity. Qed.

(** The state above, written in format 1 with its checksum: the file is read; with
    another magic number, version or checksum it is not; an empty one panics. *)
Definition test_bytes_v1 : bytes := default [] (enc c_v1 test_state_v1).

Definition test_file (magic version sum : Z) : bytes :=
  let data := le_bytes 4 magic ++ le_bytes 4 version ++ test_bytes_v1 in
  data ++ le_bytes CHECKSUM_SIZE (Z.lxor sum (@crc32c (@cf_crc32c test_control_format) data)).

Lemma parse_control_file_exact_witness :
  @parse_control_file test_control_format (test_file SK_MAGIC 1 0) = Ok (upgrade_v1 test_state_v1)
  ∧ @parse_control_file test_control_format [] = Panic
  ∧ @parse_control_file test_control_format (test_file 1 1 0) = Err "bad control file magic"%string
  ∧ @parse_control_file test_control_format (test_file SK_MAGIC 11 0)
      = Err "unsupported safekeeper control file version"%string
  ∧ @parse_control_file test_control_format (test_file SK_MAGIC 1 1)
      = Err "safekeeper control file checksum mismatch"%string.
Proof.
  split_and!; [|apply (@parse_control_file_exact _ test_control_laws []), Nat.ltb_lt; reflexivity
               |vm_compute; reflexivity..].
  apply (@parse_control_file_exact _ test_control_laws).
  exists 1, test_bytes_v1. split; [|vm_compute; reflexivity].
  left. split; [reflexivity|]. exists test_state_v1. split; [vm_compute; reflexivity|reflexivity].
Defined.
Lemma upgrade_control_file_keeps_witness :
  ∃ st, @upgrade_control_file test_control_format test_bytes_v1 1 = Ok st
    ∧ ps_term st = 42 ∧ ps_commit_lsn st = 1234567800.
Proof.
  pose proof (@upgrade_control_file_keeps _ test_control_laws test_bytes_v1) as [H1 _].
  destruct (H1 test_state_v1) as (st & Hst & Hacc & Hc & _); [vm_compute; reflexivity|].
  exists st. split; [exact Hst|]. unfold ps_term. rewrite Hacc, Hc. split; reflexivity.
Defined.
