(* ===== verification/Messages.v ===== *)
(** * Messages between proposers and safekeepers

    [safekeeper/src/safekeeper.rs]: the messages a walproposer sends
    ([ProposerAcceptorMessage]) and the replies of a safekeeper
    ([AcceptorProposerMessage]), with the feedback records they carry
    ([libs/safekeeper_api/src/models.rs], [libs/utils/src/pageserver_feedback.rs]).
    A [SystemTime] is the number of microseconds since the Postgres epoch. *)

From S2P Require Import Prelude Bytes Lsn Membership TermHistory TimelineState.

(** [type Generation = SafekeeperGeneration]. *)
Abbreviation Generation := SafekeeperGeneration.

(** ** Proposer to acceptor *)

Record ProposerGreeting := {
  pg_tenant_id : Id16;
  pg_timeline_id : Id16;
  pg_mconf : Configuration;
  pg_pg_version : Z;
  pg_system_id : Z;
  pg_wal_seg_size : Z;
}.

Record VoteRequest := {
  vr_generation : Generation;
  vr_term : Term;
}.

Record ProposerElected := {
  pe_generation : Generation;
  pe_term : Term;
  pe_start_streaming_at : Lsn;
  pe_term_history : TermHistory;
}.

Record AppendRequestHeader := {
  ah_generation : Generation;
  ah_term : Term;
  ah_begin_lsn : Lsn;
  ah_end_lsn : Lsn;
  ah_commit_lsn : Lsn;
  ah_truncate_lsn : Lsn;
}.

Record AppendRequest := {
  ar_h : AppendRequestHeader;
  ar_wal_data : bytes;
}.

Inductive ProposerAcceptorMessage :=
| PGreeting (msg : ProposerGreeting)
| PVoteRequest (msg : VoteRequest)
| PElected (msg : ProposerElected)
| PAppendRequest (msg : AppendRequest)
| PNoFlushAppendRequest (msg : AppendRequest)
| PFlushWAL.

(** ** Acceptor to proposer *)

Record AcceptorGreeting := {
  ag_node_id : NodeId;
  ag_mconf : Configuration;
  ag_term : Term;
}.

Record VoteResponse := mkVoteResponse {
  vp_generation : Generation;
  vp_term : Term;
  vp_vote_given : bool;
  vp_flush_lsn : Lsn;
  vp_truncate_lsn : Lsn;
  vp_term_history : TermHistory;
}.
#[export] Instance VoteResponse_settable : Settable VoteResponse := λ r,
  mkVoteResponse (vp_generation r) (vp_term r) (vp_vote_given r) (vp_flush_lsn r)
    (vp_truncate_lsn r) (vp_term_history r).

Record HotStandbyFeedback := {
  hs_ts : Z;
  hs_xmin : Z;
  hs_catalog_xmin : Z;
}.

Definition HotStandbyFeedback_empty : HotStandbyFeedback :=
  {| hs_ts := 0; hs_xmin := 0; hs_catalog_xmin := 0 |}.

Record PageserverFeedback := mkPageserverFeedback {
  pf_current_timeline_size : Z;
  pf_last_received_lsn : Lsn;
  pf_disk_consistent_lsn : Lsn;
  pf_remote_consistent_lsn : Lsn;
  pf_replytime : Z;
  pf_shard_number : Z;
}.
#[export] Instance PageserverFeedback_settable : Settable PageserverFeedback := λ r,
  mkPageserverFeedback (pf_current_timeline_size r) (pf_last_received_lsn r)
    (pf_disk_consistent_lsn r) (pf_remote_consistent_lsn r) (pf_replytime r)
    (pf_shard_number r).

Definition PageserverFeedback_empty : PageserverFeedback := {|
  pf_current_timeline_size := 0;
  pf_last_received_lsn := Lsn_INVALID;
  pf_remote_consistent_lsn := Lsn_INVALID;
  pf_disk_consistent_lsn := Lsn_INVALID;
  pf_replytime := 0;
  pf_shard_number := 0;
|}.

Record AppendResponse := {
  ap_generation : Generation;
  ap_term : Term;
  ap_flush_lsn : Lsn;
  ap_commit_lsn : Lsn;
  ap_hs_feedback : HotStandbyFeedback;
  ap_pageserver_feedback : option PageserverFeedback;
}.

Definition AppendResponse_term_only (generation : Generation) (term : Term) :
    AppendResponse := {|
  ap_generation := generation;
  ap_term := term;
  ap_flush_lsn := 0;
  ap_commit_lsn := 0;
  ap_hs_feedback := HotStandbyFeedback_empty;
  ap_pageserver_feedback := None;
|}.

Inductive AcceptorProposerMessage :=
| AGreeting (msg : AcceptorGreeting)
| AVoteResponse (msg : VoteResponse)
| AAppendResponse (msg : AppendResponse).

#[export] Instance ProposerAcceptorMessage_eq_dec : EqDecision ProposerAcceptorMessage.
Proof.
  assert (EqDecision ProposerGreeting) by solve_decision.
  assert (EqDecision VoteRequest) by solve_decision.
  assert (EqDecision ProposerElected) by solve_decision.
  assert (EqDecision AppendRequestHeader) by solve_decision.
  assert (EqDecision AppendRequest) by solve_decision.
  solve_decision.
Defined.

(** ** Peers

    The part of the broker's [SafekeeperTimelineInfo]
    ([storage_broker/proto/broker.proto]) the safekeeper looks at. *)
Record SafekeeperTimelineInfo := {
  sti_safekeeper_id : Z;
  sti_term : Term;
  sti_last_log_term : Term;
  sti_flush_lsn : Lsn;
  sti_commit_lsn : Lsn;
  sti_backup_lsn : Lsn;
  sti_remote_consistent_lsn : Lsn;
  sti_peer_horizon_lsn : Lsn;
  sti_local_start_lsn : Lsn;
  sti_standby_horizon : Lsn;
}.
