(* ===== verification/WalDecoder.v ===== *)
(** * Decoding a WAL stream

    [libs/postgres_ffi/src/waldecoder_handler.rs] and the module [waldecoder] of
    [libs/postgres_ffi/src/lib.rs]: a state machine that cuts a stream of WAL
    into records, checking and skipping the page headers in between.

    The structs of Postgres ([XLogPageHeaderData], [XLogRecord], ...), their
    sizes, their serialization and the page magic are generated from the headers
    of each Postgres version, and the checksum is the [crc32c] crate: they are
    the class [PgFormat].  A [Bytes] or [BytesMut] is its contents. *)

From S2P Require Import Prelude Bytes Text Lsn TimelineState.

Record XLogPageHeaderData := {
  xlp_magic : Z;
  xlp_info : Z;
  xlp_tli : Z;
  xlp_pageaddr : Z;
  xlp_rem_len : Z;
}.

Record XLogLongPageHeaderData := {
  lphd_std : XLogPageHeaderData;
  xlp_sysid : Z;
  xlp_seg_size : Z;
  xlp_xlog_blcksz : Z;
}.

Record XLogRecord := {
  xl_tot_len : Z;
  xl_xid : Z;
  xl_prev : Z;
  xl_info : Z;
  xl_rmid : Z;
  xl_crc : Z;
}.

Class PgFormat := {
  XLOG_PAGE_MAGIC : Z;
  XLOG_SIZE_OF_XLOG_SHORT_PHD : nat;
  XLOG_SIZE_OF_XLOG_LONG_PHD : nat;
  XLOG_SIZE_OF_XLOG_RECORD : nat;
  phd_encode : XLogPageHeaderData → bytes;
  phd_decode : bytes → option XLogPageHeaderData;
  lphd_encode : XLogLongPageHeaderData → bytes;
  lphd_decode : bytes → option XLogLongPageHeaderData;
  xlr_encode : XLogRecord → bytes;
  xlr_decode : bytes → option XLogRecord;
  crc32c_append : Z → bytes → Z;
}.

(** [xlog_utils.rs], [pg_constants.rs] *)
Definition XLP_BKP_REMOVABLE : Z := 4.
Definition XLP_FIRST_IS_CONTRECORD : Z := 1.
Definition XLP_LONG_HEADER : Z := 2.
Definition XLOG_RECORD_CRC_OFFS : nat := 4 + 4 + 8 + 1 + 1 + 2.
Definition XLOG_SWITCH : Z := 64.
Definition RM_XLOG_ID : Z := 0.

Definition is_xlog_switch_record (r : XLogRecord) : bool :=
  (xl_info r =? XLOG_SWITCH) && (xl_rmid r =? RM_XLOG_ID).

Inductive State :=
| WaitingForRecord
| ReassemblingRecord (recordbuf : bytes) (contlen : Z)
| SkippingEverything (skip_until_lsn : Lsn).

Record WalStreamDecoder := mkWalStreamDecoder {
  wd_lsn : Lsn;
  wd_pg_version : Z;
  wd_inputbuf : bytes;
  wd_state : State;
}.
#[export] Instance WalStreamDecoder_settable : Settable WalStreamDecoder := λ d,
  mkWalStreamDecoder (wd_lsn d) (wd_pg_version d) (wd_inputbuf d) (wd_state d).

Record WalDecodeError := { wde_msg : string; wde_lsn : Lsn }.

Definition WalStreamDecoder_new (lsn : Lsn) (pg_version : Z) : WalStreamDecoder :=
  mkWalStreamDecoder lsn pg_version [] WaitingForRecord.

Definition wd_remaining (self : WalStreamDecoder) : Z := Z.of_nat (length (wd_inputbuf self)).

Definition WalStreamDecoder_available {E} (self : WalStreamDecoder) : outcome E Lsn :=
  Lsn_add (wd_lsn self) (wd_remaining self).

Definition feed_bytes (self : WalStreamDecoder) (buf : bytes) : WalStreamDecoder :=
  self <| wd_inputbuf := wd_inputbuf self ++ buf |>.

Section decoder.
Context `{PgFormat}.
Abbreviation M := (ST WalStreamDecoder WalDecodeError).

Definition decode_error {A} (self : WalStreamDecoder) (msg : string) : outcome WalDecodeError A :=
  Err {| wde_msg := msg; wde_lsn := wd_lsn self |}.

Definition validate_page_header (self : WalStreamDecoder) (hdr : XLogPageHeaderData) :
    outcome WalDecodeError unit :=
  if negb (xlp_magic hdr =? wrap 16 XLOG_PAGE_MAGIC) then
    decode_error self "invalid xlog page header: xlp_magic"
  else if negb (xlp_pageaddr hdr =? wd_lsn self) then
    decode_error self "invalid xlog page header: xlp_pageaddr"
  else
    match wd_state self with
    | WaitingForRecord =>
      if negb (Z.land (xlp_info hdr) XLP_FIRST_IS_CONTRECORD =? 0) then
        decode_error self "invalid xlog page header: unexpected XLP_FIRST_IS_CONTRECORD"
      else if negb (xlp_rem_len hdr =? 0) then
        decode_error self "invalid xlog page header: xlp_rem_len, but it's not a contrecord"
      else Ok tt
    | ReassemblingRecord _ contlen =>
      if Z.land (xlp_info hdr) XLP_FIRST_IS_CONTRECORD =? 0 then
        decode_error self "invalid xlog page header: XLP_FIRST_IS_CONTRECORD expected, not found"
      else if negb (xlp_rem_len hdr =? contlen) then
        decode_error self "invalid xlog page header: xlp_rem_len"
      else Ok tt
    | SkippingEverything _ => Panic
    end.

(** The first [n] bytes of the input, which are there. *)
Definition take_input (n : nat) : M bytes := λ self,
  if (n <=? length (wd_inputbuf self))%nat
  then (Ok (take n (wd_inputbuf self)),
        self <| wd_inputbuf := drop n (wd_inputbuf self) |>)
  else (Panic, self).

(** [self.lsn += n] *)
Definition advance_lsn (n : Z) : M unit :=
  self ← st_get;
  lsn ← st_lift (Lsn_add (wd_lsn self) n);
  st_put (self <| wd_lsn := lsn |>).

Definition set_state (s : State) : M unit := st_modify (λ self, self <| wd_state := s |>).

(** A page header of [size] bytes: [false] when it is not there yet. *)
Definition read_page_header (size : nat) (decode : bytes → option XLogPageHeaderData)
    (msg : string) : M bool :=
  self ← st_get;
  if wd_remaining self <? Z.of_nat size then mret false
  else
    buf ← take_input size;
    self ← st_get;
    hdr ← st_lift (match decode buf with
                   | Some hdr => Ok hdr
                   | None => decode_error self msg
                   end);
    _ ← st_lift (validate_page_header self hdr);
    _ ← advance_lsn (Z.of_nat size);
    mret true.

(** The first half of the loop body: parse and verify page boundaries. *)
Definition poll_page_header : M bool :=
  self ← st_get;
  match wd_state self with
  | SkippingEverything _ => mret true
  | _ =>
    if Lsn_segment_offset (wd_lsn self) WAL_SEGMENT_SIZE =? 0 then
      read_page_header XLOG_SIZE_OF_XLOG_LONG_PHD (λ b, lphd_std <$> lphd_decode b)
        "long header deserialization failed"
    else if Lsn_block_offset (wd_lsn self) =? 0 then
      read_page_header XLOG_SIZE_OF_XLOG_SHORT_PHD phd_decode "header deserialization failed"
    else mret true
  end.

Definition complete_record (recordbuf : bytes) : M (Lsn * bytes) :=
  self ← st_get;
  _ ← st_assert (XLOG_SIZE_OF_XLOG_RECORD <=? length recordbuf)%nat;
  xlogrec ← st_lift (match xlr_decode (take XLOG_SIZE_OF_XLOG_RECORD recordbuf) with
                     | Some r => Ok r
                     | None => decode_error self "xlog record deserialization failed"
                     end);
  let crc := crc32c_append 0 (drop (XLOG_RECORD_CRC_OFFS + 4) recordbuf) in
  let crc := crc32c_append crc (take XLOG_RECORD_CRC_OFFS recordbuf) in
  _ ← (if negb (crc =? xl_crc xlogrec) then st_lift (decode_error self "WAL record crc mismatch")
       else mret tt);
  next_lsn ← st_lift (
    if is_xlog_switch_record xlogrec
    then Lsn_add (wd_lsn self) (Lsn_calc_padding (wd_lsn self) WAL_SEGMENT_SIZE)
    else Ok (Lsn_align (wd_lsn self)));
  _ ← set_state (SkippingEverything next_lsn);
  mret (next_lsn, recordbuf).

(** The record that is due on this page, when the state is [ReassemblingRecord]. *)
Definition poll_reassemble (recordbuf : bytes) (contlen : Z) :
    M (option (option (Lsn * bytes))) :=
  self ← st_get;
  let pageleft := Lsn_remaining_in_block (wd_lsn self) in
  let n := Z.min contlen pageleft in
  if wd_remaining self <? n then mret (Some None)
  else
    chunk ← take_input (Z.to_nat n);
    _ ← advance_lsn n;
    let recordbuf := recordbuf ++ chunk in
    if contlen - n =? 0 then
      _ ← set_state (ReassemblingRecord [] contlen);
      r ← complete_record recordbuf;
      mret (Some (Some r))
    else
      _ ← set_state (ReassemblingRecord recordbuf (contlen - n));
      mret None.

Definition poll_skip (skip_until_lsn : Lsn) : M (option (option (Lsn * bytes))) :=
  self ← st_get;
  _ ← st_assert (wd_lsn self <=? skip_until_lsn);
  let n := skip_until_lsn - wd_lsn self in
  if wd_remaining self <? n then mret (Some None)
  else
    _ ← take_input (Z.to_nat n);
    _ ← advance_lsn n;
    _ ← set_state WaitingForRecord;
    mret None.

(** [fast]: whether the whole record is taken at once when it is all on the
    page and in the input; the source always does. *)
Definition poll_waiting (fast : bool) : M (option (option (Lsn * bytes))) :=
  self ← st_get;
  if wd_remaining self <? 4 then mret (Some None)
  else
    let xl_tot_len := le_value (take 4 (wd_inputbuf self)) in
    if xl_tot_len <? Z.of_nat XLOG_SIZE_OF_XLOG_RECORD then
      st_lift (decode_error self "invalid xl_tot_len")
    else
      let pageleft := Lsn_remaining_in_block (wd_lsn self) in
      if fast && (xl_tot_len <=? wd_remaining self) && (xl_tot_len <=? pageleft) then
        _ ← advance_lsn xl_tot_len;
        recordbuf ← take_input (Z.to_nat xl_tot_len);
        r ← complete_record recordbuf;
        mret (Some (Some r))
      else
        _ ← set_state (ReassemblingRecord [] xl_tot_len);
        mret None.

(** One turn of the loop: [None] to go on, [Some] of the result otherwise. *)
Definition poll_step (fast : bool) : M (option (option (Lsn * bytes))) :=
  enough ← poll_page_header;
  if negb enough then mret (Some None)
  else
    self ← st_get;
    match wd_state self with
    | WaitingForRecord => poll_waiting fast
    | ReassemblingRecord recordbuf contlen => poll_reassemble recordbuf contlen
    | SkippingEverything skip_until_lsn => poll_skip skip_until_lsn
    end.

(** The loop, with what it leaves behind; [None]: out of fuel. *)
Fixpoint poll_decode_internal (fuel : nat) (self : WalStreamDecoder) :
    option (outcome WalDecodeError (option (Lsn * bytes)) * WalStreamDecoder) :=
  match fuel with
  | O => None
  | S fuel' =>
    match poll_step true self with
    | (Ok None, self') => poll_decode_internal fuel' self'
    | (Ok (Some r), self') => Some (Ok r, self')
    | (Err e, self') => Some (Err e, self')
    | (Panic, self') => Some (Panic, self')
    end
  end.

(** A bound on the turns: every turn consumes input, or goes on to a later
    state. *)
Definition state_rank (s : State) : nat :=
  match s with WaitingForRecord => 1 | ReassemblingRecord _ _ => 0 | SkippingEverything _ => 2 end.

Definition poll_measure (self : WalStreamDecoder) : nat :=
  3 * length (wd_inputbuf self) + state_rank (wd_state self).

(** [poll_decode]: the decoder of the version, if it is supported. *)
Definition poll_decode (self : WalStreamDecoder) :
    option (outcome WalDecodeError (option (Lsn * bytes)) * WalStreamDecoder) :=
  if (14 <=? wd_pg_version self) && (wd_pg_version self <=? 17)
  then poll_decode_internal (S (poll_measure self)) self
  else Some (decode_error self "Unknown version", self).
End decoder.
