(* ===== verification/WalDecoderProps.v ===== *)
(** * The WAL decoder: what it returns does not depend on how it is fed

    The loop of the decoder ends; the fast path for a record that is all there
    computes what the reassembly computes; and cutting the stream into other
    pieces changes neither the records nor the errors. *)

From S2P Require Import Prelude Bytes Text Lsn TimelineState WalDecoder.

(** What the code relies on about the generated structs: page headers are
    not empty and smaller than a page. *)
Class PgSizes `{PgFormat} := {
  short_phd_size : (0 < XLOG_SIZE_OF_XLOG_SHORT_PHD)%nat
                   ∧ Z.of_nat XLOG_SIZE_OF_XLOG_SHORT_PHD < XLOG_BLCKSZ;
  long_phd_size : (0 < XLOG_SIZE_OF_XLOG_LONG_PHD)%nat
                  ∧ Z.of_nat XLOG_SIZE_OF_XLOG_LONG_PHD < XLOG_BLCKSZ;
  xlr_size : XLOG_SIZE_OF_XLOG_RECORD = (XLOG_RECORD_CRC_OFFS + 4)%nat;
}.

(** How a decoder that is polled as long as it gives records ends. *)
Inductive status :=
| More (self : WalStreamDecoder)
| Failed (e : WalDecodeError)
| Crashed
| Running.

Section props.
Context `{PgSizes}.
Implicit Types d self : WalStreamDecoder.

(** Polling until the decoder wants more or fails. *)
Fixpoint run (fast : bool) (fuel : nat) d : list (Lsn * bytes) * status :=
  match fuel with
  | O => ([], Running)
  | S fuel' =>
    match poll_step fast d with
    | (Ok None, d') => run fast fuel' d'
    | (Ok (Some (Some r)), d') => let '(rs, st) := run fast fuel' d' in (r :: rs, st)
    | (Ok (Some None), d') => ([], More d')
    | (Err e, _) => ([], Failed e)
    | (Panic, _) => ([], Crashed)
    end
  end.

(** ** Pages *)

Lemma segment_start_is_page lsn :
  Lsn_segment_offset lsn WAL_SEGMENT_SIZE = 0 → Lsn_block_offset lsn = 0.
Proof.
  unfold Lsn_segment_offset, Lsn_block_offset, WAL_SEGMENT_SIZE, XLOG_BLCKSZ. intros Hs.
  apply Z.mod_divide in Hs as [k ->]; [|done]. apply Z.mod_divide; [done|]. exists (k * 2048). lia.
Qed.

Lemma after_header lsn n :
  Lsn_block_offset lsn = 0 → 0 < n < XLOG_BLCKSZ → Lsn_block_offset (lsn + n) ≠ 0.
Proof.
  unfold Lsn_block_offset. intros Hl Hn. rewrite Z.add_mod by done. rewrite Hl, Z.add_0_l, Zmod_mod.
  rewrite Z.mod_small; lia.
Qed.

(** The header of the page is behind. *)
Definition in_page d : Prop :=
  match wd_state d with
  | SkippingEverything _ => True
  | _ => Lsn_block_offset (wd_lsn d) ≠ 0
  end.

Lemma in_page_header d : in_page d → poll_page_header d = (Ok true, d).
Proof.
  unfold in_page, poll_page_header, mbind, ST_bind, st_get, mret, ST_ret. intros Hd.
  assert (Hno : Lsn_block_offset (wd_lsn d) ≠ 0 →
    (Lsn_segment_offset (wd_lsn d) WAL_SEGMENT_SIZE =? 0) = false
    ∧ (Lsn_block_offset (wd_lsn d) =? 0) = false).
  { intros Hn. split; apply Z.eqb_neq; [|done]. by intros ?%segment_start_is_page. }
  destruct (wd_state d); [|..|done]; destruct (Hno Hd) as [-> ->]; done.
Qed.

Lemma advance_lsn_run n d :
  advance_lsn n d = if wd_lsn d + n <? 2 ^ 64 then (Ok tt, d <| wd_lsn := wd_lsn d + n |>)
                    else (Panic, d).
Proof.
  unfold advance_lsn, mbind, ST_bind, st_get, st_lift, Lsn_add, checked_add, unwrap, st_put.
  by destruct (_ <? _).
Qed.

Lemma take_input_run n d :
  take_input n d = if (n <=? length (wd_inputbuf d))%nat
    then (Ok (take n (wd_inputbuf d)), d <| wd_inputbuf := drop n (wd_inputbuf d) |>)
    else (Panic, d).
Proof. done. Qed.

Lemma take_input_feed n d b :
  (n ≤ length (wd_inputbuf d))%nat →
  take_input n (feed_bytes d b)
  = (Ok (take n (wd_inputbuf d)),
     feed_bytes (d <| wd_inputbuf := drop n (wd_inputbuf d) |>) b).
Proof.
  intros Hn. rewrite take_input_run. unfold feed_bytes. simpl.
  rewrite length_app, (proj2 (Nat.leb_le _ _)) by lia.
  rewrite take_app_le, drop_app_le by done. done.
Qed.

Lemma remaining_feed d b : wd_remaining (feed_bytes d b) = wd_remaining d + Z.of_nat (length b).
Proof. unfold wd_remaining, feed_bytes. simpl. rewrite length_app. lia. Qed.

(** ** Page headers *)

Lemma read_page_header_run size decode msg d :
  read_page_header size decode msg d
  = if (length (wd_inputbuf d) <? size)%nat then (Ok false, d)
    else
      let d1 := d <| wd_inputbuf := drop size (wd_inputbuf d) |> in
      match decode (take size (wd_inputbuf d)) with
      | None => (decode_error d msg, d1)
      | Some hdr =>
        match validate_page_header d hdr with
        | Ok _ => if wd_lsn d + Z.of_nat size <? 2 ^ 64
                  then (Ok true, d1 <| wd_lsn := wd_lsn d + Z.of_nat size |>) else (Panic, d1)
        | Err e => (Err e, d1)
        | Panic => (Panic, d1)
        end
      end.
Proof.
  unfold read_page_header, mbind, ST_bind, st_get, st_lift, wd_remaining.
  destruct (Nat.ltb_spec (length (wd_inputbuf d)) size) as [Hlt|Hge].
  { by rewrite (proj2 (Z.ltb_lt _ _)) by lia. }
  rewrite (proj2 (Z.ltb_ge _ _)), take_input_run, (proj2 (Nat.leb_le _ _)) by lia. cbv zeta.
  set (d1 := d <| wd_inputbuf := drop size (wd_inputbuf d) |>).
  change (decode_error d1 msg) with (decode_error (A := XLogPageHeaderData) d msg).
  change (wd_lsn d) with (wd_lsn d1).
  destruct (decode (take size (wd_inputbuf d))) as [hdr|]; [|done].
  change (validate_page_header d hdr) with (validate_page_header d1 hdr).
  destruct (validate_page_header d1 hdr); [|done..]. rewrite advance_lsn_run. by destruct (_ <? _).
Qed.

Lemma read_page_header_feed size decode msg d b :
  match read_page_header size decode msg d with
  | (Ok false, _) => True
  | (Panic, _) => (read_page_header size decode msg (feed_bytes d b)).1 = Panic
  | (r, d') => read_page_header size decode msg (feed_bytes d b) = (r, feed_bytes d' b)
  end.
Proof.
  rewrite !read_page_header_run. cbv zeta.
  destruct (Nat.ltb_spec (length (wd_inputbuf d)) size) as [|Hge]; [done|].
  unfold feed_bytes at 1 2 3. simpl. rewrite length_app, (proj2 (Nat.ltb_ge _ _)) by lia.
  rewrite take_app_le, drop_app_le by lia.
  change (validate_page_header (feed_bytes d b)) with (validate_page_header d).
  destruct (decode _) as [hdr|]; [|done].
  destruct (validate_page_header d hdr); [|done..]. change (wd_lsn (feed_bytes d b)) with (wd_lsn d).
  by destruct (_ <? _).
Qed.

Lemma read_page_header_true size decode msg d d' :
  read_page_header size decode msg d = (Ok true, d') →
  (size ≤ length (wd_inputbuf d))%nat
  ∧ d' = d <| wd_inputbuf := drop size (wd_inputbuf d) |>
           <| wd_lsn := wd_lsn d + Z.of_nat size |>.
Proof.
  rewrite read_page_header_run. cbv zeta.
  destruct (Nat.ltb_spec (length (wd_inputbuf d)) size) as [|Hge]; [done|].
  destruct (decode _) as [hdr|]; [|done].
  destruct (validate_page_header d hdr); [|done..]. destruct (_ <? _); [|done]. by intros [= <-].
Qed.

Lemma read_page_header_false size decode msg d d' :
  read_page_header size decode msg d = (Ok false, d') → d' = d.
Proof.
  rewrite read_page_header_run. cbv zeta. repeat case_match; naive_solver.
Qed.

(** The page header to be read at the position of the decoder. *)
Definition due_header d : option (nat * (bytes → option XLogPageHeaderData) * string) :=
  match wd_state d with
  | SkippingEverything _ => None
  | _ =>
    if Lsn_segment_offset (wd_lsn d) WAL_SEGMENT_SIZE =? 0 then
      Some (XLOG_SIZE_OF_XLOG_LONG_PHD, λ b, lphd_std <$> lphd_decode b,
            "long header deserialization failed"%string)
    else if Lsn_block_offset (wd_lsn d) =? 0 then
      Some (XLOG_SIZE_OF_XLOG_SHORT_PHD, phd_decode, "header deserialization failed"%string)
    else None
  end.

Lemma poll_page_header_due d :
  poll_page_header d
  = match due_header d with
    | Some (size, decode, msg) => read_page_header size decode msg d
    | None => (Ok true, d)
    end.
Proof.
  unfold poll_page_header, due_header, mbind, ST_bind, st_get. by repeat case_match.
Qed.

Lemma due_header_None d : due_header d = None ↔ in_page d.
Proof.
  unfold due_header, in_page. pose proof (segment_start_is_page (wd_lsn d)).
  destruct (wd_state d); [..|done];
    destruct (Z.eqb_spec (Lsn_segment_offset (wd_lsn d) WAL_SEGMENT_SIZE) 0);
    destruct (Z.eqb_spec (Lsn_block_offset (wd_lsn d)) 0); naive_solver.
Qed.

Lemma due_header_Some d size decode msg :
  due_header d = Some (size, decode, msg) →
  (0 < size)%nat ∧ Z.of_nat size < XLOG_BLCKSZ ∧ Lsn_block_offset (wd_lsn d) = 0
  ∧ ∀ l, wd_state d ≠ SkippingEverything l.
Proof.
  destruct short_phd_size, long_phd_size. unfold due_header.
  pose proof (segment_start_is_page (wd_lsn d)).
  destruct (wd_state d); [..|done];
    destruct (Z.eqb_spec (Lsn_segment_offset (wd_lsn d) WAL_SEGMENT_SIZE) 0);
    destruct (Z.eqb_spec (Lsn_block_offset (wd_lsn d)) 0); naive_solver.
Qed.

Lemma feed_nil d : feed_bytes d [] = d.
Proof. destruct d. unfold feed_bytes. simpl. by rewrite app_nil_r. Qed.

Lemma poll_page_header_feed d b :
  match poll_page_header d with
  | (Ok true, d') => poll_page_header (feed_bytes d b) = (Ok true, feed_bytes d' b)
                     ∧ in_page d' ∧ wd_state d' = wd_state d
                     ∧ (length (wd_inputbuf d') ≤ length (wd_inputbuf d))%nat
  | (Ok false, d') => d' = d
  | (Panic, _) => (poll_page_header (feed_bytes d b)).1 = Panic
  | (r, d') => poll_page_header (feed_bytes d b) = (r, feed_bytes d' b)
  end.
Proof.
  rewrite !poll_page_header_due. change (due_header (feed_bytes d b)) with (due_header d).
  destruct (due_header d) as [[[size decode] msg]|] eqn:Hd.
  - apply due_header_Some in Hd as (Hsz & Hblk & Hb & Hst).
    pose proof (read_page_header_feed size decode msg d b) as Hf.
    destruct (read_page_header size decode msg d) as [[[]|e|] d'] eqn:Hr; try done.
    + apply read_page_header_true in Hr as [Hlen ->]. split; [done|]. simpl. split_and!; [|done|].
      * unfold in_page. simpl. destruct (wd_state d) eqn:Hs; [| |by destruct (Hst skip_until_lsn)];
          apply after_header; (done || lia).
      * rewrite length_drop. lia.
    + by eapply read_page_header_false.
  - apply due_header_None in Hd. done.
Qed.

(** ** Records *)

(** The position after a complete record that ends at [lsn]. *)
Definition completed (lsn : Lsn) (recordbuf : bytes) : outcome WalDecodeError Lsn :=
  if (XLOG_SIZE_OF_XLOG_RECORD <=? length recordbuf)%nat then
    match xlr_decode (take XLOG_SIZE_OF_XLOG_RECORD recordbuf) with
    | Some r =>
      if negb (crc32c_append (crc32c_append 0 (drop (XLOG_RECORD_CRC_OFFS + 4) recordbuf))
                 (take XLOG_RECORD_CRC_OFFS recordbuf) =? xl_crc r)
      then Err {| wde_msg := "WAL record crc mismatch"; wde_lsn := lsn |}
      else if is_xlog_switch_record r then Lsn_add lsn (Lsn_calc_padding lsn WAL_SEGMENT_SIZE)
      else Ok (Lsn_align lsn)
    | None => Err {| wde_msg := "xlog record deserialization failed"; wde_lsn := lsn |}
    end
  else Panic.

Definition at_end d (recordbuf : bytes) :
    outcome WalDecodeError (option (option (Lsn * bytes))) * WalStreamDecoder :=
  match completed (wd_lsn d) recordbuf with
  | Ok next => (Ok (Some (Some (next, recordbuf))), d <| wd_state := SkippingEverything next |>)
  | Err e => (Err e, d)
  | Panic => (Panic, d)
  end.

Lemma complete_record_run d recordbuf :
  (r ← complete_record recordbuf; mret (Some (Some r))) d = at_end d recordbuf.
Proof.
  unfold at_end, completed, complete_record, mbind, ST_bind, st_get, st_lift, st_assert, set_state,
    st_modify, mret, ST_ret, decode_error.
  destruct (_ <=? _)%nat; [|done]. destruct (xlr_decode _) as [r|]; [|done].
  destruct (negb _); [done|]. destruct (is_xlog_switch_record r); [|done].
  by destruct (Lsn_add _ _).
Qed.

(** The decoder [n] bytes further. *)
Definition skip_input (n : nat) d : WalStreamDecoder :=
  d <| wd_inputbuf := drop n (wd_inputbuf d) |> <| wd_lsn := wd_lsn d + Z.of_nat n |>.

Lemma skip_input_run {A} n d
    (k : bytes → WalStreamDecoder → outcome WalDecodeError A * WalStreamDecoder) :
  0 ≤ n →
  (chunk ← take_input (Z.to_nat n); _ ← advance_lsn n; k chunk) d
  = if (length (wd_inputbuf d) <? Z.to_nat n)%nat then (Panic, d)
    else if wd_lsn d + n <? 2 ^ 64
    then k (take (Z.to_nat n) (wd_inputbuf d)) (skip_input (Z.to_nat n) d)
    else (Panic, d <| wd_inputbuf := drop (Z.to_nat n) (wd_inputbuf d) |>).
Proof.
  intros Hn. unfold mbind, ST_bind. rewrite take_input_run.
  destruct (Nat.leb_spec (Z.to_nat n) (length (wd_inputbuf d))) as [Hle|Hlt].
  - rewrite (proj2 (Nat.ltb_ge _ _)), advance_lsn_run by done. cbv beta iota. simpl wd_lsn.
    unfold skip_input. rewrite Z2Nat.id by done. by destruct (_ <? _).
  - by rewrite (proj2 (Nat.ltb_lt _ _)) by done.
Qed.

Lemma poll_reassemble_run recordbuf contlen d :
  0 < contlen →
  let n := Z.to_nat (Z.min contlen (Lsn_remaining_in_block (wd_lsn d))) in
  let d1 := skip_input n d in
  let recordbuf' := recordbuf ++ take n (wd_inputbuf d) in
  poll_reassemble recordbuf contlen d
  = if (length (wd_inputbuf d) <? n)%nat then (Ok (Some None), d)
    else if wd_lsn d + Z.of_nat n <? 2 ^ 64 then
      if contlen - Z.of_nat n =? 0
      then at_end (d1 <| wd_state := ReassemblingRecord [] contlen |>) recordbuf'
      else (Ok None, d1 <| wd_state := ReassemblingRecord recordbuf' (contlen - Z.of_nat n) |>)
    else (Panic, d <| wd_inputbuf := drop n (wd_inputbuf d) |>).
Proof.
  intros Hc n d1 recordbuf'. unfold poll_reassemble.
  assert (Hl : 0 < Lsn_remaining_in_block (wd_lsn d)).
  { unfold Lsn_remaining_in_block, XLOG_BLCKSZ. pose proof (Z.mod_pos_bound (wd_lsn d) 8192). lia. }
  unfold mbind at 1, ST_bind at 1, st_get at 1.
  set (m := Z.min contlen (Lsn_remaining_in_block (wd_lsn d))) in *.
  assert (Hm : 0 < m) by lia. assert (Hnm : Z.of_nat n = m) by (unfold n; lia).
  unfold wd_remaining. destruct (Nat.ltb_spec (length (wd_inputbuf d)) n) as [Hlt|Hge].
  { by rewrite (proj2 (Z.ltb_lt _ _)) by lia. }
  rewrite (proj2 (Z.ltb_ge _ _)) by lia.
  etrans; [apply skip_input_run; lia|].
  rewrite (proj2 (Nat.ltb_ge _ _)) by (fold n; lia). fold n. rewrite Hnm.
  destruct (_ <? _); [|done]. fold d1. destruct (contlen - m =? 0); [|done].
  unfold mbind at 1, ST_bind at 1, set_state, st_modify. cbv beta iota. apply complete_record_run.
Qed.

Lemma poll_skip_run until d :
  let n := Z.to_nat (until - wd_lsn d) in
  poll_skip until d
  = if until <? wd_lsn d then (Panic, d)
    else if (length (wd_inputbuf d) <? n)%nat then (Ok (Some None), d)
    else if until <? 2 ^ 64 then (Ok None, skip_input n d <| wd_state := WaitingForRecord |>)
    else (Panic, d <| wd_inputbuf := drop n (wd_inputbuf d) |>).
Proof.
  intros n. unfold poll_skip. unfold mbind at 1, ST_bind at 1, st_get at 1.
  unfold mbind at 1, ST_bind at 1, st_assert.
  destruct (Z.ltb_spec until (wd_lsn d)) as [Hlt|Hge].
  { by rewrite (proj2 (Z.leb_gt _ _)) by done. }
  rewrite (proj2 (Z.leb_le _ _)) by done. unfold mret at 1, ST_ret at 1. cbv beta iota.
  unfold wd_remaining. destruct (Nat.ltb_spec (length (wd_inputbuf d)) n) as [Hlt|Hge'].
  { by rewrite (proj2 (Z.ltb_lt _ _)) by lia. }
  rewrite (proj2 (Z.ltb_ge _ _)) by lia.
  etrans; [apply (skip_input_run _ d (λ _, _)); lia|]. fold n. rewrite (proj2 (Nat.ltb_ge _ _)) by lia.
  replace (wd_lsn d + (until - wd_lsn d)) with until by lia. by destruct (_ <? _).
Qed.

Lemma le_value_nonneg l : 0 ≤ le_value l.
Proof. unfold le_value. pose proof (be_value_bound (reverse l)). lia. Qed.

Lemma poll_waiting_run fast d :
  let tot := le_value (take 4 (wd_inputbuf d)) in
  poll_waiting fast d
  = if (length (wd_inputbuf d) <? 4)%nat then (Ok (Some None), d)
    else if tot <? Z.of_nat XLOG_SIZE_OF_XLOG_RECORD
    then (decode_error d "invalid xl_tot_len", d)
    else if fast && (tot <=? wd_remaining d) && (tot <=? Lsn_remaining_in_block (wd_lsn d)) then
      if wd_lsn d + tot <? 2 ^ 64
      then at_end (skip_input (Z.to_nat tot) d) (take (Z.to_nat tot) (wd_inputbuf d))
      else (Panic, d)
    else (Ok None, d <| wd_state := ReassemblingRecord [] tot |>).
Proof.
  intros tot. unfold poll_waiting. unfold mbind at 1, ST_bind at 1, st_get at 1.
  unfold wd_remaining. destruct (Nat.ltb_spec (length (wd_inputbuf d)) 4) as [Hlt|Hge].
  { by rewrite (proj2 (Z.ltb_lt _ _)) by lia. }
  rewrite (proj2 (Z.ltb_ge _ _)) by lia. fold tot. destruct (tot <? _); [done|].
  destruct fast; [|done]. cbn [andb].
  destruct (Z.leb_spec tot (Z.of_nat (length (wd_inputbuf d)))) as [Hle|]; [|done].
  destruct (tot <=? _); [|done]. cbn [andb].
  unfold mbind at 1, ST_bind at 1. rewrite advance_lsn_run. destruct (_ <? _); [|done].
  unfold mbind at 1, ST_bind at 1. rewrite take_input_run. simpl wd_inputbuf.
  rewrite (proj2 (Nat.leb_le _ _)) by lia. rewrite complete_record_run. unfold skip_input.
  rewrite Z2Nat.id by apply le_value_nonneg. done.
Qed.

(** ** One turn *)

Definition poll_body (fast : bool) d :
    outcome WalDecodeError (option (option (Lsn * bytes))) * WalStreamDecoder :=
  match wd_state d with
  | WaitingForRecord => poll_waiting fast d
  | ReassemblingRecord recordbuf contlen => poll_reassemble recordbuf contlen d
  | SkippingEverything until => poll_skip until d
  end.

Lemma poll_step_run fast d :
  poll_step fast d
  = match poll_page_header d with
    | (Ok true, d') => poll_body fast d'
    | (Ok false, d') => (Ok (Some None), d')
    | (Err e, d') => (Err e, d')
    | (Panic, d') => (Panic, d')
    end.
Proof.
  unfold poll_step, mbind, ST_bind, st_get, poll_body.
  destruct (poll_page_header d) as [[[]|e|] d']; [|done..]. simpl. by destruct (wd_state d').
Qed.

(** [contlen] is a [NonZeroU32]. *)
Definition decoder_wf d : Prop :=
  match wd_state d with ReassemblingRecord _ contlen => 0 < contlen | _ => True end.

Lemma at_end_feed d b recordbuf :
  at_end (feed_bytes d b) recordbuf
  = ((at_end d recordbuf).1, feed_bytes (at_end d recordbuf).2 b).
Proof. unfold at_end. change (wd_lsn (feed_bytes d b)) with (wd_lsn d). by destruct (completed _ _). Qed.

Lemma skip_input_feed n d b :
  (n ≤ length (wd_inputbuf d))%nat →
  skip_input n (feed_bytes d b) = feed_bytes (skip_input n d) b.
Proof. intros Hn. unfold skip_input, feed_bytes. simpl. by rewrite drop_app_le. Qed.

(** More input does not change what a turn of the slow path does, unless the
    turn was waiting for it. *)
Lemma poll_body_feed d b :
  decoder_wf d →
  match poll_body false d with
  | (Ok (Some None), d') => d' = d
  | (Panic, _) => (poll_body false (feed_bytes d b)).1 = Panic
  | (r, d') => poll_body false (feed_bytes d b) = (r, feed_bytes d' b)
  end.
Proof.
  intros Hwf. unfold poll_body, decoder_wf in *.
  change (wd_state (feed_bytes d b)) with (wd_state d).
  assert (Hinp : ∀ n, (n ≤ length (wd_inputbuf d))%nat →
    take n (wd_inputbuf (feed_bytes d b)) = take n (wd_inputbuf d)
    ∧ (length (wd_inputbuf (feed_bytes d b)) <? n)%nat = false).
  { intros n Hn. unfold feed_bytes. simpl. split; [by apply take_app_le|].
    apply Nat.ltb_ge. rewrite length_app. lia. }
  destruct (wd_state d) as [|recordbuf contlen|until].
  - rewrite !poll_waiting_run. destruct (Nat.ltb_spec (length (wd_inputbuf d)) 4) as [|Hge]; [done|].
    destruct (Hinp 4%nat Hge) as [-> ->]. cbn [andb].
    by destruct (_ <? Z.of_nat XLOG_SIZE_OF_XLOG_RECORD).
  - rewrite !poll_reassemble_run by done. cbv zeta.
    change (wd_lsn (feed_bytes d b)) with (wd_lsn d).
    set (n := Z.to_nat _). destruct (Nat.ltb_spec (length (wd_inputbuf d)) n) as [|Hge]; [done|].
    destruct (Hinp n Hge) as [-> ->]. rewrite skip_input_feed by done.
    destruct (wd_lsn d + Z.of_nat n <? 2 ^ 64); [|done].
    destruct (contlen - Z.of_nat n =? 0); [|done].
    set (d1 := skip_input n d <| wd_state := ReassemblingRecord [] contlen |>).
    change (feed_bytes (skip_input n d) b <| wd_state := ReassemblingRecord [] contlen |>)
      with (feed_bytes d1 b). rewrite at_end_feed.
    unfold at_end. by destruct (completed (wd_lsn d1) _).
  - rewrite !poll_skip_run. cbv zeta. change (wd_lsn (feed_bytes d b)) with (wd_lsn d).
    set (n := Z.to_nat _). destruct (until <? wd_lsn d); [done|].
    destruct (Nat.ltb_spec (length (wd_inputbuf d)) n) as [|Hge]; [done|].
    destruct (Hinp n Hge) as [_ ->]. rewrite skip_input_feed by done.
    by destruct (until <? 2 ^ 64).
Qed.

Lemma slow_step_feed d b :
  decoder_wf d →
  match poll_step false d with
  | (Ok (Some None), d') => poll_step false (feed_bytes d b) = poll_step false (feed_bytes d' b)
  | (Panic, _) => (poll_step false (feed_bytes d b)).1 = Panic
  | (r, d') => poll_step false (feed_bytes d b) = (r, feed_bytes d' b)
  end.
Proof.
  intros Hwf. rewrite !poll_step_run. pose proof (poll_page_header_feed d b) as Hh.
  destruct (poll_page_header d) as [[[]|e|] d1] eqn:Hd;
    [| |by rewrite Hh|by destruct (poll_page_header (feed_bytes d b)) as [[]]].
  - destruct Hh as (-> & Hin & Hst & _).
    assert (Hwf1 : decoder_wf d1) by (unfold decoder_wf; by rewrite Hst).
    pose proof (poll_body_feed d1 b Hwf1) as Hb.
    destruct (poll_body false d1) as [[[[r|]|]|e|] d2]; try done. subst d2.
    rewrite poll_step_run, in_page_header by done. done.
  - subst d1. by rewrite poll_step_run.
Qed.

(** ** The loop ends *)

(** A turn that goes on, or gives a record, leaves less to do. *)
Definition progress d d' : Prop := decoder_wf d' ∧ (poll_measure d' < poll_measure d)%nat.

Lemma at_end_progress d d1 recordbuf r d' :
  (3 * length (wd_inputbuf d1) + 2 < poll_measure d)%nat →
  at_end d1 recordbuf = (Ok r, d') → progress d d'.
Proof.
  unfold at_end. intros Hm. destruct (completed _ _); [|done..]. intros [= _ <-].
  split; [done|]. unfold poll_measure in *. simpl in *. lia.
Qed.

Lemma poll_body_progress fast d r d' :
  decoder_wf d → poll_body fast d = (Ok r, d') → r ≠ Some None → progress d d'.
Proof.
  intros Hwf. unfold poll_body. unfold decoder_wf in Hwf.
  pose proof xlr_size as Hsz. unfold XLOG_RECORD_CRC_OFFS in Hsz.
  destruct (wd_state d) as [|recordbuf contlen|until] eqn:Hs.
  - rewrite poll_waiting_run. cbv zeta.
    destruct (Nat.ltb_spec (length (wd_inputbuf d)) 4) as [|Hge]; [naive_solver|].
    set (tot := le_value _).
    destruct (Z.ltb_spec tot (Z.of_nat XLOG_SIZE_OF_XLOG_RECORD)) as [|Htot]; [done|].
    destruct (fast && _ && _) eqn:Hfast.
    + bool_prop. unfold wd_remaining in *. destruct (_ <? 2 ^ 64); [|done].
      intros Hend _. eapply at_end_progress; [|exact Hend]. unfold poll_measure, skip_input.
      simpl. rewrite length_drop. lia.
    + intros [= <- <-] _. split; [unfold decoder_wf; simpl; lia|].
      unfold poll_measure. rewrite Hs. simpl. lia.
  - rewrite poll_reassemble_run by done. cbv zeta. set (n := Z.to_nat _).
    assert (Hn : (0 < n)%nat).
    { unfold n, Lsn_remaining_in_block, XLOG_BLCKSZ. pose proof (Z.mod_pos_bound (wd_lsn d) 8192). lia. }
    assert (Hnc : Z.of_nat n ≤ contlen).
    { unfold n, Lsn_remaining_in_block, XLOG_BLCKSZ. pose proof (Z.mod_pos_bound (wd_lsn d) 8192). lia. }
    destruct (Nat.ltb_spec (length (wd_inputbuf d)) n) as [|Hge]; [naive_solver|].
    destruct (_ <? 2 ^ 64); [|done].
    destruct (Z.eqb_spec (contlen - Z.of_nat n) 0).
    + intros Hend _. eapply at_end_progress; [|exact Hend]. unfold poll_measure, skip_input.
      rewrite Hs. simpl. rewrite length_drop. lia.
    + intros [= <- <-] _. split; [unfold decoder_wf; simpl; lia|].
      unfold poll_measure, skip_input. rewrite Hs. simpl. rewrite length_drop. lia.
  - rewrite poll_skip_run. cbv zeta. set (n := Z.to_nat _).
    destruct (until <? wd_lsn d); [done|].
    destruct (Nat.ltb_spec (length (wd_inputbuf d)) n) as [|Hge]; [naive_solver|].
    destruct (until <? 2 ^ 64); [|done]. intros [= <- <-] _. split; [done|].
    unfold poll_measure, skip_input. rewrite Hs. simpl. rewrite length_drop. lia.
Qed.

Lemma poll_step_progress fast d r d' :
  decoder_wf d → poll_step fast d = (Ok r, d') → r ≠ Some None → progress d d'.
Proof.
  intros Hwf. rewrite poll_step_run. pose proof (poll_page_header_feed d []) as Hh.
  destruct (poll_page_header d) as [[[]|e|] d1]; [|naive_solver..].
  destruct Hh as (_ & _ & Hst & Hlen). intros Hb Hr.
  assert (Hwf1 : decoder_wf d1) by (unfold decoder_wf; by rewrite Hst).
  destruct (poll_body_progress _ _ _ _ Hwf1 Hb Hr) as [Hwf' Hm]. split; [done|].
  unfold poll_measure in *. rewrite Hst in Hm. lia.
Qed.

Lemma run_mono fast fuel fuel' d rs st :
  run fast fuel d = (rs, st) → st ≠ Running → (fuel ≤ fuel')%nat → run fast fuel' d = (rs, st).
Proof.
  revert fuel' d rs st. induction fuel as [|fuel IH]; intros [|fuel'] d rs st Hr Hst Hle;
    simpl in *; try (lia || naive_solver).
  destruct (poll_step fast d) as [[[[r|]|]|e|] d'] eqn:Hd; try done.
  - destruct (run fast fuel d') as [rs' st'] eqn:Hr'. injection Hr as <- <-.
    rewrite (IH fuel' d' rs' st') by (done || lia). done.
  - apply IH; (done || lia).
Qed.

Lemma run_total fast d :
  decoder_wf d → (run fast (S (poll_measure d)) d).2 ≠ Running.
Proof.
  intros Hwf. assert (Hgen : ∀ fuel d, decoder_wf d → (poll_measure d < fuel)%nat →
    (run fast fuel d).2 ≠ Running); [|apply Hgen; (done || lia)].
  clear d Hwf. induction fuel as [|fuel IH]; intros d Hwf Hm; [lia|]. simpl.
  destruct (poll_step fast d) as [[[[r|]|]|e|] d'] eqn:Hd; try done.
  - destruct (poll_step_progress _ _ _ _ Hwf Hd ltac:(done)) as [Hwf' Hm'].
    specialize (IH d' Hwf' ltac:(lia)). by destruct (run fast fuel d').
  - destruct (poll_step_progress _ _ _ _ Hwf Hd ltac:(done)). apply IH; (done || lia).
Qed.

(** ** The fast path *)

Lemma fast_step d :
  decoder_wf d →
  poll_step true d = poll_step false d
  ∨ ∃ d1 tot, 0 < tot ∧ (Z.to_nat tot ≤ length (wd_inputbuf d1))%nat ∧ in_page d1
    ∧ wd_state d1 = WaitingForRecord ∧ tot ≤ Lsn_remaining_in_block (wd_lsn d1)
    ∧ poll_step true d
      = (if wd_lsn d1 + tot <? 2 ^ 64
         then at_end (skip_input (Z.to_nat tot) d1) (take (Z.to_nat tot) (wd_inputbuf d1))
         else (Panic, d1))
    ∧ poll_step false d = (Ok None, d1 <| wd_state := ReassemblingRecord [] tot |>).
Proof.
  intros Hwf. rewrite !poll_step_run. pose proof (poll_page_header_feed d []) as Hh.
  destruct (poll_page_header d) as [[[]|e|] d1]; [|by left..].
  destruct Hh as (_ & Hin & Hst & _). unfold poll_body.
  destruct (wd_state d1) eqn:Hs; [|by left..]. rewrite !poll_waiting_run. cbv zeta.
  destruct (_ <? 4)%nat; [by left|]. set (tot := le_value _).
  pose proof xlr_size as Hsz. unfold XLOG_RECORD_CRC_OFFS in Hsz.
  destruct (Z.ltb_spec tot (Z.of_nat XLOG_SIZE_OF_XLOG_RECORD)); [by left|].
  destruct (true && _ && _) eqn:Hfast; [|by left]. right. bool_prop. unfold wd_remaining in *.
  exists d1, tot. split_and!; (done || lia).
Qed.

(** What the fast path does in one turn, the slow path does in two. *)
Lemma run_fast_slow fuel d :
  decoder_wf d → (run true fuel d).2 ≠ Running →
  ∃ fuel', run false fuel' d = run true fuel d.
Proof.
  revert d. induction fuel as [|fuel IH]; intros d Hwf Hst; [done|].
  destruct (fast_step d Hwf) as [Heq|(d1 & tot & Htot & Hlen & Hin & Hwait & Hpl & Ht & Hf)].
  - simpl in *. rewrite Heq in *. destruct (poll_step false d) as [[[[r|]|]|e|] d'] eqn:Hd;
      try (exists 1%nat; simpl; by rewrite Hd).
    + destruct (poll_step_progress _ _ _ _ Hwf Hd ltac:(done)) as [Hwf' _].
      destruct (run true fuel d') as [rs st] eqn:Hrun.
      destruct (IH d' Hwf') as [fuel' Hf']; [by rewrite Hrun|].
      exists (S fuel'). simpl. by rewrite Hd, Hf', Hrun.
    + destruct (poll_step_progress _ _ _ _ Hwf Hd ltac:(done)) as [Hwf' _].
      destruct (IH d' Hwf' Hst) as [fuel' Hf']. exists (S fuel'). simpl. by rewrite Hd.
  - set (d2 := d1 <| wd_state := ReassemblingRecord [] tot |>) in *.
    assert (Hin2 : in_page d2) by (unfold in_page in *; by rewrite Hwait in Hin).
    assert (H2 : poll_step false d2
      = if wd_lsn d1 + tot <? 2 ^ 64
        then at_end (skip_input (Z.to_nat tot) d1 <| wd_state := ReassemblingRecord [] tot |>)
               (take (Z.to_nat tot) (wd_inputbuf d1))
        else (Panic, d2 <| wd_inputbuf := drop (Z.to_nat tot) (wd_inputbuf d2) |>)).
    { rewrite poll_step_run, in_page_header by done. unfold poll_body. simpl wd_state. cbv iota.
      rewrite poll_reassemble_run by done. cbv zeta. change (wd_lsn d2) with (wd_lsn d1).
      rewrite Z.min_l by done. change (wd_inputbuf d2) with (wd_inputbuf d1).
      rewrite (proj2 (Nat.ltb_ge _ _)) by done. rewrite Z2Nat.id by lia.
      rewrite Z.sub_diag. done. }
    simpl in *. rewrite Ht in *. destruct (_ <? 2 ^ 64).
    + unfold at_end in H2, Hst |- *. simpl wd_lsn in *.
      destruct (completed _ _) as [next|e|];
        [|exists 2%nat; simpl; rewrite Hf; simpl; by rewrite H2..].
      simpl in Hst |- *.
      set (d3 := skip_input (Z.to_nat tot) d1 <| wd_state := SkippingEverything next |>) in *.
      destruct (run true fuel d3) as [rs st] eqn:Hrun.
      destruct (IH d3) as [fuel' Hf']; [done|by rewrite Hrun|].
      exists (S (S fuel')). simpl. rewrite Hf, H2. simpl.
      match goal with |- context [run false fuel' ?x] => change x with d3 end. by rewrite Hf', Hrun.
    + exists 2%nat. simpl. rewrite Hf. simpl. by rewrite H2.
Qed.

(** ** Feeding in pieces *)

Lemma run_feed fuel d rs st b :
  decoder_wf d → run false fuel d = (rs, st) →
  match st with
  | More d' => ∀ fuel' rs' st', run false fuel' (feed_bytes d' b) = (rs', st') → st' ≠ Running →
      run false (fuel + fuel') (feed_bytes d b) = (rs ++ rs', st')
  | Running => True
  | _ => run false fuel (feed_bytes d b) = (rs, st)
  end.
Proof.
  revert d rs. induction fuel as [|fuel IH]; intros d rs Hwf Hr; simpl in Hr; [by injection Hr as <- <-|].
  pose proof (slow_step_feed d b Hwf) as Hf.
  destruct (poll_step false d) as [[[[r|]|]|e|] d'] eqn:Hd.
  - destruct (poll_step_progress _ _ _ _ Hwf Hd ltac:(done)) as [Hwf' _].
    destruct (run false fuel d') as [rs1 st1] eqn:Hrun. injection Hr as <- <-.
    specialize (IH d' rs1 Hwf' Hrun). destruct st1; try done.
    + intros fuel' rs' st' Hr' Hst. simpl. rewrite Hf. by rewrite (IH _ _ _ Hr' Hst).
    + simpl. rewrite Hf. by rewrite IH.
    + simpl. rewrite Hf. by rewrite IH.
  - injection Hr as <- <-. intros fuel' rs' st' Hr' Hst.
    assert (Hr'' : run false (S fuel + fuel') (feed_bytes d' b) = (rs', st'))
      by (eapply run_mono; [done..|lia]). simpl in Hr'' |- *. by rewrite Hf.
  - destruct (poll_step_progress _ _ _ _ Hwf Hd ltac:(done)) as [Hwf' _].
    specialize (IH d' rs Hwf' Hr). destruct st; simpl; rewrite ?Hf; done.
  - injection Hr as <- <-. simpl. by rewrite Hf.
  - injection Hr as <- <-. simpl. by destruct (poll_step false (feed_bytes d b)) as [[]].
Qed.

(** ** Polling

    The callers poll as long as they get records. *)
Fixpoint poll_records (fuel : nat) d : list (Lsn * bytes) * status :=
  match fuel with
  | O => ([], Running)
  | S fuel' =>
    match poll_decode d with
    | Some (Ok (Some r), d') => let '(rs, st) := poll_records fuel' d' in (r :: rs, st)
    | Some (Ok None, d') => ([], More d')
    | Some (Err e, _) => ([], Failed e)
    | Some (Panic, _) => ([], Crashed)
    | None => ([], Running)
    end
  end.

Definition decode_available d : list (Lsn * bytes) * status :=
  poll_records (S (poll_measure d)) d.

Definition supported d : Prop := 14 ≤ wd_pg_version d ≤ 17.

Lemma at_end_version d recordbuf : wd_pg_version (at_end d recordbuf).2 = wd_pg_version d.
Proof. unfold at_end. by destruct (completed _ _). Qed.

Lemma poll_step_version fast d :
  decoder_wf d → wd_pg_version (poll_step fast d).2 = wd_pg_version d.
Proof.
  intros Hwf. rewrite poll_step_run, poll_page_header_due.
  assert (Hbody : ∀ d1, decoder_wf d1 → wd_pg_version (poll_body fast d1).2 = wd_pg_version d1).
  { clear d Hwf. intros d Hwf. unfold poll_body, decoder_wf in *. destruct (wd_state d).
    - rewrite poll_waiting_run. cbv zeta. repeat case_match; try done. by rewrite at_end_version.
    - rewrite poll_reassemble_run by done. cbv zeta. repeat case_match; try done.
      by rewrite at_end_version.
    - rewrite poll_skip_run. cbv zeta. by repeat case_match. }
  destruct (due_header d) as [[[size decode] msg]|]; [|by apply Hbody].
  rewrite read_page_header_run. cbv zeta. repeat case_match; simplify_eq; try done.
  by rewrite Hbody.
Qed.

Lemma run_S fast fuel d :
  run fast (S fuel) d
  = match poll_step fast d with
    | (Ok None, d') => run fast fuel d'
    | (Ok (Some (Some r)), d') => let '(rs, st) := run fast fuel d' in (r :: rs, st)
    | (Ok (Some None), d') => ([], More d')
    | (Err e, _) => ([], Failed e)
    | (Panic, _) => ([], Crashed)
    end.
Proof. done. Qed.

Lemma poll_decode_internal_S fuel d :
  poll_decode_internal (S fuel) d
  = match poll_step true d with
    | (Ok None, d') => poll_decode_internal fuel d'
    | (Ok (Some r), d') => Some (Ok r, d')
    | (Err e, d') => Some (Err e, d')
    | (Panic, d') => Some (Panic, d')
    end.
Proof. done. Qed.

(** One poll is the first piece of a run. *)
Lemma poll_decode_internal_run fuel d :
  decoder_wf d → (poll_measure d < fuel)%nat →
  run true fuel d
  = match poll_decode_internal fuel d with
    | Some (Ok (Some r), d') => let '(rs, st) := run true (S (poll_measure d')) d' in (r :: rs, st)
    | Some (Ok None, d') => ([], More d')
    | Some (Err e, _) => ([], Failed e)
    | Some (Panic, _) => ([], Crashed)
    | None => ([], Running)
    end
  ∧ match poll_decode_internal fuel d with
    | Some (Ok (Some _), d') => progress d d' ∧ wd_pg_version d' = wd_pg_version d
    | r => is_Some r
    end.
Proof.
  revert d. induction fuel as [|fuel IH]; intros d Hwf Hm; [lia|].
  rewrite run_S, poll_decode_internal_S.
  pose proof (poll_step_version true d Hwf) as Hv.
  destruct (poll_step true d) as [[[[r|]|]|e|] d'] eqn:Hd; try (split; [done|by eexists]).
  - destruct (poll_step_progress _ _ _ _ Hwf Hd ltac:(done)) as [Hwf' Hm']. split; [|done].
    destruct (run true (S (poll_measure d')) d') as [rs st] eqn:Hr.
    rewrite (run_mono true (S (poll_measure d')) fuel d' rs st Hr); [done| |lia].
    pose proof (run_total true d' Hwf') as Ht. by rewrite Hr in Ht.
  - destruct (poll_step_progress _ _ _ _ Hwf Hd ltac:(done)) as [Hwf' Hm'].
    destruct (IH d' Hwf' ltac:(lia)) as [Heq Hp]. split; [exact Heq|].
    simpl in Hv. destruct (poll_decode_internal fuel d') as [[[[]| |] ]|]; try done.
    destruct Hp as [[? ?] ?]. split; [split; [done|lia]|congruence].
Qed.

Lemma poll_decode_supported d :
  supported d → poll_decode d = poll_decode_internal (S (poll_measure d)) d.
Proof.
  unfold supported, poll_decode. intros Hs.
  rewrite (proj2 (Z.leb_le _ _)), (proj2 (Z.leb_le _ _)) by lia. done.
Qed.

Lemma poll_records_run fuel d :
  decoder_wf d → supported d → (poll_measure d < fuel)%nat →
  poll_records fuel d = run true (S (poll_measure d)) d.
Proof.
  revert d. induction fuel as [|fuel IH]; intros d Hwf Hs Hm; [lia|].
  destruct (poll_decode_internal_run (S (poll_measure d)) d Hwf ltac:(lia)) as [-> Hp].
  cbn [poll_records]. rewrite (poll_decode_supported d Hs).
  destruct (poll_decode_internal _ d) as [[[[r|]|e|] d']|]; try done.
  destruct Hp as [[Hwf' Hm'] Hv]. rewrite IH; [done|done| |lia]. unfold supported. by rewrite Hv.
Qed.

(** What the polls give, by the slow path with any amount of fuel that is
    enough. *)
Lemma decode_available_slow d :
  decoder_wf d → supported d →
  (decode_available d).2 ≠ Running ∧ ∃ fuel, run false fuel d = decode_available d.
Proof.
  intros Hwf Hs. unfold decode_available. rewrite poll_records_run by (done || lia).
  pose proof (run_total true d Hwf) as Ht. split; [done|]. by apply run_fast_slow.
Qed.

Lemma slow_decode_available d fuel rs st :
  decoder_wf d → supported d → run false fuel d = (rs, st) → st ≠ Running →
  decode_available d = (rs, st).
Proof.
  intros Hwf Hs Hr Hst. destruct (decode_available_slow d Hwf Hs) as [Ht [fuel' Hf]].
  destruct (decode_available d) as [rs' st']. simpl in Ht.
  assert (H1 : run false (fuel + fuel') d = (rs, st)) by (eapply run_mono; [done..|lia]).
  assert (H2 : run false (fuel + fuel') d = (rs', st')) by (eapply run_mono; [done..|lia]).
  congruence.
Qed.

Lemma run_More_wf fast fuel d rs d' :
  decoder_wf d → run fast fuel d = (rs, More d') → decoder_wf d' ∧ wd_pg_version d' = wd_pg_version d.
Proof.
  revert d rs. induction fuel as [|fuel IH]; intros d rs Hwf; [done|]. rewrite run_S.
  pose proof (poll_step_version fast d Hwf) as Hv.
  destruct (poll_step fast d) as [[[[r|]|]|e|] d1] eqn:Hd; try done; simpl in Hv.
  - destruct (poll_step_progress _ _ _ _ Hwf Hd ltac:(done)) as [Hwf1 _].
    destruct (run fast fuel d1) as [rs1 st1] eqn:Hr1. intros [= _ ->].
    destruct (IH d1 rs1 Hwf1 Hr1). split; [done|congruence].
  - intros [= _ <-]. split; [|done]. rewrite poll_step_run in Hd.
    pose proof (poll_page_header_feed d []) as Hh.
    destruct (poll_page_header d) as [[[]|e|] d2] eqn:Hd2; try done.
    + destruct Hh as (_ & _ & Hst & _).
      assert (Hwf2 : decoder_wf d2) by (unfold decoder_wf; by rewrite Hst).
      unfold poll_body, decoder_wf in *. destruct (wd_state d2) eqn:Hs2.
      * rewrite poll_waiting_run in Hd. cbv zeta in Hd.
        destruct (_ <? 4)%nat; [simplify_eq; by rewrite Hs2|].
        destruct (_ <? Z.of_nat _); [done|]. destruct (fast && _ && _); [|done].
        destruct (_ <? 2 ^ 64); [|done]. unfold at_end in Hd. by destruct (completed _ _).
      * rewrite poll_reassemble_run in Hd by done. cbv zeta in Hd.
        destruct (_ <? _)%nat; [simplify_eq; by rewrite Hs2|].
        destruct (_ <? _); [|done]. destruct (_ =? 0); [|done].
        unfold at_end in Hd. by destruct (completed _ _).
      * rewrite poll_skip_run in Hd. cbv zeta in Hd.
        destruct (_ <? wd_lsn _); [done|]. destruct (_ <? _)%nat; [|by destruct (_ <? _)].
        simplify_eq. by rewrite Hs2.
    + simplify_eq. done.
  - destruct (poll_step_progress _ _ _ _ Hwf Hd ltac:(done)) as [Hwf1 _].
    intros Hr1. destruct (IH d1 rs Hwf1 Hr1). split; [done|congruence].
Qed.

(** Feeding a stream piece by piece, polling after each piece; it ends at the
    first error. *)
Fixpoint decode_chunks d (chunks : list bytes) : list (Lsn * bytes) * status :=
  match chunks with
  | [] => ([], More d)
  | chunk :: chunks' =>
    match decode_available (feed_bytes d chunk) with
    | (rs, More d') =>
      match chunks' with
      | [] => (rs, More d')
      | _ => let '(rs', st) := decode_chunks d' chunks' in (rs ++ rs', st)
      end
    | (rs, st) => (rs, st)
    end
  end.

Lemma decode_chunks_any d (chunk : bytes) (chunks : list bytes) :
  decoder_wf d → supported d →
  decode_chunks d (chunk :: chunks) = decode_available (feed_bytes d (concat (chunk :: chunks))).
Proof.
  revert d chunk. induction chunks as [|chunk' chunks IH]; intros d chunk Hwf Hs.
  { cbn [decode_chunks concat]. rewrite app_nil_r.
    by destruct (decode_available (feed_bytes d chunk)) as [rs []]. }
  set (rest := chunk' :: chunks) in *. cbn [concat decode_chunks].
  assert (Hfeed : feed_bytes d (chunk ++ concat rest) = feed_bytes (feed_bytes d chunk) (concat rest)).
  { unfold feed_bytes. simpl. by rewrite app_assoc. }
  rewrite Hfeed. set (d0 := feed_bytes d chunk) in *.
  assert (Hwf0 : decoder_wf d0) by done. assert (Hs0 : supported d0) by done.
  destruct (decode_available_slow d0 Hwf0 Hs0) as [Ht [fuel Hf]].
  destruct (decode_available d0) as [rs st]. simpl in Ht.
  pose proof (run_feed fuel d0 rs st (concat rest) Hwf0 Hf) as Hrf.
  destruct st as [d1|e| |]; [|symmetry; by eapply slow_decode_available..|done].
  destruct (run_More_wf _ _ _ _ _ Hwf0 Hf) as [Hwf1 Hv1].
  assert (Hs1 : supported d1) by (unfold supported; by rewrite Hv1).
  specialize (IH d1 chunk' Hwf1 Hs1). fold rest in IH.
  transitivity (let '(rs', st) := decode_chunks d1 rest in (rs ++ rs', st)); [done|]. rewrite IH.
  assert (Hwf2 : decoder_wf (feed_bytes d1 (concat rest))) by done.
  destruct (decode_available_slow (feed_bytes d1 (concat rest)) Hwf2 Hs1) as [Ht2 [fuel2 Hf2]].
  destruct (decode_available (feed_bytes d1 (concat rest))) as [rs2 st2]. simpl in Ht2.
  symmetry. eapply slow_decode_available; [done|done| |done]. by apply Hrf.
Qed.

(** The fast path is an optimisation, and the polls end: with the fuel that
    the measure gives, polling returns what the loop without the fast path
    returns. *)
Theorem decode_fast_path d (Hwf : decoder_wf d) (Hs : supported d) :
  (decode_available d).2 ≠ Running
  ∧ decode_available d = run false (2 * S (poll_measure d)) d.
Proof.
  pose proof (run_total false d Hwf) as Ht.
  destruct (run false (S (poll_measure d)) d) as [rs st] eqn:Hr.
  rewrite (slow_decode_available d _ rs st Hwf Hs Hr Ht). split; [done|].
  symmetry. eapply run_mono; [done..|lia].
Qed.

(** C36: Records, errors and the state left behind do not depend on how the stream
    is cut into pieces. *)
Theorem decode_chunks_concat d (chunk : bytes) (chunks : list bytes)
    (Hwf : decoder_wf d) (Hs : supported d) :
  decode_chunks d (chunk :: chunks) = decode_available (feed_bytes d (concat (chunk :: chunks))).
Proof. by apply decode_chunks_any. Qed.
End props.
