(* ===== verification/DecoderPositions.v ===== *)
(** * The positions of the WAL decoder

    What the WAL storage relies on: polling keeps the position up to which the
    decoder was fed, never moves back, and a record ends within its segment. *)

From S2P Require Import Prelude Bytes Text Lsn TimelineState WalDecoder WalDecoderProps.

(** The end of the segment of the byte before [x]. *)
Definition seg_ceil (x : Z) : Z := (x + (WAL_SEGMENT_SIZE - 1)) / WAL_SEGMENT_SIZE * WAL_SEGMENT_SIZE.

Lemma seg_ceil_mono x y : x ≤ y → seg_ceil x ≤ seg_ceil y.
Proof.
  unfold seg_ceil. intros. apply Z.mul_le_mono_nonneg_r; [done|].
  apply Z.div_le_mono; [done|lia].
Qed.

Lemma seg_ceil_least x b : x ≤ b → b mod WAL_SEGMENT_SIZE = 0 → seg_ceil x ≤ b.
Proof.
  unfold seg_ceil. intros Hx [k ->]%Z.mod_divide; [|done].
  apply Z.mul_le_mono_nonneg_r; [done|]. apply Z.lt_succ_r, Z.div_lt_upper_bound; [done|].
  unfold WAL_SEGMENT_SIZE in *. lia.
Qed.

Section positions.
Context `{PgSizes}.
Implicit Types d : WalStreamDecoder.

(** The position the next record starts at, or after. *)
Definition dec_end d : Lsn :=
  match wd_state d with SkippingEverything l => l | _ => wd_lsn d end.

Definition skip_ok d : Prop :=
  match wd_state d with
  | SkippingEverything l => wd_lsn d ≤ l ≤ seg_ceil (wd_lsn d) ∧ l < 2 ^ 64
  | _ => True
  end.

(** Fed up to [A]. *)
Definition at_pos (A : Lsn) d : Prop :=
  decoder_wf d ∧ skip_ok d ∧ 0 ≤ wd_lsn d ∧ wd_lsn d + wd_remaining d = A.

(** After an error. *)
Definition stopped (A : Lsn) d : Prop :=
  decoder_wf d ∧ (∀ l, wd_state d ≠ SkippingEverything l)
  ∧ 0 ≤ wd_lsn d ∧ wd_lsn d + wd_remaining d ≤ A.

Lemma completed_bounds lsn recordbuf next :
  0 ≤ lsn ≤ 2 ^ 64 - 8 → completed lsn recordbuf = Ok next →
  lsn ≤ next ≤ seg_ceil lsn ∧ next < 2 ^ 64.
Proof.
  intros Hl. unfold completed. destruct (_ <=? _)%nat; [|done].
  destruct (xlr_decode _) as [r|]; [|done]. destruct (negb _); [done|].
  destruct (is_xlog_switch_record r).
  - unfold Lsn_add, checked_add, unwrap. rewrite Lsn_calc_padding_eq;
      [|unfold in_u; lia|done|left; by exists (2 ^ 40)].
    destruct (Z.ltb_spec (lsn + (- lsn) mod WAL_SEGMENT_SIZE) (2 ^ 64)); [|done]. intros [= <-].
    pose proof (Z.mod_pos_bound (- lsn) WAL_SEGMENT_SIZE ltac:(done)).
    pose proof (Z.div_mod (- lsn) WAL_SEGMENT_SIZE ltac:(done)). unfold seg_ceil.
    pose proof (Z.div_mod (lsn + (WAL_SEGMENT_SIZE - 1)) WAL_SEGMENT_SIZE ltac:(done)).
    pose proof (Z.mod_pos_bound (lsn + (WAL_SEGMENT_SIZE - 1)) WAL_SEGMENT_SIZE ltac:(done)).
    unfold WAL_SEGMENT_SIZE in *. lia.
  - rewrite Lsn_align_eq by done. intros [= <-].
    pose proof (Z.div_mod (lsn + 7) 8 ltac:(lia)). pose proof (Z.mod_pos_bound (lsn + 7) 8 ltac:(lia)).
    unfold seg_ceil.
    pose proof (Z.div_mod (lsn + (WAL_SEGMENT_SIZE - 1)) WAL_SEGMENT_SIZE ltac:(done)).
    pose proof (Z.mod_pos_bound (lsn + (WAL_SEGMENT_SIZE - 1)) WAL_SEGMENT_SIZE ltac:(done)).
    unfold WAL_SEGMENT_SIZE in *. lia.
Qed.

(** What a turn of the decoder that gave [r] and left [d'] has done. *)
Definition moved A d (r : outcome WalDecodeError (option (option (Lsn * bytes)))) d' : Prop :=
  match r with
  | Ok (Some (Some (l, _))) => at_pos A d' ∧ dec_end d ≤ l ∧ wd_state d' = SkippingEverything l
  | Ok _ => at_pos A d' ∧ dec_end d ≤ dec_end d'
  | _ => stopped A d' ∧ dec_end d ≤ dec_end d'
  end.

Lemma at_end_moved A d d1 recordbuf r d' :
  A ≤ 2 ^ 64 - 8 → at_pos A d1 → (∀ l, wd_state d1 ≠ SkippingEverything l) → dec_end d ≤ wd_lsn d1 →
  at_end d1 recordbuf = (r, d') → moved A d r d'.
Proof.
  intros HA (Hwf & Hok & Hpos & Hav) Hns Hend. unfold at_end.
  assert (Hrem : 0 ≤ wd_remaining d1) by (unfold wd_remaining; lia).
  assert (Hd : dec_end d1 = wd_lsn d1) by (unfold dec_end; by destruct (wd_state d1) eqn:Hs; [..|destruct (Hns skip_until_lsn)]).
  destruct (completed (wd_lsn d1) recordbuf) as [next|e|] eqn:Hc; intros [= <- <-]; simpl.
  - apply completed_bounds in Hc as [Hb Hmax]; [|lia]. split_and!; try done; simpl; lia.
  - split; [|lia]. split_and!; (done || lia).
  - split; [|lia]. split_and!; (done || lia).
Qed.

Lemma skip_input_pos A n d :
  wd_lsn d + wd_remaining d = A → (n ≤ length (wd_inputbuf d))%nat →
  wd_lsn (skip_input n d) + wd_remaining (skip_input n d) = A.
Proof. unfold wd_remaining, skip_input. simpl. rewrite length_drop. lia. Qed.

Lemma poll_body_moved fast A d r d' :
  A ≤ 2 ^ 64 - 8 → at_pos A d → poll_body fast d = (r, d') → moved A d r d'.
Proof.
  intros HA Hat. pose proof Hat as (Hwf & Hok & Hpos & Hav). unfold poll_body.
  unfold decoder_wf, skip_ok in *.
  pose proof xlr_size as Hsz. unfold XLOG_RECORD_CRC_OFFS in Hsz.
  destruct (wd_state d) as [|recordbuf contlen|until] eqn:Hs.
  - assert (Hend : dec_end d = wd_lsn d) by (unfold dec_end; by rewrite Hs).
    rewrite poll_waiting_run. cbv zeta. set (tot := le_value _).
    destruct (_ <? 4)%nat; [intros [= <- <-]; by split|].
    destruct (Z.ltb_spec tot (Z.of_nat XLOG_SIZE_OF_XLOG_RECORD)) as [|Htot].
    { intros [= <- <-]. split; [|done]. unfold stopped, decoder_wf. rewrite Hs. split_and!; (done || lia). }
    destruct (fast && _ && _) eqn:Hfast.
    + bool_prop. rewrite (proj2 (Z.ltb_lt _ _)) by lia. unfold wd_remaining in *. intros He.
      eapply at_end_moved; [done| | | |exact He].
      * pose proof (skip_input_pos A (Z.to_nat tot) d Hav ltac:(lia)).
        unfold at_pos, decoder_wf, skip_ok. simpl in *. rewrite Hs. split_and!; (done || lia).
      * simpl. by rewrite Hs.
      * simpl. lia.
    + intros [= <- <-]. unfold moved, at_pos, dec_end, decoder_wf, skip_ok, wd_remaining in *. simpl. rewrite Hs.
      split_and!; (done || lia).
  - assert (Hend : dec_end d = wd_lsn d) by (unfold dec_end; by rewrite Hs).
    rewrite poll_reassemble_run by done. cbv zeta. set (n := Z.to_nat _).
    assert (Hnc : Z.of_nat n ≤ contlen).
    { unfold n, Lsn_remaining_in_block, XLOG_BLCKSZ. pose proof (Z.mod_pos_bound (wd_lsn d) 8192). lia. }
    destruct (Nat.ltb_spec (length (wd_inputbuf d)) n) as [|Hge]; [intros [= <- <-]; by split|].
    pose proof (skip_input_pos A n d Hav Hge) as Hav'.
    rewrite (proj2 (Z.ltb_lt _ _)) by (unfold wd_remaining in *; lia).
    destruct (Z.eqb_spec (contlen - Z.of_nat n) 0).
    + intros He. eapply at_end_moved; [done| | | |exact He]; [|done|simpl; lia].
      unfold at_pos, decoder_wf, skip_ok in *. simpl in *. split_and!; (done || lia).
    + intros [= <- <-]. unfold moved, at_pos, dec_end, decoder_wf, skip_ok in *. simpl in *. rewrite Hs.
      split_and!; (done || lia).
  - rewrite poll_skip_run. cbv zeta. set (n := Z.to_nat _). destruct Hok as [Hok Hmax].
    rewrite (proj2 (Z.ltb_ge _ _)) by lia.
    destruct (Nat.ltb_spec (length (wd_inputbuf d)) n) as [|Hge].
    { intros [= <- <-]. by split. }
    pose proof (skip_input_pos A n d Hav Hge) as Hav'.
    rewrite (proj2 (Z.ltb_lt _ _)) by lia. intros [= <- <-].
    unfold moved, at_pos, dec_end, decoder_wf, skip_ok in *. simpl in *. rewrite Hs.
    split_and!; (done || lia).
Qed.

Lemma read_page_header_moved size decode msg A d r d' :
  A ≤ 2 ^ 64 - 8 → at_pos A d → (∀ l, wd_state d ≠ SkippingEverything l) →
  read_page_header size decode msg d = (r, d') →
  match r with
  | Ok _ => at_pos A d' ∧ dec_end d ≤ dec_end d'
  | _ => stopped A d' ∧ dec_end d ≤ dec_end d'
  end.
Proof.
  intros HA Hat Hns. pose proof Hat as (Hwf & Hok & Hpos & Hav).
  rewrite read_page_header_run. cbv zeta.
  destruct (Nat.ltb_spec (length (wd_inputbuf d)) size) as [|Hge]; [by intros [= <- <-]|].
  assert (Hst : stopped A (d <| wd_inputbuf := drop size (wd_inputbuf d) |>)).
  { unfold stopped, decoder_wf, wd_remaining in *. simpl. rewrite length_drop. split_and!; (done || lia). }
  destruct (decode _); [|by intros [= <- <-]].
  destruct (validate_page_header _ _); [|by intros [= <- <-]..].
  pose proof (skip_input_pos A size d Hav Hge) as Hav'.
  rewrite (proj2 (Z.ltb_lt _ _)) by (unfold wd_remaining in *; lia). intros [= <- <-].
  change (at_pos A (skip_input size d) ∧ dec_end d ≤ dec_end (skip_input size d)).
  unfold at_pos, dec_end, decoder_wf, skip_ok in *. rewrite Hav'. simpl.
  destruct (wd_state d); [..|by destruct (Hns skip_until_lsn)]; split_and!; (done || lia).
Qed.

Lemma poll_step_moved fast A d r d' :
  A ≤ 2 ^ 64 - 8 → at_pos A d → poll_step fast d = (r, d') → moved A d r d'.
Proof.
  intros HA Hat. rewrite poll_step_run, poll_page_header_due.
  destruct (due_header d) as [[[size decode] msg]|] eqn:Hd.
  2:{ intros Hb. by eapply poll_body_moved. }
  apply due_header_Some in Hd as (_ & _ & _ & Hns).
  destruct (read_page_header size decode msg d) as [rh d1] eqn:Hrd.
  pose proof (read_page_header_moved _ _ _ _ _ _ _ HA Hat Hns Hrd) as Hm.
  destruct rh as [[]|e|]; [|by intros [= <- <-]..].
  destruct Hm as [Hat1 Hle1]. intros Hb. pose proof (poll_body_moved _ _ _ _ _ HA Hat1 Hb) as Hm.
  destruct r as [[[[l ?]|]|]|e|]; simpl in *; destruct Hm as (? & ?); split_and!; naive_solver lia.
Qed.

(** A poll that gave [r]. *)
Definition polled A d (r : outcome WalDecodeError (option (Lsn * bytes))) d' : Prop :=
  match r with
  | Ok r => moved A d (Ok (Some r)) d'
  | Err e => moved A d (Err e) d'
  | Panic => moved A d Panic d'
  end.

Lemma poll_decode_internal_polled fuel A : ∀ d r d',
  A ≤ 2 ^ 64 - 8 → at_pos A d → poll_decode_internal fuel d = Some (r, d') → polled A d r d'.
Proof.
  induction fuel as [|fuel IH]; intros d r d' HA Hat; [done|]. rewrite poll_decode_internal_S.
  destruct (poll_step true d) as [rs d1] eqn:Hs.
  pose proof (poll_step_moved _ _ _ _ _ HA Hat Hs) as Hm.
  destruct rs as [[r1|]|e|]; [by intros [= <- <-]| |by intros [= <- <-]..].
  destruct Hm as [Hat1 Hle]. intros Hp%IH; [|done..].
  destruct r as [[[l ?]|]|e|]; simpl in *; destruct Hp as (? & ?); split_and!; naive_solver lia.
Qed.

Lemma poll_decode_cases d :
  poll_decode d = poll_decode_internal (S (poll_measure d)) d ∨ ∃ e, poll_decode d = Some (Err e, d).
Proof. unfold poll_decode. destruct (_ && _); [by left|right]. unfold decode_error. eauto. Qed.

Lemma at_pos_new lsn v : 0 ≤ lsn → at_pos lsn (WalStreamDecoder_new lsn v).
Proof. intros. unfold at_pos, wd_remaining. simpl. split_and!; (done || lia). Qed.

Lemma at_pos_feed A d buf : at_pos A d → at_pos (A + Z.of_nat (length buf)) (feed_bytes d buf).
Proof.
  intros (Hwf & Hok & Hpos & Hav). unfold at_pos. rewrite remaining_feed.
  change (wd_lsn (feed_bytes d buf)) with (wd_lsn d). split_and!; (done || lia).
Qed.

(** ** The decoder does not panic

    As long as the segments lie below the end of all LSNs. *)

(** A record being reassembled will be at least as long as its header. *)
Definition record_long d : Prop :=
  match wd_state d with
  | ReassemblingRecord recordbuf contlen =>
    Z.of_nat XLOG_SIZE_OF_XLOG_RECORD ≤ Z.of_nat (length recordbuf) + contlen
  | _ => True
  end.

Definition lsn_below : Z := 2 ^ 64 - WAL_SEGMENT_SIZE.

Definition safe {X} (r : outcome WalDecodeError X) d' : Prop :=
  match r with Ok _ => record_long d' | Err _ => True | Panic => False end.

Lemma completed_safe lsn recordbuf :
  0 ≤ lsn ≤ lsn_below → (XLOG_SIZE_OF_XLOG_RECORD ≤ length recordbuf)%nat →
  completed lsn recordbuf ≠ Panic.
Proof.
  unfold lsn_below, completed. intros Hl Hlen. rewrite (proj2 (Nat.leb_le _ _)) by done.
  destruct (xlr_decode _) as [r|]; [|done]. destruct (negb _); [done|].
  destruct (is_xlog_switch_record r); [|done]. unfold Lsn_add, checked_add, unwrap.
  rewrite Lsn_calc_padding_eq; [|unfold in_u, WAL_SEGMENT_SIZE in *; lia|done|left; by exists (2 ^ 40)].
  pose proof (Z.mod_pos_bound (- lsn) WAL_SEGMENT_SIZE ltac:(done)).
  by rewrite (proj2 (Z.ltb_lt _ _)) by lia.
Qed.

Lemma at_end_safe d recordbuf r d' :
  0 ≤ wd_lsn d ≤ lsn_below → (XLOG_SIZE_OF_XLOG_RECORD ≤ length recordbuf)%nat →
  at_end d recordbuf = (r, d') → safe r d'.
Proof.
  intros Hl Hlen. pose proof (completed_safe (wd_lsn d) recordbuf Hl Hlen). unfold at_end.
  by destruct (completed _ _); intros [= <- <-].
Qed.

Lemma poll_body_safe fast A d r d' :
  A ≤ lsn_below → at_pos A d → record_long d → poll_body fast d = (r, d') → safe r d'.
Proof.
  intros HA (Hwf & Hok & Hpos & Hav) Hlong. unfold poll_body.
  assert (HA' : A < 2 ^ 64) by (unfold lsn_below, WAL_SEGMENT_SIZE in *; lia).
  unfold decoder_wf, skip_ok, record_long in *.
  destruct (wd_state d) as [|recordbuf contlen|until] eqn:Hs.
  - rewrite poll_waiting_run. cbv zeta. set (tot := le_value _).
    destruct (_ <? 4)%nat; [intros [= <- <-]; simpl; unfold record_long; by rewrite Hs|].
    destruct (Z.ltb_spec tot (Z.of_nat XLOG_SIZE_OF_XLOG_RECORD)) as [|Htot]; [by intros [= <- <-]|].
    destruct (fast && _ && _) eqn:Hfast.
    + bool_prop. rewrite (proj2 (Z.ltb_lt _ _)) by lia. unfold wd_remaining in *.
      apply at_end_safe; [simpl; lia|]. rewrite length_take. lia.
    + intros [= <- <-]. unfold safe, record_long. simpl. lia.
  - rewrite poll_reassemble_run by done. cbv zeta. set (n := Z.to_nat _).
    destruct (Nat.ltb_spec (length (wd_inputbuf d)) n) as [|Hge].
    { intros [= <- <-]. unfold safe, record_long. by rewrite Hs. }
    unfold wd_remaining in *. rewrite (proj2 (Z.ltb_lt _ _)) by lia.
    destruct (Z.eqb_spec (contlen - Z.of_nat n) 0).
    + apply at_end_safe; [simpl; lia|]. rewrite length_app, length_take. lia.
    + intros [= <- <-]. unfold safe, record_long. simpl. rewrite length_app, length_take. lia.
  - rewrite poll_skip_run. cbv zeta. destruct Hok as [Hok Hmax]. rewrite (proj2 (Z.ltb_ge _ _)) by lia.
    destruct (_ <? _)%nat; [intros [= <- <-]; unfold safe, record_long; by rewrite Hs|].
    rewrite (proj2 (Z.ltb_lt _ _)) by lia. by intros [= <- <-].
Qed.

Lemma read_page_header_safe size decode msg A d r d' :
  A ≤ lsn_below → at_pos A d → record_long d → (∀ l, wd_state d ≠ SkippingEverything l) →
  read_page_header size decode msg d = (r, d') → safe r d'.
Proof.
  intros HA (Hwf & Hok & Hpos & Hav) Hlong Hns. rewrite read_page_header_run. cbv zeta.
  destruct (Nat.ltb_spec (length (wd_inputbuf d)) size) as [|Hge]; [by intros [= <- <-]|].
  destruct (decode _) as [hdr|]; [|by intros [= <- <-]].
  assert (Hv : validate_page_header d hdr ≠ Panic).
  { unfold validate_page_header, decode_error.
    destruct (wd_state d) eqn:Hs; [..|by destruct (Hns skip_until_lsn)]; by repeat case_match. }
  destruct (validate_page_header d hdr); [|by intros [= <- <-]|done].
  unfold wd_remaining, lsn_below, WAL_SEGMENT_SIZE in *.
  rewrite (proj2 (Z.ltb_lt _ _)) by lia. by intros [= <- <-].
Qed.

Lemma poll_step_safe fast A d r d' :
  A ≤ lsn_below → at_pos A d → record_long d → poll_step fast d = (r, d') → safe r d'.
Proof.
  intros HA Hat Hlong. rewrite poll_step_run, poll_page_header_due.
  destruct (due_header d) as [[[size decode] msg]|] eqn:Hd; [|by apply poll_body_safe with (A := A)].
  apply due_header_Some in Hd as (_ & _ & _ & Hns).
  destruct (read_page_header size decode msg d) as [rh d1] eqn:Hrd.
  assert (HA' : A ≤ 2 ^ 64 - 8) by (unfold lsn_below, WAL_SEGMENT_SIZE in *; lia).
  pose proof (read_page_header_moved _ _ _ _ _ _ _ HA' Hat Hns Hrd) as Hm.
  pose proof (read_page_header_safe _ _ _ _ _ _ _ HA Hat Hlong Hns Hrd) as Hs.
  destruct rh as [[]|e|]; [|by intros [= <- <-]..]. destruct Hm as [Hat1 _].
  by apply poll_body_safe with (A := A).
Qed.

Lemma poll_decode_internal_safe fuel A : ∀ d r d',
  A ≤ lsn_below → at_pos A d → record_long d →
  poll_decode_internal fuel d = Some (r, d') → safe r d'.
Proof.
  induction fuel as [|fuel IH]; intros d r d' HA Hat Hlong; [done|]. rewrite poll_decode_internal_S.
  destruct (poll_step true d) as [rs d1] eqn:Hs.
  assert (HA' : A ≤ 2 ^ 64 - 8) by (unfold lsn_below, WAL_SEGMENT_SIZE in *; lia).
  pose proof (poll_step_moved _ _ _ _ _ HA' Hat Hs) as Hm.
  pose proof (poll_step_safe _ _ _ _ _ HA Hat Hlong Hs) as Hsafe.
  destruct rs as [[r1|]|e|]; [by intros [= <- <-]| |by intros [= <- <-]..].
  destruct Hm as [Hat1 _]. by apply IH.
Qed.
End positions.
