(* ===== verification/WalGenerator.v ===== *)
(** * Generating WAL

    [libs/postgres_ffi/src/wal_generator.rs]: WAL records with their headers,
    laid out on pages of 8 KiB in segments of 16 MiB; and that the decoder reads
    back what the generator writes. *)

From S2P Require Import Prelude Bytes Text Lsn TimelineState WalDecoder WalDecoderProps.

(** [XLR_BLOCK_ID_DATA_SHORT], [XLR_BLOCK_ID_DATA_LONG], [RM_LOGICALMSG_ID],
    [XLOG_LOGICAL_MESSAGE] of [pg_constants.rs]; [PG_TLI]. *)
Definition XLR_BLOCK_ID_DATA_SHORT : Z := 255.
Definition XLR_BLOCK_ID_DATA_LONG : Z := 254.
Definition RM_LOGICALMSG_ID : Z := 21.
Definition XLOG_LOGICAL_MESSAGE : Z := 0.
Definition SYS_ID : Z := 0.
Definition TIMELINE_ID : Z := 1.

(** [struct Record] *)
Record WalRecord := {
  rec_rmid : Z;
  rec_info : Z;
  rec_data : bytes;
}.

Section generator.
Context `{PgFormat} {E : Type}.

Definition data_header (data : bytes) : bytes :=
  let len := Z.of_nat (length data) in
  if len =? 0 then []
  else if len <=? 255 then [byte_of XLR_BLOCK_ID_DATA_SHORT; byte_of len]
  else byte_of XLR_BLOCK_ID_DATA_LONG :: le_bytes 4 len.

(** [Record::encode]; [xl_tot_len] is cut to 32 bits. *)
Definition Record_encode (self : WalRecord) (prev_lsn : Lsn) : bytes :=
  let dh := data_header (rec_data self) in
  let header crc := {|
    xl_tot_len := wrap 32 (Z.of_nat XLOG_SIZE_OF_XLOG_RECORD + Z.of_nat (length dh)
                           + Z.of_nat (length (rec_data self)));
    xl_xid := 0;
    xl_prev := prev_lsn;
    xl_info := rec_info self;
    xl_rmid := rec_rmid self;
    xl_crc := crc;
  |} in
  let crc := crc32c_append 0 dh in
  let crc := crc32c_append crc (rec_data self) in
  let crc := crc32c_append crc (take XLOG_RECORD_CRC_OFFS (xlr_encode (header 0))) in
  xlr_encode (header crc) ++ dh ++ rec_data self.

(** The header of the page at [lsn], when [remaining] of the [total] bytes of
    the record are still to come: a record split over pages is marked as
    continued. *)
Definition page_header_info (remaining total : nat) : Z :=
  if (remaining <? total)%nat then Z.lor XLP_BKP_REMOVABLE XLP_FIRST_IS_CONTRECORD
  else XLP_BKP_REMOVABLE.

Definition page_header_std (lsn : Lsn) (remaining total : nat) (info : Z) : XLogPageHeaderData := {|
  xlp_magic := wrap 16 XLOG_PAGE_MAGIC;
  xlp_info := info;
  xlp_tli := TIMELINE_ID;
  xlp_pageaddr := lsn;
  xlp_rem_len := if (remaining <? total)%nat then wrap 32 (Z.of_nat remaining) else 0;
|}.

Definition page_header_long (lsn : Lsn) (remaining total : nat) : XLogLongPageHeaderData := {|
  lphd_std := page_header_std lsn remaining total
                (Z.lor (page_header_info remaining total) XLP_LONG_HEADER);
  xlp_sysid := SYS_ID;
  xlp_seg_size := WAL_SEGMENT_SIZE;
  xlp_xlog_blcksz := XLOG_BLCKSZ;
|}.

Definition page_header (lsn : Lsn) (remaining total : nat) : bytes :=
  if Lsn_segment_offset lsn WAL_SEGMENT_SIZE =? 0
  then lphd_encode (page_header_long lsn remaining total)
  else phd_encode (page_header_std lsn remaining total (page_header_info remaining total)).

(** The loop of [insert_pages]; a page header is smaller than a page, so every
    turn takes a part of the record. *)
Fixpoint insert_pages_loop (fuel : nat) (total : nat) (remaining : bytes) (lsn : Lsn) :
    fueled E bytes :=
  match remaining with
  | [] => mret []
  | _ =>
    match fuel with
    | O => None
    | S fuel' =>
      let hdr := if Lsn_block_offset lsn =? 0 then page_header lsn (length remaining) total else [] in
      lsn ← Some (if Lsn_block_offset lsn =? 0 then Lsn_add lsn (Z.of_nat (length hdr)) else Ok lsn)
        : fueled E Lsn;
      let page_free := Z.to_nat (Lsn_remaining_in_block lsn) in
      let chunk := take (Nat.min page_free (length remaining)) remaining in
      lsn ← Some (Lsn_add lsn (Z.of_nat (length chunk))) : fueled E Lsn;
      pages ← insert_pages_loop fuel' total
                (drop (Nat.min page_free (length remaining)) remaining) lsn;
      mret (hdr ++ chunk ++ pages)
    end
  end.

Definition insert_pages (record : bytes) (lsn : Lsn) : fueled E bytes :=
  if (Z.of_nat (length record) <=? Lsn_remaining_in_block lsn) && (0 <? Lsn_block_offset lsn)
  then mret record
  else insert_pages_loop (length record) (length record) record lsn.

Definition pad_record (record : bytes) (lsn : Lsn) : fueled E bytes :=
  lsn ← Some (Lsn_add lsn (Z.of_nat (length record))) : fueled E Lsn;
  mret (record ++ replicate (Z.to_nat (Lsn_calc_padding lsn 8)) x00).

(** The position of the generator: [lsn] and [prev_lsn]. *)
Record WalGenerator := { wg_lsn : Lsn; wg_prev_lsn : Lsn }.

Definition WalGenerator_new (start_lsn : Lsn) : WalGenerator :=
  {| wg_lsn := start_lsn; wg_prev_lsn := start_lsn |}.

Definition append_record (self : WalGenerator) (record : WalRecord) :
    fueled E (Lsn * bytes * WalGenerator) :=
  let encoded := Record_encode record (wg_prev_lsn self) in
  pages ← insert_pages encoded (wg_lsn self);
  padded ← pad_record pages (wg_lsn self);
  next ← Some (Lsn_add (wg_lsn self) (Z.of_nat (length padded))) : fueled E Lsn;
  mret (wg_lsn self, padded, {| wg_lsn := next; wg_prev_lsn := wg_lsn self |}).

(** The iterator, run over the records of a record generator. *)
Fixpoint generate (self : WalGenerator) (records : list WalRecord) :
    fueled E (list (Lsn * bytes) * WalGenerator) :=
  match records with
  | [] => mret ([], self)
  | record :: records' =>
    r ← append_record self record;
    let '(lsn, buf, self') := r in
    rs ← generate self' records';
    let '(out, self'') := rs in
    mret ((lsn, buf) :: out, self'')
  end.
End generator.

(** ** Logical messages *)

(** [XlLogicalMessage::encode]: the fields in order, little-endian. *)
Definition XlLogicalMessage_encode (db_id transactional prefix_size message_size : Z) : bytes :=
  le_bytes 4 db_id ++ le_bytes 4 transactional ++ le_bytes 8 prefix_size ++ le_bytes 8 message_size.

(** [prefix] without its terminating NUL. *)
Definition LogicalMessageGenerator_encode (prefix message : bytes) : bytes :=
  let prefix := prefix ++ [x00] in
  XlLogicalMessage_encode 0 0 (Z.of_nat (length prefix)) (Z.of_nat (length message))
  ++ prefix ++ message.

Definition logical_message (prefix message : bytes) : WalRecord := {|
  rec_rmid := RM_LOGICALMSG_ID;
  rec_info := XLOG_LOGICAL_MESSAGE;
  rec_data := LogicalMessageGenerator_encode prefix message;
|}.

Definition append_logical_message `{PgFormat} {E} (self : WalGenerator) (prefix message : bytes) :
    fueled E (Lsn * bytes * WalGenerator) :=
  append_record self (logical_message prefix message).

(** The first subtraction of [usize] values wraps. *)
Definition make_value_size `{PgFormat} {E} (record_size : Z) (prefix : bytes) : outcome E Z :=
  let xlog_header_size := Z.of_nat XLOG_SIZE_OF_XLOG_RECORD in
  let prefix_size := Z.of_nat (length (prefix ++ [x00])) in
  let payload := wrapping_sub 64 (wrapping_sub 64 record_size xlog_header_size) 2 in
  data_header_size ← (if payload <=? 255 then Ok 2
                      else if payload <=? 258 then Panic else Ok 5);
  unwrap (checked_sub record_size (xlog_header_size + 24 + prefix_size + data_header_size)).

(** ** The format *)

Definition phd_wf (h : XLogPageHeaderData) : Prop :=
  in_u 16 (xlp_magic h) ∧ in_u 16 (xlp_info h) ∧ in_u 32 (xlp_tli h)
  ∧ in_u 64 (xlp_pageaddr h) ∧ in_u 32 (xlp_rem_len h).

Definition lphd_wf (h : XLogLongPageHeaderData) : Prop :=
  phd_wf (lphd_std h) ∧ in_u 64 (xlp_sysid h) ∧ in_u 32 (xlp_seg_size h)
  ∧ in_u 32 (xlp_xlog_blcksz h).

Definition xlr_wf (r : XLogRecord) : Prop :=
  in_u 32 (xl_tot_len r) ∧ in_u 32 (xl_xid r) ∧ in_u 64 (xl_prev r)
  ∧ in_u 8 (xl_info r) ∧ in_u 8 (xl_rmid r) ∧ in_u 32 (xl_crc r).

(** Serialization of the structs as they are laid out: fixed sizes, [xl_tot_len]
    first and [xl_crc] last; and the checksum of a concatenation. *)
Class PgFormatLaws `{PgFormat} := {
  pg_format_sizes :: PgSizes;
  phd_roundtrip h : phd_wf h →
    length (phd_encode h) = XLOG_SIZE_OF_XLOG_SHORT_PHD ∧ phd_decode (phd_encode h) = Some h;
  lphd_roundtrip h : lphd_wf h →
    length (lphd_encode h) = XLOG_SIZE_OF_XLOG_LONG_PHD ∧ lphd_decode (lphd_encode h) = Some h;
  xlr_roundtrip r : xlr_wf r →
    length (xlr_encode r) = XLOG_SIZE_OF_XLOG_RECORD ∧ xlr_decode (xlr_encode r) = Some r
    ∧ le_value (take 4 (xlr_encode r)) = xl_tot_len r;
  xlr_before_crc r r' :
    xl_tot_len r = xl_tot_len r' → xl_xid r = xl_xid r' → xl_prev r = xl_prev r' →
    xl_info r = xl_info r' → xl_rmid r = xl_rmid r' →
    take XLOG_RECORD_CRC_OFFS (xlr_encode r) = take XLOG_RECORD_CRC_OFFS (xlr_encode r');
  crc32c_app c b1 b2 : crc32c_append c (b1 ++ b2) = crc32c_append (crc32c_append c b1) b2;
  crc32c_u32 c b : in_u 32 (crc32c_append c b);
  phd_sizes_aligned : Z.of_nat XLOG_SIZE_OF_XLOG_SHORT_PHD mod 8 = 0
                      ∧ Z.of_nat XLOG_SIZE_OF_XLOG_LONG_PHD mod 8 = 0;
}.

(** The layout of Postgres on 64-bit little-endian machines, for a page magic
    and a checksum. *)
Section layout.
Context (magic : Z) (crc_step : Z → byte → Z).

Definition layout_phd (h : XLogPageHeaderData) : bytes :=
  le_bytes 2 (xlp_magic h) ++ le_bytes 2 (xlp_info h) ++ le_bytes 4 (xlp_tli h)
  ++ le_bytes 8 (xlp_pageaddr h) ++ le_bytes 4 (xlp_rem_len h) ++ le_bytes 4 0.

Definition field (off n : nat) (b : bytes) : Z := le_value (take n (drop off b)).

Definition unlayout_phd (b : bytes) : XLogPageHeaderData := {|
  xlp_magic := field 0 2 b; xlp_info := field 2 2 b; xlp_tli := field 4 4 b;
  xlp_pageaddr := field 8 8 b; xlp_rem_len := field 16 4 b |}.

Definition layout_lphd (h : XLogLongPageHeaderData) : bytes :=
  layout_phd (lphd_std h) ++ le_bytes 8 (xlp_sysid h) ++ le_bytes 4 (xlp_seg_size h)
  ++ le_bytes 4 (xlp_xlog_blcksz h).

Definition layout_xlr (r : XLogRecord) : bytes :=
  le_bytes 4 (xl_tot_len r) ++ le_bytes 4 (xl_xid r) ++ le_bytes 8 (xl_prev r)
  ++ le_bytes 1 (xl_info r) ++ le_bytes 1 (xl_rmid r) ++ le_bytes 2 0 ++ le_bytes 4 (xl_crc r).

Definition pg_layout : PgFormat := {|
  XLOG_PAGE_MAGIC := magic;
  XLOG_SIZE_OF_XLOG_SHORT_PHD := 24;
  XLOG_SIZE_OF_XLOG_LONG_PHD := 40;
  XLOG_SIZE_OF_XLOG_RECORD := 24;
  phd_encode := layout_phd;
  phd_decode b := if (length b <? 24)%nat then None else Some (unlayout_phd b);
  lphd_encode := layout_lphd;
  lphd_decode b := if (length b <? 40)%nat then None else Some {|
    lphd_std := unlayout_phd b; xlp_sysid := field 24 8 b; xlp_seg_size := field 32 4 b;
    xlp_xlog_blcksz := field 36 4 b |};
  xlr_encode := layout_xlr;
  xlr_decode b := if (length b <? 24)%nat then None else Some {|
    xl_tot_len := field 0 4 b; xl_xid := field 4 4 b; xl_prev := field 8 8 b;
    xl_info := field 16 1 b; xl_rmid := field 17 1 b; xl_crc := field 20 4 b |};
  crc32c_append c b := foldl (λ c x, wrap 32 (crc_step c x)) (wrap 32 c) b;
|}.

Lemma field_skip off n l1 l2 :
  (length l1 ≤ off)%nat → field off n (l1 ++ l2) = field (off - length l1) n l2.
Proof. intros Hl. unfold field. by rewrite drop_app_ge. Qed.

Lemma field_here n z w l :
  w = 8 * Z.of_nat n → in_u w z → field 0 n (le_bytes n z ++ l) = z.
Proof.
  intros Hw Hz. unfold field. rewrite drop_0.
  rewrite <- (length_le_bytes n z) at 1. rewrite take_app_length. by eapply le_roundtrip.
Qed.

Lemma field_last n z w : w = 8 * Z.of_nat n → in_u w z → field 0 n (le_bytes n z) = z.
Proof. intros Hw Hz. rewrite <- (app_nil_r (le_bytes n z)). by eapply field_here. Qed.

Lemma length_layout_phd h : length (layout_phd h) = 24%nat.
Proof. unfold layout_phd. by rewrite !length_app, !length_le_bytes. Qed.

Ltac solve_field :=
  repeat (rewrite field_skip by (rewrite ?length_le_bytes, ?length_layout_phd; lia));
  rewrite ?length_le_bytes, ?length_layout_phd; cbn [Nat.sub];
  (eapply field_here || eapply field_last); [|eassumption]; done.

Lemma unlayout_phd_app h l : phd_wf h → unlayout_phd (layout_phd h ++ l) = h.
Proof.
  intros (? & ? & ? & ? & ?). destruct h. unfold unlayout_phd, layout_phd. simpl in *.
  rewrite <- !app_assoc. f_equal; solve_field.
Qed.

Lemma take_same_prefix n (l l1 l2 : bytes) :
  length l = n → take n (l ++ l1) = take n (l ++ l2).
Proof. intros <-. by rewrite !take_app_length. Qed.

#[export] Instance pg_layout_laws : @PgFormatLaws pg_layout.
Proof.
  split; simpl.
  - split; simpl; first [done | split; [lia|done]].
  - intros h Hh. rewrite length_layout_phd. split; [done|]. simpl. f_equal.
    rewrite <- (app_nil_r (layout_phd h)). by apply unlayout_phd_app.
  - intros [std sysid seg blck] (Hh & Hf1 & Hf2 & Hf3). simpl in *.
    assert (Hl : length (layout_lphd {| lphd_std := std; xlp_sysid := sysid;
      xlp_seg_size := seg; xlp_xlog_blcksz := blck |}) = 40%nat).
    { unfold layout_lphd. simpl. by rewrite !length_app, length_layout_phd, !length_le_bytes. }
    rewrite Hl. split; [done|]. simpl. unfold layout_lphd. simpl.
    rewrite unlayout_phd_app by done. do 2 f_equal; solve_field.
  - intros [tot xid prev info rmid crc] (? & ? & ? & ? & ? & ?). simpl in *.
    assert (Hl : length (layout_xlr {| xl_tot_len := tot; xl_xid := xid; xl_prev := prev;
      xl_info := info; xl_rmid := rmid; xl_crc := crc |}) = 24%nat).
    { unfold layout_xlr. simpl. by rewrite !length_app, !length_le_bytes. }
    rewrite Hl. split; [done|]. simpl. unfold layout_xlr. simpl. split.
    + do 2 f_equal; solve_field.
    + rewrite <- (length_le_bytes 4 tot) at 1. rewrite take_app_length.
      eapply le_roundtrip; [|eassumption]. done.
  - intros [] [] ?????. simpl in *. subst. unfold layout_xlr. simpl.
    rewrite !app_assoc. apply take_same_prefix. by rewrite !length_app, !length_le_bytes.
  - intros c b1 b2. rewrite foldl_app.
    assert (Hw : ∀ b c, wrap 32 (foldl (λ c x, wrap 32 (crc_step c x)) (wrap 32 c) b)
      = foldl (λ c x, wrap 32 (crc_step c x)) (wrap 32 c) b).
    { clear. intros b c. induction b as [|x b _] using rev_ind; [apply Zmod_mod|].
      rewrite foldl_snoc. apply Zmod_mod. }
    by rewrite Hw.
  - intros c b. destruct b as [|x b _] using rev_ind; simpl; [by apply wrap_in_u|].
    rewrite foldl_snoc. by apply wrap_in_u.
  - done.
Qed.
End layout.

(** ** Reading back *)

Section roundtrip.
Context `{PgFormatLaws} (v : Z).
Implicit Types d : WalStreamDecoder.

(** The decoder gets from [d] to [d'], giving the records [out]. *)
Definition reaches d (out : list (Lsn * bytes)) d' : Prop :=
  ∃ k, ∀ fuel, run false (k + fuel) d = (out ++ (run false fuel d').1, (run false fuel d').2).

Lemma reaches_trans d1 out1 d2 out2 d3 :
  reaches d1 out1 d2 → reaches d2 out2 d3 → reaches d1 (out1 ++ out2) d3.
Proof.
  intros [k1 H1] [k2 H2]. exists (k1 + k2)%nat. intros fuel.
  rewrite <- Nat.add_assoc, H1, H2. simpl. by rewrite app_assoc.
Qed.

Lemma reaches_step d d' : poll_step false d = (Ok None, d') → reaches d [] d'.
Proof. intros Hs. exists 1%nat. intros fuel. simpl. rewrite Hs. by destruct (run false fuel d'). Qed.

Lemma reaches_record d r d' : poll_step false d = (Ok (Some (Some r)), d') → reaches d [r] d'.
Proof. intros Hs. exists 1%nat. intros fuel. simpl. rewrite Hs. by destruct (run false fuel d'). Qed.

(** A valid page header is skipped within the turn that reads it. *)
Lemma reaches_header d size decode msg hdr :
  due_header d = Some (size, decode, msg) → (size ≤ length (wd_inputbuf d))%nat →
  decode (take size (wd_inputbuf d)) = Some hdr → validate_page_header d hdr = Ok tt →
  wd_lsn d + Z.of_nat size < 2 ^ 64 →
  reaches d [] (skip_input size d) ∧ in_page (skip_input size d).
Proof.
  intros Hd Hlen Hdec Hval Hlsn.
  assert (Hp : poll_page_header d = (Ok true, skip_input size d)).
  { rewrite poll_page_header_due, Hd, read_page_header_run. cbv zeta.
    rewrite (proj2 (Nat.ltb_ge _ _)), Hdec, Hval, (proj2 (Z.ltb_lt _ _)) by done. done. }
  pose proof (poll_page_header_feed d []) as Hf. rewrite Hp in Hf. destruct Hf as (_ & Hin & _).
  split; [|done]. exists 0%nat. intros [|fuel]; [done|]. simpl.
  rewrite !poll_step_run, Hp, in_page_header by done.
  by destruct (poll_body false (skip_input size d)) as [[[[]|]| |] ?]; simpl;
    try destruct (run false fuel _).
Qed.

(** The state a page header of the generator is valid in. *)
Definition expects (remaining total : nat) (s : State) : Prop :=
  match s with
  | WaitingForRecord => remaining = total
  | ReassemblingRecord _ contlen => (remaining < total)%nat ∧ contlen = Z.of_nat remaining
  | SkippingEverything _ => False
  end.

Lemma page_header_info_ok remaining total info :
  info = page_header_info remaining total
  ∨ info = Z.lor (page_header_info remaining total) XLP_LONG_HEADER →
  in_u 16 info ∧ (Z.land info XLP_FIRST_IS_CONTRECORD =? 0) = negb (remaining <? total)%nat.
Proof. unfold page_header_info. by destruct (remaining <? total)%nat; intros [-> | ->]. Qed.

Lemma page_header_std_wf lsn remaining total info :
  in_u 64 lsn → in_u 16 info → phd_wf (page_header_std lsn remaining total info).
Proof.
  intros Hlsn Hi. split_and!; simpl; try done; [by apply wrap_in_u|].
  destruct (_ <? _)%nat; [by apply wrap_in_u|done].
Qed.

Lemma page_header_std_valid lsn remaining total s buf info :
  expects remaining total s → Z.of_nat remaining < 2 ^ 32 →
  info = page_header_info remaining total
  ∨ info = Z.lor (page_header_info remaining total) XLP_LONG_HEADER →
  validate_page_header (mkWalStreamDecoder lsn v buf s)
    (page_header_std lsn remaining total info) = Ok tt.
Proof.
  intros Hexp Hrem [_ Hf]%page_header_info_ok.
  assert (Hwrap : wrap 32 (Z.of_nat remaining) = Z.of_nat remaining).
  { apply wrap_small. unfold in_u. lia. }
  unfold validate_page_header. simpl. rewrite !Z.eqb_refl. simpl. rewrite Hf, Hwrap.
  destruct s as [|acc contlen|]; [| |done]; simpl in Hexp.
  - subst. by rewrite Nat.ltb_irrefl.
  - destruct Hexp as [Hlt ->]. rewrite (proj2 (Nat.ltb_lt _ _)) by done. by rewrite Z.eqb_refl.
Qed.

(** What the decoder reads a header of the generator as. *)
Lemma page_header_decode lsn remaining total s buf :
  Lsn_block_offset lsn = 0 → in_u 64 lsn → (∀ l, s ≠ SkippingEverything l) →
  let hdr := page_header lsn remaining total in
  ∃ decode msg info,
    due_header (mkWalStreamDecoder lsn v buf s) = Some (length hdr, decode, msg)
    ∧ decode hdr = Some (page_header_std lsn remaining total info)
    ∧ (info = page_header_info remaining total
       ∨ info = Z.lor (page_header_info remaining total) XLP_LONG_HEADER).
Proof.
  intros Hb Hlsn Hs hdr. unfold hdr, page_header, due_header. simpl.
  assert (Hinfo := page_header_info_ok remaining total). rewrite (proj2 (Z.eqb_eq _ _) Hb).
  destruct (Lsn_segment_offset lsn WAL_SEGMENT_SIZE =? 0).
  - destruct (lphd_roundtrip (page_header_long lsn remaining total)) as [-> Hr].
    { split_and!; try done. apply page_header_std_wf; [done|]. apply Hinfo. by right. }
    destruct s; [..|by destruct (Hs skip_until_lsn)]; do 3 eexists;
      (split; [reflexivity|]); cbv beta; rewrite Hr; split; [done|by right|done|by right].
  - destruct (phd_roundtrip (page_header_std lsn remaining total (page_header_info remaining total)))
      as [-> Hr]; [apply page_header_std_wf; [done|]; apply Hinfo; by left|].
    destruct s; [..|by destruct (Hs skip_until_lsn)]; do 3 eexists;
      (split; [reflexivity|]); rewrite Hr; split; [done|by left|done|by left].
Qed.

Lemma page_header_length lsn remaining total :
  Lsn_block_offset lsn = 0 → in_u 64 lsn →
  (0 < length (page_header lsn remaining total))%nat
  ∧ Z.of_nat (length (page_header lsn remaining total)) < XLOG_BLCKSZ.
Proof.
  intros Hb Hlsn. destruct (page_header_decode lsn remaining total WaitingForRecord [])
    as (decode & msg & info & Hd & _); [done..|]. apply due_header_Some in Hd. tauto.
Qed.

Lemma header_reaches lsn remaining total s rest :
  Lsn_block_offset lsn = 0 → expects remaining total s → Z.of_nat remaining < 2 ^ 32 → 0 ≤ lsn →
  let hdr := page_header lsn remaining total in
  lsn + Z.of_nat (length hdr) < 2 ^ 64 →
  reaches (mkWalStreamDecoder lsn v (hdr ++ rest) s) []
    (mkWalStreamDecoder (lsn + Z.of_nat (length hdr)) v rest s).
Proof.
  intros Hb Hexp Hrem Hlsn hdr Hmax.
  destruct (page_header_decode lsn remaining total s (hdr ++ rest))
    as (decode & msg & info & Hd & Hdec & Hinfo); [done|unfold in_u; lia|by intros l ->|]. fold hdr in Hd, Hdec.
  edestruct (reaches_header (mkWalStreamDecoder lsn v (hdr ++ rest) s)) as [Hre _]; [exact Hd|..].
  - simpl. rewrite length_app. lia.
  - simpl. by rewrite take_app_length.
  - by apply page_header_std_valid.
  - done.
  - unfold skip_input in Hre. simpl in Hre. by rewrite drop_app_length in Hre.
Qed.

Lemma remaining_in_block_bounds lsn : 0 < Lsn_remaining_in_block lsn ≤ XLOG_BLCKSZ.
Proof.
  unfold Lsn_remaining_in_block, XLOG_BLCKSZ. pose proof (Z.mod_pos_bound lsn 8192). lia.
Qed.

Lemma next_page lsn : Lsn_block_offset (lsn + Lsn_remaining_in_block lsn) = 0.
Proof.
  unfold Lsn_block_offset, Lsn_remaining_in_block, XLOG_BLCKSZ.
  replace (lsn + (8192 - lsn mod 8192)) with ((lsn - lsn mod 8192) + 1 * 8192) by lia.
  by rewrite Z_mod_plus_full, Zminus_mod_idemp_r, Z.sub_diag.
Qed.

(** The part of the record that is on the page. *)
Lemma chunk_reaches lsn acc (remaining rest : bytes) :
  Lsn_block_offset lsn ≠ 0 → remaining ≠ [] →
  let n := Nat.min (Z.to_nat (Lsn_remaining_in_block lsn)) (length remaining) in
  lsn + Z.of_nat n < 2 ^ 64 →
  poll_step false (mkWalStreamDecoder lsn v (take n remaining ++ rest)
                     (ReassemblingRecord acc (Z.of_nat (length remaining))))
  = if (n =? length remaining)%nat
    then at_end (mkWalStreamDecoder (lsn + Z.of_nat n) v rest
                   (ReassemblingRecord [] (Z.of_nat (length remaining)))) (acc ++ remaining)
    else (Ok None, mkWalStreamDecoder (lsn + Z.of_nat n) v rest
                     (ReassemblingRecord (acc ++ take n remaining)
                        (Z.of_nat (length (drop n remaining))))).
Proof.
  intros Hb Hne n Hmax. pose proof (remaining_in_block_bounds lsn).
  assert (Hlen : (0 < length remaining)%nat) by (destruct remaining; [done|simpl; lia]).
  rewrite poll_step_run, in_page_header by done. unfold poll_body. simpl wd_state. cbv iota.
  rewrite poll_reassemble_run by lia. cbv zeta. simpl wd_lsn. simpl wd_inputbuf.
  replace (Z.to_nat (Z.min (Z.of_nat (length remaining)) (Lsn_remaining_in_block lsn)))
    with n by (unfold n; lia).
  assert (Hln : length (take n remaining) = n) by (rewrite length_take; unfold n; lia).
  assert (Htk : take n (take n remaining ++ rest) = take n remaining) by by rewrite take_app_length'.
  assert (Hdr : drop n (take n remaining ++ rest) = rest) by by rewrite drop_app_length'.
  rewrite length_app, Hln, (proj2 (Nat.ltb_ge _ _)), (proj2 (Z.ltb_lt _ _)) by lia.
  unfold skip_input. simpl wd_inputbuf. rewrite Htk, Hdr. destruct (Nat.eqb_spec n (length remaining)) as [Heq|Hneq].
  - rewrite (proj2 (Z.eqb_eq _ _)) by lia. by rewrite take_ge by lia.
  - rewrite (proj2 (Z.eqb_neq _ _)) by lia. by rewrite length_drop, Nat2Z.inj_sub by lia.
Qed.

Context {E : Type}.

(** One turn of the loop of [insert_pages], within a page. *)
Lemma insert_pages_loop_inv fuel total remaining lsn out :
  insert_pages_loop (E := E) (S fuel) total remaining lsn = Some (Ok out) →
  Lsn_block_offset lsn ≠ 0 → remaining ≠ [] →
  let n := Nat.min (Z.to_nat (Lsn_remaining_in_block lsn)) (length remaining) in
  lsn + Z.of_nat n < 2 ^ 64
  ∧ ∃ out', insert_pages_loop (E := E) fuel total (drop n remaining) (lsn + Z.of_nat n)
            = Some (Ok out') ∧ out = take n remaining ++ out'.
Proof.
  intros Hl Hb Hne n. destruct remaining as [|x l]; [done|]. cbn [insert_pages_loop] in Hl.
  set (remaining := x :: l) in *. rewrite (proj2 (Z.eqb_neq _ _)) in Hl by done.
  unfold mbind, fueled_bind, mret, fueled_ret in Hl. fold n in Hl.
  assert (Hln : length (take n remaining) = n) by (rewrite length_take; unfold n; lia).
  rewrite Hln in Hl. unfold Lsn_add, checked_add, unwrap in Hl.
  destruct (Z.ltb_spec (lsn + Z.of_nat n) (2 ^ 64)); [|done]. split; [done|].
  destruct (insert_pages_loop fuel total (drop n remaining) (lsn + Z.of_nat n))
    as [[out'|e|]|] eqn:Hrec; [|done..]. injection Hl as <-. by exists out'.
Qed.

(** At a page boundary the loop emits the header and goes on within the page. *)
Lemma insert_pages_loop_header fuel total remaining lsn out :
  insert_pages_loop (E := E) fuel total remaining lsn = Some (Ok out) →
  Lsn_block_offset lsn = 0 → remaining ≠ [] →
  let hdr := page_header lsn (length remaining) total in
  (0 < length hdr)%nat → Z.of_nat (length hdr) < XLOG_BLCKSZ →
  lsn + Z.of_nat (length hdr) < 2 ^ 64
  ∧ ∃ out', insert_pages_loop (E := E) fuel total remaining (lsn + Z.of_nat (length hdr))
            = Some (Ok out') ∧ out = hdr ++ out'.
Proof.
  intros Hl Hb Hne hdr Hpos Hblk. destruct remaining as [|x l]; [done|].
  destruct fuel as [|fuel]; [done|]. cbn [insert_pages_loop] in *.
  set (remaining := x :: l) in *. fold hdr in Hl.
  rewrite (proj2 (Z.eqb_eq (Lsn_block_offset lsn) 0)) in Hl by done.
  rewrite (proj2 (Z.eqb_neq _ _)) by (apply after_header; [done|lia]).
  unfold mbind, fueled_bind, mret, fueled_ret in *. unfold Lsn_add at 1 in Hl.
  unfold checked_add, unwrap in Hl.
  destruct (Z.ltb_spec (lsn + Z.of_nat (length hdr)) (2 ^ 64)); [|done]. split; [done|].
  destruct (Lsn_add _ _) as [lsn2|e|]; [|done..].
  destruct (insert_pages_loop fuel total _ lsn2) as [[pages|e|]|]; [|done..].
  injection Hl as <-. eexists. split; [reflexivity|]. done.
Qed.

(** Reassembling what the loop has laid out. *)
Lemma pages_reach fuel total : ∀ remaining lsn acc out rest next,
  insert_pages_loop (E := E) fuel total remaining lsn = Some (Ok out) →
  Lsn_block_offset lsn ≠ 0 → remaining ≠ [] → (length remaining ≤ total)%nat →
  Z.of_nat total < 2 ^ 32 → 0 ≤ lsn →
  completed (lsn + Z.of_nat (length out)) (acc ++ remaining) = Ok next →
  reaches (mkWalStreamDecoder lsn v (out ++ rest)
             (ReassemblingRecord acc (Z.of_nat (length remaining))))
    [(next, acc ++ remaining)]
    (mkWalStreamDecoder (lsn + Z.of_nat (length out)) v rest (SkippingEverything next)).
Proof.
  induction fuel as [|fuel IH]; intros remaining lsn acc out rest next Hl Hb Hne Htot Hmax Hlsn Hnext.
  { by destruct remaining. }
  destruct (insert_pages_loop_inv _ _ _ _ _ Hl Hb Hne) as (Hn & out' & Hl' & ->).
  set (n := Nat.min _ _) in *. pose proof (chunk_reaches lsn acc remaining (out' ++ rest) Hb Hne Hn) as Hs.
  fold n in Hs. rewrite app_assoc in Hs.
  assert (Hln : length (take n remaining) = n) by (rewrite length_take; unfold n; lia).
  pose proof (remaining_in_block_bounds lsn).
  assert (Hlen : (0 < length remaining)%nat) by (destruct remaining; [done|simpl; lia]).
  rewrite length_app, Hln in *. destruct (Nat.eqb_spec n (length remaining)) as [Heq|Hneq].
  - rewrite drop_ge in Hl' by lia. destruct fuel; injection Hl' as <-.
    all: rewrite Nat.add_0_r, app_nil_r in *; apply reaches_record; rewrite Hs; unfold at_end;
      simpl; by rewrite Hnext.
  - set (remaining' := drop n remaining) in *. set (lsn' := lsn + Z.of_nat n) in *.
    assert (Hne' : remaining' ≠ []).
    { intros Hd%(f_equal length). unfold remaining' in Hd. rewrite length_drop in Hd. simpl in Hd. lia. }
    assert (Hlen' : (length remaining' < total)%nat) by (unfold remaining'; rewrite length_drop; lia).
    assert (Hb' : Lsn_block_offset lsn' = 0).
    { unfold lsn'. replace (Z.of_nat n) with (Lsn_remaining_in_block lsn) by (unfold n; lia).
      apply next_page. }
    change [(next, acc ++ remaining)] with ([] ++ [(next, acc ++ remaining)]).
    eapply reaches_trans; [apply reaches_step; exact Hs|].
    destruct (page_header_length lsn' (length remaining') total) as [Hpos Hblk];
      [done|unfold in_u, lsn' in *; lia|].
    destruct (insert_pages_loop_header _ _ _ _ _ Hl' Hb' Hne' Hpos Hblk) as (Hm & out2 & Hl2 & ->).
    set (hdr := page_header lsn' (length remaining') total) in *. rewrite <- app_assoc.
    change [(next, acc ++ remaining)] with ([] ++ [(next, acc ++ remaining)]).
    eapply reaches_trans.
    { apply header_reaches; [done|by simpl|lia|unfold lsn'; lia|done]. }
    fold hdr. rewrite length_app in *.
    replace (acc ++ remaining) with ((acc ++ take n remaining) ++ remaining') in *
      by (unfold remaining'; by rewrite <- app_assoc, take_drop).
    replace (lsn + Z.of_nat (n + (length hdr + length out2)))
      with (lsn' + Z.of_nat (length hdr) + Z.of_nat (length out2)) in * by (unfold lsn'; lia).
    apply IH; try (done || lia). apply after_header; [done|lia].
Qed.

(** ** Records *)

(** A record that fits its length field and is not an [XLOG_SWITCH], which the
    generator does not pad to the end of the segment. *)
Definition record_ok (r : WalRecord) : Prop :=
  in_u 8 (rec_info r) ∧ in_u 8 (rec_rmid r)
  ∧ Z.of_nat (XLOG_SIZE_OF_XLOG_RECORD + 5 + length (rec_data r)) < 2 ^ 32
  ∧ ¬ (rec_info r = XLOG_SWITCH ∧ rec_rmid r = RM_XLOG_ID).

Lemma data_header_length data : (length (data_header data) ≤ 5)%nat.
Proof.
  unfold data_header. repeat case_match; simpl; rewrite ?length_le_bytes; lia.
Qed.

Lemma Record_encode_spec r prev :
  record_ok r → in_u 64 prev →
  let R := Record_encode r prev in
  le_value (take 4 R) = Z.of_nat (length R)
  ∧ (XLOG_SIZE_OF_XLOG_RECORD ≤ length R)%nat ∧ Z.of_nat (length R) < 2 ^ 32
  ∧ ∀ lsn, completed lsn R = Ok (Lsn_align lsn).
Proof.
  intros (Hinfo & Hrmid & Hlen & Hsw) Hprev. unfold Record_encode. cbv zeta.
  set (dh := data_header (rec_data r)). pose proof (data_header_length (rec_data r)) as Hdh. fold dh in Hdh.
  set (tot := wrap 32 _).
  assert (Htot : tot = Z.of_nat XLOG_SIZE_OF_XLOG_RECORD + Z.of_nat (length dh)
                       + Z.of_nat (length (rec_data r))).
  { unfold tot. apply wrap_small. unfold in_u. lia. }
  set (hdr := λ crc, {| xl_tot_len := tot; xl_xid := 0; xl_prev := prev; xl_info := rec_info r;
                        xl_rmid := rec_rmid r; xl_crc := crc |}).
  set (crc := crc32c_append (crc32c_append (crc32c_append 0 dh) (rec_data r)) _).
  assert (Hwf : xlr_wf (hdr crc)).
  { split_and!; simpl; try done; [rewrite Htot; unfold in_u; lia|apply crc32c_u32]. }
  destruct (xlr_roundtrip (hdr crc) Hwf) as (Hl & Hdec & Htl). fold (hdr crc).
  pose proof xlr_size as Hsz. unfold XLOG_RECORD_CRC_OFFS in Hsz.
  rewrite !length_app, Hl. split_and!.
  - rewrite take_app_le by lia. rewrite Htl. simpl. rewrite Htot. lia.
  - lia.
  - lia.
  - intros lsn. unfold completed. rewrite !length_app, Hl.
    rewrite (proj2 (Nat.leb_le _ _)) by lia.
    rewrite <- Hl at 1. rewrite take_app_length, Hdec.
    rewrite <- xlr_size, <- Hl, drop_app_length. rewrite take_app_le by (rewrite Hl; unfold XLOG_RECORD_CRC_OFFS; lia).
    rewrite crc32c_app, (xlr_before_crc (hdr crc) (hdr 0)) by done.
    change (xl_crc (hdr crc)) with crc. unfold crc at 1. rewrite Z.eqb_refl. cbn [negb].
    replace (is_xlog_switch_record (hdr crc)) with false; [done|]. symmetry.
    unfold is_xlog_switch_record. apply andb_false_iff. simpl.
    destruct (Z.eqb_spec (rec_info r) XLOG_SWITCH); [right|by left].
    apply Z.eqb_neq. tauto.
Qed.

Lemma page_free_aligned lsn : lsn mod 8 = 0 → 8 ≤ Lsn_remaining_in_block lsn.
Proof.
  unfold Lsn_remaining_in_block, XLOG_BLCKSZ. intros Hm.
  apply Z.mod_divide in Hm as [k ->]; [|done].
  change 8192 with (1024 * 8) at 2. rewrite Z.mul_mod_distr_r by done.
  pose proof (Z.mod_pos_bound k 1024). lia.
Qed.

Lemma page_header_aligned lsn remaining total :
  in_u 64 lsn → Z.of_nat (length (page_header lsn remaining total)) mod 8 = 0.
Proof.
  intros Hlsn. destruct phd_sizes_aligned as [Hs Hl]. unfold page_header.
  assert (Hinfo := page_header_info_ok remaining total).
  destruct (_ =? 0).
  - destruct (lphd_roundtrip (page_header_long lsn remaining total)) as [-> _]; [|done].
    split_and!; try done. apply page_header_std_wf; [done|]. apply Hinfo. by right.
  - edestruct (phd_roundtrip (page_header_std lsn remaining total
      (page_header_info remaining total))) as [-> _]; [|done].
    apply page_header_std_wf; [done|]. apply Hinfo. by left.
Qed.

(** Within a page, the first four bytes are the length. *)
Lemma waiting_reaches fuel total R lsn out rest :
  insert_pages_loop (E := E) fuel total R lsn = Some (Ok out) →
  Lsn_block_offset lsn ≠ 0 → lsn mod 8 = 0 →
  le_value (take 4 R) = Z.of_nat (length R) → (XLOG_SIZE_OF_XLOG_RECORD ≤ length R)%nat →
  reaches (mkWalStreamDecoder lsn v (out ++ rest) WaitingForRecord) []
    (mkWalStreamDecoder lsn v (out ++ rest) (ReassemblingRecord [] (Z.of_nat (length R)))).
Proof.
  intros Hl Hb Hal Htl Hsz. pose proof xlr_size as Hsize. unfold XLOG_RECORD_CRC_OFFS in Hsize.
  assert (HR : R ≠ []) by (intros ->; simpl in Hsz; lia).
  destruct fuel as [|fuel]; [by destruct R|].
  destruct (insert_pages_loop_inv _ _ _ _ _ Hl Hb HR) as (_ & out' & _ & ->).
  pose proof (page_free_aligned lsn Hal). set (n := Nat.min _ _).
  assert (Hn : (4 ≤ n)%nat) by (unfold n; lia).
  assert (Htk : take 4 ((take n R ++ out') ++ rest) = take 4 R).
  { rewrite <- app_assoc, take_app_le by (rewrite length_take; lia).
    rewrite take_take. by replace (Nat.min 4 n) with 4%nat by lia. }
  apply reaches_step. rewrite poll_step_run, in_page_header by done. unfold poll_body. simpl wd_state.
  cbv iota. rewrite poll_waiting_run. cbv zeta. simpl wd_inputbuf. rewrite Htk, Htl.
  rewrite (proj2 (Nat.ltb_ge _ _)) by (rewrite !length_app, length_take; lia).
  rewrite (proj2 (Z.ltb_ge _ _)) by lia. done.
Qed.

Lemma insert_pages_as_loop R lsn out :
  insert_pages (E := E) R lsn = Some (Ok out) → R ≠ [] → lsn + Z.of_nat (length out) < 2 ^ 64 →
  insert_pages_loop (E := E) (length R) (length R) R lsn = Some (Ok out).
Proof.
  unfold insert_pages. destruct (_ && _) eqn:Hf; [|done].
  apply andb_true_iff in Hf as [Hr%Z.leb_le Hb%Z.ltb_lt]. intros [= <-] Hne Hmax.
  destruct R as [|x l]; [done|]. set (R := x :: l) in *. change (length R) with (S (length l)) at 1.
  cbn [insert_pages_loop]. fold R. rewrite (proj2 (Z.eqb_neq _ _)) by lia.
  replace (Nat.min (Z.to_nat (Lsn_remaining_in_block lsn)) (length R)) with (length R) by lia.
  unfold mbind, fueled_bind, mret, fueled_ret. rewrite take_ge, drop_ge by lia.
  unfold Lsn_add, checked_add, unwrap. rewrite (proj2 (Z.ltb_lt _ _)) by lia.
  destruct (length l); simpl; by rewrite app_nil_r.
Qed.

(** A record, from its first byte to its last. *)
Lemma record_reaches R lsn out rest next :
  insert_pages (E := E) R lsn = Some (Ok out) → lsn mod 8 = 0 → 0 ≤ lsn →
  le_value (take 4 R) = Z.of_nat (length R) → (XLOG_SIZE_OF_XLOG_RECORD ≤ length R)%nat →
  Z.of_nat (length R) < 2 ^ 32 → lsn + Z.of_nat (length out) < 2 ^ 64 →
  completed (lsn + Z.of_nat (length out)) R = Ok next →
  reaches (mkWalStreamDecoder lsn v (out ++ rest) WaitingForRecord) [(next, R)]
    (mkWalStreamDecoder (lsn + Z.of_nat (length out)) v rest (SkippingEverything next)).
Proof.
  intros Hins Hal Hlsn Htl Hsz Hmax Hend Hnext.
  pose proof xlr_size as Hsize. unfold XLOG_RECORD_CRC_OFFS in Hsize.
  assert (HR : R ≠ []) by (intros ->; simpl in Hsz; lia).
  pose proof (insert_pages_as_loop _ _ _ Hins HR Hend) as Hl. clear Hins.
  change [(next, R)] with ([] ++ [(next, R)]).
  destruct (decide (Lsn_block_offset lsn = 0)) as [Hb|Hb].
  - destruct (page_header_length lsn (length R) (length R)) as [Hpos Hblk];
      [done|unfold in_u; lia|].
    destruct (insert_pages_loop_header _ _ _ _ _ Hl Hb HR Hpos Hblk) as (Hm & out' & Hl' & ->).
    pose proof (page_header_aligned lsn (length R) (length R)) as Hal'.
    set (hdr := page_header lsn (length R) (length R)) in *. rewrite <- app_assoc, length_app in *.
    replace (lsn + Z.of_nat (length hdr + length out'))
      with (lsn + Z.of_nat (length hdr) + Z.of_nat (length out')) in * by lia.
    assert (Hb' : Lsn_block_offset (lsn + Z.of_nat (length hdr)) ≠ 0) by (apply after_header; [done|lia]).
    eapply reaches_trans; [by apply header_reaches|]. fold hdr.
    change [(next, R)] with ([] ++ [(next, R)]).
    eapply reaches_trans; [eapply waiting_reaches; try done|].
    + rewrite Z.add_mod, Hal, Hal' by (done || unfold in_u; lia). done.
    + apply (pages_reach (length R) (length R) R _ [] out' rest next); (done || lia).
  - eapply reaches_trans; [by eapply waiting_reaches|].
    apply (pages_reach (length R) (length R) R _ [] out rest next); (done || lia).
Qed.

Lemma skip_reaches lsn rest pad :
  lsn + Z.of_nat (length pad) < 2 ^ 64 →
  reaches (mkWalStreamDecoder lsn v (pad ++ rest)
             (SkippingEverything (lsn + Z.of_nat (length pad)))) []
    (mkWalStreamDecoder (lsn + Z.of_nat (length pad)) v rest WaitingForRecord).
Proof.
  intros Hmax. apply reaches_step. rewrite poll_step_run, in_page_header by done.
  unfold poll_body. simpl wd_state. cbv iota. rewrite poll_skip_run. cbv zeta. simpl wd_lsn.
  simpl wd_inputbuf. rewrite (proj2 (Z.ltb_ge _ _)) by lia.
  replace (Z.to_nat (lsn + Z.of_nat (length pad) - lsn)) with (length pad) by lia.
  rewrite (proj2 (Nat.ltb_ge _ _)) by (rewrite length_app; lia).
  rewrite (proj2 (Z.ltb_lt _ _)) by lia. unfold skip_input. simpl. by rewrite drop_app_length.
Qed.

Lemma align_padding x :
  0 ≤ x → x + Lsn_calc_padding x 8 < 2 ^ 64 →
  Lsn_align x = x + Lsn_calc_padding x 8 ∧ 0 ≤ Lsn_calc_padding x 8 ∧ Lsn_align x mod 8 = 0.
Proof.
  intros Hx Hmax. pose proof (Z.mod_pos_bound (wrapping_sub 64 8 x) 8 ltac:(lia)) as Hb.
  fold (Lsn_calc_padding x 8) in Hb. assert (Hu : in_u 64 x) by (unfold in_u; lia). revert Hmax Hb.
  rewrite Lsn_calc_padding_eq by (first [done|left; by exists (2 ^ 61)]).
  intros Hmax Hb. pose proof (Z.div_mod (- x) 8 ltac:(lia)) as Hd.
  assert (Hle : x ≤ 2 ^ 64 - 8) by lia.
  rewrite Lsn_align_eq by lia.
  pose proof (Z.div_mod (x + 7) 8 ltac:(lia)). pose proof (Z.mod_pos_bound (x + 7) 8 ltac:(lia)).
  split_and!; [lia|lia|apply Z_mod_mult].
Qed.

Definition wg_ok (g : WalGenerator) : Prop :=
  wg_lsn g mod 8 = 0 ∧ in_u 64 (wg_lsn g) ∧ in_u 64 (wg_prev_lsn g).

Lemma append_record_inv g r lsn buf g' :
  append_record (E := E) g r = Some (Ok (lsn, buf, g')) →
  ∃ out, insert_pages (E := E) (Record_encode r (wg_prev_lsn g)) (wg_lsn g) = Some (Ok out)
  ∧ wg_lsn g + Z.of_nat (length out) < 2 ^ 64
  ∧ buf = out ++ replicate (Z.to_nat (Lsn_calc_padding (wg_lsn g + Z.of_nat (length out)) 8)) x00
  ∧ wg_lsn g + Z.of_nat (length buf) < 2 ^ 64
  ∧ lsn = wg_lsn g
  ∧ g' = {| wg_lsn := wg_lsn g + Z.of_nat (length buf); wg_prev_lsn := wg_lsn g |}.
Proof.
  unfold append_record, pad_record, mbind, fueled_bind, mret, fueled_ret.
  destruct (insert_pages _ _) as [[out| |]|]; [|done..]. unfold Lsn_add, checked_add, unwrap.
  destruct (Z.ltb_spec (wg_lsn g + Z.of_nat (length out)) (2 ^ 64)); [|done].
  set (buf' := out ++ _). destruct (Z.ltb_spec (wg_lsn g + Z.of_nat (length buf')) (2 ^ 64)); [|done].
  intros [= <- <- <-]. by exists out.
Qed.

Lemma append_record_reaches g r lsn buf g' rest :
  append_record (E := E) g r = Some (Ok (lsn, buf, g')) → record_ok r → wg_ok g →
  wg_ok g' ∧ wg_lsn g' = wg_lsn g + Z.of_nat (length buf) ∧ wg_prev_lsn g' = wg_lsn g
  ∧ reaches (mkWalStreamDecoder (wg_lsn g) v (buf ++ rest) WaitingForRecord)
      [(wg_lsn g', Record_encode r (wg_prev_lsn g))]
      (mkWalStreamDecoder (wg_lsn g') v rest WaitingForRecord).
Proof.
  intros (out & Hins & Hout & Hbuf & Hmax & -> & ->)%append_record_inv Hr (Hal & Hlsn & Hprev).
  destruct (Record_encode_spec r (wg_prev_lsn g) Hr Hprev) as (Htl & Hsz & Hlen & Hc).
  unfold in_u in Hlsn. set (x := wg_lsn g + Z.of_nat (length out)) in *. simpl.
  assert (Hx : x = wg_lsn g + Z.of_nat (length out)) by done.
  set (pad := replicate _ _) in Hbuf.
  assert (Hp : length pad = Z.to_nat (Lsn_calc_padding x 8)) by apply length_replicate.
  pose proof (Z.mod_pos_bound (wrapping_sub 64 8 x) 8 ltac:(lia)) as Hb.
  fold (Lsn_calc_padding x 8) in Hb.
  assert (Hlb : Z.of_nat (length buf) = Z.of_nat (length out) + Lsn_calc_padding x 8).
  { rewrite Hbuf, length_app, Hp. lia. }
  destruct (align_padding x) as (Ha & _ & Hm); [lia..|].
  assert (Hnext : wg_lsn g + Z.of_nat (length buf) = Lsn_align x) by lia.
  split; [|split_and!; [done..|]].
  { rewrite Hnext. split_and!; simpl; [done| |done]. rewrite <- Hnext. unfold in_u. lia. }
  rewrite Hnext, Hbuf, <- app_assoc.
  rewrite <- (app_nil_r [_]). eapply reaches_trans.
  - apply record_reaches; (done || apply Hc || lia).
  - fold x. rewrite Ha. replace (Lsn_calc_padding x 8) with (Z.of_nat (length pad)) by lia.
    apply skip_reaches. lia.
Qed.

(** ** Totality *)

Lemma page_header_bound lsn remaining total :
  in_u 64 lsn → Z.of_nat (length (page_header lsn remaining total)) < XLOG_BLCKSZ.
Proof.
  intros Hlsn. destruct short_phd_size, long_phd_size. unfold page_header.
  assert (Hinfo := page_header_info_ok remaining total).
  destruct (_ =? 0).
  - destruct (lphd_roundtrip (page_header_long lsn remaining total)) as [-> _]; [|done].
    split_and!; try done. apply page_header_std_wf; [done|]. apply Hinfo. by right.
  - edestruct (phd_roundtrip (page_header_std lsn remaining total
      (page_header_info remaining total))) as [-> _]; [|done].
    apply page_header_std_wf; [done|]. apply Hinfo. by left.
Qed.

(** Every turn takes a byte of the record and adds less than a page. *)
Lemma insert_pages_loop_total fuel total : ∀ remaining lsn,
  (length remaining ≤ fuel)%nat → 0 ≤ lsn →
  lsn + XLOG_BLCKSZ * Z.of_nat (length remaining) < 2 ^ 64 →
  ∃ out, insert_pages_loop (E := E) fuel total remaining lsn = Some (Ok out)
    ∧ Z.of_nat (length out) ≤ XLOG_BLCKSZ * Z.of_nat (length remaining).
Proof.
  induction fuel as [|fuel IH]; intros remaining lsn Hfuel Hlsn Hmax.
  { destruct remaining; [|simpl in Hfuel; lia]. by exists []. }
  destruct remaining as [|x l]; [by exists []|]. set (remaining := x :: l) in *.
  assert (Hlen : (0 < length remaining)%nat) by (simpl; lia).
  cbn [insert_pages_loop]. fold remaining. set (hdr := if _ =? 0 then _ else []).
  assert (Hhdr : Z.of_nat (length hdr) < XLOG_BLCKSZ).
  { unfold hdr. destruct (_ =? 0); [|done]. apply page_header_bound. unfold in_u, XLOG_BLCKSZ in *. lia. }
  set (lsn1 := lsn + Z.of_nat (length hdr)).
  replace (if Lsn_block_offset lsn =? 0 then Lsn_add lsn (Z.of_nat (length hdr)) else Ok lsn)
    with (Ok lsn1 : outcome E Lsn).
  2:{ unfold lsn1, Lsn_add, checked_add, unwrap. unfold hdr in *. destruct (_ =? 0).
      - rewrite (proj2 (Z.ltb_lt _ _)); [done|]. unfold XLOG_BLCKSZ in *. lia.
      - simpl. by rewrite Z.add_0_r. }
  unfold mbind, fueled_bind, mret, fueled_ret.
  pose proof (remaining_in_block_bounds lsn1). set (n := Nat.min _ _).
  assert (Hn : (0 < n ≤ length remaining)%nat) by (unfold n; lia).
  rewrite length_take. replace (Nat.min n (length remaining)) with n by lia.
  unfold Lsn_add, checked_add, unwrap.
  rewrite (proj2 (Z.ltb_lt (lsn1 + Z.of_nat n) (2 ^ 64))) by (unfold lsn1, XLOG_BLCKSZ in *; lia).
  destruct (IH (drop n remaining) (lsn1 + Z.of_nat n)) as (out & -> & Hout);
    rewrite ?length_drop; [unfold lsn1, XLOG_BLCKSZ in *; lia..|].
  eexists. split; [done|]. rewrite length_drop in Hout.
  rewrite !length_app, length_take. unfold XLOG_BLCKSZ in *. lia.
Qed.

(** What a record may take: a page for every byte, and a page for the padding. *)
Definition record_room (r : WalRecord) : Z :=
  XLOG_BLCKSZ * Z.of_nat (XLOG_SIZE_OF_XLOG_RECORD + 6 + length (rec_data r)).

Lemma Record_encode_length r prev :
  record_ok r → in_u 64 prev →
  (length (Record_encode r prev) ≤ XLOG_SIZE_OF_XLOG_RECORD + 5 + length (rec_data r))%nat.
Proof.
  intros (Hinfo & Hrmid & Hlen & _) Hprev. unfold Record_encode. cbv zeta.
  pose proof (data_header_length (rec_data r)).
  edestruct xlr_roundtrip as (Hl & _); [|rewrite !length_app, Hl; lia].
  split_and!; simpl; try done; [by apply wrap_in_u|apply crc32c_u32].
Qed.

Lemma append_record_total g r :
  record_ok r → wg_ok g → wg_lsn g + record_room r < 2 ^ 64 →
  ∃ buf g', append_record (E := E) g r = Some (Ok (wg_lsn g, buf, g'))
    ∧ Z.of_nat (length buf) ≤ record_room r.
Proof.
  intros Hr (Hal & Hlsn & Hprev) Hmax. pose proof (Record_encode_length r _ Hr Hprev) as Hlen.
  unfold in_u in Hlsn. unfold append_record, pad_record, mbind, fueled_bind, mret, fueled_ret.
  set (R := Record_encode r (wg_prev_lsn g)) in *.
  assert (∃ out, insert_pages (E := E) R (wg_lsn g) = Some (Ok out)
    ∧ Z.of_nat (length out) ≤ XLOG_BLCKSZ * Z.of_nat (length R)) as (out & -> & Hout).
  { unfold insert_pages. destruct (_ && _); [exists R; unfold XLOG_BLCKSZ; split; [done|lia]|].
    apply insert_pages_loop_total; unfold record_room, XLOG_BLCKSZ in *; lia. }
  unfold record_room, XLOG_BLCKSZ, Lsn_add, checked_add, unwrap in *.
  rewrite (proj2 (Z.ltb_lt _ _)) by lia.
  set (x := wg_lsn g + Z.of_nat (length out)).
  pose proof (Z.mod_pos_bound (wrapping_sub 64 8 x) 8 ltac:(lia)) as Hb.
  fold (Lsn_calc_padding x 8) in Hb.
  set (buf := out ++ _).
  assert (Hbuf : Z.of_nat (length buf) = Z.of_nat (length out) + Lsn_calc_padding x 8).
  { unfold buf. rewrite length_app, length_replicate. lia. }
  rewrite (proj2 (Z.ltb_lt _ _)) by lia. eexists _, _. split; [done|lia].
Qed.

Fixpoint records_room (records : list WalRecord) : Z :=
  match records with [] => 0 | r :: rs => record_room r + records_room rs end.

(** What the decoder gives: every record as it was encoded, with the position
    after its padding. *)
Fixpoint expected (prev : Lsn) (records : list WalRecord) (out : list (Lsn * bytes)) :
    list (Lsn * bytes) :=
  match records, out with
  | r :: records', (lsn, buf) :: out' =>
    (lsn + Z.of_nat (length buf), Record_encode r prev) :: expected lsn records' out'
  | _, _ => []
  end.

Lemma generate_reaches records : ∀ g,
  Forall record_ok records → wg_ok g → wg_lsn g + records_room records < 2 ^ 64 →
  ∃ out g', generate (E := E) g records = Some (Ok (out, g')) ∧ wg_ok g'
    ∧ length out = length records
    ∧ wg_lsn g' = wg_lsn g + Z.of_nat (length (concat out.*2))
    ∧ ∀ rest, reaches (mkWalStreamDecoder (wg_lsn g) v (concat out.*2 ++ rest) WaitingForRecord)
                (expected (wg_prev_lsn g) records out)
                (mkWalStreamDecoder (wg_lsn g') v rest WaitingForRecord).
Proof.
  induction records as [|r records IH]; intros g Hall Hg Hmax.
  { exists [], g. simpl. split_and!; try done; [lia|]. intros rest. by exists 0%nat; intros; destruct run. }
  inversion_clear Hall as [|? ? Hr Hrs]. simpl in Hmax.
  assert (Hroom : 0 ≤ records_room records).
  { clear. induction records; simpl; [done|]. unfold record_room, XLOG_BLCKSZ. lia. }
  destruct (append_record_total g r Hr Hg ltac:(lia)) as (buf & g1 & Ha & Hbuf).
  destruct (append_record_reaches g r _ buf g1 [] Ha Hr Hg) as (Hg1 & Hl1 & Hp1 & _).
  destruct (IH g1 Hrs Hg1 ltac:(lia)) as (out & g' & Hgen & Hg' & Hlen & Hl' & Hre).
  exists ((wg_lsn g, buf) :: out), g'. cbn [generate]. rewrite Ha. unfold mbind, fueled_bind in *.
  rewrite Hgen, fmap_cons. cbn [concat snd]. rewrite length_app.
  split; [done|]. split; [done|]. split; [simpl; lia|]. split; [lia|].
  intros rest. cbn [expected]. rewrite <- app_assoc, <- Hl1.
  specialize (Hre rest). rewrite Hp1 in Hre.
  refine (reaches_trans _ [_] _ _ _ _ Hre). by eapply append_record_reaches.
Qed.

Lemma waiting_more lsn fuel :
  0 ≤ lsn →
  run false (S fuel) (mkWalStreamDecoder lsn v [] WaitingForRecord)
  = ([], More (mkWalStreamDecoder lsn v [] WaitingForRecord)).
Proof.
  intros Hlsn. set (d := mkWalStreamDecoder lsn v [] WaitingForRecord).
  rewrite run_S, poll_step_run, poll_page_header_due.
  destruct (due_header d) as [[[size decode] msg]|] eqn:Hd; [|done].
  destruct (due_header_Some d size decode msg Hd) as [Hs _].
  rewrite read_page_header_run, (proj2 (Nat.ltb_lt _ _)) by done. done.
Qed.

(** C35: generated WAL, however it is cut into pieces, decodes to the records
    it was generated from, each with the position of its successor, and leaves
    the decoder waiting at the position of the generator.  Generation starts at an
    aligned position, the records fit their length fields, none of them is an
    [XLOG_SWITCH] ([record_ok]; the generator does not fill the segment behind one, and
    the decoder would skip what follows: [switch_record_swallows_next]), and the WAL
    ends before the 64-bit positions do, counted with a page for every byte of a record
    ([record_room]). *)
Theorem generate_decode (start : Lsn) (records : list WalRecord)
    (Hv : 14 ≤ v ≤ 17) (Hstart : 0 ≤ start ∧ start mod 8 = 0)
    (Hrecords : Forall record_ok records) (Hroom : start + records_room records < 2 ^ 64) :
  ∃ out g', generate (E := E) (WalGenerator_new start) records = Some (Ok (out, g'))
    ∧ length out = length records
    ∧ ∀ chunk chunks, concat (chunk :: chunks) = concat out.*2 →
        decode_chunks (WalStreamDecoder_new start v) (chunk :: chunks)
        = (expected start records out,
           More (mkWalStreamDecoder (wg_lsn g') v [] WaitingForRecord)).
Proof.
  assert (Hu : in_u 64 start).
  { assert (0 ≤ records_room records); [|unfold in_u; lia].
    clear. induction records; simpl; [done|]. unfold record_room, XLOG_BLCKSZ. lia. }
  destruct (generate_reaches records (WalGenerator_new start)) as
    (out & g' & Hgen & (_ & Hg' & _) & Hlen & _ & Hre); [done|split_and!; simpl; tauto|done|].
  exists out, g'. split; [done|]. split; [done|]. intros chunk chunks Hcat.
  rewrite decode_chunks_any, Hcat by done. specialize (Hre []) as [k Hk]. specialize (Hk 1%nat).
  rewrite waiting_more in Hk by apply Hg'. simpl in Hk. rewrite !app_nil_r in Hk.
  eapply slow_decode_available; [done..|exact Hk|done].
Qed.

(** The size that [make_value_size] gives is the one that makes the encoded
    record [record_size] bytes long. *)
Theorem make_value_size_exact (record_size size prev : Z) (prefix message : bytes)
    (Hsize : make_value_size (E := E) record_size prefix = Ok size)
    (Hmessage : Z.of_nat (length message) = size)
    (Hrecord : 0 ≤ record_size < 2 ^ 32) (Hprev : in_u 64 prev) :
  Z.of_nat (length (Record_encode (logical_message prefix message) prev)) = record_size.
Proof.
  revert Hsize. unfold make_value_size, mbind, outcome_bind, checked_sub, unwrap.
  pose proof xlr_size as Hsz. unfold XLOG_RECORD_CRC_OFFS in Hsz.
  rewrite length_app. simpl length. set (p := length prefix).
  assert (Hdata : length (LogicalMessageGenerator_encode prefix message)
                  = (25 + p + length message)%nat).
  { unfold LogicalMessageGenerator_encode, XlLogicalMessage_encode.
    rewrite !length_app, !length_le_bytes. simpl. unfold p. lia. }
  assert (Henc : length (Record_encode (logical_message prefix message) prev)
    = (XLOG_SIZE_OF_XLOG_RECORD
       + (length (data_header (LogicalMessageGenerator_encode prefix message))
          + (25 + p + length message)))%nat).
  { unfold Record_encode. cbv zeta. rewrite !length_app. simpl rec_data. rewrite Hdata.
    edestruct xlr_roundtrip as (Hl & _); [|by rewrite Hl].
    split_and!; simpl; try done; [by apply wrap_in_u|apply crc32c_u32]. }
  rewrite Henc. unfold data_header. rewrite Hdata.
  rewrite (proj2 (Z.eqb_neq _ _)) by lia.
  assert (Hpay : wrapping_sub 64 (wrapping_sub 64 record_size (Z.of_nat XLOG_SIZE_OF_XLOG_RECORD)) 2
                 = (record_size - Z.of_nat XLOG_SIZE_OF_XLOG_RECORD - 2) mod 2 ^ 64).
  { unfold wrapping_sub, wrap. by rewrite Zminus_mod_idemp_l. }
  rewrite Hpay.
  destruct (decide (Z.of_nat XLOG_SIZE_OF_XLOG_RECORD + 2 ≤ record_size)) as [Hge|Hlt].
  - rewrite Z.mod_small by lia. repeat case_match; intros; simplify_eq;
      repeat match goal with
      | Hb : (_ <=? _) = true |- _ => apply Z.leb_le in Hb
      | Hb : (_ <=? _) = false |- _ => apply Z.leb_gt in Hb
      end; simpl; rewrite ?length_le_bytes; lia.
  - replace (_ mod 2 ^ 64)
      with (record_size - Z.of_nat XLOG_SIZE_OF_XLOG_RECORD - 2 + 2 ^ 64).
    2:{ rewrite <- (Z_mod_plus_full _ 1), Z.mod_small; lia. }
    repeat case_match; intros; simplify_eq;
      repeat match goal with
      | Hb : (_ <=? _) = true |- _ => apply Z.leb_le in Hb
      | Hb : (_ <=? _) = false |- _ => apply Z.leb_gt in Hb
      end; lia.
Qed.
End roundtrip.

(** A page magic and a checksum to run the definitions with. *)
Definition test_format : PgFormat := pg_layout 0xD116 (λ c b, Z.lxor (c * 31) (byte_val b)).

Definition test_message (n : nat) : WalRecord := logical_message [x61; x62] (replicate n x63).

(** Three records from 16 bytes before the end of a page: the first and the
    last are split. *)
Lemma generate_decode_witness :
  let H := test_format in
  let records := [test_message 3; test_message 300; test_message 9000] in
  (Forall record_ok records ∧ 8176 + records_room records < 2 ^ 64)
  ∧ ∃ out g', generate (E := string) (WalGenerator_new 8176) records = Some (Ok (out, g'))
    ∧ length out = 3%nat
    ∧ ∀ chunk chunks, concat (chunk :: chunks) = concat out.*2 →
        decode_chunks (WalStreamDecoder_new 8176 16) (chunk :: chunks)
        = (expected 8176 records out,
           More (mkWalStreamDecoder (wg_lsn g') 16 [] WaitingForRecord)).
Proof.
  cbv zeta.
  assert (Hr : Forall (@record_ok test_format)
    [test_message 3; test_message 300; test_message 9000]).
  { repeat constructor; vm_compute; intuition congruence. }
  split; [split; [exact Hr|by vm_compute]|].
  apply (@generate_decode test_format (pg_layout_laws _ _) 16); [done|done|exact Hr|by vm_compute].
Defined.

(** Behind an [XLOG_SWITCH] record the generator appends the next record at once; the
    decoder skips to the end of the segment, and that record with it. *)
Definition switch_record : WalRecord :=
  {| rec_rmid := RM_XLOG_ID; rec_info := XLOG_SWITCH; rec_data := [] |}.

Example switch_record_swallows_next :
  match @generate test_format string (WalGenerator_new 8176) [switch_record; test_message 3] with
  | Some (Ok (out, _)) =>
      length out = 2%nat
      ∧ match @decode_chunks test_format (WalStreamDecoder_new 8176 16) [concat out.*2] with
        | (records, More d) =>
            records.*1 = [WAL_SEGMENT_SIZE] ∧ wd_state d = SkippingEverything WAL_SEGMENT_SIZE
        | _ => False
        end
  | _ => False
  end.
Proof. vm_compute. done. Qed.

Lemma make_value_size_exact_witness :
  let H := test_format in
  make_value_size (E := string) 400 [x61; x62] = Ok 344
  ∧ Z.of_nat (length (Record_encode (test_message 344) 8)) = 400.
Proof.
  cbv zeta. split; [by vm_compute|].
  apply (@make_value_size_exact test_format (pg_layout_laws _ _) string 400 344 8 [x61; x62]);
    by vm_compute.
Defined.

(** The stream of one record, in one piece. *)
Definition test_stream : bytes :=
  match @generate test_format string (WalGenerator_new 8176) [test_message 3] with
  | Some (Ok (out, _)) => concat out.*2
  | _ => []
  end.

Definition test_decoder : WalStreamDecoder := WalStreamDecoder_new 8176 16.

Lemma decode_fast_path_witness :
  let H := test_format in
  let d := feed_bytes test_decoder test_stream in
  (decoder_wf d ∧ supported d)
  ∧ (decode_available d).2 ≠ Running
  ∧ decode_available d = run false (2 * S (poll_measure d)) d.
Proof.
  cbv zeta. split; [by vm_compute|].
  by apply (@decode_fast_path test_format (@pg_format_sizes _ (pg_layout_laws _ _))).
Defined.

Lemma decode_chunks_concat_witness :
  let H := test_format in
  (decoder_wf test_decoder ∧ supported test_decoder)
  ∧ (decode_chunks test_decoder [take 2 test_stream; take 30 (drop 2 test_stream);
       drop 32 test_stream]).1 ≠ []
  ∧ decode_chunks test_decoder [take 2 test_stream; take 30 (drop 2 test_stream);
      drop 32 test_stream]
    = decode_available (feed_bytes test_decoder
        (concat [take 2 test_stream; take 30 (drop 2 test_stream); drop 32 test_stream])).
Proof.
  cbv zeta. split; [by vm_compute|]. split; [by vm_compute|].
  by apply (@decode_chunks_concat test_format (@pg_format_sizes _ (pg_layout_laws _ _))).
Defined.
