(* ===== verification/WalStorage.v ===== *)
(** * The WAL storage interface

    [safekeeper/src/wal_storage.rs], trait [Storage]: what a safekeeper asks of
    the storage of its WAL.  The laws are what the consensus code relies on;
    the file [PhysicalStorageLaws] discharges them for the storage on disk.
    [remove_up_to] (run outside the timeline lock), [close] and [get_metrics]
    are not called by the consensus code. *)

From S2P Require Import Prelude Bytes Lsn.

Class WalStorage (W : Type) := {
  wal_write_lsn : W → Lsn;
  wal_flush_lsn : W → Lsn;
  wal_initialize_first_segment : Lsn → ST W string unit;
  wal_write_wal : Lsn → bytes → ST W string unit;
  wal_truncate_wal : Lsn → ST W string unit;
  wal_flush_wal : ST W string unit;
}.

Definition lsn_room (startpos : Lsn) (buf : bytes) : Prop :=
  0 ≤ startpos ∧ startpos + Z.of_nat (length buf) ≤ 2 ^ 64 - 8.

(** [wal_inv] is the representation invariant of the storage; the operations
    keep it whatever their outcome. *)
Class WalStorageLaws (W : Type) `{WalStorage W} := {
  wal_inv : W → Prop;

  (** Initialising the first segment moves no LSN. *)
  wal_initialize_spec w init_lsn :
    wal_inv w →
    wp (wal_initialize_first_segment init_lsn) (λ _ w',
      wal_inv w' ∧ wal_write_lsn w' = wal_write_lsn w ∧ wal_flush_lsn w' = wal_flush_lsn w) w;

  (** A write at or after the end of the WAL never loses flushed WAL, and writes
      the whole buffer if it succeeds.  The LSN after the write can still be
      aligned to 8 bytes. *)
  wal_write_spec w startpos buf :
    wal_inv w → lsn_room startpos buf → wal_write_lsn w ≤ startpos →
    wp (wal_write_wal startpos buf) (λ r w',
      wal_inv w' ∧ wal_flush_lsn w ≤ wal_flush_lsn w'
      ∧ (r = Ok tt → wal_write_lsn w' = startpos + Z.of_nat (length buf))) w;

  (** A truncation ends at [end_pos], a valid LSN; one that fails leaves the end of the WAL
      where it was or at [end_pos]. *)
  wal_truncate_spec w end_pos :
    wal_inv w → 0 < end_pos < 2 ^ 64 →
    wp (wal_truncate_wal end_pos) (λ r w',
      wal_inv w'
      ∧ (wal_flush_lsn w' = end_pos ∨ wal_flush_lsn w' = wal_flush_lsn w)
      ∧ (r = Ok tt → wal_flush_lsn w' = end_pos ∧ wal_write_lsn w' = end_pos)) w;

  (** A flush moves the flush position forward only. *)
  wal_flush_spec w :
    wal_inv w →
    wp wal_flush_wal (λ _ w',
      wal_inv w' ∧ wal_write_lsn w' = wal_write_lsn w
      ∧ wal_flush_lsn w ≤ wal_flush_lsn w') w;
}.
