(* ===== verification/Disk.v ===== *)
(** * The directory of a timeline

    The part of [tokio::fs] that the storage of a safekeeper uses, on one
    directory: names, files with their contents, and the order in which changes
    become durable.  Data reaches the disk when the file is synced, names when
    the directory is; until then a crash may leave any mix of the versions of a
    file since its last sync, and any version of the directory since its last
    sync (renames are atomic, and the changes of a directory are journalled in
    order).

    Every operation may fail, before or after it took effect: the list of
    faults says what happens to each operation, and an exhausted list means
    that nothing fails any more.  A sync that succeeds covers everything before
    it, also after one that failed.

    [durable_rename] is [libs/utils/src/crashsafe.rs]. *)

From S2P Require Import Prelude Bytes Text.

(** [io::ErrorKind], as far as the code looks at it. *)
Inductive IoError := NotFound | OtherIoError.

Definition io_error (e : IoError) : string :=
  match e with NotFound => "not found" | OtherIoError => "I/O error" end.

(** The content of a file and the contents it had since the last sync. *)
Record Inode := mkInode { i_data : bytes; i_old : list bytes }.
#[export] Instance Inode_settable : Settable Inode := λ i, mkInode (i_data i) (i_old i).

(** [d_faults]: [None] lets an operation succeed; [Some 0] fails it without an
    effect and [Some (S n)] after it took effect ([n + 1] bytes of it for a
    write).  Removals have a list of their own, [d_remove_faults], and openings
    another one, [d_open_faults], where [true] is a failure. *)
Record Dir := mkDir {
  d_names : gmap str nat;
  d_old_names : list (gmap str nat);
  d_inodes : list Inode;
  d_faults : list (option nat);
  d_remove_faults : list (option nat);
  d_open_faults : list bool;
}.
#[export] Instance Dir_settable : Settable Dir := λ d,
  mkDir (d_names d) (d_old_names d) (d_inodes d) (d_faults d) (d_remove_faults d) (d_open_faults d).

Abbreviation IO := (ST Dir IoError).

(** [if let Ok(x) = m] and [if let Err(e) = m]: an error becomes a value. *)
Definition st_catch {S E E' A} (m : ST S E A) : ST S E' (A + E) := λ s,
  match m s with
  | (Ok a, s') => (Ok (inl a), s')
  | (Err e, s') => (Ok (inr e), s')
  | (Panic, s') => (Panic, s')
  end.

Definition next_fault : IO (option nat) := λ d,
  match d_faults d with
  | [] => (Ok None, d)
  | f :: fs => (Ok f, d <| d_faults := fs |>)
  end.

Definition next_remove_fault : IO (option nat) := λ d,
  match d_remove_faults d with
  | [] => (Ok None, d)
  | f :: fs => (Ok f, d <| d_remove_faults := fs |>)
  end.

Definition with_fault {A} (op : IO A) (f : option nat) : IO A :=
  match f with
  | None => op
  | Some O => st_fail OtherIoError
  | Some (S _) => _ ← op; st_fail OtherIoError
  end.

Definition faulty {A} (op : IO A) : IO A := f ← next_fault; with_fault op f.

(** ** Files *)

Definition set_data (data : bytes) (i : Inode) : Inode := mkInode data (i_data i :: i_old i).

Definition upd_inode (ino : nat) (f : Inode → Inode) : IO unit :=
  st_modify (λ d, d <| d_inodes := alter f ino (d_inodes d) |>).

(** [OpenOptions::open], [File::open] *)
Definition fs_open (path : str) : IO nat := λ d,
  let '(fails, d) :=
    match d_open_faults d with
    | [] => (false, d)
    | f :: fs => (f, d <| d_open_faults := fs |>)
    end in
  if (fails : bool) then (Err OtherIoError, d)
  else match d_names d !! path with
       | Some ino => (Ok ino, d)
       | None => (Err NotFound, d)
       end.

(** [read_to_end] of a file that was just opened *)
Definition fs_read_to_end (ino : nat) : IO bytes := faulty (
  d ← st_get;
  match d_inodes d !! ino with
  | Some i => mret (i_data i)
  | None => st_fail OtherIoError
  end).

(** Every change of a name leaves the version before it. *)
Definition set_names (names : gmap str nat) : IO unit :=
  st_modify (λ d, d <| d_names := names |> <| d_old_names := d_names d :: d_old_names d |>).

(** [File::create]: empties a file that exists. *)
Definition create_file (path : str) : IO nat :=
  d ← st_get;
  match d_names d !! path with
  | Some ino => _ ← upd_inode ino (set_data []); mret ino
  | None =>
    let ino := length (d_inodes d) in
    _ ← st_modify (λ d, d <| d_inodes := d_inodes d ++ [mkInode [] []] |>);
    _ ← set_names (<[path := ino]> (d_names d));
    mret ino
  end.

Definition fs_create (path : str) : IO nat := faulty (create_file path).

Definition resize (n : nat) (data : bytes) : bytes :=
  take n data ++ replicate (n - length data) x00.

(** [File::set_len] *)
Definition fs_set_len (ino n : nat) : IO unit :=
  faulty (upd_inode ino (λ i, set_data (resize n (i_data i)) i)).

(** A write past the end fills the gap with zeros. *)
Definition splice (off : nat) (buf data : bytes) : bytes :=
  take off (data ++ replicate (off - length data) x00) ++ buf ++ drop (off + length buf) data.

(** [write_all] at the cursor, which moves behind the bytes written.  The caller
    drops the file after an error. *)
Definition fs_write_all (file : nat * nat) (buf : bytes) : IO (nat * nat) :=
  let '(ino, pos) := file in
  f ← next_fault;
  match f with
  | None =>
    _ ← upd_inode ino (λ i, set_data (splice pos buf (i_data i)) i);
    mret (ino, (pos + length buf)%nat)
  | Some n =>
    _ ← upd_inode ino (λ i, set_data (splice pos (take n buf) (i_data i)) i);
    st_fail OtherIoError
  end.

(** [seek] and [flush] of a [tokio] file: no effect on the content. *)
Definition fs_seek (ino pos : nat) : IO (nat * nat) := faulty (mret (ino, pos)).
Definition fs_flush : IO unit := faulty (mret tt).

(** [sync_all], [sync_data] *)
Definition fs_sync (ino : nat) : IO unit := faulty (upd_inode ino (λ i, i <| i_old := [] |>)).

(** ** Names *)

Definition fs_sync_dir : IO unit := faulty (st_modify (λ d, d <| d_old_names := [] |>)).

Definition rename_name (old new : str) : IO unit :=
  d ← st_get;
  match d_names d !! old with
  | Some ino => set_names (<[new := ino]> (delete old (d_names d)))
  | None => st_fail NotFound
  end.

Definition fs_rename (old new : str) : IO unit := faulty (rename_name old new).

Definition remove_name (path : str) : IO unit :=
  d ← st_get;
  match d_names d !! path with
  | Some _ => set_names (delete path (d_names d))
  | None => st_fail NotFound
  end.

Definition fs_remove_file (path : str) : IO unit :=
  f ← next_remove_fault; with_fault (remove_name path) f.

(** [read_dir]: the names, in some order; [next_entry] may fail as well. *)
Definition fs_read_dir : IO (list str) := faulty (d ← st_get; mret (map_to_list (d_names d)).*1).
Definition fs_next_entry : IO unit := faulty (mret tt).

(** [crashsafe::fsync_async_opt] of a file *)
Definition fsync_async_opt (path : str) (do_fsync : bool) : IO unit :=
  if do_fsync then ino ← fs_open path; fs_sync ino else mret tt.

(** ... and of the directory, which can always be opened. *)
Definition fsync_parent_opt (do_fsync : bool) : IO unit :=
  if do_fsync then fs_sync_dir else mret tt.

Definition durable_rename (old_path new_path : str) (do_fsync : bool) : IO unit :=
  _ ← fsync_async_opt old_path do_fsync;
  _ ← fs_rename old_path new_path;
  fsync_parent_opt do_fsync.

(** [.or_else(ignore_not_found)] *)
Definition ignore_not_found (m : IO unit) : IO unit :=
  r ← st_catch m;
  match r with
  | inl _ | inr NotFound => mret tt
  | inr e => st_fail e
  end.

(** ** Crashes *)

(** The versions of the directory and of a file since the last sync. *)
Definition versions (d : Dir) : list (gmap str nat) := d_names d :: d_old_names d.
Definition contents (i : Inode) : list bytes := i_data i :: i_old i.

(** What a crash may leave of a file: at every offset a byte of one of the
    versions since the last sync. *)
Definition crash_data (i : Inode) (data : bytes) : Prop :=
  ∀ off, ∃ v, v ∈ contents i ∧ data !! off = v !! off.

Definition crash_inode (i i' : Inode) : Prop := crash_data i (i_data i') ∧ i_old i' = [].

Record crash (d d' : Dir) : Prop := {
  crash_names : d_names d' ∈ versions d;
  crash_old_names : d_old_names d' = [];
  crash_inodes : Forall2 crash_inode (d_inodes d) (d_inodes d');
}.

(** ** Reasoning about faults *)

Lemma wp_next_fault (Q : outcome IoError (option nat) → Dir → Prop) d :
  (∀ f fs, Q (Ok f) (d <| d_faults := fs |>)) → wp next_fault Q d.
Proof.
  intros HQ. apply run_wp. intros r d'. unfold next_fault.
  destruct (d_faults d) as [|f fs] eqn:Hf; intros [= <- <-]; [|apply HQ].
  specialize (HQ None []). rewrite <- Hf in HQ. by destruct d.
Qed.

(** An operation with faults ends as the operation, or fails before or after it. *)
Lemma wp_faulty {A} (op : IO A) (Q : outcome IoError A → Dir → Prop) d :
  (∀ fs, Q (Err OtherIoError) (d <| d_faults := fs |>)) →
  (∀ fs, wp op (λ r d', Q r d' ∧ Q (Err OtherIoError) d') (d <| d_faults := fs |>)) →
  wp (faulty op) Q d.
Proof.
  intros Hbefore Hop. unfold faulty. wp_step. apply wp_next_fault. intros f fs.
  unfold with_fault. destruct f as [[|n]|]; [by wp_step|wp_step|];
    (eapply wp_mono; [apply Hop|]); intros r d' [HQ Hafter]; [|done].
  by destruct r; [wp_step|..].
Qed.

Lemma wp_open (path : str) (Q : outcome IoError nat → Dir → Prop) d :
  (∀ fs e, Q (Err e) (d <| d_open_faults := fs |>)) →
  (∀ fs ino, d_names d !! path = Some ino → Q (Ok ino) (d <| d_open_faults := fs |>)) →
  wp (fs_open path) Q d.
Proof.
  intros Herr Hok. apply run_wp. intros r d'. unfold fs_open.
  assert (Hd : d <| d_open_faults := d_open_faults d |> = d) by by destruct d.
  destruct (d_open_faults d) as [|[] fs] eqn:Hf; simpl.
  - destruct (d_names d !! path) as [ino|]; intros [= <- <-]; rewrite <- Hd; auto.
  - intros [= <- <-]. apply Herr.
  - destruct (d_names d !! path) as [ino|]; intros [= <- <-]; auto.
Qed.
