(* ===== verification/ControlFile.v ===== *)
(** * The control file on disk

    [safekeeper/src/control_file.rs]: [FileStorage] keeps the state of a
    timeline in memory and in the file [safekeeper.control], which is replaced
    by renaming a new file over it.  The directory is a part of the state, in
    place of its path; it is shared with the WAL storage, which has other files
    in it.  The time of the last [persist], metrics and logging are left out.

    The theorems: the control file implements the interface of the consensus
    code, whatever operation on the disk fails, and a crash at any moment leaves
    the state before or the state after. *)

From S2P Require Import Prelude Bytes Text Ids Lsn Membership TermHistory TimelineState.
From S2P Require Import ControlFileFormat Bincode Disk.

Definition CONTROL_FILE_NAME : str := lit "safekeeper.control".
Definition CONTROL_FILE_NAME_PARTIAL : str := lit "safekeeper.control.partial".

Record FileStorage := mkFileStorage {
  fst_timeline_dir : Dir;
  fst_no_sync : bool;
  fst_state : TimelinePersistentState;
}.
#[export] Instance FileStorage_settable : Settable FileStorage := λ s,
  mkFileStorage (fst_timeline_dir s) (fst_no_sync s) (fst_state s).

Section storage.
Context `{ControlFormat}.

Definition load_control_file (control_file_path : str) : ST Dir string TimelinePersistentState :=
  control_file ← st_map_err io_error (fs_open control_file_path);
  buf ← st_map_err io_error (fs_read_to_end control_file);
  st_lift (parse_control_file buf).

Definition load_control_file_from_dir : ST Dir string TimelinePersistentState :=
  load_control_file CONTROL_FILE_NAME.

Definition FileStorage_restore_new (timeline_dir : Dir) (no_sync : bool) : outcome string FileStorage :=
  let '(r, dir) := load_control_file_from_dir timeline_dir in
  state ← r;
  Ok {| fst_timeline_dir := dir; fst_no_sync := no_sync; fst_state := state |}.

Definition ctrl_disk {A} (m : IO A) : ST FileStorage string A :=
  st_zoom fst_timeline_dir (λ d self, self <| fst_timeline_dir := d |>) (st_map_err io_error m).

Definition FileStorage_persist (s : TimelinePersistentState) : ST FileStorage string unit :=
  control_partial ← ctrl_disk (fs_create CONTROL_FILE_NAME_PARTIAL);
  buf ← st_lift (write_to_buf s);
  _ ← ctrl_disk (fs_write_all (control_partial, O) buf);
  _ ← ctrl_disk fs_flush;
  self ← st_get;
  _ ← ctrl_disk (durable_rename CONTROL_FILE_NAME_PARTIAL CONTROL_FILE_NAME
                   (negb (fst_no_sync self)));
  st_modify (λ self, self <| fst_state := s |>).

(** The store, if it could be persisted. *)
Definition FileStorage_create_new (timeline_dir : Dir) (state : TimelinePersistentState)
    (no_sync : bool) : outcome string unit * FileStorage :=
  (_ ← st_assert (bool_decide (ps_eviction_state state = Present));
   FileStorage_persist state)
  {| fst_timeline_dir := timeline_dir; fst_no_sync := no_sync; fst_state := state |}.

#[export] Instance FileStorage_storage : ControlStorage FileStorage := {|
  ctrl_deref := fst_state;
  ctrl_persist := FileStorage_persist;
|}.
End storage.

(** ** The directory of the control file *)

Abbreviation CONTROL := CONTROL_FILE_NAME.
Abbreviation PARTIAL := CONTROL_FILE_NAME_PARTIAL.

(** The control file of a version of the directory: none, or one that is synced. *)
Definition control_of (inodes : list Inode) (n : gmap str nat) (c : option bytes) : Prop :=
  match c with
  | Some buf => ∃ ino, n !! CONTROL = Some ino ∧ inodes !! ino = Some (mkInode buf [])
  | None => n !! CONTROL = None
  end.

(** In every version of the directory that a crash may leave, the control file
    satisfies [P], and the file under construction is another one. *)
Record cf_wf (P : option bytes → Prop) (d : Dir) : Prop := {
  cf_control n : n ∈ versions d → ∃ c, control_of (d_inodes d) n c ∧ P c;
  cf_partial n ino : n ∈ versions d → n !! PARTIAL = Some ino →
    (ino < length (d_inodes d))%nat ∧ n !! CONTROL ≠ Some ino;
  cf_current n ino : n ∈ versions d → d_names d !! PARTIAL = Some ino → n !! CONTROL ≠ Some ino;
}.

Lemma cf_wf_mono (P Q : option bytes → Prop) d : cf_wf P d → (∀ c, P c → Q c) → cf_wf Q d.
Proof.
  intros [] HPQ. split; [|done..]. intros n Hn. destruct (cf_control0 n Hn) as (c & ? & ?).
  exists c. auto.
Qed.

(** Other files do not matter. *)
Lemma control_of_other inodes inodes' n c :
  control_of inodes n c →
  (∀ ino i, n !! CONTROL = Some ino → inodes !! ino = Some i → inodes' !! ino = Some i) →
  control_of inodes' n c.
Proof. destruct c as [buf|]; [|done]. intros (ino & Hn & Hi) Ho. exists ino. eauto. Qed.

Lemma cf_wf_faults P d fs : cf_wf P d → cf_wf P (d <| d_faults := fs |>).
Proof. by intros []. Qed.
Lemma cf_wf_open_faults P d fs : cf_wf P d → cf_wf P (d <| d_open_faults := fs |>).
Proof. by intros []. Qed.
#[local] Hint Resolve cf_wf_faults cf_wf_open_faults : core.

(** The file under construction, and its contents. *)
Definition partial_is (ino : nat) (Q : Inode → Prop) (d : Dir) : Prop :=
  d_names d !! PARTIAL = Some ino ∧ ∃ i, d_inodes d !! ino = Some i ∧ Q i.

(** Changing that file leaves the control file alone. *)
Lemma cf_wf_upd P ino f d :
  cf_wf P d → d_names d !! PARTIAL = Some ino →
  cf_wf P (d <| d_inodes := alter f ino (d_inodes d) |>).
Proof.
  intros [] Hp. split; simpl; unfold versions in *; simpl.
  - intros n Hn. destruct (cf_control0 n Hn) as (c & Hc & HP). exists c. split; [|done].
    eapply control_of_other; [done|]. intros ino' i Hn' Hi.
    rewrite list_lookup_alter_ne; [done|]. intros ->. by eapply cf_current0.
  - intros n ino' Hn Hp'. rewrite length_alter. by apply cf_partial0.
  - done.
Qed.

Lemma partial_is_upd ino f (Q R : Inode → Prop) d :
  partial_is ino Q d → (∀ i, Q i → R (f i)) →
  partial_is ino R (d <| d_inodes := alter f ino (d_inodes d) |>).
Proof.
  intros (Hn & i & Hi & HQ) HR. split; [done|]. exists (f i). simpl.
  rewrite list_lookup_alter_eq, Hi. auto.
Qed.

(** *** The steps of [persist] *)

(** [op] keeps the directory, and ends in [post] if it succeeds. *)
Definition ctrl_io (P : option bytes → Prop) {A} (op : IO A) (post : A → Dir → Prop) (d : Dir) : Prop :=
  wp op (λ r d', cf_wf P d' ∧ match r with Ok a => post a d' | Err _ => True | Panic => False end) d.

Lemma ctrl_io_faulty P {A} (op : IO A) (post : A → Dir → Prop) d :
  cf_wf P d → (∀ fs, ctrl_io P op post (d <| d_faults := fs |>)) → ctrl_io P (faulty op) post d.
Proof.
  intros Hwf Hop. apply wp_faulty; [by auto|]. intros fs. eapply wp_mono; [apply Hop|].
  intros r d' [? ?]. by split_and!.
Qed.

Lemma ctrl_io_upd P ino f (Q R : Inode → Prop) d :
  cf_wf P d → partial_is ino Q d → (∀ i, Q i → R (f i)) →
  ctrl_io P (upd_inode ino f) (λ _, partial_is ino R) d.
Proof.
  intros Hwf Hp HR. unfold ctrl_io, upd_inode. wp_step.
  split; [by apply cf_wf_upd, Hp|by eapply partial_is_upd].
Qed.

(** A new file under that name. *)
Lemma cf_wf_fresh P i d d' :
  cf_wf P d → d_names d' = <[PARTIAL := length (d_inodes d)]> (d_names d) →
  d_old_names d' = versions d → d_inodes d' = d_inodes d ++ [i] → cf_wf P d'.
Proof.
  intros [] Hn Ho Hi.
  assert (Hold : ∀ n', n' ∈ versions d' → ∃ n, n ∈ versions d ∧ n' !! CONTROL = n !! CONTROL
    ∧ (n' = n ∨ n' = d_names d')).
  { unfold versions at 1. rewrite Ho. intros n' [->|Hin]%elem_of_cons; [|by eauto].
    exists (d_names d). rewrite Hn, lookup_insert_ne by done. split_and!; [by left|done|by right]. }
  assert (Hfresh : ∀ n, n ∈ versions d → n !! CONTROL ≠ Some (length (d_inodes d))).
  { intros n Hin Hc. destruct (cf_control0 n Hin) as ([buf|] & Hc' & _); [|simpl in Hc'; congruence].
    destruct Hc' as (ino & Hc' & Hl%lookup_lt_Some). rewrite Hc in Hc'. injection Hc' as Hc'. lia. }
  split; rewrite ?Hi, ?length_app; simpl.
  - intros n' (n & Hin & Heq & _)%Hold. destruct (cf_control0 n Hin) as (c & Hc & HP).
    exists c. split; [|done]. destruct c as [buf|]; simpl in *; rewrite Heq; [|done].
    destruct Hc as (ino & Hc & Hl). exists ino. split; [done|]. by apply lookup_app_l_Some.
  - intros n' ino (n & Hin & -> & [->| ->])%Hold Hp.
    + destruct (cf_partial0 n ino Hin Hp). split; [lia|done].
    + rewrite Hn, lookup_insert_eq in Hp. injection Hp as <-. split; [lia|by apply Hfresh].
  - intros n' ino (n & Hin & -> & _)%Hold. rewrite Hn, lookup_insert_eq. intros [= <-].
    by apply Hfresh.
Qed.

Lemma create_partial_spec P d :
  cf_wf P d → ctrl_io P (fs_create PARTIAL) (λ ino, partial_is ino (λ i, i_data i = [])) d.
Proof.
  intros Hwf0. apply ctrl_io_faulty; [done|]. intros fs.
  pose proof (cf_wf_faults _ _ fs Hwf0) as Hwf. revert Hwf. generalize (d <| d_faults := fs |>).
  clear. intros d Hwf. unfold ctrl_io, create_file. wp_step. wp_step.
  destruct (d_names d !! PARTIAL) as [ino|] eqn:Hp; repeat wp_step.
  - destruct (cf_partial _ _ Hwf (d_names d) ino) as [[i Hi]%lookup_lt_is_Some _]; [by left|done|].
    split; [by apply cf_wf_upd|].
    split; [done|]. exists (set_data [] i). simpl. by rewrite list_lookup_alter_eq, Hi.
  - split; [by eapply cf_wf_fresh|].
    split; simpl; [by rewrite lookup_insert_eq|]. exists (mkInode [] []).
    by rewrite list_lookup_middle.
Qed.

Lemma write_partial_spec P ino buf d :
  cf_wf P d → partial_is ino (λ i, i_data i = []) d →
  ctrl_io P (fs_write_all (ino, O) buf) (λ _, partial_is ino (λ i, i_data i = buf)) d.
Proof.
  intros Hwf Hp. unfold ctrl_io, fs_write_all. wp_step. apply wp_next_fault. intros f fs.
  assert (Hupd : ∀ data, ctrl_io P (upd_inode ino (λ i, set_data (splice 0 data (i_data i)) i))
    (λ _, partial_is ino (λ i, i_data i = data)) (d <| d_faults := fs |>)).
  { intros data. eapply ctrl_io_upd; [by auto|exact Hp|]. intros i Hi. simpl. rewrite Hi.
    unfold splice. simpl. by rewrite drop_nil, app_nil_r. }
  destruct f as [n|]; wp_step; (eapply wp_mono; [apply Hupd|]);
    (intros [a|e|] d' [? ?]; [by wp_step|done..]).
Qed.

Lemma flush_partial_spec P ino Q d :
  cf_wf P d → partial_is ino Q d → ctrl_io P fs_flush (λ _, partial_is ino Q) d.
Proof. intros Hwf Hp. apply ctrl_io_faulty; [done|]. intros fs. unfold ctrl_io. wp_step. auto. Qed.

Lemma sync_partial_spec P ino buf d :
  cf_wf P d → partial_is ino (λ i, i_data i = buf) d →
  ctrl_io P (fsync_async_opt PARTIAL true) (λ _, partial_is ino (λ i, i = mkInode buf [])) d.
Proof.
  intros Hwf Hp. unfold ctrl_io, fsync_async_opt. wp_step. apply wp_open; [by auto|].
  intros fs ino' Hino. rewrite (proj1 Hp) in Hino. injection Hino as <-.
  apply ctrl_io_faulty; [by auto|]. intros fs'.
  eapply ctrl_io_upd; [by auto|exact Hp|]. intros i <-. by destruct i.
Qed.

Definition control_is (buf : bytes) (d : Dir) : Prop :=
  control_of (d_inodes d) (d_names d) (Some buf).

Lemma rename_partial_spec P ino buf d :
  cf_wf P d → partial_is ino (λ i, i = mkInode buf []) d →
  ctrl_io (λ c, P c ∨ c = Some buf) (fs_rename PARTIAL CONTROL) (λ _, control_is buf) d.
Proof.
  intros Hwf (Hn & i & Hi & ->).
  assert (Hwf' : cf_wf (λ c, P c ∨ c = Some buf) d) by (eapply cf_wf_mono; [done|by left]).
  apply ctrl_io_faulty; [done|]. intros fs. unfold ctrl_io, rename_name. wp_step. wp_step. simpl.
  rewrite Hn. unfold set_names. wp_step.
  assert (Hne : CONTROL ≠ PARTIAL) by done.
  split; [|exists ino; simpl; by rewrite lookup_insert_eq]. destruct Hwf'.
  split; unfold versions; simpl.
  - intros n [->|Hin]%elem_of_cons; [|by apply cf_control0]. exists (Some buf).
    split; [|by right]. exists ino. by rewrite lookup_insert_eq.
  - intros n ino' [->|Hin]%elem_of_cons; [|by apply cf_partial0].
    by rewrite lookup_insert_ne, lookup_delete_eq by done.
  - intros n ino' _. by rewrite lookup_insert_ne, lookup_delete_eq by done.
Qed.

Lemma sync_control_spec P buf d :
  cf_wf P d → control_is buf d →
  wp fs_sync_dir (λ r d', cf_wf P d' ∧
    match r with Ok _ => cf_wf (λ c, c = Some buf) d' | Err _ => True | Panic => False end) d.
Proof.
  intros Hwf Hc. apply (ctrl_io_faulty P _ (λ _, cf_wf (λ c, c = Some buf))); [done|].
  intros fs. unfold ctrl_io. wp_step.
  assert (Hin : d_names d ∈ versions d) by left. destruct Hwf.
  assert (Hv : ∀ n, n ∈ [d_names d] → n = d_names d) by by intros n ?%list_elem_of_singleton.
  split; split; unfold versions; simpl.
  - intros n ->%Hv. by apply cf_control0.
  - intros n ino' ->%Hv. by apply cf_partial0.
  - intros n ino' ->%Hv. by apply cf_current0.
  - intros n ->%Hv. by exists (Some buf).
  - intros n ino' ->%Hv. by apply cf_partial0.
  - intros n ino' ->%Hv. by apply cf_current0.
Qed.

(** *** [persist] on the directory *)

Section laws.
Context `{ControlFormatLaws}.

Definition saves (s : TimelinePersistentState) (c : option bytes) : Prop :=
  ∃ buf, c = Some buf ∧ write_to_buf s = Ok buf.

Lemma persist_spec P s self :
  fst_no_sync self = false → cf_wf P (fst_timeline_dir self) →
  wp (FileStorage_persist s) (λ r self', fst_no_sync self' = false
    ∧ match r with
      | Ok _ => fst_state self' = s
                ∧ ∃ buf, write_to_buf s = Ok buf ∧ cf_wf (λ c, c = Some buf) (fst_timeline_dir self')
      | Err _ => fst_state self' = fst_state self
                 ∧ cf_wf (λ c, P c ∨ saves s c) (fst_timeline_dir self')
      | Panic => False
      end) self.
Proof.
  destruct self as [d no_sync st]. simpl. intros -> Hwf.
  assert (Hmono : ∀ d', cf_wf P d' → cf_wf (λ c, P c ∨ saves s c) d').
  { intros d' ?. eapply cf_wf_mono; [done|by left]. }
  unfold FileStorage_persist, ctrl_disk. do 3 wp_step.
  eapply wp_mono; [by apply create_partial_spec|]. intros [ino|e|] d1 [Hwf1 Hp1]; [|by auto|done].
  simpl. wp_step. wp_step. pose proof (write_no_panic s).
  destruct (write_to_buf s) as [buf|e|] eqn:Hbuf; [|by auto|done].
  do 3 wp_step. eapply wp_mono; [by apply write_partial_spec|].
  intros [f|e|] d2 [Hwf2 Hp2]; [|by auto|done]. simpl.
  do 3 wp_step. eapply wp_mono; [by apply flush_partial_spec|].
  intros [f'|e|] d3 [Hwf3 Hp3]; [|by auto|done]. simpl.
  do 5 wp_step. simpl. unfold durable_rename.
  wp_step. eapply wp_mono; [by apply sync_partial_spec|].
  intros [f''|e|] d4 [Hwf4 Hp4]; [|by auto|done].
  wp_step. eapply wp_mono; [by apply (rename_partial_spec P ino buf)|].
  assert (Hmono' : ∀ d', cf_wf (λ c, P c ∨ c = Some buf) d' → cf_wf (λ c, P c ∨ saves s c) d').
  { intros d' Hd'. apply (cf_wf_mono _ _ _ Hd'). intros c [?| ->]; [by left|]. right. by exists buf. }
  intros [g|e|] d5 [Hwf5 Hc]; [|by auto|done].
  eapply wp_mono; [by apply (sync_control_spec (λ c, P c ∨ c = Some buf) buf)|]. intros [g'|e|] d6 [Hwf6 Hc6]; [|by auto|done].
  wp_step. simpl. eauto.
Qed.

(** ** Crashes *)

(** The disk works again. *)
Definition quiet (d : Dir) : Prop := d_faults d = [] ∧ d_open_faults d = [].

Definition restart_loads (d : Dir) (st : TimelinePersistentState) : Prop :=
  ∃ d', crash d d' ∧ quiet d' ∧ (load_control_file_from_dir d').1 = Ok st.

Lemma load_control buf d :
  quiet d → control_is buf d → load_control_file_from_dir d = (parse_control_file buf, d).
Proof.
  intros [Hf Ho] (ino & Hn & Hi).
  unfold load_control_file_from_dir, load_control_file, mbind, ST_bind, st_map_err, fs_open.
  rewrite Ho, Hn. unfold fs_read_to_end, faulty, next_fault, mbind, ST_bind. rewrite Hf. simpl.
  unfold mbind, ST_bind, st_get. by rewrite Hi.
Qed.

Lemma crash_data_synced buf i : crash_inode (mkInode buf []) i → i = mkInode buf [].
Proof.
  destruct i as [data old]. intros [Hd Hold]. simpl in *. f_equal; [|done].
  apply list_eq. intros off. destruct (Hd off) as (v & ->%list_elem_of_singleton & Hv). done.
Qed.

Lemma crash_control P d d' :
  cf_wf P d → crash d d' → cf_wf P d' ∧ ∃ c, P c ∧ control_of (d_inodes d') (d_names d') c.
Proof.
  intros [] [Hn Hold Hinodes].
  assert (Hv : ∀ n, n ∈ versions d' → n = d_names d').
  { intros n. unfold versions. rewrite Hold. by intros ->%list_elem_of_singleton. }
  destruct (cf_control0 (d_names d') Hn) as (c & Hc & HP).
  assert (Hc' : control_of (d_inodes d') (d_names d') c).
  { destruct c as [buf|]; [|done]. destruct Hc as (ino & Hc & Hi).
    destruct (Forall2_lookup_l _ _ _ _ _ Hinodes Hi) as (i' & Hi' & ->%crash_data_synced).
    by exists ino. }
  split; [|by exists c]. split.
  - intros n ->%Hv. by exists c.
  - intros n ino' ->%Hv. rewrite <- (Forall2_length _ _ _ Hinodes). by apply cf_partial0.
  - intros n ino' ->%Hv. by apply cf_partial0.
Qed.

(** A file that can be read, and that holds a state in [Q]. *)
Definition readable (Q : TimelinePersistentState → Prop) (c : option bytes) : Prop :=
  ∃ buf st, c = Some buf ∧ parse_control_file buf = Ok st ∧ Q st.

Lemma saves_readable s c : saves s c → readable (saved_as s) c.
Proof. intros (buf & -> & (st & ? & ?)%parse_write). by exists buf, st. Qed.

Lemma restart_loads_inv Q d st : cf_wf (readable Q) d → restart_loads d st → Q st.
Proof.
  intros Hwf (d' & Hcrash & Hq & Hload).
  destruct (crash_control _ _ _ Hwf Hcrash) as (_ & c & (buf & st' & -> & Hst & HQ) & Hc).
  rewrite (load_control buf) in Hload by done. simpl in Hload. congruence.
Qed.

(** A crash may leave every version of the directory. *)
Definition crash_to (n : gmap str nat) (d : Dir) : Dir :=
  mkDir n [] ((λ i, mkInode (i_data i) []) <$> d_inodes d) [] [] [].

Lemma crash_to_crash n d : n ∈ versions d → crash d (crash_to n d).
Proof.
  intros Hn. split; [done..|]. simpl. apply Forall2_fmap_r, Forall_Forall2_diag, Forall_forall.
  intros i _. split; [|done]. intros off. exists (i_data i). split; [by left|done].
Qed.

Lemma cf_wf_loads Q d : cf_wf (readable Q) d → cf_wf (readable (restart_loads d)) d.
Proof.
  intros []. split; [|done..]. intros n Hn.
  destruct (cf_control0 n Hn) as (c & Hc & buf & st & -> & Hst & _).
  exists (Some buf). split; [done|]. exists buf, st. split_and!; [done..|].
  exists (crash_to n d). split_and!; [by apply crash_to_crash|done|].
  rewrite (load_control buf); [done|done|]. destruct Hc as (ino & Hc & Hi). exists ino.
  simpl. split; [done|]. by rewrite list_lookup_fmap, Hi.
Qed.

(** ** The laws of the control file *)

Definition FileStorage_inv (self : FileStorage) : Prop :=
  fst_no_sync self = false ∧ cf_wf (readable (λ _, True)) (fst_timeline_dir self).

Lemma FileStorage_inv_intro Q self :
  fst_no_sync self = false → cf_wf (readable Q) (fst_timeline_dir self) → FileStorage_inv self.
Proof.
  intros ? Hwf. split; [done|]. eapply cf_wf_mono; [exact Hwf|].
  intros c (buf & st & ? & ? & ?). by exists buf, st.
Qed.

#[export] Program Instance FileStorage_laws : ControlStorageLaws FileStorage := {|
  ctrl_inv := FileStorage_inv;
  ctrl_durable self := restart_loads (fst_timeline_dir self);
|}.
Next Obligation.
  intros c [_ Hwf%cf_wf_loads]. destruct (cf_control _ _ Hwf (d_names (fst_timeline_dir c)))
    as (c' & _ & buf & st & _ & _ & Hst); [by left|]. by exists st.
Qed.
Next Obligation.
  intros c s [Hns Hwf]. eapply wp_mono; [by eapply persist_spec, cf_wf_loads|].
  intros [a|e|] c' [Hns' Hr]; [| |done].
  - destruct Hr as (Hst & buf & Hbuf & Hwf').
    assert (Hwf'' : cf_wf (readable (saved_as s)) (fst_timeline_dir c')).
    { eapply cf_wf_mono; [exact Hwf'|]. intros b ->. apply saves_readable. by exists buf. }
    split; [by eapply FileStorage_inv_intro|split; [done|]]. intros st. by apply restart_loads_inv.
  - destruct Hr as (Hst & Hwf').
    assert (Hwf'' : cf_wf (readable (λ st, restart_loads (fst_timeline_dir c) st ∨ saved_as s st))
      (fst_timeline_dir c')).
    { eapply cf_wf_mono; [exact Hwf'|].
      intros b [(buf & st & ? & ? & ?)|(buf & st & ? & ? & ?)%saves_readable]; exists buf, st; auto. }
    split; [by eapply FileStorage_inv_intro|split; [done|]].
    intros st. by apply (restart_loads_inv _ _ _ Hwf'').
Qed.

(** ** Restarts *)

(** What [restore_new] finds after a crash is the only state that is on disk. *)
Definition settled (self : FileStorage) : Prop :=
  FileStorage_inv self ∧ ∀ st, ctrl_durable self st → st = ctrl_deref self.

Lemma restore_after_crash self d :
  FileStorage_inv self → crash (fst_timeline_dir self) d → quiet d →
  ∃ self', FileStorage_restore_new d false = Ok self' ∧ settled self' ∧ fst_timeline_dir self' = d
    ∧ ctrl_durable self (ctrl_deref self').
Proof.
  intros [_ Hwf] Hcrash Hq.
  destruct (crash_control _ _ _ Hwf Hcrash) as (Hwf' & c & (buf & st & -> & Hst & _) & Hc).
  assert (Hload := load_control buf d Hq Hc). rewrite Hst in Hload.
  exists {| fst_timeline_dir := d; fst_no_sync := false; fst_state := st |}.
  split; [unfold FileStorage_restore_new; by rewrite Hload|].
  split; [|split; [done|exists d; by rewrite Hload]].
  split; [by split|]. simpl. intros st'. apply (restart_loads_inv (λ st', st' = st)).
  destruct Hwf'. split; [|done..]. intros n Hn. exists (Some buf). split; [|by exists buf, st].
  unfold versions in Hn. rewrite (crash_old_names _ _ Hcrash), list_elem_of_singleton in Hn.
  by rewrite Hn.
Qed.

(** C8: The control file is replaced atomically.  Whatever operation on the disk
    fails, and wherever the machine crashes, the file that is there afterwards
    can be read: a [persist] that succeeded has its state on disk (without the
    configuration of generation 0, which the format of that case does not have),
    one that failed leaves that state or one that was on disk before. *)
Theorem control_file_crash_safe (self self' : FileStorage) (s : TimelinePersistentState)
    (r : outcome string unit) (d : Dir)
    (Hinv : FileStorage_inv self) (Hrun : FileStorage_persist s self = (r, self'))
    (Hcrash : crash (fst_timeline_dir self') d) (Hdisk : quiet d) :
  ∃ restored, FileStorage_restore_new d false = Ok restored
    ∧ settled restored
    ∧ match r with
      | Ok _ => fst_state self' = s ∧ saved_as s (fst_state restored)
      | Err _ => fst_state self' = fst_state self
                 ∧ (restart_loads (fst_timeline_dir self) (fst_state restored)
                    ∨ saved_as s (fst_state restored))
      | Panic => False
      end.
Proof.
  pose proof (ctrl_persist_spec self s Hinv) as Hspec.
  apply (wp_run _ _ _ _ _ Hspec) in Hrun as [Hinv' Hr].
  destruct (restore_after_crash self' d Hinv' Hcrash Hdisk) as (c & Hc & Hs & _ & Hd).
  exists c. split; [exact Hc|]. split; [exact Hs|]. destruct r as [a|e|]; [..|done];
    destruct Hr as [Hst Hdur]; (split; [exact Hst|]); by apply Hdur.
Qed.

(** What [create_new] ends in. *)
Definition created (state : TimelinePersistentState) (res : outcome string unit * FileStorage) : Prop :=
  match res with
  | (Ok _, self) => ps_eviction_state state = Present ∧ FileStorage_inv self
                    ∧ fst_state self = state ∧ ∀ st, ctrl_durable self st → saved_as state st
  | (Err _, _) => ps_eviction_state state = Present
  | (Panic, _) => ps_eviction_state state ≠ Present
  end.

Definition no_control_file (d : Dir) : Prop :=
  ∀ n, n ∈ versions d → n !! CONTROL_FILE_NAME = None ∧ n !! CONTROL_FILE_NAME_PARTIAL = None.

Lemma create_new_spec d state :
  no_control_file d → created state (FileStorage_create_new d state false).
Proof.
  intros Hnew. unfold created, FileStorage_create_new, mbind, ST_bind, st_assert.
  destruct (bool_decide_reflect (ps_eviction_state state = Present)) as [Hp|Hp]; [|done]. simpl.
  assert (Hwf : cf_wf (λ c, c = None) d).
  { split; [intros n [Hn _]%Hnew; by exists None|intros n ino [_ Hn]%Hnew; congruence|].
    intros n ino [Hn _]%Hnew. congruence. }
  pose proof (persist_spec _ state (mkFileStorage d false state) eq_refl Hwf) as Hw. unfold wp in Hw.
  destruct (FileStorage_persist state _) as [[a|e|] self]; [|done|by destruct Hw].
  destruct Hw as (Hns & Hst & buf & Hbuf & Hwf').
  assert (Hwf'' : cf_wf (readable (saved_as state)) (fst_timeline_dir self)).
  { eapply cf_wf_mono; [exact Hwf'|]. intros b ->. apply saves_readable. by exists buf. }
  split_and!; [done|by eapply FileStorage_inv_intro|done|]. intros st. by apply restart_loads_inv.
Qed.
End laws.

(** ** A control file *)

#[local] Existing Instance test_control_format.
#[local] Existing Instance test_control_laws.

(** An empty directory; the twelfth operation fails. *)
Definition test_ctrl_dir : Dir := {|
  d_names := ∅; d_old_names := []; d_inodes := [];
  d_faults := replicate 11 None ++ [Some O]; d_remove_faults := []; d_open_faults := [];
|}.

Definition test_ctrl : FileStorage := (FileStorage_create_new test_ctrl_dir test_control_state false).2.

Lemma test_ctrl_dir_new : no_control_file test_ctrl_dir.
Proof. by intros n ->%list_elem_of_singleton. Qed.

Lemma test_ctrl_created : (FileStorage_create_new test_ctrl_dir test_control_state false).1 = Ok tt.
Proof. vm_compute. reflexivity. Qed.

(** The next [persist] fails to sync the directory: a crash may still undo the
    rename. *)
Definition test_ctrl_state2 : TimelinePersistentState :=
  test_control_state <| ps_commit_lsn := 4242 |>.
Definition test_ctrl_run : outcome string unit * FileStorage :=
  FileStorage_persist test_ctrl_state2 test_ctrl.

Lemma test_ctrl_run_fails : ∃ e, test_ctrl_run = (Err e, test_ctrl_run.2).
Proof. eexists. vm_compute. reflexivity. Qed.

Lemma test_ctrl_inv : FileStorage_inv test_ctrl.
Proof.
  pose proof (create_new_spec test_ctrl_dir test_control_state test_ctrl_dir_new) as Hc.
  pose proof test_ctrl_created as Hr. unfold test_ctrl, created in *.
  destruct (FileStorage_create_new _ _ _) as [r self]. simpl in *. rewrite Hr in Hc. apply Hc.
Qed.

Definition test_ctrl_crashed : Dir :=
  crash_to (default ∅ (d_old_names (fst_timeline_dir test_ctrl_run.2) !! O))
    (fst_timeline_dir test_ctrl_run.2).

Lemma test_ctrl_crash : crash (fst_timeline_dir test_ctrl_run.2) test_ctrl_crashed.
Proof.
  apply crash_to_crash. right.
  assert (Hold : (0 < length (d_old_names (fst_timeline_dir test_ctrl_run.2)))%nat)
    by (apply Nat.ltb_lt; vm_compute; reflexivity).
  destruct (d_old_names (fst_timeline_dir test_ctrl_run.2)) as [|n ns]; [simpl in Hold; lia|left].
Qed.

Lemma control_file_crash_safe_witness :
  ∃ restored, FileStorage_restore_new test_ctrl_crashed false = Ok restored
    ∧ fst_state restored = test_control_state ∧ settled restored.
Proof.
  destruct test_ctrl_run_fails as [e Hrun].
  destruct (control_file_crash_safe test_ctrl test_ctrl_run.2 test_ctrl_state2 (Err e)
    test_ctrl_crashed test_ctrl_inv Hrun test_ctrl_crash (conj eq_refl eq_refl))
    as (restored & Hr & Hs & _).
  exists restored. split; [exact Hr|]. split; [|exact Hs].
  assert (Hst : fst_state <$> FileStorage_restore_new test_ctrl_crashed false = Ok test_control_state)
    by (vm_compute; reflexivity).
  rewrite Hr in Hst. injection Hst as Hst. exact Hst.
Defined.
