(* ===== verification/EndOfWal.v ===== *)
(** * Segments of WAL on disk

    [libs/postgres_ffi/src/xlog_utils.rs]: [generate_wal_segment], the first
    segment of a new timeline, and [find_end_of_wal], which a safekeeper runs
    when it starts, to find out how much of its WAL survived.

    [find_end_of_wal] is given fuel; [None] means that it was not enough.  Every
    turn of its loops reads at least a byte of the WAL, so [2^64] is. *)

From S2P Require Import Prelude Bytes Text Lsn TimelineState WalDecoder Disk.

Definition PG_TLI : Z := 1.

(** [wal_storage::wal_file_paths]: the names of a segment when it is complete
    and while it is written. *)
Definition wal_file_paths (segno wal_seg_size : Z) : str * str :=
  let wal_file_name := XLogFileName PG_TLI segno wal_seg_size in
  (wal_file_name, wal_file_name ++ lit ".partial").

Section segment.
Context `{PgFormat}.

(** ** The first segment *)

(** The flags and remaining length of a page header that pretends that a record
    ends at offset [off] of the page. *)
Definition fake_record (off : Z) (hdr_size : nat) : outcome string (Z * Z) :=
  if 0 <? off then
    if Z.of_nat hdr_size <=? off then Ok (off - Z.of_nat hdr_size, XLP_FIRST_IS_CONTRECORD)
    else Panic
  else Ok (0, 0).

Definition long_header (segno system_id rem_len infoflags : Z) : XLogLongPageHeaderData := {|
  lphd_std := {|
    xlp_magic := wrap 16 XLOG_PAGE_MAGIC;
    xlp_info := Z.lor XLP_LONG_HEADER infoflags;
    xlp_tli := PG_TLI;
    xlp_pageaddr := XLogSegNoOffsetToRecPtr segno 0 WAL_SEGMENT_SIZE;
    xlp_rem_len := wrap 32 rem_len;
  |};
  xlp_sysid := system_id;
  xlp_seg_size := WAL_SEGMENT_SIZE;
  xlp_xlog_blcksz := XLOG_BLCKSZ;
|}.

Definition short_header (lsn rem_len info : Z) : XLogPageHeaderData := {|
  xlp_magic := wrap 16 XLOG_PAGE_MAGIC;
  xlp_info := info;
  xlp_tli := PG_TLI;
  xlp_pageaddr := Lsn_page_lsn lsn;
  xlp_rem_len := wrap 32 rem_len;
|}.

(** [xlog_utils::generate_wal_segment] *)
Definition generate_wal_segment_v (segno system_id : Z) (lsn : Lsn) : outcome string bytes :=
  let page_off := Lsn_block_offset lsn in
  let seg_off := Lsn_segment_offset lsn WAL_SEGMENT_SIZE in
  let first_page_only := seg_off <? XLOG_BLCKSZ in
  long ← (if first_page_only then fake_record seg_off XLOG_SIZE_OF_XLOG_LONG_PHD else Ok (0, 0));
  let hdr_bytes := lphd_encode (long_header segno system_id long.1 long.2) in
  let seg_buf := resize (Z.to_nat WAL_SEGMENT_SIZE) hdr_bytes in
  if first_page_only then Ok seg_buf
  else
    let block_offset := Lsn_page_offset_in_segment lsn WAL_SEGMENT_SIZE in
    short ← fake_record page_off XLOG_SIZE_OF_XLOG_SHORT_PHD;
    let hdr_bytes := phd_encode (short_header lsn short.1 short.2) in
    Ok (splice (Z.to_nat block_offset) hdr_bytes seg_buf).

(** [postgres_ffi::generate_wal_segment], by major version *)
Definition generate_wal_segment (segno system_id pg_version : Z) (lsn : Lsn) : outcome string bytes :=
  if segno =? Lsn_segment_number lsn WAL_SEGMENT_SIZE then
    if (14 <=? pg_version) && (pg_version <=? 17) then generate_wal_segment_v segno system_id lsn
    else Err "BadInput"%string
  else Panic.

(** ** The end of the WAL *)

(** The [.partial] file first; only [NotFound] means that there is none. *)
Definition open_wal_segment (segno wal_seg_size : Z) : IO (option nat) :=
  let '(full, partial) := wal_file_paths segno wal_seg_size in
  r ← st_catch (fs_open partial);
  match r with
  | inl ino => mret (Some ino)
  | inr NotFound =>
    r ← st_catch (fs_open full);
    match r with
    | inl ino => mret (Some ino)
    | inr NotFound => mret None
    | inr e => st_fail e
    end
  | inr e => st_fail e
  end.

(** [read] into a buffer of [n] bytes: as much of the file as there is. *)
Definition fs_read (ino pos n : nat) : IO bytes := faulty (
  d ← st_get;
  match d_inodes d !! ino with
  | Some i => mret (take n (drop pos (i_data i)))
  | None => st_fail OtherIoError
  end).

(** Past all records that are complete; the decoder is gone when it failed. *)
Fixpoint poll_result (fuel : nat) (decoder : WalStreamDecoder) (result : Lsn) :
    fueled IoError (Lsn * option WalStreamDecoder) :=
  match fuel with
  | O => None
  | S fuel' =>
    match poll_decode decoder with
    | Some (Ok (Some record), decoder) => poll_result fuel' decoder record.1
    | Some (Ok None, decoder) => mret (result, Some decoder)
    | Some (Err _, _) => mret (result, None)
    | Some (Panic, _) => Some Panic
    | None => None
    end
  end.

(** Where the loop over a segment stopped: at the end of the WAL, or behind the
    segment. *)
Inductive scan :=
| EndOfWal (result : Lsn)
| NextSegment (curr_lsn result : Lsn) (decoder : WalStreamDecoder).

Definition lift_fueled {A} (m : fueled IoError A) : IO (option A) :=
  match m with
  | Some r => a ← st_lift r; mret (Some a)
  | None => mret None
  end.

Fixpoint scan_segment (fuel : nat) (wal_seg_size segno : Z) (ino pos : nat)
    (curr_lsn result : Lsn) (decoder : WalStreamDecoder) : IO (option scan) :=
  if negb (Lsn_segment_number curr_lsn wal_seg_size =? segno)
  then mret (Some (NextSegment curr_lsn result decoder))
  else
    match fuel with
    | O => mret None
    | S fuel' =>
      buf ← fs_read ino pos (Z.to_nat XLOG_BLCKSZ);
      let bytes_read := length buf in
      if (bytes_read =? 0)%nat then mret (Some (EndOfWal result))
      else
        curr_lsn ← st_lift (Lsn_add curr_lsn (Z.of_nat bytes_read));
        let decoder := feed_bytes decoder buf in
        r ← lift_fueled (poll_result (S (poll_measure decoder)) decoder result);
        match r with
        | None => mret None
        | Some (result, None) => mret (Some (EndOfWal result))
        | Some (result, Some decoder) =>
          scan_segment fuel' wal_seg_size segno ino (pos + bytes_read) curr_lsn result decoder
        end
    end.

Fixpoint scan_segments (fuel fuel_in : nat) (wal_seg_size : Z) (curr_lsn result : Lsn)
    (decoder : WalStreamDecoder) : IO (option Lsn) :=
  match fuel with
  | O => mret None
  | S fuel' =>
    let segno := Lsn_segment_number curr_lsn wal_seg_size in
    seg ← open_wal_segment segno wal_seg_size;
    match seg with
    | None => mret (Some result)
    | Some ino =>
      '(ino, pos) ← fs_seek ino (Z.to_nat (Lsn_segment_offset curr_lsn wal_seg_size));
      r ← scan_segment fuel_in wal_seg_size segno ino pos curr_lsn result decoder;
      match r with
      | None => mret None
      | Some (EndOfWal result) => mret (Some result)
      | Some (NextSegment curr_lsn result decoder) =>
        scan_segments fuel' fuel_in wal_seg_size curr_lsn result decoder
      end
    end
  end.

Definition find_end_of_wal (fuel : nat) (pg_version wal_seg_size : Z) (start_lsn : Lsn) :
    IO (option Lsn) :=
  scan_segments fuel fuel wal_seg_size start_lsn start_lsn
    (WalStreamDecoder_new start_lsn pg_version).
End segment.
