(* ===== verification/PhysicalStorage.v ===== *)
(** * The WAL storage on disk

    [safekeeper/src/wal_storage.rs], [PhysicalStorage]: the WAL of a timeline as
    segment files in its directory, the last of them with the suffix [.partial].
    The directory is a part of the state, in place of its path.  Metrics and
    logging are left out.  The loops run with the fuel that their data needs;
    a loop without fuel would panic, and never does. *)

From S2P Require Import Prelude Bytes Text Lsn TimelineState WalDecoder WalStorage Disk EndOfWal.

(** [phs_file]: an open file is its inode and the position of its cursor. *)
Record PhysicalStorage := mkPhysicalStorage {
  phs_timeline_dir : Dir;
  phs_no_sync : bool;
  phs_wal_seg_size : Z;
  phs_pg_version : Z;
  phs_system_id : Z;
  phs_write_lsn : Lsn;
  phs_write_record_lsn : Lsn;
  phs_flush_lsn : Lsn;
  phs_flush_record_lsn : Lsn;
  phs_decoder : WalStreamDecoder;
  phs_file : option (nat * nat);
  phs_pending_wal_truncation : bool;
}.
#[export] Instance PhysicalStorage_settable : Settable PhysicalStorage := λ s,
  mkPhysicalStorage (phs_timeline_dir s) (phs_no_sync s) (phs_wal_seg_size s) (phs_pg_version s)
    (phs_system_id s) (phs_write_lsn s) (phs_write_record_lsn s) (phs_flush_lsn s)
    (phs_flush_record_lsn s) (phs_decoder s) (phs_file s) (phs_pending_wal_truncation s).

Section storage.
Context `{PgFormat}.
Abbreviation M := (ST PhysicalStorage string).

(** An operation on the timeline directory. *)
Definition disk {A} (m : IO A) : M A :=
  st_zoom phs_timeline_dir (λ d s, s <| phs_timeline_dir := d |>) (st_map_err io_error m).

(** [PhysicalStorage::new]; the fuel is that of [find_end_of_wal]. *)
Definition PhysicalStorage_new (fuel : nat) (timeline_dir : Dir) (state : TimelinePersistentState)
    (no_sync : bool) : fueled string PhysicalStorage :=
  let server := ps_server state in
  let wal_seg_size := si_wal_seg_size server in
  let version := si_pg_version server / 10000 in
  let '(r, dir) :=
    if ps_commit_lsn state =? 0 then (Ok (Some 0), timeline_dir)
    else if (14 <=? version) && (version <=? 17)
    then st_map_err io_error (find_end_of_wal fuel version wal_seg_size (ps_commit_lsn state))
           timeline_dir
    else (Err "unsupported postgres version"%string, timeline_dir) in
  match r with
  | Ok None => None
  | Ok (Some write_lsn) =>
    if write_lsn <? ps_commit_lsn state then Some (Err "potential data loss"%string)
    else mret {|
      phs_timeline_dir := dir;
      phs_no_sync := no_sync;
      phs_wal_seg_size := wal_seg_size;
      phs_pg_version := si_pg_version server;
      phs_system_id := si_system_id server;
      phs_write_lsn := write_lsn;
      phs_write_record_lsn := write_lsn;
      phs_flush_lsn := write_lsn;
      phs_flush_record_lsn := write_lsn;
      phs_decoder := WalStreamDecoder_new write_lsn version;
      phs_file := None;
      phs_pending_wal_truncation := true;
    |}
  | Err e => Some (Err e)
  | Panic => Some Panic
  end.

Definition internal_state (self : PhysicalStorage) : Lsn * Lsn * Lsn * bool :=
  (phs_write_lsn self, phs_write_record_lsn self, phs_flush_record_lsn self,
   bool_decide (is_Some (phs_file self))).

Definition fsync_file (file : nat) : M unit :=
  self ← st_get; if phs_no_sync self then mret tt else disk (fs_sync file).

Definition fdatasync_file (file : nat) : M unit :=
  self ← st_get; if phs_no_sync self then mret tt else disk (fs_sync file).

(** [self.file.take()] *)
Definition take_file : M (option (nat * nat)) :=
  self ← st_get; _ ← st_put (self <| phs_file := None |>); mret (phs_file self).

Definition file_paths (segno : Z) : M (str * str) :=
  self ← st_get; mret (wal_file_paths segno (phs_wal_seg_size self)).

(** A failed opening counts as a missing file, whatever the error.  The
    fail point of the tests is left out. *)
Definition open_or_create (segno : Z) : M (nat * bool) :=
  self ← st_get;
  paths ← file_paths segno;
  let '(wal_file_path, wal_file_partial_path) := paths in
  full ← disk (st_catch (fs_open wal_file_path));
  match full with
  | inl file => mret (file, false)
  | inr _ =>
    partial ← disk (st_catch (fs_open wal_file_partial_path));
    match partial with
    | inl file => mret (file, true)
    | inr _ =>
      let tmp_path := lit "waltmp" in
      file ← disk (fs_create tmp_path);
      _ ← disk (fs_set_len file (Z.to_nat (phs_wal_seg_size self)));
      r ← disk (st_catch (durable_rename tmp_path wal_file_partial_path (negb (phs_no_sync self))));
      match r with
      | inr e =>
        _ ← disk (ignore_not_found (fs_remove_file wal_file_partial_path));
        st_fail (io_error e)
      | inl _ => mret (file, true)
      end
    end
  end.

Definition open_at (segno xlogoff : Z) : M (nat * nat) :=
  file ← take_file;
  match file with
  | Some file => mret file
  | None =>
    opened ← open_or_create segno;
    let '(file, is_partial) := opened in
    _ ← st_assert is_partial;
    disk (fs_seek file (Z.to_nat xlogoff))
  end.

Definition write_in_segment (segno xlogoff : Z) (buf : bytes) : M bool :=
  file ← open_at segno xlogoff;
  file ← disk (fs_write_all file buf);
  _ ← disk fs_flush;
  self ← st_get;
  if xlogoff + Z.of_nat (length buf) =? phs_wal_seg_size self then
    _ ← fdatasync_file file.1;
    paths ← file_paths segno;
    _ ← disk (fs_rename paths.2 paths.1);
    mret true
  else
    _ ← st_modify (λ self, self <| phs_file := Some file |>);
    mret false.

Fixpoint write_loop (fuel : nat) (buf : bytes) : M unit :=
  match buf with
  | [] => mret tt
  | _ =>
    match fuel with
    | O => st_panic
    | S fuel' =>
      self ← st_get;
      let xlogoff := Lsn_segment_offset (phs_write_lsn self) (phs_wal_seg_size self) in
      let segno := Lsn_segment_number (phs_write_lsn self) (phs_wal_seg_size self) in
      let bytes_write :=
        if phs_wal_seg_size self <? xlogoff + Z.of_nat (length buf)
        then Z.to_nat (phs_wal_seg_size self - xlogoff) else length buf in
      flushed ← write_in_segment segno xlogoff (take bytes_write buf);
      self ← st_get;
      write_lsn ← st_lift (Lsn_add (phs_write_lsn self) (Z.of_nat bytes_write));
      _ ← st_modify (λ self, self <| phs_write_lsn := write_lsn |>);
      _ ← (if (flushed : bool)
           then st_modify (λ self, self <| phs_flush_lsn := phs_write_lsn self |>)
           else mret tt);
      write_loop fuel' (drop bytes_write buf)
    end
  end.

(** Flush the open file, if any, before it is discarded. *)
Definition close_file : M unit :=
  file ← take_file;
  match file with
  | Some file => fdatasync_file file.1
  | None => mret tt
  end.

Definition write_exact (pos : Lsn) (buf : bytes) : M unit :=
  self ← st_get;
  _ ← (if negb (phs_write_lsn self =? pos) then
         _ ← close_file;
         st_modify (λ self, self <| phs_write_lsn := pos |>)
       else mret tt);
  write_loop (length buf) buf.

(** [self.decoder.poll_decode()?] *)
Definition poll_decoder : M (option (Lsn * bytes)) := λ self,
  match poll_decode (phs_decoder self) with
  | Some (Ok r, decoder) => (Ok r, self <| phs_decoder := decoder |>)
  | Some (Err e, decoder) => (Err (wde_msg e), self <| phs_decoder := decoder |>)
  | Some (Panic, decoder) => (Panic, self <| phs_decoder := decoder |>)
  | None => (Panic, self)
  end.

Fixpoint poll_loop (fuel : nat) : M unit :=
  match fuel with
  | O => st_panic
  | S fuel' =>
    r ← poll_decoder;
    match r with
    | None => mret tt
    | Some (lsn, _) =>
      _ ← st_modify (λ self, self <| phs_write_record_lsn := lsn |>);
      _ ← st_modify (λ self,
            if lsn <=? phs_flush_lsn self then self <| phs_flush_record_lsn := lsn |> else self);
      poll_loop fuel'
    end
  end.

Definition restart_decoder (startpos : Lsn) : M unit :=
  self ← st_get;
  available ← st_lift (WalStreamDecoder_available (phs_decoder self));
  if negb (available =? startpos)
  then st_modify (λ self, self <| phs_decoder :=
         WalStreamDecoder_new startpos (wd_pg_version (phs_decoder self)) |>)
  else mret tt.

Definition write_wal (startpos : Lsn) (buf : bytes) : M unit :=
  self ← st_get;
  _ ← st_ensure (negb (startpos <? phs_write_lsn self)) "write_wal rewrites WAL written before"%string;
  _ ← st_ensure (negb ((phs_write_lsn self <? startpos) && negb (phs_write_lsn self =? 0)))
        "write_wal creates gap in written WAL"%string;
  _ ← st_ensure (negb (phs_pending_wal_truncation self))
        "write_wal called with pending WAL truncation"%string;
  _ ← write_exact startpos buf;
  _ ← restart_decoder startpos;
  _ ← st_modify (λ self, self <| phs_decoder := feed_bytes (phs_decoder self) buf |>);
  _ ← st_modify (λ self,
        if phs_write_record_lsn self <=? phs_flush_lsn self
        then self <| phs_flush_record_lsn := phs_write_record_lsn self |> else self);
  self ← st_get;
  poll_loop (S (poll_measure (phs_decoder self))).

Definition flush_wal : M unit :=
  self ← st_get;
  if phs_flush_record_lsn self =? phs_write_record_lsn self then mret tt
  else
    file ← take_file;
    match file with
    | None => st_fail "unexpected unflushed data with no open file"%string
    | Some unflushed_file =>
      _ ← fdatasync_file unflushed_file.1;
      _ ← st_modify (λ self, self <| phs_file := Some unflushed_file |>);
      st_modify (λ self, self <| phs_flush_lsn := phs_write_lsn self |>
                              <| phs_flush_record_lsn := phs_write_record_lsn self |>)
    end.

(** [remove_segments_from_disk], over the entries of the directory. *)
Fixpoint remove_entries (wal_seg_size : Z) (remove_predicate : Z → bool) (entries : list str) :
    ST Dir string unit :=
  match entries with
  | [] => st_map_err io_error fs_next_entry
  | fname :: entries' =>
    _ ← st_map_err io_error fs_next_entry;
    _ ← (if negb (IsXLogFileName fname) && negb (IsPartialXLogFileName fname) then mret tt
         else
           seg ← st_lift (match XLogFromFileName fname wal_seg_size with
                          | Ok r => Ok r | Err _ => Err "invalid segment name"%string | Panic => Panic
                          end);
           if remove_predicate seg.1 then st_map_err io_error (fs_remove_file fname) else mret tt);
    remove_entries wal_seg_size remove_predicate entries'
  end.

Definition remove_segments_from_disk (wal_seg_size : Z) (remove_predicate : Z → bool) :
    ST Dir string unit :=
  entries ← st_map_err io_error fs_read_dir;
  remove_entries wal_seg_size remove_predicate entries.

Definition in_dir {A} (m : ST Dir string A) : M A :=
  st_zoom phs_timeline_dir (λ d s, s <| phs_timeline_dir := d |>) m.

(** The part of [truncate_wal] that works on the files. *)
Definition truncate_files (end_pos : Lsn) : M unit :=
  _ ← close_file;
  self ← st_get;
  let xlogoff := Lsn_segment_offset end_pos (phs_wal_seg_size self) in
  let segno := Lsn_segment_number end_pos (phs_wal_seg_size self) in
  _ ← in_dir (remove_segments_from_disk (phs_wal_seg_size self) (λ x, segno <? x));
  opened ← open_or_create segno;
  let '(file, is_partial) := opened in
  _ ← disk (fs_set_len file (Z.to_nat xlogoff));
  _ ← disk (fs_set_len file (Z.to_nat (phs_wal_seg_size self)));
  _ ← fsync_file file;
  if negb is_partial then
    paths ← file_paths segno;
    disk (fs_rename paths.1 paths.2)
  else mret tt.

Definition truncate_wal (end_pos : Lsn) : M unit :=
  self ← st_get;
  if negb (phs_write_record_lsn self =? 0) && (phs_write_record_lsn self <? end_pos)
  then st_fail "truncate_wal called on non-written WAL"%string
  else if negb (phs_pending_wal_truncation self) && (end_pos =? phs_write_lsn self)
          && (end_pos =? phs_flush_record_lsn self)
  then mret tt
  else
    _ ← st_modify (λ self, self <| phs_pending_wal_truncation := true |>
          <| phs_write_lsn := end_pos |> <| phs_flush_lsn := end_pos |>
          <| phs_write_record_lsn := end_pos |> <| phs_flush_record_lsn := end_pos |>);
    _ ← truncate_files end_pos;
    st_modify (λ self, self <| phs_pending_wal_truncation := false |>).

Definition initialize_first_segment (init_lsn : Lsn) : M unit :=
  self ← st_get;
  let segno := Lsn_segment_number init_lsn (phs_wal_seg_size self) in
  opened ← open_or_create segno;
  let '(file, _) := opened in
  let major_pg_version := phs_pg_version self / 10000 in
  wal_seg ← st_lift (generate_wal_segment segno (phs_system_id self) major_pg_version init_lsn);
  file ← disk (fs_seek file 0);
  _ ← disk (fs_write_all file wal_seg);
  disk fs_flush.

Definition remove_up_to (segno_up_to : Z) : M unit :=
  self ← st_get;
  in_dir (remove_segments_from_disk (phs_wal_seg_size self) (λ x, x <=? segno_up_to)).

(** [close] drops the file, without a sync. *)
Definition close : M unit := _ ← take_file; mret tt.

#[export] Instance PhysicalStorage_storage : WalStorage PhysicalStorage := {|
  wal_write_lsn := phs_write_lsn;
  wal_flush_lsn := phs_flush_record_lsn;
  wal_initialize_first_segment := initialize_first_segment;
  wal_write_wal := write_wal;
  wal_truncate_wal := truncate_wal;
  wal_flush_wal := flush_wal;
|}.
End storage.
