(* ===== verification/PhysicalStorageLaws.v ===== *)
(** * The WAL storage on disk keeps the promises of its interface

    [PhysicalStorage] satisfies the laws of [WalStorage], whatever its disk
    does: the theorems of the safekeeper hold on top of it. *)

From S2P Require Import Prelude Bytes Text Lsn TimelineState WalDecoder WalDecoderProps.
From S2P Require Import DecoderPositions WalStorage Disk EndOfWal PhysicalStorage.

(** ** Operations on files *)

Section frame.
Context `{PgFormat}.
Abbreviation M := (ST PhysicalStorage string).

(** [m] changes nothing but the directory and the open file. *)
Definition frame {A} (m : M A) : Prop :=
  ∀ s, ∃ d f, (m s).2 = s <| phs_timeline_dir := d |> <| phs_file := f |>.

Lemma frame_wp {A} (m : M A) Q s :
  frame m → (∀ r d f, Q r (s <| phs_timeline_dir := d |> <| phs_file := f |>)) → wp m Q s.
Proof. intros Hm HQ. destruct (Hm s) as (d & f & Hs). unfold wp. rewrite Hs. apply HQ. Qed.

Lemma frame_pure {A} (m : M A) : (∀ s, (m s).2 = s) → frame m.
Proof. intros Hm s. exists (phs_timeline_dir s), (phs_file s). rewrite Hm. by destruct s. Qed.

Lemma frame_bind {A B} (m : M A) (f : A → M B) : frame m → (∀ a, frame (f a)) → frame (m ≫= f).
Proof.
  intros Hm Hf s. unfold mbind, ST_bind. destruct (Hm s) as (d & fl & Hs).
  destruct (m s) as [[a|e|] s1]; simpl in *; [|eauto..].
  destruct (Hf a s1) as (d' & fl' & Hs'). exists d', fl'. by rewrite Hs', Hs.
Qed.

Lemma frame_get : frame st_get. Proof. by apply frame_pure. Qed.
Lemma frame_ret {A} (a : A) : frame (mret a). Proof. by apply frame_pure. Qed.
Lemma frame_fail {A} e : frame (st_fail e : M A). Proof. by apply frame_pure. Qed.
Lemma frame_lift {A} (r : outcome string A) : frame (st_lift r). Proof. by apply frame_pure. Qed.
Lemma frame_assert b : frame (st_assert b).
Proof. apply frame_pure. by destruct b. Qed.

Lemma frame_in_dir {A} (m : ST Dir string A) : frame (in_dir m).
Proof.
  intros s. unfold in_dir, st_zoom. destruct (m (phs_timeline_dir s)) as [r d]. simpl.
  exists d, (phs_file s). by destruct s.
Qed.

Lemma frame_disk {A} (m : IO A) : frame (disk m).
Proof. apply frame_in_dir. Qed.

Lemma frame_take_file : frame take_file.
Proof. intros s. exists (phs_timeline_dir s), None. by destruct s. Qed.

Lemma frame_put_file f : frame (st_modify (λ self, self <| phs_file := f |>)).
Proof. intros s. exists (phs_timeline_dir s), f. by destruct s. Qed.
End frame.

Create HintDb frames.
#[export] Hint Resolve frame_get frame_ret frame_fail frame_lift frame_assert frame_in_dir
  frame_disk frame_take_file frame_put_file : frames.

(** Through the binds and the case distinctions of an operation. *)
Ltac solve_frame :=
  repeat match goal with
  | |- frame (_ ≫= _) => apply frame_bind; [|intros ?]
  | |- frame (let '(_, _) := ?x in _) => destruct x
  | |- frame (if ?b then _ else _) => destruct b
  | |- frame (match ?x with _ => _ end) => destruct x
  end; auto with frames.

Section files.
Context `{PgFormat}.

Lemma frame_sync file : frame (fdatasync_file file).
Proof. unfold fdatasync_file. solve_frame. Qed.

Lemma frame_fsync file : frame (fsync_file file).
Proof. unfold fsync_file. solve_frame. Qed.

Lemma frame_paths segno : frame (file_paths segno).
Proof. unfold file_paths. solve_frame. Qed.

Lemma frame_close_file : frame close_file.
Proof. unfold close_file. solve_frame; apply frame_sync. Qed.

Lemma frame_open_or_create segno : frame (open_or_create segno).
Proof. unfold open_or_create. solve_frame; apply frame_paths. Qed.

Lemma frame_open_at segno xlogoff : frame (open_at segno xlogoff).
Proof. unfold open_at. solve_frame; apply frame_open_or_create. Qed.

Lemma frame_write_in_segment segno xlogoff buf : frame (write_in_segment segno xlogoff buf).
Proof.
  unfold write_in_segment. solve_frame; auto using frame_open_at, frame_sync, frame_paths.
Qed.

Lemma frame_truncate_files end_pos : frame (truncate_files end_pos).
Proof.
  unfold truncate_files.
  solve_frame; auto using frame_close_file, frame_open_or_create, frame_fsync, frame_paths.
Qed.

Lemma frame_initialize init_lsn : frame (initialize_first_segment init_lsn).
Proof. unfold initialize_first_segment. solve_frame; apply frame_open_or_create. Qed.
End files.

(** ** Writing *)

Section laws.
Context `{PgSizes}.
Implicit Types s : PhysicalStorage.

(** After a write that started in [s]: a failed one has stopped where it began or
    at the start of a segment. *)
Definition written s (len : Z) (r : outcome string unit) s' : Prop :=
  ∃ d f w fl,
    s' = s <| phs_timeline_dir := d |> <| phs_file := f |> <| phs_write_lsn := w |>
           <| phs_flush_lsn := fl |>
    ∧ phs_write_lsn s ≤ w ≤ phs_write_lsn s + len
    ∧ match r with
      | Ok _ => w = phs_write_lsn s + len
      | _ => w = phs_write_lsn s ∨ w mod phs_wal_seg_size s = 0
      end.

Lemma written_here s len r d f :
  0 ≤ len → r ≠ Ok tt →
  written s len r (s <| phs_timeline_dir := d |> <| phs_file := f |>).
Proof.
  intros Hlen Hr. exists d, f, (phs_write_lsn s), (phs_flush_lsn s). destruct s. simpl.
  split; [done|]. split; [lia|]. destruct r as [[]|e|]; [done|by left..].
Qed.

(** The part of the buffer that fits into the segment *)
Lemma bytes_to_write w n seg :
  0 < seg → (0 < n)%nat →
  let off := Lsn_segment_offset w seg in
  let bw := if seg <? off + Z.of_nat n then Z.to_nat (seg - off) else n in
  (0 < bw ≤ n)%nat ∧ (bw = n ∨ (w + Z.of_nat bw) mod seg = 0).
Proof.
  intros Hseg Hn off bw. assert (Hoff : 0 ≤ off < seg) by (apply Z.mod_pos_bound; lia). unfold bw.
  destruct (Z.ltb_spec seg (off + Z.of_nat n)).
  - split; [lia|right]. rewrite Z2Nat.id by lia. unfold off, Lsn_segment_offset.
    rewrite Z.add_sub_assoc, <- Zminus_mod_idemp_r, Zmod_mod, Zminus_mod_idemp_r.
    replace (w + seg - w) with seg by lia. apply Z_mod_same_full.
  - split; [lia|by left].
Qed.

Lemma write_loop_written fuel : ∀ buf s,
  0 < phs_wal_seg_size s →
  wp (write_loop fuel buf) (written s (Z.of_nat (length buf))) s.
Proof.
  induction fuel as [|fuel IH]; intros buf s Hseg.
  { destruct buf; simpl; wp_step.
    - exists (phs_timeline_dir s), (phs_file s), (phs_write_lsn s), (phs_flush_lsn s).
      destruct s. simpl. split_and!; (done || lia).
    - exists (phs_timeline_dir s), (phs_file s), (phs_write_lsn s), (phs_flush_lsn s).
      destruct s. simpl. split; [done|]. split; [lia|by left]. }
  destruct buf as [|x l]; cbn [write_loop].
  { wp_step. exists (phs_timeline_dir s), (phs_file s), (phs_write_lsn s), (phs_flush_lsn s).
    destruct s. simpl. split_and!; (done || lia). }
  set (buf := x :: l). assert (Hlen : (0 < length buf)%nat) by (simpl; lia).
  wp_step. wp_step. destruct (bytes_to_write (phs_write_lsn s) (length buf) (phs_wal_seg_size s) Hseg Hlen) as [Hbw Hend].
  set (xlogoff := Lsn_segment_offset _ _) in *. set (segno := Lsn_segment_number _ _).
  set (bw := if _ <? _ then _ else length buf) in *. clearbody bw xlogoff segno.
  wp_step. apply frame_wp; [apply frame_write_in_segment|]. intros r d f.
  destruct r as [flushed|e|]; [|by apply written_here; [lia|]..].
  wp_step. wp_step. wp_step. wp_step. unfold Lsn_add, checked_add, unwrap. simpl phs_write_lsn.
  destruct (_ <? _); [|by apply written_here; [lia|]].
  wp_step. wp_step. simpl.
  set (s1 := s <| phs_timeline_dir := d |> <| phs_file := f |> <| phs_write_lsn := _ |>).
  assert (Hrest : ∀ fl, wp (write_loop fuel (drop bw buf)) (written s (Z.of_nat (length buf)))
                          (s1 <| phs_flush_lsn := fl |>)).
  { intros fl. set (s2 := s1 <| phs_flush_lsn := fl |>). destruct Hend as [->|Hend].
    { rewrite drop_ge by done. destruct fuel; simpl; wp_step;
        exists d, f, (phs_write_lsn s + Z.of_nat (length buf)), fl; unfold s2, s1; destruct s; simpl;
        split_and!; (done || lia). }
    eapply wp_mono; [by apply (IH (drop bw buf) s2)|].
    intros r s' (d' & f' & w & fl' & -> & Hw & Hr). exists d', f', w, fl'.
    rewrite length_drop in *. unfold s2, s1 in *. simpl in *. split; [by destruct s|].
    split; [lia|]. destruct r as [[]|e|]; [lia|..]; naive_solver. }
  wp_step. destruct flushed; wp_step; [apply Hrest|].
  specialize (Hrest (phs_flush_lsn s)). by destruct s.
Qed.

(** ** The invariant *)

(** The record LSNs are in order and cover no more than what was written, up to
    the padding of the last record, which the decoder is about to skip; the
    decoder never goes back behind them.  A storage without WAL has a fresh
    decoder, and must be truncated before it is written. *)
Record storage_inv s : Prop := {
  si_seg_size : phs_wal_seg_size s = WAL_SEGMENT_SIZE;
  si_decoder : decoder_wf (phs_decoder s) ∧ skip_ok (phs_decoder s) ∧ 0 ≤ wd_lsn (phs_decoder s);
  si_positive : 0 ≤ phs_write_lsn s ∧ 0 ≤ phs_write_record_lsn s;
  si_written : phs_write_record_lsn s ≤ phs_write_lsn s
               ∨ at_pos (phs_write_lsn s) (phs_decoder s)
                 ∧ phs_write_record_lsn s ≤ dec_end (phs_decoder s);
  si_ahead : phs_write_record_lsn s ≤ dec_end (phs_decoder s)
             ∨ wd_lsn (phs_decoder s) + wd_remaining (phs_decoder s) = 0 ∧ 0 < phs_write_lsn s;
  si_flushed : phs_flush_record_lsn s ≤ phs_write_record_lsn s;
  si_empty : phs_write_record_lsn s = 0 →
             wd_lsn (phs_decoder s) + wd_remaining (phs_decoder s) = 0
             ∧ phs_pending_wal_truncation s = true;
}.

Lemma storage_inv_frame s d f :
  storage_inv s → storage_inv (s <| phs_timeline_dir := d |> <| phs_file := f |>).
Proof. by intros []. Qed.

(** A write that failed. *)
Lemma written_inv s len r s' :
  storage_inv s → written s len r s' → r ≠ Ok tt →
  storage_inv s' ∧ phs_flush_record_lsn s' = phs_flush_record_lsn s.
Proof.
  intros Hinv (d & f & w & fl & -> & Hw & Hr) Hne. split; [|done].
  destruct r as [[]|e|]; [done|..].
  all: pose proof Hinv as [Hseg (Hwf & Hok & Hpos) [Hp1 Hp2] Hwr Hah Hfl Hemp]; rewrite Hseg in Hr;
    split; simpl; try done; try lia.
  all: destruct Hr as [->|Hm]; [done|left]; destruct Hwr as [Hwr|[(_ & _ & _ & Hav) Hwr]]; [lia|];
    transitivity (dec_end (phs_decoder s)); [done|];
    assert (0 ≤ wd_remaining (phs_decoder s)) by (unfold wd_remaining; lia);
    unfold dec_end, skip_ok in *; destruct (wd_state (phs_decoder s)); [lia..|];
    transitivity (seg_ceil (wd_lsn (phs_decoder s))); [lia|apply seg_ceil_least; [lia|done]].
Qed.

(** While the decoder is polled: it has been fed all that was written. *)
Record polling s : Prop := {
  po_seg_size : phs_wal_seg_size s = WAL_SEGMENT_SIZE;
  po_decoder : at_pos (phs_write_lsn s) (phs_decoder s);
  po_room : phs_write_lsn s ≤ 2 ^ 64 - 8;
  po_positive : 0 < phs_write_record_lsn s;
  po_ahead : phs_write_record_lsn s ≤ dec_end (phs_decoder s);
  po_flushed : phs_flush_record_lsn s ≤ phs_write_record_lsn s;
}.

Lemma polling_inv s : polling s → storage_inv s.
Proof.
  intros [Hseg Hat Hmax Hp Hah Hfl]. pose proof Hat as (Hwf & Hok & Hpos & Hav).
  assert (0 ≤ wd_remaining (phs_decoder s)) by (unfold wd_remaining; lia).
  split; (done || lia || tauto).
Qed.

Lemma stopped_inv s d :
  polling s → stopped (phs_write_lsn s) d → dec_end (phs_decoder s) ≤ dec_end d →
  storage_inv (s <| phs_decoder := d |>).
Proof.
  intros [Hseg Hat Hmax Hp Hah Hfl] (Hwf & Hns & Hpos & Hav) Hle.
  assert (0 ≤ wd_remaining d) by (unfold wd_remaining; lia).
  assert (Hend : dec_end d = wd_lsn d).
  { unfold dec_end. by destruct (wd_state d); [..|destruct (Hns skip_until_lsn)]. }
  assert (Hok : skip_ok d).
  { unfold skip_ok. by destruct (wd_state d); [..|destruct (Hns skip_until_lsn)]. }
  split; simpl; (done || lia || tauto || (left; lia)).
Qed.

Definition not_back s s' : Prop :=
  storage_inv s' ∧ phs_write_lsn s' = phs_write_lsn s
  ∧ phs_flush_record_lsn s ≤ phs_flush_record_lsn s'.

Lemma poll_loop_inv fuel : ∀ s,
  polling s → wp (poll_loop fuel) (λ _ s', not_back s s') s.
Proof.
  induction fuel as [|fuel IH]; intros s Hs; cbn [poll_loop].
  { wp_step. split; [by apply polling_inv|done]. }
  pose proof Hs as [Hseg Hat Hmax Hp Hah Hfl].
  wp_step. apply run_wp. unfold poll_decoder. intros r s' Hr.
  destruct (poll_decode_cases (phs_decoder s)) as [Hp'|[e He]].
  2:{ rewrite He in Hr. injection Hr as <- <-. split; [|done]. apply polling_inv. by destruct s. }
  rewrite Hp' in Hr. destruct (poll_decode_internal _ _) as [[ri d]|] eqn:Hi.
  2:{ injection Hr as <- <-. split; [by apply polling_inv|done]. }
  apply (poll_decode_internal_polled _ (phs_write_lsn s)) in Hi; [|done..].
  destruct ri as [[[l rec]|]|e|]; injection Hr as <- <-; simpl in Hi.
  - destruct Hi as (Hat' & Hle & Hst). wp_step. wp_step. wp_step. wp_step. simpl.
    assert (Hend : dec_end d = l) by (unfold dec_end; by rewrite Hst).
    set (s1 := if _ <=? _ then _ else _).
    assert (Hs1 : polling s1 ∧ phs_write_lsn s1 = phs_write_lsn s
                  ∧ phs_flush_record_lsn s ≤ phs_flush_record_lsn s1).
    { unfold s1. case_match; simpl; (split; [|lia]); split; simpl; (done || lia). }
    destruct Hs1 as (Hpo & Hw & Hf). eapply wp_mono; [by apply IH|].
    intros r s' (Hi' & Hw' & Hf'). split_and!; (done || lia || congruence).
  - destruct Hi as [Hat' Hle]. wp_step. split; [|done]. apply polling_inv. split; simpl; (done || lia).
  - destruct Hi as [Hst Hle]. split; [|done]. by apply stopped_inv.
  - destruct Hi as [Hst Hle]. split; [|done]. by apply stopped_inv.
Qed.

(** ** The laws *)

Lemma remaining_nonneg d : 0 ≤ wd_remaining d.
Proof. unfold wd_remaining. lia. Qed.

Lemma storage_inv_longer s d f w fl :
  storage_inv s → phs_write_record_lsn s ≤ phs_write_lsn s → phs_write_lsn s ≤ w →
  storage_inv (s <| phs_timeline_dir := d |> <| phs_file := f |> <| phs_write_lsn := w |>
                 <| phs_flush_lsn := fl |>).
Proof. intros [] ? ?. split; simpl; (done || lia || naive_solver lia). Qed.

(** A storage that may be written is written at its end. *)
Lemma write_at_end s startpos :
  storage_inv s → phs_pending_wal_truncation s = false → phs_write_lsn s ≤ startpos →
  (phs_write_lsn s <? startpos) = false ∨ negb (phs_write_lsn s =? 0) = false →
  0 < phs_write_record_lsn s ∧ 0 < phs_write_lsn s ∧ startpos = phs_write_lsn s.
Proof.
  intros [Hseg (Hwf & Hok & Hpos) [Hp1 Hp2] Hwr Hah Hfl Hemp] Hpend Hle Hb.
  assert (Hr : 0 < phs_write_record_lsn s).
  { destruct (decide (phs_write_record_lsn s = 0)) as [[_ ?]%Hemp|]; [congruence|lia]. }
  assert (Hw : phs_write_lsn s ≠ 0).
  { intros Hw. destruct Hwr as [|[(_ & _ & _ & Hav) Hwr]]; [lia|].
    pose proof (remaining_nonneg (phs_decoder s)). assert (Hl : wd_lsn (phs_decoder s) = 0) by lia.
    unfold dec_end, skip_ok in *. rewrite Hl in *. destruct (wd_state (phs_decoder s)); [lia..|].
    change (seg_ceil 0) with 0 in Hok. lia. }
  split_and!; [done|lia|]. destruct Hb; bool_prop; lia.
Qed.

(** The decoder, where the write began. *)
Lemma restart_decoder_spec s w :
  storage_inv s → phs_write_lsn s = w → 0 < w →
  ∀ s1 d f wl fl,
    s1 = s <| phs_timeline_dir := d |> <| phs_file := f |> <| phs_write_lsn := wl |>
           <| phs_flush_lsn := fl |> →
    wp (restart_decoder w) (λ r s', match r with
      | Ok _ => ∃ dec, s' = s1 <| phs_decoder := dec |> ∧ at_pos w dec
                       ∧ phs_write_record_lsn s ≤ dec_end dec
      | _ => s' = s1 ∧ phs_write_record_lsn s ≤ w
      end) s1.
Proof.
  intros Hinv Hw Hpos s1 d f wl fl ->.
  pose proof Hinv as [Hseg (Hwf & Hok & Hlsn) [Hp1 Hp2] Hwr Hah Hfl Hemp]. rewrite Hw in *.
  unfold restart_decoder. wp_step. wp_step. wp_step. wp_step. simpl phs_decoder.
  unfold WalStreamDecoder_available, Lsn_add, checked_add, unwrap.
  pose proof (remaining_nonneg (phs_decoder s)) as Hrem.
  destruct (Z.ltb_spec (wd_lsn (phs_decoder s) + wd_remaining (phs_decoder s)) (2 ^ 64)).
  2:{ split; [done|]. destruct Hwr as [|[(_ & _ & _ & Hav) Hwr]]; [done|].
      unfold dec_end, skip_ok in *. destruct (wd_state (phs_decoder s)); lia. }
  wp_step; bool_prop.
  - wp_step. eexists. split; [done|]. split; [apply at_pos_new; lia|].
    destruct Hwr as [|[(_ & _ & _ & Hav) _]]; [done|lia].
  - wp_step. exists (phs_decoder s). split; [by destruct s|]. split; [by split_and!|].
    destruct Hah as [|[? ?]]; [done|lia].
Qed.

Lemma write_wal_law s startpos buf :
  storage_inv s → lsn_room startpos buf → phs_write_lsn s ≤ startpos →
  wp (write_wal startpos buf) (λ r s',
    storage_inv s' ∧ phs_flush_record_lsn s ≤ phs_flush_record_lsn s'
    ∧ (r = Ok tt → phs_write_lsn s' = startpos + Z.of_nat (length buf))) s.
Proof.
  intros Hinv [Hu Hroom] Hle. unfold write_wal.
  wp_step. wp_step. wp_step. wp_step; bool_prop; [|done].
  wp_step. wp_step; [|done]. wp_step. wp_step; bool_prop; [|done].
  destruct (write_at_end s startpos) as (Hr & Hw & ->); [done..|].
  unfold write_exact. wp_step. wp_step. wp_step. rewrite Z.eqb_refl. simpl negb. cbv iota.
  wp_step. wp_step. eapply wp_mono.
  { apply write_loop_written. by rewrite (si_seg_size s). }
  intros r s1 Hwr. destruct r as [[]|e|].
  2,3: destruct (written_inv s _ _ _ Hinv Hwr) as [Hi1 ->]; [done|by split_and!].
  destruct Hwr as (d & f & wl & fl & Hs1 & _ & Hwl).
  wp_step. eapply wp_mono; [by eapply restart_decoder_spec|].
  intros r s2 Hs2. pose proof Hinv as [Hseg _ _ _ _ Hfl _]. destruct r as [[]|e|].
  2,3: destruct Hs2 as [-> Hle2]; subst s1; simpl; split_and!; [|done..];
    apply storage_inv_longer; (done || lia).
  destruct Hs2 as (dec & -> & Hat & Hend). subst s1 wl.
  wp_step. wp_step. wp_step. wp_step. wp_step. wp_step.
  match goal with |- wp _ _ ?s => set (s3 := s) end.
  assert (Hs3 : polling s3 ∧ phs_write_lsn s3 = phs_write_lsn s + Z.of_nat (length buf)
                ∧ phs_flush_record_lsn s ≤ phs_flush_record_lsn s3).
  { unfold s3. simpl. case_match; simpl; (split; [|lia]); split; simpl; try (done || lia);
      (by apply at_pos_feed) || done. }
  destruct Hs3 as (Hpo & Hw3 & Hf3). eapply wp_mono; [by apply poll_loop_inv|].
  intros r s' (Hi' & Hw' & Hf'). split_and!; (done || lia).
Qed.

Lemma truncate_wal_law s end_pos :
  storage_inv s → 0 < end_pos →
  wp (truncate_wal end_pos) (λ r s',
    storage_inv s'
    ∧ (phs_flush_record_lsn s' = end_pos ∨ phs_flush_record_lsn s' = phs_flush_record_lsn s)
    ∧ (r = Ok tt → phs_flush_record_lsn s' = end_pos ∧ phs_write_lsn s' = end_pos)) s.
Proof.
  intros Hinv Hpos. unfold truncate_wal. wp_step. wp_step.
  wp_step; [wp_step; naive_solver|]. wp_step; [wp_step; bool_prop; naive_solver|].
  wp_step. wp_step. set (s1 := _ <| phs_flush_record_lsn := end_pos |>).
  assert (Hs1 : ∀ b, storage_inv (s1 <| phs_pending_wal_truncation := b |>)).
  { intros b. destruct Hinv as [Hseg (Hwf & Hok & Hlsn) [Hp1 Hp2] Hwr Hah Hfl Hemp].
    split; simpl; (done || lia). }
  wp_step. apply frame_wp; [apply frame_truncate_files|]. intros r d f.
  destruct r as [[]|e|].
  - wp_step. split; [|simpl; tauto]. apply (storage_inv_frame _ d f (Hs1 false)).
  - split; [|simpl; naive_solver]. apply (storage_inv_frame _ d f (Hs1 true)).
  - split; [|simpl; naive_solver]. apply (storage_inv_frame _ d f (Hs1 true)).
Qed.

Lemma flush_wal_law s :
  storage_inv s →
  wp flush_wal (λ _ s',
    storage_inv s' ∧ phs_write_lsn s' = phs_write_lsn s
    ∧ phs_flush_record_lsn s ≤ phs_flush_record_lsn s') s.
Proof.
  intros Hinv. assert (Hfl := si_flushed s Hinv). unfold flush_wal. wp_step. wp_step.
  wp_step; [by wp_step|]. wp_step. apply frame_wp; [apply frame_take_file|]. intros r d f.
  pose proof (storage_inv_frame s d f Hinv) as Hi1.
  destruct r as [[file|]|e|]; [|by split_and!..].
  wp_step. apply frame_wp; [apply frame_sync|]. intros r d' f'.
  destruct r as [[]|e|]; [|split; [by apply storage_inv_frame|done]..].
  wp_step. wp_step. wp_step. split; [|simpl; lia]. destruct Hinv. split; simpl; (done || lia).
Qed.

#[export] Program Instance PhysicalStorage_laws : WalStorageLaws PhysicalStorage := {|
  wal_inv := storage_inv;
|}.
Next Obligation.
  intros s init_lsn Hinv. apply frame_wp; [apply frame_initialize|]. intros r d f.
  split; [by apply storage_inv_frame|done].
Qed.
Next Obligation. intros s startpos buf ???. by apply write_wal_law. Qed.
Next Obligation. intros s end_pos ? [??]. by apply truncate_wal_law. Qed.
Next Obligation. intros s ?. by apply flush_wal_law. Qed.
End laws.
