(* ===== verification/WalOnDisk.v ===== *)
(** * WAL in the timeline directory

    Which byte of the WAL is where in the files of the timeline directory, which
    of them survive a crash, and that the operations on files keep them. *)

From S2P Require Import Prelude Bytes Text Lsn TimelineState WalDecoder Disk EndOfWal.

Definition seg_name (z sz : Z) : str := XLogFileName PG_TLI z sz.
Definition seg_partial (z sz : Z) : str := seg_name z sz ++ lit ".partial".
Definition waltmp : str := lit "waltmp".

Section names.
Context {sz : Z} (Hsz : 0 < sz) (Hdiv : (sz | 2 ^ 32)).

(** The numbers of the segments that LSNs fall into. *)
Definition seg_ok (z : Z) : Prop := 0 ≤ z ∧ z * sz < 2 ^ 64.

Lemma seg_ok_lsn lsn : in_u 64 lsn → seg_ok (lsn / sz).
Proof.
  unfold in_u, seg_ok. intros Hl. split; [apply Z.div_pos; lia|].
  pose proof (Z.mul_div_le lsn sz Hsz). lia.
Qed.

Lemma seg_size_bound : sz ≤ 2 ^ 32.
Proof using Hsz Hdiv. apply Z.divide_pos_le; done. Qed.

Lemma seg_range z : seg_ok z → 0 ≤ z < 2 ^ 32 * XLogSegmentsPerXLogId sz.
Proof using Hsz Hdiv.
  intros [Hz Hm]. split; [done|]. unfold XLogSegmentsPerXLogId.
  destruct Hdiv as [k Hk]. rewrite Hk, Z.div_mul by lia. nia.
Qed.

Lemma seg_name_parse z suffix :
  seg_ok z → Forall (λ c, c < 128) suffix →
  IsXLogFileName (seg_name z sz) = true
  ∧ XLogFromFileName (seg_name z sz ++ suffix) sz = Ok (z, PG_TLI).
Proof using Hsz Hdiv.
  intros Hz Hs. pose proof seg_size_bound. apply XLogFileName_parse; [done|done|by apply seg_range|done].
Qed.

Lemma partial_ascii : Forall (λ c, c < 128) (lit ".partial").
Proof. by repeat constructor. Qed.

Lemma seg_name_length z : seg_ok z → length (seg_name z sz) = 24%nat.
Proof using Hsz Hdiv.
  intros Hz. apply XLogFileName_length. by apply (seg_name_parse z []).
Qed.

Lemma seg_name_inj a b : seg_ok a → seg_ok b → seg_name a sz = seg_name b sz → a = b.
Proof using Hsz Hdiv.
  intros Ha Hb He. destruct (seg_name_parse a [] Ha) as [_ Ha']; [done|].
  destruct (seg_name_parse b [] Hb) as [_ Hb']; [done|]. rewrite He in Ha'. congruence.
Qed.

Lemma seg_partial_inj a b : seg_ok a → seg_ok b → seg_partial a sz = seg_partial b sz → a = b.
Proof using Hsz Hdiv.
  intros Ha Hb He. destruct (seg_name_parse a _ Ha partial_ascii) as [_ Ha'].
  destruct (seg_name_parse b _ Hb partial_ascii) as [_ Hb']. unfold seg_partial in He. congruence.
Qed.

Lemma seg_name_partial_ne a b : seg_ok a → seg_ok b → seg_name a sz ≠ seg_partial b sz.
Proof using Hsz Hdiv.
  intros Ha Hb He%(f_equal length). unfold seg_partial in He.
  rewrite length_app, !seg_name_length in He by done. done.
Qed.

Lemma seg_name_tmp_ne a : seg_ok a → seg_name a sz ≠ waltmp ∧ seg_partial a sz ≠ waltmp.
Proof using Hsz Hdiv.
  intros Ha. unfold seg_partial.
  split; intros He%(f_equal length); rewrite ?length_app, seg_name_length in He by done; done.
Qed.

(** ** The file of a segment *)

(** As the readers find it: the partial file first. *)
Definition seg_inode (names : gmap str nat) (z : Z) : option nat :=
  match names !! seg_partial z sz with
  | Some ino => Some ino
  | None => names !! seg_name z sz
  end.

(** The directory in use.  Every segment has one name, in every version that may
    be left by a crash, and a file of its own; the file under construction is
    none of them; files do not outgrow a segment; and the names of segments are
    durable, but for the segment [e] that is just being created.  Openings and
    removals do not fail. *)
Record dir_wf (e : option Z) (d : Dir) : Prop := {
  wf_one_name n z : n ∈ versions d → seg_ok z →
    n !! seg_name z sz = None ∨ n !! seg_partial z sz = None;
  wf_inj n n' a b ino : n ∈ versions d → n' ∈ versions d → seg_ok a → seg_ok b →
    seg_inode n a = Some ino → seg_inode n' b = Some ino → a = b;
  wf_tmp n z ino : n ∈ versions d → seg_ok z → d_names d !! waltmp = Some ino →
    seg_inode n z ≠ Some ino;
  wf_tmp_old n z ino : n ∈ versions d → seg_ok z → n !! waltmp = Some ino →
    seg_inode n z ≠ Some ino;
  wf_ino n p ino : n ∈ versions d → n !! p = Some ino → (ino < length (d_inodes d))%nat;
  wf_len n z ino i v : n ∈ versions d → seg_ok z →
    seg_inode n z = Some ino ∨ n !! waltmp = Some ino →
    d_inodes d !! ino = Some i → v ∈ contents i → (length v ≤ Z.to_nat sz)%nat;
  wf_stable n z ino : n ∈ versions d → seg_ok z → e ≠ Some z →
    seg_inode (d_names d) z = Some ino → seg_inode n z = Some ino;
  wf_quiet : d_open_faults d = [] ∧ d_remove_faults d = [];
}.

(** The byte of the WAL at [lsn], in the file and on the disk. *)
Definition stored (d : Dir) (lsn : Z) (b : byte) : Prop :=
  ∃ ino i, seg_inode (d_names d) (lsn / sz) = Some ino ∧ d_inodes d !! ino = Some i
           ∧ i_data i !! Z.to_nat (lsn mod sz) = Some b.

Definition durable (d : Dir) (lsn : Z) (b : byte) : Prop :=
  ∃ ino i, seg_inode (d_names d) (lsn / sz) = Some ino ∧ d_inodes d !! ino = Some i
           ∧ ∀ v, v ∈ contents i → v !! Z.to_nat (lsn mod sz) = Some b.

Lemma durable_stored d lsn b : durable d lsn b → stored d lsn b.
Proof. intros (ino & i & ? & ? & Hv). exists ino, i. split_and!; [done..|]. apply Hv. left. Qed.

(** A durable byte is there after a crash. *)
Lemma durable_crash d d' lsn b :
  dir_wf None d → in_u 64 lsn → durable d lsn b → crash d d' → stored d' lsn b.
Proof using Hsz.
  intros Hwf Hl (ino & i & Hino & Hi & Hv) [Hn _ Hinodes].
  pose proof (wf_stable _ _ Hwf _ _ _ Hn (seg_ok_lsn lsn Hl) ltac:(done) Hino) as Hino'.
  destruct (Forall2_lookup_l _ _ _ _ _ Hinodes Hi) as (i' & Hi' & Hc & _).
  exists ino, i'. split_and!; [done..|]. destruct (Hc (Z.to_nat (lsn mod sz))) as (v & Hin & ->).
  by apply Hv.
Qed.

(** Without a sync pending, all that is there is durable. *)
Lemma crash_durable d d' lsn b : crash d d' → stored d' lsn b → durable d' lsn b.
Proof.
  intros [_ _ Hinodes] (ino & i & Hino & Hi & Hb). exists ino, i. split_and!; [done..|].
  destruct (Forall2_lookup_r _ _ _ _ _ Hinodes Hi) as (i0 & _ & _ & Hold).
  unfold contents. rewrite Hold. by intros v ->%list_elem_of_singleton.
Qed.

(** A crash leaves a directory that can be used again. *)
Lemma crash_wf d d' :
  dir_wf None d → crash d d' → d_open_faults d' = [] → d_remove_faults d' = [] → dir_wf None d'.
Proof.
  intros [] [Hn Hold Hinodes] Ho Hr.
  assert (Hv : ∀ n, n ∈ versions d' → n = d_names d').
  { intros n. unfold versions. rewrite Hold. by intros ->%list_elem_of_singleton. }
  split; try done.
  - intros n z ->%Hv. by apply wf_one_name0.
  - intros n n' a b ino ->%Hv ->%Hv. by apply wf_inj0.
  - intros n z ino ->%Hv. by apply wf_tmp_old0.
  - intros n z ino ->%Hv. by apply wf_tmp_old0.
  - intros n p ino ->%Hv. rewrite <- (Forall2_length _ _ _ Hinodes). by apply wf_ino0.
  - intros n z ino i' v ->%Hv Hz Hor Hi' Hin.
    destruct (Forall2_lookup_r _ _ _ _ _ Hinodes Hi') as (i & Hi & Hc & Hold').
    unfold contents in Hin. rewrite Hold', list_elem_of_singleton in Hin. subst v.
    destruct (decide (length (i_data i') ≤ Z.to_nat sz)%nat) as [|Hlt]; [done|].
    destruct (Hc (Z.to_nat sz)) as (v & Hin & Hlook).
    assert (length v ≤ Z.to_nat sz)%nat by by eapply wf_len0.
    rewrite (lookup_ge_None_2 v) in Hlook by done. apply lookup_ge_None_1 in Hlook. lia.
  - by intros n z ino ->%Hv.
Qed.

(** [d'] still has the bytes of [d] at the positions in [P]. *)
Definition keeps (P : Z → Prop) (d d' : Dir) : Prop :=
  ∀ lsn b, in_u 64 lsn → P lsn →
    (stored d lsn b → stored d' lsn b) ∧ (durable d lsn b → durable d' lsn b).

Lemma keeps_refl P d : keeps P d d. Proof. by intros lsn b. Qed.

Lemma keeps_trans P d1 d2 d3 : keeps P d1 d2 → keeps P d2 d3 → keeps P d1 d3.
Proof. intros H1 H2 lsn b Hu Hl. destruct (H1 lsn b Hu Hl), (H2 lsn b Hu Hl). auto. Qed.

Lemma keeps_mono (P Q : Z → Prop) d d' : keeps P d d' → (∀ lsn, Q lsn → P lsn) → keeps Q d d'.
Proof. intros Hk HQ lsn b Hu Hl. apply Hk; auto. Qed.
End names.
Arguments seg_ok : clear implicits.
Arguments seg_inode : clear implicits.
Arguments dir_wf : clear implicits.
Arguments stored : clear implicits.
Arguments durable : clear implicits.
Arguments keeps : clear implicits.

(** ** Operations on files *)

Section ops.
Context {sz : Z} (Hsz : 0 < sz) (Hdiv : (sz | 2 ^ 32)).
Abbreviation dir_wf := (dir_wf sz).
Abbreviation keeps := (keeps sz).
Abbreviation seg_inode := (seg_inode sz).
Abbreviation seg_ok := (seg_ok sz).
Implicit Types d : Dir.

(** [op] keeps the directory well formed and the bytes at the positions in [P],
    and ends in [post] if it succeeds. *)
Definition io_spec (e : option Z) {A} (op : IO A) (P : Z → Prop) (post : A → Dir → Prop) d : Prop :=
  dir_wf e d →
  wp op (λ r d', dir_wf e d' ∧ keeps P d d' ∧ match r with Ok a => post a d' | _ => True end) d.

Lemma wf_faults e d fs : dir_wf e d → dir_wf e (d <| d_faults := fs |>).
Proof. by intros []. Qed.

Lemma keeps_faults P d fs : keeps P d (d <| d_faults := fs |>).
Proof. by intros lsn b. Qed.

Lemma faulty_spec e {A} (op : IO A) P post d :
  (∀ fs, io_spec e op P post (d <| d_faults := fs |>)) → io_spec e (faulty op) P post d.
Proof.
  intros Hop Hwf.
  assert (Hk : ∀ fs d', keeps P (d <| d_faults := fs |>) d' → keeps P d d').
  { intros fs d'. apply keeps_trans, keeps_faults. }
  apply wp_faulty; intros fs.
  - split_and!; [by apply wf_faults|apply keeps_faults|done].
  - eapply wp_mono; [apply Hop; by apply wf_faults|].
    intros r d' (? & ? & ?). split_and!; eauto.
Qed.

Lemma io_bind e {A B} (m : IO A) (f : A → IO B) P post post' d :
  io_spec e m P post d → (∀ a d', post a d' → io_spec e (f a) P post' d') →
  io_spec e (m ≫= f) P post' d.
Proof.
  intros Hm Hf Hwf. wp_step. eapply wp_mono; [by apply Hm|].
  intros r d' (Hwf' & Hk & Hp). destruct r as [a|er|]; [|by split_and!..].
  eapply wp_mono; [by apply Hf|]. intros r d'' (? & ? & ?).
  split_and!; [done|by eapply keeps_trans|done].
Qed.

Lemma io_ret e {A} (a : A) P (post : A → Dir → Prop) d : post a d → io_spec e (mret a) P post d.
Proof. intros Hp Hwf. wp_step. split_and!; [done|apply keeps_refl|done]. Qed.

Lemma io_mono e {A} (m : IO A) (P Q : Z → Prop) (post post' : A → Dir → Prop) d :
  io_spec e m P post d → (∀ lsn, Q lsn → P lsn) → (∀ a d', post a d' → post' a d') →
  io_spec e m Q post' d.
Proof.
  intros Hm HQ Hp Hwf. eapply wp_mono; [by apply Hm|]. intros r d' (? & ? & ?).
  split_and!; [done|by eapply keeps_mono|]. destruct r; auto.
Qed.

(** *** Contents *)

Definition set_inode (ino : nat) (f : Inode → Inode) d : Dir :=
  d <| d_inodes := alter f ino (d_inodes d) |>.

Lemma set_inode_wf e ino f d :
  dir_wf e d →
  (∀ i v, d_inodes d !! ino = Some i → v ∈ contents (f i) →
     v ∈ contents i ∨ (length v ≤ Z.to_nat sz)%nat) →
  dir_wf e (set_inode ino f d).
Proof.
  intros [] Hf. unfold set_inode. split; simpl; try done.
  - intros n p ino' Hn Hp. rewrite length_alter. by eapply wf_ino0.
  - intros n z ino' i v Hn Hz Hino Hi Hv.
    destruct (decide (ino' = ino)) as [->|Hne].
    + rewrite list_lookup_alter_eq in Hi. destruct (d_inodes d !! ino) as [i0|] eqn:Hi0; [|done].
      injection Hi as <-. destruct (Hf i0 v eq_refl Hv) as [Hv0|]; [|done]. by eapply wf_len0.
    + rewrite list_lookup_alter_ne in Hi by done. by eapply wf_len0.
Qed.

Lemma set_inode_keeps P ino f d :
  (∀ i lsn b, d_inodes d !! ino = Some i → in_u 64 lsn → P lsn →
     seg_inode (d_names d) (lsn / sz) = Some ino →
     let off := Z.to_nat (lsn mod sz) in
     (i_data i !! off = Some b → i_data (f i) !! off = Some b)
     ∧ ((∀ v, v ∈ contents i → v !! off = Some b) → ∀ v, v ∈ contents (f i) → v !! off = Some b)) →
  keeps P d (set_inode ino f d).
Proof.
  intros Hf lsn b Hu Hl. unfold set_inode.
  split; intros (ino' & i & Hino & Hi & Hb); destruct (decide (ino' = ino)) as [->|Hne].
  all: try (exists ino', i; simpl; rewrite list_lookup_alter_ne by done; by split_and!).
  all: destruct (Hf i lsn b Hi Hu Hl Hino) as [Hs Hd]; exists ino, (f i); simpl;
    rewrite list_lookup_alter_eq, Hi; split_and!; auto.
Qed.

(** New data that agrees with the old at the offsets of [P]. *)
Lemma set_data_keeps P ino g d :
  (∀ i lsn b, d_inodes d !! ino = Some i → in_u 64 lsn → P lsn →
     seg_inode (d_names d) (lsn / sz) = Some ino →
     i_data i !! Z.to_nat (lsn mod sz) = Some b → g i !! Z.to_nat (lsn mod sz) = Some b) →
  keeps P d (set_inode ino (λ i, set_data (g i) i) d).
Proof.
  intros Hg. apply set_inode_keeps. intros i lsn b Hi Hu Hl Hino off. split; [by apply Hg|].
  intros Hv v [->|Hin]%elem_of_cons; [|by apply Hv].
  apply (Hg i lsn b); [done..|]. apply Hv. left.
Qed.

Lemma set_data_wf e ino g d :
  dir_wf e d → (∀ i, d_inodes d !! ino = Some i → (length (g i) ≤ Z.to_nat sz)%nat) →
  dir_wf e (set_inode ino (λ i, set_data (g i) i) d).
Proof.
  intros Hwf Hg. apply set_inode_wf; [done|]. intros i v Hi [->|Hin]%elem_of_cons; [|by left].
  right. by apply Hg.
Qed.

Lemma length_resize n data : length (resize n data) = n.
Proof. unfold resize. rewrite length_app, length_take, length_replicate. lia. Qed.

Lemma lookup_resize n data off b :
  (off < n)%nat → data !! off = Some b → resize n data !! off = Some b.
Proof.
  intros Hoff Hb. unfold resize. rewrite lookup_app_l.
  - by rewrite lookup_take_lt.
  - apply lookup_lt_Some in Hb. rewrite length_take. lia.
Qed.

Lemma lookup_splice_lt pos buf data off b :
  (off < pos)%nat → data !! off = Some b → splice pos buf data !! off = Some b.
Proof.
  intros Hoff Hb. unfold splice. pose proof (lookup_lt_Some _ _ _ Hb).
  rewrite lookup_app_l by (rewrite length_take, length_app, length_replicate; lia).
  rewrite lookup_take_lt by done. rewrite lookup_app_l by done. done.
Qed.

Lemma lookup_splice_in pos buf data k b :
  buf !! k = Some b → splice pos buf data !! (pos + k)%nat = Some b.
Proof.
  intros Hb. unfold splice. pose proof (lookup_lt_Some _ _ _ Hb).
  assert (Hl : length (take pos (data ++ replicate (pos - length data) x00)) = pos).
  { rewrite length_take, length_app, length_replicate. lia. }
  rewrite lookup_app_r by lia. rewrite Hl, lookup_app_l by lia.
  by replace (pos + k - pos)%nat with k by lia.
Qed.

Lemma length_splice pos buf data n :
  (length data ≤ n)%nat → (pos + length buf ≤ n)%nat → (length (splice pos buf data) ≤ n)%nat.
Proof.
  intros. unfold splice. rewrite !length_app, length_take, length_drop, length_app, length_replicate. lia.
Qed.

(** The names are those of [d]. *)
Definition same_names d d' : Prop :=
  d_names d' = d_names d ∧ d_old_names d' = d_old_names d.

Lemma set_len_spec e ino n P d :
  (n ≤ Z.to_nat sz)%nat →
  (∀ lsn, in_u 64 lsn → P lsn → seg_inode (d_names d) (lsn / sz) = Some ino →
     (Z.to_nat (lsn mod sz) < n)%nat) →
  io_spec e (fs_set_len ino n) P (λ _ d', same_names d d') d.
Proof.
  intros Hn HP. apply faulty_spec. intros fs Hwf. unfold upd_inode. wp_step.
  change (_ <| d_inodes := _ |>) with
    (set_inode ino (λ i, set_data (resize n (i_data i)) i) (d <| d_faults := fs |>)).
  split_and!; [|apply set_data_keeps|done].
  - apply set_data_wf; [done|]. intros i _. by rewrite length_resize.
  - intros i lsn b Hi Hu Hl Hino Hb. apply lookup_resize; [by apply HP|done].
Qed.

(** The bytes of [buf] are in the file [ino] from [pos] on. *)
Definition has_bytes (ino pos : nat) (buf : bytes) d : Prop :=
  ∃ i, d_inodes d !! ino = Some i ∧ ∀ k b, buf !! k = Some b → i_data i !! (pos + k)%nat = Some b.

Lemma write_at_wf e z ino pos buf d :
  dir_wf e d → seg_ok z → seg_inode (d_names d) z = Some ino →
  (pos + length buf ≤ Z.to_nat sz)%nat →
  dir_wf e (set_inode ino (λ i, set_data (splice pos buf (i_data i)) i) d).
Proof.
  intros Hwf Hz Hino Hlen. apply set_data_wf; [done|]. intros i Hi. apply length_splice; [|done].
  eapply (wf_len _ _ Hwf (d_names d)); [left|exact Hz|by left|exact Hi|left].
Qed.

Lemma write_all_spec e z ino pos buf P d :
  seg_ok z → seg_inode (d_names d) z = Some ino → (pos + length buf ≤ Z.to_nat sz)%nat →
  (∀ lsn, in_u 64 lsn → P lsn → seg_inode (d_names d) (lsn / sz) = Some ino →
     (Z.to_nat (lsn mod sz) < pos)%nat) →
  io_spec e (fs_write_all (ino, pos) buf) P (λ f d', same_names d d'
    ∧ f = (ino, (pos + length buf)%nat) ∧ has_bytes ino pos buf d') d.
Proof.
  intros Hz Hino Hlen HP Hwf. unfold fs_write_all. wp_step. apply run_wp. intros r d1 Hr.
  assert (∃ fs f, r = Ok f ∧ d1 = d <| d_faults := fs |>) as (fs & f & -> & ->).
  { unfold next_fault in Hr. destruct (d_faults d) eqn:Hf; simplify_eq; [|by eauto].
    exists [], None. split; [done|]. rewrite <- Hf. by destruct d1. }
  assert (Hk : ∀ buf', keeps P d
    (set_inode ino (λ i, set_data (splice pos buf' (i_data i)) i) (d <| d_faults := fs |>))).
  { intros buf'. eapply keeps_trans; [apply keeps_faults|]. apply set_data_keeps.
    intros i lsn b Hi Hu Hl Hino' Hb. apply lookup_splice_lt; [by apply HP|done]. }
  pose proof (wf_faults e d fs Hwf) as Hwf1.
  destruct f as [n|]; wp_step; unfold upd_inode; wp_step; wp_step;
    change (_ <| d_inodes := _ |>) with (set_inode ino
      (λ i, set_data (splice pos ltac:(first [exact (take n buf)|exact buf]) (i_data i)) i)
      (d <| d_faults := fs |>)).
  - split_and!; [|apply Hk|done]. eapply write_at_wf; [done..|]. rewrite length_take. lia.
  - split_and!; [by eapply write_at_wf|apply Hk|done|done|].
    destruct (lookup_lt_is_Some_2 (d_inodes d) ino) as [i Hi].
    { unfold seg_inode in Hino. destruct (d_names d !! seg_partial z sz) eqn:Hp; simplify_eq.
      - eapply (wf_ino _ _ Hwf (d_names d)); [left|exact Hp].
      - eapply (wf_ino _ _ Hwf (d_names d)); [left|exact Hino]. }
    exists (set_data (splice pos buf (i_data i)) i). simpl. rewrite list_lookup_alter_eq, Hi.
    split; [done|]. intros k b Hb. by apply lookup_splice_in.
Qed.

(** All of the segments in file [ino] is on the disk. *)
Definition synced (ino : nat) d : Prop :=
  ∀ lsn b, seg_inode (d_names d) (lsn / sz) = Some ino → stored sz d lsn b → durable sz d lsn b.

Lemma sync_spec e ino P d :
  io_spec e (fs_sync ino) P (λ _ d', same_names d d' ∧ synced ino d') d.
Proof.
  apply faulty_spec. intros fs Hwf. unfold upd_inode. wp_step.
  change (_ <| d_inodes := _ |>) with
    (set_inode ino (λ i, i <| i_old := [] |>) (d <| d_faults := fs |>)).
  assert (Hin : ∀ i v, v ∈ contents (i <| i_old := [] |>) → v = i_data i).
  { intros i v. unfold contents. simpl. by rewrite list_elem_of_singleton. }
  split_and!; [| |done|].
  - apply set_inode_wf; [done|]. intros i v _ ->%Hin. left. left.
  - apply set_inode_keeps. intros i lsn b Hi Hu Hl Hino off. split; [done|].
    intros Hv v ->%Hin. apply Hv. left.
  - intros lsn b Hino (ino' & i & Hino' & Hi & Hb).
    assert (ino' = ino) as -> by congruence. exists ino, i. split_and!; [done..|].
    simpl in Hi. rewrite list_lookup_alter_eq in Hi. destruct (d_inodes d !! ino); [|done].
    injection Hi as <-. by intros v ->%Hin.
Qed.

Lemma seek_spec e ino pos P d :
  io_spec e (fs_seek ino pos) P (λ f d', same_names d d' ∧ d_inodes d' = d_inodes d ∧ f = (ino, pos)) d.
Proof. apply faulty_spec. intros fs. by apply io_ret. Qed.

Lemma fs_flush_spec e P d :
  io_spec e fs_flush P (λ _ d', same_names d d' ∧ d_inodes d' = d_inodes d) d.
Proof. apply faulty_spec. intros fs. by apply io_ret. Qed.

(** *** Names *)

Definition put_names (n : gmap str nat) d : Dir :=
  d <| d_names := n |> <| d_old_names := d_names d :: d_old_names d |>.

Lemma put_names_keeps P d n :
  (∀ lsn ino, in_u 64 lsn → P lsn → seg_inode (d_names d) (lsn / sz) = Some ino →
     seg_inode n (lsn / sz) = Some ino) →
  keeps P d (put_names n d).
Proof.
  intros Hn lsn b Hu Hl.
  split; intros (ino & i & Hino & Hi & Hb); exists ino, i; simpl;
    rewrite (Hn lsn ino Hu Hl Hino); by split_and!.
Qed.

(** The file [ino] may be under construction. *)
Definition tmp_ok d (ino : nat) : Prop :=
  (∀ n z, n ∈ versions d → seg_ok z → seg_inode n z ≠ Some ino)
  ∧ ∀ i v, d_inodes d !! ino = Some i → v ∈ contents i → (length v ≤ Z.to_nat sz)%nat.

Lemma wf_tmp_ok e d ino : dir_wf e d → d_names d !! waltmp = Some ino → tmp_ok d ino.
Proof.
  intros Hwf Ht. split; [intros n z Hn Hz; by eapply wf_tmp|]. intros i v.
  eapply (wf_len _ _ Hwf (d_names d) 0); [left|done|by right].
Qed.

(** A change that makes up no file of a segment. *)
Lemma put_names_wf e d n :
  dir_wf e d →
  (∀ z, seg_ok z → seg_inode n z = None ∨ seg_inode n z = seg_inode (d_names d) z) →
  (∀ z, seg_ok z → n !! seg_name z sz = None ∨ n !! seg_partial z sz = None) →
  (∀ ino, n !! waltmp = Some ino → tmp_ok d ino) →
  (∀ p ino, n !! p = Some ino → (ino < length (d_inodes d))%nat) →
  dir_wf e (put_names n d).
Proof.
  intros Hwf Hseg Hone Htmp Hino.
  assert (Hc : d_names d ∈ versions d) by left.
  assert (Hv : ∀ n', n' ∈ versions (put_names n d) → n' = n ∨ n' ∈ versions d).
  { intros n' [->|?]%elem_of_cons; [by left|by right]. }
  assert (Hs : ∀ n' z ino, n' ∈ versions (put_names n d) → seg_ok z → seg_inode n' z = Some ino →
    ∃ n0, n0 ∈ versions d ∧ seg_inode n0 z = Some ino).
  { intros n' z ino [->|Hn']%Hv Hz Hi; [|by eauto]. exists (d_names d). split; [done|].
    destruct (Hseg z Hz); congruence. }
  split.
  - intros n' z [->|Hn']%Hv Hz; [by apply Hone|]. by eapply wf_one_name.
  - intros n1 n2 a b ino H1 H2 Ha Hb Hi1 Hi2.
    destruct (Hs _ _ _ H1 Ha Hi1) as (m1 & ? & ?), (Hs _ _ _ H2 Hb Hi2) as (m2 & ? & ?).
    by eapply (wf_inj _ _ Hwf m1 m2).
  - intros n' z ino Hn' Hz Ht Hi. destruct (Hs _ _ _ Hn' Hz Hi) as (m & Hm & Hmi).
    by eapply (proj1 (Htmp ino Ht) m z).
  - intros n' z ino Hn' Hz Ht Hi. destruct (Hv n' Hn') as [->|Hn]; [|by eapply wf_tmp_old].
    destruct (Hs _ _ _ Hn' Hz Hi) as (m & Hm & Hmi). by eapply (proj1 (Htmp ino Ht) m z).
  - intros n' p ino [->|Hn']%Hv Hp; simpl; [by eapply Hino|by eapply wf_ino].
  - intros n' z ino i v Hn' Hz Hor Hi Hin. simpl in *. destruct Hor as [Hsi|Ht].
    + destruct (Hs _ _ _ Hn' Hz Hsi) as (m & Hm & Hmi).
      eapply (wf_len _ _ Hwf m z ino); [done|done|by left|done|done].
    + destruct (Hv n' Hn') as [->|Hn]; [by eapply (proj2 (Htmp ino Ht))|].
      eapply (wf_len _ _ Hwf n' z); [done|done|by right|done|done].
  - intros n' z ino Hn' Hz He Hi. simpl in Hi. destruct (Hv n' Hn') as [->|Hn]; [done|].
    eapply wf_stable; [done..|]. destruct (Hseg z Hz); congruence.
  - apply Hwf.
Qed.

Lemma seg_inode_ext (n n' : gmap str nat) z :
  n' !! seg_name z sz = n !! seg_name z sz → n' !! seg_partial z sz = n !! seg_partial z sz →
  seg_inode n' z = seg_inode n z.
Proof. unfold seg_inode. by intros -> ->. Qed.

(** The two names of a segment. *)
Definition seg_path (z : Z) (p : str) : Prop := p = seg_name z sz ∨ p = seg_partial z sz.

Lemma seg_path_inj a b p : seg_ok a → seg_ok b → seg_path a p → seg_path b p → a = b.
Proof using Hsz Hdiv.
  intros Ha Hb [-> | ->] [Heq|Heq].
  - by eapply seg_name_inj.
  - by destruct (seg_name_partial_ne Hsz Hdiv a b Ha Hb).
  - symmetry in Heq. by destruct (seg_name_partial_ne Hsz Hdiv b a Hb Ha).
  - by eapply seg_partial_inj.
Qed.

(** The segment of a name is in the name. *)
Lemma seg_path_parse z p : seg_ok z → seg_path z p → XLogFromFileName p sz = Ok (z, PG_TLI).
Proof using Hsz Hdiv.
  intros Hz [-> | ->].
  - rewrite <- (app_nil_r (seg_name _ _)). by apply (seg_name_parse Hsz Hdiv).
  - apply (seg_name_parse Hsz Hdiv); [done|apply partial_ascii].
Qed.

Lemma seg_path_tmp z : seg_ok z → ¬ seg_path z waltmp.
Proof using Hsz Hdiv.
  intros Hz [He|He]; destruct (seg_name_tmp_ne Hsz Hdiv z Hz); congruence.
Qed.

(** Names that differ only in those of other segments. *)
Lemma seg_inode_frame (n n' : gmap str nat) a b :
  seg_ok a → seg_ok b → a ≠ b → (∀ p, ¬ seg_path b p → n' !! p = n !! p) →
  seg_inode n' a = seg_inode n a.
Proof using Hsz Hdiv.
  intros Ha Hb Hne Hp. apply seg_inode_ext; apply Hp; intros Hs; apply Hne.
  - eapply seg_path_inj; [done|done|by left|done].
  - eapply seg_path_inj; [done|done|by right|done].
Qed.

Lemma seg_inode_path e d z p ino :
  dir_wf e d → seg_ok z → seg_path z p → d_names d !! p = Some ino →
  seg_inode (d_names d) z = Some ino
  ∧ ∀ q, seg_path z q → q ≠ p → d_names d !! q = None.
Proof.
  intros Hwf Hz Hp Hi. pose proof (wf_one_name _ _ Hwf (d_names d) z ltac:(left) Hz) as Hone.
  unfold seg_inode. destruct Hp as [-> | ->].
  - destruct Hone as [Hn|Hn]; [congruence|]. rewrite Hn. split; [done|]. by intros q [-> | ->].
  - rewrite Hi. destruct Hone as [Hn|Hn]; [|congruence]. split; [done|]. by intros q [-> | ->].
Qed.

Lemma seg_path_dec z p : seg_path z p ∨ ¬ seg_path z p.
Proof.
  unfold seg_path. destruct (decide (p = seg_name z sz)); [by left; left|].
  destruct (decide (p = seg_partial z sz)); [by left; right|right; tauto].
Qed.

Lemma delete_name_wf e d p ino :
  dir_wf e d → d_names d !! p = Some ino → dir_wf e (put_names (delete p (d_names d)) d).
Proof using Hsz Hdiv.
  intros Hwf Hp. apply put_names_wf; [done|..].
  - intros z Hz. destruct (seg_path_dec z p) as [Hs|Hs].
    + left. destruct (seg_inode_path e d z p ino) as [_ Hq]; [done..|].
      assert (Hnone : ∀ q, seg_path z q → delete p (d_names d) !! q = None).
      { intros q Hsq. destruct (decide (q = p)) as [->|]; [apply lookup_delete_eq|].
        rewrite lookup_delete_ne by done. by apply Hq. }
      unfold seg_inode. rewrite !Hnone; [done|by left|by right].
    + right. apply seg_inode_ext; apply lookup_delete_ne; intros ->; apply Hs; [by left|by right].
  - intros z Hz. destruct (wf_one_name _ _ Hwf (d_names d) z ltac:(left) Hz) as [Hn|Hn];
      [left|right]; apply lookup_delete_None; by right.
  - intros i [_ Ht]%lookup_delete_Some. by eapply wf_tmp_ok.
  - intros q i [_ Hq]%lookup_delete_Some. eapply (wf_ino _ _ Hwf (d_names d)); [left|done].
Qed.

Lemma remove_run e p d :
  dir_wf e d →
  fs_remove_file p d
  = match d_names d !! p with
    | Some _ => (Ok tt, put_names (delete p (d_names d)) d)
    | None => (Err NotFound, d)
    end.
Proof.
  intros Hwf. unfold fs_remove_file, mbind, ST_bind, next_remove_fault.
  rewrite (proj2 (wf_quiet _ _ Hwf)). unfold with_fault, remove_name, mbind, ST_bind, st_get.
  by destruct (d_names d !! p).
Qed.

Lemma remove_file_spec e p P d :
  (∀ lsn, in_u 64 lsn → P lsn → ¬ seg_path (lsn / sz) p) →
  io_spec e (fs_remove_file p) P (λ _ d', d_names d' = delete p (d_names d)) d.
Proof using Hsz Hdiv.
  intros HP Hwf. unfold wp. rewrite (remove_run e) by done.
  destruct (d_names d !! p) as [ino|] eqn:Hp; [|by split_and!; [|apply keeps_refl|]].
  split_and!; [by eapply delete_name_wf| |done]. apply put_names_keeps.
  intros lsn i Hu Hl <-. specialize (HP lsn Hu Hl).
  apply seg_inode_ext; apply lookup_delete_ne; intros ->; apply HP; [by left|by right].
Qed.

(** Between the names of a segment. *)
Lemma rename_seg_names e d z a b ino :
  dir_wf e d → seg_ok z → seg_path z a → seg_path z b → a ≠ b → d_names d !! a = Some ino →
  let n := <[b := ino]> (delete a (d_names d)) in
  (∀ z', seg_ok z' → seg_inode n z' = seg_inode (d_names d) z')
  ∧ (∀ z', seg_ok z' → n !! seg_name z' sz = None ∨ n !! seg_partial z' sz = None)
  ∧ (∀ p, ¬ seg_path z p → n !! p = d_names d !! p).
Proof using Hsz Hdiv.
  intros Hwf Hz Ha Hb Hne Hi n.
  destruct (seg_inode_path e d z a ino) as [Hsi Hq]; [done..|].
  assert (Hnb : n !! b = Some ino) by apply lookup_insert_eq.
  assert (Hna : n !! a = None) by (unfold n; by rewrite lookup_insert_ne, lookup_delete_eq).
  assert (Hfr : ∀ p, ¬ seg_path z p → n !! p = d_names d !! p).
  { intros p Hp. unfold n. rewrite lookup_insert_ne, lookup_delete_ne; [done|..]; by intros ->. }
  split_and!; [| |done].
  - intros z' Hz'. destruct (decide (z' = z)) as [->|Hne']; [|by apply (seg_inode_frame _ _ z' z)].
    rewrite Hsi. unfold seg_inode. destruct Ha as [-> | ->], Hb as [-> | ->]; try done;
      by rewrite ?Hna, Hnb.
  - intros z' Hz'. destruct (decide (z' = z)) as [->|Hne'].
    + destruct Ha as [-> | ->]; [by left|by right].
    + destruct (wf_one_name _ _ Hwf (d_names d) z' ltac:(left) Hz') as [Hn|Hn]; [left|right];
        rewrite Hfr; try done; intros Hs; apply Hne';
        (eapply seg_path_inj; [done|done|by (left + right)|done]).
Qed.

Lemma rename_seg_spec e z a b P d :
  seg_ok z → seg_path z a → seg_path z b → a ≠ b →
  io_spec e (fs_rename a b) P (λ _ d',
    (∀ z', seg_ok z' → seg_inode (d_names d') z' = seg_inode (d_names d) z')
    ∧ d_inodes d' = d_inodes d) d.
Proof using Hsz Hdiv.
  intros Hz Ha Hb Hne. apply faulty_spec. intros fs Hwf. unfold rename_name. wp_step. wp_step.
  simpl d_names. destruct (d_names d !! a) as [ino|] eqn:Hi.
  2:{ wp_step. split_and!; [done|apply keeps_refl|done]. }
  unfold set_names. wp_step. set (n := <[b := ino]> _).
  change (_ <| d_old_names := _ |>) with (put_names n (d <| d_faults := fs |>)).
  destruct (rename_seg_names e _ z a b ino Hwf Hz Ha Hb Hne Hi) as (Hsame & Hone & Hfr).
  simpl in Hsame, Hone, Hfr. fold n in Hsame, Hone, Hfr.
  split_and!.
  - apply put_names_wf; [done|auto|done|..].
    + intros i Ht. eapply wf_tmp_ok; [done|]. simpl. rewrite <- Hfr; [done|]. by apply seg_path_tmp.
    + intros p i Hp. assert (∃ q, d_names d !! q = Some i) as [q Hq].
      { revert Hp. unfold n. rewrite lookup_insert_Some, lookup_delete_Some. naive_solver. }
      eapply (wf_ino _ _ Hwf (d_names d)); [left|done].
  - apply put_names_keeps. intros lsn i Hu Hl <-. apply Hsame. by apply seg_ok_lsn.
  - done.
  - done.
Qed.

(** *** A new segment *)

Definition add_inode d : Dir := d <| d_inodes := d_inodes d ++ [mkInode [] []] |>.

Lemma add_inode_lookup d ino :
  (ino < length (d_inodes d))%nat → d_inodes (add_inode d) !! ino = d_inodes d !! ino.
Proof. apply lookup_app_l. Qed.

Lemma seg_inode_bound e d n z ino :
  dir_wf e d → n ∈ versions d → seg_inode n z = Some ino → (ino < length (d_inodes d))%nat.
Proof.
  intros Hwf Hn Hi. unfold seg_inode in Hi.
  destruct (n !! seg_partial z sz) eqn:Hp; simplify_eq; by eapply wf_ino.
Qed.

Lemma add_inode_wf e d : dir_wf e d → dir_wf e (add_inode d).
Proof.
  intros Hwf. pose proof Hwf as []. split; try done.
  - intros n p ino Hn Hp. simpl. rewrite length_app. specialize (wf_ino0 n p ino Hn Hp). lia.
  - intros n z ino i v Hn Hz Hor Hi. rewrite add_inode_lookup in Hi; [by eapply wf_len0|].
    destruct Hor as [Hs|Ht]; [by eapply seg_inode_bound|by eapply wf_ino0].
Qed.

Lemma add_inode_keeps e P d : dir_wf e d → keeps P d (add_inode d).
Proof.
  intros Hwf lsn b Hu Hl.
  split; intros (ino & i & Hino & Hi & Hb); exists ino, i;
    (rewrite add_inode_lookup; [by split_and!|]); eapply seg_inode_bound; (done || left).
Qed.

Lemma create_tmp_spec e P d :
  io_spec e (fs_create waltmp) P (λ ino d',
    d_names d' !! waltmp = Some ino ∧ ∀ p, p ≠ waltmp → d_names d' !! p = d_names d !! p) d.
Proof using Hsz Hdiv.
  apply faulty_spec. intros fs Hwf. unfold create_file. wp_step. wp_step.
  set (d1 := d <| d_faults := fs |>) in *. destruct (d_names d1 !! waltmp) as [ino|] eqn:Ht.
  - wp_step. unfold upd_inode. wp_step. wp_step.
    change (_ <| d_inodes := _ |>) with (set_inode ino (λ i, set_data [] i) d1).
    split_and!; [apply set_data_wf; [done|]; intros; simpl; lia| |done|done].
    apply set_data_keeps. intros i lsn b Hi Hu Hl Hino. exfalso.
    eapply (wf_tmp _ _ Hwf (d_names d1)); [left|by apply seg_ok_lsn|done|done].
  - set (ino := length (d_inodes d1)). wp_step. wp_step. wp_step. unfold set_names. wp_step. wp_step.
    change (_ <| d_old_names := _ |>) with
      (put_names (<[waltmp := ino]> (d_names (add_inode d1))) (add_inode d1)).
    pose proof (add_inode_wf e d1 Hwf) as Hwf2. set (d2 := add_inode d1) in *.
    assert (Hsame : ∀ z, seg_ok z → seg_inode (<[waltmp := ino]> (d_names d2)) z
                                    = seg_inode (d_names d2) z).
    { intros z Hz. destruct (seg_name_tmp_ne Hsz Hdiv z Hz).
      apply seg_inode_ext; by apply lookup_insert_ne. }
    split_and!.
    + apply put_names_wf; [done|auto|..].
      * intros z Hz. destruct (seg_name_tmp_ne Hsz Hdiv z Hz). rewrite !lookup_insert_ne by done.
        eapply (wf_one_name _ _ Hwf2 (d_names d2)); [left|done].
      * intros i. rewrite lookup_insert_eq. intros [= <-]. split.
        -- intros n z Hn Hz Hi. pose proof (seg_inode_bound e d1 n z ino Hwf Hn Hi). lia.
        -- intros i v. simpl. rewrite lookup_app_r, Nat.sub_diag by done. intros [= <-].
           intros ->%list_elem_of_singleton. simpl. lia.
      * intros p i [[<- <-]|[_ Hp]]%lookup_insert_Some; simpl; rewrite length_app; simpl;
          [unfold ino, d1; simpl; lia|].
        pose proof (wf_ino _ _ Hwf (d_names d1) p i ltac:(left) Hp) as Hlt. simpl in Hlt. lia.
    + eapply keeps_trans; [by eapply add_inode_keeps|]. apply put_names_keeps.
      intros lsn i Hu Hl <-. apply Hsame. by apply seg_ok_lsn.
    + apply lookup_insert_eq.
    + intros p Hp. by apply lookup_insert_ne.
Qed.

(** Only the segment [z], which is new, may differ. *)
Lemma keeps_new P z d d' :
  seg_inode (d_names d) z = None → keeps (λ lsn, lsn / sz ≠ z) d d' → keeps P d d'.
Proof.
  intros Hz Hk lsn b Hu _. destruct (decide (lsn / sz = z)) as [<-|Hne]; [|by apply Hk].
  split; intros (ino & i & Hino & _); congruence.
Qed.

Lemma wf_except d e : dir_wf None d → dir_wf e d.
Proof. intros []. split; try done. intros n z ino Hn Hz _. by apply wf_stable0. Qed.

Lemma wf_no_except d z : dir_wf (Some z) d → seg_inode (d_names d) z = None → dir_wf None d.
Proof.
  intros Hwf Hnone. pose proof Hwf as []. split; try done. intros n z' ino Hn Hz _ Hi.
  destruct (decide (z' = z)) as [->|]; [congruence|]. apply wf_stable0; congruence.
Qed.

(** The names after the temporary file was renamed to a new segment *)
Lemma rename_tmp_other (n : gmap _ nat) z ino z' :
  seg_ok z → seg_ok z' → z' ≠ z →
  seg_inode (<[seg_partial z sz := ino]> (delete waltmp n)) z' = seg_inode n z'.
Proof using Hsz Hdiv.
  intros Hz Hz' Hne. destruct (seg_name_tmp_ne Hsz Hdiv z' Hz').
  apply seg_inode_ext; rewrite lookup_insert_ne, lookup_delete_ne; try done.
  - intros He. by apply (seg_name_partial_ne Hsz Hdiv z' z).
  - intros He. apply Hne. by apply (seg_partial_inj Hsz Hdiv).
Qed.

Lemma rename_tmp_one_name d z ino z' :
  dir_wf None d → seg_ok z → seg_inode (d_names d) z = None → seg_ok z' →
  let n := <[seg_partial z sz := ino]> (delete waltmp (d_names d)) in
  n !! seg_name z' sz = None ∨ n !! seg_partial z' sz = None.
Proof using Hsz Hdiv.
  intros Hwf Hz Hnone Hz' n. destruct (decide (z' = z)) as [->|Hne].
  - left. unfold n. destruct (seg_name_tmp_ne Hsz Hdiv z Hz).
    rewrite lookup_insert_ne, lookup_delete_ne;
      [|done|by intros He; apply (seg_name_partial_ne Hsz Hdiv z z)].
    unfold seg_inode in Hnone. by destruct (d_names d !! seg_partial z sz).
  - destruct (wf_one_name _ _ Hwf (d_names d) z' ltac:(left) Hz') as [Hn|Hn]; [left|right];
      unfold n; rewrite lookup_insert_ne; try (apply lookup_delete_None; by right).
    + intros He. by apply (seg_name_partial_ne Hsz Hdiv z' z).
    + intros He. apply Hne. by apply (seg_partial_inj Hsz Hdiv).
Qed.

Lemma rename_tmp_wf d z ino :
  dir_wf None d → seg_ok z → seg_inode (d_names d) z = None → d_names d !! waltmp = Some ino →
  let n := <[seg_partial z sz := ino]> (delete waltmp (d_names d)) in
  dir_wf (Some z) (put_names n d) ∧ seg_inode n z = Some ino
  ∧ ∀ z', seg_ok z' → z' ≠ z → seg_inode n z' = seg_inode (d_names d) z'.
Proof using Hsz Hdiv.
  intros Hwf Hz Hnone Ht n. set (d' := put_names n d).
  assert (Htmp := wf_tmp_ok None d ino Hwf Ht). destruct Htmp as [Hfresh Hlen].
  assert (Hnz : seg_inode n z = Some ino) by (unfold seg_inode, n; by rewrite lookup_insert_eq).
  assert (Hother : ∀ z', seg_ok z' → z' ≠ z → seg_inode n z' = seg_inode (d_names d) z').
  { intros z' Hz' Hne. by apply rename_tmp_other. }
  assert (Hv : ∀ n', n' ∈ versions d' → n' = n ∨ n' ∈ versions d).
  { intros n' [->|?]%elem_of_cons; [by left|by right]. }
  assert (Hs : ∀ n' z' i, n' ∈ versions d' → seg_ok z' → seg_inode n' z' = Some i →
    (z' = z ∧ i = ino) ∨ ∃ n0, n0 ∈ versions d ∧ seg_inode n0 z' = Some i).
  { intros n' z' i [->|Hn']%Hv Hz' Hi; [|by eauto].
    destruct (decide (z' = z)) as [->|Hne]; [left; split; congruence|right].
    exists (d_names d). split; [left|]. by rewrite <- Hother. }
  assert (Hntmp : n !! waltmp = None).
  { unfold n. rewrite lookup_insert_ne, lookup_delete_eq; [done|].
    by destruct (seg_name_tmp_ne Hsz Hdiv z Hz). }
  split_and!; [|done|done]. split.
  - intros n' z' [->|Hn']%Hv Hz'; [by apply rename_tmp_one_name|by eapply wf_one_name].
  - intros n1 n2 a b i H1 H2 Ha Hb Hi1 Hi2.
    destruct (Hs _ _ _ H1 Ha Hi1) as [[-> ->]|(m1 & Hm1 & Hs1)],
      (Hs _ _ _ H2 Hb Hi2) as [[-> ?]|(m2 & Hm2 & Hs2)]; [done| | |].
    + by destruct (Hfresh m2 b Hm2 Hb).
    + subst i. by destruct (Hfresh m1 a Hm1 Ha).
    + by eapply (wf_inj _ _ Hwf m1 m2).
  - intros n' z' i _ _ Ht'. simpl in Ht'. congruence.
  - intros n' z' i Hn' Hz' Ht'. destruct (Hv n' Hn') as [->|Hn]; [congruence|by eapply wf_tmp_old].
  - intros n' p i [->|Hn']%Hv Hp; simpl; [|by eapply wf_ino].
    apply lookup_insert_Some in Hp as [[_ <-]|[_ [_ Hp]%lookup_delete_Some]];
      (eapply (wf_ino _ _ Hwf (d_names d)); [left|done]).
  - intros n' z' i0 i v Hn' Hz' Hor Hi Hin. simpl in *. destruct Hor as [Hsi|Ht'].
    2:{ destruct (Hv n' Hn') as [->|Hn]; [congruence|].
        eapply (wf_len _ _ Hwf n' z'); [done|done|by right|done|done]. }
    destruct (Hs _ _ _ Hn' Hz' Hsi) as [[-> ->]|(m & Hm & Hmi)]; [by eapply Hlen|].
    eapply (wf_len _ _ Hwf m z'); [done|done|by left|done|done].
  - intros n' z' i Hn' Hz' He Hi. simpl in Hi. destruct (Hv n' Hn') as [->|Hn]; [done|].
    assert (Hne : z' ≠ z) by congruence. rewrite Hother in Hi by done. by eapply wf_stable.
  - apply Hwf.
Qed.

Lemma sync_dir_wf e d : dir_wf e d → dir_wf None (d <| d_old_names := [] |>).
Proof.
  intros Hwf. pose proof Hwf as [].
  assert (Hv : ∀ n, n ∈ versions (d <| d_old_names := [] |>) → n = d_names d)
    by (intros n ->%list_elem_of_singleton; done).
  assert (Hin : d_names d ∈ versions d) by left.
  split; simpl; try done.
  - intros n z ->%Hv. by apply wf_one_name0.
  - intros n n' a b ino ->%Hv ->%Hv. by apply wf_inj0.
  - intros n z ino ->%Hv. by apply wf_tmp0.
  - intros n z ino ->%Hv. by apply wf_tmp_old0.
  - intros n p ino ->%Hv. by apply wf_ino0.
  - intros n z ino i v ->%Hv. by apply wf_len0.
  - by intros n z ino ->%Hv.
Qed.

Lemma open_run e d p :
  dir_wf e d →
  fs_open p d = (match d_names d !! p with Some ino => Ok ino | None => Err NotFound end, d).
Proof.
  intros Hwf. unfold fs_open. rewrite (proj1 (wf_quiet _ _ Hwf)). by destruct (d_names d !! p).
Qed.

(** [op] changes no names, whatever its outcome. *)
Definition names_frame {A} (op : IO A) : Prop := ∀ d, same_names d (op d).2.

Lemma names_frame_faulty {A} (op : IO A) : names_frame op → names_frame (faulty op).
Proof.
  intros Hop d. change (wp (faulty op) (λ _ d', same_names d d') d). apply wp_faulty; [done|].
  intros fs. pose proof (Hop (d <| d_faults := fs |>)) as [? ?]. by repeat split.
Qed.

Lemma names_frame_sync ino : names_frame (fs_sync ino).
Proof. by apply names_frame_faulty. Qed.

Lemma wp_names_frame {A} (op : IO A) Q d :
  names_frame op → wp op Q d → wp op (λ r d', Q r d' ∧ same_names d d') d.
Proof. intros Hop HQ. split; [exact HQ|apply Hop]. Qed.

(** A new segment is put in place, or [z] is the only name that may not be
    durable. *)
Lemma durable_rename_new z ino d :
  dir_wf None d → seg_ok z → seg_inode (d_names d) z = None → d_names d !! waltmp = Some ino →
  wp (durable_rename waltmp (seg_partial z sz) true) (λ r d',
    keeps (λ lsn, lsn / sz ≠ z) d d' ∧
    match r with
    | Ok _ => dir_wf None d' ∧ d_names d' !! seg_partial z sz = Some ino
    | _ => dir_wf (Some z) d' ∧ d_names d' !! seg_name z sz = None
    end) d.
Proof using Hsz Hdiv.
  intros Hwf Hz Hnone Ht. unfold durable_rename, fsync_async_opt, fsync_parent_opt.
  assert (Hname : d_names d !! seg_name z sz = None).
  { unfold seg_inode in Hnone. by destruct (d_names d !! seg_partial z sz). }
  wp_step. wp_step. apply run_wp. rewrite (open_run None), Ht by done. intros r d0 [= <- <-].
  eapply wp_mono.
  { apply wp_names_frame; [apply names_frame_sync|].
    by apply (sync_spec None ino (λ lsn, lsn / sz ≠ z)). }
  intros r d1 [(Hwf1 & Hk1 & _) [Hn1 Ho1]].
  assert (Hex : dir_wf (Some z) d1) by by apply wf_except.
  destruct r as [[]|er|]; [|split; [done|split; [done|by rewrite Hn1]]..].
  wp_step. apply wp_faulty.
  { intros fs. split; [|split; [by apply wf_faults|simpl; by rewrite Hn1]].
    eapply keeps_trans; [done|apply keeps_faults]. }
  intros fs. unfold rename_name. wp_step. wp_step. simpl d_names. rewrite Hn1, Ht.
  unfold set_names. wp_step. set (d2 := d1 <| d_faults := fs |>) in *.
  assert (Hwf2 : dir_wf None d2) by by apply wf_faults.
  destruct (rename_tmp_wf d2 z ino) as (Hwf3 & Hz3 & Hoth);
    [done|done|simpl; by rewrite Hn1|simpl; by rewrite Hn1|]. simpl d_names in *. rewrite Hn1 in *.
  set (n := <[_ := ino]> _) in *.
  match goal with |- wp _ _ ?s ∧ _ =>
    replace s with (put_names n d2) by (unfold put_names; simpl; by rewrite Hn1) end.
  assert (Hnz : n !! seg_name z sz = None).
  { unfold n. destruct (seg_name_tmp_ne Hsz Hdiv z Hz). rewrite lookup_insert_ne, lookup_delete_ne;
      [done|done|]. intros He. by apply (seg_name_partial_ne Hsz Hdiv z z). }
  assert (Hk3 : keeps (λ lsn, lsn / sz ≠ z) d (put_names n d2)).
  { eapply keeps_trans; [exact Hk1|]. eapply keeps_trans; [apply (keeps_faults _ _ fs)|].
    apply put_names_keeps. intros lsn i Hu Hl. simpl. rewrite Hn1. intros <-. apply Hoth; [|done].
    by apply seg_ok_lsn. }
  split; [|by split_and!]. apply wp_faulty.
  { intros fs'. split; [|split; [by apply wf_faults|done]].
    eapply keeps_trans; [exact Hk3|apply keeps_faults]. }
  intros fs'. wp_step. set (d4 := _ <| d_old_names := [] |>).
  assert (Hwf4 : dir_wf None d4) by (eapply sync_dir_wf, wf_faults; exact Hwf3).
  assert (Hk4 : keeps (λ lsn, lsn / sz ≠ z) d d4).
  { eapply keeps_trans; [exact Hk3|]. by intros lsn b. }
  split; (split; [done|]).
  - split; [done|]. apply lookup_insert_eq.
  - split; [by apply wf_except|done].
Qed.
End ops.
