(* ===== verification/EndOfWalProps.v ===== *)
(** * The end of the WAL on disk

    [find_end_of_wal] returns, changes nothing, and what it returns is the end of
    the last record that can be decoded from the bytes in the segments.  So every
    record that is on disk is found. *)

From S2P Require Import Prelude Bytes Text Lsn TimelineState WalDecoder WalDecoderProps.
From S2P Require Import DecoderPositions Disk EndOfWal WalOnDisk.

(** ** Reading changes nothing *)

Section reads.
Context `{PgFormat}.

Definition quiet (d : Dir) : Prop := d_open_faults d = [] ∧ d_remove_faults d = [].
(** But for the faults that were used up. *)
Definition same_disk (d d' : Dir) : Prop :=
  ∃ fs, d' = d <| d_faults := fs |> ∧ (d_faults d = [] → fs = []).
Definition reads {A} (m : IO A) : Prop := ∀ d, quiet d → wp m (λ _ d', same_disk d d') d.

Lemma same_disk_refl d : same_disk d d.
Proof. exists (d_faults d). by destruct d. Qed.

Lemma same_disk_trans d1 d2 d3 : same_disk d1 d2 → same_disk d2 d3 → same_disk d1 d3.
Proof.
  intros (fs & -> & Hf) (fs' & -> & Hf'). exists fs'. split; [by destruct d1|]. intros He.
  apply Hf'. by apply Hf.
Qed.

Lemma same_disk_fault d f fs : d_faults d = f :: fs → same_disk d (d <| d_faults := fs |>).
Proof. intros Hf. exists fs. by rewrite Hf. Qed.

Lemma reads_ret {A} (a : A) : reads (mret a).
Proof. intros d Hq. wp_step. apply same_disk_refl. Qed.

Lemma reads_fail {A} e : reads (st_fail (A := A) e).
Proof. intros d Hq. wp_step. apply same_disk_refl. Qed.

Lemma reads_lift {A} (r : outcome IoError A) : reads (st_lift r).
Proof. intros d Hq. apply run_wp. intros r' d' [= <- <-]. apply same_disk_refl. Qed.

Lemma reads_bind {A B} (m : IO A) (f : A → IO B) : reads m → (∀ a, reads (f a)) → reads (m ≫= f).
Proof.
  intros Hm Hf d Hq. wp_step. eapply wp_mono; [by apply Hm|]. intros r d' Hd'.
  destruct r as [a|e|]; [|done..]. eapply wp_mono; [apply Hf; by destruct Hd' as (fs & -> & _)|].
  intros r d'' Hd. by eapply same_disk_trans.
Qed.

Lemma reads_faulty {A} (m : IO A) : reads m → reads (faulty m).
Proof.
  intros Hm. apply reads_bind.
  - intros d Hq. apply run_wp. intros r d' Hr. unfold next_fault in Hr.
    destruct (d_faults d) eqn:Hf; simplify_eq; [apply same_disk_refl|by eapply same_disk_fault].
  - intros [[|n]|]; [apply reads_fail|apply reads_bind; [done|intros; apply reads_fail]|done].
Qed.

Lemma reads_open path : reads (st_catch (E' := IoError) (fs_open path)).
Proof.
  intros d [Ho _]. apply run_wp. intros r d'. unfold st_catch, fs_open. rewrite Ho.
  destruct (d_names d !! path); intros [= <- <-]; apply same_disk_refl.
Qed.

#[local] Hint Resolve reads_ret reads_fail reads_lift reads_bind reads_faulty reads_open : reads.

Lemma reads_open_segment segno wal_seg_size : reads (open_wal_segment segno wal_seg_size).
Proof.
  unfold open_wal_segment. destruct (wal_file_paths _ _) as [full partial].
  apply reads_bind; [auto with reads|]. intros [ino|[]]; [auto with reads| |auto with reads].
  apply reads_bind; [auto with reads|]. intros [ino|[]]; auto with reads.
Qed.

Lemma reads_read ino pos n : reads (fs_read ino pos n).
Proof.
  apply reads_faulty, reads_bind; [intros d Hq; wp_step; apply same_disk_refl|].
  intros d. destruct (d_inodes d !! ino); auto with reads.
Qed.

Lemma reads_lift_fueled {A} (m : fueled IoError A) : reads (lift_fueled m).
Proof. destruct m; simpl; auto with reads. Qed.

Lemma reads_scan_segment wal_seg_size segno ino : ∀ fuel pos curr_lsn result decoder,
  reads (scan_segment fuel wal_seg_size segno ino pos curr_lsn result decoder).
Proof.
  induction fuel as [|fuel IH]; intros pos curr_lsn result decoder; cbn [scan_segment].
  { destruct (negb _); auto with reads. }
  destruct (negb _); [auto with reads|]. apply reads_bind; [apply reads_read|]. intros buf.
  destruct (length buf =? 0)%nat; [auto with reads|]. apply reads_bind; [auto with reads|].
  intros lsn. apply reads_bind; [apply reads_lift_fueled|].
  intros [[res [dec|]]|]; [apply IH|auto with reads..].
Qed.

Lemma reads_scan_segments wal_seg_size fuel_in : ∀ fuel curr_lsn result decoder,
  reads (scan_segments fuel fuel_in wal_seg_size curr_lsn result decoder).
Proof.
  induction fuel as [|fuel IH]; intros curr_lsn result decoder; cbn [scan_segments];
    [auto with reads|]. apply reads_bind; [apply reads_open_segment|].
  intros [ino|]; [|auto with reads]. apply reads_bind; [apply reads_faulty, reads_ret|].
  intros [ino' pos]. apply reads_bind; [apply reads_scan_segment|].
  intros [[res|lsn res dec]|]; [auto with reads|apply IH|auto with reads].
Qed.
End reads.

(** ** Polling *)

(** The end of the last record, or [result] if there is none. *)
Definition last_lsn (result : Lsn) (rs : list (Lsn * bytes)) : Lsn := foldl (λ _ r, r.1) result rs.

Lemma last_lsn_app result rs rs' :
  last_lsn result (rs ++ rs') = last_lsn (last_lsn result rs) rs'.
Proof. apply foldl_app. Qed.

Section polling.
Context `{PgSizes}.

Lemma poll_result_records fuel : ∀ decoder result,
  poll_result fuel decoder result
  = let '(rs, st) := poll_records fuel decoder in
    match st with
    | More decoder' => Some (Ok (last_lsn result rs, Some decoder'))
    | Failed _ => Some (Ok (last_lsn result rs, None))
    | Crashed => Some Panic
    | Running => None
    end.
Proof.
  induction fuel as [|fuel IH]; intros decoder result; cbn [poll_result poll_records]; [done|].
  destruct (poll_decode decoder) as [[[[r|]|e|] d']|]; try done.
  rewrite IH. by destruct (poll_records fuel d') as [rs []].
Qed.

Lemma decode_chunks_snoc d cs c rs d' :
  decode_chunks d cs = (rs, More d') →
  decode_chunks d (cs ++ [c])
  = let '(rs', st) := decode_available (feed_bytes d' c) in (rs ++ rs', st).
Proof.
  revert d rs. induction cs as [|c0 cs IH]; intros d rs; cbn [decode_chunks app].
  { intros [= <- <-]. by destruct (decode_available (feed_bytes d c)) as [rs' []]. }
  destruct (decode_available (feed_bytes d c0)) as [rs0 [d0| | |]]; try done.
  destruct cs as [|c1 cs]; cbn [app].
  { intros [= <- <-]. cbn [decode_chunks].
    by destruct (decode_available (feed_bytes d0 c)) as [rs' []]. }
  change (c1 :: cs ++ [c]) with ((c1 :: cs) ++ [c]).
  destruct (decode_chunks d0 (c1 :: cs)) as [rs1 st1] eqn:H1. intros [= <- ->].
  rewrite (IH d0 rs1 H1). destruct (decode_available (feed_bytes d' c)) as [rs' st'].
  by rewrite app_assoc.
Qed.

(** The records of a decoder that was fed up to [A] follow one another. *)
Lemma poll_records_pos A fuel : ∀ d rs st x,
  A ≤ 2 ^ 64 - 8 → at_pos A d → x ≤ dec_end d → poll_records fuel d = (rs, st) →
  x ≤ last_lsn x rs ∧ ∀ d', st = More d' → at_pos A d' ∧ last_lsn x rs ≤ dec_end d'.
Proof.
  induction fuel as [|fuel IH]; intros d rs st x HA Hat Hx; cbn [poll_records]; [by intros [= <- <-]|].
  destruct (poll_decode_cases d) as [->|[e ->]]; [|by intros [= <- <-]].
  destruct (poll_decode_internal (S (poll_measure d)) d) as [[r d1]|] eqn:Hp; [|by intros [= <- <-]].
  apply (poll_decode_internal_polled _ A) in Hp; [|done..].
  destruct r as [[[l rec]|]|e|]; [..|by intros [= <- <-]|by intros [= <- <-]]; simpl in Hp.
  - destruct Hp as (Hat1 & Hle & Hst). destruct (poll_records fuel d1) as [rs1 st1] eqn:Hr.
    intros [= <- <-]. assert (Hl : dec_end d1 = l) by (unfold dec_end; by rewrite Hst).
    destruct (IH d1 rs1 st1 l HA Hat1 ltac:(lia) Hr) as [Hge Hm].
    change (last_lsn x ((l, rec) :: rs1)) with (last_lsn l rs1). split; [lia|done].
  - destruct Hp as [Hat1 Hle]. intros [= <- <-]. simpl. split; [lia|]. intros d' [= <-].
    split; [done|lia].
Qed.

Lemma poll_records_safe A fuel : ∀ d rs st,
  A ≤ lsn_below → at_pos A d → record_long d → poll_records fuel d = (rs, st) →
  st ≠ Crashed ∧ ∀ d', st = More d' → at_pos A d' ∧ record_long d'.
Proof.
  induction fuel as [|fuel IH]; intros d rs st HA Hat Hlong; cbn [poll_records]; [by intros [= <- <-]|].
  destruct (poll_decode_cases d) as [->|[e ->]]; [|by intros [= <- <-]].
  destruct (poll_decode_internal (S (poll_measure d)) d) as [[r d1]|] eqn:Hp; [|by intros [= <- <-]].
  assert (HA' : A ≤ 2 ^ 64 - 8) by (unfold lsn_below, WAL_SEGMENT_SIZE in *; lia).
  pose proof (poll_decode_internal_polled _ A _ _ _ HA' Hat Hp) as Hm.
  pose proof (poll_decode_internal_safe _ A _ _ _ HA Hat Hlong Hp) as Hs.
  destruct r as [[[l rec]|]|e|]; [..|by intros [= <- <-]|done]; simpl in Hm, Hs.
  - destruct Hm as (Hat1 & _). destruct (poll_records fuel d1) as [rs1 st1] eqn:Hr.
    intros [= <- <-]. by eapply IH.
  - destruct Hm as [Hat1 _]. intros [= <- <-]. split; [done|]. by intros d' [= <-].
Qed.

Lemma decode_chunks_pos chunks : ∀ A d rs d',
  at_pos A d → record_long d → A + Z.of_nat (length (concat chunks)) ≤ lsn_below →
  decode_chunks d chunks = (rs, More d') →
  at_pos (A + Z.of_nat (length (concat chunks))) d' ∧ record_long d'.
Proof.
  induction chunks as [|c cs IH]; intros A d rs d' Hat Hlong HA; cbn [decode_chunks concat].
  { intros [= <- <-]. by rewrite Z.add_0_r. }
  cbn [concat] in HA. rewrite length_app in *. rewrite Nat2Z.inj_add, Z.add_assoc in *.
  destruct (decode_available (feed_bytes d c)) as [rs0 st0] eqn:Hr.
  destruct (poll_records_safe (A + Z.of_nat (length c)) _ _ _ _ ltac:(lia) (at_pos_feed A d c Hat) Hlong Hr)
    as [_ Hm].
  destruct st0 as [d0| | |]; try done. destruct (Hm d0 eq_refl) as [Hat0 Hlong0].
  destruct cs as [|c1 cs]; [intros [= <- <-]; by rewrite Z.add_0_r|].
  destruct (decode_chunks d0 (c1 :: cs)) as [rs1 st1] eqn:H1. intros [= <- ->]. by eapply IH.
Qed.
End polling.

(** ** Scanning *)

#[local] Arguments poll_result : simpl never.

Section scanning.
Context `{PgSizes} {sz : Z} (Hsz : 0 < sz) (Hdiv : (sz | 2 ^ 32)).
Context (d : Dir) (Hwf : dir_wf sz None d) (start : Lsn) (version : Z) (Hstart : in_u 64 start)
  (Hversion : 14 ≤ version ≤ 17).

(** The files hold the bytes [bs] from [lsn] on. *)
Definition has_wal (lsn : Lsn) (bs : bytes) : Prop :=
  ∀ k b, bs !! k = Some b → stored sz d (lsn + Z.of_nat k) b.

(** The WAL does not reach the last segment that PostgreSQL could number. *)
Definition wal_room : Prop := ∀ lsn b, lsn_below ≤ lsn < 2 ^ 64 → ¬ stored sz d lsn b.

Lemma has_wal_room lsn bs :
  wal_room → has_wal lsn bs → bs ≠ [] → lsn + Z.of_nat (length bs) ≤ 2 ^ 64 →
  lsn + Z.of_nat (length bs) ≤ lsn_below.
Proof.
  intros Hroom Hb Hne Hmax. destruct (last bs) as [b|] eqn:Hl; [|by apply last_None in Hl].
  rewrite last_lookup in Hl. apply Hb in Hl.
  assert (Hlen : (0 < length bs)%nat) by (destruct bs; [done|simpl; lia]).
  destruct (Z.le_gt_cases (lsn + Z.of_nat (length bs)) lsn_below); [done|].
  destruct (Hroom (lsn + Z.of_nat (Nat.pred (length bs))) b); [lia|done].
Qed.

(** [result] is the end of the last record in the WAL from [start] on, up to the
    first error of the decoder or the first byte that is missing. *)
Definition ends_wal (result : Lsn) : Prop :=
  ∃ chunks rs st, decode_chunks (WalStreamDecoder_new start version) chunks = (rs, st)
    ∧ result = last_lsn start rs ∧ has_wal start (concat chunks)
    ∧ start + Z.of_nat (length (concat chunks)) < 2 ^ 64
    ∧ match st with
      | More _ => ∀ b, ¬ stored sz d (start + Z.of_nat (length (concat chunks))) b
      | Failed _ => True
      | _ => False
      end.

(** The WAL from [start] to [curr_lsn] has been decoded. *)
Definition scanned (curr_lsn result : Lsn) (decoder : WalStreamDecoder) : Prop :=
  ∃ chunks rs, decode_chunks (WalStreamDecoder_new start version) chunks = (rs, More decoder)
    ∧ result = last_lsn start rs ∧ has_wal start (concat chunks)
    ∧ curr_lsn = start + Z.of_nat (length (concat chunks)) ∧ curr_lsn < 2 ^ 64.

Lemma scanned_start : scanned start start (WalStreamDecoder_new start version).
Proof using Hstart.
  destruct Hstart. exists [], []. split_and!; [done|done|by intros k b ?|simpl; lia|done].
Qed.

(** The decoder while scanning. *)
Lemma decode_chunks_wf chunks : ∀ dec rs dec',
  decoder_wf dec → supported dec → decode_chunks dec chunks = (rs, More dec') →
  decoder_wf dec' ∧ supported dec'.
Proof.
  destruct chunks as [|c cs]; intros dec rs dec' Hw Hs; [by intros [= <- <-]|].
  rewrite decode_chunks_any by done.
  destruct (decode_available_slow (feed_bytes dec (concat (c :: cs))) Hw Hs) as [_ [fuel <-]].
  intros Hr. destruct (run_More_wf false fuel (feed_bytes dec (concat (c :: cs))) rs dec' Hw Hr) as [? Hv].
  split; [done|]. unfold supported in *. by rewrite Hv.
Qed.

(** A chunk is read and decoded. *)
Lemma scanned_chunk curr_lsn result decoder chunk :
  scanned curr_lsn result decoder → has_wal curr_lsn chunk →
  curr_lsn + Z.of_nat (length chunk) < 2 ^ 64 →
  let '(rs, st) := decode_available (feed_bytes decoder chunk) in
  match st with
  | More decoder' => scanned (curr_lsn + Z.of_nat (length chunk)) (last_lsn result rs) decoder'
  | Failed _ => ends_wal (last_lsn result rs)
  | Crashed => chunk ≠ [] → ¬ wal_room
  | Running => False
  end.
Proof using H0 Hstart Hversion.
  intros (chunks & rs0 & Hd & -> & Hh & -> & _) Hc Hmax.
  destruct (decode_chunks_wf chunks (WalStreamDecoder_new start version) rs0 decoder ltac:(done) Hversion Hd) as [Hw Hs].
  destruct (decode_available_slow (feed_bytes decoder chunk) Hw Hs) as [Hrun _].
  pose proof (decode_chunks_snoc _ _ chunk _ _ Hd) as Hd'.
  destruct (decode_available (feed_bytes decoder chunk)) as [rs st] eqn:Hda.
  assert (Hcc : concat (chunks ++ [chunk]) = concat chunks ++ chunk).
  { rewrite concat_app. simpl. by rewrite app_nil_r. }
  assert (Hh' : has_wal start (concat (chunks ++ [chunk]))).
  { rewrite Hcc. intros k b Hk. apply lookup_app_Some in Hk as [Hk|[Hge Hk]]; [by apply Hh|].
    replace (start + Z.of_nat k)
      with (start + Z.of_nat (length (concat chunks)) + Z.of_nat (k - length (concat chunks))) by lia.
    by apply Hc. }
  destruct st as [dec'|e| |]; [| | |done].
  - exists (chunks ++ [chunk]), (rs0 ++ rs). split_and!; [done|by rewrite last_lsn_app|done| |done].
    rewrite Hcc, length_app. lia.
  - exists (chunks ++ [chunk]), (rs0 ++ rs), (Failed e).
    split_and!; [done|by rewrite last_lsn_app|done| |done]. rewrite Hcc, length_app. lia.
  - intros Hne Hroom. pose proof (has_wal_room _ _ Hroom Hc Hne ltac:(lia)) as Hlow.
    destruct Hstart as [Hs0 _].
    destruct (decode_chunks_pos chunks start (WalStreamDecoder_new start version) rs0 decoder)
      as [Hat Hlong]; [by apply at_pos_new|done|lia|done|].
    by destruct (poll_records_safe _ _ _ _ _ Hlow (at_pos_feed _ _ chunk Hat) Hlong Hda).
Qed.

Lemma scanned_end curr_lsn result decoder :
  scanned curr_lsn result decoder → (∀ b, ¬ stored sz d curr_lsn b) → ends_wal result.
Proof. intros (chunks & rs & Hd & -> & Hh & -> & ?) Hn. by exists chunks, rs, (More decoder). Qed.

(** An operation that only reads, on a disk that may fail. *)
Lemma faulty_run {A} (op : IO A) a d1 :
  (∀ d2, same_disk d d2 → op d2 = (Ok a, d2)) → same_disk d d1 →
  wp (faulty op) (λ r d2, same_disk d d2
    ∧ match r with Ok x => x = a | Err _ => d_faults d ≠ [] | Panic => False end) d1.
Proof.
  intros Hop Hd. unfold faulty. wp_step. apply run_wp. unfold next_fault. intros r d2 Hr.
  destruct (d_faults d1) as [|f fs] eqn:Hf; simplify_eq; simpl.
  { apply run_wp. rewrite Hop by done. by intros r d3 [= <- <-]. }
  assert (Hd2 : same_disk d (d1 <| d_faults := fs |>)).
  { eapply same_disk_trans; [done|by eapply same_disk_fault]. }
  assert (Hne : d_faults d ≠ []).
  { intros He. destruct Hd as (fs' & -> & Hfs). rewrite (Hfs He) in Hf. done. }
  destruct f as [[|m]|]; simpl.
  - wp_step. by split.
  - wp_step. apply run_wp. rewrite Hop by done. intros r d3 [= <- <-]. wp_step. by split.
  - apply run_wp. rewrite Hop by done. by intros r d3 [= <- <-].
Qed.

Lemma read_run ino pos n d1 i :
  same_disk d d1 → d_inodes d !! ino = Some i →
  wp (fs_read ino pos n) (λ r d2, same_disk d d2
    ∧ match r with
      | Ok buf => buf = take n (drop pos (i_data i)) | Err _ => d_faults d ≠ [] | Panic => False
      end) d1.
Proof.
  intros Hd Hi. apply faulty_run; [|done]. intros d2 (fs & -> & _).
  unfold mbind, ST_bind, st_get. simpl. by rewrite Hi.
Qed.

(** What a loop has found out; the fuel that is left to the end of all LSNs is
    enough. *)
Definition scan_done (fuel : nat) z curr_lsn (r : outcome IoError (option scan)) (d' : Dir) : Prop :=
  same_disk d d' ∧
  match r with
  | Ok None => (fuel < Z.to_nat (2 ^ 64 - curr_lsn))%nat
  | Ok (Some (EndOfWal result)) => ends_wal result
  | Ok (Some (NextSegment curr_lsn' result decoder)) =>
    scanned curr_lsn' result decoder ∧ curr_lsn ≤ curr_lsn' < 2 ^ 64
    ∧ curr_lsn' / sz ≠ z
  | Err _ => d_faults d ≠ []
  | Panic => ¬ wal_room
  end.

(** A byte of segment [z] by its offset. *)
Lemma seg_stored z ino i off b :
  seg_inode sz (d_names d) z = Some ino → d_inodes d !! ino = Some i → 0 ≤ off < sz →
  stored sz d (z * sz + off) b ↔ i_data i !! Z.to_nat off = Some b.
Proof using Hsz.
  intros Hino Hi Hoff. unfold stored.
  rewrite (Z.add_comm (z * sz)), Z_div_plus_full, Z_mod_plus_full, Z.div_small, Z.mod_small by lia.
  rewrite Z.add_0_l, Hino. split.
  - intros (ino' & i' & [= <-] & Hi' & Hb). by simplify_eq.
  - intros Hb. by exists ino, i.
Qed.

Lemma seg_end z : seg_ok sz z → (z + 1) * sz ≤ 2 ^ 64.
Proof using Hsz Hdiv.
  intros [Hz Hlt]. destruct Hdiv as [m Hm].
  assert (z < m * 2 ^ 32) by nia. assert ((z + 1) * sz ≤ m * 2 ^ 32 * sz) by nia. nia.
Qed.

Lemma scan_segment_spec z ino i : ∀ fuel pos curr_lsn result decoder d1,
  seg_ok sz z → seg_inode sz (d_names d) z = Some ino → d_inodes d !! ino = Some i →
  curr_lsn = z * sz + Z.of_nat pos → Z.of_nat pos ≤ sz → curr_lsn < 2 ^ 64 →
  scanned curr_lsn result decoder → same_disk d d1 →
  wp (scan_segment fuel sz z ino pos curr_lsn result decoder) (scan_done fuel z curr_lsn) d1.
Proof using H0 Hsz Hdiv Hwf Hstart Hversion.
  induction fuel as [|fuel IH]; intros pos curr_lsn result decoder d1 Hz Hino Hi Hc Hpos Hmax Hsc Hd;
    cbn [scan_segment].
  { wp_step; wp_step; (split; [done|]); [|lia]. bool_prop. unfold Lsn_segment_number in *. split_and!; (done || lia). }
  assert (Hlen : (length (i_data i) ≤ Z.to_nat sz)%nat).
  { eapply (wf_len _ _ Hwf (d_names d)); [left|exact Hz|by left|exact Hi|left]. }
  unfold Lsn_segment_number. destruct (Z.eqb_spec (curr_lsn / sz) z) as [He|Hne]; simpl.
  2:{ wp_step. split; [done|]. split_and!; [done|lia|done|done]. }
  assert (Hlt : Z.of_nat pos < sz).
  { subst curr_lsn. rewrite (Z.add_comm (z * sz)), Z_div_plus_full in He by lia.
    pose proof (Z.mul_div_le (Z.of_nat pos) sz Hsz). destruct (Z.lt_ge_cases (Z.of_nat pos) sz); [done|].
    assert (1 ≤ Z.of_nat pos / sz) by (apply Z.div_le_lower_bound; lia). lia. }
  wp_step. eapply wp_mono; [by apply read_run|].
  intros r d2 [Hd2 Hr]. destruct r as [buf|e|]; [|by split..]. subst buf.
  set (buf := take _ _). assert (Hbuf : (length buf ≤ length (i_data i) - pos)%nat).
  { unfold buf. rewrite length_take, length_drop. lia. }
  destruct (Nat.eqb_spec (length buf) 0) as [Hz0|Hz0].
  { wp_step. split; [done|]. eapply scanned_end; [done|]. intros b. rewrite Hc.
    rewrite (seg_stored z ino i _ b Hino Hi) by lia. rewrite Nat2Z.id.
    unfold buf in Hz0. rewrite length_take, length_drop in Hz0.
    intros Hb%lookup_lt_Some. change (Z.to_nat XLOG_BLCKSZ) with (Z.to_nat 8192) in Hz0. lia. }
  assert (Hhas : has_wal curr_lsn buf).
  { intros k b Hk. pose proof (lookup_lt_Some _ _ _ Hk). unfold buf in Hk.
    apply lookup_take_Some in Hk as [Hk _]. rewrite lookup_drop in Hk. subst curr_lsn.
    rewrite <- Z.add_assoc, (seg_stored z ino i _ b Hino Hi) by lia.
    replace (Z.to_nat (Z.of_nat pos + Z.of_nat k)) with (pos + k)%nat by lia. done. }
  wp_step. unfold Lsn_add, checked_add, unwrap.
  assert (Hbne : buf ≠ []) by (intros Hn; rewrite Hn in Hz0; done).
  destruct (Z.ltb_spec (curr_lsn + Z.of_nat (length buf)) (2 ^ 64)).
  2:{ split; [done|]. intros Hroom. pose proof (seg_end z Hz).
      pose proof (has_wal_room _ _ Hroom Hhas Hbne ltac:(lia)). unfold lsn_below, WAL_SEGMENT_SIZE in *. lia. }
  wp_step. rewrite poll_result_records. fold (decode_available (feed_bytes decoder buf)).
  pose proof (scanned_chunk _ _ _ buf Hsc Hhas ltac:(done)) as Hnext.
  destruct (decode_available (feed_bytes decoder buf)) as [rs [dec'|e| |]]; simpl; [..|done].
  - wp_step. wp_step. wp_step. wp_step. eapply wp_mono; [apply IH; try done; lia|].
    intros r d3 [Hd3 Hr]. split; [done|]. destruct r as [[[res|c res dec]|]|e|]; try done; [|lia].
    destruct Hr as (? & ? & ?). split_and!; (done || lia).
  - wp_step. wp_step. wp_step. wp_step. wp_step. by split.
  - wp_step. wp_step. split; [done|by apply Hnext].
Qed.

Lemma same_disk_wf d1 : same_disk d d1 → dir_wf sz None d1.
Proof using Hwf. intros (fs & -> & _). by apply wf_faults. Qed.

Lemma open_wal_segment_run z d1 :
  same_disk d d1 → open_wal_segment z sz d1 = (Ok (seg_inode sz (d_names d) z), d1).
Proof using Hwf.
  intros Hd. pose proof (same_disk_wf d1 Hd) as Hwf1.
  assert (Hn : d_names d1 = d_names d) by by destruct Hd as (fs & -> & _).
  unfold open_wal_segment, wal_file_paths, seg_inode, seg_partial, seg_name.
  set (partial := _ ++ lit ".partial"). set (full := XLogFileName _ _ _).
  assert (Hcatch : ∀ p, st_catch (E' := IoError) (fs_open p) d1
    = (Ok (match d_names d !! p with Some ino => inl ino | None => inr NotFound end), d1)).
  { intros p. unfold st_catch. rewrite (open_run None) by done. rewrite Hn. by destruct (d_names d !! p). }
  unfold mbind, ST_bind at 1. rewrite Hcatch. destruct (d_names d !! partial); [done|].
  unfold ST_bind. rewrite Hcatch. by destruct (d_names d !! full).
Qed.

Lemma seek_run ino pos d1 :
  same_disk d d1 →
  wp (fs_seek ino pos) (λ r d2, same_disk d d2
    ∧ match r with Ok f => f = (ino, pos) | Err _ => d_faults d ≠ [] | Panic => False end) d1.
Proof. intros Hd. by apply faulty_run. Qed.

Definition search_done (enough : Prop) (r : outcome IoError (option Lsn)) (d' : Dir) : Prop :=
  same_disk d d' ∧
  match r with
  | Ok None => ¬ enough
  | Ok (Some result) => ends_wal result
  | Err _ => d_faults d ≠ []
  | Panic => ¬ wal_room
  end.

Lemma scan_segments_spec fuel_in : ∀ fuel curr_lsn result decoder d1,
  in_u 64 curr_lsn → scanned curr_lsn result decoder → same_disk d d1 →
  wp (scan_segments fuel fuel_in sz curr_lsn result decoder)
    (search_done (Z.to_nat (2 ^ 64) ≤ fuel_in ∧ Z.to_nat (2 ^ 64 - curr_lsn) ≤ fuel)%nat) d1.
Proof using H0 Hsz Hdiv Hwf Hstart Hversion.
  induction fuel as [|fuel IH]; intros curr_lsn result decoder d1 Hu Hsc Hd;
    unfold in_u in Hu; cbn [scan_segments]; [wp_step; split; [done|lia]|].
  unfold Lsn_segment_number, Lsn_segment_offset. set (z := curr_lsn / sz).
  assert (Hz : seg_ok sz z) by by apply seg_ok_lsn.
  pose proof (Z.mod_pos_bound curr_lsn sz Hsz). pose proof (Z.div_mod curr_lsn sz ltac:(lia)).
  wp_step. apply run_wp. rewrite (open_wal_segment_run z d1 Hd). intros r d2 [= <- <-].
  destruct (seg_inode sz (d_names d) z) as [ino|] eqn:Hino.
  2:{ wp_step. split; [done|]. eapply scanned_end; [done|]. intros b (ino & i & Hs & _).
      fold z in Hs. congruence. }
  destruct (lookup_lt_is_Some_2 (d_inodes d) ino) as [i Hi].
  { eapply seg_inode_bound; [exact Hwf|left|exact Hino]. }
  wp_step. eapply wp_mono; [by apply seek_run|]. intros r d3 [Hd3 Hr].
  destruct r as [[ino' pos]|e|]; [|by split..]. injection Hr as -> ->.
  wp_step. eapply wp_mono.
  { apply (scan_segment_spec z ino i); try done; try lia. }
  intros r d4 [Hd4 Hr]. destruct r as [[[res|c res dec]|]|e|]; [..|by split|by split].
  - wp_step. by split.
  - destruct Hr as (Hsc' & Hc & Hne). eapply wp_mono; [apply IH; [unfold in_u; lia|done|done]|].
    assert (c ≠ curr_lsn) by (intros ->; done).
    intros r d5 [Hd5 Hr]. split; [done|]. destruct r as [[res'|]|e|]; [done|lia|done..].
  - wp_step. split; [done|lia].
Qed.

Lemma find_end_of_wal_spec fuel :
  wp (find_end_of_wal fuel version sz start) (search_done (Z.to_nat (2 ^ 64) ≤ fuel)%nat) d.
Proof using H0 Hsz Hdiv Hwf Hstart Hversion.
  pose proof Hstart as [? ?]. unfold find_end_of_wal.
  eapply wp_mono; [apply scan_segments_spec; [done|apply scanned_start|apply same_disk_refl]|].
  intros r d' [Hd Hr]. split; [done|]. destruct r as [[res|]|e|]; [done|lia|done..].
Qed.

(** ** What is on disk is found *)

Lemma stored_det lsn b b' : stored sz d lsn b → stored sz d lsn b' → b = b'.
Proof. intros (? & ? & ? & ? & ?) (? & ? & ? & ? & ?). congruence. Qed.

Lemma has_wal_prefix bs bs' :
  has_wal start bs → has_wal start bs' → (length bs ≤ length bs')%nat → bs = take (length bs) bs'.
Proof.
  intros Hb Hb' Hlen. apply list_eq. intros k. destruct (decide (k < length bs)%nat) as [Hk|Hk].
  - rewrite lookup_take_lt by done.
    destruct (lookup_lt_is_Some_2 bs k Hk) as [b Hbk].
    destruct (lookup_lt_is_Some_2 bs' k ltac:(lia)) as [b' Hbk']. rewrite Hbk, Hbk'.
    f_equal. eapply stored_det; [by apply Hb|by apply Hb'].
  - rewrite !lookup_ge_None_2; [done|rewrite length_take; lia|lia].
Qed.


(** The records that follow a position come after it. *)
Lemma decode_chunks_later wal rest rs dec rs' st :
  start + Z.of_nat (length wal) + Z.of_nat (length rest) ≤ 2 ^ 64 - 8 →
  decode_chunks (WalStreamDecoder_new start version) [wal] = (rs, More dec) →
  decode_available (feed_bytes dec rest) = (rs', st) →
  last_lsn start rs ≤ last_lsn (last_lsn start rs) rs'.
Proof using H0 Hstart.
  intros Hmax Hd Hd'. cbn [decode_chunks] in Hd. unfold in_u in Hstart.
  set (dec0 := feed_bytes (WalStreamDecoder_new start version) wal) in *.
  assert (Hat : at_pos (start + Z.of_nat (length wal)) dec0).
  { unfold at_pos, dec0, wd_remaining. simpl. split_and!; (done || lia). }
  assert (Hrs : poll_records (S (poll_measure dec0)) dec0 = (rs, More dec)).
  { unfold decode_available in Hd. by destruct (poll_records _ dec0) as [? []]. }
  destruct (poll_records_pos (start + Z.of_nat (length wal)) _ dec0 rs (More dec) start
    ltac:(lia) Hat ltac:(done) Hrs) as [_ Hm].
  destruct (Hm dec eq_refl) as [(Hw & Hok & Hpos & Hav) Hle].
  assert (Hat' : at_pos (start + Z.of_nat (length wal) + Z.of_nat (length rest)) (feed_bytes dec rest)).
  { split_and!; [done|done|done|]. rewrite remaining_feed. simpl. lia. }
  exact (proj1 (poll_records_pos _ _ _ _ _ _ Hmax Hat' Hle Hd')).
Qed.

(** Every record that can be decoded from bytes on disk lies before the end of the
    WAL that is found. *)
Lemma ends_wal_ge result wal rs dec :
  ends_wal result → wal_room → wal ≠ [] → has_wal start wal →
  decode_chunks (WalStreamDecoder_new start version) [wal] = (rs, More dec) →
  last_lsn start rs ≤ result.
Proof using H0 Hstart Hversion.
  intros (chunks & rsf & st & Hf & -> & Hh & Hmax & Hst) Hroom Hne Hw Hd.
  set (d0 := WalStreamDecoder_new start version) in *. set (found := concat chunks) in *.
  assert (Hwf0 : decoder_wf d0) by done. assert (Hs0 : supported d0) by done.
  assert (Hlong : (length wal ≤ length found)%nat).
  { destruct (decide (length wal ≤ length found)%nat) as [|Hlt]; [done|].
    pose proof (has_wal_prefix found wal Hh Hw ltac:(lia)) as Hpre. destruct st as [d'|e| |]; try done.
    - destruct (lookup_lt_is_Some_2 wal (length found) ltac:(lia)) as [b Hb].
      destruct (Hst b). by apply Hw.
    - destruct chunks as [|c cs]; [done|]. rewrite decode_chunks_any in Hf by done. fold found in Hf.
      assert (Hsplit : decode_chunks d0 [found; drop (length found) wal] = (rsf, Failed e)).
      { cbn [decode_chunks]. by rewrite Hf. }
      rewrite decode_chunks_any in Hsplit by done. rewrite decode_chunks_any in Hd by done.
      cbn [concat] in Hsplit, Hd. rewrite app_nil_r in Hsplit, Hd. rewrite Hpre in Hsplit at 1.
      rewrite take_drop in Hsplit. congruence. }
  pose proof (has_wal_prefix wal found Hw Hh Hlong) as Hpre. set (rest := drop (length wal) found).
  assert (Hfound : found = wal ++ rest) by (unfold rest; rewrite Hpre at 1; by rewrite take_drop).
  destruct chunks as [|c cs]; [by destruct wal|].
  rewrite decode_chunks_any in Hf by done. fold found in Hf.
  assert (Hsplit : decode_chunks d0 [wal; rest] = (rsf, st)).
  { rewrite decode_chunks_any by done. cbn [concat]. by rewrite app_nil_r, <- Hfound. }
  change [wal; rest] with ([wal] ++ [rest]) in Hsplit.
  rewrite (decode_chunks_snoc _ _ rest _ _ Hd) in Hsplit.
  destruct (decode_available (feed_bytes dec rest)) as [rs' st'] eqn:Hr. injection Hsplit as <- <-.
  rewrite last_lsn_app. eapply decode_chunks_later; [|done|done].
  assert (Hroom' : start + Z.of_nat (length found) ≤ 2 ^ 64 - 8).
  { etrans; [apply has_wal_room; [done|done| |lia]|done]. intros Hn. rewrite Hn in Hlong. destruct wal; [done|]. simpl in Hlong. lia. }
  rewrite Hfound, length_app in Hroom'. lia.
Qed.

Lemma ends_wal_start result : start ≤ lsn_below → wal_room → ends_wal result → start ≤ result.
Proof using H0 Hstart Hversion.
  intros Hlow Hroom (chunks & rs & st & Hd & -> & Hh & Hmax & _). destruct Hstart as [Hs0 _].
  destruct chunks as [|c cs]; [by injection Hd as <- <-|].
  rewrite decode_chunks_any in Hd by done. set (bs := concat (c :: cs)) in *.
  assert (HA : start + Z.of_nat (length bs) ≤ 2 ^ 64 - 8).
  { transitivity lsn_below; [|done]. destruct (decide (bs = [])) as [->|Hne]; [simpl; lia|].
    apply has_wal_room; [done|done|done|lia]. }
  by eapply (poll_records_pos _ _ _ _ _ start HA (at_pos_feed _ _ bs (at_pos_new start version Hs0))).
Qed.

(** C21: [find_end_of_wal] returns, unless the disk fails or the WAL reaches the end
    of all LSNs; it changes nothing, and returns the end of the last record that
    the decoder finds in the bytes of the segments from the start position up to
    the first error or missing byte. *)
Theorem find_end_of_wal_correct (fuel : nat)
    (Hfuel : (Z.to_nat (2 ^ 64) ≤ fuel)%nat) (Hfaults : d_faults d = [])
    (Hlow : start ≤ lsn_below) (Hroom : wal_room) :
  ∃ result d', find_end_of_wal fuel version sz start d = (Ok (Some result), d')
    ∧ same_disk d d' ∧ start ≤ result ∧ ends_wal result.
Proof using H0 Hsz Hdiv Hwf Hstart Hversion.
  pose proof (find_end_of_wal_spec fuel) as [Hd Hr].
  destruct (find_end_of_wal fuel version sz start d) as [[[result|]|e|] d']; try done.
  exists result, d'. split_and!; [done|done|by apply ends_wal_start|done].
Qed.
End scanning.
