(* ===== verification/WalDurable.v ===== *)
(** * The WAL storage stores WAL

    The operations of [PhysicalStorage] against an abstract log: what was written
    is in the files, and what is reported as flushed survives a crash.  The disk
    may fail in any of its operations, but for the opening and the removal of
    files, and it is synced ([no_sync] is off). *)

From S2P Require Import Prelude Bytes Text Lsn TimelineState WalDecoder WalStorage Disk EndOfWal.
From S2P Require Import PhysicalStorage PhysicalStorageLaws WalOnDisk.

Section durable.
Context `{PgFormat} {sz : Z} (Hsz : 0 < sz) (Hdiv : (sz | 2 ^ 32)).
Abbreviation M := (ST PhysicalStorage string).
Abbreviation dir_wf := (dir_wf sz None).
Abbreviation keeps := (keeps sz).
Abbreviation seg_inode := (seg_inode sz).
Abbreviation seg_ok := (seg_ok sz).
Implicit Types s : PhysicalStorage.

Definition st_ok s : Prop :=
  dir_wf (phs_timeline_dir s) ∧ phs_no_sync s = false ∧ phs_wal_seg_size s = sz.

(** Operations that change nothing but the directory. *)
Definition f_spec {A} (m : M A) (P : Z → Prop) (post : A → Dir → Prop) s : Prop :=
  st_ok s →
  wp m (λ r s', ∃ d, s' = s <| phs_timeline_dir := d |> ∧ dir_wf d ∧ keeps P (phs_timeline_dir s) d
                     ∧ match r with Ok a => post a d | _ => True end) s.

Lemma st_ok_dir s d : st_ok s → dir_wf d → st_ok (s <| phs_timeline_dir := d |>).
Proof. intros (_ & ? & ?) ?. by split_and!. Qed.

Lemma f_bind {A B} (m : M A) (f : A → M B) P post post' s :
  f_spec m P post s →
  (∀ a d, post a d → f_spec (f a) P post' (s <| phs_timeline_dir := d |>)) →
  f_spec (m ≫= f) P post' s.
Proof.
  intros Hm Hf Hs. wp_step. eapply wp_mono; [by apply Hm|].
  intros r s' (d & -> & Hwf & Hk & Hp). destruct r as [a|e|]; [|by exists d; split_and!..].
  eapply wp_mono; [apply (Hf a d Hp); by apply st_ok_dir|].
  intros r s' (d' & -> & Hwf' & Hk' & Hp'). exists d'. split_and!; [by destruct s|done| |done].
  by eapply keeps_trans.
Qed.

Lemma f_ret {A} (a : A) P (post : A → Dir → Prop) s :
  post a (phs_timeline_dir s) → f_spec (mret a) P post s.
Proof.
  intros Hp (Hwf & _). wp_step. exists (phs_timeline_dir s). split_and!; [by destruct s|done| |done].
  apply keeps_refl.
Qed.

Lemma f_get P (post : PhysicalStorage → Dir → Prop) s :
  post s (phs_timeline_dir s) → f_spec st_get P post s.
Proof.
  intros Hp (Hwf & _). wp_step. exists (phs_timeline_dir s). split_and!; [by destruct s|done| |done].
  apply keeps_refl.
Qed.

Lemma f_fail {A} e P (post : A → Dir → Prop) s : f_spec (st_fail e) P post s.
Proof.
  intros (Hwf & _). wp_step. exists (phs_timeline_dir s). split_and!; [by destruct s|done| |done].
  apply keeps_refl.
Qed.

Lemma f_assert b P (post : unit → Dir → Prop) s :
  (b = true → post tt (phs_timeline_dir s)) → f_spec (st_assert b) P post s.
Proof.
  intros Hp (Hwf & _). exists (phs_timeline_dir s). destruct b; simpl;
    (split_and!; [by destruct s|done|apply keeps_refl|auto]).
Qed.

Lemma f_mono {A} (m : M A) P (post post' : A → Dir → Prop) s :
  f_spec m P post s → (∀ a d, post a d → post' a d) → f_spec m P post' s.
Proof.
  intros Hm Hp Hs. eapply wp_mono; [by apply Hm|].
  intros r s' (d & -> & Hwf & Hk & Hr). exists d. split_and!; [done..|]. destruct r; auto.
Qed.

Lemma f_wp {A} (m : M A) P post (Q : outcome string A → PhysicalStorage → Prop) s :
  f_spec m P post s → st_ok s →
  (∀ r d, dir_wf d → keeps P (phs_timeline_dir s) d → match r with Ok a => post a d | _ => True end →
     Q r (s <| phs_timeline_dir := d |>)) →
  wp m Q s.
Proof.
  intros Hm Hs HQ. eapply wp_mono; [by apply Hm|]. intros r s' (d & -> & ? & ? & ?). by apply HQ.
Qed.

Lemma f_disk {A} (op : IO A) P post s :
  io_spec (sz := sz) None op P post (phs_timeline_dir s) → f_spec (disk op) P post s.
Proof.
  intros Hop (Hwf & _). unfold disk. wp_step. wp_step. eapply wp_mono; [by apply Hop|].
  intros r d (Hwf' & Hk & Hp). exists d. split_and!; [done..|]. by destruct r.
Qed.

Lemma f_sync ino P s :
  f_spec (fdatasync_file ino) P
    (λ _ d, same_names (phs_timeline_dir s) d ∧ synced (sz := sz) ino d) s.
Proof.
  intros Hs. unfold fdatasync_file. wp_step. wp_step. destruct Hs as (Hwf & Hns & Hseg). rewrite Hns.
  by apply f_disk; [apply sync_spec|].
Qed.

Lemma fsync_file_eq ino : fsync_file ino = fdatasync_file ino.
Proof. done. Qed.

(** ** Segment files *)

Lemma try_open_run s p :
  st_ok s →
  disk (st_catch (fs_open p)) s
  = (Ok (match d_names (phs_timeline_dir s) !! p with Some ino => inl ino | None => inr NotFound end),
     s).
Proof.
  intros (Hwf & _). unfold disk, st_zoom, st_map_err, st_catch. rewrite (open_run None) by done.
  destruct s. simpl. by destruct (_ !! p).
Qed.

(** What a new segment that could not be put in place leaves is removed. *)
Lemma remove_new_segment z d :
  WalOnDisk.dir_wf sz (Some z) d → seg_ok z → d_names d !! seg_name z sz = None →
  wp (ignore_not_found (fs_remove_file (seg_partial z sz))) (λ _ d',
    dir_wf d' ∧ keeps (λ lsn, lsn / sz ≠ z) d d') d.
Proof using Hsz Hdiv.
  intros Hwf Hz Hname. unfold ignore_not_found. wp_step. apply run_wp. unfold st_catch.
  rewrite (remove_run (Some z)) by done.
  destruct (d_names d !! seg_partial z sz) as [ino|] eqn:Hp; intros r d' [= <- <-]; wp_step.
  - split.
    + apply (wf_no_except _ z); [by eapply delete_name_wf|]. unfold WalOnDisk.seg_inode. simpl.
      rewrite lookup_delete_eq, lookup_delete_ne; [done|].
      intros He. by apply (seg_name_partial_ne Hsz Hdiv z z).
    + apply put_names_keeps. intros lsn i Hu Hl <-.
      apply seg_inode_ext; apply lookup_delete_ne; intros He; apply Hl;
        (eapply (seg_path_inj Hsz Hdiv _ _ (seg_partial z sz)); [by apply seg_ok_lsn|done| |by right]);
        rewrite He; [by left|by right].
  - split; [|apply keeps_refl]. apply (wf_no_except d z Hwf). unfold WalOnDisk.seg_inode. by rewrite Hp.
Qed.

Lemma wp_disk {A} (op : IO A) (Q : outcome string A → PhysicalStorage → Prop) s :
  wp op (λ r d, Q (match r with Ok a => Ok a | Err e => Err (io_error e) | Panic => Panic end)
                  (s <| phs_timeline_dir := d |>)) (phs_timeline_dir s) →
  wp (disk op) Q s.
Proof. intros Hop. unfold disk. wp_step. by wp_step. Qed.

Lemma wp_catch {S E E' A} (m : ST S E A) (Q : outcome E' (A + E) → S → Prop) (st : S) :
  wp m (λ r st', Q (match r with Ok a => Ok (inl a) | Err e => Ok (inr e) | Panic => Panic end) st') st →
  wp (st_catch m) Q st.
Proof. unfold wp, st_catch. by destruct (m st) as [[]]. Qed.

Lemma offset_lt lsn : (Z.to_nat (lsn mod sz) < Z.to_nat sz)%nat.
Proof using Hsz. pose proof (Z.mod_pos_bound lsn sz Hsz). lia. Qed.

Lemma durable_rename_total a b do_fsync d : (durable_rename a b do_fsync d).1 ≠ Panic.
Proof.
  assert (Hb : ∀ A B (m : IO A) (f : A → IO B), (∀ d, (m d).1 ≠ Panic) →
    (∀ x d, (f x d).1 ≠ Panic) → ∀ d, ((m ≫= f) d).1 ≠ Panic).
  { intros A B m f Hm Hf d0. unfold mbind, ST_bind. specialize (Hm d0).
    destruct (m d0) as [[x|e|] d1]; [apply Hf|done..]. }
  assert (Hfaulty : ∀ A (op : IO A), (∀ d, (op d).1 ≠ Panic) → ∀ d, (faulty op d).1 ≠ Panic).
  { intros A op Hop. apply Hb; [intros d0; unfold next_fault; by destruct (d_faults d0)|].
    intros [[|n]|]; [done| |done]. by apply Hb. }
  assert (Hsync : ∀ ino d, (fs_sync ino d).1 ≠ Panic) by (intros; by apply Hfaulty).
  unfold durable_rename. apply Hb; [|intros _; apply Hb; [|intros _]].
  - unfold fsync_async_opt. destruct do_fsync; [|done]. apply Hb; [|done].
    intros d0. unfold fs_open. destruct (d_open_faults d0) as [|[] ?]; simpl;
      try done; by destruct (d_names d0 !! a).
  - apply Hfaulty. unfold rename_name. apply Hb; [done|]. intros d0 d1. by destruct (d_names d0 !! a).
  - unfold fsync_parent_opt. destruct do_fsync; [by apply Hfaulty|done].
Qed.

(** The file under construction becomes the partial file of segment [z]. *)
Lemma new_segment_spec z ino P s :
  seg_ok z → seg_inode (d_names (phs_timeline_dir s)) z = None →
  d_names (phs_timeline_dir s) !! waltmp = Some ino →
  f_spec (r ← disk (st_catch (durable_rename waltmp (seg_partial z sz) true));
          match r with
          | inr e =>
            _ ← disk (ignore_not_found (fs_remove_file (seg_partial z sz)));
            st_fail (io_error e)
          | inl _ => mret (ino, true)
          end) P (λ r d, r = (ino, true) ∧ d_names d !! seg_partial z sz = Some ino) s.
Proof using Hsz Hdiv.
  intros Hz Hnone Ht Hs. pose proof Hs as (Hwf & _). wp_step. apply wp_disk, wp_catch.
  apply (wp_mono _ (λ r d, r ≠ Panic ∧ keeps (λ lsn, lsn / sz ≠ z) (phs_timeline_dir s) d ∧
    match r with
    | Ok _ => dir_wf d ∧ d_names d !! seg_partial z sz = Some ino
    | _ => WalOnDisk.dir_wf sz (Some z) d ∧ d_names d !! seg_name z sz = None
    end)).
  { split; [apply durable_rename_total|by eapply durable_rename_new]. }
  intros r d (Htot & Hk & Hr). destruct r as [[]|e|]; [| |done].
  - destruct Hr as [Hwf1 Hp1]. wp_step. exists d. split_and!; [done|done| |done|done].
    by eapply keeps_new.
  - destruct Hr as [Hwf1 Hn1]. wp_step. apply wp_disk. simpl.
    eapply wp_mono; [by apply remove_new_segment|]. intros r d' [Hwf2 Hk2].
    assert (keeps P (phs_timeline_dir s) d').
    { eapply keeps_new; [done|]. by eapply keeps_trans. }
    destruct r; [wp_step|..]; exists d'; by split_and!; [destruct s|..].
Qed.

Lemma open_or_create_spec z P s :
  seg_ok z →
  f_spec (open_or_create z) P (λ r d,
    d_names d !! (if r.2 : bool then seg_partial z sz else seg_name z sz) = Some r.1) s.
Proof using Hsz Hdiv.
  intros Hz Hs. pose proof Hs as (Hwf & Hns & Hseg). unfold open_or_create, file_paths.
  wp_step. wp_step. wp_step. wp_step. wp_step. wp_step. rewrite Hseg, Hns. unfold wal_file_paths.
  fold (seg_name z sz). fold (seg_partial z sz). cbv beta iota.
  wp_step. apply run_wp. rewrite try_open_run by done. intros r s1 [= <- <-].
  destruct (d_names (phs_timeline_dir s) !! seg_name z sz) as [ino|] eqn:Hn.
  { by apply f_ret. }
  wp_step. apply run_wp. rewrite try_open_run by done. intros r s1 [= <- <-].
  destruct (d_names (phs_timeline_dir s) !! seg_partial z sz) as [ino|] eqn:Hp.
  { by apply f_ret. }
  assert (Hnone : seg_inode (d_names (phs_timeline_dir s)) z = None).
  { unfold WalOnDisk.seg_inode. by rewrite Hp. }
  fold waltmp. revert Hs. eapply f_bind.
  { apply f_disk. apply (create_tmp_spec Hsz Hdiv). }
  intros ino d1 [Ht1 Hd1]. eapply f_bind.
  { apply f_disk. apply set_len_spec; [done|]. intros lsn _ _ _. apply offset_lt. }
  intros [] d2 [Hn2 _]. simpl in Hn2. eapply f_mono.
  { apply new_segment_spec; simpl; [done| |by rewrite Hn2].
    rewrite Hn2. destruct (seg_name_tmp_ne Hsz Hdiv z Hz). rewrite <- Hnone.
    apply seg_inode_ext; by apply Hd1. }
  by intros r d [-> Hp3].
Qed.

(** ** Writing *)

Abbreviation everywhere := (λ _ : Z, True).

(** The open file is the partial file of the segment, at the write position. *)
Definition file_ok s : Prop :=
  match phs_file s with
  | Some (ino, pos) =>
    d_names (phs_timeline_dir s) !! seg_partial (phs_write_lsn s / sz) sz = Some ino
    ∧ pos = Z.to_nat (phs_write_lsn s mod sz)
  | None => True
  end.

Lemma st_ok_file s f : st_ok s → st_ok (s <| phs_file := f |>).
Proof. by intros (? & ? & ?). Qed.

Lemma open_at_spec s :
  st_ok s → file_ok s → in_u 64 (phs_write_lsn s) →
  wp (open_at (phs_write_lsn s / sz) (phs_write_lsn s mod sz)) (λ r s', ∃ d,
    s' = s <| phs_file := None |> <| phs_timeline_dir := d |> ∧ dir_wf d
    ∧ keeps everywhere (phs_timeline_dir s) d
    ∧ match r with
      | Ok (ino, pos) => d_names d !! seg_partial (phs_write_lsn s / sz) sz = Some ino
                         ∧ pos = Z.to_nat (phs_write_lsn s mod sz)
      | _ => True
      end) s.
Proof using Hsz Hdiv.
  intros Hs Hf Hu. unfold open_at. wp_step. unfold take_file. wp_step. wp_step. wp_step.
  apply run_wp. unfold st_put. intros r s1 [= <- <-]. wp_step. unfold file_ok in Hf.
  destruct (phs_file s) as [[ino pos]|].
  - destruct Hf as [Hn ->]. wp_step. exists (phs_timeline_dir s).
    split_and!; [by destruct s|apply Hs|apply keeps_refl|done|done].
  - apply (f_wp _ everywhere (λ f d, d_names d !! seg_partial (phs_write_lsn s / sz) sz = Some f.1
                                     ∧ f.2 = Z.to_nat (phs_write_lsn s mod sz)));
      [|by apply st_ok_file|intros r d ? ? ?; exists d; split_and!; [done..|by destruct r as [[]| |]]].
    eapply f_bind.
    { apply open_or_create_spec. by apply seg_ok_lsn. }
    intros [ino is_partial] d Hn. simpl in Hn. eapply f_bind.
    { apply (f_assert is_partial _ (λ _ d', d' = d ∧ is_partial = true)). by intros ->. }
    intros [] d' [-> ->]. eapply f_mono; [apply f_disk, seek_spec|].
    intros f d'' ([Hn' _] & _ & ->). simpl in Hn'. rewrite Hn'. done.
Qed.

Lemma seg_inode_partial d z ino :
  d_names d !! seg_partial z sz = Some ino → seg_inode (d_names d) z = Some ino.
Proof. unfold WalOnDisk.seg_inode. by intros ->. Qed.

(** The bytes that were written, as positions of the WAL. *)
Lemma has_bytes_stored d w ino (buf : bytes) k b :
  seg_inode (d_names d) (w / sz) = Some ino → has_bytes ino (Z.to_nat (w mod sz)) buf d →
  w mod sz + Z.of_nat (length buf) ≤ sz → buf !! k = Some b → stored sz d (w + Z.of_nat k) b.
Proof using Hsz.
  intros Hino (i & Hi & Hb) Hle Hk. pose proof (lookup_lt_Some _ _ _ Hk).
  pose proof (Z.mod_pos_bound w sz Hsz). pose proof (Z.div_mod w sz ltac:(lia)) as Hw.
  assert (Hdm : (w + Z.of_nat k) / sz = w / sz ∧ (w + Z.of_nat k) mod sz = w mod sz + Z.of_nat k).
  { replace (w + Z.of_nat k) with ((w mod sz + Z.of_nat k) + w / sz * sz) by lia.
    rewrite Z_div_plus_full, Z_mod_plus_full by lia. rewrite Z.div_small, Z.mod_small by lia. lia. }
  destruct Hdm as [Hd Hm]. exists ino, i. rewrite Hd, Hm. split_and!; [done..|].
  rewrite Z2Nat.inj_add, Nat2Z.id by lia. by apply Hb.
Qed.

Lemma partial_name_ne z : seg_ok z → seg_partial z sz ≠ seg_name z sz.
Proof using Hsz Hdiv. intros Hz He. by apply (seg_name_partial_ne Hsz Hdiv z z). Qed.

(** All of segment [z] is on the disk. *)
Definition seg_durable z d : Prop :=
  ∀ lsn b, in_u 64 lsn → lsn / sz = z → stored sz d lsn b → durable sz d lsn b.

Lemma synced_durable ino z d :
  seg_inode (d_names d) z = Some ino → synced (sz := sz) ino d → seg_durable z d.
Proof. intros Hi Hs lsn b Hu Hl. apply Hs. by rewrite Hl. Qed.

(** The files behind the names of segments are the same. *)
Lemma seg_durable_rename z d d' :
  seg_ok z → (∀ z', seg_ok z' → seg_inode (d_names d') z' = seg_inode (d_names d) z') →
  d_inodes d' = d_inodes d → seg_durable z d → seg_durable z d'.
Proof.
  intros Hz Hn Hi Hd lsn b Hu Hl (ino & i & Hino & Hii & Hb). rewrite Hl, Hn in Hino by done.
  rewrite Hi in Hii. destruct (Hd lsn b Hu Hl) as (ino' & i' & ? & ? & ?).
  { exists ino, i. by rewrite Hl. }
  exists ino', i'. rewrite Hi, Hl, Hn by done. split_and!; [by rewrite <- Hl|done|done].
Qed.

(** A segment that is complete is synced and renamed. *)
Lemma complete_segment_spec z ino s :
  seg_ok z → d_names (phs_timeline_dir s) !! seg_partial z sz = Some ino →
  f_spec (_ ← fdatasync_file ino;
          paths ← file_paths z;
          _ ← disk (fs_rename paths.2 paths.1);
          mret true) everywhere (λ r d, r = true ∧ seg_durable z d) s.
Proof using Hsz Hdiv.
  intros Hz Hp Hs. pose proof Hs as (Hwf & Hns & Hseg). wp_step.
  eapply wp_mono; [by apply (f_sync ino everywhere)|].
  intros r s1 (d1 & -> & Hwf1 & Hk1 & Hr1). destruct r as [[]|e|]; [|by exists d1; split_and!..].
  destruct Hr1 as [[Hn1 _] Hd1]. unfold file_paths. wp_step. wp_step. wp_step. wp_step. simpl.
  rewrite Hseg. fold (seg_name z sz). fold (seg_partial z sz). wp_step.
  eapply wp_mono.
  { apply (f_disk _ everywhere); [|by apply st_ok_dir].
    apply (rename_seg_spec Hsz Hdiv None z); [done|by right|by left|by apply partial_name_ne]. }
  intros r s2 (d2 & -> & Hwf2 & Hk2 & Hr2). simpl in Hk2.
  assert (Hk : keeps everywhere (phs_timeline_dir s) d2) by by eapply keeps_trans.
  destruct r as [[]|e|]; [wp_step|..]; exists d2; (split_and!; [by destruct s|done|done|..]); try done.
  destruct Hr2 as [Hn2 Hi2]. eapply seg_durable_rename; [done..|]. simpl.
  eapply synced_durable; [|done]. rewrite Hn1. by apply seg_inode_partial.
Qed.

(** What a write of [buf] at the write position has done. *)
Definition segment_written s (buf : bytes) (r : outcome string bool) s' : Prop :=
  let w := phs_write_lsn s in
  ∃ d f, s' = s <| phs_timeline_dir := d |> <| phs_file := f |> ∧ dir_wf d
  ∧ keeps (λ lsn, lsn < w) (phs_timeline_dir s) d
  ∧ match r with
    | Ok flushed =>
      (∀ k b, buf !! k = Some b → stored sz d (w + Z.of_nat k) b)
      ∧ (if flushed : bool
         then f = None ∧ w mod sz + Z.of_nat (length buf) = sz
              ∧ seg_durable (w / sz) d
         else w mod sz + Z.of_nat (length buf) < sz
              ∧ ∃ ino, f = Some (ino, Z.to_nat (w mod sz + Z.of_nat (length buf)))
                       ∧ d_names d !! seg_partial (w / sz) sz = Some ino)
    | _ => f = None
    end.

Lemma lsn_before w lsn :
  lsn < w → lsn / sz = w / sz → (Z.to_nat (lsn mod sz) < Z.to_nat (w mod sz))%nat.
Proof using Hsz.
  intros Hlt He. pose proof (Z.mod_pos_bound lsn sz Hsz). pose proof (Z.mod_pos_bound w sz Hsz).
  pose proof (Z.div_mod lsn sz ltac:(lia)). pose proof (Z.div_mod w sz ltac:(lia)). nia.
Qed.

(** The positions of a segment are LSNs. *)
Lemma in_segment w k : in_u 64 w → 0 ≤ k < sz - w mod sz → in_u 64 (w + k).
Proof using Hsz Hdiv.
  unfold in_u. intros Hw Hk. split; [lia|]. pose proof (Z.mod_pos_bound w sz Hsz).
  pose proof (Z.div_mod w sz ltac:(lia)). destruct Hdiv as [m Hm].
  assert (Hz : w / sz < m * 2 ^ 32) by nia.
  assert ((w / sz + 1) * sz ≤ m * 2 ^ 32 * sz) by nia. nia.
Qed.

Lemma keeps_everywhere P d d' : keeps everywhere d d' → keeps P d d'.
Proof. intros Hk. by eapply keeps_mono. Qed.

(** The end of [write_in_segment], when the bytes are in the file *)
Lemma leave_segment_spec s d ino buf :
  st_ok s → in_u 64 (phs_write_lsn s) → dir_wf d → keeps (λ lsn, lsn < phs_write_lsn s) (phs_timeline_dir s) d →
  phs_write_lsn s mod sz + Z.of_nat (length buf) ≤ sz →
  d_names d !! seg_partial (phs_write_lsn s / sz) sz = Some ino →
  (∀ k b, buf !! k = Some b → stored sz d (phs_write_lsn s + Z.of_nat k) b) →
  let file := (ino, (Z.to_nat (phs_write_lsn s mod sz) + length buf)%nat) in
  wp (self ← st_get;
      if phs_write_lsn s mod sz + Z.of_nat (length buf) =? phs_wal_seg_size self then
        _ ← fdatasync_file file.1;
        paths ← file_paths (phs_write_lsn s / sz);
        _ ← disk (fs_rename paths.2 paths.1);
        mret true
      else
        _ ← st_modify (λ self, self <| phs_file := Some file |>);
        mret false) (segment_written s buf) (s <| phs_file := None |> <| phs_timeline_dir := d |>).
Proof using Hsz Hdiv.
  intros (_ & Hns & Hseg) Hu Hwf Hk Hle Hp Hst. unfold segment_written. set (w := phs_write_lsn s) in *. set (z := w / sz) in *.
  pose proof (Z.mod_pos_bound w sz Hsz) as Hoff. assert (Hz : seg_ok z) by by apply seg_ok_lsn.
  set (s3 := _ <| phs_timeline_dir := d |>). assert (Hs3 : st_ok s3) by by split_and!.
  wp_step. wp_step. change (phs_wal_seg_size s3) with (phs_wal_seg_size s). rewrite Hseg.
  wp_step; bool_prop.
  - eapply (f_wp _ everywhere); [by apply complete_segment_spec|done|].
    intros r d4 Hwf4 Hk4 Hr4. simpl in Hk4.
    exists d4, None. split; [by destruct s|]. split; [done|].
    split; [eapply keeps_trans; [done|by apply keeps_everywhere]|].
    destruct r as [flushed|e|]; [|done..]. destruct Hr4 as [-> Hd4].
    split_and!; [|done..]. intros k b Hkb. apply Hk4; [|done|by apply Hst].
    apply lookup_lt_Some in Hkb. apply in_segment; [done|lia].
  - wp_step. wp_step. wp_step. exists d, (Some (ino, (Z.to_nat (w mod sz) + length buf)%nat)).
    split_and!; [by destruct s|done|done|done|lia|]. exists ino. split; [|done].
    by rewrite Z2Nat.inj_add, Nat2Z.id by lia.
Qed.

Lemma write_in_segment_spec s buf :
  st_ok s → file_ok s → in_u 64 (phs_write_lsn s) →
  phs_write_lsn s mod sz + Z.of_nat (length buf) ≤ sz →
  wp (write_in_segment (phs_write_lsn s / sz) (phs_write_lsn s mod sz) buf)
    (segment_written s buf) s.
Proof using Hsz Hdiv.
  intros Hs Hf Hu Hle. set (w := phs_write_lsn s) in *. set (z := w / sz).
  pose proof (Z.mod_pos_bound w sz Hsz) as Hoff.
  assert (Hz : seg_ok z) by by apply seg_ok_lsn.
  unfold write_in_segment, segment_written. fold w. fold z.
  wp_step. eapply wp_mono; [by apply open_at_spec|]. intros r s1 (d1 & -> & Hwf1 & Hk1 & Hr1).
  apply (keeps_everywhere (λ lsn, lsn < w)) in Hk1.
  destruct r as [[ino pos]|e|]; [|exists d1, None; by split_and!; [destruct s|..]..].
  destruct Hr1 as [Hp1 ->]. fold w in Hp1. fold z in Hp1. fold w.
  pose proof Hs as (_ & Hns & Hseg).
  set (s1 := _ <| phs_timeline_dir := d1 |>).
  assert (Hs1 : st_ok s1) by by split_and!.
  pose proof (seg_inode_partial d1 z ino Hp1) as Hi1.
  wp_step. eapply (f_wp _ (λ lsn, lsn < w)); [|done|].
  { apply f_disk. apply (write_all_spec Hsz None z); simpl; [done|done|lia|].
    intros lsn Hu' Hl Hlsn. apply lsn_before; [done|].
    eapply (wf_inj _ _ Hwf1 (d_names d1) (d_names d1)); [left|left|by apply seg_ok_lsn|done..]. }
  intros r d2 Hwf2 Hk2 Hr2. simpl in Hk2.
  assert (Hk12 : keeps (λ lsn, lsn < w) (phs_timeline_dir s) d2) by by eapply keeps_trans.
  destruct r as [file|e|]; [|exists d2, None; by split_and!; [destruct s|..]..].
  destruct Hr2 as ([Hn2 _] & -> & Hb2). simpl in Hn2.
  set (s2 := _ <| phs_timeline_dir := d2 |>). assert (Hs2 : st_ok s2) by by split_and!.
  wp_step. eapply (f_wp _ everywhere); [apply f_disk, fs_flush_spec|done|].
  intros r d3 Hwf3 Hk3 Hr3. simpl in Hk3.
  assert (Hk13 : keeps (λ lsn, lsn < w) (phs_timeline_dir s) d3).
  { eapply keeps_trans; [done|by apply keeps_everywhere]. }
  destruct r as [[]|e|]; [|exists d3, None; by split_and!; [destruct s|..]..].
  destruct Hr3 as [[Hn3 _] Hi3]. simpl in Hn3, Hi3.
  assert (Hp3 : d_names d3 !! seg_partial z sz = Some ino) by by rewrite Hn3, Hn2.
  assert (Hst3 : ∀ k b, buf !! k = Some b → stored sz d3 (w + Z.of_nat k) b).
  { intros k b Hk. eapply (has_bytes_stored d3 w ino buf); [|destruct Hb2 as (i & Hi & Hb)|done|done].
    - by apply seg_inode_partial.
    - exists i. by rewrite Hi3. }
  apply (leave_segment_spec s d3 ino buf); done.
Qed.

(** ** The log *)

(** WAL by position. *)
Abbreviation wal := (gmap Z byte).
Implicit Types log dur : wal.

Definition log_write (p : Lsn) (buf : bytes) log : wal := map_seqZ p buf ∪ log.
Definition log_cut (end_pos : Lsn) log : wal := filter (λ e, e.1 < end_pos) log.

Lemma log_write_nil p log : log_write p [] log = log.
Proof. unfold log_write. apply (left_id_L ∅ (∪)). Qed.

Lemma log_write_app p b1 b2 log :
  log_write (p + Z.of_nat (length b1)) b2 (log_write p b1 log) = log_write p (b1 ++ b2) log.
Proof.
  unfold log_write. rewrite (assoc_L (∪)). f_equal. rewrite map_seqZ_app.
  apply map_union_comm. symmetry. apply map_seqZ_app_disjoint.
Qed.

Lemma log_write_Some p buf log lsn b :
  log_write p buf log !! lsn = Some b →
  log !! lsn = Some b ∨ ∃ k, buf !! k = Some b ∧ lsn = p + Z.of_nat k ∧ (k < length buf)%nat.
Proof.
  unfold log_write. intros [[? Hb]%lookup_map_seqZ_Some|[_ ?]]%lookup_union_Some_raw; [right|by left].
  exists (Z.to_nat (lsn - p)). split_and!; [done|lia|by apply lookup_lt_Some in Hb].
Qed.

Lemma log_write_sub p buf log :
  (∀ lsn b, log !! lsn = Some b → lsn < p) → log ⊆ log_write p buf log.
Proof.
  intros Hlt. unfold log_write. apply map_union_subseteq_r, map_disjoint_spec.
  intros lsn b b' [? _]%lookup_map_seqZ_Some Hb%Hlt. lia.
Qed.

Lemma log_cut_Some e log lsn b : log_cut e log !! lsn = Some b ↔ log !! lsn = Some b ∧ lsn < e.
Proof. apply map_lookup_filter_Some. Qed.

Lemma log_cut_mono e log dur : dur ⊆ log → log_cut e dur ⊆ log_cut e log.
Proof.
  rewrite !map_subseteq_spec. intros Hs lsn b. rewrite !log_cut_Some. intros [? ?]. auto.
Qed.

Lemma log_cut_all e log : (∀ lsn b, log !! lsn = Some b → lsn < e) → log_cut e log = log.
Proof. intros Hlt. apply map_filter_id. intros lsn b Hb. by apply (Hlt lsn b). Qed.

(** The storage holds the WAL [log], which ends at its write position, and [dur]
    of it is on the disk: everything that is not in the segment being written,
    and everything below the flush position, unless a truncation has not been
    finished. *)
Record rep s log dur : Prop := {
  rep_ok : st_ok s;
  rep_file : file_ok s;
  rep_u64 : in_u 64 (phs_write_lsn s);
  rep_flush_le : phs_flush_lsn s ≤ phs_write_lsn s;
  rep_sub : dur ⊆ log;
  rep_end lsn b : log !! lsn = Some b → 0 ≤ lsn < phs_write_lsn s;
  rep_stored lsn b : log !! lsn = Some b → stored sz (phs_timeline_dir s) lsn b;
  rep_durable lsn b : dur !! lsn = Some b → durable sz (phs_timeline_dir s) lsn b;
  rep_settled lsn b : log !! lsn = Some b → lsn / sz ≠ phs_write_lsn s / sz → dur !! lsn = Some b;
  rep_flushed lsn b : phs_pending_wal_truncation s = false → log !! lsn = Some b →
    lsn < phs_flush_lsn s → dur !! lsn = Some b;
}.

Lemma rep_lsn s log dur lsn b :
  rep s log dur → log !! lsn = Some b → in_u 64 lsn ∧ lsn < phs_write_lsn s.
Proof. intros [] Hi%rep_end0. unfold in_u in *. lia. Qed.

Lemma rep_dur_lsn s log dur lsn b :
  rep s log dur → dur !! lsn = Some b → in_u 64 lsn ∧ lsn < phs_write_lsn s.
Proof.
  intros Hr Hi. eapply rep_lsn; [done|]. eapply lookup_weaken; [done|]. apply (rep_sub _ _ _ Hr).
Qed.

(** Nothing before the write position is lost. *)
Lemma rep_keeps s log dur d f :
  rep s log dur → dir_wf d → keeps (λ lsn, lsn < phs_write_lsn s) (phs_timeline_dir s) d →
  file_ok (s <| phs_timeline_dir := d |> <| phs_file := f |>) →
  rep (s <| phs_timeline_dir := d |> <| phs_file := f |>) log dur.
Proof.
  intros Hr Hwf Hk Hf. pose proof Hr as [(_ & Hns & Hseg) ? ? ? ? ? Hst Hd ? ?].
  split; simpl; try done.
  - intros lsn b Hi. destruct (rep_lsn _ _ _ _ _ Hr Hi). apply Hk; auto.
  - intros lsn b Hi. destruct (rep_dur_lsn _ _ _ _ _ Hr Hi). apply Hk; auto.
Qed.

(** The write position moves on. *)
Lemma rep_write s log dur buf flushed d f :
  rep s log dur → buf ≠ [] → phs_write_lsn s mod sz + Z.of_nat (length buf) ≤ sz →
  segment_written s buf (Ok flushed) (s <| phs_timeline_dir := d |> <| phs_file := f |>) →
  phs_write_lsn s + Z.of_nat (length buf) < 2 ^ 64 →
  let s1 := s <| phs_timeline_dir := d |> <| phs_file := f |>
              <| phs_write_lsn := phs_write_lsn s + Z.of_nat (length buf) |> in
  let log' := log_write (phs_write_lsn s) buf log in
  rep (if flushed then s1 <| phs_flush_lsn := phs_write_lsn s1 |> else s1) log'
    (if flushed then log' else dur)
  ∧ dur ⊆ log'.
Proof using Hsz.
  intros Hr Hne Hle (d0 & f0 & Hs & Hwf & Hk & Hb & Hfin) Hmax s1 log'.
  assert (d0 = d ∧ f0 = f) as [-> ->] by (destruct s; simpl in Hs; by simplify_eq). clear Hs.
  pose proof Hr as [(_ & Hns & Hseg) ? Hu ? Hsub Hend Hst Hdu Hset Hfl]. unfold in_u in Hu.
  set (w := phs_write_lsn s) in *.
  assert (Hsub' : dur ⊆ log').
  { etrans; [exact Hsub|]. apply log_write_sub. intros lsn b Hi%Hend. lia. }
  split; [|done].
  pose proof (Z.mod_pos_bound w sz Hsz). pose proof (Z.div_mod w sz ltac:(lia)) as Hw.
  assert (Hlen : (0 < length buf)%nat) by (destruct buf; [done|simpl; lia]).
  assert (Hpos : ∀ lsn b, log' !! lsn = Some b → 0 ≤ lsn < w + Z.of_nat (length buf)).
  { intros lsn b [Hi%Hend|(k & _ & -> & ?)]%log_write_Some; lia. }
  assert (Hst' : ∀ lsn b, log' !! lsn = Some b → stored sz d lsn b).
  { intros lsn b [Hi|(k & Hk' & -> & _)]%log_write_Some; [|by apply Hb].
    destruct (rep_lsn _ _ _ _ _ Hr Hi). apply Hk; auto. }
  assert (Hset' : ∀ lsn b, log' !! lsn = Some b → lsn / sz ≠ w / sz → dur !! lsn = Some b).
  { intros lsn b [Hi|(k & Hk' & -> & Hlt)]%log_write_Some; [auto|]. intros [].
    replace (w + Z.of_nat k) with ((w mod sz + Z.of_nat k) + w / sz * sz) by lia.
    rewrite Z_div_plus_full, Z.div_small by lia. lia. }
  assert (Hdu' : ∀ lsn b, dur !! lsn = Some b → durable sz d lsn b).
  { intros lsn b Hi. destruct (rep_dur_lsn _ _ _ _ _ Hr Hi). apply Hk; auto. }
  destruct flushed.
  - destruct Hfin as (-> & Hfull & Hd).
    split; simpl; try (done || lia || (unfold in_u; lia)).
    intros lsn b Hi. destruct (decide (lsn / sz = w / sz)) as [Heq|Hneq]; [|by apply Hdu', Hset'].
    apply Hd; [|done|by apply Hst']. apply Hpos in Hi. unfold in_u. lia.
  - destruct Hfin as (Hlt & ino & -> & Hp).
    assert (Hdm : (w + Z.of_nat (length buf)) / sz = w / sz
                  ∧ (w + Z.of_nat (length buf)) mod sz = w mod sz + Z.of_nat (length buf)).
    { replace (w + Z.of_nat (length buf)) with ((w mod sz + Z.of_nat (length buf)) + w / sz * sz) by lia.
      rewrite Z_div_plus_full, Z_mod_plus_full by lia. rewrite Z.div_small, Z.mod_small by lia. lia. }
    destruct Hdm as [Hdiv' Hmod].
    split; simpl; fold w; try (done || lia || (unfold in_u; lia)).
    + unfold file_ok. simpl. fold w. by rewrite Hdiv', Hmod.
    + by rewrite Hdiv'.
    + intros lsn b Hpend Hi Hfl'. apply log_write_Some in Hi as [Hi|(k & _ & -> & _)]; [auto|lia].
Qed.

(** ** The loop over segments *)

Lemma write_loop_rep fuel : ∀ buf s log dur,
  rep s log dur → (length buf ≤ fuel)%nat →
  wp (write_loop fuel buf) (λ r s', ∃ k dur', dur ⊆ dur'
    ∧ rep s' (log_write (phs_write_lsn s) (take k buf) log) dur'
    ∧ (r = Ok tt → (length buf ≤ k)%nat ∧ phs_write_lsn s' = phs_write_lsn s + Z.of_nat (length buf))) s.
Proof using Hsz Hdiv.
  induction fuel as [|fuel IH]; intros buf s log dur Hr Hfuel.
  { destruct buf; [|simpl in Hfuel; lia]. cbn [write_loop]. wp_step. exists 0%nat, dur.
    rewrite log_write_nil. simpl. split_and!; [done|done|lia]. }
  destruct buf as [|x l]; cbn [write_loop].
  { wp_step. exists 0%nat, dur. rewrite log_write_nil. simpl. split_and!; [done|done|lia]. }
  set (buf := x :: l) in *. assert (Hlen : (0 < length buf)%nat) by (simpl; lia).
  pose proof Hr as [Hok Hfile Hu _ _ _ _ _ _ _]. pose proof Hok as (_ & Hns & Hseg).
  pose proof (Z.mod_pos_bound (phs_write_lsn s) sz Hsz) as Hoff.
  wp_step. wp_step. rewrite Hseg. unfold Lsn_segment_offset, Lsn_segment_number.
  set (bw := if _ <? _ then _ else length buf).
  assert (Hbw : (0 < bw ≤ length buf)%nat ∧ phs_write_lsn s mod sz + Z.of_nat bw ≤ sz).
  { unfold bw. destruct (Z.ltb_spec sz (phs_write_lsn s mod sz + Z.of_nat (length buf))); lia. }
  destruct Hbw as [Hbw Hfit]. clearbody bw.
  assert (Hlt : length (take bw buf) = bw) by (rewrite length_take; lia).
  wp_step. eapply wp_mono; [apply write_in_segment_spec; [done..|by rewrite Hlt]|].
  intros r s1 Hw. destruct r as [flushed|e|].
  2,3: destruct Hw as (d & f & -> & Hwf & Hk & ->); exists 0%nat, dur;
    rewrite log_write_nil; split_and!; [done|by apply rep_keeps|done].
  pose proof Hw as (d & f & -> & Hwf & Hk & Hb & Hfin).
  wp_step. wp_step. wp_step. wp_step. unfold Lsn_add, checked_add, unwrap. simpl phs_write_lsn.
  destruct (Z.ltb_spec (phs_write_lsn s + Z.of_nat bw) (2 ^ 64)) as [Hmax|Hmax].
  2:{ exists 0%nat, dur. rewrite log_write_nil. split_and!; [done| |done]. apply rep_keeps; try done.
      destruct flushed; [by destruct Hfin as [-> _]|]. rewrite Hlt in Hfin.
      pose proof (in_segment _ (Z.of_nat bw) Hu ltac:(lia)) as [_ ?]. lia. }
  wp_step. wp_step. wp_step.
  destruct (rep_write s log dur (take bw buf) flushed d f Hr) as [Hr1 Hsub]; rewrite ?Hlt; try done.
  { intros Hn%(f_equal length). rewrite Hlt in Hn. simpl in Hn. lia. }
  rewrite Hlt in Hr1. simpl in Hr1.
  match goal with |- wp (if flushed then _ else _) _ ?s0 => set (s1 := s0) in * end.
  apply (wp_mono _ (λ r s', r = Ok tt ∧ s' = if flushed then s1 <| phs_flush_lsn := phs_write_lsn s1 |> else s1)).
  { destruct flushed; by wp_step. }
  intros r s2 [-> ->]. match goal with |- wp _ _ ?s0 => set (s2 := s0) end.
  assert (Hw1 : phs_write_lsn s2 = phs_write_lsn s + Z.of_nat (length (take bw buf)))
    by (rewrite Hlt; unfold s2; by destruct flushed).
  eapply wp_mono; [apply (IH (drop bw buf) s2 _ _ Hr1); rewrite length_drop; lia|].
  intros r s3 (k & dur' & Hd3 & Hr3 & Hk3). exists (bw + k)%nat, dur'.
  rewrite Hw1, log_write_app, take_take_drop in Hr3.
  split; [etrans; [|exact Hd3]; by destruct flushed|]. split; [done|].
  intros Hok'. specialize (Hk3 Hok'). rewrite length_drop, Hw1, Hlt in Hk3. lia.
Qed.

(** ** The operations *)

(** The decoder and the record LSNs do not matter for what is stored. *)
Definition same_log s s' : Prop :=
  ∃ dec wr fr, s' = s <| phs_decoder := dec |> <| phs_write_record_lsn := wr |>
                      <| phs_flush_record_lsn := fr |>.

Lemma same_log_refl s : same_log s s.
Proof. exists (phs_decoder s), (phs_write_record_lsn s), (phs_flush_record_lsn s). by destruct s. Qed.

Lemma same_log_trans s1 s2 s3 : same_log s1 s2 → same_log s2 s3 → same_log s1 s3.
Proof. intros (? & ? & ? & ->) (dec & wr & fr & ->). exists dec, wr, fr. by destruct s1. Qed.

Lemma rep_same_log s s' log dur : same_log s s' → rep s log dur → rep s' log dur.
Proof. intros (? & ? & ? & ->) []. by split. Qed.

Lemma poll_decoder_log s : same_log s (poll_decoder s).2.
Proof.
  unfold poll_decoder. destruct (poll_decode (phs_decoder s)) as [[r dec]|]; [|apply same_log_refl].
  exists dec, (phs_write_record_lsn s), (phs_flush_record_lsn s). destruct r; by destruct s.
Qed.

Lemma poll_loop_log fuel : ∀ s, wp (poll_loop fuel) (λ _ s', same_log s s') s.
Proof.
  induction fuel as [|fuel IH]; intros s; cbn [poll_loop]; [wp_step; apply same_log_refl|].
  wp_step. apply (wp_mono _ (λ _ s', same_log s s')); [apply poll_decoder_log|].
  intros r s1 Hs1. destruct r as [[[lsn rec]|]|e|]; [|by try wp_step..].
  wp_step. wp_step. wp_step. wp_step. eapply wp_mono; [apply IH|].
  intros r s2 Hs2. eapply same_log_trans; [exact Hs1|]. eapply same_log_trans; [|exact Hs2].
  exists (phs_decoder s1), lsn, (if lsn <=? phs_flush_lsn s1 then lsn else phs_flush_record_lsn s1).
  destruct s1. simpl. by destruct (_ <=? _).
Qed.

Lemma restart_decoder_log startpos s : wp (restart_decoder startpos) (λ _ s', same_log s s') s.
Proof.
  unfold restart_decoder. wp_step. wp_step. wp_step. wp_step.
  destruct (WalStreamDecoder_available _); [|apply same_log_refl..].
  wp_step; wp_step; [|apply same_log_refl].
  exists (WalStreamDecoder_new startpos (wd_pg_version (phs_decoder s))), (phs_write_record_lsn s),
    (phs_flush_record_lsn s). by destruct s.
Qed.

Lemma close_file_spec s :
  st_ok s →
  wp close_file (λ r s', ∃ d, s' = s <| phs_timeline_dir := d |> <| phs_file := None |> ∧ dir_wf d
    ∧ keeps everywhere (phs_timeline_dir s) d) s.
Proof.
  intros Hs. unfold close_file, take_file. wp_step. wp_step. wp_step. wp_step. apply run_wp.
  unfold st_put. intros r s1 [= <- <-]. wp_step. destruct (phs_file s) as [file|].
  - eapply (f_wp _ everywhere); [apply f_sync|by apply st_ok_file|].
    intros r d Hwf Hk _. exists d. split_and!; [by destruct s|done|done].
  - wp_step. exists (phs_timeline_dir s). split_and!; [by destruct s|apply Hs|apply keeps_refl].
Qed.

(** What a write has done; it overwrites nothing. *)
Definition wrote startpos (buf : bytes) log dur (r : outcome string unit) s' : Prop :=
  ∃ k dur', log ⊆ log_write startpos (take k buf) log ∧ dur ⊆ dur'
    ∧ rep s' (log_write startpos (take k buf) log) dur'
    ∧ (r = Ok tt → (length buf ≤ k)%nat ∧ phs_write_lsn s' = startpos + Z.of_nat (length buf)).

Lemma wrote_nothing startpos buf log dur r s' : rep s' log dur → r ≠ Ok tt → wrote startpos buf log dur r s'.
Proof. intros Hr Hne. exists 0%nat, dur. by rewrite log_write_nil. Qed.

Lemma write_exact_rep s log dur startpos buf :
  rep s log dur → phs_write_lsn s = startpos ∨ phs_write_lsn s = 0 → in_u 64 startpos →
  wp (write_exact startpos buf) (wrote startpos buf log dur) s.
Proof using Hsz Hdiv.
  intros Hr Hpos Hu. pose proof Hr as [Hok Hfile _ Hfl Hsub Hend _ _ _ _].
  unfold write_exact. wp_step. wp_step. wp_step.
  destruct (Z.eqb_spec (phs_write_lsn s) startpos) as [He|Hne]; simpl negb; cbv iota.
  { wp_step. subst startpos. eapply wp_mono; [by apply write_loop_rep|].
    intros r s1 (k & dur' & ?). exists k, dur'. split; [|done].
    apply log_write_sub. intros lsn b ?%Hend. lia. }
  assert (Hz : phs_write_lsn s = 0) by by destruct Hpos.
  assert (log = ∅) as ->.
  { apply map_empty. intros lsn. destruct (log !! lsn) eqn:Hl; [|done]. apply Hend in Hl. lia. }
  assert (dur = ∅) as -> by (apply (anti_symm (⊆)); [done|apply map_empty_subseteq]).
  wp_step. eapply wp_mono; [by apply close_file_spec|]. intros r s1 (d & -> & Hwf & Hk).
  destruct r as [[]|e|];
    [|apply wrote_nothing; [|done]; apply rep_keeps; [done|done|by apply keeps_everywhere|done]..].
  wp_step. match goal with |- wp _ _ ?s0 => set (s1 := s0) end.
  assert (Hr1 : rep s1 ∅ ∅).
  { destruct Hok as (_ & ? & ?). unfold in_u in Hu. by split; simpl; try (done || lia). }
  eapply wp_mono; [by apply (write_loop_rep _ buf s1 ∅ ∅ Hr1)|].
  intros r s2 (k & dur' & ?). exists k, dur'. split; [apply map_empty_subseteq|done].
Qed.

Lemma write_wal_rep s log dur startpos buf :
  rep s log dur → in_u 64 startpos →
  wp (write_wal startpos buf) (wrote startpos buf log dur) s.
Proof using Hsz Hdiv.
  intros Hr Hu. unfold write_wal. wp_step. wp_step. wp_step. wp_step; [|by apply wrote_nothing].
  wp_step. wp_step; [|by apply wrote_nothing]. wp_step. wp_step; [|by apply wrote_nothing]. bool_prop.
  wp_step. eapply wp_mono.
  { apply (write_exact_rep s log dur); [done| |done].
    match goal with Hb : _ ∨ _ |- _ => destruct Hb end; bool_prop; [left; lia|by right]. }
  intros r s1 Hr1. destruct r as [[]|e|]; [|done..].
  destruct Hr1 as (k & dur' & Hlog & Hsub & Hr1 & Hk). destruct (Hk eq_refl) as [Hlen Hw].
  assert (Hdone : ∀ (r : outcome string unit) s', same_log s1 s' → wrote startpos buf log dur r s').
  { intros r s' Hs'. exists k, dur'. split_and!; [done|done|by eapply rep_same_log|]. intros _.
    split; [done|]. by destruct Hs' as (? & ? & ? & ->). }
  wp_step. eapply wp_mono; [apply restart_decoder_log|].
  intros r s2 Hs2. destruct r as [[]|e|]; [|by apply Hdone..].
  wp_step. wp_step. wp_step. wp_step. wp_step. wp_step.
  match goal with |- wp _ _ ?s0 => set (s3 := s0) end.
  assert (Hs3 : same_log s1 s3).
  { eapply same_log_trans; [exact Hs2|]. unfold s3. simpl.
    exists (feed_bytes (phs_decoder s2) buf), (phs_write_record_lsn s2),
      (if phs_write_record_lsn s2 <=? phs_flush_lsn s2 then phs_write_record_lsn s2
       else phs_flush_record_lsn s2). destruct s2. simpl. by destruct (_ <=? _). }
  eapply wp_mono; [apply poll_loop_log|]. intros r s' Hs'. apply Hdone. by eapply same_log_trans.
Qed.

(** What a flush has done. *)
Definition flushed s log dur (r : outcome string unit) s' : Prop :=
  ∃ dur', dur ⊆ dur' ∧ rep s' log dur'
    ∧ (r = Ok tt → phs_flush_record_lsn s' = phs_write_record_lsn s'
       ∧ (s' = s ∨ phs_flush_lsn s' = phs_write_lsn s' ∧ dur' = log)).

Lemma flush_wal_rep s log dur : rep s log dur → wp flush_wal (flushed s log dur) s.
Proof.
  intros Hr. pose proof Hr as [Hok Hfile Hmax Hfl Hsub Hend Hst Hd Hset _].
  unfold flush_wal. wp_step. wp_step. wp_step; bool_prop; [wp_step; exists dur; auto|].
  unfold take_file. wp_step. wp_step. wp_step. wp_step. apply run_wp. unfold st_put.
  intros r s1 [= <- <-]. wp_step. pose proof (st_ok_file s None Hok) as Hok1.
  destruct (phs_file s) as [[ino pos]|] eqn:Hf.
  2:{ wp_step. exists dur. split_and!; [done| |done]. destruct Hr. by split. }
  unfold file_ok in Hfile. rewrite Hf in Hfile. destruct Hfile as [Hp ->].
  wp_step. eapply (f_wp _ everywhere); [apply f_sync|done|]. intros r d Hwf Hk Hr1. simpl in Hk.
  destruct r as [[]|e|].
  2,3: exists dur; split_and!; [done| |done];
    pose proof (rep_keeps s log dur d None Hr Hwf ltac:(by apply keeps_everywhere) I); by destruct s.
  destruct Hr1 as [[Hn _] Hsy]. simpl in Hn. wp_step. wp_step. wp_step.
  exists log. split_and!; [done| |by intros _; split; [|right]].
  assert (Hdur : ∀ lsn b, log !! lsn = Some b → durable sz d lsn b).
  { intros lsn b Hi. destruct (rep_lsn _ _ _ _ _ Hr Hi) as [Hu Hlt].
    destruct (decide (lsn / sz = phs_write_lsn s / sz)) as [Heq|Hne].
    - apply Hsy; [rewrite Heq, Hn; by apply seg_inode_partial|]. apply Hk; [done|done|by apply Hst].
    - apply Hk; [done|done|]. by apply Hd, Hset. }
  destruct Hok as (_ & Hns & Hseg). split; simpl; try (done || lia); auto using durable_stored.
  unfold file_ok. simpl. by rewrite Hn.
Qed.

(** *** Truncation *)

(** The segments that a predicate does not select stay. *)
Lemma remove_entries_spec (pred : Z → bool) entries : ∀ d,
  dir_wf d →
  wp (remove_entries sz pred entries) (λ _ d',
    dir_wf d' ∧ keeps (λ lsn, pred (lsn / sz) = false) d d') d.
Proof using Hsz Hdiv.
  set (P := λ lsn, pred (lsn / sz) = false).
  assert (Hnext : ∀ d, dir_wf d → wp (st_map_err io_error fs_next_entry) (λ _ d',
    dir_wf d' ∧ keeps P d d') d).
  { intros d Hwf. wp_step. eapply wp_mono.
    - apply (faulty_spec (sz := sz) None (mret tt) P (λ _ _, True)); [|done].
      intros fs. by apply io_ret.
    - naive_solver. }
  induction entries as [|fname entries IH]; intros d Hwf; cbn [remove_entries]; [by apply Hnext|].
  wp_step. eapply wp_mono; [by apply Hnext|]. intros r d1 [Hwf1 Hk1].
  destruct r as [[]|e|]; [|done..]. wp_step.
  eapply (wp_mono _ (λ _ d', dir_wf d' ∧ keeps P d1 d')).
  2:{ intros r d2 [Hwf2 Hk2]. assert (keeps P d d2) by by eapply keeps_trans.
      destruct r as [[]|e|]; [|done..]. eapply wp_mono; [by apply IH|].
      intros r d3 [Hwf3 Hk3]. split; [done|]. by eapply keeps_trans. }
  wp_step; [wp_step; split; [done|apply keeps_refl]|]. wp_step. wp_step.
  destruct (XLogFromFileName fname sz) as [[z' tli]|e|] eqn:Hx; [|split; [done|apply keeps_refl]..].
  wp_step; [|wp_step; split; [done|apply keeps_refl]]. wp_step. simpl in *. bool_prop.
  eapply wp_mono.
  { apply (remove_file_spec Hsz Hdiv None fname P); [|done].
    intros lsn Hu Hl Hpath. pose proof (seg_path_parse Hsz Hdiv _ _ (seg_ok_lsn Hsz lsn Hu) Hpath) as Hx'.
    unfold P in Hl. rewrite Hx' in Hx. simplify_eq. congruence. }
  naive_solver.
Qed.

Lemma remove_segments_spec (pred : Z → bool) d :
  dir_wf d →
  wp (remove_segments_from_disk sz pred) (λ _ d',
    dir_wf d' ∧ keeps (λ lsn, pred (lsn / sz) = false) d d') d.
Proof using Hsz Hdiv.
  intros Hwf. unfold remove_segments_from_disk. wp_step. wp_step. eapply wp_mono.
  { apply (faulty_spec (sz := sz) None _ (λ lsn, pred (lsn / sz) = false) (λ _ _, True)); [|done].
    intros fs. eapply (io_bind None _ _ _ (λ _ _, True)); [|intros; by apply io_ret].
    intros Hwf'. wp_step. split_and!; [done|apply keeps_refl|done]. }
  intros r d1 (Hwf1 & Hk1 & _). destruct r as [entries|e|]; [|done..].
  eapply wp_mono; [by apply remove_entries_spec|]. intros r d2 [Hwf2 Hk2]. split; [done|].
  by eapply keeps_trans.
Qed.

(** The segment in which the truncated WAL ends *)
Lemma f_cut_segment s end_pos :
  in_u 64 end_pos →
  let z := end_pos / sz in
  f_spec (opened ← open_or_create z;
      let '(file, is_partial) := opened in
      _ ← disk (fs_set_len file (Z.to_nat (end_pos mod sz)));
      _ ← disk (fs_set_len file (Z.to_nat sz));
      _ ← fsync_file file;
      if negb is_partial then
        paths ← file_paths z;
        disk (fs_rename paths.1 paths.2)
      else mret tt) (λ lsn, lsn < end_pos) (λ _ d, seg_durable z d) s.
Proof using Hsz Hdiv.
  intros Hu z Hs. pose proof Hs as (_ & Hns & Hseg). assert (Hz : seg_ok z) by by apply seg_ok_lsn.
  pose proof (Z.mod_pos_bound end_pos sz Hsz) as Hoff. revert Hs.
  eapply f_bind; [by apply open_or_create_spec|]. intros [ino is_partial] d3 Hn3. simpl in Hn3.
  assert (Hpath : seg_path (sz := sz) z (if is_partial then seg_partial z sz else seg_name z sz)).
  { destruct is_partial; [by right|by left]. }
  assert (Hi3 : dir_wf d3 → seg_inode (d_names d3) z = Some ino).
  { intros Hwf3. by eapply (seg_inode_path None d3 z). }
  eapply (f_bind _ _ _ (λ _ d, d_names d = d_names d3)).
  { intros Hok. pose proof Hok as (Hwf3 & _). simpl in Hwf3. revert Hok.
    eapply f_mono; [apply f_disk, set_len_spec; simpl; [lia|]|by intros [] d [Hn _]].
    intros lsn Hu' Hl Hino. apply lsn_before; [done|].
    eapply (wf_inj _ _ Hwf3 (d_names d3) (d_names d3)); [left|left|by apply seg_ok_lsn|done|done|by apply Hi3]. }
  intros [] d4 Hn4. eapply (f_bind _ _ _ (λ _ d, d_names d = d_names d3)).
  { eapply f_mono; [apply f_disk, set_len_spec; [done|]|].
    - intros lsn _ _ _. apply offset_lt.
    - intros [] d [Hn _]. simpl in Hn. congruence. }
  intros [] d5 Hn5. rewrite fsync_file_eq. eapply f_bind; [apply f_sync|].
  intros [] d6 [[Hn6 _] Hsy]. simpl in Hn6.
  assert (Hd6 : dir_wf d6 → seg_durable z d6).
  { intros Hwf6. eapply synced_durable; [|exact Hsy].
    eapply (seg_inode_path None d6 z); [done|done|exact Hpath|]. by rewrite Hn6, Hn5. }
  intros Hok6. pose proof Hok6 as (Hwf6 & _). simpl in Hwf6.
  destruct is_partial; simpl negb; cbv iota.
  { revert Hok6. apply f_ret. by apply Hd6. }
  unfold file_paths. wp_step. wp_step. wp_step. wp_step. simpl. rewrite Hseg. fold (seg_name z sz).
  fold (seg_partial z sz). revert Hok6. eapply f_mono.
  { apply f_disk. apply (rename_seg_spec Hsz Hdiv None z); [done|by left|by right|].
    intros He. by apply (partial_name_ne z). }
  intros [] d7 [Hn7 Hi7]. eapply seg_durable_rename; [done..|]. by apply Hd6.
Qed.

Lemma truncate_files_spec s end_pos :
  st_ok s → in_u 64 end_pos →
  wp (truncate_files end_pos) (λ r s', ∃ d,
    s' = s <| phs_timeline_dir := d |> <| phs_file := None |> ∧ dir_wf d
    ∧ keeps (λ lsn, lsn < end_pos) (phs_timeline_dir s) d
    ∧ (r = Ok tt → seg_durable (end_pos / sz) d)) s.
Proof using Hsz Hdiv.
  intros Hs Hu. pose proof Hs as (_ & Hns & Hseg). unfold truncate_files.
  set (z := end_pos / sz). assert (Hz : seg_ok z) by by apply seg_ok_lsn.
  pose proof (Z.mod_pos_bound end_pos sz Hsz) as Hoff.
  wp_step. eapply wp_mono; [by apply close_file_spec|]. intros r s1 (d1 & -> & Hwf1 & Hk1).
  apply (keeps_everywhere (λ lsn, lsn < end_pos)) in Hk1.
  destruct r as [[]|e|]; [|exists d1; by split_and!..].
  wp_step. wp_step. simpl phs_wal_seg_size. rewrite Hseg. unfold Lsn_segment_offset, Lsn_segment_number.
  fold z. wp_step. unfold in_dir. wp_step. simpl phs_timeline_dir.
  eapply wp_mono; [by apply remove_segments_spec|]. intros r d2 [Hwf2 Hk2].
  assert (Hk12 : keeps (λ lsn, lsn < end_pos) (phs_timeline_dir s) d2).
  { eapply keeps_trans; [done|]. eapply keeps_mono; [done|]. intros lsn Hl. simpl.
    apply Z.ltb_ge. unfold z. apply Z.div_le_mono; lia. }
  destruct r as [[]|e|]; [|exists d2; by split_and!; [destruct s|..]..].
  set (s2 := _ <| phs_timeline_dir := d2 |>). assert (Hs2 : st_ok s2) by by split_and!.
  apply (f_wp _ (λ lsn, lsn < end_pos) (λ _ d, seg_durable z d)); [by apply f_cut_segment|done|].
  intros r d Hwf Hk Hr. exists d. split_and!; [by destruct s|done|by eapply keeps_trans|].
      intros ->. exact Hr.
Qed.

(** A storage whose positions have been set back to [end_pos]. *)
Lemma truncated_rep s log dur end_pos d b s' :
  rep s log dur → dir_wf d → keeps (λ lsn, lsn < end_pos) (phs_timeline_dir s) d →
  log = ∅ ∨ end_pos ≤ phs_write_lsn s → in_u 64 end_pos →
  b = true ∨ seg_durable (end_pos / sz) d →
  same_log (s <| phs_timeline_dir := d |> <| phs_file := None |>
              <| phs_write_lsn := end_pos |> <| phs_flush_lsn := end_pos |>
              <| phs_pending_wal_truncation := b |>) s' →
  rep s' (log_cut end_pos log) (log_cut end_pos (if b then dur else log)).
Proof using Hsz.
  intros Hr Hwf Hk Hpos Hu Hb Hs'. eapply rep_same_log; [exact Hs'|]. clear s' Hs'.
  pose proof Hr as [(_ & Hns & Hseg) _ _ _ Hsub Hend Hst Hd Hset _].
  assert (Hset' : ∀ lsn x, log !! lsn = Some x → lsn < end_pos → lsn / sz ≠ end_pos / sz →
    dur !! lsn = Some x).
  { intros lsn x Hi Hlt Hne. apply Hset; [done|]. destruct Hpos as [->|Hpos]; [done|].
    assert (lsn / sz ≤ end_pos / sz) by (apply Z.div_le_mono; lia).
    assert (end_pos / sz ≤ phs_write_lsn s / sz) by (apply Z.div_le_mono; lia). lia. }
  assert (Hst' : ∀ lsn x, log !! lsn = Some x → lsn < end_pos → stored sz d lsn x).
  { intros lsn x Hi Hlt. destruct (rep_lsn _ _ _ _ _ Hr Hi). apply Hk; auto. }
  assert (Hd' : ∀ lsn x, dur !! lsn = Some x → lsn < end_pos → durable sz d lsn x).
  { intros lsn x Hi Hlt. destruct (rep_dur_lsn _ _ _ _ _ Hr Hi). apply Hk; auto. }
  split; simpl; try (done || lia).
  - apply log_cut_mono. by destruct b.
  - intros lsn x [Hi Hlt]%log_cut_Some. apply Hend in Hi. lia.
  - intros lsn x [Hi Hlt]%log_cut_Some. auto.
  - intros lsn x [Hi Hlt]%log_cut_Some. destruct b; [auto|]. destruct Hb as [|Hb]; [done|].
    destruct (decide (lsn / sz = end_pos / sz)); [|auto].
    destruct (rep_lsn _ _ _ _ _ Hr Hi). apply Hb; auto.
  - intros lsn x [Hi Hlt]%log_cut_Some Hne. apply log_cut_Some. destruct b; auto.
  - intros lsn x -> Hi Hlt. done.
Qed.

(** What a truncation has done. *)
Definition truncated end_pos log dur (r : outcome string unit) s' : Prop :=
  (rep s' log dur ∧ r ≠ Ok tt)
  ∨ ∃ dur', log_cut end_pos dur ⊆ dur' ∧ rep s' (log_cut end_pos log) dur'
      ∧ (r = Ok tt → phs_write_lsn s' = end_pos ∧ phs_pending_wal_truncation s' = false).

Lemma truncate_wal_rep s log dur end_pos :
  rep s log dur → in_u 64 end_pos → log = ∅ ∨ end_pos ≤ phs_write_lsn s →
  wp (truncate_wal end_pos) (truncated end_pos log dur) s.
Proof using Hsz Hdiv.
  intros Hr Hu Ht. pose proof Hr as [Hok _ _ _ Hsub Hend _ _ _ _].
  unfold truncate_wal. wp_step. wp_step. wp_step; [wp_step; by left|].
  wp_step; bool_prop.
  { wp_step. right. exists dur. subst end_pos.
    assert (Hlt : ∀ lsn b, log !! lsn = Some b → lsn < phs_write_lsn s) by (intros ? ? ?%Hend; lia).
    rewrite !log_cut_all; [done|done|]. intros lsn b Hi. by apply (rep_dur_lsn _ _ _ _ _ Hr Hi). }
  wp_step. wp_step. match goal with |- wp _ _ ?s0 => set (s1 := s0) end.
  assert (Hok1 : st_ok s1) by done.
  wp_step. eapply wp_mono; [by apply truncate_files_spec|].
  intros r s2 (d & -> & Hwf & Hk & Hd). simpl in Hk.
  assert (Hgoal : ∀ b, b = true ∨ r = Ok tt →
    rep (s1 <| phs_timeline_dir := d |> <| phs_file := None |> <| phs_pending_wal_truncation := b |>)
      (log_cut end_pos log) (log_cut end_pos (if b then dur else log))).
  { intros b Hb. eapply (truncated_rep s log dur end_pos d b); [done..|naive_solver|].
    exists (phs_decoder s), end_pos, end_pos. by destruct s. }
  destruct r as [[]|e|].
  - wp_step. right. exists (log_cut end_pos log). split_and!; [by apply log_cut_mono| |done].
    apply (Hgoal false). by right.
  - right. exists (log_cut end_pos dur). split_and!; [done| |done]. apply (Hgoal true). by left.
  - right. exists (log_cut end_pos dur). split_and!; [done| |done]. apply (Hgoal true). by left.
Qed.
End durable.
