(* ===== verification/WalMaintenance.v ===== *)
(** * Setting up, removing and closing WAL

    The operations of [PhysicalStorage] beside writing, flushing and truncating,
    against the abstract log of [WalDurable]: [initialize_first_segment]
    overwrites a segment, [remove_up_to] removes the segments up to a number, and
    [close] drops the open file. *)

From S2P Require Import Prelude Bytes Text Lsn TimelineState WalDecoder WalGenerator WalStorage Disk EndOfWal.
From S2P Require Import PhysicalStorage PhysicalStorageLaws WalOnDisk WalDurable.

(** ** Names that stay *)

(** [m] does not change what the names in [Q] stand for, whatever its outcome. *)
Definition keeps_names {E A} (Q : str → Prop) (m : ST Dir E A) : Prop :=
  ∀ d p, Q p → d_names (m d).2 !! p = d_names d !! p.

Section names.
Context (Q : str → Prop).

Lemma names_bind {E A B} (m : ST Dir E A) (f : A → ST Dir E B) :
  keeps_names Q m → (∀ a, keeps_names Q (f a)) → keeps_names Q (m ≫= f).
Proof.
  intros Hm Hf d p Hp. unfold mbind, ST_bind. specialize (Hm d p Hp).
  destruct (m d) as [[a|e|] d1]; [|done..]. rewrite <- Hm. by apply Hf.
Qed.

Lemma names_catch {E E' A} (m : ST Dir E A) : keeps_names Q m → keeps_names Q (st_catch (E' := E') m).
Proof. intros Hm d p Hp. unfold st_catch. rewrite <- (Hm d p Hp). by destruct (m d) as [[]]. Qed.

Lemma names_map_err {E E' A} (f : E → E') (m : ST Dir E A) :
  keeps_names Q m → keeps_names Q (st_map_err f m).
Proof. intros Hm d p Hp. unfold st_map_err. rewrite <- (Hm d p Hp). by destruct (m d) as [[]]. Qed.

Lemma names_same {E A} (m : ST Dir E A) : (∀ d, d_names (m d).2 = d_names d) → keeps_names Q m.
Proof. intros Hm d p _. by rewrite Hm. Qed.

Lemma names_faulty {A} (op : IO A) : keeps_names Q op → keeps_names Q (faulty op).
Proof.
  intros Hop. apply names_bind; [apply names_same; intros d; unfold next_fault; by destruct (d_faults d)|].
  intros [[|n]|]; simpl; [by apply names_same| |done]. apply names_bind; [done|by intros; apply names_same].
Qed.

Lemma names_open p : keeps_names Q (fs_open p).
Proof.
  apply names_same. intros d. unfold fs_open. destruct (d_open_faults d) as [|[] ?]; simpl;
    try done; by destruct (d_names d !! p).
Qed.

Lemma names_set_len ino n : keeps_names Q (fs_set_len ino n).
Proof. apply names_faulty, names_same. done. Qed.

Lemma names_sync ino : keeps_names Q (fs_sync ino).
Proof. apply names_faulty, names_same. done. Qed.

Lemma names_create p : ¬ Q p → keeps_names Q (fs_create p).
Proof.
  intros Hp. apply names_faulty. intros d q Hq. unfold create_file, mbind, ST_bind, st_get.
  destruct (d_names d !! p); [done|]. simpl. apply lookup_insert_ne. by intros ->.
Qed.

Lemma names_rename a b : ¬ Q a → ¬ Q b → keeps_names Q (fs_rename a b).
Proof.
  intros Ha Hb. apply names_faulty. intros d q Hq. unfold rename_name, mbind, ST_bind, st_get.
  destruct (d_names d !! a) as [ino|]; [|done]. simpl.
  rewrite lookup_insert_ne, lookup_delete_ne; [done|..]; by intros ->.
Qed.

Lemma names_remove p : ¬ Q p → keeps_names Q (fs_remove_file p).
Proof.
  intros Hp. assert (Hr : keeps_names Q (remove_name p)).
  { intros d q Hq. unfold remove_name, mbind, ST_bind, st_get.
    destruct (d_names d !! p); [|done]. simpl. apply lookup_delete_ne. by intros ->. }
  apply names_bind.
  - apply names_same. intros d. unfold next_remove_fault. by destruct (d_remove_faults d).
  - intros [[|n]|]; simpl; [by apply names_same| |done]. apply names_bind; [done|by intros; apply names_same].
Qed.

Lemma names_durable_rename a b do_fsync : ¬ Q a → ¬ Q b → keeps_names Q (durable_rename a b do_fsync).
Proof.
  intros Ha Hb. unfold durable_rename, fsync_async_opt, fsync_parent_opt.
  apply names_bind; [destruct do_fsync; [|by apply names_same]|intros _; apply names_bind].
  - apply names_bind; [apply names_open|intros; apply names_sync].
  - by apply names_rename.
  - intros _. destruct do_fsync; [by apply names_faulty, names_same|by apply names_same].
Qed.
End names.

Section maintenance.
Context `{PgFormat} {sz : Z} (Hsz : 0 < sz) (Hdiv : (sz | 2 ^ 32)).
Abbreviation M := (ST PhysicalStorage string).
Abbreviation seg_path := (seg_path (sz := sz)).
Implicit Types s : PhysicalStorage.
Implicit Types log dur : gmap Z byte.

(** An operation of the storage, up to its directory. *)
Definition dir_names {A} (Q : str → Prop) (m : M A) : Prop :=
  ∀ s p, Q p → d_names (phs_timeline_dir (m s).2) !! p = d_names (phs_timeline_dir s) !! p.

Lemma dir_names_bind {A B} Q (m : M A) (f : A → M B) :
  dir_names Q m → (∀ a, dir_names Q (f a)) → dir_names Q (m ≫= f).
Proof.
  intros Hm Hf s p Hp. unfold mbind, ST_bind. specialize (Hm s p Hp).
  destruct (m s) as [[a|e|] s1]; [|done..]. rewrite <- Hm. by apply Hf.
Qed.

Lemma dir_names_disk {A} Q (op : IO A) : keeps_names Q op → dir_names Q (disk op).
Proof.
  intros Hop s p Hp. unfold disk, st_zoom, st_map_err. rewrite <- (Hop (phs_timeline_dir s) p Hp).
  by destruct (op (phs_timeline_dir s)) as [[]].
Qed.

Lemma get_bind {A} (f : PhysicalStorage → M A) s : (st_get ≫= f) s = f s s.
Proof. done. Qed.

Lemma paths_bind {A} z (f : str * str → M A) s :
  (file_paths z ≫= f) s = f (wal_file_paths z (phs_wal_seg_size s)) s.
Proof. done. Qed.

(** Only the names of the segment and of the temporary file change. *)
Lemma open_or_create_names z s p :
  st_ok (sz := sz) s → ¬ seg_path z p → p ≠ waltmp →
  d_names (phs_timeline_dir (open_or_create z s).2) !! p = d_names (phs_timeline_dir s) !! p.
Proof.
  intros (_ & _ & Hseg) Hz Ht. set (Q := λ p, ¬ seg_path z p ∧ p ≠ waltmp).
  assert (Hp : Q p) by done. assert (Hpart : ¬ Q (seg_partial z sz)) by (intros [Hn _]; apply Hn; by right).
  assert (Htmp : ¬ Q waltmp) by by intros [_ ?].
  unfold open_or_create. rewrite get_bind, paths_bind, Hseg. unfold wal_file_paths.
  fold (seg_name z sz). fold (seg_partial z sz). fold waltmp. cbv beta iota zeta.
  generalize (negb (phs_no_sync s)) as do_fsync. intros do_fsync. clear Hseg Hz Ht. revert s p Hp.
  apply dir_names_bind; [apply dir_names_disk, names_catch, names_open|]. intros [ino|_]; [done|].
  apply dir_names_bind; [apply dir_names_disk, names_catch, names_open|]. intros [ino|_]; [done|].
  apply dir_names_bind; [by apply dir_names_disk, names_create|]. intros ino.
  apply dir_names_bind; [apply dir_names_disk, names_set_len|]. intros _.
  apply dir_names_bind; [by apply dir_names_disk, names_catch, names_durable_rename|].
  intros [_|e]; [done|]. apply dir_names_bind; [|done]. apply dir_names_disk. unfold ignore_not_found.
  apply names_bind; [by apply names_catch, names_remove|]. by intros [_|[]].
Qed.

(** ** Forgetting segments *)

(** The log without the segments in [P]. *)
Definition log_forget (P : Z → Prop) `{∀ z, Decision (P z)} log : gmap Z byte :=
  filter (λ e, ¬ P (e.1 / sz)) log.

Lemma log_forget_Some P `{∀ z, Decision (P z)} log lsn b :
  log_forget P log !! lsn = Some b ↔ log !! lsn = Some b ∧ ¬ P (lsn / sz).
Proof. apply map_lookup_filter_Some. Qed.

Lemma rep_forget P `{∀ z, Decision (P z)} s log dur d :
  rep (sz := sz) s log dur → dir_wf sz None d →
  keeps sz (λ lsn, ¬ P (lsn / sz)) (phs_timeline_dir s) d →
  file_ok (sz := sz) (s <| phs_timeline_dir := d |>) →
  rep (sz := sz) (s <| phs_timeline_dir := d |>) (log_forget P log) (log_forget P dur).
Proof.
  intros Hr Hwf Hk Hf. pose proof Hr as [(_ & Hns & Hseg) ? ? ? Hsub Hend Hst Hd Hset Hfl].
  rewrite map_subseteq_spec in Hsub.
  split; simpl; try done.
  - apply map_subseteq_spec. intros lsn b. rewrite !log_forget_Some. naive_solver.
  - intros lsn b [Hi _]%log_forget_Some. by eapply Hend.
  - intros lsn b [Hi Hn]%log_forget_Some. destruct (rep_lsn _ _ _ _ _ Hr Hi). apply Hk; auto.
  - intros lsn b [Hi Hn]%log_forget_Some. destruct (rep_dur_lsn _ _ _ _ _ Hr Hi). apply Hk; auto.
  - intros lsn b [Hi Hn]%log_forget_Some Hne. apply log_forget_Some. auto.
  - intros lsn b Hp [Hi Hn]%log_forget_Some Hlt. apply log_forget_Some. auto.
Qed.

(** The open file stays the file of its segment when the name of the segment does. *)
Lemma file_ok_names s d :
  file_ok (sz := sz) s →
  (∀ p, seg_path (phs_write_lsn s / sz) p → is_Some (d_names (phs_timeline_dir s) !! p) →
     d_names d !! p = d_names (phs_timeline_dir s) !! p) →
  file_ok (sz := sz) (s <| phs_timeline_dir := d |>).
Proof.
  unfold file_ok. simpl. destruct (phs_file s) as [[ino pos]|]; [|done].
  intros [Hn ->] Hp. rewrite Hp; [done|by right|by exists ino].
Qed.

(** ** The operations *)

(** [close] loses nothing: what it did not sync was not reported as flushed. *)
Lemma close_rep s log dur :
  rep (sz := sz) s log dur → wp close (λ r s', r = Ok tt ∧ rep (sz := sz) s' log dur) s.
Proof.
  intros Hr. unfold close, take_file. wp_step. wp_step. wp_step. wp_step. apply run_wp.
  unfold st_put. intros r s1 [= <- <-]. wp_step. wp_step. split; [done|]. destruct Hr. by split.
Qed.

(** The names of the segments that are not removed *)
Lemma remove_segments_names pred z p :
  seg_ok sz z → pred z = false → seg_path z p →
  keeps_names (λ q, q = p) (remove_segments_from_disk sz pred).
Proof using Hsz Hdiv.
  intros Hz Hpred Hp.
  assert (Hnext : keeps_names (λ q, q = p) (st_map_err io_error fs_next_entry))
    by (by apply names_map_err, names_faulty, names_same).
  apply names_bind; [by apply names_map_err, names_faulty, names_same|]. intros entries.
  induction entries as [|fname entries IH]; cbn [remove_entries]; [done|].
  apply names_bind; [done|]. intros _. apply names_bind; [|done].
  destruct (_ && _); [done|]. destruct (XLogFromFileName fname sz) as [[z' tli]|e|] eqn:Hx; [|done..].
  change (keeps_names (λ q, q = p)
    (if pred z' then st_map_err io_error (fs_remove_file fname) else mret tt)).
  destruct (pred z') eqn:Hz'; [|done]. apply names_map_err, names_remove. intros <-.
  rewrite (seg_path_parse Hsz Hdiv z) in Hx by done. congruence.
Qed.

(** [remove_up_to] removes the segments up to [segno], or some of them when it
    fails; the segment that is written is not one of them. *)
Lemma remove_up_to_rep s log dur segno :
  rep (sz := sz) s log dur → segno < phs_write_lsn s / sz →
  wp (remove_up_to segno) (λ _ s', rep (sz := sz) s' (log_forget (λ z, z ≤ segno) log)
                                     (log_forget (λ z, z ≤ segno) dur)) s.
Proof using Hsz Hdiv.
  intros Hr Hlt. pose proof Hr as [(Hwf & Hns & Hseg) Hf Hu _ _ _ _ _ _ _].
  unfold remove_up_to, in_dir. wp_step. wp_step. rewrite Hseg. wp_step.
  set (pred := λ x, x <=? segno).
  apply (wp_mono _ (λ _ d', (dir_wf sz None d'
    ∧ keeps sz (λ lsn, pred (lsn / sz) = false) (phs_timeline_dir s) d')
    ∧ ∀ p, seg_path (phs_write_lsn s / sz) p → d_names d' !! p = d_names (phs_timeline_dir s) !! p)).
  { split; [by apply remove_segments_spec|]. intros p Hp.
    apply (remove_segments_names pred (phs_write_lsn s / sz) p); [by apply seg_ok_lsn| |done|done].
    by apply Z.leb_gt. }
  intros r d [[Hwf' Hk] Hn]. apply rep_forget; [done|done| |].
  - eapply keeps_mono; [exact Hk|]. intros lsn Hl. apply Z.leb_gt. lia.
  - apply file_ok_names; [done|]. intros p Hp _. by apply Hn.
Qed.

(** A segment file that is there is opened, and keeps its name. *)
Lemma open_or_create_present z z' s p :
  st_ok (sz := sz) s → seg_ok sz z → seg_ok sz z' → seg_path z' p →
  is_Some (d_names (phs_timeline_dir s) !! p) →
  d_names (phs_timeline_dir (open_or_create z s).2) !! p = d_names (phs_timeline_dir s) !! p.
Proof using Hsz Hdiv.
  intros Hs Hz Hz' Hp [ino Hi]. destruct (decide (z' = z)) as [->|Hne].
  - unfold open_or_create. rewrite get_bind, paths_bind. pose proof Hs as (_ & _ & ->). unfold wal_file_paths.
    fold (seg_name z sz). fold (seg_partial z sz). unfold mbind at 1, ST_bind at 1. cbv beta iota.
    rewrite try_open_run by done. destruct (_ !! seg_name z sz) eqn:Hn; [done|].
    unfold mbind at 1, ST_bind at 1. rewrite try_open_run by done.
    destruct Hp as [-> | ->]; [congruence|]. by rewrite Hi.
  - apply open_or_create_names; [done| |].
    + intros Hp'. apply Hne. by eapply (seg_path_inj Hsz Hdiv).
    + intros ->. by apply (seg_path_tmp Hsz Hdiv z').
Qed.

Lemma f_lift {A} (r : outcome string A) P (post : A → Dir → Prop) s :
  (∀ a, r = Ok a → post a (phs_timeline_dir s)) → f_spec (sz := sz) (st_lift r) P post s.
Proof.
  intros Hr (Hwf & _). wp_step. exists (phs_timeline_dir s). split_and!; [by destruct s|done|apply keeps_refl|].
  destruct r; auto.
Qed.

(** The first segment is written over the file. *)
Lemma write_first_segment s z ino (gen : outcome string bytes) :
  seg_ok sz z → seg_inode sz (d_names (phs_timeline_dir s)) z = Some ino →
  (∀ bs, gen = Ok bs → (length bs ≤ Z.to_nat sz)%nat) →
  let m := wal_seg ← st_lift gen;
           file ← disk (fs_seek ino 0);
           _ ← disk (fs_write_all file wal_seg);
           disk fs_flush in
  f_spec (sz := sz) m (λ lsn, lsn / sz ≠ z) (λ _ _, True) s ∧ dir_names (λ _, True) m.
Proof using Hsz.
  intros Hz Hino Hgen m. subst m. split.
  - eapply f_bind; [apply (f_lift _ _ (λ a d, gen = Ok a ∧ d = phs_timeline_dir s)); naive_solver|].
    intros bs d [Hbs ->]. eapply f_bind; [apply f_disk, seek_spec|].
    intros file d1 ([Hn1 _] & _ & ->). simpl in Hn1. eapply (f_bind _ _ _ (λ _ _, True)).
    + intros Hs1. pose proof Hs1 as (Hwf1 & _). simpl in Hwf1. revert Hs1.
      eapply f_mono; [apply f_disk, (write_all_spec Hsz None z)|done]; simpl; [done|by rewrite Hn1|by apply Hgen|].
      intros lsn Hu Hne Hl. exfalso. apply Hne.
      eapply (wf_inj _ _ Hwf1 (d_names d1) (d_names d1)); [left|left|by apply seg_ok_lsn|done|done|by rewrite Hn1].
    + intros a d2 _. eapply f_mono; [apply f_disk, fs_flush_spec|done].
  - apply dir_names_bind; [by intros ? ?|]. intros bs.
    apply dir_names_bind; [by apply dir_names_disk, names_faulty, names_same|]. intros [ino' pos].
    apply dir_names_bind; [|intros _; by apply dir_names_disk, names_faulty, names_same].
    apply dir_names_disk, names_same. intros d. unfold fs_write_all, mbind, ST_bind, next_fault.
    by destruct (d_faults d) as [|[]].
Qed.

(** [initialize_first_segment] overwrites the segment of [init_lsn], in full or
    in part; a file that is open stays the file of its segment. *)
Lemma initialize_first_segment_rep s log dur init_lsn :
  rep (sz := sz) s log dur → in_u 64 init_lsn →
  (∀ bs, generate_wal_segment (init_lsn / sz) (phs_system_id s) (phs_pg_version s / 10000) init_lsn = Ok bs →
     (length bs ≤ Z.to_nat sz)%nat) →
  wp (initialize_first_segment init_lsn) (λ _ s',
    rep (sz := sz) s' (log_forget (λ z, z = init_lsn / sz) log)
      (log_forget (λ z, z = init_lsn / sz) dur)) s.
Proof using Hsz Hdiv.
  intros Hr Hu Hgen. pose proof Hr as [(Hwf & Hns & Hseg) Hf Hw _ _ _ _ _ _ _].
  set (z := init_lsn / sz) in *. assert (Hz : seg_ok sz z) by by apply seg_ok_lsn.
  set (P := λ lsn, lsn / sz ≠ z).
  apply (wp_mono _ (λ _ s', ∃ d, s' = s <| phs_timeline_dir := d |> ∧ dir_wf sz None d
    ∧ keeps sz P (phs_timeline_dir s) d
    ∧ ∀ p, seg_path (phs_write_lsn s / sz) p → is_Some (d_names (phs_timeline_dir s) !! p) →
       d_names d !! p = d_names (phs_timeline_dir s) !! p)).
  2:{ intros r s' (d & -> & Hwf' & Hk & Hn). apply rep_forget; [done|done|done|by apply file_ok_names]. }
  unfold initialize_first_segment. wp_step. wp_step. rewrite Hseg. unfold Lsn_segment_number. fold z.
  wp_step. apply (wp_mono _ (λ r s', (∃ d, s' = s <| phs_timeline_dir := d |> ∧ dir_wf sz None d
    ∧ keeps sz P (phs_timeline_dir s) d
    ∧ match r with
      | Ok r => d_names d !! (if r.2 : bool then seg_partial z sz else seg_name z sz) = Some r.1
      | _ => True
      end)
    ∧ ∀ p, seg_path (phs_write_lsn s / sz) p → is_Some (d_names (phs_timeline_dir s) !! p) →
        d_names (phs_timeline_dir s') !! p = d_names (phs_timeline_dir s) !! p)).
  { split; [by apply (open_or_create_spec Hsz Hdiv z P)|]. intros p Hp Hi.
    apply (open_or_create_present z (phs_write_lsn s / sz)); [done|done|by apply seg_ok_lsn|done|done]. }
  intros r s1 [(d1 & -> & Hwf1 & Hk1 & Hr1) Hn1]. destruct r as [[ino partial]|e|]; [|by exists d1..].
  simpl in Hr1, Hn1. set (s1 := s <| phs_timeline_dir := d1 |>).
  assert (Hino : seg_inode sz (d_names d1) z = Some ino).
  { eapply (seg_inode_path None d1 z); [done|done| |exact Hr1]. destruct partial; [by right|by left]. }
  destruct (write_first_segment s1 z ino
    (generate_wal_segment z (phs_system_id s) (phs_pg_version s / 10000) init_lsn) Hz Hino Hgen) as [Hspec Hnm].
  apply (wp_mono _ (λ _ s', (∃ d, s' = s1 <| phs_timeline_dir := d |> ∧ dir_wf sz None d
    ∧ keeps sz P d1 d) ∧ ∀ p, d_names (phs_timeline_dir s') !! p = d_names d1 !! p)).
  { split; [|intros p; by apply Hnm].
    destruct (Hspec ltac:(by split_and!)) as (d & He & ? & ? & _). by exists d. }
  intros r s2 [(d2 & -> & Hwf2 & Hk2) Hn2]. exists d2. simpl in Hn2.
  split_and!; [by destruct s|done|by eapply keeps_trans|]. intros p Hp Hi. rewrite Hn2. by apply Hn1.
Qed.

(** The generated segment has the size of Neon's segments. *)
Lemma generate_wal_segment_length `{!PgFormatLaws} segno system_id version lsn bs :
  in_u 64 lsn → generate_wal_segment segno system_id version lsn = Ok bs →
  length bs = Z.to_nat WAL_SEGMENT_SIZE.
Proof.
  intros Hu. unfold generate_wal_segment. destruct (_ =? _); [|done]. destruct (_ && _); [|done].
  unfold generate_wal_segment_v. cbv zeta.
  assert (Hn : Z.of_nat (Z.to_nat WAL_SEGMENT_SIZE) = WAL_SEGMENT_SIZE)
    by (apply Z2Nat.id; unfold WAL_SEGMENT_SIZE; lia).
  generalize dependent (Z.to_nat WAL_SEGMENT_SIZE). intros n Hn.
  destruct (Z.ltb_spec (Lsn_segment_offset lsn WAL_SEGMENT_SIZE) XLOG_BLCKSZ) as [Hfirst|Hfirst].
  { destruct (fake_record _ _) as [long| |]; simpl; [|done..]. intros [= <-]. apply length_resize. }
  simpl. destruct (fake_record _ _) as [[rem info]| |] eqn:Hf; simpl; [|done..]. intros [= <-].
  assert (Hoff : 0 ≤ Lsn_page_offset_in_segment lsn WAL_SEGMENT_SIZE
                 ∧ Lsn_page_offset_in_segment lsn WAL_SEGMENT_SIZE + XLOG_BLCKSZ ≤ WAL_SEGMENT_SIZE).
  { unfold Lsn_page_offset_in_segment, wrapping_sub, Lsn_segment_lsn, Lsn_block_offset, Lsn_segment_offset,
      WAL_SEGMENT_SIZE, XLOG_BLCKSZ, in_u in *.
    change (16 * 1024 * 1024) with 16777216 in *.
    assert (lsn mod 8192 = (lsn mod 16777216) mod 8192) as Hm.
    { symmetry. apply Z.mod_mod_divide. by exists 2048. }
    pose proof (Z.mod_pos_bound lsn 16777216 ltac:(done)).
    pose proof (Z.div_mod (lsn mod 16777216) 8192 ltac:(done)).
    pose proof (Z.mod_pos_bound (lsn mod 16777216) 8192 ltac:(done)).
    rewrite wrap_small by (unfold in_u; lia). lia. }
  assert (Hhdr : length (phd_encode (short_header lsn rem info)) = XLOG_SIZE_OF_XLOG_SHORT_PHD).
  { apply phd_roundtrip. unfold phd_wf, short_header. simpl.
    split_and!; [apply wrap_in_u; done| |done| |apply wrap_in_u; done].
    - revert Hf. unfold fake_record. destruct (0 <? _); [destruct (_ <=? _)|]; intros [= <- <-] || done; done.
    - unfold Lsn_page_lsn, Lsn_block_offset, XLOG_BLCKSZ, in_u in *.
      pose proof (Z.mod_le lsn 8192). pose proof (Z.mod_pos_bound lsn 8192). lia. }
  destruct WalDecoderProps.short_phd_size as [_ Hshort].
  unfold splice.
  rewrite !length_app, length_take, length_app, length_replicate, length_drop, length_resize, Hhdr. lia.
Qed.
End maintenance.
