(* ===== verification/SafeKeeper.v ===== *)
(** * The safekeeper: consensus message handlers

    [safekeeper/src/safekeeper.rs], [struct SafeKeeper]: the acceptor of the
    consensus protocol that makes WAL durable on a quorum.  Each handler is an
    [ST] program over the safekeeper's state, parametric in the control file
    ([ControlStorage]) and in the WAL storage ([WalStorage]) as the source is
    in [CTRL] and [WAL].  Logging, timers and metrics are left out. *)

From S2P Require Import Prelude Bytes Text Ids Lsn Membership TermHistory TimelineState Messages.
From S2P Require Import WalStorage.

Record SafeKeeper (C W : Type) := mkSafeKeeper {
  sk_term_start_lsn : Lsn;
  sk_state : TimelineState C;
  sk_wal_store : W;
  sk_node_id : NodeId;
}.
Arguments mkSafeKeeper {C W} _ _ _ _.
Arguments sk_term_start_lsn {C W} _.
Arguments sk_state {C W} _.
Arguments sk_wal_store {C W} _.
Arguments sk_node_id {C W} _.
#[export] Instance SafeKeeper_settable {C W} : Settable (SafeKeeper C W) := λ s,
  mkSafeKeeper (sk_term_start_lsn s) (sk_state s) (sk_wal_store s) (sk_node_id s).

Section SafeKeeper.
Context {C W : Type} `{ControlStorage C} `{WalStorage W}.
Abbreviation SK := (SafeKeeper C W).

(** [self.state.field] dereferences to the persistent state. *)
Definition sk_pers (self : SK) : TimelinePersistentState := TimelineState_deref (sk_state self).
Definition sk_inmem (self : SK) : TimelineMemState := ts_inmem (sk_state self).
Definition sk_term (self : SK) : Term := ps_term (sk_pers self).
Definition sk_generation (self : SK) : Generation := cfg_generation (ps_mconf (sk_pers self)).

Definition state_zoom {A} (m : ST (TimelineState C) string A) : ST SK string A :=
  st_zoom sk_state (λ t self, self <| sk_state := t |>) m.
Definition wal_zoom {A} (m : ST W string A) : ST SK string A :=
  st_zoom sk_wal_store (λ w self, self <| sk_wal_store := w |>) m.

Definition SafeKeeper_new (state : TimelineState C) (wal_store : W) (node_id : NodeId) :
    outcome string SK :=
  if bool_decide (ps_tenant_id (TimelineState_deref state) = zero_id)
     || bool_decide (ps_timeline_id (TimelineState_deref state) = zero_id)
  then Err "Calling SafeKeeper::new with empty tenant_id or timeline_id"%string
  else Ok {| sk_term_start_lsn := 0; sk_state := state; sk_wal_store := wal_store;
             sk_node_id := node_id |}.

Definition SafeKeeper_flush_lsn (self : SK) : Lsn :=
  Z.max (wal_flush_lsn (sk_wal_store self)) (ps_timeline_start_lsn (sk_pers self)).

Definition SafeKeeper_get_term_history (self : SK) : TermHistory :=
  TermHistory_up_to (as_term_history (ps_acceptor_state (sk_pers self)))
    (SafeKeeper_flush_lsn self).

Definition SafeKeeper_get_last_log_term (self : SK) : Term :=
  AcceptorState_get_last_log_term (ps_acceptor_state (sk_pers self))
    (SafeKeeper_flush_lsn self).

(** [state.acceptor_state.term = term] *)
Definition set_term (state : TimelinePersistentState) (term : Term) :
    TimelinePersistentState :=
  state <| ps_acceptor_state := ps_acceptor_state state <| as_term := term |> |>.

Definition handle_greeting (msg : ProposerGreeting) :
    ST SK string (option AcceptorProposerMessage) :=
  self ← st_get;
  let server := ps_server (sk_pers self) in
  _ ← st_ensure
        (negb (negb (pg_pg_version msg / 10000 =? si_pg_version server / 10000)
               && negb (si_pg_version server =? UNKNOWN_SERVER_VERSION)))
        "incompatible server version"%string;
  _ ← st_ensure (bool_decide (pg_tenant_id msg = ps_tenant_id (sk_pers self)))
        "invalid tenant ID"%string;
  _ ← st_ensure (bool_decide (pg_timeline_id msg = ps_timeline_id (sk_pers self)))
        "invalid timeline ID"%string;
  _ ← st_ensure (si_wal_seg_size server =? pg_wal_seg_size msg)
        "invalid wal_seg_size"%string;
  _ ← (if negb (si_system_id server =? pg_system_id msg) && negb (pg_system_id msg =? 0) then
         let state := TimelineState_start_change (sk_state self) in
         let state := state <| ps_server :=
                        ps_server state <| si_system_id := pg_system_id msg |> |> in
         let state :=
           if negb (pg_pg_version msg =? UNKNOWN_SERVER_VERSION)
           then state <| ps_server :=
                  ps_server state <| si_pg_version := pg_pg_version msg |> |>
           else state in
         state_zoom (TimelineState_finish_change state)
       else mret tt);
  _ ← state_zoom (TimelineState_membership_switch (pg_mconf msg));
  self ← st_get;
  mret (Some (AGreeting {|
    ag_node_id := sk_node_id self;
    ag_mconf := ps_mconf (sk_pers self);
    ag_term := sk_term self;
  |})).

Definition handle_vote_request (msg : VoteRequest) :
    ST SK string (option AcceptorProposerMessage) :=
  self ← st_get;
  _ ← st_ensure (sk_generation self =? vr_generation msg)
        "refusing VoteRequest due to generation mismatch"%string;
  _ ← wal_zoom wal_flush_wal;
  self ← st_get;
  let resp := {|
    vp_generation := sk_generation self;
    vp_term := sk_term self;
    vp_vote_given := false;
    vp_flush_lsn := SafeKeeper_flush_lsn self;
    vp_truncate_lsn := mem_peer_horizon_lsn (sk_inmem self);
    vp_term_history := SafeKeeper_get_term_history self;
  |} in
  resp ← (if sk_term self <? vr_term msg then
            let state := set_term (TimelineState_start_change (sk_state self)) (vr_term msg) in
            _ ← state_zoom (TimelineState_finish_change state);
            self ← st_get;
            mret (resp <| vp_term := sk_term self |> <| vp_vote_given := true |>)
          else mret resp);
  mret (Some (AVoteResponse resp)).

Definition SafeKeeper_append_response (self : SK) : AppendResponse := {|
  ap_generation := sk_generation self;
  ap_term := sk_term self;
  ap_flush_lsn := SafeKeeper_flush_lsn self;
  ap_commit_lsn := ps_commit_lsn (sk_pers self);
  ap_hs_feedback := HotStandbyFeedback_empty;
  ap_pageserver_feedback := None;
|}.

(** The block that adopts the term history of an elected proposer: the state
    to persist. *)
Definition elected_state (state : TimelinePersistentState) (msg : ProposerElected) :
    TimelinePersistentState :=
  let state := match head (pe_term_history msg) with
               | Some start_lsn =>
                 if ps_timeline_start_lsn state =? 0
                 then state <| ps_timeline_start_lsn := tl_lsn start_lsn |>
                 else state
               | None => state
               end in
  let state := if ps_peer_horizon_lsn state =? 0
               then state <| ps_peer_horizon_lsn := ps_timeline_start_lsn state |>
               else state in
  let state := if ps_local_start_lsn state =? 0
               then state <| ps_local_start_lsn := pe_start_streaming_at msg |>
               else state in
  let state := state <| ps_commit_lsn :=
                 Z.max (ps_commit_lsn state) (ps_timeline_start_lsn state) |> in
  let state := state <| ps_backup_lsn :=
                 Z.max (ps_backup_lsn state) (ps_timeline_start_lsn state) |> in
  let state := state <| ps_remote_consistent_lsn :=
                 Z.max (ps_remote_consistent_lsn state) (ps_timeline_start_lsn state) |> in
  state <| ps_acceptor_state :=
    ps_acceptor_state state <| as_term_history := pe_term_history msg |> |>.

(** [handle_elected] once the term of the message is known to be the current
    one: check the truncation point, truncate, adopt the history. *)
Definition handle_elected_current (msg : ProposerElected) :
    ST SK string (option AcceptorProposerMessage) :=
  self ← st_get;
  let sk_th := SafeKeeper_get_term_history self in
  lcp ← st_lift (find_highest_common_point (pe_term_history msg) sk_th
                   (SafeKeeper_flush_lsn self));
  last_common_point ← st_lift (match lcp with
    | None => ok_or (head (pe_term_history msg)) "empty walproposer term history"%string
    | Some lcp => Ok lcp
    end);
  _ ← st_ensure (tl_lsn last_common_point =? pe_start_streaming_at msg)
        "refusing ProposerElected with unexpected truncation point"%string;
  _ ← st_assert (mem_commit_lsn (sk_inmem self) <=? pe_start_streaming_at msg);
  _ ← (if wal_flush_lsn (sk_wal_store self) =? Lsn_INVALID
       then wal_zoom (wal_initialize_first_segment (pe_start_streaming_at msg))
       else mret tt);
  _ ← wal_zoom (wal_truncate_wal (pe_start_streaming_at msg));
  self ← st_get;
  let state := elected_state (TimelineState_start_change (sk_state self)) msg in
  _ ← state_zoom (TimelineState_finish_change state);
  match last (pe_term_history msg) with
  | None => st_fail "proposer elected with empty term history"%string
  | Some term_lsn_start =>
    _ ← st_modify (λ self, self <| sk_term_start_lsn := tl_lsn term_lsn_start |>);
    mret None
  end.

Definition handle_elected (msg : ProposerElected) :
    ST SK string (option AcceptorProposerMessage) :=
  self ← st_get;
  _ ← st_ensure (sk_generation self =? pe_generation msg)
        "refusing ProposerElected due to generation mismatch"%string;
  _ ← (if sk_term self <? pe_term msg then
         let state := set_term (TimelineState_start_change (sk_state self)) (pe_term msg) in
         state_zoom (TimelineState_finish_change state)
       else mret tt);
  self ← st_get;
  if pe_term msg <? sk_term self then mret None
  else handle_elected_current msg.

(** [self.state.inmem.commit_lsn = v] *)
Definition set_commit_lsn (v : Lsn) (self : SK) : SK :=
  self <| sk_state := sk_state self
            <| ts_inmem := ts_inmem (sk_state self) <| mem_commit_lsn := v |> |> |>.
Definition set_peer_horizon_lsn (v : Lsn) (self : SK) : SK :=
  self <| sk_state := sk_state self
            <| ts_inmem := ts_inmem (sk_state self) <| mem_peer_horizon_lsn := v |> |> |>.

Definition update_commit_lsn (candidate : Lsn) : ST SK string unit :=
  self ← st_get;
  let candidate := Z.max candidate (mem_commit_lsn (sk_inmem self)) in
  let commit_lsn := Z.min candidate (SafeKeeper_flush_lsn self) in
  _ ← st_assert (mem_commit_lsn (sk_inmem self) <=? commit_lsn);
  _ ← st_modify (set_commit_lsn commit_lsn);
  if (sk_term_start_lsn self <=? commit_lsn)
     && (ps_commit_lsn (sk_pers self) <? sk_term_start_lsn self)
  then state_zoom TimelineState_flush
  else mret tt.

Definition handle_append_request (msg : AppendRequest) (require_flush : bool) :
    ST SK string (option AcceptorProposerMessage) :=
  let h := ar_h msg in
  self ← st_get;
  _ ← st_ensure (sk_generation self =? ah_generation h)
        "refusing append request due to generation mismatch"%string;
  _ ← st_ensure (negb (sk_term self <? ah_term h))
        "got AppendRequest before ProposerElected"%string;
  if ah_term h <? sk_term self then
    mret (Some (AAppendResponse
      (AppendResponse_term_only (sk_generation self) (sk_term self))))
  else
    let write_lsn := wal_write_lsn (sk_wal_store self) in
    let flush_lsn := wal_flush_lsn (sk_wal_store self) in
    _ ← st_ensure (negb (ah_begin_lsn h <? write_lsn))
          "append request rewrites WAL written before"%string;
    _ ← st_ensure (negb ((write_lsn <? ah_begin_lsn h) && negb (write_lsn =? 0)))
          "append request creates gap in written WAL"%string;
    _ ← (if bool_decide (ar_wal_data msg = []) then mret tt
         else wal_zoom (wal_write_wal (ah_begin_lsn h) (ar_wal_data msg)));
    _ ← (if require_flush then wal_zoom wal_flush_wal else mret tt);
    _ ← (if negb (ah_commit_lsn h =? 0) then update_commit_lsn (ah_commit_lsn h)
         else mret tt);
    _ ← st_modify (λ self, set_peer_horizon_lsn
          (Z.max (mem_peer_horizon_lsn (sk_inmem self)) (ah_truncate_lsn h)) self);
    self ← st_get;
    if negb require_flush && (flush_lsn =? SafeKeeper_flush_lsn self) then mret None
    else mret (Some (AAppendResponse (SafeKeeper_append_response self))).

Definition handle_flush : ST SK string (option AcceptorProposerMessage) :=
  _ ← wal_zoom wal_flush_wal;
  self ← st_get;
  mret (Some (AAppendResponse (SafeKeeper_append_response self))).

Definition process_msg (msg : ProposerAcceptorMessage) :
    ST SK string (option AcceptorProposerMessage) :=
  match msg with
  | PGreeting msg => handle_greeting msg
  | PVoteRequest msg => handle_vote_request msg
  | PElected msg => handle_elected msg
  | PAppendRequest msg => handle_append_request msg true
  | PNoFlushAppendRequest msg => handle_append_request msg false
  | PFlushWAL => handle_flush
  end.

Definition record_safekeeper_info (sk_info : SafekeeperTimelineInfo) : ST SK string unit :=
  if negb (sti_commit_lsn sk_info =? Lsn_INVALID) then
    self ← st_get;
    if sti_last_log_term sk_info =? SafeKeeper_get_last_log_term self
    then update_commit_lsn (sti_commit_lsn sk_info)
    else mret tt
  else mret tt.
End SafeKeeper.
