(* ===== verification/DummyStores.v ===== *)
(** * Stores kept in memory

    The [InMemoryState] and [DummyWalStore] of the unit tests of
    [safekeeper/src/safekeeper.rs]: the smallest implementations of the control
    file and WAL storage interfaces.  They satisfy the laws, and the witnesses
    run the safekeeper on them. *)

From S2P Require Import Prelude Bytes Text Ids Lsn Membership TermHistory TimelineState.
From S2P Require Import WalStorage Messages SafeKeeper.

Record InMemoryState := { persisted_state : TimelinePersistentState }.

#[export] Instance InMemoryState_storage : ControlStorage InMemoryState := {|
  ctrl_deref := persisted_state;
  ctrl_persist s := st_put {| persisted_state := s |};
|}.

#[export] Program Instance InMemoryState_laws : ControlStorageLaws InMemoryState := {|
  ctrl_inv _ := True;
  ctrl_durable c st := st = persisted_state c;
|}.
Next Obligation. intros c _. by eexists. Qed.
Next Obligation. intros c s _. unfold wp. simpl. split_and!; try done. intros st ->. by left. Qed.

Record DummyWalStore := { dummy_lsn : Lsn }.

#[export] Instance DummyWalStore_storage : WalStorage DummyWalStore := {|
  wal_write_lsn := dummy_lsn;
  wal_flush_lsn := dummy_lsn;
  wal_initialize_first_segment _ := mret tt;
  wal_write_wal startpos buf :=
    lsn ← st_lift (Lsn_add startpos (Z.of_nat (length buf)));
    st_put {| dummy_lsn := lsn |};
  wal_truncate_wal end_pos := st_put {| dummy_lsn := end_pos |};
  wal_flush_wal := mret tt;
|}.

#[export] Program Instance DummyWalStore_laws : WalStorageLaws DummyWalStore := {|
  wal_inv _ := True;
|}.
Next Obligation. by intros. Qed.
Next Obligation.
  intros w startpos buf _ [Hu Hroom] Hle. unfold wp. simpl in *.
  unfold mbind, ST_bind, st_lift, Lsn_add, checked_add, unwrap, st_put.
  destruct (startpos + Z.of_nat (length buf) <? 2 ^ 64); simpl; split_and!; (done || lia).
Qed.
Next Obligation. intros w end_pos _ _. unfold wp; simpl. naive_solver. Qed.
Next Obligation. intros w _. unfold wp; simpl. lia. Qed.

(** [test_sk_state()] *)
Definition test_sk_state : TimelinePersistentState := {|
  ps_tenant_id := replicate 16 x01;
  ps_timeline_id := replicate 16 x01;
  ps_mconf := Configuration_empty;
  ps_acceptor_state := {| as_term := INITIAL_TERM; as_term_history := [] |};
  ps_server := {| si_pg_version := 170000; si_system_id := 0;
                  si_wal_seg_size := WAL_SEGMENT_SIZE |};
  ps_proposer_uuid := zero_id;
  ps_timeline_start_lsn := 0;
  ps_local_start_lsn := 0;
  ps_commit_lsn := 0;
  ps_backup_lsn := 0;
  ps_peer_horizon_lsn := 0;
  ps_remote_consistent_lsn := 0;
  ps_partial_backup := [];
  ps_eviction_state := Present;
  ps_creation_ts := 0;
|}.

Definition test_sk (node_id : NodeId) : SafeKeeper InMemoryState DummyWalStore := {|
  sk_term_start_lsn := 0;
  sk_state := TimelineState_new {| persisted_state := test_sk_state |};
  sk_wal_store := {| dummy_lsn := 0 |};
  sk_node_id := node_id;
|}.
