(* ===== verification/WalRecovery.v ===== *)
(** * Crashes and restarts of the WAL storage

    Runs of the WAL storage: all of its operations, in any order and with any
    outcome, crashes, and restarts with [PhysicalStorage::new].  They implement an
    abstract log, and WAL that was flushed is never lost: it stays on disk until
    it is truncated, removed or overwritten.

    All operations of the disk may fail, but for the opening and the removal of
    files: [open_error_loses_flushed_wal], at the end, shows that flushed WAL is
    lost when openings do. *)

From S2P Require Import Prelude Bytes Text Ids Lsn Membership TermHistory TimelineState.
From S2P Require Import WalDecoder WalDecoderProps DecoderPositions WalGenerator WalStorage Disk EndOfWal.
From S2P Require Import PhysicalStorage PhysicalStorageLaws WalOnDisk EndOfWalProps WalDurable WalMaintenance.
From S2P Require Import SafeKeeper DummyStores.

(** ** Opening the storage *)

Section opening.
Context `{PgFormat}.

(** What [PhysicalStorage::new] returns. *)
Lemma PhysicalStorage_new_opened fuel d state no_sync s :
  PhysicalStorage_new fuel d state no_sync = Some (Ok s) → quiet d →
  same_disk d (phs_timeline_dir s) ∧ phs_no_sync s = no_sync
  ∧ phs_wal_seg_size s = si_wal_seg_size (ps_server state) ∧ phs_file s = None
  ∧ phs_pending_wal_truncation s = true ∧ phs_flush_lsn s = phs_write_lsn s
  ∧ ps_commit_lsn state ≤ phs_write_lsn s.
Proof.
  unfold PhysicalStorage_new. intros Hnew Hq.
  destruct (if _ =? 0 then _ else _) as [[[write_lsn|]|e|] d'] eqn:Hr; try done.
  destruct (Z.ltb_spec write_lsn (ps_commit_lsn state)); [done|]. injection Hnew as <-. simpl.
  split_and!; try (done || lia). clear -Hr Hq.
  destruct (_ =? 0); [injection Hr as _ <-; apply same_disk_refl|].
  destruct (_ && _); [|done]. unfold st_map_err in Hr.
  unfold find_end_of_wal in Hr. destruct (scan_segments _ _ _ _ _ _ d) as [r1 d1] eqn:Hs.
  pose proof (wp_run _ _ _ _ _ (reads_scan_segments _ _ _ _ _ _ d Hq) Hs).
  destruct r1; by simplify_eq.
Qed.
End opening.

(** ** The abstract log *)

Inductive wal_op :=
| WriteWal (startpos : Lsn) (buf : bytes)
| FlushWal
| TruncateWal (end_pos : Lsn)
| InitializeFirstSegment (init_lsn : Lsn)
| RemoveUpTo (segno_up_to : Z)
| Close.

(** What happens to a storage: an operation and its outcome, or a crash and a
    restart with the commit LSN of the control file, which has found the end of
    the WAL. *)
Inductive wal_event :=
| Op (op : wal_op) (r : outcome string unit)
| Restart (commit_lsn end_of_wal : Lsn).

(** What was written, and what of it is on disk. *)
Record wal_log := mkLog { wl_written : gmap Z byte; wl_durable : gmap Z byte }.

(** For segments of size [sz].  A write overwrites nothing; one that fails may
    have written a part of its data.  A truncation that fails has left the log
    alone, or has truncated it.  The first segment replaces what was in it, and
    removed segments are gone.  A crash loses nothing that is on disk; a restart
    truncates the log at the end of the WAL it found. *)
Inductive log_step (sz : Z) : wal_event → wal_log → wal_log → Prop :=
| log_wrote startpos buf r k w d d' :
    w ⊆ log_write startpos (take k buf) w → d ⊆ d' → (r = Ok tt → (length buf ≤ k)%nat) →
    log_step sz (Op (WriteWal startpos buf) r) (mkLog w d) (mkLog (log_write startpos (take k buf) w) d')
| log_flushed r w d d' : d ⊆ d' → log_step sz (Op FlushWal r) (mkLog w d) (mkLog w d')
| log_truncated end_pos r w d d' :
    log_cut end_pos d ⊆ d' →
    log_step sz (Op (TruncateWal end_pos) r) (mkLog w d) (mkLog (log_cut end_pos w) d')
| log_initialized init_lsn r w d :
    log_step sz (Op (InitializeFirstSegment init_lsn) r) (mkLog w d)
      (mkLog (log_forget (sz := sz) (λ z, z = init_lsn / sz) w)
             (log_forget (sz := sz) (λ z, z = init_lsn / sz) d))
| log_removed segno r w d :
    log_step sz (Op (RemoveUpTo segno) r) (mkLog w d)
      (mkLog (log_forget (sz := sz) (λ z, z ≤ segno) w) (log_forget (sz := sz) (λ z, z ≤ segno) d))
| log_closed l : log_step sz (Op Close (Ok tt)) l l
| log_failed op r l : r ≠ Ok tt → log_step sz (Op op r) l l
| log_restarted commit_lsn end_of_wal w d d' :
    commit_lsn ≤ end_of_wal → d' = log_cut end_of_wal d →
    log_step sz (Restart commit_lsn end_of_wal) (mkLog w d) (mkLog d' d').

Inductive log_run (sz : Z) : list wal_event → wal_log → wal_log → Prop :=
| log_run_nil l : log_run sz [] l l
| log_run_cons ev evs l1 l2 l3 :
    log_step sz ev l1 l2 → log_run sz evs l2 l3 → log_run sz (ev :: evs) l1 l3.

(** ** Runs of the storage *)

Section recovery.
Context `{PgFormat}.
Implicit Types s : PhysicalStorage.

Definition run_op (op : wal_op) : ST PhysicalStorage string unit :=
  match op with
  | WriteWal startpos buf => write_wal startpos buf
  | FlushWal => flush_wal
  | TruncateWal end_pos => truncate_wal end_pos
  | InitializeFirstSegment init_lsn => initialize_first_segment init_lsn
  | RemoveUpTo segno_up_to => remove_up_to segno_up_to
  | Close => close
  end.

(** LSNs are 64-bit integers.  The WAL is truncated where there is WAL; the
    segment that is being written is not removed; and the first segment that is
    generated fits into a segment file (it does when segments have their usual
    size, by [generate_wal_segment_length]). *)
Definition op_ok (op : wal_op) s : Prop :=
  match op with
  | WriteWal startpos _ => in_u 64 startpos
  | FlushWal => True
  | TruncateWal end_pos => in_u 64 end_pos ∧ (phs_write_lsn s = 0 ∨ end_pos ≤ phs_write_lsn s)
  | InitializeFirstSegment init_lsn =>
    in_u 64 init_lsn
    ∧ ∀ bs, generate_wal_segment (init_lsn / phs_wal_seg_size s) (phs_system_id s)
              (phs_pg_version s / 10000) init_lsn = Ok bs →
        (length bs ≤ Z.to_nat (phs_wal_seg_size s))%nat
  | RemoveUpTo segno_up_to => segno_up_to < phs_write_lsn s / phs_wal_seg_size s
  | Close => True
  end.

(** [PhysicalStorage::new] on a directory in which openings and removals of files
    do not fail, for a timeline with segments of size [sz]. *)
Definition opens (sz : Z) (d : Dir) (state : TimelinePersistentState) s : Prop :=
  quiet d ∧ si_wal_seg_size (ps_server state) = sz ∧ in_u 64 (phs_write_lsn s)
  ∧ ∃ fuel, PhysicalStorage_new fuel d state false = Some (Ok s).

Inductive run (sz : Z) : PhysicalStorage → list wal_event → PhysicalStorage → Prop :=
| run_nil s : run sz s [] s
| run_step op s r s1 evs s2 :
    op_ok op s → run_op op s = (r, s1) → run sz s1 evs s2 → run sz s (Op op r :: evs) s2
| run_restart s d state s1 evs s2 :
    crash (phs_timeline_dir s) d → opens sz d state s1 → run sz s1 evs s2 →
    run sz s (Restart (ps_commit_lsn state) (phs_write_lsn s1) :: evs) s2.

(** Operations one after the other, and their outcomes. *)
Fixpoint run_ops (ops : list wal_op) s : PhysicalStorage :=
  match ops with
  | [] => s
  | op :: ops' => run_ops ops' (run_op op s).2
  end.

Fixpoint events (ops : list wal_op) s : list wal_event :=
  match ops with
  | [] => []
  | op :: ops' => Op op (run_op op s).1 :: events ops' (run_op op s).2
  end.

Fixpoint ops_ok (ops : list wal_op) s : Prop :=
  match ops with
  | [] => True
  | op :: ops' => op_ok op s ∧ ops_ok ops' (run_op op s).2
  end.

Lemma run_ops_run sz ops : ∀ s, ops_ok ops s → run sz s (events ops s) (run_ops ops s).
Proof.
  induction ops as [|op ops IH]; intros s Hok; simpl; [constructor|]. destruct Hok as [Hop Hok].
  eapply run_step; [done|apply surjective_pairing|by apply IH].
Qed.

Lemma run_app sz s1 evs1 s2 evs2 s3 :
  run sz s1 evs1 s2 → run sz s2 evs2 s3 → run sz s1 (evs1 ++ evs2) s3.
Proof. induction 1; [done|..]; intros; simpl; econstructor; eauto. Qed.

Section size.
Context {sz : Z} (Hsz : 0 < sz) (Hdiv : (sz | 2 ^ 32)).

(** A storage that was opened holds the WAL that is on disk, up to the end that
    was found. *)
Lemma opens_rep d state s (log : gmap Z byte) :
  opens sz d state s → dir_wf sz None d →
  (∀ lsn b, log !! lsn = Some b → 0 ≤ lsn < phs_write_lsn s ∧ durable sz d lsn b) →
  rep (sz := sz) s log log.
Proof.
  intros (Hq & Hseg & Hu & fuel & Hnew) Hwf Hlog.
  destruct (PhysicalStorage_new_opened _ _ _ _ _ Hnew Hq) as ((fs & Hd & _) & Hns & Hsz' & Hf & Hp & Hfl & _).
  assert (Hdur : ∀ lsn b, log !! lsn = Some b → durable sz (phs_timeline_dir s) lsn b).
  { intros lsn b Hi. rewrite Hd. by destruct (Hlog lsn b Hi). }
  split; try done; try congruence.
  - split_and!; [rewrite Hd; by apply wf_faults|done|congruence].
  - unfold file_ok. by rewrite Hf.
  - by rewrite Hfl.
  - intros lsn b Hi. by apply Hlog in Hi as [? _].
  - intros lsn b Hi. by apply durable_stored, Hdur.
Qed.

Lemma run_op_log op s r s' w d :
  rep (sz := sz) s w d → op_ok op s → run_op op s = (r, s') →
  ∃ l', log_step sz (Op op r) (mkLog w d) l' ∧ rep (sz := sz) s' (wl_written l') (wl_durable l').
Proof using Hsz Hdiv.
  intros Hr Hop Hrun. destruct (rep_ok _ _ _ Hr) as (_ & _ & Hseg).
  destruct op as [startpos buf| |end_pos|init_lsn|segno|]; simpl in *; rewrite ?Hseg in Hop.
  - destruct (wp_run _ _ _ _ _ (write_wal_rep Hsz Hdiv _ _ _ _ buf Hr Hop) Hrun)
      as (k & d' & Hlog & Hsub & Hr' & Hk).
    exists (mkLog (log_write startpos (take k buf) w) d'). split; [|done]. constructor; [done|done|].
    intros Hok. by apply Hk.
  - destruct (wp_run _ _ _ _ _ (flush_wal_rep _ _ _ Hr) Hrun) as (d' & Hsub & Hr' & _).
    exists (mkLog w d'). split; [by constructor|done].
  - destruct Hop as [Hu Hpos].
    assert (Hpos' : w = ∅ ∨ end_pos ≤ phs_write_lsn s).
    { destruct Hpos as [Hz|]; [left|by right]. apply map_empty. intros lsn.
      destruct (w !! lsn) eqn:Hl; [|done]. apply (rep_end _ _ _ Hr) in Hl. lia. }
    destruct (wp_run _ _ _ _ _ (truncate_wal_rep Hsz Hdiv _ _ _ _ Hr Hu Hpos') Hrun)
      as [[Hr' Hne]|(d' & Hsub & Hr' & _)].
    + exists (mkLog w d). split; [by constructor|done].
    + exists (mkLog (log_cut end_pos w) d'). split; [by constructor|done].
  - destruct Hop as [Hu Hgen]. eexists. split; [apply log_initialized|].
    exact (wp_run _ _ _ _ _ (initialize_first_segment_rep Hsz Hdiv _ _ _ _ Hr Hu Hgen) Hrun).
  - eexists. split; [apply log_removed|].
    exact (wp_run _ _ _ _ _ (remove_up_to_rep Hsz Hdiv _ _ _ _ Hr Hop) Hrun).
  - destruct (wp_run _ _ _ _ _ (close_rep _ _ _ Hr) Hrun) as [-> Hr'].
    exists (mkLog w d). split; [constructor|done].
Qed.

Lemma restart_log s d state s1 w du :
  rep (sz := sz) s w du → crash (phs_timeline_dir s) d → opens sz d state s1 →
  ∃ l', log_step sz (Restart (ps_commit_lsn state) (phs_write_lsn s1)) (mkLog w du) l'
        ∧ rep (sz := sz) s1 (wl_written l') (wl_durable l').
Proof using Hsz.
  intros Hr Hc Ho. pose proof Ho as ([Hq1 Hq2] & Hseg & Hu & fuel & Hnew).
  destruct (rep_ok _ _ _ Hr) as (Hwf & _).
  destruct (PhysicalStorage_new_opened _ _ _ _ _ Hnew ltac:(done)) as (_ & _ & _ & _ & _ & _ & Hcl).
  set (du' := log_cut (phs_write_lsn s1) du). exists (mkLog du' du'). split; [by constructor|].
  apply (opens_rep d state); [done|by eapply crash_wf|].
  intros lsn b [Hi Hlt]%log_cut_Some. destruct (rep_dur_lsn _ _ _ _ _ Hr Hi) as [Hl _].
  split; [unfold in_u in Hl; lia|]. eapply crash_durable; [done|].
  eapply durable_crash; [done|done|done|by apply (rep_durable _ _ _ Hr)|done].
Qed.

Lemma run_log s evs s' : run sz s evs s' → ∀ w d, rep (sz := sz) s w d →
  ∃ l, log_run sz evs (mkLog w d) l ∧ rep (sz := sz) s' (wl_written l) (wl_durable l).
Proof using Hsz Hdiv.
  induction 1 as [s|op s r s1 evs s2 Hop Hrun _ IH|s dir state s1 evs s2 Hc Ho _ IH]; intros w d Hr.
  - eexists. split; [constructor|done].
  - destruct (run_op_log _ _ _ _ _ _ Hr Hop Hrun) as ([w1 d1] & Hstep & Hr1).
    destruct (IH _ _ Hr1) as (l & Hl & Hr2). exists l. split; [by econstructor|done].
  - destruct (restart_log _ _ _ _ _ _ Hr Hc Ho) as ([w1 d1] & Hstep & Hr1).
    destruct (IH _ _ Hr1) as (l & Hl & Hr2). exists l. split; [by econstructor|done].
Qed.

(** The directory of a new timeline. *)
Definition new_dir (d : Dir) : Prop := d_names d = ∅ ∧ d_old_names d = [] ∧ quiet d.

Lemma new_dir_wf d : new_dir d → dir_wf sz None d.
Proof.
  intros (Hn & Ho & Hq).
  assert (Hv : ∀ n, n ∈ versions d → n = ∅).
  { intros n. unfold versions. rewrite Hn, Ho. by intros ->%list_elem_of_singleton. }
  split; try done.
  - intros n z ->%Hv _. left. apply lookup_empty.
  - by intros n n' a b ino ->%Hv.
  - by intros n z ino ->%Hv.
  - by intros n z ino ->%Hv.
  - by intros n p ino ->%Hv.
  - intros n z ino i v ->%Hv _ [?|?]; done.
  - intros n z ino ->%Hv. by rewrite Hn.
Qed.

Lemma new_run_log d state s0 evs s :
  new_dir d → opens sz d state s0 → run sz s0 evs s →
  ∃ l, log_run sz evs (mkLog ∅ ∅) l ∧ rep (sz := sz) s (wl_written l) (wl_durable l).
Proof using Hsz Hdiv.
  intros Hd Ho Hrun. eapply run_log; [done|]. apply (opens_rep d state); [done|by apply new_dir_wf|done].
Qed.

(** ** What is kept *)

(** The byte at [lsn] is not truncated, overwritten or removed, and is not
    beyond the end of the WAL that a restart finds. *)
Definition kept (lsn : Lsn) (ev : wal_event) : Prop :=
  match ev with
  | Op (TruncateWal end_pos) _ => lsn < end_pos
  | Op (InitializeFirstSegment init_lsn) _ => lsn / sz ≠ init_lsn / sz
  | Op (RemoveUpTo segno_up_to) _ => segno_up_to < lsn / sz
  | Op _ _ => True
  | Restart _ end_of_wal => lsn < end_of_wal
  end.

Definition no_restart (ev : wal_event) : Prop := match ev with Op _ _ => True | Restart _ _ => False end.

(** A write of the byte [b] at [lsn] was successful; since then the byte was
    kept, and the storage did not restart. *)
Definition written (evs : list wal_event) (lsn : Lsn) (b : byte) : Prop :=
  ∃ evs1 startpos buf evs2 k,
    evs = evs1 ++ Op (WriteWal startpos buf) (Ok tt) :: evs2
    ∧ buf !! k = Some b ∧ lsn = startpos + Z.of_nat k
    ∧ Forall (kept lsn) evs2 ∧ Forall no_restart evs2.

Lemma log_step_durable ev l l' lsn b :
  log_step sz ev l l' → kept lsn ev → wl_durable l !! lsn = Some b → wl_durable l' !! lsn = Some b.
Proof.
  destruct 1; simpl; intros Hk Hl; try (by eapply lookup_weaken); try done.
  - eapply lookup_weaken; [|done]. by apply log_cut_Some.
  - by apply log_forget_Some.
  - apply log_forget_Some. split; [done|lia].
  - subst d'. by apply log_cut_Some.
Qed.

Lemma log_step_written ev l l' lsn b :
  log_step sz ev l l' → kept lsn ev → no_restart ev →
  wl_written l !! lsn = Some b → wl_written l' !! lsn = Some b.
Proof.
  destruct 1; simpl; intros Hk Hop Hl; try (by eapply lookup_weaken); try done.
  - by apply log_cut_Some.
  - by apply log_forget_Some.
  - apply log_forget_Some. split; [done|lia].
Qed.

Lemma log_run_durable evs l l' lsn b :
  log_run sz evs l l' → Forall (kept lsn) evs → wl_durable l !! lsn = Some b → wl_durable l' !! lsn = Some b.
Proof. induction 1; [done|]. intros [? ?]%Forall_cons ?. eauto using log_step_durable. Qed.

Lemma log_run_written evs l l' lsn b :
  log_run sz evs l l' → Forall (kept lsn) evs → Forall no_restart evs →
  wl_written l !! lsn = Some b → wl_written l' !! lsn = Some b.
Proof.
  induction 1; [done|]. intros [? ?]%Forall_cons [? ?]%Forall_cons ?. eauto using log_step_written.
Qed.

Lemma log_run_app evs1 evs2 l l' :
  log_run sz (evs1 ++ evs2) l l' → ∃ l1, log_run sz evs1 l l1 ∧ log_run sz evs2 l1 l'.
Proof.
  revert l. induction evs1 as [|ev evs1 IH]; simpl; intros l Hrun; [eexists; split; [constructor|done]|].
  inversion Hrun as [|? ? ? l2 ? Hs Hr]; subst. destruct (IH _ Hr) as (l1 & ? & ?).
  exists l1. split; [by econstructor|done].
Qed.

Lemma written_in_log evs l l' lsn b :
  log_run sz evs l l' → written evs lsn b → wl_written l' !! lsn = Some b.
Proof.
  intros Hrun (evs1 & startpos & buf & evs2 & k & -> & Hb & -> & Hk & Hn).
  apply log_run_app in Hrun as (l1 & _ & Hrun). inversion Hrun as [|? ? ? l2 ? Hs Hr]; subst.
  eapply log_run_written; [exact Hr|done|done|]. inversion Hs as [? ? ? n w d d' Hw Hd Hlen| | | | | | |]; subst; [|done].
  rewrite take_ge by by apply Hlen. apply lookup_union_Some_raw. left. by apply lookup_map_seqZ_Some_inv.
Qed.

(** A storage that runs from [s0] to [s] has flushed the byte [b] at [lsn], and
    kept it since. *)
Definition flushed_in s0 s (lsn : Lsn) (b : byte) : Prop :=
  ∃ evs1 s1 evs2, run sz s0 evs1 s1 ∧ written evs1 lsn b
    ∧ phs_pending_wal_truncation s1 = false ∧ lsn < phs_flush_lsn s1
    ∧ run sz s1 evs2 s ∧ Forall (kept lsn) evs2.

Lemma flushed_stored d0 state s0 s d lsn b :
  new_dir d0 → opens sz d0 state s0 → flushed_in s0 s lsn b → crash (phs_timeline_dir s) d →
  stored sz d lsn b.
Proof using Hsz Hdiv.
  intros Hnew Hopen (evs1 & s1 & evs2 & Hrun1 & Hw & Hdone & Hfl & Hrun2 & Hkept) Hcrash.
  destruct (new_run_log _ _ _ _ _ Hnew Hopen Hrun1) as (l1 & Hl1 & Hr1).
  pose proof (rep_flushed _ _ _ Hr1 lsn b Hdone (written_in_log _ _ _ _ _ Hl1 Hw) Hfl) as Hd1.
  destruct (run_log _ _ _ Hrun2 _ _ Hr1) as (l2 & Hl2 & Hr2).
  assert (Hd2 : wl_durable l2 !! lsn = Some b) by (by eapply log_run_durable; destruct l1).
  destruct (rep_dur_lsn _ _ _ _ _ Hr2 Hd2) as [Hu _]. destruct (rep_ok _ _ _ Hr2) as (Hwf & _).
  eapply durable_crash; [done|done|done|by apply (rep_durable _ _ _ Hr2)|done].
Qed.

(** ** Theorems *)

(** C5: The storage implements the abstract log: for every run of a storage opened
    in a new directory, of writes, flushes, truncations, initializations,
    removals and closes with any outcome, and of crashes and restarts, there is a
    run of the log with the same events, such that at its end every written byte
    is in the files, every durable byte is there after any crash, and what lies
    below the flush position is durable unless a truncation is pending.  The
    openings and removals of files do not fail ([opens]); WAL is not truncated
    beyond the write position, nor is the segment being written removed
    ([op_ok]). *)
Theorem run_implements_log (d0 : Dir) (state : TimelinePersistentState) (s0 s : PhysicalStorage)
    (evs : list wal_event)
    (Hnew : new_dir d0) (Hopen : opens sz d0 state s0) (Hrun : run sz s0 evs s) :
  ∃ l, log_run sz evs (mkLog ∅ ∅) l
    ∧ (∀ lsn b, wl_written l !! lsn = Some b →
         lsn < phs_write_lsn s ∧ stored sz (phs_timeline_dir s) lsn b)
    ∧ (∀ d lsn b, crash (phs_timeline_dir s) d → wl_durable l !! lsn = Some b → stored sz d lsn b)
    ∧ (∀ lsn b, phs_pending_wal_truncation s = false → wl_written l !! lsn = Some b →
         lsn < phs_flush_lsn s → wl_durable l !! lsn = Some b).
Proof using Hsz Hdiv.
  destruct (new_run_log _ _ _ _ _ Hnew Hopen Hrun) as (l & Hl & Hr). exists l.
  split_and!; [done| | |apply (rep_flushed _ _ _ Hr)].
  - intros lsn b Hb. split; [apply (rep_end _ _ _ Hr) in Hb; lia|by apply (rep_stored _ _ _ Hr)].
  - intros d lsn b Hc Hb. destruct (rep_dur_lsn _ _ _ _ _ Hr Hb) as [Hu _].
    destruct (rep_ok _ _ _ Hr) as (Hwf & _).
    eapply durable_crash; [done|done|done|by apply (rep_durable _ _ _ Hr)|done].
Qed.

(** C3: Flushed WAL survives.  A byte that [write_wal] has written, and that lies
    below the flush position at some later time (with no truncation pending), is
    on disk after any further operations with any outcome, crashes and restarts,
    unless it was truncated, removed or overwritten by the first segment, or lay
    beyond the end of the WAL that a restart found.  Reads, writes, syncs and
    renames may fail; the openings and removals of files do not ([opens], for the
    new directory and for every restart), and truncations and removals are as
    [op_ok] says. *)
Theorem flushed_wal_survives (d0 d : Dir) (state : TimelinePersistentState)
    (s0 s1 s2 : PhysicalStorage) (evs1 evs2 : list wal_event) (lsn : Lsn) (b : byte)
    (Hnew : new_dir d0) (Hopen : opens sz d0 state s0)
    (Hrun1 : run sz s0 evs1 s1) (Hwritten : written evs1 lsn b)
    (Hdone : phs_pending_wal_truncation s1 = false) (Hflushed : lsn < phs_flush_lsn s1)
    (Hrun2 : run sz s1 evs2 s2) (Hkept : Forall (kept lsn) evs2)
    (Hcrash : crash (phs_timeline_dir s2) d) :
  stored sz d lsn b.
Proof using Hsz Hdiv.
  eapply (flushed_stored d0 state s0 s2); [done|done| |done]. by exists evs1, s1, evs2.
Qed.
End size.
End recovery.

(** ** Restarts find the flushed records *)

Section found.
Context `{PgSizes} {sz : Z} (Hsz : 0 < sz) (Hdiv : (sz | 2 ^ 32)).

(** [PhysicalStorage::new] succeeds, and finds the records on disk. *)
Lemma restart_finds fuel d state wal rs dec :
  let c := ps_commit_lsn state in
  let version := si_pg_version (ps_server state) / 10000 in
  dir_wf sz None d → d_faults d = [] → si_wal_seg_size (ps_server state) = sz → 14 ≤ version ≤ 17 →
  0 < c ≤ lsn_below → (Z.to_nat (2 ^ 64) ≤ fuel)%nat →
  wal_room (sz := sz) d → wal ≠ [] → has_wal (sz := sz) d c wal →
  decode_chunks (WalStreamDecoder_new c version) [wal] = (rs, More dec) →
  ∃ s, PhysicalStorage_new fuel d state false = Some (Ok s) ∧ last_lsn c rs ≤ phs_write_lsn s.
Proof using H0 Hsz Hdiv.
  intros c version Hwf Hfaults Hseg Hv Hc Hfuel Hroom Hne Hw Hd.
  assert (Hu : in_u 64 c) by (unfold in_u, lsn_below, WAL_SEGMENT_SIZE in *; lia).
  destruct (find_end_of_wal_spec Hsz Hdiv d Hwf c version Hu Hv fuel) as [_ Hs].
  unfold PhysicalStorage_new. fold c version. rewrite Hseg.
  rewrite (proj2 (Z.eqb_neq _ _)), (proj2 (Z.leb_le _ _)), (proj2 (Z.leb_le _ _)) by lia. cbn [andb].
  unfold st_map_err. destruct (find_end_of_wal fuel version sz c d) as [[[lsn|]|e|] d']; try done.
  simpl in Hs. assert (c ≤ lsn) by (destruct Hc; by eapply ends_wal_start).
  rewrite (proj2 (Z.ltb_ge _ _)) by done. eexists. split; [done|]. by eapply ends_wal_ge.
Qed.

(** C4: A restart loses no flushed record.  When the bytes [wal] from the control
    file's commit LSN on were written, by any number of writes, and each of them
    was flushed and is kept since, then after a crash [PhysicalStorage::new]
    succeeds if the disk does not fail any more, and the end of the WAL it finds
    is not before the end of the last record in [wal].  The WAL is below the last
    segment that PostgreSQL can number ([lsn_below], [wal_room]); the disk before
    the crash may fail as in C3. *)
Theorem restart_finds_flushed_records (d0 d : Dir) (state0 state : TimelinePersistentState)
    (s0 s : PhysicalStorage) (evs : list wal_event) (wal : bytes)
    (rs : list (Lsn * bytes)) (dec : WalStreamDecoder) (fuel : nat)
    (c := ps_commit_lsn state) (version := si_pg_version (ps_server state) / 10000)
    (Hnew : new_dir d0) (Hopen : opens sz d0 state0 s0) (Hrun : run sz s0 evs s)
    (Hflushed : ∀ k b, wal !! k = Some b → flushed_in (sz := sz) s0 s (c + Z.of_nat k) b)
    (Hpos : 0 < c ≤ lsn_below) (Hne : wal ≠ [])
    (Hcrash : crash (phs_timeline_dir s) d) (Hquiet : quiet d) (Hfaults : d_faults d = [])
    (Hroom : wal_room (sz := sz) d)
    (Hseg : si_wal_seg_size (ps_server state) = sz) (Hversion : 14 ≤ version ≤ 17)
    (Hfuel : (Z.to_nat (2 ^ 64) ≤ fuel)%nat)
    (Hdec : decode_chunks (WalStreamDecoder_new c version) [wal] = (rs, More dec)) :
  ∃ s', PhysicalStorage_new fuel d state false = Some (Ok s') ∧ last_lsn c rs ≤ phs_write_lsn s'.
Proof using H0 Hsz Hdiv.
  destruct (new_run_log Hsz Hdiv _ _ _ _ _ Hnew Hopen Hrun) as (l & _ & Hr).
  destruct (rep_ok _ _ _ Hr) as (Hwf & _). destruct Hquiet as [Hq1 Hq2].
  eapply (restart_finds fuel d state); try done; [by eapply crash_wf|]. fold c.
  intros k b Hk. eapply (flushed_stored Hsz Hdiv d0 state0 s0 s); [done|done|by apply Hflushed|done].
Qed.
End found.

(** ** A timeline with small segments *)

(** What a crash leaves that loses nothing. *)
Definition synced_dir (d : Dir) : Dir :=
  d <| d_old_names := [] |> <| d_inodes := (λ i, i <| i_old := [] |>) <$> d_inodes d |>.

Lemma synced_dir_crash d : crash d (synced_dir d).
Proof.
  split; simpl; [left|done|]. apply Forall2_fmap_r, Forall2_same_length_lookup.
  split; [done|]. intros i x y Hx Hy. assert (y = x) as -> by congruence.
  split; [|done]. intros off. exists (i_data x). split; [left|done].
Qed.

Lemma old_names_crash d n : n ∈ versions d → crash d (synced_dir d <| d_names := n |>).
Proof. intros Hn. by destruct (synced_dir_crash d). Qed.

Definition small_state (commit_lsn : Lsn) : TimelinePersistentState :=
  test_sk_state <| ps_server := {| si_pg_version := 170000; si_system_id := 0; si_wal_seg_size := 512 |} |>
                <| ps_commit_lsn := commit_lsn |>.

(** Two records from the start of a page. *)
Definition small_records : list (Lsn * bytes) :=
  match @generate test_format string (WalGenerator_new 8216) [test_message 3; test_message 5] with
  | Some (Ok (out, _)) => out
  | _ => []
  end.
Definition small_wal : bytes := concat small_records.*2.

Definition small_storage (d : Dir) (lsn : Lsn) : PhysicalStorage := {|
  phs_timeline_dir := d;
  phs_no_sync := false;
  phs_wal_seg_size := 512;
  phs_pg_version := 170000;
  phs_system_id := 0;
  phs_write_lsn := lsn;
  phs_write_record_lsn := lsn;
  phs_flush_lsn := lsn;
  phs_flush_record_lsn := lsn;
  phs_decoder := WalStreamDecoder_new lsn 17;
  phs_file := None;
  phs_pending_wal_truncation := true;
|}.

(** The empty directory on a disk whose fifth operation fails. *)
Definition small_dir : Dir := {|
  d_names := ∅; d_old_names := []; d_inodes := [];
  d_faults := [None; None; None; None; Some 0%nat];
  d_remove_faults := []; d_open_faults := [];
|}.

Definition small_start : PhysicalStorage := small_storage small_dir 0.

(** The truncation that starts the timeline fails, and is tried again. *)
Definition small_setup_ops : list wal_op := [TruncateWal 8216; TruncateWal 8216].
Definition small_setup : PhysicalStorage := run_ops (H := test_format) small_setup_ops small_start.
Definition small_written : PhysicalStorage := (write_wal (H := test_format) 8216 small_wal small_setup).2.
Definition small_flushed : PhysicalStorage := run_ops (H := test_format) [FlushWal] small_written.

(** A crash follows, and a restart that finds the end of the second record. *)
Definition small_crashed : Dir := synced_dir (phs_timeline_dir small_flushed).
Definition small_restarted : PhysicalStorage := small_storage small_crashed 8336.

Lemma small_start_opens : opens (H := test_format) 512 small_dir (small_state 0) small_start.
Proof. split_and!; try done. by exists 0%nat. Qed.

Lemma small_setup_run :
  run (H := test_format) 512 small_start
    [Op (TruncateWal 8216) (Err "I/O error"%string); Op (TruncateWal 8216) (Ok tt)] small_setup.
Proof.
  assert (He : events (H := test_format) small_setup_ops small_start
    = [Op (TruncateWal 8216) (Err "I/O error"%string); Op (TruncateWal 8216) (Ok tt)]) by by vm_compute.
  rewrite <- He. unfold small_setup. apply run_ops_run. vm_compute. intuition congruence.
Qed.

Lemma small_write : write_wal (H := test_format) 8216 small_wal small_setup = (Ok tt, small_written).
Proof.
  assert (Hok : (write_wal (H := test_format) 8216 small_wal small_setup).1 = Ok tt) by by vm_compute.
  rewrite <- Hok. unfold small_written. apply surjective_pairing.
Qed.

Lemma small_flush_run : run (H := test_format) 512 small_written [Op FlushWal (Ok tt)] small_flushed.
Proof.
  assert (He : events (H := test_format) [FlushWal] small_written = [Op FlushWal (Ok tt)])
    by by vm_compute.
  rewrite <- He. unfold small_flushed. apply run_ops_run. split; exact I.
Qed.

Lemma small_restart_run :
  run (H := test_format) 512 small_flushed [Restart 8272 8336] small_restarted.
Proof.
  eapply (run_restart (H := test_format) 512 small_flushed small_crashed (small_state 8272)
            small_restarted).
  - apply synced_dir_crash.
  - split_and!; [by vm_compute..|]. exists 100%nat. by vm_compute.
  - constructor.
Qed.

Lemma small_flush_lsn : phs_flush_lsn small_flushed = 8336.
Proof. by vm_compute. Qed.

Lemma small_pending : phs_pending_wal_truncation small_flushed = false.
Proof. by vm_compute. Qed.

Lemma small_wal_head : small_wal !! 0%nat = Some x38.
Proof. by vm_compute. Qed.

Lemma small_size : 0 < 512 ∧ (512 | 2 ^ 32).
Proof. split; [done|]. by exists (2 ^ 23). Qed.

(** Later the old segments are removed, and the storage is closed. *)
Definition small_end_ops : list wal_op := [TruncateWal 8336; RemoveUpTo 15; Close].
Definition small_closed : PhysicalStorage := run_ops (H := test_format) small_end_ops small_restarted.

Definition small_writes : list wal_event :=
  [Op (TruncateWal 8216) (Err "I/O error"%string); Op (TruncateWal 8216) (Ok tt);
   Op (WriteWal 8216 small_wal) (Ok tt); Op FlushWal (Ok tt)].

Definition small_events : list wal_event :=
  small_writes ++ [Restart 8272 8336; Op (TruncateWal 8336) (Ok tt); Op (RemoveUpTo 15) (Ok tt);
                   Op Close (Ok tt)].

Lemma small_writes_run : run (H := test_format) 512 small_start small_writes small_flushed.
Proof.
  apply (run_app (H := test_format) 512 small_start
    [Op (TruncateWal 8216) (Err "I/O error"%string); Op (TruncateWal 8216) (Ok tt)] small_setup);
    [apply small_setup_run|]. eapply run_step; [done|exact small_write|apply small_flush_run].
Qed.

Lemma small_end_run :
  run (H := test_format) 512 small_restarted
    [Op (TruncateWal 8336) (Ok tt); Op (RemoveUpTo 15) (Ok tt); Op Close (Ok tt)] small_closed.
Proof.
  assert (He : events (H := test_format) small_end_ops small_restarted
    = [Op (TruncateWal 8336) (Ok tt); Op (RemoveUpTo 15) (Ok tt); Op Close (Ok tt)]) by by vm_compute.
  rewrite <- He. unfold small_closed. apply run_ops_run. vm_compute. intuition congruence.
Qed.

Lemma small_events_run : run (H := test_format) 512 small_start small_events small_closed.
Proof.
  apply (run_app _ _ _ small_flushed); [apply small_writes_run|].
  apply (run_app (H := test_format) 512 small_flushed [Restart 8272 8336] small_restarted);
    [apply small_restart_run|apply small_end_run].
Qed.

(** The bytes of the WAL are written, and flushed. *)
Lemma small_written_byte k b :
  small_wal !! k = Some b → written (sz := 512) small_writes (8216 + Z.of_nat k) b.
Proof.
  intros Hb. exists [Op (TruncateWal 8216) (Err "I/O error"%string); Op (TruncateWal 8216) (Ok tt)],
    8216, small_wal, [Op FlushWal (Ok tt)], k. by split_and!; [| | |repeat constructor..].
Qed.

Lemma small_wal_length : length small_wal = 120%nat.
Proof. by vm_compute. Qed.

Lemma small_flushed_in k b :
  small_wal !! k = Some b →
  flushed_in (H := test_format) (sz := 512) small_start small_flushed (8216 + Z.of_nat k) b.
Proof.
  intros Hb. exists small_writes, small_flushed, []. pose proof (lookup_lt_Some _ _ _ Hb) as Hk.
  rewrite small_wal_length in Hk.
  split_and!; [apply small_writes_run|by apply small_written_byte|apply small_pending| |constructor|constructor].
  rewrite small_flush_lsn. lia.
Qed.

Lemma run_implements_log_witness :
  let H := test_format in
  (new_dir small_dir ∧ opens 512 small_dir (small_state 0) small_start
   ∧ run 512 small_start small_events small_closed)
  ∧ ∃ l, log_run 512 small_events (mkLog ∅ ∅) l
    ∧ (∀ lsn b, wl_written l !! lsn = Some b →
         lsn < phs_write_lsn small_closed ∧ stored 512 (phs_timeline_dir small_closed) lsn b)
    ∧ (∀ d lsn b, crash (phs_timeline_dir small_closed) d → wl_durable l !! lsn = Some b → stored 512 d lsn b)
    ∧ (∀ lsn b, phs_pending_wal_truncation small_closed = false → wl_written l !! lsn = Some b →
         lsn < phs_flush_lsn small_closed → wl_durable l !! lsn = Some b).
Proof.
  cbv zeta. split; [split; [done|split; [apply small_start_opens|apply small_events_run]]|].
  apply (@run_implements_log test_format 512 (proj1 small_size) (proj2 small_size) small_dir
           (small_state 0) small_start small_closed); [done|apply small_start_opens|apply small_events_run].
Defined.

(** The first byte of the first record, after the restart. *)
Lemma flushed_wal_survives_witness :
  let H := test_format in
  (run 512 small_start small_writes small_flushed
   ∧ run 512 small_flushed [Restart 8272 8336] small_restarted
   ∧ phs_flush_lsn small_flushed = 8336)
  ∧ small_wal !! 0%nat = Some x38
  ∧ stored 512 (synced_dir (phs_timeline_dir small_restarted)) 8216 x38.
Proof.
  cbv zeta.
  split; [exact (conj small_writes_run (conj small_restart_run small_flush_lsn))|].
  split; [exact small_wal_head|].
  apply (@flushed_wal_survives test_format 512 (proj1 small_size) (proj2 small_size) small_dir
    (synced_dir (phs_timeline_dir small_restarted)) (small_state 0) small_start small_flushed
    small_restarted small_writes [Restart 8272 8336] 8216 x38);
    [done|exact small_start_opens|exact small_writes_run|exact (small_written_byte 0 x38 small_wal_head)
    |exact small_pending|rewrite small_flush_lsn; done|exact small_restart_run|by repeat constructor
    |apply synced_dir_crash].
Defined.

(** The WAL is in the segment 16. *)
Lemma small_names : d_names small_crashed = {[seg_partial 16 512 := 0%nat]}.
Proof. vm_compute. reflexivity. Qed.

Lemma small_room : wal_room (sz := 512) small_crashed.
Proof.
  destruct small_size as [Hs Hd]. assert (H16 : seg_ok 512 16) by done. intros lsn b Hl.
  assert (Hu : in_u 64 lsn) by (unfold in_u, lsn_below, WAL_SEGMENT_SIZE in *; lia).
  pose proof (seg_ok_lsn Hs lsn Hu) as Hz.
  assert (Hne : lsn / 512 ≠ 16).
  { intros He. pose proof (Z.div_mod lsn 512 ltac:(lia)). pose proof (Z.mod_pos_bound lsn 512 ltac:(lia)).
    unfold lsn_below, WAL_SEGMENT_SIZE in *. lia. }
  assert (Hnone : seg_inode 512 {[seg_partial 16 512 := 0%nat]} (lsn / 512) = None).
  { unfold seg_inode. rewrite !lookup_singleton_ne; [done|..].
    - intros He. symmetry in He. revert He. by apply seg_name_partial_ne.
    - intros He. apply Hne. symmetry. by apply (seg_partial_inj Hs Hd). }
  intros (ino & _ & Hino & _). rewrite small_names, Hnone in Hino. discriminate Hino.
Qed.

Lemma small_crashed_wf : dir_wf 512 None small_crashed.
Proof.
  destruct small_size as [Hs Hd].
  assert (Hnew : new_dir small_dir) by by split_and!.
  destruct (new_run_log Hs Hd _ _ _ _ _ Hnew small_start_opens small_writes_run) as (l & _ & Hr).
  destruct (rep_ok _ _ _ Hr) as (Hwf & _).
  eapply crash_wf; [exact Hwf|apply synced_dir_crash|by vm_compute..].
Qed.

(** The records of the WAL, and the decoder after them. *)
Definition small_decoded : list (Lsn * bytes) * WalStreamDecoder :=
  match decode_chunks (H := test_format) (WalStreamDecoder_new 8216 17) [small_wal] with
  | (rs, More dec) => (rs, dec)
  | (rs, _) => (rs, WalStreamDecoder_new 0 17)
  end.

Lemma small_decode :
  decode_chunks (H := test_format) (WalStreamDecoder_new 8216 17) [small_wal]
  = (small_decoded.1, More small_decoded.2)
  ∧ last_lsn 8216 small_decoded.1 = 8336.
Proof. split; by vm_compute. Qed.

Lemma small_faults : d_faults small_crashed = [].
Proof. by vm_compute. Qed.

Lemma small_low : 0 < 8216 ≤ lsn_below.
Proof. done. Qed.

Lemma find_end_of_wal_correct_witness :
  let H := test_format in
  (d_faults small_crashed = [] ∧ 8216 ≤ lsn_below ∧ wal_room (sz := 512) small_crashed)
  ∧ ∃ result d', find_end_of_wal (Z.to_nat (2 ^ 64)) 17 512 8216 small_crashed = (Ok (Some result), d')
    ∧ same_disk small_crashed d' ∧ 8216 ≤ result ∧ ends_wal (sz := 512) small_crashed 8216 17 result.
Proof.
  cbv zeta. split; [exact (conj small_faults (conj (proj2 small_low) small_room))|].
  apply (@find_end_of_wal_correct test_format (@pg_format_sizes _ (pg_layout_laws _ _)) 512
    (proj1 small_size) (proj2 small_size) small_crashed small_crashed_wf 8216 17);
    [done|done|reflexivity|exact small_faults|exact (proj2 small_low)|exact small_room].
Defined.

Lemma restart_finds_flushed_records_witness :
  let H := test_format in
  (run 512 small_start small_writes small_flushed
   ∧ (∀ k b, small_wal !! k = Some b → flushed_in (sz := 512) small_start small_flushed (8216 + Z.of_nat k) b)
   ∧ last_lsn 8216 small_decoded.1 = 8336)
  ∧ ∃ s, PhysicalStorage_new (Z.to_nat (2 ^ 64)) small_crashed (small_state 8216) false = Some (Ok s)
         ∧ last_lsn 8216 small_decoded.1 ≤ phs_write_lsn s.
Proof.
  cbv zeta. split; [exact (conj small_writes_run (conj small_flushed_in (proj2 small_decode)))|].
  apply (@restart_finds_flushed_records test_format (@pg_format_sizes _ (pg_layout_laws _ _)) 512
    (proj1 small_size) (proj2 small_size) small_dir small_crashed (small_state 0) (small_state 8216)
    small_start small_flushed small_writes small_wal
    small_decoded.1 small_decoded.2 (Z.to_nat (2 ^ 64)));
    [done|exact small_start_opens|exact small_writes_run|exact small_flushed_in|exact small_low
    |by vm_compute|apply synced_dir_crash
    |by vm_compute|by vm_compute|exact small_room|done|done|reflexivity|exact (proj1 small_decode)].
Defined.

(** ** Where the assumptions are needed *)

(** [open_or_create] takes every failed opening for a missing file: when both
    openings fail, an empty file replaces the segment, and the write succeeds
    while WAL below the flush position is gone. *)
Example open_error_loses_flushed_wal :
  let s := small_flushed <| phs_file := None |>
             <| phs_timeline_dir := phs_timeline_dir small_flushed <| d_open_faults := [true; true] |> |> in
  let '(r, s') := write_wal (H := test_format) 8336 [x00] s in
  r = Ok tt ∧ phs_flush_lsn s' = 8336 ∧ stored 512 (phs_timeline_dir s) 8216 x38
  ∧ stored 512 (phs_timeline_dir s') 8216 x00.
Proof.
  cbv zeta. match goal with |- context [write_wal _ _ ?x] => set (s := x) end.
  destruct (write_wal 8336 [x00] s) as [r s'] eqn:Hw.
  assert (Hr : (write_wal (H := test_format) 8336 [x00] s).1 = Ok tt) by by vm_compute.
  assert (Hf : phs_flush_lsn (write_wal (H := test_format) 8336 [x00] s).2 = 8336) by by vm_compute.
  assert (Hs : stored 512 (phs_timeline_dir (write_wal (H := test_format) 8336 [x00] s).2) 8216 x00).
  { eexists _, _. split_and!; by vm_compute. }
  rewrite Hw in Hr, Hf, Hs. split_and!; [done|done| |done].
  eexists _, _. split_and!; by vm_compute.
Qed.

(** [truncate_wal] moves the flush position before it has synced the open file:
    when that fails, WAL is reported as flushed that a crash can lose. *)
Example failed_truncation_reports_unflushed_wal :
  let s := small_written
             <| phs_timeline_dir := phs_timeline_dir small_written <| d_faults := [Some 0%nat] |> |> in
  let '(r, s') := truncate_wal 8272 s in
  r = Err "I/O error"%string ∧ phs_flush_record_lsn s = 8216 ∧ phs_flush_record_lsn s' = 8272
  ∧ ∃ d, crash (phs_timeline_dir s') d ∧ stored 512 d 8216 x00.
Proof.
  cbv zeta. match goal with |- context [truncate_wal _ ?x] => set (s := x) end.
  destruct (truncate_wal 8272 s) as [r s'] eqn:Hw.
  assert (Hr : (truncate_wal 8272 s).1 = Err "I/O error"%string) by by vm_compute.
  assert (Hf : phs_flush_record_lsn (truncate_wal 8272 s).2 = 8272) by by vm_compute.
  set (lost := λ d, d <| d_inodes := (λ i, mkInode (default [] (last (contents i))) []) <$> d_inodes d |>
                      <| d_old_names := [] |>).
  assert (Hs : stored 512 (lost (phs_timeline_dir (truncate_wal 8272 s).2)) 8216 x00).
  { eexists _, _. split_and!; by vm_compute. }
  rewrite Hw in Hr, Hf, Hs. split_and!; [done|by vm_compute|done|]. exists (lost (phs_timeline_dir s')).
  split; [|done]. split; simpl; [left|done|]. apply Forall2_fmap_r, Forall2_same_length_lookup.
  split; [done|]. intros i x y Hx Hy. assert (y = x) as -> by congruence. split; [|done].
  intros off. exists (default [] (last (contents x))). split; [|done].
  destruct (last (contents x)) eqn:Hl; [by apply last_Some_elem_of in Hl|by apply last_None in Hl].
Qed.

(** When the directory cannot be synced after a new segment got its name, and
    the file cannot be removed either, the segment stays under a name that is not
    durable: the next truncation finds it and succeeds, WAL is written to it and
    reported as flushed, and a crash leaves an empty directory. *)
Definition unremoved_dir : Dir :=
  small_dir <| d_faults := [None; None; None; None; None; None; Some 0%nat] |>
            <| d_remove_faults := [Some 0%nat] |>.

Definition unremoved : PhysicalStorage :=
  run_ops (H := test_format) [TruncateWal 8216; TruncateWal 8216; WriteWal 8216 small_wal; FlushWal]
    (small_storage unremoved_dir 0).

Example failed_removal_loses_flushed_wal :
  map (λ ev, match ev with Op _ r => bool_decide (r = Ok tt) | _ => false end)
    (events (H := test_format) [TruncateWal 8216; TruncateWal 8216; WriteWal 8216 small_wal; FlushWal]
       (small_storage unremoved_dir 0)) = [false; true; true; true]
  ∧ phs_flush_lsn unremoved = 8336 ∧ phs_flush_record_lsn unremoved = 8336
  ∧ ∃ d, crash (phs_timeline_dir unremoved) d ∧ d_names d = ∅.
Proof.
  split_and!; [by vm_compute..|].
  exists (synced_dir (phs_timeline_dir unremoved) <| d_names := ∅ |>). split; [|done].
  apply old_names_crash. apply list_elem_of_lookup. exists 2%nat. by vm_compute.
Qed.
