(* ===== verification/SafeKeeperSafety.v ===== *)
(** * Safety of the message handlers of one safekeeper

    The invariant of a safekeeper -- the commit LSN never passes the WAL it has
    flushed, and what is on disk is never ahead of it either -- and the
    transitions every handler is confined to, whatever its outcome: terms,
    commit LSN and configuration generation only grow.  Then the functional
    behaviour of the handlers. *)

From S2P Require Import Prelude Bytes Text Ids Lsn Membership TermHistory TimelineState Messages.
From S2P Require Import WalStorage SafeKeeper.

(** The fields of a message are machine words, streaming starts at a valid LSN
    and the WAL of a message ends below the last LSNs. *)
Definition TermHistory_u64 (th : TermHistory) : Prop :=
  Forall (λ e, in_u 64 (tl_term e) ∧ in_u 64 (tl_lsn e)) th.

Definition msg_wf (msg : ProposerAcceptorMessage) : Prop :=
  match msg with
  | PElected msg => 0 < pe_start_streaming_at msg < 2 ^ 64 ∧ TermHistory_u64 (pe_term_history msg)
  | PAppendRequest msg | PNoFlushAppendRequest msg => lsn_room (ah_begin_lsn (ar_h msg)) (ar_wal_data msg)
  | _ => True
  end.

Section safety.
Context {C W : Type} `{ControlStorageLaws C} `{WalStorageLaws W}.
Abbreviation SK := (SafeKeeper C W).
Implicit Types self : SK.

(** The control states a restart may load. *)
Definition sk_durable self : TimelinePersistentState → Prop := TimelineState_durable (sk_state self).

Record sk_inv self : Prop := {
  inv_wal : wal_inv (sk_wal_store self);
  inv_ctrl : TimelineState_inv (sk_state self);
  inv_commit_flush : mem_commit_lsn (sk_inmem self) ≤ SafeKeeper_flush_lsn self;
  inv_pers_commit : ps_commit_lsn (sk_pers self) ≤ mem_commit_lsn (sk_inmem self);
  inv_durable_commit st : sk_durable self st →
    ps_commit_lsn st ≤ Z.max (mem_commit_lsn (sk_inmem self)) (ps_timeline_start_lsn st);
  inv_durable_start : ps_timeline_start_lsn (sk_pers self) = 0
    ∨ ∀ st, sk_durable self st → ps_timeline_start_lsn st = ps_timeline_start_lsn (sk_pers self);
}.

Record sk_step self self' : Prop := {
  step_term : sk_term self ≤ sk_term self';
  step_commit : mem_commit_lsn (sk_inmem self) ≤ mem_commit_lsn (sk_inmem self');
  step_generation : sk_generation self ≤ sk_generation self';
  step_durable_term st' : sk_durable self' st' →
    (∃ st, sk_durable self st ∧ ps_term st' = ps_term st) ∨ sk_term self ≤ ps_term st';
  step_timeline_start :
    ps_timeline_start_lsn (sk_pers self') = ps_timeline_start_lsn (sk_pers self)
    ∨ ps_timeline_start_lsn (sk_pers self) = 0;
}.

(** The outcome-independent part of a handler's specification. *)
Definition sk_safe self self' : Prop := sk_inv self' ∧ sk_step self self'.

Lemma sk_step_refl self : sk_step self self.
Proof. split; eauto; lia. Qed.

Lemma sk_step_trans self1 self2 self3 :
  sk_step self1 self2 → sk_step self2 self3 → sk_step self1 self3.
Proof.
  intros [] []. split; try lia. intros st3 [(st2 & Hd2 & Ht2)|Ht]%step_durable_term1; [|right; lia].
  destruct (step_durable_term0 st2 Hd2) as [(st & Hd & Ht)|Ht]; [left|right; lia].
  exists st. split; [done|congruence].
Qed.

Lemma sk_safe_refl self : sk_inv self → sk_safe self self.
Proof. split; [done|apply sk_step_refl]. Qed.

Lemma sk_safe_trans self1 self2 self3 :
  sk_safe self1 self2 → sk_safe self2 self3 → sk_safe self1 self3.
Proof. intros [_ ?] [? ?]. split; [done|by eapply sk_step_trans]. Qed.

(** What the durable state promises after a crash: its commit LSN is covered by
    the flushed WAL (or nothing has been written since the timeline start). *)
Lemma sk_inv_restart self st :
  sk_inv self → sk_durable self st → 0 ≤ wal_flush_lsn (sk_wal_store self) →
  ps_commit_lsn st ≤ Z.max (wal_flush_lsn (sk_wal_store self)) (ps_timeline_start_lsn st).
Proof.
  intros [] Hst ?. pose proof (inv_durable_commit0 st Hst). unfold SafeKeeper_flush_lsn in *.
  destruct inv_durable_start0 as [|Hs]; [lia|]. specialize (Hs st Hst). lia.
Qed.

(** ** Changes of the control state *)

Ltac sk_unfold :=
  unfold sk_safe, sk_durable, sk_term, sk_generation, sk_inmem, sk_pers,
    SafeKeeper_flush_lsn, sk_pers in *; simpl in *.

(** A candidate state a handler may persist. *)
Record change_ok self (s : TimelinePersistentState) : Prop := {
  chg_term : sk_term self ≤ ps_term s;
  chg_generation : sk_generation self ≤ cfg_generation (ps_mconf s);
  chg_commit : mem_commit_lsn (sk_inmem self) ≤ ps_commit_lsn s;
  chg_commit_flush :
    ps_commit_lsn s
    ≤ Z.max (mem_commit_lsn (sk_inmem self)) (ps_timeline_start_lsn s);
  chg_timeline_start :
    ps_timeline_start_lsn s = ps_timeline_start_lsn (sk_pers self)
    ∨ (ps_timeline_start_lsn (sk_pers self) = 0 ∧ 0 ≤ ps_timeline_start_lsn s);
}.

Lemma finish_change_safe self s :
  sk_inv self → change_ok self s →
  wp (state_zoom (TimelineState_finish_change s)) (λ r self',
    sk_safe self self' ∧ sk_wal_store self' = sk_wal_store self
    ∧ sk_term_start_lsn self' = sk_term_start_lsn self
    ∧ match r with
      | Ok _ => sk_pers self' = s ∧ sk_inmem self' = mem_of s
                ∧ ((∀ st, sk_durable self' st → saved_as s st) ∨ s = sk_pers self)
      | Err _ => sk_pers self' = sk_pers self ∧ sk_inmem self' = sk_inmem self
      | Panic => False
      end) self.
Proof.
  intros [] []. unfold state_zoom. wp_step.
  eapply wp_mono; [by apply finish_change_spec|].
  destruct self as [tsl ts w nid]. sk_unfold.
  intros [a|e|] ts'; [| |done]; intros (Hi & Hd & Hm & Hdur).
  - destruct Hdur as [Hdur|[-> Hpers]].
    + split_and!; try done; [..|by left]; split; sk_unfold; rewrite ?Hd, ?Hm; simpl; try (done || lia).
      * intros st (_ & -> & _)%Hdur%saved_as_fields. lia.
      * right. by intros st (_ & _ & -> & _)%Hdur%saved_as_fields.
      * intros st (-> & _)%Hdur%saved_as_fields. by right.
    + split_and!; try done; [..|by right]; split; sk_unfold; unfold TimelineState_durable in *;
        rewrite ?Hd, ?Hm, ?Hpers; simpl; try (done || lia).
      * intros st Hst%inv_durable_commit0. lia.
      * intros st Hst. left. by exists st.
  - split_and!; try done; split; sk_unfold; rewrite ?Hd, ?Hm; simpl; try (done || lia).
    + intros st [Hst|(Ht & Hc & Hs & _)%saved_as_fields]%Hdur; [by apply inv_durable_commit0|].
      rewrite Hc, Hs. lia.
    + destruct chg_timeline_start0 as [He|[He _]]; [|by left]. destruct inv_durable_start0 as [|Hst]; [by left|].
      right. intros st [Hst'|(Ht & Hc & Hs & _)%saved_as_fields]%Hdur; [by apply Hst|congruence].
    + intros st [Hst|(Ht & Hc & Hs & _)%saved_as_fields]%Hdur; [left; eauto|right; lia].
Qed.

(** ** Operations of the WAL storage *)

Lemma wal_zoom_safe {A} (m : ST W string A) (Q : outcome string A → SK → Prop) self :
  sk_inv self →
  wp m (λ r w', wal_inv w'
          ∧ mem_commit_lsn (sk_inmem self)
            ≤ Z.max (wal_flush_lsn w') (ps_timeline_start_lsn (sk_pers self))
          ∧ (sk_safe self (self <| sk_wal_store := w' |>) →
             Q r (self <| sk_wal_store := w' |>))) (sk_wal_store self) →
  wp (wal_zoom m) Q self.
Proof.
  intros [] Hm. unfold wal_zoom. wp_step. eapply wp_mono; [done|].
  intros r w' (? & ? & HQ). apply HQ. destruct self as [tsl ts w nid]. sk_unfold.
  split; split; sk_unfold; (done || lia || by eauto).
Qed.

Lemma wal_flush_safe self :
  sk_inv self →
  wp (wal_zoom wal_flush_wal) (λ r self',
    sk_safe self self' ∧ sk_state self' = sk_state self
    ∧ sk_term_start_lsn self' = sk_term_start_lsn self
    ∧ wal_write_lsn (sk_wal_store self') = wal_write_lsn (sk_wal_store self)
    ∧ wal_flush_lsn (sk_wal_store self) ≤ wal_flush_lsn (sk_wal_store self')) self.
Proof.
  intros Hinv. apply wal_zoom_safe; [done|]. destruct Hinv.
  eapply wp_mono; [by apply wal_flush_spec|]. intros r w' (? & ? & ?).
  destruct self. sk_unfold. split_and!; (naive_solver || lia).
Qed.

Lemma wal_write_safe self startpos buf :
  sk_inv self → lsn_room startpos buf → wal_write_lsn (sk_wal_store self) ≤ startpos →
  wp (wal_zoom (wal_write_wal startpos buf)) (λ r self',
    sk_safe self self' ∧ sk_state self' = sk_state self
    ∧ sk_term_start_lsn self' = sk_term_start_lsn self
    ∧ wal_flush_lsn (sk_wal_store self) ≤ wal_flush_lsn (sk_wal_store self')
    ∧ (r = Ok tt →
       wal_write_lsn (sk_wal_store self') = startpos + Z.of_nat (length buf))) self.
Proof.
  intros Hinv Hu Hle. apply wal_zoom_safe; [done|]. destruct Hinv.
  eapply wp_mono; [by apply wal_write_spec|]. intros r w' (? & ? & ?).
  destruct self. sk_unfold. split_and!; (naive_solver || lia).
Qed.

Lemma wal_initialize_safe self init_lsn :
  sk_inv self →
  wp (wal_zoom (wal_initialize_first_segment init_lsn)) (λ r self',
    sk_safe self self' ∧ sk_state self' = sk_state self
    ∧ sk_term_start_lsn self' = sk_term_start_lsn self) self.
Proof.
  intros Hinv. apply wal_zoom_safe; [done|]. destruct Hinv.
  eapply wp_mono; [by apply wal_initialize_spec|]. intros r w' (? & ? & Hf).
  destruct self. sk_unfold. rewrite Hf. split_and!; (naive_solver || lia).
Qed.

Lemma wal_truncate_safe self end_pos :
  sk_inv self → 0 < end_pos < 2 ^ 64 →
  mem_commit_lsn (sk_inmem self) ≤ end_pos →
  wp (wal_zoom (wal_truncate_wal end_pos)) (λ r self',
    sk_safe self self' ∧ sk_state self' = sk_state self
    ∧ sk_term_start_lsn self' = sk_term_start_lsn self
    ∧ (r = Ok tt → wal_flush_lsn (sk_wal_store self') = end_pos
                   ∧ wal_write_lsn (sk_wal_store self') = end_pos)) self.
Proof.
  intros Hinv Hu Hc. apply wal_zoom_safe; [done|]. destruct Hinv.
  eapply wp_mono; [by apply wal_truncate_spec|]. intros r w' (? & ? & ?).
  destruct self. sk_unfold. split_and!; (naive_solver || lia).
Qed.

(** ** Transactions on the control state *)

Lemma start_change_ok self : sk_inv self → change_ok self (TimelineState_start_change (sk_state self)).
Proof. intros []. split; sk_unfold; (done || lia || naive_solver). Qed.

Lemma set_term_ok self term :
  sk_inv self → sk_term self ≤ term →
  change_ok self (set_term (TimelineState_start_change (sk_state self)) term).
Proof. intros [] ?. split; sk_unfold; (done || lia || naive_solver). Qed.

(** [state_zoom] runs a method step by step. *)
Lemma wp_state_bind {A B} (m : ST (TimelineState C) string A) f
    (Q : outcome string B → SK → Prop) self :
  wp (a ← state_zoom m; state_zoom (f a)) Q self → wp (state_zoom (m ≫= f)) Q self.
Proof.
  unfold wp, state_zoom, st_zoom, mbind, ST_bind. destruct self as [tsl ts w nid]; simpl.
  destruct (m ts) as [[a|e|] ts']; simpl; [|done..].
  by destruct (f a ts') as [[] ?].
Qed.

Lemma wp_state_get {B} (f : TimelineState C → ST (TimelineState C) string B)
    (Q : outcome string B → SK → Prop) self :
  wp (state_zoom (f (sk_state self))) Q self → wp (state_zoom (st_get ≫= f)) Q self.
Proof.
  intros Hw. apply wp_state_bind. wp_step. unfold state_zoom at 1. wp_step. wp_step.
  by destruct self.
Qed.

Lemma wp_state_ret {A} (a : A) (Q : outcome string A → SK → Prop) self :
  Q (Ok a) self → wp (state_zoom (mret a)) Q self.
Proof. by destruct self. Qed.

Lemma flush_safe self :
  sk_inv self →
  wp (state_zoom TimelineState_flush) (λ r self',
    sk_safe self self' ∧ sk_wal_store self' = sk_wal_store self
    ∧ sk_term_start_lsn self' = sk_term_start_lsn self
    ∧ sk_inmem self' = sk_inmem self
    ∧ match r with
      | Ok _ => sk_pers self' = TimelineState_start_change (sk_state self)
      | Err _ => sk_pers self' = sk_pers self
      | Panic => False
      end) self.
Proof.
  intros Hinv. unfold TimelineState_flush. apply wp_state_get.
  eapply wp_mono; [by eapply finish_change_safe, start_change_ok|].
  intros [a|e|] self' (? & ? & ? & Hr); [|naive_solver..].
  destruct Hr as (Hp & Hm & _). split_and!; try done.
  rewrite Hm. apply mem_of_start_change.
Qed.

Lemma membership_switch_safe self to :
  sk_inv self →
  wp (state_zoom (TimelineState_membership_switch to)) (λ r self',
    sk_safe self self' ∧ sk_wal_store self' = sk_wal_store self
    ∧ sk_term self' = sk_term self
    ∧ r ≠ Panic
    ∧ (is_ok r = true → ps_mconf (sk_pers self') =
        (if sk_generation self <? cfg_generation to then to else ps_mconf (sk_pers self)))) self.
Proof.
  intros Hinv. unfold TimelineState_membership_switch. apply wp_state_get, wp_state_bind.
  wp_step. destruct (Z.leb_spec (cfg_generation to) (sk_generation self)) as [Hle|Hlt].
  - rewrite (proj2 (Z.leb_le _ _)), (proj2 (Z.ltb_ge _ _)) by done.
    apply wp_state_ret, wp_state_get, wp_state_ret.
    split_and!; (done || by apply sk_safe_refl).
  - rewrite (proj2 (Z.leb_gt _ _)), (proj2 (Z.ltb_lt _ _)) by done.
    eapply wp_mono; [eapply finish_change_safe; [done|]|].
    + destruct Hinv. split; sk_unfold; (done || lia || naive_solver).
    + intros [a|e|] self' (? & ? & ? & Hr); [..|done]; destruct Hr as (Hp & _);
        [apply wp_state_get, wp_state_ret|];
        split_and!; try done; intros; unfold sk_term; by rewrite Hp.
Qed.

Lemma term_bump_safe self to :
  sk_inv self → in_u 64 (sk_term self) → sk_term self ≠ u64_max →
  wp (state_zoom (TimelineState_term_bump to)) (λ _ self', sk_safe self self') self.
Proof.
  intros Hinv Hu Hmax. unfold TimelineState_term_bump. apply wp_state_get, wp_state_bind.
  wp_step. case_match eqn:Hlt; bool_prop.
  - eapply wp_mono; [apply finish_change_safe; [done|]|].
    { apply set_term_ok; [done|]. apply Z.lt_le_incl. exact Hlt. }
    intros r self' [? _]. destruct r; [|done..]. by apply wp_state_get, wp_state_ret.
  - apply wp_state_ret, wp_state_get, wp_state_ret. by apply sk_safe_refl.
Qed.

(** ** The handlers *)

(** Composition: what follows a safe step is safe from where it started. *)
Lemma wp_safe_from {A} (m : ST SK string A) (Q : outcome string A → SK → Prop) self self1 :
  sk_safe self self1 →
  wp m (λ r self', sk_safe self1 self' ∧ Q r self') self1 →
  wp m (λ r self', sk_safe self self' ∧ Q r self') self1.
Proof.
  intros Hs Hw. eapply wp_mono; [done|]. intros r self' [? ?].
  split; [by eapply sk_safe_trans|done].
Qed.

Lemma set_commit_safe self v :
  sk_inv self → mem_commit_lsn (sk_inmem self) ≤ v ≤ SafeKeeper_flush_lsn self →
  sk_safe self (set_commit_lsn v self).
Proof.
  intros [] ?. destruct self. unfold set_commit_lsn. sk_unfold.
  split; split; sk_unfold; unfold TimelineState_deref, TimelineState_durable in *; simpl;
    (done || lia || by eauto || (intros st Hst%inv_durable_commit0; lia)).
Qed.

Lemma set_peer_horizon_safe self v :
  sk_inv self → sk_safe self (set_peer_horizon_lsn v self).
Proof.
  intros []. destruct self. unfold set_peer_horizon_lsn. sk_unfold.
  split; split; sk_unfold; unfold TimelineState_deref, TimelineState_durable in *; simpl;
    (done || lia || by eauto || (intros st Hst%inv_durable_commit0; lia)).
Qed.

Lemma update_commit_lsn_spec self candidate :
  sk_inv self →
  wp (update_commit_lsn candidate) (λ r self',
    sk_safe self self' ∧
    (sk_wal_store self' = sk_wal_store self
     ∧ sk_term self' = sk_term self
     ∧ SafeKeeper_flush_lsn self' = SafeKeeper_flush_lsn self
     ∧ sk_inmem self' = sk_inmem self <| mem_commit_lsn :=
         Z.max (mem_commit_lsn (sk_inmem self)) (Z.min candidate (SafeKeeper_flush_lsn self)) |>
     ∧ r ≠ Panic)) self.
Proof.
  intros Hinv. unfold update_commit_lsn. wp_step. wp_step. wp_step.
  pose proof (inv_commit_flush _ Hinv).
  wp_step; bool_prop; [|lia]. wp_step. wp_step.
  set (v := Z.min _ _). assert (Hs : sk_safe self (set_commit_lsn v self)).
  { apply set_commit_safe; [done|]. subst v. lia. }
  replace (Z.max (mem_commit_lsn (sk_inmem self)) (Z.min candidate (SafeKeeper_flush_lsn self)))
    with v by lia.
  eapply wp_safe_from; [done|]. wp_step.
  - eapply wp_mono; [apply flush_safe, Hs|].
    intros r self' (? & Hw & _ & Hm & Hr). split; [done|].
    assert (sk_term self' = sk_term self ∧ SafeKeeper_flush_lsn self' = SafeKeeper_flush_lsn self)
      as [? ?].
    { unfold sk_term, SafeKeeper_flush_lsn. rewrite Hw. destruct r; [..|done]; by rewrite Hr. }
    rewrite Hw, Hm. split_and!; try done. by intros ->.
  - wp_step. split; [apply sk_safe_refl, Hs|]. done.
Qed.

(** What is sent out when a vote is given is on disk. *)
Lemma handle_vote_request_spec self msg :
  sk_inv self →
  wp (handle_vote_request msg) (λ r self',
    sk_safe self self' ∧
    match r with
    | Ok (Some (AVoteResponse resp)) =>
      vr_generation msg = sk_generation self
      ∧ vp_vote_given resp = (sk_term self <? vr_term msg)
      ∧ vp_term resp = Z.max (sk_term self) (vr_term msg)
      ∧ sk_term self' = vp_term resp
      ∧ (vp_vote_given resp = true → ∀ st, sk_durable self' st → ps_term st = vp_term resp)
      ∧ vp_flush_lsn resp = SafeKeeper_flush_lsn self'
      ∧ vp_term_history resp = SafeKeeper_get_term_history self'
    | Ok _ => False
    | Err _ => sk_term self' = sk_term self
    | Panic => sk_term self' = sk_term self
    end) self.
Proof.
  intros Hinv. unfold handle_vote_request. wp_step. wp_step. wp_step. wp_step; bool_prop.
  2: { split; [by apply sk_safe_refl|done]. }
  wp_step. eapply wp_mono; [by apply wal_flush_safe|].
  intros r self1 (Hs1 & Hst & _).
  assert (Ht : sk_term self = sk_term self1) by (unfold sk_term, sk_pers; by rewrite Hst).
  assert (Hg : sk_generation self = sk_generation self1)
    by (unfold sk_generation, sk_pers; by rewrite Hst).
  destruct r as [a|e|]; [|by split..].
  eapply wp_safe_from; [done|]. rewrite Ht, Hg in *.
  wp_step. wp_step. wp_step. wp_step; bool_prop.
  - wp_step. eapply wp_mono; [eapply finish_change_safe; [apply Hs1|]|].
    { apply set_term_ok; [apply Hs1|lia]. }
    intros [a'|e|] self2 (Hs2 & Hw & _ & Hr); [..|done].
    + destruct Hr as (Hp2 & Hm2 & Hd2). repeat wp_step.
      assert (Ht2 : sk_term self2 = vr_term msg) by (unfold sk_term; by rewrite Hp2).
      simpl. split; [done|]. split_and!; try done; try lia.
      * intros _ st Hdst. destruct Hd2 as [Hd2|Heq].
        { by destruct (saved_as_fields _ _ (Hd2 st Hdst)) as [-> _]. }
        assert (sk_term self1 = vr_term msg); [|lia].
        unfold sk_term. by rewrite <-Heq.
      * unfold SafeKeeper_flush_lsn. by rewrite Hw, Hp2.
      * unfold SafeKeeper_get_term_history, SafeKeeper_flush_lsn. by rewrite Hw, Hp2.
    + split; [done|]. unfold sk_term. by destruct Hr as [-> _].
  - repeat wp_step. simpl. split; [apply sk_safe_refl, Hs1|].
    rewrite (proj2 (Z.ltb_ge _ _)) by done. split_and!; (done || lia).
Qed.

Lemma elected_state_ok self msg :
  sk_inv self → TermHistory_u64 (pe_term_history msg) →
  change_ok self (elected_state (TimelineState_start_change (sk_state self)) msg).
Proof.
  intros [] Hth. unfold elected_state.
  destruct (pe_term_history msg) as [|e th]; simpl.
  - repeat case_match; split; sk_unfold; (done || lia || naive_solver lia).
  - apply Forall_cons in Hth as [[_ He] _]. unfold in_u in He.
    repeat (case_match; bool_prop); split; sk_unfold; (done || lia || naive_solver lia).
Qed.

Lemma elected_state_history state msg :
  as_term_history (ps_acceptor_state (elected_state state msg)) = pe_term_history msg
  ∧ ps_term (elected_state state msg) = ps_term state.
Proof. unfold elected_state. repeat case_match; done. Qed.

(** The WAL ends at the point where streaming starts, the history is the
    proposer's. *)
Definition elected_done msg self self' : Prop :=
  as_term_history (ps_acceptor_state (sk_pers self')) = pe_term_history msg
  ∧ wal_flush_lsn (sk_wal_store self') = pe_start_streaming_at msg
  ∧ wal_write_lsn (sk_wal_store self') = pe_start_streaming_at msg
  ∧ mem_commit_lsn (sk_inmem self) ≤ pe_start_streaming_at msg
  ∧ sk_term self' = sk_term self.

Lemma handle_elected_current_spec self msg :
  sk_inv self → 0 < pe_start_streaming_at msg < 2 ^ 64 → TermHistory_u64 (pe_term_history msg) →
  wp (handle_elected_current msg) (λ r self',
    sk_safe self self' ∧
    match r with Ok resp => resp = None ∧ elected_done msg self self' | _ => True end) self.
Proof.
  intros Hinv Hu Hth. unfold handle_elected_current.
  assert (Hrefl := sk_safe_refl _ Hinv).
  wp_step. wp_step. wp_step. wp_step.
  destruct (find_highest_common_point _ _ _) as [lcp|e|]; [|done..].
  wp_step. wp_step. destruct (match lcp with Some _ => _ | None => _ end) as [p|e|]; [|done..].
  wp_step. wp_step; bool_prop; [|done]. wp_step. wp_step; bool_prop; [|done].
  wp_step. eapply (wp_mono _ (λ r self1, sk_safe self self1 ∧ sk_state self1 = sk_state self)).
  { wp_step; bool_prop; [|by wp_step]. eapply wp_mono; [by apply wal_initialize_safe|].
    naive_solver. }
  intros r self1 [Hs1 Hst1]. destruct r as [a|e|]; [|done..].
  eapply wp_safe_from; [done|]. wp_step. eapply wp_mono.
  { apply wal_truncate_safe; [apply Hs1|done|]. unfold sk_inmem. by rewrite Hst1. }
  intros r self2 (Hs2 & Hst2 & _ & Hlsn). destruct r as [[]|e|]; [|done..].
  destruct (Hlsn eq_refl) as [Hfl Hwr].
  eapply wp_safe_from; [done|]. wp_step. wp_step. wp_step.
  eapply wp_mono; [apply finish_change_safe; [apply Hs2|by apply elected_state_ok, Hth; apply Hs2]|].
  intros r self3 (Hs3 & Hw3 & _ & Hr). destruct r as [[]|e|]; [|done..].
  destruct Hr as (Hp3 & _).
  assert (Hdone : elected_done msg self self3).
  { unfold elected_done. rewrite Hw3, Hp3. unfold sk_term. rewrite Hp3.
    destruct (elected_state_history (TimelineState_start_change (sk_state self2)) msg)
      as [-> ->].
    split_and!; try done. unfold sk_pers. by rewrite <-Hst1, <-Hst2. }
  destruct (last (pe_term_history msg)) as [e|]; [|done].
  repeat wp_step. split; [|done]. eapply sk_safe_trans; [done|].
  destruct Hs3 as [[] _]. destruct self3. split; split; sk_unfold; (done || lia || by eauto).
Qed.

Lemma handle_elected_spec self msg :
  sk_inv self → 0 < pe_start_streaming_at msg < 2 ^ 64 → TermHistory_u64 (pe_term_history msg) →
  wp (handle_elected msg) (λ r self',
    sk_safe self self' ∧
    match r with
    | Ok resp =>
      resp = None ∧ pe_generation msg = sk_generation self
      ∧ if pe_term msg <? sk_term self then self' = self
        else sk_term self' = pe_term msg
             ∧ as_term_history (ps_acceptor_state (sk_pers self')) = pe_term_history msg
             ∧ wal_flush_lsn (sk_wal_store self') = pe_start_streaming_at msg
             ∧ wal_write_lsn (sk_wal_store self') = pe_start_streaming_at msg
             ∧ mem_commit_lsn (sk_inmem self) ≤ pe_start_streaming_at msg
    | _ => True
    end) self.
Proof.
  intros Hinv Hu Hth. unfold handle_elected. assert (Hrefl := sk_safe_refl _ Hinv).
  wp_step. wp_step. wp_step. wp_step; bool_prop; [|done].
  destruct (Z.ltb_spec (sk_term self) (pe_term msg)) as [Hlt|Hge].
  - wp_step. eapply wp_mono; [apply finish_change_safe; [done|by apply set_term_ok; [|lia]]|].
    intros r self1 (Hs1 & _ & _ & Hr). destruct r as [[]|e|]; [|done..].
    destruct Hr as (Hp1 & Hm1 & _).
    assert (Ht1 : sk_term self1 = pe_term msg) by (unfold sk_term; by rewrite Hp1).
    eapply wp_safe_from; [done|]. wp_step. wp_step.
    rewrite (proj2 (Z.ltb_ge _ _)), (proj2 (Z.ltb_ge _ _)) by lia.
    eapply wp_mono; [apply handle_elected_current_spec; [apply Hs1|done..]|].
    intros r self2 [Hs2 Hr]. split; [done|]. destruct r; [|done..].
    destruct Hr as (-> & ? & ? & ? & Hc & ?). rewrite Hm1 in Hc.
    split_and!; (done || congruence).
  - wp_step. wp_step. wp_step. wp_step. destruct (Z.ltb_spec (pe_term msg) (sk_term self)).
    { by wp_step. }
    eapply wp_mono; [by apply handle_elected_current_spec|].
    intros r self2 [Hs2 Hr]. split; [done|]. destruct r; [|done..].
    destruct Hr as (-> & ? & ? & ? & Hc & ?). split_and!; (done || lia).
Qed.

(** The WAL part of an append: write, then flush if required. *)
Lemma append_wal_spec self startpos buf require_flush :
  sk_inv self → lsn_room startpos buf → wal_write_lsn (sk_wal_store self) ≤ startpos →
  wp (_ ← (if bool_decide (buf = []) then mret tt else wal_zoom (wal_write_wal startpos buf));
      if require_flush : bool then wal_zoom wal_flush_wal else mret tt) (λ r self',
    sk_safe self self' ∧
    (sk_state self' = sk_state self
     ∧ wal_flush_lsn (sk_wal_store self) ≤ wal_flush_lsn (sk_wal_store self')
     ∧ (is_ok r = true → wal_write_lsn (sk_wal_store self') =
          if bool_decide (buf = []) then wal_write_lsn (sk_wal_store self)
          else startpos + Z.of_nat (length buf)))) self.
Proof.
  intros Hinv Hu Hle. wp_step.
  eapply (wp_mono _ (λ r self1, sk_safe self self1 ∧ sk_state self1 = sk_state self
    ∧ wal_flush_lsn (sk_wal_store self) ≤ wal_flush_lsn (sk_wal_store self1)
    ∧ (r = Ok tt → wal_write_lsn (sk_wal_store self1) =
         if bool_decide (buf = []) then wal_write_lsn (sk_wal_store self)
         else startpos + Z.of_nat (length buf)))).
  { case_bool_decide; [wp_step; split; [by apply sk_safe_refl|done]|].
    eapply wp_mono; [by apply wal_write_safe|]. naive_solver. }
  intros [[]|e|] self1 (Hs1 & Hst1 & Hf1 & Hw1); [|done..].
  destruct require_flush.
  - eapply wp_mono; [apply wal_flush_safe, Hs1|].
    intros r self2 (Hs2 & Hst2 & _ & Hw2 & Hf2).
    split; [by eapply sk_safe_trans|]. rewrite Hst2, Hw2. split_and!; try done; [lia|].
    intros _. by apply Hw1.
  - wp_step. split; [done|]. split_and!; try done. intros _. by apply Hw1.
Qed.

(** An append accepted in the current term. *)
Definition append_done (msg : AppendRequest) self self' : Prop :=
  let h := ar_h msg in
  ah_term h = sk_term self
  ∧ (ah_begin_lsn h = wal_write_lsn (sk_wal_store self)
     ∨ wal_write_lsn (sk_wal_store self) = 0 ∧ 0 ≤ ah_begin_lsn h)
  ∧ wal_write_lsn (sk_wal_store self') =
      (if bool_decide (ar_wal_data msg = []) then wal_write_lsn (sk_wal_store self)
       else ah_begin_lsn h + Z.of_nat (length (ar_wal_data msg)))
  ∧ mem_commit_lsn (sk_inmem self') =
      (if ah_commit_lsn h =? 0 then mem_commit_lsn (sk_inmem self)
       else Z.max (mem_commit_lsn (sk_inmem self))
                  (Z.min (ah_commit_lsn h) (SafeKeeper_flush_lsn self')))
  ∧ mem_peer_horizon_lsn (sk_inmem self') =
      Z.max (mem_peer_horizon_lsn (sk_inmem self)) (ah_truncate_lsn h).

(** The end of an append: commit LSN, horizon, reply. *)
Definition append_finish (msg : AppendRequest) (require_flush : bool) (flush_lsn : Lsn) :
    ST SK string (option AcceptorProposerMessage) :=
  let h := ar_h msg in
  _ ← (if negb (ah_commit_lsn h =? 0) then update_commit_lsn (ah_commit_lsn h) else mret tt);
  _ ← st_modify (λ self, set_peer_horizon_lsn
        (Z.max (mem_peer_horizon_lsn (sk_inmem self)) (ah_truncate_lsn h)) self);
  self ← st_get;
  if negb require_flush && (flush_lsn =? SafeKeeper_flush_lsn self) then mret None
  else mret (Some (AAppendResponse (SafeKeeper_append_response self))).

Lemma append_finish_spec self msg require_flush flush_lsn :
  sk_inv self →
  wp (append_finish msg require_flush flush_lsn) (λ r self',
    sk_safe self self' ∧
    (sk_wal_store self' = sk_wal_store self ∧ sk_term self' = sk_term self
     ∧ match r with
       | Ok resp =>
         (resp = Some (AAppendResponse (SafeKeeper_append_response self'))
          ∨ resp = None ∧ require_flush = false)
         ∧ mem_commit_lsn (sk_inmem self') =
             (if ah_commit_lsn (ar_h msg) =? 0 then mem_commit_lsn (sk_inmem self)
              else Z.max (mem_commit_lsn (sk_inmem self))
                         (Z.min (ah_commit_lsn (ar_h msg)) (SafeKeeper_flush_lsn self')))
         ∧ mem_peer_horizon_lsn (sk_inmem self') =
             Z.max (mem_peer_horizon_lsn (sk_inmem self)) (ah_truncate_lsn (ar_h msg))
       | _ => True
       end)) self.
Proof.
  intros Hinv. unfold append_finish. wp_step.
  eapply (wp_mono _ (λ r self1, sk_safe self self1 ∧
    (sk_wal_store self1 = sk_wal_store self ∧ sk_term self1 = sk_term self
     ∧ SafeKeeper_flush_lsn self1 = SafeKeeper_flush_lsn self
     ∧ sk_inmem self1 = sk_inmem self <| mem_commit_lsn :=
         if ah_commit_lsn (ar_h msg) =? 0 then mem_commit_lsn (sk_inmem self)
         else Z.max (mem_commit_lsn (sk_inmem self))
                    (Z.min (ah_commit_lsn (ar_h msg)) (SafeKeeper_flush_lsn self)) |>))).
  { destruct (ah_commit_lsn (ar_h msg) =? 0); simpl.
    - wp_step. split; [by apply sk_safe_refl|]. split_and!; try done.
      by destruct (sk_inmem self).
    - eapply wp_mono; [by apply update_commit_lsn_spec|]. naive_solver. }
  intros r self1 (Hs1 & Hw1 & Ht1 & Hf1 & Hm1). destruct r as [a|e|]; [|done..].
  wp_step. wp_step. wp_step. wp_step.
  set (self2 := set_peer_horizon_lsn _ self1).
  assert (Hs2 : sk_safe self self2).
  { eapply sk_safe_trans; [done|]. apply set_peer_horizon_safe, Hs1. }
  assert (Hc2 : mem_commit_lsn (sk_inmem self2) = mem_commit_lsn (sk_inmem self1)) by done.
  assert (Hh2 : mem_peer_horizon_lsn (sk_inmem self2)
    = Z.max (mem_peer_horizon_lsn (sk_inmem self1)) (ah_truncate_lsn (ar_h msg))) by done.
  assert (Hf2 : SafeKeeper_flush_lsn self2 = SafeKeeper_flush_lsn self1) by done.
  wp_step; bool_prop; wp_step; (split; [done|]);
    (split; [done|]); (split; [done|]); rewrite Hc2, Hh2, Hf2, Hf1, Hm1;
    destruct require_flush; naive_solver.
Qed.

Lemma handle_append_request_spec self msg require_flush :
  sk_inv self → lsn_room (ah_begin_lsn (ar_h msg)) (ar_wal_data msg) →
  wp (handle_append_request msg require_flush) (λ r self',
    sk_safe self self' ∧
    (sk_term self' = sk_term self
     ∧ match r with
       | Ok resp =>
         ah_generation (ar_h msg) = sk_generation self ∧
         if ah_term (ar_h msg) <? sk_term self
         then self' = self ∧ resp = Some (AAppendResponse
                (AppendResponse_term_only (sk_generation self) (sk_term self)))
         else append_done msg self self'
              ∧ (resp = Some (AAppendResponse (SafeKeeper_append_response self'))
                 ∨ resp = None ∧ require_flush = false)
       | _ => True
       end)) self.
Proof.
  intros Hinv Hu. unfold handle_append_request. assert (Hrefl := sk_safe_refl _ Hinv).
  wp_step. wp_step. wp_step. wp_step; bool_prop; [|done]. wp_step. wp_step; bool_prop; [|done].
  destruct (Z.ltb_spec (ah_term (ar_h msg)) (sk_term self)) as [Hlt|Hge]; [by wp_step|].
  wp_step. wp_step; bool_prop; [|done]. wp_step. wp_step; [|done].
  apply wp_bind_assoc, wp_bind. eapply wp_mono; [by apply append_wal_spec|].
  intros r self1 (Hs1 & Hst1 & Hf1 & Hw1).
  assert (Ht1 : sk_term self1 = sk_term self) by (unfold sk_term, sk_pers; by rewrite Hst1).
  destruct r as [a|e|]; [|done..]. specialize (Hw1 eq_refl).
  eapply wp_safe_from; [done|].
  eapply wp_mono; [apply (append_finish_spec _ msg require_flush), Hs1|].
  intros r self2 (Hs2 & Hw2 & Ht2 & Hr). split; [done|]. split; [congruence|].
  destruct r as [resp|e|]; [|done..]. destruct Hr as (Hresp & Hc2 & Hh2).
  split; [done|]. split; [|done]. unfold append_done. rewrite Hw2, Hw1.
  unfold sk_inmem in *. rewrite Hst1 in Hc2, Hh2. unfold in_u in Hu.
  split_and!; try done; bool_prop; lia.
Qed.

Lemma handle_flush_spec self :
  sk_inv self →
  wp handle_flush (λ r self',
    sk_safe self self' ∧
    (sk_term self' = sk_term self ∧ match r with
     | Ok resp => resp = Some (AAppendResponse (SafeKeeper_append_response self'))
     | _ => True
     end)) self.
Proof.
  intros Hinv. unfold handle_flush. wp_step. eapply wp_mono; [by apply wal_flush_safe|].
  intros r self1 (Hs1 & Hst1 & _).
  assert (Ht1 : sk_term self1 = sk_term self) by (unfold sk_term, sk_pers; by rewrite Hst1).
  destruct r; repeat wp_step; done.
Qed.

Lemma handle_greeting_spec self msg :
  sk_inv self →
  wp (handle_greeting msg) (λ r self',
    sk_safe self self' ∧
    (sk_term self' = sk_term self ∧ r ≠ Panic
     ∧ match r with
       | Ok resp =>
         resp = Some (AGreeting {| ag_node_id := sk_node_id self';
           ag_mconf := ps_mconf (sk_pers self'); ag_term := sk_term self |})
         ∧ ps_mconf (sk_pers self') =
             (if sk_generation self <? cfg_generation (pg_mconf msg)
              then pg_mconf msg else ps_mconf (sk_pers self))
         ∧ pg_tenant_id msg = ps_tenant_id (sk_pers self)
         ∧ pg_timeline_id msg = ps_timeline_id (sk_pers self)
         ∧ pg_wal_seg_size msg = si_wal_seg_size (ps_server (sk_pers self))
       | _ => True
       end)) self.
Proof.
  intros Hinv. unfold handle_greeting. assert (Hrefl := sk_safe_refl _ Hinv).
  wp_step. wp_step. do 4 (wp_step; wp_step; [|by split]). bool_prop.
  wp_step. eapply (wp_mono _ (λ r self1, sk_safe self self1 ∧ sk_term self1 = sk_term self
    ∧ ps_mconf (sk_pers self1) = ps_mconf (sk_pers self) ∧ r ≠ Panic)).
  { wp_step; [|by wp_step]. eapply wp_mono.
    - apply finish_change_safe; [done|]. destruct Hinv. case_match;
        split; sk_unfold; (done || lia || naive_solver).
    - intros r self1 (? & _ & _ & Hr). split; [done|]. unfold sk_term.
      destruct r; [| |done]; destruct Hr as (-> & _); split_and!; try done;
        by case_match. }
  intros r self1 (Hs1 & Ht1 & Hc1 & Hnp). destruct r as [a|e|]; [|done..].
  eapply wp_safe_from; [done|]. wp_step.
  eapply wp_mono; [apply membership_switch_safe, Hs1|].
  intros r self2 (Hs2 & _ & Ht2 & Hnp2 & Hc2). destruct r as [a'|e|]; [|by split_and!; try congruence..].
  repeat wp_step. split; [done|]. specialize (Hc2 eq_refl).
  unfold sk_generation in *. rewrite Hc1 in Hc2. split_and!; try (done || congruence).
Qed.

Lemma record_safekeeper_info_spec self info :
  sk_inv self →
  wp (record_safekeeper_info info) (λ r self',
    sk_safe self self' ∧
    (sk_term self' = sk_term self ∧ sk_wal_store self' = sk_wal_store self ∧ r ≠ Panic
     ∧ mem_commit_lsn (sk_inmem self') =
         (if (sti_commit_lsn info =? 0)
             || negb (sti_last_log_term info =? SafeKeeper_get_last_log_term self)
          then mem_commit_lsn (sk_inmem self)
          else Z.max (mem_commit_lsn (sk_inmem self))
                     (Z.min (sti_commit_lsn info) (SafeKeeper_flush_lsn self))))) self.
Proof.
  intros Hinv. unfold record_safekeeper_info. assert (Hrefl := sk_safe_refl _ Hinv).
  change Lsn_INVALID with 0. destruct (sti_commit_lsn info =? 0); simpl; [by wp_step|].
  wp_step. wp_step.
  destruct (sti_last_log_term info =? SafeKeeper_get_last_log_term self); [|by wp_step].
  eapply wp_mono; [by apply update_commit_lsn_spec|].
  intros r self1 (? & ? & ? & ? & Hm & ?). rewrite Hm. done.
Qed.

(** Every message keeps the invariant and moves the safekeeper forward,
    whatever the outcome: on the error and panic paths as well. *)
Theorem process_msg_safe self msg :
  sk_inv self → msg_wf msg →
  wp (process_msg msg) (λ _ self', sk_safe self self') self.
Proof.
  intros Hinv Hwf. destruct msg as [msg|msg|msg|msg|msg|]; simpl in *.
  - eapply wp_mono; [by apply handle_greeting_spec|naive_solver].
  - eapply wp_mono; [by apply handle_vote_request_spec|naive_solver].
  - eapply wp_mono; [by apply handle_elected_spec; naive_solver|naive_solver].
  - eapply wp_mono; [by apply handle_append_request_spec|naive_solver].
  - eapply wp_mono; [by apply handle_append_request_spec|naive_solver].
  - eapply wp_mono; [by apply handle_flush_spec|naive_solver].
Qed.
End safety.
