(* ===== verification/SafeKeeperRuns.v ===== *)
(** * What a safekeeper answers

    The specifications of [SafeKeeperSafety.v], read on a run: the answer and
    the state a handler leaves behind, and whole sequences of messages.  The
    witnesses run the safekeeper of the unit tests of [safekeeper.rs]. *)

From S2P Require Import Prelude Bytes Text Ids Lsn Membership TermHistory TimelineState Messages.
From S2P Require Import WalStorage SafeKeeper DummyStores SafeKeeperSafety.

Section runs.
Context {C W : Type} `{ControlStorageLaws C} `{WalStorageLaws W}.
Abbreviation SK := (SafeKeeper C W).

(** A vote is given at most once per term, and it is durable before it is
    announced: the answer grants the vote exactly when the requested term is
    above the safekeeper's, the safekeeper then is in that term, and the control
    file holds it. *)
Theorem vote_given_once (self self' : SK) (msg : VoteRequest)
    (r : outcome string (option AcceptorProposerMessage))
    (Hinv : sk_inv self) (Hrun : handle_vote_request msg self = (r, self')) :
  sk_safe self self' ∧
  match r with
  | Ok (Some (AVoteResponse resp)) =>
    vr_generation msg = sk_generation self
    ∧ vp_vote_given resp = (sk_term self <? vr_term msg)
    ∧ vp_term resp = Z.max (sk_term self) (vr_term msg)
    ∧ sk_term self' = vp_term resp
    ∧ (vp_vote_given resp = true → ∀ st, sk_durable self' st → ps_term st = vp_term resp)
    ∧ vp_flush_lsn resp = SafeKeeper_flush_lsn self'
    ∧ vp_term_history resp = SafeKeeper_get_term_history self'
  | Ok _ => False
  | Err _ | Panic => sk_term self' = sk_term self
  end.
Proof. apply (wp_run _ _ _ _ _ (handle_vote_request_spec self msg Hinv) Hrun). Qed.

(** C24: After an accepted announcement of a leader the safekeeper is in the leader's
    term, has the leader's history and a WAL that ends where streaming starts,
    at or after everything it had committed; an old leader changes nothing. *)
Theorem elected_truncates_to_start (self self' : SK) (msg : ProposerElected)
    (r : outcome string (option AcceptorProposerMessage))
    (Hinv : sk_inv self) (Hstart : 0 < pe_start_streaming_at msg < 2 ^ 64)
    (Hth : TermHistory_u64 (pe_term_history msg))
    (Hrun : handle_elected msg self = (r, self')) :
  sk_safe self self' ∧
  match r with
  | Ok resp =>
    resp = None ∧ pe_generation msg = sk_generation self
    ∧ if pe_term msg <? sk_term self then self' = self
      else sk_term self' = pe_term msg
           ∧ as_term_history (ps_acceptor_state (sk_pers self')) = pe_term_history msg
           ∧ wal_flush_lsn (sk_wal_store self') = pe_start_streaming_at msg
           ∧ wal_write_lsn (sk_wal_store self') = pe_start_streaming_at msg
           ∧ mem_commit_lsn (sk_inmem self) ≤ pe_start_streaming_at msg
  | _ => True
  end.
Proof. apply (wp_run _ _ _ _ _ (handle_elected_spec self msg Hinv Hstart Hth) Hrun). Qed.

(** C25: Appended WAL continues what was written, only in the safekeeper's own term;
    the commit LSN moves to the leader's, but never beyond what is flushed nor
    backwards. *)
Theorem append_extends_wal (self self' : SK) (msg : AppendRequest) (require_flush : bool)
    (r : outcome string (option AcceptorProposerMessage))
    (Hinv : sk_inv self) (Hbegin : lsn_room (ah_begin_lsn (ar_h msg)) (ar_wal_data msg))
    (Hrun : handle_append_request msg require_flush self = (r, self')) :
  sk_safe self self' ∧ sk_term self' = sk_term self ∧
  match r with
  | Ok resp =>
    ah_generation (ar_h msg) = sk_generation self ∧
    if ah_term (ar_h msg) <? sk_term self
    then self' = self ∧ resp = Some (AAppendResponse
           (AppendResponse_term_only (sk_generation self) (sk_term self)))
    else append_done msg self self'
         ∧ (resp = Some (AAppendResponse (SafeKeeper_append_response self'))
            ∨ resp = None ∧ require_flush = false)
  | _ => True
  end.
Proof.
  apply (wp_run _ _ _ _ _ (handle_append_request_spec self msg require_flush Hinv Hbegin) Hrun).
Qed.

(** A sequence of messages, whatever each of them returns. *)
Definition run_msgs (msgs : list ProposerAcceptorMessage) (self : SK) : SK :=
  foldl (λ self msg, (process_msg msg self).2) self msgs.

Lemma run_msgs_inv (msgs : list ProposerAcceptorMessage) (self : SK) :
  sk_inv self → Forall msg_wf msgs → sk_safe self (run_msgs msgs self).
Proof.
  intros Hinv Hwf. revert self Hinv.
  induction Hwf as [|msg msgs Hm Hms IH]; intros self Hinv; simpl.
  { by apply sk_safe_refl. }
  destruct (process_msg msg self) as [r self1] eqn:Hrun.
  pose proof (wp_run _ _ _ _ _ (process_msg_safe self msg Hinv Hm) Hrun) as Hs.
  eapply sk_safe_trans; [exact Hs|]. apply IH, Hs.
Qed.

(** C2: Over any sequence of messages, accepted or refused, the invariant holds and
    term, commit LSN and configuration generation never go back; and a crash at
    its end leaves a control file that does not claim more WAL to be committed
    than is flushed. *)
Theorem run_msgs_safe (msgs : list ProposerAcceptorMessage) (self : SK)
    (Hinv : sk_inv self) (Hwf : Forall msg_wf msgs) :
  let self' := run_msgs msgs self in
  sk_safe self self'
  ∧ ∀ st, sk_durable self' st → 0 ≤ wal_flush_lsn (sk_wal_store self') →
    ps_commit_lsn st
    ≤ Z.max (wal_flush_lsn (sk_wal_store self')) (ps_timeline_start_lsn st).
Proof.
  assert (Hs := run_msgs_inv msgs self Hinv Hwf). split; [done|intros st; apply sk_inv_restart, Hs].
Qed.
End runs.

(** ** Runs of the test safekeeper *)

Lemma test_sk_inv i : sk_inv (test_sk i).
Proof. split; simpl; try (done || by vm_compute). - by intros st ->. - by left. Qed.

Definition test_vote : VoteRequest := {| vr_generation := 0; vr_term := 1 |}.

Definition test_elected : ProposerElected := {|
  pe_generation := 0; pe_term := 1; pe_start_streaming_at := 1;
  pe_term_history := [{| tl_term := 1; tl_lsn := 1 |}];
|}.

Definition test_append (begin commit : Lsn) : AppendRequest := {|
  ar_h := {| ah_generation := 0; ah_term := 1; ah_begin_lsn := begin; ah_end_lsn := begin + 2;
             ah_commit_lsn := commit; ah_truncate_lsn := 0 |};
  ar_wal_data := [x00; x00];
|}.

(** The state after the vote, and after the announcement of the leader. *)
Definition test_sk_voted : SafeKeeper InMemoryState DummyWalStore :=
  (handle_vote_request test_vote (test_sk 0)).2.
Definition test_sk_elected : SafeKeeper InMemoryState DummyWalStore :=
  (handle_elected test_elected test_sk_voted).2.

Lemma test_sk_voted_inv : sk_inv test_sk_voted.
Proof.
  pose proof (wp_run _ _ _ _ _ (handle_vote_request_spec (test_sk 0) test_vote (test_sk_inv 0))
    (surjective_pairing _)) as [Hs _]. apply Hs.
Qed.

Lemma test_elected_wf :
  0 < pe_start_streaming_at test_elected < 2 ^ 64 ∧ TermHistory_u64 (pe_term_history test_elected).
Proof. split; [done|]. repeat constructor; done. Qed.

Lemma test_sk_elected_inv : sk_inv test_sk_elected.
Proof.
  destruct test_elected_wf as [Hstart Hth].
  pose proof (wp_run _ _ _ _ _
    (handle_elected_spec test_sk_voted test_elected test_sk_voted_inv Hstart Hth)
    (surjective_pairing _)) as [Hs _]. apply Hs.
Qed.

Lemma vote_given_once_witness :
  ∃ resp, (handle_vote_request test_vote (test_sk 0)).1 = Ok (Some (AVoteResponse resp))
    ∧ vp_vote_given resp = true ∧ ps_term (sk_pers test_sk_voted) = 1
    ∧ ∀ st, sk_durable test_sk_voted st → ps_term st = 1.
Proof.
  pose proof (vote_given_once _ _ _ _ (test_sk_inv 0)
    (surjective_pairing (handle_vote_request test_vote (test_sk 0)))) as [_ Hv].
  exists {| vp_generation := 0; vp_term := 1; vp_vote_given := true; vp_flush_lsn := 0;
            vp_truncate_lsn := 0; vp_term_history := [] |}.
  assert (Hr : (handle_vote_request test_vote (test_sk 0)).1 = Ok (Some (AVoteResponse
    {| vp_generation := 0; vp_term := 1; vp_vote_given := true; vp_flush_lsn := 0;
       vp_truncate_lsn := 0; vp_term_history := [] |}))) by (vm_compute; reflexivity).
  split; [exact Hr|]. split; [reflexivity|].
  rewrite Hr in Hv. destruct Hv as (_ & _ & _ & Ht & Hd & _). split; [exact Ht|].
  apply Hd. reflexivity.
Defined.

Lemma elected_truncates_to_start_witness :
  (handle_elected test_elected test_sk_voted).1 = Ok None
  ∧ wal_flush_lsn (sk_wal_store test_sk_elected) = 1.
Proof.
  pose proof (elected_truncates_to_start _ _ _ _ test_sk_voted_inv (proj1 test_elected_wf)
    (proj2 test_elected_wf) (surjective_pairing (handle_elected test_elected test_sk_voted))) as [_ Hv].
  assert (Hr : (handle_elected test_elected test_sk_voted).1 = Ok None)
    by (vm_compute; reflexivity).
  split; [exact Hr|]. rewrite Hr in Hv. destruct Hv as (_ & _ & Hv).
  replace (pe_term test_elected <? sk_term test_sk_voted) with false in Hv
    by (vm_compute; reflexivity).
  apply Hv.
Defined.

Lemma append_extends_wal_witness :
  let sk := (handle_append_request (test_append 1 1) true test_sk_elected).2 in
  sk_term sk = 1 ∧ SafeKeeper_flush_lsn sk = 3 ∧ append_done (test_append 1 1) test_sk_elected sk.
Proof.
  intros sk. split; [vm_compute; reflexivity|]. split; [vm_compute; reflexivity|].
  pose proof (append_extends_wal test_sk_elected sk (test_append 1 1) true _ test_sk_elected_inv
    ltac:(done) (surjective_pairing _)) as (_ & _ & Hv).
  assert (Hr : ∃ resp, (handle_append_request (test_append 1 1) true test_sk_elected).1 = Ok resp)
    by (vm_compute; eexists; reflexivity).
  destruct Hr as [resp Hr]. rewrite Hr in Hv. destruct Hv as (_ & Hv).
  replace (ah_term (ar_h (test_append 1 1)) <? sk_term test_sk_elected) with false in Hv
    by (vm_compute; reflexivity).
  apply Hv.
Defined.

(** The vote, the announcement and two appends; then a vote request of an old
    term and an append with a hole, which change nothing. *)
Definition test_msgs : list ProposerAcceptorMessage :=
  [PVoteRequest test_vote; PElected test_elected; PAppendRequest (test_append 1 1);
   PAppendRequest (test_append 3 3); PVoteRequest test_vote; PAppendRequest (test_append 9 9);
   PFlushWAL].

Lemma run_msgs_safe_witness :
  let self' := run_msgs test_msgs (test_sk 0) in
  sk_safe (test_sk 0) self' ∧ SafeKeeper_flush_lsn self' = 5 ∧ sk_term self' = 1.
Proof.
  split; [|by vm_compute].
  apply (run_msgs_safe test_msgs (test_sk 0) (test_sk_inv 0)).
  repeat constructor; done.
Defined.

Lemma term_bump_spec_witness :
  let run := TimelineState_term_bump (Some 5) (sk_state (test_sk 0)) in
  run.1 = Ok (0, 5) ∧ ∀ st, TimelineState_durable run.2 st → ps_term st = 5.
Proof.
  intros run. assert (Hr : run.1 = Ok (0, 5)) by (vm_compute; reflexivity).
  split; [exact Hr|].
  pose proof (term_bump_spec (sk_state (test_sk 0)) (Some 5) I ltac:(done) ltac:(done)) as Hv.
  cbv zeta in Hv. pose proof (wp_run _ _ _ _ _ Hv (surjective_pairing _)) as Hrun. clear Hv.
  fold run in Hrun. rename Hrun into Hv.
  rewrite Hr in Hv. destruct Hv as (_ & _ & _ & _ & Hd). apply Hd. done.
Defined.

Lemma membership_switch_spec_witness :
  let to := {| cfg_generation := 7; cfg_members := MemberSet_empty;
               cfg_new_members := None |} in
  let run := TimelineState_membership_switch to (sk_state (test_sk 0)) in
  run.1 = Ok (Configuration_empty, to)
  ∧ ps_mconf (TimelineState_deref run.2) = to.
Proof.
  intros to run. assert (Hr : run.1 = Ok (Configuration_empty, to)) by (vm_compute; reflexivity).
  split; [exact Hr|].
  pose proof (wp_run _ _ _ _ _ (membership_switch_spec (sk_state (test_sk 0)) to I)
    (surjective_pairing _)) as Hv.
  fold run in Hv. rewrite Hr in Hv. destruct Hv as (_ & <- & _). reflexivity.
Defined.
