(* ===== verification/WalProposer.v ===== *)
(** * The proposer: election and commit decisions

    [pgxn/neon/walproposer.c]: how the compute's walproposer counts votes,
    chooses the position it starts from, tells a safekeeper where to truncate,
    and computes the LSN committed by a quorum.  Connections, event loop and
    logging are not modelled: a slot of the connection array is the state of
    the connection and the last responses received on it; the pointers
    [members_safekeepers] into that array are slot indices. *)

From S2P Require Import Prelude Bytes Lsn Membership TermHistory Messages.

(** [SafekeeperState], in the order of the C enumeration. *)
Inductive SafekeeperState :=
| SS_OFFLINE | SS_CONNECTING_WRITE | SS_CONNECTING_READ | SS_WAIT_EXEC_RESULT
| SS_HANDSHAKE_RECV | SS_WAIT_VOTING | SS_WAIT_VERDICT | SS_SEND_ELECTED_FLUSH
| SS_WAIT_ELECTED | SS_ACTIVE.

#[export] Instance SafekeeperState_eq_dec : EqDecision SafekeeperState.
Proof. solve_decision. Defined.

(** [struct Safekeeper]: a connection slot. *)
Record Safekeeper := {
  s_state : SafekeeperState;
  s_voteResponse : VoteResponse;
  s_appendResponse : AppendResponse;
}.

(** [struct WalProposer], the fields of the election and of the commit LSN. *)
Record WalProposer := mkWalProposer {
  wp_safekeepers_generation : Generation;
  wp_mconf : Configuration;
  wp_members_safekeepers : list (option nat);
  wp_new_members_safekeepers : list (option nat);
  wp_quorum : Z;
  wp_safekeeper : list Safekeeper;
  wp_commitLsn : Lsn;
  wp_truncateLsn : Lsn;
  wp_propTerm : Term;
  wp_propTermHistory : TermHistory;
  wp_propTermStartLsn : Lsn;
  wp_donorLastLogTerm : Term;
  wp_donor : option nat;
}.
#[export] Instance WalProposer_settable : Settable WalProposer := λ w,
  mkWalProposer (wp_safekeepers_generation w) (wp_mconf w) (wp_members_safekeepers w)
    (wp_new_members_safekeepers w) (wp_quorum w) (wp_safekeeper w) (wp_commitLsn w)
    (wp_truncateLsn w) (wp_propTerm w) (wp_propTermHistory w) (wp_propTermStartLsn w)
    (wp_donorLastLogTerm w) (wp_donor w).

(** [wp->quorum = wp->n_safekeepers / 2 + 1] *)
Definition static_quorum (n_safekeepers : Z) : Z := n_safekeepers / 2 + 1.

Definition WalProposerGenerationsEnabled (wp : WalProposer) : bool :=
  negb (wp_safekeepers_generation wp =? INVALID_GENERATION).

Definition mset_len (mset : MemberSet) : Z := Z.of_nat (length (ms_m mset)).

Definition MsetQuorum (mset : MemberSet) : Z := mset_len mset / 2 + 1.

Definition MsetHasQuorum (mset : MemberSet) (n : Z) : bool := MsetQuorum mset <=? n.

(** [mconf.new_members.len > 0]; the C structure has an empty set where the
    Rust one has [None]. *)
Definition new_mset (c : Configuration) : MemberSet :=
  match cfg_new_members c with Some m => m | None => MemberSet_empty end.

Definition GetHighestTerm (th : TermHistory) : Term :=
  match last th with Some e => tl_term e | None => 0 end.

Definition GetLastLogTerm (sk : Safekeeper) : Term :=
  GetHighestTerm (vp_term_history (s_voteResponse sk)).

(** ** Votes *)

(** The comparison that moves the donor to slot [j], which holds [sk]. *)
Definition consider_donor (wp : WalProposer) (j : nat) (sk : Safekeeper) : WalProposer :=
  if (wp_donorLastLogTerm wp <? GetLastLogTerm sk)
     || ((GetLastLogTerm sk =? wp_donorLastLogTerm wp)
         && (wp_propTermStartLsn wp <? vp_flush_lsn (s_voteResponse sk)))
     || bool_decide (wp_donor wp = None)
  then wp <| wp_donorLastLogTerm := GetLastLogTerm sk |>
          <| wp_propTermStartLsn := vp_flush_lsn (s_voteResponse sk) |>
          <| wp_donor := Some j |>
  else wp.

(** [wp->truncateLsn = Max(wp->safekeeper[i].voteResponse.truncateLsn, ...)] *)
Definition consider_truncate (wp : WalProposer) (i : nat) : WalProposer :=
  match wp_safekeeper wp !! i with
  | Some ski => wp <| wp_truncateLsn :=
      Z.max (vp_truncate_lsn (s_voteResponse ski)) (wp_truncateLsn wp) |>
  | None => wp <| wp_truncateLsn := Z.max 0 (wp_truncateLsn wp) |>
  end.

(** The loop over the member set; [i] is the index of the member, [msk] the
    slots of the members from [i] on.  A slot beyond the connected ones is
    zero-filled. *)
Fixpoint VotesCollectedMset_loop (i : nat) (msk : list (option nat)) (n_votes : Z)
    (wp : WalProposer) : Z * WalProposer :=
  match msk with
  | [] => (n_votes, wp)
  | m :: msk' =>
    match j ← m; sk ← wp_safekeeper wp !! j; mret (j, sk) with
    | Some (j, sk) =>
      if bool_decide (s_state sk = SS_WAIT_ELECTED) then
        VotesCollectedMset_loop (S i) msk' (n_votes + 1)
          (consider_truncate (consider_donor wp j sk) i)
      else VotesCollectedMset_loop (S i) msk' n_votes wp
    | None => VotesCollectedMset_loop (S i) msk' n_votes wp
    end
  end.

Definition VotesCollectedMset (wp : WalProposer) (mset : MemberSet) (msk : list (option nat)) :
    bool * WalProposer :=
  let '(n_votes, wp) := VotesCollectedMset_loop 0 (take (length (ms_m mset)) msk) 0 wp in
  (MsetHasQuorum mset n_votes, wp).

(** The loop of the branch without generations. *)
Fixpoint VotesCollected_loop (i : nat) (sks : list Safekeeper) (n_ready : Z)
    (wp : WalProposer) : Z * WalProposer :=
  match sks with
  | [] => (n_ready, wp)
  | sk :: sks' =>
    if bool_decide (s_state sk = SS_WAIT_ELECTED) then
      VotesCollected_loop (S i) sks' (n_ready + 1)
        (consider_truncate (consider_donor wp i sk) i)
    else VotesCollected_loop (S i) sks' n_ready wp
  end.

Definition legacy_quorum (wp : WalProposer) : bool :=
  negb (WalProposerGenerationsEnabled wp)
  && (cfg_generation (wp_mconf wp) =? INVALID_GENERATION).

Definition VotesCollected (wp : WalProposer) : bool * WalProposer :=
  let wp := wp <| wp_propTermStartLsn := 0 |> <| wp_donorLastLogTerm := 0 |>
               <| wp_truncateLsn := 0 |> in
  if legacy_quorum wp then
    let '(n_ready, wp) := VotesCollected_loop 0 (wp_safekeeper wp) 0 wp in
    (wp_quorum wp <=? n_ready, wp)
  else
    let '(ok, wp) :=
      VotesCollectedMset wp (cfg_members (wp_mconf wp)) (wp_members_safekeepers wp) in
    if negb ok then (false, wp)
    else if 0 <? mset_len (new_mset (wp_mconf wp)) then
      VotesCollectedMset wp (new_mset (wp_mconf wp)) (wp_new_members_safekeepers wp)
    else (true, wp).

(** ** Start of the term *)

(** The part of [ProcessPropStartPos] that builds the history of the proposer:
    the donor's plus its own entry. *)
Definition make_propTermHistory (wp : WalProposer) : option TermHistory :=
  j ← wp_donor wp; sk ← wp_safekeeper wp !! j;
  Some (vp_term_history (s_voteResponse sk)
        ++ [{| tl_term := wp_propTerm wp; tl_lsn := wp_propTermStartLsn wp |}]).

(** [SendProposerElected]: the loop counting the common entries; the [Assert]
    on the start LSNs is compiled out. *)
Fixpoint common_entries (prop th : TermHistory) : nat :=
  match prop, th with
  | p :: prop', s :: th' =>
    if negb (tl_term p =? tl_term s) then O else S (common_entries prop' th')
  | _, _ => O
  end.

Definition startStreamingAt (propTerm : Term) (propTermHistory : TermHistory)
    (vote : VoteResponse) : option Lsn :=
  let th := vp_term_history vote in
  match common_entries propTermHistory th with
  | O => tl_lsn <$> propTermHistory !! 0%nat
  | S idx =>
    e ← propTermHistory !! idx;
    if tl_term e =? propTerm then Some (vp_flush_lsn vote)
    else
      propEnd ← propTermHistory !! S idx;
      let skEndLsn := match th !! S idx with
                      | Some e => tl_lsn e
                      | None => vp_flush_lsn vote
                      end in
      Some (Z.min (tl_lsn propEnd) skEndLsn)
  end.

(** The message [SendProposerElected] sends to a safekeeper. *)
Definition ProposerElected_of (wp : WalProposer) (vote : VoteResponse) :
    option ProposerElected :=
  start ← startStreamingAt (wp_propTerm wp) (wp_propTermHistory wp) vote;
  Some {| pe_generation := cfg_generation (wp_mconf wp);
          pe_term := wp_propTerm wp;
          pe_start_streaming_at := start;
          pe_term_history := wp_propTermHistory wp |}.

(** ** The committed LSN *)

(** The LSN a connection slot contributes. *)
Definition acked (propTermStartLsn : Lsn) (sk : option Safekeeper) : Lsn :=
  match sk with
  | Some sk =>
    let flushLsn := ap_flush_lsn (s_appendResponse sk) in
    if propTermStartLsn <=? flushLsn then flushLsn else 0
  | None => 0
  end.

(** [responses[n - quorum]] of the responses sorted ascending. *)
Definition quorum_lsn (responses : list Lsn) (quorum : Z) : option Lsn :=
  merge_sort Z.le responses !! (length responses - Z.to_nat quorum)%nat.

Definition GetCommittedMset (wp : WalProposer) (mset : MemberSet) (msk : list (option nat)) :
    option Lsn :=
  let responses :=
    (λ m, acked (wp_propTermStartLsn wp) (j ← m; wp_safekeeper wp !! j))
    <$> take (length (ms_m mset)) msk in
  quorum_lsn responses (MsetQuorum mset).

Definition GetAcknowledgedByQuorumWALPosition (wp : WalProposer) : option Lsn :=
  if legacy_quorum wp then
    quorum_lsn ((λ sk, acked (wp_propTermStartLsn wp) (Some sk)) <$> wp_safekeeper wp)
      (wp_quorum wp)
  else
    committed ← GetCommittedMset wp (cfg_members (wp_mconf wp)) (wp_members_safekeepers wp);
    if 0 <? mset_len (new_mset (wp_mconf wp)) then
      new_mset_committed ←
        GetCommittedMset wp (new_mset (wp_mconf wp)) (wp_new_members_safekeepers wp);
      Some (Z.min committed new_mset_committed)
    else Some committed.

Definition CalculateMinFlushLsn (wp : WalProposer) : Lsn :=
  match wp_safekeeper wp with
  | [] => 0
  | sk :: sks =>
    fold_left (λ lsn sk, Z.min lsn (ap_flush_lsn (s_appendResponse sk))) sks
      (ap_flush_lsn (s_appendResponse sk))
  end.

(** [HandleSafekeeperResponse]: the updates of the commit and truncate LSNs
    (the broadcast of the new value and the end of [sync-safekeepers] are
    output). *)
Definition HandleSafekeeperResponse (wp : WalProposer) : option WalProposer :=
  newCommitLsn ← GetAcknowledgedByQuorumWALPosition wp;
  let wp := if wp_commitLsn wp <? newCommitLsn
            then wp <| wp_commitLsn := newCommitLsn |> else wp in
  let candidateTruncateLsn := Z.min (CalculateMinFlushLsn wp) (wp_commitLsn wp) in
  Some (if wp_truncateLsn wp <? candidateTruncateLsn
        then wp <| wp_truncateLsn := candidateTruncateLsn |> else wp).

(** ** The quorum LSN *)

Definition count_ge (l : Lsn) (responses : list Lsn) : nat :=
  length (filter (λ x, l ≤ x) responses).

Lemma count_ge_perm l responses responses' :
  responses ≡ₚ responses' → count_ge l responses = count_ge l responses'.
Proof. intros Hp. unfold count_ge. by rewrite Hp. Qed.

Lemma filter_fmap {A B} (f : A → B) (P : B → Prop) `{∀ x, Decision (P x)} (l : list A) :
  filter P (f <$> l) = f <$> filter (λ x, P (f x)) l.
Proof.
  induction l as [|x l IH]; [done|]. rewrite fmap_cons, !filter_cons, IH.
  by destruct (decide (P (f x))).
Qed.

(** In a sorted list, as many elements are at least the one at index [i] as
    there are from [i] on, and fewer are above it. *)
Lemma sorted_count_ge s i c :
  StronglySorted Z.le s → s !! i = Some c →
  (length s - i ≤ count_ge c s)%nat ∧ ∀ c', c < c' → (count_ge c' s < length s - i)%nat.
Proof.
  intros Hs Hi. pose proof (take_drop_middle _ _ _ Hi) as Heq.
  pose proof (lookup_lt_Some _ _ _ Hi) as Hlt.
  assert (Hcount : ∀ x, count_ge x s
    = Nat.add (length (filter (λ y, x ≤ y) (take i s)))
        (length (filter (λ y, x ≤ y) (c :: drop (S i) s)))).
  { intros x. unfold count_ge. by rewrite <- length_app, <- filter_app, Heq. }
  rewrite <- Heq in Hs. apply StronglySorted_app in Hs as (Hcross & _ & Hs).
  apply StronglySorted_inv in Hs as [_ Hc].
  split; [|intros c' Hc']; rewrite Hcount.
  - rewrite (filter_all _ (c :: drop (S i) s)).
    + simpl. rewrite length_drop. lia.
    + constructor; [lia|done].
  - rewrite (filter_none _ (take i s)).
    + rewrite filter_cons_False by lia. simpl.
      pose proof (length_filter (λ x, c' ≤ x) (drop (S i) s)) as Hl.
      rewrite length_drop in Hl. lia.
    + apply Forall_forall. intros x Hx.
      assert (x ≤ c) by (apply Hcross; [done|by left]). lia.
Qed.

(** The value computed is acknowledged by a quorum, and it is the largest such. *)
Lemma quorum_lsn_spec responses quorum c :
  0 < quorum ≤ Z.of_nat (length responses) →
  quorum_lsn responses quorum = Some c →
  quorum ≤ Z.of_nat (count_ge c responses)
  ∧ ∀ c', c < c' → Z.of_nat (count_ge c' responses) < quorum.
Proof.
  unfold quorum_lsn. intros Hq Hc.
  assert (Hp : merge_sort Z.le responses ≡ₚ responses) by apply merge_sort_Permutation.
  assert (Hs : StronglySorted Z.le (merge_sort Z.le responses)).
  { apply Sorted_StronglySorted, Sorted_merge_sort; [intros ???; lia|intros ??; lia]. }
  pose proof (Permutation_length Hp) as Hlen.
  apply sorted_count_ge in Hc as [H1 H2]; [|done].
  rewrite (count_ge_perm _ _ _ Hp) in H1. split; [lia|].
  intros c' Hc'. specialize (H2 c' Hc'). rewrite (count_ge_perm _ _ _ Hp) in H2. lia.
Qed.

Lemma quorum_lsn_total responses quorum :
  0 < quorum → responses ≠ [] → is_Some (quorum_lsn responses quorum).
Proof.
  intros Hq Hr. unfold quorum_lsn. apply lookup_lt_is_Some.
  rewrite (Permutation_length (merge_sort_Permutation _ _)).
  destruct responses; [done|]. simpl length. lia.
Qed.

(** The safekeeper in slot [m] has acknowledged WAL up to [c], in this term. *)
Definition holds_wal (wp : WalProposer) (c : Lsn) (m : option nat) : bool :=
  match j ← m; wp_safekeeper wp !! j with
  | Some sk => (c <=? ap_flush_lsn (s_appendResponse sk))
               && (wp_propTermStartLsn wp <=? ap_flush_lsn (s_appendResponse sk))
  | None => false
  end.

Definition holders (wp : WalProposer) (c : Lsn) (msk : list (option nat)) : Z :=
  Z.of_nat (length (filter (λ m, holds_wal wp c m = true) msk)).

Lemma holders_count wp c msk :
  0 < c →
  holders wp c msk =
  Z.of_nat (count_ge c ((λ m, acked (wp_propTermStartLsn wp) (j ← m; wp_safekeeper wp !! j))
                        <$> msk)).
Proof.
  intros Hc. unfold holders, count_ge. rewrite filter_fmap, length_fmap.
  do 2 f_equal. apply list_filter_iff. intros m. unfold holds_wal, acked. simpl.
  destruct (j ← m; wp_safekeeper wp !! j) as [sk|]; [|split; [done|lia]].
  rewrite andb_true_iff, !Z.leb_le. case_match; bool_prop; lia.
Qed.

Lemma GetCommittedMset_holders wp mset msk c :
  (0 < length (ms_m mset) ≤ length msk)%nat →
  GetCommittedMset wp mset msk = Some c →
  let msk := take (length (ms_m mset)) msk in
  (0 < c → MsetQuorum mset ≤ holders wp c msk)
  ∧ ∀ c', c < c' → 0 < c' → holders wp c' msk < MsetQuorum mset.
Proof.
  intros Hlen Hc. unfold GetCommittedMset in Hc.
  apply quorum_lsn_spec in Hc as [H1 H2].
  - simpl. split; [intros; by rewrite holders_count|].
    intros c' Hc' Hpos. rewrite holders_count by done. by apply H2.
  - rewrite length_fmap, length_take_le by lia. unfold MsetQuorum, mset_len.
    pose proof (Z.div_lt (Z.of_nat (length (ms_m mset))) 2).
    pose proof (Z.div_pos (Z.of_nat (length (ms_m mset))) 2). lia.
Qed.

(** ** Votes *)

(** The order on votes: last log term, then end of WAL. *)
Definition vote_le (t1 : Term) (l1 : Lsn) (t2 : Term) (l2 : Lsn) : Prop :=
  t1 < t2 ∨ (t1 = t2 ∧ l1 ≤ l2).

Definition sk_vote_le (sk : Safekeeper) (wp : WalProposer) : Prop :=
  vote_le (GetLastLogTerm sk) (vp_flush_lsn (s_voteResponse sk))
    (wp_donorLastLogTerm wp) (wp_propTermStartLsn wp).

(** The starting position is the one of the donor (or the initial one). *)
Definition donor_position (wp : WalProposer) : Prop :=
  (wp_donorLastLogTerm wp = 0 ∧ wp_propTermStartLsn wp = 0)
  ∨ ∃ j sk, wp_donor wp = Some j ∧ wp_safekeeper wp !! j = Some sk
            ∧ s_state sk = SS_WAIT_ELECTED
            ∧ wp_donorLastLogTerm wp = GetLastLogTerm sk
            ∧ wp_propTermStartLsn wp = vp_flush_lsn (s_voteResponse sk).

(** Slot [m] is of a safekeeper that gave its vote. *)
Definition voter (wp : WalProposer) (m : option nat) : option Safekeeper :=
  j ← m; sk ← wp_safekeeper wp !! j;
  if bool_decide (s_state sk = SS_WAIT_ELECTED) then Some sk else None.

Lemma vote_le_trans t1 l1 t2 l2 t3 l3 :
  vote_le t1 l1 t2 l2 → vote_le t2 l2 t3 l3 → vote_le t1 l1 t3 l3.
Proof. unfold vote_le. lia. Qed.

Lemma consider_truncate_fields wp i :
  wp_safekeeper (consider_truncate wp i) = wp_safekeeper wp
  ∧ wp_donor (consider_truncate wp i) = wp_donor wp
  ∧ wp_donorLastLogTerm (consider_truncate wp i) = wp_donorLastLogTerm wp
  ∧ wp_propTermStartLsn (consider_truncate wp i) = wp_propTermStartLsn wp.
Proof. unfold consider_truncate. by case_match. Qed.

(** One voter considered: the position covers it and what it covered before. *)
Lemma consider_donor_spec wp j sk :
  wp_safekeeper wp !! j = Some sk → s_state sk = SS_WAIT_ELECTED →
  donor_position wp → (wp_donor wp = None → wp_donorLastLogTerm wp = 0 ∧ wp_propTermStartLsn wp = 0) →
  0 ≤ GetLastLogTerm sk → 0 ≤ vp_flush_lsn (s_voteResponse sk) →
  let wp' := consider_donor wp j sk in
  wp_safekeeper wp' = wp_safekeeper wp ∧ donor_position wp' ∧ sk_vote_le sk wp'
  ∧ wp_donor wp' ≠ None
  ∧ vote_le (wp_donorLastLogTerm wp) (wp_propTermStartLsn wp)
            (wp_donorLastLogTerm wp') (wp_propTermStartLsn wp').
Proof.
  intros Hj Hst Hd Hnone Ht Hl. unfold consider_donor. case_match eqn:Hc; simpl.
  - split_and!; try done.
    + right. by exists j, sk.
    + unfold sk_vote_le, vote_le. simpl. lia.
    + unfold vote_le. simpl. rewrite !orb_true_iff, andb_true_iff, bool_decide_eq_true in Hc.
      rewrite !Z.ltb_lt, Z.eqb_eq in Hc. destruct Hc as [[?|?]|Hn]; [lia..|].
      destruct (Hnone Hn). lia.
  - bool_prop. split_and!; try done; unfold sk_vote_le, vote_le; [|lia].
    destruct H1; bool_prop; lia.
Qed.

Definition slots_u64 (wp : WalProposer) : Prop :=
  Forall (λ sk, 0 ≤ GetLastLogTerm sk ∧ 0 ≤ vp_flush_lsn (s_voteResponse sk))
    (wp_safekeeper wp).

(** What the vote counting loops keep: the starting position covers the votes
    seen and is the donor's. *)
Record votes_seen (wp wp' : WalProposer) (seen : list Safekeeper) : Prop := {
  vs_slots : wp_safekeeper wp' = wp_safekeeper wp;
  vs_mconf : wp_mconf wp' = wp_mconf wp ∧ wp_quorum wp' = wp_quorum wp;
  vs_members : wp_members_safekeepers wp' = wp_members_safekeepers wp
               ∧ wp_new_members_safekeepers wp' = wp_new_members_safekeepers wp;
  vs_donor : donor_position wp';
  vs_initial : wp_donor wp' = None →
    wp_donorLastLogTerm wp' = 0 ∧ wp_propTermStartLsn wp' = 0;
  vs_votes : Forall (λ sk, sk_vote_le sk wp') seen;
}.

Lemma votes_seen_step wp0 wp seen i j sk :
  slots_u64 wp0 → votes_seen wp0 wp seen →
  wp_safekeeper wp !! j = Some sk → s_state sk = SS_WAIT_ELECTED →
  votes_seen wp0 (consider_truncate (consider_donor wp j sk) i) (seen ++ [sk]).
Proof.
  intros Hu [Hs Hm Hp Hd Hi Hv] Hj Hst.
  assert (0 ≤ GetLastLogTerm sk ∧ 0 ≤ vp_flush_lsn (s_voteResponse sk)) as [Ht Hl].
  { rewrite Hs in Hj. unfold slots_u64 in Hu. rewrite Forall_lookup in Hu. eauto. }
  destruct (consider_donor_spec wp j sk) as (Hs' & Hd' & Hle & Hn & Hgrow); try done.
  destruct (consider_truncate_fields (consider_donor wp j sk) i) as (E1 & E2 & E3 & E4).
  split.
  - by rewrite E1, Hs'.
  - unfold consider_truncate, consider_donor. by repeat case_match.
  - unfold consider_truncate, consider_donor. by repeat case_match.
  - unfold donor_position in *. by rewrite E1, E2, E3, E4.
  - by rewrite E2.
  - unfold sk_vote_le in *. rewrite E3, E4. apply Forall_app. split; [|by constructor].
    eapply Forall_impl; [exact Hv|]. intros x Hx.
    exact (vote_le_trans _ _ _ _ _ _ Hx Hgrow).
Qed.

Lemma VotesCollectedMset_loop_spec wp0 i msk n wp seen :
  slots_u64 wp0 → votes_seen wp0 wp seen →
  let '(n', wp') := VotesCollectedMset_loop i msk n wp in
  votes_seen wp0 wp' (seen ++ omap (voter wp0) msk)
  ∧ n' = n + Z.of_nat (length (omap (voter wp0) msk)).
Proof.
  intros Hu. revert i n wp seen. induction msk as [|m msk IH]; intros i n wp seen Hv; simpl.
  { rewrite app_nil_r. split; [done|lia]. }
  assert (Hvoter : voter wp0 m = voter wp m) by (unfold voter; by rewrite (vs_slots _ _ _ Hv)).
  rewrite Hvoter. unfold voter at 1 2. destruct m as [j|]; simpl; [|by apply IH].
  destruct (wp_safekeeper wp !! j) as [sk|] eqn:Hj; simpl; [|by apply IH].
  case_bool_decide as Hst; [|by apply IH].
  eapply (votes_seen_step _ _ _ i) in Hv; [|done..].
  specialize (IH (S i) (n + 1) _ _ Hv). destruct (VotesCollectedMset_loop _ _ _ _) as [n' wp'].
  rewrite <- app_assoc in IH. simpl in *. destruct IH as [? ->]. split; [done|].
  change (list_omap _ _ (voter wp0) msk) with (omap (voter wp0) msk). lia.
Qed.

(** Without generations, all slots are the member set. *)
Lemma VotesCollected_loop_mset i sks n wp :
  (∀ k sk, sks !! k = Some sk → wp_safekeeper wp !! (i + k)%nat = Some sk) →
  VotesCollected_loop i sks n wp
  = VotesCollectedMset_loop i (Some <$> seq i (length sks)) n wp.
Proof.
  revert i n wp. induction sks as [|sk sks IH]; intros i n wp Hs; simpl; [done|].
  assert (H0 := Hs 0%nat sk eq_refl). rewrite Nat.add_0_r in H0. rewrite H0. simpl.
  assert (Htl : ∀ k sk', sks !! k = Some sk' → wp_safekeeper wp !! (S i + k)%nat = Some sk').
  { intros k sk' Hk. rewrite Nat.add_succ_comm. by apply (Hs (S k)). }
  case_bool_decide; apply IH; [|done].
  intros k sk' Hk. rewrite (proj1 (consider_truncate_fields _ _)).
  unfold consider_donor. by case_match; simpl; apply Htl.
Qed.

(** The voters a decision is based on, per member set. *)
Definition voters (wp : WalProposer) (mset : MemberSet) (msk : list (option nat)) :
  list Safekeeper := omap (voter wp) (take (length (ms_m mset)) msk).

Definition election_quorum (wp : WalProposer) : Prop :=
  if legacy_quorum wp then
    wp_quorum wp
    ≤ Z.of_nat (length (omap (voter wp) (Some <$> seq 0 (length (wp_safekeeper wp)))))
  else
    MsetQuorum (cfg_members (wp_mconf wp))
    ≤ Z.of_nat (length (voters wp (cfg_members (wp_mconf wp)) (wp_members_safekeepers wp)))
    ∧ (0 < mset_len (new_mset (wp_mconf wp)) →
       MsetQuorum (new_mset (wp_mconf wp))
       ≤ Z.of_nat (length (voters wp (new_mset (wp_mconf wp)) (wp_new_members_safekeepers wp)))).

Definition election_voters (wp : WalProposer) : list Safekeeper :=
  if legacy_quorum wp then omap (voter wp) (Some <$> seq 0 (length (wp_safekeeper wp)))
  else voters wp (cfg_members (wp_mconf wp)) (wp_members_safekeepers wp)
       ++ (if 0 <? mset_len (new_mset (wp_mconf wp))
           then voters wp (new_mset (wp_mconf wp)) (wp_new_members_safekeepers wp) else []).

(** C23: A proposer considers itself elected only with the votes of a quorum of the
    members (and of the new members), and then starts at the highest vote:
    no voter has a later last log term, nor more WAL in it, and the position is
    the one of the donor. *)
Theorem VotesCollected_elected wp wp' :
  slots_u64 wp → VotesCollected wp = (true, wp') →
  election_quorum wp
  ∧ Forall (λ sk, sk_vote_le sk wp') (election_voters wp)
  ∧ donor_position wp'.
Proof.
  intros Hu. unfold VotesCollected, election_quorum, election_voters.
  set (wp0 := wp <| wp_propTermStartLsn := 0 |> <| wp_donorLastLogTerm := 0 |>
                 <| wp_truncateLsn := 0 |>).
  change (legacy_quorum wp) with (legacy_quorum wp0).
  assert (Hv0 : votes_seen wp wp0 []).
  { split; try done; by left. }
  destruct (legacy_quorum wp0).
  - rewrite VotesCollected_loop_mset by done.
    pose proof (VotesCollectedMset_loop_spec wp 0
      (Some <$> seq 0 (length (wp_safekeeper wp0))) 0 wp0 [] Hu Hv0) as Hl.
    destruct (VotesCollectedMset_loop _ _ _ _) as [n1 wp1]. destruct Hl as [Hv ->].
    intros [= Hq <-]. apply Z.leb_le in Hq. rewrite (proj2 (vs_mconf _ _ _ Hv)) in Hq.
    split_and!; [exact Hq|apply Hv..].
  - unfold VotesCollectedMset.
    pose proof (VotesCollectedMset_loop_spec wp 0 (take (length (ms_m (cfg_members (wp_mconf wp0))))
      (wp_members_safekeepers wp0)) 0 wp0 [] Hu Hv0) as Hl.
    destruct (VotesCollectedMset_loop _ _ _ wp0) as [n1 wp1]. destruct Hl as [Hv1 ->].
    unfold MsetHasQuorum. destruct (Z.leb_spec (MsetQuorum (cfg_members (wp_mconf wp0)))
      (0 + Z.of_nat (length (omap (voter wp) (take (length (ms_m (cfg_members (wp_mconf wp0))))
      (wp_members_safekeepers wp0)))))) as [Hq|]; simpl; [|done].
    pose proof (proj1 (vs_mconf _ _ _ Hv1)) as Hm1. rewrite Hm1.
    rewrite (proj2 (vs_members _ _ _ Hv1)).
    destruct (Z.ltb_spec 0 (mset_len (new_mset (wp_mconf wp)))) as [Hpos|Hzero].
    + pose proof (VotesCollectedMset_loop_spec wp 0 (take (length (ms_m (new_mset (wp_mconf wp))))
        (wp_new_members_safekeepers wp)) 0 wp1 _ Hu Hv1) as Hl.
      destruct (VotesCollectedMset_loop _ _ _ wp1) as [n2 wp2]. destruct Hl as [Hv2 ->].
      intros [= Hq2 <-]. apply Z.leb_le in Hq2. split_and!; [exact Hq|by intros _|apply Hv2..].
    + intros [= <-]. split_and!; [exact Hq|lia| |apply Hv1].
      rewrite app_nil_r. apply Hv1.
Qed.

(** ** The truncation point told to a safekeeper *)

(** Terms begin everywhere at the same position. *)
Definition same_starts (th1 th2 : TermHistory) : Prop :=
  ∀ i e1 e2, th1 !! i = Some e1 → th2 !! i = Some e2 →
    tl_term e1 = tl_term e2 → tl_lsn e1 = tl_lsn e2.

Lemma history_split th1 th2 :
  same_starts th1 th2 → ∃ c pr sr, th1 = c ++ pr ∧ th2 = c ++ sr ∧ diverge pr sr.
Proof.
  revert th2. induction th1 as [|p th1 IH]; intros [|s th2] Hs.
  1-3: by eexists [], _, _.
  destruct (decide (tl_term p = tl_term s)) as [Ht|Ht]; [|by exists [], (p :: th1), (s :: th2)].
  destruct (IH th2) as (c & pr & sr & -> & -> & Hd).
  { intros i e1 e2. apply (Hs (S i)). }
  exists (p :: c), pr, sr. split_and!; try done.
  assert (tl_lsn p = tl_lsn s) by by apply (Hs 0%nat).
  by destruct p, s; simpl in *; subst.
Qed.

Lemma common_entries_app c pr sr :
  diverge pr sr → common_entries (c ++ pr) (c ++ sr) = length c.
Proof.
  intros Hd. induction c as [|e c IH]; simpl.
  - destruct pr as [|x pr], sr as [|y sr]; simpl; try done.
    simpl in Hd. by rewrite (proj2 (Z.eqb_neq _ _)).
  - rewrite Z.eqb_refl. simpl. by rewrite IH.
Qed.

(** C26: The proposer's code in C and the safekeeper's check in Rust compute the
    same point from the history and flush LSN of a vote: the truncation point
    a safekeeper is told is the one it verifies. *)
Theorem startStreamingAt_common_point (propTerm : Term) (prop_th : TermHistory)
    (vote : VoteResponse) (own : TermLsn)
    (Hown : last prop_th = Some own) (Hterm : tl_term own = propTerm)
    (Hwf : TermHistory_wf prop_th)
    (Hstarts : same_starts prop_th (vp_term_history vote))
    (Hflush : match last (vp_term_history vote) with
              | Some e => tl_lsn e ≤ vp_flush_lsn vote | None => True end) :
  ∃ o, find_highest_common_point prop_th (vp_term_history vote) (vp_flush_lsn vote) = Ok o
  ∧ startStreamingAt propTerm prop_th vote
    = match o with Some lcp => Some (tl_lsn lcp) | None => tl_lsn <$> head prop_th end.
Proof.
  destruct (history_split _ _ Hstarts) as (c & pr & sr & -> & Hsk & Hd).
  unfold startStreamingAt. rewrite Hsk in *.
  rewrite find_highest_common_point_app, common_entries_app by done.
  eexists. split; [done|]. destruct c as [|e c _] using rev_ind.
  { by destruct pr. }
  rewrite last_snoc, length_app, Nat.add_1_r. simpl.
  assert (Hnext : ∀ r, ((c ++ [e]) ++ r) !! S (length c) = head r).
  { intros r. rewrite lookup_app_r by (rewrite length_app; simpl; lia).
    rewrite length_app, Nat.add_1_r, Nat.sub_diag. by destruct r. }
  assert (Hlast : ((c ++ [e]) ++ pr) !! length c = Some e).
  { rewrite <- app_assoc. apply list_lookup_middle. done. }
  rewrite Hlast. simpl. rewrite !Hnext.
  destruct pr as [|x pr].
  - rewrite app_nil_r, last_snoc in Hown. injection Hown as ->.
    by rewrite (proj2 (Z.eqb_eq _ _)).
  - assert (tl_term e < propTerm).
    { rewrite last_app in Hown. rewrite <- app_assoc in Hwf. simpl in Hwf.
      apply StronglySorted_middle in Hwf as [_ Hwf]. rewrite Forall_forall in Hwf.
      destruct (last (x :: pr)) as [o|] eqn:Ho; [|by apply last_None in Ho].
      injection Hown as ->. apply last_Some_elem_of, Hwf in Ho. lia. }
    rewrite (proj2 (Z.eqb_neq _ _)) by lia. simpl. by destruct sr.
Qed.

(** ** Commit and truncate LSNs *)

Lemma holders_mono wp c c' msk : c' ≤ c → holders wp c msk ≤ holders wp c' msk.
Proof.
  intros Hc. unfold holders. apply Nat2Z.inj_le. induction msk as [|m msk IH]; [done|].
  assert (holds_wal wp c m = true → holds_wal wp c' m = true).
  { unfold holds_wal. destruct (j ← m; wp_safekeeper wp !! j); [|done].
    rewrite !andb_true_iff, !Z.leb_le. lia. }
  rewrite !filter_cons. repeat case_decide; simpl; (lia || naive_solver).
Qed.

Lemma fold_min_le (sks : list Safekeeper) init :
  let r := fold_left (λ lsn sk, Z.min lsn (ap_flush_lsn (s_appendResponse sk))) sks init in
  r ≤ init ∧ Forall (λ sk, r ≤ ap_flush_lsn (s_appendResponse sk)) sks.
Proof.
  revert init. induction sks as [|sk sks IH]; intros init; simpl; [split; [lia|done]|].
  destruct (IH (Z.min init (ap_flush_lsn (s_appendResponse sk)))) as [H1 H2].
  split; [lia|]. constructor; [lia|done].
Qed.

Lemma CalculateMinFlushLsn_le wp :
  Forall (λ sk, CalculateMinFlushLsn wp ≤ ap_flush_lsn (s_appendResponse sk)) (wp_safekeeper wp).
Proof.
  unfold CalculateMinFlushLsn. destruct (wp_safekeeper wp) as [|sk sks]; [done|].
  destruct (fold_min_le sks (ap_flush_lsn (s_appendResponse sk))). by constructor.
Qed.

(** C22: What the commit LSN promises: a quorum of the members, and of the new
    members, have acknowledged WAL up to it in the proposer's term, and no
    later position has that. *)
Theorem committed_by_quorum wp c :
  legacy_quorum wp = false →
  (0 < length (ms_m (cfg_members (wp_mconf wp))) ≤ length (wp_members_safekeepers wp))%nat →
  (length (ms_m (new_mset (wp_mconf wp))) ≤ length (wp_new_members_safekeepers wp))%nat →
  GetAcknowledgedByQuorumWALPosition wp = Some c → 0 < c →
  let members := take (length (ms_m (cfg_members (wp_mconf wp)))) (wp_members_safekeepers wp) in
  let new_members := take (length (ms_m (new_mset (wp_mconf wp)))) (wp_new_members_safekeepers wp) in
  MsetQuorum (cfg_members (wp_mconf wp)) ≤ holders wp c members
  ∧ (ms_m (new_mset (wp_mconf wp)) ≠ [] →
     MsetQuorum (new_mset (wp_mconf wp)) ≤ holders wp c new_members)
  ∧ ∀ c', c < c' →
      holders wp c' members < MsetQuorum (cfg_members (wp_mconf wp))
      ∨ ms_m (new_mset (wp_mconf wp)) ≠ []
        ∧ holders wp c' new_members < MsetQuorum (new_mset (wp_mconf wp)).
Proof.
  intros Hl Hlen Hnlen. unfold GetAcknowledgedByQuorumWALPosition. rewrite Hl.
  destruct (GetCommittedMset wp (cfg_members (wp_mconf wp)) (wp_members_safekeepers wp))
    as [c1|] eqn:H1; simpl; [|by intros].
  apply GetCommittedMset_holders in H1 as [Ha Hb]; [|done]. unfold mset_len.
  destruct (Z.ltb_spec 0 (Z.of_nat (length (ms_m (new_mset (wp_mconf wp)))))) as [Hn|Hn].
  - destruct (GetCommittedMset _ (new_mset _) _) as [c2|] eqn:H2; simpl; [|by intros].
    apply GetCommittedMset_holders in H2 as [Hc Hd]; [|lia]. intros [= <-] Hpos.
    assert (ms_m (new_mset (wp_mconf wp)) ≠ []) by (intros E; rewrite E in Hn; simpl in Hn; lia).
    split_and!.
    + etrans; [apply Ha; lia|apply holders_mono; lia].
    + intros _. etrans; [apply Hc; lia|apply holders_mono; lia].
    + intros c' Hc'. destruct (Z.le_gt_cases c1 c2); [left; apply Hb|right; split; [|apply Hd]];
        (done || lia).
  - intros [= <-] Hpos. split_and!; [by apply Ha| |].
    + intros Hne. destruct (ms_m (new_mset (wp_mconf wp))); [done|simpl in Hn; lia].
    + intros c' Hc'. left. apply Hb; lia.
Qed.

(** The commit and truncate LSNs of a proposer only grow, and the truncate LSN
    stays behind the commit LSN: a safekeeper is never asked to forget WAL that
    is not committed. *)
Theorem HandleSafekeeperResponse_lsns wp wp' :
  wp_truncateLsn wp ≤ wp_commitLsn wp →
  HandleSafekeeperResponse wp = Some wp' →
  wp_commitLsn wp ≤ wp_commitLsn wp' ∧ wp_truncateLsn wp ≤ wp_truncateLsn wp'
  ∧ wp_truncateLsn wp' ≤ wp_commitLsn wp'
  ∧ (wp_truncateLsn wp < wp_truncateLsn wp' →
     Forall (λ sk, wp_truncateLsn wp' ≤ ap_flush_lsn (s_appendResponse sk)) (wp_safekeeper wp)).
Proof.
  intros Htc. unfold HandleSafekeeperResponse.
  destruct (GetAcknowledgedByQuorumWALPosition wp) as [new|]; [|done]. simpl.
  set (wp1 := if wp_commitLsn wp <? new then _ else _). intros [= <-].
  assert (Hmin : Forall (λ sk, CalculateMinFlushLsn wp1 ≤ ap_flush_lsn (s_appendResponse sk))
    (wp_safekeeper wp)).
  { replace (wp_safekeeper wp) with (wp_safekeeper wp1) by (subst wp1; by case_match).
    apply CalculateMinFlushLsn_le. }
  assert (wp_commitLsn wp ≤ wp_commitLsn wp1 ∧ wp_truncateLsn wp1 = wp_truncateLsn wp) as [? ?].
  { subst wp1. case_match; bool_prop; simpl; lia. }
  destruct (Z.ltb_spec (wp_truncateLsn wp1)
    (Z.min (CalculateMinFlushLsn wp1) (wp_commitLsn wp1))); simpl; split_and!; try lia.
  intros _. eapply Forall_impl; [exact Hmin|]. simpl. lia.
Qed.

(** ** A proposer with three connections *)

Definition test_slot (id : NodeId) (flush truncate : Lsn) (th : TermHistory) : Safekeeper := {|
  s_state := SS_WAIT_ELECTED;
  s_voteResponse := {| vp_generation := 1; vp_term := 4; vp_vote_given := true;
    vp_flush_lsn := flush; vp_truncate_lsn := truncate; vp_term_history := th |};
  s_appendResponse := {| ap_generation := 1; ap_term := 4; ap_flush_lsn := flush;
    ap_commit_lsn := 0; ap_hs_feedback := HotStandbyFeedback_empty;
    ap_pageserver_feedback := None |};
|}.

Definition test_members (ids : list NodeId) : MemberSet := {|
  ms_m := (λ i, {| sk_id := i; sk_host := []; sk_pg_port := 5454 |}) <$> ids |}.

(** Members 1, 2, 3 of generation 1 in slots 2, 1, 0: safekeeper 1 has the
    latest term, safekeeper 2 the longest WAL. *)
Definition test_wp (slots : list (option nat)) : WalProposer := {|
  wp_safekeepers_generation := 1;
  wp_mconf := {| cfg_generation := 1; cfg_members := test_members [1; 2; 3];
                 cfg_new_members := None |};
  wp_members_safekeepers := slots;
  wp_new_members_safekeepers := [];
  wp_quorum := 2;
  wp_safekeeper := [test_slot 3 20 10 [{| tl_term := 1; tl_lsn := 10 |}];
                    test_slot 2 50 30 [{| tl_term := 1; tl_lsn := 10 |}];
                    test_slot 1 40 15 [{| tl_term := 1; tl_lsn := 10 |};
                                       {| tl_term := 3; tl_lsn := 30 |}]];
  wp_commitLsn := 0;
  wp_truncateLsn := 0;
  wp_propTerm := 4;
  wp_propTermHistory := [{| tl_term := 1; tl_lsn := 10 |}; {| tl_term := 3; tl_lsn := 30 |};
                         {| tl_term := 4; tl_lsn := 40 |}];
  wp_propTermStartLsn := 0;
  wp_donorLastLogTerm := 0;
  wp_donor := None;
|}.

Definition test_slots : list (option nat) := [Some 2%nat; Some 1%nat; Some 0%nat].

Lemma VotesCollected_elected_witness :
  let wp' := (VotesCollected (test_wp test_slots)).2 in
  wp_propTermStartLsn wp' = 40 ∧ wp_donorLastLogTerm wp' = 3
  ∧ Forall (λ sk, sk_vote_le sk wp') (election_voters (test_wp test_slots)).
Proof.
  intros wp'. split; [reflexivity|]. split; [reflexivity|].
  apply (VotesCollected_elected (test_wp test_slots) wp').
  - repeat constructor; vm_compute; discriminate.
  - vm_compute. reflexivity.
Defined.

Lemma startStreamingAt_common_point_witness :
  let wp := test_wp test_slots in
  let vote := s_voteResponse (test_slot 2 50 30 [{| tl_term := 1; tl_lsn := 10 |}]) in
  ∃ o, find_highest_common_point (wp_propTermHistory wp) (vp_term_history vote)
         (vp_flush_lsn vote) = Ok o
  ∧ startStreamingAt (wp_propTerm wp) (wp_propTermHistory wp) vote
    = match o with
      | Some lcp => Some (tl_lsn lcp)
      | None => tl_lsn <$> head (wp_propTermHistory wp)
      end.
Proof.
  intros wp vote.
  apply (startStreamingAt_common_point (wp_propTerm wp) (wp_propTermHistory wp) vote
    {| tl_term := 4; tl_lsn := 40 |}); try reflexivity.
  - repeat constructor; done.
  - intros [|[|i]] e1 e2; simpl; congruence.
  - discriminate.
Defined.

Lemma committed_by_quorum_witness :
  GetAcknowledgedByQuorumWALPosition (test_wp test_slots) = Some 40
  ∧ 2 ≤ holders (test_wp test_slots) 40 test_slots.
Proof.
  split; [vm_compute; reflexivity|].
  apply (committed_by_quorum (test_wp test_slots) 40); vm_compute; (reflexivity || lia).
Defined.

Lemma HandleSafekeeperResponse_lsns_witness :
  ∃ wp', HandleSafekeeperResponse (test_wp test_slots) = Some wp'
  ∧ wp_commitLsn wp' = 40 ∧ wp_truncateLsn wp' = 20 ∧ wp_truncateLsn wp' ≤ wp_commitLsn wp'.
Proof.
  eexists. split; [vm_compute; reflexivity|]. split; [reflexivity|]. split; [reflexivity|].
  apply (HandleSafekeeperResponse_lsns (test_wp test_slots)).
  - vm_compute. discriminate.
  - vm_compute. reflexivity.
Defined.

(** The truncate LSN of a vote is taken from the connection slot with the
    number of the member, not from the connection of the member: the members
    voting from slots 2 and 0 sent 15 and 10, and the result is the 30 of slot 1,
    which is not a member. *)
Example truncate_lsn_of_wrong_slot :
  let two slots := test_wp slots <| wp_mconf :=
    {| cfg_generation := 1; cfg_members := test_members [1; 3]; cfg_new_members := None |} |> in
  omap (voter (two [Some 2%nat; Some 0%nat])) [Some 2%nat; Some 0%nat]
    = [test_slot 1 40 15 [{| tl_term := 1; tl_lsn := 10 |}; {| tl_term := 3; tl_lsn := 30 |}];
       test_slot 3 20 10 [{| tl_term := 1; tl_lsn := 10 |}]]
  ∧ wp_truncateLsn (VotesCollected (two [Some 2%nat; Some 0%nat])).2 = 30.
Proof. split; vm_compute; reflexivity. Qed.
