(* ===== verification/Election.v ===== *)
(** * Election safety

    A set of safekeepers processing messages of any number of proposers, with
    peers' updates, administrative term bumps and crashes with restarts from
    the durable state.  A vote counts once it has been sent.  No safekeeper
    votes twice in a term -- across crashes and failed writes of the control
    file -- and so no two proposers collect quorums in one term. *)

From S2P Require Import Prelude Bytes Text Ids Lsn Membership TermHistory TimelineState Messages.
From S2P Require Import WalStorage SafeKeeper SafeKeeperSafety SafeKeeperRuns WalProposer.
From S2P Require Import DummyStores.

(** A vote sent: by which safekeeper, to which proposer, in which term. *)
Record Vote := { v_node : NodeId; v_proposer : Z; v_term : Term }.

#[export] Instance Vote_eq_dec : EqDecision Vote.
Proof. solve_decision. Defined.

Section election.
Context {C W : Type} `{ControlStorageLaws C} `{WalStorageLaws W}.
Abbreviation SK := (SafeKeeper C W).

(** The term of the vote carried by a reply, if it is one. *)
Definition vote_of (r : outcome string (option AcceptorProposerMessage)) : option Term :=
  match r with
  | Ok (Some (AVoteResponse resp)) => if vp_vote_given resp then Some (vp_term resp) else None
  | _ => None
  end.

(** What one safekeeper does; the label is the term of the vote it sends. *)
Inductive node_step : SK → option Term → SK → Prop :=
| node_msg self msg r self' :
    msg_wf msg → process_msg msg self = (r, self') →
    node_step self (vote_of r) self'
| node_peer_info self info r self' :
    record_safekeeper_info info self = (r, self') →
    node_step self None self'
| node_term_bump self to r self' :
    in_u 64 (sk_term self) → sk_term self ≠ u64_max →
    state_zoom (TimelineState_term_bump to) self = (r, self') →
    node_step self None self'
| node_restart self c' w' self' :
    (* the control file is loaded, the WAL storage is restored and has passed
       the check against the commit LSN *)
    ctrl_inv c' → sk_durable self (ctrl_deref c') →
    (∀ st, ctrl_durable c' st → st = ctrl_deref c') →
    wal_inv w' → ps_commit_lsn (ctrl_deref c') ≤ wal_flush_lsn w' →
    SafeKeeper_new (TimelineState_new c') w' (sk_node_id self) = Ok self' →
    node_step self None self'.

Definition system : Type := gmap NodeId SK * list Vote.

Inductive sys_step : system → system → Prop :=
| sys_node nodes votes i p self ev self' :
    nodes !! i = Some self → node_step self ev self' →
    sys_step (nodes, votes)
      (<[i := self']> nodes,
       match ev with
       | Some t => {| v_node := i; v_proposer := p; v_term := t |} :: votes
       | None => votes
       end).

(** Initially every safekeeper satisfies its invariant and nobody has voted. *)
Definition sys_init (s : system) : Prop :=
  s.2 = [] ∧ ∀ i self, s.1 !! i = Some self → sk_inv self.

(** ** Invariant *)

(** A restart finds a term that is at least [t]. *)
Definition on_disk (t : Term) (self : SK) : Prop := ∀ st, sk_durable self st → t ≤ ps_term st.

(** The votes sent are behind both the term in memory and the term on disk. *)
Definition votes_behind (votes : list Vote) (i : NodeId) (self : SK) : Prop :=
  ∀ v, v ∈ votes → v_node v = i →
    v_term v ≤ sk_term self ∧ on_disk (v_term v) self.

Definition one_vote (votes : list Vote) : Prop :=
  NoDup ((λ v, (v_node v, v_term v)) <$> votes).

Record sys_inv (s : system) : Prop := {
  sys_nodes : ∀ i self, s.1 !! i = Some self → sk_inv self ∧ votes_behind s.2 i self;
  sys_votes : one_vote s.2;
}.

(** A message either sends no vote, or a vote of a term the safekeeper has
    never been in, which is then in memory and on disk. *)
Lemma process_msg_vote self msg :
  sk_inv self → msg_wf msg →
  wp (process_msg msg) (λ r self', sk_safe self self'
    ∧ match vote_of r with
      | Some t => sk_term self < t ∧ sk_term self' = t
        ∧ ∀ st, sk_durable self' st → ps_term st = t
      | None => True
      end) self.
Proof.
  intros Hinv Hwf.
  destruct msg as [msg|msg|msg|msg|msg|]; simpl in *.
  - eapply wp_mono; [by apply handle_greeting_spec|].
    intros r self' (? & _ & _ & Hr). split; [done|]. destruct r as [resp| |]; [|done..].
    by destruct Hr as (-> & _).
  - eapply wp_mono; [by apply handle_vote_request_spec|].
    intros r self' (? & Hr). split; [done|]. destruct r as [[[]|]| |]; try done.
    simpl. destruct Hr as (_ & Hg & Ht & Ht' & Hd & _).
    destruct (vp_vote_given msg0); [|done]. specialize (Hd eq_refl).
    symmetry in Hg. bool_prop. split_and!; (done || lia).
  - eapply wp_mono; [by apply handle_elected_spec; naive_solver|].
    intros r self' (? & Hr). split; [done|]. destruct r as [resp| |]; [|done..].
    by destruct Hr as (-> & _).
  - eapply wp_mono; [by apply handle_append_request_spec|].
    intros r self' (? & _ & Hr). split; [done|]. destruct r as [resp| |]; [|done..].
    destruct Hr as (_ & Hr). case_match; [by destruct Hr as (_ & ->)|].
    by destruct Hr as (_ & [->|[-> _]]).
  - eapply wp_mono; [by apply handle_append_request_spec|].
    intros r self' (? & _ & Hr). split; [done|]. destruct r as [resp| |]; [|done..].
    destruct Hr as (_ & Hr). case_match; [by destruct Hr as (_ & ->)|].
    by destruct Hr as (_ & [->|[-> _]]).
  - eapply wp_mono; [by apply handle_flush_spec|].
    intros r self' (? & _ & Hr). split; [done|]. by destruct r; [rewrite Hr|..].
Qed.

Lemma node_step_safe self ev self' :
  sk_inv self → node_step self ev self' →
  sk_inv self'
  ∧ (∀ t, t ≤ sk_term self → on_disk t self → t ≤ sk_term self' ∧ on_disk t self')
  ∧ match ev with
    | Some t => sk_term self < t ∧ t ≤ sk_term self' ∧ on_disk t self'
    | None => True
    end.
Proof.
  intros Hinv Hstep.
  assert (Hsafe : ∀ s', sk_safe self s' → sk_inv s' ∧
    (∀ t, t ≤ sk_term self → on_disk t self → t ≤ sk_term s' ∧ on_disk t s')).
  { intros s' [? []]. split; [done|]. intros t Ht Hd. split; [lia|].
    intros st' [(st & Hst & ->)|?]%step_durable_term; [by apply Hd|lia]. }
  destruct Hstep as [self msg r self' Hwf Hrun|self info r self' Hrun|self to r self' Hu Hm Hrun
    |self c' w' self' Hci Hc Hd Hw Hcf Hnew].
  - eapply (wp_run _ _ _ _ _ (process_msg_vote _ _ Hinv Hwf)) in Hrun as [Hs Hv].
    destruct (Hsafe _ Hs). split_and!; try done. case_match; [|done].
    destruct Hv as (? & <- & Hd). split_and!; [done|lia|]. intros st ->%Hd. lia.
  - eapply (wp_run _ _ _ _ _ (record_safekeeper_info_spec _ _ Hinv)) in Hrun as [Hs _].
    destruct (Hsafe _ Hs). done.
  - eapply (wp_run _ _ _ _ _ (term_bump_safe _ _ Hinv Hu Hm)) in Hrun.
    destruct (Hsafe _ Hrun). done.
  - unfold SafeKeeper_new in Hnew. case_match; [done|]. injection Hnew as <-.
    split_and!; [|intros t _ Ht; split; [by apply Ht|]|done].
    + split; simpl; try done.
      * unfold SafeKeeper_flush_lsn, sk_pers, TimelineState_deref. simpl. lia.
      * intros st ->%Hd. unfold sk_inmem. simpl. lia.
      * right. by intros st ->%Hd.
    + intros st ->%Hd. by apply Ht.
Qed.

Lemma sys_step_inv s s' : sys_inv s → sys_step s s' → sys_inv s'.
Proof.
  intros [Hnodes Hvotes] Hstep. destruct Hstep as [nodes votes i p self ev self' Hi Hstep].
  simpl in *. destruct (Hnodes i self Hi) as [Hinv Hbehind].
  destruct (node_step_safe _ _ _ Hinv Hstep) as (Hinv' & Hkeep & Hev).
  split; simpl.
  - intros i' x. rewrite lookup_insert_Some. intros [[<- <-]|[Hne Hx]].
    + split; [done|]. intros v Hv Hvi.
      destruct ev as [t|]; [apply elem_of_cons in Hv as [->|Hv]; [naive_solver|]|];
        destruct (Hbehind v Hv Hvi); by apply Hkeep.
    + destruct (Hnodes i' x Hx) as [? Hb]. split; [done|]. intros v Hv Hvi.
      destruct ev as [t|]; [apply elem_of_cons in Hv as [->|Hv]; [by simpl in Hvi|]|];
        by apply Hb.
  - destruct ev as [t|]; [|done]. apply NoDup_cons. split; [|done].
    intros (v & [= Hn Ht] & Hv)%list_elem_of_fmap. symmetry in Hn.
    destruct (Hbehind v Hv Hn). lia.
Qed.

Lemma sys_reachable_inv s s' : sys_init s → rtc sys_step s s' → sys_inv s'.
Proof.
  intros [Hv Hi] Hsteps. assert (sys_inv s) as Hs.
  { split; [|unfold one_vote; rewrite Hv; constructor].
    intros i self Hself. split; [by eapply Hi|]. rewrite Hv. by intros v ?%elem_of_nil. }
  clear Hv Hi. induction Hsteps; [done|]. eauto using sys_step_inv.
Qed.

(** ** Quorums *)

(** The members that voted for [p] in term [t]. *)
Definition voters_of (votes : list Vote) (members : gset NodeId) (p : Z) (t : Term) :
    gset NodeId :=
  filter (λ i, {| v_node := i; v_proposer := p; v_term := t |} ∈ votes) members.

Definition elected (votes : list Vote) (mset : MemberSet) (p : Z) (t : Term) : Prop :=
  MsetHasQuorum mset
    (Z.of_nat (size (voters_of votes (list_to_set (sk_id <$> ms_m mset)) p t))) = true.

Lemma quorums_intersect (mset : MemberSet) (X Y : gset NodeId) :
  X ⊆ list_to_set (sk_id <$> ms_m mset) → Y ⊆ list_to_set (sk_id <$> ms_m mset) →
  MsetHasQuorum mset (Z.of_nat (size X)) = true →
  MsetHasQuorum mset (Z.of_nat (size Y)) = true →
  ∃ i, i ∈ X ∧ i ∈ Y.
Proof.
  intros HX HY HqX HqY. unfold MsetHasQuorum, MsetQuorum, mset_len in *.
  apply Z.leb_le in HqX, HqY.
  destruct (set_choose_or_empty (X ∩ Y)) as [[i Hi]|Hempty]; [exists i; set_solver|exfalso].
  assert (Hsize : size (X ∪ Y) = (size X + size Y)%nat) by (apply size_union; set_solver).
  assert (Hle : (size (X ∪ Y) ≤ length (ms_m mset))%nat).
  { etrans; [apply (subseteq_size _ (list_to_set (sk_id <$> ms_m mset))); set_solver|].
    rewrite <- (length_fmap sk_id). apply list_to_set_size_length. }
  pose proof (Z.div_mod (Z.of_nat (length (ms_m mset))) 2).
  pose proof (Z.mod_pos_bound (Z.of_nat (length (ms_m mset))) 2). lia.
Qed.

(** Votes in one term by one safekeeper go to one proposer. *)
Lemma one_vote_unique votes i t p p' :
  one_vote votes →
  {| v_node := i; v_proposer := p; v_term := t |} ∈ votes →
  {| v_node := i; v_proposer := p'; v_term := t |} ∈ votes → p = p'.
Proof.
  unfold one_vote. intros Hnd Hv Hv'.
  apply list_elem_of_lookup in Hv as [k Hv]. apply list_elem_of_lookup in Hv' as [k' Hv'].
  assert (k = k') as <-.
  { eapply NoDup_lookup; [exact Hnd|..]; rewrite list_lookup_fmap; [by rewrite Hv|by rewrite Hv']. }
  congruence.
Qed.

(** ** Theorems *)

(** C1: At most one proposer is elected in a term: in every execution of the
    safekeepers, with crashes, lost and repeated messages and failing disks,
    two proposers that have the votes of a quorum of a member set in one term
    are the same. *)
Theorem election_safety (s s' : system) (mset : MemberSet) (p p' : Z) (t : Term) :
  sys_init s → rtc sys_step s s' →
  elected s'.2 mset p t → elected s'.2 mset p' t → p = p'.
Proof.
  intros Hinit Hsteps Hp Hp'. pose proof (sys_votes _ (sys_reachable_inv _ _ Hinit Hsteps)) as Hv.
  destruct (quorums_intersect mset (voters_of s'.2 (list_to_set (sk_id <$> ms_m mset)) p t)
    (voters_of s'.2 (list_to_set (sk_id <$> ms_m mset)) p' t)) as (i & Hi & Hi');
    [unfold voters_of; set_solver..|done|done|].
  apply elem_of_filter in Hi as [Hi _]. apply elem_of_filter in Hi' as [Hi' _].
  by eapply one_vote_unique.
Qed.
End election.

(** ** An election among three safekeepers *)

Definition test_mset : MemberSet := {|
  ms_m := (λ i, {| sk_id := i; sk_host := []; sk_pg_port := 5454 |}) <$> [1; 2; 3] |}.

Definition test_nodes : gmap NodeId (SafeKeeper InMemoryState DummyWalStore) :=
  list_to_map ((λ i, (i, test_sk i)) <$> [1; 2; 3]).

(** The state of safekeeper [i] after it has been asked for its vote in term 1. *)
Definition test_voted (i : NodeId) : SafeKeeper InMemoryState DummyWalStore :=
  (process_msg (PVoteRequest {| vr_generation := 0; vr_term := 1 |}) (test_sk i)).2.

Lemma election_safety_witness :
  let votes := [ {| v_node := 2; v_proposer := 7; v_term := 1 |};
                 {| v_node := 1; v_proposer := 7; v_term := 1 |} ] in
  rtc sys_step (test_nodes, [])
    (<[2 := test_voted 2]> (<[1 := test_voted 1]> test_nodes), votes)
  ∧ elected votes test_mset 7 1
  ∧ ∀ p', elected votes test_mset p' 1 → 7 = p'.
Proof.
  intros votes.
  assert (Hvote : ∀ i, node_step (test_sk i) (Some 1) (test_voted i)).
  { intros i. change (Some 1) with (vote_of (process_msg
      (PVoteRequest {| vr_generation := 0; vr_term := 1 |}) (test_sk i)).1).
    econstructor; [|apply surjective_pairing]. done. }
  assert (Hrun : rtc sys_step (test_nodes, [])
    (<[2 := test_voted 2]> (<[1 := test_voted 1]> test_nodes), votes)).
  { eapply rtc_l; [|eapply rtc_l; [|apply rtc_refl]].
    - apply (sys_node test_nodes [] 1 7 (test_sk 1) (Some 1) (test_voted 1)); [by vm_compute|auto].
    - apply (sys_node _ _ 2 7 (test_sk 2) (Some 1) (test_voted 2)); [by vm_compute|auto]. }
  assert (Helected : elected votes test_mset 7 1) by by vm_compute.
  split; [exact Hrun|]. split; [exact Helected|]. intros p' Hp'.
  apply (election_safety (test_nodes, [])
    (<[2 := test_voted 2]> (<[1 := test_voted 1]> test_nodes), votes) test_mset 7 p' 1);
    [|exact Hrun|exact Helected|exact Hp'].
  split; [done|]. simpl. intros i self Hi.
  apply elem_of_list_to_map_2, list_elem_of_fmap in Hi as (j & Heq & _).
  injection Heq as _ ->.
  apply test_sk_inv.
Defined.
