(* ===== verification/PhysicalSafeKeeper.v ===== *)
(** * A safekeeper on its disk

    The safekeeper over the control file that [FileStorage::restore_new] loads
    and the WAL that [PhysicalStorage::new] opens: what the consensus code
    promises holds on top of the files, whatever the disk does, and across a
    crash and the restart after it. *)

From S2P Require Import Prelude Bytes Text Ids Lsn Membership TermHistory TimelineState Messages.
From S2P Require Import WalDecoder WalDecoderProps DecoderPositions WalGenerator.
From S2P Require Import WalStorage Disk EndOfWal PhysicalStorage PhysicalStorageLaws.
From S2P Require Import ControlFileFormat Bincode ControlFile.
From S2P Require Import SafeKeeper DummyStores SafeKeeperSafety SafeKeeperRuns Election.

Section physical.
Context `{PgSizes} `{ControlFormatLaws}.
Abbreviation SK := (SafeKeeper FileStorage PhysicalStorage).

Lemma PhysicalStorage_new_inv fuel dir state no_sync w :
  PhysicalStorage_new fuel dir state no_sync = Some (Ok w) →
  si_wal_seg_size (ps_server state) = WAL_SEGMENT_SIZE → 0 ≤ ps_commit_lsn state →
  storage_inv w ∧ ps_commit_lsn state ≤ phs_flush_record_lsn w.
Proof.
  unfold PhysicalStorage_new. intros Hnew Hseg Hc.
  destruct (if _ =? 0 then _ else _) as [[[write_lsn|]|e|] d] eqn:Hr; try done.
  destruct (Z.ltb_spec write_lsn (ps_commit_lsn state)); [done|]. injection Hnew as <-.
  split; [|simpl; lia]. rewrite Hseg.
  assert (Hrem : wd_remaining (WalStreamDecoder_new write_lsn (si_pg_version (ps_server state) / 10000)) = 0)
    by done.
  split; simpl; try (done || lia).
  - split_and!; (done || lia).
  - left. unfold dec_end. simpl. lia.
Qed.

(** A safekeeper that has just been started. *)
Lemma started_inv fuel dir (c : FileStorage) no_sync w node_id (self : SK) :
  settled c → si_wal_seg_size (ps_server (fst_state c)) = WAL_SEGMENT_SIZE →
  0 ≤ ps_commit_lsn (fst_state c) →
  PhysicalStorage_new fuel dir (fst_state c) no_sync = Some (Ok w) →
  SafeKeeper_new (TimelineState_new c) w node_id = Ok self →
  sk_inv self ∧ sk_term self = ps_term (fst_state c)
  ∧ ∀ st, sk_durable self st → st = fst_state c.
Proof.
  intros [Hctrl Hloaded] Hseg Hcommit Hopen Hself.
  destruct (PhysicalStorage_new_inv _ _ _ _ _ Hopen Hseg Hcommit) as [Hw Hc].
  unfold SafeKeeper_new in Hself. destruct (_ || _); [done|]. injection Hself as <-.
  split; [|by split]. split; simpl; [done|done|..].
  - unfold SafeKeeper_flush_lsn. simpl. lia.
  - done.
  - intros st ->%Hloaded. unfold sk_inmem. simpl. lia.
  - right. by intros st ->%Hloaded.
Qed.

(** The terms of the votes sent while processing the messages. *)
Fixpoint votes_sent (msgs : list ProposerAcceptorMessage) (self : SK) : list Term :=
  match msgs with
  | [] => []
  | msg :: msgs =>
    let '(r, self') := process_msg msg self in
    match vote_of r with
    | Some t => t :: votes_sent msgs self'
    | None => votes_sent msgs self'
    end
  end.

(** They are all on disk at the end. *)
Lemma votes_sent_durable msgs (self : SK) t :
  sk_inv self → Forall msg_wf msgs → t ∈ votes_sent msgs self → on_disk t (run_msgs msgs self).
Proof.
  intros Hinv Hwf. revert self Hinv. induction Hwf as [|msg msgs Hm Hms IH]; intros self Hinv; simpl.
  { by intros ?%elem_of_nil. }
  destruct (process_msg msg self) as [r self1] eqn:Hrun.
  destruct (wp_run _ _ _ _ _ (process_msg_vote self msg Hinv Hm) Hrun) as [[Hinv1 _] Hv].
  destruct (vote_of r) as [t'|] eqn:Ht; [|by apply IH].
  intros [->|Hin]%elem_of_cons; [|by apply IH].
  destruct Hv as (_ & Hterm & Hd). destruct (run_msgs_inv msgs self1 Hinv1 Hms) as [_ Hstep].
  intros st' [(st & Hst & ->)|Hle]%(step_durable_term _ _ Hstep); [by rewrite (Hd st Hst)|lia].
Qed.

(** C7: Across a restart, on real files.  A safekeeper is started from its control
    file and its WAL, processes any messages while any operation on its disk may
    fail, and the machine crashes.  Meanwhile its invariant holds, and term,
    commit LSN and generation do not go back.  Afterwards the control file can be
    read; its term is not below the one before the start nor below any vote that
    was sent, and it does not claim more WAL to be committed than was flushed. *)
Theorem restarted_safekeeper_safe (fuel : nat) (dir : Dir) (c : FileStorage) (no_sync : bool)
    (w : PhysicalStorage) (node_id : NodeId) (self : SK)
    (msgs : list ProposerAcceptorMessage) (d : Dir)
    (Hloaded : settled c)
    (Hseg : si_wal_seg_size (ps_server (fst_state c)) = WAL_SEGMENT_SIZE)
    (Hcommit : 0 ≤ ps_commit_lsn (fst_state c))
    (Hopen : PhysicalStorage_new fuel dir (fst_state c) no_sync = Some (Ok w))
    (Hself : SafeKeeper_new (TimelineState_new c) w node_id = Ok self)
    (Hmsgs : Forall msg_wf msgs)
    (Hcrash : crash (fst_timeline_dir (ts_pers (sk_state (run_msgs msgs self)))) d)
    (Hdisk : quiet d) :
  let self' := run_msgs msgs self in
  sk_safe self self' ∧
  ∃ c', FileStorage_restore_new d false = Ok c' ∧ settled c'
    ∧ ps_term (fst_state c) ≤ ps_term (fst_state c')
    ∧ (∀ t, t ∈ votes_sent msgs self → t ≤ ps_term (fst_state c'))
    ∧ (0 ≤ phs_flush_record_lsn (sk_wal_store self') →
       ps_commit_lsn (fst_state c')
       ≤ Z.max (phs_flush_record_lsn (sk_wal_store self')) (ps_timeline_start_lsn (fst_state c'))).
Proof.
  destruct (started_inv _ _ _ _ _ _ _ Hloaded Hseg Hcommit Hopen Hself) as (Hinv & Hterm & Huniq).
  assert (Hs := run_msgs_inv msgs self Hinv Hmsgs). intros self'. split; [exact Hs|].
  destruct Hs as [Hinv' Hstep].
  destruct (restore_after_crash _ d (inv_ctrl _ Hinv') Hcrash Hdisk) as (c' & Hc' & Hset & _ & Hdur).
  exists c'. split; [exact Hc'|]. split; [exact Hset|]. split_and!.
  - destruct (step_durable_term _ _ Hstep _ Hdur) as [(st & ->%Huniq & Ht)|Hle];
      [rewrite <- Ht; done|by rewrite <- Hterm].
  - intros t Ht. by apply (votes_sent_durable msgs self t Hinv Hmsgs Ht).
  - exact (sk_inv_restart self' _ Hinv' Hdur).
Qed.
End physical.

(** ** A new timeline *)

(** An empty directory on a disk that fails once. *)
Definition test_dir : Dir := {|
  d_names := ∅; d_old_names := []; d_inodes := []; d_faults := [None; None; Some 0%nat];
  d_remove_faults := []; d_open_faults := [];
|}.

Definition test_storage : PhysicalStorage := {|
  phs_timeline_dir := test_dir;
  phs_no_sync := false;
  phs_wal_seg_size := WAL_SEGMENT_SIZE;
  phs_pg_version := 170000;
  phs_system_id := 0;
  phs_write_lsn := 0;
  phs_write_record_lsn := 0;
  phs_flush_lsn := 0;
  phs_flush_record_lsn := 0;
  phs_decoder := WalStreamDecoder_new 0 17;
  phs_file := None;
  phs_pending_wal_truncation := true;
|}.

#[local] Existing Instance test_control_format.
#[local] Existing Instance test_control_laws.

(** The control file of the unit tests: created, and loaded again after a crash. *)
Definition sk_ctrl_created : FileStorage :=
  (FileStorage_create_new (test_ctrl_dir <| d_faults := [] |>) test_sk_state false).2.
Definition sk_ctrl_dir : Dir :=
  crash_to (d_names (fst_timeline_dir sk_ctrl_created)) (fst_timeline_dir sk_ctrl_created).
Definition sk_ctrl : FileStorage := mkFileStorage sk_ctrl_dir false test_sk_state.

Lemma sk_ctrl_created_inv : FileStorage_inv sk_ctrl_created.
Proof.
  pose proof (create_new_spec (test_ctrl_dir <| d_faults := [] |>) test_sk_state) as Hc.
  assert (Hr : (FileStorage_create_new (test_ctrl_dir <| d_faults := [] |>) test_sk_state false).1 = Ok tt)
    by (vm_compute; reflexivity).
  unfold sk_ctrl_created, created in *.
  destruct (FileStorage_create_new _ _ _) as [r self]. simpl in *. rewrite Hr in Hc.
  apply Hc. by intros n ->%list_elem_of_singleton.
Qed.

Lemma sk_ctrl_loaded : FileStorage_restore_new sk_ctrl_dir false = Ok sk_ctrl.
Proof. vm_compute. reflexivity. Qed.

Lemma sk_ctrl_settled : settled sk_ctrl.
Proof.
  destruct (restore_after_crash sk_ctrl_created sk_ctrl_dir sk_ctrl_created_inv) as (c & Hc & Hs & _).
  - apply crash_to_crash. left.
  - done.
  - rewrite sk_ctrl_loaded in Hc. by injection Hc as ->.
Qed.

Definition test_physical_sk : SafeKeeper FileStorage PhysicalStorage :=
  mkSafeKeeper 0 (TimelineState_new sk_ctrl) test_storage 1.

Definition test_physical_msgs : list ProposerAcceptorMessage :=
  [PVoteRequest test_vote; PElected test_elected; PAppendRequest (test_append 1 0)].

Lemma test_physical_msgs_wf : Forall msg_wf test_physical_msgs.
Proof. repeat constructor; simpl; done. Qed.

Lemma restarted_safekeeper_safe_witness :
  let H := test_format in
  let self' := run_msgs test_physical_msgs test_physical_sk in
  let d := crash_to (d_names (fst_timeline_dir (ts_pers (sk_state self'))))
             (fst_timeline_dir (ts_pers (sk_state self'))) in
  votes_sent test_physical_msgs test_physical_sk = [1]
  ∧ sk_safe test_physical_sk self'
  ∧ ∃ c', FileStorage_restore_new d false = Ok c' ∧ 1 ≤ ps_term (fst_state c').
Proof.
  intros H self' d.
  assert (Hv : votes_sent test_physical_msgs test_physical_sk = [1]) by (vm_compute; reflexivity).
  split; [exact Hv|].
  destruct (@restarted_safekeeper_safe test_format (@pg_format_sizes _ (pg_layout_laws _ _)) _ _
    0 test_dir sk_ctrl false test_storage 1 test_physical_sk test_physical_msgs d sk_ctrl_settled
    eq_refl (Z.le_refl 0) eq_refl eq_refl test_physical_msgs_wf) as (Hs & c' & Hc' & _ & _ & Hvotes & _).
  - apply crash_to_crash. left.
  - split; reflexivity.
  - split; [exact Hs|]. exists c'. split; [exact Hc'|].
    apply (Hvotes 1). pose proof Hv as Hv'. unfold H in Hv'. rewrite Hv'. left.
Defined.
