(* ===== verification/Wire.v ===== *)
(** * Wire format of the consensus protocol

    [safekeeper/src/safekeeper.rs]: [ProposerAcceptorMessage::parse] and
    [AcceptorProposerMessage::serialize], for both protocol versions, and
    [libs/utils/src/pageserver_feedback.rs].  [pgxn/neon/walproposer.c]: the
    other side, [PAMessageSerialize].

    The buffers are the interfaces of the [bytes] crate.  What is not in the
    repository is a parameter: the [hex] crate that reads ids, the [bincode]
    decoding of the packed structs of version 2, and the Postgres routine that
    sends an ASCII string. *)

From S2P Require Import Prelude Bytes Text Ids Lsn Membership TermHistory TimelineState Messages.

Definition SK_PROTO_VERSION_2 : Z := 2.
Definition SK_PROTO_VERSION_3 : Z := 3.

(** [postgres_ffi::MAX_SEND_SIZE] *)
Definition MAX_SEND_SIZE : Z := XLOG_BLCKSZ * 16.

(** The structs of version 2. *)
Record ProposerGreetingV2 := {
  g2_protocol_version : Z;
  g2_pg_version : Z;
  g2_proposer_id : Id16;
  g2_system_id : Z;
  g2_timeline_id : Id16;
  g2_tenant_id : Id16;
  g2_tli : Z;
  g2_wal_seg_size : Z;
}.

Record VoteRequestV2 := { v2_term : Term }.

Record AppendRequestHeaderV2 := {
  a2_term : Term;
  a2_term_start_lsn : Lsn;
  a2_begin_lsn : Lsn;
  a2_end_lsn : Lsn;
  a2_commit_lsn : Lsn;
  a2_truncate_lsn : Lsn;
  a2_proposer_uuid : Id16;
}.

(** A character of a tag. *)
Definition tag (c : byte) : Z := byte_val c.

(** ** Proposer messages: parsing *)

(** [.with_context(|| ctx)] *)
Definition with_context {S A} (ctx : string) (m : ST S string A) : ST S string A :=
  st_map_err (λ _, ctx) m.

Section parse.
Context {B : Type} `{Buf B}.
Context `{HexCrate}.
(** [LeSer::des_from] of the structs of version 2. *)
Variable greeting_v2_des_from : ST B string ProposerGreetingV2.
Variable vote_v2_des_from : ST B string VoteRequestV2.
Variable append_v2_des_from : ST B string AppendRequestHeaderV2.

(** [TenantId::from_str], [TimelineId::from_str] *)
Definition id_from_str (s : bytes) : outcome string Id16 :=
  anyhow_hex (Id_from_str (byte_val <$> s)).

Definition get_cstr : ST B string bytes :=
  buf ← st_get;
  pos ← st_lift (ok_or (fst <$> list_find (λ x, x = x00) (buf_view buf))
                   "missing cstring terminator"%string);
  result ← split_to pos;
  _ ← buf_advance 1;
  if utf8_valid result then mret result else st_fail "invalid utf8 in cstring"%string.

(** The loop reading [n] members into [members]. *)
Fixpoint get_members (n : nat) (members : MemberSet) : ST B string MemberSet :=
  match n with
  | O => mret members
  | S n' =>
    id ← with_context "reading member node_id" get_u64_f;
    host ← with_context "reading member host" get_cstr;
    pg_port ← with_context "reading member port" get_u16_f;
    let sk := {| sk_id := id; sk_host := host; sk_pg_port := pg_port |} in
    match MemberSet_add sk members with
    | (Ok _, members) => get_members n' members
    | (Err e, _) => st_fail e
    | (Panic, _) => st_panic
    end
  end.

Definition get_mconf : ST B string Configuration :=
  generation ← with_context "reading generation" get_u32_f;
  members_len ← with_context "reading members_len" get_u32_f;
  _ ← st_ensure (negb (negb (generation =? INVALID_GENERATION) && (members_len =? 0)))
        "empty members_len"%string;
  members ← get_members (Z.to_nat members_len) MemberSet_empty;
  new_members_len ← with_context "reading new_members_len" get_u32_f;
  if new_members_len =? 0 then
    mret {| cfg_generation := generation; cfg_members := members; cfg_new_members := None |}
  else
    new_members ← get_members (Z.to_nat new_members_len) MemberSet_empty;
    mret {| cfg_generation := generation; cfg_members := members;
            cfg_new_members := Some new_members |}.

(** The checks of the size of the WAL of an append, and its reading. *)
Definition parse_append_data (hdr : AppendRequestHeader) (short : string) :
    ST B string ProposerAcceptorMessage :=
  rec_size ← st_lift (ok_or (Lsn_checked_sub (ah_end_lsn hdr) (ah_begin_lsn hdr))
                        "begin_lsn > end_lsn in AppendRequest"%string);
  _ ← st_ensure (negb (MAX_SEND_SIZE <? rec_size))
        "AppendRequest is longer than MAX_SEND_SIZE"%string;
  msg_bytes ← st_get;
  _ ← st_ensure (negb (remaining msg_bytes <? rec_size)) short;
  wal_data ← copy_to_bytes (Z.to_nat rec_size);
  mret (PAppendRequest {| ar_h := hdr; ar_wal_data := wal_data |}).

Definition parse_v3 : ST B string ProposerAcceptorMessage :=
  msg_bytes ← st_get;
  _ ← st_ensure (negb (buf_is_empty msg_bytes))
        "ProposerAcceptorMessage is not complete: missing tag"%string;
  t ← with_context "ProposerAcceptorMessage is not complete: missing tag" get_u8_f;
  if t =? tag "g" then
    tenant_id_str ← with_context "reading tenant_id" get_cstr;
    tenant_id ← st_lift (id_from_str tenant_id_str);
    timeline_id_str ← with_context "reading timeline_id" get_cstr;
    timeline_id ← st_lift (id_from_str timeline_id_str);
    mconf ← get_mconf;
    pg_version ← with_context "reading pg_version" get_u32_f;
    system_id ← with_context "reading system_id" get_u64_f;
    wal_seg_size ← with_context "reading wal_seg_size" get_u32_f;
    mret (PGreeting {| pg_tenant_id := tenant_id; pg_timeline_id := timeline_id;
      pg_mconf := mconf; pg_pg_version := pg_version; pg_system_id := system_id;
      pg_wal_seg_size := wal_seg_size |})
  else if t =? tag "v" then
    generation ← with_context "reading generation" get_u32_f;
    term ← with_context "reading term" get_u64_f;
    mret (PVoteRequest {| vr_generation := generation; vr_term := term |})
  else if t =? tag "e" then
    generation ← with_context "reading generation" get_u32_f;
    term ← with_context "reading term" get_u64_f;
    start_streaming_at ← with_context "reading start_streaming_at" get_u64_f;
    term_history ← TermHistory_from_bytes;
    mret (PElected {| pe_generation := generation; pe_term := term;
      pe_start_streaming_at := start_streaming_at; pe_term_history := term_history |})
  else if t =? tag "a" then
    generation ← with_context "reading generation" get_u32_f;
    term ← with_context "reading term" get_u64_f;
    begin_lsn ← with_context "reading begin_lsn" get_u64_f;
    end_lsn ← with_context "reading end_lsn" get_u64_f;
    commit_lsn ← with_context "reading commit_lsn" get_u64_f;
    truncate_lsn ← with_context "reading truncate_lsn" get_u64_f;
    parse_append_data {| ah_generation := generation; ah_term := term;
      ah_begin_lsn := begin_lsn; ah_end_lsn := end_lsn; ah_commit_lsn := commit_lsn;
      ah_truncate_lsn := truncate_lsn |} "reading WAL: not enough bytes left"%string
  else st_fail "unknown proposer-acceptor message tag"%string.

(** [stream.read_u64::<LittleEndian>()? as u8 as char] *)
Definition read_tag_v2 : ST B string Z :=
  stream ← st_get;
  _ ← st_ensure (negb (remaining stream <? 8)) "failed to fill whole buffer"%string;
  t ← get_u64_le;
  mret (wrap 8 t).

Definition parse_v2 : ST B string ProposerAcceptorMessage :=
  t ← read_tag_v2;
  if t =? tag "g" then
    msgv2 ← greeting_v2_des_from;
    mret (PGreeting {| pg_tenant_id := g2_tenant_id msgv2;
      pg_timeline_id := g2_timeline_id msgv2;
      pg_mconf := {| cfg_generation := INVALID_GENERATION; cfg_members := MemberSet_empty;
                     cfg_new_members := None |};
      pg_pg_version := g2_pg_version msgv2; pg_system_id := g2_system_id msgv2;
      pg_wal_seg_size := g2_wal_seg_size msgv2 |})
  else if t =? tag "v" then
    msg ← vote_v2_des_from;
    mret (PVoteRequest {| vr_generation := INVALID_GENERATION; vr_term := v2_term msg |})
  else if t =? tag "e" then
    msg_bytes ← st_get;
    _ ← st_ensure (negb (remaining msg_bytes <? 16))
          "ProposerElected message is not complete"%string;
    term ← get_u64_le;
    start_streaming_at ← get_u64_le;
    term_history ← TermHistory_from_bytes_le;
    msg_bytes ← st_get;
    _ ← st_ensure (negb (remaining msg_bytes <? 8))
          "ProposerElected message is not complete"%string;
    _ ← get_u64_le;
    mret (PElected {| pe_generation := INVALID_GENERATION; pe_term := term;
      pe_start_streaming_at := start_streaming_at; pe_term_history := term_history |})
  else if t =? tag "a" then
    hdrv2 ← append_v2_des_from;
    parse_append_data {| ah_generation := INVALID_GENERATION; ah_term := a2_term hdrv2;
      ah_begin_lsn := a2_begin_lsn hdrv2; ah_end_lsn := a2_end_lsn hdrv2;
      ah_commit_lsn := a2_commit_lsn hdrv2; ah_truncate_lsn := a2_truncate_lsn hdrv2 |}
      "failed to fill whole buffer"%string
  else st_fail "unknown proposer-acceptor message tag"%string.

Definition parse (proto_version : Z) : ST B string ProposerAcceptorMessage :=
  if proto_version =? SK_PROTO_VERSION_3 then parse_v3
  else if proto_version =? SK_PROTO_VERSION_2 then parse_v2
  else st_fail "unsupported protocol version"%string.
End parse.

(** [ProposerAcceptorMessage::size]; [base] is [size_of::<ProposerAcceptorMessage>()]. *)
Definition ProposerAcceptorMessage_size (base : Z) (self : ProposerAcceptorMessage) : Z :=
  wrapping_add 64 base
    match self with
    | PAppendRequest m | PNoFlushAppendRequest m => Z.of_nat (length (ar_wal_data m))
    | PGreeting _ | PVoteRequest _ | PElected _ | PFlushWAL => 0
    end.

(** ** Safekeeper messages: serialization *)

Section serialize.
Context {M : Type} `{BufMut M}.

Definition put_cstr (s : bytes) (buf : M) : M := put_u8 0 (put_slice s buf).

(** [for x in l { buf = f(x, buf) }] *)
Definition put_each {A} (f : A → M → M) (l : list A) (buf : M) : M :=
  fold_left (λ buf x, f x buf) l buf.

Definition put_member (sk : SafekeeperId) (buf : M) : M :=
  put_u16 (sk_pg_port sk) (put_cstr (sk_host sk) (put_u64 (sk_id sk) buf)).

Definition serialize_mconf (mconf : Configuration) (buf : M) : M :=
  let buf := put_u32 (cfg_generation mconf) buf in
  let buf := put_u32 (wrap 32 (Z.of_nat (length (ms_m (cfg_members mconf))))) buf in
  let buf := put_each put_member (ms_m (cfg_members mconf)) buf in
  match cfg_new_members mconf with
  | Some new_members =>
    let buf := put_u32 (wrap 32 (Z.of_nat (length (ms_m new_members)))) buf in
    put_each put_member (ms_m new_members) buf
  | None => put_u32 0 buf
  end.

(** [PageserverFeedback::serialize]: a reply time before the Postgres epoch
    panics. *)
Definition put_field (key : string) (len : Z) (put : M → M) (buf : M) : M :=
  put (put_i32 len (put_cstr (String.list_byte_of_string key) buf)).

Definition PageserverFeedback_serialize (self : PageserverFeedback) (buf : M) :
    outcome string M :=
  let buf_ptr := length (bufmut_view buf) in
  let buf := put_u8 0 buf in
  let buf := put_field "current_timeline_size" 8 (put_u64 (pf_current_timeline_size self)) buf in
  let buf := put_field "ps_writelsn" 8 (put_u64 (pf_last_received_lsn self)) buf in
  let buf := put_field "ps_flushlsn" 8 (put_u64 (pf_disk_consistent_lsn self)) buf in
  let buf := put_field "ps_applylsn" 8 (put_u64 (pf_remote_consistent_lsn self)) buf in
  if pf_replytime self <? 0 then Panic
  else
    let timestamp := to_signed 64 (wrap 64 (pf_replytime self)) in
    let buf := put_field "ps_replytime" 8 (put_i64 timestamp) buf in
    let '(nkeys, buf) :=
      if 0 <? pf_shard_number self
      then (6, put_field "shard_number" 4 (put_u32 (pf_shard_number self)) buf)
      else (5, buf) in
    Ok (bufmut_set buf_ptr nkeys buf).

Definition put_entry (e : TermLsn) (buf : M) : M :=
  put_u64 (tl_lsn e) (put_u64 (tl_term e) buf).
Definition put_entry_le (e : TermLsn) (buf : M) : M :=
  put_u64_le (tl_lsn e) (put_u64_le (tl_term e) buf).

Definition put_feedback (f : option PageserverFeedback) (buf : M) : outcome string M :=
  match f with
  | Some msg => PageserverFeedback_serialize msg buf
  | None => Ok buf
  end.

Definition serialize_v3 (self : AcceptorProposerMessage) (buf : M) : outcome string M :=
  match self with
  | AGreeting msg =>
    let buf := put_u8 (tag "g") buf in
    let buf := put_u64 (ag_node_id msg) buf in
    let buf := serialize_mconf (ag_mconf msg) buf in
    Ok (put_u64 (ag_term msg) buf)
  | AVoteResponse msg =>
    let buf := put_u8 (tag "v") buf in
    let buf := put_u32 (vp_generation msg) buf in
    let buf := put_u64 (vp_term msg) buf in
    let buf := put_u8 (Z.b2z (vp_vote_given msg)) buf in
    let buf := put_u64 (vp_flush_lsn msg) buf in
    let buf := put_u64 (vp_truncate_lsn msg) buf in
    let buf := put_u32 (wrap 32 (Z.of_nat (length (vp_term_history msg)))) buf in
    Ok (put_each put_entry (vp_term_history msg) buf)
  | AAppendResponse msg =>
    let buf := put_u8 (tag "a") buf in
    let buf := put_u32 (ap_generation msg) buf in
    let buf := put_u64 (ap_term msg) buf in
    let buf := put_u64 (ap_flush_lsn msg) buf in
    let buf := put_u64 (ap_commit_lsn msg) buf in
    let buf := put_i64 (hs_ts (ap_hs_feedback msg)) buf in
    let buf := put_u64 (hs_xmin (ap_hs_feedback msg)) buf in
    let buf := put_u64 (hs_catalog_xmin (ap_hs_feedback msg)) buf in
    put_feedback (ap_pageserver_feedback msg) buf
  end.

Definition serialize_v2 (self : AcceptorProposerMessage) (buf : M) : outcome string M :=
  match self with
  | AGreeting msg =>
    let buf := put_u64_le (tag "g") buf in
    let buf := put_u64_le (ag_term msg) buf in
    Ok (put_u64_le (ag_node_id msg) buf)
  | AVoteResponse msg =>
    let buf := put_u64_le (tag "v") buf in
    let buf := put_u64_le (vp_term msg) buf in
    let buf := put_u64_le (Z.b2z (vp_vote_given msg)) buf in
    let buf := put_u64_le (vp_flush_lsn msg) buf in
    let buf := put_u64_le (vp_truncate_lsn msg) buf in
    let buf := put_u32_le (wrap 32 (Z.of_nat (length (vp_term_history msg)))) buf in
    let buf := put_each put_entry_le (vp_term_history msg) buf in
    Ok (put_u64_le 0 buf)
  | AAppendResponse msg =>
    let buf := put_u64_le (tag "a") buf in
    let buf := put_u64_le (ap_term msg) buf in
    let buf := put_u64_le (ap_flush_lsn msg) buf in
    let buf := put_u64_le (ap_commit_lsn msg) buf in
    let buf := put_i64_le (hs_ts (ap_hs_feedback msg)) buf in
    let buf := put_u64_le (hs_xmin (ap_hs_feedback msg)) buf in
    let buf := put_u64_le (hs_catalog_xmin (ap_hs_feedback msg)) buf in
    put_feedback (ap_pageserver_feedback msg) buf
  end.

Definition serialize (self : AcceptorProposerMessage) (proto_version : Z) (buf : M) :
    outcome string M :=
  if proto_version =? SK_PROTO_VERSION_3 then serialize_v3 self buf
  else if proto_version =? SK_PROTO_VERSION_2 then serialize_v2 self buf
  else Err "unsupported protocol version"%string.

(** ** Proposer messages: serialization (walproposer.c, version 3)

    A [StringInfo] is a write buffer; [pq_sendint32] and the like append in
    network order.  The ids of a greeting are hexadecimal C strings. *)

Variable pq_send_ascii_string : bytes → M → M.

Definition send_member (sk : SafekeeperId) (buf : M) : M :=
  put_u16 (sk_pg_port sk) (pq_send_ascii_string (sk_host sk) (put_u64 (sk_id sk) buf)).

Definition MembershipConfigurationSerialize (mconf : Configuration) (buf : M) : M :=
  let new_members := match cfg_new_members mconf with Some s => s | None => MemberSet_empty end in
  let buf := put_u32 (cfg_generation mconf) buf in
  let buf := put_u32 (Z.of_nat (length (ms_m (cfg_members mconf)))) buf in
  let buf := put_each send_member (ms_m (cfg_members mconf)) buf in
  let buf := put_u32 (Z.of_nat (length (ms_m new_members))) buf in
  put_each send_member (ms_m new_members) buf.

(** The id strings of a greeting and, for an append, the WAL the caller adds
    after the header. *)
Definition PAMessageSerialize_v3 (tenant_id timeline_id : bytes)
    (msg : ProposerAcceptorMessage) (buf : M) : outcome string M :=
  match msg with
  | PGreeting m =>
    let buf := put_u8 (tag "g") buf in
    let buf := pq_send_ascii_string tenant_id buf in
    let buf := pq_send_ascii_string timeline_id buf in
    let buf := MembershipConfigurationSerialize (pg_mconf m) buf in
    let buf := put_u32 (pg_pg_version m) buf in
    let buf := put_u64 (pg_system_id m) buf in
    Ok (put_u32 (pg_wal_seg_size m) buf)
  | PVoteRequest m =>
    let buf := put_u8 (tag "v") buf in
    let buf := put_u32 (vr_generation m) buf in
    Ok (put_u64 (vr_term m) buf)
  | PElected m =>
    let buf := put_u8 (tag "e") buf in
    let buf := put_u32 (pe_generation m) buf in
    let buf := put_u64 (pe_term m) buf in
    let buf := put_u64 (pe_start_streaming_at m) buf in
    let buf := put_u32 (Z.of_nat (length (pe_term_history m))) buf in
    Ok (put_each put_entry (pe_term_history m) buf)
  | PAppendRequest m =>
    let h := ar_h m in
    let buf := put_u8 (tag "a") buf in
    let buf := put_u32 (ah_generation h) buf in
    let buf := put_u64 (ah_term h) buf in
    let buf := put_u64 (ah_begin_lsn h) buf in
    let buf := put_u64 (ah_end_lsn h) buf in
    let buf := put_u64 (ah_commit_lsn h) buf in
    let buf := put_u64 (ah_truncate_lsn h) buf in
    Ok (put_slice (ar_wal_data m) buf)
  | PNoFlushAppendRequest _ | PFlushWAL => Panic
  end.
End serialize.

(** ** [PageserverFeedback::parse] *)

Section feedback.
Context {B : Type} `{Buf B}.

(** [pq_proto::read_cstr] *)
Definition read_cstr : ST B string bytes :=
  buf ← st_get;
  pos ← st_lift (ok_or (fst <$> list_find (λ x, x = x00) (buf_view buf))
                   "missing cstring terminator"%string);
  result ← split_to pos;
  _ ← buf_advance 1;
  mret result.

(** A field of known length: [assert_eq!(len, n)]. *)
Definition get_field {A} (n : Z) (get : ST B string A) : ST B string A :=
  len ← get_i32;
  _ ← st_assert (len =? n);
  get.

Definition parse_field (rf : PageserverFeedback) : ST B string PageserverFeedback :=
  key ← (λ b, match read_cstr b with (Err _, b') => (Panic, b') | r => r end);
  let key_is k := bool_decide (key = String.list_byte_of_string k) in
  if key_is "current_timeline_size" then
    x ← get_field 8 get_u64; mret (rf <| pf_current_timeline_size := x |>)
  else if key_is "ps_writelsn" then
    x ← get_field 8 get_u64; mret (rf <| pf_last_received_lsn := x |>)
  else if key_is "ps_flushlsn" then
    x ← get_field 8 get_u64; mret (rf <| pf_disk_consistent_lsn := x |>)
  else if key_is "ps_applylsn" then
    x ← get_field 8 get_u64; mret (rf <| pf_remote_consistent_lsn := x |>)
  else if key_is "ps_replytime" then
    raw_time ← get_field 8 get_i64; mret (rf <| pf_replytime := raw_time |>)
  else if key_is "shard_number" then
    x ← get_field 4 get_u32; mret (rf <| pf_shard_number := x |>)
  else
    len ← get_i32;
    (* [len as usize] of a negative length is past any buffer *)
    _ ← (if len <? 0 then st_panic else buf_advance (Z.to_nat len));
    mret rf.

Fixpoint parse_fields (n : nat) (rf : PageserverFeedback) : ST B string PageserverFeedback :=
  match n with
  | O => mret rf
  | S n' => rf ← parse_field rf; parse_fields n' rf
  end.

Definition PageserverFeedback_parse : ST B string PageserverFeedback :=
  nfields ← get_u8;
  parse_fields (Z.to_nat nfields) PageserverFeedback_empty.
End feedback.
