(* ===== verification/WireRoundtrip.v ===== *)
(** * Round trips of the wire format

    What the proposer's C code writes is what the safekeeper's Rust code
    reads: [parse] undoes [PAMessageSerialize] for every message of version 3.
    Likewise the membership configurations and the pageserver feedback written
    by the safekeeper read back as they were.  [decodes m enc a]: on any buffer
    that starts with [enc], the reader [m] succeeds with [a] and consumes
    exactly [enc]. *)

From S2P Require Import Prelude Bytes Text Ids Lsn Membership TermHistory TimelineState Messages.
From S2P Require Import Wire.

Definition decodes {B E A} `{Buf B} (m : ST B E A) (enc : bytes) (a : A) : Prop :=
  ∀ b t, buf_view b = enc ++ t → ∃ b', m b = (Ok a, b') ∧ buf_view b' = t.

Create HintDb wire discriminated.

Section decodes.
Context {B : Type} `{BufLaws B}.

Lemma decodes_ret {E A} (a : A) : decodes (B:=B) (E:=E) (mret a) [] a.
Proof. intros b t Hb. by exists b. Qed.

Lemma decodes_bind {E A D} (m : ST B E A) (f : A → ST B E D) enc1 enc2 a d :
  decodes m enc1 a → decodes (f a) enc2 d → decodes (m ≫= f) (enc1 ++ enc2) d.
Proof.
  intros Hm Hf b t Hb. rewrite <- app_assoc in Hb. destruct (Hm _ _ Hb) as (b1 & E1 & V1).
  destruct (Hf _ _ V1) as (b2 & E2 & V2). exists b2. split; [|done].
  unfold mbind, ST_bind. by rewrite E1.
Qed.

(** The same where one of the two parts reads nothing. *)
Lemma decodes_bind_l {E A D} (m : ST B E A) (f : A → ST B E D) enc a d :
  decodes m [] a → decodes (f a) enc d → decodes (m ≫= f) enc d.
Proof. apply (decodes_bind m f [] enc). Qed.

Lemma decodes_bind_r {E A D} (m : ST B E A) (f : A → ST B E D) enc a d :
  decodes m enc a → decodes (f a) [] d → decodes (m ≫= f) enc d.
Proof. intros Hm Hf. rewrite <- (app_nil_r enc). by eapply decodes_bind. Qed.

Lemma decodes_reads {E A} n (dec : bytes → A) (f : ST B E A) enc a :
  reads n dec f → length enc = n → dec enc = a → decodes f enc a.
Proof. intros Hr Hl <- b t Hb. by eapply reads_run. Qed.

(** A guard on the buffer that the encoding satisfies. *)
Lemma decodes_guard {E A} (c : B → bool) e (m : ST B E A) enc a :
  (∀ b t, buf_view b = enc ++ t → c b = true) →
  decodes m enc a → decodes (b ← st_get; _ ← st_ensure (c b) e; m) enc a.
Proof.
  intros Hc Hm b t Hb. destruct (Hm b t Hb) as (b' & E1 & V1). exists b'. split; [|done].
  unfold mbind, ST_bind, st_get, st_ensure. by rewrite (Hc b t Hb).
Qed.

Lemma decodes_map_err {E E' A} (g : E → E') (m : ST B E A) enc a :
  decodes m enc a → decodes (st_map_err g m) enc a.
Proof.
  intros Hm b t Hb. destruct (Hm b t Hb) as (b' & E1 & V1). exists b'.
  unfold st_map_err. by rewrite E1.
Qed.

Lemma decodes_lift {E A} (r : outcome E A) a : r = Ok a → decodes (B:=B) (st_lift r) [] a.
Proof. intros -> b t Hb. by exists b. Qed.

Lemma remaining_guard n (b : B) enc t :
  buf_view b = enc ++ t → n ≤ Z.of_nat (length enc) → negb (remaining b <? n) = true.
Proof.
  intros Hb Hn. unfold remaining. rewrite Hb, length_app, negb_true_iff, Z.ltb_ge. lia.
Qed.

(** ** Integers *)

Lemma decodes_u8_f x : in_u 8 x → decodes (B:=B) get_u8_f (be_bytes 1 x) x.
Proof.
  intros Hx. apply decodes_guard.
  - intros b t Hb. unfold buf_is_empty. rewrite Hb, negb_true_iff.
    apply bool_decide_eq_false. by destruct (be_bytes 1 x) eqn:Hl;
      [apply (f_equal length) in Hl; rewrite length_be_bytes in Hl|].
  - eapply decodes_reads; [apply get_u8_reads|apply length_be_bytes|by apply (be_roundtrip _ 8)].
Qed.

Local Tactic Notation "solve_int" uconstr(reads_law) constr(w) :=
  apply decodes_guard;
  [intros; eapply remaining_guard; [done|by rewrite length_be_bytes]
  |eapply decodes_reads; [apply reads_law|apply length_be_bytes|by apply (be_roundtrip _ w)]].

Lemma decodes_u16_f x : in_u 16 x → decodes (B:=B) get_u16_f (be_bytes 2 x) x.
Proof. intros Hx. solve_int get_u16_reads 16. Qed.
Lemma decodes_u32_f x : in_u 32 x → decodes (B:=B) get_u32_f (be_bytes 4 x) x.
Proof. intros Hx. solve_int get_u32_reads 32. Qed.
Lemma decodes_u64_f x : in_u 64 x → decodes (B:=B) get_u64_f (be_bytes 8 x) x.
Proof. intros Hx. solve_int get_u64_reads 64. Qed.

Lemma decodes_ctx {A} ctx (m : ST B string A) enc a :
  decodes m enc a → decodes (with_context ctx m) enc a.
Proof. apply decodes_map_err. Qed.

Lemma decodes_ensure {E A} (c : bool) (e : E) (m : ST B E A) enc a :
  c = true → decodes m enc a → decodes (_ ← st_ensure c e; m) enc a.
Proof. intros -> Hm b t Hb. destruct (Hm b t Hb) as (b' & ? & ?). by exists b'. Qed.

(** ** Strings *)

(** A string with its terminator. *)
Definition cstr (s : bytes) : bytes := s ++ [x00].

Definition cstr_ok (s : bytes) : Prop := x00 ∉ s ∧ utf8_valid s = true.

Lemma find_nul (s t : bytes) :
  x00 ∉ s → list_find (λ x, x = x00) (s ++ x00 :: t) = Some (length s, x00).
Proof.
  intros Hs. apply list_find_Some. split_and!.
  - by apply list_lookup_middle.
  - done.
  - intros j y Hj Hlt ->. rewrite lookup_app_l in Hj by done.
    by apply Hs, list_elem_of_lookup; eauto.
Qed.

Lemma decodes_cstr_bytes {A} (s : bytes) (k : bytes → ST B string A) a :
  x00 ∉ s → decodes (k s) [] a →
  decodes (buf ← st_get;
           pos ← st_lift (ok_or (fst <$> list_find (λ x, x = x00) (buf_view buf))
                           "missing cstring terminator"%string);
           result ← split_to pos; _ ← buf_advance 1; k result) (cstr s) a.
Proof.
  intros Hs Hk b t Hb. unfold cstr in Hb. rewrite <- app_assoc in Hb. simpl in Hb.
  unfold mbind at 1, ST_bind at 1, st_get. rewrite Hb, find_nul by done. simpl.
  assert (Hrest : decodes (result ← split_to (length s); _ ← buf_advance 1; k result)
    (s ++ [x00] ++ []) a).
  { eapply decodes_bind; [eapply decodes_reads; [apply split_to_reads|done|done]|].
    eapply decodes_bind; [eapply decodes_reads; [apply buf_advance_reads|done|done]|done]. }
  apply Hrest. by rewrite Hb, <- app_assoc.
Qed.

Lemma decodes_cstr s : cstr_ok s → decodes (B:=B) get_cstr (cstr s) s.
Proof.
  intros [Hs Hu]. apply (decodes_cstr_bytes s (λ result,
    if utf8_valid result then mret result else st_fail _)); [done|].
  rewrite Hu. apply decodes_ret.
Qed.

(** ** Configurations and histories *)

Definition enc_member (sk : SafekeeperId) : bytes :=
  be_bytes 8 (sk_id sk) ++ cstr (sk_host sk) ++ be_bytes 2 (sk_pg_port sk).

Definition enc_members (l : list SafekeeperId) : bytes :=
  be_bytes 4 (Z.of_nat (length l)) ++ concat (enc_member <$> l).

Definition enc_mconf (c : Configuration) : bytes :=
  be_bytes 4 (cfg_generation c) ++ enc_members (ms_m (cfg_members c))
  ++ enc_members (match cfg_new_members c with Some s => ms_m s | None => [] end).

Definition member_ok (sk : SafekeeperId) : Prop :=
  in_u 64 (sk_id sk) ∧ cstr_ok (sk_host sk) ∧ in_u 16 (sk_pg_port sk).

Definition mset_ok (s : MemberSet) : Prop :=
  Forall member_ok (ms_m s) ∧ MemberSet_wf s ∧ in_u 32 (Z.of_nat (length (ms_m s))).

(** A configuration that can be sent: members of machine words and C strings,
    somebody in a valid configuration, and no empty set of new members (it
    would read back as its absence). *)
Definition mconf_ok (c : Configuration) : Prop :=
  in_u 32 (cfg_generation c) ∧ mset_ok (cfg_members c)
  ∧ (cfg_generation c ≠ INVALID_GENERATION → ms_m (cfg_members c) ≠ [])
  ∧ match cfg_new_members c with
    | Some s => mset_ok s ∧ ms_m s ≠ []
    | None => True
    end.

Lemma decodes_members l acc :
  Forall member_ok l → NoDup (sk_id <$> ms_m acc ++ l) →
  decodes (B:=B) (get_members (length l) acc) (concat (enc_member <$> l))
    {| ms_m := ms_m acc ++ l |}.
Proof.
  intros Hl. revert acc. induction Hl as [|sk l (Hid & Hhost & Hport) _ IH]; intros acc Hnd; simpl.
  { rewrite app_nil_r. destruct acc. apply decodes_ret. }
  change (enc_member sk) with
    (be_bytes 8 (sk_id sk) ++ cstr (sk_host sk) ++ be_bytes 2 (sk_pg_port sk)).
  rewrite <- !app_assoc.
  eapply decodes_bind; [by apply decodes_ctx, decodes_u64_f|].
  eapply decodes_bind; [by apply decodes_ctx, decodes_cstr|].
  eapply decodes_bind; [by apply decodes_ctx, decodes_u16_f|].
  replace {| sk_id := _; sk_host := _; sk_pg_port := _ |} with sk by by destruct sk.
  rewrite fmap_app in Hnd. simpl in Hnd.
  assert (Hnin : sk_id sk ∉ sk_id <$> ms_m acc).
  { apply NoDup_app in Hnd as (_ & Hx & _). intros Hin. apply (Hx _ Hin). by left. }
  rewrite MemberSet_add_run, bool_decide_eq_false_2 by done. simpl.
  specialize (IH {| ms_m := ms_m acc ++ [sk] |}). simpl in IH. rewrite <- app_assoc in IH.
  apply IH. by rewrite fmap_app.
Qed.

Lemma decodes_mset s :
  mset_ok s →
  decodes (B:=B) (n ← get_u32_f; get_members (Z.to_nat n) MemberSet_empty)
    (enc_members (ms_m s)) s.
Proof.
  intros (Hok & Hnd & Hlen). eapply decodes_bind; [by apply decodes_u32_f|].
  rewrite Nat2Z.id. destruct s as [l]. by apply (decodes_members l MemberSet_empty).
Qed.

Lemma decodes_mconf c : mconf_ok c → decodes (B:=B) get_mconf (enc_mconf c) c.
Proof.
  intros (Hgen & (Hok & Hnd & Hlen) & Hne & Hnew). unfold get_mconf, enc_mconf, enc_members.
  rewrite <- !app_assoc.
  eapply decodes_bind; [by apply decodes_ctx, decodes_u32_f|].
  eapply decodes_bind; [by apply decodes_ctx, decodes_u32_f|].
  apply decodes_ensure.
  { rewrite negb_true_iff. apply andb_false_iff. rewrite negb_false_iff, Z.eqb_eq, Z.eqb_neq.
    destruct (decide (cfg_generation c = INVALID_GENERATION)) as [->|Hg]; [by left|right].
    specialize (Hne Hg). by destruct (ms_m (cfg_members c)). }
  eapply decodes_bind.
  { rewrite Nat2Z.id. by apply (decodes_members _ MemberSet_empty). }
  destruct c as [gen [ms] [[l]|]]; simpl in *.
  - destruct Hnew as [(Hok' & Hnd' & Hlen') Hl].
    eapply decodes_bind; [by apply decodes_ctx, decodes_u32_f|].
    rewrite (proj2 (Z.eqb_neq _ _)) by (destruct l; [done|simpl; lia]).
    eapply decodes_bind_r; [|apply decodes_ret].
    rewrite Nat2Z.id. by apply (decodes_members _ MemberSet_empty).
  - eapply decodes_bind; [by apply decodes_ctx, decodes_u32_f|]. apply decodes_ret.
Qed.

Definition enc_entry (e : TermLsn) : bytes := be_bytes 8 (tl_term e) ++ be_bytes 8 (tl_lsn e).

Definition enc_history (th : TermHistory) : bytes :=
  be_bytes 4 (Z.of_nat (length th)) ++ concat (enc_entry <$> th).

Definition history_ok (th : TermHistory) : Prop :=
  Forall (λ e, in_u 64 (tl_term e) ∧ in_u 64 (tl_lsn e)) th
  ∧ in_u 32 (Z.of_nat (length th)).

Lemma decodes_for {E A} (body : Z → ST B E A) (enc : A → bytes) (P : A → Prop) l :
  (∀ i a, P a → decodes (body i) (enc a) a) → Forall P l →
  ∀ lo, decodes (st_for (length l) lo body) (concat (enc <$> l)) l.
Proof.
  intros Hb Hl. induction Hl as [|a l Ha _ IH]; intros lo; simpl; [apply decodes_ret|].
  eapply decodes_bind; [by apply Hb|]. eapply decodes_bind_r; [apply IH|apply decodes_ret].
Qed.

Lemma decodes_history th :
  history_ok th → decodes (B:=B) TermHistory_from_bytes (enc_history th) th.
Proof.
  intros [Hth Hlen]. eapply decodes_bind; [by apply decodes_map_err, decodes_u32_f|].
  rewrite Nat2Z.id. eapply decodes_for; [|exact Hth]. simpl. intros i [term lsn] [Ht Hl].
  unfold enc_entry. simpl in *. eapply decodes_bind; [by apply decodes_map_err, decodes_u64_f|].
  eapply decodes_bind_r; [by apply decodes_map_err, decodes_u64_f|apply decodes_ret].
Qed.

(** ** Messages *)

Definition enc_append_header (h : AppendRequestHeader) : bytes :=
  be_bytes 4 (ah_generation h) ++ be_bytes 8 (ah_term h) ++ be_bytes 8 (ah_begin_lsn h)
  ++ be_bytes 8 (ah_end_lsn h) ++ be_bytes 8 (ah_commit_lsn h) ++ be_bytes 8 (ah_truncate_lsn h).

Definition enc_msg (tenant_id timeline_id : bytes) (msg : ProposerAcceptorMessage) : bytes :=
  match msg with
  | PGreeting m =>
    be_bytes 1 (tag "g") ++ cstr tenant_id ++ cstr timeline_id ++ enc_mconf (pg_mconf m)
    ++ be_bytes 4 (pg_pg_version m) ++ be_bytes 8 (pg_system_id m)
    ++ be_bytes 4 (pg_wal_seg_size m)
  | PVoteRequest m =>
    be_bytes 1 (tag "v") ++ be_bytes 4 (vr_generation m) ++ be_bytes 8 (vr_term m)
  | PElected m =>
    be_bytes 1 (tag "e") ++ be_bytes 4 (pe_generation m) ++ be_bytes 8 (pe_term m)
    ++ be_bytes 8 (pe_start_streaming_at m) ++ enc_history (pe_term_history m)
  | PAppendRequest m =>
    be_bytes 1 (tag "a") ++ enc_append_header (ar_h m) ++ ar_wal_data m
  | PNoFlushAppendRequest _ | PFlushWAL => []
  end.

(** What a proposer may send: machine words, and an append whose WAL is as long
    as its header says and not longer than the limit.  [NoFlushAppendRequest]
    and [FlushWAL] are made by the safekeeper itself. *)
Definition sendable `{HexCrate} (tenant_id timeline_id : bytes)
    (msg : ProposerAcceptorMessage) : Prop :=
  match msg with
  | PGreeting m =>
    cstr_ok tenant_id ∧ id_from_str tenant_id = Ok (pg_tenant_id m)
    ∧ cstr_ok timeline_id ∧ id_from_str timeline_id = Ok (pg_timeline_id m)
    ∧ mconf_ok (pg_mconf m) ∧ in_u 32 (pg_pg_version m) ∧ in_u 64 (pg_system_id m)
    ∧ in_u 32 (pg_wal_seg_size m)
  | PVoteRequest m => in_u 32 (vr_generation m) ∧ in_u 64 (vr_term m)
  | PElected m =>
    in_u 32 (pe_generation m) ∧ in_u 64 (pe_term m) ∧ in_u 64 (pe_start_streaming_at m)
    ∧ history_ok (pe_term_history m)
  | PAppendRequest m =>
    let h := ar_h m in
    in_u 32 (ah_generation h) ∧ in_u 64 (ah_term h) ∧ in_u 64 (ah_begin_lsn h)
    ∧ in_u 64 (ah_end_lsn h) ∧ in_u 64 (ah_commit_lsn h) ∧ in_u 64 (ah_truncate_lsn h)
    ∧ ah_end_lsn h = ah_begin_lsn h + Z.of_nat (length (ar_wal_data m))
    ∧ Z.of_nat (length (ar_wal_data m)) ≤ MAX_SEND_SIZE
  | PNoFlushAppendRequest _ | PFlushWAL => False
  end.

Lemma decodes_append_data h data short :
  ah_end_lsn h = ah_begin_lsn h + Z.of_nat (length data) →
  Z.of_nat (length data) ≤ MAX_SEND_SIZE →
  decodes (B:=B) (parse_append_data h short) data
    (PAppendRequest {| ar_h := h; ar_wal_data := data |}).
Proof.
  intros Hlen Hmax. unfold parse_append_data. eapply decodes_bind_l.
  { apply decodes_lift. unfold Lsn_checked_sub.
    rewrite (proj2 (checked_sub_Some _ _ (Z.of_nat (length data)))) by lia. done. }
  apply decodes_ensure; [by rewrite negb_true_iff, Z.ltb_ge|].
  apply decodes_guard; [intros; eapply remaining_guard; [done|lia]|].
  eapply decodes_bind_r; [|apply decodes_ret].
  eapply decodes_reads; [apply copy_to_bytes_reads|by rewrite Nat2Z.id|done].
Qed.

(** Read the next field. *)
Ltac dec_field :=
  first [eapply decodes_bind | eapply decodes_bind_r];
  [apply decodes_ctx;
   (apply decodes_u8_f || apply decodes_u32_f || apply decodes_u64_f || apply decodes_cstr); done
  |].

Lemma decodes_greeting `{HexCrate} tenant_id timeline_id m :
  sendable tenant_id timeline_id (PGreeting m) →
  decodes (B:=B)
    (tenant_id_str ← with_context "reading tenant_id" get_cstr;
     tenant_id ← st_lift (id_from_str tenant_id_str);
     timeline_id_str ← with_context "reading timeline_id" get_cstr;
     timeline_id ← st_lift (id_from_str timeline_id_str);
     mconf ← get_mconf;
     pg_version ← with_context "reading pg_version" get_u32_f;
     system_id ← with_context "reading system_id" get_u64_f;
     wal_seg_size ← with_context "reading wal_seg_size" get_u32_f;
     mret (PGreeting {| pg_tenant_id := tenant_id; pg_timeline_id := timeline_id;
       pg_mconf := mconf; pg_pg_version := pg_version; pg_system_id := system_id;
       pg_wal_seg_size := wal_seg_size |}))
    (cstr tenant_id ++ cstr timeline_id ++ enc_mconf (pg_mconf m)
     ++ be_bytes 4 (pg_pg_version m) ++ be_bytes 8 (pg_system_id m)
     ++ be_bytes 4 (pg_wal_seg_size m)) (PGreeting m).
Proof.
  intros (? & Htid & ? & Htl & ? & ? & ? & ?).
  dec_field. eapply decodes_bind_l; [by apply decodes_lift|].
  dec_field. eapply decodes_bind_l; [by apply decodes_lift|].
  eapply decodes_bind; [by apply decodes_mconf|]. do 3 dec_field.
  destruct m. apply decodes_ret.
Qed.

Lemma decodes_msg `{HexCrate} greeting_v2 vote_v2 append_v2 tenant_id timeline_id msg :
  sendable tenant_id timeline_id msg →
  decodes (B:=B) (parse greeting_v2 vote_v2 append_v2 SK_PROTO_VERSION_3)
    (enc_msg tenant_id timeline_id msg) msg.
Proof.
  assert (Htag : ∀ c, in_u 8 (tag c)) by (intros c; apply byte_val_bound).
  assert (Hhead : ∀ c rest, ∀ (b : B) t, buf_view b = (be_bytes 1 (tag c) ++ rest) ++ t →
    negb (buf_is_empty b) = true).
  { intros c rest b t Hb. unfold buf_is_empty. rewrite Hb, negb_true_iff.
    apply bool_decide_eq_false. intros Hnil. apply (f_equal length) in Hnil.
    rewrite !length_app, length_be_bytes in Hnil. simpl in Hnil. lia. }
  change (parse greeting_v2 vote_v2 append_v2 SK_PROTO_VERSION_3)
    with (parse_v3 (B:=B)).
  intros Hs. destruct msg as [m|m|m|m|m|]; try done; unfold enc_msg, parse_v3;
    (apply decodes_guard; [apply Hhead|]);
    (eapply decodes_bind; [by apply decodes_ctx, decodes_u8_f|]); simpl in Hs.
  - rewrite Z.eqb_refl. by apply decodes_greeting.
  - destruct Hs as (? & ?). change (tag "v" =? tag "g") with false. rewrite Z.eqb_refl.
    do 2 dec_field. destruct m. apply decodes_ret.
  - destruct Hs as (? & ? & ? & ?). change (tag "e" =? tag "g") with false.
    change (tag "e" =? tag "v") with false. rewrite Z.eqb_refl. do 3 dec_field.
    eapply decodes_bind_r; [by apply decodes_history|]. destruct m. apply decodes_ret.
  - destruct Hs as (? & ? & ? & ? & ? & ? & ? & ?). change (tag "a" =? tag "g") with false.
    change (tag "a" =? tag "v") with false. change (tag "a" =? tag "e") with false.
    rewrite Z.eqb_refl. unfold enc_append_header. rewrite <- !app_assoc.
    do 6 dec_field. destruct m as [[] data]. by apply decodes_append_data.
Qed.
End decodes.

(** ** Pageserver feedback *)

Section feedback.
Context {B : Type} `{BufLaws B}.

Lemma decodes_i32 n : 0 ≤ n < 2 ^ 31 → decodes (B:=B) (E:=string) get_i32 (be_bytes 4 n) n.
Proof.
  intros Hn. eapply decodes_reads; [apply get_i32_reads|apply length_be_bytes|].
  simpl. rewrite (be_roundtrip _ 32) by (done || unfold in_u; lia).
  rewrite <- (wrap_small 32 n) at 1 by (unfold in_u; lia).
  apply to_signed_roundtrip; lia.
Qed.

Lemma decodes_i64 n :
  - 2 ^ 63 ≤ n < 2 ^ 63 → decodes (B:=B) (E:=string) get_i64 (be_bytes 8 n) n.
Proof.
  intros Hn. eapply decodes_reads; [apply get_i64_reads|apply length_be_bytes|].
  simpl. rewrite be_value_bytes. change (256 ^ Z.of_nat 8) with (2 ^ 64).
  by apply (to_signed_roundtrip 64).
Qed.

Lemma decodes_read_cstr s : x00 ∉ s → decodes (B:=B) read_cstr (cstr s) s.
Proof. intros Hs. apply (decodes_cstr_bytes s (λ r, mret r)); [done|apply decodes_ret]. Qed.

Definition enc_field (key : string) (len : Z) (value : bytes) : bytes :=
  cstr (String.list_byte_of_string key) ++ be_bytes 4 len ++ value.

Lemma decodes_get_field {A} n (get : ST B string A) enc a :
  0 ≤ n < 2 ^ 31 → decodes get enc a → decodes (get_field n get) (be_bytes 4 n ++ enc) a.
Proof.
  intros Hn Hg. eapply decodes_bind; [by apply decodes_i32|].
  intros b t Hb. destruct (Hg b t Hb) as (b' & E1 & V1). exists b'.
  unfold mbind, ST_bind, st_assert. by rewrite Z.eqb_refl.
Qed.

(** Reading the key of a field; a missing terminator would panic. *)
Lemma decodes_key {A} key (k : bytes → ST B string A) enc a :
  x00 ∉ String.list_byte_of_string key →
  decodes (k (String.list_byte_of_string key)) enc a →
  decodes (x ← (λ b, match read_cstr b with (Err _, b') => (Panic, b') | r => r end); k x)
    (cstr (String.list_byte_of_string key) ++ enc) a.
Proof.
  intros Hk Hd. eapply decodes_bind; [|exact Hd].
  intros b t Hb. destruct (decodes_read_cstr _ Hk b t Hb) as (b' & E1 & V1).
  exists b'. by rewrite E1.
Qed.

(** One field of the feedback, by its key. *)
Lemma decodes_field_u64 rf key x (upd : PageserverFeedback) :
  (key, upd) ∈ [("current_timeline_size"%string, rf <| pf_current_timeline_size := x |>);
                ("ps_writelsn"%string, rf <| pf_last_received_lsn := x |>);
                ("ps_flushlsn"%string, rf <| pf_disk_consistent_lsn := x |>);
                ("ps_applylsn"%string, rf <| pf_remote_consistent_lsn := x |>)] →
  in_u 64 x →
  decodes (B:=B) (parse_field rf) (enc_field key 8 (be_bytes 8 x)) upd.
Proof.
  intros Hin Hx.
  assert (Hget : decodes (B:=B) (E:=string) get_u64 (be_bytes 8 x) x).
  { eapply decodes_reads; [apply get_u64_reads|apply length_be_bytes|by apply (be_roundtrip _ 64)]. }
  rewrite !elem_of_cons in Hin.
  destruct Hin as [[= -> ->]|[[= -> ->]|[[= -> ->]|[[= -> ->]|[]%elem_of_nil]]]];
    (apply decodes_key; [by apply (bool_decide_unpack _)|]);
    (eapply decodes_bind_r; [apply decodes_get_field; [lia|exact Hget]|apply decodes_ret]).
Qed.
Lemma decodes_field_time rf x :
  0 ≤ x < 2 ^ 63 →
  decodes (B:=B) (parse_field rf) (enc_field "ps_replytime" 8 (be_bytes 8 x))
    (rf <| pf_replytime := x |>).
Proof.
  intros Hx. apply decodes_key; [by apply (bool_decide_unpack _)|].
  eapply decodes_bind_r; [apply decodes_get_field; [lia|apply decodes_i64; lia]|apply decodes_ret].
Qed.

Lemma decodes_field_shard rf x :
  in_u 32 x →
  decodes (B:=B) (parse_field rf) (enc_field "shard_number" 4 (be_bytes 4 x))
    (rf <| pf_shard_number := x |>).
Proof.
  intros Hx. apply decodes_key; [by apply (bool_decide_unpack _)|].
  eapply decodes_bind_r; [apply decodes_get_field; [lia|]|apply decodes_ret].
  eapply decodes_reads; [apply get_u32_reads|apply length_be_bytes|by apply (be_roundtrip _ 32)].
Qed.

(** The fields of a feedback, in the order they are written. *)
Definition enc_feedback_fields (f : PageserverFeedback) : list bytes :=
  [enc_field "current_timeline_size" 8 (be_bytes 8 (pf_current_timeline_size f));
   enc_field "ps_writelsn" 8 (be_bytes 8 (pf_last_received_lsn f));
   enc_field "ps_flushlsn" 8 (be_bytes 8 (pf_disk_consistent_lsn f));
   enc_field "ps_applylsn" 8 (be_bytes 8 (pf_remote_consistent_lsn f));
   enc_field "ps_replytime" 8 (be_bytes 8 (pf_replytime f))]
  ++ (if 0 <? pf_shard_number f
      then [enc_field "shard_number" 4 (be_bytes 4 (pf_shard_number f))] else []).

Definition enc_feedback (f : PageserverFeedback) : bytes :=
  be_bytes 1 (Z.of_nat (length (enc_feedback_fields f))) ++ concat (enc_feedback_fields f).

(** Feedback of machine words, at or after the Postgres epoch. *)
Definition feedback_ok (f : PageserverFeedback) : Prop :=
  in_u 64 (pf_current_timeline_size f) ∧ in_u 64 (pf_last_received_lsn f)
  ∧ in_u 64 (pf_disk_consistent_lsn f) ∧ in_u 64 (pf_remote_consistent_lsn f)
  ∧ 0 ≤ pf_replytime f < 2 ^ 63 ∧ in_u 32 (pf_shard_number f).

Ltac key_in := first [apply list_elem_of_here | apply list_elem_of_further; key_in].

Lemma decodes_feedback f :
  feedback_ok f → decodes (B:=B) PageserverFeedback_parse (enc_feedback f) f.
Proof.
  intros (H1 & H2 & H3 & H4 & H5 & H6). unfold PageserverFeedback_parse, enc_feedback.
  eapply decodes_bind.
  { eapply decodes_reads; [apply get_u8_reads|apply length_be_bytes|].
    apply (be_roundtrip _ 8); [done|]. unfold enc_feedback_fields. by case_match. }
  rewrite Nat2Z.id. unfold enc_feedback_fields.
  destruct (Z.ltb_spec 0 (pf_shard_number f)) as [Hs|Hs];
    cbn [length app concat parse_fields].
  - do 4 (eapply decodes_bind; [apply decodes_field_u64; [key_in|done]|]).
    eapply decodes_bind; [by apply decodes_field_time|].
    eapply decodes_bind; [by apply decodes_field_shard|]. destruct f. apply decodes_ret.
  - do 4 (eapply decodes_bind; [apply decodes_field_u64; [key_in|done]|]).
    eapply decodes_bind; [by apply decodes_field_time|].
    destruct f as [? ? ? ? ? sn]. simpl in *. unfold in_u in H6.
    replace sn with 0 by lia. apply decodes_ret.
Qed.
End feedback.

(** ** What is written *)

Section writes.
Context {M : Type} `{BufMutLaws M}.
Implicit Types buf : M.

Lemma put_each_view {A} (f : A → M → M) (enc : A → bytes) (P : A → Prop) l buf :
  (∀ a buf, P a → bufmut_view (f a buf) = bufmut_view buf ++ enc a) → Forall P l →
  bufmut_view (put_each f l buf) = bufmut_view buf ++ concat (enc <$> l).
Proof.
  intros Hf Hl. revert buf. induction Hl as [|a l Ha _ IH]; intros buf; simpl.
  - by rewrite app_nil_r.
  - unfold put_each in *. simpl. rewrite IH, Hf by done. by rewrite <- app_assoc.
Qed.

Lemma put_cstr_view s buf : bufmut_view (put_cstr s buf) = bufmut_view buf ++ cstr s.
Proof.
  unfold put_cstr, cstr. autorewrite with buf_view. rewrite <- app_assoc. do 2 f_equal.
Qed.

Lemma put_members_view (s : MemberSet) buf :
  mset_ok s →
  bufmut_view (put_each put_member (ms_m s)
    (put_u32 (wrap 32 (Z.of_nat (length (ms_m s)))) buf))
  = bufmut_view buf ++ enc_members (ms_m s).
Proof.
  intros (Hok & _ & Hlen). erewrite put_each_view; [..|exact Hok].
  - rewrite put_u32_view, (wrap_small _ _ Hlen), <- app_assoc. done.
  - intros sk buf' _. unfold put_member, enc_member.
    rewrite put_u16_view, put_cstr_view, put_u64_view. by rewrite <- !app_assoc.
Qed.

Lemma serialize_mconf_view c buf :
  mconf_ok c → bufmut_view (serialize_mconf c buf) = bufmut_view buf ++ enc_mconf c.
Proof.
  intros (Hgen & Hms & _ & Hnew). unfold serialize_mconf, enc_mconf.
  destruct (cfg_new_members c) as [s|].
  - destruct Hnew as [Hs _]. rewrite !put_members_view, put_u32_view by done.
    by rewrite <- !app_assoc.
  - rewrite put_u32_view, put_members_view, put_u32_view by done. by rewrite <- !app_assoc.
Qed.

Lemma put_field_view key len put value buf :
  (∀ buf, bufmut_view (put buf) = bufmut_view buf ++ value) →
  bufmut_view (put_field key len put buf) = bufmut_view buf ++ enc_field key len value.
Proof.
  intros Hput. unfold put_field, enc_field. rewrite Hput, put_i32_view, put_cstr_view.
  by rewrite <- !app_assoc.
Qed.

Lemma PageserverFeedback_serialize_view f buf :
  feedback_ok f →
  ∃ buf', PageserverFeedback_serialize f buf = Ok buf'
          ∧ bufmut_view buf' = bufmut_view buf ++ enc_feedback f.
Proof.
  intros (_ & _ & _ & _ & Ht & _). unfold PageserverFeedback_serialize.
  rewrite (proj2 (Z.ltb_ge _ _)) by lia.
  rewrite (to_signed_roundtrip 64) by lia.
  unfold enc_feedback, enc_feedback_fields.
  destruct (0 <? pf_shard_number f); (eexists; split; [done|]);
    cbn [length app concat]; rewrite bufmut_set_view;
    repeat (erewrite put_field_view; [|intros; first [apply put_u32_view|apply put_i64_view|apply put_u64_view]]);
    rewrite put_u8_view, !be_bytes_1, <- !app_assoc;
    rewrite insert_app_r_alt, Nat.sub_diag by lia; simpl; by rewrite ?app_nil_r.
Qed.

(** The C side.  [pq_send_ascii_string] copies ASCII text and terminates it. *)
Definition ascii (s : bytes) : Prop := Forall (λ b, byte_val b < 128) s.

Variable pq_send_ascii_string : bytes → M → M.
Hypothesis pq_send_ascii_string_view : ∀ s buf,
  ascii s → x00 ∉ s →
  bufmut_view (pq_send_ascii_string s buf) = bufmut_view buf ++ cstr s.

Definition mset_ascii (s : MemberSet) : Prop := Forall (λ sk, ascii (sk_host sk)) (ms_m s).

Definition mconf_ascii (c : Configuration) : Prop :=
  mset_ascii (cfg_members c)
  ∧ match cfg_new_members c with Some s => mset_ascii s | None => True end.

Lemma send_members_view (s : MemberSet) buf :
  mset_ok s → mset_ascii s →
  bufmut_view (put_each (send_member pq_send_ascii_string) (ms_m s)
    (put_u32 (Z.of_nat (length (ms_m s))) buf))
  = bufmut_view buf ++ enc_members (ms_m s).
Proof.
  intros (Hok & _ & Hlen) Ha.
  erewrite (put_each_view _ enc_member (λ sk, member_ok sk ∧ ascii (sk_host sk))).
  - rewrite put_u32_view, <- app_assoc. done.
  - intros sk buf' [(_ & [Hnul _] & _) Hascii]. unfold send_member, enc_member.
    rewrite put_u16_view, pq_send_ascii_string_view, put_u64_view by done.
    by rewrite <- !app_assoc.
  - by apply Forall_and.
Qed.

Lemma MembershipConfigurationSerialize_view c buf :
  mconf_ok c → mconf_ascii c →
  bufmut_view (MembershipConfigurationSerialize pq_send_ascii_string c buf)
  = bufmut_view buf ++ enc_mconf c.
Proof.
  intros (Hgen & Hms & _ & Hnew) [Ha Hna]. unfold MembershipConfigurationSerialize, enc_mconf.
  destruct (cfg_new_members c) as [s|].
  - destruct Hnew as [Hs _]. rewrite !send_members_view, put_u32_view by done.
    by rewrite <- !app_assoc.
  - rewrite (send_members_view MemberSet_empty), send_members_view, put_u32_view;
      [by rewrite <- !app_assoc|done..| |constructor].
    split_and!; [constructor|constructor|done].
Qed.

Definition msg_ascii (tenant_id timeline_id : bytes) (msg : ProposerAcceptorMessage) : Prop :=
  match msg with
  | PGreeting m => ascii tenant_id ∧ ascii timeline_id ∧ mconf_ascii (pg_mconf m)
  | _ => True
  end.

Lemma PAMessageSerialize_view `{HexCrate} tenant_id timeline_id msg buf :
  sendable tenant_id timeline_id msg → msg_ascii tenant_id timeline_id msg →
  ∃ buf', PAMessageSerialize_v3 pq_send_ascii_string tenant_id timeline_id msg buf = Ok buf'
  ∧ bufmut_view buf' = bufmut_view buf ++ enc_msg tenant_id timeline_id msg.
Proof.
  intros Hs Ha. destruct msg as [m|m|m|m|m|]; try done; (eexists; split; [done|]); simpl.
  - destruct Hs as ([? _] & _ & [? _] & _ & ? & _). destruct Ha as (? & ? & ?).
    rewrite put_u32_view, put_u64_view, put_u32_view, MembershipConfigurationSerialize_view by done.
    rewrite !pq_send_ascii_string_view, put_u8_view by done. by rewrite <- !app_assoc.
  - autorewrite with buf_view. by rewrite <- !app_assoc.
  - destruct Hs as (_ & _ & _ & [Hth _]). erewrite (put_each_view _ enc_entry); [..|exact Hth].
    + autorewrite with buf_view. unfold enc_history. by rewrite <- !app_assoc.
    + intros e buf' _. unfold put_entry, enc_entry. autorewrite with buf_view.
      by rewrite <- app_assoc.
  - autorewrite with buf_view. unfold enc_append_header. by rewrite <- !app_assoc.
Qed.
End writes.

(** ** Theorems *)

Section roundtrip.
Context {B M : Type} `{BufLaws B} `{BufMutLaws M}.
Context `{HexCrate}.
Variable greeting_v2 : ST B string ProposerGreetingV2.
Variable vote_v2 : ST B string VoteRequestV2.
Variable append_v2 : ST B string AppendRequestHeaderV2.
Variable pq_send_ascii_string : bytes → M → M.
Hypothesis pq_send_ascii_string_view : ∀ s buf,
  ascii s → x00 ∉ s →
  bufmut_view (pq_send_ascii_string s buf) = bufmut_view buf ++ cstr s.

(** C34: The safekeeper reads what the walproposer wrote: every message a proposer
    can send is serialized by the C code without error, and parsing the bytes
    gives the message back and leaves nothing unread. *)
Theorem parse_PAMessageSerialize tenant_id timeline_id msg (buf : M) (b : B) :
  bufmut_view buf = [] →
  sendable tenant_id timeline_id msg → msg_ascii tenant_id timeline_id msg →
  ∃ buf', PAMessageSerialize_v3 pq_send_ascii_string tenant_id timeline_id msg buf = Ok buf'
  ∧ (buf_view b = bufmut_view buf' →
     ∃ b', parse greeting_v2 vote_v2 append_v2 SK_PROTO_VERSION_3 b = (Ok msg, b')
           ∧ buf_view b' = []).
Proof.
  intros Hbuf Hs Ha.
  destruct (PAMessageSerialize_view _ pq_send_ascii_string_view _ _ _ buf Hs Ha)
    as (buf' & Hrun & Hview).
  exists buf'. split; [done|]. intros Hb. rewrite Hbuf in Hview. simpl in Hview.
  apply (decodes_msg _ _ _ _ _ _ Hs). by rewrite app_nil_r, Hb.
Qed.

(** A configuration written by a safekeeper reads back as it was. *)
Theorem get_mconf_serialize_mconf (c : Configuration) (buf : M) (b : B) (rest : bytes) :
  mconf_ok c → bufmut_view buf = [] →
  buf_view b = bufmut_view (serialize_mconf c buf) ++ rest →
  ∃ b', get_mconf b = (Ok c, b') ∧ buf_view b' = rest.
Proof.
  intros Hc Hbuf Hb. rewrite serialize_mconf_view, Hbuf in Hb by done.
  by apply (decodes_mconf c Hc).
Qed.

(** Feedback reads back as it was written, with or without a shard number. *)
Theorem PageserverFeedback_roundtrip (f : PageserverFeedback) (buf : M) (b : B) :
  feedback_ok f → bufmut_view buf = [] →
  ∃ buf', PageserverFeedback_serialize f buf = Ok buf'
  ∧ (buf_view b = bufmut_view buf' →
     ∃ b', PageserverFeedback_parse b = (Ok f, b') ∧ buf_view b' = []).
Proof.
  intros Hf Hbuf. destruct (PageserverFeedback_serialize_view f buf Hf) as (buf' & Hrun & Hv).
  exists buf'. split; [done|]. intros Hb. apply (decodes_feedback f Hf).
  by rewrite app_nil_r, Hb, Hv, Hbuf.
Qed.
End roundtrip.

(** ** Messages on byte strings *)

#[local] Existing Instance hex_decode_to_slice.

Definition test_id_str : bytes :=
  String.list_byte_of_string "1f359dd625e519a1a4e8d7509690f6fc".

Definition test_greeting : ProposerGreeting := {|
  pg_tenant_id := match id_from_str test_id_str with Ok i => i | _ => [] end;
  pg_timeline_id := match id_from_str test_id_str with Ok i => i | _ => [] end;
  pg_mconf := {|
    cfg_generation := 3;
    cfg_members := {| ms_m := [ {| sk_id := 1; sk_host := String.list_byte_of_string "sk1";
                                   sk_pg_port := 5454 |} ] |};
    cfg_new_members := None |};
  pg_pg_version := 170002;
  pg_system_id := 7;
  pg_wal_seg_size := 16777216;
|}.

Lemma ascii_test (s : bytes) :
  forallb (λ b, byte_val b <? 128) s = true → ascii s.
Proof.
  intros Hs. apply forallb_true_Forall in Hs. eapply Forall_impl; [exact Hs|].
  intros b Hb. by apply Z.ltb_lt.
Qed.

Lemma parse_PAMessageSerialize_witness :
  ∃ buf', PAMessageSerialize_v3 (M:=bytes) (λ s buf, buf ++ s ++ [x00]) test_id_str test_id_str
            (PGreeting test_greeting) [] = Ok buf'
  ∧ ∃ b', parse (B:=bytes) (st_fail "v2"%string) (st_fail "v2"%string)
            (st_fail "v2"%string) SK_PROTO_VERSION_3 buf' = (Ok (PGreeting test_greeting), b')
          ∧ b' = [].
Proof.
  assert (Hid : cstr_ok test_id_str) by (split; [by apply (bool_decide_unpack _)|by vm_compute]).
  assert (Ha : ascii test_id_str) by (apply ascii_test; by vm_compute).
  assert (Hpq : ∀ s (buf : bytes), ascii s → x00 ∉ s →
    bufmut_view (buf ++ s ++ [x00]) = bufmut_view buf ++ cstr s) by done.
  destruct (parse_PAMessageSerialize (B:=bytes) (M:=bytes) (st_fail "v2"%string)
    (st_fail "v2"%string) (st_fail "v2"%string) (λ s buf, buf ++ s ++ [x00])
    Hpq test_id_str test_id_str (PGreeting test_greeting) []
    (match PAMessageSerialize_v3 (M:=bytes) (λ s buf, buf ++ s ++ [x00]) test_id_str test_id_str
            (PGreeting test_greeting) [] with Ok b => b | _ => [] end)) as (buf' & Hrun & Hp).
  - done.
  - split_and!; try done.
    + unfold mconf_ok, mset_ok, MemberSet_wf. simpl.
      split_and!; try done; repeat constructor; try done; try by vm_compute.
      all: try (by apply (bool_decide_unpack _)); set_solver.
  - split_and!; try done. split; [|done]. repeat constructor. 
    all: by apply ascii_test; vm_compute.
  - exists buf'. split; [exact Hrun|]. rewrite Hrun in Hp. by apply Hp.
Defined.

Definition test_mconf : Configuration := {|
  cfg_generation := 3;
  cfg_members := {| ms_m := [ {| sk_id := 1; sk_host := [x61]; sk_pg_port := 5454 |} ] |};
  cfg_new_members := Some {| ms_m := [ {| sk_id := 2; sk_host := [x62]; sk_pg_port := 1 |} ] |};
|}.

Lemma get_mconf_serialize_mconf_witness :
  ∃ b', get_mconf (B:=bytes) (serialize_mconf (M:=bytes) test_mconf [] ++ [x07])
        = (Ok test_mconf, b') ∧ buf_view b' = [x07].
Proof.
  apply (get_mconf_serialize_mconf (B:=bytes) (M:=bytes) test_mconf []
    (serialize_mconf (M:=bytes) test_mconf [] ++ [x07]) [x07]); [|done|done].
  unfold mconf_ok, mset_ok, MemberSet_wf. simpl.
  split_and!; try done; repeat constructor; try done; try by vm_compute.
  all: try (by apply (bool_decide_unpack _)); set_solver.
Defined.

Definition test_feedback : PageserverFeedback := {|
  pf_current_timeline_size := 12345678; pf_last_received_lsn := 23; pf_disk_consistent_lsn := 5;
  pf_remote_consistent_lsn := 4; pf_replytime := 1000; pf_shard_number := 1;
|}.

Lemma PageserverFeedback_roundtrip_witness :
  ∃ buf' b', PageserverFeedback_serialize (M:=bytes) test_feedback [] = Ok buf'
  ∧ PageserverFeedback_parse (B:=bytes) buf' = (Ok test_feedback, b') ∧ buf_view b' = [].
Proof.
  destruct (PageserverFeedback_roundtrip (B:=bytes) (M:=bytes) test_feedback []
    (match PageserverFeedback_serialize (M:=bytes) test_feedback [] with Ok b => b | _ => [] end))
    as (buf' & Hrun & Hp); [by vm_compute|done|].
  rewrite Hrun in Hp. destruct (Hp eq_refl) as (b' & ? & ?). by exists buf', b'.
Defined.
