(* ===== verification/Key.v ===== *)
(** * Storage keys

    [libs/pageserver_api/src/key.rs]: the 18-byte keys of the pageserver's
    key-value store, their order, arithmetic and encodings (i128, bytes, hex),
    and the layout of the key space: which keys hold relation blocks, SLRU
    blocks, sizes, directories and metadata. *)

From S2P Require Import Prelude Bytes Text.

Record Key := mkKey {
  field1 : Z;
  field2 : Z;
  field3 : Z;
  field4 : Z;
  field5 : Z;
  field6 : Z;
}.

#[export] Instance Key_eq_dec : EqDecision Key.
Proof. solve_decision. Defined.
#[export] Instance Key_settable : Settable Key := λ k,
  mkKey (field1 k) (field2 k) (field3 k) (field4 k) (field5 k) (field6 k).

(** The derived [Ord]: lexicographic on the fields. *)
Definition Key_cmp (a b : Key) : comparison :=
  match field1 a ?= field1 b with
  | Eq => match field2 a ?= field2 b with
    | Eq => match field3 a ?= field3 b with
      | Eq => match field4 a ?= field4 b with
        | Eq => match field5 a ?= field5 b with
          | Eq => field6 a ?= field6 b
          | c => c end
        | c => c end
      | c => c end
    | c => c end
  | c => c end.

Definition Key_ltb (a b : Key) : bool := match Key_cmp a b with Lt => true | _ => false end.
Definition Key_leb (a b : Key) : bool := match Key_cmp a b with Gt => false | _ => true end.
Definition Key_max (a b : Key) : Key := if Key_ltb b a then a else b.
Definition Key_min (a b : Key) : Key := if Key_ltb b a then b else a.

(** [Range<Key>] *)
Record KeyRange := mkRange { r_start : Key; r_end : Key }.

#[export] Instance KeyRange_eq_dec : EqDecision KeyRange.
Proof. solve_decision. Defined.
#[export] Instance KeyRange_settable : Settable KeyRange := λ r, mkRange (r_start r) (r_end r).

(** [Range::contains] *)
Definition range_contains (r : KeyRange) (k : Key) : bool :=
  Key_leb (r_start r) k && Key_ltb k (r_end r).

Definition KEY_SIZE : Z := 18.
Definition METADATA_KEY_SIZE : Z := 16.
Definition METADATA_KEY_BEGIN_PREFIX : Z := 96.
Definition METADATA_KEY_END_PREFIX : Z := 127.
Definition RELATION_SIZE_PREFIX : Z := 97.
Definition AUX_KEY_PREFIX : Z := 98.
Definition REPL_ORIGIN_KEY_PREFIX : Z := 99.
Definition DB_DIR_KEY_PREFIX : Z := 100.
Definition REL_DIR_KEY_PREFIX : Z := 101.

(** ** Markers of relation directory entries *)

Inductive RelDirExists := Exists | Removed.

Definition REL_EXISTS_MARKER : bytes := [x72].
Definition SPARSE_TOMBSTONE_MARKER : bytes := [].

Definition RelDirExists_encode (self : RelDirExists) : bytes :=
  match self with Exists => REL_EXISTS_MARKER | Removed => SPARSE_TOMBSTONE_MARKER end.

Definition RelDirExists_decode_option (data : option bytes) : outcome unit RelDirExists :=
  match data with
  | Some marker => if bool_decide (marker = REL_EXISTS_MARKER) then Ok Exists else Err tt
  | None => Ok Removed
  end.

Definition RelDirExists_decode (data : bytes) : outcome unit RelDirExists :=
  if bool_decide (data = REL_EXISTS_MARKER) then Ok Exists
  else if bool_decide (data = SPARSE_TOMBSTONE_MARKER) then Ok Removed
  else Err tt.

(** ** Encodings *)

(** [key[0]] of an empty slice panics. *)
Definition is_metadata_key_slice (key : bytes) : outcome unit bool :=
  b ← unwrap (head key);
  Ok ((METADATA_KEY_BEGIN_PREFIX <=? byte_val b) && (byte_val b <? METADATA_KEY_END_PREFIX)).

Definition Key_is_metadata_key (self : Key) : bool :=
  (METADATA_KEY_BEGIN_PREFIX <=? field1 self) && (field1 self <? METADATA_KEY_END_PREFIX).

Definition is_i128_representable (self : Key) : bool :=
  (field2 self <=? 65535) || (field2 self =? 4294967295) || (field2 self =? 572662306).

Definition Key_is_valid_key_on_write_path (self : Key) : bool := is_i128_representable self.

Definition GLOBALTABLESPACE_OID : Z := 1664.
Definition DEFAULTTABLESPACE_OID : Z := 1663.

Definition Key_is_valid_key_on_write_path_strong (self : Key) : bool :=
  if negb (is_i128_representable self) then false
  else if (field1 self =? 0)
          && negb ((field2 self =? GLOBALTABLESPACE_OID) || (field2 self =? DEFAULTTABLESPACE_OID)
                   || (field2 self =? 0))
  then false else true.

Definition Key_to_i128 {E} (self : Key) : outcome E Z :=
  if negb (is_i128_representable self) then Panic
  else Ok (Z.lor (Z.shiftl (Z.land (field1 self) 127) 120)
          (Z.lor (Z.shiftl (Z.land (field2 self) 65535) 104)
          (Z.lor (Z.shiftl (field3 self) 72)
          (Z.lor (Z.shiftl (field4 self) 40)
          (Z.lor (Z.shiftl (field5 self) 32) (field6 self)))))).

Definition Key_from_i128 (x : Z) : Key := {|
  field1 := wrap 8 (Z.land (Z.shiftr x 120) 127);
  field2 := wrap 32 (Z.land (Z.shiftr x 104) 65535);
  field3 := wrap 32 (Z.shiftr x 72);
  field4 := wrap 32 (Z.shiftr x 40);
  field5 := wrap 8 (Z.shiftr x 32);
  field6 := wrap 32 x;
|}.

(** The key must be 16 bytes; [i128::from_be_bytes]. *)
Definition Key_from_metadata_key_fixed_size (key : bytes) : outcome unit Key :=
  b ← is_metadata_key_slice key;
  if negb b then Panic else Ok (Key_from_i128 (to_signed 128 (be_value key))).

Definition Key_from_metadata_key (key : bytes) : outcome unit Key :=
  if bool_decide (length key = 16%nat) then Key_from_metadata_key_fixed_size key else Panic.

(** The assertion fails past the last key. *)
Definition Key_add {E} (self : Key) (x : Z) : outcome E Key :=
  let r := overflowing_add 32 (field6 self) x in
  let key := self <| field6 := r.1 |> in
  if negb r.2 then Ok key else
  let r := overflowing_add 8 (field5 key) 1 in
  let key := key <| field5 := r.1 |> in
  if negb r.2 then Ok key else
  let r := overflowing_add 32 (field4 key) 1 in
  let key := key <| field4 := r.1 |> in
  if negb r.2 then Ok key else
  let r := overflowing_add 32 (field3 key) 1 in
  let key := key <| field3 := r.1 |> in
  if negb r.2 then Ok key else
  let r := overflowing_add 32 (field2 key) 1 in
  let key := key <| field2 := r.1 |> in
  if negb r.2 then Ok key else
  let r := overflowing_add 8 (field1 key) 1 in
  let key := key <| field1 := r.1 |> in
  if negb r.2 then Ok key else Panic.

Definition Key_next {E} (self : Key) : outcome E Key := Key_add self 1.

(** [CompactKey] wraps the i128. *)
Record CompactKey := { raw : Z }.

Definition Key_to_compact {E} (self : Key) : outcome E CompactKey :=
  x ← Key_to_i128 self; Ok {| raw := x |}.
Definition Key_from_compact (k : CompactKey) : Key := Key_from_i128 (raw k).

(** [b[lo..hi]]; out of range panics. *)
Definition byte_slice {E} (b : bytes) (lo hi : nat) : outcome E bytes :=
  if bool_decide (hi ≤ length b)%nat then Ok (take (hi - lo) (drop lo b)) else Panic.

Definition Key_from_slice {E} (b : bytes) : outcome E Key :=
  f1 ← byte_slice b 0 1;
  f2 ← byte_slice b 1 5;
  f3 ← byte_slice b 5 9;
  f4 ← byte_slice b 9 13;
  f5 ← byte_slice b 13 14;
  f6 ← byte_slice b 14 18;
  Ok {| field1 := be_value f1; field2 := be_value f2; field3 := be_value f3;
        field4 := be_value f4; field5 := be_value f5; field6 := be_value f6 |}.

(** Writes over the first 18 bytes of a buffer. *)
Definition Key_write_to_byte_slice {E} (self : Key) (buf : bytes) : outcome E bytes :=
  if bool_decide (18 ≤ length buf)%nat then
    Ok (be_bytes 1 (field1 self) ++ be_bytes 4 (field2 self) ++ be_bytes 4 (field3 self)
        ++ be_bytes 4 (field4 self) ++ be_bytes 1 (field5 self) ++ be_bytes 4 (field6 self)
        ++ drop 18 buf)
  else Panic.

(** [{:02X}{:08X}{:08X}{:08X}{:02X}{:08X}] *)
Definition Key_display (self : Key) : str :=
  pad_zero 2 (fmt_upper_hex (field1 self)) ++ pad_zero 8 (fmt_upper_hex (field2 self))
  ++ pad_zero 8 (fmt_upper_hex (field3 self)) ++ pad_zero 8 (fmt_upper_hex (field4 self))
  ++ pad_zero 2 (fmt_upper_hex (field5 self)) ++ pad_zero 8 (fmt_upper_hex (field6 self)).

Definition Key_MIN : Key := mkKey 0 0 0 0 0 0.
Definition Key_MAX : Key := mkKey u8_max u32_max u32_max u32_max u8_max u32_max.

(** [u8::from_str_radix(&s[lo..hi], 16)?], or u32. *)
Definition hex_field (s : list Z) (w : Z) (lo hi : nat) : outcome string Z :=
  part ← str_slice s lo hi; ok_or (from_str_radix16 w part) "invalid digit"%string.

(** [s] is the list of the UTF-8 code units of the text. *)
Definition Key_from_hex (s : list Z) : outcome string Key :=
  if negb (bool_decide (length s = 36%nat)) then Err "parse error"%string
  else
    f1 ← hex_field s 8 0 2;
    f2 ← hex_field s 32 2 10;
    f3 ← hex_field s 32 10 18;
    f4 ← hex_field s 32 18 26;
    f5 ← hex_field s 8 26 28;
    f6 ← hex_field s 32 28 36;
    Ok {| field1 := f1; field2 := f2; field3 := f3; field4 := f4; field5 := f5; field6 := f6 |}.

(** ** Layout of the key space *)

(** [reltag.rs] *)
Record RelTag := { forknum : Z; spcnode : Z; dbnode : Z; relnode : Z }.

Inductive SlruKind := Clog | MultiXactMembers | MultiXactOffsets.

#[export] Instance SlruKind_eq_dec : EqDecision SlruKind.
Proof. solve_decision. Defined.

Definition FSM_FORKNUM : Z := 1.
Definition VISIBILITYMAP_FORKNUM : Z := 2.

(** Keys that differ from zero in the first field only. *)
Definition prefix_key (p : Z) : Key := mkKey p 0 0 0 0 0.

Definition metadata_key_range : KeyRange :=
  mkRange (prefix_key METADATA_KEY_BEGIN_PREFIX) (prefix_key METADATA_KEY_END_PREFIX).
Definition metadata_aux_key_range : KeyRange :=
  mkRange (prefix_key AUX_KEY_PREFIX) (prefix_key (AUX_KEY_PREFIX + 1)).
Definition rel_dir_sparse_key_range : KeyRange :=
  mkRange (prefix_key REL_DIR_KEY_PREFIX) (prefix_key (REL_DIR_KEY_PREFIX + 1)).

Definition DBDIR_KEY : Key := mkKey 0 0 0 0 0 0.

Definition dbdir_key_range (spcnode dbnode : Z) : KeyRange :=
  mkRange (mkKey 0 spcnode dbnode 0 0 0) (mkKey 0 spcnode dbnode 4294967295 255 4294967295).

Definition relmap_file_key (spcnode dbnode : Z) : Key := mkKey 0 spcnode dbnode 0 0 0.
Definition rel_dir_to_key (spcnode dbnode : Z) : Key := mkKey 0 spcnode dbnode 0 0 1.

Definition rel_tag_sparse_key (spcnode dbnode relnode forknum : Z) : Key :=
  mkKey REL_DIR_KEY_PREFIX spcnode dbnode relnode forknum 1.

Definition rel_tag_sparse_key_range (spcnode dbnode : Z) : KeyRange :=
  mkRange (mkKey REL_DIR_KEY_PREFIX spcnode dbnode 0 0 0)
          (mkKey REL_DIR_KEY_PREFIX spcnode dbnode u32_max u8_max u32_max).

Definition rel_block_to_key (rel : RelTag) (blknum : Z) : Key :=
  mkKey 0 (spcnode rel) (dbnode rel) (relnode rel) (forknum rel) blknum.

Definition rel_size_to_key (rel : RelTag) : Key :=
  mkKey 0 (spcnode rel) (dbnode rel) (relnode rel) (forknum rel) 4294967295.

Definition Key_is_rel_size_key (self : Key) : bool :=
  (field1 self =? 0) && (field6 self =? u32_max).

Definition rel_key_range (rel : RelTag) : KeyRange :=
  mkRange (mkKey 0 (spcnode rel) (dbnode rel) (relnode rel) (forknum rel) 0)
          (mkKey 0 (spcnode rel) (dbnode rel) (relnode rel) (wrapping_add 8 (forknum rel) 1) 0).

Definition slru_field2 (kind : SlruKind) : Z :=
  match kind with Clog => 0 | MultiXactMembers => 1 | MultiXactOffsets => 2 end.

Definition slru_dir_to_key (kind : SlruKind) : Key := mkKey 1 (slru_field2 kind) 0 0 0 0.

Definition slru_dir_kind (key : Key) : option (outcome Z SlruKind) :=
  if (field1 key =? 1) && (field3 key =? 0) && (field4 key =? 0) && (field5 key =? 0)
     && (field6 key =? 0) then
    if field2 key =? 0 then Some (Ok Clog)
    else if field2 key =? 1 then Some (Ok MultiXactMembers)
    else if field2 key =? 2 then Some (Ok MultiXactOffsets)
    else Some (Err (field2 key))
  else None.

Definition slru_block_to_key (kind : SlruKind) (segno blknum : Z) : Key :=
  mkKey 1 (slru_field2 kind) 1 segno 0 blknum.

Definition slru_segment_size_to_key (kind : SlruKind) (segno : Z) : Key :=
  mkKey 1 (slru_field2 kind) 1 segno 0 4294967295.

Definition Key_is_slru_segment_size_key (self : Key) : bool :=
  (field1 self =? 1) && (field2 self <? 3) && (field3 self =? 1) && (field5 self =? 0)
  && (field6 self =? u32_max).

Definition Key_is_slru_dir_key (self : Key) : bool :=
  match slru_dir_kind self with Some _ => true | None => false end.

Definition slru_segment_key_range (kind : SlruKind) (segno : Z) : KeyRange :=
  mkRange (mkKey 1 (slru_field2 kind) 1 segno 0 0) (mkKey 1 (slru_field2 kind) 1 segno 1 0).

Definition TWOPHASEDIR_KEY : Key := mkKey 2 0 0 0 0 0.

(** The masks of the source, then the narrowing casts. *)
Definition xid_field4 (xid : Z) : Z :=
  wrap 32 (Z.shiftr (Z.land xid 18446742974197923840) 40).
Definition xid_field5 (xid : Z) : Z :=
  wrap 8 (Z.shiftr (Z.land xid 1095216660480) 32).
Definition xid_field6 (xid : Z) : Z := wrap 32 (Z.land xid 4294967295).

Definition twophase_file_key (xid : Z) : Key :=
  mkKey 2 0 0 (xid_field4 xid) (xid_field5 xid) (xid_field6 xid).

Definition twophase_key_range (xid : Z) : KeyRange :=
  let '(next_xid, overflowed) := overflowing_add 64 xid 1 in
  mkRange (mkKey 2 0 0 (xid_field4 xid) (xid_field5 xid) (xid_field6 xid))
          (mkKey 2 0 (Z.b2z overflowed) (xid_field4 next_xid) (xid_field5 next_xid)
             (xid_field6 next_xid)).

Definition CONTROLFILE_KEY : Key := mkKey 3 0 0 0 0 0.
Definition CHECKPOINT_KEY : Key := mkKey 3 0 0 0 0 1.
Definition AUX_FILES_KEY : Key := mkKey 3 0 0 0 0 2.

Definition repl_origin_key (origin_id : Z) : Key :=
  mkKey REPL_ORIGIN_KEY_PREFIX 0 0 0 0 origin_id.
Definition repl_origin_key_range : KeyRange :=
  mkRange (mkKey REPL_ORIGIN_KEY_PREFIX 0 0 0 0 0) (mkKey REPL_ORIGIN_KEY_PREFIX 0 0 0 0 65536).

(** [AUX_FILES_KEY..AUX_FILES_KEY.next()] *)
Definition NON_INHERITED_RANGE : KeyRange := mkRange AUX_FILES_KEY (mkKey 3 0 0 0 0 3).
Definition SPARSE_RANGE : KeyRange := metadata_key_range.

Definition Key_is_sparse (self : Key) : bool :=
  (METADATA_KEY_BEGIN_PREFIX <=? field1 self) && (field1 self <? METADATA_KEY_END_PREFIX).

Definition Key_is_inherited_sparse_key (self : Key) : bool := field1 self =? RELATION_SIZE_PREFIX.

Definition Key_is_inherited_key (self : Key) : bool :=
  if Key_is_sparse self then Key_is_inherited_sparse_key self
  else negb (range_contains NON_INHERITED_RANGE self).

Definition sparse_non_inherited_keyspace : KeyRange :=
  mkRange (prefix_key AUX_KEY_PREFIX) (prefix_key (REPL_ORIGIN_KEY_PREFIX + 1)).

Definition Key_is_rel_fsm_block_key (self : Key) : bool :=
  (field1 self =? 0) && negb (field4 self =? 0) && (field5 self =? FSM_FORKNUM)
  && negb (field6 self =? 4294967295).

Definition Key_is_rel_vm_block_key (self : Key) : bool :=
  (field1 self =? 0) && negb (field4 self =? 0) && (field5 self =? VISIBILITYMAP_FORKNUM)
  && negb (field6 self =? 4294967295).

Definition Key_to_slru_block (self : Key) : outcome string (SlruKind * Z * Z) :=
  if field1 self =? 1 then
    kind ← (if field2 self =? 0 then Ok Clog
            else if field2 self =? 1 then Ok MultiXactMembers
            else if field2 self =? 2 then Ok MultiXactOffsets
            else Err "unrecognized slru kind"%string);
    Ok (kind, field4 self, field6 self)
  else Err "unexpected value kind"%string.

Definition Key_is_slru_block_key (self : Key) : bool :=
  (field1 self =? 1) && (field3 self =? 1) && negb (field6 self =? 4294967295).

Definition Key_is_rel_block_key (self : Key) : bool :=
  (field1 self =? 0) && negb (field4 self =? 0) && negb (field6 self =? 4294967295).

Definition Key_is_rel_dir_key (self : Key) : bool :=
  (field1 self =? 0) && negb (field2 self =? 0) && negb (field3 self =? 0)
  && (field4 self =? 0) && (field5 self =? 0) && (field6 self =? 1).

Definition Key_is_aux_file_key (self : Key) : bool := field1 self =? AUX_KEY_PREFIX.

Definition Key_to_rel_block (self : Key) : outcome Z (RelTag * Z) :=
  if field1 self =? 0 then
    Ok ({| spcnode := field2 self; dbnode := field3 self; relnode := field4 self;
           forknum := field5 self |}, field6 self)
  else Err (field1 self).

(** ** Keys as numbers

    A key is a 144-bit number written big-endian; its order, its successor and
    its encodings are those of the number. *)

Record Key_wf (k : Key) : Prop := {
  wf_field1 : in_u 8 (field1 k);
  wf_field2 : in_u 32 (field2 k);
  wf_field3 : in_u 32 (field3 k);
  wf_field4 : in_u 32 (field4 k);
  wf_field5 : in_u 8 (field5 k);
  wf_field6 : in_u 32 (field6 k);
}.

Definition Key_wfb (k : Key) : bool :=
  bool_decide (in_u 8 (field1 k)) && bool_decide (in_u 32 (field2 k))
  && bool_decide (in_u 32 (field3 k)) && bool_decide (in_u 32 (field4 k))
  && bool_decide (in_u 8 (field5 k)) && bool_decide (in_u 32 (field6 k)).

Lemma Key_wfb_spec k : Key_wfb k = true ↔ Key_wf k.
Proof.
  unfold Key_wfb. rewrite !andb_true_iff, !bool_decide_eq_true.
  split; [intros [[[[[? ?] ?] ?] ?] ?]; by split | intros []; tauto].
Qed.

#[export] Instance Key_wf_dec k : Decision (Key_wf k).
Proof. refine (cast_if (decide (Key_wfb k = true))); by rewrite <- Key_wfb_spec. Defined.

Definition key_value (k : Key) : Z :=
  ((((field1 k * 2 ^ 32 + field2 k) * 2 ^ 32 + field3 k) * 2 ^ 32 + field4 k) * 2 ^ 8
   + field5 k) * 2 ^ 32 + field6 k.

Ltac key_bounds :=
  repeat match goal with H : Key_wf _ |- _ => destruct H end;
  unfold in_u in *; simpl in *;
  change (2 ^ 8) with 256 in *; change (2 ^ 32) with 4294967296 in *;
  change (2 ^ 64) with 18446744073709551616 in *.

(** Comparing two numbers written with a digit below [n] compares the higher
    parts first. *)
Lemma compare_digit n h1 h2 l1 l2 :
  0 ≤ l1 < n → 0 ≤ l2 < n →
  (h1 * n + l1 ?= h2 * n + l2) = match h1 ?= h2 with Eq => l1 ?= l2 | c => c end.
Proof.
  intros H1 H2. destruct (Z.compare_spec h1 h2) as [->|Hlt|Hgt].
  - destruct (Z.compare_spec l1 l2); [apply Z.compare_eq_iff | apply Z.compare_lt_iff
      | apply Z.compare_gt_iff]; lia.
  - apply Z.compare_lt_iff. nia.
  - apply Z.compare_gt_iff. nia.
Qed.

(** The derived order is the order of the numbers. *)
Lemma Key_cmp_value a b :
  Key_wf a → Key_wf b → Key_cmp a b = (key_value a ?= key_value b).
Proof.
  intros [] []. unfold Key_cmp, key_value, in_u in *.
  rewrite !compare_digit by done.
  by repeat case_match.
Qed.

Lemma Key_ltb_value a b :
  Key_wf a → Key_wf b → Key_ltb a b = (key_value a <? key_value b).
Proof. intros. unfold Key_ltb. by rewrite Key_cmp_value. Qed.

Lemma Key_leb_value a b :
  Key_wf a → Key_wf b → Key_leb a b = (key_value a <=? key_value b).
Proof. intros. unfold Key_leb. by rewrite Key_cmp_value. Qed.

Lemma key_value_bound k : Key_wf k → 0 ≤ key_value k < 2 ^ 144.
Proof. intros H. unfold key_value. change (2 ^ 144) with (256 * 4294967296 * 4294967296 * 4294967296 * 256 * 4294967296). key_bounds. lia. Qed.

Lemma Key_cmp_eq a b : Key_cmp a b = Eq → a = b.
Proof.
  unfold Key_cmp. destruct a, b; simpl. intros E.
  repeat match goal with
  | H : context [match ?x ?= ?y with _ => _ end] |- _ =>
      destruct (Z.compare_spec x y); [|done|done]
  end.
  apply Z.compare_eq_iff in E. by subst.
Qed.

Lemma key_value_inj a b : Key_wf a → Key_wf b → key_value a = key_value b → a = b.
Proof.
  intros Ha Hb E. apply Key_cmp_eq. rewrite Key_cmp_value by done. by apply Z.compare_eq_iff.
Qed.

Lemma range_contains_value r k :
  Key_wf (r_start r) → Key_wf (r_end r) → Key_wf k →
  range_contains r k = true ↔ key_value (r_start r) ≤ key_value k < key_value (r_end r).
Proof.
  intros. unfold range_contains.
  rewrite Key_leb_value, Key_ltb_value, andb_true_iff by done. lia.
Qed.

(** ** Arithmetic *)

Lemma overflowing_add_spec w x y :
  0 ≤ w → in_u w x → 0 ≤ y ≤ 2 ^ w →
  match overflowing_add w x y with
  | (r, c) => in_u w r ∧ x + y = r + Z.b2z c * 2 ^ w
  end.
Proof.
  intros Hw Hx Hy. unfold overflowing_add. split; [by apply wrap_in_u|].
  unfold wrap, in_u in *. destruct (Z.leb_spec (2 ^ w) (x + y)); cbn [Z.b2z].
  - rewrite <- (Z.mod_unique_pos (x + y) (2 ^ w) 1 (x + y - 2 ^ w)); lia.
  - rewrite Z.mod_small; lia.
Qed.

(** What [add] promises: the number grows by [x], and it panics exactly past the
    last key. *)
Definition add_result (k : Key) (x : Z) (r : outcome unit Key) : Prop :=
  match r with
  | Ok k' => Key_wf k' ∧ key_value k' = key_value k + x
  | Err _ => False
  | Panic => 2 ^ 144 ≤ key_value k + x
  end.

Ltac carry :=
  match goal with
  | |- context [overflowing_add ?w ?f ?y] =>
      let H := fresh in
      pose proof (overflowing_add_spec w f y ltac:(done) ltac:(done)
                    ltac:(unfold in_u in *; lia)) as H;
      destruct (overflowing_add w f y) as [? []]; cbn [fst snd negb Z.b2z] in *;
      destruct H
  end.

Lemma Key_add_value k x : Key_wf k → in_u 32 x → add_result k x (Key_add k x).
Proof.
  intros Hk Hx. destruct k as [f1 f2 f3 f4 f5 f6].
  unfold Key_add, add_result, key_value.
  change (2 ^ 144) with (256 * 4294967296 * 4294967296 * 4294967296 * 256 * 4294967296).
  destruct Hk as [H1 H2 H3 H4 H5 H6]; simpl in H1, H2, H3, H4, H5, H6. cbv beta zeta. cbn -[overflowing_add key_value].
  do 6 (carry; [|split; [by split|]; key_bounds; lia]).
  key_bounds; lia.
Qed.

(** Adding to a key adds to its number, carrying across the fields; the source
    panics exactly when the last key is passed.  In particular [next] is the
    immediate successor in the order of keys. *)
Theorem Key_add_spec (k : Key) (x : Z) (Hk : Key_wf k) (Hx : in_u 32 x) :
  match Key_add (E := unit) k x with
  | Ok k' => Key_wf k' ∧ key_value k' = key_value k + x
             ∧ (x = 1 → ∀ j, Key_wf j → Key_ltb k j = true → Key_leb k' j = true)
  | Err _ => False
  | Panic => 2 ^ 144 ≤ key_value k + x
  end.
Proof.
  pose proof (Key_add_value k x Hk Hx) as H. unfold add_result in H.
  destruct (Key_add k x) as [k'| |]; [|done|done]. destruct H as [Hk' Hv].
  split_and!; [done|done|]. intros -> j Hj.
  rewrite Key_ltb_value, Key_leb_value by done. lia.
Qed.

Lemma Key_add_spec_witness :
  Key_add (E := unit) (mkKey 0 1663 5 16384 0 4294967295) 2 = Ok (mkKey 0 1663 5 16384 1 1)
  ∧ key_value (mkKey 0 1663 5 16384 1 1) = key_value (mkKey 0 1663 5 16384 0 4294967295) + 2.
Proof.
  split; [reflexivity|].
  assert (Hk : Key_wf (mkKey 0 1663 5 16384 0 4294967295)) by by apply Key_wfb_spec.
  assert (Hx : in_u 32 2) by (unfold in_u; lia).
  destruct (Key_add_spec _ 2 Hk Hx) as (_ & H & _). exact H.
Defined.

(** ** Encodings *)

Lemma lor_shiftl_add a b n :
  0 ≤ n → 0 ≤ b < 2 ^ n → Z.lor (Z.shiftl a n) b = a * 2 ^ n + b.
Proof.
  intros Hn Hb. rewrite Z.shiftl_mul_pow2 by done.
  rewrite <- Z.lxor_lor, <- Z.add_nocarry_lxor; try done.
  all: apply Z.bits_inj'; intros i Hi; rewrite Z.land_spec, Z.bits_0.
  all: destruct (Z.ltb_spec i n);
    [rewrite Z.mul_pow2_bits_low by lia; done
    | rewrite <- (Z.mod_small b (2 ^ n)), Z.mod_pow2_bits_high by lia; apply andb_false_r].
Qed.

(** Keys whose first field has no sign bit and whose second fits 16 bits. *)
Definition Key_compactable (k : Key) : Prop :=
  Key_wf k ∧ field1 k < 128 ∧ field2 k < 65536.

Definition compact_value (k : Key) : Z :=
  ((((field1 k * 2 ^ 16 + field2 k) * 2 ^ 32 + field3 k) * 2 ^ 32 + field4 k) * 2 ^ 8
   + field5 k) * 2 ^ 32 + field6 k.

Lemma Key_to_i128_value {E} k :
  Key_compactable k → Key_to_i128 (E := E) k = Ok (compact_value k).
Proof.
  intros (Hk & H1 & H2). unfold Key_to_i128, is_i128_representable, compact_value.
  rewrite (proj2 (Z.leb_le (field2 k) 65535)) by lia. simpl negb. cbn iota. f_equal.
  change 127 with (Z.ones 7). change 65535 with (Z.ones 16).
  destruct Hk. unfold in_u in *. rewrite !Z.land_ones by lia.
  rewrite !Z.mod_small by lia.
  rewrite (lor_shiftl_add (field5 k)) by lia.
  rewrite (lor_shiftl_add (field4 k)) by lia.
  rewrite (lor_shiftl_add (field3 k)) by lia.
  rewrite (lor_shiftl_add (field2 k)) by lia.
  rewrite (lor_shiftl_add (field1 k)) by lia. lia.
Qed.

Lemma div_digit n h l : 0 ≤ l < n → (h * n + l) / n = h.
Proof. intros. rewrite Z.div_add_l, Z.div_small; lia. Qed.

Lemma mod_digit n h l : 0 ≤ l < n → (h * n + l) mod n = l.
Proof. intros. rewrite Z.add_comm, Z.mod_add, Z.mod_small; lia. Qed.

Lemma Key_from_compact_value k : Key_compactable k → Key_from_i128 (compact_value k) = k.
Proof.
  intros (Hk & H1 & H2). unfold Key_from_i128, wrap.
  change 127 with (Z.ones 7). change 65535 with (Z.ones 16).
  rewrite !Z.land_ones, !Z.shiftr_div_pow2 by lia.
  change (2 ^ 120) with (2 ^ 32 * 2 ^ 8 * 2 ^ 32 * 2 ^ 32 * 2 ^ 16).
  change (2 ^ 104) with (2 ^ 32 * 2 ^ 8 * 2 ^ 32 * 2 ^ 32).
  change (2 ^ 72) with (2 ^ 32 * 2 ^ 8 * 2 ^ 32).
  change (2 ^ 40) with (2 ^ 32 * 2 ^ 8).
  destruct k as [f1 f2 f3 f4 f5 f6]. unfold compact_value.
  destruct Hk; cbn [field1 field2 field3 field4 field5 field6] in *. unfold in_u in *.
  rewrite <- !Z.div_div by lia. rewrite !div_digit by lia. rewrite !mod_digit by lia.
  rewrite !Z.mod_small by (rewrite ?Z.mod_small; lia). done.
Qed.

(** Storage keys in the compactable range survive the 128-bit encoding, and the
    encoding preserves their order. *)
Theorem Key_i128_roundtrip (a b : Key) (Ha : Key_compactable a) (Hb : Key_compactable b) :
  ∃ x y, Key_to_i128 (E := unit) a = Ok x ∧ Key_to_i128 (E := unit) b = Ok y
    ∧ in_u 127 x ∧ Key_from_i128 x = a ∧ Key_cmp a b = (x ?= y).
Proof.
  exists (compact_value a), (compact_value b).
  rewrite !Key_to_i128_value, Key_from_compact_value by done.
  destruct Ha as ([] & ? & ?), Hb as ([] & ? & ?). split_and!; [done|done| |done|].
  - unfold compact_value, in_u in *. lia.
  - unfold Key_cmp, compact_value, in_u in *.
    rewrite !compare_digit by lia. by repeat case_match.
Qed.

Lemma Key_i128_roundtrip_witness :
  Key_to_i128 (E := unit) (mkKey 3 0 0 0 0 1) = Ok (3 * 2 ^ 120 + 1)
  ∧ Key_cmp (mkKey 0 1663 5 16384 0 7) (mkKey 3 0 0 0 0 1) = Lt.
Proof.
  split; [reflexivity|].
  destruct (Key_i128_roundtrip (mkKey 0 1663 5 16384 0 7) (mkKey 3 0 0 0 0 1))
    as (x & y & Hx & Hy & _ & _ & ->); [by split; [apply Key_wfb_spec|] ..|].
  injection Hx as <-; injection Hy as <-. reflexivity.
Defined.

(** A key outside the range loses bits: the two highest tablespace numbers that
    [to_i128] accepts decode to a different key. *)
Theorem Key_i128_special_lossy (k : Key) :
  field2 k = 4294967295 ∨ field2 k = 572662306 →
  ∃ x, Key_to_i128 (E := unit) k = Ok x ∧ Key_from_i128 x ≠ k.
Proof.
  intros H. unfold Key_to_i128, is_i128_representable.
  destruct H as [H|H]; rewrite H; simpl negb; cbn iota; eexists; (split; [done|]).
  all: intros E; apply (f_equal field2) in E; rewrite H in E; revert E; unfold Key_from_i128;
    cbn [field2]; set (z := Z.shiftr _ 104); unfold wrap; change 65535 with (Z.ones 16);
    rewrite Z.land_ones by lia; intros E;
    pose proof (Z.mod_pos_bound z (2 ^ 16)); rewrite Z.mod_small in E by lia; lia.
Qed.

Lemma byte_slice_concat {E} (ls : list bytes) i l lo hi :
  ls !! i = Some l → lo = length (concat (take i ls)) → hi = (lo + length l)%nat →
  byte_slice (E := E) (concat ls) lo hi = Ok l.
Proof.
  intros Hi -> ->. destruct (slice_concat _ _ _ Hi) as [Hs Hl]. unfold byte_slice.
  rewrite bool_decide_eq_true_2 by done. by rewrite Nat.add_comm, Nat.add_sub, Hs.
Qed.

Definition key_bytes (k : Key) : list bytes :=
  [be_bytes 1 (field1 k); be_bytes 4 (field2 k); be_bytes 4 (field3 k); be_bytes 4 (field4 k);
   be_bytes 1 (field5 k); be_bytes 4 (field6 k)].

Lemma Key_from_slice_concat {E} k rest :
  Key_wf k → Key_from_slice (E := E) (concat (key_bytes k ++ [rest])) = Ok k.
Proof.
  intros []. unfold Key_from_slice.
  assert (Hs : ∀ i l lo hi, key_bytes k !! i = Some l →
    lo = length (concat (take i (key_bytes k))) → hi = (lo + length l)%nat →
    byte_slice (E := E) (concat (key_bytes k ++ [rest])) lo hi = Ok l).
  { intros i l lo hi Hi Hlo Hhi. eapply byte_slice_concat; [by apply lookup_app_l_Some| |done].
    rewrite take_app_le; [done|]. apply lookup_lt_Some in Hi. lia. }
  rewrite (Hs 0%nat _ 0%nat 1%nat eq_refl), (Hs 1%nat _ 1%nat 5%nat eq_refl),
    (Hs 2%nat _ 5%nat 9%nat eq_refl), (Hs 3%nat _ 9%nat 13%nat eq_refl),
    (Hs 4%nat _ 13%nat 14%nat eq_refl), (Hs 5%nat _ 14%nat 18%nat eq_refl)
    by (simpl; rewrite ?length_app, ?length_be_bytes; done).
  simpl. rewrite !(be_roundtrip 4 32), !(be_roundtrip 1 8) by done. by destruct k.
Qed.

(** Reading the 18 bytes a key was written to gives the key back; the rest of
    the buffer is untouched. *)
Theorem Key_bytes_roundtrip (k : Key) (buf : bytes)
    (Hk : Key_wf k) (Hbuf : (18 ≤ length buf)%nat) :
  ∃ buf', Key_write_to_byte_slice (E := unit) k buf = Ok buf'
    ∧ length buf' = length buf ∧ drop 18 buf' = drop 18 buf
    ∧ Key_from_slice (E := unit) buf' = Ok k.
Proof.
  unfold Key_write_to_byte_slice. rewrite bool_decide_eq_true_2 by done.
  eexists; split; [done|]. split_and!.
  - rewrite !length_app, !length_be_bytes, length_drop. lia.
  - rewrite !app_assoc, drop_app_length'; [done|].
    by rewrite !length_app, !length_be_bytes.
  - rewrite <- (Key_from_slice_concat k (drop 18 buf) Hk). f_equal.
Qed.

Lemma Key_bytes_roundtrip_witness :
  ∃ buf', Key_write_to_byte_slice (E := unit) (mkKey 0 1663 5 16384 1 9) (replicate 20 x00) = Ok buf'
    ∧ Key_from_slice (E := unit) buf' = Ok (mkKey 0 1663 5 16384 1 9).
Proof.
  destruct (Key_bytes_roundtrip (mkKey 0 1663 5 16384 1 9) (replicate 20 x00))
    as (buf' & Hw & _ & _ & Hr); [by apply Key_wfb_spec | simpl; lia | by exists buf'].
Defined.

Definition key_hex (k : Key) : list (list Z) :=
  [pad_zero 2 (fmt_upper_hex (field1 k)); pad_zero 8 (fmt_upper_hex (field2 k));
   pad_zero 8 (fmt_upper_hex (field3 k)); pad_zero 8 (fmt_upper_hex (field4 k));
   pad_zero 2 (fmt_upper_hex (field5 k)); pad_zero 8 (fmt_upper_hex (field6 k))].

Lemma hex_field_concat ls i l w z lo hi :
  Forall (λ c, is_ascii_hexdigit c = true) (concat ls) →
  ls !! i = Some l → lo = length (concat (take i ls)) → hi = (lo + length l)%nat →
  from_str_radix16 w l = Some z →
  hex_field (concat ls) w lo hi = Ok z.
Proof.
  intros Hd Hi -> -> Hz. destruct (slice_concat _ _ _ Hi) as [Hs Hl].
  unfold hex_field. rewrite str_slice_hex by (done || lia). cbn [mbind outcome_bind].
  rewrite Nat.add_comm, Nat.add_sub, Hs, Hz. done.
Qed.

(** Parsing the hexadecimal form of a key gives the key back. *)
Theorem Key_hex_roundtrip (k : Key) (Hk : Key_wf k) :
  Key_from_hex (Key_display k) = Ok k.
Proof.
  destruct Hk as [H1 H2 H3 H4 H5 H6].
  assert (F8 : ∀ z, in_u 8 z → _) by (intros z Hz; exact (padded_field digit_upper 8 2 z
    digit_value_upper eq_refl ltac:(lia) ltac:(lia) Hz ltac:(lia))).
  assert (F32 : ∀ z, in_u 32 z → _) by (intros z Hz; exact (padded_field digit_upper 32 8 z
    digit_value_upper eq_refl ltac:(lia) ltac:(lia) Hz ltac:(lia))).
  destruct (F8 _ H1) as (L1 & P1 & C1), (F32 _ H2) as (L2 & P2 & C2),
    (F32 _ H3) as (L3 & P3 & C3), (F32 _ H4) as (L4 & P4 & C4), (F8 _ H5) as (L5 & P5 & C5),
    (F32 _ H6) as (L6 & P6 & C6). clear F8 F32.
  assert (E : Key_display k = concat (key_hex k)).
  { unfold key_hex, Key_display. cbn [concat]. by rewrite app_nil_r. }
  assert (Hd : Forall (λ c, is_ascii_hexdigit c = true) (concat (key_hex k))).
  { unfold key_hex. cbn [concat]. rewrite !Forall_app. by split_and!. }
  assert (HL : length (concat (key_hex k)) = 36%nat).
  { unfold key_hex, fmt_upper_hex. cbn [concat]. rewrite !length_app, L1, L2, L3, L4, L5, L6. done. }
  rewrite E. unfold Key_from_hex. rewrite HL, bool_decide_eq_true_2 by done. cbn [negb].
  assert (Hs : ∀ i l w z lo hi, key_hex k !! i = Some l → from_str_radix16 w l = Some z →
    lo = length (concat (take i (key_hex k))) → hi = (lo + length l)%nat →
    hex_field (concat (key_hex k)) w lo hi = Ok z) by (intros; by eapply hex_field_concat).
  rewrite (Hs 0%nat _ _ _ 0%nat 2%nat eq_refl P1), (Hs 1%nat _ _ _ 2%nat 10%nat eq_refl P2),
    (Hs 2%nat _ _ _ 10%nat 18%nat eq_refl P3), (Hs 3%nat _ _ _ 18%nat 26%nat eq_refl P4),
    (Hs 4%nat _ _ _ 26%nat 28%nat eq_refl P5), (Hs 5%nat _ _ _ 28%nat 36%nat eq_refl P6)
    by (cbn [key_hex take concat]; unfold fmt_upper_hex;
        rewrite ?length_app, ?L1, ?L2, ?L3, ?L4, ?L5, ?L6; done).
  simpl. by destruct k.
Qed.

Lemma Key_hex_roundtrip_witness :
  Key_from_hex (lit "000000067F000000050000400000FFFFFFFF")
  = Ok (mkKey 0 1663 5 16384 0 4294967295).
Proof.
  apply (Key_hex_roundtrip (mkKey 0 1663 5 16384 0 4294967295)). by apply Key_wfb_spec.
Defined.

(** ** The layout is unambiguous

    What the store holds, as the table in key.rs lists it. *)
Inductive Entry :=
  | EDbDir
  | ERelMap (spc db : Z)
  | ERelDir (spc db : Z)
  | ERelBlock (rel : RelTag) (blk : Z)
  | ERelSize (rel : RelTag)
  | ESlruDir (kind : SlruKind)
  | ESlruBlock (kind : SlruKind) (segno blk : Z)
  | ESlruSize (kind : SlruKind) (segno : Z)
  | ETwoPhaseDir
  | ETwoPhaseFile (xid : Z)
  | EControlFile
  | ECheckpoint
  | EAuxFiles
  | EReplOrigin (origin : Z)
  | ERelTag (spc db relnode fork : Z).

Definition entry_key (e : Entry) : Key :=
  match e with
  | EDbDir => DBDIR_KEY
  | ERelMap spc db => relmap_file_key spc db
  | ERelDir spc db => rel_dir_to_key spc db
  | ERelBlock rel blk => rel_block_to_key rel blk
  | ERelSize rel => rel_size_to_key rel
  | ESlruDir kind => slru_dir_to_key kind
  | ESlruBlock kind segno blk => slru_block_to_key kind segno blk
  | ESlruSize kind segno => slru_segment_size_to_key kind segno
  | ETwoPhaseDir => TWOPHASEDIR_KEY
  | ETwoPhaseFile xid => twophase_file_key xid
  | EControlFile => CONTROLFILE_KEY
  | ECheckpoint => CHECKPOINT_KEY
  | EAuxFiles => AUX_FILES_KEY
  | EReplOrigin o => repl_origin_key o
  | ERelTag spc db relnode fork => rel_tag_sparse_key spc db relnode fork
  end.

(** Postgres never uses tablespace or relation number 0, nor block number
    0xffffffff, nor transaction id 0. *)
Definition entry_valid (e : Entry) : Prop :=
  match e with
  | ERelMap spc db | ERelDir spc db => in_u 32 spc ∧ in_u 32 db ∧ spc ≠ 0
  | ERelBlock rel blk =>
      in_u 8 (forknum rel) ∧ in_u 32 (spcnode rel) ∧ in_u 32 (dbnode rel)
      ∧ in_u 32 (relnode rel) ∧ relnode rel ≠ 0 ∧ 0 ≤ blk < u32_max
  | ERelSize rel =>
      in_u 8 (forknum rel) ∧ in_u 32 (spcnode rel) ∧ in_u 32 (dbnode rel)
      ∧ in_u 32 (relnode rel) ∧ relnode rel ≠ 0
  | ESlruBlock _ segno blk => in_u 32 segno ∧ 0 ≤ blk < u32_max
  | ESlruSize _ segno => in_u 32 segno
  | ETwoPhaseFile xid => in_u 64 xid ∧ xid ≠ 0
  | EReplOrigin o => in_u 16 o
  | ERelTag spc db relnode fork => in_u 32 spc ∧ in_u 32 db ∧ in_u 32 relnode ∧ in_u 8 fork
  | _ => True
  end.

(** The three pieces of a transaction id. *)
Lemma xid_fields xid :
  in_u 64 xid →
  xid_field4 xid = xid / 2 ^ 40 ∧ xid_field5 xid = (xid / 2 ^ 32) mod 2 ^ 8
  ∧ xid_field6 xid = xid mod 2 ^ 32.
Proof.
  intros Hx. unfold in_u, xid_field4, xid_field5, xid_field6, wrap in *.
  rewrite !Z.shiftr_land.
  change (Z.shiftr 18446742974197923840 40) with (Z.ones 24).
  change (Z.shiftr 1095216660480 32) with (Z.ones 8). change 4294967295 with (Z.ones 32).
  rewrite !Z.land_ones, !Z.shiftr_div_pow2 by lia. split_and!.
  - assert (0 ≤ xid / 2 ^ 40 < 2 ^ 24).
    { split; [apply Z.div_pos; lia | apply Z.div_lt_upper_bound; lia]. }
    by rewrite !Z.mod_small by (rewrite ?Z.mod_small; lia).
  - by rewrite Z.mod_mod.
  - by rewrite Z.mod_mod.
Qed.

Lemma xid_fields_value xid :
  in_u 64 xid →
  xid = (xid_field4 xid * 2 ^ 8 + xid_field5 xid) * 2 ^ 32 + xid_field6 xid.
Proof.
  intros Hx. destruct (xid_fields xid Hx) as (-> & -> & ->).
  change (2 ^ 40) with (2 ^ 32 * 2 ^ 8). rewrite <- Z.div_div by lia.
  pose proof (Z.div_mod (xid / 2 ^ 32) (2 ^ 8)). pose proof (Z.div_mod xid (2 ^ 32)). lia.
Qed.

Lemma xid_fields_inj x y :
  in_u 64 x → in_u 64 y → xid_field4 x = xid_field4 y → xid_field5 x = xid_field5 y →
  xid_field6 x = xid_field6 y → x = y.
Proof.
  intros Hx Hy E4 E5 E6. rewrite (xid_fields_value x), (xid_fields_value y) by done.
  by rewrite E4, E5, E6.
Qed.

Lemma twophase_file_key_nonzero xid :
  in_u 64 xid → xid ≠ 0 → twophase_file_key xid ≠ TWOPHASEDIR_KEY.
Proof.
  intros Hx H0 E. injection E as E4 E5 E6. apply H0.
  rewrite (xid_fields_value xid Hx), E4, E5, E6. done.
Qed.

Lemma twophase_file_key_inj x y :
  in_u 64 x → in_u 64 y → twophase_file_key x = twophase_file_key y → x = y.
Proof. intros Hx Hy E. injection E as E4 E5 E6. by apply xid_fields_inj. Qed.

(** Distinct things get distinct keys: no two entries of the layout collide. *)
Theorem entry_key_inj (e1 e2 : Entry) (H1 : entry_valid e1) (H2 : entry_valid e2)
    (E : entry_key e1 = entry_key e2) : e1 = e2.
Proof.
  unfold u32_max in *. destruct e1, e2; simpl in E, H1, H2; try done.
  all: try (symmetry in E; by destruct (twophase_file_key_nonzero _ (proj1 H2) (proj2 H2))
            || by destruct (twophase_file_key_nonzero _ (proj1 H1) (proj2 H1))).
  all: try (destruct H1, H2; f_equal; by apply twophase_file_key_inj).
  all: injection E; intros; try lia.
  all: repeat match goal with r : RelTag |- _ => destruct r end; simpl in *; subst.
  all: try (destruct kind, kind0; done).
  all: done || (unfold u32_max in *; lia).
Qed.

Lemma entry_key_inj_witness :
  entry_key (ERelBlock {| forknum := 0; spcnode := 1663; dbnode := 5; relnode := 16384 |} 7)
  = mkKey 0 1663 5 16384 0 7
  ∧ ∀ e, entry_valid e → entry_key e = mkKey 0 1663 5 16384 0 7 →
    e = ERelBlock {| forknum := 0; spcnode := 1663; dbnode := 5; relnode := 16384 |} 7.
Proof.
  split; [reflexivity|]. intros e He E. apply entry_key_inj; [done| |done].
  unfold entry_valid, in_u, u32_max; simpl; lia.
Defined.

(** What each classifying predicate should answer for an entry. *)
Definition classified (e : Entry) : Prop :=
  let k := entry_key e in
  Key_is_rel_block_key k = match e with ERelBlock _ _ => true | _ => false end
  ∧ Key_is_rel_fsm_block_key k =
      match e with ERelBlock rel _ => forknum rel =? FSM_FORKNUM | _ => false end
  ∧ Key_is_rel_vm_block_key k =
      match e with ERelBlock rel _ => forknum rel =? VISIBILITYMAP_FORKNUM | _ => false end
  ∧ Key_is_rel_size_key k = match e with ERelSize _ => true | _ => false end
  ∧ Key_is_rel_dir_key k = match e with ERelDir _ db => negb (db =? 0) | _ => false end
  ∧ Key_is_slru_dir_key k = match e with ESlruDir _ => true | _ => false end
  ∧ Key_is_slru_block_key k = match e with ESlruBlock _ _ _ => true | _ => false end
  ∧ Key_is_slru_segment_size_key k = match e with ESlruSize _ _ => true | _ => false end
  ∧ Key_is_sparse k =
      match e with EReplOrigin _ | ERelTag _ _ _ _ => true | _ => false end.

Ltac key_bool :=
  repeat match goal with
  | |- context [?x =? ?y] => destruct (Z.eqb_spec x y)
  | |- context [?x <? ?y] => destruct (Z.ltb_spec x y)
  | |- context [?x <=? ?y] => destruct (Z.leb_spec x y)
  end; simpl; try done; try lia.

Lemma entry_classified e : entry_valid e → classified e.
Proof.
  intros He. unfold classified, Key_is_rel_block_key, Key_is_rel_fsm_block_key,
    Key_is_rel_vm_block_key, Key_is_rel_size_key, Key_is_rel_dir_key, Key_is_slru_dir_key,
    Key_is_slru_block_key, Key_is_slru_segment_size_key, Key_is_sparse, slru_dir_kind,
    u32_max in *.
  destruct e; simpl in *; unfold u32_max in *; try (split_and!; reflexivity).
  all: try destruct kind; split_and!; simpl; try reflexivity; key_bool.
Qed.

(** Reading back the keys the WAL redo manager inverts. *)
Lemma rel_block_roundtrip rel blk : Key_to_rel_block (rel_block_to_key rel blk) = Ok (rel, blk).
Proof. by destruct rel. Qed.

Lemma slru_block_roundtrip kind segno blk :
  Key_to_slru_block (slru_block_to_key kind segno blk) = Ok (kind, segno, blk).
Proof. by destruct kind. Qed.

Lemma slru_dir_roundtrip kind : slru_dir_kind (slru_dir_to_key kind) = Some (Ok kind).
Proof. by destruct kind. Qed.

(** The classifying predicates answer by the kind of the entry, and the keys of
    relation blocks, SLRU blocks and SLRU directories are read back.  The
    directory of the shared relations (database 0) is the exception of
    [is_rel_dir_key]. *)
Theorem entry_classification (e : Entry) (He : entry_valid e) :
  classified e ∧
  match e with
  | ERelBlock rel blk => Key_to_rel_block (entry_key e) = Ok (rel, blk)
  | ESlruBlock kind segno blk => Key_to_slru_block (entry_key e) = Ok (kind, segno, blk)
  | ESlruDir kind => slru_dir_kind (entry_key e) = Some (Ok kind)
  | _ => True
  end.
Proof.
  split; [by apply entry_classified|].
  destruct e; try done.
  - apply rel_block_roundtrip.
  - apply slru_dir_roundtrip.
  - apply slru_block_roundtrip.
Qed.

Lemma entry_classification_witness :
  Key_is_slru_block_key (slru_block_to_key Clog 3 9) = true
  ∧ Key_to_slru_block (slru_block_to_key Clog 3 9) = Ok (Clog, 3, 9).
Proof.
  destruct (entry_classification (ESlruBlock Clog 3 9)) as [(_ & _ & _ & _ & _ & _ & H & _) Hr].
  - unfold entry_valid, in_u, u32_max; lia.
  - split; [exact H | exact Hr].
Defined.

(** ** Ranges of the layout *)

Lemma range_contains_lex r k :
  range_contains r k = true ↔ Key_cmp (r_start r) k ≠ Gt ∧ Key_cmp k (r_end r) = Lt.
Proof.
  unfold range_contains, Key_leb, Key_ltb. rewrite andb_true_iff.
  split; intros [? ?]; split; repeat case_match; done.
Qed.

Ltac key_compare :=
  repeat match goal with
  | |- context [?x ?= ?y] => destruct (Z.compare_spec x y); cbv iota
  end.

(** The range of a relation fork holds its blocks and its size, and nothing
    else, for every fork number that Postgres has. *)
Theorem rel_key_range_exact (rel : RelTag) (k : Key) (Hk : Key_wf k)
    (Hf : 0 ≤ forknum rel < 255) :
  range_contains (rel_key_range rel) k = true
  ↔ k = rel_block_to_key rel (field6 k) ∨ k = rel_size_to_key rel.
Proof.
  rewrite range_contains_lex. destruct Hk as [H1 H2 H3 H4 H5 H6].
  unfold rel_key_range, wrapping_add, wrap, Key_cmp, rel_block_to_key, rel_size_to_key, in_u in *.
  rewrite Z.mod_small by lia. destruct k as [k1 k2 k3 k4 k5 k6].
  cbn [field1 field2 field3 field4 field5 field6 r_start r_end] in *.
  split.
  - intros [Hge Hlt]. left. revert Hge Hlt. key_compare; intros; subst; try done; try lia.
    all: f_equal; lia.
  - intros [E|E]; injection E; intros; subst; rewrite !Z.compare_refl;
      (split; [|by rewrite (proj2 (Z.compare_lt_iff (forknum rel) (forknum rel + 1))) by lia]);
      cbv iota; apply Z.compare_le_iff; lia.
Qed.

Lemma rel_key_range_exact_witness :
  range_contains (rel_key_range {| forknum := 0; spcnode := 1663; dbnode := 5; relnode := 16384 |})
    (mkKey 0 1663 5 16384 0 4294967295) = true.
Proof.
  apply rel_key_range_exact; [by apply Key_wfb_spec | simpl; lia | by right].
Defined.

(** The range of a two-phase file is that one key, short of the last id. *)
Theorem twophase_key_range_exact (xid : Z) (k : Key) (Hx : 0 ≤ xid < u64_max) (Hk : Key_wf k) :
  range_contains (twophase_key_range xid) k = true ↔ k = twophase_file_key xid.
Proof.
  assert (Hw : ∀ x, in_u 64 x → Key_wf (twophase_file_key x)).
  { intros x H. destruct (xid_fields x H) as (E4 & E5 & E6). unfold in_u in *.
    split; unfold in_u; cbn [twophase_file_key field1 field2 field3 field4 field5 field6];
      rewrite ?E4, ?E5, ?E6; try done; try (apply Z.mod_pos_bound; lia).
    split; [apply Z.div_pos; lia | apply Z.div_lt_upper_bound; lia]. }
  assert (Hv : ∀ x, in_u 64 x → key_value (twophase_file_key x) = key_value TWOPHASEDIR_KEY + x).
  { intros x H. pose proof (xid_fields_value x H) as E. unfold key_value, twophase_file_key; simpl.
    lia. }
  assert (Hr : twophase_key_range xid = mkRange (twophase_file_key xid) (twophase_file_key (xid + 1))).
  { unfold twophase_key_range, overflowing_add, u64_max in *.
    rewrite (proj2 (Z.leb_gt _ _)), wrap_small by (unfold in_u; lia). done. }
  unfold u64_max in Hx. assert (H1 : in_u 64 xid) by (unfold in_u; lia).
  assert (H2 : in_u 64 (xid + 1)) by (unfold in_u; lia).
  rewrite Hr, range_contains_value by (simpl; auto). simpl r_start; simpl r_end.
  rewrite !Hv by done. split.
  - intros. apply key_value_inj; auto. rewrite Hv by done. lia.
  - intros ->. rewrite Hv by done. lia.
Qed.

Lemma twophase_key_range_exact_witness :
  range_contains (twophase_key_range 4294967295) (mkKey 2 0 0 0 0 4294967295) = true
  ∧ range_contains (twophase_key_range 4294967295) (mkKey 2 0 0 0 1 0) = false.
Proof.
  split; [|reflexivity].
  apply twophase_key_range_exact; [unfold u64_max; lia | by apply Key_wfb_spec | reflexivity].
Defined.

Lemma prefix_range_contains a b k :
  Key_wf k →
  range_contains (mkRange (prefix_key a) (prefix_key b)) k = (a <=? field1 k) && (field1 k <? b).
Proof.
  intros []. unfold range_contains, Key_leb, Key_ltb, Key_cmp, prefix_key, in_u in *.
  cbn [r_start r_end field1 field2 field3 field4 field5 field6].
  f_equal.
  - destruct (Z.compare_spec a (field1 k)); destruct (Z.leb_spec a (field1 k)); try lia; try done.
    key_compare; done || lia.
  - destruct (Z.compare_spec (field1 k) b); destruct (Z.ltb_spec (field1 k) b); try lia; try done.
    key_compare; done || lia.
Qed.

Lemma non_inherited_field1 k : range_contains NON_INHERITED_RANGE k = true → field1 k = 3.
Proof.
  rewrite range_contains_lex. unfold Key_cmp. cbn [NON_INHERITED_RANGE AUX_FILES_KEY r_start r_end
    field1]. destruct (Z.compare_spec 3 (field1 k)), (Z.compare_spec (field1 k) 3); naive_solver lia.
Qed.

(** Which keys a branch inherits is written down twice, and the two disagree:
    [is_inherited_key] denies every metadata prefix but 0x61, while the ranges
    to be excluded from a branch cover the prefixes 0x62 and 0x63 only.  The
    keys on which they differ are exactly the metadata keys of the prefixes
    0x60 and 0x64 to 0x7E, the relation directory entries among them. *)
Theorem inherited_key_disagreement (k : Key) (Hk : Key_wf k) :
  Key_is_inherited_key k
  = negb (range_contains NON_INHERITED_RANGE k || range_contains sparse_non_inherited_keyspace k)
  ↔ ¬ (field1 k = METADATA_KEY_BEGIN_PREFIX
       ∨ DB_DIR_KEY_PREFIX ≤ field1 k < METADATA_KEY_END_PREFIX).
Proof.
  unfold Key_is_inherited_key, Key_is_inherited_sparse_key, Key_is_sparse,
    sparse_non_inherited_keyspace, METADATA_KEY_BEGIN_PREFIX, METADATA_KEY_END_PREFIX,
    DB_DIR_KEY_PREFIX, RELATION_SIZE_PREFIX, AUX_KEY_PREFIX, REPL_ORIGIN_KEY_PREFIX.
  rewrite prefix_range_contains by done.
  pose proof (non_inherited_field1 k) as Hn.
  destruct (range_contains NON_INHERITED_RANGE k).
  - rewrite Hn by done. simpl. split; [intros _; lia | done].
  - clear Hn. simpl orb. key_bool.
Qed.

Lemma inherited_key_disagreement_witness :
  Key_is_inherited_key (rel_tag_sparse_key 1663 5 16384 0) = false
  ∧ range_contains sparse_non_inherited_keyspace (rel_tag_sparse_key 1663 5 16384 0) = false
  ∧ Key_is_inherited_key DBDIR_KEY = true.
Proof.
  split_and!; [reflexivity|reflexivity|].
  rewrite (proj2 (inherited_key_disagreement DBDIR_KEY ltac:(by apply Key_wfb_spec))).
  - reflexivity.
  - unfold METADATA_KEY_BEGIN_PREFIX, DB_DIR_KEY_PREFIX; simpl; lia.
Defined.

Lemma RelDirExists_roundtrip e : RelDirExists_decode (RelDirExists_encode e) = Ok e.
Proof. by destruct e. Qed.
