(* ===== verification/Shard.v ===== *)
(** * Sharding

    [libs/pageserver_api/src/shard.rs]: which shard of a tenant holds which key,
    and the compute side of the same mapping ([get_shard_number] of
    [pgxn/neon/libpagestore.c]). *)

From S2P Require Import Prelude Bytes Text Ids Key.

(** [ShardStripeSize(u32)], [ShardLayout(u8)] *)
Abbreviation ShardStripeSize := Z.
Abbreviation ShardLayout := Z.

Record ShardIdentity := mkShardIdentity {
  number : ShardNumber;
  count : ShardCount;
  stripe_size : ShardStripeSize;
  layout : ShardLayout;
}.

Definition LAYOUT_V1 : ShardLayout := 1.
Definition LAYOUT_BROKEN : ShardLayout := 255.
Definition DEFAULT_STRIPE_SIZE : ShardStripeSize := 16 * 1024 / 8.
Definition INIT_FORKNUM : Z := 3.

Inductive ShardConfigError := InvalidCount | InvalidNumber | InvalidStripeSize.

(** [ShardParameters] of [models.rs] *)
Record ShardParameters := { params_count : ShardCount; params_stripe_size : ShardStripeSize }.

Definition ShardIdentity_unsharded : ShardIdentity :=
  {| number := 0; count := 0; layout := LAYOUT_V1; stripe_size := DEFAULT_STRIPE_SIZE |}.

Definition ShardIdentity_unsharded_with_stripe_size (s : ShardStripeSize) : ShardIdentity :=
  if 0 <? s then mkShardIdentity 0 0 s LAYOUT_V1 else ShardIdentity_unsharded.

Definition ShardIdentity_broken (number : ShardNumber) (count : ShardCount) : ShardIdentity :=
  {| number := number; count := count; layout := LAYOUT_BROKEN;
     stripe_size := DEFAULT_STRIPE_SIZE |}.

Definition ShardIdentity_is_unsharded (self : ShardIdentity) : bool :=
  (number self =? 0) && (count self =? 0).

Definition ShardIdentity_new (number : ShardNumber) (count : ShardCount)
    (stripe_size : ShardStripeSize) : outcome ShardConfigError ShardIdentity :=
  if count =? 0 then Err InvalidCount
  else if wrapping_sub 8 count 1 <? number then Err InvalidNumber
  else if stripe_size =? 0 then Err InvalidStripeSize
  else Ok {| number := number; count := count; layout := LAYOUT_V1; stripe_size := stripe_size |}.

Definition ShardIdentity_from_params (number : ShardNumber) (params : ShardParameters) :
    ShardIdentity :=
  {| number := number; count := params_count params; layout := LAYOUT_V1;
     stripe_size := params_stripe_size params |}.

Definition ShardIdentity_is_broken (self : ShardIdentity) : bool := layout self =? LAYOUT_BROKEN.

Definition key_is_shard0 (key : Key) : bool :=
  let is_initfork := field5 key =? INIT_FORKNUM in
  negb (Key_is_rel_block_key key) || is_initfork.

Definition murmurhash32 (h : Z) : Z :=
  let h := Z.lxor h (Z.shiftr h 16) in
  let h := wrapping_mul 32 h 2246822507 in
  let h := Z.lxor h (Z.shiftr h 13) in
  let h := wrapping_mul 32 h 3266489909 in
  let h := Z.lxor h (Z.shiftr h 16) in
  h.

(** [a << 6] drops the high bits of a u32. *)
Definition hash_combine (a b : Z) : Z :=
  let b := wrapping_add 32 b 2654435769 in
  let b := wrapping_add 32 b (wrap 32 (Z.shiftl a 6)) in
  let b := wrapping_add 32 b (Z.shiftr a 2) in
  Z.lxor a b.

(** Division by a zero stripe size panics. *)
Definition key_to_shard_number {E} (count : ShardCount) (stripe_size : ShardStripeSize)
    (key : Key) : outcome E ShardNumber :=
  if (count <? 2) || key_is_shard0 key then Ok 0
  else
    let hash := murmurhash32 (field4 key) in
    if stripe_size =? 0 then Panic else
    let hash := hash_combine hash (murmurhash32 (field6 key / stripe_size)) in
    Ok (wrap 8 (hash mod count)).

Definition ShardIdentity_get_shard_number {E} (self : ShardIdentity) (key : Key) :
    outcome E ShardNumber :=
  if ShardIdentity_is_broken self then Panic
  else key_to_shard_number (count self) (stripe_size self) key.

Definition ShardIdentity_is_key_local {E} (self : ShardIdentity) (key : Key) : outcome E bool :=
  if ShardIdentity_is_broken self then Panic
  else if (count self <? 2) || (key_is_shard0 key && (number self =? 0)) then Ok true
  else
    n ← key_to_shard_number (count self) (stripe_size self) key;
    Ok (n =? number self).

Definition ShardIdentity_is_key_global (self : ShardIdentity) (key : Key) : bool :=
  if Key_is_slru_block_key key || Key_is_slru_segment_size_key key
     || Key_is_aux_file_key key || Key_is_slru_dir_key key then false
  else if Key_is_rel_block_key key then false
  else if Key_is_rel_size_key key then true
  else true.

Definition ShardIdentity_is_key_disposable {E} (self : ShardIdentity) (key : Key) :
    outcome E bool :=
  if count self <? 2 then Ok false
  else if ShardIdentity_is_key_global self key then Ok false
  else
    b ← ShardIdentity_is_key_local self key;
    Ok (negb b).

Definition ShardIdentity_shard_index (self : ShardIdentity) : ShardIndex :=
  mkShardIndex (number self) (count self).

Definition ShardIdentity_shard_slug (self : ShardIdentity) : list Z :=
  if 0 <? count self then 45 :: fmt_02x (number self) ++ fmt_02x (count self) else [].

Definition ShardIdentity_is_shard_zero (self : ShardIdentity) : bool := number self =? 0.

(** ** The compute side

    The hash functions are Postgres's [hashfn.h]; the shard map is shared
    memory, read by [load_shard_map].  A zero number of shards or stripe size
    is undefined behaviour in C. *)

Record BufferTag := { relNumber : Z; blockNum : Z }.

Definition get_shard_number (pg_murmurhash32 : Z → Z) (pg_hash_combine : Z → Z → Z)
    (n_shards stripe_size : Z) (tag : BufferTag) : Z :=
  let hash := pg_murmurhash32 (relNumber tag) in
  let hash := pg_hash_combine hash (pg_murmurhash32 (blockNum tag / stripe_size)) in
  hash mod n_shards.

(** ** Every key has one home *)

(** The hash of a relation block, before it is reduced to a shard number. *)
Definition key_hash (stripe_size : ShardStripeSize) (key : Key) : Z :=
  hash_combine (murmurhash32 (field4 key)) (murmurhash32 (field6 key / stripe_size)).

(** The shard number as a function, where nothing panics. *)
Definition home (count stripe_size : Z) (key : Key) : Z :=
  if key_is_shard0 key then 0 else key_hash stripe_size key mod Z.max count 1.

Lemma home_bound count stripe_size key : 0 ≤ home count stripe_size key < Z.max count 1.
Proof. unfold home. case_match; [lia|]. apply Z.mod_pos_bound. lia. Qed.

Lemma key_to_shard_number_home {E} count stripe_size key :
  0 ≤ count < 256 → 0 < stripe_size →
  key_to_shard_number (E := E) count stripe_size key = Ok (home count stripe_size key).
Proof.
  intros Hc Hs. unfold key_to_shard_number, home.
  destruct (key_is_shard0 key); [by rewrite orb_true_r|]. rewrite orb_false_r.
  destruct (Z.ltb_spec count 2).
  - replace (Z.max count 1) with 1 by lia. by rewrite Z.mod_1_r.
  - rewrite (proj2 (Z.eqb_neq stripe_size 0)) by lia.
    replace (Z.max count 1) with count by lia.
    rewrite wrap_small; [done|]. unfold in_u.
    pose proof (Z.mod_pos_bound (key_hash stripe_size key) count ltac:(lia)) as Hb.
    unfold key_hash in Hb. lia.
Qed.

Section Tenant.
Context (cnt stripe : Z) (Hcnt : 0 ≤ cnt < 256) (Hstripe : 0 < stripe).

Definition shard (n : Z) : ShardIdentity := mkShardIdentity n cnt stripe LAYOUT_V1.

Lemma is_key_local_home {E} n key :
  0 ≤ n < Z.max cnt 1 →
  ShardIdentity_is_key_local (E := E) (shard n) key = Ok (n =? home cnt stripe key).
Proof.
  intros Hn. unfold ShardIdentity_is_key_local. cbn [shard ShardIdentity_is_broken layout count
    stripe_size number LAYOUT_V1 LAYOUT_BROKEN].
  rewrite key_to_shard_number_home by done. cbn [mbind outcome_bind].
  pose proof (home_bound cnt stripe key). change (1 =? 255) with false. cbn iota.
  rewrite (Z.eqb_sym n (home _ _ _)). destruct (Z.ltb_spec cnt 2); cbn [orb].
  - f_equal. symmetry. apply Z.eqb_eq. lia.
  - destruct (key_is_shard0 key) eqn:E0; [|done]. cbn [andb]. destruct (Z.eqb_spec n 0) as [->|Hn0].
    + unfold home. by rewrite E0.
    + unfold home. by rewrite E0.
Qed.

(** C38: In a tenant with a stripe size that is not zero, every key, a global one too, is
    local to exactly one shard, the one [get_shard_number] names; the others may drop it
    exactly when it is not a global key.  A global key is stored on all shards and is
    still local to one of them ([global_key_local]). *)
Theorem key_local_to_one_shard (key : Key) :
  ∃ n, 0 ≤ n < ShardCount_count cnt
    ∧ ShardIdentity_get_shard_number (E := unit) (shard n) key = Ok n
    ∧ ∀ m, 0 ≤ m < ShardCount_count cnt →
      ShardIdentity_is_key_local (E := unit) (shard m) key = Ok (m =? n)
      ∧ ShardIdentity_is_key_disposable (E := unit) (shard m) key
        = Ok (negb (m =? n) && negb (ShardIdentity_is_key_global (shard m) key)).
Proof.
  assert (Hc : ShardCount_count cnt = Z.max cnt 1).
  { unfold ShardCount_count. case_match; bool_prop; lia. }
  rewrite Hc. pose proof (home_bound cnt stripe key) as Hb.
  exists (home cnt stripe key). split_and!; [lia|lia| |].
  - by apply key_to_shard_number_home.
  - intros m Hm. split; [by apply is_key_local_home|].
    unfold ShardIdentity_is_key_disposable. rewrite is_key_local_home by done.
    simpl count. destruct (Z.ltb_spec cnt 2).
    + rewrite (proj2 (Z.eqb_eq m _)) by lia. done.
    + destruct (ShardIdentity_is_key_global _ _); simpl; by rewrite ?andb_false_r, ?andb_true_r.
Qed.
End Tenant.

Lemma key_local_to_one_shard_witness :
  0 ≤ 4 < 256 ∧ 0 < 2048 ∧
  ∃ n, 0 ≤ n < ShardCount_count 4
    ∧ ShardIdentity_get_shard_number (E := unit) (shard 4 2048 n) (mkKey 0 1663 5 16396 0 7) = Ok n.
Proof.
  split_and!; [lia|lia|lia|].
  destruct (key_local_to_one_shard 4 2048 ltac:(lia) ltac:(lia) (mkKey 0 1663 5 16396 0 7))
    as (n & Hn & Hs & _).
  by exists n.
Defined.

(** The size of a relation is global, and local to shard 0 all the same. *)
Example global_key_local :
  let key := mkKey 0 1663 5 16396 0 u32_max in
  ShardIdentity_is_key_global (shard 4 2048 0) key = true
  ∧ ShardIdentity_is_key_local (E := unit) (shard 4 2048 0) key = Ok true
  ∧ ShardIdentity_is_key_disposable (E := unit) (shard 4 2048 1) key = Ok false.
Proof. split_and!; reflexivity. Qed.

(** ** Splitting *)

Lemma split_loop_fold self c l acc :
  fold_left (λ acc n, split_loop self c n acc) l acc
  = acc ++ ((λ n, mkTenantShardId (tenant_id self) n c) <$>
      filter (λ n, n mod Z.max (shard_count self) 1 = shard_number self) l).
Proof.
  revert acc. induction l as [|n l IH]; intros acc; simpl; [by rewrite app_nil_r|].
  rewrite IH. unfold split_loop. rewrite filter_cons.
  destruct (Z.eqb_spec (n mod Z.max (shard_count self) 1) (shard_number self)) as [E|E].
  - rewrite decide_True by done. rewrite <- app_assoc. done.
  - by rewrite decide_False.
Qed.

Lemma elem_of_split self c x :
  x ∈ TenantShardId_split self c ↔
    tenant_id x = tenant_id self ∧ shard_count x = c ∧ 0 ≤ shard_number x < c
    ∧ shard_number x mod Z.max (shard_count self) 1 = shard_number self.
Proof.
  unfold TenantShardId_split. rewrite split_loop_fold. simpl. rewrite list_elem_of_fmap. split.
  - intros (n & -> & Hn). apply list_elem_of_filter in Hn as [Hm Hn].
    apply elem_of_seqZ in Hn. simpl. split_and!; [done|done|lia|lia|done].
  - intros (Ht & Hc & Hb & Hm). exists (shard_number x). split; [destruct x; simpl in *; by subst|].
    apply list_elem_of_filter. split; [done|]. apply elem_of_seqZ. lia.
Qed.

Lemma home_split cnt cnt' stripe key :
  0 < cnt' → (Z.max cnt 1 | cnt') →
  home cnt' stripe key mod Z.max cnt 1 = home cnt stripe key.
Proof.
  intros Hc [q ->]. unfold home. case_match; [by rewrite Z.mod_0_l by lia|].
  replace (Z.max (q * Z.max cnt 1) 1) with (q * Z.max cnt 1) by lia.
  set (h := key_hash stripe key). set (m := Z.max cnt 1). assert (0 < m) by lia. assert (0 < q) by nia.
  rewrite (Z.mul_comm q m), Z.rem_mul_r by lia.
  rewrite Z.mul_comm, Z.mod_add by lia. apply Z.mod_mod. lia.
Qed.

(** Splitting a tenant into a multiple of its shards sends every key from its
    shard to one of that shard's children: a child needs nothing its parent did
    not have.  The children of different shards are different, and together
    they are all the new shards. *)
Theorem split_preserves_homes (t : TenantId) (cnt cnt' stripe : Z) (key : Key)
    (Hc : 0 ≤ cnt < 256) (Hc' : 0 < cnt' < 256) (Hs : 0 < stripe) (Hd : (Z.max cnt 1 | cnt')) :
  ∃ n n', key_to_shard_number (E := unit) cnt stripe key = Ok n
    ∧ key_to_shard_number (E := unit) cnt' stripe key = Ok n'
    ∧ mkTenantShardId t n' cnt' ∈ TenantShardId_split (mkTenantShardId t n cnt) cnt'
    ∧ ∀ m, 0 ≤ m < Z.max cnt 1 →
        mkTenantShardId t n' cnt' ∈ TenantShardId_split (mkTenantShardId t m cnt) cnt' → m = n.
Proof.
  exists (home cnt stripe key), (home cnt' stripe key).
  rewrite !key_to_shard_number_home by lia.
  pose proof (home_bound cnt' stripe key). pose proof (home_split cnt cnt' stripe key).
  split_and!; [done|done| |].
  - apply elem_of_split; simpl. split_and!; [done|done|lia|lia|]. by apply home_split; [lia|].
  - intros m Hm Hin. apply elem_of_split in Hin as (_ & _ & _ & Hm'). simpl in Hm'.
    rewrite <- Hm'. by rewrite home_split by (lia || done).
Qed.

Lemma split_preserves_homes_witness :
  TenantShardId_split (mkTenantShardId (replicate 16 x00) 1 2) 8
  = (λ n, mkTenantShardId (replicate 16 x00) n 8) <$> [1; 3; 5; 7]
  ∧ ∃ n n', key_to_shard_number (E := unit) 2 2048 (mkKey 0 1663 5 16396 0 7) = Ok n
    ∧ key_to_shard_number (E := unit) 8 2048 (mkKey 0 1663 5 16396 0 7) = Ok n'
    ∧ mkTenantShardId (replicate 16 x00) n' 8
      ∈ TenantShardId_split (mkTenantShardId (replicate 16 x00) n 2) 8.
Proof.
  split; [reflexivity|].
  destruct (split_preserves_homes (replicate 16 x00) 2 8 2048 (mkKey 0 1663 5 16396 0 7))
    as (n & n' & H1 & H2 & H3 & _); [lia|lia|lia|by exists 4|by exists n, n'].
Defined.

(** ** Compute and storage agree *)

(** C39: Storage keeps a relation block on the shard that a compute with the same shard
    count and stripe size asks for it, except in the init fork, whose blocks it keeps on
    shard 0 while the compute asks the hashed shard as for the other forks
    ([init_fork_disagrees]). *)
Theorem compute_storage_agree (pg_murmurhash32 : Z → Z) (pg_hash_combine : Z → Z → Z)
    (rel : RelTag) (blk cnt stripe : Z)
    (Hm : ∀ h, pg_murmurhash32 h = murmurhash32 h)
    (Hh : ∀ a b, pg_hash_combine a b = hash_combine a b)
    (Hc : 0 < cnt < 256) (Hs : 0 < stripe)
    (Hrel : relnode rel ≠ 0) (Hblk : 0 ≤ blk < u32_max) :
  key_to_shard_number (E := unit) cnt stripe (rel_block_to_key rel blk)
  = Ok (if forknum rel =? INIT_FORKNUM then 0
        else get_shard_number pg_murmurhash32 pg_hash_combine cnt stripe
               {| relNumber := relnode rel; blockNum := blk |}).
Proof.
  rewrite key_to_shard_number_home by lia. f_equal. unfold home, get_shard_number, key_is_shard0.
  unfold Key_is_rel_block_key, u32_max in *. simpl.
  rewrite (proj2 (Z.eqb_neq (relnode rel) 0)), (proj2 (Z.eqb_neq blk 4294967295)) by (done || lia). simpl.
  destruct (forknum rel =? INIT_FORKNUM); [done|].
  rewrite Z.max_l, !Hm, Hh by lia. done.
Qed.

Lemma compute_storage_agree_witness :
  key_to_shard_number (E := unit) 10 32768 (mkKey 0 1663 5 16396 0 32006) = Ok 8
  ∧ get_shard_number murmurhash32 hash_combine 10 32768
      {| relNumber := 16396; blockNum := 32006 |} = 8.
Proof.
  assert (H : key_to_shard_number (E := unit) 10 32768 (mkKey 0 1663 5 16396 0 32006)
    = Ok (get_shard_number murmurhash32 hash_combine 10 32768
            {| relNumber := 16396; blockNum := 32006 |})).
  { apply (compute_storage_agree murmurhash32 hash_combine
      {| forknum := 0; spcnode := 1663; dbnode := 5; relnode := 16396 |} 32006);
      unfold u32_max, INIT_FORKNUM; simpl; done || lia. }
  rewrite H. split; reflexivity.
Defined.

(** In the init fork the two sides name different shards. *)
Example init_fork_disagrees :
  key_to_shard_number (E := unit) 10 32768
    (rel_block_to_key {| forknum := 3; spcnode := 1663; dbnode := 5; relnode := 16396 |} 0) = Ok 0
  ∧ get_shard_number murmurhash32 hash_combine 10 32768
      {| relNumber := 16396; blockNum := 0 |} = 8.
Proof. split; reflexivity. Qed.

(** [from_params] skips the checks of [new]: with a zero stripe size the shard
    of a relation block is a division by zero. *)
Example from_params_zero_stripe_panics :
  ShardIdentity_get_shard_number (E := unit)
    (ShardIdentity_from_params 0 {| params_count := 2; params_stripe_size := 0 |})
    (mkKey 0 1663 5 16396 0 7) = Panic
  ∧ ShardIdentity_new 0 2 0 = Err InvalidStripeSize.
Proof. split; reflexivity. Qed.
