(* ===== verification/KeySpace.v ===== *)
(** * Key spaces

    [libs/pageserver_api/src/keyspace.rs]: sets of keys as sorted lists of
    ranges, the accumulators that build them, set operations on them, and their
    partitioning into chunks of bounded physical size on one shard. *)

From S2P Require Import Prelude Bytes Text Ids Key Shard Search.

Record KeySpace := mkKeySpace { ranges : list KeyRange }.

#[export] Instance KeySpace_settable : Settable KeySpace := λ k, mkKeySpace (ranges k).

(** [impl Display] *)
Definition KeySpace_display (self : KeySpace) : str :=
  lit "[" ++ concat ((λ r, Key_display (r_start r) ++ lit ".." ++ Key_display (r_end r) ++ lit ",")
    <$> ranges self) ++ lit "]".

Record ShardedRange := mkShardedRange { shard_identity : ShardIdentity; range : KeyRange }.

Definition contiguous_range_len (range : KeyRange) : Z :=
  if field6 (r_start range) =? 4294967295 then wrapping_add 32 (field6 (r_end range)) 1
  else wrapping_sub 32 (field6 (r_end range)) (field6 (r_start range)).

Definition is_contiguous_range (range : KeyRange) : bool :=
  let s := r_start range in let e := r_end range in
  (field1 s =? field1 e) && (field2 s =? field2 e) && (field3 s =? field3 e)
  && (field4 s =? field4 e)
  && ((field5 s =? field5 e)
      || ((field6 s =? 4294967295) && (wrapping_add 8 (field5 s) 1 =? field5 e))).

(** A zero stripe size is a division by zero. *)
Definition distance_to_next_boundary {E} (self : ShardedRange) (cursor : Key) : outcome E Z :=
  let distance_to_range_end := contiguous_range_len (mkRange cursor (r_end (range self))) in
  if count (shard_identity self) <? 2 then Ok distance_to_range_end
  else if field6 cursor =? 4294967295 then Ok 1
  else
    let stripe := stripe_size (shard_identity self) in
    if stripe =? 0 then Panic else
    let stripe_index := field6 cursor / stripe in
    let stripe_remainder :=
      wrapping_sub 32 stripe (wrapping_sub 32 (field6 cursor) (wrapping_mul 32 stripe_index stripe)) in
    Ok (Z.min stripe_remainder distance_to_range_end).

(** A fragment: the number of its pages on this shard, and its range. *)
Abbreviation fragment := (Z * KeyRange)%type.

Definition merge_into_last (fragments : list fragment) (this_frag : fragment) : list fragment :=
  alter (λ frag, (wrapping_add 32 frag.1 this_frag.1, frag.2 <| r_end := r_end this_frag.2 |>))
    (pred (length fragments)) fragments.

(** One turn of the loop of [fragment]. *)
Definition fragment_step {E} (self : ShardedRange) (target_nblocks : Z)
    (fragments : list fragment) (cursor : Key) : outcome E (list fragment * Key) :=
  advance_by ← distance_to_next_boundary self cursor;
  is_fragment_disposable ← ShardIdentity_is_key_disposable (shard_identity self) cursor;
  let '(want_blocks, merge_last_fragment) :=
    match last fragments with
    | Some frag =>
      if frag.1 <? target_nblocks then (target_nblocks - frag.1, true)
      else (target_nblocks, is_fragment_disposable)
    | None => (target_nblocks, false)
    end in
  let advance_by := if is_fragment_disposable : bool then advance_by
                    else Z.min advance_by want_blocks in
  next_cursor ← Key_add cursor advance_by;
  let this_frag := (if is_fragment_disposable then 0 else advance_by,
                    mkRange cursor next_cursor) in
  Ok (if merge_last_fragment : bool then merge_into_last fragments this_frag
      else fragments ++ [this_frag], next_cursor).

(** [None] when the fuel runs out: the loop is still running. *)
Fixpoint fragment_loop {E} (fuel : nat) (self : ShardedRange) (target_nblocks : Z)
    (fragments : list fragment) (cursor : Key) : option (outcome E (list fragment)) :=
  if negb (Key_ltb cursor (r_end (range self))) then Some (Ok fragments)
  else
    match fuel with
    | O => None
    | S fuel' =>
      match fragment_step self target_nblocks fragments cursor with
      | Ok (fragments', cursor') => fragment_loop fuel' self target_nblocks fragments' cursor'
      | Err e => Some (Err e)
      | Panic => Some Panic
      end
    end.

Definition ShardedRange_fragment {E} (fuel : nat) (self : ShardedRange) (target_nblocks : Z) :
    option (outcome E (list fragment)) :=
  match Key_add (r_start (range self)) 1 with
  | Ok next =>
    if bool_decide (r_end (range self) = next) then
      Some (b ← ShardIdentity_is_key_disposable (shard_identity self) (r_start (range self));
            Ok [((if b : bool then 0 else 1), range self)])
    else if negb (is_contiguous_range (range self)) then Some (Ok [(u32_max, range self)])
    else fragment_loop fuel self target_nblocks [] (r_start (range self))
  | Err e => Some (Err e)
  | Panic => Some Panic
  end.

Fixpoint page_count_loop {E} (fuel : nat) (self : ShardedRange) (result : Z) (cursor : Key) :
    option (outcome E Z) :=
  if negb (Key_ltb cursor (r_end (range self))) then Some (Ok result)
  else
    match fuel with
    | O => None
    | S fuel' =>
      let step :=
        advance_by ← distance_to_next_boundary self cursor;
        d ← ShardIdentity_is_key_disposable (shard_identity self) cursor;
        next ← Key_add cursor advance_by;
        Ok (if negb d then wrapping_add 64 result advance_by else result, next) in
      match step with
      | Ok (result', cursor') => page_count_loop fuel' self result' cursor'
      | Err e => Some (Err e)
      | Panic => Some Panic
      end
    end.

Definition ShardedRange_page_count {E} (fuel : nat) (self : ShardedRange) :
    option (outcome E Z) :=
  match Key_add (r_start (range self)) 1 with
  | Ok next =>
    if bool_decide (r_end (range self) = next) then
      Some (b ← ShardIdentity_is_key_disposable (shard_identity self) (r_start (range self));
            Ok (if b : bool then 0 else 1))
    else if negb (is_contiguous_range (range self)) then Some (Ok u32_max)
    else if count (shard_identity self) <? 2 then Some (Ok (contiguous_range_len (range self)))
    else
      match page_count_loop fuel self 0 (r_start (range self)) with
      | Some r => Some (n ← r; Ok (if u32_max <? n then u32_max else n))
      | None => None
      end
  | Err e => Some (Err e)
  | Panic => Some Panic
  end.

Definition ShardedRange_raw_size (range : KeyRange) : Z :=
  if is_contiguous_range range then contiguous_range_len range else u32_max.

Definition KeySpace_single (key_range : KeyRange) : KeySpace := mkKeySpace [key_range].

Record KeyPartitioning := { parts : list KeySpace }.

(** The parts closed so far, the current part and its size (a [usize]). *)
Record partition_state := mkPartition {
  ps_parts : list KeySpace;
  ps_current : list KeyRange;
  ps_size : Z;
}.

Definition partition_add (target_nblocks : Z) (st : partition_state) (f : fragment) :
    partition_state :=
  let st :=
    if (target_nblocks <? wrapping_add 64 (ps_size st) f.1) && (0 <? ps_size st)
    then mkPartition (ps_parts st ++ [mkKeySpace (ps_current st)]) [] 0
    else st in
  mkPartition (ps_parts st) (ps_current st ++ [mkRange (r_start f.2) (r_end f.2)])
    (wrapping_add 64 (ps_size st) f.1).

Fixpoint partition_ranges {E} (fuel : nat) (id : ShardIdentity) (target_nblocks : Z)
    (rs : list KeyRange) (st : partition_state) : option (outcome E partition_state) :=
  match rs with
  | [] => Some (Ok st)
  | r :: rs' =>
    match ShardedRange_fragment fuel (mkShardedRange id r) target_nblocks with
    | Some (Ok frags) =>
      partition_ranges fuel id target_nblocks rs' (foldl (partition_add target_nblocks) st frags)
    | Some (Err e) => Some (Err e)
    | Some Panic => Some Panic
    | None => None
    end
  end.

Definition BLCKSZ : Z := 8192.

Definition KeySpace_partition {E} (fuel : nat) (self : KeySpace) (id : ShardIdentity)
    (target_size : Z) : option (outcome E KeyPartitioning) :=
  let target_nblocks := wrap 32 (target_size / BLCKSZ) in
  match partition_ranges fuel id target_nblocks (ranges self) (mkPartition [] [] 0) with
  | Some (Ok st) =>
    Some (Ok {| parts := if bool_decide (ps_current st = []) then ps_parts st
                         else ps_parts st ++ [mkKeySpace (ps_current st)] |})
  | Some (Err e) => Some (Err e)
  | Some Panic => Some Panic
  | None => None
  end.

Definition KeySpace_total_raw_size (self : KeySpace) : Z :=
  foldl (λ acc r, wrapping_add 64 acc (ShardedRange_raw_size r)) 0 (ranges self).

Definition KeySpace_is_empty (self : KeySpace) : bool := KeySpace_total_raw_size self =? 0.

Definition KeySpace_start (self : KeySpace) : option Key := r_start <$> head (ranges self).
Definition KeySpace_end (self : KeySpace) : option Key := r_end <$> last (ranges self).

(** [binary_search_by_key(&range.end, |r| r.start)] *)
Definition KeySpace_overlaps_at (self : KeySpace) (range : KeyRange) : option nat :=
  let check index :=
    match index with
    | O => None
    | S i =>
      match ranges self !! i with
      | Some r => if Key_ltb (r_start range) (r_end r) then Some i else None
      | None => None
      end
    end in
  match binary_search_by (λ r, Key_cmp (r_start r) (r_end range)) (ranges self) with
  | Found index => check index
  | NotFound index => check index
  end.

Definition KeySpace_overlaps (self : KeySpace) (range : KeyRange) : bool :=
  bool_decide (is_Some (KeySpace_overlaps_at self range)).

Definition singleton_range {E} (key : Key) : outcome E KeyRange :=
  next ← Key_next key; Ok (mkRange key next).

Definition KeySpace_contains {E} (self : KeySpace) (key : Key) : outcome E bool :=
  next ← Key_next key;
  Ok (KeySpace_overlaps self (mkRange key next)).

(** ** Accumulators *)

Record KeySpaceAccum := mkAccum {
  accum : option KeyRange;
  accum_ranges : list KeyRange;
  size : Z;
}.

Definition KeySpaceAccum_new : KeySpaceAccum := mkAccum None [] 0.

(** Ranges must come in order: otherwise the assertion fails. *)
Definition KeySpaceAccum_add_range {E} (self : KeySpaceAccum) (range : KeyRange) :
    outcome E KeySpaceAccum :=
  let size' := wrapping_add 64 (size self) (ShardedRange_raw_size range) in
  match accum self with
  | Some a =>
    if bool_decide (r_start range = r_end a) then
      Ok (mkAccum (Some (a <| r_end := r_end range |>)) (accum_ranges self) size')
    else if Key_ltb (r_end a) (r_start range) then
      Ok (mkAccum (Some range) (accum_ranges self ++ [a]) size')
    else Panic
  | None => Ok (mkAccum (Some range) (accum_ranges self) size')
  end.

Definition KeySpaceAccum_add_key {E} (self : KeySpaceAccum) (key : Key) :
    outcome E KeySpaceAccum :=
  r ← singleton_range key; KeySpaceAccum_add_range self r.

Definition KeySpaceAccum_to_keyspace (self : KeySpaceAccum) : KeySpace :=
  mkKeySpace (match accum self with
              | Some a => accum_ranges self ++ [a]
              | None => accum_ranges self
              end).

(** The key space, and the accumulator emptied by [mem::take]. *)
Definition KeySpaceAccum_consume_keyspace (self : KeySpaceAccum) : KeySpace * KeySpaceAccum :=
  (KeySpaceAccum_to_keyspace self, KeySpaceAccum_new).

Definition KeySpaceAccum_raw_size (self : KeySpaceAccum) : Z := size self.

Record KeySpaceRandomAccum := mkRandomAccum { rand_ranges : list KeyRange }.

Definition KeySpaceRandomAccum_new : KeySpaceRandomAccum := mkRandomAccum [].

Definition KeySpaceRandomAccum_add_range (self : KeySpaceRandomAccum) (range : KeyRange) :
    KeySpaceRandomAccum := mkRandomAccum (rand_ranges self ++ [range]).

Definition KeySpaceRandomAccum_add_key {E} (self : KeySpaceRandomAccum) (key : Key) :
    outcome E KeySpaceRandomAccum :=
  r ← singleton_range key; Ok (KeySpaceRandomAccum_add_range self r).

Definition KeySpaceRandomAccum_add_keyspace (self : KeySpaceRandomAccum) (keyspace : KeySpace) :
    KeySpaceRandomAccum :=
  foldl KeySpaceRandomAccum_add_range self (ranges keyspace).

(** [sort_by_key(|r| r.start)], a stable sort. *)
Fixpoint insert_by_start (x : KeyRange) (l : list KeyRange) : list KeyRange :=
  match l with
  | [] => [x]
  | y :: l' => if Key_leb (r_start x) (r_start y) then x :: l else y :: insert_by_start x l'
  end.

Definition sort_by_start (l : list KeyRange) : list KeyRange := foldr insert_by_start [] l.

Fixpoint coalesce {E} (start end_ : Key) (out : list KeyRange) (rs : list KeyRange) :
    outcome E (list KeyRange) :=
  match rs with
  | [] => Ok (out ++ [mkRange start end_])
  | r :: rs' =>
    if negb (Key_leb start (r_start r)) then Panic
    else if Key_ltb end_ (r_start r) then
      coalesce (r_start r) (r_end r) (out ++ [mkRange start end_]) rs'
    else if Key_ltb end_ (r_end r) then coalesce start (r_end r) out rs'
    else coalesce start end_ out rs'
  end.

Definition KeySpaceRandomAccum_to_keyspace {E} (self : KeySpaceRandomAccum) : outcome E KeySpace :=
  match sort_by_start (rand_ranges self) with
  | [] => Ok (mkKeySpace [])
  | r :: rs =>
    out ← coalesce (r_start r) (r_end r) [] (r :: rs);
    Ok (mkKeySpace out)
  end.

Definition KeySpaceRandomAccum_consume_keyspace {E} (self : KeySpaceRandomAccum) :
    outcome E KeySpace * KeySpaceRandomAccum :=
  (KeySpaceRandomAccum_to_keyspace self, KeySpaceRandomAccum_new).

(** ** Set operations *)

(** [itertools::merge_by]: merges two sequences; [is_first a b] tells whether
    [a], of the first one, goes first. *)
Class MergeBy := merge_by : ∀ {A}, (A → A → bool) → list A → list A → list A.

(** Documented: nothing is lost or invented, and two sequences in order are
    merged in order, where [is_first] decides by that order. *)
Class MergeByLaws `{MergeBy} : Prop := {
  merge_by_perm A (is_first : A → A → bool) l1 l2 : merge_by is_first l1 l2 ≡ₚ l1 ++ l2;
  merge_by_sorted A (is_first : A → A → bool) (le : A → A → Prop) l1 l2 :
    Transitive le →
    (∀ a b, a ∈ l1 → b ∈ l2 → if is_first a b then le a b else le b a) →
    StronglySorted le l1 → StronglySorted le l2 → StronglySorted le (merge_by is_first l1 l2);
}.

Section Merge.
Context `{MergeBy}.

Fixpoint merge_loop {E} (acc : KeySpaceAccum) (prev : option KeyRange) (rs : list KeyRange) :
    outcome E KeySpaceAccum :=
  match rs with
  | [] => Ok acc
  | r :: rs' =>
    let overlap :=
      match prev with
      | Some p => Key_ltb (Key_max (r_start r) (r_start p)) (Key_min (r_end r) (r_end p))
      | None => false
      end in
    if overlap then Panic
    else
      acc' ← KeySpaceAccum_add_range acc r;
      merge_loop acc' (Some r) rs'
  end.

Definition KeySpace_merge {E} (self other : KeySpace) : outcome E KeySpace :=
  let all_ranges :=
    merge_by (λ lhs rhs, Key_ltb (r_start lhs) (r_start rhs)) (ranges self) (ranges other) in
  acc ← merge_loop KeySpaceAccum_new None all_ranges;
  Ok (KeySpaceAccum_to_keyspace acc).
End Merge.

Definition insert_range (i : nat) (r : KeyRange) (l : list KeyRange) : list KeyRange :=
  take i l ++ r :: drop i l.

(** One turn of the inner loop, at the range found to overlap: the four tests
    are on the copy made before any of them changes the key space. *)
Definition remove_at (self : KeySpace) (removed : KeySpaceRandomAccum) (at_ : nat)
    (overlapped range : KeyRange) : KeySpace * KeySpaceRandomAccum :=
  let '(rs, acc) := (ranges self, removed) in
  let '(rs, acc) :=
    if Key_ltb (r_start overlapped) (r_start range) && Key_leb (r_end overlapped) (r_end range) then
      (alter (λ r, r <| r_end := r_start range |>) at_ rs,
       KeySpaceRandomAccum_add_range acc
         (mkRange (r_start range) (r_end (default overlapped (rs !! at_)))))
    else (rs, acc) in
  let '(rs, acc) :=
    if Key_leb (r_start range) (r_start overlapped) && Key_ltb (r_end range) (r_end overlapped) then
      (alter (λ r, r <| r_start := r_end range |>) at_ rs,
       KeySpaceRandomAccum_add_range acc
         (mkRange (r_start (default overlapped (rs !! at_))) (r_end range)))
    else (rs, acc) in
  let '(rs, acc) :=
    if Key_ltb (r_start overlapped) (r_start range) && Key_ltb (r_end range) (r_end overlapped) then
      (insert_range (at_ + 1) (mkRange (r_end range) (r_end overlapped))
         (alter (λ r, r <| r_end := r_start range |>) at_ rs),
       KeySpaceRandomAccum_add_range acc range)
    else (rs, acc) in
  let '(rs, acc) :=
    if Key_leb (r_start range) (r_start overlapped) && Key_leb (r_end overlapped) (r_end range) then
      (delete at_ rs, KeySpaceRandomAccum_add_range acc (default overlapped (rs !! at_)))
    else (rs, acc) in
  (mkKeySpace rs, acc).

(** [while let Some(overlap_at) = self.overlaps_at(range)] *)
Fixpoint remove_loop (fuel : nat) (self : KeySpace) (removed : KeySpaceRandomAccum)
    (range : KeyRange) : option (KeySpace * KeySpaceRandomAccum) :=
  match KeySpace_overlaps_at self range with
  | None => Some (self, removed)
  | Some at_ =>
    match fuel, ranges self !! at_ with
    | S fuel', Some overlapped =>
      let '(self', removed') := remove_at self removed at_ overlapped range in
      remove_loop fuel' self' removed' range
    | _, _ => None
    end
  end.

Fixpoint remove_ranges (fuel : nat) (self : KeySpace) (removed : KeySpaceRandomAccum)
    (rs : list KeyRange) : option (KeySpace * KeySpaceRandomAccum) :=
  match rs with
  | [] => Some (self, removed)
  | r :: rs' =>
    match remove_loop fuel self removed r with
    | Some (self', removed') => remove_ranges fuel self' removed' rs'
    | None => None
    end
  end.

(** The key space that is left, and the one that was removed. *)
Definition KeySpace_remove_overlapping_with {E} (fuel : nat) (self other : KeySpace) :
    option (outcome E (KeySpace * KeySpace)) :=
  match KeySpace_start self, KeySpace_end self with
  | Some self_start, Some self_end =>
    let other_ranges :=
      take_while (λ r, Key_ltb (r_start r) self_end)
        (skip_while (λ r, Key_leb (r_end r) self_start) (ranges other)) in
    match remove_ranges fuel self KeySpaceRandomAccum_new other_ranges with
    | Some (self', removed) =>
      Some (r ← KeySpaceRandomAccum_to_keyspace removed; Ok (self', r))
    | None => None
    end
  | _, _ => Some (Ok (self, mkKeySpace []))
  end.
