(* ===== verification/KeySpaceProps.v ===== *)
(** * Key spaces denote sets of keys

    The operations of [KeySpace.v] compute the set operations their names say:
    lookup, union, difference and intersection; they keep the ranges sorted and
    disjoint; and partitioning neither loses nor duplicates a key. *)

From S2P Require Import Prelude Bytes Text Ids Key Shard Search KeySpace.

Abbreviation kstart r := (key_value (r_start r)).
Abbreviation kend r := (key_value (r_end r)).

(** A range of well-formed keys that holds at least one key. *)
Record range_wf (r : KeyRange) : Prop := {
  wf_start : Key_wf (r_start r);
  wf_end : Key_wf (r_end r);
  wf_nonempty : kstart r < kend r;
}.

Definition range_wfb (r : KeyRange) : bool :=
  Key_wfb (r_start r) && Key_wfb (r_end r) && (kstart r <? kend r).

Lemma range_wfb_spec r : range_wfb r = true → range_wf r.
Proof.
  unfold range_wfb. rewrite !andb_true_iff, !Key_wfb_spec. intros [[? ?] ?]. split; [done|done|lia].
Qed.

(** [a] lies entirely before [b]. *)
Definition before (a b : KeyRange) : Prop := range_wf a ∧ range_wf b ∧ kend a ≤ kstart b.

#[export] Instance before_trans : Transitive before.
Proof. intros a b c (Ha & Hb & H1) (_ & Hc & H2). destruct Hb. split_and!; [done|done|lia]. Qed.

(** "In key order, and with no overlap." *)
Definition ranges_inv (rs : list KeyRange) : Prop := Forall range_wf rs ∧ StronglySorted before rs.
Definition KeySpace_inv (ks : KeySpace) : Prop := ranges_inv (ranges ks).

(** The set of keys, by their numbers. *)
Definition range_has (r : KeyRange) (z : Z) : Prop := kstart r ≤ z < kend r.
Definition in_ranges (rs : list KeyRange) (z : Z) : Prop := List.Exists (λ r, range_has r z) rs.
Definition in_keyspace (ks : KeySpace) (k : Key) : Prop := in_ranges (ranges ks) (key_value k).

Definition overlapping (a b : KeyRange) : Prop := kstart a < kend b ∧ kstart b < kend a.

#[export] Instance overlapping_dec a b : Decision (overlapping a b).
Proof. unfold overlapping. apply _. Defined.

(** A decision procedure: sorted and disjoint is checked on neighbours. *)
Fixpoint ranges_invb (rs : list KeyRange) : bool :=
  match rs with
  | [] => true
  | a :: rs' =>
    range_wfb a && match rs' with b :: _ => kend a <=? kstart b | [] => true end && ranges_invb rs'
  end.

Lemma ranges_inv_nil : ranges_inv [].
Proof. split; constructor. Qed.

Lemma ranges_inv_cons a rs :
  ranges_inv (a :: rs) ↔ range_wf a ∧ Forall (before a) rs ∧ ranges_inv rs.
Proof.
  unfold ranges_inv. rewrite Forall_cons. split.
  - intros [[Ha Hrs] Hs]. inversion Hs; subst. auto.
  - intros (Ha & Hb & Hrs & Hs). split; [done|]. by constructor.
Qed.

Lemma ranges_invb_spec rs : ranges_invb rs = true → ranges_inv rs.
Proof.
  induction rs as [|a rs IH]; [intros _; apply ranges_inv_nil|].
  simpl. rewrite !andb_true_iff. intros [[Ha Hn] Hrs]. apply range_wfb_spec in Ha.
  specialize (IH Hrs). apply ranges_inv_cons. split_and!; [done| |done].
  destruct rs as [|b rs]; [constructor|]. apply ranges_inv_cons in IH as (Hb & Hf & _).
  assert (Hab : before a b) by (split_and!; [done|done|lia]).
  constructor; [done|]. eapply Forall_impl; [exact Hf|]. intros c Hc. by etrans.
Qed.

Lemma ranges_inv_app l r :
  ranges_inv (l ++ r) ↔ ranges_inv l ∧ ranges_inv r ∧ ∀ a b, a ∈ l → b ∈ r → before a b.
Proof.
  induction l as [|a l IH]; simpl.
  - split; [intros; split_and!; [apply ranges_inv_nil|done|set_solver] | tauto].
  - rewrite !ranges_inv_cons, IH, Forall_app, !Forall_forall. set_solver.
Qed.

Lemma ranges_inv_wf rs r : ranges_inv rs → r ∈ rs → range_wf r.
Proof. intros [H _]. rewrite Forall_forall in H. auto. Qed.

Lemma ranges_inv_lookup rs i j a b :
  ranges_inv rs → (i < j)%nat → rs !! i = Some a → rs !! j = Some b → kend a ≤ kstart b.
Proof.
  intros Hinv Hij Ha Hb. rewrite <- (take_drop_middle rs i a Ha) in Hinv.
  apply ranges_inv_app in Hinv as (_ & Hinv & _). apply ranges_inv_cons in Hinv as (_ & Hf & _).
  rewrite Forall_lookup in Hf. specialize (Hf (j - S i)%nat b).
  rewrite lookup_drop in Hf. replace (S i + (j - S i))%nat with j in Hf by lia.
  by destruct (Hf Hb) as (_ & _ & ?).
Qed.

Lemma in_ranges_app l r z : in_ranges (l ++ r) z ↔ in_ranges l z ∨ in_ranges r z.
Proof. apply Exists_app. Qed.

Lemma in_ranges_cons a r z : in_ranges (a :: r) z ↔ range_has a z ∨ in_ranges r z.
Proof. apply Exists_cons. Qed.

Lemma in_ranges_nil z : in_ranges [] z ↔ False.
Proof. apply Exists_nil. Qed.

Lemma in_ranges_elem rs z : in_ranges rs z ↔ ∃ r, r ∈ rs ∧ range_has r z.
Proof. apply Exists_exists. Qed.

Create HintDb keyspace.
#[export] Hint Resolve wf_start wf_end ranges_inv_wf : keyspace.

(** ** Searching *)

Lemma search_sorted_start rs k :
  Key_wf k → ranges_inv rs → search_sorted (λ r, Key_cmp (r_start r) k) rs.
Proof.
  intros Hk Hinv i j x y Hij Hx Hy.
  assert (range_wf x ∧ range_wf y) as [Wx Wy]
    by (split; eapply ranges_inv_wf; try exact Hinv; by eapply list_elem_of_lookup_2).
  assert (Hle : kstart x ≤ kstart y).
  { destruct (decide (i = j)) as [->|]; [by simplify_eq|].
    pose proof (ranges_inv_lookup rs i j x y Hinv ltac:(lia) Hx Hy). destruct Wx. lia. }
  rewrite !Key_cmp_value by eauto with keyspace.
  destruct (Z.compare_spec (kstart x) (key_value k)), (Z.compare_spec (kstart y) (key_value k));
    simpl; lia || done.
Qed.

(** The index [overlaps_at] looks below separates the ranges that start before
    the end of the searched range from the others. *)
Lemma overlaps_at_index ks range :
  KeySpace_inv ks → range_wf range →
  ∃ idx, (idx ≤ length (ranges ks))%nat
    ∧ (∀ j r, (j < idx)%nat → ranges ks !! j = Some r → kstart r < kend range)
    ∧ (∀ j r, (idx ≤ j)%nat → ranges ks !! j = Some r → kend range ≤ kstart r)
    ∧ KeySpace_overlaps_at ks range =
      match idx with
      | O => None
      | S i => match ranges ks !! i with
               | Some r => if Key_ltb (r_start range) (r_end r) then Some i else None
               | None => None
               end
      end.
Proof.
  intros Hinv Hr. unfold KeySpace_overlaps_at.
  pose proof (binary_search_by_spec (λ r, Key_cmp (r_start r) (r_end range)) (ranges ks)
    (search_sorted_start _ _ (wf_end _ Hr) Hinv)) as Hs.
  assert (Hcmp : ∀ j x, ranges ks !! j = Some x →
    Key_cmp (r_start x) (r_end range) = (kstart x ?= kend range)).
  { intros j x Hx. apply list_elem_of_lookup_2 in Hx.
    rewrite Key_cmp_value by eauto with keyspace. done. }
  destruct (binary_search_by _ _) as [idx|idx]; exists idx.
  - destruct Hs as (x & Hx & Hc). rewrite (Hcmp _ _ Hx) in Hc. apply Z.compare_eq in Hc.
    split_and!; [apply lookup_lt_Some in Hx; lia| | |done].
    + intros j r Hj Hjr. pose proof (ranges_inv_lookup _ _ _ _ _ Hinv Hj Hjr Hx).
      apply list_elem_of_lookup_2, (ranges_inv_wf _ _ Hinv) in Hjr as []. lia.
    + intros j r Hj Hjr. destruct (decide (idx = j)) as [->|]; [simplify_eq; lia|].
      pose proof (ranges_inv_lookup _ idx j _ _ Hinv ltac:(lia) Hx Hjr).
      apply list_elem_of_lookup_2, (ranges_inv_wf _ _ Hinv) in Hx as []. lia.
  - destruct Hs as (Hl & Hlt & Hgt). split_and!; [done| | |done].
    + intros j r Hj Hjr. specialize (Hlt j r Hj Hjr). rewrite (Hcmp _ _ Hjr) in Hlt. by apply Z.compare_lt_iff.
    + intros j r Hj Hjr. specialize (Hgt j r Hj Hjr). rewrite (Hcmp _ _ Hjr) in Hgt.
      apply Z.compare_gt_iff in Hgt. lia.
Qed.

(** What [overlaps_at] returns: the last range that overlaps, if any does. *)
Lemma overlaps_at_spec ks range :
  KeySpace_inv ks → range_wf range →
  match KeySpace_overlaps_at ks range with
  | Some i => ∃ l o r, ranges ks = l ++ o :: r ∧ length l = i ∧ overlapping o range
      ∧ Forall (λ x, ¬ overlapping x range) r
  | None => Forall (λ x, ¬ overlapping x range) (ranges ks)
  end.
Proof.
  intros Hinv Hr. destruct (overlaps_at_index ks range Hinv Hr) as (idx & Hl & Hlt & Hge & ->).
  assert (Hafter : ∀ j r, (idx ≤ j)%nat → ranges ks !! j = Some r → ¬ overlapping r range).
  { intros j r Hj Hjr [? _]. specialize (Hge j r Hj Hjr). lia. }
  destruct idx as [|i].
  { apply Forall_lookup. intros j r Hjr. apply (Hafter j); [lia|done]. }
  destruct (ranges ks !! i) as [o|] eqn:Ho; [|apply lookup_ge_None in Ho; lia].
  assert (Wo : range_wf o) by (eapply ranges_inv_wf; [done|by eapply list_elem_of_lookup_2]).
  rewrite Key_ltb_value by eauto with keyspace.
  destruct (Z.ltb_spec (kstart range) (kend o)) as [H|H].
  - exists (take i (ranges ks)), o, (drop (S i) (ranges ks)). split_and!.
    + by rewrite take_drop_middle.
    + rewrite length_take. lia.
    + split; [|lia]. by apply (Hlt i); [lia|].
    + apply Forall_lookup. intros j r. rewrite lookup_drop. apply Hafter. lia.
  - apply Forall_lookup. intros j r Hjr. destruct (decide (S i ≤ j)%nat); [by apply (Hafter j)|].
    intros [_ Hov]. destruct (decide (j = i)) as [->|]; [simplify_eq; lia|].
    pose proof (ranges_inv_lookup _ j i _ _ Hinv ltac:(lia) Hjr Ho). destruct Wo. lia.
Qed.

Lemma overlaps_spec ks range :
  KeySpace_inv ks → range_wf range →
  KeySpace_overlaps ks range = true ↔ ∃ z, in_ranges (ranges ks) z ∧ range_has range z.
Proof.
  intros Hinv Hr. pose proof (overlaps_at_spec ks range Hinv Hr) as Hs.
  unfold KeySpace_overlaps. rewrite bool_decide_eq_true. destruct (KeySpace_overlaps_at ks range).
  - destruct Hs as (l & o & r & E & _ & Ho & _). split; [intros _|by eauto].
    assert (Wo : range_wf o) by (eapply ranges_inv_wf; [done|]; rewrite E; set_solver).
    exists (Z.max (kstart o) (kstart range)). destruct Wo, Hr, Ho. split.
    + rewrite E, in_ranges_app, in_ranges_cons. unfold range_has. right; left; lia.
    + unfold range_has. lia.
  - split; [by intros []|]. intros (z & Hz & Hzr). apply in_ranges_elem in Hz as (r & Hin & Hrz).
    rewrite Forall_forall in Hs. destruct (Hs r Hin). unfold range_has, overlapping in *. lia.
Qed.

(** The binary search answers membership: [contains] is true exactly of the keys
    of the key space (it panics on the very last key, which has no successor),
    and [overlaps] exactly of the ranges that share a key with it. *)
Theorem KeySpace_lookup_correct (ks : KeySpace) (Hinv : KeySpace_inv ks) :
  (∀ k, Key_wf k → k ≠ Key_MAX →
     ∃ b, KeySpace_contains (E := unit) ks k = Ok b ∧ (b = true ↔ in_keyspace ks k))
  ∧ (∀ r, range_wf r →
     (KeySpace_overlaps ks r = true ↔ ∃ z, in_ranges (ranges ks) z ∧ range_has r z)).
Proof.
  split; [|intros; by apply overlaps_spec].
  intros k Hk Hmax. unfold KeySpace_contains, Key_next.
  pose proof (Key_add_value k 1 Hk ltac:(unfold in_u; lia)) as Ha. unfold add_result in Ha.
  destruct (Key_add k 1) as [next| |]; [|done|].
  - destruct Ha as [Hn Hv]. eexists; split; [reflexivity|].
    assert (Hr : range_wf (mkRange k next)) by (split; simpl; [done|done|lia]).
    rewrite (overlaps_spec _ _ Hinv Hr). unfold in_keyspace, range_has. simpl. split.
    + intros (z & Hz & Hzr). by replace (key_value k) with z by lia.
    + intros Hz. exists (key_value k). split; [done|lia].
  - destruct Hmax. apply key_value_inj; [done|by apply Key_wfb_spec|].
    pose proof (key_value_bound k Hk). change (key_value Key_MAX) with (2 ^ 144 - 1). lia.
Qed.

Definition test_keyspace : KeySpace := mkKeySpace
  [mkRange (mkKey 0 1663 5 16384 0 0) (mkKey 0 1663 5 16384 0 100);
   mkRange (mkKey 0 1663 5 16385 0 0) (mkKey 0 1663 5 16385 0 30)].

Lemma test_keyspace_inv : KeySpace_inv test_keyspace.
Proof. apply ranges_invb_spec. vm_compute. reflexivity. Qed.

Lemma KeySpace_lookup_correct_witness :
  KeySpace_contains (E := unit) test_keyspace (mkKey 0 1663 5 16384 0 99) = Ok true
  ∧ in_keyspace test_keyspace (mkKey 0 1663 5 16384 0 99).
Proof.
  split; [reflexivity|].
  destruct (KeySpace_lookup_correct test_keyspace test_keyspace_inv) as [H _].
  destruct (H (mkKey 0 1663 5 16384 0 99)) as (b & Hb & Hin);
    [by apply Key_wfb_spec | done |]. apply Hin. injection Hb as <-. reflexivity.
Defined.

(** ** Building a key space from ranges in any order *)

Definition start_sorted (rs : list KeyRange) : Prop :=
  StronglySorted (λ a b, kstart a ≤ kstart b) rs.

Lemma insert_by_start_perm x l : insert_by_start x l ≡ₚ x :: l.
Proof.
  induction l as [|y l IH]; simpl; [done|]. case_match; [done|]. rewrite IH. apply Permutation_swap.
Qed.

Lemma sort_by_start_perm l : sort_by_start l ≡ₚ l.
Proof.
  induction l as [|x l IH]; simpl; [done|]. rewrite insert_by_start_perm. by f_equiv.
Qed.

Lemma insert_by_start_sorted x l :
  range_wf x → Forall range_wf l → start_sorted l → start_sorted (insert_by_start x l).
Proof.
  intros Wx. induction l as [|y l IH]; intros Wl Hs; simpl; [by repeat constructor|].
  inversion Wl as [|? ? Wy Wl']; subst. inversion Hs as [|? ? Hs' Hy]; subst.
  rewrite Key_leb_value by eauto with keyspace. destruct (Z.leb_spec (kstart x) (kstart y)).
  - constructor; [done|]. constructor; [done|]. eapply Forall_impl; [exact Hy|]. simpl. lia.
  - constructor; [by apply IH|]. rewrite insert_by_start_perm. constructor; [lia|done].
Qed.

Lemma sort_by_start_sorted l : Forall range_wf l → start_sorted (sort_by_start l).
Proof.
  induction 1 as [|x l Hx Hl IH]; simpl; [constructor|].
  apply insert_by_start_sorted; [done| |done]. by rewrite sort_by_start_perm.
Qed.

(** Sorted with a gap between neighbours: no two ranges could be joined. *)
Definition separated (rs : list KeyRange) : Prop :=
  ranges_inv rs ∧ StronglySorted (λ a b, kend a < kstart b) rs.

Lemma separated_snoc rs r :
  separated rs → range_wf r → (∀ a, a ∈ rs → kend a < kstart r) → separated (rs ++ [r]).
Proof.
  intros [Hi Hs] Hr Ha. split.
  - apply ranges_inv_app. split_and!; [done|apply ranges_inv_cons; split_and!; [done|constructor|
      apply ranges_inv_nil]|]. intros a b Hina Hb. apply list_elem_of_singleton in Hb as ->.
    split_and!; [by eapply ranges_inv_wf|done|]. specialize (Ha _ Hina). lia.
  - clear Hi. induction Hs as [|a l Hs IH Hf]; simpl; [by repeat constructor|].
    constructor; [apply IH; set_solver|]. apply Forall_app; split; [done|]. constructor; [|constructor].
    apply Ha. set_solver.
Qed.

Lemma coalesce_spec rs : ∀ start end_ out,
  Forall range_wf rs → start_sorted rs → (∀ r, r ∈ rs → key_value start ≤ kstart r) →
  range_wf (mkRange start end_) → separated out →
  (∀ a, a ∈ out → kend a < key_value start) →
  ∃ res, coalesce (E := unit) start end_ out rs = Ok res ∧ separated res
    ∧ ∀ z, in_ranges res z ↔ in_ranges (out ++ mkRange start end_ :: rs) z.
Proof.
  induction rs as [|r rs IH]; intros start end_ out Wrs Hs Hge Wc Ho Hout; simpl.
  { eexists; split; [done|]. split; [by apply separated_snoc | done]. }
  inversion Wrs as [|? ? Wr Wrs']; subst. inversion Hs as [|? ? Hs' Hr]; subst.
  pose proof (Hge r ltac:(set_solver)) as Hger. rewrite Forall_forall in Hr.
  destruct Wc as [Ws We Hc]; simpl in *. pose proof Wr as [Wrstart Wrend Hrn].
  rewrite !Key_leb_value, !Key_ltb_value by done.
  rewrite (proj2 (Z.leb_le _ _) Hger). simpl.
  destruct (Z.ltb_spec (key_value end_) (kstart r)) as [Hgap|Hgap].
  - destruct (IH (r_start r) (r_end r) (out ++ [mkRange start end_])) as (res & Hres & Hsep & Hin); try done.
    + by apply separated_snoc.
    + intros a Ha. apply elem_of_app in Ha as [Ha|Ha].
      * specialize (Hout a Ha). lia.
      * apply list_elem_of_singleton in Ha as ->. done.
    + exists res. split_and!; [done|done|]. intros z. rewrite Hin.
      rewrite !in_ranges_app, !in_ranges_cons, in_ranges_nil. unfold range_has. simpl. tauto.
  - assert (Hjoin : ∀ e, key_value end_ ≤ key_value e → (key_value e = key_value end_ ∨ e = r_end r) →
        kend r ≤ key_value e → Key_wf e →
      ∃ res, coalesce (E := unit) start e out rs = Ok res ∧ separated res
        ∧ ∀ z, in_ranges res z ↔ in_ranges (out ++ mkRange start end_ :: r :: rs) z).
    { intros e He1 He2 He3 We'.
      destruct (IH start e out) as (res & Hres & Hsep & Hin); try done.
      - intros x Hx. apply Hge. set_solver.
      - split; simpl; [done|done|lia].
      - exists res. split_and!; [done|done|]. intros z. rewrite Hin.
        rewrite !in_ranges_app, !in_ranges_cons. unfold range_has. simpl.
        destruct He2 as [E|E]; [|subst e]; [rewrite E in *|]; intuition lia. }
    destruct (Z.ltb_spec (key_value end_) (kend r)); apply Hjoin; auto; lia.
Qed.

(** Ranges added in any order, overlapping or not, come out sorted, disjoint
    and maximal, and denote the union. *)
Lemma random_accum_spec acc :
  Forall range_wf (rand_ranges acc) →
  ∃ ks, KeySpaceRandomAccum_to_keyspace (E := unit) acc = Ok ks ∧ separated (ranges ks)
    ∧ ∀ z, in_ranges (ranges ks) z ↔ in_ranges (rand_ranges acc) z.
Proof.
  intros W. unfold KeySpaceRandomAccum_to_keyspace.
  pose proof (sort_by_start_perm (rand_ranges acc)) as Hp.
  pose proof (sort_by_start_sorted _ W) as Hs.
  assert (W' : Forall range_wf (sort_by_start (rand_ranges acc))) by by rewrite Hp.
  assert (Hset : ∀ z, in_ranges (sort_by_start (rand_ranges acc)) z ↔ in_ranges (rand_ranges acc) z).
  { intros z. rewrite !in_ranges_elem. by setoid_rewrite Hp. }
  destruct (sort_by_start (rand_ranges acc)) as [|r rs].
  - eexists; split; [done|]. split; [split; [apply ranges_inv_nil|constructor]|]. intros z. apply Hset.
  - inversion W' as [|? ? Wr Wrs]; subst. inversion Hs as [|? ? Hs' Hr]; subst.
    destruct (coalesce_spec (r :: rs) (r_start r) (r_end r) []) as (res & Hres & Hsep & Hin).
    + done.
    + done.
    + rewrite Forall_forall in Hr. intros x Hx. apply elem_of_cons in Hx as [->|Hx]; [lia|auto].
    + by destruct r.
    + split; [apply ranges_inv_nil|constructor].
    + set_solver.
    + rewrite Hres. simpl. eexists; split; [done|]. split; [done|]. intros z. simpl.
      rewrite Hin, <- Hset, in_ranges_app, !in_ranges_cons, in_ranges_nil. unfold range_has; simpl. tauto.
Qed.

Lemma add_ranges_random acc rs :
  rand_ranges (foldl KeySpaceRandomAccum_add_range acc rs) = rand_ranges acc ++ rs.
Proof.
  revert acc. induction rs as [|r rs IH]; intros acc; simpl; [by rewrite app_nil_r|].
  rewrite IH. simpl. by rewrite <- app_assoc.
Qed.

(** C40: Key spaces and ranges added in any order and overlapping at will come out
    as one key space, sorted, disjoint and with neighbouring ranges joined,
    that holds exactly their union. *)
Theorem KeySpaceRandomAccum_union (spaces : list KeySpace)
    (Hs : Forall (λ ks, Forall range_wf (ranges ks)) spaces) :
  ∃ ks, KeySpaceRandomAccum_to_keyspace (E := unit)
          (foldl KeySpaceRandomAccum_add_keyspace KeySpaceRandomAccum_new spaces) = Ok ks
    ∧ separated (ranges ks)
    ∧ ∀ k, in_keyspace ks k ↔ ∃ s, s ∈ spaces ∧ in_keyspace s k.
Proof.
  assert (Hr : ∀ acc, rand_ranges (foldl KeySpaceRandomAccum_add_keyspace acc spaces)
    = rand_ranges acc ++ concat (ranges <$> spaces)).
  { clear Hs. induction spaces as [|s spaces IH]; intros acc; simpl; [by rewrite app_nil_r|].
    rewrite IH. unfold KeySpaceRandomAccum_add_keyspace. by rewrite add_ranges_random, <- app_assoc. }
  destruct (random_accum_spec (foldl KeySpaceRandomAccum_add_keyspace KeySpaceRandomAccum_new spaces))
    as (ks & Hks & Hsep & Hin).
  { rewrite Hr. simpl. by apply Forall_concat, Forall_fmap. }
  exists ks. split_and!; [done|done|]. intros k. unfold in_keyspace. rewrite Hin, Hr. simpl.
  clear. induction spaces as [|s spaces IH]; simpl; [rewrite in_ranges_nil; set_solver|].
  rewrite in_ranges_app, IH. set_solver.
Qed.

Lemma KeySpaceRandomAccum_union_witness :
  KeySpaceRandomAccum_to_keyspace (E := unit)
    (foldl KeySpaceRandomAccum_add_keyspace KeySpaceRandomAccum_new
       [test_keyspace; KeySpace_single (mkRange (mkKey 0 1663 5 16384 0 50) (mkKey 0 1663 5 16385 0 0))])
  = Ok (KeySpace_single (mkRange (mkKey 0 1663 5 16384 0 0) (mkKey 0 1663 5 16385 0 30)))
  ∧ ∃ ks, KeySpaceRandomAccum_to_keyspace (E := unit)
      (foldl KeySpaceRandomAccum_add_keyspace KeySpaceRandomAccum_new
         [test_keyspace; KeySpace_single (mkRange (mkKey 0 1663 5 16384 0 50) (mkKey 0 1663 5 16385 0 0))])
      = Ok ks ∧ separated (ranges ks).
Proof.
  split; [reflexivity|].
  destruct (KeySpaceRandomAccum_union [test_keyspace;
    KeySpace_single (mkRange (mkKey 0 1663 5 16384 0 50) (mkKey 0 1663 5 16385 0 0))])
    as (ks & Hk & Hs & _).
  - repeat constructor; by apply Key_wfb_spec.
  - by exists ks.
Defined.

(** ** Building a key space in order *)

(** The ranges of the accumulator, the open one last. *)
Definition accum_list (acc : KeySpaceAccum) : list KeyRange :=
  ranges (KeySpaceAccum_to_keyspace acc).

Definition accum_inv (acc : KeySpaceAccum) : Prop :=
  separated (accum_list acc) ∧ (accum acc = None → accum_ranges acc = []).

Lemma separated_replace_last rs a e :
  separated (rs ++ [a]) → Key_wf e → kend a ≤ key_value e →
  separated (rs ++ [a <| r_end := e |>]).
Proof.
  intros [Hi Hs] We He. apply ranges_inv_app in Hi as (Hi & Ha & Hb).
  apply ranges_inv_cons in Ha as ([Wa Wae Hn] & _ & _).
  apply separated_snoc.
  - split; [done|]. clear -Hs. induction rs as [|x rs IH]; [constructor|]. simpl in Hs.
    inversion Hs as [|? ? Hs' Hf]; subst. apply Forall_app in Hf as [Hf _]. constructor; auto.
  - split; simpl; [done|done|lia].
  - intros x Hx. simpl. clear -Hs Hx. induction rs as [|y rs IH]; [set_solver|]. simpl in Hs.
    inversion Hs as [|? ? Hs' Hf]; subst. apply Forall_app in Hf as [_ Hf].
    inversion Hf; subst. apply elem_of_cons in Hx as [->|Hx]; [done|]. by apply IH.
Qed.

(** A range at or after everything added so far is accepted. *)
Lemma accum_add_range acc r :
  accum_inv acc → range_wf r → (∀ a, a ∈ accum_list acc → kend a ≤ kstart r) →
  ∃ acc', KeySpaceAccum_add_range (E := unit) acc r = Ok acc' ∧ accum_inv acc'
    ∧ (∀ z, in_ranges (accum_list acc') z ↔ in_ranges (accum_list acc) z ∨ range_has r z)
    ∧ (∀ a, a ∈ accum_list acc' → kend a ≤ kend r).
Proof.
  intros [Hsep Hnone] Wr Hle. unfold KeySpaceAccum_add_range, accum_inv, accum_list,
    KeySpaceAccum_to_keyspace in *. destruct (accum acc) as [a|]; simpl in *.
  - pose proof (Hle a ltac:(set_solver)) as Ha.
    assert (Wa : range_wf a) by (eapply ranges_inv_wf; [apply Hsep|set_solver]).
    pose proof Wr as [Wrs Wre Hr]. pose proof Wa as [Was Wae Han].
    case_bool_decide as Heq.
    + eexists; split; [done|]. simpl. split_and!.
      * apply separated_replace_last; [done|done|]. rewrite <- Heq. lia.
      * done.
      * intros z. rewrite !in_ranges_app, !in_ranges_cons, in_ranges_nil. unfold range_has. simpl.
        rewrite Heq in *. intuition lia.
      * intros x Hx. apply elem_of_app in Hx as [Hx|Hx].
        -- specialize (Hle x ltac:(set_solver)). lia.
        -- apply list_elem_of_singleton in Hx as ->. simpl. lia.
    + assert (Hlt : kend a < kstart r).
      { destruct (decide (kend a = kstart r)) as [E|]; [|lia]. destruct Heq. symmetry.
        by apply key_value_inj. }
      rewrite Key_ltb_value, (proj2 (Z.ltb_lt _ _) Hlt) by done.
      eexists; split; [done|]. simpl. split_and!; [|done| |].
      * apply separated_snoc; [done|done|]. intros x Hx.
        apply elem_of_app in Hx as [Hx|Hx]; [|by apply list_elem_of_singleton in Hx as ->].
        destruct Hsep as [Hi _]. apply ranges_inv_app in Hi as (_ & _ & Hb).
        destruct (Hb x a Hx ltac:(set_solver)) as (_ & _ & ?). lia.
      * intros z. rewrite !in_ranges_app, !in_ranges_cons, in_ranges_nil. tauto.
      * intros x Hx. apply elem_of_app in Hx as [Hx|Hx]; [specialize (Hle x Hx); lia|].
        by apply list_elem_of_singleton in Hx as ->.
  - rewrite Hnone in * by done. eexists; split; [done|]. simpl. split_and!; [|done| |].
    + apply (separated_snoc []); [done|done|set_solver].
    + intros z. rewrite in_ranges_cons, in_ranges_nil. tauto.
    + intros x Hx. by apply list_elem_of_singleton in Hx as ->.
Qed.

Lemma merge_loop_spec rs : ∀ acc prev,
  ranges_inv rs → accum_inv acc →
  (∀ a r, a ∈ accum_list acc → r ∈ rs → kend a ≤ kstart r) →
  (∀ p r, prev = Some p → r ∈ rs → before p r) →
  ∃ acc', merge_loop (E := unit) acc prev rs = Ok acc' ∧ accum_inv acc'
    ∧ ∀ z, in_ranges (accum_list acc') z ↔ in_ranges (accum_list acc) z ∨ in_ranges rs z.
Proof.
  induction rs as [|r rs IH]; intros acc prev Hi Hacc Hle Hprev; simpl.
  { exists acc. split_and!; [done|done|]. intros z. rewrite in_ranges_nil. tauto. }
  apply ranges_inv_cons in Hi as (Wr & Hf & Hi). rewrite Forall_forall in Hf.
  assert (Ho : match prev with
    | Some p => Key_ltb (Key_max (r_start r) (r_start p)) (Key_min (r_end r) (r_end p))
    | None => false end = false).
  { destruct prev as [p|]; [|done].
    destruct (Hprev p r eq_refl ltac:(set_solver)) as ([Wp1 Wp2 Hp] & [Wr1 Wr2 Hr] & Hb).
    unfold Key_max, Key_min.
    rewrite (Key_ltb_value (r_start p) (r_start r)), (Key_ltb_value (r_end p) (r_end r)) by done.
    repeat case_match; bool_prop; rewrite Key_ltb_value by done; lia. }
  rewrite Ho. destruct (accum_add_range acc r Hacc Wr) as (acc1 & -> & Hacc1 & Hin & Hle1).
  { intros a Ha. apply Hle; set_solver. }
  simpl. destruct (IH acc1 (Some r) Hi Hacc1) as (acc' & -> & Hacc' & Hin').
  - intros a x Ha Hx. specialize (Hle1 a Ha). destruct (Hf x Hx) as (_ & _ & ?). lia.
  - intros p x [= <-] Hx. auto.
  - exists acc'. split_and!; [done|done|]. intros z. rewrite Hin', Hin, in_ranges_cons. tauto.
Qed.

Section Merging.
Context `{MergeByLaws}.

(** Merging two key spaces that have no key in common gives their union, sorted
    and joined up; nothing panics. *)
Theorem KeySpace_merge_union (a b : KeySpace) (Ha : KeySpace_inv a) (Hb : KeySpace_inv b)
    (Hdis : ∀ z, in_ranges (ranges a) z → in_ranges (ranges b) z → False) :
  ∃ c, KeySpace_merge (E := unit) a b = Ok c ∧ separated (ranges c)
    ∧ ∀ k, in_keyspace c k ↔ in_keyspace a k ∨ in_keyspace b k.
Proof.
  unfold KeySpace_merge.
  set (all := merge_by _ (ranges a) (ranges b)).
  assert (Hp : all ≡ₚ ranges a ++ ranges b) by apply merge_by_perm.
  assert (Hall : ranges_inv all).
  { split.
    - rewrite Hp. apply Forall_app. split; [apply Ha|apply Hb].
    - apply merge_by_sorted; [apply _| |apply Ha|apply Hb]. intros x y Hx Hy.
      pose proof (ranges_inv_wf _ _ Ha Hx) as Wx. pose proof (ranges_inv_wf _ _ Hb Hy) as Wy.
      assert (Hno : ¬ overlapping x y).
      { intros [H1 H2]. apply (Hdis (Z.max (kstart x) (kstart y))); apply in_ranges_elem;
          [exists x|exists y]; (split; [done|]); unfold range_has; destruct Wx, Wy; lia. }
      unfold overlapping in Hno. pose proof Wx as [? ? ?]. pose proof Wy as [? ? ?].
      rewrite Key_ltb_value by done.
      destruct (Z.ltb_spec (kstart x) (kstart y)); split_and!; try done; lia. }
  destruct (merge_loop_spec all KeySpaceAccum_new None) as (acc & -> & Hacc & Hin).
  - done.
  - split; [|done]. split; [apply ranges_inv_nil|constructor].
  - set_solver.
  - done.
  - simpl. eexists; split; [done|]. split; [apply Hacc|]. intros k. unfold in_keyspace.
    rewrite (Hin (key_value k)). rewrite !in_ranges_elem.
    setoid_rewrite Hp. set_solver.
Qed.
End Merging.

(** The obvious merge satisfies what is asked of [merge_by]. *)
Fixpoint simple_merge {A} (is_first : A → A → bool) (l1 : list A) : list A → list A :=
  fix go l2 :=
    match l1, l2 with
    | [], _ => l2
    | _, [] => l1
    | a :: l1', b :: l2' => if is_first a b then a :: simple_merge is_first l1' l2 else b :: go l2'
    end.

Definition simple_merge_by : MergeBy := @simple_merge.

Lemma simple_merge_perm {A} (f : A → A → bool) l1 : ∀ l2, simple_merge f l1 l2 ≡ₚ l1 ++ l2.
Proof.
  induction l1 as [|a l1 IH1]; intros l2; [by destruct l2|].
  induction l2 as [|b l2 IH2]; [by rewrite app_nil_r|].
  simpl. destruct (f a b).
  - f_equiv. apply IH1.
  - etrans; [f_equiv; apply IH2|]. change (a :: l1 ++ b :: l2) with ((a :: l1) ++ b :: l2).
    by rewrite Permutation_middle.
Qed.

Lemma simple_merge_sorted {A} (f : A → A → bool) (le : A → A → Prop) `{!Transitive le} l1 : ∀ l2,
  (∀ a b, a ∈ l1 → b ∈ l2 → if f a b then le a b else le b a) →
  StronglySorted le l1 → StronglySorted le l2 → StronglySorted le (simple_merge f l1 l2).
Proof.
  induction l1 as [|a l1 IH1]; intros l2 Hf H1 H2; [by destruct l2|].
  induction l2 as [|b l2 IH2]; [done|].
  inversion H1 as [|? ? H1' Ha]; subst. inversion H2 as [|? ? H2' Hb]; subst. simpl.
  pose proof (Hf a b ltac:(set_solver) ltac:(set_solver)) as Hab.
  rewrite Forall_forall in Ha, Hb. destruct (f a b).
  - constructor; [apply IH1; [set_solver|done|done]|]. rewrite simple_merge_perm, Forall_forall.
    intros x Hx. apply elem_of_app in Hx as [Hx|Hx]; [auto|].
    apply elem_of_cons in Hx as [->|Hx]; [done|]. etrans; eauto.
  - constructor; [apply IH2; [set_solver|done]|].
    change (Forall (le b) (simple_merge f (a :: l1) l2)). rewrite simple_merge_perm, Forall_forall.
    intros x Hx. apply elem_of_app in Hx as [Hx|Hx]; [|auto].
    apply elem_of_cons in Hx as [->|Hx]; [done|]. etrans; eauto.
Qed.

Lemma simple_merge_laws : @MergeByLaws simple_merge_by.
Proof.
  split; unfold merge_by, simple_merge_by.
  - intros. apply simple_merge_perm.
  - intros. by apply simple_merge_sorted.
Qed.

Lemma KeySpace_merge_union_witness :
  @KeySpace_merge simple_merge_by unit test_keyspace
    (KeySpace_single (mkRange (mkKey 0 1663 5 16384 0 100) (mkKey 0 1663 5 16385 0 0)))
  = Ok (KeySpace_single (mkRange (mkKey 0 1663 5 16384 0 0) (mkKey 0 1663 5 16385 0 30)))
  ∧ ∃ c, @KeySpace_merge simple_merge_by unit test_keyspace
      (KeySpace_single (mkRange (mkKey 0 1663 5 16384 0 100) (mkKey 0 1663 5 16385 0 0))) = Ok c
      ∧ separated (ranges c).
Proof.
  split; [reflexivity|].
  destruct (@KeySpace_merge_union simple_merge_by simple_merge_laws test_keyspace
    (KeySpace_single (mkRange (mkKey 0 1663 5 16384 0 100) (mkKey 0 1663 5 16385 0 0))))
    as (c & Hc & Hs & _).
  - apply test_keyspace_inv.
  - apply ranges_invb_spec. vm_compute. reflexivity.
  - intros z. unfold test_keyspace, KeySpace_single. cbn [ranges].
    rewrite !in_ranges_cons, !in_ranges_nil. unfold range_has, key_value. simpl. lia.
  - by exists c.
Defined.

(** ** Removing *)

(** What is left of [o] without [r], and what they have in common. *)
Definition pieces (o r : KeyRange) : list KeyRange :=
  (if kstart o <? kstart r then [mkRange (r_start o) (r_start r)] else [])
  ++ (if kend r <? kend o then [mkRange (r_end r) (r_end o)] else []).

Definition common (o r : KeyRange) : KeyRange :=
  mkRange (if kstart o <? kstart r then r_start r else r_start o)
          (if kend r <? kend o then r_end r else r_end o).

Lemma alter_middle {A} (f : A → A) l o r :
  alter f (length l) (l ++ o :: r) = l ++ f o :: r.
Proof. induction l as [|x l IH]; simpl; [done|]. by f_equal. Qed.

Lemma insert_range_middle x l o r :
  insert_range (length l + 1) x (l ++ o :: r) = l ++ o :: x :: r.
Proof.
  unfold insert_range. replace (l ++ o :: r) with ((l ++ [o]) ++ r) by by rewrite <- app_assoc.
  replace (length l + 1)%nat with (length (l ++ [o])) by by rewrite length_app.
  rewrite take_app_length, drop_app_length, <- app_assoc. done.
Qed.

(** One turn of the loop replaces the overlapping range by what is left of it. *)
Lemma remove_at_eq l o r removed range :
  range_wf o → range_wf range →
  remove_at (mkKeySpace (l ++ o :: r)) removed (length l) o range
  = (mkKeySpace (l ++ pieces o range ++ r),
     mkRandomAccum (rand_ranges removed ++ [common o range])).
Proof.
  intros [Wo1 Wo2 Ho] [Wr1 Wr2 Hr]. unfold remove_at, KeySpaceRandomAccum_add_range. cbn [ranges].
  rewrite !Key_ltb_value, !Key_leb_value by done.
  assert (Hl : ∀ x, (l ++ x :: r) !! length l = Some x) by (intros; by rewrite list_lookup_middle).
  unfold pieces, common.
  destruct (Z.ltb_spec (kstart o) (kstart range)), (Z.ltb_spec (kend range) (kend o)),
    (Z.leb_spec (kstart range) (kstart o)), (Z.leb_spec (kend o) (kend range)); try lia;
    cbn [andb]; rewrite ?Hl; cbn [default rand_ranges app];
    rewrite ?alter_middle, ?insert_range_middle, ?delete_middle; try done.
  - by destruct range.
  - by destruct o.
Qed.

Lemma common_wf o range : range_wf o → range_wf range → overlapping o range → range_wf (common o range).
Proof.
  intros [] [] []. unfold common. split; simpl; repeat case_match; bool_prop; try done; lia.
Qed.

Lemma pieces_facts o range :
  range_wf o → range_wf range → overlapping o range →
  ranges_inv (pieces o range) ∧ Forall (λ x, ¬ overlapping x range) (pieces o range)
  ∧ (∀ x, x ∈ pieces o range → kstart o ≤ kstart x ∧ kend x ≤ kend o)
  ∧ ∀ z, in_ranges (pieces o range) z ↔ range_has o z ∧ ¬ range_has range z.
Proof.
  intros [Wo1 Wo2 Ho] [Wr1 Wr2 Hr] [H1 H2]. unfold pieces.
  set (a := mkRange (r_start o) (r_start range)). set (b := mkRange (r_end range) (r_end o)).
  assert (Wa : kstart o < kstart range → range_wf a) by (by split).
  assert (Wb : kend range < kend o → range_wf b) by (by split).
  assert (Hab : kstart o < kstart range → kend range < kend o → before a b)
    by (intros; split_and!; [auto|auto|simpl; lia]).
  destruct (Z.ltb_spec (kstart o) (kstart range)), (Z.ltb_spec (kend range) (kend o)); cbn [app];
    (split; [|split; [|split]]).
  all: try (rewrite ?ranges_inv_cons; eauto 10 using ranges_inv_nil; fail).
  all: try (repeat constructor; unfold overlapping; simpl; lia).
  all: try (intros x Hx; set_unfold in Hx; naive_solver (simpl; lia)).
  all: intros z; rewrite ?in_ranges_cons, ?in_ranges_nil; unfold range_has; simpl; lia.
Qed.

Lemma ranges_inv_pieces l o r range :
  ranges_inv (l ++ o :: r) → range_wf range → overlapping o range →
  ranges_inv (l ++ pieces o range ++ r).
Proof.
  intros Hinv Wr Ho. apply ranges_inv_app in Hinv as (Hl & Hor & Hlo).
  apply ranges_inv_cons in Hor as (Wo & Hof & Hr). rewrite Forall_forall in Hof.
  destruct (pieces_facts o range Wo Wr Ho) as (Hp & _ & Hb & _).
  rewrite !ranges_inv_app. split_and!; try done.
  - intros a b Ha Hb'. destruct (Hof b Hb') as (_ & Wb & ?). destruct (Hb a Ha).
    split_and!; [by eapply ranges_inv_wf|done|lia].
  - intros a b Ha Hb'. apply elem_of_app in Hb' as [Hb'|Hb'].
    + destruct (Hlo a o Ha ltac:(set_solver)) as (Wa & _ & ?). destruct (Hb b Hb').
      split_and!; [done|by eapply ranges_inv_wf|lia].
    + apply Hlo; set_solver.
Qed.

(** The inner loop ends, having moved exactly the keys of [range] from the key
    space to the removed ranges; every turn leaves one overlapping range less. *)
Lemma remove_loop_spec range n : ∀ ks removed,
  KeySpace_inv ks → range_wf range → Forall range_wf (rand_ranges removed) →
  (length (filter (λ x, overlapping x range) (ranges ks)) ≤ n)%nat →
  ∃ ks' removed', (∀ fuel, (n ≤ fuel)%nat → remove_loop fuel ks removed range = Some (ks', removed'))
    ∧ KeySpace_inv ks' ∧ Forall range_wf (rand_ranges removed')
    ∧ (∀ z, in_ranges (ranges ks') z ↔ in_ranges (ranges ks) z ∧ ¬ range_has range z)
    ∧ (∀ z, in_ranges (rand_ranges removed') z ↔
         in_ranges (rand_ranges removed) z ∨ in_ranges (ranges ks) z ∧ range_has range z).
Proof.
  induction n as [|n IH]; intros ks removed Hinv Wr Wrem Hn;
    pose proof (overlaps_at_spec ks range Hinv Wr) as Hs;
    destruct (KeySpace_overlaps_at ks range) as [i|] eqn:Ei.
  1: { destruct Hs as (l & o & r & E & _ & Ho & _). rewrite E, filter_app, filter_cons_True in Hn by done.
       rewrite length_app in Hn. simpl in Hn. lia. }
  2: { destruct Hs as (l & o & r & E & <- & Ho & Hr).
    destruct ks as [rs]; simpl in E; subst rs.
    assert (Wo : range_wf o) by (eapply ranges_inv_wf; [exact Hinv|set_solver]).
    destruct (pieces_facts o range Wo Wr Ho) as (_ & Hno & _ & Hset).
    destruct (IH (mkKeySpace (l ++ pieces o range ++ r))
      (mkRandomAccum (rand_ranges removed ++ [common o range]))) as (ks' & rem' & Hrun & Hinv' & Wrem' & Hks & Hrm).
    - by apply ranges_inv_pieces.
    - done.
    - apply Forall_app; split; [done|]. constructor; [by apply common_wf|constructor].
    - simpl in *. rewrite !filter_app, !length_app in *. rewrite filter_cons_True in Hn by done.
      simpl in Hn. rewrite (filter_none _ (pieces o range)) by done. simpl. lia.
    - exists ks', rem'. split_and!; [|done|done| |].
      + intros [|fuel] Hf; [lia|]. cbn [remove_loop]. rewrite Ei. simpl ranges.
        rewrite list_lookup_middle by done. rewrite remove_at_eq by done. apply Hrun. lia.
      + intros z. rewrite Hks. simpl. rewrite !in_ranges_app, in_ranges_cons, Hset. tauto.
      + intros z. rewrite Hrm. simpl. rewrite !in_ranges_app, !in_ranges_cons, in_ranges_nil, Hset.
        assert (Hc : range_has (common o range) z ↔ range_has o z ∧ range_has range z).
        { unfold range_has, common. simpl. repeat case_match; bool_prop; lia. }
        rewrite Hc. tauto. }
  all: exists ks, removed; assert (Hnone : ∀ z, in_ranges (ranges ks) z → range_has range z → False)
    by (intros z Hz Hzr; apply in_ranges_elem in Hz as (x & Hx & Hxz); rewrite Forall_forall in Hs;
        apply (Hs x Hx); unfold overlapping, range_has in *; lia);
    split_and!; [intros [|fuel] _; cbn [remove_loop]; by rewrite Ei | done | done | |];
    intros z; specialize (Hnone z); tauto.
Qed.

Lemma remove_ranges_spec rs : ∀ ks removed,
  KeySpace_inv ks → Forall range_wf rs → Forall range_wf (rand_ranges removed) →
  ∃ n ks' removed', (∀ fuel, (n ≤ fuel)%nat → remove_ranges fuel ks removed rs = Some (ks', removed'))
    ∧ KeySpace_inv ks' ∧ Forall range_wf (rand_ranges removed')
    ∧ (∀ z, in_ranges (ranges ks') z ↔ in_ranges (ranges ks) z ∧ ¬ in_ranges rs z)
    ∧ (∀ z, in_ranges (rand_ranges removed') z ↔
         in_ranges (rand_ranges removed) z ∨ in_ranges (ranges ks) z ∧ in_ranges rs z).
Proof.
  induction rs as [|r rs IH]; intros ks removed Hinv Wrs Wrem.
  { exists 0%nat, ks, removed. split_and!; [done|done|done| |];
      intros z; rewrite in_ranges_nil; tauto. }
  inversion Wrs as [|? ? Wr Wrs']; subst.
  destruct (remove_loop_spec r _ ks removed Hinv Wr Wrem (le_n _))
    as (ks1 & rem1 & Hrun1 & Hinv1 & Wrem1 & Hks1 & Hrm1).
  destruct (IH ks1 rem1 Hinv1 Wrs' Wrem1) as (n & ks' & rem' & Hrun & Hinv' & Wrem' & Hks & Hrm).
  set (m := length (filter (λ x, overlapping x r) (ranges ks))) in *.
  exists (m + n)%nat, ks', rem'. split_and!; [|done|done| |].
  - intros fuel Hf. cbn [remove_ranges]. rewrite Hrun1 by lia. apply Hrun. lia.
  - intros z. rewrite Hks, Hks1, in_ranges_cons. tauto.
  - intros z. rewrite Hrm, Hrm1, Hks1, in_ranges_cons.
    assert (range_has r z ∨ ¬ range_has r z) by (unfold range_has; lia). tauto.
Qed.

(** Ranges of the other key space that are skipped have nothing in [lo, hi). *)
Lemma skipped_ranges lo hi rs z :
  ranges_inv rs → Key_wf lo → Key_wf hi → key_value lo ≤ z < key_value hi →
  in_ranges (take_while (λ r, Key_ltb (r_start r) hi) (skip_while (λ r, Key_leb (r_end r) lo) rs)) z
  ↔ in_ranges rs z.
Proof.
  intros Hinv Wlo Whi Hz.
  assert (Htake : ∀ l, ranges_inv l →
    in_ranges (take_while (λ r, Key_ltb (r_start r) hi) l) z ↔ in_ranges l z).
  { clear rs Hinv. intros l. induction l as [|r l IH]; intros Hinv; simpl; [done|].
    apply ranges_inv_cons in Hinv as (Wr & Hf & Hinv). rewrite Key_ltb_value by eauto with keyspace.
    destruct (Z.ltb_spec (kstart r) (key_value hi)); [by rewrite !in_ranges_cons, IH|].
    rewrite in_ranges_nil, in_ranges_cons, in_ranges_elem. split; [done|].
    intros [Hr|(x & Hx & Hxz)]; [unfold range_has in Hr; lia|].
    rewrite Forall_forall in Hf. destruct (Hf x Hx) as ([] & _ & ?). unfold range_has in Hxz. lia. }
  induction rs as [|r rs IH]; simpl; [done|]. apply ranges_inv_cons in Hinv as Hc.
  destruct Hc as (Wr & Hf & Hrs). rewrite Key_leb_value by eauto with keyspace.
  destruct (Z.leb_spec (kend r) (key_value lo)); [|by rewrite Htake].
  rewrite IH, in_ranges_cons by done. unfold range_has. split; [tauto|]. intros [?|?]; [lia|done].
Qed.

Lemma take_skip_wf f g rs :
  Forall range_wf rs → Forall range_wf (take_while f (skip_while g rs)).
Proof.
  intros H. rewrite Forall_forall in *. intros x Hx. apply H.
  rewrite <- (take_skip_while g rs). apply elem_of_app. right.
  rewrite <- (take_skip_while f (skip_while g rs)). apply elem_of_app. by left.
Qed.

(** The ends of a sorted key space bound its keys. *)
Lemma keyspace_bounds ks lo hi z :
  KeySpace_inv ks → KeySpace_start ks = Some lo → KeySpace_end ks = Some hi →
  in_ranges (ranges ks) z → key_value lo ≤ z < key_value hi.
Proof.
  unfold KeySpace_start, KeySpace_end. intros Hinv Hlo Hhi Hz.
  apply in_ranges_elem in Hz as (x & Hx & Hxz). apply list_elem_of_lookup in Hx as [i Hi].
  apply fmap_Some in Hlo as (a & Ha & ->). apply fmap_Some in Hhi as (b & Hb & ->).
  rewrite head_lookup in Ha. rewrite last_lookup in Hb. pose proof (lookup_lt_Some _ _ _ Hi).
  assert (kstart a ≤ kstart x).
  { destruct (decide (i = 0%nat)) as [->|]; [simplify_eq; lia|].
    pose proof (ranges_inv_lookup _ 0 i _ _ Hinv ltac:(lia) Ha Hi).
    apply list_elem_of_lookup_2, (ranges_inv_wf _ _ Hinv) in Ha as []. lia. }
  assert (kend x ≤ kend b).
  { destruct (decide (i = pred (length (ranges ks)))) as [->|]; [simplify_eq; lia|].
    pose proof (ranges_inv_lookup _ i (pred (length (ranges ks))) _ _ Hinv ltac:(lia) Hi Hb).
    apply list_elem_of_lookup_2, (ranges_inv_wf _ _ Hinv) in Hb as []. lia. }
  unfold range_has in Hxz. lia.
Qed.

(** [remove_overlapping_with] ends, leaves the set difference in the key space
    and returns the intersection; both stay sorted and disjoint. *)
Theorem KeySpace_remove_correct (a b : KeySpace) (Ha : KeySpace_inv a) (Hb : KeySpace_inv b) :
  ∃ n a' r, (∀ fuel, (n ≤ fuel)%nat →
      KeySpace_remove_overlapping_with (E := unit) fuel a b = Some (Ok (a', r)))
    ∧ KeySpace_inv a' ∧ KeySpace_inv r
    ∧ (∀ k, in_keyspace a' k ↔ in_keyspace a k ∧ ¬ in_keyspace b k)
    ∧ (∀ k, in_keyspace r k ↔ in_keyspace a k ∧ in_keyspace b k).
Proof.
  unfold KeySpace_remove_overlapping_with, in_keyspace.
  destruct (KeySpace_start a) as [lo|] eqn:Elo, (KeySpace_end a) as [hi|] eqn:Ehi.
  2-4: assert (ranges a = []) as E by
      (unfold KeySpace_start, KeySpace_end in *;
       destruct (ranges a) as [|x l] using rev_ind; [done|];
       rewrite ?last_snoc in *; destruct l; done);
    exists 0%nat, a, (mkKeySpace []); split_and!;
    [done | done | apply ranges_inv_nil | |]; intros k; rewrite E; simpl; rewrite !in_ranges_nil; tauto.
  assert (Wlo : Key_wf lo ∧ Key_wf hi).
  { unfold KeySpace_start, KeySpace_end in *. apply fmap_Some in Elo as (x & Hx & ->).
    apply fmap_Some in Ehi as (y & Hy & ->). rewrite head_lookup in Hx. rewrite last_lookup in Hy.
    apply list_elem_of_lookup_2, (ranges_inv_wf _ _ Ha) in Hx as [].
    apply list_elem_of_lookup_2, (ranges_inv_wf _ _ Ha) in Hy as []. done. }
  destruct Wlo as [Wlo Whi].
  set (others := take_while _ _).
  destruct (remove_ranges_spec others a KeySpaceRandomAccum_new Ha)
    as (n & a' & rem & Hrun & Hinv & Wrem & Hset & Hrm).
  { apply take_skip_wf, Hb. } { constructor. }
  destruct (random_accum_spec rem Wrem) as (r & Hr & Hsep & Hrset).
  assert (Hoth : ∀ z, in_ranges (ranges a) z → in_ranges others z ↔ in_ranges (ranges b) z).
  { intros z Hz. apply skipped_ranges; [done|done|done|]. eapply (keyspace_bounds a); done. }
  exists n, a', r. split_and!.
  - intros fuel Hf. rewrite Hrun by done. rewrite Hr. done.
  - done.
  - apply Hsep.
  - intros k. rewrite Hset. specialize (Hoth (key_value k)). tauto.
  - intros k. rewrite Hrset, Hrm. simpl. rewrite in_ranges_nil. specialize (Hoth (key_value k)). tauto.
Qed.

Lemma KeySpace_remove_correct_witness :
  KeySpace_remove_overlapping_with (E := unit) 5 test_keyspace
    (KeySpace_single (mkRange (mkKey 0 1663 5 16384 0 90) (mkKey 0 1663 5 16385 0 10)))
  = Some (Ok (mkKeySpace [mkRange (mkKey 0 1663 5 16384 0 0) (mkKey 0 1663 5 16384 0 90);
                          mkRange (mkKey 0 1663 5 16385 0 10) (mkKey 0 1663 5 16385 0 30)],
              mkKeySpace [mkRange (mkKey 0 1663 5 16384 0 90) (mkKey 0 1663 5 16384 0 100);
                          mkRange (mkKey 0 1663 5 16385 0 0) (mkKey 0 1663 5 16385 0 10)]))
  ∧ ∃ n a' r, (∀ fuel, (n ≤ fuel)%nat →
      KeySpace_remove_overlapping_with (E := unit) fuel test_keyspace
        (KeySpace_single (mkRange (mkKey 0 1663 5 16384 0 90) (mkKey 0 1663 5 16385 0 10)))
      = Some (Ok (a', r))) ∧ KeySpace_inv a'.
Proof.
  split; [reflexivity|].
  destruct (KeySpace_remove_correct test_keyspace
    (KeySpace_single (mkRange (mkKey 0 1663 5 16384 0 90) (mkKey 0 1663 5 16385 0 10))))
    as (n & a' & r & Hrun & Hi & _).
  - apply test_keyspace_inv.
  - apply ranges_invb_spec. vm_compute. reflexivity.
  - by exists n, a', r.
Defined.
