(* ===== verification/Partition.v ===== *)
(** * Partitioning a key space

    [ShardedRange::fragment], [ShardedRange::page_count] and
    [KeySpace::partition] of [keyspace.rs]: the loops end, the fragments tile
    the range they come from, and their sizes are the numbers of pages this
    shard really keeps. *)

From S2P Require Import Prelude Bytes Text Ids Key Shard Search KeySpace KeySpaceProps.

(** A shard identity that can be used: not broken, with a stripe size. *)
Record id_ok (id : ShardIdentity) : Prop := {
  id_layout : layout id = LAYOUT_V1;
  id_count : 0 ≤ count id < 256;
  id_stripe : 0 < stripe_size id < 2 ^ 32;
}.

(** The answer of [is_key_disposable], which does not panic then. *)
Definition disposable (id : ShardIdentity) (k : Key) : bool :=
  negb (count id <? 2) && negb (ShardIdentity_is_key_global id k)
  && negb ((key_is_shard0 k && (number id =? 0))
           || (home (count id) (stripe_size id) k =? number id)).

Lemma is_key_disposable_eq {E} id k :
  id_ok id → ShardIdentity_is_key_disposable (E := E) id k = Ok (disposable id k).
Proof.
  intros [Hl Hc Hs]. unfold ShardIdentity_is_key_disposable, disposable, ShardIdentity_is_key_local,
    ShardIdentity_is_broken. rewrite Hl. simpl.
  destruct (count id <? 2) eqn:E2; [done|]. destruct (ShardIdentity_is_key_global id k); [done|].
  simpl. destruct (key_is_shard0 k && (number id =? 0)); [done|].
  by rewrite key_to_shard_number_home by lia.
Qed.

(** ** Keys of one fork *)

(** Everything but the block number. *)
Definition key_hi (k : Key) : Z :=
  (((field1 k * 2 ^ 32 + field2 k) * 2 ^ 32 + field3 k) * 2 ^ 32 + field4 k) * 2 ^ 8 + field5 k.

Lemma key_value_hi k : key_value k = key_hi k * 2 ^ 32 + field6 k.
Proof. done. Qed.

Lemma key_hi_inj a b :
  Key_wf a → Key_wf b → key_hi a = key_hi b → b = a <| field6 := field6 b |>.
Proof.
  intros Wa Wb E.
  assert (W0 : ∀ k, Key_wf k → Key_wf (k <| field6 := 0 |>)).
  { intros k []. split; simpl; unfold in_u in *; simpl; lia || done. }
  assert (E0 : a <| field6 := 0 |> = b <| field6 := 0 |>).
  { apply key_value_inj; [auto|auto|]. rewrite !key_value_hi. unfold key_hi in *. simpl in *. lia. }
  destruct a, b. simpl in *. by injection E0 as -> -> -> -> ->.
Qed.

(** A contiguous range lies in one fork, or starts at the size key just below it. *)
Lemma contiguous_cases r :
  range_wf r → is_contiguous_range r = true →
  key_hi (r_start r) = key_hi (r_end r)
  ∨ field6 (r_start r) = u32_max ∧ key_hi (r_end r) = key_hi (r_start r) + 1.
Proof.
  intros [Ws We Hn] Hc. unfold is_contiguous_range in Hc. rewrite !andb_true_iff, orb_true_iff in Hc.
  destruct Hc as [[[[H1 H2] H3] H4] H5]. apply Z.eqb_eq in H1, H2, H3, H4.
  rewrite !key_value_hi in Hn. unfold key_hi in *. rewrite H1, H2, H3, H4 in *.
  destruct H5 as [H5|H5]; [apply Z.eqb_eq in H5; lia|].
  apply andb_true_iff in H5 as [H6 H5]. apply Z.eqb_eq in H6, H5. right. split; [done|].
  unfold wrapping_add, wrap in H5. destruct Ws as [_ _ _ _ W5 _], We as [_ _ _ _ We5 We6].
  unfold in_u in *. destruct (decide (field5 (r_start r) = 255)) as [E|].
  - rewrite E in *. change ((255 + 1) mod 2 ^ 8) with 0 in H5. lia.
  - rewrite Z.mod_small in H5 by lia. lia.
Qed.

Lemma hi_eq_contiguous a b :
  Key_wf a → Key_wf b → key_hi a = key_hi b → is_contiguous_range (mkRange a b) = true.
Proof.
  intros Wa Wb E. rewrite (key_hi_inj a b Wa Wb E). unfold is_contiguous_range. simpl.
  by rewrite !Z.eqb_refl.
Qed.

(** Its length is the distance between its ends, as long as a u32 can hold it. *)
Lemma contiguous_range_len_value r :
  range_wf r → is_contiguous_range r = true → kend r - kstart r < 2 ^ 32 →
  contiguous_range_len r = kend r - kstart r.
Proof.
  intros Wr Hc Hlen. pose proof (contiguous_cases r Wr Hc) as Hcase.
  destruct Wr as [[_ _ _ _ _ Ws6] [_ _ _ _ _ We6] Hn].
  unfold contiguous_range_len, u32_max, in_u in *. rewrite !key_value_hi in *.
  destruct (Z.eqb_spec (field6 (r_start r)) 4294967295) as [E|E]; destruct Hcase as [H|[H6 H]].
  - lia.
  - unfold wrapping_add, wrap. rewrite Z.mod_small; lia.
  - unfold wrapping_sub, wrap. rewrite Z.mod_small; lia.
  - lia.
Qed.

(** Cutting a contiguous range leaves a contiguous range. *)
Lemma contiguous_suffix r c :
  range_wf r → is_contiguous_range r = true → Key_wf c → kstart r ≤ key_value c < kend r →
  is_contiguous_range (mkRange c (r_end r)) = true.
Proof.
  intros Wr Hc Wc Hb. pose proof (contiguous_cases r Wr Hc) as Hcase.
  destruct Wr as [Ws We Hn].
  destruct (decide (key_hi c = key_hi (r_end r))) as [E|E]; [by apply hi_eq_contiguous|].
  assert (c = r_start r) as ->; [|by destruct r].
  apply key_value_inj; [done|done|].
  pose proof (wf_field6 _ Wc). pose proof (wf_field6 _ Ws). pose proof (wf_field6 _ We).
  rewrite !key_value_hi in *. unfold in_u, u32_max in *. lia.
Qed.

(** ** Counting the pages a shard keeps *)

(** The key of a number. *)
Definition key_of (z : Z) : Key := {|
  field1 := z / 2 ^ 136 mod 2 ^ 8;
  field2 := z / 2 ^ 104 mod 2 ^ 32;
  field3 := z / 2 ^ 72 mod 2 ^ 32;
  field4 := z / 2 ^ 40 mod 2 ^ 32;
  field5 := z / 2 ^ 32 mod 2 ^ 8;
  field6 := z mod 2 ^ 32;
|}.

Lemma key_of_value k : Key_wf k → key_of (key_value k) = k.
Proof.
  intros []. unfold key_of.
  change (2 ^ 136) with (2 ^ 32 * 2 ^ 8 * 2 ^ 32 * 2 ^ 32 * 2 ^ 32).
  change (2 ^ 104) with (2 ^ 32 * 2 ^ 8 * 2 ^ 32 * 2 ^ 32).
  change (2 ^ 72) with (2 ^ 32 * 2 ^ 8 * 2 ^ 32).
  change (2 ^ 40) with (2 ^ 32 * 2 ^ 8).
  destruct k as [f1 f2 f3 f4 f5 f6]. unfold key_value.
  cbn [field1 field2 field3 field4 field5 field6] in *. unfold in_u in *.
  rewrite <- !Z.div_div by lia. rewrite !div_digit by lia. rewrite !mod_digit by lia.
  by rewrite Z.mod_small by lia.
Qed.

(** The keys numbered [a .. a + n) that the shard keeps. *)
Definition kept (id : ShardIdentity) (a n : Z) : Z :=
  Z.of_nat (length (filter (λ z, disposable id (key_of z) = false) (seqZ a n))).

Definition kept_in (id : ShardIdentity) (r : KeyRange) : Z := kept id (kstart r) (kend r - kstart r).

Lemma kept_app id a n m : 0 ≤ n → 0 ≤ m → kept id a (n + m) = kept id a n + kept id (a + n) m.
Proof. intros. unfold kept. rewrite seqZ_app by done. rewrite filter_app, length_app. lia. Qed.

Lemma kept_const id a n b :
  0 ≤ n → (∀ z, a ≤ z < a + n → disposable id (key_of z) = b) →
  kept id a n = if b then 0 else n.
Proof.
  intros Hn Hb. unfold kept.
  assert (Hl : ∀ l, (∀ z, z ∈ l → disposable id (key_of z) = b) →
    length (filter (λ z, disposable id (key_of z) = false) l) = if b then 0%nat else length l).
  { induction l as [|z l IH]; intros Hz; [by destruct b|].
    pose proof (Hz z ltac:(set_solver)) as E. rewrite filter_cons, E.
    destruct b; [rewrite decide_False by done | rewrite decide_True by done; simpl];
      rewrite IH; set_solver. }
  rewrite Hl; [destruct b; [done|]; rewrite length_seqZ; lia|].
  intros z Hz. apply elem_of_seqZ in Hz. apply Hb. lia.
Qed.

(** Within a stripe of a fork, all blocks are kept or none is. *)
Lemma disposable_stripe id a b :
  field1 a = 0 → b = a <| field6 := field6 b |> →
  field6 a ≠ u32_max → field6 b ≠ u32_max →
  field6 a / stripe_size id = field6 b / stripe_size id →
  disposable id b = disposable id a.
Proof.
  unfold u32_max. intros H1 Hb Ha6 Hb6 Hs. destruct a as [a1 a2 a3 a4 a5 a6], b as [b1 b2 b3 b4 b5 b6].
  simpl in *. injection Hb as -> -> -> -> ->. subst a1.
  unfold disposable, home, key_hash, key_is_shard0, ShardIdentity_is_key_global, Key_is_rel_block_key,
    Key_is_slru_block_key, Key_is_slru_segment_size_key, Key_is_aux_file_key, Key_is_slru_dir_key,
    slru_dir_kind, Key_is_rel_size_key, u32_max. simpl.
  rewrite Hs. rewrite (proj2 (Z.eqb_neq a6 4294967295)), (proj2 (Z.eqb_neq b6 4294967295)) by done.
  by destruct (b6 =? _), (a6 =? _).
Qed.

(** ** Tilings *)

(** Ranges that follow one another without gap from [s] to [e]. *)
Fixpoint tiles (s : Key) (rs : list KeyRange) (e : Key) : Prop :=
  match rs with
  | [] => s = e
  | r :: rs' => r_start r = s ∧ range_wf r ∧ tiles (r_end r) rs' e
  end.

Lemma tiles_app s l1 l2 e : tiles s (l1 ++ l2) e ↔ ∃ m, tiles s l1 m ∧ tiles m l2 e.
Proof.
  revert s. induction l1 as [|r l1 IH]; intros s; simpl.
  - split; [eauto|]. by intros (m & -> & ?).
  - setoid_rewrite IH. naive_solver.
Qed.

Lemma tiles_value s rs e : tiles s rs e → key_value s ≤ key_value e.
Proof.
  revert s. induction rs as [|r rs IH]; intros s; simpl; [by intros ->|].
  intros (<- & [] & Ht). specialize (IH _ Ht). lia.
Qed.

Lemma tiles_inv s rs e : tiles s rs e → ranges_inv rs.
Proof.
  revert s. induction rs as [|r rs IH]; intros s; simpl; [intros; apply ranges_inv_nil|].
  intros (<- & Wr & Ht). apply ranges_inv_cons. split_and!; [done| |by eapply IH].
  pose proof (IH _ Ht) as Hi. apply Forall_forall. intros x Hx.
  split_and!; [done|by eapply ranges_inv_wf|].
  clear IH Hi Wr. revert Ht Hx. generalize (r_end r) as s. clear r. induction rs as [|y rs IH]; [set_solver|].
  simpl. intros s (<- & Wy & Ht) Hx. apply elem_of_cons in Hx as [->|Hx]; [done|].
  specialize (IH _ Ht Hx). destruct Wy. lia.
Qed.

Lemma tiles_in s rs e z : tiles s rs e → in_ranges rs z ↔ key_value s ≤ z < key_value e.
Proof.
  revert s. induction rs as [|r rs IH]; intros s; simpl.
  - intros ->. rewrite in_ranges_nil. lia.
  - intros (<- & [] & Ht). rewrite in_ranges_cons, (IH _ Ht). pose proof (tiles_value _ _ _ Ht).
    unfold range_has. lia.
Qed.

(** ** One step of the loops *)

Section Range.
Context (id : ShardIdentity) (r : KeyRange).
Context (Hid : id_ok id) (Wr : range_wf r) (Hcont : is_contiguous_range r = true)
  (Hlen : kend r - kstart r < 2 ^ 32).

Abbreviation sr := (mkShardedRange id r).

(** The distance to the next boundary: positive, not past the end, and not past
    the end of the cursor's stripe. *)
Lemma distance_spec c :
  Key_wf c → kstart r ≤ key_value c < kend r →
  ∃ d, distance_to_next_boundary (E := unit) sr c = Ok d ∧ 1 ≤ d ≤ kend r - key_value c
    ∧ (2 ≤ count id →
       d = 1 ∨ key_hi c = key_hi (r_end r) ∧ field6 c mod stripe_size id + d ≤ stripe_size id).
Proof.
  intros Wc Hb. unfold distance_to_next_boundary. cbn [shard_identity range].
  assert (Wcr : range_wf (mkRange c (r_end r))) by (split; simpl; [done|apply Wr|lia]).
  pose proof (contiguous_suffix r c Wr Hcont Wc Hb) as Hcc.
  rewrite (contiguous_range_len_value _ Wcr Hcc) by (simpl; lia). cbn [r_start r_end].
  destruct (Z.ltb_spec (count id) 2); [eexists; split; [done|]; lia|].
  destruct (Z.eqb_spec (field6 c) 4294967295) as [E|E]; [eexists; split; [done|]; lia|].
  destruct Hid as [_ _ Hs]. rewrite (proj2 (Z.eqb_neq (stripe_size id) 0)) by lia.
  pose proof (wf_field6 _ Wc) as W6. unfold in_u in W6.
  assert (Hhi : key_hi c = key_hi (r_end r)).
  { destruct (contiguous_cases _ Wcr Hcc) as [H'|[H' _]]; [done|]. simpl in H'. unfold u32_max in H'. lia. }
  pose proof (Z.div_mod (field6 c) (stripe_size id) ltac:(lia)) as Hdm.
  pose proof (Z.mod_pos_bound (field6 c) (stripe_size id) ltac:(lia)) as Hm.
  assert (0 ≤ field6 c / stripe_size id) by (apply Z.div_pos; lia).
  unfold wrapping_sub, wrapping_mul, wrap.
  rewrite (Z.mod_small (field6 c / stripe_size id * stripe_size id)) by lia.
  rewrite (Z.mod_small (field6 c - _)) by lia. rewrite Z.mod_small by lia.
  eexists; split; [done|]. lia.
Qed.

Lemma key_add_unit c d :
  Key_wf c → 0 ≤ d → key_value c + d ≤ kend r → d < 2 ^ 32 →
  ∃ c', Key_add (E := unit) c d = Ok c' ∧ Key_wf c' ∧ key_value c' = key_value c + d.
Proof.
  intros Wc Hd Hb Hd32. pose proof (Key_add_value c d Wc ltac:(unfold in_u; lia)) as Ha.
  unfold add_result in Ha. destruct (Key_add c d) as [c'| |]; [by exists c'|done|].
  pose proof (key_value_bound _ (wf_end _ Wr)). lia.
Qed.

(** Nothing changes up to the next boundary of a relation's range. *)
Lemma distance_const c d :
  field1 (r_start r) = 0 → Key_wf c → kstart r ≤ key_value c < kend r →
  1 ≤ d ≤ kend r - key_value c →
  (2 ≤ count id →
     d = 1 ∨ key_hi c = key_hi (r_end r) ∧ field6 c mod stripe_size id + d ≤ stripe_size id) →
  kept id (key_value c) d = if disposable id c then 0 else d.
Proof.
  intros H1 Wc Hb Hd Hst. apply kept_const; [lia|]. intros z Hz.
  destruct (decide (count id < 2)) as [H2|H2].
  { unfold disposable. by rewrite (proj2 (Z.ltb_lt _ _) H2). }
  destruct (Hst ltac:(lia)) as [->|[Hhi Hmod]].
  { replace z with (key_value c) by lia. by rewrite key_of_value. }
  assert (∃ dz, z = key_value c + dz ∧ 0 ≤ dz < d) as (dz & -> & Hdz)
    by (exists (z - key_value c); lia).
  set (k := c <| field6 := field6 c + dz |>).
  pose proof (wf_field6 _ (wf_end _ Wr)) as We6. pose proof (wf_field6 _ Wc) as Wc6.
  unfold in_u in *. pose proof (key_value_hi c). pose proof (key_value_hi (r_end r)).
  assert (Wk : Key_wf k) by (destruct Wc; split; try done; unfold in_u; simpl; lia).
  assert (Ek : key_value k = key_value c + dz) by (unfold key_value, k; simpl; lia).
  rewrite <- Ek, key_of_value by done. destruct Hid as [_ _ Hs].
  apply disposable_stripe; unfold u32_max.
  - (* the first field is that of the range *)
    pose proof (contiguous_cases r Wr Hcont) as Hcase.
    unfold is_contiguous_range in Hcont. rewrite !andb_true_iff in Hcont.
    destruct Hcont as [[[[E1 _] _] _] _]. apply Z.eqb_eq in E1.
    pose proof (key_hi_inj c (r_end r) Wc (wf_end _ Wr) Hhi) as E.
    apply (f_equal field1) in E. simpl in E. congruence.
  - done.
  - lia.
  - simpl. lia.
  - simpl. pose proof (Z.div_mod (field6 c) (stripe_size id) ltac:(lia)).
    pose proof (Z.mod_pos_bound (field6 c) (stripe_size id) ltac:(lia)).
    apply Z.div_unique with (field6 c mod stripe_size id + dz); lia.
Qed.
End Range.

(** ** Fragments *)

Section Fragment.
Context (id : ShardIdentity) (r : KeyRange) (target : Z).
Context (Hid : id_ok id) (Wr : range_wf r) (Hcont : is_contiguous_range r = true)
  (Hlen : kend r - kstart r < 2 ^ 32) (Htarget : 1 ≤ target < 2 ^ 32).

(** What the loop keeps: the fragments tile the range up to the cursor, none is
    over the target, all but the last are full, and their sizes are right. *)
Record frag_inv (frs : list fragment) (c : Key) : Prop := {
  fi_tiles : tiles (r_start r) (snd <$> frs) c;
  fi_bound : Forall (λ f, 0 ≤ f.1 ≤ target) frs;
  fi_full : ∀ fs f, frs = fs ++ [f] → Forall (λ g, g.1 = target) fs;
  fi_count : field1 (r_start r) = 0 → Forall (λ f, f.1 = kept_in id f.2) frs;
}.

(** Growing the last fragment, or starting a new one. *)
Lemma frag_inv_merge fs f c c' n :
  frag_inv (fs ++ [f]) c → Key_wf c' → key_value c < key_value c' → 0 ≤ n → f.1 + n ≤ target →
  (field1 (r_start r) = 0 → n = kept id (key_value c) (key_value c' - key_value c)) →
  frag_inv (merge_into_last (fs ++ [f]) (n, mkRange c c')) c'.
Proof.
  intros [Ht Hb Hf Hc] Wc' Hlt Hn0 Hn Hk.
  assert (E : merge_into_last (fs ++ [f]) (n, mkRange c c')
    = fs ++ [(wrapping_add 32 f.1 n, f.2 <| r_end := c' |>)]).
  { unfold merge_into_last. rewrite length_app. simpl. rewrite Nat.add_1_r. cbn [pred]. by rewrite alter_middle. }
  rewrite E. rewrite fmap_app in Ht. apply tiles_app in Ht as (m & Ht1 & Ht2). simpl in Ht2.
  destruct Ht2 as (Hm & [Wf1 Wf2 Hfn] & Hfe). apply Forall_app in Hb as [Hb1 Hb2].
  inversion Hb2 as [|? ? Hbf _]; subst.
  assert (Ew : wrapping_add 32 f.1 n = f.1 + n).
  { unfold wrapping_add. apply wrap_small. unfold in_u. lia. }
  split.
  - rewrite fmap_app. apply tiles_app. exists (r_start f.2). split; [done|]. simpl.
    split_and!; [done| |done]. split; simpl; [done|done|lia].
  - apply Forall_app; split; [done|]. constructor; [|constructor]. simpl. lia.
  - intros fs' f' E'. apply app_inj_tail in E' as [<- _]. by eapply Hf.
  - intros H0. specialize (Hc H0). apply Forall_app in Hc as [Hc1 Hc2].
    inversion Hc2 as [|? ? Hcf _]; subst. apply Forall_app; split; [done|]. constructor; [|constructor].
    cbn [fst snd]. rewrite Ew, Hcf, (Hk H0). unfold kept_in. simpl.
    replace (key_value c' - kstart f.2) with ((kend f.2 - kstart f.2) + (key_value c' - kend f.2)) by lia.
    rewrite kept_app by lia. do 2 f_equal. lia.
Qed.

Lemma frag_inv_push frs c c' n :
  frag_inv frs c → Key_wf c → Key_wf c' → key_value c < key_value c' → 0 ≤ n ≤ target →
  Forall (λ g, g.1 = target) frs →
  (field1 (r_start r) = 0 → n = kept id (key_value c) (key_value c' - key_value c)) →
  frag_inv (frs ++ [(n, mkRange c c')]) c'.
Proof.
  intros [Ht Hb Hf Hc] Wc Wc' Hlt Hn Hfull Hk. split.
  - rewrite fmap_app. apply tiles_app. exists c. split; [done|]. simpl. split_and!; [done|by split|done].
  - apply Forall_app; split; [done|]. by constructor.
  - intros fs f E. apply app_inj_tail in E as [<- _]. done.
  - intros H0. apply Forall_app; split; [auto|]. constructor; [|constructor]. simpl. auto.
Qed.

Lemma fragment_step_spec frs c :
  Key_wf c → kstart r ≤ key_value c < kend r → frag_inv frs c →
  ∃ frs' c', fragment_step (E := unit) (mkShardedRange id r) target frs c = Ok (frs', c')
    ∧ Key_wf c' ∧ key_value c < key_value c' ≤ kend r ∧ frag_inv frs' c'.
Proof.
  intros Wc Hb Hinv. unfold fragment_step.
  destruct (distance_spec id r Hid Wr Hcont Hlen c Wc Hb) as (d & -> & Hd & Hst).
  cbn [mbind outcome_bind shard_identity]. rewrite is_key_disposable_eq by done.
  cbn [mbind outcome_bind].
  assert (Hkept : ∀ n, 1 ≤ n ≤ d → field1 (r_start r) = 0 →
    kept id (key_value c) n = if disposable id c then 0 else n).
  { intros n Hn H0. apply (distance_const id r Hid Wr Hcont); try done; [lia|].
    intros H2. destruct (Hst H2); [left; lia|right; lia]. }
  set (wm := match last frs with Some _ => _ | None => _ end).
  assert (Hwm : 1 ≤ wm.1 ∧ (wm.2 = true → ∃ fs f, frs = fs ++ [f]
      ∧ (if disposable id c then True else f.1 + wm.1 ≤ target))
    ∧ (wm.2 = false → wm.1 = target ∧ Forall (λ g, g.1 = target) frs)).
  { unfold wm. destruct (last frs) as [f|] eqn:El.
    - apply last_Some in El as [fs ->]. destruct Hinv as [_ Hbd Hfull _].
      apply Forall_app in Hbd as [_ Hbd]. inversion Hbd as [|? ? Hbf _]; subst.
      destruct (Z.ltb_spec f.1 target); simpl.
      + split_and!; [lia| |done]. intros _. exists fs, f. split; [done|]. case_match; [done|lia].
      + split_and!; [lia| |].
        * intros ->. by exists fs, f.
        * intros Hdis. split; [done|]. apply Forall_app; split; [by eapply Hfull|].
          constructor; [lia|constructor].
    - apply last_None in El as ->. simpl. split_and!; [lia|done|]. intros _. split; [done|constructor]. }
  destruct wm as [want m]. cbn [fst snd] in Hwm. destruct Hwm as (Hw & Hm & Hp).
  set (adv := if disposable id c then d else Z.min d want).
  assert (Hadv : 1 ≤ adv ≤ d) by (unfold adv; case_match; lia).
  destruct (key_add_unit r Wr c adv Wc ltac:(lia) ltac:(lia) ltac:(lia)) as (c' & -> & Wc' & Hc').
  cbn [mbind outcome_bind]. eexists _, c'. split; [reflexivity|]. split_and!; [done|lia|lia|].
  assert (Hn : field1 (r_start r) = 0 → (if disposable id c then 0 else adv)
    = kept id (key_value c) (key_value c' - key_value c)).
  { intros H0. replace (key_value c' - key_value c) with adv by lia. by rewrite Hkept by (lia || done). }
  destruct m.
  - destruct (Hm eq_refl) as (fs & f & -> & Hle). apply frag_inv_merge; try done; try lia.
    + case_match; lia.
    + destruct Hinv as [_ Hbd _ _]. apply Forall_app in Hbd as [_ Hbd].
      inversion Hbd as [|? ? Hbf _]; subst. unfold adv. case_match; lia.
  - destruct (Hp eq_refl) as [-> Hfull]. apply frag_inv_push; try done; try lia.
    unfold adv. case_match; lia.
Qed.

Lemma fragment_loop_spec n : ∀ frs c,
  Key_wf c → kstart r ≤ key_value c ≤ kend r → kend r - key_value c ≤ Z.of_nat n → frag_inv frs c →
  ∃ frs', (∀ fuel, (n ≤ fuel)%nat →
      fragment_loop (E := unit) fuel (mkShardedRange id r) target frs c = Some (Ok frs'))
    ∧ frag_inv frs' (r_end r).
Proof.
  induction n as [|n IH]; intros frs c Wc Hb Hn Hinv.
  all: destruct (decide (key_value c = kend r)) as [E|E].
  1,3: apply key_value_inj in E; [|done|apply Wr]; subst c; exists frs; split; [|done];
    intros [|fuel] _; cbn [fragment_loop range]; rewrite Key_ltb_value by apply Wr;
    by rewrite Z.ltb_irrefl.
  - lia.
  - destruct (fragment_step_spec frs c Wc ltac:(lia) Hinv) as (frs1 & c1 & Hs & Wc1 & Hc1 & Hinv1).
    destruct (IH frs1 c1 Wc1 ltac:(lia) ltac:(lia) Hinv1) as (frs' & Hrun & Hinv').
    exists frs'. split; [|done]. intros [|fuel] Hf; [lia|]. cbn [fragment_loop range].
    rewrite Key_ltb_value by (done || apply Wr). rewrite (proj2 (Z.ltb_lt _ _)) by lia. cbn [negb].
    rewrite Hs. apply Hrun. lia.
Qed.
End Fragment.

(** A range that [fragment] can walk: not contiguous, or short enough for a u32. *)
Definition walkable (r : KeyRange) : Prop :=
  is_contiguous_range r = true → kend r - kstart r < 2 ^ 32.

Lemma next_key r :
  range_wf r → ∃ k, Key_add (E := unit) (r_start r) 1 = Ok k ∧ Key_wf k ∧ key_value k = kstart r + 1.
Proof. intros Wr. pose proof Wr as [Ws We Hn]. apply (key_add_unit r Wr); [done|lia|lia|lia]. Qed.

Lemma kept_single id k : Key_wf k → kept id (key_value k) 1 = if disposable id k then 0 else 1.
Proof.
  intros Wk. apply kept_const; [lia|]. intros z Hz. replace z with (key_value k) by lia.
  by rewrite key_of_value.
Qed.

Lemma fragment_spec id r target :
  id_ok id → range_wf r → walkable r → 1 ≤ target < 2 ^ 32 →
  ∃ frs, (∀ fuel, (Z.to_nat (kend r - kstart r) ≤ fuel)%nat →
      ShardedRange_fragment (E := unit) fuel (mkShardedRange id r) target = Some (Ok frs))
    ∧ tiles (r_start r) (snd <$> frs) (r_end r)
    ∧ (is_contiguous_range r = true → frag_inv id r target frs (r_end r)).
Proof.
  intros Hid Wr Hw Ht. pose proof Wr as [Ws We Hn].
  destruct (next_key r Wr) as (k & Hk & Wk & Hkv). unfold ShardedRange_fragment.
  cbn [range shard_identity]. rewrite Hk. case_bool_decide as Hsingle.
  - rewrite is_key_disposable_eq by done. eexists; split; [done|].
    assert (Htl : tiles (r_start r) [r] (r_end r)) by done.
    split; [done|]. intros _. split; [done| | |].
    + repeat constructor; simpl; case_match; lia.
    + intros [|? fs] f E; [constructor|]. by destruct fs.
    + intros _. repeat constructor. simpl. unfold kept_in. rewrite Hsingle, Hkv.
      replace (kstart r + 1 - kstart r) with 1 by lia. by rewrite kept_single.
  - destruct (is_contiguous_range r) eqn:Hc; simpl.
    + destruct (fragment_loop_spec id r target Hid Wr Hc (Hw Hc) Ht (Z.to_nat (kend r - kstart r)) []
        (r_start r)) as (frs & Hrun & Hinv); [done|lia|lia| |].
      * split; [done|constructor| |constructor]. by intros [] ?.
      * exists frs. split_and!; [done|apply Hinv|done].
    + eexists; split; [done|]. by split_and!.
Qed.

(** [fragment] ends within as many turns as the range has keys.  Its fragments
    follow one another from the start of the range to its end; when the range
    lies in one relation fork their sizes are exactly the pages this shard
    keeps, none exceeds the target, and all but the last reach it. *)
Theorem fragment_correct (id : ShardIdentity) (r : KeyRange) (target : Z)
    (Hid : id_ok id) (Wr : range_wf r) (Hw : walkable r) (Ht : 1 ≤ target < 2 ^ 32) :
  ∃ frs, (∀ fuel, (Z.to_nat (kend r - kstart r) ≤ fuel)%nat →
      ShardedRange_fragment (E := unit) fuel (mkShardedRange id r) target = Some (Ok frs))
    ∧ tiles (r_start r) (snd <$> frs) (r_end r)
    ∧ (is_contiguous_range r = true → field1 (r_start r) = 0 →
       Forall (λ f, f.1 = kept_in id f.2 ∧ f.1 ≤ target) frs
       ∧ ∀ fs f, frs = fs ++ [f] → Forall (λ g, g.1 = target) fs).
Proof.
  destruct (fragment_spec id r target Hid Wr Hw Ht) as (frs & Hrun & Htl & Hinv).
  exists frs. split_and!; [done|done|]. intros Hc H0. destruct (Hinv Hc) as [_ Hb Hf Hk].
  split; [|done]. specialize (Hk H0). rewrite Forall_forall in *. intros f Hin. split; [auto|].
  by apply Hb.
Qed.

Definition test_id : ShardIdentity := mkShardIdentity 1 4 8 LAYOUT_V1.
Definition test_range : KeyRange :=
  mkRange (mkKey 0 1663 5 16384 0 4) (mkKey 0 1663 5 16384 0 100).

Lemma test_id_ok : id_ok test_id.
Proof. split; simpl; [done|lia|lia]. Qed.

Lemma test_range_wf : range_wf test_range.
Proof. by apply range_wfb_spec. Qed.

Lemma fragment_correct_witness :
  ShardedRange_fragment (E := unit) 96 (mkShardedRange test_id test_range) 10
  = Some (Ok [(10, mkRange (mkKey 0 1663 5 16384 0 4) (mkKey 0 1663 5 16384 0 42));
              (6, mkRange (mkKey 0 1663 5 16384 0 42) (mkKey 0 1663 5 16384 0 100))])
  ∧ ∃ frs, ShardedRange_fragment (E := unit) 96 (mkShardedRange test_id test_range) 10 = Some (Ok frs)
    ∧ Forall (λ f, f.1 = kept_in test_id f.2 ∧ f.1 ≤ 10) frs.
Proof.
  split; [reflexivity|].
  destruct (fragment_correct test_id test_range 10 test_id_ok test_range_wf) as (frs & Hrun & _ & Hk).
  - intros _. vm_compute. reflexivity.
  - lia.
  - exists frs. split; [apply Hrun; by apply Nat.leb_le | by apply Hk].
Defined.

(** A zero target never makes progress: as soon as the first key of a longer
    contiguous range belongs to the shard, the loop runs forever. *)
Theorem fragment_zero_target_diverges (id : ShardIdentity) (r : KeyRange)
    (Hid : id_ok id) (Wr : range_wf r) (Hc : is_contiguous_range r = true) (Hw : walkable r)
    (Hlong : kstart r + 1 < kend r) (Hkeep : disposable id (r_start r) = false) (fuel : nat) :
  ShardedRange_fragment (E := unit) fuel (mkShardedRange id r) 0 = None.
Proof.
  pose proof Wr as [Ws We Hn].
  destruct (next_key r Wr) as (k & Hk & Wk & Hkv). unfold ShardedRange_fragment.
  cbn [range shard_identity]. rewrite Hk, bool_decide_eq_false_2 by (intros E; rewrite E in Hlong; lia).
  rewrite Hc. cbn [negb].
  assert (Hstep : ∀ frs, (∀ f, last frs = Some f → 0 ≤ f.1) → ∃ frs',
    fragment_step (E := unit) (mkShardedRange id r) 0 frs (r_start r) = Ok (frs', r_start r)
    ∧ (∀ f, last frs' = Some f → 0 ≤ f.1)).
  { intros frs Hl. unfold fragment_step.
    destruct (distance_spec id r Hid Wr Hc (Hw Hc) (r_start r) Ws ltac:(lia)) as (d & -> & Hd & _).
    cbn [mbind outcome_bind shard_identity]. rewrite is_key_disposable_eq, Hkeep by done.
    cbn [mbind outcome_bind].
    assert (Hwm : match last frs with
      | Some frag => if frag.1 <? 0 then (0 - frag.1, true) else (0, false)
      | None => (0, false) end = (0, false)).
    { destruct (last frs) as [f|]; [|done]. by rewrite (proj2 (Z.ltb_ge _ _)) by auto. }
    rewrite Hwm, Z.min_r by lia.
    destruct (key_add_unit r Wr (r_start r) 0 Ws ltac:(lia) ltac:(lia) ltac:(lia)) as (c' & -> & Wc' & Hc').
    assert (c' = r_start r) as -> by (apply key_value_inj; [done|done|lia]).
    eexists; split; [reflexivity|]. intros f. rewrite last_snoc. by intros [= <-]. }
  assert (Hrun : ∀ fuel frs, (∀ f, last frs = Some f → 0 ≤ f.1) →
    fragment_loop (E := unit) fuel (mkShardedRange id r) 0 frs (r_start r) = None).
  { clear fuel. induction fuel as [|fuel IH]; intros frs Hl; cbn [fragment_loop range];
      rewrite Key_ltb_value, (proj2 (Z.ltb_lt _ _)) by (done || lia); cbn [negb]; [done|].
    destruct (Hstep frs Hl) as (frs' & -> & Hl'). by apply IH. }
  by apply Hrun.
Qed.

Lemma fragment_zero_target_diverges_witness :
  is_contiguous_range test_range = true ∧ ∀ fuel, ShardedRange_fragment (E := unit) fuel
    (mkShardedRange (mkShardIdentity 0 1 2048 LAYOUT_V1) test_range) 0 = None.
Proof.
  split; [reflexivity|]. intros fuel. apply fragment_zero_target_diverges.
  - split; simpl; [done|lia|lia].
  - apply test_range_wf.
  - reflexivity.
  - intros _. vm_compute. reflexivity.
  - vm_compute. reflexivity.
  - reflexivity.
Defined.

(** ** Page counts *)

Section PageCount.
Context (id : ShardIdentity) (r : KeyRange).
Context (Hid : id_ok id) (Wr : range_wf r) (Hcont : is_contiguous_range r = true)
  (Hlen : kend r - kstart r < 2 ^ 32) (H0 : field1 (r_start r) = 0).

Lemma kept_bound a n : 0 ≤ n → 0 ≤ kept id a n ≤ n.
Proof.
  intros Hn. unfold kept. split; [lia|].
  pose proof (length_filter (λ z, disposable id (key_of z) = false) (seqZ a n)) as Hf.
  rewrite length_seqZ in Hf. lia.
Qed.

Lemma page_count_loop_spec n : ∀ c,
  Key_wf c → kstart r ≤ key_value c ≤ kend r → kend r - key_value c ≤ Z.of_nat n →
  ∀ fuel, (n ≤ fuel)%nat →
    page_count_loop (E := unit) fuel (mkShardedRange id r)
      (kept id (kstart r) (key_value c - kstart r)) c
    = Some (Ok (kept_in id r)).
Proof.
  induction n as [|n IH]; intros c Wc Hb Hn fuel Hf.
  all: destruct (decide (key_value c = kend r)) as [E|E].
  1,3: apply key_value_inj in E; [|done|apply Wr]; subst c;
    destruct fuel; cbn [page_count_loop range]; rewrite Key_ltb_value by apply Wr;
    by rewrite Z.ltb_irrefl.
  - lia.
  - destruct fuel as [|fuel]; [lia|]. cbn [page_count_loop range].
    rewrite Key_ltb_value by (done || apply Wr). rewrite (proj2 (Z.ltb_lt _ _)) by lia. cbn [negb].
    destruct (distance_spec id r Hid Wr Hcont Hlen c Wc ltac:(lia)) as (d & -> & Hd & Hst).
    cbn [mbind outcome_bind shard_identity]. rewrite is_key_disposable_eq by done.
    cbn [mbind outcome_bind].
    destruct (key_add_unit r Wr c d Wc ltac:(lia) ltac:(lia) ltac:(lia)) as (c' & -> & Wc' & Hc').
    cbn [mbind outcome_bind].
    pose proof (distance_const id r Hid Wr Hcont c d H0 Wc ltac:(lia) Hd Hst) as Hk.
    rewrite <- (IH c' Wc' ltac:(lia) ltac:(lia) fuel ltac:(lia)). f_equal.
    replace (key_value c' - kstart r) with ((key_value c - kstart r) + d) by lia.
    rewrite kept_app by lia. replace (kstart r + (key_value c - kstart r)) with (key_value c) by lia.
    rewrite Hk. pose proof (kept_bound (kstart r) (key_value c - kstart r) ltac:(lia)).
    destruct (disposable id c); simpl; [lia|]. unfold wrapping_add. apply wrap_small. unfold in_u. lia.
Qed.
End PageCount.

(** For a range of one relation fork [page_count], which jumps from stripe to
    stripe, is the number of its pages that this shard keeps. *)
Theorem page_count_correct (id : ShardIdentity) (r : KeyRange)
    (Hid : id_ok id) (Wr : range_wf r) (Hc : is_contiguous_range r = true) (Hw : walkable r)
    (H0 : field1 (r_start r) = 0) (fuel : nat) (Hf : (Z.to_nat (kend r - kstart r) ≤ fuel)%nat) :
  ShardedRange_page_count (E := unit) fuel (mkShardedRange id r) = Some (Ok (kept_in id r)).
Proof.
  pose proof Wr as [Ws We Hn]. pose proof (kept_bound id (kstart r) (kend r - kstart r) ltac:(lia)) as Hkb.
  destruct (next_key r Wr) as (k & Hk & Wk & Hkv). unfold ShardedRange_page_count.
  cbn [range shard_identity]. rewrite Hk. case_bool_decide as Hsingle.
  - rewrite is_key_disposable_eq by done. simpl. unfold kept_in. rewrite Hsingle, Hkv.
    replace (kstart r + 1 - kstart r) with 1 by lia. by rewrite kept_single.
  - rewrite Hc. cbn [negb]. destruct (Z.ltb_spec (count id) 2) as [H2|H2].
    + rewrite contiguous_range_len_value by auto. unfold kept_in.
      rewrite (kept_const _ _ _ false); [done|lia|]. intros z _. unfold disposable.
      by rewrite (proj2 (Z.ltb_lt _ _) H2).
    + pose proof (page_count_loop_spec id r Hid Wr Hc (Hw Hc) H0 (Z.to_nat (kend r - kstart r)) (r_start r) Ws ltac:(lia)
        ltac:(lia) fuel Hf) as Hl. rewrite Z.sub_diag in Hl. change (kept id (kstart r) 0) with 0 in Hl.
      rewrite Hl. simpl. specialize (Hw Hc). unfold kept_in, u32_max in *.
      by rewrite (proj2 (Z.ltb_ge _ _)) by lia.
Qed.

Lemma page_count_correct_witness :
  kept_in test_id test_range = 16
  ∧ ShardedRange_page_count (E := unit) 96 (mkShardedRange test_id test_range) = Some (Ok 16).
Proof.
  split; [vm_compute; reflexivity|].
  rewrite (page_count_correct test_id test_range test_id_ok test_range_wf eq_refl).
  - vm_compute. reflexivity.
  - intros _. vm_compute. reflexivity.
  - reflexivity.
  - by apply Nat.leb_le.
Defined.

(** ** Partitions *)

(** The ranges of all parts, in order. *)
Definition all_ranges (st : partition_state) : list KeyRange :=
  concat (ranges <$> ps_parts st) ++ ps_current st.

Lemma partition_add_ranges target st f :
  all_ranges (partition_add target st f) = all_ranges st ++ [f.2]
  ∧ (Forall (λ p, ranges p ≠ []) (ps_parts st) → (0 < ps_size st → ps_current st ≠ []) →
     Forall (λ p, ranges p ≠ []) (ps_parts (partition_add target st f))
     ∧ ps_current (partition_add target st f) ≠ []).
Proof.
  unfold partition_add, all_ranges. destruct f as [n [a b]]. simpl.
  destruct (_ && (0 <? ps_size st)) eqn:E; simpl; split.
  - rewrite fmap_app, concat_app. simpl. by rewrite app_nil_r, <- app_assoc.
  - apply andb_true_iff in E as [_ E]. apply Z.ltb_lt in E. intros Hp Hc. split; [|done].
    apply Forall_app; split; [done|]. constructor; [by apply Hc|constructor].
  - by rewrite <- app_assoc.
  - intros Hp _. split; [done|]. by destruct (ps_current st).
Qed.

Lemma partition_fold_ranges target frs : ∀ st,
  all_ranges (foldl (partition_add target) st frs) = all_ranges st ++ (snd <$> frs)
  ∧ (Forall (λ p, ranges p ≠ []) (ps_parts st) → (0 < ps_size st → ps_current st ≠ []) →
     Forall (λ p, ranges p ≠ []) (ps_parts (foldl (partition_add target) st frs))
     ∧ (0 < ps_size (foldl (partition_add target) st frs) →
        ps_current (foldl (partition_add target) st frs) ≠ [])).
Proof.
  induction frs as [|f frs IH]; intros st; simpl; [by rewrite app_nil_r|].
  destruct (IH (partition_add target st f)) as [IH1 IH2].
  destruct (partition_add_ranges target st f) as [E1 E2]. rewrite IH1, E1, <- app_assoc. split; [done|].
  intros Hp Hc. destruct (E2 Hp Hc). auto.
Qed.

(** What partitioning a list of ranges in order amounts to. *)
Lemma partition_ranges_spec id target rs : ∀ st,
  id_ok id → 1 ≤ target < 2 ^ 32 → ranges_inv rs → Forall walkable rs →
  Forall (λ p, ranges p ≠ []) (ps_parts st) → (0 < ps_size st → ps_current st ≠ []) →
  ∃ n st' new, (∀ fuel, (n ≤ fuel)%nat → partition_ranges (E := unit) fuel id target rs st = Some (Ok st'))
    ∧ all_ranges st' = all_ranges st ++ new
    ∧ ranges_inv new ∧ (∀ z, in_ranges new z ↔ in_ranges rs z)
    ∧ Forall (λ p, ranges p ≠ []) (ps_parts st').
Proof.
  induction rs as [|r rs IH]; intros st Hid Ht Hinv Hw Hp Hc.
  { exists 0%nat, st, []. rewrite app_nil_r. by split_and!. }
  apply ranges_inv_cons in Hinv as (Wr & Hf & Hinv). inversion Hw as [|? ? Hwr Hws]; subst.
  destruct (fragment_spec id r target Hid Wr Hwr Ht) as (frs & Hrun & Htl & _).
  destruct (partition_fold_ranges target frs st) as [E1 E2]. destruct (E2 Hp Hc) as [Hp' Hc'].
  destruct (IH _ Hid Ht Hinv Hws Hp' Hc') as (n & st' & new & Hrun' & Eall & Hnew & Hin & Hparts).
  exists (Z.to_nat (kend r - kstart r) + n)%nat, st', ((snd <$> frs) ++ new). split_and!.
  - intros fuel Hfuel. cbn [partition_ranges]. rewrite Hrun by lia. apply Hrun'. lia.
  - by rewrite Eall, E1, <- app_assoc.
  - apply ranges_inv_app. split_and!; [by eapply tiles_inv|done|]. intros a b Ha Hb.
    pose proof (ranges_inv_wf _ _ (tiles_inv _ _ _ Htl) Ha) as [Wa1 Wa2 Han].
    pose proof (ranges_inv_wf _ _ Hnew Hb) as [Wb1 Wb2 Hbn].
    split_and!; [done|done|].
    assert (Hae : in_ranges (snd <$> frs) (kend a - 1))
      by (apply in_ranges_elem; exists a; split; [done|unfold range_has; lia]).
    apply (tiles_in _ _ _ _ Htl) in Hae.
    assert (Hbs : in_ranges rs (kstart b))
      by (apply Hin, in_ranges_elem; exists b; split; [done|unfold range_has; lia]).
    apply in_ranges_elem in Hbs as (x & Hx & Hxb). rewrite Forall_forall in Hf.
    destruct (Hf x Hx) as (_ & _ & ?). unfold range_has in Hxb. lia.
  - intros z. rewrite in_ranges_app, Hin, in_ranges_cons, (tiles_in _ _ _ _ Htl). done.
  - done.
Qed.

(** Partitioning ends and neither loses nor duplicates a key: the parts, read in
    order, are sorted and disjoint and hold exactly the keys of the key space;
    no part is empty. *)
Theorem partition_correct (ks : KeySpace) (id : ShardIdentity) (target_size : Z)
    (Hid : id_ok id) (Hinv : KeySpace_inv ks) (Hw : Forall walkable (ranges ks))
    (Ht : BLCKSZ ≤ target_size < BLCKSZ * 2 ^ 32) :
  ∃ n p, (∀ fuel, (n ≤ fuel)%nat → KeySpace_partition (E := unit) fuel ks id target_size = Some (Ok p))
    ∧ ranges_inv (concat (ranges <$> parts p))
    ∧ Forall (λ q, ranges q ≠ []) (parts p)
    ∧ ∀ k, in_keyspace ks k ↔ ∃ q, q ∈ parts p ∧ in_keyspace q k.
Proof.
  unfold KeySpace_partition, BLCKSZ in *.
  assert (Hd : 1 ≤ target_size / 8192 < 2 ^ 32).
  { split; [apply Z.div_le_lower_bound; lia|apply Z.div_lt_upper_bound; lia]. }
  rewrite wrap_small by (unfold in_u; lia).
  destruct (partition_ranges_spec id (target_size / 8192) (ranges ks) (mkPartition [] [] 0) Hid Hd Hinv Hw)
    as (n & st & new & Hrun & Eall & Hnew & Hin & Hparts); [constructor|done|].
  unfold all_ranges in Eall. simpl in Eall.
  assert (Hcat : concat (ranges <$> (if bool_decide (ps_current st = []) then ps_parts st
                         else ps_parts st ++ [mkKeySpace (ps_current st)])) = new).
  { case_bool_decide as E; [by rewrite <- Eall, E, app_nil_r|].
    rewrite fmap_app, concat_app. simpl. by rewrite app_nil_r. }
  eexists n, _. split; [intros fuel Hf; rewrite Hrun by done; reflexivity|]. cbn [parts].
  rewrite Hcat. split_and!; [done| |].
  - case_bool_decide; [done|]. apply Forall_app; split; [done|]. by constructor.
  - intros k. unfold in_keyspace. rewrite <- Hin, <- Hcat. generalize (key_value k). clear. intros z.
    induction (if bool_decide (ps_current st = []) then _ else _) as [|q l IH]; simpl;
      [rewrite in_ranges_nil; set_solver|]. rewrite in_ranges_app, IH. set_solver.
Qed.

Lemma partition_correct_witness :
  ∃ n p, (∀ fuel, (n ≤ fuel)%nat →
      KeySpace_partition (E := unit) fuel test_keyspace test_id 65536 = Some (Ok p))
    ∧ Forall (λ q, ranges q ≠ []) (parts p).
Proof.
  destruct (partition_correct test_keyspace test_id 65536 test_id_ok test_keyspace_inv)
    as (n & p & Hrun & _ & Hp & _).
  - repeat constructor; intros _; vm_compute; reflexivity.
  - unfold BLCKSZ. lia.
  - by exists n, p.
Defined.
