(* ===== verification/TenantSize.v ===== *)
(** * Synthetic size of a tenant

    [libs/tenant_size_model/src/calculation.rs]: the cheapest way to retain
    what a tenant has to retain.  A model is a forest of segments; for each
    segment the calculation chooses to take a snapshot at it, to keep the WAL
    from its parent, or to skip it.  The result is a cheapest plan among all
    that keep what is needed.  Indices are [usize], sizes and LSNs [u64]. *)

From S2P Require Import Prelude.

Record Segment := {
  seg_parent : option nat;
  seg_lsn : Z;
  seg_size : option Z;
  seg_needed : bool;
}.

Record StorageModel := { model_segments : list Segment }.

Inductive SegmentMethod := SnapshotHere | Wal | Skipped.

#[export] Instance SegmentMethod_eq_dec : EqDecision SegmentMethod.
Proof. solve_decision. Defined.

Record SegmentSizeResult := {
  res_method : SegmentMethod;
  res_accum_size : Z;
}.

Record SizeResult := {
  total_size : Z;
  result_segments : list SegmentSizeResult;
}.

(** A segment whose size has been calculated, with the choices below it. *)
Inductive SegmentSize := mkSegmentSize {
  ss_method : SegmentMethod;
  ss_accum_size : Z;
  ss_seg_id : nat;
  ss_children : list SegmentSize;
}.

Record SizeAlternatives := {
  incremental : SegmentSize;
  non_incremental : option SegmentSize;
}.

(** [x.accum_size += child.accum_size; x.children.push(child)] *)
Definition add_child (x child : SegmentSize) : SegmentSize :=
  mkSegmentSize (ss_method x) (wrapping_add 64 (ss_accum_size x) (ss_accum_size child))
    (ss_seg_id x) (ss_children x ++ [child]).

(** The loop of method 1, which breaks at the first child without an
    alternative. *)
Fixpoint snapshot_later_loop (snapshot_later : SegmentSize) (children : list SizeAlternatives) :
    option SegmentSize :=
  match children with
  | [] => Some snapshot_later
  | child :: children' =>
    match non_incremental child with
    | Some n => snapshot_later_loop (add_child snapshot_later n) children'
    | None => None
    end
  end.

Definition snapshot_later (seg_id : nat) (seg : Segment) (children : list SizeAlternatives) :
    option SegmentSize :=
  if negb (seg_needed seg) then snapshot_later_loop (mkSegmentSize Skipped 0 seg_id []) children
  else None.

Definition snapshot_here (seg_id : nat) (seg : Segment) (children : list SizeAlternatives) :
    option SegmentSize :=
  if negb (seg_needed seg) || bool_decide (seg_parent seg = None) then
    match seg_size seg with
    | Some snapshot_size =>
      Some (foldl (λ x child, add_child x (incremental child))
              (mkSegmentSize SnapshotHere snapshot_size seg_id []) children)
    | None => None
    end
  else None.

Definition wal_here (segments : list Segment) (seg_id : nat) (seg : Segment)
    (children : list SizeAlternatives) : outcome unit SegmentSize :=
  accum_size ← match seg_parent seg with
               | Some parent_id =>
                 p ← unwrap (segments !! parent_id);
                 Ok (wrapping_sub 64 (seg_lsn seg) (seg_lsn p))
               | None => Ok 0
               end;
  Ok (foldl (λ x child, add_child x (incremental child))
        (mkSegmentSize Wal accum_size seg_id []) children).

(** The comparisons at the end of [size_here]. *)
Definition cheapest_non_incremental (here later : option SegmentSize) : option SegmentSize :=
  match later with
  | Some l =>
    match here with
    | Some h => if ss_accum_size l <=? ss_accum_size h then Some l else here
    | None => Some l
    end
  | None => here
  end.

Definition cheapest_incremental (wal : SegmentSize) (non : option SegmentSize) : SegmentSize :=
  match non with
  | Some n => if ss_accum_size wal <? ss_accum_size n then wal else n
  | None => wal
  end.

Fixpoint size_here (fuel : nat) (segments : list Segment) (child_list : list (list nat))
    (seg_id : nat) : fueled unit SizeAlternatives :=
  match fuel with
  | O => None
  | S fuel' =>
    seg ← Some (unwrap (segments !! seg_id)) : fueled unit Segment;
    child_ids ← Some (unwrap (child_list !! seg_id)) : fueled unit (list nat);
    children ← fueled_mapM (size_here fuel' segments child_list) child_ids;
    wal ← Some (wal_here segments seg_id seg children) : fueled unit SegmentSize;
    let non := cheapest_non_incremental (snapshot_here seg_id seg children)
                 (snapshot_later seg_id seg children) in
    mret {| incremental := cheapest_incremental wal non; non_incremental := non |}
  end.

Fixpoint fill_selected_sizes (selected : SegmentSize) (result : list SegmentSizeResult) :
    outcome unit (list SegmentSizeResult) :=
  match selected with
  | mkSegmentSize method accum_size seg_id children =>
    if (seg_id <? length result)%nat then
      (fix fill_children children result :=
         match children with
         | [] => Ok result
         | child :: children' =>
           result ← fill_selected_sizes child result; fill_children children' result
         end) children
        (<[seg_id := {| res_method := method; res_accum_size := accum_size |}]> result)
    else Panic
  end.

(** The loop that builds [roots] and [child_list]. *)
Fixpoint adjacency (seg_id : nat) (segments : list Segment) (roots : list nat)
    (child_list : list (list nat)) : outcome unit (list nat * list (list nat)) :=
  match segments with
  | [] => Ok (roots, child_list)
  | seg :: segments' =>
    match seg_parent seg with
    | Some parent_id =>
      if (parent_id <? length child_list)%nat
      then adjacency (S seg_id) segments' roots (alter (λ l, l ++ [seg_id]) parent_id child_list)
      else Panic
    | None => adjacency (S seg_id) segments' (roots ++ [seg_id]) child_list
    end
  end.

(** The loop over the roots. *)
Fixpoint sum_roots (fuel : nat) (segments : list Segment) (child_list : list (list nat))
    (roots : list nat) (segment_results : list SegmentSizeResult) (total_size : Z) :
    fueled unit (Z * list SegmentSizeResult) :=
  match roots with
  | [] => mret (total_size, segment_results)
  | root :: roots' =>
    alts ← size_here fuel segments child_list root;
    match non_incremental alts with
    | Some selected =>
      segment_results ← Some (fill_selected_sizes selected segment_results)
        : fueled unit (list SegmentSizeResult);
      sum_roots fuel segments child_list roots' segment_results
        (wrapping_add 64 total_size (ss_accum_size selected))
    | None => sum_roots fuel segments child_list roots' segment_results total_size
    end
  end.

Definition calculate (fuel : nat) (self : StorageModel) : fueled unit SizeResult :=
  let segments := model_segments self in
  adj ← Some (adjacency 0 segments [] (replicate (length segments) []))
    : fueled unit (list nat * list (list nat));
  let '(roots, child_list) := adj in
  res ← sum_roots fuel segments child_list roots
    (replicate (length segments) {| res_method := Skipped; res_accum_size := 0 |}) 0;
  let '(total, segment_results) := res in
  mret {| total_size := Z.max total 1; result_segments := segment_results |}.

(** ** The forest *)

Section forest.
Context (segs : list Segment).
Abbreviation n := (length segs).

Definition parent (i : nat) : option nat := segs !! i ≫= seg_parent.

Definition parents_in_range : Prop := ∀ i p, parent i = Some p → (p < n)%nat.

Definition children_of (i : nat) : list nat := filter (λ j, parent j = Some i) (seq 0 n).
Definition roots_of : list nat := filter (λ j, parent j = None) (seq 0 n).

Lemma elem_children i j : j ∈ children_of i ↔ parent j = Some i ∧ (j < n)%nat.
Proof. unfold children_of. rewrite list_elem_of_filter, elem_of_seq. intuition lia. Qed.

Lemma elem_roots j : j ∈ roots_of ↔ parent j = None ∧ (j < n)%nat.
Proof. unfold roots_of. rewrite list_elem_of_filter, elem_of_seq. intuition lia. Qed.

Lemma parent_lt i p : parent i = Some p → (i < n)%nat.
Proof.
  unfold parent. intros H. apply lookup_lt_is_Some. destruct (segs !! i); [eauto|done].
Qed.

Lemma adjacency_spec : parents_in_range →
  adjacency 0 segs [] (replicate n []) = Ok (roots_of, children_of <$> seq 0 n).
Proof.
  intros Hr.
  assert (Hgen : ∀ suf k, drop k segs = suf → (k ≤ n)%nat →
    adjacency k suf (filter (λ j, parent j = None) (seq 0 k))
      ((λ i, filter (λ j, parent j = Some i) (seq 0 k)) <$> seq 0 n)
    = Ok (roots_of, children_of <$> seq 0 n)).
  { induction suf as [|seg suf IH]; intros k Hd Hk.
    { assert (k = n) as -> by (apply (f_equal length) in Hd; rewrite length_drop in Hd; simpl in Hd; lia).
      done. }
    assert (Hseg : segs !! k = Some seg).
    { rewrite <- (Nat.add_0_r k), <- lookup_drop, Hd. done. }
    assert (Hkn := lookup_lt_Some _ _ _ Hseg).
    assert (Hpar : parent k = seg_parent seg) by (unfold parent; by rewrite Hseg).
    assert (Hd' : drop (S k) segs = suf) by by rewrite <- Nat.add_1_r, <- drop_drop, Hd.
    specialize (IH (S k) Hd' ltac:(lia)).
    simpl. rewrite <- IH, seq_S. simpl. setoid_rewrite filter_app.
    destruct (seg_parent seg) as [p|] eqn:Hp.
    - assert (p < n)%nat by (eapply Hr; eauto).
      rewrite length_fmap, length_seq, (proj2 (Nat.ltb_lt _ _)) by done.
      f_equal; [by rewrite filter_cons_False, filter_nil, app_nil_r by congruence|].
      apply list_eq. intros i. destruct (decide (i = p)) as [->|Hne].
      + rewrite list_lookup_alter_eq, !list_lookup_fmap, lookup_seq_lt by done. simpl.
        by rewrite filter_cons_True, filter_nil by done.
      + rewrite list_lookup_alter_ne, !list_lookup_fmap by done.
        destruct (seq 0 n !! i) as [i'|] eqn:Hi; [|done]. apply lookup_seq in Hi as [-> _].
        simpl. rewrite filter_cons_False, filter_nil, app_nil_r by congruence. done.
    - f_equal.
      + by rewrite filter_cons_True, filter_nil by done.
      + apply list_fmap_ext. intros _ i _.
        by rewrite filter_cons_False, filter_nil, app_nil_r by congruence. }
  rewrite <- (Hgen segs 0%nat) by (done || lia). f_equal.
  clear. induction segs as [|s l IH]; [done|]. simpl. f_equal. rewrite IH. by rewrite <- fmap_S_seq, <- list_fmap_compose.
Qed.

(** The number of steps to the root. *)
Inductive depth_is : nat → nat → Prop :=
| depth_root i : parent i = None → (i < n)%nat → depth_is i 0
| depth_child i p d : parent i = Some p → depth_is p d → depth_is i (S d).

Lemma depth_unique i d d' : depth_is i d → depth_is i d' → d = d'.
Proof.
  intros Hd. revert d'. induction Hd as [i Hp Hi|i p d Hp Hd IH]; intros d' Hd';
    inversion Hd'; simplify_eq; auto.
Qed.

Lemma depth_lt i d : depth_is i d → (i < n)%nat.
Proof. destruct 1; [done|by eapply parent_lt]. Qed.

(** The ancestors of a segment are different segments: they have different
    depths. *)
Lemma depth_bound i d : depth_is i d → (d < n)%nat.
Proof.
  intros Hd. assert (Hl : ∃ l, length l = S d ∧ NoDup l
    ∧ (∀ j, j ∈ l → (j < n)%nat ∧ ∃ e, (e ≤ d)%nat ∧ depth_is j e)).
  { induction Hd as [i Hp Hi|i p d Hp Hd (l & Hl & Hnd & Hj)].
    - exists [i]. split_and!; [done|apply NoDup_singleton|].
      intros j ->%list_elem_of_singleton. split; [done|]. exists 0%nat. by split; [|constructor].
    - exists (i :: l). split_and!; [by simpl; rewrite Hl|constructor; [|done]|].
      + intros Hi. destruct (Hj i Hi) as (_ & e & He & Hde).
        assert (e = S d) by (eapply depth_unique; [done|by econstructor]). lia.
      + intros j [->|Hjl]%elem_of_cons.
        * split; [by eapply parent_lt|]. exists (S d). split; [done|by econstructor].
        * destruct (Hj j Hjl) as (? & e & ? & ?). split; [done|]. exists e. split; [lia|done]. }
  destruct Hl as (l & Hl & Hnd & Hj).
  assert (Hsub : l ⊆+ seq 0 n).
  { apply NoDup_submseteq; [done|]. intros j Hjl. apply elem_of_seq.
    destruct (Hj j Hjl). lia. }
  apply submseteq_length in Hsub. rewrite length_seq in Hsub. lia.
Qed.

(** The segments below [i], in the order they are visited. *)
Fixpoint subtree (fuel : nat) (i : nat) : list nat :=
  match fuel with
  | O => []
  | S fuel' => i :: (children_of i ≫= subtree fuel')
  end.

Fixpoint anc (k : nat) (j : nat) : option nat :=
  match k with O => Some j | S k' => parent j ≫= anc k' end.

Lemma anc_S k j i : anc (S k) j = Some i ↔ ∃ c, anc k j = Some c ∧ parent c = Some i.
Proof.
  revert j. induction k as [|k IH]; intros j.
  - simpl. destruct (parent j) eqn:?; simpl; naive_solver.
  - change (anc (S (S k)) j) with (parent j ≫= anc (S k)).
    change (anc (S k) j) with (parent j ≫= anc k).
    destruct (parent j) as [p|]; simpl; [apply IH|naive_solver].
Qed.

Lemma depth_anc k j i d : anc k j = Some i → depth_is i d → depth_is j (k + d).
Proof.
  revert j. induction k as [|k IH]; intros j; simpl; [by intros [= ->]|].
  destruct (parent j) as [p|] eqn:Hp; [|done]. simpl. intros Ha Hd.
  econstructor; [done|]. by apply IH.
Qed.

Lemma subtree_anc fuel i j : j ∈ subtree fuel i → ∃ k, anc k j = Some i.
Proof.
  revert i. induction fuel as [|fuel IH]; intros i; simpl; [by intros ?%elem_of_nil|].
  intros [->|(c & Hj & Hc)%list_elem_of_bind]%elem_of_cons; [by exists 0%nat|].
  apply elem_children in Hc as [Hc _]. destruct (IH c Hj) as [k Hk].
  exists (S k). apply anc_S. eauto.
Qed.

Lemma anc_subtree fuel k i j : anc k j = Some i → (k < fuel)%nat → j ∈ subtree fuel i.
Proof.
  revert fuel i. induction k as [|k IH]; intros [|fuel] i Ha Hk; try lia.
  - injection Ha as ->. simpl. left.
  - apply anc_S in Ha as (c & Ha & Hc). simpl. right. apply list_elem_of_bind.
    exists c. split; [apply IH; [done|lia]|]. apply elem_children. split; [done|]. by eapply parent_lt.
Qed.

Lemma subtree_depth fuel i d j :
  depth_is i d → j ∈ subtree fuel i → ∃ k, anc k j = Some i ∧ depth_is j (k + d).
Proof. intros Hd [k Hk]%subtree_anc. exists k. eauto using depth_anc. Qed.

(** Two segments of the same depth have no common descendant. *)
Lemma subtree_disjoint fuel i1 i2 d j :
  depth_is i1 d → depth_is i2 d → j ∈ subtree fuel i1 → j ∈ subtree fuel i2 → i1 = i2.
Proof.
  intros H1 H2 (k1 & A1 & D1)%(subtree_depth _ _ d) (k2 & A2 & D2)%(subtree_depth _ _ d); [|done..].
  pose proof (depth_unique _ _ _ D1 D2). assert (k1 = k2) as -> by lia. congruence.
Qed.

Lemma child_depth i d c : depth_is i d → c ∈ children_of i → depth_is c (S d).
Proof. intros Hd [Hc _]%elem_children. by econstructor. Qed.

Lemma NoDup_children i : NoDup (children_of i).
Proof. apply NoDup_filter, NoDup_seq. Qed.

Lemma NoDup_subtree fuel i d : depth_is i d → NoDup (subtree fuel i).
Proof.
  revert i d. induction fuel as [|fuel IH]; intros i d Hd; simpl; [constructor|].
  constructor.
  - intros (c & Hi & Hc)%list_elem_of_bind.
    destruct (subtree_depth fuel c (S d) i) as (k & _ & Hk); [by eapply child_depth|done|].
    pose proof (depth_unique _ _ _ Hk Hd). lia.
  - apply NoDup_bind; [|intros c Hc; eapply IH, child_depth; eauto|apply NoDup_children].
    intros c1 c2 j Hc1 Hc2. eapply (subtree_disjoint _ _ _ (S d)); by eapply child_depth.
Qed.

(** No loops: every segment is below a root. *)
Definition acyclic : Prop := ∀ i, (i < n)%nat → ∃ d, depth_is i d.

Lemma forest_perm : acyclic → roots_of ≫= subtree n ≡ₚ seq 0 n.
Proof.
  intros Hac.
  assert (Hroot : ∀ r, r ∈ roots_of → depth_is r 0).
  { intros r [??]%elem_roots. by constructor. }
  apply NoDup_Permutation; [|apply NoDup_seq|].
  - apply NoDup_bind; [|intros r Hr; by eapply NoDup_subtree, Hroot|apply NoDup_filter, NoDup_seq].
    intros r1 r2 j Hr1 Hr2. eapply (subtree_disjoint _ _ _ 0); by apply Hroot.
  - intros j. rewrite list_elem_of_bind, elem_of_seq. split.
    + intros (r & Hj & Hr). destruct (subtree_depth n r 0 j) as (k & _ & Hk); [auto..|].
      apply depth_lt in Hk. lia.
    + intros [_ Hj]. destruct (Hac j Hj) as [d Hd]. pose proof (depth_bound _ _ Hd) as Hb.
      assert (∃ r, anc d j = Some r ∧ r ∈ roots_of) as (r & Ha & Hr).
      { clear Hb. clear Hj. induction Hd as [i Hp Hi|i p d Hp Hd IH].
        - exists i. split; [done|]. by apply elem_roots.
        - destruct IH as (r & Ha & Hr). exists r. simpl. by rewrite Hp. }
      exists r. split; [|done]. by eapply anc_subtree.
Qed.
End forest.

(** ** Plans

    What the calculation optimises over: a method for every segment, such that
    what is needed can be reconstructed. *)

Section plans.
Context (segs : list Segment).
Abbreviation n := (length segs).
Abbreviation plan := (nat → SegmentMethod).
Implicit Types m : plan.

Definition lsn_at (i : nat) : Z := match segs !! i with Some s => seg_lsn s | None => 0 end.

(** What a method costs at segment [i]: a snapshot its logical size, WAL its
    length from the parent. *)
Definition own_cost (i : nat) (x : SegmentMethod) : Z :=
  match segs !! i with
  | Some seg =>
    match x with
    | Skipped => 0
    | SnapshotHere => default 0 (seg_size seg)
    | Wal => match seg_parent seg with Some p => seg_lsn seg - lsn_at p | None => 0 end
    end
  | None => 0
  end.

(** Which methods a segment may use: a needed segment is not skipped, and is
    covered by a snapshot only at a root; a snapshot needs a known size; WAL
    needs the parent. *)
Definition head_ok (seg : Segment) (x : SegmentMethod) : Prop :=
  match x with
  | Skipped => seg_needed seg = false
  | SnapshotHere => is_Some (seg_size seg) ∧ (seg_needed seg = false ∨ seg_parent seg = None)
  | Wal => True
  end.

Definition node_ok m (i : nat) : Prop :=
  ∃ seg, segs !! i = Some seg ∧ head_ok seg (m i)
    ∧ (m i = Wal → ∃ p, seg_parent seg = Some p ∧ m p ≠ Skipped).

Definition plan_ok m : Prop := ∀ i, (i < n)%nat → node_ok m i.

Definition plan_cost m : Z := Zsum (λ i, own_cost i (m i)) (seq 0 n).

(** Sizes are [u64], LSNs grow along the edges, and the sum of all that could
    be chosen fits in a [u64]. *)
Definition own_max (i : nat) : Z := own_cost i SnapshotHere + own_cost i Wal.

Record sizes_ok : Prop := {
  so_size : ∀ i seg s, segs !! i = Some seg → seg_size seg = Some s → 0 ≤ s;
  so_lsn : ∀ i seg p, segs !! i = Some seg → seg_parent seg = Some p → lsn_at p ≤ seg_lsn seg;
  so_sum : Zsum own_max (seq 0 n) < 2 ^ 64;
}.

Context (Hr : parents_in_range segs) (Hsz : sizes_ok).

Lemma own_cost_bounds i x : 0 ≤ own_cost i x ≤ own_max i.
Proof using Hsz.
  unfold own_max, own_cost. destruct (segs !! i) as [seg|] eqn:Hi; [|done].
  assert (0 ≤ default 0 (seg_size seg)).
  { destruct (seg_size seg) eqn:Hs; [|done]. by eapply so_size. }
  assert (0 ≤ match seg_parent seg with Some p => seg_lsn seg - lsn_at p | None => 0 end).
  { destruct (seg_parent seg) eqn:Hp; [|done]. pose proof (so_lsn Hsz _ _ _ Hi Hp). lia. }
  destruct x; lia.
Qed.

Lemma own_max_subtree fuel i d :
  depth_is segs i d → Zsum own_max (subtree segs fuel i) < 2 ^ 64.
Proof using Hsz.
  intros Hd. eapply Z.le_lt_trans; [|exact (so_sum Hsz)]. apply Zsum_submseteq.
  - apply NoDup_submseteq; [by eapply NoDup_subtree|]. intros j Hj.
    destruct (subtree_depth _ _ _ _ _ Hd Hj) as (k & _ & Hk). apply depth_lt in Hk.
    apply elem_of_seq. lia.
  - intros j _. pose proof (own_cost_bounds j Skipped). lia.
Qed.

(** ** Chosen trees *)

(** The choices of a tree, by segment. *)
Fixpoint choices (t : SegmentSize) : list (nat * SegmentMethod) :=
  match t with
  | mkSegmentSize x _ i children => (i, x) :: (children ≫= choices)
  end.

Definition choice_cost (c : nat * SegmentMethod) : Z := own_cost c.1 c.2.

Definition follows m (t : SegmentSize) : Prop := ∀ i x, (i, x) ∈ choices t → m i = x.

(** A tree that chooses for all of the subtree of [i], correctly below [i], and
    whose size is what its choices cost. *)
Record good_tree (fuel : nat) (i : nat) (t : SegmentSize) : Prop := {
  gt_ids : (choices t).*1 = subtree segs fuel i;
  gt_cost : ss_accum_size t = Zsum choice_cost (choices t);
  gt_head : ∃ seg, segs !! i = Some seg ∧ head_ok seg (ss_method t);
  gt_below : ∀ m, follows m t → ∀ j, j ∈ subtree segs fuel i → j ≠ i → node_ok m j;
  gt_root : ∀ m, follows m t → m i = ss_method t;
}.

Lemma good_tree_bound fuel i t :
  good_tree fuel i t → 0 ≤ ss_accum_size t ≤ Zsum own_max (subtree segs fuel i).
Proof using Hsz.
  intros Hg. rewrite (gt_cost _ _ _ Hg), <- (gt_ids _ _ _ Hg), Zsum_fmap. split.
  - apply Zsum_nonneg. intros [j x] _. apply own_cost_bounds.
  - apply Zsum_mono. intros [j x] _. apply own_cost_bounds.
Qed.

Lemma good_tree_head fuel i t : good_tree fuel i t → i ∈ subtree segs fuel i.
Proof.
  intros Hg. destruct fuel; [|simpl; left]. pose proof (gt_ids _ _ _ Hg) as Hids.
  by destruct t.
Qed.

(** Adding children without overflow. *)
Lemma add_children x (ts : list SegmentSize) :
  0 ≤ ss_accum_size x → (∀ t, t ∈ ts → 0 ≤ ss_accum_size t) →
  ss_accum_size x + Zsum ss_accum_size ts < 2 ^ 64 →
  foldl add_child x ts
  = mkSegmentSize (ss_method x) (ss_accum_size x + Zsum ss_accum_size ts) (ss_seg_id x)
      (ss_children x ++ ts).
Proof.
  revert x. induction ts as [|t ts IH]; intros x Hx Hts Hsum.
  { destruct x; simpl. by rewrite app_nil_r, Z.add_0_r. }
  rewrite Zsum_cons in *. assert (0 ≤ ss_accum_size t) by (apply Hts; left).
  assert (0 ≤ Zsum ss_accum_size ts) by (apply Zsum_nonneg; intros; apply Hts; by right).
  assert (Hacc : ss_accum_size (add_child x t) = ss_accum_size x + ss_accum_size t).
  { unfold add_child, wrapping_add. simpl. apply wrap_small. unfold in_u. lia. }
  simpl foldl. rewrite IH; rewrite ?Hacc; [|lia|intros; apply Hts; by right|lia].
  unfold add_child. simpl. rewrite <- app_assoc. simpl. f_equal. lia.
Qed.

Lemma snapshot_later_loop_spec x cs :
  snapshot_later_loop x cs = (λ ts, foldl add_child x ts) <$> mapM non_incremental cs.
Proof.
  revert x. induction cs as [|c cs IH]; intros x; simpl; [done|].
  destruct (non_incremental c) as [t|]; simpl; [|done]. rewrite IH.
  by destruct (mapM non_incremental cs).
Qed.

Lemma foldl_incremental x cs :
  foldl (λ x child, add_child x (incremental child)) x cs = foldl add_child x (incremental <$> cs).
Proof. revert x. induction cs as [|c cs IH]; intros x; simpl; [done|apply IH]. Qed.

(** ** One segment

    A method for segment [i] on top of good trees for its children. *)
Lemma good_tree_node fuel i d seg x own (ts : list SegmentSize) :
  depth_is segs i d → segs !! i = Some seg → head_ok seg x → own = own_cost i x →
  Forall2 (good_tree fuel) (children_of segs i) ts →
  (x = Skipped → Forall (λ t, ss_method t ≠ Wal) ts) →
  let t := foldl add_child (mkSegmentSize x own i []) ts in
  t = mkSegmentSize x (own + Zsum ss_accum_size ts) i ts ∧ good_tree (S fuel) i t.
Proof using Hr Hsz.
  intros Hd Hi Hx -> Hts Hskip.
  assert (Hb : ∀ t, t ∈ ts → 0 ≤ ss_accum_size t).
  { intros t Ht. apply list_elem_of_lookup in Ht as [k Hk].
    destruct (Forall2_lookup_r _ _ _ _ _ Hts Hk) as (c & _ & Hg). apply good_tree_bound in Hg. lia. }
  assert (Hsum : Zsum ss_accum_size ts ≤ Zsum own_max (children_of segs i ≫= subtree segs fuel)).
  { clear Hb Hskip. rewrite Zsum_bind. induction Hts as [|c t cs ts Hg Hts IH]; [done|].
    rewrite !Zsum_cons. apply good_tree_bound in Hg. lia. }
  pose proof (own_max_subtree (S fuel) i d Hd) as Hmax. simpl in Hmax. rewrite Zsum_cons in Hmax.
  pose proof (own_cost_bounds i x).
  rewrite add_children; simpl; [|lia|done|lia]. split; [done|].
  split; cbn [choices ss_accum_size ss_method subtree].
  - rewrite fmap_cons. cbn [fst]. f_equal. clear Hb Hskip Hsum Hmax.
    induction Hts as [|c t cs ts Hg Hts IH]; [done|].
    rewrite !bind_cons, fmap_app, IH. f_equal. apply Hg.
  - rewrite Zsum_cons. f_equal. clear Hb Hskip Hsum Hmax. rewrite Zsum_bind.
    induction Hts as [|c t cs ts Hg Hts IH]; [done|]. rewrite !Zsum_cons, IH. f_equal. apply Hg.
  - eauto.
  - intros m Hm j [->|(c & Hj & Hc)%list_elem_of_bind]%elem_of_cons Hne; [done|].
    apply list_elem_of_lookup in Hc as [k Hc].
    destruct (Forall2_lookup_l _ _ _ _ _ Hts Hc) as (t & Ht & Hg).
    assert (Hmt : follows m t).
    { intros a b Hab. apply Hm. simpl. right. apply list_elem_of_bind.
      exists t. split; [done|]. by eapply list_elem_of_lookup_2. }
    destruct (decide (j = c)) as [->|Hjc]; [|by eapply gt_below].
    destruct (gt_head _ _ _ Hg) as (segc & Hsegc & Hhead). exists segc.
    rewrite (gt_root _ _ _ Hg m Hmt). split_and!; [done..|]. intros Hwal.
    apply list_elem_of_lookup_2, elem_children in Hc as [Hc _].
    exists i. split; [unfold parent in Hc; by rewrite Hsegc in Hc|].
    rewrite (Hm i x) by (simpl; left). intros ->.
    apply (Forall_lookup_1 _ _ _ _ (Hskip eq_refl)) in Ht. done.
  - intros m Hm. apply Hm. simpl. left.
Qed.

(** ** The comparisons *)

Lemma cheapest_non_incremental_le h l t :
  h = Some t ∨ l = Some t →
  ∃ t', cheapest_non_incremental h l = Some t' ∧ ss_accum_size t' ≤ ss_accum_size t.
Proof.
  unfold cheapest_non_incremental. intros [->| ->]; [destruct l as [l|]|destruct h as [h|]];
    try case_match; bool_prop; eexists; split; eauto; lia.
Qed.

Lemma cheapest_non_incremental_Some h l t :
  cheapest_non_incremental h l = Some t → h = Some t ∨ l = Some t.
Proof. unfold cheapest_non_incremental. repeat case_match; naive_solver. Qed.

Lemma cheapest_incremental_cases w o :
  let t := cheapest_incremental w o in
  (t = w ∨ o = Some t) ∧ ss_accum_size t ≤ ss_accum_size w
  ∧ ∀ t', o = Some t' → ss_accum_size t ≤ ss_accum_size t'.
Proof.
  unfold cheapest_incremental. destruct o as [t'|]; [case_match; bool_prop|]; naive_solver lia.
Qed.

(** ** Optimality *)

Definition cost_on m (l : list nat) : Z := Zsum (λ j, own_cost j (m j)) l.

Definition ok_on m (l : list nat) : Prop := ∀ j, j ∈ l → node_ok m j.

(** The alternatives of a segment are good trees, and no plan is cheaper. *)
Record sized (fuel : nat) (i : nat) (alts : SizeAlternatives) : Prop := {
  sz_inc : good_tree fuel i (incremental alts);
  sz_non : ∀ t, non_incremental alts = Some t → good_tree fuel i t ∧ ss_method t ≠ Wal;
  sz_opt : ∀ m, ok_on m (subtree segs fuel i) →
    ss_accum_size (incremental alts) ≤ cost_on m (subtree segs fuel i)
    ∧ (m i ≠ Wal → ∃ t, non_incremental alts = Some t
                        ∧ ss_accum_size t ≤ cost_on m (subtree segs fuel i));
}.

Lemma children_incremental fuel l cs :
  Forall2 (sized fuel) l cs → Forall2 (good_tree fuel) l (incremental <$> cs).
Proof. intros H. apply Forall2_fmap_r. eapply Forall2_impl; [exact H|]. intros i a Ha. apply Ha. Qed.

Lemma children_non_incremental fuel l cs ts :
  Forall2 (sized fuel) l cs → mapM non_incremental cs = Some ts →
  Forall2 (good_tree fuel) l ts ∧ Forall (λ t, ss_method t ≠ Wal) ts.
Proof.
  intros H Hts%mapM_Some. revert ts Hts.
  induction H as [|i a l cs Ha Hl IH]; intros ts Hts; inversion Hts; simplify_eq; [done|].
  destruct (sz_non _ _ _ Ha _ ltac:(eassumption)). naive_solver.
Qed.

(** The costs of a plan below the children, against the alternatives. *)
Lemma children_incremental_le fuel l cs m :
  Forall2 (sized fuel) l cs → ok_on m (l ≫= subtree segs fuel) →
  Zsum ss_accum_size (incremental <$> cs) ≤ cost_on m (l ≫= subtree segs fuel).
Proof.
  unfold cost_on. induction 1 as [|i a l cs Ha Hl IH]; intros Hok; [done|].
  rewrite fmap_cons, bind_cons, Zsum_cons, Zsum_app.
  assert (H1 : ok_on m (subtree segs fuel i)) by (intros j Hj; apply Hok; set_solver).
  assert (H2 : ok_on m (l ≫= subtree segs fuel)).
  { intros j Hj. apply Hok. rewrite bind_cons. set_solver. }
  pose proof (proj1 (sz_opt _ _ _ Ha m H1)). specialize (IH H2). unfold cost_on in *. lia.
Qed.

Lemma children_non_incremental_le fuel l cs m :
  Forall2 (sized fuel) l cs → ok_on m (l ≫= subtree segs fuel) → (∀ c, c ∈ l → m c ≠ Wal) →
  ∃ ts, mapM non_incremental cs = Some ts
        ∧ Zsum ss_accum_size ts ≤ cost_on m (l ≫= subtree segs fuel).
Proof.
  unfold cost_on. induction 1 as [|i a l cs Ha Hl IH]; intros Hok Hw; [by exists []|].
  rewrite bind_cons, Zsum_app.
  assert (H1 : ok_on m (subtree segs fuel i)) by (intros j Hj; apply Hok; set_solver).
  assert (H2 : ok_on m (l ≫= subtree segs fuel)).
  { intros j Hj. apply Hok. rewrite bind_cons. set_solver. }
  destruct (proj2 (sz_opt _ _ _ Ha m H1)) as (t & Ht & Hle); [apply Hw; left|].
  destruct (IH H2) as (ts & Hts & Hles); [intros; apply Hw; by right|].
  exists (t :: ts). simpl. rewrite Ht, Hts. split; [done|]. rewrite Zsum_cons.
  unfold cost_on in *. lia.
Qed.

Abbreviation child_list := (children_of segs <$> seq 0 n).

Lemma child_list_lookup i : (i < n)%nat → child_list !! i = Some (children_of segs i).
Proof. intros Hi. by rewrite list_lookup_fmap, lookup_seq_lt. Qed.

(** What a call that returned has computed. *)
Lemma size_here_inv fuel i alts :
  size_here (S fuel) segs child_list i = Some (Ok alts) →
  ∃ seg cs w, segs !! i = Some seg
    ∧ Forall2 (λ c a, size_here fuel segs child_list c = Some (Ok a)) (children_of segs i) cs
    ∧ wal_here segs i seg cs = Ok w
    ∧ non_incremental alts
      = cheapest_non_incremental (snapshot_here i seg cs) (snapshot_later i seg cs)
    ∧ incremental alts = cheapest_incremental w (non_incremental alts).
Proof.
  cbn [size_here]. unfold mbind, fueled_bind.
  destruct (segs !! i) as [seg|] eqn:Hi; cbn [unwrap]; [|done].
  rewrite child_list_lookup by by eapply lookup_lt_Some. cbn [unwrap].
  destruct (fueled_mapM _ (children_of segs i)) as [[cs|e|]|] eqn:Hcs; [|done..].
  destruct (wal_here segs i seg cs) as [w|e|] eqn:Hw; [|done..].
  intros [= <-]. exists seg, cs, w. split_and!; try done. by apply fueled_mapM_ok.
Qed.

Lemma wal_here_cost i d seg cs :
  depth_is segs i d → segs !! i = Some seg →
  wal_here segs i seg cs
  = Ok (foldl add_child (mkSegmentSize Wal (own_cost i Wal) i []) (incremental <$> cs)).
Proof using Hr Hsz.
  intros Hd Hi. pose proof (own_max_subtree 1 i d Hd) as Hmax.
  cbn [subtree] in Hmax. rewrite Zsum_cons in Hmax.
  pose proof (own_cost_bounds i Wal) as Hb. unfold wal_here. rewrite <- foldl_incremental.
  assert (0 ≤ Zsum own_max (children_of segs i ≫= λ _, [])).
  { apply Zsum_nonneg. intros j _. pose proof (own_cost_bounds j Skipped). lia. }
  unfold own_cost in *. rewrite Hi in *. destruct (seg_parent seg) as [p|] eqn:Hp; [|done].
  assert (Hpn : (p < n)%nat) by (apply (Hr i); unfold parent; by rewrite Hi).
  apply lookup_lt_is_Some in Hpn as [ps Hps]. unfold lsn_at in *. rewrite Hps in *. simpl.
  unfold wrapping_sub. rewrite wrap_small; [done|]. unfold in_u. lia.
Qed.

(** A plan with a snapshot at [i], or without [i], is matched by the tree the
    code builds for that method. *)
Lemma snapshot_here_complete i seg cs :
  segs !! i = Some seg → head_ok seg SnapshotHere → is_Some (snapshot_here i seg cs).
Proof.
  intros Hi [[sz Hsize] Hneed]. unfold snapshot_here. rewrite Hsize.
  replace (negb _ || _) with true; [eauto|]. symmetry. apply orb_true_iff.
  destruct Hneed as [-> | ->]; [by left|right]. by apply bool_decide_eq_true.
Qed.

Lemma snapshot_later_complete i seg cs ts :
  head_ok seg Skipped → mapM non_incremental cs = Some ts → is_Some (snapshot_later i seg cs).
Proof.
  intros Hneed Hts. simpl in Hneed. unfold snapshot_later. rewrite Hneed. simpl.
  rewrite snapshot_later_loop_spec, Hts. eauto.
Qed.

Section one_segment.
Context (fuel i : nat) (seg : Segment) (cs : list SizeAlternatives) (w : SegmentSize).
Context (Hi : segs !! i = Some seg) (Hch : Forall2 (sized fuel) (children_of segs i) cs).
Context (Ew : ss_accum_size w = own_cost i Wal + Zsum ss_accum_size (incremental <$> cs)).
Context (Hhere : ∀ t, snapshot_here i seg cs = Some t →
  good_tree (S fuel) i t ∧ ss_method t = SnapshotHere
  ∧ ss_accum_size t = own_cost i SnapshotHere + Zsum ss_accum_size (incremental <$> cs)).
Context (Hlater : ∀ t, snapshot_later i seg cs = Some t →
  good_tree (S fuel) i t ∧ ss_method t = Skipped
  ∧ ∃ ts, mapM non_incremental cs = Some ts ∧ ss_accum_size t = Zsum ss_accum_size ts).

(** No plan beats the three alternatives. *)
Lemma alternatives_optimal m :
  ok_on m (subtree segs (S fuel) i) →
  match m i with
  | Wal => ss_accum_size w ≤ cost_on m (subtree segs (S fuel) i)
  | SnapshotHere => ∃ t, snapshot_here i seg cs = Some t
                         ∧ ss_accum_size t ≤ cost_on m (subtree segs (S fuel) i)
  | Skipped => ∃ t, snapshot_later i seg cs = Some t
                    ∧ ss_accum_size t ≤ cost_on m (subtree segs (S fuel) i)
  end.
Proof using All.
  cbn [subtree]. intros Hok.
  assert (Hbelow : ok_on m (children_of segs i ≫= subtree segs fuel))
    by (intros j Hj; apply Hok; by right).
  destruct (Hok i ltac:(left)) as (seg' & Hseg' & Hhead & _). assert (seg' = seg) as -> by congruence.
  assert (Hcost : cost_on m (i :: (children_of segs i ≫= subtree segs fuel))
    = own_cost i (m i) + cost_on m (children_of segs i ≫= subtree segs fuel)) by done.
  rewrite Hcost. pose proof (children_incremental_le _ _ _ m Hch Hbelow) as Hle.
  destruct (m i) eqn:Hmi.
  - destruct (snapshot_here_complete i seg cs Hi Hhead) as [t Ht].
    exists t. split; [done|]. destruct (Hhere t Ht) as (_ & _ & ->). lia.
  - lia.
  - destruct (children_non_incremental_le _ _ _ m Hch Hbelow) as (ts & Hts & Hlets).
    { intros c Hc Hmc. apply elem_children in Hc as [Hpar Hcn].
      destruct (Hbelow c) as (segc & Hsegc & _ & Hwal).
      - apply list_elem_of_bind. exists c. split; [|by apply elem_children].
        assert (Hc : c ∈ children_of segs i) by by apply elem_children.
        apply list_elem_of_lookup in Hc as [k Hk].
        destruct (Forall2_lookup_l _ _ _ _ _ Hch Hk) as (a & _ & Ha).
        by eapply good_tree_head, sz_inc.
      - destruct (Hwal Hmc) as (p & Hp & Hnp). unfold parent in Hpar. rewrite Hsegc in Hpar.
        simpl in Hpar. congruence. }
    destruct (snapshot_later_complete i seg cs ts Hhead Hts) as [t Ht].
    exists t. split; [done|]. destruct (Hlater t Ht) as (_ & _ & ts' & Hts' & ->).
    unfold own_cost. rewrite Hi. simplify_eq. lia.
Qed.

Lemma sized_intro alts :
  good_tree (S fuel) i w →
  non_incremental alts = cheapest_non_incremental (snapshot_here i seg cs) (snapshot_later i seg cs) →
  incremental alts = cheapest_incremental w (non_incremental alts) →
  sized (S fuel) i alts.
Proof using All.
  intros Gw Hnon Hinc.
  assert (Hn : ∀ t, non_incremental alts = Some t → good_tree (S fuel) i t ∧ ss_method t ≠ Wal).
  { intros t. rewrite Hnon. intros [Ht|Ht]%cheapest_non_incremental_Some.
    - destruct (Hhere t Ht) as (? & -> & _). done.
    - destruct (Hlater t Ht) as (? & -> & _). done. }
  destruct (cheapest_incremental_cases w (non_incremental alts)) as (Hcase & Hlew & Hlen).
  rewrite <- Hinc in *. split; [|done|].
  - destruct Hcase as [->|Hc]; [done|]. by apply Hn.
  - intros m Hok. pose proof (alternatives_optimal m Hok) as Halt.
    assert (Hsnap : m i ≠ Wal → ∃ t, non_incremental alts = Some t
      ∧ ss_accum_size t ≤ cost_on m (subtree segs (S fuel) i)).
    { intros Hm. assert (∃ t, (snapshot_here i seg cs = Some t ∨ snapshot_later i seg cs = Some t)
        ∧ ss_accum_size t ≤ cost_on m (subtree segs (S fuel) i)) as (t & Ht & Hle).
      { destruct (m i); [|done|]; destruct Halt as (t & ? & ?); eauto. }
      destruct (cheapest_non_incremental_le _ _ _ Ht) as (t' & Ht' & Hle').
      rewrite <- Hnon in Ht'. exists t'. split; [done|lia]. }
    split; [|done]. destruct (decide (m i = Wal)) as [Hm|Hm].
    + rewrite Hm in Halt. lia.
    + destruct (Hsnap Hm) as (t & Ht & Hle). specialize (Hlen t Ht). lia.
Qed.
End one_segment.

(** ** The recursion *)
Lemma size_here_sized fuel i d alts :
  depth_is segs i d → size_here fuel segs child_list i = Some (Ok alts) → sized fuel i alts.
Proof using Hr Hsz.
  revert i d alts. induction fuel as [|fuel IH]; [done|].
  intros i d alts Hd (seg & cs & w & Hi & Hcs & Hw & Hnon & Hinc)%size_here_inv.
  assert (Hch : Forall2 (sized fuel) (children_of segs i) cs).
  { apply Forall2_same_length_lookup in Hcs as [Hlen Hcs].
    apply Forall2_same_length_lookup. split; [done|]. intros k c a Hc Ha.
    eapply IH; [|by eapply Hcs]. eapply child_depth; [done|by eapply list_elem_of_lookup_2]. }
  clear IH Hcs. rewrite (wal_here_cost i d) in Hw by done. injection Hw as Hw.
  destruct (good_tree_node fuel i d seg Wal (own_cost i Wal) (incremental <$> cs))
    as [Ew Gw]; [done|done|done|done|by apply children_incremental|done|].
  rewrite Hw in Ew, Gw.
  assert (Hhere : ∀ t, snapshot_here i seg cs = Some t →
    good_tree (S fuel) i t ∧ ss_method t = SnapshotHere
    ∧ ss_accum_size t = own_cost i SnapshotHere + Zsum ss_accum_size (incremental <$> cs)).
  { unfold snapshot_here. destruct (negb _ || _) eqn:Hc; [|done].
    destruct (seg_size seg) as [sz|] eqn:Hsize; [|done]. intros t [= <-].
    rewrite foldl_incremental.
    destruct (good_tree_node fuel i d seg SnapshotHere sz (incremental <$> cs)) as [-> G];
      [done|done| | |by apply children_incremental|done|].
    - split; [eauto|]. bool_prop. destruct Hc; bool_prop; auto.
    - unfold own_cost. by rewrite Hi, Hsize.
    - split_and!; [done..|]. simpl. unfold own_cost. by rewrite Hi, Hsize. }
  assert (Hlater : ∀ t, snapshot_later i seg cs = Some t →
    good_tree (S fuel) i t ∧ ss_method t = Skipped
    ∧ ∃ ts, mapM non_incremental cs = Some ts ∧ ss_accum_size t = Zsum ss_accum_size ts).
  { unfold snapshot_later. destruct (seg_needed seg) eqn:Hneed; [done|]. simpl.
    rewrite snapshot_later_loop_spec. destruct (mapM non_incremental cs) as [ts|] eqn:Hts; [|done].
    simpl. intros t [= <-]. destruct (children_non_incremental _ _ _ _ Hch Hts) as [Hg Hm].
    destruct (good_tree_node fuel i d seg Skipped 0 ts) as [-> G];
      [done|done|done|by unfold own_cost; rewrite Hi|done|done|].
    split_and!; [done..|]. eauto. }
  eapply sized_intro; try done. by rewrite Ew.
Qed.
End plans.

(** ** The result vector *)

Lemma SegmentSize_nested_ind (P : SegmentSize → Prop)
    (Hnode : ∀ x a i cs, Forall P cs → P (mkSegmentSize x a i cs)) : ∀ t, P t.
Proof.
  fix IH 1. intros [x a i cs]. apply Hnode.
  induction cs as [|c cs IHcs]; constructor; [apply IH|apply IHcs].
Qed.

Lemma elem_of_ids (j : nat) (x : SegmentMethod) l : (j, x) ∈ l → j ∈ l.*1.
Proof. intros. apply list_elem_of_fmap. by exists (j, x). Qed.

(** Filling in the choices of a tree: it does not panic when they are in
    range, and every choice can be read off when no segment occurs twice. *)
Definition filled (l : list (nat * SegmentMethod)) (result r' : list SegmentSizeResult) : Prop :=
  length r' = length result
  ∧ (∀ j, j ∉ l.*1 → r' !! j = result !! j)
  ∧ (NoDup l.*1 → ∀ j x, (j, x) ∈ l → res_method <$> r' !! j = Some x).

Lemma filled_app l1 l2 r r1 r2 : filled l1 r r1 → filled l2 r1 r2 → filled (l1 ++ l2) r r2.
Proof.
  intros (L1 & O1 & M1) (L2 & O2 & M2). split_and!; [congruence| |]; rewrite fmap_app.
  - intros j Hj. rewrite O2, O1 by set_solver. done.
  - intros (N1 & Hd & N2)%NoDup_app j x [Hj|Hj]%elem_of_app; [|auto].
    rewrite O2; [auto|]. apply Hd. by eapply elem_of_ids.
Qed.

Lemma fill_selected_sizes_spec t : ∀ result,
  Forall (λ j, (j < length result)%nat) (choices t).*1 →
  ∃ r', fill_selected_sizes t result = Ok r' ∧ filled (choices t) result r'.
Proof.
  induction t as [x a i cs IH] using SegmentSize_nested_ind. intros result Hr.
  cbn [choices] in *. rewrite fmap_cons in Hr. inversion Hr as [|? ? Hi Hcs]; subst.
  cbn [fst] in Hi. cbn [fill_selected_sizes]. rewrite (proj2 (Nat.ltb_lt _ _)) by done.
  set (r0 := <[i := _]> result).
  assert (H0 : filled [(i, x)] result r0).
  { subst r0. split_and!; [by rewrite length_insert| |].
    - intros j Hj. simpl in Hj. rewrite list_lookup_insert_ne by set_solver. done.
    - intros _ j y [= -> ->]%list_elem_of_singleton. by rewrite list_lookup_insert_eq by done. }
  assert (Hl0 : length r0 = length result) by apply H0.
  rewrite <- Hl0 in Hcs. clear Hr Hi.
  change ((i, x) :: (cs ≫= choices)) with ([(i, x)] ++ (cs ≫= choices)).
  assert (∃ r', (fix fill_children children result := match children with
      | [] => Ok result
      | child :: children' =>
        result ← fill_selected_sizes child result; fill_children children' result
      end) cs r0 = Ok r' ∧ filled (cs ≫= choices) r0 r') as (r' & Hr' & Hf).
  { clearbody r0. clear H0 Hl0. revert r0 Hcs.
    induction IH as [|c cs Hc _ IHcs]; intros r0 Hcs.
    - exists r0. split; [done|]. split_and!; [done|done|]. by intros _ j y ?%elem_of_nil.
    - rewrite bind_cons, fmap_app, Forall_app in Hcs. destruct Hcs as [Hc1 Hc2].
      destruct (Hc r0 Hc1) as (r1 & -> & H1).
      destruct (IHcs r1) as (r2 & Hr2 & H2); [by rewrite (proj1 H1)|].
      exists r2. rewrite bind_cons. split; [exact Hr2|]. by eapply filled_app. }
  exists r'. split; [exact Hr'|]. by eapply filled_app.
Qed.

(** ** The loop returns *)

Section returns.
Context (segs : list Segment) (Hr : parents_in_range segs).
Abbreviation n := (length segs).
Abbreviation child_list := (children_of segs <$> seq 0 n).

Definition in_range (t : SegmentSize) : Prop := Forall (λ j, (j < n)%nat) (choices t).*1.

Lemma choices_add_children x ts :
  choices (foldl add_child x ts) = choices x ++ (ts ≫= choices).
Proof.
  revert x. induction ts as [|t ts IH]; intros x; simpl; [by rewrite app_nil_r|].
  rewrite IH. destruct x; simpl. rewrite bind_app. simpl. by rewrite app_nil_r, <- app_assoc.
Qed.

Lemma in_range_node x a i ts :
  (i < n)%nat → Forall in_range ts → in_range (foldl add_child (mkSegmentSize x a i []) ts).
Proof.
  intros Hi Hts. unfold in_range. rewrite choices_add_children. simpl. constructor; [done|].
  induction Hts as [|t ts Ht _ IH]; [constructor|]. rewrite bind_cons, fmap_app. by apply Forall_app.
Qed.

(** Every call returns, with fuel for the height below [i], and chooses for
    segments of the model. *)
Lemma size_here_returns fuel i d :
  depth_is segs i d → (n ≤ d + fuel)%nat →
  ∃ alts, size_here fuel segs child_list i = Some (Ok alts)
    ∧ in_range (incremental alts) ∧ ∀ t, non_incremental alts = Some t → in_range t.
Proof using Hr.
  revert i d. induction fuel as [|fuel IH]; intros i d Hd Hf.
  { pose proof (depth_bound _ _ _ Hd). lia. }
  pose proof (depth_lt _ _ _ Hd) as Hi. destruct (lookup_lt_is_Some_2 _ _ Hi) as [seg Hseg].
  assert (∃ cs, Forall2 (λ c a, size_here fuel segs child_list c = Some (Ok a)) (children_of segs i) cs
    ∧ Forall (λ a, in_range (incremental a) ∧ ∀ t, non_incremental a = Some t → in_range t) cs)
    as (cs & Hcs & Hin).
  { assert (Hch : ∀ c, c ∈ children_of segs i → depth_is segs c (S d))
      by (intros; by eapply child_depth).
    clear -IH Hf Hch. induction (children_of segs i) as [|c l IHl]; [by exists []|].
    destruct (IH c (S d)) as (a & Ha & Ha'); [apply Hch; left|lia|].
    destruct IHl as (cs & ? & ?); [intros; apply Hch; by right|].
    exists (a :: cs). split; by constructor. }
  cbn [size_here]. rewrite Hseg. rewrite (child_list_lookup segs) by done.
  unfold mbind, fueled_bind. cbn [unwrap].
  rewrite (proj2 (fueled_mapM_ok _ _ _) Hcs).
  assert (Hinc : Forall in_range (incremental <$> cs))
    by (apply Forall_fmap; eapply Forall_impl; [exact Hin|]; naive_solver).
  assert (∃ w, wal_here segs i seg cs = Ok w ∧ in_range w) as (w & Hw & Hwin).
  { unfold wal_here. destruct (seg_parent seg) as [p|] eqn:Hp.
    - assert (Hpn : (p < n)%nat) by (apply (Hr i); unfold parent; by rewrite Hseg).
      apply lookup_lt_is_Some_2 in Hpn as [ps Hps]. rewrite Hps. simpl. eexists.
      split; [done|]. rewrite foldl_incremental. by apply in_range_node.
    - simpl. eexists. split; [done|]. rewrite foldl_incremental. by apply in_range_node. }
  rewrite Hw. eexists. split; [done|]. cbn [incremental non_incremental].
  assert (Hnon : ∀ t, cheapest_non_incremental (snapshot_here i seg cs) (snapshot_later i seg cs)
    = Some t → in_range t).
  { intros t [Ht|Ht]%cheapest_non_incremental_Some.
    - unfold snapshot_here in Ht. repeat case_match; simplify_eq.
      rewrite foldl_incremental. by apply in_range_node.
    - unfold snapshot_later in Ht. case_match; [|done]. rewrite snapshot_later_loop_spec in Ht.
      destruct (mapM non_incremental cs) as [ts|] eqn:Hts; [|done]. simplify_eq/=.
      apply in_range_node; [done|]. apply mapM_Some in Hts. clear -Hts Hin.
      induction Hts; [done|]. inversion Hin; subst. constructor; naive_solver. }
  split; [|done]. destruct (cheapest_incremental_cases w
    (cheapest_non_incremental (snapshot_here i seg cs) (snapshot_later i seg cs))) as [[->|?] _]; auto.
Qed.
End returns.

Section calculation.
Context (segs : list Segment) (Hr : parents_in_range segs).
Abbreviation n := (length segs).
Abbreviation child_list := (children_of segs <$> seq 0 n).

(** What the loop over the roots leaves behind. *)
Lemma sum_roots_spec roots : ∀ results total,
  (∀ r, r ∈ roots → r ∈ roots_of segs) → length results = n →
  ∃ os results',
    sum_roots n segs child_list roots results total
      = Some (Ok (foldl (wrapping_add 64) total (ss_accum_size <$> omap id os), results'))
    ∧ Forall2 (λ r o, ∃ alts, size_here n segs child_list r = Some (Ok alts)
                              ∧ non_incremental alts = o) roots os
    ∧ filled (omap id os ≫= choices) results results'.
Proof using Hr.
  induction roots as [|r roots IH]; intros results total Hroots Hlen.
  { exists [], results. split_and!; [done|constructor|]. split_and!; [done|done|].
    by intros _ j x ?%elem_of_nil. }
  assert (Hd : depth_is segs r 0).
  { destruct (proj1 (elem_roots segs r) (Hroots r ltac:(left))). by constructor. }
  destruct (size_here_returns segs Hr n r 0 Hd ltac:(lia)) as (alts & Halts & _ & Hin).
  cbn [sum_roots]. rewrite Halts. unfold mbind at 1, fueled_bind at 1.
  assert (Hroots' : ∀ r', r' ∈ roots → r' ∈ roots_of segs) by (intros; apply Hroots; by right).
  destruct (non_incremental alts) as [t|] eqn:Ht.
  - destruct (fill_selected_sizes_spec t results) as (r1 & -> & Hf); [rewrite Hlen; by apply Hin|].
    destruct (IH r1 (wrapping_add 64 total (ss_accum_size t))) as (os & r2 & Hsum & Hos & Hf2);
      [done|by rewrite (proj1 Hf)|].
    exists (Some t :: os), r2. split_and!; [exact Hsum|constructor; eauto|].
    change (omap id (Some t :: os)) with (t :: omap id os). rewrite bind_cons. by eapply filled_app.
  - destruct (IH results total) as (os & r2 & Hsum & Hos & Hf2); [done..|].
    exists (None :: os), r2. split_and!; [exact Hsum|constructor; eauto|exact Hf2].
Qed.

Lemma fold_wrapping_add (l : list Z) total :
  0 ≤ total → (∀ x, x ∈ l → 0 ≤ x) → total + Zsum (λ x, x) l < 2 ^ 64 →
  foldl (wrapping_add 64) total l = total + Zsum (λ x, x) l.
Proof.
  revert total. induction l as [|x l IH]; intros total Ht Hl Hs; [unfold Zsum; simpl; lia|].
  rewrite Zsum_cons in *. assert (0 ≤ x) by (apply Hl; left).
  assert (0 ≤ Zsum (λ x, x) l) by (apply Zsum_nonneg; intros; apply Hl; by right).
  simpl. assert (Hx : wrapping_add 64 total x = total + x).
  { apply wrap_small. unfold in_u. lia. }
  rewrite Hx, IH; [lia|lia|intros; apply Hl; by right|lia].
Qed.

Context (Hac : acyclic segs) (Hsz : sizes_ok segs).

(** When there is a plan at all, every root has a tree, and the trees together
    are a plan that costs no more. *)
Lemma roots_have_trees os m :
  plan_ok segs m →
  Forall2 (λ r o, ∃ alts, size_here n segs child_list r = Some (Ok alts)
                          ∧ non_incremental alts = o) (roots_of segs) os →
  ∃ ts, os = Some <$> ts
    ∧ Forall2 (λ r t, good_tree segs n r t ∧ ss_method t ≠ Wal) (roots_of segs) ts
    ∧ Zsum ss_accum_size ts ≤ cost_on segs m (roots_of segs ≫= subtree segs n).
Proof using All.
  intros Hm Hos.
  assert (Hd : ∀ r, r ∈ roots_of segs → depth_is segs r 0)
    by (intros r [??]%elem_roots; by constructor).
  assert (Hmr : ∀ r, r ∈ roots_of segs → m r ≠ Wal).
  { intros r [Hp Hn]%elem_roots Hw. destruct (Hm r Hn) as (seg & Hseg & _ & Hwal).
    destruct (Hwal Hw) as (p & Hp' & _). unfold parent in Hp. rewrite Hseg in Hp.
    simpl in Hp. congruence. }
  revert Hd Hmr. induction Hos as [|r o rs os (alts & Halts & Ho) Hos IH]; intros Hd Hmr.
  { exists []. split_and!; [done|constructor|done]. }
  destruct IH as (ts & -> & Hts & Hle); [intros; apply Hd; by right|intros; apply Hmr; by right|].
  assert (Hsized : sized segs n r alts) by (eapply size_here_sized; [done..|apply Hd; left|done]).
  destruct (sz_opt _ _ _ _ Hsized m) as [_ Hnon].
  { intros j Hj. apply Hm. destruct (subtree_depth segs n r 0 j) as (k & _ & Hk); [apply Hd; left|done|].
    by apply depth_lt in Hk. }
  destruct (Hnon (Hmr r ltac:(left))) as (t & Ht & Hlet).
  exists (t :: ts). split_and!; [by rewrite fmap_cons, <- Ho, Ht|constructor; [by eapply sz_non|done]|].
  rewrite Zsum_cons, bind_cons. unfold cost_on in *. rewrite Zsum_app. lia.
Qed.

(** The trees of the roots choose for every segment once. *)
Context (ts : list SegmentSize).
Context (Hts : Forall2 (λ r t, good_tree segs n r t ∧ ss_method t ≠ Wal) (roots_of segs) ts).

Lemma trees_ids : (ts ≫= choices).*1 ≡ₚ seq 0 n.
Proof using Hac Hts.
  rewrite <- (forest_perm segs Hac).
  assert ((ts ≫= choices).*1 = roots_of segs ≫= subtree segs n) as ->; [|done].
  pose proof Hts as H. clear Hts.
    induction H as [|r t rs ts' [Ht _] _ IH]; [done|].
  rewrite !bind_cons, fmap_app, IH. f_equal. apply Ht.
Qed.

Lemma trees_bound : (∀ t, t ∈ ts → 0 ≤ ss_accum_size t) ∧ Zsum ss_accum_size ts < 2 ^ 64.
Proof using Hac Hsz Hts.
  split.
  - intros t [k Hk]%list_elem_of_lookup.
    destruct (Forall2_lookup_r _ _ _ _ _ Hts Hk) as (r & _ & Hg & _).
    apply (good_tree_bound segs Hsz) in Hg. lia.
  - eapply Z.le_lt_trans; [|exact (so_sum _ Hsz)].
    rewrite <- (Zsum_perm _ _ _ (forest_perm segs Hac)), Zsum_bind.
    pose proof Hts as H. clear Hts.
    induction H as [|r t rs ts' [Ht _] _ IH]; [done|].
    rewrite !Zsum_cons. apply (good_tree_bound segs Hsz) in Ht. lia.
Qed.

Context (m : nat → SegmentMethod) (Hm : ∀ j x, (j, x) ∈ ts ≫= choices → m j = x).

Lemma trees_cost : plan_cost segs m = Zsum ss_accum_size ts.
Proof using Hac Hts Hm.
  unfold plan_cost. rewrite <- (Zsum_perm _ _ _ trees_ids), Zsum_fmap.
  transitivity (Zsum (choice_cost segs) (ts ≫= choices)).
  - apply Zsum_ext. intros [j x] Hj. simpl. by rewrite (Hm j x Hj).
  - rewrite Zsum_bind. clear Hm. pose proof Hts as H. clear Hts.
    induction H as [|r t rs ts' [Ht _] _ IH]; [done|].
    rewrite !Zsum_cons, IH. f_equal. symmetry. apply Ht.
Qed.

Lemma trees_plan_ok : plan_ok segs m.
Proof using Hac Hts Hm.
  intros j Hj.
  assert (Hin : j ∈ roots_of segs ≫= subtree segs n)
    by (rewrite (forest_perm segs Hac); apply elem_of_seq; lia).
  apply list_elem_of_bind in Hin as (r & Hjr & [k Hk]%list_elem_of_lookup).
  destruct (Forall2_lookup_l _ _ _ _ _ Hts Hk) as (t & Ht & Hg & Hnw).
  assert (Hmt : follows m t).
  { intros a x Hax. apply Hm. apply list_elem_of_bind. exists t. split; [done|].
    by eapply list_elem_of_lookup_2. }
  destruct (decide (j = r)) as [->|Hne]; [|by eapply gt_below].
  destruct (gt_head _ _ _ _ Hg) as (seg & Hseg & Hhead). exists seg.
  by rewrite (gt_root _ _ _ _ Hg m Hmt).
Qed.
End calculation.

(** A parent out of range is an index out of bounds. *)
Lemma adjacency_panics segs : ∀ id roots cl,
  (∃ seg p, seg ∈ segs ∧ seg_parent seg = Some p ∧ (length cl ≤ p)%nat) →
  adjacency id segs roots cl = Panic.
Proof.
  induction segs as [|s segs IH]; intros id roots cl (seg & p & Hin & Hp & Hle).
  { by apply elem_of_nil in Hin. }
  simpl. destruct (seg_parent s) as [q|] eqn:Hq.
  - destruct (Nat.ltb_spec q (length cl)); [|done]. apply IH.
    apply elem_of_cons in Hin as [->|Hin]; [simplify_eq; lia|]. exists seg, p.
    by rewrite length_alter.
  - apply IH. apply elem_of_cons in Hin as [->|Hin]; [congruence|]. eauto.
Qed.

(** The calculation returns for every model whose parents are in range, loops
    or not, with as much fuel as there are segments: a loop is not reachable
    from a root.  With a parent out of range it panics. *)
Theorem calculate_returns (self : StorageModel) :
  let segs := model_segments self in
  (parents_in_range segs →
   ∃ res, calculate (length segs) self = Some (Ok res)
          ∧ length (result_segments res) = length segs ∧ 1 ≤ total_size res)
  ∧ (¬ parents_in_range segs → ∀ fuel, calculate fuel self = Some Panic).
Proof.
  intros segs. unfold calculate. fold segs. split.
  - intros Hr. rewrite adjacency_spec by done. unfold mbind at 1, fueled_bind at 1.
    destruct (sum_roots_spec segs Hr (roots_of segs)
      (replicate (length segs) {| res_method := Skipped; res_accum_size := 0 |}) 0)
      as (os & r' & -> & _ & Hf); [done|apply length_replicate|].
    eexists. split; [done|]. simpl. split; [|lia]. rewrite (proj1 Hf). apply length_replicate.
  - intros Hr fuel. rewrite adjacency_panics; [done|]. rewrite length_replicate.
    destruct (decide (Exists (λ seg, (length segs < default 0 (S <$> seg_parent seg))%nat) segs))
      as [He|He].
    { apply Exists_exists in He as (seg & Hseg & Hp). exists seg.
      destruct (seg_parent seg) as [p|]; simpl in Hp; [|lia]. exists p. split_and!; (done || lia). }
    destruct Hr. intros i p Hp. unfold parent in Hp.
    destruct (segs !! i) as [seg|] eqn:Hi; [|done]. simpl in Hp.
    rewrite <- Forall_Exists_neg in He. apply (Forall_lookup_1 _ _ _ _ He) in Hi.
    rewrite Hp in Hi. simpl in Hi. lia.
Qed.

(** C37: The size reported is that of a cheapest plan: for a well-formed forest
    whose needed parts can be retained at all, the methods in the result are
    a plan that keeps everything needed, the total is what they cost, and no
    plan costs less. *)
Theorem calculate_optimal (self : StorageModel) (segs := model_segments self)
    (Hr : parents_in_range segs) (Hac : acyclic segs) (Hsz : sizes_ok segs)
    (Hplan : ∃ m, plan_ok segs m) :
  ∃ res, calculate (length segs) self = Some (Ok res)
  ∧ let chosen i := match result_segments res !! i with
                    | Some r => res_method r | None => Skipped end in
    plan_ok segs chosen
    ∧ total_size res = Z.max (plan_cost segs chosen) 1
    ∧ ∀ m, plan_ok segs m → plan_cost segs chosen ≤ plan_cost segs m.
Proof.
  unfold calculate. fold segs. rewrite adjacency_spec by done. unfold mbind at 1, fueled_bind at 1.
  destruct (sum_roots_spec segs Hr (roots_of segs)
    (replicate (length segs) {| res_method := Skipped; res_accum_size := 0 |}) 0)
    as (os & r' & -> & Hos & Hf); [done|apply length_replicate|].
  destruct Hplan as [m0 Hm0].
  destruct (roots_have_trees segs Hr Hac Hsz os m0 Hm0 Hos) as (ts & -> & Hts & _).
  eexists. split; [done|]. cbn [result_segments total_size].
  assert (Hcat : omap id (Some <$> ts) = ts).
  { clear. induction ts as [|t ts IH]; [done|]. by rewrite fmap_cons; simpl; f_equal. }
  rewrite Hcat in *. set (chosen := λ i, match r' !! i with Some r => res_method r | None => Skipped end).
  assert (Hchosen : ∀ j x, (j, x) ∈ ts ≫= choices → chosen j = x).
  { intros j x Hj. destruct Hf as (_ & _ & Hf).
    assert (Hnd : NoDup (ts ≫= choices).*1) by (rewrite trees_ids by done; apply NoDup_seq).
    specialize (Hf Hnd j x Hj). unfold chosen. destruct (r' !! j); simplify_eq/=; done. }
  assert (Hcost : plan_cost segs chosen = Zsum ss_accum_size ts) by by apply trees_cost.
  destruct (trees_bound segs Hac Hsz ts Hts) as [Hb Hsum].
  split; [by eapply trees_plan_ok|]. split.
  - rewrite Hcost, fold_wrapping_add; rewrite ?Zsum_fmap; [done|done| |done].
    intros x (t & -> & Ht)%list_elem_of_fmap. by apply Hb.
  - intros m Hm. rewrite Hcost. destruct (roots_have_trees segs Hr Hac Hsz _ m Hm Hos)
      as (ts' & Hts' & _ & Hle). apply list_fmap_eq_inj in Hts'; [|by intros ?? [= ->]]. subst ts'.
    etrans; [exact Hle|]. unfold cost_on, plan_cost. by rewrite (Zsum_perm _ _ _ (forest_perm segs Hac)).
Qed.

(** ** Two branches off one branch point *)

Definition test_model : StorageModel := {| model_segments := [
  {| seg_parent := None; seg_lsn := 0; seg_size := Some 10; seg_needed := false |};
  {| seg_parent := Some 0%nat; seg_lsn := 100; seg_size := Some 50; seg_needed := false |};
  {| seg_parent := Some 1%nat; seg_lsn := 110; seg_size := None; seg_needed := true |};
  {| seg_parent := Some 1%nat; seg_lsn := 120; seg_size := Some 60; seg_needed := true |} ] |}.

Definition test_plan (i : nat) : SegmentMethod :=
  match i with 0%nat => SnapshotHere | _ => Wal end.

Lemma test_model_ok :
  parents_in_range (model_segments test_model) ∧ acyclic (model_segments test_model)
  ∧ sizes_ok (model_segments test_model) ∧ plan_ok (model_segments test_model) test_plan.
Proof.
  assert (H0 : depth_is (model_segments test_model) 0 0) by (constructor; simpl; (done || lia)).
  assert (H1 : depth_is (model_segments test_model) 1 1) by by econstructor.
  split_and!.
  - intros [|[|[|[|i]]]] p Hp; unfold parent in Hp; simplify_eq/=; simpl; try lia.
  - intros [|[|[|[|i]]]] Hi; simpl in Hi; try lia; eauto; exists 2%nat; by econstructor.
  - split; [intros [|[|[|[|i]]]] seg x Hi Hx; simplify_eq/=; by vm_compute..|by vm_compute].
  - intros [|[|[|[|i]]]] Hi; simpl in Hi; try lia; eexists; (split; [reflexivity|]); simpl.
    + split; [|done]. split; [by eexists|by left].
    + split; [done|]. intros _. by eexists.
    + split; [done|]. intros _. by eexists.
    + split; [done|]. intros _. by eexists.
Qed.

Lemma calculate_optimal_witness :
  calculate 4 test_model = Some (Ok {| total_size := 80; result_segments :=
    [ {| res_method := Skipped; res_accum_size := 80 |};
      {| res_method := SnapshotHere; res_accum_size := 80 |};
      {| res_method := Wal; res_accum_size := 10 |};
      {| res_method := Wal; res_accum_size := 20 |} ] |})
  ∧ ∀ m, plan_ok (model_segments test_model) m → 80 ≤ plan_cost (model_segments test_model) m.
Proof.
  destruct test_model_ok as (Hr & Hac & Hsz & Hp).
  destruct (calculate_optimal test_model Hr Hac Hsz (ex_intro _ test_plan Hp))
    as (res & Hres & _ & Htot & Hopt).
  assert (Hc : calculate 4 test_model = Some (Ok {| total_size := 80; result_segments :=
    [ {| res_method := Skipped; res_accum_size := 80 |};
      {| res_method := SnapshotHere; res_accum_size := 80 |};
      {| res_method := Wal; res_accum_size := 10 |};
      {| res_method := Wal; res_accum_size := 20 |} ] |})) by (vm_compute; reflexivity).
  split; [exact Hc|]. intros m Hm. specialize (Hopt m Hm).
  change (length (model_segments test_model)) with 4%nat in Hres. rewrite Hc in Hres.
  injection Hres as <-. cbn [total_size] in Htot. cbv zeta in Hopt, Htot. lia.
Defined.
