(* ===== verification/Scheduler.v ===== *)
(** * The scheduler of the storage controller

    [storage_controller/src/scheduler.rs]: which pageserver a location of a
    tenant shard is placed on, and the counts of locations per node that the
    decision uses; with the utilization of a pageserver
    ([libs/pageserver_api/src/models/utilization.rs]) and the part of a node that
    the scheduler reads ([storage_controller/src/node.rs]).

    The nodes are a hash map: nothing that is computed here depends on its order
    but the order of nodes with equal counts in [nodes_by_attached_shard_count].
    The counts wrap as [usize] does.  Time stamps, addresses, metrics and logging
    are left out. *)

From stdpp Require Import sorting.
From S2P Require Import Prelude Bytes Text Membership.

(** ** Utilization *)

Record PageserverUtilization := mkPageserverUtilization {
  pu_disk_usage_bytes : Z;
  pu_free_space_bytes : Z;
  pu_disk_wanted_bytes : Z;
  pu_disk_usable_pct : Z;
  pu_shard_count : Z;
  pu_max_shard_count : Z;
  pu_utilization_score : option Z;
}.
#[export] Instance PageserverUtilization_settable : Settable PageserverUtilization := λ u,
  mkPageserverUtilization (pu_disk_usage_bytes u) (pu_free_space_bytes u) (pu_disk_wanted_bytes u)
    (pu_disk_usable_pct u) (pu_shard_count u) (pu_max_shard_count u) (pu_utilization_score u).

Definition UTILIZATION_FULL : Z := 1000000.

(** Integer division panics on zero. *)
Definition div_u {E} (x y : Z) : outcome E Z := if y =? 0 then Panic else Ok (x / y).

Definition score {E} (self : PageserverUtilization) : outcome E Z :=
  let disk_usable_capacity :=
    wrapping_mul 64 (wrapping_add 64 (pu_disk_usage_bytes self) (pu_free_space_bytes self))
      (pu_disk_usable_pct self) / 100 in
  disk_utilization_score ←
    div_u (wrapping_mul 64 (pu_disk_wanted_bytes self) UTILIZATION_FULL) disk_usable_capacity;
  shard_utilization_score ←
    div_u (wrapping_mul 64 (pu_shard_count self) UTILIZATION_FULL) (pu_max_shard_count self);
  Ok (Z.max disk_utilization_score shard_utilization_score).

Definition cached_score {E} : ST PageserverUtilization E Z :=
  self ← st_get;
  match pu_utilization_score self with
  | None =>
    s ← st_lift (score self);
    _ ← st_put (self <| pu_utilization_score := Some s |>);
    mret s
  | Some s => mret s
  end.

Definition is_overloaded (score : Z) : bool := 2 * UTILIZATION_FULL <=? score.

Definition adjust_shard_count_max (shard_count : Z) (self : PageserverUtilization) :
    PageserverUtilization :=
  if pu_shard_count self <? shard_count
  then self <| pu_shard_count := shard_count |> <| pu_utilization_score := None |>
  else self.

Definition PageserverUtilization_full : PageserverUtilization := {|
  pu_disk_usage_bytes := 1;
  pu_free_space_bytes := 0;
  pu_disk_wanted_bytes := 1;
  pu_disk_usable_pct := 100;
  pu_shard_count := 1;
  pu_max_shard_count := 1;
  pu_utilization_score := Some UTILIZATION_FULL;
|}.

(** ** Nodes *)

(** [controller_api::AvailabilityZone], a string; strings are compared by their
    bytes, which is by their characters. *)
Abbreviation AvailabilityZone := str.

Fixpoint lex_le (x y : list Z) : bool :=
  match x, y with
  | [], _ => true
  | _ :: _, [] => false
  | a :: x, b :: y => if a =? b then lex_le x y else a <? b
  end.

Inductive NodeAvailability :=
| NodeActive (utilization : PageserverUtilization)
| NodeWarmingUp (since : Z)
| NodeOffline.

Inductive NodeSchedulingPolicy :=
| NodeSchedActive | NodeSchedFilling | NodeSchedPause | NodeSchedPauseForRestart | NodeSchedDraining.

Inductive MaySchedule :=
| MayYes (utilization : PageserverUtilization)
| MayNo.

(** [n_cancelled]: the cancellation token of the node was fired. *)
Record Node := mkNode {
  n_id : NodeId;
  n_availability : NodeAvailability;
  n_scheduling : NodeSchedulingPolicy;
  n_availability_zone_id : AvailabilityZone;
  n_cancelled : bool;
}.
#[export] Instance Node_settable : Settable Node := λ n,
  mkNode (n_id n) (n_availability n) (n_scheduling n) (n_availability_zone_id n) (n_cancelled n).

Inductive AvailabilityTransition :=
| ToActive | ToWarmingUpFromActive | ToWarmingUpFromOffline | ToOffline | Unchanged.

Definition get_availability_transition (self : Node) (availability : NodeAvailability) :
    AvailabilityTransition :=
  match n_availability self, availability with
  | NodeOffline, NodeActive _ => ToActive
  | NodeActive _, NodeOffline => ToOffline
  | NodeActive _, NodeWarmingUp _ => ToWarmingUpFromActive
  | NodeWarmingUp _, NodeOffline => ToOffline
  | NodeWarmingUp _, NodeActive _ => ToActive
  | NodeOffline, NodeWarmingUp _ => ToWarmingUpFromOffline
  | _, _ => Unchanged
  end.

Definition set_availability (availability : NodeAvailability) (self : Node) : Node :=
  let self' :=
    match get_availability_transition self availability with
    | ToActive => self <| n_cancelled := false |>
    | ToOffline | ToWarmingUpFromActive => self <| n_cancelled := true |>
    | Unchanged | ToWarmingUpFromOffline => self
    end in
  match n_availability self', availability with
  | NodeWarmingUp crnt, NodeWarmingUp proposed =>
    self' <| n_availability := NodeWarmingUp (Z.max crnt proposed) |>
  | _, _ => self' <| n_availability := availability |>
  end.

Definition is_available (self : Node) : bool :=
  match n_availability self with NodeActive _ => negb (n_cancelled self) | _ => false end.

Definition may_schedule (self : Node) : MaySchedule :=
  match n_availability self with
  | NodeActive utilization =>
    match n_scheduling self with
    | NodeSchedActive | NodeSchedFilling => MayYes utilization
    | NodeSchedDraining | NodeSchedPause | NodeSchedPauseForRestart => MayNo
    end
  | NodeOffline | NodeWarmingUp _ => MayNo
  end.

(** ** Scores *)

Inductive ScheduleError := NoPageservers | ImpossibleConstraint.

Record SchedulerNode := mkSchedulerNode {
  sn_shard_count : Z;
  sn_attached_shard_count : Z;
  sn_home_shard_count : Z;
  sn_az : AvailabilityZone;
  sn_may_schedule : MaySchedule;
}.
#[export] Instance SchedulerNode_settable : Settable SchedulerNode := λ n,
  mkSchedulerNode (sn_shard_count n) (sn_attached_shard_count n) (sn_home_shard_count n) (sn_az n)
    (sn_may_schedule n).

(** [AffinityScore(usize)] *)
Abbreviation AffinityScore := Z.
Definition AffinityScore_FREE : AffinityScore := 0.
Definition AffinityScore_inc (self : AffinityScore) : AffinityScore := wrapping_add 64 self 1.
Definition AffinityScore_dec (self : AffinityScore) : AffinityScore := wrapping_sub 64 self 1.

Inductive ScheduleMode := ModeNormal | ModeSpeculative.

Record ScheduleContext := mkScheduleContext {
  sc_nodes : gmap NodeId AffinityScore;
  sc_mode : ScheduleMode;
}.
#[export] Instance ScheduleContext_settable : Settable ScheduleContext := λ c,
  mkScheduleContext (sc_nodes c) (sc_mode c).

Definition ScheduleContext_new (mode : ScheduleMode) : ScheduleContext := mkScheduleContext ∅ mode.

Definition affinity (context : ScheduleContext) (node_id : NodeId) : AffinityScore :=
  default AffinityScore_FREE (sc_nodes context !! node_id).

Definition ScheduleContext_avoid (nodes : list NodeId) (self : ScheduleContext) : ScheduleContext :=
  foldl (λ self node_id,
    self <| sc_nodes := <[node_id := AffinityScore_inc (affinity self node_id)]> (sc_nodes self) |>)
    self nodes.

Inductive AzMatch := AzYes | AzNo | AzUnknown.

Definition AzMatch_new (node_az : AvailabilityZone) (shard_preferred_az : option AvailabilityZone) :
    AzMatch :=
  match shard_preferred_az with
  | Some preferred_az => if bool_decide (preferred_az = node_az) then AzYes else AzNo
  | None => AzUnknown
  end.

(** The orders of [AttachmentAzMatch] and [SecondaryAzMatch] *)
Definition attachment_az_rank (m : AzMatch) : Z :=
  match m with AzYes => 0 | AzUnknown => 1 | AzNo => 2 end.
Definition secondary_az_rank (m : AzMatch) : Z :=
  match m with AzNo => 0 | AzUnknown => 1 | AzYes => 2 end.

Record NodeAttachmentSchedulingScore := mkNodeAttachmentSchedulingScore {
  nas_az_match : AzMatch;
  nas_affinity_score : AffinityScore;
  nas_utilization_score : Z;
  nas_total_attached_shard_count : Z;
  nas_node_id : NodeId;
}.

Record NodeSecondarySchedulingScore := mkNodeSecondarySchedulingScore {
  nss_az_match : AzMatch;
  nss_affinity_score : AffinityScore;
  nss_utilization_score : Z;
  nss_total_non_home_shard_count : Z;
  nss_node_id : NodeId;
}.

(** The trait [NodeSchedulingScore]; [score_key] lists the fields in the order of
    their declaration, by which [#[derive(Ord)]] compares. *)
Class NodeSchedulingScore (S : Type) := {
  generate : ∀ {E}, NodeId → option AvailabilityZone → ScheduleContext →
    ST SchedulerNode E (option S);
  for_optimization : S → S;
  score_is_overloaded : S → bool;
  score_node_id : S → NodeId;
  score_key : S → list Z;
}.

Definition score_le {S} `{NodeSchedulingScore S} (x y : S) : Prop := lex_le (score_key x) (score_key y).
#[export] Instance score_le_dec {S} `{NodeSchedulingScore S} : RelDecision score_le :=
  λ x y, decide (lex_le (score_key x) (score_key y)).

(** The utilization of a node that may be scheduled, with its score. *)
Definition node_utilization_score {E} : ST SchedulerNode E (option Z) :=
  node ← st_get;
  match sn_may_schedule node with
  | MayYes u =>
    match cached_score u with
    | (Ok s, u') => _ ← st_put (node <| sn_may_schedule := MayYes u' |>); mret (Some s)
    | (Err e, _) => st_fail e
    | (Panic, _) => st_panic
    end
  | MayNo => mret None
  end.

#[export] Instance NodeAttachmentSchedulingScore_score :
    NodeSchedulingScore NodeAttachmentSchedulingScore := {|
  generate E node_id preferred_az context :=
    utilization ← node_utilization_score;
    node ← st_get;
    mret (utilization_score ← utilization; Some {|
      nas_az_match := AzMatch_new (sn_az node) preferred_az;
      nas_affinity_score := affinity context node_id;
      nas_utilization_score := utilization_score;
      nas_total_attached_shard_count := sn_attached_shard_count node;
      nas_node_id := node_id;
    |});
  for_optimization self := {|
    nas_az_match := nas_az_match self;
    nas_affinity_score := nas_affinity_score self;
    nas_utilization_score := 0;
    nas_total_attached_shard_count := 0;
    nas_node_id := 0;
  |};
  score_is_overloaded self := is_overloaded (nas_utilization_score self);
  score_node_id := nas_node_id;
  score_key self := [attachment_az_rank (nas_az_match self); nas_affinity_score self;
    nas_utilization_score self; nas_total_attached_shard_count self; nas_node_id self];
|}.

#[export] Instance NodeSecondarySchedulingScore_score :
    NodeSchedulingScore NodeSecondarySchedulingScore := {|
  generate E node_id preferred_az context :=
    utilization ← node_utilization_score;
    node ← st_get;
    mret (utilization_score ← utilization; Some {|
      nss_az_match := AzMatch_new (sn_az node) preferred_az;
      nss_affinity_score := affinity context node_id;
      nss_utilization_score := utilization_score;
      nss_total_non_home_shard_count :=
        wrapping_sub 64 (sn_shard_count node) (sn_home_shard_count node);
      nss_node_id := node_id;
    |});
  for_optimization self := {|
    nss_az_match := nss_az_match self;
    nss_affinity_score := nss_affinity_score self;
    nss_utilization_score := 0;
    nss_total_non_home_shard_count := 0;
    nss_node_id := 0;
  |};
  score_is_overloaded self := is_overloaded (nss_utilization_score self);
  score_node_id := nss_node_id;
  score_key self := [secondary_az_rank (nss_az_match self); nss_affinity_score self;
    nss_utilization_score self; nss_total_non_home_shard_count self; nss_node_id self];
|}.

(** ** The scheduler *)

(** [struct Scheduler]: its only field *)
Abbreviation Scheduler := (gmap NodeId SchedulerNode).

Inductive RefCountUpdate :=
| PromoteSecondary
| Attach
| Detach
| DemoteAttached
| AddSecondary
| RemoveSecondary
| ChangePreferredAzFrom (old_az : option AvailabilityZone).

(** The entry of a node that nothing refers to. *)
Definition SchedulerNode_of (node : Node) : SchedulerNode := {|
  sn_shard_count := 0;
  sn_attached_shard_count := 0;
  sn_home_shard_count := 0;
  sn_az := n_availability_zone_id node;
  sn_may_schedule := may_schedule node;
|}.

Definition Scheduler_new (nodes : list Node) : Scheduler :=
  foldl (λ scheduler_nodes node, <[n_id node := SchedulerNode_of node]> scheduler_nodes) ∅ nodes.

(** [impl PartialEq for SchedulerNode] *)
Definition SchedulerNode_eq (self other : SchedulerNode) : bool :=
  match sn_may_schedule self, sn_may_schedule other with
  | MayYes _, MayYes _ | MayNo, MayNo => true
  | _, _ => false
  end
  && (sn_shard_count self =? sn_shard_count other)
  && (sn_attached_shard_count self =? sn_attached_shard_count other)
  && bool_decide (sn_az self = sn_az other).

(** [x += 1], [x -= 1] on a [usize]; with a condition *)
Definition inc (x : Z) : Z := wrapping_add 64 x 1.
Definition dec (x : Z) : Z := wrapping_sub 64 x 1.
Definition inc_if (b : bool) (x : Z) : Z := if b then inc x else x.
Definition dec_if (b : bool) (x : Z) : Z := if b then dec x else x.

Definition adjust_may_schedule (shard_count : Z) (m : MaySchedule) : MaySchedule :=
  match m with
  | MayYes utilization => MayYes (adjust_shard_count_max (wrap 32 shard_count) utilization)
  | MayNo => MayNo
  end.

Definition update_node (preferred_az : option AvailabilityZone) (update : RefCountUpdate)
    (node : SchedulerNode) : SchedulerNode :=
  let is_home_az := bool_decide (Some (sn_az node) = preferred_az) in
  let node' :=
    match update with
    | PromoteSecondary =>
      node <| sn_attached_shard_count := inc (sn_attached_shard_count node) |>
    | Attach =>
      node <| sn_shard_count := inc (sn_shard_count node) |>
           <| sn_attached_shard_count := inc (sn_attached_shard_count node) |>
           <| sn_home_shard_count := inc_if is_home_az (sn_home_shard_count node) |>
    | Detach =>
      node <| sn_shard_count := dec (sn_shard_count node) |>
           <| sn_attached_shard_count := dec (sn_attached_shard_count node) |>
           <| sn_home_shard_count := dec_if is_home_az (sn_home_shard_count node) |>
    | DemoteAttached =>
      node <| sn_attached_shard_count := dec (sn_attached_shard_count node) |>
    | AddSecondary =>
      node <| sn_shard_count := inc (sn_shard_count node) |>
           <| sn_home_shard_count := inc_if is_home_az (sn_home_shard_count node) |>
    | RemoveSecondary =>
      node <| sn_shard_count := dec (sn_shard_count node) |>
           <| sn_home_shard_count := dec_if is_home_az (sn_home_shard_count node) |>
    | ChangePreferredAzFrom old_az =>
      node <| sn_home_shard_count :=
        inc_if is_home_az (dec_if (bool_decide (Some (sn_az node) = old_az)) (sn_home_shard_count node)) |>
    end in
  match update with
  | AddSecondary | Attach =>
    node' <| sn_may_schedule := adjust_may_schedule (sn_shard_count node') (sn_may_schedule node') |>
  | _ => node'
  end.

Definition update_node_ref_counts (node_id : NodeId) (preferred_az : option AvailabilityZone)
    (update : RefCountUpdate) (self : Scheduler) : Scheduler :=
  match self !! node_id with
  | Some node => <[node_id := update_node preferred_az update node]> self
  | None => self
  end.

Definition node_upsert (node : Node) (self : Scheduler) : Scheduler :=
  match self !! n_id node with
  | Some entry =>
    <[n_id node :=
      entry <| sn_may_schedule := adjust_may_schedule (sn_shard_count entry) (may_schedule node) |>]> self
  | None => <[n_id node := SchedulerNode_of node]> self
  end.

Definition node_remove (node_id : NodeId) (self : Scheduler) : Scheduler := delete node_id self.

Definition expected_attached_shard_count {E} (self : Scheduler) : outcome E Z :=
  let total_attached_shards :=
    foldl (wrapping_add 64) 0 ((λ kv, sn_attached_shard_count kv.2) <$> map_to_list self) in
  if Z.of_nat (size self) =? 0 then Panic
  else div_u total_attached_shards (Z.of_nat (size self)).

Definition compute_fill_requirement {E} (node_id : NodeId) (self : Scheduler) : outcome E Z :=
  match self !! node_id with
  | None => Ok 0
  | Some node =>
    expected ← expected_attached_shard_count self;
    Ok (if sn_attached_shard_count node <? expected
        then expected - sn_attached_shard_count node else 0)
  end.

Definition by_count_desc (lhs rhs : NodeId * Z) : Prop := rhs.2 ≤ lhs.2.
#[export] Instance by_count_desc_dec : RelDecision by_count_desc := λ lhs rhs, decide (rhs.2 ≤ lhs.2).

(** [order] is the iteration order of the hash map. *)
Definition nodes_by_attached_shard_count (order : list NodeId) (self : Scheduler) : list (NodeId * Z) :=
  merge_sort by_count_desc
    (omap (λ k, node ← self !! k; Some (k, sn_attached_shard_count node)) order).

(** A mutation of the entry of a node, if it exists. *)
Definition with_node {E A} (node_id : NodeId) (m : ST SchedulerNode E (option A)) :
    ST Scheduler E (option A) :=
  self ← st_get;
  match self !! node_id with
  | None => mret None
  | Some node =>
    let '(r, node') := m node in
    _ ← st_put (<[node_id := node']> self);
    st_lift r
  end.

Section schedule.
Context {E : Type} (S : Type) `{NodeSchedulingScore S}.

Definition compute_node_score (node_id : NodeId) (preferred_az : option AvailabilityZone)
    (context : ScheduleContext) : ST Scheduler E (option S) :=
  with_node node_id (generate node_id preferred_az context).

Fixpoint scores_of (hard_exclude : list NodeId) (preferred_az : option AvailabilityZone)
    (context : ScheduleContext) (ks : list NodeId) : ST Scheduler E (list S) :=
  match ks with
  | [] => mret []
  | k :: ks =>
    s ← if bool_decide (k ∈ hard_exclude) then mret None
        else compute_node_score k preferred_az context;
    rest ← scores_of hard_exclude preferred_az context ks;
    mret (option_list s ++ rest)
  end.

Definition compute_node_scores (hard_exclude : list NodeId)
    (preferred_az : option AvailabilityZone) (context : ScheduleContext) : ST Scheduler E (list S) :=
  self ← st_get;
  scores_of hard_exclude preferred_az context ((map_to_list self).*1).
End schedule.

Definition schedule_shard (S : Type) `{NodeSchedulingScore S} (hard_exclude : list NodeId)
    (preferred_az : option AvailabilityZone) (context : ScheduleContext) :
    ST Scheduler ScheduleError NodeId :=
  self ← st_get;
  if bool_decide (self = ∅) then st_fail NoPageservers
  else
    scores ← compute_node_scores S hard_exclude preferred_az context;
    let non_overloaded_scores := filter (λ i, score_is_overloaded i = false) scores in
    let scores := match non_overloaded_scores with [] => scores | _ => non_overloaded_scores end in
    match merge_sort score_le scores with
    | [] => st_fail ImpossibleConstraint
    | s :: _ => mret (score_node_id s)
    end.

Definition any_available_node : ST Scheduler ScheduleError NodeId :=
  schedule_shard NodeAttachmentSchedulingScore [] None (ScheduleContext_new ModeNormal).

Record AzScore := mkAzScore { az_home_shard_count : Z; az_scheduleable : bool }.

Definition is_may_yes (m : MaySchedule) : bool := match m with MayYes _ => true | MayNo => false end.

Definition az_scores (self : Scheduler) : gmap AvailabilityZone AzScore :=
  foldl (λ azs kv,
    let az := default (mkAzScore 0 false) (azs !! sn_az kv.2) in
    <[sn_az kv.2 := mkAzScore (wrapping_add 64 (az_home_shard_count az) (sn_home_shard_count kv.2))
        (az_scheduleable az || is_may_yes (sn_may_schedule kv.2))]> azs)
    ∅ (map_to_list self).

(** By the number of home shards, then by name. *)
Definition az_le (i j : AvailabilityZone * AzScore) : Prop :=
  lex_le (az_home_shard_count i.2 :: i.1) (az_home_shard_count j.2 :: j.1).
#[export] Instance az_le_dec : RelDecision az_le :=
  λ i j, decide (lex_le (az_home_shard_count i.2 :: i.1) (az_home_shard_count j.2 :: j.1)).

Definition get_az_for_new_tenant (self : Scheduler) : option AvailabilityZone :=
  if bool_decide (self = ∅) then None
  else
    let azs := map_to_list (az_scores self) in
    let azs :=
      if existsb (λ i, az_scheduleable i.2) azs
      then filter (λ i, az_scheduleable i.2 = true) azs else azs in
    fst <$> head (merge_sort az_le azs).

Definition get_node_az (node_id : NodeId) (self : Scheduler) : option AvailabilityZone :=
  sn_az <$> self !! node_id.

Fixpoint filter_usable_nodes {E} (nodes : list NodeId) (self : Scheduler) :
    outcome E (list (NodeId * option AvailabilityZone)) :=
  match nodes with
  | [] => Ok []
  | node_id :: nodes =>
    node ← unwrap (self !! node_id);
    rest ← filter_usable_nodes nodes self;
    Ok (if is_may_yes (sn_may_schedule node) then (node_id, Some (sn_az node)) :: rest else rest)
  end.

(** ** Utilization scores *)

(** The types of the fields *)
Definition pu_wf (u : PageserverUtilization) : Prop :=
  in_u 64 (pu_disk_usage_bytes u) ∧ in_u 64 (pu_free_space_bytes u) ∧
  in_u 64 (pu_disk_wanted_bytes u) ∧ 0 ≤ pu_disk_usable_pct u ≤ 100 ∧
  in_u 32 (pu_shard_count u) ∧ in_u 32 (pu_max_shard_count u).

(** What [score] means to compute from. *)
Definition disk_capacity (u : PageserverUtilization) : Z :=
  (pu_disk_usage_bytes u + pu_free_space_bytes u) * pu_disk_usable_pct u / 100.

(** The products of [score] fit 64 bits: a disk below 184 PB and less than 18.4 TB
    of wanted data. *)
Definition pu_small (u : PageserverUtilization) : Prop :=
  (pu_disk_usage_bytes u + pu_free_space_bytes u) * 100 < 2 ^ 64 ∧
  pu_disk_wanted_bytes u * UTILIZATION_FULL < 2 ^ 64.

Lemma score_small {E} u :
  pu_wf u → pu_small u →
  score (E := E) u =
    if bool_decide (disk_capacity u = 0 ∨ pu_max_shard_count u = 0) then Panic
    else Ok (Z.max (pu_disk_wanted_bytes u * UTILIZATION_FULL / disk_capacity u)
      (pu_shard_count u * UTILIZATION_FULL / pu_max_shard_count u)).
Proof.
  unfold pu_wf, pu_small, in_u, score, div_u, wrapping_mul, wrapping_add, disk_capacity, UTILIZATION_FULL.
  intros (? & ? & ? & ? & ? & ?) [? ?].
  rewrite (wrap_small 64 (pu_disk_usage_bytes u + _)) by (unfold in_u; lia).
  rewrite !wrap_small by (unfold in_u; nia).
  repeat case_match; repeat (case_bool_decide || bool_prop); simpl; try done; naive_solver lia.
Qed.

Lemma div_millionths c x :
  0 < c → 0 ≤ x →
  0 ≤ x * UTILIZATION_FULL / c ≤ x * UTILIZATION_FULL ∧
  (2 * UTILIZATION_FULL ≤ x * UTILIZATION_FULL / c ↔ 2 * c ≤ x).
Proof.
  unfold UTILIZATION_FULL. intros. split; [|split].
  - split; [apply Z.div_pos|apply Z.div_le_upper_bound]; nia.
  - pose proof (Z.mul_div_le (x * 1000000) c). nia.
  - intros. apply Z.div_le_lower_bound; nia.
Qed.

(** C30: for a disk of less than 184 PB and less than 18.4 TB of wanted data, [score]
    panics exactly when the usable capacity or the maximal number of shards is zero
    (the defaults that [serde] gives to fields an older pageserver does not send);
    otherwise nothing overflows, the score is the larger of the two utilizations in
    millionths, and the node counts as overloaded exactly when twice its disk or
    twice its number of shards is exceeded. *)
Theorem utilization_score_exact {E} u :
  pu_wf u → pu_small u →
  match score (E := E) u with
  | Ok s =>
    s = Z.max (pu_disk_wanted_bytes u * UTILIZATION_FULL / disk_capacity u)
          (pu_shard_count u * UTILIZATION_FULL / pu_max_shard_count u) ∧ in_u 64 s ∧
    (is_overloaded s = true ↔
      2 * disk_capacity u ≤ pu_disk_wanted_bytes u ∨ 2 * pu_max_shard_count u ≤ pu_shard_count u)
  | Err _ => False
  | Panic => disk_capacity u = 0 ∨ pu_max_shard_count u = 0
  end.
Proof.
  intros Hwf Hsm. rewrite (score_small u Hwf Hsm). case_bool_decide as Hz; [done|].
  apply Decidable.not_or in Hz as [Hc Hm].
  destruct Hwf as (? & ? & Hw & ? & Hsc & Hmx), Hsm as [_ Hsm]. unfold in_u in *.
  assert (0 < disk_capacity u) by
    (pose proof (Z.div_pos ((pu_disk_usage_bytes u + pu_free_space_bytes u) * pu_disk_usable_pct u) 100);
     unfold disk_capacity in *; nia).
  destruct (div_millionths (disk_capacity u) (pu_disk_wanted_bytes u)) as [Hd Hd']; [lia..|].
  destruct (div_millionths (pu_max_shard_count u) (pu_shard_count u)) as [Hs Hs']; [lia..|].
  unfold UTILIZATION_FULL in *. split; [done|]. split; [lia|].
  unfold is_overloaded. rewrite Z.leb_le, <- Hd', <- Hs'. unfold UTILIZATION_FULL. lia.
Qed.

Definition test_utilization : PageserverUtilization :=
  mkPageserverUtilization 600 400 1500 80 3 5000 None.

Lemma utilization_score_exact_witness :
  pu_wf test_utilization ∧ pu_small test_utilization ∧
  score (E := Empty_set) test_utilization = Ok 1875000 ∧
  (is_overloaded 1875000 = true ↔ 2 * 800 ≤ 1500 ∨ 2 * 5000 ≤ 3).
Proof.
  assert (Hwf : pu_wf test_utilization) by (unfold pu_wf, in_u; simpl; lia).
  assert (Hsm : pu_small test_utilization) by (unfold pu_small, UTILIZATION_FULL; simpl; lia).
  split; [exact Hwf|]. split; [exact Hsm|]. split; [reflexivity|].
  exact (proj2 (proj2 (utilization_score_exact (E := Empty_set) test_utilization Hwf Hsm))).
Defined.

(** With more wanted data than that the product wraps: a node that wants 18.4 TB of a
    disk of 1 TB has the score of an empty one. *)
Example score_wraps :
  score (E := Empty_set) (mkPageserverUtilization 0 (10 ^ 12) 18446744073710 100 0 5000 None) = Ok 0.
Proof. reflexivity. Qed.

(** A report of a pageserver that does not send the fields with defaults: the
    default of the usable percentage, [unity_percent], is zero. *)
Definition unity_percent : Z := 0.
Example score_of_defaults_panics usage free :
  in_u 64 usage → in_u 64 free →
  score (E := Empty_set) (mkPageserverUtilization usage free 0 unity_percent 0 0 None) = Panic.
Proof.
  intros. unfold score, div_u, wrapping_mul, unity_percent, UTILIZATION_FULL. simpl.
  by rewrite Z.mul_0_r.
Qed.

(** ** The decision of the scheduler *)

(** Reading a score fills its cache.  Two schedulers are equivalent when they differ
    in filled caches only. *)
Definition fill (u : PageserverUtilization) : PageserverUtilization :=
  (cached_score (E := Empty_set) u).2.

Definition fill_may (m : MaySchedule) : MaySchedule :=
  match m with MayYes u => MayYes (fill u) | MayNo => MayNo end.

Definition fill_node (n : SchedulerNode) : SchedulerNode :=
  n <| sn_may_schedule := fill_may (sn_may_schedule n) |>.

#[export] Instance SchedulerNode_equiv : Equiv SchedulerNode := λ n n', fill_node n = fill_node n'.
#[export] Instance SchedulerNode_equivalence : Equivalence (≡@{SchedulerNode}).
Proof. split; unfold equiv, SchedulerNode_equiv; congruence. Qed.

(** The utilization score of a node that may be scheduled; [None] when it panics. *)
Definition utilization_of (n : SchedulerNode) : option Z :=
  match sn_may_schedule n with
  | MayYes u => match (cached_score (E := Empty_set) u).1 with Ok s => Some s | _ => None end
  | MayNo => None
  end.

Lemma score_cases u :
  (∃ s, ∀ E, score (E := E) u = Ok s) ∨ (∀ E, score (E := E) u = Panic).
Proof. unfold score, div_u. repeat case_match; simpl; eauto. Qed.

Lemma cached_score_run {E} u :
  cached_score (E := E) u =
    match (cached_score (E := Empty_set) u).1 with Ok s => (Ok s, fill u) | _ => (Panic, u) end.
Proof.
  unfold fill, cached_score, st_lift, st_get, st_put, mbind, mret, ST_bind, ST_ret. simpl.
  destruct (pu_utilization_score u); [done|]. by destruct (score_cases u) as [[s Hs]|Hs]; rewrite !Hs.
Qed.

(** Filling a cache changes neither the score nor, a second time, the cache. *)
Lemma cached_score_fill u :
  (cached_score (E := Empty_set) (fill u)).1 = (cached_score (E := Empty_set) u).1 ∧ fill (fill u) = fill u.
Proof.
  unfold fill, cached_score, st_lift, st_get, st_put, mbind, mret, ST_bind, ST_ret. simpl.
  destruct (pu_utilization_score u) eqn:Hu; simpl; [by rewrite Hu|].
  destruct (score_cases u) as [[s Hs]|Hs]; rewrite !Hs; [done|]. simpl. by rewrite ?Hu, ?Hs.
Qed.

Lemma fill_node_idemp n : fill_node (fill_node n) = fill_node n.
Proof.
  destruct n as [? ? ? ? []]; unfold fill_node; simpl; [|done].
  by rewrite (proj2 (cached_score_fill _)).
Qed.

Lemma fill_node_equiv n : fill_node n ≡ n.
Proof. apply fill_node_idemp. Qed.

Lemma utilization_of_fill n : utilization_of (fill_node n) = utilization_of n.
Proof.
  destruct n as [? ? ? ? []]; unfold utilization_of, fill_node; simpl; [|done].
  by rewrite (proj1 (cached_score_fill _)).
Qed.

#[export] Instance utilization_of_proper : Proper ((≡) ==> (=)) utilization_of.
Proof. intros n n' Hn. rewrite <- (utilization_of_fill n), <- (utilization_of_fill n'). by rewrite Hn. Qed.

Lemma node_utilization_score_run {E} n :
  node_utilization_score (E := E) n =
    match sn_may_schedule n, utilization_of n with
    | MayNo, _ => (Ok None, n)
    | MayYes _, Some s => (Ok (Some s), fill_node n)
    | MayYes _, None => (Panic, n)
    end.
Proof.
  unfold node_utilization_score, utilization_of, fill_node, st_lift, st_get, st_put, st_panic, st_fail, mbind, mret,
    ST_bind, ST_ret. destruct n as [? ? ? ? []]; simpl; [|done].
  rewrite cached_score_run. by destruct ((cached_score _).1).
Qed.

(** What the two scores have in common: they exist for the nodes that may be
    scheduled, and are built from the counts, the zone and the utilization. *)
Class NodeSchedulingScoreLaws (S : Type) `{NodeSchedulingScore S} := {
  mk_score : NodeId → option AvailabilityZone → ScheduleContext → SchedulerNode → Z → S;
  generate_run {E} k az c n :
    generate (E := E) k az c n =
      match node_utilization_score n with
      | (Ok o, n') => (Ok (mk_score k az c n <$> o), n')
      | (Err e, n') => (Err e, n')
      | (Panic, n') => (Panic, n')
      end;
  mk_score_proper k az c :: Proper ((≡) ==> (=) ==> (=)) (mk_score k az c);
  mk_score_node_id k az c n u : score_node_id (mk_score k az c n u) = k;
  mk_score_overloaded k az c n u : score_is_overloaded (mk_score k az c n u) = is_overloaded u;
  score_key_node_id s s' : score_key s = score_key s' → score_node_id s = score_node_id s';
}.

Lemma equiv_fields (n n' : SchedulerNode) :
  n ≡ n' →
  sn_shard_count n = sn_shard_count n' ∧ sn_attached_shard_count n = sn_attached_shard_count n' ∧
  sn_home_shard_count n = sn_home_shard_count n' ∧ sn_az n = sn_az n' ∧
  is_may_yes (sn_may_schedule n) = is_may_yes (sn_may_schedule n').
Proof.
  destruct n as [? ? ? ? []], n' as [? ? ? ? []]; unfold equiv, SchedulerNode_equiv, fill_node; simpl;
    intros; by simplify_eq.
Qed.

#[export] Program Instance NodeAttachmentSchedulingScore_laws :
    NodeSchedulingScoreLaws NodeAttachmentSchedulingScore := {|
  mk_score k az c n u := {|
    nas_az_match := AzMatch_new (sn_az n) az;
    nas_affinity_score := affinity c k;
    nas_utilization_score := u;
    nas_total_attached_shard_count := sn_attached_shard_count n;
    nas_node_id := k;
  |}
|}.
Next Obligation.
  simpl. intros. unfold mbind, ST_bind. rewrite node_utilization_score_run.
  destruct n as [? ? ? ? []]; simpl; [|done]. by destruct (utilization_of _).
Qed.
Next Obligation.
  intros k az c n n' Hn u ? <-. destruct (equiv_fields _ _ Hn) as (Hs & Ha & Hh & Hz & _). simpl. congruence.
Qed.
Next Obligation. done. Qed.
Next Obligation. done. Qed.
Next Obligation. by intros s s' [= _ _ _ _ ?]. Qed.

#[export] Program Instance NodeSecondarySchedulingScore_laws :
    NodeSchedulingScoreLaws NodeSecondarySchedulingScore := {|
  mk_score k az c n u := {|
    nss_az_match := AzMatch_new (sn_az n) az;
    nss_affinity_score := affinity c k;
    nss_utilization_score := u;
    nss_total_non_home_shard_count := wrapping_sub 64 (sn_shard_count n) (sn_home_shard_count n);
    nss_node_id := k;
  |}
|}.
Next Obligation.
  simpl. intros. unfold mbind, ST_bind. rewrite node_utilization_score_run.
  destruct n as [? ? ? ? []]; simpl; [|done]. by destruct (utilization_of _).
Qed.
Next Obligation.
  intros k az c n n' Hn u ? <-. destruct (equiv_fields _ _ Hn) as (Hs & Ha & Hh & Hz & _). simpl. congruence.
Qed.
Next Obligation. done. Qed.
Next Obligation. done. Qed.
Next Obligation. by intros s s' [= _ _ _ _ ?]. Qed.

(** *** The order of the scores *)

Lemma lex_le_refl x : lex_le x x.
Proof. induction x; simpl; [done|]. by rewrite Z.eqb_refl. Qed.

Lemma lex_le_total x : ∀ y, lex_le x y ∨ lex_le y x.
Proof.
  induction x as [|a x IH]; intros [|b y]; simpl; [by auto..|].
  rewrite (Z.eqb_sym b a). destruct (Z.eqb_spec a b); [apply IH|].
  rewrite !Is_true_true, !Z.ltb_lt. lia.
Qed.

Lemma lex_le_trans x : ∀ y z, lex_le x y → lex_le y z → lex_le x z.
Proof.
  setoid_rewrite Is_true_true. induction x as [|a x IH]; intros [|b y] [|c z]; simpl; try done.
  destruct (Z.eqb_spec a b), (Z.eqb_spec b c), (Z.eqb_spec a c); subst;
    rewrite ?Z.ltb_lt; intros; try (exfalso; lia); try lia; eauto.
Qed.

Lemma lex_le_antisym x : ∀ y, lex_le x y → lex_le y x → x = y.
Proof.
  induction x as [|a x IH]; intros [|b y]; simpl; try done. rewrite (Z.eqb_sym b a).
  destruct (Z.eqb_spec a b); [intros; f_equal; auto|]. rewrite !Is_true_true, !Z.ltb_lt. lia.
Qed.

#[export] Instance score_le_total {S} `{NodeSchedulingScore S} : Total (score_le (S := S)).
Proof. intros x y. apply lex_le_total. Qed.
#[export] Instance score_le_trans {S} `{NodeSchedulingScore S} : Transitive (score_le (S := S)).
Proof. intros x y z. apply lex_le_trans. Qed.

(** The first element of a sorted list is least. *)
Lemma merge_sort_min {A} (R : relation A) `{!RelDecision R, !Total R, !Transitive R} l x l' :
  merge_sort R l = x :: l' → x ∈ l ∧ ∀ y, y ∈ l → R x y.
Proof.
  intros Hs. pose proof (merge_sort_Permutation R l) as Hp.
  assert (Hss : StronglySorted R (merge_sort R l)) by (by apply StronglySorted_merge_sort).
  rewrite Hs in Hp, Hss. apply StronglySorted_inv in Hss as [_ Hall].
  split; [rewrite <- Hp; constructor|]. intros y. rewrite <- Hp, elem_of_cons. intros [->|Hy].
  - by destruct (total R x x).
  - by apply (proj1 (Forall_forall _ _) Hall).
Qed.

(** *** The chosen node *)

Section decision.
Context (S : Type) `{NodeSchedulingScoreLaws S}.
Implicit Types self : Scheduler.

(** The score of a node, when it may be scheduled *)
Definition node_score (az : option AvailabilityZone) (c : ScheduleContext) (k : NodeId)
    (n : SchedulerNode) : option S := mk_score k az c n <$> utilization_of n.

#[local] Instance node_score_proper az c k : Proper ((≡) ==> (=)) (node_score az c k).
Proof.
  intros n n' Hn. unfold node_score. rewrite (utilization_of_proper _ _ Hn). destruct (utilization_of n') as [u|]; [|done].
  simpl. f_equal. by apply mk_score_proper.
Qed.

(** Asking for the utilization of the node panics. *)
Definition score_panics (n : SchedulerNode) : Prop :=
  is_may_yes (sn_may_schedule n) = true ∧ utilization_of n = None.

#[local] Instance score_panics_proper : Proper ((≡) ==> iff) score_panics.
Proof.
  intros n n' Hn. unfold score_panics. rewrite (utilization_of_proper _ _ Hn). by destruct (equiv_fields _ _ Hn) as (_ & _ & _ & _ & ->).
Qed.

Lemma compute_node_score_spec {E} k az c self :
  wp (compute_node_score (E := E) S k az c) (λ r self', self' ≡ self ∧
    match r with
    | Ok o => o = (n ← self !! k; node_score az c k n) ∧ ∀ n, self !! k = Some n → ¬ score_panics n
    | Err _ => False
    | Panic => ∃ n, self !! k = Some n ∧ score_panics n
    end) self.
Proof.
  unfold compute_node_score, with_node, wp, score_panics, node_score. simpl.
  unfold mbind, ST_bind, st_get, st_put, st_lift, mret, ST_ret. simpl.
  destruct (self !! k) as [n|] eqn:Hk; simpl; [|naive_solver].
  rewrite generate_run, node_utilization_score_run. destruct (sn_may_schedule n) as [u|] eqn:Hm.
  - destruct (utilization_of n) as [s|] eqn:Hu; simpl.
    + split; [|split; [done|by intros n' [= <-] [_ ?]; congruence]].
      intros j. destruct (decide (j = k)) as [->|].
      * rewrite lookup_insert_eq, Hk. constructor. apply fill_node_equiv.
      * by rewrite lookup_insert_ne.
    + rewrite insert_id by done. split; [done|]. exists n. by rewrite Hm.
  - simpl. rewrite insert_id by done. split; [done|]. split; [unfold utilization_of; by rewrite Hm|].
    intros n' [= <-] [Hy _]. by rewrite Hm in Hy.
Qed.

(** The score that the node competes with, and that it cannot be computed *)
Definition candidate (hard_exclude : list NodeId) (az : option AvailabilityZone) (c : ScheduleContext)
    (self : Scheduler) (k : NodeId) : option S :=
  if bool_decide (k ∈ hard_exclude) then None else n ← self !! k; node_score az c k n.

Definition candidate_panics (hard_exclude : list NodeId) (self : Scheduler) (k : NodeId) : Prop :=
  k ∉ hard_exclude ∧ ∃ n, self !! k = Some n ∧ score_panics n.

Lemma candidate_equiv he az c self self' k :
  self' ≡ self → candidate he az c self' k = candidate he az c self k.
Proof.
  intros Hs. unfold candidate. case_bool_decide; [done|].
  destruct (Hs k) as [n n' Hn|]; [|done]. simpl. by apply node_score_proper.
Qed.

Lemma candidate_panics_equiv he self self' k :
  self' ≡ self → candidate_panics he self' k ↔ candidate_panics he self k.
Proof.
  intros Hs. unfold candidate_panics. f_equiv. destruct (Hs k) as [n n' Hn|]; [|done].
  split; intros (m & [= <-] & Hp); eexists; (split; [done|]); revert Hp; by apply score_panics_proper.
Qed.

Lemma scores_of_spec {E} he az c ks : ∀ self,
  wp (scores_of (E := E) S he az c ks) (λ r self', self' ≡ self ∧
    match r with
    | Ok l => l = omap (candidate he az c self) ks ∧ ∀ k, k ∈ ks → ¬ candidate_panics he self k
    | Err _ => False
    | Panic => ∃ k, k ∈ ks ∧ candidate_panics he self k
    end) self.
Proof.
  induction ks as [|k ks IH]; intros self; simpl scores_of.
  { split; [done|]. split; [done|]. intros k Hk. by apply elem_of_nil in Hk. }
  assert (Hhead : wp (if bool_decide (k ∈ he) then mret None else compute_node_score (E := E) S k az c)
    (λ r self1, self1 ≡ self ∧ match r with
      | Ok o => o = candidate he az c self k ∧ ¬ candidate_panics he self k
      | Err _ => False
      | Panic => candidate_panics he self k
      end) self).
  { unfold candidate, candidate_panics. case_bool_decide as Hk.
    - split; [done|]. split; [done|]. by intros [? _].
    - eapply wp_mono; [apply compute_node_score_spec|]. intros [o| |] self1 [Hs H1]; [| done |].
      + split; [done|]. destruct H1 as [-> Hn]. split; [done|]. intros (_ & n & ? & ?). by eapply Hn.
      + by split. }
  apply wp_bind. eapply wp_mono; [exact Hhead|]. intros [o| |] self1 [Hs H1]; [| done |].
  - destruct H1 as [-> Hnp]. apply wp_bind. eapply wp_mono; [apply IH|].
    intros [rest| |] self2 [Hs2 H2]; (split; [by etrans|]); simpl.
    + destruct H2 as [-> H2]. split.
      * rewrite (list_omap_ext _ (candidate he az c self) ks ks)
          by (apply Forall_Forall2_diag, Forall_true; intros; by apply candidate_equiv).
        by destruct (candidate he az c self k).
      * intros j [->|Hj]%elem_of_cons; [done|]. rewrite <- (candidate_panics_equiv _ _ _ _ Hs). by apply H2.
    + done.
    + destruct H2 as (j & Hj & Hp). exists j. split; [by right|].
      by rewrite <- (candidate_panics_equiv _ _ _ _ Hs).
  - split; [done|]. exists k. split; [by left|done].
Qed.

(** Nodes that are not overloaded come first, then the lower score. *)
Definition preferred (s s' : S) : Prop :=
  if score_is_overloaded s then score_is_overloaded s' = true ∧ score_le s s'
  else score_is_overloaded s' = true ∨ score_le s s'.

Lemma candidate_node_id he az c self k s : candidate he az c self k = Some s → score_node_id s = k.
Proof.
  unfold candidate, node_score. case_bool_decide; [done|]. destruct (self !! k) as [n|]; [|done]. simpl.
  destruct (utilization_of n); intros [= <-]. apply mk_score_node_id.
Qed.

Lemma candidate_None he az c self k n :
  ¬ candidate_panics he self k → candidate he az c self k = None → k ∉ he → self !! k = Some n →
  sn_may_schedule n = MayNo.
Proof.
  unfold candidate, candidate_panics, score_panics, node_score. intros Hp Hc Hk Hn.
  rewrite bool_decide_false, Hn in Hc by done. simpl in Hc. apply fmap_None in Hc.
  destruct (sn_may_schedule n) as [u|] eqn:Hm; [|done]. destruct Hp. split; [done|]. exists n.
  by rewrite Hm.
Qed.

(** The head of the list of scores that remain *)
Lemma best_of_scores (l : list S) :
  let ok := filter (λ i, score_is_overloaded i = false) l in
  match merge_sort score_le (match ok with [] => l | _ => ok end) with
  | [] => l = []
  | s :: _ => s ∈ l ∧ ∀ s', s' ∈ l → preferred s s'
  end.
Proof.
  intros ok. destruct (merge_sort _ _) as [|s l'] eqn:Hs.
  { pose proof (merge_sort_Permutation score_le (match ok with [] => l | _ => ok end)) as Hp.
    rewrite Hs in Hp. apply Permutation_nil_l in Hp. by destruct ok. }
  apply merge_sort_min in Hs as [Hin Hmin]; [|apply _..]. destruct ok as [|o ok'] eqn:Hok.
  - split; [done|]. intros s' Hs'. unfold preferred.
    assert (∀ x, x ∈ l → score_is_overloaded x = true) as Hall.
    { intros x Hx. destruct (score_is_overloaded x) eqn:Hxo; [done|].
      assert (x ∈ ok) as Hxx by (by apply list_elem_of_filter). rewrite Hok in Hxx.
      by apply elem_of_nil in Hxx. }
    rewrite Hall by done. by auto.
  - rewrite <- Hok in Hin, Hmin. apply list_elem_of_filter in Hin as [Ho Hin]. split; [done|].
    intros s' Hs'. unfold preferred. rewrite Ho. destruct (score_is_overloaded s') eqn:Ho'; [by left|].
    right. apply Hmin. by apply list_elem_of_filter.
Qed.

(** [k] is the candidate that is preferred to all others. *)
Definition best (he : list NodeId) (az : option AvailabilityZone) (c : ScheduleContext)
    (self : Scheduler) (k : NodeId) : Prop :=
  ∃ s, candidate he az c self k = Some s ∧
    ∀ k' s', candidate he az c self k' = Some s' → preferred s s'.

(** No tie is left to the order of the hash map: the identifiers differ. *)
Lemma best_unique he az c self k k' : best he az c self k → best he az c self k' → k' = k.
Proof.
  intros (s & Hs & Hb) (s' & Hs' & Hb').
  rewrite <- (candidate_node_id _ _ _ _ _ _ Hs), <- (candidate_node_id _ _ _ _ _ _ Hs').
  apply score_key_node_id. specialize (Hb _ _ Hs'). specialize (Hb' _ _ Hs). unfold preferred in *.
  apply lex_le_antisym; repeat case_match; naive_solver.
Qed.

Lemma candidate_Some he az c self k s :
  candidate he az c self k = Some s →
  k ∉ he ∧ ∃ n, self !! k = Some n ∧ is_may_yes (sn_may_schedule n) = true.
Proof.
  unfold candidate, node_score, utilization_of. case_bool_decide; [done|].
  destruct (self !! k) as [n|]; [|done]. simpl. intros Hs. split; [done|]. exists n. split; [done|].
  by destruct (sn_may_schedule n).
Qed.

(** What [schedule_shard] promises. *)
Definition schedule_shard_post (he : list NodeId) (az : option AvailabilityZone) (c : ScheduleContext)
    (self : Scheduler) (r : outcome ScheduleError NodeId) (self' : Scheduler) : Prop :=
  self' ≡ self ∧
  match r with
  | Ok k => best he az c self k ∧ ∀ j, ¬ candidate_panics he self j
  | Err NoPageservers => self = ∅
  | Err ImpossibleConstraint => self ≠ ∅ ∧
      ∀ k n, self !! k = Some n → k ∉ he → sn_may_schedule n = MayNo
  | Panic => ∃ k, candidate_panics he self k
  end.

Lemma elem_of_nodes self k n : self !! k = Some n → k ∈ (map_to_list self).*1.
Proof. intros Hn. apply list_elem_of_fmap. exists (k, n). split; [done|]. by apply elem_of_map_to_list. Qed.

Lemma schedule_shard_correct he az c self :
  wp (schedule_shard S he az c) (schedule_shard_post he az c self) self.
Proof.
  unfold schedule_shard. apply wp_bind, wp_get. case_bool_decide as He; [done|].
  apply wp_bind. unfold compute_node_scores. apply wp_bind, wp_get.
  eapply wp_mono; [apply scores_of_spec|]. intros [l| |] self' [Heq H1]; [|done|].
  - destruct H1 as [-> Hnp]. pose proof (best_of_scores (omap (candidate he az c self) (map_to_list self).*1)) as Hb.
    assert (Hin : ∀ k s, candidate he az c self k = Some s → k ∈ (map_to_list self).*1).
    { intros k s. unfold candidate. case_bool_decide; [done|]. destruct (self !! k) as [n|] eqn:Hn; [|done].
      intros _. by eapply elem_of_nodes. }
    simpl in Hb. destruct (merge_sort _ _) as [|s ?].
    + split; [done|]. split; [done|]. intros k n Hn Hk.
      eapply (candidate_None he az c); [by apply Hnp; eapply elem_of_nodes| |done..].
      destruct (candidate he az c self k) as [s|] eqn:Hc; [|done].
      assert (s ∈ omap (candidate he az c self) (map_to_list self).*1) as Hs
        by (apply list_elem_of_omap; eauto). rewrite Hb in Hs. by apply elem_of_nil in Hs.
    + destruct Hb as [Hs Hmin]. split; [done|]. apply list_elem_of_omap in Hs as (k & _ & Hk).
      rewrite (candidate_node_id _ _ _ _ _ _ Hk). split.
      * exists s. split; [done|]. intros k' s' Hs'. apply Hmin, list_elem_of_omap. eauto.
      * intros j Hj. refine (Hnp j _ Hj). destruct Hj as (_ & n & Hn & _).
        by eapply elem_of_nodes.
  - split; [done|]. destruct H1 as (k & _ & Hk). by exists k.
Qed.
End decision.

(** C19: [schedule_shard] changes nothing but filled caches.  It returns a node that is
    not excluded and may be scheduled, and of these the only one that is best: not
    overloaded if any is not, then by zone, affinity, utilization, number of shards and
    identifier.  It fails with [NoPageservers] exactly without nodes and with
    [ImpossibleConstraint] exactly when every node is excluded or may not be scheduled,
    and panics only when the utilization of a node that is not excluded has no score. *)
Theorem schedule_shard_best S `{NodeSchedulingScoreLaws S} he az c self :
  let '(r, self') := schedule_shard S he az c self in
  self' ≡ self ∧
  match r with
  | Ok k => k ∉ he ∧ (∃ n, self !! k = Some n ∧ is_may_yes (sn_may_schedule n) = true) ∧
      ∀ k', best S he az c self k' ↔ k' = k
  | Err NoPageservers => self = ∅
  | Err ImpossibleConstraint => self ≠ ∅ ∧
      ∀ k n, self !! k = Some n → k ∉ he → sn_may_schedule n = MayNo
  | Panic => ∃ k, candidate_panics he self k
  end.
Proof.
  pose proof (schedule_shard_correct S he az c self) as Hc. unfold wp, schedule_shard_post in Hc.
  destruct (schedule_shard S he az c self) as [r self']. destruct Hc as [Heq Hr]. split; [done|].
  destruct r as [k|e|]; [|done..]. destruct Hr as [Hb _]. pose proof Hb as (s & Hs & _).
  apply candidate_Some in Hs as [? ?]. split; [done|]. split; [done|].
  intros k'. split; [by apply best_unique|by intros ->].
Qed.

(** Three nodes in two zones; the second one is overloaded. *)
Definition test_node (id : NodeId) (shards : Z) (az : Z) : Node :=
  mkNode id (NodeActive (mkPageserverUtilization 500 500 100 100 shards 10 None)) NodeSchedActive [az] false.

Definition test_scheduler : Scheduler :=
  Scheduler_new [test_node 1 3 97; test_node 2 25 98; test_node 3 2 97].

Lemma schedule_shard_best_witness :
  (schedule_shard NodeAttachmentSchedulingScore [3] (Some [98]) (ScheduleContext_new ModeNormal)
     test_scheduler).1 = Ok 1 ∧
  best NodeAttachmentSchedulingScore [3] (Some [98]) (ScheduleContext_new ModeNormal) test_scheduler 1.
Proof.
  pose proof (schedule_shard_best NodeAttachmentSchedulingScore [3] (Some [98])
    (ScheduleContext_new ModeNormal) test_scheduler) as H.
  assert (Hr : (schedule_shard NodeAttachmentSchedulingScore [3] (Some [98]) (ScheduleContext_new ModeNormal)
     test_scheduler).1 = Ok 1) by (vm_compute; reflexivity).
  split; [exact Hr|]. destruct (schedule_shard _ _ _ _ _) as [r self']. simpl in Hr. subst r.
  destruct H as (_ & _ & _ & H). by apply H.
Defined.
