(* ===== verification/IntentState.v ===== *)
(** * The intent of a tenant shard, and the counts of the scheduler

    [IntentState] of [storage_controller/src/tenant_shard.rs]: the nodes that a shard
    shall be located on.  Every operation that changes an intent also updates the
    counts of the scheduler, which are nowhere stored and only rebuilt at start.  The
    development shows that the counts stay equal to what the intents of all shards
    amount to, so that [Scheduler::consistency_check] succeeds; what the check does
    not see is at the end. *)

From S2P Require Import Prelude Bytes Text Membership Scheduler.

Record IntentState := mkIntentState {
  is_attached : option NodeId;
  is_secondary : list NodeId;
  is_preferred_az_id : option AvailabilityZone;
}.
#[export] Instance IntentState_settable : Settable IntentState := λ i,
  mkIntentState (is_attached i) (is_secondary i) (is_preferred_az_id i).

#[export] Instance IntentState_eq_dec : EqDecision IntentState.
Proof. solve_decision. Defined.

(** Both the intent and the scheduler are borrowed mutably. *)
Abbreviation IS E A := (ST (IntentState * Scheduler) E A).

Definition IntentState_new (preferred_az_id : option AvailabilityZone) : IntentState :=
  mkIntentState None [] preferred_az_id.

Definition single (node_id : option NodeId) (preferred_az_id : option AvailabilityZone)
    (scheduler : Scheduler) : IntentState * Scheduler :=
  (mkIntentState node_id [] preferred_az_id,
   match node_id with
   | Some node_id => update_node_ref_counts node_id preferred_az_id Attach scheduler
   | None => scheduler
   end).

Section ops.
Context {E : Type}.

Definition get_intent : IS E IntentState := st ← st_get; mret st.1.

Definition modify_intent (f : IntentState → IntentState) : IS E unit :=
  st_modify (λ st, (f st.1, st.2)).

(** [scheduler.update_node_ref_counts(node_id, self.preferred_az_id.as_ref(), update)] *)
Definition update_refs (node_id : NodeId) (update : RefCountUpdate) : IS E unit :=
  st_modify (λ st, (st.1, update_node_ref_counts node_id (is_preferred_az_id st.1) update st.2)).

(** The same for each node of a list *)
Fixpoint update_refs_list (nodes : list NodeId) (update : RefCountUpdate) : IS E unit :=
  match nodes with
  | [] => mret tt
  | node_id :: nodes => _ ← update_refs node_id update; update_refs_list nodes update
  end.

Definition when_some {A} (o : option A) (f : A → IS E unit) : IS E unit :=
  match o with Some a => f a | None => mret tt end.

Definition set_attached (new_attached : option NodeId) : IS E unit :=
  self ← get_intent;
  _ ← if bool_decide (is_attached self = new_attached) then mret tt
      else
        _ ← when_some (is_attached self) (λ old_attached, update_refs old_attached Detach);
        _ ← when_some new_attached (λ new_attached, update_refs new_attached Attach);
        modify_intent (λ self, self <| is_attached := new_attached |>);
  when_some new_attached (λ new_attached, st_assert (bool_decide (new_attached ∉ is_secondary self))).

Definition promote_attached (promote_secondary : NodeId) : IS E unit :=
  self ← get_intent;
  _ ← modify_intent (λ self, self <| is_secondary := filter (λ n, n ≠ promote_secondary) (is_secondary self) |>);
  _ ← modify_intent (λ self, self <| is_attached := Some promote_secondary |>);
  _ ← update_refs promote_secondary PromoteSecondary;
  when_some (is_attached self) (λ demoted, update_refs demoted DemoteAttached).

Definition push_secondary (new_secondary : NodeId) : IS E unit :=
  self ← get_intent;
  _ ← st_assert (bool_decide (new_secondary ∉ is_secondary self));
  _ ← st_assert (bool_decide (is_attached self ≠ Some new_secondary));
  _ ← update_refs new_secondary AddSecondary;
  modify_intent (λ self, self <| is_secondary := is_secondary self ++ [new_secondary] |>).

(** [Vec::remove] at the first position of [node_id] *)
Fixpoint remove_first (node_id : NodeId) (l : list NodeId) : list NodeId :=
  match l with
  | [] => []
  | n :: l => if n =? node_id then l else n :: remove_first node_id l
  end.

Definition remove_secondary (node_id : NodeId) : IS E unit :=
  self ← get_intent;
  if bool_decide (node_id ∈ is_secondary self) then
    _ ← update_refs node_id RemoveSecondary;
    modify_intent (λ self, self <| is_secondary := remove_first node_id (is_secondary self) |>)
  else mret tt.

Definition clear_secondary : IS E unit :=
  self ← get_intent;
  _ ← update_refs_list (is_secondary self) RemoveSecondary;
  modify_intent (λ self, self <| is_secondary := [] |>).

Definition pop_secondary : IS E unit :=
  self ← get_intent;
  match last (is_secondary self) with
  | Some node_id =>
    _ ← modify_intent (λ self, self <| is_secondary := removelast (is_secondary self) |>);
    update_refs node_id RemoveSecondary
  | None => mret tt
  end.

Definition clear : IS E unit :=
  self ← get_intent;
  _ ← when_some (is_attached self) (λ old_attached,
    _ ← modify_intent (λ self, self <| is_attached := None |>);
    update_refs old_attached Detach);
  clear_secondary.

(** Whether a change was made *)
Definition demote_attached (node_id : NodeId) : IS E bool :=
  self ← get_intent;
  if bool_decide (is_attached self = Some node_id) then
    _ ← modify_intent (λ self, self <| is_attached := None |>);
    _ ← modify_intent (λ self, self <| is_secondary := is_secondary self ++ [node_id] |>);
    _ ← update_refs node_id DemoteAttached;
    mret true
  else mret false.

(** [update_node_ref_counts] with the new zone, while [self] has the old one *)
Definition change_az_refs (new_az : option AvailabilityZone) (node_id : NodeId) : IS E unit :=
  st_modify (λ st, (st.1,
    update_node_ref_counts node_id new_az (ChangePreferredAzFrom (is_preferred_az_id st.1)) st.2)).

Fixpoint change_az_refs_list (new_az : option AvailabilityZone) (nodes : list NodeId) : IS E unit :=
  match nodes with
  | [] => mret tt
  | node_id :: nodes => _ ← change_az_refs new_az node_id; change_az_refs_list new_az nodes
  end.

Definition set_preferred_az (preferred_az : option AvailabilityZone) : IS E unit :=
  self ← get_intent;
  if bool_decide (is_preferred_az_id self = preferred_az) then mret tt
  else
    _ ← when_some (is_attached self) (change_az_refs preferred_az);
    _ ← change_az_refs_list preferred_az (is_secondary self);
    modify_intent (λ self, self <| is_preferred_az_id := preferred_az |>).
End ops.

Definition all_pageservers (self : IntentState) : list NodeId :=
  option_list (is_attached self) ++ is_secondary self.

(** ** [Scheduler::consistency_check] *)

Inductive CheckError := NonexistentNode (n : NodeId) | NotFoundInSelf (n : NodeId)
  | InconsistentState (n : NodeId) | NotExpected (n : NodeId).

Definition count_location (attached : bool) (preferred_az : option AvailabilityZone) (node_id : NodeId)
    (expect_nodes : Scheduler) : outcome CheckError Scheduler :=
  match expect_nodes !! node_id with
  | Some node =>
    Ok (<[node_id := node <| sn_shard_count := inc (sn_shard_count node) |>
          <| sn_attached_shard_count := inc_if attached (sn_attached_shard_count node) |>
          <| sn_home_shard_count :=
            inc_if (bool_decide (Some (sn_az node) = preferred_az)) (sn_home_shard_count node) |>]> expect_nodes)
  | None => Err (NonexistentNode node_id)
  end.

Fixpoint count_secondaries (preferred_az : option AvailabilityZone) (nodes : list NodeId)
    (expect_nodes : Scheduler) : outcome CheckError Scheduler :=
  match nodes with
  | [] => Ok expect_nodes
  | node_id :: nodes =>
    expect_nodes ← count_location false preferred_az node_id expect_nodes;
    count_secondaries preferred_az nodes expect_nodes
  end.

Fixpoint count_shards (shards : list IntentState) (expect_nodes : Scheduler) :
    outcome CheckError Scheduler :=
  match shards with
  | [] => Ok expect_nodes
  | shard :: shards =>
    expect_nodes ←
      match is_attached shard with
      | Some node_id => count_location true (is_preferred_az_id shard) node_id expect_nodes
      | None => Ok expect_nodes
      end;
    expect_nodes ← count_secondaries (is_preferred_az_id shard) (is_secondary shard) expect_nodes;
    count_shards shards expect_nodes
  end.

Fixpoint compare_nodes (expect_nodes : list (NodeId * SchedulerNode)) (self : Scheduler) :
    outcome CheckError unit :=
  match expect_nodes with
  | [] => Ok tt
  | (node_id, expect_node) :: expect_nodes =>
    match self !! node_id with
    | None => Err (NotFoundInSelf node_id)
    | Some self_node =>
      if SchedulerNode_eq self_node expect_node then compare_nodes expect_nodes self
      else Err (InconsistentState node_id)
    end
  end.

Definition consistency_check (nodes : list Node) (shards : list IntentState) (self : Scheduler) :
    outcome CheckError unit :=
  expect_nodes ← count_shards shards (Scheduler_new nodes);
  _ ← compare_nodes (map_to_list expect_nodes) self;
  if negb (size expect_nodes =? size self)%nat then
    match filter (λ k, expect_nodes !! k = None) (map_to_list self).*1 with
    | node_id :: _ => Err (NotExpected node_id)
    | [] => Ok tt
    end
  else Ok tt.

(** ** The counts that the intents amount to *)

Inductive counter := CShards | CAttached | CHome.

Definition cnt (w : counter) (n : SchedulerNode) : Z :=
  match w with
  | CShards => sn_shard_count n
  | CAttached => sn_attached_shard_count n
  | CHome => sn_home_shard_count n
  end.

Definition b2z (b : bool) : Z := if b then 1 else 0.

(** How often [k] is in [l] *)
Definition occ (k : NodeId) (l : list NodeId) : Z := Zsum (λ j, b2z (bool_decide (j = k))) l.

(** What one intent adds to the counter [w] of the node [k] in the zone [az] *)
Definition contrib (w : counter) (k : NodeId) (az : AvailabilityZone) (I : IntentState) : Z :=
  match w with
  | CShards => occ k (all_pageservers I)
  | CAttached => b2z (bool_decide (is_attached I = Some k))
  | CHome => b2z (bool_decide (is_preferred_az_id I = Some az)) * occ k (all_pageservers I)
  end.

(** The counters of the nodes in [D], as those of [usize], are given by [F]. *)
Definition counted (D : NodeId → Prop) (F : counter → NodeId → AvailabilityZone → Z) (s : Scheduler) : Prop :=
  ∀ w k n, D k → s !! k = Some n → cnt w n = wrap 64 (F w k (sn_az n)).

Definition accounted (D : NodeId → Prop) (Is : list IntentState) : Scheduler → Prop :=
  counted D (λ w k az, Zsum (contrib w k az) Is).

Definition all_nodes : NodeId → Prop := λ _, True.

(** The effect of an update on the counters of its node *)
Definition effect (az' : option AvailabilityZone) (u : RefCountUpdate) (w : counter)
    (az : AvailabilityZone) : Z :=
  let home := b2z (bool_decide (az' = Some az)) in
  match u, w with
  | PromoteSecondary, CAttached => 1
  | Attach, (CShards | CAttached) => 1
  | Attach, CHome => home
  | Detach, (CShards | CAttached) => -1
  | Detach, CHome => - home
  | DemoteAttached, CAttached => -1
  | AddSecondary, CShards => 1
  | AddSecondary, CHome => home
  | RemoveSecondary, CShards => -1
  | RemoveSecondary, CHome => - home
  | ChangePreferredAzFrom old, CHome => home - b2z (bool_decide (old = Some az))
  | _, _ => 0
  end.

Lemma inc_wrap x : inc (wrap 64 x) = wrap 64 (x + 1).
Proof. unfold inc, wrapping_add, wrap. by rewrite Zplus_mod_idemp_l. Qed.
Lemma dec_wrap x : dec (wrap 64 x) = wrap 64 (x - 1).
Proof. unfold dec, wrapping_sub, wrap. by rewrite Zminus_mod_idemp_l. Qed.
Lemma inc_if_wrap b x : inc_if b (wrap 64 x) = wrap 64 (x + b2z b).
Proof. destruct b; simpl; [apply inc_wrap|by rewrite Z.add_0_r]. Qed.
Lemma dec_if_wrap b x : dec_if b (wrap 64 x) = wrap 64 (x - b2z b).
Proof. destruct b; simpl; [apply dec_wrap|by rewrite Z.sub_0_r]. Qed.

Lemma bool_decide_sym {A} `{EqDecision A} (x y : A) : bool_decide (x = y) = bool_decide (y = x).
Proof. by apply bool_decide_ext. Qed.

Lemma update_node_az az' u n : sn_az (update_node az' u n) = sn_az n.
Proof. by destruct u. Qed.

Lemma update_node_cnt az' u w n x :
  cnt w n = wrap 64 x → cnt w (update_node az' u n) = wrap 64 (x + effect az' u w (sn_az n)).
Proof.
  intros Hx. unfold update_node. rewrite (bool_decide_sym (Some (sn_az n))).
  destruct u, w; simpl in *; rewrite ?Hx, ?(bool_decide_sym (Some (sn_az n)));
    rewrite ?dec_if_wrap, ?inc_if_wrap, ?inc_wrap, ?dec_wrap; f_equal; lia.
Qed.

Lemma update_refs_lookup k az' u s j :
  update_node_ref_counts k az' u s !! j =
    if bool_decide (j = k) then update_node az' u <$> s !! j else s !! j.
Proof.
  unfold update_node_ref_counts. case_bool_decide as Hj; subst.
  - destruct (s !! k) eqn:Hk; [by rewrite lookup_insert_eq|by rewrite Hk].
  - destruct (s !! k); [by rewrite lookup_insert_ne|done].
Qed.

(** An update moves the counters by its effect. *)
Lemma counted_update D F k az' u s :
  counted D F s →
  counted D (λ w j az, F w j az + b2z (bool_decide (k = j)) * effect az' u w az)
    (update_node_ref_counts k az' u s).
Proof.
  intros HF w j n' HD. rewrite update_refs_lookup, (bool_decide_sym j k). case_bool_decide as Hj; simpl.
  - intros (n & Hn & ->)%fmap_Some. rewrite update_node_az, Z.mul_1_l. by apply update_node_cnt, HF.
  - intros Hn. rewrite Z.add_0_r. by apply HF.
Qed.

Lemma counted_ext D F G s : counted D F s → (∀ w k az, F w k az = G w k az) → counted D G s.
Proof. intros HF HG w k n HD Hn. rewrite <- HG. by apply HF. Qed.

(** What the counters do not say of a node: its zone and whether it may be scheduled *)
Definition skel (s : Scheduler) : gmap NodeId (AvailabilityZone * bool) :=
  (λ n, (sn_az n, is_may_yes (sn_may_schedule n))) <$> s.

Lemma skel_update k az' u s : skel (update_node_ref_counts k az' u s) = skel s.
Proof.
  apply map_eq. intros j. unfold skel. rewrite !lookup_fmap, update_refs_lookup.
  case_bool_decide; [|done]. destruct (s !! j) as [n|]; [|done]. simpl. do 2 f_equal.
  - apply update_node_az.
  - destruct n as [? ? ? ? []]; by destruct u.
Qed.

Lemma occ_cons k j l : occ k (j :: l) = b2z (bool_decide (j = k)) + occ k l.
Proof. done. Qed.
Lemma occ_app k l l' : occ k (l ++ l') = occ k l + occ k l'.
Proof. apply Zsum_app. Qed.
Lemma occ_nil k : occ k [] = 0.
Proof. done. Qed.

Lemma occ_remove_first k j l : j ∈ l → occ k (remove_first j l) = occ k l - b2z (bool_decide (j = k)).
Proof.
  induction l as [|i l IH]; [by intros ?%elem_of_nil|]. simpl. destruct (Z.eqb_spec i j) as [->|Hij].
  - intros _. rewrite occ_cons. lia.
  - rewrite elem_of_cons, !occ_cons. intros [?|Hj]; [congruence|]. rewrite IH by done. lia.
Qed.

Lemma occ_filter_ne k j l : NoDup l → j ∈ l → occ k (filter (λ n, n ≠ j) l) = occ k l - b2z (bool_decide (j = k)).
Proof.
  intros Hnd Hj. rewrite <- (occ_remove_first k j l Hj). f_equal.
  clear Hj. induction Hnd as [|i l Hi _ IH]; [done|]. rewrite filter_cons. simpl.
  destruct (Z.eqb_spec i j) as [->|]; [|by rewrite decide_True, IH].
  rewrite decide_False by auto. apply filter_all, Forall_forall. by intros x Hx ->.
Qed.

Lemma occ_removelast k l x : last l = Some x → occ k (removelast l) = occ k l - b2z (bool_decide (x = k)).
Proof.
  intros (l' & ->)%last_Some. rewrite removelast_last, occ_app, occ_cons, occ_nil. lia.
Qed.

Lemma bool_decide_Some {A} `{EqDecision A} (x y : A) : bool_decide (Some x = Some y) = bool_decide (x = y).
Proof. apply bool_decide_ext. naive_solver. Qed.

(** Compare the contributions of two intents with the effects of the updates. *)
Ltac count_solve :=
  let w := fresh "w" in intros w ? ?; rewrite ?Zsum_cons; destruct w; unfold contrib, effect, all_pageservers; simpl;
  rewrite ?occ_app, ?occ_cons, ?occ_nil, ?bool_decide_Some;
  repeat match goal with H : is_attached _ = _ |- _ => rewrite H; clear H end;
  simpl; rewrite ?occ_app, ?occ_cons, ?occ_nil, ?bool_decide_Some; try ring.

(** ** The operations keep the counts *)

(** A shard is located at most once on a node. *)
Definition intent_wf (I : IntentState) : Prop := NoDup (all_pageservers I).

(** The scheduler is changed by updates of counts only. *)
Inductive updated : Scheduler → Scheduler → Prop :=
| updated_refl s : updated s s
| updated_step s s' k az' u : updated s s' → updated s (update_node_ref_counts k az' u s').

Lemma updated_skel s s' : updated s s' → skel s' = skel s.
Proof. induction 1 as [|s s' k az' u _ IH]; [done|]. by rewrite skel_update. Qed.

Lemma updated_list az' u l : ∀ s s',
  updated s s' → updated s (foldl (λ s k, update_node_ref_counts k az' u s) s' l).
Proof. induction l as [|k l IH]; intros s s' Hs; simpl; [done|]. by apply IH, updated_step. Qed.

#[export] Hint Resolve updated_refl updated_step updated_list : neon.

(** The intent is now [I'], and the counts are those of [I'] and the intents [Is] of the
    other shards. *)
Definition tracks (D : NodeId → Prop) (Is : list IntentState) (s : Scheduler) (I' : IntentState)
    (st' : IntentState * Scheduler) : Prop :=
  st'.1 = I' ∧ updated s st'.2 ∧ accounted D (I' :: Is) st'.2.

Lemma tracks_refl D Is I s : accounted D (I :: Is) s → tracks D Is s I (I, s).
Proof. intros. split; [done|]. auto with neon. Qed.

Ltac tracks_solve H :=
  split; [reflexivity|]; split; [simpl; auto with neon|];
  eapply counted_ext; [simpl; repeat eapply counted_update; exact H|count_solve].

(** Execute an operation. *)
Tactic Notation "run_intent" reference(op) :=
  unfold wp, op, get_intent, when_some, update_refs, modify_intent, st_assert;
  unfold mbind, ST_bind, st_get, st_modify, mret, ST_ret; simpl.

Section specs.
Context {E : Type} (D : NodeId → Prop) (Is : list IntentState) (I : IntentState) (s : Scheduler).
Hypothesis Hacc : accounted D (I :: Is) s.

Lemma set_attached_spec new :
  match new with Some k => k ∉ is_secondary I | None => True end →
  wp (set_attached (E := E) new) (λ r st', r = Ok tt ∧ tracks D Is s (I <| is_attached := new |>) st') (I, s).
Proof using Hacc.
  intros Hnew. run_intent set_attached.
  case_bool_decide as Heq; simpl.
  - subst new. assert (HI : I <| is_attached := is_attached I |> = I) by (by destruct I).
    rewrite HI. destruct (is_attached I); simpl; [rewrite bool_decide_true by done|];
      (split; [done|by apply tracks_refl]).
  - destruct (is_attached I) as [old|] eqn:Hold, new as [new|]; simpl;
      rewrite ?bool_decide_true by done; simpl; (split; [done|]); tracks_solve Hacc.
Qed.

(** It is called when nothing is attached: see [promote_attached_leaks]. *)
Lemma promote_attached_spec k :
  NoDup (is_secondary I) → k ∈ is_secondary I → is_attached I = None →
  wp (promote_attached (E := E) k) (λ r st', r = Ok tt ∧
    tracks D Is s (I <| is_secondary := filter (λ n, n ≠ k) (is_secondary I) |> <| is_attached := Some k |>) st')
    (I, s).
Proof using Hacc.
  intros Hnd Hk Hatt. run_intent promote_attached. rewrite Hatt. simpl. split; [done|].
  split; [reflexivity|]. split; [simpl; auto with neon|].
  eapply counted_ext; [apply counted_update, Hacc|].
  count_solve; rewrite occ_filter_ne by done; simpl; ring.
Qed.

Lemma push_secondary_spec k :
  k ∉ all_pageservers I →
  wp (push_secondary (E := E) k) (λ r st', r = Ok tt ∧
    tracks D Is s (I <| is_secondary := is_secondary I ++ [k] |>) st') (I, s).
Proof using Hacc.
  intros [Hatt Hk]%not_elem_of_app. run_intent push_secondary.
  rewrite bool_decide_true by done. simpl. rewrite bool_decide_true.
  2:{ intros Ha. rewrite Ha in Hatt. apply Hatt. by left. }
  simpl. split; [done|]. tracks_solve Hacc.
Qed.

Lemma remove_secondary_spec k :
  wp (remove_secondary (E := E) k) (λ r st', r = Ok tt ∧
    tracks D Is s (I <| is_secondary := remove_first k (is_secondary I) |>) st') (I, s).
Proof using Hacc.
  run_intent remove_secondary. case_bool_decide as Hk; simpl; (split; [done|]).
  - split; [reflexivity|]. split; [simpl; auto with neon|].
    eapply counted_ext; [apply counted_update, Hacc|]. count_solve; rewrite occ_remove_first by done; ring.
  - assert (Hrm : remove_first k (is_secondary I) = is_secondary I).
    { clear Hacc. induction (is_secondary I) as [|j l IH]; [done|]. simpl.
      apply not_elem_of_cons in Hk as [Hkj Hk]. destruct (Z.eqb_spec j k); [congruence|]. by rewrite IH. }
    rewrite Hrm. replace (I <| is_secondary := is_secondary I |>) with I by (by destruct I).
    by apply tracks_refl.
Qed.

Lemma pop_secondary_spec :
  wp (pop_secondary (E := E)) (λ r st', r = Ok tt ∧
    tracks D Is s (I <| is_secondary := removelast (is_secondary I) |>) st') (I, s).
Proof using Hacc.
  run_intent pop_secondary. destruct (last (is_secondary I)) as [k|] eqn:Hl; simpl; (split; [done|]).
  - split; [reflexivity|]. split; [simpl; auto with neon|].
    eapply counted_ext; [apply counted_update, Hacc|]. count_solve; rewrite (occ_removelast _ _ _ Hl); ring.
  - apply last_None in Hl. destruct I; simpl in *; subst. by apply tracks_refl.
Qed.

Lemma demote_attached_spec k :
  wp (demote_attached (E := E) k) (λ r st', r = Ok (bool_decide (is_attached I = Some k)) ∧
    tracks D Is s (if bool_decide (is_attached I = Some k)
      then I <| is_attached := None |> <| is_secondary := is_secondary I ++ [k] |> else I) st') (I, s).
Proof using Hacc.
  run_intent demote_attached. case_bool_decide as Hk; simpl; (split; [done|]); [|by apply tracks_refl].
  tracks_solve Hacc.
Qed.

Lemma update_refs_list_run l u st :
  update_refs_list (E := E) l u st =
    (Ok tt, (st.1, foldl (λ s k, update_node_ref_counts k (is_preferred_az_id st.1) u s) st.2 l)).
Proof.
  revert st. induction l as [|k l IH]; intros [I0 s0]; [done|].
  simpl. unfold mbind, ST_bind, update_refs, st_modify. simpl. by rewrite IH.
Qed.

Lemma change_az_refs_list_run az' l st :
  change_az_refs_list (E := E) az' l st =
    (Ok tt, (st.1, foldl (λ s k,
      update_node_ref_counts k az' (ChangePreferredAzFrom (is_preferred_az_id st.1)) s) st.2 l)).
Proof.
  revert st. induction l as [|k l IH]; intros [I0 s0]; [done|].
  simpl. unfold mbind, ST_bind, change_az_refs, st_modify. simpl. by rewrite IH.
Qed.
End specs.

Lemma counted_updates D az' u l : ∀ F s,
  counted D F s →
  counted D (λ w j az, F w j az + occ j l * effect az' u w az)
    (foldl (λ s k, update_node_ref_counts k az' u s) s l).
Proof.
  induction l as [|k l IH]; intros F s HF; simpl.
  - eapply counted_ext; [exact HF|]. intros. rewrite occ_nil. ring.
  - eapply counted_ext; [eapply IH, counted_update, HF|]. intros. simpl. rewrite occ_cons. ring.
Qed.

Section specs2.
Context {E : Type} (D : NodeId → Prop) (Is : list IntentState) (I : IntentState) (s : Scheduler).
Hypothesis Hacc : accounted D (I :: Is) s.

Lemma clear_secondary_spec :
  wp (clear_secondary (E := E)) (λ r st', r = Ok tt ∧ tracks D Is s (I <| is_secondary := [] |>) st') (I, s).
Proof using Hacc.
  run_intent clear_secondary. rewrite update_refs_list_run. simpl. split; [done|].
  split; [reflexivity|]. split; [simpl; auto with neon|].
  eapply counted_ext; [apply counted_updates, Hacc|]. count_solve.
Qed.

Lemma clear_spec :
  wp (clear (E := E)) (λ r st', r = Ok tt ∧
    tracks D Is s (I <| is_attached := None |> <| is_secondary := [] |>) st') (I, s).
Proof using Hacc.
  run_intent clear. unfold clear_secondary, get_intent, modify_intent, mbind, ST_bind, st_get, st_modify, mret, ST_ret.
  destruct (is_attached I) as [k|] eqn:Ha; simpl; rewrite update_refs_list_run; simpl; (split; [done|]);
    (split; [by destruct I; simpl in *; subst|]); (split; [simpl; auto with neon|]);
    (eapply counted_ext; [apply counted_updates; try apply counted_update; exact Hacc|]); count_solve.
Qed.

Lemma set_preferred_az_spec az' :
  wp (set_preferred_az (E := E) az') (λ r st', r = Ok tt ∧
    tracks D Is s (I <| is_preferred_az_id := az' |>) st') (I, s).
Proof using Hacc.
  run_intent set_preferred_az. case_bool_decide as Haz; simpl.
  { split; [done|]. subst az'.
    replace (I <| is_preferred_az_id := is_preferred_az_id I |>) with I by (by destruct I). by apply tracks_refl. }
  unfold change_az_refs, st_modify.
  destruct (is_attached I) as [k|] eqn:Ha; simpl; rewrite change_az_refs_list_run; simpl; (split; [done|]);
    (split; [done|]); (split; [simpl; auto with neon|]);
    (eapply counted_ext; [apply counted_updates; try apply counted_update; exact Hacc|]); count_solve.
Qed.
End specs2.

(** Called with a node attached, [promote_attached] forgets the old one but leaves it
    counted. *)
Example promote_attached_leaks :
  let '(i, s) := single (Some 1) None (Scheduler_new [test_node 1 0 97; test_node 2 0 97]) in
  let st := (promote_attached (E := Empty_set) 2 (push_secondary (E := Empty_set) 2 (i, s)).2).2 in
  all_pageservers st.1 = [2] ∧ sn_shard_count <$> st.2 !! 1 = Some 1.
Proof. vm_compute. done. Qed.

(** *** The check *)

Lemma count_location_spec att az' k F s :
  counted all_nodes F s →
  match count_location att az' k s with
  | Ok s' => skel s' = skel s ∧ is_Some (s !! k) ∧ counted all_nodes (λ w j az, F w j az + b2z (bool_decide (k = j)) *
      match w with CShards => 1 | CAttached => b2z att | CHome => b2z (bool_decide (az' = Some az)) end) s'
  | Err e => e = NonexistentNode k ∧ s !! k = None
  | Panic => False
  end.
Proof.
  intros HF. unfold count_location. destruct (s !! k) as [n|] eqn:Hk; [|done]. split; [|split; [done|]].
  - apply map_eq. intros j. unfold skel. rewrite !lookup_fmap.
    destruct (decide (j = k)) as [->|]; [by rewrite lookup_insert_eq, Hk|by rewrite lookup_insert_ne].
  - intros w j n' _. destruct (decide (j = k)) as [->|].
    + rewrite lookup_insert_eq, (bool_decide_true (k = k)) by done. intros [= <-]. specialize (HF w k n Logic.I Hk).
      destruct w; simpl in *; rewrite HF, ?inc_wrap, ?inc_if_wrap, ?(bool_decide_sym (Some _)); f_equal; lia.
    + rewrite lookup_insert_ne, (bool_decide_false (k = j)) by done. intros Hn.
      rewrite Z.mul_0_l, Z.add_0_r. by apply HF.
Qed.

Lemma skel_None s s' k : skel s = skel s' → s !! k = None → s' !! k = None.
Proof.
  intros Hs Hk. assert (Hl : skel s !! k = skel s' !! k) by (by rewrite Hs). unfold skel in Hl.
  rewrite !lookup_fmap, Hk in Hl. by destruct (s' !! k).
Qed.

Lemma skel_known s s' k : skel s = skel s' → is_Some (s !! k) ↔ is_Some (s' !! k).
Proof.
  intros Hs. rewrite <- !not_eq_None_Some. split; intros H1 H2; apply H1; by eapply skel_None.
Qed.

(** The nodes of an intent exist. *)
Definition known (s : Scheduler) (I : IntentState) : Prop :=
  ∀ k, k ∈ all_pageservers I → is_Some (s !! k).

Lemma count_secondaries_spec az' l : ∀ F s,
  counted all_nodes F s →
  match count_secondaries az' l s with
  | Ok s' => skel s' = skel s ∧ (∀ k, k ∈ l → is_Some (s !! k)) ∧ counted all_nodes (λ w j az, F w j az + occ j l *
      match w with CShards => 1 | CAttached => 0 | CHome => b2z (bool_decide (az' = Some az)) end) s'
  | Err e => ∃ k, k ∈ l ∧ e = NonexistentNode k ∧ s !! k = None
  | Panic => False
  end.
Proof.
  induction l as [|k l IH]; intros F s HF; simpl.
  - split; [done|]. split; [by intros k ?%elem_of_nil|]. eapply counted_ext; [exact HF|].
    intros. rewrite occ_nil. ring.
  - pose proof (count_location_spec false az' k F s HF) as H1. unfold mbind.
    destruct (count_location _ _ _ _) as [s1|e|]; simpl; [|destruct H1; exists k; set_solver|done].
    destruct H1 as (Hs1 & Hk & Hc1). specialize (IH _ _ Hc1).
    destruct (count_secondaries _ _ _) as [s2|e|]; [| |done].
    + destruct IH as (Hs2 & Hl & Hc2). split; [congruence|]. split.
      * intros j [->|Hj]%elem_of_cons; [done|]. apply (skel_known s1 s j Hs1). auto.
      * eapply counted_ext; [exact Hc2|]. intros w j az. simpl. rewrite occ_cons. destruct w; simpl; ring.
    + destruct IH as (j & Hj & -> & Hn). exists j. split; [by right|]. split; [done|].
      by apply (skel_None s1).
Qed.

Lemma count_attached_spec I F s :
  counted all_nodes F s →
  match (match is_attached I with
      | Some k => count_location true (is_preferred_az_id I) k s | None => Ok s end) with
  | Ok s' => skel s' = skel s ∧ (∀ k, k ∈ option_list (is_attached I) → is_Some (s !! k)) ∧
      counted all_nodes (λ w j az, F w j az + occ j (option_list (is_attached I)) *
        match w with CShards | CAttached => 1 | CHome => b2z (bool_decide (is_preferred_az_id I = Some az)) end) s'
  | Err e => ∃ k, k ∈ option_list (is_attached I) ∧ e = NonexistentNode k ∧ s !! k = None
  | Panic => False
  end.
Proof.
  intros HF. destruct (is_attached I) as [k|]; simpl.
  - pose proof (count_location_spec true (is_preferred_az_id I) k F s HF) as H1.
    destruct (count_location _ _ _ _) as [s1|e|]; [|exists k; set_solver|done].
    destruct H1 as (Hs1 & Hk & Hc1). split; [done|]. split; [set_solver|].
    eapply counted_ext; [exact Hc1|]. intros w j az. simpl. rewrite occ_cons, occ_nil. destruct w; simpl; ring.
  - split; [done|]. split; [set_solver|]. eapply counted_ext; [exact HF|]. intros. rewrite occ_nil. ring.
Qed.

Lemma count_shards_spec Is : ∀ F s,
  counted all_nodes F s →
  match count_shards Is s with
  | Ok s' => skel s' = skel s ∧ Forall (known s) Is ∧
      counted all_nodes (λ w j az, F w j az + Zsum (contrib w j az) Is) s'
  | Err e => ∃ I k, I ∈ Is ∧ k ∈ all_pageservers I ∧ e = NonexistentNode k ∧ s !! k = None
  | Panic => False
  end.
Proof.
  induction Is as [|I Is IH]; intros F s HF; simpl count_shards.
  { split; [done|]. split; [done|]. eapply counted_ext; [exact HF|]. intros. symmetry. apply Z.add_0_r. }
  pose proof (count_attached_spec I F s HF) as Hatt.
  unfold mbind. destruct (match is_attached I with Some _ => _ | None => _ end) as [s1|e|]; simpl; [| |done].
  2:{ destruct Hatt as (k & Hk & ? & ?). exists I, k. unfold all_pageservers. set_solver. }
  destruct Hatt as (Hs1 & Hk1 & Hc1).
  pose proof (count_secondaries_spec (is_preferred_az_id I) (is_secondary I) _ _ Hc1) as Hsec.
  destruct (count_secondaries _ _ _) as [s2|e|]; simpl; [| |done].
  2:{ destruct Hsec as (k & Hk & ? & Hn). exists I, k. unfold all_pageservers.
      apply (skel_None _ _ _ Hs1) in Hn. set_solver. }
  destruct Hsec as (Hs2 & Hk2 & Hc2). specialize (IH _ _ Hc2).
  destruct (count_shards _ _) as [s3|e|]; [| |done].
  - destruct IH as (Hs3 & Hk3 & Hc3). split; [congruence|]. split.
    + constructor.
      * intros k [Hk|Hk]%elem_of_app; [by apply Hk1|]. apply (skel_known s1 s k Hs1). auto.
      * eapply Forall_impl; [exact Hk3|]. intros J HJ k Hk. apply (skel_known s2 s k); [congruence|]. auto.
    + eapply counted_ext; [exact Hc3|].
      intros w j az. rewrite Zsum_cons. destruct w; unfold contrib, all_pageservers; simpl; rewrite ?occ_app; try ring.
      destruct (is_attached I) as [k|]; simpl; rewrite ?occ_cons, ?occ_nil, ?bool_decide_Some; simpl; ring.
  - destruct IH as (J & k & HJ & Hk & ? & Hn). exists J, k. apply (skel_None _ s1) in Hn; [|done].
    apply (skel_None _ s) in Hn; [|done]. set_solver.
Qed.

(** The counters of shards and attached shards are those of the intents. *)
Definition checked (Is : list IntentState) (s : Scheduler) : Prop :=
  ∀ k n, s !! k = Some n →
    sn_shard_count n = wrap 64 (Zsum (contrib CShards k (sn_az n)) Is) ∧
    sn_attached_shard_count n = wrap 64 (Zsum (contrib CAttached k (sn_az n)) Is).

Lemma accounted_checked Is s : accounted all_nodes Is s → checked Is s.
Proof. intros H k n Hk. split; [apply (H CShards)|apply (H CAttached)]; done. Qed.

Lemma Scheduler_new_counted nodes : counted all_nodes (λ _ _ _, 0) (Scheduler_new nodes).
Proof.
  unfold Scheduler_new. assert (Hgen : ∀ s, counted all_nodes (λ _ _ _, 0) s →
    counted all_nodes (λ _ _ _, 0) (foldl (λ m node, <[n_id node := SchedulerNode_of node]> m) s nodes)); [|by apply Hgen].
  induction nodes as [|node nodes IH]; intros s Hs; simpl; [done|]. apply IH. intros w k n _.
  destruct (decide (k = n_id node)) as [->|].
  - rewrite lookup_insert_eq. intros [= <-]. by destruct w.
  - rewrite lookup_insert_ne by done. by apply Hs.
Qed.

Lemma SchedulerNode_eq_spec n n' :
  SchedulerNode_eq n n' = true ↔
  is_may_yes (sn_may_schedule n) = is_may_yes (sn_may_schedule n') ∧ sn_shard_count n = sn_shard_count n' ∧
  sn_attached_shard_count n = sn_attached_shard_count n' ∧ sn_az n = sn_az n'.
Proof.
  unfold SchedulerNode_eq. rewrite !andb_true_iff, !Z.eqb_eq, bool_decide_eq_true.
  destruct (sn_may_schedule n), (sn_may_schedule n'); simpl; naive_solver.
Qed.

Lemma compare_nodes_spec l s :
  compare_nodes l s = Ok tt ↔
  ∀ k n', (k, n') ∈ l → ∃ n, s !! k = Some n ∧ SchedulerNode_eq n n' = true.
Proof.
  induction l as [|[k n'] l IH]; simpl.
  { split; [|done]. intros _ k n' Hk. by apply elem_of_nil in Hk. }
  destruct (s !! k) as [n|] eqn:Hk; [destruct (SchedulerNode_eq n n') eqn:He|].
  - rewrite IH. split; intros H j m' Hj; [|by apply H; right].
    apply elem_of_cons in Hj as [[= -> ->]|Hj]; [by exists n|by apply H].
  - split; [done|]. intros H. destruct (H k n') as (m & ? & ?); [by left|congruence].
  - split; [done|]. intros H. destruct (H k n') as (m & ? & ?); [by left|congruence].
Qed.

Lemma compare_nodes_ok l s : compare_nodes l s = Ok tt ∨ ∃ e, compare_nodes l s = Err e.
Proof. induction l as [|[k n] l IH]; simpl; [by left|]. repeat case_match; eauto. Qed.

(** The comparison of the maps as a whole *)
Lemma compare_maps (s s' : Scheduler) :
  compare_nodes (map_to_list s') s = Ok tt ∧ (∀ k, is_Some (s !! k) → is_Some (s' !! k)) ↔
  skel s = skel s' ∧ (∀ k n n', s !! k = Some n → s' !! k = Some n' →
    sn_shard_count n = sn_shard_count n' ∧ sn_attached_shard_count n = sn_attached_shard_count n').
Proof.
  rewrite compare_nodes_spec. split.
  - intros [H Hdom]. split.
    + apply map_eq. intros k. unfold skel. rewrite !lookup_fmap. destruct (s' !! k) as [n'|] eqn:Hk'.
      * destruct (H k n') as (n & -> & (Hm & _ & _ & Haz)%SchedulerNode_eq_spec);
          [by apply elem_of_map_to_list|]. simpl. congruence.
      * destruct (s !! k) eqn:Hk; [|done]. destruct (Hdom k) as [? ?]; [by eexists|congruence].
    + intros k n n' Hn Hn'. destruct (H k n') as (m & Hm & Heq); [by apply elem_of_map_to_list|].
      rewrite Hn in Hm. injection Hm as <-. apply SchedulerNode_eq_spec in Heq. tauto.
  - intros [Hsk Hc]. assert (Hl : ∀ k, skel s !! k = skel s' !! k) by (intros; by rewrite Hsk).
    unfold skel in Hl. split.
    + intros k n' Hn'%elem_of_map_to_list. specialize (Hl k). rewrite !lookup_fmap, Hn' in Hl.
      destruct (s !! k) as [n|] eqn:Hn; [|done]. exists n. split; [done|]. apply SchedulerNode_eq_spec.
      injection Hl as Haz Hm. destruct (Hc k n n' Hn Hn'). done.
    + intros k [n Hn]. specialize (Hl k). rewrite !lookup_fmap, Hn in Hl.
      destruct (s' !! k); [by eexists|done].
Qed.

Lemma extra_nodes (s s' : Scheduler) :
  (∀ k, is_Some (s' !! k) → is_Some (s !! k)) →
  (if negb (size s' =? size s)%nat then
     match filter (λ k, s' !! k = None) (map_to_list s).*1 with
     | node_id :: _ => Err (NotExpected node_id)
     | [] => Ok tt
     end
   else Ok tt) = Ok tt ↔ (∀ k, is_Some (s !! k) → is_Some (s' !! k)).
Proof.
  intros Hsub. setoid_rewrite <- elem_of_dom in Hsub. destruct (Nat.eqb_spec (size s') (size s)) as [Hsz|_]; simpl.
  - split; [|done]. intros _ k. rewrite <- !elem_of_dom.
    assert (Heq : dom s' ≡ dom s) by (apply set_subseteq_size_equiv; [set_solver|rewrite !size_dom; lia]).
    set_solver.
  - destruct (filter _ _) as [|j l] eqn:Hf; [split; [|done]|split; [done|]].
    + intros _ k [n Hn]. destruct (s' !! k) eqn:Hk; [by eexists|].
      assert (Hin : k ∈ filter (λ k, s' !! k = None) (map_to_list s).*1)
        by (apply list_elem_of_filter; split; [done|by eapply elem_of_nodes]).
      rewrite Hf in Hin. by apply elem_of_nil in Hin.
    + intros H. assert (Hj : j ∈ filter (λ k, s' !! k = None) (map_to_list s).*1) by (rewrite Hf; by left).
      apply list_elem_of_filter in Hj as [Hj ([k n] & -> & Hin)%list_elem_of_fmap].
      apply elem_of_map_to_list in Hin. destruct (H k) as [? ?]; [by eexists|]. simpl in *. congruence.
Qed.

(** What the check decides *)
Lemma consistency_check_spec nodes Is s :
  consistency_check nodes Is s = Ok tt ↔
  skel s = skel (Scheduler_new nodes) ∧ Forall (known s) Is ∧ checked Is s.
Proof.
  unfold consistency_check. pose proof (count_shards_spec Is _ _ (Scheduler_new_counted nodes)) as Hc.
  unfold mbind. destruct (count_shards Is _) as [s'|e|]; simpl; [| |done].
  2:{ split; [done|]. intros (Hsk & Hkn & _). destruct Hc as (I & k & HI & Hk & _ & Hn).
      destruct (proj1 (Forall_forall _ _) Hkn I HI k Hk) as [? Hs].
      apply (skel_None _ s) in Hn; [congruence|done]. }
  destruct Hc as (Hsk' & Hkn' & Hc').
  assert (Hstep : checked Is s').
  { intros k n' Hn'. split; [apply (Hc' CShards)|apply (Hc' CAttached)]; done. }
  assert (Hiff : compare_nodes (map_to_list s') s = Ok tt ∧ (∀ k, is_Some (s !! k) → is_Some (s' !! k)) ↔
    skel s = skel (Scheduler_new nodes) ∧ checked Is s).
  { rewrite compare_maps, Hsk'. split; intros [Hsk Hcs]; (split; [done|]).
    - intros k n Hn. destruct (proj1 (skel_known s s' k ltac:(congruence))) as [n' Hn']; [by eexists|].
      destruct (Hcs _ _ _ Hn Hn') as [-> ->]. exact (Hstep k n' Hn').
    - intros k n n' Hn Hn'. destruct (Hcs k n Hn) as [-> ->]. by destruct (Hstep k n' Hn') as [-> ->]. }
  destruct (compare_nodes_ok (map_to_list s') s) as [Hok|[e He]].
  - rewrite Hok. simpl. rewrite extra_nodes.
    2:{ intros k [n' Hn']. destruct (proj1 (compare_nodes_spec _ _) Hok k n') as (n & -> & _); [|by eexists].
        by apply elem_of_map_to_list. }
    split; [|tauto]. intros Hd. destruct (proj1 Hiff (conj Hok Hd)) as [Hsk Hcs]. split; [done|]. split; [|done].
    eapply Forall_impl; [exact Hkn'|]. intros J HJ k Hk. apply (skel_known _ _ k Hsk). auto.
  - rewrite He. split; [done|]. intros (Hsk & _ & Hcs). destruct (proj2 Hiff (conj Hsk Hcs)). congruence.
Qed.

(** the consistency check of the scheduler succeeds exactly when it knows the same nodes
    as the service, in the same zones and with the same schedulability, every location of
    every shard is on one of them, and on each node the number of shards and of attached
    shards is that of the intents. *)
Theorem consistency_check_exact nodes Is s :
  consistency_check nodes Is s = Ok tt ↔
  (∀ k, (λ n, (sn_az n, is_may_yes (sn_may_schedule n))) <$> s !! k =
        (λ n, (sn_az n, is_may_yes (sn_may_schedule n))) <$> Scheduler_new nodes !! k) ∧
  (∀ I k, I ∈ Is → k ∈ all_pageservers I → is_Some (s !! k)) ∧
  (∀ k n, s !! k = Some n →
    sn_shard_count n = wrap 64 (Zsum (λ I, occ k (all_pageservers I)) Is) ∧
    sn_attached_shard_count n = wrap 64 (Zsum (λ I, b2z (bool_decide (is_attached I = Some k))) Is)).
Proof.
  rewrite consistency_check_spec. f_equiv; [|f_equiv].
  - unfold skel. split.
    + intros Hsk k. rewrite <- !lookup_fmap. by rewrite Hsk.
    + intros Hsk. apply map_eq. intros k. rewrite !lookup_fmap. apply Hsk.
  - rewrite Forall_forall. split; intros H I k; [intros HI; by apply (H I)|intros j; by apply H].
  - done.
Qed.

(** The number of shards at home is not compared. *)
Example consistency_check_ignores_home :
  let nodes := [test_node 1 0 97] in
  let '(i, s) := single (Some 1) (Some [97]) (Scheduler_new nodes) in
  sn_home_shard_count <$> s !! 1 = Some 1 ∧
  consistency_check nodes [i] s = Ok tt ∧
  consistency_check nodes [i] ((λ n, n <| sn_home_shard_count := 7 |>) <$> s) = Ok tt.
Proof. vm_compute. repeat split; reflexivity. Qed.
