(* ===== verification/TenantShard.v ===== *)
(** * A tenant shard of the storage controller

    [storage_controller/src/tenant_shard.rs]: scheduling of a shard after its
    placement policy, the optimizations of its locations, and the decision whether a
    reconciler has to run; with the location configurations of
    [storage_controller/src/reconciler.rs].

    A reconciler task is represented by its sequence number, a [SeqWait] by its
    current value.  The last error, the state of an import and the flag for delayed
    reconciliation are left out: nothing here reads them. *)

From S2P Require Import Prelude Bytes Text Membership Key Shard.
From S2P Require Import Scheduler IntentState.

(** ** Policies and configurations *)

Inductive PlacementPolicy :=
| PolicyAttached (secondary_count : Z)
| PolicySecondary
| PolicyDetached.
#[export] Instance PlacementPolicy_eq_dec : EqDecision PlacementPolicy.
Proof. solve_decision. Defined.

Definition want_secondaries (self : PlacementPolicy) : Z :=
  match self with
  | PolicyAttached secondary_count => secondary_count
  | PolicySecondary => 1
  | PolicyDetached => 0
  end.

Inductive ShardSchedulingPolicy := ShardActive | ShardEssential | ShardPause | ShardStop.

(** [enum SplitState] *)
Inductive SplitState := SplitIdle | SplitSplitting.

(** [utils::generation::Generation] *)
Inductive Generation := GenNone | GenValid (v : Z).

Definition Generation_next (self : Generation) : Generation :=
  match self with GenValid n => GenValid (wrapping_add 32 n 1) | GenNone => GenValid 1 end.

Definition Generation_into (self : Generation) : option Z :=
  match self with GenValid v => Some v | GenNone => None end.

(** [TenantConfig]: one field is read, the others are passed through as they are; a text
    stands for them. *)
Record TenantConfig := mkTenantConfig {
  tc_heatmap_period : option Z;
  tc_rest : str;
}.
#[export] Instance TenantConfig_settable : Settable TenantConfig := λ c,
  mkTenantConfig (tc_heatmap_period c) (tc_rest c).

Inductive LocationConfigMode :=
  AttachedSingle | AttachedMulti | AttachedStale | LocSecondary | LocDetached.

Record LocationConfig := mkLocationConfig {
  lc_mode : LocationConfigMode;
  lc_generation : option Z;
  lc_secondary_conf : option bool;
  lc_shard_number : Z;
  lc_shard_count : Z;
  lc_shard_stripe_size : Z;
  lc_tenant_conf : TenantConfig;
}.

#[export] Instance LocationConfig_settable : Settable LocationConfig := λ c,
  mkLocationConfig (lc_mode c) (lc_generation c) (lc_secondary_conf c) (lc_shard_number c)
    (lc_shard_count c) (lc_shard_stripe_size c) (lc_tenant_conf c).

#[export] Instance LocationConfigMode_eq_dec : EqDecision LocationConfigMode.
Proof. solve_decision. Defined.
#[export] Instance TenantConfig_eq_dec : EqDecision TenantConfig.
Proof. solve_decision. Defined.
#[export] Instance LocationConfig_eq_dec : EqDecision LocationConfig.
Proof. solve_decision. Defined.

(** In milliseconds *)
Definition DEFAULT_HEATMAP_PERIOD : Z := 60000.

Definition ha_aware_config (config : TenantConfig) (has_secondaries : bool) : TenantConfig :=
  if has_secondaries then
    match tc_heatmap_period config with
    | None => config <| tc_heatmap_period := Some DEFAULT_HEATMAP_PERIOD |>
    | Some _ => config
    end
  else config <| tc_heatmap_period := None |>.

Definition attached_location_conf (generation : Generation) (shard : ShardIdentity)
    (config : TenantConfig) (policy : PlacementPolicy) : LocationConfig :=
  let has_secondaries :=
    match policy with
    | PolicyAttached n => negb (n =? 0)
    | PolicyDetached | PolicySecondary => false
    end in
  {| lc_mode := AttachedSingle;
     lc_generation := Generation_into generation;
     lc_secondary_conf := None;
     lc_shard_number := number shard;
     lc_shard_count := count shard;
     lc_shard_stripe_size := stripe_size shard;
     lc_tenant_conf := ha_aware_config config has_secondaries |}.

Definition secondary_location_conf (shard : ShardIdentity) (config : TenantConfig) : LocationConfig :=
  {| lc_mode := LocSecondary;
     lc_generation := None;
     lc_secondary_conf := Some true;
     lc_shard_number := number shard;
     lc_shard_count := count shard;
     lc_shard_stripe_size := stripe_size shard;
     lc_tenant_conf := ha_aware_config config true |}.

(** ** The shard *)

(** [ObservedStateLocation]: its configuration, if known *)
Abbreviation ObservedStateLocation := (option LocationConfig).
(** [ObservedState] *)
Abbreviation ObservedState := (gmap NodeId ObservedStateLocation).
(** [Sequence(u64)] *)
Abbreviation Sequence := Z.
Definition Sequence_next (self : Sequence) : Sequence := wrapping_add 64 self 1.

Record TenantShard := mkTenantShard {
  ts_shard : ShardIdentity;
  ts_sequence : Sequence;
  ts_generation : option Generation;
  ts_policy : PlacementPolicy;
  ts_intent : IntentState;
  ts_observed : ObservedState;
  ts_config : TenantConfig;
  ts_reconciler : option Sequence;
  ts_splitting : SplitState;
  ts_waiter : Sequence;
  ts_error_waiter : Sequence;
  ts_pending_compute_notification : bool;
  ts_preferred_node : option NodeId;
  ts_scheduling_policy : ShardSchedulingPolicy;
}.
#[export] Instance TenantShard_settable : Settable TenantShard := λ t,
  mkTenantShard (ts_shard t) (ts_sequence t) (ts_generation t) (ts_policy t) (ts_intent t) (ts_observed t)
    (ts_config t) (ts_reconciler t) (ts_splitting t) (ts_waiter t) (ts_error_waiter t)
    (ts_pending_compute_notification t) (ts_preferred_node t) (ts_scheduling_policy t).

Definition TenantShard_new (shard : ShardIdentity) (policy : PlacementPolicy)
    (preferred_az_id : option AvailabilityZone) : TenantShard :=
  {| ts_shard := shard;
     ts_sequence := 1;
     ts_generation := Some (GenValid 0);
     ts_policy := policy;
     ts_intent := IntentState_new preferred_az_id;
     ts_observed := ∅;
     ts_config := mkTenantConfig None [];
     ts_reconciler := None;
     ts_splitting := SplitIdle;
     ts_waiter := 0;
     ts_error_waiter := 0;
     ts_pending_compute_notification := false;
     ts_preferred_node := None;
     ts_scheduling_policy := ShardActive |}.

Definition preferred_az (self : TenantShard) : option AvailabilityZone :=
  is_preferred_az_id (ts_intent self).

(** ** Scheduling *)

(** [&mut self] and [&mut Scheduler] *)
Abbreviation TS A := (ST (TenantShard * Scheduler) ScheduleError A).

Definition get_shard : TS TenantShard := st ← st_get; mret st.1.
Definition modify_shard (f : TenantShard → TenantShard) : TS unit := st_modify (λ st, (f st.1, st.2)).

Definition on_intent {A} (m : IS ScheduleError A) : TS A :=
  st_zoom (λ st, (ts_intent st.1, st.2)) (λ i st, (st.1 <| ts_intent := i.1 |>, i.2)) m.

Definition on_scheduler {A} (m : ST Scheduler ScheduleError A) : TS A :=
  st_zoom snd (λ s st, (st.1, s)) m.

(** [let Ok(a) = m else { .. }] *)
Definition st_try {S E A} (m : ST S E A) : ST S E (option A) := λ s,
  match m s with
  | (Ok a, s') => (Ok (Some a), s')
  | (Err _, s') => (Ok None, s')
  | (Panic, s') => (Panic, s')
  end.

(** A stable sort, as that of slices. *)
Fixpoint insert_by {A} (le : A → A → bool) (x : A) (l : list A) : list A :=
  match l with
  | [] => [x]
  | y :: l' => if le x y then x :: l else y :: insert_by le x l'
  end.
Definition sort_by {A} (le : A → A → bool) (l : list A) : list A := foldr (insert_by le) [] l.

(** The order of [Option<u32>] *)
Definition option_leb (x y : option Z) : bool :=
  match x, y with
  | None, _ => true
  | Some _, None => false
  | Some x, Some y => x <=? y
  end.

Definition is_attached_mode (mode : LocationConfigMode) : bool :=
  match mode with AttachedMulti | AttachedSingle | AttachedStale => true | LocSecondary | LocDetached => false end.

Fixpoint push_observed (nodes : list NodeId) : TS unit :=
  match nodes with
  | [] => mret tt
  | node_id :: nodes =>
    self ← get_shard;
    _ ← if bool_decide (Some node_id ≠ is_attached (ts_intent self)) then on_intent (push_secondary node_id)
        else mret tt;
    push_observed nodes
  end.

(** [order] is the iteration order of the hash map of observed locations. *)
Definition intent_from_observed (order : list NodeId) : TS unit :=
  self ← get_shard;
  let attached_locs :=
    omap (λ node_id,
      conf ← mjoin (ts_observed self !! node_id);
      if is_attached_mode (lc_mode conf) then Some (node_id, lc_generation conf) else None) order in
  _ ← match last (sort_by (λ i j, option_leb i.2 j.2) attached_locs) with
      | Some (node_id, _) => on_intent (set_attached (Some node_id))
      | None => mret tt
      end;
  push_observed order.

Definition usable_le (i j : Z * NodeId) : bool := lex_le [i.1; i.2] [j.1; j.2].

Definition preferred_secondary {E} (self : TenantShard) (scheduler : Scheduler) : outcome E (option NodeId) :=
  candidates ← filter_usable_nodes (is_secondary (ts_intent self)) scheduler;
  let candidates := (λ c,
    (if bool_decide (c.2 = is_preferred_az_id (ts_intent self)) then 1 else 0, c.1)) <$> candidates in
  Ok (snd <$> head (sort_by usable_le candidates)).

(** Whether it was modified, and the node *)
Definition schedule_attached (context : ScheduleContext) : TS (bool * NodeId) :=
  self ← get_shard;
  match is_attached (ts_intent self) with
  | Some node_id => mret (false, node_id)
  | None =>
    st ← st_get;
    promote ← st_lift (preferred_secondary self st.2);
    match promote with
    | Some promote_secondary =>
      _ ← on_intent (promote_attached promote_secondary);
      mret (true, promote_secondary)
    | None =>
      node_id ← on_scheduler (schedule_shard NodeAttachmentSchedulingScore
        (is_secondary (ts_intent self)) (is_preferred_az_id (ts_intent self)) context);
      _ ← on_intent (set_attached (Some node_id));
      mret (true, node_id)
    end
  end.

(** [while self.intent.secondary.len() < secondary_count]; every iteration adds one. *)
Fixpoint add_secondaries (fuel : nat) (secondary_count : Z) (context : ScheduleContext)
    (used_pageservers : list NodeId) (modified : bool) : TS bool :=
  self ← get_shard;
  if Z.of_nat (length (is_secondary (ts_intent self))) <? secondary_count then
    match fuel with
    | O => st_panic
    | S fuel =>
      node_id ← on_scheduler (schedule_shard NodeSecondarySchedulingScore used_pageservers
        (is_preferred_az_id (ts_intent self)) context);
      _ ← on_intent (push_secondary node_id);
      add_secondaries fuel secondary_count context (used_pageservers ++ [node_id]) true
    end
  else mret modified.

(** [sort_by_key] with a boolean *)
Definition sort_by_bool {A} (key : A → bool) (l : list A) : list A :=
  filter (λ x, key x = false) l ++ filter (λ x, key x = true) l.

(** [while self.intent.secondary.len() > 1]; every iteration removes one. *)
Fixpoint trim_secondaries (fuel : nat) (modified : bool) : TS bool :=
  st ← st_get;
  let self := st.1 in
  if (1 <? length (is_secondary (ts_intent self)))%nat then
    match fuel with
    | O => st_panic
    | S fuel =>
      let candidates := sort_by_bool (λ n, negb (bool_decide (get_node_az n st.2 = preferred_az self)))
        (is_secondary (ts_intent self)) in
      secondary_to_remove ← st_lift (unwrap (last candidates));
      _ ← on_intent (remove_secondary secondary_to_remove);
      trim_secondaries fuel true
    end
  else mret modified.

(** The three arms of [do_schedule]: whether the intent was modified *)
Definition schedule_for_attached (secondary_count : Z) (context : ScheduleContext) : TS bool :=
  r ← schedule_attached context;
  self ← get_shard;
  add_secondaries (Z.to_nat (secondary_count - Z.of_nat (length (is_secondary (ts_intent self)))))
    secondary_count context [r.2] r.1.

Definition populate_secondary (context : ScheduleContext) : TS bool :=
  self ← get_shard;
  match is_attached (ts_intent self), is_secondary (ts_intent self) with
  | Some node_id, _ => _ ← on_intent (demote_attached node_id); mret true
  | None, [] =>
    node_id ← on_scheduler (schedule_shard NodeAttachmentSchedulingScore []
      (is_preferred_az_id (ts_intent self)) context);
    _ ← on_intent (push_secondary node_id);
    mret true
  | None, _ => mret false
  end.

Definition schedule_for_secondary (context : ScheduleContext) : TS bool :=
  modified ← populate_secondary context;
  self ← get_shard;
  trim_secondaries (length (is_secondary (ts_intent self))) modified.

Definition schedule_for_detached : TS bool :=
  self ← get_shard;
  match all_pageservers (ts_intent self) with
  | [] => mret false
  | _ => _ ← on_intent clear; mret true
  end.

Definition do_schedule (context : ScheduleContext) : TS unit :=
  self ← get_shard;
  match ts_scheduling_policy self with
  | ShardPause | ShardStop => mret tt
  | ShardActive | ShardEssential =>
    modified ← (match ts_policy self with
      | PolicyAttached secondary_count => schedule_for_attached secondary_count context
      | PolicySecondary => schedule_for_secondary context
      | PolicyDetached => schedule_for_detached
      end);
    if (modified : bool) then modify_shard (λ self, self <| ts_sequence := wrapping_add 64 (ts_sequence self) 1 |>)
    else mret tt
  end.

(** The context is borrowed mutably too; it is updated also after an error. *)
Definition schedule (context : ScheduleContext) (st : TenantShard * Scheduler) :
    outcome ScheduleError unit * (TenantShard * Scheduler) * ScheduleContext :=
  let '(r, st') := do_schedule context st in
  (r, st', ScheduleContext_avoid (all_pageservers (ts_intent st'.1)) context).

Definition reschedule_to_secondary (promote_to : option NodeId) : TS unit :=
  st ← st_get;
  promote_to ←
    match promote_to with
    | Some node => mret node
    | None =>
      node ← st_lift (preferred_secondary st.1 st.2);
      match node with Some node => mret node | None => st_fail ImpossibleConstraint end
    end;
  _ ← st_assert (bool_decide (promote_to ∈ is_secondary (ts_intent st.1)));
  _ ← match is_attached (ts_intent st.1) with
      | Some node =>
        demoted ← on_intent (demote_attached node);
        st_ensure demoted ImpossibleConstraint
      | None => mret tt
      end;
  _ ← on_intent (promote_attached promote_to);
  modify_shard (λ self, self <| ts_sequence := Sequence_next (ts_sequence self) |>).

(** ** Optimization *)

Definition project_detach (context : ScheduleContext) (shard : TenantShard) : ScheduleContext :=
  foldl (λ c node_id,
    match sc_nodes c !! node_id with
    | Some score => c <| sc_nodes := <[node_id := AffinityScore_dec score]> (sc_nodes c) |>
    | None => c
    end) context (option_list (is_attached (ts_intent shard)) ++ is_secondary (ts_intent shard)).

Inductive ScheduleOptimizationAction :=
| ReplaceSecondary (old_node_id new_node_id : NodeId)
| MigrateAttachment (old_attached_node_id new_attached_node_id : NodeId)
| CreateSecondary (node_id : NodeId)
| OptRemoveSecondary (node_id : NodeId).

Record ScheduleOptimization := mkScheduleOptimization {
  so_sequence : Sequence;
  so_action : ScheduleOptimizationAction;
}.

(** [a < b] of the derived order *)
Definition score_lt {S} `{NodeSchedulingScore S} (a b : S) : bool :=
  negb (lex_le (score_key b) (score_key a)).

(** These borrow the scheduler mutably, for its caches, and the shard not. *)
Abbreviation SchedM A := (ST Scheduler ScheduleError A).

Section better.
Context (S : Type) `{NodeSchedulingScore S}.

Definition is_better_location (self : TenantShard) (context : ScheduleContext)
    (current candidate : NodeId) : SchedM (option bool) :=
  candidate_score ← compute_node_score S candidate (is_preferred_az_id (ts_intent self)) context;
  match candidate_score with
  | None => mret None
  | Some candidate_score =>
    if bool_decide (ts_preferred_node self = Some candidate) then mret (Some true)
    else
      current_score ← compute_node_score S current (is_preferred_az_id (ts_intent self)) context;
      mret (current_score ← current_score;
        Some (score_lt (for_optimization candidate_score) (for_optimization current_score)))
  end.

Definition find_better_location (self : TenantShard) (context : ScheduleContext)
    (current : NodeId) (hard_exclude : list NodeId) : SchedM (option NodeId) :=
  match ts_preferred_node self with
  | Some hint => mret (if hint =? current then None else Some hint)
  | None =>
    candidate ← st_try (schedule_shard S hard_exclude (is_preferred_az_id (ts_intent self)) context);
    match candidate with
    | None => mret None
    | Some candidate_node =>
      if candidate_node =? current then mret None
      else
        better ← is_better_location self context current candidate_node;
        mret (better ← better; if (better : bool) then Some candidate_node else None)
    end
  end.
End better.

Definition maybe_optimizable (self : TenantShard) (context : ScheduleContext) (scheduler : Scheduler) : bool :=
  let intent := ts_intent self in
  match ts_preferred_node self with
  | Some preferred => negb (bool_decide (Some preferred = is_attached intent))
  | None => false
  end
  || (1 <=? count (ts_shard self)) &&
     (let context := project_detach context self in
      existsb (λ node, match sc_nodes context !! node with Some af => 0 <? af | None => false end)
        (all_pageservers intent))
  || match ts_policy self, is_attached intent with
     | PolicyAttached _, Some attached =>
       negb (bool_decide (get_node_az attached scheduler = is_preferred_az_id intent))
     | _, _ => false
     end
  || existsb (λ secondary, bool_decide (get_node_az secondary scheduler = is_preferred_az_id intent))
       (is_secondary intent)
  || (want_secondaries (ts_policy self) <? Z.of_nat (length (is_secondary intent))).

(** The first secondary that is a better location *)
Fixpoint better_secondary (self : TenantShard) (context : ScheduleContext) (attached : NodeId)
    (secondaries : list NodeId) : SchedM (option NodeId) :=
  match secondaries with
  | [] => mret None
  | secondary :: secondaries =>
    better ← is_better_location NodeAttachmentSchedulingScore self context attached secondary;
    match better with
    | Some true => mret (Some secondary)
    | _ => better_secondary self context attached secondaries
    end
  end.

Fixpoint secondary_scores (self : TenantShard) (context : ScheduleContext) (secondaries : list NodeId) :
    SchedM (list (NodeId * option NodeSecondarySchedulingScore)) :=
  match secondaries with
  | [] => mret []
  | node_id :: secondaries =>
    s ← compute_node_score NodeSecondarySchedulingScore node_id (is_preferred_az_id (ts_intent self)) context;
    rest ← secondary_scores self context secondaries;
    mret ((node_id, s) :: rest)
  end.

(** The node with the highest of the scores; they differ by the node. *)
Definition max_score (scores : list (NodeId * NodeSecondarySchedulingScore)) : option NodeId :=
  fst <$> last (sort_by (λ i j, lex_le (score_key i.2) (score_key j.2)) scores).

(** Which of too many secondaries to drop: it can be none. *)
Definition excess_secondary (self : TenantShard) (scheduler : Scheduler)
    (scores : list (NodeId * option NodeSecondarySchedulingScore)) : outcome ScheduleError (option NodeId) :=
  let secondaries := is_secondary (ts_intent self) in
  if existsb (λ s, bool_decide (s.2 = None)) scores then
    match secondaries with
    | [only] => Ok (Some only)
    | _ =>
      let retain := λ n,
        existsb (λ s, (s.1 =? n) && negb (bool_decide (s.2 = None))) scores &&
        negb (bool_decide (get_node_az n scheduler = is_preferred_az_id (ts_intent self))) in
      match filter (λ n, retain n = true) secondaries with
      | retain_secondary :: _ => Ok (head (filter (λ n, n ≠ retain_secondary) secondaries))
      | [] => Ok None
      end
    end
  else
    victim ← unwrap (max_score (omap (λ s, score ← s.2; Some (s.1, score)) scores));
    Ok (Some victim).

(** Where to migrate to, when nothing else is left to do *)
Definition optimize_migrate (self : TenantShard) (context : ScheduleContext) (attached : NodeId) :
    SchedM (option ScheduleOptimizationAction) :=
  replacement ← find_better_location NodeAttachmentSchedulingScore self context attached [];
  scheduler ← st_get;
  mret (replacement ← replacement;
    if bool_decide (ts_preferred_node self = None)
       && negb (bool_decide (is_preferred_az_id (ts_intent self) = None))
       && negb (bool_decide (get_node_az replacement scheduler = is_preferred_az_id (ts_intent self)))
    then None
    else Some (if bool_decide (replacement ∈ is_secondary (ts_intent self))
               then MigrateAttachment attached replacement
               else CreateSecondary replacement)).

Definition optimize_attachment (self : TenantShard) (context : ScheduleContext) :
    SchedM (option ScheduleOptimization) :=
  match is_attached (ts_intent self) with
  | None => mret None
  | Some attached =>
    let context := project_detach context self in
    let secondaries := is_secondary (ts_intent self) in
    let found action := Some (mkScheduleOptimization (ts_sequence self) action) in
    better ← better_secondary self context attached secondaries;
    match better with
    | Some secondary => mret (found (MigrateAttachment attached secondary))
    | None =>
      victim ←
        if want_secondaries (ts_policy self) <? Z.of_nat (length secondaries) then
          scores ← secondary_scores self context secondaries;
          scheduler ← st_get;
          st_lift (excess_secondary self scheduler scores)
        else mret None;
      match victim with
      | Some victim => mret (found (OptRemoveSecondary victim))
      | None =>
        action ← optimize_migrate self context attached;
        mret (action ← action; found action)
      end
    end
  end.

Fixpoint better_replacement (self : TenantShard) (context : ScheduleContext) (secondaries : list NodeId) :
    SchedM (option ScheduleOptimizationAction) :=
  match secondaries with
  | [] => mret None
  | secondary :: secondaries =>
    let exclude := option_list (is_attached (ts_intent self)) in
    replacement ←
      match ts_policy self with
      | PolicyAttached _ =>
        find_better_location NodeSecondarySchedulingScore self context secondary exclude
      | PolicySecondary =>
        find_better_location NodeAttachmentSchedulingScore self context secondary exclude
      | PolicyDetached => mret None
      end;
    _ ← st_assert (bool_decide (replacement ≠ Some secondary));
    match replacement with
    | Some replacement => mret (Some (ReplaceSecondary secondary replacement))
    | None => better_replacement self context secondaries
    end
  end.

Definition optimize_secondary (self : TenantShard) (context : ScheduleContext) :
    SchedM (option ScheduleOptimization) :=
  if want_secondaries (ts_policy self) <? Z.of_nat (length (is_secondary (ts_intent self))) then mret None
  else
    action ← better_replacement self (project_detach context self) (is_secondary (ts_intent self));
    mret (action ← action; Some (mkScheduleOptimization (ts_sequence self) action)).

Definition set_preferred_node (node : option NodeId) (self : TenantShard) : TenantShard :=
  self <| ts_preferred_node := node |>.

(** Whether the optimization was applied *)
Definition apply_optimization (optimization : ScheduleOptimization) : TS bool :=
  self ← get_shard;
  if negb (so_sequence optimization =? ts_sequence self) then mret false
  else
    _ ← match so_action optimization with
        | MigrateAttachment old_attached_node_id new_attached_node_id =>
          _ ← on_intent (demote_attached old_attached_node_id);
          _ ← on_intent (promote_attached new_attached_node_id);
          modify_shard (λ self,
            if bool_decide (ts_preferred_node self = Some new_attached_node_id)
            then self <| ts_preferred_node := None |> else self)
        | ReplaceSecondary old_node_id new_node_id =>
          _ ← on_intent (remove_secondary old_node_id);
          on_intent (push_secondary new_node_id)
        | CreateSecondary new_node_id => on_intent (push_secondary new_node_id)
        | OptRemoveSecondary old_secondary => on_intent (remove_secondary old_secondary)
        end;
    mret true.

(** ** Observed and intended state *)

Definition stably_attached (self : TenantShard) : option NodeId :=
  attach_intent ← is_attached (ts_intent self);
  conf ← mjoin (ts_observed self !! attach_intent);
  if is_attached_mode (lc_mode conf) then Some attach_intent else None.

(** The nodes whose observed configuration is not the intended one; it panics when a
    shard without a generation has an attached location. *)
Definition dirty_nodes {E} (self : TenantShard) : outcome E (list NodeId) :=
  attached ←
    match is_attached (ts_intent self) with
    | Some node_id =>
      generation ← unwrap (ts_generation self);
      let wanted_conf := attached_location_conf generation (ts_shard self) (ts_config self) (ts_policy self) in
      Ok (if bool_decide (ts_observed self !! node_id = Some (Some wanted_conf)) then [] else [node_id])
    | None => Ok []
    end;
  let wanted_conf := secondary_location_conf (ts_shard self) (ts_config self) in
  let secondary :=
    filter (λ node_id, ts_observed self !! node_id ≠ Some (Some wanted_conf)) (is_secondary (ts_intent self)) in
  let extra :=
    filter (λ node_id, node_id ∉ all_pageservers (ts_intent self)) (map_to_list (ts_observed self)).*1 in
  Ok (attached ++ secondary ++ extra).

Definition node_available (nodes : gmap NodeId Node) (node_id : NodeId) : bool :=
  match nodes !! node_id with Some n => is_available n | None => false end.

Definition dirty {E} (self : TenantShard) (nodes : gmap NodeId Node) : outcome E bool :=
  dirty_nodes ← dirty_nodes self;
  Ok (existsb (node_available nodes) dirty_nodes).

Inductive ReconcileReason := ActiveNodesDirty | UnknownLocation | PendingComputeNotification.

(** [RecWait seq]: wait for the reconciler of that sequence *)
Inductive ReconcileNeeded := RecNo | RecWait (seq : Sequence) | RecYes (reason : ReconcileReason).

(** The observed locations are read in some order, until one is unknown and available. *)
Fixpoint dirty_observed {E} (pageservers : gmap NodeId Node) (locations : list (NodeId * ObservedStateLocation)) :
    outcome E bool :=
  match locations with
  | [] => Ok false
  | (node_id, observed_loc) :: locations =>
    node ← unwrap (pageservers !! node_id);
    if bool_decide (observed_loc = None) && is_available node then Ok true
    else dirty_observed pageservers locations
  end.

Definition get_reconcile_needed {E} (pageservers : gmap NodeId Node) (self : TenantShard) :
    outcome E ReconcileNeeded :=
  dirty_observed ← dirty_observed pageservers (map_to_list (ts_observed self));
  active_nodes_dirty ← dirty self pageservers;
  let reconcile_needed :=
    match active_nodes_dirty, dirty_observed, ts_pending_compute_notification self with
    | true, _, _ => RecYes ActiveNodesDirty
    | _, true, _ => RecYes UnknownLocation
    | _, _, true => RecYes PendingComputeNotification
    | _, _, _ => RecNo
    end in
  match reconcile_needed with
  | RecNo => Ok RecNo
  | _ =>
    match ts_splitting self with
    | SplitSplitting => Ok RecNo
    | SplitIdle =>
      if bool_decide (ts_reconciler self = Some (ts_sequence self)) then Ok (RecWait (ts_sequence self))
      else
        match ts_scheduling_policy self with
        | ShardActive | ShardEssential | ShardPause => Ok reconcile_needed
        | ShardStop => Ok RecNo
        end
    end
  end.

Definition ensure_sequence_ahead (self : TenantShard) : TenantShard :=
  let max_seen := Z.max (default 0 (ts_reconciler self)) (Z.max (ts_waiter self) (ts_error_waiter self)) in
  if ts_sequence self <=? max_seen then self <| ts_sequence := Sequence_next max_seen |> else self.

(** [ReconcilerWaiter]: the sequence that it waits for *)
Definition future_reconcile_waiter (self : TenantShard) : Sequence * TenantShard :=
  let self := ensure_sequence_ahead self in (ts_sequence self, self).

(** The nodes of a list of ids; a node that does not exist is a panic. *)
Definition nodes_of {E} (nodes : gmap NodeId Node) (ids : list NodeId) : outcome E (list Node) :=
  foldr (λ node_id acc, acc ← acc; node ← unwrap (nodes !! node_id); Ok (node :: acc)) (Ok []) ids.

(** [TargetState]: the intent, with the nodes *)
Record TargetState := mkTargetState {
  tgt_attached : option Node;
  tgt_secondary : list Node;
}.

Definition TargetState_from_intent {E} (nodes : gmap NodeId Node) (intent : IntentState) : outcome E TargetState :=
  attached ← nodes_of nodes (option_list (is_attached intent));
  secondary ← nodes_of nodes (is_secondary intent);
  Ok (mkTargetState (head attached) secondary).

(** The effect of [spawn_reconciler] on the shard; the target and the nodes to detach from,
    and the sequence of the new task *)
Definition spawn_reconciler {E} (pageservers : gmap NodeId Node) (self : TenantShard) :
    outcome E (TargetState * list Node * Sequence * TenantShard) :=
  detach ← nodes_of pageservers
    (filter (λ node_id, node_id ∉ all_pageservers (ts_intent self)) (map_to_list (ts_observed self)).*1);
  let self := ensure_sequence_ahead self in
  reconciler_intent ← TargetState_from_intent pageservers (ts_intent self);
  Ok (reconciler_intent, detach, ts_sequence self, self <| ts_reconciler := Some (ts_sequence self) |>).

Definition reconcile_complete (sequence : Sequence) (self : TenantShard) : TenantShard :=
  match ts_reconciler self with
  | Some handle => if handle <=? sequence then self <| ts_reconciler := None |> else self
  | None => self
  end.

(** [SeqWait::advance] on the current value *)
Definition seq_advance (num current : Sequence) : Sequence := if num <=? current then current else num.

(** [ReconcilerWaiter::get_status] *)
Inductive ReconcilerStatus := StatusDone | StatusFailed | StatusInProgress.
Definition get_status (seq : Sequence) (self : TenantShard) : ReconcilerStatus :=
  if seq <=? ts_waiter self then StatusDone
  else if seq <=? ts_error_waiter self then StatusFailed
  else StatusInProgress.

(** Whether the intent was modified *)
Definition deref_node (node_id : NodeId) (self : TenantShard) : bool * TenantShard :=
  let intent := ts_intent self in
  let was_attached := bool_decide (is_attached intent = Some node_id) in
  let secondary := filter (λ n, n ≠ node_id) (is_secondary intent) in
  let intent' := mkIntentState (if was_attached then None else is_attached intent) secondary
    (is_preferred_az_id intent) in
  (was_attached || negb (length secondary =? length (is_secondary intent))%nat,
   self <| ts_intent := intent' |>
        <| ts_preferred_node :=
          if bool_decide (ts_preferred_node self = Some node_id) then None else ts_preferred_node self |>).

(** [order] is the iteration order of the hash map. *)
Definition attached_locations (order : list NodeId) (self : TenantShard) : list (NodeId * Generation) :=
  (λ i, (i.1, GenValid i.2)) <$>
    sort_by (λ i j, j.2 <=? i.2) (omap (λ node_id,
      conf ← mjoin (ts_observed self !! node_id);
      gen ← lc_generation conf;
      if is_attached_mode (lc_mode conf) then Some (node_id, gen) else None) order).

Inductive ObservedStateDelta :=
| DeltaUpsert (node_id : NodeId) (loc : ObservedStateLocation)
| DeltaDelete (node_id : NodeId).

Definition delta_node_id (d : ObservedStateDelta) : NodeId :=
  match d with DeltaUpsert n _ | DeltaDelete n => n end.

Definition apply_observed_delta (delta : ObservedStateDelta) (observed : ObservedState) : ObservedState :=
  match delta with
  | DeltaUpsert node_id loc =>
    let crnt_gen := conf ← mjoin (observed !! node_id); lc_generation conf in
    let new_gen := conf ← loc; lc_generation conf in
    match crnt_gen, new_gen with
    | Some crnt, Some new => if new <? crnt then <[node_id := None]> observed else <[node_id := loc]> observed
    | _, _ => <[node_id := loc]> observed
    end
  | DeltaDelete node_id => delete node_id observed
  end.

Definition apply_observed_deltas (deltas : list ObservedStateDelta) (self : TenantShard) : TenantShard :=
  self <| ts_observed := foldl (λ o d, apply_observed_delta d o) (ts_observed self) deltas |>.

Definition is_attached_outside_preferred_az {E} (self : TenantShard) (nodes : gmap NodeId Node) :
    outcome E bool :=
  match is_attached (ts_intent self) with
  | Some node_id =>
    node ← unwrap (nodes !! node_id);
    Ok (negb (bool_decide (Some (n_availability_zone_id node) = is_preferred_az_id (ts_intent self))))
  | None => Ok false
  end.

(** ** [Service::process_result], for the shard of the result *)

Record ReconcileResult := mkReconcileResult {
  rr_sequence : Sequence;
  rr_ok : bool;
  rr_generation : option Generation;
  rr_observed_deltas : list ObservedStateDelta;
  rr_pending_compute_notification : bool;
}.

(** The derived orders of [Generation] and of [Option] *)
Definition generation_rank (g : option Generation) : Z :=
  match g with None => -2 | Some GenNone => -1 | Some (GenValid v) => v end.
Definition generation_max (x y : option Generation) : option Generation :=
  if generation_rank y <? generation_rank x then x else y.

Definition filter_delta (nodes : gmap NodeId Node) (delta : ObservedStateDelta) : option ObservedStateDelta :=
  node ← nodes !! delta_node_id delta;
  if is_available node then Some delta else Some (DeltaUpsert (n_id node) None).

Definition is_upsert (d : ObservedStateDelta) : bool :=
  match d with DeltaUpsert _ _ => true | DeltaDelete _ => false end.

Definition process_result (nodes : gmap NodeId Node) (result : ReconcileResult) (tenant : TenantShard) :
    TenantShard :=
  let tenant := tenant <| ts_generation := generation_max (ts_generation tenant) (rr_generation result) |>
    <| ts_pending_compute_notification := rr_pending_compute_notification result |> in
  let tenant := reconcile_complete (rr_sequence result) tenant in
  let deltas := omap (filter_delta nodes) (rr_observed_deltas result) in
  if rr_ok result then
    let tenant := apply_observed_deltas deltas tenant in
    tenant <| ts_waiter := seq_advance (rr_sequence result) (ts_waiter tenant) |>
  else
    let tenant := tenant <| ts_error_waiter := seq_advance (rr_sequence result) (ts_error_waiter tenant) |> in
    apply_observed_deltas (filter (λ d, is_upsert d = true) deltas) tenant.
