(* ===== verification/ShardScheduling.v ===== *)
(** * Scheduling a tenant shard: what its operations guarantee

    The operations of [TenantShard] keep the counts of the scheduler and never place a
    shard twice on a node; scheduling fulfils the placement policy or reports an error;
    the check [maybe_optimizable] is compared with the optimizations it stands for. *)

From S2P Require Import Prelude Bytes Text Membership Key Shard.
From S2P Require Import Scheduler IntentState TenantShard.

(** ** Schedulers whose scores can be computed *)

Definition pu_scorable (u : PageserverUtilization) : Prop :=
  wrapping_mul 64 (wrapping_add 64 (pu_disk_usage_bytes u) (pu_free_space_bytes u))
    (pu_disk_usable_pct u) / 100 ≠ 0 ∧ pu_max_shard_count u ≠ 0.

Definition scorable (s : Scheduler) : Prop :=
  ∀ k n u, s !! k = Some n → sn_may_schedule n = MayYes u → pu_scorable u.

Lemma score_scorable {E} u : pu_scorable u → ∃ x, score (E := E) u = Ok x.
Proof.
  intros [H1 H2]. unfold score, div_u. apply Z.eqb_neq in H1, H2. rewrite H1, H2. simpl. by eexists.
Qed.

Lemma scorable_candidate he s k : scorable s → ¬ candidate_panics he s k.
Proof.
  intros Hs (_ & n & Hn & Hy & Hu). unfold utilization_of in Hu.
  destruct (sn_may_schedule n) as [u|] eqn:Hm; [|done].
  destruct (score_scorable (E := Empty_set) u (Hs _ _ _ Hn Hm)) as [x Hx].
  unfold cached_score, st_lift, st_get, st_put, mbind, mret, ST_bind, ST_ret in Hu. simpl in Hu.
  destruct (pu_utilization_score u); [done|]. by rewrite Hx in Hu.
Qed.

Lemma scorable_update k az' u s : scorable s → scorable (update_node_ref_counts k az' u s).
Proof.
  intros Hs j n v. rewrite update_refs_lookup. case_bool_decide; [|by apply Hs].
  intros (n0 & Hn0 & ->)%fmap_Some. destruct (sn_may_schedule n0) as [w|] eqn:Hm.
  - assert (Hw : pu_scorable w) by (by eapply Hs). unfold update_node. destruct u; simpl; rewrite Hm; simpl;
      intros [= <-]; unfold adjust_shard_count_max; try case_match; done.
  - unfold update_node. by destruct u; simpl; rewrite Hm.
Qed.

Lemma updated_scorable s s' : updated s s' → scorable s → scorable s'.
Proof. induction 1; [done|]. intros. by apply scorable_update; auto. Qed.

(** ** Equivalent schedulers *)

Lemma fill_fields u :
  pu_scorable (fill u) ↔ pu_scorable u.
Proof.
  unfold fill, cached_score, st_lift, st_get, st_put, mbind, mret, ST_bind, ST_ret. simpl.
  destruct (pu_utilization_score u); [done|]. by destruct (score u).
Qed.

Lemma equiv_lookup (s s' : Scheduler) k n' :
  s' ≡ s → s' !! k = Some n' → ∃ n, s !! k = Some n ∧ n' ≡ n.
Proof.
  intros Heq Hn'. specialize (Heq k). rewrite Hn' in Heq. destruct (s !! k) as [n|]; [|by inversion Heq].
  exists n. split; [done|]. by apply (inj Some).
Qed.

Lemma equiv_scorable s s' : s' ≡ s → scorable s → scorable s'.
Proof.
  intros Heq Hs k n' u' Hn' Hu'. destruct (equiv_lookup _ _ _ _ Heq Hn') as (n & Hl & Hn).
  unfold equiv, SchedulerNode_equiv, fill_node in Hn. destruct n' as [a b c d m'], n as [a' b' c' d' m].
  simpl in *. injection Hn as -> -> -> -> Hm. subst m'. destruct m as [u|]; [|done]. simpl in Hm.
  injection Hm as Hm. apply fill_fields. rewrite Hm. apply fill_fields. by eapply Hs.
Qed.

Lemma equiv_counted D F s s' : s' ≡ s → counted D F s → counted D F s'.
Proof.
  intros Heq Hc w k n' HD Hn'. destruct (equiv_lookup _ _ _ _ Heq Hn') as (n & Hl & Hn).
  destruct (equiv_fields _ _ Hn) as (H1 & H2 & H3 & H4 & _). rewrite H4, <- (Hc w k n HD Hl).
  by destruct w.
Qed.

Lemma equiv_skel s s' : s' ≡ s → skel s' = skel s.
Proof.
  intros Heq. apply map_eq. intros k. unfold skel. rewrite !lookup_fmap. destruct (Heq k) as [n n' Hn|]; [|done].
  destruct (equiv_fields _ _ Hn) as (_ & _ & _ & H4 & H5). simpl. congruence.
Qed.

(** ** The invariant of a shard and its scheduler *)

(** [Is] are the intents of the other shards, [sk] the nodes. *)
Record sound (D : NodeId → Prop) (Is : list IntentState) (sk : gmap NodeId (AvailabilityZone * bool))
    (st : TenantShard * Scheduler) : Prop := mkSound {
  snd_skel : skel st.2 = sk;
  snd_acc : accounted D (ts_intent st.1 :: Is) st.2;
  snd_wf : intent_wf (ts_intent st.1);
  snd_known : known st.2 (ts_intent st.1);
  snd_scorable : scorable st.2;
}.

Lemma known_sub (s s' : Scheduler) I I' :
  skel s' = skel s → known s I → (∀ k, k ∈ all_pageservers I' → k ∈ all_pageservers I ∨ is_Some (s !! k)) →
  known s' I'.
Proof.
  intros Hsk Hk Hsub k Hin. apply (skel_known s' s k Hsk). destruct (Hsub k Hin); [by apply Hk|done].
Qed.

(** An operation on the intent: what is left to show. *)
Lemma on_intent_sound {A} D Is sk (m : IS ScheduleError A) (a : A) I' t s Q :
  sound D Is sk (t, s) →
  wp m (λ r st', r = Ok a ∧ tracks D Is s I' st') (ts_intent t, s) →
  intent_wf I' → (∀ k, k ∈ all_pageservers I' → k ∈ all_pageservers (ts_intent t) ∨ is_Some (s !! k)) →
  (∀ s', sound D Is sk (t <| ts_intent := I' |>, s') → Q (Ok a) (t <| ts_intent := I' |>, s')) →
  wp (on_intent m) Q (t, s).
Proof.
  intros [Hsk Hacc Hwf Hkn Hsc] Hm Hwf' Hsub HQ. unfold on_intent. apply wp_zoom. simpl.
  eapply wp_mono; [exact Hm|]. intros r [J s'] (-> & HJ & Hupd & Hacc'). simpl in *. subst J.
  apply HQ. split; simpl in *.
  - rewrite (updated_skel _ _ Hupd). done.
  - done.
  - done.
  - eapply known_sub; [by apply updated_skel|exact Hkn|done].
  - by eapply updated_scorable.
Qed.

(** The node may be scheduled. *)
Definition usable (sk : gmap NodeId (AvailabilityZone * bool)) (k : NodeId) : Prop :=
  ∃ az, sk !! k = Some (az, true).

Lemma usable_skel s k :
  usable (skel s) k ↔ ∃ n, s !! k = Some n ∧ is_may_yes (sn_may_schedule n) = true.
Proof.
  unfold usable, skel. rewrite lookup_fmap. split.
  - intros [az (n & Hn & [= _ Hm])%fmap_Some]. by exists n.
  - intros (n & -> & Hm). exists (sn_az n). simpl. by rewrite Hm.
Qed.

(** A decision of the scheduler *)
Lemma on_schedule_sound S `{NodeSchedulingScoreLaws S} D Is sk he az c t s Q :
  sound D Is sk (t, s) →
  (∀ k s', k ∉ he → usable sk k → is_Some (s' !! k) → sound D Is sk (t, s') → Q (Ok k) (t, s')) →
  (∀ e s', sound D Is sk (t, s') → (∀ k, usable sk k → k ∈ he) → Q (Err e) (t, s')) →
  wp (on_scheduler (schedule_shard S he az c)) Q (t, s).
Proof.
  intros [Hsk Hacc Hwf Hkn Hsc] HOk HErr. unfold on_scheduler. apply wp_zoom. simpl.
  eapply wp_mono; [apply (schedule_shard_correct S)|]. intros r s' [Heq Hr]. simpl in *.
  assert (Hsk' : skel s' = skel s) by (by apply equiv_skel).
  assert (Hs' : sound D Is sk (t, s')).
  { split; simpl; [congruence|by eapply equiv_counted|done| |by eapply equiv_scorable].
    intros k Hk. apply (skel_known s' s k Hsk'). auto. }
  destruct r as [k|e|].
  - destruct Hr as [(x & Hx & _) _]. apply candidate_Some in Hx as (Hk & n & Hn & Hm).
    apply HOk; [done| | |done].
    + rewrite <- Hsk. apply usable_skel. by exists n.
    + apply (skel_known s' s k Hsk'). by eexists.
  - apply HErr; [done|]. intros k. rewrite <- Hsk, usable_skel. intros (n & Hn & Hm).
    destruct e; [subst s; by rewrite lookup_empty in Hn|]. destruct Hr as [_ Hr].
    destruct (decide (k ∈ he)) as [|Hk]; [done|]. by rewrite (Hr k n Hn Hk) in Hm.
  - destruct Hr as [k Hk]. by apply scorable_candidate in Hk.
Qed.

(** ** The choice of a secondary to promote *)

Lemma insert_by_perm {A} (le : A → A → bool) x l : insert_by le x l ≡ₚ x :: l.
Proof.
  induction l as [|y l IH]; simpl; [done|]. destruct (le x y); [done|]. rewrite IH. constructor.
Qed.

Lemma sort_by_perm {A} (le : A → A → bool) l : sort_by le l ≡ₚ l.
Proof. induction l as [|x l IH]; simpl; [done|]. by rewrite insert_by_perm, IH. Qed.

Lemma filter_usable_nodes_spec {E} nodes s :
  (∀ k, k ∈ nodes → is_Some (s !! k)) →
  ∃ l, filter_usable_nodes (E := E) nodes s = Ok l ∧ ∀ k, k ∈ l.*1 ↔ k ∈ nodes ∧ usable (skel s) k.
Proof.
  induction nodes as [|j nodes IH]; intros Hk; simpl; [exists []; set_solver|].
  destruct (Hk j) as [n Hn]; [by left|]. destruct IH as (l & Hl & Hin); [by intros; apply Hk; right|].
  rewrite Hn, Hl. simpl. destruct (is_may_yes (sn_may_schedule n)) eqn:Hm; eexists; (split; [done|]); intros k.
  - simpl. rewrite !elem_of_cons, Hin. split; [|tauto]. intros [->|[? ?]]; [|tauto]. split; [by left|].
    apply usable_skel. by exists n.
  - rewrite elem_of_cons, Hin. split; [tauto|]. intros [[->|?] Hu]; [|done].
    apply usable_skel in Hu as (n' & Hn' & Hu). simplify_eq. congruence.
Qed.

Lemma preferred_secondary_spec {E} t s :
  known s (ts_intent t) →
  ∃ o, preferred_secondary (E := E) t s = Ok o ∧
    match o with
    | Some k => k ∈ is_secondary (ts_intent t) ∧ usable (skel s) k
    | None => ∀ k, k ∈ is_secondary (ts_intent t) → ¬ usable (skel s) k
    end.
Proof.
  intros Hkn. unfold preferred_secondary.
  destruct (filter_usable_nodes_spec (E := E) (is_secondary (ts_intent t)) s) as (l & -> & Hl).
  { intros k Hk. apply Hkn. unfold all_pageservers. set_solver. }
  simpl. eexists. split; [done|].
  set (cs := (λ c : NodeId * option AvailabilityZone, _) <$> l).
  assert (Hcs : ∀ k, k ∈ cs.*2 ↔ k ∈ l.*1).
  { intros k. unfold cs. rewrite <- list_fmap_compose. done. }
  destruct (sort_by usable_le cs) as [|c l'] eqn:Hs; simpl; pose proof (sort_by_perm usable_le cs) as Hp;
    rewrite Hs in Hp.
  - apply Permutation_nil_l in Hp. intros k Hk Hu. assert (Hin : k ∈ cs.*2) by (by apply Hcs, Hl).
    rewrite <- Hp in Hin. by apply elem_of_nil in Hin.
  - apply Hl, Hcs. rewrite <- Hp. by left.
Qed.

(** ** Scheduling *)

Lemma all_elem I k : k ∈ all_pageservers I ↔ is_attached I = Some k ∨ k ∈ is_secondary I.
Proof.
  unfold all_pageservers. rewrite elem_of_app. destruct (is_attached I); simpl; set_solver.
Qed.

Lemma intent_wf_iff I :
  intent_wf I ↔ NoDup (is_secondary I) ∧ ∀ k, is_attached I = Some k → k ∉ is_secondary I.
Proof.
  unfold intent_wf, all_pageservers. destruct (is_attached I) as [k|]; simpl.
  - rewrite NoDup_cons. naive_solver.
  - naive_solver.
Qed.

Definition with_intent (t : TenantShard) (I : IntentState) : TenantShard := t <| ts_intent := I |>.

Lemma with_intent_same t : with_intent t (ts_intent t) = t.
Proof. by destruct t. Qed.
Lemma with_intent_twice t I I' : with_intent (with_intent t I) I' = with_intent t I'.
Proof. done. Qed.

(** An attached location is kept; otherwise a secondary is promoted, or a new node found
    when no secondary is usable. *)
Definition attached_choice (I : IntentState) (sk : gmap NodeId (AvailabilityZone * bool)) (modified : bool) (k : NodeId) (I' : IntentState) : Prop :=
  is_attached I' = Some k ∧
  match is_attached I with
  | Some j => modified = false ∧ I' = I
  | None => modified = true ∧ is_preferred_az_id I' = is_preferred_az_id I ∧
      ((k ∈ is_secondary I ∧ usable sk k ∧ is_secondary I' = filter (λ n, n ≠ k) (is_secondary I)) ∨
       (k ∉ is_secondary I ∧ usable sk k ∧ is_secondary I' = is_secondary I ∧ ∀ j, j ∈ is_secondary I → ¬ usable sk j))
  end.

Lemma schedule_attached_spec c D Is sk t s Q :
  sound D Is sk (t, s) →
  (∀ b k I' s', sound D Is sk (with_intent t I', s') → attached_choice (ts_intent t) sk b k I' →
    Q (Ok (b, k)) (with_intent t I', s')) →
  (∀ e s', sound D Is sk (t, s') → (∀ k, ¬ usable sk k) → Q (Err e) (t, s')) →
  wp (schedule_attached c) Q (t, s).
Proof.
  intros Hsound HOk HErr. unfold schedule_attached, get_shard. wp_steps.
  destruct (is_attached (ts_intent t)) as [j|] eqn:Hatt.
  { apply wp_ret. pose proof (HOk false j (ts_intent t) s) as H. rewrite with_intent_same in H.
    apply H; [done|]. unfold attached_choice. by rewrite Hatt. }
  wp_steps. destruct (preferred_secondary_spec (E := ScheduleError) t s (snd_known _ _ _ _ Hsound)) as (o & -> & Ho).
  pose proof (proj1 (intent_wf_iff _) (snd_wf _ _ _ _ Hsound)) as [Hnd _]. simpl in Hnd.
  pose proof (snd_skel _ _ _ _ Hsound) as Hsk. simpl in Hsk. rewrite Hsk in Ho.
  destruct o as [k|].
  - destruct Ho as [Hk Hu]. wp_steps. eapply on_intent_sound; [done|apply promote_attached_spec; try done; apply Hsound|..].
    + apply intent_wf_iff. simpl. split; [by apply NoDup_filter|]. intros ? [= <-].
      rewrite list_elem_of_filter. tauto.
    + intros j. rewrite !all_elem. simpl. rewrite list_elem_of_filter. naive_solver.
    + intros s' Hs'. apply wp_ret. apply HOk; [done|]. split; [done|]. rewrite Hatt. split; [done|].
      split; [done|]. left. done.
  - wp_steps. eapply on_schedule_sound; [apply _|done| |].
    + intros k s1 Hk Hus Hkn Hs1. wp_steps.
      eapply on_intent_sound; [done|apply set_attached_spec; [apply Hs1|done]|..].
      * apply intent_wf_iff. simpl. split; [done|]. by intros ? [= <-].
      * intros j. rewrite !all_elem. simpl. naive_solver.
      * intros s' Hs'. apply wp_ret. apply HOk; [done|]. split; [done|]. rewrite Hatt. split; [done|].
        split; [done|]. right. done.
    + intros e s' Hs' Hno. apply HErr; [done|]. intros k Hk. by apply (Ho k); [apply Hno|].
Qed.

Definition more_secondaries (I : IntentState) (l : list NodeId) : IntentState :=
  I <| is_secondary := is_secondary I ++ l |>.

Lemma more_secondaries_nil I : more_secondaries I [] = I.
Proof. unfold more_secondaries. rewrite app_nil_r. by destruct I. Qed.
Lemma more_secondaries_app I l l' : more_secondaries (more_secondaries I l) l' = more_secondaries I (l ++ l').
Proof. unfold more_secondaries. simpl. by rewrite app_assoc. Qed.

Lemma push_secondary_wf I k : intent_wf I → k ∉ all_pageservers I → intent_wf (more_secondaries I [k]).
Proof.
  rewrite !intent_wf_iff, all_elem. intros [Hnd Hatt] Hk. simpl. split.
  - apply NoDup_app. split; [done|]. split; [set_solver|]. apply NoDup_singleton.
  - intros j Hj. specialize (Hatt j Hj). set_solver.
Qed.

(** The intent of [t] extended by a new secondary *)
Lemma on_push_sound D Is sk t s k Q :
  sound D Is sk (t, s) → k ∉ all_pageservers (ts_intent t) → is_Some (s !! k) →
  (∀ s', sound D Is sk (with_intent t (more_secondaries (ts_intent t) [k]), s') →
    Q (Ok tt) (with_intent t (more_secondaries (ts_intent t) [k]), s')) →
  wp (on_intent (push_secondary k)) Q (t, s).
Proof.
  intros Hs Hk Hkn HQ. eapply on_intent_sound; [done|apply push_secondary_spec; [apply Hs|done]|..].
  - by apply push_secondary_wf; [apply (snd_wf _ _ _ _ Hs)|].
  - intros j. rewrite !all_elem. simpl. rewrite elem_of_app, list_elem_of_singleton. naive_solver.
  - done.
Qed.

Lemma add_secondaries_spec n c D Is sk Q fuel : ∀ t s used b,
  sound D Is sk (t, s) →
  (∀ k, k ∈ all_pageservers (ts_intent t) ↔ k ∈ used) →
  n - Z.of_nat (length (is_secondary (ts_intent t))) ≤ Z.of_nat fuel →
  (∀ l s', let t' := with_intent t (more_secondaries (ts_intent t) l) in sound D Is sk (t', s') →
    (∀ k, k ∈ l → usable sk k) →
    Z.of_nat (length (is_secondary (ts_intent t'))) = Z.max n (Z.of_nat (length (is_secondary (ts_intent t)))) →
    Q (Ok (b || bool_decide (l ≠ []))) (t', s')) →
  (∀ e l s', let t' := with_intent t (more_secondaries (ts_intent t) l) in sound D Is sk (t', s') →
    (∀ k, k ∈ l → usable sk k) → (∀ k, usable sk k → k ∈ all_pageservers (ts_intent t')) → Q (Err e) (t', s')) →
  wp (add_secondaries fuel n c used b) Q (t, s).
Proof.
  induction fuel as [|fuel IH]; intros t s used b Hs Hused Hfuel HOk HErr; simpl add_secondaries;
    (assert (Hnil : with_intent t (more_secondaries (ts_intent t) []) = t)
      by (rewrite more_secondaries_nil; apply with_intent_same));
    unfold get_shard; wp_steps; bool_prop; try lia.
  1,3: apply wp_ret; specialize (HOk [] s); rewrite Hnil in HOk; rewrite orb_false_r in HOk; apply HOk;
    [done|by intros k ?%elem_of_nil|lia].
  wp_steps. eapply on_schedule_sound; [apply _|done| |].
  2:{ intros e s' Hs' Hno. specialize (HErr e [] s'). rewrite Hnil in HErr. apply HErr; [done|by intros k ?%elem_of_nil|].
      intros k Hk. by apply Hused, Hno. }
  intros k s1 Hk Hus Hkn Hs1. wp_steps. eapply on_push_sound; [done|by intros ?%Hused|done|].
  intros s2 Hs2. eapply IH; [done|..].
  - intros j. rewrite !all_elem, elem_of_app. simpl. rewrite elem_of_app. specialize (Hused j).
    rewrite all_elem in Hused. rewrite <- Hused, list_elem_of_singleton. tauto.
  - simpl. rewrite length_app. simpl. lia.
  - intros l s' t' Hs' Hl Hlen. subst t'. rewrite with_intent_twice in *. simpl in *. rewrite more_secondaries_app in *.
    specialize (HOk ([k] ++ l) s'). rewrite (bool_decide_true ([k] ++ l ≠ [])), orb_true_r in HOk by done.
    apply HOk; [done|set_solver|]. simpl in *. rewrite !length_app in *. simpl in *. lia.
  - intros e l s' t' Hs' Hl Hno. subst t'. rewrite with_intent_twice in *. simpl in *. rewrite more_secondaries_app in *.
    apply HErr; [done|set_solver|done].
Qed.

(** The node is in the zone that the shard prefers. *)
Definition in_home_az (sk : gmap NodeId (AvailabilityZone * bool)) (I : IntentState) (k : NodeId) : bool :=
  bool_decide (fst <$> sk !! k = is_preferred_az_id I).

Lemma get_node_az_skel s k : get_node_az k s = fst <$> skel s !! k.
Proof. unfold get_node_az, skel. rewrite lookup_fmap. by destruct (s !! k). Qed.

Lemma remove_first_elem j k l : j ∈ remove_first k l → j ∈ l.
Proof.
  induction l as [|i l IH]; simpl; [done|]. destruct (Z.eqb_spec i k); rewrite ?elem_of_cons; naive_solver.
Qed.

Lemma remove_first_keeps j k l : j ∈ l → j ≠ k → j ∈ remove_first k l.
Proof.
  induction l as [|i l IH]; simpl; [done|]. rewrite elem_of_cons. intros Hj Hne.
  destruct (Z.eqb_spec i k); [naive_solver|]. rewrite elem_of_cons. naive_solver.
Qed.

Lemma remove_first_NoDup k l : NoDup l → NoDup (remove_first k l).
Proof.
  induction 1 as [|i l Hi Hnd IH]; simpl; [constructor|]. destruct (i =? k); [done|]. constructor; [|done].
  by intros ?%remove_first_elem.
Qed.

Lemma remove_first_length k l : k ∈ l → length l = S (length (remove_first k l)).
Proof.
  induction l as [|i l IH]; simpl; [by intros ?%elem_of_nil|]. destruct (Z.eqb_spec i k); [done|].
  intros [->|Hk]%elem_of_cons; [done|]. simpl. by rewrite <- IH.
Qed.

Lemma sort_by_bool_last {A} (key : A → bool) l x :
  last (sort_by_bool key l) = Some x → x ∈ l ∧ (key x = false → ∀ y, y ∈ l → key y = false).
Proof.
  unfold sort_by_bool. intros Hx. pose proof (last_Some_elem_of _ _ Hx) as Hin.
  rewrite elem_of_app, !list_elem_of_filter in Hin. split; [tauto|]. intros Hk y Hy.
  destruct (key y) eqn:Hky; [|done]. rewrite last_app in Hx.
  destruct (last (filter (λ x, key x = true) l)) as [z|] eqn:Hz.
  - injection Hx as ->. apply last_Some_elem_of, list_elem_of_filter in Hz as [? _]. congruence.
  - apply last_None in Hz. assert (Hy' : y ∈ filter (λ x, key x = true) l) by (by apply list_elem_of_filter).
    rewrite Hz in Hy'. by apply elem_of_nil in Hy'.
Qed.

Lemma sort_by_bool_nonempty {A} (key : A → bool) l : l ≠ [] → ∃ x, last (sort_by_bool key l) = Some x.
Proof.
  intros Hl. destruct (last (sort_by_bool key l)) as [x|] eqn:Hx; [by eexists|]. apply last_None in Hx.
  destruct l as [|y l]; [done|]. assert (Hy : y ∈ sort_by_bool key (y :: l)).
  { unfold sort_by_bool. rewrite elem_of_app, !list_elem_of_filter. destruct (key y); [right|left]; set_solver. }
  rewrite Hx in Hy. by apply elem_of_nil in Hy.
Qed.

Definition with_secondary (I : IntentState) (l : list NodeId) : IntentState := I <| is_secondary := l |>.

Lemma on_remove_sound D Is sk t s k Q :
  sound D Is sk (t, s) →
  (∀ s', let t' := with_intent t (with_secondary (ts_intent t) (remove_first k (is_secondary (ts_intent t)))) in
    sound D Is sk (t', s') → Q (Ok tt) (t', s')) →
  wp (on_intent (remove_secondary k)) Q (t, s).
Proof.
  intros Hs HQ. eapply on_intent_sound; [done|apply remove_secondary_spec, Hs|..].
  - pose proof (snd_wf _ _ _ _ Hs) as Hwf. rewrite intent_wf_iff in *. destruct Hwf as [Hnd Hatt]. simpl. split.
    + by apply remove_first_NoDup.
    + intros j Hj Hin. by eapply Hatt, remove_first_elem.
  - intros j. rewrite !all_elem. simpl. intros [?|?%remove_first_elem]; auto.
  - done.
Qed.

Ltac nat_bool :=
  repeat match goal with
  | H : (_ <? _)%nat = true |- _ => apply Nat.ltb_lt in H
  | H : (_ <? _)%nat = false |- _ => apply Nat.ltb_ge in H
  end.

Lemma trim_secondaries_spec D Is sk Q fuel : ∀ t s b,
  sound D Is sk (t, s) → (length (is_secondary (ts_intent t)) ≤ S fuel)%nat →
  (∀ l s', let t' := with_intent t (with_secondary (ts_intent t) l) in sound D Is sk (t', s') →
    Z.of_nat (length l) = Z.min 1 (Z.of_nat (length (is_secondary (ts_intent t)))) →
    (∀ k, k ∈ l → k ∈ is_secondary (ts_intent t)) →
    ((∃ j, j ∈ is_secondary (ts_intent t) ∧ in_home_az sk (ts_intent t) j = true) →
      ∃ j, j ∈ l ∧ in_home_az sk (ts_intent t) j = true) →
    Q (Ok (b || bool_decide (l ≠ is_secondary (ts_intent t)))) (t', s')) →
  wp (trim_secondaries fuel b) Q (t, s).
Proof.
  induction fuel as [|fuel IH]; intros t s b Hs Hfuel HQ; simpl trim_secondaries; wp_steps;
    (assert (Hsame : with_intent t (with_secondary (ts_intent t) (is_secondary (ts_intent t))) = t)
      by (unfold with_secondary; by destruct t as [? ? ? ? []])).
  1: nat_bool; exfalso; lia.
  1,3: nat_bool; specialize (HQ (is_secondary (ts_intent t)) s); rewrite Hsame in HQ;
    rewrite (bool_decide_false (is_secondary (ts_intent t) ≠ is_secondary (ts_intent t))), orb_false_r in HQ
      by (intros Hx; by apply Hx); apply HQ; [done|lia|done|done].
  pose proof (snd_skel _ _ _ _ Hs) as Hskel. simpl in Hskel.
  nat_bool. set (key := λ n, negb (bool_decide (get_node_az n s = preferred_az t))).
  destruct (sort_by_bool_nonempty key (is_secondary (ts_intent t))) as [x Hx];
    [intros Hn; rewrite Hn in H; simpl in H; lia|].
  rewrite Hx. simpl. destruct (sort_by_bool_last _ _ _ Hx) as [Hin Hlast].
  wp_steps. eapply on_remove_sound; [done|]. intros s1 t1 Hs1.
  pose proof (remove_first_length _ _ Hin) as Hlen.
  eapply IH; [done|subst t1; simpl; lia|].
  intros l s' t' Hs' Hl Hsub Haz. subst t1 t'. simpl in *. rewrite with_intent_twice in *.
  assert (Hl1 : Z.of_nat (length l) = Z.min 1 (Z.of_nat (length (is_secondary (ts_intent t))))) by lia.
  specialize (HQ l s'). rewrite bool_decide_true, orb_true_r in HQ by (intros ->; lia). simpl.
  apply HQ; [done|done| |].
  - intros k Hk. by eapply remove_first_elem, Hsub.
  - intros (j & Hj & Hhome). apply Haz. destruct (decide (j = x)) as [->|Hne].
    + destruct (is_secondary (ts_intent t)) as [|y [|z ys]] eqn:Hsec; [done|simpl in *; lia|].
      assert (Hkx : key x = false).
      { unfold key, in_home_az, preferred_az in *. rewrite get_node_az_skel, Hskel. by rewrite Hhome. }
      assert (∃ w, w ∈ remove_first x (y :: z :: ys)) as [w Hw].
      { destruct (remove_first x (y :: z :: ys)) as [|w ?]; [simpl in Hlen; lia|]. exists w. by left. }
      exists w. split; [done|]. specialize (Hlast Hkx w (remove_first_elem _ _ _ Hw)).
      unfold key, in_home_az, preferred_az in *. rewrite get_node_az_skel, Hskel in Hlast.
      by apply negb_false_iff in Hlast.
    + exists j. split; [by apply remove_first_keeps|done].
Qed.

(** *** The policy is fulfilled *)

Definition fulfils (policy : PlacementPolicy) (I : IntentState) : Prop :=
  match policy with
  | PolicyAttached n => is_Some (is_attached I) ∧ n ≤ Z.of_nat (length (is_secondary I))
  | PolicySecondary => is_attached I = None ∧ length (is_secondary I) = 1%nat
  | PolicyDetached => all_pageservers I = []
  end.

(** No secondary is in the way of new ones: see [schedule_second_secondary_panics]. *)
Definition extendable (policy : PlacementPolicy) (I : IntentState) : Prop :=
  match policy with PolicyAttached n => n ≤ 1 ∨ is_secondary I = [] | _ => True end.

(** With an attached location, locations are only added. *)
Definition keeps (t : TenantShard) (I' : IntentState) : Prop :=
  ∀ n k, ts_policy t = PolicyAttached n → is_attached (ts_intent t) = Some k →
    is_attached I' = Some k ∧ is_secondary (ts_intent t) `prefix_of` is_secondary I'.

(** New locations are on nodes that may be scheduled. *)
Definition news (sk : gmap NodeId (AvailabilityZone * bool)) (t : TenantShard) (I' : IntentState) : Prop :=
  ∀ k, k ∈ all_pageservers I' → k ∈ all_pageservers (ts_intent t) ∨ usable sk k.

(** An error leaves the intent as it was, unless the policy is to attach the shard. *)
Definition unless_attached (t : TenantShard) (I' : IntentState) : Prop :=
  (∃ n, ts_policy t = PolicyAttached n) ∨ I' = ts_intent t.

(** What an arm of [do_schedule] leaves behind; on an error every node that could be used
    already is. *)
Definition arm_post (D : NodeId → Prop) (Is : list IntentState) (sk : gmap NodeId (AvailabilityZone * bool)) (t : TenantShard)
    (r : outcome ScheduleError bool) (st' : TenantShard * Scheduler) : Prop :=
  sound D Is sk st' ∧ st'.1 = with_intent t (ts_intent st'.1) ∧
  keeps t (ts_intent st'.1) ∧ news sk t (ts_intent st'.1) ∧
  match r with
  | Ok b => b = bool_decide (ts_intent st'.1 ≠ ts_intent t) ∧ fulfils (ts_policy t) (ts_intent st'.1)
  | Err _ => unless_attached t (ts_intent st'.1) ∧ ∀ k, usable sk k → k ∈ all_pageservers (ts_intent st'.1)
  | Panic => False
  end.

Lemma schedule_for_attached_spec n c D Is sk t s :
  sound D Is sk (t, s) → ts_policy t = PolicyAttached n → extendable (ts_policy t) (ts_intent t) →
  wp (schedule_for_attached n c) (arm_post D Is sk t) (t, s).
Proof.
  intros Hs Hpol Hext. rewrite Hpol in Hext. unfold schedule_for_attached. wp_steps.
  eapply schedule_attached_spec; [done| |].
  2:{ intros e s' Hs' Hno. split; [done|]. split; [by rewrite with_intent_same|].
      split; [by intros m j _ ?|]. split; [by intros k; left|]. split; [by right|]. intros k Hk. by destruct (Hno k). }
  intros b k I1 s1 Hs1 [Hk Hch]. unfold get_shard. wp_steps. unfold arm_post. rewrite Hpol. simpl fulfils.
  assert (Hb : ∀ l, b || bool_decide (l ≠ []) = bool_decide (more_secondaries I1 l ≠ ts_intent t)).
  { intros l. destruct (is_attached (ts_intent t)) as [j|] eqn:Hatt.
    - destruct Hch as [-> ->]. apply bool_decide_ext. f_equiv. split; [intros ->; apply more_secondaries_nil|].
      intros Heq. assert (Hsec : is_secondary (ts_intent t) ++ l = is_secondary (ts_intent t))
        by (by rewrite <- Heq at 2). apply (f_equal length) in Hsec. rewrite length_app in Hsec.
      destruct l; [done|simpl in Hsec; lia].
    - destruct Hch as [-> _]. symmetry. apply bool_decide_true. intros Heq.
      assert (Ha : is_attached (more_secondaries I1 l) = is_attached (ts_intent t)) by (by rewrite Heq).
      simpl in Ha. congruence. }
  assert (Hkeeps : ∀ l, keeps t (more_secondaries I1 l)).
  { intros l m j _ Hj. rewrite Hj in Hch. destruct Hch as [_ ->]. split; [done|]. by apply prefix_app_r. }
  assert (Hnews : ∀ l, (∀ j, j ∈ l → usable sk j) → news sk t (more_secondaries I1 l)).
  { intros l Hl j. rewrite !all_elem. simpl. rewrite elem_of_app, Hk.
    destruct (is_attached (ts_intent t)) eqn:Hatt; [destruct Hch as [_ ->]; naive_solver|].
    destruct Hch as (_ & _ & [(? & ? & ->)|(? & ? & -> & _)]); rewrite ?list_elem_of_filter; naive_solver. }
  destruct (decide (n ≤ Z.of_nat (length (is_secondary I1)))) as [Hle|Hgt].
  - replace (Z.to_nat (n - Z.of_nat (length (is_secondary I1)))) with 0%nat by lia.
    simpl add_secondaries. unfold get_shard. wp_steps; bool_prop; [lia|].
    specialize (Hb []). specialize (Hkeeps []). specialize (Hnews []).
    rewrite more_secondaries_nil, ?orb_false_r in *. split; [done|]. split; [done|]. simpl. split; [done|].
    split; [by apply Hnews; intros ? ?%elem_of_nil|]. split; [done|]. split; [by eexists|done].
  - assert (Hsec : is_secondary I1 = []).
    { destruct (is_attached (ts_intent t)) eqn:Hatt; [destruct Hch as [_ ->]|destruct Hch as (_ & _ & Hch)].
      - destruct Hext; [|done]. destruct (is_secondary (ts_intent t)); [done|simpl in *; lia].
      - destruct Hext as [Hn|Hnil]; [destruct (is_secondary I1); [done|simpl in *; lia]|].
        rewrite Hnil in Hch. destruct Hch as [(_ & _ & ->)|(_ & _ & -> & _)]; done. }
    eapply add_secondaries_spec; [done|..].
    + intros j. rewrite all_elem. simpl. rewrite Hsec, Hk, list_elem_of_singleton. set_solver.
    + simpl. lia.
    + intros l s' t' Hs' Hl Hlen. subst t'. rewrite with_intent_twice in *. split; [done|]. split; [done|].
      split; [apply Hkeeps|]. split; [by apply Hnews|]. simpl in *. rewrite Hb. split; [done|]. split; [by eexists|]. lia.
    + intros e l s' t' Hs' Hl Hno. subst t'. rewrite with_intent_twice in *. split; [done|]. split; [done|].
      split; [apply Hkeeps|]. split; [by apply Hnews|]. split; [left; by eexists|done].
Qed.

(** After [populate_secondary] there is a secondary and no attached location. *)
Lemma populate_secondary_spec c D Is sk t s Q :
  sound D Is sk (t, s) →
  (∀ b I' s', sound D Is sk (with_intent t I', s') →
    (if (b : bool) then is_attached (ts_intent t) ≠ None ∨ is_secondary (ts_intent t) = [] else I' = ts_intent t) →
    is_attached I' = None → is_secondary I' ≠ [] →
    (∀ k, k ∈ all_pageservers (ts_intent t) → k ∈ is_secondary I') →
    is_preferred_az_id I' = is_preferred_az_id (ts_intent t) → news sk t I' →
    Q (Ok b) (with_intent t I', s')) →
  (∀ e s', sound D Is sk (t, s') → (∀ k, ¬ usable sk k) → Q (Err e) (t, s')) →
  wp (populate_secondary c) Q (t, s).
Proof.
  intros Hs HOk HErr. unfold populate_secondary, get_shard. wp_steps.
  pose proof (proj1 (intent_wf_iff _) (snd_wf _ _ _ _ Hs)) as [Hnd Hatt']. simpl in *.
  destruct (is_attached (ts_intent t)) as [k|] eqn:Hatt; [|destruct (is_secondary (ts_intent t)) as [|j l] eqn:Hsec].
  - wp_steps. pose proof (demote_attached_spec (E := ScheduleError) D Is _ _ (snd_acc _ _ _ _ Hs) k) as Hd.
    simpl in Hd. rewrite Hatt, bool_decide_true in Hd by done.
    eapply on_intent_sound; [done|exact Hd|..].
    + apply intent_wf_iff. simpl. split; [|done]. apply NoDup_app. split; [done|]. split; [|apply NoDup_singleton].
      intros x Hx ->%list_elem_of_singleton. by apply (Hatt' k).
    + intros x. rewrite !all_elem. simpl. rewrite elem_of_app, list_elem_of_singleton. naive_solver.
    + intros s' Hs'. apply wp_ret. apply HOk; try done.
      * by left.
      * simpl. by intros [_ ?]%app_nil.
      * intros x. rewrite all_elem. simpl. rewrite elem_of_app, list_elem_of_singleton. naive_solver.
      * intros x. rewrite !all_elem. simpl. rewrite elem_of_app, list_elem_of_singleton. naive_solver.
  - wp_steps. eapply on_schedule_sound; [apply _|done| |].
    2:{ intros e s' Hs' Hno. apply HErr; [done|]. intros x Hx%Hno. by apply elem_of_nil in Hx. }
    intros k s1 _ Hus Hkn Hs1. wp_steps. eapply on_push_sound; [done| |done|].
    { rewrite all_elem, Hatt, Hsec. intros [?|?%elem_of_nil]; done. }
    intros s2 Hs2. apply wp_ret. apply HOk; try done.
    + by right.
    + simpl. by intros [_ ?]%app_nil.
    + intros x. rewrite all_elem, Hatt, Hsec. by intros [?|?%elem_of_nil].
    + intros x. rewrite !all_elem. simpl. rewrite elem_of_app, list_elem_of_singleton. naive_solver.
  - apply wp_ret. pose proof (HOk false (ts_intent t) s) as H. rewrite with_intent_same in H.
    apply H; try done.
    + by rewrite Hsec.
    + intros x. rewrite all_elem, Hatt, Hsec. by intros [?|?].
    + by left.
Qed.

Lemma schedule_for_secondary_spec c D Is sk t s :
  sound D Is sk (t, s) → ts_policy t = PolicySecondary →
  wp (schedule_for_secondary c) (λ r st', arm_post D Is sk t r st' ∧
    (is_ok r = true → (∃ k, k ∈ all_pageservers (ts_intent t) ∧ in_home_az sk (ts_intent t) k = true) →
      ∃ k, k ∈ all_pageservers (ts_intent st'.1) ∧ in_home_az sk (ts_intent t) k = true)) (t, s).
Proof.
  intros Hs Hpol. unfold schedule_for_secondary. wp_steps. eapply populate_secondary_spec; [done| |].
  2:{ intros e s' Hs' Hno. split; [|done]. split; [done|]. split; [by rewrite with_intent_same|].
      split; [intros n k Hn; congruence|]. split; [by intros k; left|]. split; [by right|]. intros k Hk. by destruct (Hno k). }
  intros b I1 s1 Hs1 Hb Hatt Hne Hkeep Haz Hnews. unfold get_shard. wp_steps.
  eapply trim_secondaries_spec; [done|simpl; lia|].
  intros l s' t' Hs' Hlen Hsub Hhome. subst t'. rewrite with_intent_twice in *. simpl in *.
  assert (Hl : length l = 1%nat) by (destruct (is_secondary I1); [done|simpl in *; lia]).
  unfold arm_post, keeps. rewrite Hpol. simpl. split; [split; [done|split; [done|split; [done|split; [|split; [|done]]]]]|].
  - intros k. rewrite all_elem. simpl. intros [?|Hk%Hsub]; [congruence|]. apply Hnews. rewrite all_elem. by right.
  - destruct b; simpl.
    + symmetry. apply bool_decide_true. intros Heq. rewrite <- Heq in Hb. simpl in Hb.
      destruct Hb as [? | ->]; done.
    + subst I1. apply bool_decide_ext. unfold with_secondary. destruct (ts_intent t). simpl.
      split; intros Hx Heq; apply Hx; [by injection Heq|by rewrite Heq].
  - intros _ (k & Hk & Hkh). destruct Hhome as (j & Hj & Hjh).
    { exists k. split; [by apply Hkeep|]. unfold in_home_az in *. by rewrite Haz. }
    exists j. split; [rewrite all_elem; by right|]. unfold in_home_az in *. by rewrite <- Haz.
Qed.

Lemma schedule_for_detached_spec D Is sk t s :
  sound D Is sk (t, s) → ts_policy t = PolicyDetached →
  wp schedule_for_detached (arm_post D Is sk t) (t, s).
Proof.
  intros Hs Hpol. unfold schedule_for_detached, get_shard. wp_steps. unfold arm_post, keeps. rewrite Hpol. simpl.
  destruct (all_pageservers (ts_intent t)) as [|k l] eqn:Hall.
  - split; [done|]. split; [by rewrite with_intent_same|]. split; [done|]. split; [by left|]. split; [|done].
    symmetry. apply bool_decide_false.
    by intros Hx.
  - wp_steps. eapply on_intent_sound; [done|apply clear_spec, Hs|apply NoDup_nil_2|by intros x ?%elem_of_nil|].
    intros s' Hs'. apply wp_ret. split; [done|]. split; [done|]. split; [done|]. split; [by intros x ?%elem_of_nil|].
    split; [|done]. symmetry. apply bool_decide_true. intros Heq. by rewrite <- Heq in Hall.
Qed.

Definition scheduling_on (p : ShardSchedulingPolicy) : bool :=
  match p with ShardActive | ShardEssential => true | ShardPause | ShardStop => false end.

(** What [do_schedule] promises. *)
Definition do_schedule_post (D : NodeId → Prop) (Is : list IntentState) (sk : gmap NodeId (AvailabilityZone * bool)) (t : TenantShard)
    (r : outcome ScheduleError unit) (st' : TenantShard * Scheduler) : Prop :=
  sound D Is sk st' ∧ keeps t (ts_intent st'.1) ∧ news sk t (ts_intent st'.1) ∧
  match r with
  | Ok _ =>
    if scheduling_on (ts_scheduling_policy t) then
      fulfils (ts_policy t) (ts_intent st'.1) ∧
      st'.1 = (if decide (ts_intent st'.1 = ts_intent t) then t
               else with_intent t (ts_intent st'.1) <| ts_sequence := wrapping_add 64 (ts_sequence t) 1 |>)
    else st'.1 = t
  | Err _ => st'.1 = with_intent t (ts_intent st'.1) ∧ unless_attached t (ts_intent st'.1) ∧
      ∀ k, usable sk k → k ∈ all_pageservers (ts_intent st'.1)
  | Panic => False
  end.

Lemma sound_sequence D Is sk t s x : sound D Is sk (t, s) → sound D Is sk (t <| ts_sequence := x |>, s).
Proof. by intros []. Qed.

Lemma do_schedule_spec c D Is sk t s :
  sound D Is sk (t, s) → extendable (ts_policy t) (ts_intent t) →
  wp (do_schedule c) (do_schedule_post D Is sk t) (t, s).
Proof.
  intros Hs Hext. unfold do_schedule, get_shard. wp_steps.
  assert (Hoff : scheduling_on (ts_scheduling_policy t) = false →
    wp (mret tt) (do_schedule_post D Is sk t) (t, s)).
  { intros Hoff. split; [done|]. rewrite Hoff. split; [by intros n k _ ?|]. split; [by left|done]. }
  assert (Hon : scheduling_on (ts_scheduling_policy t) = true →
    wp ((match ts_policy t with
         | PolicyAttached secondary_count => schedule_for_attached secondary_count c
         | PolicySecondary => schedule_for_secondary c
         | PolicyDetached => schedule_for_detached
         end) ≫= λ modified : bool, if modified then modify_shard (λ self, self <| ts_sequence := wrapping_add 64 (ts_sequence self) 1 |>)
           else mret tt) (do_schedule_post D Is sk t) (t, s)).
  { intros Hon. apply wp_bind. eapply (wp_mono _ (arm_post D Is sk t)).
    - destruct (ts_policy t) eqn:Hpol.
      + by apply schedule_for_attached_spec; [|by rewrite Hpol|by rewrite Hpol].
      + eapply wp_mono; [by apply schedule_for_secondary_spec|]. by intros r st' [? _].
      + by apply schedule_for_detached_spec.
    - intros [b|e|] [t' s'] (Hs' & Ht' & Hkeep & Hnews & Hr); simpl in *; [|by split; [|split; [|split]]|done].
      destruct Hr as [-> Hf]. case_bool_decide as Hne.
      + unfold modify_shard. wp_steps. split; [by apply sound_sequence|]. simpl. rewrite Hon. split; [done|].
        split; [done|]. split; [done|]. rewrite decide_False by done. by rewrite Ht'.
      + apply wp_ret. split; [done|]. simpl. rewrite Hon. split; [done|].
        split; [done|]. split; [done|]. rewrite decide_True by done. rewrite Ht', Hne. apply with_intent_same. }
  destruct (ts_scheduling_policy t); auto.
Qed.

(** ** Optimizations *)

Lemma sound_equiv D Is sk t s s' : s' ≡ s → sound D Is sk (t, s) → sound D Is sk (t, s').
Proof.
  intros Heq [Hsk Hacc Hwf Hkn Hsc]. pose proof (equiv_skel _ _ Heq) as Hsk'. simpl in *.
  split; simpl; [congruence|by eapply equiv_counted|done| |by eapply equiv_scorable].
  intros k Hk. apply (skel_known s' s k Hsk'). auto.
Qed.

Section better.
Context (S : Type) `{NodeSchedulingScoreLaws S}.

(** The score that a node has for the shard *)
Definition score_on (t : TenantShard) (c : ScheduleContext) (s : Scheduler) (k : NodeId) : option S :=
  n ← s !! k; node_score S (is_preferred_az_id (ts_intent t)) c k n.

(** The candidate has a lower score, apart from the load of the nodes. *)
Definition better (t : TenantShard) (c : ScheduleContext) (s : Scheduler) (current cand : NodeId) : Prop :=
  ∃ x y, score_on t c s cand = Some x ∧ score_on t c s current = Some y ∧
    score_lt (for_optimization x) (for_optimization y) = true.

Lemma score_on_equiv t c s s' k : s' ≡ s → score_on t c s' k = score_on t c s k.
Proof.
  intros Heq. unfold score_on. destruct (Heq k) as [n n' Hn|]; [|done]. simpl. unfold node_score.
  rewrite (utilization_of_proper _ _ Hn). destruct (utilization_of n'); [|done]. simpl. f_equal.
  by apply mk_score_proper.
Qed.

(** Reading a score changes caches only, and cannot fail. *)
Definition reads (s : Scheduler) {A} (m : SchedM A) (P : A → Prop) : Prop :=
  wp m (λ r s', s' ≡ s ∧ match r with Ok a => P a | _ => False end) s.

Lemma sched_reads_bind {A B} s (m : SchedM A) (f : A → SchedM B) (P : A → Prop) (P' : B → Prop) :
  scorable s → reads s m P → (∀ a s', s' ≡ s → scorable s' → P a → reads s' (f a) P') → reads s (m ≫= f) P'.
Proof.
  intros Hsc Hm Hf. unfold reads in *. apply wp_bind. eapply wp_mono; [exact Hm|].
  intros [a|e|] s' [Heq Ha]; [|done..]. eapply wp_mono; [apply Hf; [done|by eapply equiv_scorable|done]|].
  intros r s'' [Heq' Hr]. split; [by etrans|done].
Qed.

Lemma compute_node_score_reads t c s k :
  scorable s →
  reads s (compute_node_score S k (is_preferred_az_id (ts_intent t)) c) (λ o, o = score_on t c s k).
Proof.
  intros Hsc. unfold reads. eapply wp_mono; [apply (compute_node_score_spec S)|].
  intros [o|e|] s' [Heq Hr]; (split; [done|]); [by destruct Hr|done|].
  destruct Hr as (n & Hn & Hp). eapply (scorable_candidate []); [exact Hsc|]. split; [|by exists n]. set_solver.
Qed.

Lemma is_better_location_spec t c s cur cand :
  scorable s →
  reads s (is_better_location S t c cur cand) (λ o,
    o = Some true → is_Some (s !! cand) ∧ (ts_preferred_node t = Some cand ∨ better t c s cur cand)).
Proof.
  intros Hsc. unfold is_better_location. eapply sched_reads_bind; [done|by apply compute_node_score_reads|].
  intros o s1 Heq1 Hsc1 ->. destruct (score_on t c s cand) as [x|] eqn:Hx; [|done].
  assert (Hkn : is_Some (s !! cand)).
  { unfold score_on in Hx. destruct (s !! cand); [by eexists|done]. }
  case_bool_decide as Hp; [split; [done|]; intros _; by auto|].
  eapply sched_reads_bind; [done|by apply compute_node_score_reads|]. intros o s2 Heq2 Hsc2 ->.
  split; [done|]. rewrite (score_on_equiv _ _ _ _ _ Heq1).
  destruct (score_on t c s cur) as [y|] eqn:Hy; [|done]. simpl. intros [= Hlt]. split; [done|]. right.
  by exists x, y.
Qed.

Lemma find_better_location_spec t c s cur he :
  scorable s →
  reads s (find_better_location S t c cur he) (λ o, ∀ k, o = Some k → k ≠ cur ∧
    (ts_preferred_node t = Some k ∨
     ts_preferred_node t = None ∧ k ∉ he ∧ is_Some (s !! k) ∧ better t c s cur k)).
Proof.
  intros Hsc. unfold find_better_location. destruct (ts_preferred_node t) as [hint|] eqn:Hhint.
  { split; [done|]. destruct (Z.eqb_spec hint cur); [done|]. intros k [= <-]. by auto. }
  eapply (sched_reads_bind s _ _ (λ o, ∀ k, o = Some k → k ∉ he ∧ is_Some (s !! k))); [done| |].
  { unfold reads, wp, st_try.
    pose proof (schedule_shard_correct S he (is_preferred_az_id (ts_intent t)) c s) as Hss. unfold wp in Hss.
    destruct (schedule_shard _ _ _ _ s) as [r s']. simpl in Hss. destruct Hss as [Heq Hr].
    destruct r as [k|e|]; simpl; (split; [done|]).
    - intros ? [= <-]. destruct Hr as [(x & Hx & _) _]. apply candidate_Some in Hx as (Hk & n & Hn & _). eauto.
    - done.
    - destruct Hr as [k Hk]. by eapply scorable_candidate. }
  intros o s1 Heq1 Hsc1 Ho. destruct o as [cand|]; [|done].
  destruct (Z.eqb_spec cand cur) as [|Hne]; [done|].
  eapply sched_reads_bind; [done|by apply is_better_location_spec|]. intros b s2 Heq2 Hsc2 Hb. split; [done|].
  destruct b as [[]|]; [|done..]. simpl. intros ? [= <-]. split; [done|]. right.
  destruct (Ho cand) as [Hhe Hkn]; [done|]. split; [done|]. split; [done|]. split; [done|].
  destruct Hb as [_ [?|Hb]]; [done|congruence|]. destruct Hb as (x & y & Hx & Hy & Hlt).
  exists x, y. by rewrite <- !(score_on_equiv _ _ _ _ _ Heq1).
Qed.
End better.

(** The action can be carried out on the intent. *)
Definition applicable (s : Scheduler) (I : IntentState) (a : ScheduleOptimizationAction) : Prop :=
  match a with
  | MigrateAttachment old new => is_attached I = Some old ∧ new ∈ is_secondary I
  | ReplaceSecondary old new => new ∉ all_pageservers I ∧ is_Some (s !! new)
  | CreateSecondary new => new ∉ all_pageservers I ∧ is_Some (s !! new)
  | OptRemoveSecondary old => True
  end.

(** The attached location changes places with a secondary. *)
Definition promoted (I : IntentState) (k : NodeId) : IntentState :=
  mkIntentState (Some k) (filter (λ n, n ≠ k) (is_secondary I ++ option_list (is_attached I))) (is_preferred_az_id I).

Definition apply_action (a : ScheduleOptimizationAction) (I : IntentState) : IntentState :=
  match a with
  | MigrateAttachment old new => promoted I new
  | ReplaceSecondary old new => more_secondaries (with_secondary I (remove_first old (is_secondary I))) [new]
  | CreateSecondary new => more_secondaries I [new]
  | OptRemoveSecondary old => with_secondary I (remove_first old (is_secondary I))
  end.

Definition demoted (I : IntentState) : IntentState :=
  mkIntentState None (is_secondary I ++ option_list (is_attached I)) (is_preferred_az_id I).

Lemma promoted_demoted I k : promoted (demoted I) k = promoted I k.
Proof. unfold promoted, demoted. simpl. by rewrite app_nil_r. Qed.

Lemma on_promote_sound D Is sk t s k Q :
  sound D Is sk (t, s) → is_attached (ts_intent t) = None → k ∈ is_secondary (ts_intent t) →
  (∀ s', sound D Is sk (with_intent t (promoted (ts_intent t) k), s') →
    Q (Ok tt) (with_intent t (promoted (ts_intent t) k), s')) →
  wp (on_intent (promote_attached k)) Q (t, s).
Proof.
  intros Hs Hatt Hk HQ. pose proof (proj1 (intent_wf_iff _) (snd_wf _ _ _ _ Hs)) as [Hnd _]. simpl in Hnd.
  unfold promoted in HQ. rewrite Hatt, app_nil_r in HQ.
  eapply on_intent_sound; [done|apply promote_attached_spec; [apply Hs|done..]|..|].
  - apply intent_wf_iff. simpl. split; [by apply NoDup_filter|]. intros ? [= <-]. rewrite list_elem_of_filter. tauto.
  - intros j. rewrite !all_elem. simpl. rewrite list_elem_of_filter. naive_solver.
  - done.
Qed.

Lemma on_demote_sound D Is sk t s old Q :
  sound D Is sk (t, s) → is_attached (ts_intent t) = Some old →
  (∀ s', sound D Is sk (with_intent t (demoted (ts_intent t)), s') →
    Q (Ok true) (with_intent t (demoted (ts_intent t)), s')) →
  wp (on_intent (demote_attached old)) Q (t, s).
Proof.
  intros Hs Hatt HQ. pose proof (proj1 (intent_wf_iff _) (snd_wf _ _ _ _ Hs)) as [Hnd Hatt']. simpl in *.
  pose proof (demote_attached_spec (E := ScheduleError) D Is _ _ (snd_acc _ _ _ _ Hs) old) as Hd.
  simpl in Hd. rewrite Hatt, bool_decide_true in Hd by done. unfold demoted in HQ. rewrite Hatt in HQ.
  eapply on_intent_sound; [done|exact Hd|..|done].
  - apply intent_wf_iff. simpl. split; [|done]. apply NoDup_app. split; [done|]. split; [|apply NoDup_singleton].
    intros x Hx ->%list_elem_of_singleton. by apply (Hatt' old).
  - intros x. rewrite !all_elem. simpl. rewrite elem_of_app, list_elem_of_singleton. naive_solver.
Qed.

Lemma demote_promote_spec D Is sk t s old new Q :
  sound D Is sk (t, s) → is_attached (ts_intent t) = Some old → new ∈ is_secondary (ts_intent t) →
  (∀ s', sound D Is sk (with_intent t (promoted (ts_intent t) new), s') →
    Q (Ok tt) (with_intent t (promoted (ts_intent t) new), s')) →
  wp (on_intent (demote_attached old) ≫= λ _, on_intent (promote_attached new)) Q (t, s).
Proof.
  intros Hs Hatt Hnew HQ. apply wp_bind. eapply on_demote_sound; [done..|]. intros s1 Hs1.
  eapply on_promote_sound; [done|done|simpl; set_solver|]. simpl. rewrite promoted_demoted. apply HQ.
Qed.

Lemma sound_preferred D Is sk t s x : sound D Is sk (t, s) → sound D Is sk (t <| ts_preferred_node := x |>, s).
Proof. by intros []. Qed.

(** An optimization that was planned for this sequence and is applicable is carried out;
    one for another sequence is dropped. *)
Lemma apply_optimization_spec D Is sk t s o :
  sound D Is sk (t, s) → (so_sequence o = ts_sequence t → applicable s (ts_intent t) (so_action o)) →
  wp (apply_optimization o) (λ r st', r = Ok (so_sequence o =? ts_sequence t) ∧ sound D Is sk st' ∧
    if so_sequence o =? ts_sequence t
    then ∃ p, (p = None ∨ p = ts_preferred_node t) ∧ st'.1 = with_intent t (apply_action (so_action o) (ts_intent t)) <| ts_preferred_node := p |>
    else st'.1 = t) (t, s).
Proof.
  intros Hs Happ. unfold apply_optimization, get_shard. wp_steps.
  { by apply negb_true_iff in H as ->. }
  apply negb_false_iff in H as Hseq. rewrite Hseq. apply Z.eqb_eq, Happ in Hseq. simpl.
  destruct (so_action o) as [old new|old new|new|old] eqn:Ho; simpl in *.
  - destruct Hseq as [Hnew Hkn]. apply wp_bind. eapply on_remove_sound; [done|]. intros s1 t1 Hs1.
    eapply on_push_sound; [done| | |].
    + subst t1. rewrite all_elem in *. simpl. intros [?|?%remove_first_elem]; tauto.
    + apply (skel_known s1 s new); [|done].
      pose proof (snd_skel _ _ _ _ Hs1). pose proof (snd_skel _ _ _ _ Hs). simpl in *. congruence.
    + intros s2 Hs2. wp_steps. split; [done|]. split; [done|]. exists (ts_preferred_node t). auto.
  - apply wp_bind_assoc. apply wp_bind. eapply demote_promote_spec; [done|tauto..|]. intros s1 Hs1.
    unfold modify_shard. wp_steps. split; [done|]. simpl. split.
    + case_bool_decide; [by apply sound_preferred|done].
    + case_bool_decide; [exists None; auto|exists (ts_preferred_node t); auto].
  - destruct Hseq. eapply on_push_sound; [done..|]. intros s1 Hs1. wp_steps. split; [done|]. split; [done|].
    exists (ts_preferred_node t). auto.
  - eapply on_remove_sound; [done|]. intros s1 t1 Hs1. wp_steps. split; [done|]. split; [done|].
    exists (ts_preferred_node t). auto.
Qed.

(** *** The planned optimizations *)

Lemma better_secondary_spec t c attached l : ∀ s,
  scorable s →
  reads s (better_secondary t c attached l) (λ o, ∀ k, o = Some k → k ∈ l ∧
    (ts_preferred_node t = Some k ∨ better NodeAttachmentSchedulingScore t c s attached k)).
Proof.
  induction l as [|j l IH]; intros s Hsc; simpl better_secondary; [done|].
  eapply sched_reads_bind; [done|by apply is_better_location_spec|]. intros o s1 Heq Hsc1 Ho.
  assert (Hrest : reads s1 (better_secondary t c attached l) (λ o, ∀ k, o = Some k → k ∈ j :: l ∧
    (ts_preferred_node t = Some k ∨ better NodeAttachmentSchedulingScore t c s attached k))).
  { eapply wp_mono; [apply IH, Hsc1|]. intros r s2 [? Hr]. split; [done|]. destruct r as [o'|e|]; [|done..].
    intros k Hk. destruct (Hr k Hk) as [Hin Hb]. split; [by right|]. destruct Hb as [?|Hb]; [by left|right].
    destruct Hb as (x & y & Hx & Hy & Hlt). exists x, y. by rewrite <- !(score_on_equiv _ _ _ _ _ _ Heq). }
  destruct o as [[]|]; [|done..]. split; [done|]. intros ? [= <-]. split; [by left|]. by apply Ho.
Qed.

Lemma secondary_scores_spec t c l : ∀ s,
  scorable s → reads s (secondary_scores t c l) (λ scores, scores.*1 = l).
Proof.
  induction l as [|j l IH]; intros s Hsc; simpl secondary_scores; [done|].
  eapply sched_reads_bind; [done|by apply compute_node_score_reads|]. intros o s1 Heq Hsc1 _.
  eapply sched_reads_bind; [done|by apply IH|]. intros rest s2 _ _ <-. by split.
Qed.

Lemma max_score_spec scores : scores ≠ [] → ∃ k, max_score scores = Some k ∧ k ∈ scores.*1.
Proof.
  intros Hne. unfold max_score. set (le := λ i j : NodeId * NodeSecondarySchedulingScore, _).
  pose proof (sort_by_perm le scores) as Hp.
  destruct (last (sort_by le scores)) as [p|] eqn:Hl.
  - exists p.1. split; [done|]. apply last_Some_elem_of in Hl. apply list_elem_of_fmap.
    exists p. split; [done|]. by rewrite <- Hp.
  - apply last_None in Hl. rewrite Hl in Hp. apply Permutation_nil_l in Hp. by symmetry in Hp.
Qed.

Lemma excess_secondary_spec t s scores :
  scores.*1 = is_secondary (ts_intent t) → is_secondary (ts_intent t) ≠ [] →
  ∃ o, excess_secondary t s scores = Ok o.
Proof.
  intros Hs Hne. unfold excess_secondary. destruct (existsb _ scores) eqn:He.
  { repeat case_match; eauto. }
  destruct (max_score_spec (omap (λ s, score ← s.2; Some (s.1, score)) scores)) as (k & -> & _); [|by eexists].
  destruct scores as [|[j [x|]] scores]; [by rewrite <- Hs in Hne|done|]. done.
Qed.

(** A plan of the optimizer: for this sequence, and applicable *)
Definition plan_applicable (t : TenantShard) (s : Scheduler) (o : option ScheduleOptimization) : Prop :=
  ∀ so, o = Some so → so_sequence so = ts_sequence t ∧ applicable s (ts_intent t) (so_action so).

Lemma optimize_migrate_spec t c attached s :
  scorable s → is_attached (ts_intent t) = Some attached →
  (∀ k, ts_preferred_node t = Some k → is_Some (s !! k)) →
  reads s (optimize_migrate t c attached) (λ o, ∀ a, o = Some a → applicable s (ts_intent t) a).
Proof.
  intros Hsc Hatt Hhint. unfold optimize_migrate.
  eapply sched_reads_bind; [done|by apply find_better_location_spec|]. intros o s1 Heq Hsc1 Ho.
  split; [done|]. destruct o as [k|]; [|done]. simpl. destruct (Ho k) as [Hne Hk]; [done|].
  destruct (_ && _); [done|]. intros ? [= <-]. case_bool_decide; simpl; [done|].
  split; [rewrite all_elem; naive_solver|]. destruct Hk as [?|(_ & _ & ? & _)]; auto.
Qed.

Lemma applicable_skel s s' I a : skel s = skel s' → applicable s I a → applicable s' I a.
Proof. intros Hsk. destruct a; simpl; rewrite ?(skel_known _ _ _ Hsk); done. Qed.

Lemma optimize_attachment_spec t c s :
  scorable s → 0 ≤ want_secondaries (ts_policy t) → (∀ k, ts_preferred_node t = Some k → is_Some (s !! k)) →
  reads s (optimize_attachment t c) (plan_applicable t s).
Proof.
  intros Hsc Hwant Hhint. unfold optimize_attachment.
  destruct (is_attached (ts_intent t)) as [attached|] eqn:Hatt; [|done].
  eapply sched_reads_bind; [done|by apply better_secondary_spec|]. intros o s1 Heq1 Hsc1 Ho.
  destruct o as [k|].
  { split; [done|]. intros ? [= <-]. simpl. split; [done|]. destruct (Ho k) as [Hin _]; [done|]. done. }
  eapply (sched_reads_bind _ _ _ (λ _, True)); [done| |].
  { destruct (_ <? _) eqn:Hlt; [|done]. eapply sched_reads_bind; [done|by apply secondary_scores_spec|].
    intros scores s2 _ _ Hscores. destruct (excess_secondary_spec t s2 scores Hscores) as [v Hv].
    { intros Hn. rewrite Hn in Hlt. apply Z.ltb_lt in Hlt. simpl in Hlt. lia. }
    unfold reads. wp_steps. by rewrite Hv. }
  intros v s2 Heq2 Hsc2 _. destruct v as [v|].
  { split; [done|]. intros ? [= <-]. by simpl. }
  assert (Hsk : skel s2 = skel s) by (rewrite (equiv_skel _ _ Heq2); by apply equiv_skel).
  eapply sched_reads_bind; [done|apply optimize_migrate_spec; [done|done|]|].
  { intros k Hk. apply (skel_known _ _ k Hsk). auto. }
  intros a s3 _ _ Ha. split; [done|]. destruct a as [a|]; [|done]. intros ? [= <-]. simpl. split; [done|].
  by eapply applicable_skel, Ha.
Qed.

(** A replacement must not be a location already: see [replace_secondary_panics]. *)
Lemma better_replacement_spec t c l : ∀ s,
  scorable s → (∀ k, k ∈ l → l = [k]) → l = is_secondary (ts_intent t) → ts_preferred_node t = None →
  reads s (better_replacement t c l) (λ o, ∀ a, o = Some a → applicable s (ts_intent t) a).
Proof.
  intros s Hsc Hone Hl Hhint. destruct l as [|j l]; [done|].
  assert (l = []) as -> by (specialize (Hone j); by injection (Hone ltac:(by left))). simpl better_replacement.
  eapply (sched_reads_bind _ _ _ (λ o, ∀ k, o = Some k → k ≠ j ∧ k ∉ option_list (is_attached (ts_intent t)) ∧
    is_Some (s !! k))); [done| |].
  - destruct (ts_policy t); [| |done]; (eapply wp_mono; [by apply find_better_location_spec|]);
      intros r s' [Heq Hr]; (split; [done|]); destruct r as [o|e|]; try done; intros k Hk;
      destruct (Hr k Hk) as [Hne [?|(_ & Hhe & Hkn & _)]]; [congruence|done|congruence|done].
  - intros o s1 Heq Hsc1 Ho. unfold reads. wp_step. wp_step.
    2:{ apply bool_decide_eq_false in H. exfalso. apply H. intros ->. by destruct (Ho j). }
    destruct o as [k|]; [|by split]. split; [done|]. intros ? [= <-]. simpl. destruct (Ho k) as (Hne & Hatt & Hkn); [done|].
    split; [|done]. unfold all_pageservers. rewrite <- Hl. set_solver.
Qed.

Lemma optimize_secondary_spec t c s :
  scorable s → want_secondaries (ts_policy t) ≤ 1 → ts_preferred_node t = None →
  reads s (optimize_secondary t c) (plan_applicable t s).
Proof.
  intros Hsc Hone Hhint. unfold optimize_secondary. destruct (Z.ltb_spec (want_secondaries (ts_policy t))
    (Z.of_nat (length (is_secondary (ts_intent t))))); [done|].
  eapply sched_reads_bind; [done|apply better_replacement_spec; [done| |done|done]|].
  - destruct (is_secondary (ts_intent t)) as [|j [|? ?]]; [by intros ? ?%elem_of_nil| |simpl in *; lia].
    by intros k ->%list_elem_of_singleton.
  - intros a s1 _ _ Ha. split; [done|]. destruct a as [a|]; [|done]. intros ? [= <-]. simpl. auto.
Qed.

(** Planning alone always returns. *)
Lemma better_replacement_reads t c l : ∀ s, scorable s → reads s (better_replacement t c l) (λ _, True).
Proof.
  induction l as [|j l IH]; intros s Hsc; simpl better_replacement; [done|].
  eapply (sched_reads_bind _ _ _ (λ o, o ≠ Some j)); [done| |].
  - destruct (ts_policy t); [| |done]; (eapply wp_mono; [by apply find_better_location_spec|]);
      intros r s' [Heq Hr]; (split; [done|]); destruct r as [o|e|]; try done; intros ->; by destruct (Hr j).
  - intros o s1 Heq Hsc1 Ho. unfold reads. wp_step. wp_step.
    2:{ apply bool_decide_eq_false in H. tauto. }
    destruct o; [done|]. by apply IH.
Qed.

Lemma optimize_secondary_reads t c s : scorable s → reads s (optimize_secondary t c) (λ _, True).
Proof.
  intros Hsc. unfold optimize_secondary. destruct (_ <? _); [done|].
  eapply sched_reads_bind; [done|by apply better_replacement_reads|]. done.
Qed.

(** *** [maybe_optimizable] *)

Definition context_wf (c : ScheduleContext) : Prop := ∀ k v, sc_nodes c !! k = Some v → 0 ≤ v.

Lemma affinity_nonneg c k : context_wf c → 0 ≤ affinity c k.
Proof. intros Hc. unfold affinity. destruct (sc_nodes c !! k) eqn:Hk; simpl; [by eapply Hc|done]. Qed.

Lemma project_detach_wf c t : context_wf c → context_wf (project_detach c t).
Proof.
  unfold project_detach. revert c. induction (option_list _ ++ _) as [|j l IH]; intros c Hc; simpl; [done|].
  apply IH. destruct (sc_nodes c !! j) as [v|] eqn:Hj; [|done]. intros k w. simpl.
  destruct (decide (k = j)) as [->|].
  - rewrite lookup_insert_eq. intros [= <-]. apply (wrap_in_u 64). lia.
  - rewrite lookup_insert_ne by done. apply Hc.
Qed.

Lemma score_lt_opt (r a r' a' : Z) :
  r' ≤ r → a' ≤ a → lex_le [r'; a'; 0; 0; 0] [r; a; 0; 0; 0].
Proof.
  intros. simpl. repeat (case_match; bool_prop); try done; rewrite ?Is_true_true, ?Z.ltb_lt; lia.
Qed.

(** A location with the best zone and without affinity has no better one. *)
Lemma attachment_not_better t c s cur k :
  context_wf c → affinity c cur = 0 → get_node_az cur s = is_preferred_az_id (ts_intent t) →
  ¬ better NodeAttachmentSchedulingScore t c s cur k.
Proof.
  intros Hc Haff Haz (x & y & Hx & Hy & Hlt). unfold score_on, get_node_az in *.
  destruct (s !! cur) as [n|]; [|done]. destruct (s !! k) as [m|]; [|done]. simpl in *. unfold node_score in *.
  destruct (utilization_of n); [|done]. destruct (utilization_of m); [|done]. simpl in *. simplify_eq.
  unfold score_lt in Hlt. apply negb_true_iff, not_true_iff_false in Hlt. apply Hlt. apply Is_true_true.
  apply score_lt_opt; simpl.
  - rewrite <- Haz. unfold AzMatch_new. rewrite (bool_decide_true (sn_az n = sn_az n)) by done. simpl.
    by case_bool_decide.
  - rewrite Haff. by apply affinity_nonneg.
Qed.

Lemma secondary_not_better t c s cur k :
  context_wf c → affinity c cur = 0 → get_node_az cur s ≠ is_preferred_az_id (ts_intent t) →
  ¬ better NodeSecondarySchedulingScore t c s cur k.
Proof.
  intros Hc Haff Haz (x & y & Hx & Hy & Hlt). unfold score_on, get_node_az in *.
  destruct (s !! cur) as [n|]; [|done]. destruct (s !! k) as [m|]; [|done]. simpl in *. unfold node_score in *.
  destruct (utilization_of n); [|done]. destruct (utilization_of m); [|done]. simpl in *. simplify_eq.
  unfold score_lt in Hlt. apply negb_true_iff, not_true_iff_false in Hlt. apply Hlt. apply Is_true_true.
  apply score_lt_opt; simpl.
  - unfold AzMatch_new. destruct (is_preferred_az_id (ts_intent t)) as [az|]; [|done].
    rewrite (bool_decide_false (az = sn_az n)) by congruence. simpl. by case_bool_decide.
  - rewrite Haff. by apply affinity_nonneg.
Qed.

(** The tenant has no other location on the nodes of the shard. *)
Definition no_affinity (c : ScheduleContext) (t : TenantShard) : Prop :=
  ∀ k, k ∈ all_pageservers (ts_intent t) → affinity (project_detach c t) k = 0.

(** What [maybe_optimizable] has ruled out *)
Lemma maybe_optimizable_false t c s n :
  context_wf c → ts_policy t = PolicyAttached n → maybe_optimizable t c s = false →
  (∀ a, is_attached (ts_intent t) = Some a → get_node_az a s = is_preferred_az_id (ts_intent t)) ∧
  (∀ k, k ∈ is_secondary (ts_intent t) → get_node_az k s ≠ is_preferred_az_id (ts_intent t)) ∧
  Z.of_nat (length (is_secondary (ts_intent t))) ≤ n ∧ (1 ≤ count (ts_shard t) → no_affinity c t).
Proof.
  intros Hc Hpol. unfold maybe_optimizable. rewrite Hpol. simpl want_secondaries.
  rewrite !orb_false_iff, andb_false_iff, Z.ltb_ge, Z.leb_gt, <- !not_true_iff_false, !existsb_exists.
  intros ((((_ & Haff) & Hatt) & Hsec) & Hlen). split; [|split; [|split; [done|]]].
  - intros a Ha. rewrite Ha in Hatt. rewrite negb_true_iff, bool_decide_eq_false in Hatt.
    by apply dec_stable in Hatt.
  - intros k Hk Heq. apply Hsec. exists k. split; [by apply list_elem_of_In|]. by apply bool_decide_true.
  - intros Hcount k Hk. destruct Haff as [?|Haff]; [lia|]. unfold affinity.
    destruct (sc_nodes (project_detach c t) !! k) as [v|] eqn:Hv; [|done]. simpl.
    apply (project_detach_wf c t Hc) in Hv as Hv0. destruct (decide (v = 0)) as [|Hne]; [done|]. exfalso.
    apply Haff. exists k. split; [by apply list_elem_of_In|]. rewrite Hv. apply Z.ltb_lt. lia.
Qed.

Lemma find_better_none S `{NodeSchedulingScoreLaws S} t c s cur he :
  scorable s → ts_preferred_node t = None → (∀ k, ¬ better S t c s cur k) →
  reads s (find_better_location S t c cur he) (λ o, o = None).
Proof.
  intros Hsc Hhint Hno. eapply wp_mono; [by apply find_better_location_spec|]. intros r s' [Heq Hr].
  split; [done|]. destruct r as [[k|]|e|]; [|done..]. destruct (Hr k) as [_ [?|(_ & _ & _ & Hb)]]; [done|congruence|].
  by destruct (Hno k).
Qed.

Lemma better_equiv S `{NodeSchedulingScoreLaws S} t c s s' cur k :
  s' ≡ s → better S t c s' cur k → better S t c s cur k.
Proof.
  intros Heq (x & y & Hx & Hy & Hlt). exists x, y. by rewrite <- !(score_on_equiv _ _ _ _ _ _ Heq).
Qed.

Lemma better_replacement_none t c n l : ∀ s,
  scorable s → ts_preferred_node t = None → ts_policy t = PolicyAttached n →
  (∀ j k, j ∈ l → ¬ better NodeSecondarySchedulingScore t c s j k) →
  reads s (better_replacement t c l) (λ o, o = None).
Proof.
  induction l as [|j l IH]; intros s Hsc Hhint Hpol Hno; simpl better_replacement; [done|]. rewrite Hpol.
  eapply sched_reads_bind; [done|apply (find_better_none NodeSecondarySchedulingScore); [done|done|]|].
  { intros k. apply Hno. by left. }
  intros o s1 Heq Hsc1 ->. unfold reads. wp_step. wp_step; [|done]. apply IH; [done..|].
  intros i k Hi Hb. eapply (Hno i k); [by right|]. by eapply better_equiv.
Qed.

Lemma optimize_nothing t c s n :
  scorable s → context_wf c → ts_policy t = PolicyAttached n → ts_preferred_node t = None →
  (count (ts_shard t) < 1 → no_affinity c t) → maybe_optimizable t c s = false →
  reads s (optimize_attachment t c) (λ o, o = None) ∧ reads s (optimize_secondary t c) (λ o, o = None).
Proof.
  intros Hsc Hc Hpol Hhint Hun Hmay.
  destruct (maybe_optimizable_false t c s n Hc Hpol Hmay) as (Hatt & Hsec & Hlen & Haff).
  assert (Hno : no_affinity c t) by (destruct (decide (1 ≤ count (ts_shard t))); [auto|apply Hun; lia]).
  assert (Hwf : context_wf (project_detach c t)) by (by apply project_detach_wf).
  assert (Hlen' : (want_secondaries (ts_policy t) <? Z.of_nat (length (is_secondary (ts_intent t)))) = false)
    by (rewrite Hpol; simpl; lia).
  split.
  - unfold optimize_attachment. destruct (is_attached (ts_intent t)) as [a|] eqn:Ha; [|done].
    assert (Hnb : ∀ k, ¬ better NodeAttachmentSchedulingScore t (project_detach c t) s a k).
    { intros k. apply attachment_not_better; [done| |by apply Hatt]. apply Hno, all_elem. by left. }
    eapply sched_reads_bind; [done|by apply better_secondary_spec|]. intros o s1 Heq1 Hsc1 Ho.
    destruct o as [k|]; [destruct (Ho k) as [_ [?|Hb]]; [done|congruence|by destruct (Hnb k)]|].
    rewrite Hlen'. eapply (sched_reads_bind _ _ _ (λ o, o = None)); [done|by split|].
    intros o s2 Heq2 Hsc2 ->. unfold optimize_migrate.
    eapply (sched_reads_bind _ _ _ (λ o, o = None)); [done| |by intros ? ? ? ? ->].
    eapply sched_reads_bind; [done|apply (find_better_none NodeAttachmentSchedulingScore); [done|done|]|].
    + intros k Hb. apply (Hnb k). eapply better_equiv; [exact Heq1|]. by eapply better_equiv.
    + intros o s3 _ _ ->. by split.
  - unfold optimize_secondary. rewrite Hlen'.
    eapply sched_reads_bind; [done|eapply better_replacement_none; try done|by intros ? ? ? ? ->].
    intros j k Hj. apply secondary_not_better; [done| |by apply Hsec]. apply Hno, all_elem. by right.
Qed.

(** ** Moving to a secondary *)

Definition reschedule_post (D : NodeId → Prop) (Is : list IntentState) (sk : gmap NodeId (AvailabilityZone * bool))
    (t : TenantShard) (s : Scheduler) (promote_to : option NodeId)
    (r : outcome ScheduleError unit) (st' : TenantShard * Scheduler) : Prop :=
  sound D Is sk st' ∧
  match r with
  | Ok _ => ∃ k, k ∈ is_secondary (ts_intent t) ∧ (promote_to = Some k ∨ promote_to = None ∧ usable sk k) ∧
      st'.1 = with_intent t (promoted (ts_intent t) k) <| ts_sequence := Sequence_next (ts_sequence t) |>
  | Err _ => st' = (t, s) ∧ promote_to = None ∧ ∀ k, k ∈ is_secondary (ts_intent t) → ¬ usable sk k
  | Panic => False
  end.

(** Without a usable secondary, nothing changes. *)
Lemma reschedule_to_secondary_spec D Is sk t s promote_to :
  sound D Is sk (t, s) → (∀ k, promote_to = Some k → k ∈ is_secondary (ts_intent t)) →
  wp (reschedule_to_secondary promote_to) (reschedule_post D Is sk t s promote_to) (t, s).
Proof.
  intros Hs Hp. unfold reschedule_to_secondary. wp_step. wp_step. wp_step. simpl.
  assert (Hchoice : wp (match promote_to with
      | Some node => mret node
      | None => node ← st_lift (preferred_secondary t s);
        match node with Some node => mret node | None => st_fail ImpossibleConstraint end
      end : TS NodeId)
    (λ r st', st' = (t, s) ∧ match r with
      | Ok k => k ∈ is_secondary (ts_intent t) ∧ (promote_to = Some k ∨ promote_to = None ∧ usable sk k)
      | Err _ => promote_to = None ∧ ∀ k, k ∈ is_secondary (ts_intent t) → ¬ usable sk k
      | Panic => False
      end) (t, s)).
  { destruct promote_to as [k|]; [wp_steps; split; [done|]; split; [by apply Hp|by left]|]. wp_steps.
    destruct (preferred_secondary_spec (E := ScheduleError) t s (snd_known _ _ _ _ Hs)) as (o & -> & Ho).
    pose proof (snd_skel _ _ _ _ Hs) as Hsk. simpl in Hsk. rewrite Hsk in Ho.
    destruct o as [k|]; wp_steps; (split; [done|]); [|done]. destruct Ho. by auto. }
  eapply wp_mono; [exact Hchoice|]. clear Hchoice.
  intros [k|e|] st' [-> Hk]; [|by split|done]. destruct Hk as [Hk Hwhy].
  wp_step. wp_step; [|bool_prop; done].
  assert (Hfin : ∀ s', sound D Is sk (with_intent t (promoted (ts_intent t) k), s') →
    wp (modify_shard (λ self, self <| ts_sequence := Sequence_next (ts_sequence self) |>))
      (reschedule_post D Is sk t s promote_to) (with_intent t (promoted (ts_intent t) k), s')).
  { intros s' Hs'. unfold modify_shard. wp_steps. split; [by apply sound_sequence|]. by exists k. }
  destruct (is_attached (ts_intent t)) as [old|] eqn:Hatt; wp_steps.
  - eapply on_demote_sound; [done..|]. intros s1 Hs1. wp_steps; [|done].
    eapply on_promote_sound; [done|done|simpl; set_solver|]. simpl. rewrite promoted_demoted. apply Hfin.
  - by eapply on_promote_sound.
Qed.

(** ** What [do_schedule] promises *)


Lemma new_sound nodes t :
  Forall (λ n, ∀ u, n_availability n = NodeActive u → pu_scorable u) nodes → all_pageservers (ts_intent t) = [] →
  sound all_nodes [] (skel (Scheduler_new nodes)) (t, Scheduler_new nodes).
Proof.
  intros Hn Ht. split; simpl; [done| | | |].
  - eapply counted_ext; [apply Scheduler_new_counted|]. intros w k az. rewrite Zsum_cons. unfold contrib.
    assert (Ha : is_attached (ts_intent t) = None).
    { unfold all_pageservers in Ht. by destruct (is_attached (ts_intent t)). }
    rewrite Ht, Ha. by destruct w; simpl; rewrite ?occ_nil, ?Z.mul_0_r.
  - unfold intent_wf. rewrite Ht. constructor.
  - intros k. rewrite Ht. by intros ?%elem_of_nil.
  - unfold Scheduler_new. assert (Hgen : ∀ s, scorable s →
      scorable (foldl (λ m node, <[n_id node := SchedulerNode_of node]> m) s nodes)).
    { induction Hn as [|n nodes Hn _ IH]; intros s Hs; simpl; [done|]. apply IH. intros k m u.
      destruct (decide (k = n_id n)) as [->|]; [|rewrite lookup_insert_ne by done; by apply Hs].
      rewrite lookup_insert_eq. intros [= <-]. simpl. unfold may_schedule. repeat case_match; try done; intros [= <-]; eauto. }
    apply Hgen. intros k n u Hk. by rewrite lookup_empty in Hk.
Qed.

Definition test_identity : ShardIdentity := mkShardIdentity 0 0 32768 LAYOUT_V1.

(** Nodes 1, 2 and 3, in the zones a, b and b, with the shards that they report *)
Definition three_nodes (x y z : Z) : list Node := [test_node 1 x 97; test_node 2 y 98; test_node 3 z 98].

Lemma three_nodes_scorable x y z :
  Forall (λ n, ∀ u, n_availability n = NodeActive u → pu_scorable u) (three_nodes x y z).
Proof.
  apply Forall_forall. intros n Hn u Hu. unfold three_nodes in Hn.
  repeat (apply elem_of_cons in Hn as [->|Hn]; [injection Hu as <-; by vm_compute|]). by apply elem_of_nil in Hn.
Qed.

Definition test_shard (policy : PlacementPolicy) : TenantShard := TenantShard_new test_identity policy (Some [97]).


(** With two secondaries wanted, an existing secondary may be chosen once more: only the
    attached location is excluded, and the assertion of [push_secondary] fails. *)
Example schedule_second_secondary_panics :
  let '(r, st) := do_schedule (ScheduleContext_new ModeNormal)
    (test_shard (PolicyAttached 1), Scheduler_new (three_nodes 1 2 3)) in
  r = Ok tt ∧
  (do_schedule (ScheduleContext_new ModeNormal) (st.1 <| ts_policy := PolicyAttached 2 |>, st.2)).1 = Panic.
Proof. vm_compute. split; reflexivity. Qed.

(** The plan of the optimizer for a shard, and what applying it results in *)
Definition plan_and_apply (plan : TenantShard → ScheduleContext → SchedM (option ScheduleOptimization))
    (t : TenantShard) (s : Scheduler) : option ScheduleOptimizationAction * option (outcome ScheduleError bool) :=
  match (plan t (ScheduleContext_avoid (all_pageservers (ts_intent t)) (ScheduleContext_new ModeNormal)) s).1 with
  | Ok (Some o) => (Some (so_action o), Some (apply_optimization o (t, s)).1)
  | _ => (None, None)
  end.

(** With two secondaries, the second may be planned as the replacement of the first: only
    the attached location is excluded. *)
Example replace_secondary_panics :
  let t := test_shard (PolicyAttached 2) <| ts_intent := mkIntentState (Some 1) [4; 2] (Some [97]) |> in
  plan_and_apply optimize_secondary t (Scheduler_new [test_node 1 1 97; test_node 4 1 97; test_node 2 1 98]) =
    (Some (ReplaceSecondary 4 2), Some Panic).
Proof. vm_compute. reflexivity. Qed.

(** A shard that is attached where it was to be migrated to, but not by the migration: the
    preferred node is planned as the replacement of a secondary. *)
Example preferred_node_attached_panics :
  let t := test_shard (PolicyAttached 1) <| ts_intent := mkIntentState (Some 2) [3] (Some [97]) |>
    <| ts_preferred_node := Some 2 |> in
  let s := Scheduler_new [test_node 2 1 98; test_node 3 1 98] in
  maybe_optimizable t (ScheduleContext_avoid [2; 3] (ScheduleContext_new ModeNormal)) s = true ∧
  plan_and_apply optimize_attachment t s = (None, None) ∧
  plan_and_apply optimize_secondary t s = (Some (ReplaceSecondary 3 2), Some Panic).
Proof. vm_compute. repeat split; reflexivity. Qed.

(** [maybe_optimizable] is sound for attached shards: when it returns [false] for a
    shard without a preferred node, neither [optimize_attachment] nor [optimize_secondary]
    finds anything to do, and neither changes the scheduler. *)
Theorem maybe_optimizable_sound t c s n :
  scorable s → context_wf c → ts_policy t = PolicyAttached n → ts_preferred_node t = None →
  (count (ts_shard t) < 1 → no_affinity c t) → maybe_optimizable t c s = false →
  ∃ s1 s2, optimize_attachment t c s = (Ok None, s1) ∧ s1 ≡ s ∧ optimize_secondary t c s = (Ok None, s2) ∧ s2 ≡ s.
Proof.
  intros Hsc Hc Hpol Hhint Hun Hmay. destruct (optimize_nothing t c s n) as [H1 H2]; [done..|].
  unfold reads, wp in H1, H2. destruct (optimize_attachment t c s) as [[o1|e|] s1], H1 as [? ?]; [|done..].
  destruct (optimize_secondary t c s) as [[o2|e|] s2], H2 as [? ?]; [|done..]. simpl in *. subst. by exists s1, s2.
Qed.

Definition test_attached : TenantShard :=
  test_shard (PolicyAttached 1) <| ts_intent := mkIntentState (Some 1) [2] (Some [97]) |>.

Lemma test_scorable x y z : scorable (Scheduler_new (three_nodes x y z)).
Proof. exact (snd_scorable _ _ _ _ (new_sound _ (test_shard PolicyDetached) (three_nodes_scorable x y z) eq_refl)). Qed.

Lemma maybe_optimizable_sound_witness :
  maybe_optimizable test_attached (ScheduleContext_avoid [1; 2] (ScheduleContext_new ModeNormal))
    (Scheduler_new (three_nodes 1 2 3)) = false ∧
  ∃ s1 s2,
    optimize_attachment test_attached (ScheduleContext_avoid [1; 2] (ScheduleContext_new ModeNormal))
      (Scheduler_new (three_nodes 1 2 3)) = (Ok None, s1) ∧ s1 ≡ Scheduler_new (three_nodes 1 2 3) ∧
    optimize_secondary test_attached (ScheduleContext_avoid [1; 2] (ScheduleContext_new ModeNormal))
      (Scheduler_new (three_nodes 1 2 3)) = (Ok None, s2) ∧ s2 ≡ Scheduler_new (three_nodes 1 2 3).
Proof.
  assert (Hmay : maybe_optimizable test_attached (ScheduleContext_avoid [1; 2] (ScheduleContext_new ModeNormal))
    (Scheduler_new (three_nodes 1 2 3)) = false) by (vm_compute; reflexivity).
  split; [exact Hmay|].
  apply (maybe_optimizable_sound test_attached _ _ 1 (test_scorable 1 2 3)); [|reflexivity|reflexivity| |exact Hmay].
  - intros k v Hk. apply elem_of_map_to_list in Hk.
    assert (Hall : Forall (λ kv, 0 ≤ kv.2) (map_to_list (sc_nodes (ScheduleContext_avoid [1; 2] (ScheduleContext_new ModeNormal)))))
      by (vm_compute; repeat constructor; discriminate).
    by apply (proj1 (Forall_forall _ _) Hall (k, v)).
  - intros _ k Hk. unfold all_pageservers in Hk. simpl in Hk.
    apply elem_of_cons in Hk as [->|Hk]; [vm_compute; reflexivity|].
    apply list_elem_of_singleton in Hk as ->. vm_compute. reflexivity.
Defined.

(** For shards that only have a secondary location it is not: the zone of the location may
    be improved. *)
Example maybe_optimizable_secondary_policy :
  let t := test_shard PolicySecondary <| ts_intent := mkIntentState None [3] (Some [97]) |> in
  let c := ScheduleContext_avoid [3] (ScheduleContext_new ModeNormal) in
  let s := Scheduler_new (three_nodes 1 2 3) in
  maybe_optimizable t c s = false ∧
  plan_and_apply optimize_secondary t s = (Some (ReplaceSecondary 3 1), Some (Ok true)).
Proof. vm_compute. split; reflexivity. Qed.
