(* ===== verification/StorconService.v ===== *)
(** * The in-memory state of the storage controller and its operations on nodes and shards

    [storage_controller/src/service.rs], the operations that change the nodes, the shards
    and the scheduler under the lock: registration, configuration, failure, draining and
    removal of nodes; creation, policies, migration and removal of shards;
    [service/context_iterator.rs] and [drain_utils.rs].

    Left out: the database, which is written before or after these changes; the HTTP
    requests to pageservers; metrics and logging.  Whether a permit to reconcile is
    available is an argument [units]. *)

From S2P Require Import Prelude Bytes Text Membership Ids Key Shard.
From S2P Require Import Scheduler IntentState TenantShard.

(** ** State *)

(** [tenants] is a [BTreeMap]: its entries in the order of the keys *)
Abbreviation Tenants := (list (TenantShardId * TenantShard)).

Record ServiceState := mkServiceState {
  ss_nodes : gmap NodeId Node;
  ss_tenants : Tenants;
  ss_scheduler : Scheduler;
}.
#[export] Instance ServiceState_settable : Settable ServiceState := λ s,
  mkServiceState (ss_nodes s) (ss_tenants s) (ss_scheduler s).

(** What the operations return as [ApiError] or [OperationError] *)
Inductive ApiError :=
| ApiSchedule (e : ScheduleError)
| ApiNotFound
| ApiBadRequest
| ApiPreconditionFailed
| ApiNodeStateChanged.

#[export] Instance TenantShardId_eq_dec : EqDecision TenantShardId.
Proof. solve_decision. Defined.

Abbreviation Svc A := (ST ServiceState ApiError A).

(** ** The context iterator *)

(** [TenantShardContextIterator]: the shards of every tenant with a context that avoids
    their nodes.  The iterator ends when the map does, even before the last shard of a
    tenant: then the remaining shards are not visited. *)
Fixpoint context_groups {E} (mode : ScheduleMode) (schedule_context : ScheduleContext)
    (tenant_shards : Tenants) (inner : Tenants) : outcome E (list (ScheduleContext * Tenants) * Tenants) :=
  match inner with
  | [] => Ok ([], tenant_shards)
  | (tenant_shard_id, shard) :: inner =>
    if TenantShardId_is_shard_zero tenant_shard_id && negb (bool_decide (length tenant_shards = 0%nat)) then Panic
    else
      let schedule_context := ScheduleContext_avoid (all_pageservers (ts_intent shard)) schedule_context in
      let tenant_shards := tenant_shards ++ [(tenant_shard_id, shard)] in
      if shard_number tenant_shard_id =? wrapping_sub 8 (ShardCount_count (shard_count tenant_shard_id)) 1 then
        rest ← context_groups mode (ScheduleContext_new mode) [] inner;
        Ok ((schedule_context, tenant_shards) :: rest.1, rest.2)
      else context_groups mode schedule_context tenant_shards inner
  end.

(** A loop over shards; the body changes the shard, the scheduler and the context.  When it
    returns early, the remaining shards are left as they are. *)
Abbreviation ShardBody := (TenantShardId → ST (TenantShard * Scheduler * ScheduleContext) ApiError unit).

Fixpoint for_shards (body : ShardBody) (shards : Tenants) (s : Scheduler) (c : ScheduleContext) :
    outcome ApiError unit * Tenants * Scheduler * ScheduleContext :=
  match shards with
  | [] => (Ok tt, [], s, c)
  | (id, t) :: shards =>
    let '(r, (t', s', c')) := body id (t, s, c) in
    match r with
    | Ok _ =>
      let '(r2, shards', s2, c2) := for_shards body shards s' c' in (r2, (id, t') :: shards', s2, c2)
    | Err e => (Err e, (id, t') :: shards, s', c')
    | Panic => (Panic, (id, t') :: shards, s', c')
    end
  end.

Fixpoint for_groups (body : ShardBody) (groups : list (ScheduleContext * Tenants)) (s : Scheduler) :
    outcome ApiError unit * Tenants * Scheduler :=
  match groups with
  | [] => (Ok tt, [], s)
  | (c, shards) :: groups =>
    let '(r, shards', s', _) := for_shards body shards s c in
    match r with
    | Ok _ => let '(r2, rest, s2) := for_groups body groups s' in (r2, shards' ++ rest, s2)
    | Err e => (Err e, shards' ++ concat (snd <$> groups), s')
    | Panic => (Panic, shards' ++ concat (snd <$> groups), s')
    end
  end.

(** [for (_, mut schedule_context, shards) in TenantShardContextIterator::new(tenants, mode)] *)
Definition for_tenants (mode : ScheduleMode) (body : ShardBody) : Svc unit := λ st,
  match context_groups (E := ApiError) mode (ScheduleContext_new mode) [] (ss_tenants st) with
  | Ok (groups, unvisited) =>
    let '(r, tenants', s') := for_groups body groups (ss_scheduler st) in
    (r, st <| ss_tenants := tenants' ++ unvisited |> <| ss_scheduler := s' |>)
  | Err e => (Err e, st)
  | Panic => (Panic, st)
  end.

Abbreviation Body A := (ST (TenantShard * Scheduler * ScheduleContext) ApiError A).

(** An operation of the shard, without the context *)
Definition body_shard {A} (m : TS A) : Body A :=
  st_map_err ApiSchedule (st_zoom (λ x, x.1) (λ st x, (st, x.2)) m).

Definition body_modify (f : TenantShard → TenantShard) : Body unit :=
  st_modify (λ x, (f x.1.1, x.1.2, x.2)).

(** [shard.schedule(scheduler, &mut schedule_context)] *)
Definition body_schedule : Body unit := λ x,
  let '(r, st', c') := schedule x.2 x.1 in
  (match r with Ok a => Ok a | Err e => Err (ApiSchedule e) | Panic => Panic end, (st', c')).

(** ** Reconcilers *)

(** [maybe_reconcile_shard]: the sequence that is to be waited for, if any *)
Definition maybe_reconcile_shard {E} (units gate : bool) (nodes : gmap NodeId Node) (shard : TenantShard) :
    outcome E (option Sequence * TenantShard) :=
  reconcile_needed ← get_reconcile_needed nodes shard;
  match reconcile_needed with
  | RecNo => Ok (None, shard)
  | RecWait seq => Ok (Some seq, shard)
  | RecYes _ =>
    if negb units then let '(seq, shard') := future_reconcile_waiter shard in Ok (Some seq, shard')
    else if negb gate then Ok (None, shard)
    else
      r ← spawn_reconciler nodes shard;
      Ok (Some r.1.2, r.2)
  end.

Definition body_reconcile (units : bool) (nodes : gmap NodeId Node) : Body unit :=
  x ← st_get;
  r ← st_lift (maybe_reconcile_shard units true nodes x.1.1);
  body_modify (λ _, r.2).

(** ** Nodes *)

(** [node_register], after the checks and the write to the database: the node starts offline *)
Definition node_register (node_id : NodeId) (availability_zone_id : AvailabilityZone) : Svc unit :=
  let new_node := mkNode node_id NodeOffline NodeSchedActive availability_zone_id false in
  st_modify (λ locked, locked <| ss_scheduler := node_upsert new_node (ss_scheduler locked) |>
    <| ss_nodes := <[node_id := new_node]> (ss_nodes locked) |>).

(** [node_state_configure], the change in memory *)
Definition node_state_configure (node_id : NodeId) (availability : option NodeAvailability)
    (scheduling : option NodeSchedulingPolicy) : Svc AvailabilityTransition :=
  locked ← st_get;
  match ss_nodes locked !! node_id with
  | None => st_fail ApiNotFound
  | Some node =>
    let transition :=
      match availability with Some a => get_availability_transition node a | None => Unchanged end in
    let node := match availability with Some a => set_availability a node | None => node end in
    let node := match scheduling with Some p => node <| n_scheduling := p |> | None => node end in
    _ ← st_put (locked <| ss_scheduler := node_upsert node (ss_scheduler locked) |>
          <| ss_nodes := <[node_id := node]> (ss_nodes locked) |>);
    mret transition
  end.

Definition any_schedulable (nodes : gmap NodeId Node) : bool :=
  existsb (λ kv, is_may_yes (may_schedule kv.2)) (map_to_list nodes).

(** The observed state of a shard on a node that went offline is unknown. *)
Definition forget_observed (node_id : NodeId) (t : TenantShard) : TenantShard :=
  match ts_observed t !! node_id with
  | Some _ => t <| ts_observed := <[node_id := None]> (ts_observed t) |>
  | None => t
  end.

Definition offline_body (units : TenantShardId → bool) (nodes : gmap NodeId Node) (node_id : NodeId) : ShardBody :=
  λ tenant_shard_id,
    _ ← body_modify (forget_observed node_id);
    if (size nodes =? 1)%nat then mret tt
    else if negb (any_schedulable nodes) then mret tt
    else
      demoted ← body_shard (on_intent (demote_attached node_id));
      if (demoted : bool) then
        _ ← body_modify (λ t, t <| ts_sequence := Sequence_next (ts_sequence t) |>);
        scheduled ← st_try body_schedule;
        match scheduled with
        | Some _ => body_reconcile (units tenant_shard_id) nodes
        | None => mret tt
        end
      else mret tt.

(** [handle_node_availability_transition] with [ToOffline] *)
Definition handle_node_offline (units : TenantShardId → bool) (node_id : NodeId) : Svc unit :=
  locked ← st_get;
  for_tenants ModeNormal (offline_body units (ss_nodes locked) node_id).

(** A loop over all shards, without a context *)
Definition for_all_shards (body : ShardBody) : Svc unit := λ st,
  let '(r, tenants', s', _) := for_shards body (ss_tenants st) (ss_scheduler st) (ScheduleContext_new ModeNormal) in
  (r, st <| ss_tenants := tenants' |> <| ss_scheduler := s' |>).

Definition active_body (units : TenantShardId → bool) (nodes : gmap NodeId Node) (node_id : NodeId) : ShardBody :=
  λ tenant_shard_id,
    x ← st_get;
    if bool_decide (ts_reconciler x.1.1 ≠ None) then mret tt
    else if bool_decide (ts_observed x.1.1 !! node_id = Some None) then body_reconcile (units tenant_shard_id) nodes
    else mret tt.

Definition handle_node_availability_transition (units : TenantShardId → bool) (node_id : NodeId)
    (transition : AvailabilityTransition) : Svc unit :=
  match transition with
  | ToOffline => handle_node_offline units node_id
  | ToActive => locked ← st_get; for_all_shards (active_body units (ss_nodes locked) node_id)
  | ToWarmingUpFromActive | ToWarmingUpFromOffline | Unchanged => mret tt
  end.

(** [node_configure], without the reconciliation of the node's locations before it becomes
    active *)
Definition node_configure (units : TenantShardId → bool) (node_id : NodeId) (availability : option NodeAvailability)
    (scheduling : option NodeSchedulingPolicy) : Svc unit :=
  transition ← node_state_configure node_id availability scheduling;
  handle_node_availability_transition units node_id transition.

Definition drop_observed (node_id : NodeId) (t : TenantShard) : TenantShard :=
  t <| ts_observed := delete node_id (ts_observed t) |>.

(** [node_drop], after the database *)
Definition node_drop (node_id : NodeId) : Svc unit :=
  st_modify (λ locked,
    locked <| ss_tenants := (λ kv, (kv.1, drop_observed node_id (deref_node node_id kv.2).2)) <$> ss_tenants locked |>
           <| ss_nodes := delete node_id (ss_nodes locked) |>
           <| ss_scheduler := node_remove node_id (ss_scheduler locked) |>).

Definition delete_body (units : TenantShardId → bool) (nodes : gmap NodeId Node) (node_id : NodeId) : ShardBody :=
  λ tenant_shard_id,
    x ← st_get;
    let '(modified, shard) := deref_node node_id x.1.1 in
    _ ← body_modify (λ _, shard);
    _ ← if (modified : bool) then
          _ ← body_schedule;
          body_reconcile (units tenant_shard_id) nodes
        else mret tt;
    body_modify (drop_observed node_id).

(** [node_delete], before the database *)
Definition node_delete (units : TenantShardId → bool) (node_id : NodeId) : Svc unit :=
  locked ← st_get;
  match ss_nodes locked !! node_id with
  | None => mret tt
  | Some node =>
    let nodes := <[node_id := node <| n_scheduling := NodeSchedPause |>]> (ss_nodes locked) in
    _ ← st_modify (λ locked, locked <| ss_nodes := nodes |>);
    _ ← for_tenants ModeNormal (delete_body units nodes node_id);
    st_modify (λ locked, locked <| ss_scheduler := node_remove node_id (ss_scheduler locked) |>
      <| ss_nodes := delete node_id (ss_nodes locked) |>)
  end.

(** ** Shards *)

(** [tenants.get_mut(&id)], and an operation on it *)
Fixpoint update_tenant (id : TenantShardId) (t : TenantShard) (tenants : Tenants) : Tenants :=
  match tenants with
  | [] => []
  | (id', t') :: tenants =>
    if bool_decide (id' = id) then (id, t) :: tenants else (id', t') :: update_tenant id t tenants
  end.

Fixpoint find_tenant (id : TenantShardId) (tenants : Tenants) : option TenantShard :=
  match tenants with
  | [] => None
  | (id', t') :: tenants => if bool_decide (id' = id) then Some t' else find_tenant id tenants
  end.

Definition with_tenant {A} (id : TenantShardId) (m : TS A) : Svc (option A) := λ locked,
  match find_tenant id (ss_tenants locked) with
  | None => (Ok None, locked)
  | Some t =>
    let '(r, (t', s')) := m (t, ss_scheduler locked) in
    (match r with Ok a => Ok (Some a) | Err e => Err (ApiSchedule e) | Panic => Panic end,
     locked <| ss_tenants := update_tenant id t' (ss_tenants locked) |> <| ss_scheduler := s' |>)
  end.

(** The order of the keys *)
Definition id_key (id : TenantShardId) : list Z :=
  (byte_val <$> tenant_id id) ++ [shard_number id; shard_count id].

Fixpoint insert_tenant (id : TenantShardId) (t : TenantShard) (tenants : Tenants) : Tenants :=
  match tenants with
  | [] => [(id, t)]
  | (id', t') :: rest =>
    if lex_le (id_key id) (id_key id') then (id, t) :: tenants else (id', t') :: insert_tenant id t rest
  end.

(** [do_initial_shard_scheduling]: the node that the shard is attached to, if any, and the
    updated context.  A shard that cannot be scheduled stays in the map. *)
Definition do_initial_shard_scheduling (tenant_shard_id : TenantShardId) (initial_generation : option Generation)
    (shard_params : ShardParameters) (config : TenantConfig) (placement_policy : PlacementPolicy)
    (preferred_az_id : option AvailabilityZone) (c : ScheduleContext) (locked : ServiceState) :
    outcome ApiError (option NodeId) * ScheduleContext * ServiceState :=
  let '(t, tenants) :=
    match find_tenant tenant_shard_id (ss_tenants locked) with
    | Some t => (t, ss_tenants locked)
    | None =>
      let t := TenantShard_new (ShardIdentity_from_params (shard_number tenant_shard_id) shard_params)
        placement_policy preferred_az_id <| ts_generation := initial_generation |> <| ts_config := config |> in
      (t, insert_tenant tenant_shard_id t (ss_tenants locked))
    end in
  let '(r, (t', s'), c') := schedule c (t, ss_scheduler locked) in
  let locked' := locked <| ss_tenants := update_tenant tenant_shard_id t' tenants |> <| ss_scheduler := s' |> in
  match r with
  | Ok _ =>
    match is_attached (ts_intent t'), ts_generation t' with
    | Some node_id, Some _ => (Ok (Some node_id), c', locked')
    | Some _, None => (Panic, c', locked')
    | None, _ => (Ok None, c', locked')
    end
  | Err e => (Err (ApiSchedule e), c', locked')
  | Panic => (Panic, c', locked')
  end.

(** The shards of a tenant are next to each other. *)
Definition split_tenant (tid : TenantId) (tenants : Tenants) : Tenants * Tenants * Tenants :=
  let mine := λ kv : TenantShardId * TenantShard, bool_decide (tenant_id kv.1 = tid) in
  let before := take_while (λ kv, negb (mine kv)) tenants in
  let rest := skip_while (λ kv, negb (mine kv)) tenants in
  (before, take_while mine rest, skip_while mine rest).

Definition set_policies (placement : option PlacementPolicy) (scheduling : option ShardSchedulingPolicy)
    (t : TenantShard) : TenantShard :=
  let t := match placement with Some p => t <| ts_policy := p |> | None => t end in
  match scheduling with Some p => t <| ts_scheduling_policy := p |> | None => t end.

Definition policy_body (units : TenantShardId → bool) (nodes : gmap NodeId Node)
    (placement : option PlacementPolicy) (scheduling : option ShardSchedulingPolicy) : ShardBody :=
  λ shard_id,
    _ ← body_modify (set_policies placement scheduling);
    _ ← st_try body_schedule;
    body_reconcile (units shard_id) nodes.

Definition tenant_update_policy (units : TenantShardId → bool) (tid : TenantId)
    (placement : option PlacementPolicy) (scheduling : option ShardSchedulingPolicy) : Svc unit := λ locked,
  let scheduling :=
    match placement, scheduling with
    | Some (PolicyDetached | PolicySecondary), None => Some ShardActive
    | _, _ => scheduling
    end in
  let '(before, mine, after) := split_tenant tid (ss_tenants locked) in
  let '(r, mine', s', _) := for_shards (policy_body units (ss_nodes locked) placement scheduling) mine
    (ss_scheduler locked) (ScheduleContext_new ModeNormal) in
  (r, locked <| ss_tenants := before ++ mine' ++ after |> <| ss_scheduler := s' |>).

(** [while shard.intent.get_secondary().len() >= n]: every iteration removes one, and [n] is
    not zero. *)
Fixpoint pop_secondaries (fuel : nat) (n : Z) : TS unit :=
  self ← get_shard;
  if n <=? Z.of_nat (length (is_secondary (ts_intent self))) then
    match fuel with
    | O => st_panic
    | S fuel => _ ← on_intent pop_secondary; pop_secondaries fuel n
    end
  else mret tt.

(** The arm of [PlacementPolicy::Attached(n)] in [tenant_shard_migrate_immediate] *)
Definition migrate_attached (n : Z) (node_id : NodeId) : TS unit :=
  shard ← get_shard;
  let old_attached := is_attached (ts_intent shard) in
  _ ← on_intent (remove_secondary node_id);
  _ ← on_intent (set_attached (Some node_id));
  match old_attached with
  | Some old_attached =>
    if 0 <? n then
      shard ← get_shard;
      _ ← pop_secondaries (length (is_secondary (ts_intent shard))) n;
      on_intent (push_secondary old_attached)
    else mret tt
  | None => mret tt
  end.

(** [tenant_shard_migrate_immediate], before the reconciler; [false] is the error for
    detached shards *)
Definition tenant_shard_migrate_immediate (node_id : NodeId) : TS bool :=
  shard ← get_shard;
  let finish := modify_shard (λ shard,
    set_preferred_node None (shard <| ts_sequence := Sequence_next (ts_sequence shard) |>)) in
  match ts_policy shard with
  | PolicyAttached n => _ ← migrate_attached n node_id; _ ← finish; mret true
  | PolicySecondary =>
    _ ← on_intent clear;
    _ ← on_intent (push_secondary node_id);
    _ ← finish;
    mret true
  | PolicyDetached => mret false
  end.

(** [maybe_configured_reconcile_shard] for a shard that is being changed *)
Definition ts_reconcile (units : bool) (nodes : gmap NodeId Node) : TS unit :=
  shard ← get_shard;
  r ← st_lift (maybe_reconcile_shard units true nodes shard);
  modify_shard (λ _, r.2).

(** [tenant_shard_migrate_with_prewarm] *)
Definition tenant_shard_migrate_with_prewarm (node_id : NodeId) (c : ScheduleContext) :
    TS (option ScheduleOptimization) :=
  _ ← modify_shard (set_preferred_node (Some node_id));
  shard ← get_shard;
  on_scheduler (optimize_attachment shard c).

(** [tenant_shard_migrate], under the lock: the optimization that is to be validated and
    applied, if any *)
Definition migrate_shard (units : bool) (nodes : gmap NodeId Node) (prewarm : bool) (c : ScheduleContext)
    (node_id : NodeId) : TS (option (option ScheduleOptimization)) :=
  shard ← get_shard;
  if bool_decide (is_attached (ts_intent shard) = Some node_id) then
    _ ← modify_shard (set_preferred_node None);
    _ ← ts_reconcile units nodes;
    mret (Some None)
  else if prewarm then
    optimization ← tenant_shard_migrate_with_prewarm node_id c;
    mret (Some optimization)
  else
    migrated ← tenant_shard_migrate_immediate node_id;
    if (migrated : bool) then _ ← ts_reconcile units nodes; mret (Some None)
    else mret None.

(** The nodes of all shards of the tenant are avoided. *)
Definition tenant_context (tid : TenantId) (tenants : Tenants) : ScheduleContext :=
  foldl (λ c kv, ScheduleContext_avoid (all_pageservers (ts_intent kv.2)) c) (ScheduleContext_new ModeNormal)
    (split_tenant tid tenants).1.2.

Definition tenant_shard_migrate (units override_scheduler prewarm : bool) (origin_node_id : option NodeId)
    (tenant_shard_id : TenantShardId) (node_id : NodeId) : Svc (option ScheduleOptimization) :=
  locked ← st_get;
  match ss_nodes locked !! node_id with
  | None => st_fail ApiBadRequest
  | Some node =>
    if negb (is_available node) && negb override_scheduler then st_fail ApiPreconditionFailed
    else
      let c := tenant_context (tenant_id tenant_shard_id) (ss_tenants locked) in
      better ← with_tenant tenant_shard_id (
        shard ← get_shard;
        on_scheduler (find_better_location NodeAttachmentSchedulingScore shard c node_id []));
      match better with
      | None => st_fail ApiNotFound
      | Some better_node =>
        if bool_decide (better_node ≠ None) && negb override_scheduler then st_fail ApiPreconditionFailed
        else if bool_decide (origin_node_id ≠ None ∧
            (shard ← find_tenant tenant_shard_id (ss_tenants locked); is_attached (ts_intent shard)) ≠ origin_node_id)
        then st_fail ApiPreconditionFailed
        else
          outcome ← with_tenant tenant_shard_id (migrate_shard units (ss_nodes locked) prewarm c node_id);
          match mjoin outcome with
          | Some optimization => mret optimization
          | None => st_fail ApiBadRequest
          end
      end
  end.

Fixpoint remove_secondaries (nodes : list NodeId) : TS unit :=
  match nodes with
  | [] => mret tt
  | k :: nodes => _ ← on_intent (remove_secondary k); remove_secondaries nodes
  end.

(** [tenant_shard_migrate_secondary], the change of the intent *)
Definition tenant_shard_migrate_secondary (node_id : NodeId) : TS unit :=
  shard ← get_shard;
  if bool_decide (is_secondary (ts_intent shard) = [node_id]) then mret tt
  else if bool_decide (is_attached (ts_intent shard) = Some node_id) then mret tt
  else
    _ ← remove_secondaries (is_secondary (ts_intent shard));
    _ ← on_intent (push_secondary node_id);
    modify_shard (λ shard, shard <| ts_sequence := Sequence_next (ts_sequence shard) |>).

(** [tenant_drop]: the shards are removed, their intents cleared *)
Definition tenant_drop (tid : TenantId) : Svc unit := λ locked,
  let '(before, mine, after) := split_tenant tid (ss_tenants locked) in
  let '(r, _, s', _) := for_shards (λ _, body_shard (on_intent clear)) mine (ss_scheduler locked)
    (ScheduleContext_new ModeNormal) in
  (r, locked <| ss_tenants := before ++ after |> <| ss_scheduler := s' |>).

(** ** Results of reconcilers *)

(** [maybe_drop_tenant] *)
Definition droppable (shard : TenantShard) : bool :=
  bool_decide (ts_policy shard = PolicyDetached) && bool_decide (ts_reconciler shard = None) &&
  bool_decide (ts_observed shard = ∅).

Definition maybe_drop_tenant (tid : TenantId) (tenants : Tenants) : Tenants :=
  let '(before, mine, after) := split_tenant tid tenants in
  if forallb (λ kv, droppable kv.2) mine then before ++ after else tenants.

(** The shards whose reconcilers were delayed, as many as there are permits for *)
Fixpoint reconcile_delayed (nodes : gmap NodeId Node) (delayed : list TenantShardId) : Svc unit :=
  match delayed with
  | [] => mret tt
  | id :: delayed => _ ← with_tenant id (ts_reconcile true nodes); reconcile_delayed nodes delayed
  end.

(** [Service::process_result]; [guard]: the exclusive lock of the tenant was obtained *)
Definition service_process_result (guard : bool) (delayed : list TenantShardId) (tenant_shard_id : TenantShardId)
    (result : ReconcileResult) : Svc unit :=
  locked ← st_get;
  match find_tenant tenant_shard_id (ss_tenants locked) with
  | None => mret tt
  | Some tenant =>
    let tenant := process_result (ss_nodes locked) result tenant in
    let tenants := update_tenant tenant_shard_id tenant (ss_tenants locked) in
    let tenants :=
      if bool_decide (ts_policy tenant = PolicyDetached) && guard
      then maybe_drop_tenant (tenant_id tenant_shard_id) tenants else tenants in
    _ ← st_put (locked <| ss_tenants := tenants |>);
    reconcile_delayed (ss_nodes locked) delayed
  end.

(** ** The background loop *)

(** The body of [reconcile_all]; [delayed] shards wait for a permit *)
Definition reconcile_all_body (units delayed : TenantShardId → bool) (nodes : gmap NodeId Node) : ShardBody :=
  λ tenant_shard_id,
    x ← st_get;
    _ ← match is_attached (ts_intent x.1.1), preferred_az x.1.1 with
        | Some attached, Some _ => _ ← st_lift (unwrap (nodes !! attached)); mret tt
        | _, _ => mret tt
        end;
    if delayed tenant_shard_id then mret tt else body_reconcile (units tenant_shard_id) nodes.

(** [reconcile_all]: then the tenants that are detached and whose lock was obtained may be
    dropped.  Statistics are left out. *)
Definition reconcile_all (units delayed : TenantShardId → bool) (guard : TenantId → bool) : Svc unit :=
  locked ← st_get;
  _ ← for_all_shards (reconcile_all_body units delayed (ss_nodes locked));
  locked ← st_get;
  let drop_detached_tenants :=
    filter (λ kv : TenantShardId * TenantShard, delayed kv.1 = false ∧ shard_number kv.1 = 0 ∧
      ts_policy kv.2 = PolicyDetached ∧ guard (tenant_id kv.1) = true) (ss_tenants locked) in
  st_put (locked <| ss_tenants :=
    foldl (λ tenants kv, maybe_drop_tenant (tenant_id kv.1) tenants) (ss_tenants locked) drop_detached_tenants |>).

Definition may_optimize (shard : TenantShard) : bool :=
  match ts_scheduling_policy shard with
  | ShardActive => true
  | ShardEssential => bool_decide (ts_preferred_node shard ≠ None)
  | ShardPause | ShardStop => false
  end.

Definition is_idle (shard : TenantShard) : bool :=
  match ts_splitting shard with SplitIdle => true | _ => false end &&
  bool_decide (ts_policy shard ≠ PolicyDetached) && bool_decide (ts_reconciler shard = None).

Definition plan_shard (c : ScheduleContext) (shard : TenantShard) : SchedM (option ScheduleOptimization) :=
  if negb (may_optimize shard) then mret None
  else if negb (is_idle shard) then mret None
  else
    scheduler ← st_get;
    if negb (maybe_optimizable shard c scheduler) then mret None
    else
      optimization ← optimize_attachment shard c;
      match optimization with
      | Some optimization => mret (Some optimization)
      | None => optimize_secondary shard c
      end.

Definition MAX_OPTIMIZATIONS_PLAN_PER_PASS : Z := 64.
Definition MAX_OPTIMIZATIONS_EXEC_PER_PASS : Z := 16.

(** One optimization per tenant *)
Fixpoint plan_group (n : Z) (c : ScheduleContext) (shards : Tenants) :
    SchedM (list (TenantShardId * ScheduleOptimization)) :=
  match shards with
  | [] => mret []
  | (id, shard) :: shards =>
    if MAX_OPTIMIZATIONS_PLAN_PER_PASS <=? n then mret []
    else
      optimization ← plan_shard c shard;
      match optimization with
      | Some optimization => mret [(id, optimization)]
      | None => plan_group n c shards
      end
  end.

Fixpoint plan_groups (work : list (TenantShardId * ScheduleOptimization)) (groups : list (ScheduleContext * Tenants)) :
    SchedM (list (TenantShardId * ScheduleOptimization)) :=
  match groups with
  | [] => mret work
  | (c, shards) :: groups =>
    new ← plan_group (Z.of_nat (length work)) c shards;
    plan_groups (work ++ new) groups
  end.

Definition optimize_all_plan : Svc (list (TenantShardId * ScheduleOptimization)) := λ locked,
  match context_groups (E := ApiError) ModeSpeculative (ScheduleContext_new ModeSpeculative) [] (ss_tenants locked) with
  | Ok (groups, _) =>
    let '(r, s') := plan_groups [] groups (ss_scheduler locked) in
    (match r with Ok work => Ok work | Err e => Err (ApiSchedule e) | Panic => Panic end,
     locked <| ss_scheduler := s' |>)
  | Err e => (Err e, locked)
  | Panic => (Panic, locked)
  end.

(** The last phase of [optimize_all] *)
Definition apply_and_reconcile (units : bool) (nodes : gmap NodeId Node) (o : ScheduleOptimization) : TS bool :=
  applied ← apply_optimization o;
  if (applied : bool) then _ ← ts_reconcile units nodes; mret true else mret false.

Fixpoint optimize_all_apply (units : TenantShardId → bool) (optimizations_applied : Z)
    (validated_work : list (TenantShardId * ScheduleOptimization)) : Svc unit :=
  match validated_work with
  | [] => mret tt
  | (id, o) :: validated_work =>
    locked ← st_get;
    applied ← with_tenant id (apply_and_reconcile (units id) (ss_nodes locked) o);
    match applied with
    | None => optimize_all_apply units optimizations_applied validated_work
    | Some applied =>
      let optimizations_applied := if (applied : bool) then optimizations_applied + 1 else optimizations_applied in
      if MAX_OPTIMIZATIONS_EXEC_PER_PASS <=? optimizations_applied then mret tt
      else optimize_all_apply units optimizations_applied validated_work
    end
  end.

(** ** Draining a node *)

(** [validate_node_state] *)
Definition validate_node_state (node_id : NodeId) (nodes : gmap NodeId Node) : outcome ApiError unit :=
  match nodes !! node_id with
  | None => Err ApiNodeStateChanged
  | Some node => match n_scheduling node with NodeSchedDraining => Ok tt | _ => Err ApiNodeStateChanged end
  end.

Definition tenant_shard_eligible_for_drain {E} (drained_node : NodeId) (tenant_shard_id : TenantShardId)
    (tenants : Tenants) (scheduler : Scheduler) : outcome E (option NodeId) :=
  match find_tenant tenant_shard_id tenants with
  | None => Ok None
  | Some tenant_shard =>
    if negb (bool_decide (is_attached (ts_intent tenant_shard) = Some drained_node)) then Ok None
    else
      match ts_scheduling_policy tenant_shard with
      | ShardActive | ShardEssential => preferred_secondary tenant_shard scheduler
      | ShardPause | ShardStop => Ok None
      end
  end.

(** [TenantShardDrain::reschedule_to_secondary]: whether the shard was rescheduled *)
Definition drain_reschedule (tenant_shard_id : TenantShardId) (destination : NodeId) : Svc bool :=
  locked ← st_get;
  match find_tenant tenant_shard_id (ss_tenants locked) with
  | None => mret false
  | Some tenant_shard =>
    if bool_decide (ss_nodes locked !! destination = None) then st_fail ApiNodeStateChanged
    else if bool_decide (destination ∉ is_secondary (ts_intent tenant_shard)) then mret false
    else
      r ← st_try (with_tenant tenant_shard_id (reschedule_to_secondary (Some destination)));
      mret (match r with Some (Some _) => true | _ => false end)
  end.

(** [TenantShardIterator] *)
Record TenantShardIterator := mkTenantShardIterator {
  it_inspected_all_shards : bool;
  it_last_inspected_shard : option TenantShardId;
}.

Definition TenantShardIterator_new : TenantShardIterator := mkTenantShardIterator false None.

Definition TenantShardIterator_next (tenants_accessor : option TenantShardId → option TenantShardId)
    (self : TenantShardIterator) : option TenantShardId * TenantShardIterator :=
  if it_inspected_all_shards self then (None, self)
  else
    match tenants_accessor (it_last_inspected_shard self) with
    | Some tid => (Some tid, mkTenantShardIterator false (Some tid))
    | None => (None, mkTenantShardIterator true (it_last_inspected_shard self))
    end.

(** The accessor of [drain_node]: the key after the last one seen *)
Definition drain_accessor (tenants : Tenants) (last_inspected_shard : option TenantShardId) : option TenantShardId :=
  match last_inspected_shard with
  | Some skip_past => fst <$> skip_while (λ kv, negb (bool_decide (kv.1 = skip_past))) tenants !! 1%nat
  | None => fst <$> head tenants
  end.
