(* ===== verification/StorconInvariant.v ===== *)
(** * The operations of the storage controller keep its counts

    The invariant: the scheduler knows the nodes of the service, with their zones and
    whether they may be scheduled; its counters are those of the intents; no shard is
    located twice on a node.  It makes [Scheduler::consistency_check] succeed.  It is kept
    by registration, configuration, failure and removal of nodes and by the operations on
    shards; the cases in which they break it are at the end of [StorconReach]. *)

From S2P Require Import Prelude Bytes Text Membership Ids Key Shard.
From S2P Require Import Scheduler IntentState TenantShard ShardScheduling StorconService.

(** ** The invariant *)

Definition node_skel (nodes : gmap NodeId Node) : gmap NodeId (AvailabilityZone * bool) :=
  (λ n, (n_availability_zone_id n, is_may_yes (may_schedule n))) <$> nodes.

Definition intents (tenants : Tenants) : list IntentState := (λ kv, ts_intent kv.2) <$> tenants.

(** There is a generation, and its number is not negative. *)
Definition has_generation (g : option Generation) : Prop := -1 ≤ generation_rank g.

(** The shard has, or is to get, an attached location. *)
Definition attaches (t : TenantShard) : Prop :=
  is_Some (is_attached (ts_intent t)) ∨ ∃ n, ts_policy t = PolicyAttached n.

(** A shard with at most one secondary wanted, a generation if it is to be attached, and
    observed and preferred locations on existing nodes only *)
Record shard_ok (nodes : gmap NodeId Node) (t : TenantShard) : Prop := mkShardOk {
  sok_policy : 0 ≤ want_secondaries (ts_policy t) ≤ 1;
  sok_generation : attaches t → has_generation (ts_generation t);
  sok_observed : ∀ k, is_Some (ts_observed t !! k) → is_Some (nodes !! k);
  sok_preferred : ∀ k, ts_preferred_node t = Some k → is_Some (nodes !! k);
}.

(** Shards next to others, whose intents are [Is] *)
Record shards_inv (D : NodeId → Prop) (Is : list IntentState) (sk : gmap NodeId (AvailabilityZone * bool))
    (nodes : gmap NodeId Node) (l : Tenants) (s : Scheduler) : Prop := mkShardsInv {
  shi_skel : skel s = sk;
  shi_acc : accounted D (intents l ++ Is) s;
  shi_wf : Forall intent_wf (intents l);
  shi_known : Forall (known s) (intents l);
  shi_ok : Forall (λ kv, shard_ok nodes kv.2) l;
  shi_scorable : scorable s;
}.

Record service_inv (st : ServiceState) : Prop := mkServiceInv {
  sinv_keys : ∀ k n, ss_nodes st !! k = Some n → n_id n = k;
  sinv_scorable : ∀ k n u, ss_nodes st !! k = Some n → n_availability n = NodeActive u → pu_scorable u;
  sinv_shards : shards_inv all_nodes [] (node_skel (ss_nodes st)) (ss_nodes st) (ss_tenants st) (ss_scheduler st);
}.

Lemma accounted_perm D Is Is' s : Is ≡ₚ Is' → accounted D Is s → accounted D Is' s.
Proof. intros Hp H. eapply counted_ext; [exact H|]. intros. by apply Zsum_perm. Qed.

Lemma Scheduler_new_lookup l : ∀ (s : Scheduler) k,
  foldl (λ m node, <[n_id node := SchedulerNode_of node]> m) s l !! k =
    match last (filter (λ n, n_id n = k) l) with Some n => Some (SchedulerNode_of n) | None => s !! k end.
Proof.
  induction l as [|n l IH]; intros s k; simpl; [done|]. rewrite IH, filter_cons.
  destruct (decide (n_id n = k)) as [<-|Hk]; simpl.
  - rewrite last_cons. destruct (last (filter _ l)); [done|]. by rewrite lookup_insert_eq.
  - destruct (last (filter _ l)); [done|]. by rewrite lookup_insert_ne.
Qed.

Lemma Scheduler_new_skel (nodes : gmap NodeId Node) :
  (∀ k n, nodes !! k = Some n → n_id n = k) → skel (Scheduler_new (map_to_list nodes).*2) = node_skel nodes.
Proof.
  intros Hkeys. apply map_eq. intros k. unfold skel, node_skel, Scheduler_new.
  rewrite !lookup_fmap, Scheduler_new_lookup, lookup_empty.
  assert (Hin : ∀ n, n ∈ (map_to_list nodes).*2 ↔ nodes !! (n_id n) = Some n).
  { intros n. rewrite list_elem_of_fmap. split.
    - intros ([j m] & -> & Hm%elem_of_map_to_list). simpl. by rewrite (Hkeys j m Hm).
    - intros Hn. exists (n_id n, n). split; [done|]. by apply elem_of_map_to_list. }
  destruct (last _) as [n|] eqn:Hl.
  - apply last_Some_elem_of, list_elem_of_filter in Hl as [<- Hn%Hin]. by rewrite Hn.
  - apply last_None in Hl. destruct (nodes !! k) as [n|] eqn:Hn; [|done].
    assert (Hx : n ∈ filter (λ n, n_id n = k) (map_to_list nodes).*2).
    { apply list_elem_of_filter. pose proof (Hkeys k n Hn) as <-. split; [done|]. by apply Hin. }
    rewrite Hl in Hx. by apply elem_of_nil in Hx.
Qed.

(** The invariant is what the check asks for. *)
Lemma service_inv_check st :
  service_inv st →
  consistency_check (map_to_list (ss_nodes st)).*2 (intents (ss_tenants st)) (ss_scheduler st) = Ok tt.
Proof.
  intros [Hkeys _ [Hsk Hacc _ Hkn _ _]]. apply consistency_check_spec. rewrite app_nil_r in Hacc.
  split; [by rewrite Scheduler_new_skel|]. split; [done|]. by apply accounted_checked.
Qed.

(** ** Loops over shards *)

(** A body that keeps the invariant of one shard, does not panic, and establishes [R] from
    [P] unless it returns early *)
Definition body_ok (D : NodeId → Prop) (sk : gmap NodeId (AvailabilityZone * bool)) (nodes : gmap NodeId Node)
    (P R : TenantShard → Prop) (body : ShardBody) : Prop :=
  ∀ id t s c Is, sound D Is sk (t, s) → shard_ok nodes t → P t →
    wp (body id) (λ r x', sound D Is sk x'.1 ∧ shard_ok nodes x'.1.1 ∧ (r = Ok tt → R x'.1.1) ∧ r ≠ Panic) (t, s, c).

Lemma shards_inv_cons D Is sk nodes id t l s :
  shards_inv D Is sk nodes ((id, t) :: l) s ↔
  sound D (intents l ++ Is) sk (t, s) ∧ shard_ok nodes t ∧
  Forall intent_wf (intents l) ∧ Forall (known s) (intents l) ∧ Forall (λ kv, shard_ok nodes kv.2) l.
Proof.
  split.
  - intros [? ? Hwf Hkn Hok ?]. simpl in *. apply Forall_cons in Hwf as [? ?], Hkn as [? ?], Hok as [? ?].
    split; [by split|done].
  - intros ([? ? ? ? ?] & ? & ? & ? & ?). split; simpl; try done; by constructor.
Qed.

Lemma skel_known_intents s s' l : skel s = skel s' → Forall (known s) l → Forall (known s') l.
Proof.
  intros Hsk Hl. eapply Forall_impl; [exact Hl|]. intros I HI k Hk. apply (skel_known _ _ k Hsk). auto.
Qed.

Lemma for_shards_inv D sk nodes P R body l : ∀ Is s c,
  body_ok D sk nodes P R body → shards_inv D Is sk nodes l s → Forall (λ kv, P kv.2) l →
  let '(r, l', s', _) := for_shards body l s c in
  shards_inv D Is sk nodes l' s' ∧ r ≠ Panic ∧ l'.*1 = l.*1 ∧ (r = Ok tt → Forall (λ kv, R kv.2) l').
Proof.
  induction l as [|[id t] l IH]; intros Is s c Hbody Hinv HP; simpl; [done|].
  apply Forall_cons in HP as [HPt HPl].
  apply shards_inv_cons in Hinv as (Hs & Hok & Hwf & Hkn & Hoks).
  pose proof (Hbody id t s c _ Hs Hok HPt) as Hb. unfold wp in Hb.
  destruct (body id (t, s, c)) as [r [[t' s'] c']]. simpl in Hb. destruct Hb as (Hs' & Hok' & HR' & Hr).
  assert (Hsk : skel s' = skel s).
  { pose proof (snd_skel _ _ _ _ Hs). pose proof (snd_skel _ _ _ _ Hs'). simpl in *. congruence. }
  assert (Hcons : shards_inv D Is sk nodes ((id, t') :: l) s').
  { apply shards_inv_cons. split; [done|]. split; [done|]. split; [done|]. split; [|done].
    by eapply skel_known_intents. }
  destruct r as [[]|e|]; [|by split|done].
  assert (Hrest : shards_inv D (ts_intent t' :: Is) sk nodes l s').
  { apply shards_inv_cons in Hcons as (_ & _ & ? & ? & ?). destruct Hs' as [? Hacc ? ? ?]. simpl in *.
    split; try done. eapply accounted_perm; [|exact Hacc]. by rewrite Permutation_middle. }
  specialize (IH (ts_intent t' :: Is) s' c' Hbody Hrest HPl).
  destruct (for_shards body l s' c') as [[[r2 l'] s2] c2]. destruct IH as (Hl' & Hr2 & Hkeys & HPl').
  split; [|split; [done|split; [simpl; by f_equal|]]].
  - destruct Hl' as [Hsk2 Hacc2 Hwf2 Hkn2 Hok2 Hsc2]. split; simpl; try done.
    + eapply accounted_perm; [|exact Hacc2]. by rewrite Permutation_middle.
    + constructor; [apply (snd_wf _ _ _ _ Hs')|done].
    + constructor; [|done]. intros k Hk. apply (skel_known s' s2 k).
      * pose proof (snd_skel _ _ _ _ Hs'). simpl in *. congruence.
      * by apply (snd_known _ _ _ _ Hs').
    + by constructor.
  - intros. constructor; auto.
Qed.

Lemma intents_app l l' : intents (l ++ l') = intents l ++ intents l'.
Proof. apply fmap_app. Qed.

(** Two parts of the shards *)
Lemma shards_inv_app D Is sk nodes l l' s :
  shards_inv D Is sk nodes (l ++ l') s ↔
  shards_inv D (intents l' ++ Is) sk nodes l s ∧ Forall intent_wf (intents l') ∧ Forall (known s) (intents l') ∧
  Forall (λ kv, shard_ok nodes kv.2) l'.
Proof.
  split.
  - intros [? Hacc Hwf Hkn Hok ?]. rewrite intents_app in *. apply Forall_app in Hwf as [? ?], Hkn as [? ?].
    apply Forall_app in Hok as [? ?]. split; [|done]. split; try done. by rewrite app_assoc.
  - intros ([? Hacc ? ? ? ?] & ? & ? & ?). split; rewrite ?intents_app; try done.
    + by rewrite <- app_assoc.
    + by apply Forall_app.
    + by apply Forall_app.
    + by apply Forall_app.
Qed.

Lemma shards_inv_swap D Is sk nodes l l' s :
  shards_inv D (intents l' ++ Is) sk nodes l s → Forall intent_wf (intents l') → Forall (known s) (intents l') →
  Forall (λ kv, shard_ok nodes kv.2) l' → shards_inv D (intents l ++ Is) sk nodes l' s.
Proof.
  intros [? Hacc ? ? ? ?] ? ? ?. split; try done. eapply accounted_perm; [|exact Hacc].
  rewrite !app_assoc. f_equiv. by rewrite Permutation_app_comm.
Qed.

Lemma context_groups_concat {E} mode l : ∀ c acc groups unvisited,
  context_groups (E := E) mode c acc l = Ok (groups, unvisited) →
  concat (snd <$> groups) ++ unvisited = acc ++ l.
Proof.
  induction l as [|[id t] l IH]; intros c acc groups unvisited; simpl.
  { intros [= <- <-]. by rewrite app_nil_r. }
  destruct (_ && _); [done|]. destruct (_ =? _); unfold mbind; simpl.
  - destruct (context_groups _ _ _ _) as [[g u]|e|] eqn:Hg; simpl; [|done..]. intros [= <- <-].
    apply IH in Hg.
    rewrite fmap_cons. simpl in *. rewrite <- !app_assoc. simpl. by rewrite Hg.
  - intros Hg. apply IH in Hg. by rewrite Hg, <- app_assoc.
Qed.

Lemma context_groups_no_error {E} mode l : ∀ c acc (e : E), context_groups mode c acc l ≠ Err e.
Proof.
  induction l as [|[id t] l IH]; intros c acc e; simpl; [done|]. destruct (_ && _); [done|].
  destruct (_ =? _); [|apply IH]. unfold mbind. simpl. specialize (IH (ScheduleContext_new mode) [] e).
  destruct (context_groups _ _ _ _); simpl; [done| |done]. congruence.
Qed.

Lemma for_groups_inv D sk nodes P R body groups : ∀ Is s,
  body_ok D sk nodes P R body → shards_inv D Is sk nodes (concat (snd <$> groups)) s →
  Forall (λ kv, P kv.2) (concat (snd <$> groups)) →
  let '(r, l', s') := for_groups body groups s in
  shards_inv D Is sk nodes l' s' ∧ r ≠ Panic ∧ l'.*1 = (concat (snd <$> groups)).*1 ∧
  (r = Ok tt → Forall (λ kv, R kv.2) l').
Proof.
  induction groups as [|[c l] groups IH]; intros Is s Hbody Hinv HP; simpl in *; [done|].
  apply Forall_app in HP as [HPl HPr]. apply shards_inv_app in Hinv as (Hl & Hwf & Hkn & Hok).
  pose proof (for_shards_inv D sk nodes P R body l _ s c Hbody Hl HPl) as Hf.
  destruct (for_shards body l s c) as [[[r l'] s'] c']. destruct Hf as (Hl' & Hr & Hkeys & HP').
  assert (Hkn' : Forall (known s') (intents (concat (snd <$> groups)))).
  { eapply skel_known_intents; [|exact Hkn]. rewrite (shi_skel _ _ _ _ _ _ Hl), (shi_skel _ _ _ _ _ _ Hl'). done. }
  assert (Happ : shards_inv D Is sk nodes (l' ++ concat (snd <$> groups)) s') by (by apply shards_inv_app).
  destruct r as [[]|e|]; [|by rewrite !fmap_app, Hkeys|done].
  assert (Hrest : shards_inv D (intents l' ++ Is) sk nodes (concat (snd <$> groups)) s')
    by (by apply shards_inv_swap).
  specialize (IH _ _ Hbody Hrest HPr). destruct (for_groups body groups s') as [[r2 rest] s2].
  destruct IH as (Hrest2 & Hr2 & Hkeys2 & HP2). split; [|split; [done|split]].
  - apply shards_inv_app. destruct Hl' as [? ? ? Hknl ? ?].
    assert (Hkn2 : Forall (known s2) (intents l')).
    { eapply skel_known_intents; [|exact Hknl]. pose proof (shi_skel _ _ _ _ _ _ Hrest2). congruence. }
    split; [by apply shards_inv_swap|]. destruct Hrest2. done.
  - by rewrite !fmap_app, Hkeys, Hkeys2.
  - intros Hok2. apply Forall_app. auto.
Qed.

(** A loop over the shards of all tenants; it panics only in the iterator. *)
Lemma for_tenants_inv D sk nodes P R mode body st :
  body_ok D sk nodes P R body → shards_inv D [] sk nodes (ss_tenants st) (ss_scheduler st) →
  Forall (λ kv, P kv.2) (ss_tenants st) →
  let '(r, st') := for_tenants mode body st in
  shards_inv D [] sk nodes (ss_tenants st') (ss_scheduler st') ∧ ss_nodes st' = ss_nodes st ∧
  (ss_tenants st').*1 = (ss_tenants st).*1 ∧
  (r = Ok tt → (∃ groups, context_groups (E := ApiError) mode (ScheduleContext_new mode) [] (ss_tenants st) = Ok (groups, [])) →
    Forall (λ kv, R kv.2) (ss_tenants st')) ∧
  (r = Panic → context_groups (E := ApiError) mode (ScheduleContext_new mode) [] (ss_tenants st) = Panic).
Proof.
  intros Hbody Hinv HP. unfold for_tenants. destruct (context_groups _ _ _ _) as [[groups u]|e|] eqn:Hgr; [|done..].
  pose proof Hgr as Hg. apply context_groups_concat in Hg. simpl in Hg. rewrite <- Hg in Hinv, HP.
  apply Forall_app in HP as [HPg HPu]. apply shards_inv_app in Hinv as (Hl & Hwf & Hkn & Hok).
  pose proof (for_groups_inv D sk nodes P R body groups _ _ Hbody Hl HPg) as Hf.
  destruct (for_groups body groups (ss_scheduler st)) as [[r l'] s']. destruct Hf as (Hl' & Hr & Hkeys & HP').
  simpl. split; [|split; [done|split; [|split]]].
  - apply shards_inv_app. split; [done|]. split; [done|]. split; [|done]. eapply skel_known_intents; [|exact Hkn].
    rewrite (shi_skel _ _ _ _ _ _ Hl), (shi_skel _ _ _ _ _ _ Hl'). done.
  - by rewrite <- Hg, !fmap_app, Hkeys.
  - intros Hok' [g [= <- ->]]. rewrite app_nil_r. auto.
  - done.
Qed.

(** ** Reconcilers do not touch the intent *)

Lemma sound_same_intent D Is sk t t' s :
  ts_intent t' = ts_intent t → sound D Is sk (t, s) → sound D Is sk (t', s).
Proof. intros Heq [? ? ? ? ?]. split; simpl in *; rewrite ?Heq; done. Qed.

(** The parts of a shard that [shard_ok] speaks of *)
Definition same_shard (t t' : TenantShard) : Prop :=
  ts_intent t' = ts_intent t ∧ ts_policy t' = ts_policy t ∧ ts_generation t' = ts_generation t ∧
  ts_observed t' = ts_observed t ∧ ts_preferred_node t' = ts_preferred_node t ∧
  ts_scheduling_policy t' = ts_scheduling_policy t.

Lemma same_shard_ok nodes t t' : same_shard t t' → shard_ok nodes t → shard_ok nodes t'.
Proof. intros (Hi & Hp & Hg & Ho & Hn & _) [? ? ? ?]. split; unfold attaches in *; rewrite ?Hi, ?Hp, ?Hg, ?Ho, ?Hn; done. Qed.

Lemma ensure_sequence_ahead_same t : same_shard t (ensure_sequence_ahead t).
Proof. unfold ensure_sequence_ahead. by case_match. Qed.

Lemma dirty_observed_ok {E} nodes l :
  (∀ k o, (k, o) ∈ l → is_Some (nodes !! k)) → ∃ b, dirty_observed (E := E) nodes l = Ok b.
Proof.
  induction l as [|[k o] l IH]; intros Hl; simpl; [by eexists|]. destruct (Hl k o) as [n ->]; [by left|]. simpl.
  destruct (_ && _); [by eexists|]. apply IH. intros. eapply Hl. by right.
Qed.

Lemma dirty_ok {E} nodes t : (attaches t → has_generation (ts_generation t)) → ∃ b, dirty (E := E) t nodes = Ok b.
Proof.
  unfold dirty, dirty_nodes, attaches. intros Hg. destruct (is_attached (ts_intent t)) as [k|]; simpl; [|eauto].
  destruct (ts_generation t) as [g|]; simpl; [eauto|]. exfalso. assert (H : has_generation None) by eauto. by destruct H.
Qed.

Lemma same_fields_ok nodes t t' :
  ts_policy t' = ts_policy t → ts_generation t' = ts_generation t → ts_observed t' = ts_observed t →
  (∀ k, ts_preferred_node t' = Some k → ts_preferred_node t = Some k) →
  (attaches t' → attaches t) → shard_ok nodes t → shard_ok nodes t'.
Proof. intros Hp Hg Ho Hn Ha [? ? ? ?]. split; rewrite ?Hp, ?Hg, ?Ho; auto. Qed.

Lemma get_reconcile_needed_ok {E} nodes t :
  shard_ok nodes t → ∃ r, get_reconcile_needed (E := E) nodes t = Ok r.
Proof.
  intros [_ Hg Ho _]. unfold get_reconcile_needed.
  destruct (dirty_observed_ok (E := E) nodes (map_to_list (ts_observed t))) as [b ->].
  { intros k o Hk%elem_of_map_to_list. apply Ho. by eexists. }
  destruct (dirty_ok (E := E) nodes t Hg) as [b' ->]. simpl. repeat case_match; eauto.
Qed.

(** The locations of the shard are on nodes of the service. *)
Definition located (nodes : gmap NodeId Node) (t : TenantShard) : Prop :=
  ∀ k, k ∈ all_pageservers (ts_intent t) → is_Some (nodes !! k).

Lemma nodes_known D Is nodes t s k :
  sound D Is (node_skel nodes) (t, s) → is_Some (nodes !! k) ↔ is_Some (s !! k).
Proof.
  intros Hs. pose proof (snd_skel _ _ _ _ Hs) as Hsk. simpl in Hsk.
  assert (Hl : skel s !! k = node_skel nodes !! k) by (by rewrite Hsk). unfold skel, node_skel in Hl.
  rewrite !lookup_fmap in Hl. split; intros [x Hx]; rewrite Hx in Hl; [destruct (s !! k)|destruct (nodes !! k)]; by eauto.
Qed.

Lemma sound_located D Is nodes t s : sound D Is (node_skel nodes) (t, s) → located nodes t.
Proof. intros Hs k Hk. eapply nodes_known; [done|]. by apply (snd_known _ _ _ _ Hs). Qed.

Lemma nodes_of_ok {E} nodes l : (∀ k, k ∈ l → is_Some (nodes !! k)) → ∃ d, nodes_of (E := E) nodes l = Ok d.
Proof.
  induction l as [|k l IH]; intros Hl; simpl; [by eexists|].
  destruct IH as [d ->]; [intros; apply Hl; by right|]. simpl. destruct (Hl k) as [n ->]; [by left|]. by eexists.
Qed.

Lemma TargetState_from_intent_ok {E} nodes I :
  (∀ k, k ∈ all_pageservers I → is_Some (nodes !! k)) → ∃ x, TargetState_from_intent (E := E) nodes I = Ok x.
Proof.
  intros HI. unfold TargetState_from_intent.
  destruct (nodes_of_ok (E := E) nodes (option_list (is_attached I))) as [a ->]; [unfold all_pageservers in HI; set_solver|].
  simpl. destruct (nodes_of_ok (E := E) nodes (is_secondary I)) as [b ->]; [unfold all_pageservers in HI; set_solver|].
  by eexists.
Qed.

Lemma spawn_reconciler_ok {E} nodes t :
  shard_ok nodes t → located nodes t →
  ∃ x d seq t', spawn_reconciler (E := E) nodes t = Ok (x, d, seq, t') ∧ same_shard t t'.
Proof.
  intros [_ _ Ho _] Hloc. unfold spawn_reconciler.
  set (extra := filter _ _). destruct (nodes_of_ok (E := E) nodes extra) as [d ->].
  { intros k [_ Hk]%list_elem_of_filter. apply list_elem_of_fmap in Hk as ([j o] & -> & Hj%elem_of_map_to_list).
    apply Ho. by eexists. }
  simpl. pose proof (ensure_sequence_ahead_same t) as (Hi & Hrest). rewrite Hi.
  destruct (TargetState_from_intent_ok (E := E) nodes (ts_intent t) Hloc) as [x ->]. simpl. do 4 eexists. split; [done|].
  by split.
Qed.

Lemma maybe_reconcile_shard_ok {E} units gate nodes t :
  shard_ok nodes t → located nodes t →
  ∃ o t', maybe_reconcile_shard (E := E) units gate nodes t = Ok (o, t') ∧ same_shard t t'.
Proof.
  intros Hok Hloc. unfold maybe_reconcile_shard. destruct (get_reconcile_needed_ok (E := E) nodes t Hok) as [r ->]. simpl.
  destruct r; [by do 2 eexists|by do 2 eexists|]. destruct units; simpl.
  - destruct gate; simpl; [|by do 2 eexists].
    destruct (spawn_reconciler_ok (E := E) nodes t Hok Hloc) as (x & d & seq & t' & -> & Hs). simpl. by do 2 eexists.
  - do 2 eexists. split; [done|]. apply ensure_sequence_ahead_same.
Qed.

Lemma body_reconcile_spec units nodes t s c Q :
  shard_ok nodes t → located nodes t → (∀ t', same_shard t t' → Q (Ok tt) (t', s, c)) →
  wp (body_reconcile units nodes) Q (t, s, c).
Proof.
  intros Hok Hloc HQ. unfold body_reconcile. wp_steps.
  destruct (maybe_reconcile_shard_ok (E := ApiError) units true nodes t Hok Hloc) as (o & t' & -> & Hs).
  unfold body_modify. wp_steps. by apply HQ.
Qed.

(** ** Scheduling in a loop *)

Lemma small_extendable nodes t : shard_ok nodes t → extendable (ts_policy t) (ts_intent t).
Proof. intros [Hp _ _ _]. unfold extendable. destruct (ts_policy t); [left; simpl in *; lia|done..]. Qed.

Lemma body_schedule_spec D Is sk nodes t s c Q :
  sound D Is sk (t, s) → shard_ok nodes t →
  (∀ r t' s' c', sound D Is sk (t', s') → shard_ok nodes t' → news sk t (ts_intent t') →
    ts_generation t' = ts_generation t → ts_preferred_node t' = ts_preferred_node t → r ≠ Panic → Q r (t', s', c')) →
  wp body_schedule Q (t, s, c).
Proof.
  intros Hs Hok HQ. unfold wp, body_schedule, schedule. simpl.
  pose proof (do_schedule_spec c D Is sk t s Hs (small_extendable _ _ Hok)) as Hd. unfold wp in Hd.
  destruct (do_schedule c (t, s)) as [r [t' s']]. simpl in *. destruct Hd as (Hs' & _ & Hnews & Hr). simpl in *.
  assert (Hsame : ts_policy t' = ts_policy t ∧ ts_generation t' = ts_generation t ∧ ts_observed t' = ts_observed t ∧
    ts_preferred_node t' = ts_preferred_node t).
  { destruct r as [[]|e|]; [|by destruct Hr as (-> & _)|done].
    destruct (scheduling_on (ts_scheduling_policy t)); [|by subst]. destruct Hr as [_ ->]. by case_decide. }
  destruct Hsame as (Hp & Hg & Ho & Hpn). apply HQ; [done| |done|done|done|by destruct r].
  eapply same_fields_ok, Hok; [done..|by rewrite Hpn|]. unfold attaches. rewrite Hp.
  destruct (ts_policy t) eqn:Hpol; [by right; eexists|..]; (intros [Ha|?]; [|by right]).
  - destruct r as [[]|e|]; [|destruct Hr as (_ & [[? ?]|Hi] & _); [congruence|rewrite <- Hi; by left]|done].
    destruct (scheduling_on _); [|subst; by left]. destruct Hr as [[Hn _] _]. rewrite Hn in Ha. by destruct Ha.
  - destruct r as [[]|e|]; [|destruct Hr as (_ & [[? ?]|Hi] & _); [congruence|rewrite <- Hi; by left]|done].
    destruct (scheduling_on _); [|subst; by left]. destruct Hr as [Hn _]. unfold fulfils, all_pageservers in Hn.
    destruct Ha as [k Hk]. by rewrite Hk in Hn.
Qed.

Lemma demote_attached_sound D Is sk t s k Q :
  sound D Is sk (t, s) →
  (∀ s', is_attached (ts_intent t) = Some k → sound D Is sk (with_intent t (demoted (ts_intent t)), s') →
    Q (Ok true) (with_intent t (demoted (ts_intent t)), s')) →
  (is_attached (ts_intent t) ≠ Some k → Q (Ok false) (t, s)) →
  wp (on_intent (demote_attached k)) Q (t, s).
Proof.
  intros Hs Hyes Hno. destruct (decide (is_attached (ts_intent t) = Some k)) as [Hk|Hk].
  - eapply on_demote_sound; [done..|]. intros s' Hs'. by apply Hyes.
  - unfold on_intent. apply wp_zoom. simpl. run_intent demote_attached. rewrite bool_decide_false by done. simpl.
    specialize (Hno Hk). by destruct t.
Qed.

Lemma wp_try {S E A} (m : ST S E A) (Q : outcome E (option A) → S → Prop) s :
  wp m (λ r s', Q (match r with Ok a => Ok (Some a) | Err _ => Ok None | Panic => Panic end) s') s →
  wp (st_try m) Q s.
Proof. unfold wp, st_try. by destruct (m s) as [[]]. Qed.

Definition always (t : TenantShard) : Prop := True.

Lemma forget_observed_ok nodes k t : shard_ok nodes t → shard_ok nodes (forget_observed k t).
Proof.
  intros [? ? Ho ?]. unfold forget_observed. destruct (ts_observed t !! k) eqn:Hk; [|done].
  split; unfold attaches in *; simpl; try done.
  intros j. destruct (decide (j = k)) as [->|]; [|rewrite lookup_insert_ne by done; apply Ho].
  intros _. apply Ho. by eexists.
Qed.

Lemma forget_observed_intent k t : ts_intent (forget_observed k t) = ts_intent t.
Proof. unfold forget_observed. by case_match. Qed.

Lemma offline_body_ok units D nodes k : body_ok D (node_skel nodes) nodes always always (offline_body units nodes k).
Proof.
  intros id t s c Is Hs Hok _. unfold offline_body, body_modify. wp_step. wp_step. simpl.
  set (t1 := forget_observed k t).
  assert (Hs1 : sound D Is (node_skel nodes) (t1, s)) by (eapply sound_same_intent; [apply forget_observed_intent|done]).
  assert (Hok1 : shard_ok nodes t1) by (by apply forget_observed_ok).
  wp_step; [by wp_steps|]. wp_step; [by wp_steps|]. wp_step. unfold body_shard. wp_step. wp_step. simpl.
  eapply demote_attached_sound; [done| |].
  2:{ intros _. by wp_steps. }
  intros s2 Hatt Hs2. wp_step. wp_step. simpl.
  set (t2 := with_intent t1 (demoted (ts_intent t1)) <| ts_sequence := _ |>).
  wp_step. apply wp_try. eapply (body_schedule_spec D Is (node_skel nodes) nodes t2); [by apply sound_sequence| |].
  { eapply same_fields_ok, Hok1; [done..|]. unfold attaches. simpl. intros [[? ?]|?]; [done|by right]. }
  intros r t3 s3 c3 Hs3 Hok3 _ Hg3 _ Hr. destruct r as [[]|e|]; [|by wp_steps|done].
  apply body_reconcile_spec; [done|by eapply sound_located|]. intros t4 Hsame. split; [|split; [by eapply same_shard_ok|done]].
  eapply sound_same_intent; [apply Hsame|done].
Qed.

Definition small_placement (placement : option PlacementPolicy) : Prop :=
  ∀ p, placement = Some p → 0 ≤ want_secondaries p ≤ 1.

(** A shard that is to be attached has a generation: see [attach_without_generation_panics]. *)
Definition attachable (placement : option PlacementPolicy) (t : TenantShard) : Prop :=
  ∀ n, placement = Some (PolicyAttached n) → has_generation (ts_generation t).

Lemma policy_body_ok units D nodes placement scheduling :
  small_placement placement →
  body_ok D (node_skel nodes) nodes (attachable placement) always (policy_body units nodes placement scheduling).
Proof.
  intros Hpl id t s c Is Hs Hok Hat. unfold policy_body, body_modify. wp_step. wp_step. simpl.
  set (t1 := set_policies placement scheduling t).
  assert (Hs1 : sound D Is (node_skel nodes) (t1, s)).
  { eapply sound_same_intent; [|done]. unfold t1, set_policies. by repeat case_match. }
  assert (Hok1 : shard_ok nodes t1).
  { destruct Hok as [? Hg ? ?]. unfold t1, set_policies, attaches in *. destruct placement as [p|], scheduling; split; simpl; auto.
    - intros [?|[n Hn]]; [by apply Hg; left|]. simpl in Hn. subst p. by eapply Hat.
    - intros [?|[n Hn]]; [by apply Hg; left|]. simpl in Hn. subst p. by eapply Hat. }
  wp_step. apply wp_try. eapply (body_schedule_spec D Is (node_skel nodes) nodes t1); [done..|].
  intros r t3 s3 c3 Hs3 Hok3 _ Hg3 _ Hr.
  assert (Hrec : wp (body_reconcile (units id) nodes)
    (λ r x', sound D Is (node_skel nodes) x'.1 ∧ shard_ok nodes x'.1.1 ∧ (r = Ok tt → always x'.1.1) ∧ r ≠ Panic) (t3, s3, c3)).
  { apply body_reconcile_spec; [done|by eapply sound_located|]. intros t4 Hsame. split; [|split; [by eapply same_shard_ok|done]].
    eapply sound_same_intent; [apply Hsame|done]. }
  destruct r as [[]|e|]; done.
Qed.

(** ** Removing a node *)

(** The shard has no location on the node. *)
Definition off_node (x : NodeId) (t : TenantShard) : Prop :=
  x ∉ all_pageservers (ts_intent t) ∧ ts_observed t !! x = None ∧ ts_preferred_node t ≠ Some x.

Lemma occ_drop k x l : k ≠ x → occ k (filter (λ n, n ≠ x) l) = occ k l.
Proof.
  intros Hk. induction l as [|j l IH]; [done|]. rewrite filter_cons.
  destruct (decide (j ≠ x)) as [|Hj]; rewrite ?occ_cons, IH; [done|].
  rewrite bool_decide_false; [simpl; lia|]. intros ->. tauto.
Qed.

Lemma drop_length_eq (x : NodeId) l : length (filter (λ n, n ≠ x) l) = length l → filter (λ n, n ≠ x) l = l.
Proof.
  induction l as [|j l IH]; [done|]. rewrite filter_cons. destruct (decide (j ≠ x)); simpl; intros Hl.
  - f_equal. apply IH. by injection Hl.
  - pose proof (length_filter (λ n, n ≠ x) l). lia.
Qed.

Lemma deref_node_spec x t :
  let '(modified, t') := deref_node x t in
  x ∉ all_pageservers (ts_intent t') ∧ (modified = false → ts_intent t' = ts_intent t) ∧
  ts_preferred_node t' ≠ Some x ∧ ts_observed t' = ts_observed t ∧
  (∀ k, k ∈ all_pageservers (ts_intent t') ↔ k ∈ all_pageservers (ts_intent t) ∧ k ≠ x) ∧
  (intent_wf (ts_intent t) → intent_wf (ts_intent t')) ∧
  (∀ w k az, k ≠ x → contrib w k az (ts_intent t') = contrib w k az (ts_intent t)).
Proof.
  unfold deref_node. set (I := ts_intent t). set (sec := filter (λ n, n ≠ x) (is_secondary I)).
  set (I' := mkIntentState _ sec _). simpl.
  assert (Hall : ∀ k, k ∈ all_pageservers I' ↔ k ∈ all_pageservers I ∧ k ≠ x).
  { intros k. rewrite !all_elem. unfold I', sec. simpl. rewrite list_elem_of_filter.
    case_bool_decide as Ha; [rewrite Ha|]; naive_solver. }
  assert (Hocc : ∀ k, k ≠ x → occ k sec = occ k (is_secondary I)) by (intros; by apply occ_drop).
  split; [rewrite Hall; tauto|]. split.
  { rewrite orb_false_iff, negb_false_iff, Nat.eqb_eq, bool_decide_eq_false. intros [Ha Hl].
    unfold I'. rewrite bool_decide_false by done.
    assert (sec = is_secondary I) as -> by (by apply drop_length_eq). by destruct I. }
  split; [by case_bool_decide|]. split; [done|]. split; [done|]. split.
  - rewrite !intent_wf_iff. intros [Hnd Hatt]. unfold I', sec. simpl. split; [by apply NoDup_filter|].
    intros k. case_bool_decide; [done|]. intros Hk. rewrite list_elem_of_filter. intros [_ Hin]. by eapply Hatt.
  - intros w k az Hk. unfold contrib, all_pageservers, I'. simpl. rewrite !occ_app, (Hocc k Hk).
    case_bool_decide as Ha; [|done]. rewrite Ha. simpl. rewrite occ_cons, occ_nil.
    destruct w; simpl; rewrite ?bool_decide_Some, ?(bool_decide_false (x = k)) by done; simpl; try lia; done.
Qed.

Lemma accounted_weaken D D' Is s : (∀ k, D' k → D k) → accounted D Is s → accounted D' Is s.
Proof. intros HD H w k n Hk. apply H. auto. Qed.

Lemma sound_deref D Is sk t s x :
  (∀ k, D k → k ≠ x) → sound D Is sk (t, s) → sound D Is sk ((deref_node x t).2, s).
Proof.
  intros HD [Hsk Hacc Hwf Hkn Hsc]. pose proof (deref_node_spec x t) as Hd.
  destruct (deref_node x t) as [b t']. destruct Hd as (_ & _ & _ & _ & Hall & Hwf' & Hc). simpl in *.
  split; simpl; auto.
  - intros w k n Hk Hn. specialize (Hacc w k n Hk Hn). rewrite Zsum_cons in *. by rewrite Hc by auto.
  - intros k [Hk _]%Hall. by apply Hkn.
Qed.

Lemma drop_observed_ok nodes x t : shard_ok nodes t → shard_ok nodes (drop_observed x t).
Proof.
  intros [? ? Ho ?]. split; unfold attaches in *; simpl; try done. intros k [o Hk].
  apply lookup_delete_Some in Hk as [_ Hk]. apply Ho. by eexists.
Qed.

Lemma deref_node_ok nodes x t : shard_ok nodes t → shard_ok nodes (deref_node x t).2.
Proof.
  intros Hok. eapply same_fields_ok, Hok; [done..|simpl; intros k; by case_bool_decide|]. unfold attaches, deref_node. simpl.
  case_bool_decide; [|done]. intros [[? ?]|?]; [done|by right].
Qed.

(** A shard is moved away from a node that the scheduler does not choose. *)
Lemma delete_body_ok units nodes x :
  ¬ usable (node_skel nodes) x → body_ok (λ k, k ≠ x) (node_skel nodes) nodes always (off_node x) (delete_body units nodes x).
Proof.
  intros Hx id t s c Is Hs Hok _. unfold delete_body, body_modify. wp_step. wp_step.
  pose proof (sound_deref _ _ _ _ _ x (λ _ H, H) Hs) as Hs1. pose proof (deref_node_ok nodes x t Hok) as Hok1.
  pose proof (deref_node_spec x t) as Hd. cbn [fst snd]. destruct (deref_node x t) as [modified t1]. cbn [fst snd] in *.
  destruct Hd as (Hno & _ & Hpref & _). wp_step. wp_step. simpl.
  assert (Hend : ∀ t2 s2 c2, sound (λ k, k ≠ x) Is (node_skel nodes) (t2, s2) → shard_ok nodes t2 →
    x ∉ all_pageservers (ts_intent t2) → ts_preferred_node t2 ≠ Some x →
    wp (st_modify (E := ApiError) (λ x0 : TenantShard * Scheduler * ScheduleContext, (drop_observed x x0.1.1, x0.1.2, x0.2)))
      (λ r x', sound (λ k, k ≠ x) Is (node_skel nodes) x'.1 ∧ shard_ok nodes x'.1.1 ∧ (r = Ok tt → off_node x x'.1.1) ∧ r ≠ Panic)
      (t2, s2, c2)).
  { intros t2 s2 c2 Hs2 Hok2 Hno2 Hpref2. wp_step. simpl. split; [by apply (sound_same_intent _ _ _ t2)|].
    split; [by apply drop_observed_ok|]. split; [|done]. intros _. split; [done|]. split; [apply lookup_delete_eq|done]. }
  wp_step. destruct modified; [|wp_step; by apply Hend].
  wp_step. eapply body_schedule_spec; [done..|]. intros r t2 s2 c2 Hs2 Hok2 Hnews _ Hpref2 Hr.
  destruct r as [[]|e|]; [|by split|done].
  apply body_reconcile_spec; [done|by eapply sound_located|]. intros t3 Hsame. apply Hend.
  - eapply sound_same_intent; [apply Hsame|done].
  - by eapply same_shard_ok.
  - destruct Hsame as [-> _]. intros [?|?]%Hnews; done.
  - destruct Hsame as (_ & _ & _ & _ & -> & _). by rewrite Hpref2.
Qed.

(** No shard is on the node any more: it can be removed. *)
Lemma shards_inv_remove x sk nodes l s :
  shards_inv (λ k, k ≠ x) [] sk nodes l s → Forall (λ kv, off_node x kv.2) l →
  shards_inv all_nodes [] (delete x sk) (delete x nodes) l (node_remove x s).
Proof.
  intros [Hsk Hacc Hwf Hkn Hok Hsc] Hoff. unfold node_remove. split; simpl; try done.
  - unfold skel in *. by rewrite fmap_delete, Hsk.
  - intros w k n _ [Hk Hn]%lookup_delete_Some. by apply Hacc.
  - apply Forall_forall. intros I HI k Hk. apply list_elem_of_fmap in HI as ([id t] & -> & HI).
    pose proof (proj1 (Forall_forall _ _) Hoff _ HI) as [Hx _]. simpl in *.
    rewrite lookup_delete_ne by congruence.
    apply (proj1 (Forall_forall _ _) Hkn (ts_intent t)); [|done]. apply list_elem_of_fmap. by exists (id, t).
  - apply Forall_forall. intros [id t] HI. pose proof (proj1 (Forall_forall _ _) Hoff _ HI) as (_ & Hx & Hp).
    destruct (proj1 (Forall_forall _ _) Hok _ HI) as [? ? Ho Hpref]. split; try done; intros k Hk; simpl in *.
    + rewrite lookup_delete_ne; [by apply Ho|]. intros ->. rewrite Hx in Hk. by destruct Hk.
    + rewrite lookup_delete_ne; [by apply Hpref|]. intros ->. done.
  - intros k n u [_ Hn]%lookup_delete_Some. by eapply Hsc.
Qed.

Lemma node_skel_delete x nodes : node_skel (delete x nodes) = delete x (node_skel nodes).
Proof. apply fmap_delete. Qed.

Lemma shards_inv_weaken D D' Is sk nodes l s :
  (∀ k, D' k → D k) → shards_inv D Is sk nodes l s → shards_inv D' Is sk nodes l s.
Proof. intros HD [? ? ? ? ? ?]. split; try done. by eapply accounted_weaken. Qed.

(** A change of the shards that leaves the scheduler alone *)
Lemma shards_inv_map D Is sk nodes (f : TenantShard → TenantShard) l s :
  (∀ Is t, sound D Is sk (t, s) → sound D Is sk (f t, s)) → (∀ t, shard_ok nodes t → shard_ok nodes (f t)) →
  shards_inv D Is sk nodes l s → shards_inv D Is sk nodes ((λ kv, (kv.1, f kv.2)) <$> l) s.
Proof.
  intros Hf Hfok. revert Is. induction l as [|[id t] l IH]; intros Is; [done|].
  rewrite fmap_cons, !shards_inv_cons. intros (Hs & Hok & Hwf & Hkn & Hoks). simpl.
  assert (Hl : shards_inv D (ts_intent (f t) :: Is) sk nodes ((λ kv, (kv.1, f kv.2)) <$> l) s).
  { apply IH. destruct (Hf _ _ Hs) as [? Hacc ? ? ?]. split; try done. eapply accounted_perm; [|exact Hacc].
    by rewrite Permutation_middle. }
  destruct Hl as [? Hacc ? ? ? ?]. destruct (Hf _ _ Hs). split; [|auto]. split; try done. simpl.
  eapply accounted_perm; [|exact Hacc]. by rewrite Permutation_middle.
Qed.

Lemma keys_delete (P : NodeId → Node → Prop) x (nodes : gmap NodeId Node) :
  (∀ k n, nodes !! k = Some n → P k n) → ∀ k n, delete x nodes !! k = Some n → P k n.
Proof. intros H k n [_ Hn]%lookup_delete_Some. auto. Qed.

Lemma node_drop_inv x st : service_inv st → service_inv (node_drop x st).2.
Proof.
  intros [Hkeys Hutil Hinv]. split; simpl.
  - by apply keys_delete.
  - intros k n u. by apply (keys_delete (λ _ n, n_availability n = NodeActive u → pu_scorable u)); eauto.
  - rewrite node_skel_delete. apply shards_inv_remove.
    + apply (shards_inv_map _ _ _ _ (λ t, drop_observed x (deref_node x t).2)).
      * intros Is t Ht. eapply sound_same_intent; [|by eapply sound_deref]. done.
      * intros t Ht. by apply drop_observed_ok, deref_node_ok.
      * by apply (shards_inv_weaken all_nodes).
    + apply Forall_fmap, Forall_forall. intros [id t] _. simpl. pose proof (deref_node_spec x t) as Hd.
      destruct Hd as (Hd & _ & Hp & _). split; [exact Hd|]. split; [apply lookup_delete_eq|exact Hp].
Qed.

Lemma nodes_pause_skel (nodes : gmap NodeId Node) x node :
  nodes !! x = Some node → ¬ usable (node_skel nodes) x →
  node_skel (<[x := node <| n_scheduling := NodeSchedPause |>]> nodes) = node_skel nodes.
Proof.
  intros Hn Hx. unfold node_skel. rewrite fmap_insert. apply insert_id. rewrite lookup_fmap, Hn. simpl.
  f_equal. f_equal. destruct (is_may_yes (may_schedule node)) eqn:Hm.
  - destruct Hx. exists (n_availability_zone_id node). unfold node_skel. rewrite lookup_fmap, Hn. simpl. by rewrite Hm.
  - unfold may_schedule. simpl. by case_match.
Qed.

Lemma shards_inv_nodes D Is sk nodes nodes' l s :
  (∀ k, is_Some (nodes !! k) → is_Some (nodes' !! k)) → shards_inv D Is sk nodes l s → shards_inv D Is sk nodes' l s.
Proof.
  intros Hn [? ? ? ? Hok ?]. split; try done. eapply Forall_impl; [exact Hok|]. intros kv [? ? Ho Hp]. split; auto.
Qed.

(** The iterator visits all shards. *)
Definition complete (tenants : Tenants) : Prop :=
  ∃ groups, context_groups (E := ApiError) ModeNormal (ScheduleContext_new ModeNormal) [] tenants = Ok (groups, []).

Lemma node_delete_inv units x st :
  service_inv st → ¬ usable (node_skel (ss_nodes st)) x → complete (ss_tenants st) →
  (node_delete units x st).1 = Ok tt → service_inv (node_delete units x st).2.
Proof.
  intros Hst Hx Hcomp. unfold node_delete, mbind, ST_bind, st_get. simpl.
  destruct (ss_nodes st !! x) as [node|] eqn:Hnode; [|done]. simpl.
  set (nodes := <[x := _]> (ss_nodes st)). set (st1 := st <| ss_nodes := nodes |>).
  destruct Hst as [Hkeys Hutil Hinv].
  assert (Hsk : node_skel nodes = node_skel (ss_nodes st)) by (by apply nodes_pause_skel).
  assert (Hinv1 : shards_inv (λ k, k ≠ x) [] (node_skel nodes) nodes (ss_tenants st1) (ss_scheduler st1)).
  { apply (shards_inv_weaken all_nodes); [done|]. rewrite Hsk. eapply shards_inv_nodes; [|exact Hinv].
    intros k Hk. unfold nodes. destruct (decide (k = x)) as [->|]; [by rewrite lookup_insert_eq|].
    by rewrite lookup_insert_ne. }
  pose proof (for_tenants_inv (λ k, k ≠ x) (node_skel nodes) nodes always (off_node x) ModeNormal
    (delete_body units nodes x) st1) as Hf.
  destruct (for_tenants _ _ st1) as [r st2]. destruct Hf as (Hinv2 & Hn2 & _ & Hoff & _).
  { apply delete_body_ok. by rewrite Hsk. }
  { done. }
  { by apply Forall_forall. }
  destruct r as [[]|e|]; [|done..]. intros _. simpl in *. unfold st_modify. simpl. rewrite Hn2.
  assert (Hdel : delete x nodes = delete x (ss_nodes st)) by apply delete_insert_eq.
  split; simpl; rewrite Hdel.
  - by apply keys_delete.
  - intros k n u. by apply (keys_delete (λ _ n, n_availability n = NodeActive u → pu_scorable u)); eauto.
  - rewrite node_skel_delete, <- Hdel, <- Hsk. apply shards_inv_remove; auto.
Qed.

(** ** Registration and configuration *)

Lemma Zsum_zero {A} (f : A → Z) l : (∀ x, x ∈ l → f x = 0) → Zsum f l = 0.
Proof. intros Hf. rewrite (Zsum_ext f (λ _, 0) l Hf). clear Hf. induction l; [done|]. by rewrite Zsum_cons. Qed.

Lemma contrib_absent w k az I : k ∉ all_pageservers I → contrib w k az I = 0.
Proof.
  intros Hk. assert (Hocc : occ k (all_pageservers I) = 0).
  { induction (all_pageservers I) as [|j l IH]; [done|]. apply not_elem_of_cons in Hk as [Hj Hl].
    rewrite occ_cons, IH, bool_decide_false by congruence. done. }
  unfold contrib. destruct w; rewrite ?Hocc; [done| |lia].
  rewrite bool_decide_false; [done|]. intros Ha. apply Hk. rewrite all_elem. by left.
Qed.

Lemma adjust_scorable c m u' : adjust_may_schedule c m = MayYes u' →
  ∃ u, m = MayYes u ∧ (pu_scorable u → pu_scorable u').
Proof.
  destruct m as [u|]; [|done]. intros [= <-]. exists u. split; [done|]. unfold adjust_shard_count_max, pu_scorable.
  by case_match.
Qed.

Lemma may_schedule_scorable n u :
  (∀ u, n_availability n = NodeActive u → pu_scorable u) → may_schedule n = MayYes u → pu_scorable u.
Proof. intros Hn. unfold may_schedule. repeat case_match; try done; intros [= <-]; auto. Qed.

(** The scheduler follows a change of the node that does not move it to another zone. *)
Lemma shards_inv_upsert sk nodes l s node :
  shards_inv all_nodes [] sk nodes l s →
  (∀ az m, sk !! n_id node = Some (az, m) → az = n_availability_zone_id node) →
  (∀ u, n_availability node = NodeActive u → pu_scorable u) →
  shards_inv all_nodes [] (<[n_id node := (n_availability_zone_id node, is_may_yes (may_schedule node))]> sk)
    nodes l (node_upsert node s).
Proof.
  intros [Hsk Hacc Hwf Hkn Hok Hsc] Haz Hu. unfold node_upsert. set (x := n_id node) in *.
  assert (Hknown : ∀ m : SchedulerNode, Forall (known (<[x := m]> s)) (intents l)).
  { intros m. eapply Forall_impl; [exact Hkn|]. intros I HI k Hk%HI. destruct (decide (k = x)) as [->|].
    - by rewrite lookup_insert_eq.
    - by rewrite lookup_insert_ne. }
  destruct (s !! x) as [entry|] eqn:Hx.
  - assert (Haz' : sn_az entry = n_availability_zone_id node).
    { eapply Haz. rewrite <- Hsk. unfold skel. by rewrite lookup_fmap, Hx. }
    split; try done.
    + unfold skel in *. rewrite fmap_insert, Hsk. simpl. rewrite Haz'. by destruct (may_schedule node).
    + intros w k n HD. destruct (decide (k = x)) as [->|]; [|rewrite lookup_insert_ne by done; by apply Hacc].
      rewrite lookup_insert_eq. intros [= <-]. pose proof (Hacc w x entry HD Hx) as H. by destruct w.
    + intros k n u. destruct (decide (k = x)) as [->|]; [|rewrite lookup_insert_ne by done; by apply Hsc].
      rewrite lookup_insert_eq. intros [= <-]. simpl. intros (u0 & Hm & Himp)%adjust_scorable.
      eapply Himp, may_schedule_scorable, Hm. done.
  - split; try done.
    + unfold skel in *. rewrite fmap_insert, Hsk. done.
    + intros w k n HD. destruct (decide (k = x)) as [->|]; [|rewrite lookup_insert_ne by done; by apply Hacc].
      rewrite lookup_insert_eq. intros [= <-]. simpl. rewrite app_nil_r.
      rewrite Zsum_zero.
      * by destruct w.
      * intros I HI. apply contrib_absent. intros Hk.
        destruct (proj1 (Forall_forall _ _) Hkn I HI x Hk) as [? ?]. congruence.
    + intros k n u. destruct (decide (k = x)) as [->|]; [|rewrite lookup_insert_ne by done; by apply Hsc].
      rewrite lookup_insert_eq. intros [= <-]. simpl. by apply may_schedule_scorable.
Qed.

Lemma service_upsert st node :
  service_inv st →
  (∀ n, ss_nodes st !! n_id node = Some n → n_availability_zone_id n = n_availability_zone_id node) →
  (∀ u, n_availability node = NodeActive u → pu_scorable u) →
  service_inv (st <| ss_scheduler := node_upsert node (ss_scheduler st) |>
    <| ss_nodes := <[n_id node := node]> (ss_nodes st) |>).
Proof.
  intros [Hkeys Hutil Hinv] Haz Hu. split; simpl.
  - intros k n. destruct (decide (k = n_id node)) as [->|].
    + rewrite lookup_insert_eq. by intros [= <-].
    + rewrite lookup_insert_ne by done. auto.
  - intros k n u. destruct (decide (k = n_id node)) as [->|].
    + rewrite lookup_insert_eq. intros [= <-]. auto.
    + rewrite lookup_insert_ne by done. eauto.
  - unfold node_skel. rewrite fmap_insert. eapply shards_inv_nodes; [|apply shards_inv_upsert; try done].
    + intros k Hk. destruct (decide (k = n_id node)) as [->|]; [by rewrite lookup_insert_eq|by rewrite lookup_insert_ne].
    + intros az m. rewrite lookup_fmap. intros (n & Hn & [= -> _])%fmap_Some. auto.
Qed.

Lemma node_register_inv st x az :
  service_inv st → (∀ n, ss_nodes st !! x = Some n → n_availability_zone_id n = az) →
  service_inv (node_register x az st).2.
Proof. intros Hst Haz. apply (service_upsert st (mkNode x NodeOffline NodeSchedActive az false)); done. Qed.

Lemma set_availability_fields a n :
  n_id (set_availability a n) = n_id n ∧ n_availability_zone_id (set_availability a n) = n_availability_zone_id n ∧
  ∀ u, n_availability (set_availability a n) = NodeActive u → a = NodeActive u.
Proof.
  unfold set_availability. destruct (get_availability_transition n a), n as [? av ? ? ?]; simpl; destruct av, a; done.
Qed.

Lemma node_state_configure_inv st x availability scheduling :
  service_inv st → (∀ u, availability = Some (NodeActive u) → pu_scorable u) →
  service_inv (node_state_configure x availability scheduling st).2.
Proof.
  intros Hst Hu. unfold node_state_configure, mbind, ST_bind, st_get. simpl.
  destruct (ss_nodes st !! x) as [n|] eqn:Hn; [|done].
  set (n1 := match availability with Some a => set_availability a n | None => n end).
  set (n2 := match scheduling with Some p => n1 <| n_scheduling := p |> | None => n1 end).
  assert (Hn1 : n_id n1 = n_id n ∧ n_availability_zone_id n1 = n_availability_zone_id n ∧
    ∀ u, n_availability n1 = NodeActive u → pu_scorable u).
  { unfold n1. destruct availability as [a|].
    - destruct (set_availability_fields a n) as (? & ? & Ha). split; [done|]. split; [done|]. intros u Hav%Ha. subst a. auto.
    - split; [done|]. split; [done|]. intros u. by eapply sinv_scorable. }
  assert (Hn2 : n_id n2 = x ∧ n_availability_zone_id n2 = n_availability_zone_id n ∧
    n_availability n2 = n_availability n1).
  { pose proof (sinv_keys st Hst x n Hn). unfold n2. destruct scheduling; naive_solver. }
  destruct Hn2 as (<- & Haz & Hav). apply service_upsert; [done| |].
  - intros m. rewrite Hn. intros [= <-]. done.
  - rewrite Hav. apply Hn1.
Qed.

(** ** Failure of a node *)

Lemma handle_node_offline_inv units x st :
  service_inv st → service_inv (handle_node_offline units x st).2.
Proof.
  intros [Hkeys Hutil Hinv]. unfold handle_node_offline, mbind, ST_bind, st_get. simpl.
  pose proof (for_tenants_inv all_nodes (node_skel (ss_nodes st)) (ss_nodes st) always always ModeNormal
    (offline_body units (ss_nodes st) x) st) as Hf.
  destruct (for_tenants _ _ st) as [r st']. destruct Hf as (Hinv' & Hn & _ & _ & _).
  - apply offline_body_ok.
  - done.
  - by apply Forall_forall.
  - split; simpl; by rewrite Hn.
Qed.

(** ** Loops over all shards *)

Lemma for_all_shards_inv P R body st :
  service_inv st → body_ok all_nodes (node_skel (ss_nodes st)) (ss_nodes st) P R body →
  Forall (λ kv, P kv.2) (ss_tenants st) →
  service_inv (for_all_shards body st).2 ∧ (for_all_shards body st).1 ≠ Panic ∧
  ss_nodes (for_all_shards body st).2 = ss_nodes st ∧
  ((for_all_shards body st).1 = Ok tt → Forall (λ kv, R kv.2) (ss_tenants (for_all_shards body st).2)).
Proof.
  intros [Hkeys Hutil Hinv] Hbody HP. unfold for_all_shards.
  pose proof (for_shards_inv _ _ _ _ _ body (ss_tenants st) _ _ (ScheduleContext_new ModeNormal) Hbody Hinv) as Hf.
  destruct (for_shards _ _ _ _) as [[[r l'] s'] c']. destruct Hf as (Hl' & Hr & _ & HR); [done|].
  by split.
Qed.

(** What reconcilers do not change *)
Definition stable (P : TenantShard → Prop) : Prop := ∀ t t', same_shard t t' → P t → P t'.

Lemma body_reconcile_ok P units D nodes t s c Is :
  stable P → sound D Is (node_skel nodes) (t, s) → shard_ok nodes t → P t →
  wp (body_reconcile units nodes)
    (λ r x', sound D Is (node_skel nodes) x'.1 ∧ shard_ok nodes x'.1.1 ∧ (r = Ok tt → P x'.1.1) ∧ r ≠ Panic) (t, s, c).
Proof.
  intros HP Hs Hok Ht. apply body_reconcile_spec; [done|by eapply sound_located|]. intros t' Hsame.
  split; [|split; [by eapply same_shard_ok|split; [|done]]].
  - eapply sound_same_intent; [apply Hsame|done].
  - intros _. by eapply HP.
Qed.

Lemma active_body_ok units D nodes x : body_ok D (node_skel nodes) nodes always always (active_body units nodes x).
Proof.
  intros id t s c Is Hs Hok _. unfold active_body. do 2 wp_step. simpl. case_bool_decide; [by wp_step|].
  case_bool_decide; [by apply body_reconcile_ok|by wp_step].
Qed.

(** The nodes of attached locations exist. *)
Lemma reconcile_all_body_ok P units delayed D nodes :
  stable P → body_ok D (node_skel nodes) nodes P P (reconcile_all_body units delayed nodes).
Proof.
  intros HP id t s c Is Hs Hok Ht. unfold reconcile_all_body. do 2 wp_step. cbn [fst snd].
  assert (Hend : wp (if delayed id then mret tt else body_reconcile (units id) nodes)
    (λ r x', sound D Is (node_skel nodes) x'.1 ∧ shard_ok nodes x'.1.1 ∧ (r = Ok tt → P x'.1.1) ∧ r ≠ Panic) (t, s, c)).
  { destruct (delayed id); [by wp_step|]. by apply body_reconcile_ok. }
  wp_step. destruct (is_attached (ts_intent t)) as [k|] eqn:Ha; [|by wp_step]. destruct (preferred_az t); [|by wp_step].
  destruct (proj2 (nodes_known _ _ nodes t s k Hs)) as [n ->].
  { apply (snd_known _ _ _ _ Hs). simpl. rewrite all_elem. by left. }
  repeat first [exact Hend|wp_step].
Qed.

Lemma handle_node_availability_transition_inv units x transition st :
  service_inv st → service_inv (handle_node_availability_transition units x transition st).2.
Proof.
  intros Hst. destruct transition; try done; [|by apply handle_node_offline_inv].
  unfold handle_node_availability_transition, mbind, ST_bind, st_get. simpl.
  by apply (for_all_shards_inv always always); [|apply active_body_ok|apply Forall_forall].
Qed.

Lemma node_configure_inv units x availability scheduling st :
  service_inv st → (∀ u, availability = Some (NodeActive u) → pu_scorable u) →
  service_inv (node_configure units x availability scheduling st).2.
Proof.
  intros Hst Hu. unfold node_configure, mbind, ST_bind.
  pose proof (node_state_configure_inv st x availability scheduling Hst Hu) as Hst1.
  destruct (node_state_configure _ _ _ _) as [[a|e|] st1]; [|done..]. by apply handle_node_availability_transition_inv.
Qed.

(** ** Operations on the shards of a tenant *)

Lemma shards_inv_perm D Is sk nodes l l' s :
  l ≡ₚ l' → shards_inv D Is sk nodes l s → shards_inv D Is sk nodes l' s.
Proof.
  intros Hp [? Hacc ? ? ? ?]. assert (Hi : intents l ≡ₚ intents l') by (unfold intents; by rewrite Hp).
  split; try done; [eapply accounted_perm; [|exact Hacc]|..]; by rewrite <- ?Hp, <- ?Hi.
Qed.

Lemma shards_inv_middle D sk nodes l1 l l2 s :
  shards_inv D [] sk nodes (l1 ++ l ++ l2) s ↔ shards_inv D [] sk nodes (l ++ (l1 ++ l2)) s.
Proof. split; apply shards_inv_perm; solve_Permutation. Qed.

(** A part of the shards is replaced. *)
Lemma shards_inv_replace D sk nodes l l' others s s' :
  shards_inv D [] sk nodes (l ++ others) s → shards_inv D (intents others ++ []) sk nodes l' s' →
  shards_inv D [] sk nodes (l' ++ others) s'.
Proof.
  intros H H'. apply shards_inv_app in H as (Hl & ? & Hkn & ?). apply shards_inv_app. split; [done|].
  split; [done|]. split; [|done]. eapply skel_known_intents; [|exact Hkn].
  rewrite (shi_skel _ _ _ _ _ _ Hl), (shi_skel _ _ _ _ _ _ H'). done.
Qed.

Lemma split_tenant_app tid l :
  let '(before, mine, after) := split_tenant tid l in
  before ++ mine ++ after = l ∧ Forall (λ kv, tenant_id kv.1 = tid) mine.
Proof.
  unfold split_tenant. split; [by rewrite !take_skip_while|]. eapply Forall_impl; [apply take_while_Forall|].
  intros kv. simpl. by rewrite bool_decide_eq_true.
Qed.

Lemma tenant_update_policy_inv units tid placement scheduling st :
  service_inv st → small_placement placement →
  (∀ id t, (id, t) ∈ ss_tenants st → tenant_id id = tid → attachable placement t) →
  service_inv (tenant_update_policy units tid placement scheduling st).2 ∧
  (tenant_update_policy units tid placement scheduling st).1 ≠ Panic.
Proof.
  intros [Hkeys Hutil Hinv] Hpl Hat. unfold tenant_update_policy. set (scheduling' := match placement with Some _ => _ | None => _ end).
  pose proof (split_tenant_app tid (ss_tenants st)) as Hsp. destruct (split_tenant _ _) as [[before mine] after].
  destruct Hsp as [Hsp Hmine]. rewrite <- Hsp in Hinv, Hat. apply shards_inv_middle in Hinv.
  pose proof (proj1 (shards_inv_app _ _ _ _ _ _ _) Hinv) as (Hm & _).
  pose proof (for_shards_inv all_nodes _ _ (attachable placement) always
    (policy_body units (ss_nodes st) placement scheduling') mine _ _ (ScheduleContext_new ModeNormal)
    (policy_body_ok _ _ _ _ _ Hpl) Hm) as Hf.
  destruct (for_shards _ _ _ _) as [[[r mine'] s'] c']. destruct Hf as (Hm' & Hr & _).
  { apply Forall_forall. intros [id t] Hin. simpl. apply (Hat id t); [set_solver|].
    by apply (proj1 (Forall_forall _ _) Hmine (id, t)). }
  simpl. split; [|done]. split; simpl; [done..|]. apply shards_inv_middle. by eapply shards_inv_replace.
Qed.

Lemma for_shards_ok body l : ∀ s c,
  (∀ id x, (body id x).1 = Ok tt) → let '(r, _, _, _) := for_shards body l s c in r = Ok tt.
Proof.
  induction l as [|[id t] l IH]; intros s c Hb; simpl; [done|]. specialize (Hb id (t, s, c)) as Hr.
  destruct (body id (t, s, c)) as [r [[t' s'] c']]. simpl in Hr. subst r. specialize (IH s' c' Hb).
  by destruct (for_shards body l s' c') as [[[? ?] ?] ?].
Qed.

Definition unplaced (t : TenantShard) : Prop := all_pageservers (ts_intent t) = [].

Lemma clear_body_ok D sk nodes : body_ok D sk nodes always unplaced (λ _, body_shard (on_intent clear)).
Proof.
  intros id t s c Is Hs Hok _. unfold body_shard. wp_step. wp_step. simpl.
  eapply on_intent_sound; [done|apply clear_spec, Hs|apply NoDup_nil_2|by intros x ?%elem_of_nil|].
  intros s' Hs'. simpl. split; [done|]. split; [|done]. eapply same_fields_ok, Hok; [done..|].
  unfold attaches. simpl. intros [[? ?]|?]; [done|by right].
Qed.

Lemma clear_body_total id (x : TenantShard * Scheduler * ScheduleContext) :
  (((λ _, body_shard (on_intent clear)) : ShardBody) id x).1 = Ok tt.
Proof.
  destruct x as [[t s] c]. assert (Hacc : accounted (λ _, False) [ts_intent t] s) by (intros w k n []).
  pose proof (clear_spec (E := ScheduleError) _ [] _ s Hacc) as H.
  assert (wp (body_shard (on_intent clear)) (λ r _, r = Ok tt) (t, s, c)) as Hw; [|exact Hw].
  unfold body_shard, on_intent. wp_step. wp_step. apply wp_zoom. simpl. eapply wp_mono; [exact H|].
  by intros r [? ?] [-> _].
Qed.

(** Shards without a location can be left out. *)
Lemma shards_inv_unplaced D sk nodes l others s :
  shards_inv D [] sk nodes (l ++ others) s → Forall (λ kv, unplaced kv.2) l →
  shards_inv D [] sk nodes others s.
Proof.
  intros H Hu. apply (shards_inv_perm _ _ _ _ _ (others ++ l)) in H; [|by rewrite Permutation_app_comm].
  apply shards_inv_app in H as ([? Hacc ? ? ? ?] & _). split; try done. intros w k n HD Hn.
  rewrite (Hacc w k n HD Hn). rewrite !app_nil_r, Zsum_app, (Zsum_zero _ (intents l)); [f_equal; lia|].
  intros I HI. apply list_elem_of_fmap in HI as (kv & -> & Hkv). apply contrib_absent.
  pose proof (proj1 (Forall_forall _ _) Hu kv Hkv) as Hno. unfold unplaced in Hno. rewrite Hno. apply not_elem_of_nil.
Qed.

Lemma tenant_drop_inv tid st : service_inv st → service_inv (tenant_drop tid st).2.
Proof.
  intros [Hkeys Hutil Hinv]. unfold tenant_drop.
  pose proof (split_tenant_app tid (ss_tenants st)) as Hsp. destruct (split_tenant _ _) as [[before mine] after].
  destruct Hsp as [Hsp _]. rewrite <- Hsp in Hinv. apply shards_inv_middle in Hinv.
  pose proof (proj1 (shards_inv_app _ _ _ _ _ _ _) Hinv) as (Hm & _).
  pose proof (for_shards_inv all_nodes _ _ always unplaced _ mine _ _ (ScheduleContext_new ModeNormal)
    (clear_body_ok _ _ _) Hm) as Hf.
  pose proof (for_shards_ok _ mine (ss_scheduler st) (ScheduleContext_new ModeNormal) clear_body_total) as Hr.
  destruct (for_shards _ _ _ _) as [[[r mine'] s'] c']. destruct Hf as (Hm' & _ & _ & Hun).
  { by apply Forall_forall. }
  simpl. split; simpl; [done..|]. eapply shards_inv_unplaced; [by eapply shards_inv_replace|]. auto.
Qed.

(** ** Operations on one shard *)

Lemma find_tenant_split id t l :
  find_tenant id l = Some t → ∃ l1 l2, l = l1 ++ (id, t) :: l2 ∧ ∀ t', update_tenant id t' l = l1 ++ (id, t') :: l2.
Proof.
  induction l as [|[id' t0] l IH]; simpl; [done|]. case_bool_decide as Hid.
  - intros [= ->]. subst id'. by exists [], l.
  - intros (l1 & l2 & -> & Hu)%IH. exists ((id', t0) :: l1), l2. split; [done|]. intros t'. by rewrite Hu.
Qed.

(** An operation that keeps what is known of one shard keeps the invariant. *)
Lemma update_tenant_inv st id t t' s' :
  service_inv st → find_tenant id (ss_tenants st) = Some t →
  (∀ Is, sound all_nodes Is (node_skel (ss_nodes st)) (t, ss_scheduler st) → shard_ok (ss_nodes st) t →
    sound all_nodes Is (node_skel (ss_nodes st)) (t', s') ∧ shard_ok (ss_nodes st) t') →
  service_inv (st <| ss_tenants := update_tenant id t' (ss_tenants st) |> <| ss_scheduler := s' |>).
Proof.
  intros [Hkeys Hutil Hinv] Hf Hstep. destruct (find_tenant_split _ _ _ Hf) as (l1 & l2 & Hl & Hu).
  split; simpl; [done..|]. rewrite Hu. rewrite Hl in Hinv. apply (shards_inv_middle _ _ _ l1 [(id, t)] l2) in Hinv.
  apply (shards_inv_middle _ _ _ l1 [(id, t')] l2). eapply shards_inv_replace; [exact Hinv|].
  apply shards_inv_app in Hinv as (Hone & _).
  apply shards_inv_cons in Hone as (Hs & Hok & _). apply shards_inv_cons.
  destruct (Hstep _ Hs Hok). done.
Qed.

(** The states that the operation may leave a shard in *)
Definition keeps_shard {A} (nodes : gmap NodeId Node) (m : TS A) (t : TenantShard) (s : Scheduler) : Prop :=
  ∀ Is, sound all_nodes Is (node_skel nodes) (t, s) → shard_ok nodes t →
    wp m (λ r st', sound all_nodes Is (node_skel nodes) st' ∧ shard_ok nodes st'.1 ∧ r ≠ Panic) (t, s).

Lemma with_tenant_inv {A} st id (m : TS A) :
  service_inv st →
  (∀ t, find_tenant id (ss_tenants st) = Some t → keeps_shard (ss_nodes st) m t (ss_scheduler st)) →
  service_inv (with_tenant id m st).2.
Proof.
  intros Hst Hm. unfold with_tenant. destruct (find_tenant id (ss_tenants st)) as [t|] eqn:Hf; [|done].
  specialize (Hm t eq_refl). unfold keeps_shard, wp in Hm. destruct (m (t, ss_scheduler st)) as [r [t' s']]. simpl in *.
  eapply update_tenant_inv; [done..|]. intros Is Hs Hok. destruct (Hm Is Hs Hok) as (? & ? & _). done.
Qed.
