(* ===== verification/StorconReach.v ===== *)
(** * The reachable states of the storage controller

    Every operation keeps the invariant of [StorconInvariant] when it is [admissible]; in the
    states that are reachable from an empty service by admissible operations the check of the
    scheduler succeeds, no shard is located twice on a node, and the plans of the optimizer can
    be applied.  For each premise of [admissible] that the code does not ensure, an example at
    the end shows what goes wrong without it. *)

From S2P Require Import Prelude Bytes Text Membership Ids Key Shard.
From S2P Require Import Scheduler IntentState TenantShard ShardScheduling StorconService StorconInvariant.

(** ** Migrations *)

Lemma pop_secondaries_spec D Is sk n Q fuel : ∀ t s,
  sound D Is sk (t, s) → 0 < n → (length (is_secondary (ts_intent t)) ≤ fuel)%nat →
  (∀ l s', let t' := with_intent t (with_secondary (ts_intent t) l) in sound D Is sk (t', s') →
    Z.of_nat (length l) = Z.min (n - 1) (Z.of_nat (length (is_secondary (ts_intent t)))) →
    l `prefix_of` is_secondary (ts_intent t) → Q (Ok tt) (t', s')) →
  wp (pop_secondaries fuel n) Q (t, s).
Proof.
  assert (Hstop : ∀ t s, sound D Is sk (t, s) → Z.of_nat (length (is_secondary (ts_intent t))) < n →
    (∀ l s', let t' := with_intent t (with_secondary (ts_intent t) l) in sound D Is sk (t', s') →
      Z.of_nat (length l) = Z.min (n - 1) (Z.of_nat (length (is_secondary (ts_intent t)))) →
      l `prefix_of` is_secondary (ts_intent t) → Q (Ok tt) (t', s')) → Q (Ok tt) (t, s)).
  { intros t s Hs Hlt HQ. specialize (HQ (is_secondary (ts_intent t)) s). simpl in HQ.
    replace (with_secondary _ _) with (ts_intent t) in HQ by (by destruct (ts_intent t)).
    rewrite with_intent_same in HQ. apply HQ; [done|lia|done]. }
  induction fuel as [|fuel IH]; intros t s Hs Hn Hlen HQ; simpl pop_secondaries; unfold get_shard;
    do 4 wp_step; simpl; case_match; bool_prop.
  - lia.
  - wp_step. apply Hstop; [done|lia|done].
  - wp_step. pose proof (proj1 (intent_wf_iff _) (snd_wf _ _ _ _ Hs)) as [Hnd Hatt]. simpl in *.
    assert (Hpre : removelast (is_secondary (ts_intent t)) `prefix_of` is_secondary (ts_intent t)).
    { destruct (is_secondary (ts_intent t)) as [|j l _] using rev_ind; [done|]. rewrite removelast_last. by eexists. }
    assert (Hl : length (removelast (is_secondary (ts_intent t))) = pred (length (is_secondary (ts_intent t)))).
    { destruct (is_secondary (ts_intent t)) as [|j l _] using rev_ind; [done|].
      rewrite removelast_last, length_app. simpl. lia. }
    assert (Hsub : ∀ k, k ∈ removelast (is_secondary (ts_intent t)) → k ∈ is_secondary (ts_intent t)).
    { intros k Hk. by eapply elem_of_prefix. }
    eapply on_intent_sound; [done|apply pop_secondary_spec, Hs|..].
    + apply intent_wf_iff. simpl. split; [|intros k Hk ?%Hsub; by eapply Hatt].
      destruct Hpre as [l2 Hl2]. rewrite Hl2 in Hnd. by apply NoDup_app in Hnd as [? _].
    + intros k. rewrite !all_elem. simpl. naive_solver.
    + intros s' Hs'. apply IH; [done|done|simpl; rewrite Hl; lia|]. simpl. intros l s2 Hs2 Hll Hlp.
      apply HQ; [done| |by etrans]. rewrite Hll, Hl. lia.
  - wp_step. apply Hstop; [done|lia|done].
Qed.

(** The intent after an immediate migration of an attached shard *)
Definition migrated (n : Z) (I : IntentState) (k : NodeId) (I' : IntentState) : Prop :=
  is_attached I' = Some k ∧ is_preferred_az_id I' = is_preferred_az_id I ∧
  ∃ l, l `prefix_of` remove_first k (is_secondary I) ∧
    match is_attached I with
    | Some old => if 0 <? n then is_secondary I' = l ++ [old] ∧ Z.of_nat (length l) < n
        else is_secondary I' = remove_first k (is_secondary I)
    | None => is_secondary I' = remove_first k (is_secondary I)
    end.

Lemma set_attached_sound D Is sk t s k Q :
  sound D Is sk (t, s) → k ∉ is_secondary (ts_intent t) → is_Some (s !! k) →
  (∀ s', let t' := with_intent t (ts_intent t <| is_attached := Some k |>) in
    sound D Is sk (t', s') → Q (Ok tt) (t', s')) →
  wp (on_intent (set_attached (Some k))) Q (t, s).
Proof.
  intros Hs Hk Hkn HQ. pose proof (proj1 (intent_wf_iff _) (snd_wf _ _ _ _ Hs)) as [Hnd Hatt]. simpl in *.
  eapply on_intent_sound; [done|by apply set_attached_spec; [apply Hs|]|..].
  - apply intent_wf_iff. simpl. split; [done|]. by intros j [= <-].
  - intros j. rewrite !all_elem. simpl. intros [[= <-]|?]; [by right|by left; right].
  - intros s' Hs'. by apply HQ.
Qed.

Lemma remove_first_absent k l : NoDup l → k ∉ remove_first k l.
Proof.
  induction 1 as [|j l Hj Hnd IH]; simpl; [apply not_elem_of_nil|]. destruct (Z.eqb_spec j k) as [->|]; [done|].
  apply not_elem_of_cons. split; [congruence|done].
Qed.

Lemma sound_known D Is sk t s t' s' k :
  sound D Is sk (t, s) → sound D Is sk (t', s') → is_Some (s !! k) → is_Some (s' !! k).
Proof.
  intros H H'. apply (skel_known s s' k). pose proof (snd_skel _ _ _ _ H). pose proof (snd_skel _ _ _ _ H').
  simpl in *. congruence.
Qed.

Lemma sound_preferred_node D Is sk t s p : sound D Is sk (t, s) → sound D Is sk (set_preferred_node p t, s).
Proof. by intros []. Qed.

Lemma migrate_attached_spec D Is sk t s k n :
  sound D Is sk (t, s) → is_Some (s !! k) → is_attached (ts_intent t) ≠ Some k →
  wp (migrate_attached n k) (λ r st', r = Ok tt ∧ sound D Is sk st' ∧ st'.1 = with_intent t (ts_intent st'.1) ∧
    migrated n (ts_intent t) k (ts_intent st'.1)) (t, s).
Proof.
  intros Hs Hkn Hne. unfold migrate_attached, get_shard. do 4 wp_step. simpl. wp_step.
  eapply on_remove_sound; [done|]. intros s1 t1 Hs1. wp_step.
  pose proof (proj1 (intent_wf_iff _) (snd_wf _ _ _ _ Hs)) as [Hnd Hatt]. simpl in *.
  eapply set_attached_sound; [exact Hs1|exact (remove_first_absent _ _ Hnd)|exact (sound_known _ _ _ _ _ _ _ _ Hs Hs1 Hkn)|]. intros s2 t2 Hs2.
  assert (Hstay : is_attached (ts_intent t) = None ∨ n ≤ 0 →
    (λ r st', r = Ok tt ∧ sound D Is sk st' ∧ st'.1 = with_intent t (ts_intent st'.1) ∧
      migrated n (ts_intent t) k (ts_intent st'.1)) (Ok tt : outcome ScheduleError unit) (t2, s2)).
  { intros Hor. split; [done|]. split; [done|]. split; [done|]. split; [done|]. split; [done|].
    exists (remove_first k (is_secondary (ts_intent t))). split; [done|].
    destruct (is_attached (ts_intent t)); [|done]. destruct (Z.ltb_spec 0 n); [|done]. destruct Hor; [done|lia]. }
  destruct (is_attached (ts_intent t)) as [old|] eqn:Hold; [|wp_step; apply Hstay; by left].
  destruct (Z.ltb_spec 0 n); [|wp_step; apply Hstay; by right].
  do 4 wp_step. simpl. wp_step. eapply pop_secondaries_spec; [done|done|done|]. intros l s3 t3 Hs3 Hlen Hpre. simpl in *.
  assert (Hsub : ∀ j, j ∈ l → j ∈ is_secondary (ts_intent t)).
  { intros j Hj. eapply remove_first_elem. by eapply elem_of_prefix. }
  eapply on_push_sound; [done| |eapply sound_known, (snd_known _ _ _ _ Hs); [done..|]|].
  - rewrite all_elem. simpl. intros [[= ->]|?%Hsub]; [done|]. by eapply Hatt.
  - simpl. rewrite all_elem. by left.
  - intros s4 Hs4. split; [done|]. split; [done|]. split; [done|]. split; [done|]. split; [done|].
    exists l. split; [done|]. rewrite Hold. destruct (Z.ltb_spec 0 n); [|lia]. split; [done|lia].
Qed.

(** What [tenant_shard_migrate_immediate] does: it never panics, the counts stay right. *)
Lemma tenant_shard_migrate_immediate_spec D Is sk t s k :
  sound D Is sk (t, s) → is_Some (s !! k) → is_attached (ts_intent t) ≠ Some k →
  wp (tenant_shard_migrate_immediate k) (λ r st', sound D Is sk st' ∧
    match ts_policy t with
    | PolicyDetached => r = Ok false ∧ st' = (t, s)
    | policy => r = Ok true ∧
      st'.1 = with_intent t (ts_intent st'.1) <| ts_sequence := Sequence_next (ts_sequence t) |> <| ts_preferred_node := None |> ∧
      match policy with
      | PolicyAttached n => migrated n (ts_intent t) k (ts_intent st'.1)
      | _ => is_attached (ts_intent st'.1) = None ∧ is_secondary (ts_intent st'.1) = [k]
      end
    end) (t, s).
Proof.
  intros Hs Hkn Hne. unfold tenant_shard_migrate_immediate, get_shard, modify_shard. do 4 wp_step. simpl.
  destruct (ts_policy t) as [n| |] eqn:Hpol.
  - wp_step. eapply wp_mono; [by apply migrate_attached_spec|]. intros r [t' s'] (-> & Hs' & Ht' & Hm). simpl in *.
    wp_steps. simpl. split; [by apply sound_preferred_node, sound_sequence|]. by rewrite Ht'.
  - wp_step. eapply on_intent_sound; [done|apply clear_spec, Hs|apply NoDup_nil_2|by intros x ?%elem_of_nil|].
    intros s1 Hs1. wp_step. eapply on_push_sound; [exact Hs1| |exact (sound_known _ _ _ _ _ _ _ _ Hs Hs1 Hkn)|].
    { rewrite all_elem. simpl. intros [?|?%elem_of_nil]; done. }
    intros s2 Hs2. wp_steps. simpl. split; [by apply sound_preferred_node, sound_sequence|]. done.
  - by wp_steps.
Qed.

Lemma remove_secondaries_spec D Is sk Q l : ∀ t s,
  sound D Is sk (t, s) →
  (∀ l' s', let t' := with_intent t (with_secondary (ts_intent t) l') in sound D Is sk (t', s') →
    (∀ k, k ∈ l' → k ∈ is_secondary (ts_intent t) ∧ k ∉ l) → Q (Ok tt) (t', s')) →
  wp (remove_secondaries l) Q (t, s).
Proof.
  induction l as [|k l IH]; intros t s Hs HQ; simpl.
  - wp_step. specialize (HQ (is_secondary (ts_intent t)) s). simpl in HQ.
    replace (with_secondary _ _) with (ts_intent t) in HQ by (by destruct (ts_intent t)).
    rewrite with_intent_same in HQ. apply HQ; [done|]. intros k Hk. split; [done|apply not_elem_of_nil].
  - wp_step. eapply on_remove_sound; [done|]. intros s1 t1 Hs1. apply IH; [done|]. simpl. intros l' s' Hs' Hl'.
    apply HQ; [done|]. intros j Hj. destruct (Hl' j Hj) as [Hin Hnot]. split; [by eapply remove_first_elem|].
    apply not_elem_of_cons. split; [|done]. intros ->.
    pose proof (proj1 (intent_wf_iff _) (snd_wf _ _ _ _ Hs)) as [Hnd _]. by apply (remove_first_absent k _ Hnd).
Qed.

Lemma tenant_shard_migrate_secondary_spec D Is sk t s k :
  sound D Is sk (t, s) → is_Some (s !! k) →
  wp (tenant_shard_migrate_secondary k) (λ r st', r = Ok tt ∧ sound D Is sk st' ∧
    if bool_decide (is_secondary (ts_intent t) = [k] ∨ is_attached (ts_intent t) = Some k) then st' = (t, s)
    else st'.1 = with_intent t (with_secondary (ts_intent t) [k]) <| ts_sequence := Sequence_next (ts_sequence t) |>) (t, s).
Proof.
  intros Hs Hkn. unfold tenant_shard_migrate_secondary, get_shard, modify_shard. do 4 wp_step. simpl.
  case_bool_decide as Hsec; [wp_steps; by rewrite bool_decide_true by auto|].
  case_bool_decide as Hatt; [wp_steps; by rewrite bool_decide_true by auto|].
  rewrite bool_decide_false by tauto. wp_step. eapply remove_secondaries_spec; [done|]. intros l s1 t1 Hs1 Hl.
  assert (l = []) as ->. { destruct l as [|j l]; [done|]. destruct (Hl j) as [? ?]; [by left|done]. }
  wp_step. eapply on_push_sound; [exact Hs1| |exact (sound_known _ _ _ _ _ _ _ _ Hs Hs1 Hkn)|].
  { rewrite all_elem. simpl. intros [?|?%elem_of_nil]; done. }
  intros s2 Hs2. wp_steps. simpl. split; [done|]. split; [by apply sound_sequence|]. done.
Qed.

(** ** The operations on a shard keep its invariant *)

Lemma keeps_apply nodes o t s :
  (so_sequence o = ts_sequence t → applicable s (ts_intent t) (so_action o)) →
  keeps_shard nodes (apply_optimization o) t s.
Proof.
  intros Ho Is Hs Hok. eapply wp_mono; [by apply apply_optimization_spec|]. intros r [t' s'] (-> & Hs' & Ht'). simpl in *.
  split; [done|]. split; [|done]. destruct (Z.eqb_spec (so_sequence o) (ts_sequence t)) as [Hq|]; [|by subst].
  specialize (Ho Hq). destruct Ht' as (p & Hp & ->). eapply same_fields_ok, Hok; simpl; try done.
  - by destruct Hp as [-> | ->].
  - unfold attaches. simpl. destruct (so_action o); simpl in *; [done| |done..]. destruct Ho as [-> _]. intros _. left. by eexists.
Qed.

Lemma keeps_reschedule nodes promote_to t s :
  has_generation (ts_generation t) → (∀ k, promote_to = Some k → k ∈ is_secondary (ts_intent t)) →
  keeps_shard nodes (reschedule_to_secondary promote_to) t s.
Proof.
  intros Hg Hp Is Hs Hok. eapply wp_mono; [by apply reschedule_to_secondary_spec|].
  intros r [t' s'] [Hs' Hr]. split; [done|]. split; [|by destruct r]. destruct r as [[]|e|]; [| |done].
  - destruct Hr as (k & _ & _ & Ht'). simpl in *. subst t'. by destruct Hok.
  - destruct Hr as [[= -> ->] _]. done.
Qed.

Lemma keeps_migrate_secondary nodes k t s :
  is_Some (nodes !! k) → keeps_shard nodes (tenant_shard_migrate_secondary k) t s.
Proof.
  intros Hk Is Hs Hok. eapply wp_mono; [apply tenant_shard_migrate_secondary_spec; [done|by eapply nodes_known]|].
  intros r [t' s'] (-> & Hs' & Ht'). split; [done|]. split; [|done]. simpl in *. case_bool_decide; [by injection Ht' as -> ->|].
  subst t'. by eapply same_fields_ok, Hok.
Qed.

Lemma ts_reconcile_spec units nodes t s Q :
  shard_ok nodes t → located nodes t → (∀ t', same_shard t t' → Q (Ok tt) (t', s)) →
  wp (ts_reconcile units nodes) Q (t, s).
Proof.
  intros Hok Hloc HQ. unfold ts_reconcile, get_shard, modify_shard. wp_steps.
  destruct (maybe_reconcile_shard_ok (E := ScheduleError) units true nodes t Hok Hloc) as (o & t' & -> & Hs).
  wp_steps. by apply HQ.
Qed.

Lemma on_scheduler_reads {A} D Is sk (m : SchedM A) P t s Q :
  sound D Is sk (t, s) → reads s m P → (∀ a s', sound D Is sk (t, s') → P a → Q (Ok a) (t, s')) →
  wp (on_scheduler m) Q (t, s).
Proof.
  intros Hs Hm HQ. unfold on_scheduler, reads in *. apply wp_zoom. simpl.
  eapply wp_mono; [exact Hm|]. intros r s' [Heq Hr]. destruct r as [a|e|]; [|done..]. simpl. apply HQ; [by eapply sound_equiv|done].
Qed.

Lemma keeps_find_better nodes c k t s :
  keeps_shard nodes (shard ← get_shard; on_scheduler (find_better_location NodeAttachmentSchedulingScore shard c k [])) t s.
Proof.
  intros Is Hs Hok. unfold get_shard. do 4 wp_step. simpl.
  eapply on_scheduler_reads; [done|apply find_better_location_spec, (snd_scorable _ _ _ _ Hs)|]. intros a s' Hs' _. done.
Qed.

Lemma keeps_migrate nodes units prewarm c k t s :
  is_Some (nodes !! k) → keeps_shard nodes (migrate_shard units nodes prewarm c k) t s.
Proof.
  intros Hk Is Hs Hok. unfold migrate_shard, get_shard. do 4 wp_step. simpl.
  assert (Hrec : ∀ t' s', sound all_nodes Is (node_skel nodes) (t', s') → shard_ok nodes t' →
    wp (ts_reconcile units nodes ≫= λ _, mret (Some (None : option ScheduleOptimization)))
      (λ r st', sound all_nodes Is (node_skel nodes) st' ∧ shard_ok nodes st'.1 ∧ r ≠ Panic) (t', s')).
  { intros t' s' Hs' Hok'. wp_step. apply ts_reconcile_spec; [done|by eapply sound_located|]. intros t2 Hsame. wp_step.
    split; [|split; [by eapply same_shard_ok|done]]. eapply sound_same_intent; [apply Hsame|done]. }
  case_bool_decide as Hatt; [|destruct prewarm].
  - unfold modify_shard. wp_step. wp_step. simpl. apply Hrec; [by apply sound_preferred_node|].
    by eapply same_fields_ok, Hok.
  - unfold tenant_shard_migrate_with_prewarm, modify_shard, get_shard. do 6 wp_step. simpl.
    assert (Hs1 : sound all_nodes Is (node_skel nodes) (set_preferred_node (Some k) t, s)) by (by apply sound_preferred_node).
    wp_step. eapply on_scheduler_reads; [done|apply optimize_attachment_spec|].
    + apply (snd_scorable _ _ _ _ Hs).
    + apply (sok_policy _ _ Hok).
    + simpl. intros j [= <-]. by eapply nodes_known.
    + intros o s' Hs' _. wp_step. split; [done|]. split; [|done]. destruct Hok. split; try done. simpl. by intros j [= <-].
  - wp_step. eapply wp_mono; [apply tenant_shard_migrate_immediate_spec; [done|by eapply nodes_known|done]|].
    intros r [t' s'] [Hs' Hr]. simpl in *. destruct (ts_policy t) as [n| |] eqn:Hp.
    + destruct Hr as (-> & Ht' & _). apply Hrec; [done|]. rewrite Ht'. eapply same_fields_ok, Hok; try done.
      intros _. right. by eexists.
    + destruct Hr as (-> & Ht' & Hno & _). apply Hrec; [done|]. rewrite Ht'. eapply same_fields_ok, Hok; try done.
      unfold attaches. simpl. rewrite Hno, Hp. intros [[? ?]|[? ?]]; done.
    + destruct Hr as (-> & [= -> ->]). by wp_steps.
Qed.

Lemma with_tenant_nodes {A} id (m : TS A) st : ss_nodes (with_tenant id m st).2 = ss_nodes st.
Proof. unfold with_tenant. case_match; [|done]. by destruct (m _) as [? [? ?]]. Qed.

Lemma tenant_shard_migrate_inv units override_scheduler prewarm origin id k st :
  service_inv st → service_inv (tenant_shard_migrate units override_scheduler prewarm origin id k st).2.
Proof.
  intros Hst. unfold tenant_shard_migrate. unfold mbind at 1, ST_bind at 1, st_get. simpl.
  destruct (ss_nodes st !! k) as [node|] eqn:Hk; [|done]. destruct (_ && _); [done|]. set (c := tenant_context _ _).
  unfold mbind at 1, ST_bind at 1.
  pose proof (with_tenant_inv st id _ Hst (λ t _, keeps_find_better (ss_nodes st) c k t _)) as Hst1.
  pose proof (with_tenant_nodes id (shard ← get_shard; on_scheduler (find_better_location NodeAttachmentSchedulingScore shard c k [])) st) as Hn1.
  destruct (with_tenant _ _ st) as [r st1]. simpl in *. destruct r as [[better|]|e|]; [|done..].
  destruct (_ && _); [done|]. destruct (bool_decide _); [done|]. unfold mbind, ST_bind.
  assert (Hst2 : service_inv (with_tenant id (migrate_shard units (ss_nodes st) prewarm c k) st1).2).
  { apply with_tenant_inv; [done|]. intros t _. rewrite <- Hn1. apply keeps_migrate. rewrite Hn1. by eexists. }
  destruct (with_tenant _ _ st1) as [r2 st2]. simpl in *. destruct r2 as [o|e|]; [|done..]. by destruct (mjoin o).
Qed.

(** ** Results of reconcilers *)

Lemma generation_max_keeps x y : has_generation x → has_generation (generation_max x y).
Proof. unfold has_generation, generation_max. destruct (Z.ltb_spec (generation_rank y) (generation_rank x)); lia. Qed.

Lemma apply_observed_delta_keys d o k :
  is_Some (apply_observed_delta d o !! k) → is_Some (o !! k) ∨ is_upsert d = true ∧ k = delta_node_id d.
Proof.
  destruct d as [j loc|j]; simpl.
  - assert (Hins : ∀ v, is_Some (<[j := v]> o !! k) → is_Some (o !! k) ∨ true = true ∧ k = j).
    { intros v. destruct (decide (k = j)) as [->|]; [by right|]. rewrite lookup_insert_ne by done. by left. }
    repeat case_match; apply Hins.
  - intros [v [_ Hv]%lookup_delete_Some]. left. by eexists.
Qed.

Lemma apply_observed_deltas_keys ds : ∀ (o : gmap NodeId ObservedStateLocation) k,
  is_Some (foldl (λ o d, apply_observed_delta d o) o ds !! k) →
  is_Some (o !! k) ∨ ∃ d, d ∈ ds ∧ k = delta_node_id d.
Proof.
  induction ds as [|d ds IH]; intros o k; simpl; [by left|]. intros [Ho|(d' & Hd' & ->)]%IH.
  - apply apply_observed_delta_keys in Ho as [?|[_ ->]]; [by left|]. right. exists d. split; [by left|done].
  - right. exists d'. split; [by right|done].
Qed.

Lemma filter_delta_known nodes (ds : list ObservedStateDelta) d :
  (∀ k n, nodes !! k = Some n → n_id n = k) → d ∈ omap (filter_delta nodes) ds → is_Some (nodes !! delta_node_id d).
Proof.
  intros Hkeys (d0 & _ & Hd)%list_elem_of_omap. unfold filter_delta, mbind in Hd. simpl in Hd.
  destruct (nodes !! delta_node_id d0) as [n|] eqn:Hn; [|done]. simpl in Hd.
  destruct (is_available n); injection Hd as <-; simpl; [by eexists|]. rewrite (Hkeys _ _ Hn), Hn. by eexists.
Qed.

Lemma process_result_fields nodes result t :
  let t' := process_result nodes result t in
  ts_intent t' = ts_intent t ∧ ts_policy t' = ts_policy t ∧ ts_preferred_node t' = ts_preferred_node t ∧
  ts_generation t' = generation_max (ts_generation t) (rr_generation result) ∧
  ∀ k, is_Some (ts_observed t' !! k) →
    is_Some (ts_observed t !! k) ∨ ∃ d, d ∈ omap (filter_delta nodes) (rr_observed_deltas result) ∧ k = delta_node_id d.
Proof.
  unfold process_result. set (t0 := t <| ts_generation := _ |> <| ts_pending_compute_notification := _ |>).
  assert (Hrc : ts_intent (reconcile_complete (rr_sequence result) t0) = ts_intent t ∧
    ts_policy (reconcile_complete (rr_sequence result) t0) = ts_policy t ∧
    ts_preferred_node (reconcile_complete (rr_sequence result) t0) = ts_preferred_node t ∧
    ts_generation (reconcile_complete (rr_sequence result) t0) = generation_max (ts_generation t) (rr_generation result) ∧
    ts_observed (reconcile_complete (rr_sequence result) t0) = ts_observed t).
  { unfold reconcile_complete. by repeat case_match. }
  destruct Hrc as (? & ? & ? & ? & Ho). destruct (rr_ok result); simpl; rewrite Ho;
    (split; [done|]); (split; [done|]); (split; [done|]); (split; [done|]);
    intros k [?|(d & Hd & ->)]%apply_observed_deltas_keys; [by left| |by left|];
    right; exists d; [done|]. by apply list_elem_of_filter in Hd as [_ ?].
Qed.

Lemma keeps_result nodes result t s :
  (∀ k n, nodes !! k = Some n → n_id n = k) → keeps_shard nodes (modify_shard (process_result nodes result)) t s.
Proof.
  intros Hkeys Is Hs [Hp Hg Ho Hn]. unfold modify_shard. wp_step.
  destruct (process_result_fields nodes result t) as (Hi & Hp' & Hn' & Hg' & Ho'). simpl.
  split; [by eapply sound_same_intent|]. split; [|done]. split; simpl; unfold attaches in *.
  - by rewrite Hp'.
  - rewrite Hi, Hp', Hg'. intros Ha. by apply generation_max_keeps, Hg.
  - intros k [?|(d & Hd & ->)]%Ho'; [auto|]. by eapply filter_delta_known.
  - by rewrite Hn'.
Qed.

Lemma maybe_drop_tenant_inv tid st :
  service_inv st → (∀ id t, (id, t) ∈ ss_tenants st → droppable t = true → unplaced t) →
  service_inv (st <| ss_tenants := maybe_drop_tenant tid (ss_tenants st) |>).
Proof.
  intros Hst Hun. unfold maybe_drop_tenant. pose proof (split_tenant_app tid (ss_tenants st)) as Hsp.
  destruct (split_tenant _ _) as [[before mine] after]. destruct Hsp as [Hsp _].
  destruct (forallb _ mine) eqn:Hall; [|by destruct st]. destruct Hst as [Hkeys Hutil Hinv]. split; simpl; [done..|].
  rewrite <- Hsp in Hinv, Hun. apply shards_inv_middle in Hinv. eapply shards_inv_unplaced; [done|].
  apply Forall_forall. intros [id t] Hin. rewrite forallb_forall in Hall. apply (Hun id t).
  - set_solver.
  - apply (Hall (id, t)). by apply list_elem_of_In.
Qed.

(** Detached shards have no location. *)
Definition cleared (t : TenantShard) : Prop := ts_policy t = PolicyDetached → unplaced t.

Lemma cleared_stable : stable cleared.
Proof. intros t t' (Hi & Hp & _) Ht. unfold cleared, unplaced in *. by rewrite Hi, Hp. Qed.

Lemma maybe_drop_tenant_sub tid l : ∀ kv, kv ∈ maybe_drop_tenant tid l → kv ∈ l.
Proof.
  intros kv. unfold maybe_drop_tenant. pose proof (split_tenant_app tid l) as Hsp.
  destruct (split_tenant _ _) as [[before mine] after]. destruct Hsp as [<- _]. destruct (forallb _ _); [|done]. set_solver.
Qed.

Lemma maybe_drop_tenants_inv (ids : list (TenantShardId * TenantShard)) : ∀ st,
  service_inv st → Forall (λ kv, cleared kv.2) (ss_tenants st) →
  service_inv (st <| ss_tenants :=
    foldl (λ tenants kv, maybe_drop_tenant (tenant_id kv.1) tenants) (ss_tenants st) ids |>).
Proof.
  induction ids as [|kv ids IH]; intros st Hst Hc; simpl; [by destruct st|].
  pose proof (IH (st <| ss_tenants := maybe_drop_tenant (tenant_id kv.1) (ss_tenants st) |>)) as H. simpl in H. apply H.
  - apply maybe_drop_tenant_inv; [done|]. intros id t Hin Hd. apply (proj1 (Forall_forall _ _) Hc (id, t) Hin).
    unfold droppable in Hd. by bool_prop.
  - apply Forall_forall. intros x Hx%maybe_drop_tenant_sub. by apply (proj1 (Forall_forall _ _) Hc).
Qed.

Lemma reconcile_all_inv units delayed guard st :
  service_inv st → Forall (λ kv, cleared kv.2) (ss_tenants st) →
  service_inv (reconcile_all units delayed guard st).2 ∧ (reconcile_all units delayed guard st).1 ≠ Panic.
Proof.
  intros Hst Hc. unfold reconcile_all, mbind, ST_bind, st_get, st_put. simpl.
  destruct (for_all_shards_inv cleared cleared (reconcile_all_body units delayed (ss_nodes st)) st Hst) as (Hst1 & Hr & Hn & Hc1).
  { apply reconcile_all_body_ok, cleared_stable. }
  { done. }
  destruct (for_all_shards _ st) as [r st1]. simpl in *. destruct r as [[]|e|]; [|done..].
  split; [|done]. apply maybe_drop_tenants_inv; [done|]. by apply Hc1.
Qed.

Lemma keeps_reconcile nodes units t s : keeps_shard nodes (ts_reconcile units nodes) t s.
Proof.
  intros Is Hs Hok. apply ts_reconcile_spec; [done|by eapply sound_located|]. intros t2 Hsame.
  split; [|split; [by eapply same_shard_ok|done]]. eapply sound_same_intent; [apply Hsame|done].
Qed.

Lemma reconcile_delayed_inv delayed : ∀ nodes st,
  service_inv st → ss_nodes st = nodes → service_inv (reconcile_delayed nodes delayed st).2.
Proof.
  induction delayed as [|id delayed IH]; intros nodes st Hst Hn; simpl; [done|]. unfold mbind, ST_bind.
  assert (Hst1 : service_inv (with_tenant id (ts_reconcile true nodes) st).2).
  { apply with_tenant_inv; [done|]. intros t _. rewrite Hn. apply keeps_reconcile. }
  pose proof (with_tenant_nodes id (ts_reconcile true nodes) st) as Hn1.
  destruct (with_tenant _ _ st) as [r st1]. simpl in *. destruct r as [?|?|]; [|done..]. apply IH; [done|congruence].
Qed.

(** The shards with the policy [Detached] that are dropped have no location left. *)
Lemma service_process_result_inv guard delayed id result st :
  service_inv st → Forall (λ kv, cleared kv.2) (ss_tenants st) →
  service_inv (service_process_result guard delayed id result st).2.
Proof.
  intros Hst Hc. assert (Hun : ∀ id t, (id, t) ∈ ss_tenants st → ts_policy t = PolicyDetached → unplaced t)
    by (intros id' t Hin; exact (proj1 (Forall_forall _ _) Hc (id', t) Hin)).
  unfold service_process_result, mbind, ST_bind, st_get, st_put. simpl.
  destruct (find_tenant id (ss_tenants st)) as [t|] eqn:Hf; [|done]. set (t' := process_result _ _ t). simpl.
  assert (Hst1 : service_inv (st <| ss_tenants := update_tenant id t' (ss_tenants st) |>)).
  { assert (Hst' : service_inv (st <| ss_tenants := update_tenant id t' (ss_tenants st) |> <| ss_scheduler := ss_scheduler st |>));
      [|by destruct st].
    eapply update_tenant_inv; [done..|]. intros Is Hs Hok.
    destruct (keeps_result (ss_nodes st) result t (ss_scheduler st) (sinv_keys _ Hst) Is Hs Hok) as (? & ? & _). done. }
  apply reconcile_delayed_inv; [|done]. destruct (_ && _); [|done].
  pose proof (maybe_drop_tenant_inv (tenant_id id) (st <| ss_tenants := update_tenant id t' (ss_tenants st) |>) Hst1) as Hdrop.
  simpl in Hdrop. apply Hdrop. clear Hdrop.
  destruct (find_tenant_split _ _ _ Hf) as (l1 & l2 & Hl & Hu). simpl. rewrite Hu. intros id2 t2 Hin Hd.
  unfold droppable in Hd. bool_prop. apply elem_of_app in Hin as [Hin|[[= -> ->]|Hin]%elem_of_cons].
  - apply (Hun id2); [rewrite Hl; set_solver|done].
  - destruct (process_result_fields (ss_nodes st) result t) as (Hi & Hp & _). unfold unplaced, t' in *. rewrite Hi.
    apply (Hun id); [rewrite Hl; set_solver|]. congruence.
  - apply (Hun id2); [rewrite Hl; set_solver|done].
Qed.

(** What the invariant says of one shard *)
Lemma tenant_sound st id t :
  service_inv st → (id, t) ∈ ss_tenants st →
  ∃ Is, sound all_nodes Is (node_skel (ss_nodes st)) (t, ss_scheduler st) ∧ shard_ok (ss_nodes st) t.
Proof.
  intros [_ _ Hinv] Hin. apply list_elem_of_split in Hin as (l1 & l2 & Hl). rewrite Hl in Hinv.
  apply (shards_inv_middle _ _ _ l1 [(id, t)] l2), shards_inv_app in Hinv as (Hone & _).
  apply shards_inv_cons in Hone as (? & ? & _). by eexists.
Qed.

Lemma find_tenant_elem id t l : find_tenant id l = Some t → (id, t) ∈ l.
Proof. intros (l1 & l2 & -> & _)%find_tenant_split. set_solver. Qed.

(** ** New shards *)

Lemma insert_tenant_perm id t l : insert_tenant id t l ≡ₚ (id, t) :: l.
Proof.
  induction l as [|[id' t'] l IH]; simpl; [done|]. destruct (lex_le _ _); [done|]. rewrite IH. constructor.
Qed.

Lemma insert_tenant_find id t l : find_tenant id l = None → find_tenant id (insert_tenant id t l) = Some t.
Proof.
  induction l as [|[id' t'] l IH]; simpl; [by rewrite bool_decide_true|]. case_bool_decide as Hid; [done|].
  intros Hf. destruct (lex_le _ _); simpl; [by rewrite bool_decide_true|]. rewrite bool_decide_false by done. auto.
Qed.

(** A shard without locations can be added. *)
Lemma insert_tenant_inv st id t :
  service_inv st → unplaced t → shard_ok (ss_nodes st) t →
  service_inv (st <| ss_tenants := insert_tenant id t (ss_tenants st) |>).
Proof.
  intros [Hkeys Hutil [Hsk Hacc Hwf Hkn Hok Hsc]] Hun Hokt. split; simpl; [done..|].
  eapply shards_inv_perm; [by rewrite insert_tenant_perm|]. unfold unplaced in Hun. split; simpl; try done.
  - intros w k n HD Hn. rewrite (Hacc w k n HD Hn), Zsum_cons, contrib_absent; [by rewrite Z.add_0_l|].
    rewrite Hun. apply not_elem_of_nil.
  - constructor; [|done]. unfold intent_wf. rewrite Hun. constructor.
  - constructor; [|done]. intros k. rewrite Hun. by intros ?%elem_of_nil.
  - by constructor.
Qed.

Lemma new_shard_ok nodes shard policy az g config :
  0 ≤ want_secondaries policy ≤ 1 → (∀ n, policy = PolicyAttached n → has_generation g) →
  shard_ok nodes (TenantShard_new shard policy az <| ts_generation := g |> <| ts_config := config |>).
Proof.
  intros Hw Hg. split; simpl; try done.
  - intros [[? ?]|[n Hn]]; [done|]. by eapply Hg.
  - intros k [? Hk]. done.
Qed.

Lemma schedule_keeps nodes c t s Is :
  sound all_nodes Is (node_skel nodes) (t, s) → shard_ok nodes t →
  let '(r, (t', s'), _) := schedule c (t, s) in
  sound all_nodes Is (node_skel nodes) (t', s') ∧ shard_ok nodes t' ∧ r ≠ Panic.
Proof.
  intros Hs Hok.
  pose proof (body_schedule_spec all_nodes Is (node_skel nodes) nodes t s c
    (λ r x', sound all_nodes Is (node_skel nodes) x'.1 ∧ shard_ok nodes x'.1.1 ∧ r ≠ Panic) Hs Hok) as H.
  unfold wp, body_schedule in H. simpl in H. destruct (schedule c (t, s)) as [[r [t' s']] c']. simpl in H.
  destruct H as (? & ? & Hr); [by auto|]. split; [done|]. split; [done|]. by destruct r.
Qed.

Lemma do_initial_shard_scheduling_inv id g params config policy az c st :
  service_inv st → 0 ≤ want_secondaries policy ≤ 1 → (∀ n, policy = PolicyAttached n → has_generation g) →
  let '(r, _, st') := do_initial_shard_scheduling id g params config policy az c st in
  service_inv st' ∧ r ≠ Panic.
Proof.
  intros Hst Hw Hg. unfold do_initial_shard_scheduling.
  set (t0 := TenantShard_new _ policy az <| ts_generation := g |> <| ts_config := config |>).
  assert (Hins : ∃ t l, match find_tenant id (ss_tenants st) with
      | Some t => (t, ss_tenants st) | None => (t0, insert_tenant id t0 (ss_tenants st)) end = (t, l) ∧
    find_tenant id l = Some t ∧ service_inv (st <| ss_tenants := l |>)).
  { destruct (find_tenant id (ss_tenants st)) as [t|] eqn:Hf.
    - exists t, (ss_tenants st). split; [done|]. split; [done|]. by destruct st.
    - exists t0, (insert_tenant id t0 (ss_tenants st)). split; [done|]. split; [by apply insert_tenant_find|].
      apply insert_tenant_inv; [done|done|by apply new_shard_ok]. }
  destruct Hins as (t & l & -> & Hf & Hst1).
  pose proof (tenant_sound _ id t Hst1 (find_tenant_elem _ _ _ Hf)) as Hone. simpl in Hone.
  pose proof (λ Is, schedule_keeps (ss_nodes st) c t (ss_scheduler st) Is) as Hk.
  destruct (schedule c (t, ss_scheduler st)) as [[r [t' s']] c'].
  assert (Hst2 : service_inv (st <| ss_tenants := update_tenant id t' l |> <| ss_scheduler := s' |>)).
  { apply (update_tenant_inv (st <| ss_tenants := l |>) id t t' s' Hst1 Hf). simpl. intros Is Hs Hok.
    by destruct (Hk Is Hs Hok) as (? & ? & _). }
  destruct Hone as (Is & Hs & Hok). destruct (Hk Is Hs Hok) as (_ & [_ Hgen _ _] & Hr).
  destruct r as [[]|e|]; [|done..]. destruct (is_attached (ts_intent t')) as [k|] eqn:Ha; [|done].
  destruct (ts_generation t') eqn:Hg'; [done|]. exfalso. assert (Hx : has_generation None); [|by destruct Hx].
  apply Hgen. left. by eexists.
Qed.

(** ** The optimizer *)

Lemma keeps_apply_and_reconcile nodes units o t s :
  (so_sequence o = ts_sequence t → applicable s (ts_intent t) (so_action o)) →
  keeps_shard nodes (apply_and_reconcile units nodes o) t s.
Proof.
  intros Ho Is Hs Hok. unfold apply_and_reconcile. wp_step. eapply wp_mono; [by apply keeps_apply|].
  intros r [t' s'] (Hs' & Hok' & Hr). destruct r as [[]|e|]; [|by wp_step|done..].
  wp_step. eapply wp_mono; [by apply keeps_reconcile|]. intros r2 [t2 s2] (? & ? & ?). by destruct r2; [wp_step|..].
Qed.

Lemma service_equiv st s' :
  service_inv st → s' ≡ ss_scheduler st → service_inv (st <| ss_scheduler := s' |>).
Proof.
  intros [Hkeys Hutil [Hsk Hacc Hwf Hkn Hok Hsc]] Heq. pose proof (equiv_skel _ _ Heq) as Hsk'.
  split; simpl; [done..|]. split; simpl; try done.
  - congruence.
  - by eapply equiv_counted.
  - by eapply skel_known_intents.
  - by eapply equiv_scorable.
Qed.

(** Planning changes caches only, and returns; what it plans can be applied. *)
Lemma plan_shard_spec c nodes t s :
  scorable s → shard_ok nodes t → (∀ k, is_Some (nodes !! k) → is_Some (s !! k)) →
  reads s (plan_shard c t) (λ o, ts_preferred_node t = None → plan_applicable t s o).
Proof.
  intros Hsc [Hw _ _ Hp] Hk. unfold plan_shard. destruct (may_optimize t); simpl; [|done].
  destruct (is_idle t); simpl; [|done].
  eapply (sched_reads_bind _ _ _ (λ a, a = s)); [done|done|]. intros ? s0 Heq0 Hsc0 ->.
  destruct (maybe_optimizable t c s); simpl; [|done].
  assert (Hsk : skel s0 = skel s) by (by apply equiv_skel).
  eapply (sched_reads_bind _ _ _ (plan_applicable t s0)); [done|apply optimize_attachment_spec; [done|lia|]|].
  { intros k Hpk. apply (skel_known _ _ k Hsk). auto. }
  intros o s1 Heq1 Hsc1 Ho. assert (Hsk1 : skel s1 = skel s) by (rewrite <- Hsk; by apply equiv_skel).
  assert (Hplan : ∀ s2 o, skel s2 = skel s → plan_applicable t s2 o → plan_applicable t s o).
  { intros s2 o' Hs2 Ho' so Hso. destruct (Ho' so Hso). split; [done|]. by eapply applicable_skel. }
  destruct o as [o|]; [split; [done|]; intros _; exact (Hplan s0 _ Hsk Ho)|].
  destruct (ts_preferred_node t) as [p|] eqn:Hpn.
  - eapply wp_mono; [by apply optimize_secondary_reads|]. intros r s2 [? Hr]. split; [done|]. by destruct r.
  - eapply wp_mono; [apply optimize_secondary_spec; [done|lia|done]|]. intros r s2 [? Hr]. split; [done|].
    destruct r; [|done..]. intros _. exact (Hplan s1 _ Hsk1 Hr).
Qed.

Section planning.
Context (nodes : gmap NodeId Node).

Definition planned_from (s : Scheduler) (l : Tenants) (work : list (TenantShardId * ScheduleOptimization)) : Prop :=
  ∀ id so, (id, so) ∈ work → ∃ t, (id, t) ∈ l ∧ (ts_preferred_node t = None → plan_applicable t s (Some so)).

Lemma planned_from_skel s s' l work : skel s' = skel s → planned_from s' l work → planned_from s l work.
Proof.
  intros Hsk Hw id so Hin. destruct (Hw id so Hin) as (t & Ht & Hp). exists t. split; [done|]. intros Hpn.
  intros so' [= <-]. destruct (Hp Hpn so eq_refl). split; [done|]. by eapply applicable_skel.
Qed.

Lemma plan_group_spec n c l : ∀ s,
  scorable s → Forall (λ kv, shard_ok nodes kv.2) l → (∀ k, is_Some (nodes !! k) → is_Some (s !! k)) →
  reads s (plan_group n c l) (planned_from s l).
Proof.
  induction l as [|[id t] l IH]; intros s Hsc Hl Hk; simpl plan_group; [by split; [|intros ? ? ?%elem_of_nil]|].
  apply Forall_cons in Hl as [Ht Hl]. destruct (_ <=? _); [by split; [|intros ? ? ?%elem_of_nil]|].
  eapply sched_reads_bind; [done|by apply (plan_shard_spec _ nodes)|]. intros o s1 Heq Hsc1 Ho.
  assert (Hsk : skel s1 = skel s) by (by apply equiv_skel).
  destruct o as [so|].
  - split; [done|]. intros id' so' [= -> ->]%list_elem_of_singleton. exists t. split; [by left|done].
  - eapply wp_mono; [apply IH; [done|done|]|].
    + intros k Hn. apply (skel_known _ _ k Hsk). auto.
    + intros r s2 [? Hr]. split; [done|]. destruct r as [w|e|]; [|done..]. apply (planned_from_skel _ _ _ _ Hsk) in Hr.
      intros id' so' Hin. destruct (Hr id' so' Hin) as (t' & Ht' & ?). exists t'. split; [by right|done].
Qed.

Lemma plan_groups_spec groups : ∀ s work,
  scorable s → Forall (λ kv, shard_ok nodes kv.2) (concat (snd <$> groups)) →
  (∀ k, is_Some (nodes !! k) → is_Some (s !! k)) →
  reads s (plan_groups work groups) (λ w, ∃ new, w = work ++ new ∧ planned_from s (concat (snd <$> groups)) new).
Proof.
  induction groups as [|[c l] groups IH]; intros s work Hsc Hl Hk; simpl plan_groups.
  { split; [done|]. exists []. split; [by rewrite app_nil_r|]. intros ? ? ?%elem_of_nil. done. }
  rewrite fmap_cons in Hl. simpl in Hl. apply Forall_app in Hl as [Hl Hrest].
  eapply sched_reads_bind; [done|by apply plan_group_spec|]. intros new s1 Heq Hsc1 Hnew.
  assert (Hsk : skel s1 = skel s) by (by apply equiv_skel).
  eapply wp_mono; [apply IH; [done|done|]|].
  - intros k Hn. apply (skel_known _ _ k Hsk). auto.
  - intros r s2 [? Hr]. split; [done|]. destruct r as [w|e|]; [|done..]. destruct Hr as (new' & -> & Hn').
    exists (new ++ new'). rewrite app_assoc. split; [done|]. apply (planned_from_skel _ _ _ _ Hsk) in Hn'.
    intros id so [Hin|Hin]%elem_of_app.
    + destruct (Hnew id so Hin) as (t & ? & ?). exists t. split; [|done]. rewrite fmap_cons. simpl. set_solver.
    + destruct (Hn' id so Hin) as (t & ? & ?). exists t. split; [|done]. rewrite fmap_cons. simpl. set_solver.
Qed.
End planning.

Lemma optimize_all_plan_spec st :
  service_inv st →
  service_inv (optimize_all_plan st).2 ∧ ss_scheduler (optimize_all_plan st).2 ≡ ss_scheduler st ∧
  ss_tenants (optimize_all_plan st).2 = ss_tenants st ∧ ss_nodes (optimize_all_plan st).2 = ss_nodes st ∧
  match (optimize_all_plan st).1 with
  | Ok work => planned_from (ss_scheduler st) (ss_tenants st) work
  | Err _ => False
  | Panic => context_groups (E := ApiError) ModeSpeculative (ScheduleContext_new ModeSpeculative) [] (ss_tenants st) = Panic
  end.
Proof.
  intros Hst. unfold optimize_all_plan.
  destruct (context_groups _ _ _ _) as [[groups u]|e|] eqn:Hg; [| |by split].
  2:{ exfalso. by eapply context_groups_no_error. }
  apply context_groups_concat in Hg. simpl in Hg. destruct (sinv_shards _ Hst) as [Hsk _ _ _ Hok Hsc].
  rewrite <- Hg in Hok. apply Forall_app in Hok as [Hok _].
  pose proof (plan_groups_spec (ss_nodes st) groups (ss_scheduler st) [] Hsc Hok) as H. unfold reads, wp in H.
  destruct (plan_groups [] groups (ss_scheduler st)) as [r s']. simpl in *. destruct H as [Heq Hr].
  { intros k [n Hn]. assert (Hl : skel (ss_scheduler st) !! k = node_skel (ss_nodes st) !! k) by (by rewrite Hsk).
    unfold skel, node_skel in Hl. rewrite !lookup_fmap, Hn in Hl. destruct (ss_scheduler st !! k); [by eexists|done]. }
  split; [by apply service_equiv|]. split; [done|]. split; [done|]. split; [done|].
  destruct r as [w|e|]; [|done..]. destruct Hr as (new & -> & Hnew). simpl.
  intros id so Hin. destruct (Hnew id so Hin) as (t & Ht & ?). exists t. split; [|done]. rewrite <- Hg. set_solver.
Qed.

(** ** Steps of the service *)

Lemma keeps_set_preferred_az nodes az t s : keeps_shard nodes (on_intent (set_preferred_az az)) t s.
Proof.
  intros Is Hs Hok. eapply on_intent_sound; [done|apply set_preferred_az_spec, Hs|..].
  - apply (snd_wf _ _ _ _ Hs).
  - by left.
  - intros s' Hs'. split; [done|]. split; [|done]. by eapply same_fields_ok, Hok.
Qed.

Lemma drain_reschedule_inv id k st :
  service_inv st →
  (∀ t, find_tenant id (ss_tenants st) = Some t → has_generation (ts_generation t)) →
  service_inv (drain_reschedule id k st).2.
Proof.
  intros Hst Hg. unfold drain_reschedule, mbind, ST_bind, st_get. simpl.
  destruct (find_tenant id (ss_tenants st)) as [t|] eqn:Hf; [|done]. case_bool_decide; [done|].
  case_bool_decide as Hk; [done|].
  assert (Hin : k ∈ is_secondary (ts_intent t)) by (destruct (decide (k ∈ is_secondary (ts_intent t))); tauto).
  assert (Hst' : service_inv (with_tenant id (reschedule_to_secondary (Some k)) st).2).
  { apply with_tenant_inv; [done|]. rewrite Hf. intros ? [= <-]. apply keeps_reschedule; [by apply Hg|]. by intros j [= <-]. }
  unfold st_try. by destruct (with_tenant _ _ st) as [[] ?].
Qed.

(** The operations under the lock, with what they are called with *)
Inductive ServiceOp :=
| OpNodeRegister (x : NodeId) (az : AvailabilityZone)
| OpNodeConfigure (x : NodeId) (availability : option NodeAvailability) (scheduling : option NodeSchedulingPolicy)
| OpNodeTransition (units : TenantShardId → bool) (x : NodeId) (transition : AvailabilityTransition)
| OpNodeDrop (x : NodeId)
| OpNodeDelete (units : TenantShardId → bool) (x : NodeId)
| OpTenantCreate (id : TenantShardId) (g : option Generation) (params : ShardParameters) (config : TenantConfig)
    (policy : PlacementPolicy) (az : option AvailabilityZone) (c : ScheduleContext)
| OpTenantPolicy (units : TenantShardId → bool) (tid : TenantId) (placement : option PlacementPolicy)
    (scheduling : option ShardSchedulingPolicy)
| OpTenantDrop (tid : TenantId)
| OpMigrate (units override_scheduler prewarm : bool) (origin : option NodeId) (id : TenantShardId) (k : NodeId)
| OpMigrateSecondary (id : TenantShardId) (k : NodeId)
| OpSetPreferredAz (id : TenantShardId) (az : option AvailabilityZone)
| OpOptimizeApply (units : bool) (id : TenantShardId) (o : ScheduleOptimization)
| OpDrain (id : TenantShardId) (k : NodeId)
| OpResult (guard : bool) (delayed : list TenantShardId) (id : TenantShardId) (result : ReconcileResult)
| OpReconcileAll (units delayed : TenantShardId → bool) (guard : TenantId → bool)
| OpOptimizePlan.

(** The state after an operation, whatever its outcome *)
Definition run_service (op : ServiceOp) (st : ServiceState) : ServiceState :=
  match op with
  | OpNodeRegister x az => (node_register x az st).2
  | OpNodeConfigure x availability scheduling => (node_state_configure x availability scheduling st).2
  | OpNodeTransition units x transition => (handle_node_availability_transition units x transition st).2
  | OpNodeDrop x => (node_drop x st).2
  | OpNodeDelete units x => (node_delete units x st).2
  | OpTenantCreate id g params config policy az c => (do_initial_shard_scheduling id g params config policy az c st).2
  | OpTenantPolicy units tid placement scheduling => (tenant_update_policy units tid placement scheduling st).2
  | OpTenantDrop tid => (tenant_drop tid st).2
  | OpMigrate units override_scheduler prewarm origin id k =>
    (tenant_shard_migrate units override_scheduler prewarm origin id k st).2
  | OpMigrateSecondary id k => (with_tenant id (tenant_shard_migrate_secondary k) st).2
  | OpSetPreferredAz id az => (with_tenant id (on_intent (set_preferred_az az)) st).2
  | OpOptimizeApply units id o => (with_tenant id (apply_and_reconcile units (ss_nodes st) o) st).2
  | OpDrain id k => (drain_reschedule id k st).2
  | OpResult guard delayed id result => (service_process_result guard delayed id result st).2
  | OpReconcileAll units delayed guard => (reconcile_all units delayed guard st).2
  | OpOptimizePlan => (optimize_all_plan st).2
  end.

(** What the service needs of an operation, and does not check itself: a node that registers
    again is in the same availability zone; nodes report a score that can be computed; a
    node is deleted only when it may not be scheduled and the shards of every tenant are
    complete, and the deletion does not fail; a placement asks for at most one secondary;
    shards that are to be attached, or drained, have a generation; a secondary is moved to a
    node that exists; an optimization is still applicable when its sequence is that of the
    shard; when a result comes in, or the background loop runs, shards with the policy
    [Detached] have no location. *)
Definition admissible (op : ServiceOp) (st : ServiceState) : Prop :=
  match op with
  | OpNodeRegister x az => ∀ n, ss_nodes st !! x = Some n → n_availability_zone_id n = az
  | OpNodeConfigure x availability scheduling => ∀ u, availability = Some (NodeActive u) → pu_scorable u
  | OpNodeDelete units x =>
    ¬ usable (node_skel (ss_nodes st)) x ∧ complete (ss_tenants st) ∧ (node_delete units x st).1 = Ok tt
  | OpTenantCreate id g params config policy az c =>
    0 ≤ want_secondaries policy ≤ 1 ∧ ∀ n, policy = PolicyAttached n → has_generation g
  | OpTenantPolicy units tid placement scheduling =>
    small_placement placement ∧
    ∀ id t, (id, t) ∈ ss_tenants st → tenant_id id = tid → attachable placement t
  | OpMigrateSecondary id k => is_Some (ss_nodes st !! k)
  | OpOptimizeApply units id o =>
    ∀ t, find_tenant id (ss_tenants st) = Some t → so_sequence o = ts_sequence t →
      applicable (ss_scheduler st) (ts_intent t) (so_action o)
  | OpDrain id k => ∀ t, find_tenant id (ss_tenants st) = Some t → has_generation (ts_generation t)
  | OpResult _ _ _ _ | OpReconcileAll _ _ _ => Forall (λ kv, cleared kv.2) (ss_tenants st)
  | OpNodeTransition _ _ _ | OpNodeDrop _ | OpTenantDrop _ | OpMigrate _ _ _ _ _ _ | OpSetPreferredAz _ _ | OpOptimizePlan => True
  end.

Lemma run_service_inv op st : service_inv st → admissible op st → service_inv (run_service op st).
Proof.
  intros Hst. destruct op; simpl; intros Hop.
  - by apply node_register_inv.
  - by apply node_state_configure_inv.
  - by apply handle_node_availability_transition_inv.
  - by apply node_drop_inv.
  - destruct Hop as (? & ? & ?). by apply node_delete_inv.
  - destruct Hop as [? ?]. pose proof (do_initial_shard_scheduling_inv id g params config policy az c st) as Hi.
    destruct (do_initial_shard_scheduling _ _ _ _ _ _ _ _) as [[r c'] st']. by destruct Hi.
  - destruct Hop as [? ?]. by apply tenant_update_policy_inv.
  - by apply tenant_drop_inv.
  - by apply tenant_shard_migrate_inv.
  - apply with_tenant_inv; [done|]. intros t _. by apply keeps_migrate_secondary.
  - apply with_tenant_inv; [done|]. intros t _. apply keeps_set_preferred_az.
  - apply with_tenant_inv; [done|]. intros t Ht. apply keeps_apply_and_reconcile. auto.
  - by apply drain_reschedule_inv.
  - by apply service_process_result_inv.
  - by apply reconcile_all_inv.
  - by apply optimize_all_plan_spec.
Qed.

Definition service_empty : ServiceState := mkServiceState ∅ [] (Scheduler_new []).

Lemma service_empty_inv : service_inv service_empty.
Proof.
  split; simpl; [intros k n Hk; by rewrite lookup_empty in Hk|intros k n u Hk; by rewrite lookup_empty in Hk|].
  split; simpl; try done; intros k n u Hk; by rewrite lookup_empty in Hk.
Qed.

(** The states of a service that starts without nodes and shards, after operations that satisfy
    [ok] *)
Inductive reachable (ok : ServiceOp → ServiceState → Prop) : ServiceState → Prop :=
| reachable_empty : reachable ok service_empty
| reachable_step op st : reachable ok st → ok op st → reachable ok (run_service op st).

Lemma reachable_inv st : reachable admissible st → service_inv st.
Proof. induction 1; [apply service_empty_inv|by apply run_service_inv]. Qed.

(** ** What the reachable states are like *)


(** C29: every shard of a state that is reachable by [admissible] operations is well formed:
    its locations are on different nodes, and on nodes of the service, as are the observed
    locations and the preferred node; it has a generation if it is or is to be attached.  (A
    deletion of a node that can be scheduled, or a migration that was planned before the
    deletion, leaves a location on a node that does not exist, and a policy that attaches a
    shard without a generation is accepted; they are not admissible, see
    [stale_migration_dangles] and [attach_without_generation_panics].) *)
Theorem reachable_shards_wf st id t :
  reachable admissible st → (id, t) ∈ ss_tenants st →
  NoDup (all_pageservers (ts_intent t)) ∧
  (∀ k, k ∈ all_pageservers (ts_intent t) ∨ is_Some (ts_observed t !! k) ∨ ts_preferred_node t = Some k →
    is_Some (ss_nodes st !! k)) ∧
  (attaches t → ts_generation t ≠ None).
Proof.
  intros Hst Hin. destruct (tenant_sound st id t (reachable_inv st Hst) Hin) as (Is & Hs & [_ Hg Ho Hp]). split; [apply (snd_wf _ _ _ _ Hs)|]. split.
  - intros k [Hk|[Hk|Hk]]; [|by auto..]. eapply nodes_known; [done|]. by apply (snd_known _ _ _ _ Hs).
  - intros Ha%Hg Hn. rewrite Hn in Ha. by destruct Ha.
Qed.

Lemma apply_planned Is sk t s s' so :
  sound all_nodes Is sk (t, s) → s' ≡ s → plan_applicable t s (Some so) →
  ∃ t2 s2, apply_optimization so (t, s') = (Ok true, (t2, s2)) ∧
    ts_intent t2 = apply_action (so_action so) (ts_intent t) ∧ NoDup (all_pageservers (ts_intent t2)).
Proof.
  intros Hs Heq Hplan. destruct (Hplan so eq_refl) as [Hseq Happ]. pose proof (sound_equiv _ _ _ _ _ _ Heq Hs) as Hs'.
  pose proof (apply_optimization_spec _ _ _ _ _ so Hs') as Ha. unfold wp in Ha.
  destruct (apply_optimization so (t, s')) as [r2 [t2 s2]]. simpl in Ha. rewrite Hseq, Z.eqb_refl in Ha.
  destruct Ha as (-> & Hs2 & p & _ & Ht2).
  { intros _. by eapply applicable_skel, Happ; apply equiv_skel. }
  exists t2, s2. split; [done|]. split; [by rewrite Ht2|]. apply (snd_wf _ _ _ _ Hs2).
Qed.

(** in a reachable state the planning of [optimize_attachment] returns and does not
    change the scheduler, and the optimization that it plans, applied to the shard, is
    carried out without a panic: the intent is the planned one, its locations are distinct. *)
Theorem optimize_attachment_applies st id t c :
  reachable admissible st → find_tenant id (ss_tenants st) = Some t →
  ∃ o s', optimize_attachment t c (ss_scheduler st) = (Ok o, s') ∧ s' ≡ ss_scheduler st ∧
    ∀ so, o = Some so → ∃ t2 s2, apply_optimization so (t, s') = (Ok true, (t2, s2)) ∧
      ts_intent t2 = apply_action (so_action so) (ts_intent t) ∧ NoDup (all_pageservers (ts_intent t2)).
Proof.
  intros Hst Hf. destruct (tenant_sound st id t (reachable_inv st Hst) (find_tenant_elem _ _ _ Hf)) as (Is & Hs & [Hw _ _ Hp]).
  pose proof (optimize_attachment_spec t c (ss_scheduler st)) as Hplan. unfold reads, wp in Hplan.
  destruct (optimize_attachment t c (ss_scheduler st)) as [r s']. simpl in Hplan.
  destruct Hplan as [Heq Hr]; [apply (snd_scorable _ _ _ _ Hs)|lia| |].
  { intros k Hk. eapply nodes_known; [done|]. auto. }
  destruct r as [o|e|]; [|done..]. exists o, s'. split; [done|]. split; [done|]. intros so ->.
  by eapply apply_planned.
Qed.

(** C27: in a state that is reachable by [admissible] operations every optimization that the
    background loop plans for a shard without a preferred node, that is without a migration
    under way, can be applied to it at once: it is carried out without a panic, the intent is
    the planned one and its locations are distinct.  (For a shard with a preferred node it can
    panic, see [preferred_node_attached_panics].)  Planning changes neither shards nor nodes, and of
    the scheduler only the cached scores; it panics only if the shards of a tenant are not
    complete. *)
Theorem optimize_all_plan_applies st :
  reachable admissible st →
  let '(r, st') := optimize_all_plan st in
  ss_tenants st' = ss_tenants st ∧ ss_nodes st' = ss_nodes st ∧ ss_scheduler st' ≡ ss_scheduler st ∧
  match r with
  | Ok work => ∀ id so, (id, so) ∈ work →
      ∃ t, (id, t) ∈ ss_tenants st ∧ (ts_preferred_node t = None →
        ∃ t2 s2, apply_optimization so (t, ss_scheduler st') = (Ok true, (t2, s2)) ∧
          ts_intent t2 = apply_action (so_action so) (ts_intent t) ∧ NoDup (all_pageservers (ts_intent t2)))
  | Err _ => False
  | Panic => context_groups (E := ApiError) ModeSpeculative (ScheduleContext_new ModeSpeculative) [] (ss_tenants st) = Panic
  end.
Proof.
  intros Hst%reachable_inv. pose proof (optimize_all_plan_spec st Hst) as (_ & Heq & Ht & Hn & Hr).
  destruct (optimize_all_plan st) as [r st']. simpl in *. split; [done|]. split; [done|]. split; [done|].
  destruct r as [work|e|]; [|done..]. intros id so Hin. destruct (Hr id so Hin) as (t & Hin' & Hp).
  exists t. split; [done|]. intros Hpn. destruct (tenant_sound st id t Hst Hin') as (Is & Hs & _).
  eapply apply_planned; [done..|]. auto.
Qed.

(** ** Examples *)

Definition test_shard_id : TenantShardId := mkTenantShardId (replicate 16 x01) 0 0.

Definition idle_utilization : PageserverUtilization := mkPageserverUtilization 500 500 100 100 0 10 None.

Definition test_up (k : NodeId) (az : Z) (st : ServiceState) : ServiceState :=
  run_service (OpNodeConfigure k (Some (NodeActive idle_utilization)) None) (run_service (OpNodeRegister k [az]) st).

Definition test_create (policy : PlacementPolicy) (g : option Generation) (st : ServiceState) : ServiceState :=
  run_service (OpTenantCreate test_shard_id g {| params_count := 0; params_stripe_size := 32768 |} (mkTenantConfig None []) policy
    (Some [97]) (ScheduleContext_new ModeNormal)) st.

(** Two nodes and a shard that is attached to the first *)
Definition test_two : ServiceState := test_up 2 98 (test_up 1 97 service_empty).
Definition test_placed : ServiceState := test_create (PolicyAttached 1) (Some (GenValid 1)) test_two.

(** The first node fails. *)
Definition test_failed : ServiceState :=
  run_service (OpNodeTransition (λ _, true) 1 ToOffline)
    (run_service (OpNodeConfigure 1 (Some NodeOffline) None) test_placed).

Definition test_intents (st : ServiceState) : list IntentState := intents (ss_tenants st).

Lemma test_up_reachable k az st : ss_nodes st !! k = None → reachable admissible st → reachable admissible (test_up k az st).
Proof.
  intros Hk Hst. apply reachable_step.
  - apply reachable_step; [exact Hst|]. intros n. by rewrite Hk.
  - intros u [= <-]. by vm_compute.
Qed.

Lemma test_placed_reachable : reachable admissible test_placed.
Proof.
  apply reachable_step; [|split; [by vm_compute|by intros]].
  unfold test_two. repeat (apply test_up_reachable; [vm_compute; reflexivity|]). constructor.
Qed.

Lemma test_failed_reachable : reachable admissible test_failed.
Proof. apply reachable_step; [|exact I]. by apply reachable_step; [apply test_placed_reachable|]. Qed.


Lemma reachable_shards_wf_witness :
  ∃ t, ss_tenants test_failed = [(test_shard_id, t)] ∧ is_attached (ts_intent t) = Some 2 ∧ ts_generation t ≠ None.
Proof.
  destruct (find_tenant test_shard_id (ss_tenants test_failed)) as [t|] eqn:Hf; [|vm_compute in Hf; discriminate].
  exists t. assert (Hall : ss_tenants test_failed = [(test_shard_id, t)]).
  { revert Hf. vm_compute. intros [= <-]. reflexivity. }
  assert (Hatt : is_attached (ts_intent t) = Some 2). { revert Hf. vm_compute. intros [= <-]. reflexivity. }
  split; [exact Hall|]. split; [exact Hatt|].
  destruct (reachable_shards_wf test_failed test_shard_id t test_failed_reachable) as (_ & _ & Hg).
  - rewrite Hall. by left.
  - apply Hg. left. by eexists.
Defined.

(** The shard returns to the zone it prefers when its node does. *)
Definition test_back : ServiceState :=
  run_service (OpNodeConfigure 1 (Some (NodeActive idle_utilization)) None) test_failed.

Lemma test_back_reachable : reachable admissible test_back.
Proof.
  apply reachable_step; [apply test_failed_reachable|]. intros u [= <-]. by vm_compute.
Qed.

Lemma optimize_attachment_applies_witness :
  ∃ t s2 t2, find_tenant test_shard_id (ss_tenants test_back) = Some t ∧
    ts_intent t = mkIntentState (Some 2) [1] (Some [97]) ∧
    (optimize_attachment t (tenant_context (tenant_id test_shard_id) (ss_tenants test_back)) (ss_scheduler test_back)).1 =
      Ok (Some (mkScheduleOptimization (ts_sequence t) (MigrateAttachment 2 1))) ∧
    apply_optimization (mkScheduleOptimization (ts_sequence t) (MigrateAttachment 2 1))
      (t, (optimize_attachment t (tenant_context (tenant_id test_shard_id) (ss_tenants test_back)) (ss_scheduler test_back)).2) =
      (Ok true, (t2, s2)) ∧
    ts_intent t2 = mkIntentState (Some 1) [2] (Some [97]).
Proof.
  destruct (find_tenant test_shard_id (ss_tenants test_back)) as [t|] eqn:Hf; [|vm_compute in Hf; discriminate].
  pose proof Hf as Hf'. vm_compute in Hf'. injection Hf' as Ht. symmetry in Ht.
  set (c := tenant_context (tenant_id test_shard_id) (ss_tenants test_back)).
  pose proof (optimize_attachment_applies test_back test_shard_id t c test_back_reachable Hf) as (o & s' & Ho & _ & Happ).
  assert (Hplan : (optimize_attachment t c (ss_scheduler test_back)).1 =
    Ok (Some (mkScheduleOptimization (ts_sequence t) (MigrateAttachment 2 1)))).
  { rewrite Ht. vm_compute. reflexivity. }
  assert (Hi : ts_intent t = mkIntentState (Some 2) [1] (Some [97])) by (rewrite Ht; reflexivity).
  pose proof Hplan as Hplan'. rewrite Ho in Hplan'. injection Hplan' as ->.
  destruct (Happ _ eq_refl) as (t2 & s2 & Hrun & Hint & _).
  exists t, s2, t2. rewrite Ho. split; [reflexivity|]. split; [exact Hi|]. split; [reflexivity|]. split; [exact Hrun|].
  rewrite Hint, Hi. vm_compute. reflexivity.
Defined.

(** *** Where the premises of [admissible] are needed *)

Definition test_check (st : ServiceState) : outcome CheckError unit :=
  consistency_check (map_to_list (ss_nodes st)).*2 (intents (ss_tenants st)) (ss_scheduler st).

(** A tenant that is created with only a secondary location has no generation; setting its
    policy to attached schedules it and panics. *)
Example attach_without_generation_panics :
  (tenant_update_policy (λ _, true) (tenant_id test_shard_id) (Some (PolicyAttached 0)) None
    (test_create PolicySecondary None test_two)).1 = Panic.
Proof. vm_compute. reflexivity. Qed.

(** [node_delete] pauses the node in the map of nodes, but not in the scheduler: it is chosen
    again as the secondary location of the shard that is moved away, and the shard is left
    with a location on a node that does not exist. *)
Example node_delete_chooses_node :
  let '(r, st) := node_delete (λ _, true) 1 test_placed in
  r = Ok tt ∧ test_intents st = [mkIntentState (Some 2) [1] (Some [97])] ∧ ss_nodes st !! 1 = None ∧
  test_check st = Err (NonexistentNode 1).
Proof. vm_compute. repeat split; reflexivity. Qed.

(** When a shard cannot be moved, [node_delete] returns early: the shard has lost its location,
    which the scheduler still counts. *)
Example node_delete_fails_inconsistent :
  let st := test_create (PolicyAttached 0) (Some (GenValid 1)) (test_up 1 97 service_empty) in
  let st := (node_state_configure 1 None (Some NodeSchedPause) st).2 in
  test_check st = Ok tt ∧
  let '(r, st') := node_delete (λ _, true) 1 st in
  r = Err (ApiSchedule ImpossibleConstraint) ∧ test_intents st' = [mkIntentState None [] (Some [97])] ∧
  test_check st' = Err (InconsistentState 1).
Proof. vm_compute. repeat split; reflexivity. Qed.

(** A shard whose scheduling is stopped loses its attached location when the node fails,
    and is not attached elsewhere. *)
Example offline_detaches_stopped_shard :
  let st := (tenant_update_policy (λ _, true) (tenant_id test_shard_id) None (Some ShardStop) test_placed).2 in
  let st := (node_state_configure 1 (Some NodeOffline) None st).2 in
  test_intents (handle_node_offline (λ _, true) 1 st).2 = [mkIntentState None [2; 1] (Some [97])].
Proof. vm_compute. reflexivity. Qed.

(** Draining ends early when the shard that was looked at last is removed: the second shard
    is never looked at. *)
Example drain_stops_early :
  let id2 := mkTenantShardId (tenant_id test_shard_id) 1 0 in
  let t := test_shard (PolicyAttached 0) in
  let '(first, it) := TenantShardIterator_next (drain_accessor [(test_shard_id, t); (id2, t)]) TenantShardIterator_new in
  first = Some test_shard_id ∧
  TenantShardIterator_next (drain_accessor [(id2, t)]) it = (None, mkTenantShardIterator true (Some test_shard_id)).
Proof. vm_compute. split; reflexivity. Qed.

(** A shard that is detached while its scheduling is paused keeps its intent; when its
    reconciler fails before anything was observed, the shard is dropped and the scheduler
    goes on counting it. *)
Example drop_detached_leaks :
  let st := (tenant_update_policy (λ _, true) (tenant_id test_shard_id) (Some PolicyDetached) (Some ShardPause) test_placed).2 in
  let '(r, st') := service_process_result true [] test_shard_id
    (mkReconcileResult 2 false (Some (GenValid 1)) [] false) st in
  test_check st = Ok tt ∧ r = Ok tt ∧ ss_tenants st' = [] ∧ test_check st' = Err (InconsistentState 2).
Proof. vm_compute. repeat split; reflexivity. Qed.

(** The reconciler of the shard is done. *)
Definition test_idle : ServiceState :=
  run_service (OpResult false [] test_shard_id (mkReconcileResult 4 true (Some (GenValid 2)) [] false)) test_back.

Lemma test_idle_reachable : reachable admissible test_idle.
Proof.
  apply reachable_step; [apply test_back_reachable|].
  assert (Hp : forallb (λ kv, negb (bool_decide (ts_policy kv.2 = PolicyDetached))) (ss_tenants test_back) = true)
    by (vm_compute; reflexivity).
  rewrite forallb_forall in Hp. apply Forall_forall. intros kv Hkv%list_elem_of_In%Hp Hd.
  by rewrite Hd in Hkv.
Qed.

Lemma optimize_all_plan_applies_witness :
  ∃ t, ss_tenants test_idle = [(test_shard_id, t)] ∧
    (optimize_all_plan test_idle).1 =
      Ok [(test_shard_id, mkScheduleOptimization (ts_sequence t) (MigrateAttachment 2 1))] ∧
    ∃ t2 s2, apply_optimization (mkScheduleOptimization (ts_sequence t) (MigrateAttachment 2 1))
        (t, ss_scheduler (optimize_all_plan test_idle).2) = (Ok true, (t2, s2)) ∧
      ts_intent t2 = mkIntentState (Some 1) [2] (Some [97]).
Proof.
  destruct (find_tenant test_shard_id (ss_tenants test_idle)) as [t|] eqn:Hf; [|vm_compute in Hf; discriminate].
  vm_compute in Hf. injection Hf as Ht. symmetry in Ht. exists t.
  assert (Hall : ss_tenants test_idle = [(test_shard_id, t)]) by (rewrite Ht; vm_compute; reflexivity).
  split; [exact Hall|].
  pose proof (optimize_all_plan_applies test_idle test_idle_reachable) as H.
  assert (Hr : (optimize_all_plan test_idle).1 =
    Ok [(test_shard_id, mkScheduleOptimization (ts_sequence t) (MigrateAttachment 2 1))]).
  { rewrite Ht. vm_compute. reflexivity. }
  split; [exact Hr|]. destruct (optimize_all_plan test_idle) as [r st']. cbn [fst snd] in *. subst r.
  destruct H as (_ & _ & _ & Hw). destruct (Hw _ _ (list_elem_of_here _ _)) as (t0 & Hin & Happ).
  rewrite Hall in Hin. apply list_elem_of_singleton in Hin. injection Hin as ->.
  destruct Happ as (t2 & s2 & Hrun & Hi & _); [rewrite Ht; reflexivity|].
  exists t2, s2. split; [exact Hrun|]. rewrite Hi, Ht. vm_compute. reflexivity.
Defined.

(** Removing a node from the intent of a shard does not advance its sequence: a migration to
    the node that was planned before is still applied, and the background loop panics on
    the shard that is attached to a node that does not exist. *)
Example stale_migration_dangles :
  let st := test_create (PolicyAttached 0) (Some (GenValid 1)) test_two in
  let st := (with_tenant test_shard_id (apply_optimization (mkScheduleOptimization 2 (CreateSecondary 2))) st).2 in
  let st := (node_delete (λ _, true) 2 st).2 in
  let '(r, st') := with_tenant test_shard_id (apply_optimization (mkScheduleOptimization 2 (MigrateAttachment 1 2))) st in
  test_check st = Ok tt ∧ test_intents st = [mkIntentState (Some 1) [] (Some [97])] ∧
  r = Ok (Some true) ∧ test_intents st' = [mkIntentState (Some 2) [1] (Some [97])] ∧
  (reconcile_all (λ _, true) (λ _, false) (λ _, false) st').1 = Panic.
Proof. vm_compute. repeat split; reflexivity. Qed.

(** A node that registers again is replaced by a new one: it is no longer paused. *)
Example register_resets_policy :
  let st := (node_state_configure 1 None (Some NodeSchedPause) test_two).2 in
  n_scheduling <$> ss_nodes st !! 1 = Some NodeSchedPause ∧
  n_scheduling <$> ss_nodes (node_register 1 [97] st).2 !! 1 = Some NodeSchedActive.
Proof. vm_compute. split; reflexivity. Qed.
