(* ===== verification/Reconciler.v ===== *)
(** * The reconciler of the storage controller

    [storage_controller/src/reconciler.rs], with [Node::with_client_retries]
    ([node.rs]), [backoff::retry] ([libs/utils/src/backoff.rs]) and the writes to the
    row of a shard in the database ([persistence.rs]).

    A reconciler runs against an environment of pageservers, the hook that tells the
    computes, the database and other tasks.  The environment is a list of steps.
    At every request, and whenever a cancellation token is read, one step is used up:
    other tasks write to the row, nodes go down, the task is cancelled, and the request is
    answered, after everything that happened before.  When there are no steps left the task
    is suspended; a task that is dropped or a controller that crashes is one that stays so.
    All requests are for one shard, whose identifier is left out. *)

From S2P Require Import Prelude Bytes Text Membership Ids Lsn Key Shard.
From S2P Require Import Scheduler IntentState TenantShard.

(** ** The row of the shard in the database *)

Record ShardRow := mkShardRow {
  row_generation : option Z;
  row_generation_pageserver : option NodeId;
}.

Definition i32_max : Z := 2 ^ 31 - 1.

(** [generation + 1] in SQL: [NULL] stays [NULL], an overflow is an error. *)
Definition sql_increment (generation : option Z) : option (option Z) :=
  match generation with
  | None => Some None
  | Some g => if g <? i32_max then Some (Some (g + 1)) else None
  end.

(** The update of [Persistence::increment_generation]; [None] is an error of the query. *)
Definition row_increment (node_id : NodeId) (row : ShardRow) : option ShardRow :=
  g ← sql_increment (row_generation row); Some (mkShardRow g (Some node_id)).

(** The update of [Persistence::re_attach] *)
Definition row_re_attach (node_id : NodeId) (row : ShardRow) : option ShardRow :=
  if bool_decide (row_generation_pageserver row = Some node_id) then
    g ← sql_increment (row_generation row); Some (mkShardRow g (row_generation_pageserver row))
  else Some row.

(** [Persistence::detach], and [update_tenant_shard] to a policy without attached location *)
Definition row_detach (row : ShardRow) : ShardRow := mkShardRow (row_generation row) None.

(** Writes of other tasks, or of another controller *)
Inductive RowWrite := WriteIncrement (node_id : NodeId) | WriteReAttach (node_id : NodeId) | WriteDetach.

(** ** Requests and their answers *)

#[export] Instance byte_countable : Countable byte := inj_countable Byte.to_N Byte.of_N Byte.of_to_N.

Abbreviation StatusCode := Z.
Definition STATUS_OK : StatusCode := 200.
Definition STATUS_ACCEPTED : StatusCode := 202.
Definition STATUS_NOT_FOUND : StatusCode := 404.
Definition STATUS_REQUEST_TIMEOUT : StatusCode := 408.
Definition STATUS_SERVICE_UNAVAILABLE : StatusCode := 503.
Definition STATUS_GATEWAY_TIMEOUT : StatusCode := 504.

(** [mgmt_api::Error] *)
Inductive MgmtError :=
| MgmtSendRequest | MgmtReceiveBody | MgmtReceiveErrorBody
| MgmtApiError (status : StatusCode) | MgmtCancelled | MgmtTimeout.

(** [NotifyError] of [compute_hook.rs] *)
Inductive NotifyError :=
| NotifyRequest | NotifyBusy | NotifySlowDown
| NotifyUnavailable (status : StatusCode) | NotifyUnexpected (status : StatusCode)
| NotifyShuttingDown | NotifyFatal (status : StatusCode) | NotifyNeonLocal.

(** The query is not carried out; it is, but the answer is lost; it is. *)
Inductive DbAnswer := DbFails | DbAnswerLost | DbDone.

(** A request and the type of its answer *)
Inductive Request : Type → Type :=
| ReqLocationConfig (node_id : NodeId) (config : LocationConfig) (flush_ms : option Z) (lazy : bool) :
    Request (unit + MgmtError)
| ReqGetLocationConfig (node_id : NodeId) : Request (option LocationConfig + MgmtError)
| ReqTimelineList (node_id : NodeId) : Request (gmap TimelineId Lsn + MgmtError)
| ReqWaitLsn (node_id : NodeId) (timelines : gmap TimelineId Lsn) : Request (StatusCode + MgmtError)
| ReqSecondaryDownload (node_id : NodeId) (timeout : Z) : Request (StatusCode + MgmtError)
| ReqElapsed : Request Z
| ReqNotify (node_id : NodeId) : Request (unit + NotifyError)
| ReqIncrement (node_id : NodeId) : Request DbAnswer.

(** What happened, the latest first: a generation was issued for a node, a request was made *)
Inductive Event :=
| EvGeneration (node_id : NodeId) (generation : Z)
| EvLocationConfig (node_id : NodeId) (config : LocationConfig) (answer : unit + MgmtError)
| EvGetLocationConfig (node_id : NodeId) (answer : option LocationConfig + MgmtError)
| EvTimelineList (node_id : NodeId) (answer : gmap TimelineId Lsn + MgmtError)
| EvWaitLsn (node_id : NodeId) (timelines : gmap TimelineId Lsn) (answer : StatusCode + MgmtError)
| EvSecondaryDownload (node_id : NodeId) (answer : StatusCode + MgmtError)
| EvElapsed (ms : Z)
| EvNotify (node_id : NodeId) (answer : unit + NotifyError)
| EvIncrement (node_id : NodeId) (answer : DbAnswer)
| EvDetach.

Abbreviation Trace := (list Event).

Definition event {R} (q : Request R) : R → Event :=
  match q in Request R return R → Event with
  | ReqLocationConfig n config _ _ => EvLocationConfig n config
  | ReqGetLocationConfig n => EvGetLocationConfig n
  | ReqTimelineList n => EvTimelineList n
  | ReqWaitLsn n timelines => EvWaitLsn n timelines
  | ReqSecondaryDownload n _ => EvSecondaryDownload n
  | ReqElapsed => EvElapsed
  | ReqNotify n => EvNotify n
  | ReqIncrement n => EvIncrement n
  end.

Record EnvStep := mkEnvStep {
  env_writes : list RowWrite;
  env_down : list NodeId;
  env_cancel : bool;
  env_answer : Trace → ∀ R, Request R → R;
}.

(** ** The state of the task *)

Record Reconciler := mkReconciler {
  re_shard : ShardIdentity;
  re_placement_policy : PlacementPolicy;
  re_generation : option Generation;
  re_intent : TargetState;
  re_detach : list Node;
  re_secondary_warmup_timeout : option Z;
  re_secondary_download_request_timeout : option Z;
  re_tenant_creation_hint : bool;
  re_config : TenantConfig;
  re_observed : ObservedState;
  re_original_observed : ObservedState;
  re_compute_notify_failure : bool;
}.
#[export] Instance Reconciler_settable : Settable Reconciler := λ r,
  mkReconciler (re_shard r) (re_placement_policy r) (re_generation r) (re_intent r) (re_detach r)
    (re_secondary_warmup_timeout r) (re_secondary_download_request_timeout r) (re_tenant_creation_hint r)
    (re_config r) (re_observed r) (re_original_observed r) (re_compute_notify_failure r).

(** In milliseconds *)
Definition get_secondary_warmup_timeout (self : Reconciler) : Z :=
  default 300000 (re_secondary_warmup_timeout self).
Definition get_secondary_download_request_timeout (self : Reconciler) : Z :=
  default 20000 (re_secondary_download_request_timeout self).

(** The task and its surroundings: the row, the nodes whose cancellation token was fired
    since the task was spawned, the token of the task itself *)
Record Recon := mkRecon {
  rc_self : Reconciler;
  rc_row : option ShardRow;
  rc_down : list NodeId;
  rc_cancelled : bool;
  rc_trace : Trace;
  rc_env : list EnvStep;
}.
#[export] Instance Recon_settable : Settable Recon := λ r,
  mkRecon (rc_self r) (rc_row r) (rc_down r) (rc_cancelled r) (rc_trace r) (rc_env r).

(** An error, or a task that is suspended for good *)
Inductive Interrupt (E : Type) := Failed (e : E) | Suspended.
Arguments Failed {E} e.
Arguments Suspended {E}.

Abbreviation RM E A := (ST Recon (Interrupt E) A).

Definition fail {E A} (e : E) : RM E A := st_fail (Failed e).

Definition map_interrupt {E E'} (f : E → E') (i : Interrupt E) : Interrupt E' :=
  match i with Failed e => Failed (f e) | Suspended => Suspended end.
(** [?] with a conversion of the error *)
Definition convert {E E' A} (f : E → E') (m : RM E A) : RM E' A := st_map_err (map_interrupt f) m.

(** The [Result] of a call, as a value *)
Definition attempt {E E' A} (m : RM E A) : RM E' (A + E) := λ s,
  match m s with
  | (Ok a, s') => (Ok (inl a), s')
  | (Err (Failed e), s') => (Ok (inr e), s')
  | (Err Suspended, s') => (Err Suspended, s')
  | (Panic, s') => (Panic, s')
  end.

Definition get_self {E} : RM E Reconciler := s ← st_get; mret (rc_self s).
Definition modify_self {E} (f : Reconciler → Reconciler) : RM E unit :=
  st_modify (λ s, s <| rc_self := f (rc_self s) |>).
Definition insert_observed {E} (node_id : NodeId) (loc : ObservedStateLocation) : RM E unit :=
  modify_self (λ self, self <| re_observed := <[node_id := loc]> (re_observed self) |>).

(** The row and the trace after an update of the row *)
Definition written (old : ShardRow) (new : option ShardRow) (tr : Trace) : ShardRow * Trace :=
  match new with
  | None => (old, tr)
  | Some row =>
    (row, match row_generation row, row_generation_pageserver row with
          | Some g, Some n =>
            if bool_decide (row_generation old = Some g) then tr else EvGeneration n (wrap 32 g) :: tr
          | _, _ => tr
          end)
  end.

Definition row_write (w : RowWrite) (row : ShardRow) : option ShardRow :=
  match w with
  | WriteIncrement n => row_increment n row
  | WriteReAttach n => row_re_attach n row
  | WriteDetach => Some (row_detach row)
  end.

Definition write_row (f : ShardRow → option ShardRow) (s : Recon) : Recon :=
  match rc_row s with
  | None => s
  | Some row =>
    let '(row', tr) := written row (f row) (rc_trace s) in s <| rc_row := Some row' |> <| rc_trace := tr |>
  end.

Definition env_step {E} : RM E EnvStep := λ s,
  match rc_env s with
  | [] => (Err Suspended, s)
  | e :: env =>
    let s := s <| rc_env := env |> <| rc_down := env_down e ++ rc_down s |>
      <| rc_cancelled := env_cancel e || rc_cancelled s |> in
    (Ok e, foldl (λ s w, write_row (row_write w) s) s (env_writes e))
  end.

Definition request {E R} (q : Request R) : RM E R :=
  e ← env_step;
  s ← st_get;
  let answer := env_answer e (rc_trace s) R q in
  _ ← st_modify (λ s, s <| rc_trace := event q answer :: rc_trace s |>);
  mret answer.

(** [node.is_available()] on the clone of a node that the task has *)
Definition available {E} (node : Node) : RM E bool :=
  _ ← env_step;
  s ← st_get;
  mret (is_available node && bool_decide (n_id node ∉ rc_down s)).

Definition is_cancelled {E} : RM E bool := _ ← env_step; s ← st_get; mret (rc_cancelled s).

(** [loop { .. }]: [body] returns the value that ends the loop.  Every iteration uses up at
    least one step of the environment. *)
Fixpoint iterate {E A} (fuel : nat) (body : RM E (option A)) : RM E A :=
  match fuel with
  | O => st_fail Suspended
  | S fuel => r ← body; match r with Some a => mret a | None => iterate fuel body end
  end.
Definition loop {E A} (body : RM E (option A)) : RM E A := λ s, iterate (S (length (rc_env s))) body s.

(** ** Retries *)

(** [backoff::retry], from attempt number [attempts] on; [None] when cancelled *)
Fixpoint retry_from {E T} {Er : Type} (fuel : nat) (attempts warn_threshold max_retries : Z) (is_permanent : Er → bool)
    (op : RM E (T + Er)) : RM E (option (T + Er)) :=
  match fuel with
  | O => st_panic
  | S fuel =>
    cancelled ← is_cancelled;
    if (cancelled : bool) then mret None
    else
      result ← op;
      match result with
      | inl _ => mret (Some result)
      | inr e =>
        if is_permanent e then mret (Some result)
        else if (attempts <? warn_threshold) || (attempts <? max_retries) then
          retry_from fuel (attempts + 1) warn_threshold max_retries is_permanent op
        else mret (Some result)
      end
  end.

Definition retry {E T} {Er : Type} (warn_threshold max_retries : Z) (is_permanent : Er → bool)
    (op : RM E (T + Er)) : RM E (option (T + Er)) :=
  retry_from (S (Z.to_nat (Z.max warn_threshold max_retries))) 0 warn_threshold max_retries is_permanent op.

Definition is_fatal (e : MgmtError) : bool :=
  match e with
  | MgmtSendRequest | MgmtReceiveBody | MgmtReceiveErrorBody | MgmtTimeout => false
  | MgmtApiError status =>
    negb ((status =? STATUS_SERVICE_UNAVAILABLE) || (status =? STATUS_GATEWAY_TIMEOUT)
      || (status =? STATUS_REQUEST_TIMEOUT))
  | MgmtCancelled => true
  end.

(** [Node::with_client_retries]: a timeout of a request, and a node that is shut down, are
    answers of the environment. *)
Definition with_client_retries {E T} (warn_threshold max_retries : Z) (q : Request (T + MgmtError)) :
    RM E (option (T + MgmtError)) :=
  retry warn_threshold max_retries is_fatal (request q).

(** ** Calls *)

Inductive ReconcileError :=
| ErrRemote (e : MgmtError) | ErrNotify (e : NotifyError) | ErrCancel | ErrOther.

Definition location_config (node : Node) (config : LocationConfig) (flush_ms : option Z) (lazy : bool) :
    RM ReconcileError unit :=
  is_up ← if bool_decide (lc_mode config = LocDetached) then available node else mret true;
  if negb is_up then mret tt
  else
    _ ← insert_observed (n_id node) None;
    r ← with_client_retries 1 3 (ReqLocationConfig (n_id node) config flush_ms lazy);
    _ ← match r with
        | Some (inl _) => mret tt
        | Some (inr e) => fail (ErrRemote e)
        | None => fail ErrCancel
        end;
    match lc_mode config with
    | LocDetached => modify_self (λ self, self <| re_observed := delete (n_id node) (re_observed self) |>)
    | _ => insert_observed (n_id node) (Some config)
    end.

Definition get_node (self : Reconciler) (node_id : NodeId) : option Node :=
  match filter (λ n, n_id n = node_id) (option_list (tgt_attached (re_intent self))) with
  | node :: _ => Some node
  | [] =>
    match filter (λ n, n_id n = node_id) (tgt_secondary (re_intent self)) with
    | node :: _ => Some node
    | [] => head (filter (λ n, n_id n = node_id) (re_detach self))
    end
  end.

(** An error of the database is an [anyhow::Error]. *)
Definition increment_generation (node_id : NodeId) : RM ReconcileError Generation :=
  a ← request (ReqIncrement node_id);
  match a with
  | DbFails => fail ErrOther
  | DbAnswerLost => _ ← st_modify (write_row (row_increment node_id)); fail ErrOther
  | DbDone =>
    s ← st_get;
    match row ← rc_row s; row_increment node_id row with
    | None => fail ErrOther
    | Some row =>
      _ ← st_modify (write_row (row_increment node_id));
      match row_generation row with
      | None => fail ErrOther
      | Some g => mret (GenValid (wrap 32 g))
      end
    end
  end.

Definition get_lsns (node : Node) : RM ReconcileError (gmap TimelineId Lsn) :=
  r ← request (ReqTimelineList (n_id node));
  match r with inl lsns => mret lsns | inr _ => fail ErrOther end.

Definition secondary_download (node : Node) : RM ReconcileError unit :=
  self ← get_self;
  loop (
    r ← with_client_retries 1 3
      (ReqSecondaryDownload (n_id node) (get_secondary_download_request_timeout self));
    match r with
    | None => fail ErrCancel
    | Some (inr _) => mret (Some tt)
    | Some (inl status) =>
      if status =? STATUS_OK then mret (Some tt)
      else if status =? STATUS_ACCEPTED then
        total_runtime ← request ReqElapsed;
        mret (if get_secondary_warmup_timeout self <? total_runtime then Some tt else None)
      else mret None
    end).

(** Whether a timeline is behind; one that was deleted meanwhile is not. *)
Definition any_behind (baseline latest : gmap TimelineId Lsn) : bool :=
  existsb (λ i, match latest !! i.1 with Some latest_lsn => latest_lsn <? i.2 | None => false end)
    (map_to_list baseline).

(** [tokio::select!] of [await_lsn] and the cancellation, which is looked at before every
    request *)
Definition await_lsn (node : Node) (baseline : gmap TimelineId Lsn) : RM ReconcileError unit :=
  caught_up ← loop (
    cancelled ← is_cancelled;
    if (cancelled : bool) then fail ErrCancel
    else
      r ← request (ReqWaitLsn (n_id node) baseline);
      mret (match r with
        | inl status => Some (status =? STATUS_OK)
        | inr _ => None
        end));
  if (caught_up : bool) then mret tt
  else
    loop (
      cancelled ← is_cancelled;
      if (cancelled : bool) then fail ErrCancel
      else
        r ← request (ReqTimelineList (n_id node));
        mret (match r with
          | inl latest => if any_behind baseline latest then None else Some tt
          | inr _ => None
          end)).

Definition compute_notify : RM NotifyError unit :=
  self ← get_self;
  match tgt_attached (re_intent self) with
  | None => mret tt
  | Some node =>
    r ← request (ReqNotify (n_id node));
    match r with
    | inl _ => mret tt
    | inr e =>
      _ ← modify_self (λ self, self <| re_compute_notify_failure := true |>);
      match e with
      | NotifyUnexpected status =>
        if (status =? STATUS_NOT_FOUND) && re_tenant_creation_hint self then mret tt else fail e
      | _ => fail e
      end
    end
  end.

(** The answer of the origin to the question for its location: whether to give up *)
Definition origin_gone (r : option (option LocationConfig + MgmtError)) : RM ReconcileError bool :=
  match r with
  | Some (inl (Some location_conf)) => mret (negb (is_attached_mode (lc_mode location_conf)))
  | Some (inl None) => mret true
  | Some (inr MgmtCancelled) => mret true
  | Some (inr (MgmtApiError status)) => mret (status =? STATUS_NOT_FOUND)
  | Some (inr _) => mret false
  | None => fail ErrCancel
  end.

Definition compute_notify_blocking (origin : Node) : RM ReconcileError unit :=
  loop (
    r ← attempt compute_notify;
    match r with
    | inl _ => mret (Some tt)
    | inr (NotifyFatal status) => fail (ErrNotify (NotifyFatal status))
    | inr NotifyShuttingDown => fail ErrCancel
    | inr _ =>
      is_up ← available origin;
      if negb is_up then mret (Some tt)
      else
        r ← with_client_retries 1 3 (ReqGetLocationConfig (n_id origin));
        gone ← origin_gone r;
        mret (if (gone : bool) then Some tt else None)
    end).

(** ** Live migration *)

(** [generation.map(|g| g.into().unwrap())]: [Generation::None] is a panic. *)
Definition build_location_config {E} (shard : ShardIdentity) (config : TenantConfig) (mode : LocationConfigMode)
    (generation : option Generation) (secondary_conf : option bool) : outcome E LocationConfig :=
  generation ←
    match generation with
    | None => Ok None
    | Some g => g ← unwrap (Generation_into g); Ok (Some g)
    end;
  Ok {| lc_mode := mode;
        lc_generation := generation;
        lc_secondary_conf := secondary_conf;
        lc_shard_number := number shard;
        lc_shard_count := count shard;
        lc_shard_stripe_size := stripe_size shard;
        lc_tenant_conf := config |}.

(** [build_location_config(&self.shard, &self.config, mode, generation, secondary_conf)] *)
Definition self_location_config (mode : LocationConfigMode) (secondary_conf : option bool) :
    RM ReconcileError LocationConfig :=
  self ← get_self;
  let generation := if bool_decide (mode = LocSecondary) then None else re_generation self in
  st_lift (build_location_config (re_shard self) (re_config self) mode generation secondary_conf).

(** [live_migrate], until the destination is attached; the positions of the origin *)
Definition prepare_migration (origin_ps dest_ps : Node) : RM ReconcileError (gmap TimelineId Lsn) :=
  stale_conf ← self_location_config AttachedStale None;
  _ ← location_config origin_ps stale_conf (Some 10000) false;
  baseline_lsns ← get_lsns origin_ps;
  self ← get_self;
  _ ← match mjoin (re_observed self !! n_id dest_ps) with
      | Some destination_conf =>
        if bool_decide (lc_mode destination_conf = LocSecondary) then secondary_download dest_ps else mret tt
      | None => mret tt
      end;
  mret baseline_lsns.

(** Then until the origin is not needed any more *)
Definition switch_over (origin_ps dest_ps : Node) : RM ReconcileError unit :=
  baseline_lsns ← prepare_migration origin_ps dest_ps;
  generation ← increment_generation (n_id dest_ps);
  _ ← modify_self (λ self, self <| re_generation := Some generation |>);
  dest_conf ← self_location_config AttachedMulti None;
  _ ← location_config dest_ps dest_conf None false;
  _ ← await_lsn dest_ps baseline_lsns;
  compute_notify_blocking origin_ps.

(** The rest of it *)
Definition finish_migration (origin_ps dest_ps : Node) : RM ReconcileError unit :=
  origin_secondary_conf ← self_location_config LocSecondary (Some true);
  _ ← location_config origin_ps origin_secondary_conf None false;
  _ ← insert_observed (n_id origin_ps) (Some origin_secondary_conf);
  dest_final_conf ← self_location_config AttachedSingle None;
  _ ← location_config dest_ps dest_final_conf None false;
  insert_observed (n_id dest_ps) (Some dest_final_conf).

Definition live_migrate (origin_ps dest_ps : Node) : RM ReconcileError unit :=
  _ ← st_assert (negb (n_id origin_ps =? n_id dest_ps));
  _ ← switch_over origin_ps dest_ps;
  finish_migration origin_ps dest_ps.

(** The first location in [order], the iteration order of the hash map, that is attached
    to a node that is available *)
Fixpoint find_origin (order : list NodeId) : RM ReconcileError (option Node) :=
  match order with
  | [] => mret None
  | node_id :: order =>
    self ← get_self;
    match conf ← mjoin (re_observed self !! node_id);
          if bool_decide (lc_mode conf = AttachedSingle) then get_node self node_id else None with
    | None => find_origin order
    | Some node =>
      is_up ← available node;
      if (is_up : bool) then mret (Some node) else find_origin order
    end
  end.

Definition maybe_live_migrate (order : list NodeId) : RM ReconcileError unit :=
  self ← get_self;
  match tgt_attached (re_intent self) with
  | None => mret tt
  | Some destination =>
    let migrate :=
      origin ← find_origin order;
      match origin with
      | None => mret tt
      | Some origin => live_migrate origin destination
      end in
    match re_observed self !! n_id destination with
    | Some (Some conf) => if bool_decide (lc_mode conf = LocSecondary) then migrate else mret tt
    | Some None => mret tt
    | None => migrate
    end
  end.

(** ** Reconciliation *)

(** [true] whenever there is an attached location in the intent *)
Definition maybe_refresh_observed : RM ReconcileError bool :=
  self ← get_self;
  match tgt_attached (re_intent self) with
  | None => mret false
  | Some attached_node =>
    _ ← (if bool_decide (re_observed self !! n_id attached_node = Some None) then
      r ← with_client_retries 1 1 (ReqGetLocationConfig (n_id attached_node));
      match r with
      | Some (inl conf) => insert_observed (n_id attached_node) conf
      | Some (inr (MgmtApiError status)) =>
        if status =? STATUS_NOT_FOUND then
          modify_self (λ self, self <| re_observed := delete (n_id attached_node) (re_observed self) |>)
        else fail (ErrRemote (MgmtApiError status))
      | Some (inr e) => fail (ErrRemote e)
      | None => fail ErrCancel
      end
    else mret tt);
    mret true
  end.

(** The part of [reconcile] that attaches *)
Definition reconcile_attached (refreshed : bool) : RM ReconcileError unit :=
  self ← get_self;
  match tgt_attached (re_intent self) with
  | None => mret tt
  | Some node =>
    match re_generation self with
    | None => fail ErrOther
    | Some generation =>
      let wanted_conf := attached_location_conf generation (re_shard self) (re_config self)
        (re_placement_policy self) in
      let observed := re_observed self !! n_id node in
      if bool_decide (observed = Some (Some wanted_conf)) then
        if refreshed then convert ErrNotify compute_notify else mret tt
      else
        let increment :=
          match observed with
          | None | Some None => true
          | Some (Some observed) =>
            negb (bool_decide (lc_generation observed = lc_generation wanted_conf))
            || negb (bool_decide (lc_mode observed = lc_mode wanted_conf))
          end in
        wanted_conf ←
          (if increment then
             generation ← increment_generation (n_id node);
             _ ← modify_self (λ self, self <| re_generation := Some generation |>);
             mret (wanted_conf <| lc_generation := Generation_into generation |>)
           else mret wanted_conf);
        _ ← location_config node wanted_conf None true;
        convert ErrNotify compute_notify
    end
  end.

(** The changes of secondary locations; one on a node that is not available is unknown
    from now on. *)
Fixpoint secondary_changes (nodes : list Node) : RM ReconcileError (list (Node * LocationConfig)) :=
  match nodes with
  | [] => mret []
  | node :: nodes =>
    self ← get_self;
    let wanted_conf := secondary_location_conf (re_shard self) (re_config self) in
    change ←
      (if bool_decide (re_observed self !! n_id node = Some (Some wanted_conf)) then mret []
       else
         is_up ← available node;
         if (is_up : bool) then mret [(node, wanted_conf)]
         else _ ← insert_observed (n_id node) None; mret []);
    changes ← secondary_changes nodes;
    mret (change ++ changes)
  end.

Definition detached_conf (self : Reconciler) : LocationConfig :=
  {| lc_mode := LocDetached;
     lc_generation := None;
     lc_secondary_conf := None;
     lc_shard_number := number (re_shard self);
     lc_shard_count := count (re_shard self);
     lc_shard_stripe_size := stripe_size (re_shard self);
     lc_tenant_conf := re_config self |}.

Fixpoint apply_changes (changes : list (Node * LocationConfig)) : RM ReconcileError unit :=
  match changes with
  | [] => mret tt
  | (node, conf) :: changes =>
    cancelled ← is_cancelled;
    if (cancelled : bool) then fail ErrCancel
    else
      is_up ← available node;
      _ ← (if (is_up : bool) then location_config node conf None false else insert_observed (n_id node) None);
      apply_changes changes
  end.

(** The part of [reconcile] about the attached location *)
Definition reconcile_attachment (order : list NodeId) : RM ReconcileError unit :=
  refreshed ← maybe_refresh_observed;
  _ ← maybe_live_migrate order;
  reconcile_attached refreshed.

(** All locations of it *)
Definition reconcile_locations (order : list NodeId) : RM ReconcileError unit :=
  _ ← reconcile_attachment order;
  self ← get_self;
  changes ← secondary_changes (tgt_secondary (re_intent self));
  apply_changes (changes ++ ((λ node, (node, detached_conf self)) <$> re_detach self)).

(** The call of [ComputeHook::handle_detach] *)
Definition handle_detached {E} : RM E unit :=
  self ← get_self;
  if bool_decide (tgt_attached (re_intent self) = None) && negb (bool_decide (re_detach self = [])) then
    st_modify (λ s, s <| rc_trace := EvDetach :: rc_trace s |>)
  else mret tt.

Definition reconcile (order : list NodeId) : RM ReconcileError unit :=
  _ ← reconcile_locations order; handle_detached.

Definition observed_deltas (self : Reconciler) : list ObservedStateDelta :=
  omap (λ i, if bool_decide (re_original_observed self !! i.1 = Some i.2) then None
             else Some (DeltaUpsert i.1 i.2)) (map_to_list (re_observed self)) ++
  omap (λ i, if bool_decide (re_observed self !! i.1 = None) then Some (DeltaDelete i.1) else None)
    (map_to_list (re_original_observed self)).

(** ** The task: [TenantShard::reconcile] *)

(** The reconciler that [spawn_reconciler] starts for a shard *)
Definition spawned (self : TenantShard) (intent : TargetState) (detach : list Node)
    (warmup download : option Z) (hint : bool) : Reconciler :=
  {| re_shard := ts_shard self;
     re_placement_policy := ts_policy self;
     re_generation := ts_generation self;
     re_intent := intent;
     re_detach := detach;
     re_secondary_warmup_timeout := warmup;
     re_secondary_download_request_timeout := download;
     re_tenant_creation_hint := hint;
     re_config := ts_config self;
     re_observed := ts_observed self;
     re_original_observed := ts_observed self;
     re_compute_notify_failure := false |}.

Definition reconcile_task (order : list NodeId) (sequence : Sequence) (must_notify : bool) :
    RM ReconcileError ReconcileResult :=
  result ← attempt (reconcile order);
  let ok := match result with inl _ => true | inr _ => false end in
  _ ← (if ok && must_notify then _ ← attempt compute_notify; mret tt
       else if must_notify then modify_self (λ self, self <| re_compute_notify_failure := true |>)
       else mret tt);
  self ← get_self;
  mret (mkReconcileResult sequence ok (re_generation self) (observed_deltas self)
    (re_compute_notify_failure self)).

(** ** [Service::re_attach], for one shard *)

(** The row is written first; then the generation that was issued for [node_id] is taken over. *)
Definition re_attach_shard (node_id : NodeId) (new_gen : Generation) (shard : TenantShard) : TenantShard :=
  let shard := shard <| ts_generation := generation_max (ts_generation shard) (Some new_gen) |> in
  match ts_observed shard !! node_id with
  | Some (Some conf) =>
    shard <| ts_observed := <[node_id := Some (conf <| lc_generation := Generation_into new_gen |>)]> (ts_observed shard) |>
  | Some None => shard
  | None => shard <| ts_observed := <[node_id := None]> (ts_observed shard) |>
  end.
