(* ===== verification/ReconcilerProps.v ===== *)
(** * What the reconciler does

    Generations: a location is configured as attached, other than stale, only with a
    generation that was issued for its node. *)

From S2P Require Import Prelude Bytes Text Membership Ids Lsn Key Shard.
From S2P Require Import Scheduler IntentState TenantShard Reconciler.

(** ** Generations in the trace *)

(** The modes in which a pageserver writes to remote storage and answers computes; a stale
    location does so only until the new one is up. *)
Definition exclusive (mode : LocationConfigMode) : bool :=
  match mode with AttachedSingle | AttachedMulti => true | _ => false end.

(** The generation of the configuration was issued for the node. *)
Definition owned (tr : Trace) (n : NodeId) (c : LocationConfig) : Prop :=
  ∀ g, exclusive (lc_mode c) = true → lc_generation c = Some g → EvGeneration n g ∈ tr.

Record issued_ok (row : option ShardRow) (tr : Trace) : Prop := mkIssuedOk {
  iss_row : ∀ r g, row = Some r → row_generation r = Some g → 0 ≤ g ≤ i32_max;
  iss_bound : ∀ r n g, row = Some r → EvGeneration n g ∈ tr → g ≤ default (-1) (row_generation r);
  iss_unique : ∀ n n' g, EvGeneration n g ∈ tr → EvGeneration n' g ∈ tr → n = n';
  iss_nonneg : ∀ n g, EvGeneration n g ∈ tr → 0 ≤ g;
}.

(** A pageserver reports a configuration that was sent to it or one of a generation that was
    issued to it, when it attached again. *)
Definition reported (tr : Trace) (n : NodeId) (c : LocationConfig) : Prop :=
  (∃ r, EvLocationConfig n c r ∈ tr) ∨ (∃ g, lc_generation c = Some g ∧ EvGeneration n g ∈ tr).

Definition honest (e : EnvStep) : Prop :=
  ∀ tr n c, env_answer e tr _ (ReqGetLocationConfig n) = inl (Some c) → reported tr n c.

Definition sent_owned (tr : Trace) : Prop := ∀ n c r, EvLocationConfig n c r ∈ tr → owned tr n c.
Definition observed_owned (tr : Trace) (o : ObservedState) : Prop :=
  ∀ n c, o !! n = Some (Some c) → owned tr n c.

Record safe (s : Recon) : Prop := mkSafe {
  sf_issued : issued_ok (rc_row s) (rc_trace s);
  sf_sent : sent_owned (rc_trace s);
  sf_observed : observed_owned (rc_trace s) (re_observed (rc_self s));
  sf_env : Forall honest (rc_env s);
}.

Lemma owned_mono tr tr' n c : owned tr n c → tr `suffix_of` tr' → owned tr' n c.
Proof. intros Ho [l ->] g Hm Hg. apply elem_of_app. right. by apply Ho. Qed.

Lemma observed_owned_mono tr tr' o : observed_owned tr o → tr `suffix_of` tr' → observed_owned tr' o.
Proof. intros Ho Ht n c Hc. eapply owned_mono; [by apply Ho|done]. Qed.

Lemma owned_reported tr n c : sent_owned tr → reported tr n c → owned tr n c.
Proof. intros Hs [[r Hr]|(g & Hg & Hi)]; [by eapply Hs|]. intros g' _ Hg'. by simplify_eq. Qed.

Lemma observed_owned_insert tr o n loc :
  observed_owned tr o → (∀ c, loc = Some c → owned tr n c) → observed_owned tr (<[n := loc]> o).
Proof. intros Ho Hl k c. destruct (decide (k = n)) as [->|]; rewrite ?lookup_insert_eq, ?lookup_insert_ne by done; naive_solver. Qed.

Lemma observed_owned_delete tr o n : observed_owned tr o → observed_owned tr (delete n o).
Proof. intros Ho k c [_ Hc]%lookup_delete_Some. by apply Ho. Qed.

(** ** Writes to the row *)

Lemma sql_increment_spec og og' :
  sql_increment og = Some og' → og' = None ∧ og = None ∨ ∃ g, og = Some g ∧ g < i32_max ∧ og' = Some (g + 1).
Proof.
  unfold sql_increment. destruct og as [g|]; [|intros [= <-]; by left].
  destruct (Z.ltb_spec g i32_max); [|done]. intros [= <-]. right. by exists g.
Qed.

(** An update of the row: the generation is kept or incremented. *)
Definition advances (old new : ShardRow) : Prop :=
  row_generation new = row_generation old ∨
  ∃ g, row_generation old = Some g ∧ g < i32_max ∧ row_generation new = Some (g + 1).

Lemma row_increment_advances n old new : row_increment n old = Some new → advances old new.
Proof.
  unfold row_increment, advances. destruct (sql_increment _) as [og|] eqn:Hg; [|done]. simpl. intros [= <-]. simpl.
  apply sql_increment_spec in Hg as [[-> ->]|(g & -> & ? & ->)]; [by left|]. right. by exists g.
Qed.

Lemma row_write_advances w old new : row_write w old = Some new → advances old new.
Proof.
  destruct w as [n|n|]; simpl; [apply row_increment_advances| |intros [= <-]; by left].
  unfold row_re_attach, advances. case_bool_decide; [|intros [= <-]; by left].
  destruct (sql_increment _) as [og|] eqn:Hg; [|done]. simpl. intros [= <-]. simpl.
  apply sql_increment_spec in Hg as [[-> ->]|(g & -> & ? & ->)]; [by left|]. right. by exists g.
Qed.

Lemma issued_written old new tr :
  issued_ok (Some old) tr → (∀ row, new = Some row → advances old row) →
  let '(row, tr') := written old new tr in issued_ok (Some row) tr' ∧ tr `suffix_of` tr'.
Proof.
  intros [Hr Hb Hu Hn] Hadv. unfold written. destruct new as [new|]; [|by split].
  destruct (Hadv new eq_refl) as [Heq|(g & Hold & Hlt & Hnew)].
  - assert (Hok : issued_ok (Some new) tr).
    { split; [|intros r n g [= <-] Hi; rewrite Heq; by eapply Hb|done..]. intros r g [= <-] Hg. eapply Hr; [done|by rewrite <- Heq]. }
    rewrite Heq. destruct (row_generation old), (row_generation_pageserver new); [|by split..].
    by rewrite bool_decide_true.
  - rewrite Hnew, Hold. pose proof (Hr _ _ eq_refl Hold) as Hg.
    assert (Hw : wrap 32 (g + 1) = g + 1) by (unfold wrap; apply Z.mod_small; unfold i32_max in *; lia).
    assert (Hle : ∀ n g', EvGeneration n g' ∈ tr → g' ≤ g).
    { intros n g' Hi. pose proof (Hb _ _ _ eq_refl Hi) as Hle. by rewrite Hold in Hle. }
    destruct (row_generation_pageserver new) as [n|].
    + rewrite bool_decide_false by (intros [=]; lia). rewrite Hw. split; [|by apply suffix_cons_r].
      split.
      * intros r g' [= <-]. rewrite Hnew. intros [= <-]. lia.
      * intros r k g' [= <-] [[= -> ->]|Hi]%elem_of_cons; rewrite Hnew; simpl; [lia|]. specialize (Hle _ _ Hi). lia.
      * intros k k' g' [[= -> ->]|Hi]%elem_of_cons [[= ->]|Hi']%elem_of_cons; [done|apply Hle in Hi'; lia| |by eapply Hu].
        subst. apply Hle in Hi. lia.
      * intros k g' [[= -> ->]|Hi]%elem_of_cons; [lia|by eapply Hn].
    + split; [|done]. split; [|intros r k g' [= <-] Hi; rewrite Hnew; simpl; specialize (Hle _ _ Hi); lia|done..].
      intros r g' [= <-]. rewrite Hnew. intros [= <-]. lia.
Qed.

(** ** Progress of a task *)

(** What does not change while a reconciler runs *)
Definition same_task (r r' : Reconciler) : Prop :=
  r' = r <| re_generation := re_generation r' |> <| re_observed := re_observed r' |>
         <| re_compute_notify_failure := re_compute_notify_failure r' |>.

Lemma same_task_refl r : same_task r r.
Proof. by destruct r. Qed.

Lemma same_task_trans r r' r'' : same_task r r' → same_task r' r'' → same_task r r''.
Proof. unfold same_task. intros -> H. rewrite H. by destruct r''. Qed.

Lemma foldl_writes_env l : ∀ s, rc_env (foldl (λ s w, write_row (row_write w) s) s l) = rc_env s.
Proof.
  induction l as [|w l IH]; intros s; simpl; [done|]. rewrite IH. unfold write_row.
  destruct (rc_row s); [|done]. by destruct (written _ _ _).
Qed.

Lemma written_suffix old new tr : tr `suffix_of` (written old new tr).2.
Proof. unfold written. destruct new; [|done]. repeat case_match; simpl; try done. by apply suffix_cons_r. Qed.

Lemma written_configs old new tr n c r :
  EvLocationConfig n c r ∈ (written old new tr).2 → EvLocationConfig n c r ∈ tr.
Proof. unfold written. destruct new; [|done]. repeat case_match; simpl; try done. by intros [|]%elem_of_cons. Qed.

(** What [available] returns in the state that it leaves *)
Definition is_up (node : Node) (s : Recon) : bool := is_available node && bool_decide (n_id node ∉ rc_down s).

(** ** Loops *)

(** The fuel of [loop] is enough: it satisfies the equation of a loop. *)
Section loops.
Context {E A : Type} (body : RM E (option A)).
Hypothesis body_steps : ∀ s s', body s = (Ok None, s') → (length (rc_env s') < length (rc_env s))%nat.

Lemma iterate_fuel n : ∀ m s, (length (rc_env s) < n)%nat → (length (rc_env s) < m)%nat →
  iterate n body s = iterate m body s.
Proof.
  induction n as [|n IH]; intros [|m] s Hn Hm; try lia. simpl. unfold mbind, ST_bind.
  destruct (body s) as [[[a|]|e|] s'] eqn:Hb; try done. apply body_steps in Hb. apply IH; lia.
Qed.

Lemma loop_unfold s :
  loop body s = (r ← body; match r with Some a => mret a | None => loop body end) s.
Proof.
  unfold loop at 1. simpl. unfold mbind, ST_bind. destruct (body s) as [[[a|]|e|] s'] eqn:Hb; try done.
  apply body_steps in Hb. apply iterate_fuel; lia.
Qed.
End loops.

Lemma loop_spec {E A} (body : RM E (option A)) (I : Recon → Prop) Q s :
  I s →
  (∀ s, I s → wp body (λ r s',
    match r with
    | Ok (Some a) => Q (Ok a) s'
    | Ok None => I s' ∧ (length (rc_env s') < length (rc_env s))%nat
    | Err e => Q (Err e) s'
    | Panic => Q Panic s'
    end) s) →
  wp (loop body) Q s.
Proof.
  intros HI Hbody. unfold loop. change (wp (iterate (S (length (rc_env s))) body) Q s).
  assert (Hlt : (length (rc_env s) < S (length (rc_env s)))%nat) by lia. revert Hlt.
  generalize (S (length (rc_env s))) as n. intros n. revert s HI.
  induction n as [|n IH]; intros s HI Hlt; simpl; [lia|]. wp_step. eapply wp_mono; [by apply Hbody|].
  intros [[a|]|e|] s' Hr; [done| |done..]. destruct Hr as [HI' Hlt']. apply IH; [done|lia].
Qed.

Definition issue (ev : Event) : bool := match ev with EvGeneration _ _ => true | _ => false end.

(** The generation of the row *)
Definition bound (row : option ShardRow) : Z := default (-1) (row ≫= row_generation).

Lemma written_new old new tr :
  ∃ l, (written old new tr).2 = l ++ tr ∧ ∀ ev, ev ∈ l → issue ev = true.
Proof.
  unfold written. destruct new; [repeat case_match|]; simpl.
  2: { eexists [_]. split; [done|]. by intros ev ->%list_elem_of_singleton. }
  all: exists []; split; [done|]; by intros ev ?%elem_of_nil.
Qed.

Lemma written_bound old new tr :
  (∀ row, new = Some row → advances old row) → bound (Some old) ≤ bound (Some (written old new tr).1).
Proof.
  intros Hadv. unfold written, bound. destruct new as [new|]; [|done]. simpl.
  destruct (Hadv new eq_refl) as [->|(g & -> & _ & ->)]; simpl; lia.
Qed.

Lemma wp_attempt {E E' A} (m : RM E A) (Q : outcome (Interrupt E') (A + E) → Recon → Prop) s :
  wp m (λ r s', Q (match r with
                   | Ok a => Ok (inl a)
                   | Err (Failed e) => Ok (inr e)
                   | Err Suspended => Err Suspended
                   | Panic => Panic
                   end) s') s →
  wp (attempt m) Q s.
Proof. unfold wp, attempt. by destruct (m s) as [[a|[e|]|] s']. Qed.

(** [P] says whether the safety of the generations is followed, [C] which requests are made. *)
Section progress.
Context (P : Prop) (C : Event → Prop).

Definition ok (s : Recon) : Prop := P → safe s.

Record goes (s s' : Recon) : Prop := mkGoes {
  go_ok : ok s';
  go_new : ∃ l, rc_trace s' = l ++ rc_trace s ∧ ∀ ev, ev ∈ l → issue ev = true ∨ C ev;
  go_task : same_task (rc_self s) (rc_self s');
  go_env : rc_env s' `suffix_of` rc_env s;
  go_down : rc_down s ⊆ rc_down s';
  go_row : bound (rc_row s) ≤ bound (rc_row s');
  go_flag : re_compute_notify_failure (rc_self s) = true → re_compute_notify_failure (rc_self s') = true;
}.

Lemma go_trace s s' : goes s s' → rc_trace s `suffix_of` rc_trace s'.
Proof. intros [_ (l & -> & _) _ _ _ _ _]. by exists l. Qed.

Lemma nothing_new s s' : rc_trace s' = rc_trace s →
  ∃ l, rc_trace s' = l ++ rc_trace s ∧ ∀ ev, ev ∈ l → issue ev = true ∨ C ev.
Proof. intros ->. exists []. split; [done|]. by intros ev ?%elem_of_nil. Qed.

Lemma goes_refl s : ok s → goes s s.
Proof. intros Hs. split; [done|by apply nothing_new|apply same_task_refl|done..]. Qed.

#[export] Instance goes_trans : Transitive goes.
Proof.
  intros s s' s'' [H1 (l & Hl & HC) H3 H4 H5 H6 H7] [H1' (l' & Hl' & HC') H3' H4' H5' H6' H7'].
  split; [done| |by eapply same_task_trans|by etrans|by etrans|by etrans|auto].
  exists (l' ++ l). split; [by rewrite Hl', Hl, app_assoc|]. intros ev [|]%elem_of_app; auto.
Qed.

(** The environment moved, the reconciler did not. *)
Definition quiet (s s' : Recon) : Prop := goes s s' ∧ rc_self s' = rc_self s.

Lemma quiet_refl s : ok s → quiet s s.
Proof. intros Hs. by split; [apply goes_refl|]. Qed.

#[export] Instance quiet_trans : Transitive quiet.
Proof. intros s s' s'' [H Hs] [H' Hs']. split; [by etrans|congruence]. Qed.

Lemma quiet_write_row f s :
  ok s → (∀ old new, f old = Some new → advances old new) → quiet s (write_row f s).
Proof.
  intros Hok Hf. unfold write_row. destruct (rc_row s) as [row|] eqn:Hrow; [|by apply quiet_refl].
  pose proof (issued_written row (f row) (rc_trace s)) as Hi.
  pose proof (written_suffix row (f row) (rc_trace s)) as Hext.
  pose proof (written_configs row (f row) (rc_trace s)) as Hcf.
  pose proof (written_new row (f row) (rc_trace s)) as Hnew.
  pose proof (written_bound row (f row) (rc_trace s) (λ new, Hf row new)) as Hbd.
  destruct (written _ _ _) as [row' tr]. simpl in *.
  split; [|done]. split; simpl; [| |apply same_task_refl|done|done|by rewrite Hrow|done].
  2: { destruct Hnew as (l & -> & Hl). exists l. split; [done|]. intros ev ?. left. by apply Hl. }
  intros [His Hs Ho He]%Hok. rewrite Hrow in His. destruct Hi as [Hi _]; [done|by auto|].
  split; simpl; [done| |by eapply observed_owned_mono|done].
  intros n c r Hin. eapply owned_mono; [|exact Hext]. by eapply Hs, Hcf.
Qed.

Lemma quiet_writes l : ∀ s, ok s → quiet s (foldl (λ s w, write_row (row_write w) s) s l).
Proof.
  induction l as [|w l IH]; intros s Hs; simpl; [by apply quiet_refl|].
  pose proof (quiet_write_row (row_write w) s Hs (row_write_advances w)) as Hw. etrans; [exact Hw|]. apply IH, Hw.
Qed.

Lemma env_step_spec {E} s :
  ok s →
  wp (env_step (E := E)) (λ r s', quiet s s' ∧
    match r with
    | Ok e => e ∈ rc_env s ∧ length (rc_env s) = S (length (rc_env s'))
    | Err i => i = Suspended
    | Panic => False
    end) s.
Proof.
  intros Hok. unfold wp, env_step. destruct (rc_env s) as [|e env] eqn:He; simpl; [by split; [apply quiet_refl|]|].
  split; [|split; [by left|by rewrite foldl_writes_env]]. etrans; [|apply quiet_writes].
  - split; [|done]. split; simpl; [|by apply nothing_new|apply same_task_refl|rewrite He; by apply suffix_cons_r|set_solver|done|done].
    intros [? ? ? Hh]%Hok. split; simpl; [done..|]. rewrite He in Hh. by apply Forall_inv_tail in Hh.
  - intros [? ? ? Hh]%Hok. split; simpl; [done..|]. rewrite He in Hh. by apply Forall_inv_tail in Hh.
Qed.

(** What a request needs for the trace to stay safe *)
Definition sendable {R} (tr : Trace) (q : Request R) : Prop :=
  match q with ReqLocationConfig n c _ _ => P → owned tr n c | _ => True end.

Lemma sendable_mono {R} tr tr' (q : Request R) : sendable tr q → tr `suffix_of` tr' → sendable tr' q.
Proof. destruct q; simpl; try done. intros H ? ?. eapply owned_mono; auto. Qed.

(** [a] is the answer to [q] of a step of the environment, the last that happened. *)
Definition answered {R} (s : Recon) (q : Request R) (a : R) (s' : Recon) : Prop :=
  ∃ e tr, e ∈ rc_env s ∧ a = env_answer e tr _ q ∧ rc_trace s' = event q a :: tr ∧ rc_trace s `suffix_of` tr.

Lemma quiet_record ev s :
  ok s → issue ev = false → (∀ n c r, ev = EvLocationConfig n c r → P → owned (rc_trace s) n c) → C ev →
  quiet s (s <| rc_trace := ev :: rc_trace s |>).
Proof.
  intros Hok Hi Hq HC. split; [|done]. split; simpl; [| |apply same_task_refl|done..].
  2: { exists [ev]. split; [done|]. intros ev' ->%list_elem_of_singleton. by right. }
  assert (Hold : ∀ n g, EvGeneration n g ∈ ev :: rc_trace s → EvGeneration n g ∈ rc_trace s).
  { intros n g [<-|]%elem_of_cons; done. }
  intros HP. destruct (Hok HP) as [[Hr Hb Hu Hn] Hs Ho He]. split; simpl; [split; [done|eauto..]| | |done].
  - intros n c r [Heq|Hin]%elem_of_cons; (eapply owned_mono; [|by apply suffix_cons_r]); [by eapply Hq|by eapply Hs].
  - eapply observed_owned_mono; [done|by apply suffix_cons_r].
Qed.

Lemma quiet_event {R} (q : Request R) a s :
  ok s → sendable (rc_trace s) q → C (event q a) → quiet s (s <| rc_trace := event q a :: rc_trace s |>).
Proof.
  intros Hok Hq HC. apply quiet_record; [done|by destruct q| |done]. intros n c r Heq. by destruct q; simplify_eq/=.
Qed.

Lemma request_spec {E R} (q : Request R) s :
  ok s → sendable (rc_trace s) q → (∀ a, C (event q a)) →
  wp (request (E := E) q) (λ r s', quiet s s' ∧
    match r with
    | Ok a => answered s q a s' ∧ (length (rc_env s') < length (rc_env s))%nat
    | Err i => i = Suspended
    | Panic => False
    end) s.
Proof.
  intros Hok Hq HC. unfold request. wp_step. eapply wp_mono; [by apply env_step_spec|]. intros r s1 [Hs1 Hr].
  destruct r as [e|i|]; [|done..]. destruct Hr as [He Hlen]. wp_steps. pose proof (go_ok _ _ (proj1 Hs1)) as Hok1. pose proof (go_trace _ _ (proj1 Hs1)) as Hext.
  split; [|split; [by exists e, (rc_trace s1)|simpl; lia]].
  etrans; [exact Hs1|]. apply quiet_event; [done|by eapply sendable_mono|done].
Qed.

Lemma available_spec {E} node s :
  ok s →
  wp (available (E := E) node) (λ r s', quiet s s' ∧
    match r with Ok b => b = is_up node s' ∧ (length (rc_env s') < length (rc_env s))%nat
    | Err i => i = Suspended | Panic => False end) s.
Proof.
  intros Hok. unfold available. wp_step. eapply wp_mono; [by apply env_step_spec|]. intros r s1 [Hs1 Hr].
  destruct r as [e|i|]; [|done..]. wp_steps. split; [done|]. split; [done|lia].
Qed.

Lemma is_cancelled_spec {E} s :
  ok s →
  wp (is_cancelled (E := E)) (λ r s', quiet s s' ∧
    match r with Ok _ => (length (rc_env s') < length (rc_env s))%nat | Err i => i = Suspended | Panic => False end) s.
Proof.
  intros Hok. unfold is_cancelled. wp_step. eapply wp_mono; [by apply env_step_spec|]. intros r s1 [Hs1 Hr].
  destruct r as [e|i|]; [|done..]. wp_steps. split; [done|]. lia.
Qed.

(** ** Retries *)

Lemma retry_from_spec {E T Er} (perm : Er → bool) warn max (op : RM E (T + Er)) (A : Recon → T + Er → Recon → Prop) :
  (∀ s0 s a s', quiet s0 s → A s a s' → A s0 a s') →
  ∀ fuel attempts s0 s, ok s → quiet s0 s →
  (∀ s, ok s → quiet s0 s → wp op (λ r s', quiet s s' ∧ match r with Ok a => A s a s' | Err i => i = Suspended | Panic => False end) s) →
  Z.max warn max < Z.of_nat fuel + attempts → (0 < fuel)%nat →
  wp (retry_from fuel attempts warn max perm op) (λ r s', quiet s0 s' ∧
    match r with
    | Ok (Some a) => A s0 a s' ∧ (length (rc_env s') < length (rc_env s))%nat
    | Ok None => (length (rc_env s') < length (rc_env s))%nat
    | Err i => i = Suspended
    | Panic => False
    end) s.
Proof.
  intros HA. induction fuel as [|fuel IH]; intros attempts s0 s Hok H0 Hop Hfuel Hpos; [lia|]. simpl.
  wp_step. eapply wp_mono; [by apply is_cancelled_spec|]. intros [c|i|] s1 [Hs1 Hr]; [|by split; [etrans|]|done].
  assert (H01 : quiet s0 s1) by (by etrans). pose proof Hs1 as [[Hok1 _ _ Hsuf1 _ _ _] _].
  destruct c; [wp_steps; done|]. wp_step. eapply wp_mono; [by apply Hop|].
  intros [a|i|] s2 [Hs2 Hr2]; [|by split; [etrans|]|done].
  assert (H02 : quiet s0 s2) by (by etrans). pose proof Hs2 as [[Hok2 _ _ Hsuf2 _ _ _] _]. apply suffix_length in Hsuf2.
  assert (Hdone : quiet s0 s2 ∧ A s0 a s2 ∧ (length (rc_env s2) < length (rc_env s))%nat) by (split; [done|split; [exact (HA _ _ _ _ H01 Hr2)|lia]]).
  destruct a as [t|e]; [wp_steps; done|]. destruct (perm e); [wp_steps; done|].
  destruct ((attempts <? warn) || (attempts <? max)) eqn:Hmore; [|wp_steps; done].
  eapply wp_mono; [apply (IH (attempts + 1) s0 s2); [done..|lia|]|].
  - destruct (Z.ltb_spec attempts warn), (Z.ltb_spec attempts max); simpl in Hmore; try done; lia.
  - intros [[b|]|i|] s3 [H3 Hr3]; (split; [done|]); try done; [|lia]. destruct Hr3. split; [done|lia].
Qed.

Lemma with_client_retries_spec {E T} warn max (q : Request (T + MgmtError)) s :
  ok s → sendable (rc_trace s) q → (∀ a, C (event q a)) →
  wp (with_client_retries (E := E) warn max q) (λ r s', quiet s s' ∧
    match r with
    | Ok (Some a) => answered s q a s' ∧ (length (rc_env s') < length (rc_env s))%nat
    | Ok None => (length (rc_env s') < length (rc_env s))%nat
    | Err i => i = Suspended
    | Panic => False
    end) s.
Proof.
  intros Hok Hq HC. unfold with_client_retries, retry.
  apply (retry_from_spec is_fatal warn max (request q) (λ s a s', answered s q a s')); [|done|by apply quiet_refl|..|lia|lia].
  - intros s0 s1 a s' [Hg _] (e & tr & He & Ha & Htr & Hs). exists e, tr.
    split; [|split; [done|split; [done|etrans; [by apply go_trace|done]]]]. eapply elem_of_suffix; [done|apply Hg].
  - intros s1 Hok1 [Hg%go_trace _]. eapply wp_mono; [apply request_spec; [done|by eapply sendable_mono|done]|].
    intros [a|i|] s' [Hs' Hr]; [by destruct Hr|done..].
Qed.

(** ** Calls *)

Lemma goes_self s r :
  ok s → same_task (rc_self s) r → (P → observed_owned (rc_trace s) (re_observed r)) →
  (re_compute_notify_failure (rc_self s) = true → re_compute_notify_failure r = true) → goes s (s <| rc_self := r |>).
Proof. intros Hok Ht Ho Hf. split; simpl; [|by apply nothing_new|done..]. intros HP. destruct (Hok HP) as [? ? ? ?]. split; simpl; auto. Qed.

Lemma ok_observed s : ok s → P → observed_owned (rc_trace s) (re_observed (rc_self s)).
Proof. intros Hok HP. by destruct (Hok HP). Qed.

Lemma goes_insert s n loc :
  ok s → (∀ c, loc = Some c → P → owned (rc_trace s) n c) →
  goes s (s <| rc_self := rc_self s <| re_observed := <[n := loc]> (re_observed (rc_self s)) |> |>).
Proof. intros Hok Hl. apply goes_self; [done|done| |done]. intros HP. apply observed_owned_insert; [by apply ok_observed|auto]. Qed.

Lemma goes_delete s n :
  ok s → goes s (s <| rc_self := rc_self s <| re_observed := delete n (re_observed (rc_self s)) |> |>).
Proof. intros Hok. apply goes_self; [done|done| |done]. intros HP. by apply observed_owned_delete, ok_observed. Qed.

(** The observed locations after a configuration was accepted *)
Definition configured (n : NodeId) (c : LocationConfig) (o : ObservedState) : ObservedState :=
  match lc_mode c with LocDetached => delete n o | _ => <[n := Some c]> o end.

Definition location_config_post (node : Node) (c : LocationConfig) (s : Recon) (r : outcome (Interrupt ReconcileError) unit)
    (s' : Recon) : Prop :=
  let o := re_observed (rc_self s) in
  match r with
  | Ok _ =>
    lc_mode c = LocDetached ∧ rc_self s' = rc_self s ∧ is_up node s' = false ∨
    rc_self s' = rc_self s <| re_observed := configured (n_id node) c o |> ∧
      ∃ tr, rc_trace s' = EvLocationConfig (n_id node) c (inl tt) :: tr ∧ rc_trace s `suffix_of` tr
  | Err _ => rc_self s' = rc_self s ∨ rc_self s' = rc_self s <| re_observed := <[n_id node := None]> o |>
  | Panic => False
  end.

Lemma location_config_spec node c flush_ms lazy s :
  ok s → (P → owned (rc_trace s) (n_id node) c) → (∀ a, C (EvLocationConfig (n_id node) c a)) →
  wp (location_config node c flush_ms lazy) (λ r s', goes s s' ∧ location_config_post node c s r s') s.
Proof.
  intros Hok Ho HC. unfold location_config. wp_step.
  assert (Hup : wp (if bool_decide (lc_mode c = LocDetached) then available node else mret true) (λ (r : outcome (Interrupt ReconcileError) bool) s', quiet s s' ∧
    match r with Ok b => b = true ∨ lc_mode c = LocDetached ∧ is_up node s' = false | Err _ => True | Panic => False end) s).
  { case_bool_decide; [|apply wp_ret; split; [by apply quiet_refl|by left]].
    eapply wp_mono; [by apply available_spec|]. intros [b|i|] s1 [Hs1 Hr]; [|done..]. split; [done|].
    destruct Hr as [-> _]. destruct (is_up node s1); [by left|by right]. }
  eapply wp_mono; [exact Hup|]. clear Hup. intros [b|i|] s1 [[Hs1 Hself] Hr]; [|by split; [|left]|done].
  destruct b; simpl; [|destruct Hr as [|[Hm Hd]]; [done|]; wp_steps; split; [done|by left]].
  wp_step. unfold insert_observed, modify_self. wp_step.
  pose proof (go_ok _ _ Hs1) as Hok1. pose proof (goes_insert s1 (n_id node) None Hok1 ltac:(done)) as Hg.
  revert Hg. set (s2 := s1 <| rc_self := _ |>). intros Hg. assert (Hg2 : goes s s2) by (by etrans).
  assert (Hobs : rc_self s2 = rc_self s <| re_observed := <[n_id node := None]> (re_observed (rc_self s)) |>) by (subst s2; simpl; by rewrite Hself).
  assert (Hown : P → owned (rc_trace s2) (n_id node) c) by (intros HP; eapply owned_mono; [by apply Ho|by apply go_trace]).
  clearbody s2. wp_step. eapply wp_mono; [apply with_client_retries_spec; [apply Hg2|exact Hown|exact HC]|].
  intros [r|i|] s3 [[Hs3 Hself3] Hr3]; [|split; [by etrans|right; congruence]|done].
  assert (Hg3 : goes s s3) by (by etrans). assert (Hself3' := eq_trans Hself3 Hobs). clear Hself3.
  assert (Hown3 : P → owned (rc_trace s3) (n_id node) c) by (intros HP; eapply owned_mono; [by apply Ho|by apply go_trace]).
  destruct r as [[[]|e]|]; [|wp_steps; by split; [|right]..].
  destruct Hr3 as [(e & tr & _ & _ & Htr & Hsuf) _]. wp_step. wp_step.
  assert (Hpost : ∀ o, o = configured (n_id node) c (re_observed (rc_self s)) →
    goes s3 (s3 <| rc_self := rc_self s3 <| re_observed := o |> |>) →
    goes s (s3 <| rc_self := rc_self s3 <| re_observed := o |> |>) ∧
    location_config_post node c s (Ok tt) (s3 <| rc_self := rc_self s3 <| re_observed := o |> |>)).
  { intros o -> Hg4. split; [by etrans|]. right. simpl. split; [by rewrite Hself3'|].
    exists tr. split; [exact Htr|]. etrans; [exact (go_trace _ _ Hg2)|exact Hsuf]. }
  unfold insert_observed, modify_self. unfold configured in Hpost.
  destruct (lc_mode c); wp_step; (apply Hpost; [rewrite Hself3'; simpl; by rewrite ?insert_insert_eq, ?delete_insert_eq|]).
  1-4: apply goes_insert; [apply Hg3|intros ? [= <-]; exact Hown3].
  apply goes_delete, Hg3.
Qed.

Lemma write_increment n g row s :
  rc_row s = Some row → row_generation row = Some g → g < i32_max →
  write_row (row_increment n) s =
    s <| rc_row := Some (mkShardRow (Some (g + 1)) (Some n)) |> <| rc_trace := EvGeneration n (wrap 32 (g + 1)) :: rc_trace s |>.
Proof.
  intros Hrow Hg Hlt. unfold write_row, row_increment, sql_increment. rewrite Hrow, Hg.
  rewrite (proj2 (Z.ltb_lt _ _) Hlt). simpl. rewrite Hg, bool_decide_false; [done|]. intros [=]; lia.
Qed.

(** The generation that is returned was issued for the node, and is higher than before. *)
Lemma increment_generation_spec n s :
  ok s → (∀ a, C (EvIncrement n a)) →
  wp (increment_generation n) (λ r s', quiet s s' ∧
    match r with
    | Ok gen => ∃ g, gen = GenValid g ∧ EvGeneration n g ∈ rc_trace s' ∧ (P → bound (rc_row s) < g)
    | Err _ => True
    | Panic => False
    end) s.
Proof.
  intros Hok HC. unfold increment_generation, fail. wp_step.
  eapply wp_mono; [apply (request_spec (ReqIncrement n)); done|]. intros [a|i|] s1 [Hs1 Hr]; [|done..]. clear Hr.
  pose proof (go_ok _ _ (proj1 Hs1)) as Hok1.
  pose proof (quiet_write_row (row_increment n) s1 Hok1 (row_increment_advances n)) as Hw.
  assert (Hs2 : quiet s (write_row (row_increment n) s1)) by (by etrans).
  destruct a; [by wp_steps|wp_step; wp_step; by wp_step|]. wp_step. wp_step.
  destruct (rc_row s1) as [row|] eqn:Hrow; simpl; [|by wp_steps].
  destruct (row_increment n row) as [row'|] eqn:Hinc; simpl; [|by wp_steps]. wp_step. wp_step.
  unfold row_increment in Hinc. destruct (sql_increment (row_generation row)) as [og|] eqn:Hsql; [|done].
  simplify_eq/=. apply sql_increment_spec in Hsql as [[-> _]|(g & Hg & Hlt & ->)]; wp_step; [done|].
  split; [done|]. exists (wrap 32 (g + 1)). split; [done|]. rewrite (write_increment n g row s1) by done. simpl.
  split; [by left|]. intros HP. destruct (iss_row _ _ (sf_issued _ (Hok1 HP)) _ _ Hrow Hg).
  pose proof (go_row _ _ (proj1 Hs1)) as Hb. rewrite Hrow in Hb. unfold bound in Hb at 2. simpl in Hb. rewrite Hg in Hb.
  unfold wrap. rewrite Z.mod_small by (unfold i32_max in *; lia). simpl in Hb. lia.
Qed.

Lemma get_lsns_spec node s :
  ok s → (∀ a, C (EvTimelineList (n_id node) a)) →
  wp (get_lsns node) (λ r s', quiet s s' ∧
    match r with
    | Ok lsns => ∃ tr, rc_trace s' = EvTimelineList (n_id node) (inl lsns) :: tr ∧ rc_trace s `suffix_of` tr
    | Err _ => True
    | Panic => False
    end) s.
Proof.
  intros Hok HC. unfold get_lsns, fail. wp_step. eapply wp_mono; [by apply (request_spec (ReqTimelineList (n_id node)))|].
  intros [a|i|] s1 [Hs1 Ha]; [|done..]. destruct Ha as [(e & tr & _ & _ & Htr & Hsuf) _].
  destruct a as [lsns|e']; [|by wp_steps]. wp_steps. split; [done|]. by exists tr.
Qed.

Lemma secondary_download_spec node s :
  ok s → (∀ a, C (EvSecondaryDownload (n_id node) a)) → (∀ ms, C (EvElapsed ms)) →
  wp (secondary_download node) (λ r s', quiet s s' ∧ match r with Panic => False | _ => True end) s.
Proof.
  intros Hok HC1 HC2. unfold secondary_download, get_self. do 4 wp_step.
  apply (loop_spec _ (λ s', quiet s s')); [by apply quiet_refl|]. intros s1 Hs1. wp_step.
  pose proof (go_ok _ _ (proj1 Hs1)) as Hok1.
  eapply wp_mono; [by apply with_client_retries_spec|].
  intros [a|i|] s2 [Hs2 Ha]; [|by split; [etrans|]|done]. assert (H2 : quiet s s2) by (by etrans).
  destruct a as [[status|e]|]; [|by wp_steps..]. destruct Ha as [_ Hlen].
  wp_step; [by wp_steps|]. wp_step; [|by wp_steps].
  wp_step. eapply wp_mono; [by apply (request_spec ReqElapsed), HC2; [apply Hs2|]|].
  intros [ms|i|] s3 [Hs3 Hr3]; [|by split; [etrans|]|done]. wp_step. destruct Hr3 as [_ Hlen3].
  assert (H3 : quiet s s3) by (by etrans). case_match; [done|]. split; [done|lia].
Qed.

(** The destination has caught up with the origin, as far as the last answer says. *)
Definition caught_up (n : NodeId) (baseline : gmap TimelineId Lsn) (ev : Event) : Prop :=
  ev = EvWaitLsn n baseline (inl STATUS_OK) ∨
  ∃ latest, ev = EvTimelineList n (inl latest) ∧ any_behind baseline latest = false.

Lemma await_lsn_spec node baseline s :
  ok s → (∀ a, C (EvWaitLsn (n_id node) baseline a)) → (∀ a, C (EvTimelineList (n_id node) a)) →
  wp (await_lsn node baseline) (λ r s', quiet s s' ∧
    match r with
    | Ok _ => ∃ ev tr, rc_trace s' = ev :: tr ∧ rc_trace s `suffix_of` tr ∧ caught_up (n_id node) baseline ev
    | Err _ => True
    | Panic => False
    end) s.
Proof.
  intros Hok HC1 HC2. unfold await_lsn, fail. wp_step.
  apply (loop_spec _ (λ s', quiet s s')); [by apply quiet_refl|]. intros s1 Hs1. wp_step.
  eapply wp_mono; [apply is_cancelled_spec, Hs1|]. intros [c|i|] s2 [Hs2 Hr2]; [|by split; [etrans|]|done].
  assert (H2 : quiet s s2) by (by etrans). destruct c; [by wp_steps|]. wp_step.
  eapply wp_mono; [by apply (request_spec (ReqWaitLsn (n_id node) baseline)); [apply Hs2|..]|].
  intros [a|i|] s3 [Hs3 Hr3]; [|by split; [etrans|]|done]. assert (H3 : quiet s s3) by (by etrans). wp_step.
  destruct Hr3 as [(e & tr & _ & _ & Htr & Hsuf) Hlen]. destruct a as [status|e']; [|split; [done|lia]].
  destruct (Z.eqb_spec status STATUS_OK) as [->|].
  { wp_step. split; [done|]. eexists _, tr. split; [exact Htr|]. split; [|by left].
    etrans; [exact (go_trace _ _ (proj1 H2))|done]. }
  clear - HC2 H3. apply (loop_spec _ (λ s', quiet s s')); [done|]. intros s4 Hs4. wp_step.
  eapply wp_mono; [apply is_cancelled_spec, Hs4|]. intros [c|i|] s5 [Hs5 Hr5]; [|by split; [etrans|]|done].
  assert (H5 : quiet s s5) by (by etrans). destruct c; [by wp_steps|]. wp_step.
  eapply wp_mono; [by apply (request_spec (ReqTimelineList (n_id node))); [apply Hs5|..]|].
  intros [a|i|] s6 [Hs6 Hr6]; [|by split; [etrans|]|done]. assert (H6 : quiet s s6) by (by etrans). wp_step.
  destruct Hr6 as [(e & tr & _ & _ & Htr & Hsuf) Hlen]. destruct a as [latest|e']; [|split; [done|lia]].
  destruct (any_behind baseline latest) eqn:Hb; [split; [done|lia]|]. split; [done|].
  eexists _, tr. split; [exact Htr|]. split; [etrans; [exact (go_trace _ _ (proj1 H5))|done]|]. right. by exists latest.
Qed.

(** ** Notifications *)

Definition flagged (r : Reconciler) : Reconciler := r <| re_compute_notify_failure := true |>.

Lemma goes_flagged s : ok s → goes s (s <| rc_self := flagged (rc_self s) |>).
Proof. intros Hok. apply goes_self; [done|by unfold same_task; destruct (rc_self s)| |done]. by apply ok_observed. Qed.

(** [compute_notify] returned [Ok]: the notification was accepted, or it was refused as
    unknown while the tenant is created. *)
Definition told (s : Recon) (dest : Node) (s' : Recon) : Prop :=
  ∃ a tr, rc_trace s' = EvNotify (n_id dest) a :: tr ∧ rc_trace s `suffix_of` tr ∧
    (a = inl tt ∨
     a = inr (NotifyUnexpected STATUS_NOT_FOUND) ∧ re_tenant_creation_hint (rc_self s) = true ∧
     re_compute_notify_failure (rc_self s') = true ∧ re_tenant_creation_hint (rc_self s') = true).

Definition notify_post (s : Recon) (r : outcome (Interrupt NotifyError) unit) (s' : Recon) : Prop :=
  match tgt_attached (re_intent (rc_self s)) with
  | None => r = Ok tt ∧ s' = s
  | Some dest =>
    (rc_self s' = rc_self s ∨ rc_self s' = flagged (rc_self s)) ∧
    match r with
    | Ok _ => told s dest s' ∧ (length (rc_env s') < length (rc_env s))%nat
    | Err (Failed e) => rc_self s' = flagged (rc_self s) ∧ (length (rc_env s') < length (rc_env s))%nat
    | Err Suspended => True
    | Panic => False
    end
  end.

Lemma compute_notify_spec s :
  ok s → (∀ n a, C (EvNotify n a)) → wp compute_notify (λ r s', goes s s' ∧ notify_post s r s') s.
Proof.
  intros Hok HC. unfold compute_notify, get_self, modify_self, notify_post, fail. do 4 wp_step.
  destruct (tgt_attached _) as [dest|]; [|wp_step; split; [by apply goes_refl|done]].
  wp_step. eapply wp_mono; [apply (request_spec (ReqNotify (n_id dest))); [done|done|exact (HC _)]|].
  intros [a|i|] s1 [[Hg Hself] Hr]; [| |done]; [|subst; by auto].
  destruct Hr as [(e & tr & _ & _ & Htr & Hsuf) Hlen].
  destruct a as [[]|e']; [wp_step; split; [done|]; split; [by left|]; split; [|done]; eexists _, tr; by eauto|].
  wp_step. wp_step. pose proof (goes_flagged s1 (go_ok _ _ Hg)) as Hg'. revert Hg'. unfold flagged. set (s2 := s1 <| rc_self := _ |>).
  intros Hg'. assert (Hg2 : goes s s2) by (by etrans).
  assert (Hs2 : rc_self s2 = flagged (rc_self s)) by (subst s2; simpl; by rewrite Hself).
  assert (Htr2 : rc_trace s2 = EvNotify (n_id dest) (inr e') :: tr) by done.
  assert (Hlen2 : (length (rc_env s2) < length (rc_env s))%nat) by done. clearbody s2.
  destruct e' as [| | | |status| | |]; try (wp_step; by auto).
  destruct (_ && _) eqn:Hb; [|wp_step; by auto]. bool_prop. subst status. wp_step.
  split; [done|]. split; [by right|]. split; [|done]. eexists _, tr. split; [exact Htr2|]. split; [done|].
  right. split; [done|]. split; [done|]. by rewrite Hs2.
Qed.

(** The origin of a migration does not serve the shard any more. *)
Definition gone (a : option LocationConfig + MgmtError) : bool :=
  match a with
  | inl (Some location_conf) => negb (is_attached_mode (lc_mode location_conf))
  | inl None | inr MgmtCancelled => true
  | inr (MgmtApiError status) => status =? STATUS_NOT_FOUND
  | inr _ => false
  end.

(** The computes were told of the destination, or the origin is of no use to them, and the
    notification is to be repeated. *)
Definition let_go (s : Recon) (origin dest : Node) (s' : Recon) : Prop :=
  told s dest s' ∨
  re_compute_notify_failure (rc_self s') = true ∧
  (is_up origin s' = false ∨
   ∃ a tr, rc_trace s' = EvGetLocationConfig (n_id origin) a :: tr ∧ rc_trace s `suffix_of` tr ∧ gone a = true).

Lemma origin_gone_spec (r : option (option LocationConfig + MgmtError)) s Q :
  (∀ a, r = Some a → Q (Ok (gone a)) s) → (r = None → Q (Err (Failed ErrCancel)) s) → wp (origin_gone r) Q s.
Proof. intros H1 H2. unfold origin_gone, fail. destruct r as [[[]|[]]|]; wp_step; auto; by apply (H1 _ eq_refl). Qed.

Lemma told_mono s0 s dest s' :
  goes s0 s → rc_self s = rc_self s0 ∨ rc_self s = flagged (rc_self s0) → told s dest s' → told s0 dest s'.
Proof.
  intros Hg Hself (a & tr & Htr & Hsuf & Ha). exists a, tr. split; [done|].
  split; [etrans; [exact (go_trace _ _ Hg)|done]|]. destruct Ha as [|(? & Hh & ?)]; [by left|right]. split; [done|].
  split; [|done]. destruct Hself as [Hself|Hself]; by rewrite Hself in Hh.
Qed.

Lemma compute_notify_blocking_spec origin dest s :
  ok s → tgt_attached (re_intent (rc_self s)) = Some dest →
  (∀ n a, C (EvNotify n a)) → (∀ a, C (EvGetLocationConfig (n_id origin) a)) →
  wp (compute_notify_blocking origin) (λ r s', goes s s' ∧
    (rc_self s' = rc_self s ∨ rc_self s' = flagged (rc_self s)) ∧
    match r with Ok _ => let_go s origin dest s' | Err _ => True | Panic => False end) s.
Proof.
  intros Hok Hdest HC1 HC2. unfold compute_notify_blocking, fail.
  apply (loop_spec _ (λ s', goes s s' ∧ (rc_self s' = rc_self s ∨ rc_self s' = flagged (rc_self s)))); [by split; [apply goes_refl|left]|].
  intros s1 [Hg1 Hself1]. wp_step. apply wp_attempt. eapply wp_mono; [by apply compute_notify_spec; [apply Hg1|]|].
  intros r s2 [Hg2 Hr]. assert (H2 : goes s s2) by (by etrans). unfold notify_post in Hr.
  assert (Hdest1 : tgt_attached (re_intent (rc_self s1)) = Some dest) by (by destruct Hself1 as [-> | ->]).
  rewrite Hdest1 in Hr. destruct Hr as [Hself2 Hr].
  assert (Hself : rc_self s2 = rc_self s ∨ rc_self s2 = flagged (rc_self s)).
  { destruct Hself1 as [H|H], Hself2 as [H'|H']; rewrite H', H; auto. }
  destruct r as [[]|[e|]|]; [|clear Hself2|done..].
  { wp_step. split; [done|]. split; [done|]. left. by eapply told_mono; [| |apply Hr]. }
  destruct Hr as [Hfl Hlen]. assert (Hfl2 : rc_self s2 = flagged (rc_self s)).
  { rewrite Hfl. by destruct Hself1 as [-> | ->]. }
  clear Hself Hfl. assert (Hretry : wp (is_up ← available origin; if negb is_up then mret (Some tt)
      else r ← with_client_retries 1 3 (ReqGetLocationConfig (n_id origin)); gone ← origin_gone r; mret (if (gone : bool) then Some tt else None))
    (λ (r : outcome (Interrupt ReconcileError) (option unit)) s', match r with
      | Ok (Some _) => goes s s' ∧ (rc_self s' = rc_self s ∨ rc_self s' = flagged (rc_self s)) ∧ let_go s origin dest s'
      | Ok None => (goes s s' ∧ (rc_self s' = rc_self s ∨ rc_self s' = flagged (rc_self s))) ∧ (length (rc_env s') < length (rc_env s1))%nat
      | Err _ => goes s s' ∧ (rc_self s' = rc_self s ∨ rc_self s' = flagged (rc_self s)) ∧ True
      | Panic => goes s s' ∧ (rc_self s' = rc_self s ∨ rc_self s' = flagged (rc_self s)) ∧ False
      end) s2).
  { wp_step. eapply wp_mono; [apply available_spec, H2|]. intros [b|i|] s3 [[Hg3 Hs3] Hr3]; [| |done].
    2: { split; [by etrans|]. split; [right; congruence|done]. }
    assert (H3 : goes s s3) by (by etrans). destruct Hr3 as [-> Hlen3].
    assert (Hs3' : rc_self s3 = flagged (rc_self s)) by congruence.
    destruct (is_up origin s3) eqn:Hup; simpl; [|wp_step; split; [done|]; split; [by right|]; right; rewrite Hs3'; by auto].
    wp_step. eapply wp_mono; [by apply with_client_retries_spec; [apply H3|..]|].
    intros [a|i|] s4 [[Hg4 Hs4] Hr4]; [| |done].
    2: { split; [by etrans|]. split; [right; congruence|done]. }
    assert (H4 : goes s s4) by (by etrans). assert (Hs4' : rc_self s4 = flagged (rc_self s)) by congruence.
    wp_step. apply origin_gone_spec; [|intros ->; by auto]. intros a' ->.
    destruct Hr4 as [(e' & tr & _ & _ & Htr & Hsuf) Hlen4]. wp_step. destruct (gone a') eqn:Hgone; [|split; [by auto|lia]].
    split; [done|]. split; [by right|]. right. rewrite Hs4'. split; [done|]. right. exists a', tr.
    split; [done|]. split; [etrans; [exact (go_trace _ _ H3)|done]|done]. }
  destruct e; try exact Hretry; wp_step; by auto.
Qed.

(** ** Live migration *)

Definition valid_generation (g : option Generation) : Prop := g ≠ Some GenNone.

Definition migration_conf (self : Reconciler) (mode : LocationConfigMode) (secondary_conf : option bool) : LocationConfig :=
  {| lc_mode := mode;
     lc_generation := if bool_decide (mode = LocSecondary) then None else re_generation self ≫= Generation_into;
     lc_secondary_conf := secondary_conf;
     lc_shard_number := number (re_shard self);
     lc_shard_count := count (re_shard self);
     lc_shard_stripe_size := stripe_size (re_shard self);
     lc_tenant_conf := re_config self |}.

Lemma self_location_config_spec mode secondary_conf s Q :
  valid_generation (re_generation (rc_self s)) →
  Q (Ok (migration_conf (rc_self s) mode secondary_conf)) s → wp (self_location_config mode secondary_conf) Q s.
Proof.
  intros Hv HQ. unfold self_location_config, get_self, build_location_config. do 5 wp_step.
  unfold migration_conf in HQ. case_bool_decide; [done|]. destruct (re_generation (rc_self s)) as [[|g]|]; done.
Qed.

(** The event configures the node as something else than stale. *)
Definition demotes (n : NodeId) (ev : Event) : Prop :=
  match ev with EvLocationConfig n' c _ => n' = n ∧ lc_mode c ≠ AttachedStale | _ => False end.

(** What has happened, in this order, before the origin is let go of: it was made stale, its
    positions were read, the destination was attached and has caught up. *)
Definition served (origin dest : Node) (stale multi : LocationConfig) (baseline : gmap TimelineId Lsn) (ev : Event) : Trace :=
  [ev; EvLocationConfig (n_id dest) multi (inl tt); EvTimelineList (n_id origin) (inl baseline);
   EvLocationConfig (n_id origin) stale (inl tt)].

Definition handed_over (origin dest : Node) (s : Recon) : Prop :=
  ∃ s0 stale multi baseline ev,
    lc_mode stale = AttachedStale ∧ lc_mode multi = AttachedMulti ∧ caught_up (n_id dest) baseline ev ∧
    served origin dest stale multi baseline ev `sublist_of` rc_trace s0 ∧ rc_trace s0 `suffix_of` rc_trace s ∧
    re_tenant_creation_hint (rc_self s0) = re_tenant_creation_hint (rc_self s) ∧ let_go s0 origin dest s.

Lemma sublist_suffix {A} (l k : list A) : l `suffix_of` k → l `sublist_of` k.
Proof. intros [k' ->]. by apply sublist_inserts_l. Qed.

Lemma accepted_config node c s r s' :
  location_config_post node c s r s' → lc_mode c ≠ LocDetached → r = Ok tt →
  rc_self s' = rc_self s <| re_observed := <[n_id node := Some c]> (re_observed (rc_self s)) |> ∧
  ∃ tr, rc_trace s' = EvLocationConfig (n_id node) c (inl tt) :: tr ∧ rc_trace s `suffix_of` tr.
Proof.
  intros H Hm ->. destruct H as [[? _]|[Hs Htr]]; [done|]. split; [|done]. rewrite Hs. unfold configured.
  by destruct (lc_mode c).
Qed.

Lemma sublist_after {A} (x : A) l k k' m : k = x :: k' → l `sublist_of` m → m `suffix_of` k' → x :: l `sublist_of` k.
Proof. intros -> Hl Hm. apply sublist_skip. etrans; [done|by apply sublist_suffix]. Qed.

(** The state of the reconciler after a migration, up to the flag *)
Definition migrated_to (dest : Node) (g : Z) (o : ObservedState) (r r' : Reconciler) : Prop :=
  let r1 := r <| re_generation := Some (GenValid g) |> <| re_observed := o |> in r' = r1 ∨ r' = flagged r1.

Lemma goes_generation s g : ok s → goes s (s <| rc_self := rc_self s <| re_generation := g |> |>).
Proof. intros Hok. apply goes_self; [done|by unfold same_task; destruct (rc_self s)| |done]. by apply ok_observed. Qed.

Lemma warm_up_spec (dest : Node) (o : option LocationConfig) s :
  ok s → (∀ ev, match ev with EvLocationConfig _ _ _ => True | _ => C ev end) →
  wp (match o with
      | Some c => if bool_decide (lc_mode c = LocSecondary) then secondary_download dest else mret tt
      | None => mret tt
      end) (λ r s', quiet s s' ∧ match r with Panic => False | _ => True end) s.
Proof.
  intros Hok HC. destruct o as [c|]; [case_bool_decide|]; [|apply wp_ret; by split; [apply quiet_refl|]..].
  apply secondary_download_spec; [done|intros a; exact (HC (EvSecondaryDownload _ a))|intros ms; exact (HC (EvElapsed ms))].
Qed.

Lemma no_config_C origin :
  (∀ ev, ¬ demotes (n_id origin) ev → C ev) → ∀ ev, match ev with EvLocationConfig _ _ _ => True | _ => C ev end.
Proof. intros HC ev. destruct ev; try done; apply HC; by intros ?. Qed.

Lemma prepare_migration_spec origin dest s :
  ok s → valid_generation (re_generation (rc_self s)) → (∀ ev, ¬ demotes (n_id origin) ev → C ev) →
  let stale := migration_conf (rc_self s) AttachedStale None in
  wp (prepare_migration origin dest) (λ r s', goes s s' ∧
    match r with
    | Ok base =>
      rc_self s' = rc_self s <| re_observed := <[n_id origin := Some stale]> (re_observed (rc_self s)) |> ∧
      [EvTimelineList (n_id origin) (inl base); EvLocationConfig (n_id origin) stale (inl tt)] `sublist_of` rc_trace s'
    | Err _ => True
    | Panic => False
    end) s.
Proof.
  intros Hok Hv HC stale. pose proof (no_config_C origin HC) as HC'.
  unfold prepare_migration, get_self. wp_step. apply self_location_config_spec; [done|]. fold stale. wp_step.
  eapply wp_mono; [apply location_config_spec; [done|by intros _ g|intros a; apply HC; by intros [_ ?]]|].
  intros r s1 [H1 Hr1]. destruct r as [[]|i|]; [|by split..].
  destruct (accepted_config _ _ _ _ _ Hr1 ltac:(done) eq_refl) as [Hs1 (tr1 & Ht1 & _)]. clear Hr1.
  wp_step. eapply wp_mono; [by apply get_lsns_spec, (λ a, HC' (EvTimelineList _ a)); apply H1|].
  intros [base|i|] s2 [[Hg2 Hs2] Hr2]; [|by split; [etrans|]|done]. destruct Hr2 as (tr2 & Ht2 & Hsuf2).
  assert (H2 : goes s s2) by (by etrans). do 5 wp_step.
  eapply wp_mono; [apply warm_up_spec; [apply H2|done]|].
  intros [[]|i|] s3 [[Hg3 Hs3] Hr3]; [|by split; [etrans|]|done]. wp_step. split; [by etrans|].
  split; [congruence|]. etrans; [|exact (sublist_suffix _ _ (go_trace _ _ Hg3))].
  eapply sublist_after; [exact Ht2| |exact Hsuf2]. eapply sublist_after; [exact Ht1|apply sublist_nil_l|apply suffix_nil].
Qed.

Lemma switch_over_spec origin dest s :
  ok s → tgt_attached (re_intent (rc_self s)) = Some dest → n_id origin ≠ n_id dest →
  valid_generation (re_generation (rc_self s)) → (∀ ev, ¬ demotes (n_id origin) ev → C ev) →
  wp (switch_over origin dest) (λ r s', goes s s' ∧
    match r with
    | Ok _ => handed_over origin dest s' ∧ ∃ g o,
        migrated_to dest g o (rc_self s) (rc_self s') ∧ EvGeneration (n_id dest) g ∈ rc_trace s' ∧
        (P → bound (rc_row s) < g) ∧ (∀ k, k ≠ n_id origin → k ≠ n_id dest → o !! k = re_observed (rc_self s) !! k)
    | Err _ => True
    | Panic => False
    end) s.
Proof.
  intros Hok Hdest Hne Hv HC. pose proof (no_config_C origin HC) as HC'. unfold switch_over, modify_self. wp_step.
  eapply wp_mono; [by apply prepare_migration_spec|]. set (stale := migration_conf _ _ _).
  intros [base|i|] s3 [H3 Hr3]; [|done..]. destruct Hr3 as [Hs3 Ht3].
  wp_step. eapply wp_mono; [apply increment_generation_spec, (λ a, HC' (EvIncrement _ a)); apply H3|].
  intros [gen|i|] s4 [[Hg4 Hs4] Hr4]; [|by split; [etrans|]|done]. destruct Hr4 as (g & -> & Hiss & Hgb).
  assert (H4 : goes s s4) by (by etrans). wp_step. wp_step.
  pose proof (goes_generation s4 (Some (GenValid g)) (go_ok _ _ H4)) as Hg5. revert Hg5. set (s5 := s4 <| rc_self := _ |>). intros Hg5.
  assert (H5 : goes s s5) by (by etrans).
  assert (Hs5 : rc_self s5 = rc_self s <| re_generation := Some (GenValid g) |> <| re_observed := <[n_id origin := Some stale]> (re_observed (rc_self s)) |>).
  { subst s5. simpl. by rewrite Hs4, Hs3. }
  assert (Hiss5 : EvGeneration (n_id dest) g ∈ rc_trace s5) by done.
  assert (Ht5 : rc_trace s3 `suffix_of` rc_trace s5) by exact (go_trace _ _ Hg4).
  clearbody s5. wp_step. apply self_location_config_spec; [by rewrite Hs5|]. set (multi := migration_conf _ _ _). wp_step.
  eapply wp_mono; [apply location_config_spec; [apply H5| |intros a; apply HC; by intros [? _]]|].
  { intros _ g' _ Hg'. subst multi. simpl in Hg'. rewrite Hs5 in Hg'. simpl in Hg'. by simplify_eq. }
  intros r s6 [Hg6 Hr6]. assert (H6 : goes s s6) by (by etrans). destruct r as [[]|i|]; [|by split..].
  destruct (accepted_config _ _ _ _ _ Hr6 ltac:(done) eq_refl) as [Hs6 (tr6 & Ht6 & Hsuf6)]. clear Hr6.
  wp_step. eapply wp_mono; [apply await_lsn_spec; [apply H6|intros a; exact (HC' (EvWaitLsn _ _ a))|intros a; exact (HC' (EvTimelineList _ a))]|].
  intros [[]|i|] s7 [[Hg7 Hs7] Hr7]; [|by split; [etrans|]|done]. destruct Hr7 as (ev & tr7 & Ht7 & Hsuf7 & Hcu).
  assert (H7 : goes s s7) by (by etrans). assert (Hself7 := eq_trans Hs7 Hs6). rewrite Hs5 in Hself7.
  eapply wp_mono; [apply (compute_notify_blocking_spec origin dest);
    [apply H7|by rewrite Hself7|intros n a; exact (HC' (EvNotify n a))|intros a; exact (HC' (EvGetLocationConfig _ a))]|].
  intros r s8 (Hg8 & Hs8 & Hr8). assert (H8 : goes s s8) by (by etrans). split; [done|]. destruct r as [[]|i|]; [|done..].
  split.
  - exists s7, stale, multi, base, ev. split; [done|]. split; [done|]. split; [done|]. split; [|split; [exact (go_trace _ _ Hg8)|split; [by rewrite (go_task _ _ Hg8)|done]]].
    eapply sublist_after; [exact Ht7| |exact Hsuf7]. eapply sublist_after; [exact Ht6| |exact Hsuf6].
    etrans; [exact Ht3|by apply sublist_suffix].
  - eexists g, _. split; [|split; [|split]].
    + unfold migrated_to. destruct Hs8 as [-> | ->]; rewrite Hself7; [by left|by right].
    + destruct (go_trace _ _ Hg8) as [l8 ->]. destruct (go_trace _ _ Hg7) as [l7 ->]. destruct (go_trace _ _ Hg6) as [l6 ->]. set_solver.
    + intros HP. specialize (Hgb HP). pose proof (go_row _ _ H3). lia.
    + intros k Hk1 Hk2. simpl. by rewrite !lookup_insert_ne by done.
Qed.

Lemma finish_migration_spec origin dest g s :
  ok s → re_generation (rc_self s) = Some (GenValid g) → (P → EvGeneration (n_id dest) g ∈ rc_trace s) →
  (∀ n c a, C (EvLocationConfig n c a)) →
  let self := rc_self s in
  wp (finish_migration origin dest) (λ r s', goes s s' ∧
    match r with
    | Ok _ => rc_self s' = self <| re_observed :=
        <[n_id dest := Some (migration_conf self AttachedSingle None)]>
          (<[n_id origin := Some (migration_conf self LocSecondary (Some true))]> (re_observed self)) |>
    | Err _ => True
    | Panic => False
    end) s.
Proof.
  intros Hok Hgen Hiss HC self. unfold finish_migration, insert_observed, modify_self. wp_step.
  apply self_location_config_spec; [by rewrite Hgen|]. wp_step. set (sec := migration_conf _ _ _). fold self in sec.
  eapply wp_mono; [apply location_config_spec; [done|by intros _ g'|done]|]. intros r s1 [H1 Hr1]. destruct r as [[]|i|]; [|by split..].
  destruct (accepted_config _ _ _ _ _ Hr1 ltac:(done) eq_refl) as [Hs1 _]. clear Hr1. wp_step. wp_step.
  pose proof (goes_insert s1 (n_id origin) (Some sec) (go_ok _ _ H1) ltac:(by intros c [= <-] _ g')) as Hg2.
  revert Hg2. set (s2 := s1 <| rc_self := _ |>). intros Hg2. assert (H2 : goes s s2) by (by etrans).
  assert (Hs2 : rc_self s2 = self <| re_observed := <[n_id origin := Some sec]> (re_observed self) |>).
  { subst s2. simpl. rewrite Hs1. simpl. by rewrite insert_insert_eq. }
  clearbody s2. wp_step. apply self_location_config_spec; [rewrite Hs2; simpl; unfold self; by rewrite Hgen|]. wp_step. set (single := migration_conf _ _ _).
  assert (Hown : P → owned (rc_trace s2) (n_id dest) single).
  { intros HP g' _ Hg'. subst single. simpl in Hg'. rewrite Hs2 in Hg'. simpl in Hg'. unfold self in Hg'. rewrite Hgen in Hg'.
    simplify_eq/=. destruct (go_trace _ _ H2) as [l ->]. apply elem_of_app. right. auto. }
  assert (Hsingle : single = migration_conf self AttachedSingle None) by (unfold single; by rewrite Hs2).
  eapply wp_mono; [apply location_config_spec; [apply H2|done|done]|]. intros r s3 [Hg3 Hr3]. assert (H3 : goes s s3) by (by etrans).
  destruct r as [[]|i|]; [|by split..]. destruct (accepted_config _ _ _ _ _ Hr3 ltac:(done) eq_refl) as [Hs3 _]. clear Hr3. wp_step.
  split; [etrans; [exact H3|]|simpl; rewrite Hs3, Hs2; simpl; by rewrite insert_insert_eq, Hsingle].
  apply goes_insert; [apply H3|]. intros c [= <-] HP. eapply owned_mono; [by apply Hown|exact (go_trace _ _ Hg3)].
Qed.

(** What a migration leaves behind *)
Definition migration_post (s : Recon) (dest : Node) (s' : Recon) : Prop :=
  ∃ g o, migrated_to dest g o (rc_self s) (rc_self s') ∧ EvGeneration (n_id dest) g ∈ rc_trace s' ∧ (P → bound (rc_row s) < g) ∧
    (∀ k, is_Some (o !! k) → is_Some (re_observed (rc_self s) !! k) ∨ k = n_id dest) ∧
    (∀ c, o !! n_id dest = Some (Some c) → lc_generation c = Some g).

Lemma live_migrate_spec origin dest s :
  ok s → tgt_attached (re_intent (rc_self s)) = Some dest → n_id origin ≠ n_id dest →
  valid_generation (re_generation (rc_self s)) → (∀ ev, C ev) → is_Some (re_observed (rc_self s) !! n_id origin) →
  wp (live_migrate origin dest) (λ r s', goes s s' ∧
    match r with Ok _ => migration_post s dest s' | Err _ => True | Panic => False end) s.
Proof.
  intros Hok Hdest Hne Hv HC Hor. unfold live_migrate. wp_step. wp_step; [|by bool_prop].
  wp_step. eapply wp_mono; [by apply switch_over_spec|]. intros r s1 [H1 Hr1]. destruct r as [[]|i|]; [|done..].
  destruct Hr1 as (_ & g & o & Hm & Hiss & Hb & Hk).
  assert (Hgen : re_generation (rc_self s1) = Some (GenValid g)) by (by destruct Hm as [-> | ->]).
  eapply wp_mono; [by apply (finish_migration_spec origin dest g); [apply H1|..]|]. intros r s2 [Hg2 Hr2].
  split; [by etrans|]. destruct r as [[]|i|]; [|done..]. exists g, (<[n_id dest := Some (migration_conf (rc_self s1) AttachedSingle None)]>
    (<[n_id origin := Some (migration_conf (rc_self s1) LocSecondary (Some true))]> o)). split; [|split; [|split; [done|split]]].
  - rewrite Hr2. destruct Hm as [-> | ->]; [by left|by right].
  - destruct (go_trace _ _ Hg2) as [l ->]. apply elem_of_app. by right.
  - intros k. simpl. rewrite !lookup_insert_is_Some.
    intros [->|[Hkd [<-|[Hko Hk']]]]; [by right|by left|left].
    by rewrite <- (Hk k).
  - intros c. rewrite lookup_insert_eq. intros [= <-]. simpl. by rewrite Hgen.
Qed.

(** ** The parts of [reconcile] *)

Lemma filter_head_id (l : list Node) k n l' : filter (λ n, n_id n = k) l = n :: l' → n_id n = k ∧ n ∈ l.
Proof. intros H. assert (Hn : n ∈ filter (λ n, n_id n = k) l) by (rewrite H; by left). by apply list_elem_of_filter in Hn. Qed.

(** The nodes that the reconciler knows *)
Definition targets (r : Reconciler) : list Node :=
  option_list (tgt_attached (re_intent r)) ++ tgt_secondary (re_intent r) ++ re_detach r.

Lemma get_node_spec r k n : get_node r k = Some n → n_id n = k ∧ n ∈ targets r.
Proof.
  unfold get_node, targets. destruct (filter _ (option_list _)) as [|n1 l1] eqn:H1.
  - destruct (filter _ (tgt_secondary _)) as [|n2 l2] eqn:H2.
    + destruct (filter _ (re_detach r)) as [|n3 l3] eqn:H3; [done|]. intros [= <-].
      apply filter_head_id in H3 as [? ?]. split; [done|]. set_solver.
    + intros [= <-]. apply filter_head_id in H2 as [? ?]. split; [done|]. set_solver.
  - intros [= <-]. apply filter_head_id in H1 as [? ?]. split; [done|]. set_solver.
Qed.

Lemma find_origin_spec order : ∀ s,
  ok s →
  wp (find_origin order) (λ r s', quiet s s' ∧
    match r with
    | Ok (Some n) => ∃ c, re_observed (rc_self s) !! n_id n = Some (Some c) ∧ lc_mode c = AttachedSingle
    | Ok None | Err _ => True
    | Panic => False
    end) s.
Proof.
  induction order as [|k order IH]; intros s Hok; simpl; [wp_step; split; [by apply quiet_refl|done]|].
  unfold get_self. do 4 wp_step.
  destruct (re_observed (rc_self s) !! k) as [[c|]|] eqn:Hk; simpl; [|by apply IH..].
  case_bool_decide as Hm; [|by apply IH]. destruct (get_node (rc_self s) k) as [n|] eqn:Hn; [|by apply IH].
  apply get_node_spec in Hn as [<- _]. wp_step. eapply wp_mono; [by apply available_spec|].
  intros [b|i|] s1 [Hs1 Hr1]; [|done..]. destruct b; [wp_step; split; [done|by exists c]|].
  eapply wp_mono; [apply IH, Hs1|]. intros r s2 [Hs2 Hr2]. split; [by etrans|]. by rewrite (proj2 Hs1) in Hr2.
Qed.

Lemma maybe_live_migrate_spec order s :
  ok s → valid_generation (re_generation (rc_self s)) → (∀ ev, C ev) →
  wp (maybe_live_migrate order) (λ r s', goes s s' ∧
    match r with
    | Ok _ => rc_self s' = rc_self s ∨ ∃ dest, tgt_attached (re_intent (rc_self s)) = Some dest ∧ migration_post s dest s'
    | Err _ => True
    | Panic => False
    end) s.
Proof.
  intros Hok Hv HC. unfold maybe_live_migrate, get_self. do 4 wp_step.
  destruct (tgt_attached _) as [dest|] eqn:Hdest; [|wp_step; split; [by apply goes_refl|by left]].
  set (migrate := (_ ≫= _) : RM ReconcileError unit).
  assert (Hskip : wp (mret tt : RM ReconcileError unit) (λ r s', goes s s' ∧
    match r with
    | Ok _ => rc_self s' = rc_self s ∨ ∃ d, Some dest = Some d ∧ migration_post s d s'
    | Err _ => True
    | Panic => False
    end) s) by (apply wp_ret; split; [by apply goes_refl|by left]).
  assert (Hmig : (∀ c, re_observed (rc_self s) !! n_id dest = Some (Some c) → lc_mode c = LocSecondary) →
    wp migrate (λ r s', goes s s' ∧
    match r with
    | Ok _ => rc_self s' = rc_self s ∨ ∃ d, Some dest = Some d ∧ migration_post s d s'
    | Err _ => True
    | Panic => False
    end) s).
  { intros Hsec. subst migrate. wp_step. eapply wp_mono; [by apply find_origin_spec|].
    intros r s1 [[Hg1 Hs1] Hr1]. destruct r as [[origin|]|i|]; [|wp_step; split; [done|by left]|done..].
    destruct Hr1 as (c & Hc & Hm). assert (n_id origin ≠ n_id dest) by (intros Heq; rewrite Heq in Hc; apply Hsec in Hc; congruence).
    eapply wp_mono; [apply live_migrate_spec; [apply Hg1|by rewrite Hs1|done|by rewrite Hs1|done|by rewrite Hs1, Hc]|].
    intros r s2 [Hg2 Hr2]. split; [by etrans|]. destruct r as [[]|i|]; [|done..]. right. exists dest. split; [done|].
    destruct Hr2 as (g & o & Hmo & Hiss & Hb & Hk & Hc'). rewrite Hs1 in Hmo, Hk. exists g, o. split; [done|]. split; [done|]. split; [|done].
    intros HP. specialize (Hb HP). pose proof (go_row _ _ Hg1). lia. }
  destruct (re_observed (rc_self s) !! n_id dest) as [[c|]|] eqn:Hobs; [|done|by apply Hmig].
  case_bool_decide; [|done]. apply Hmig. by intros ? [= <-].
Qed.

Lemma maybe_refresh_observed_spec s :
  ok s → (∀ ev, C ev) →
  wp maybe_refresh_observed (λ r s', goes s s' ∧
    match r with
    | Ok b => b = bool_decide (is_Some (tgt_attached (re_intent (rc_self s)))) ∧
        ∃ o, rc_self s' = rc_self s <| re_observed := o |> ∧
          (∀ k, is_Some (o !! k) → is_Some (re_observed (rc_self s) !! k)) ∧
          (∀ k c, re_observed (rc_self s) !! k = Some (Some c) → o !! k = Some (Some c))
    | Err _ => True
    | Panic => False
    end) s.
Proof.
  intros Hok HC. unfold maybe_refresh_observed, get_self, insert_observed, modify_self, fail. do 4 wp_step.
  assert (Hsame : ∃ o, rc_self s = rc_self s <| re_observed := o |> ∧ (∀ k, is_Some (o !! k) → is_Some (re_observed (rc_self s) !! k)) ∧
    (∀ k c, re_observed (rc_self s) !! k = Some (Some c) → o !! k = Some (Some c))).
  { exists (re_observed (rc_self s)). split; [by destruct (rc_self s)|done]. }
  destruct (tgt_attached _) as [dest|]; [|wp_step; split; [by apply goes_refl|done]].
  wp_step. case_bool_decide as Hnone; [|do 2 wp_step; split; [by apply goes_refl|done]].
  wp_step. eapply wp_mono; [by apply with_client_retries_spec|]. intros r s1 [[Hg1 Hs1] Hr1].
  destruct r as [[[loc|e]|]|i|]; [| |by wp_steps|done..].
  - destruct Hr1 as [(e & tr & He & Ha & Htr & Hsuf) _]. wp_step. wp_step.
    assert (Hg2 := goes_insert s1 (n_id dest) loc (go_ok _ _ Hg1)). split.
    + etrans; [exact Hg1|]. apply Hg2. intros c -> HP.
      pose proof (go_ok _ _ Hg1 HP) as [_ Hsent _ _]. apply owned_reported; [done|]. rewrite Htr.
      pose proof (Hok HP) as [_ _ _ Hh]. rewrite Forall_forall in Hh. pose proof (Hh e He tr (n_id dest) c (eq_sym Ha)) as Hrep.
      destruct Hrep as [[r Hr]|(g & Hg & Hi)]; [left; exists r; by right|right; exists g; split; [done|by right]].
    + split; [done|]. simpl. rewrite Hs1. exists (<[n_id dest := loc]> (re_observed (rc_self s))). split; [done|]. split.
      * intros k [<-|[? ?]]%lookup_insert_is_Some; [by rewrite Hnone|done].
      * intros k c Hc. rewrite lookup_insert_ne; [done|congruence].
  - destruct e; try by wp_steps. destruct (_ =? _); [|by wp_steps]. wp_step. wp_step.
    split; [etrans; [exact Hg1|]; apply goes_delete, Hg1|]. split; [done|]. simpl. rewrite Hs1.
    exists (delete (n_id dest) (re_observed (rc_self s))). split; [done|].
    split; [by intros k [_ ?]%lookup_delete_is_Some|]. intros k c Hc. rewrite lookup_delete_ne; [done|congruence].
Qed.

Definition wanted_attached (r : Reconciler) (g : Generation) : LocationConfig :=
  attached_location_conf g (re_shard r) (re_config r) (re_placement_policy r).

(** The generation is the one that was observed, or it is new. *)
Definition fresh (s : Recon) (n : NodeId) (g : Generation) : Prop :=
  (∃ c, re_observed (rc_self s) !! n = Some (Some c) ∧ lc_generation c = Generation_into g) ∨
  (P → ∃ v, g = GenValid v ∧ bound (rc_row s) < v).

(** The generation of the reconciler is the same, or new. *)
Definition renewed (s : Recon) (g : Generation) : Prop :=
  re_generation (rc_self s) = Some g ∨ (P → ∃ v, g = GenValid v ∧ bound (rc_row s) < v).

(** The attached location is configured and the computes were told. *)
Definition attached_post (s : Recon) (dest : Node) (s' : Recon) : Prop :=
  ∃ g, re_generation (rc_self s') = Some g ∧
    re_observed (rc_self s') = <[n_id dest := Some (wanted_attached (rc_self s) g)]> (re_observed (rc_self s)) ∧
    fresh s (n_id dest) g ∧ renewed s g ∧ ∃ s1, goes s s1 ∧ told s1 dest s'.

Lemma notify_attached s dest s1 :
  goes s s1 → tgt_attached (re_intent (rc_self s1)) = Some dest → (∀ ev, C ev) →
  wp (convert ErrNotify compute_notify) (λ r s', goes s s' ∧
    match r with
    | Ok _ => told s1 dest s' ∧ (rc_self s' = rc_self s1 ∨ rc_self s' = flagged (rc_self s1))
    | Err _ => True
    | Panic => False
    end) s1.
Proof.
  intros Hg1 Hdest HC. unfold convert. wp_step. eapply wp_mono; [apply compute_notify_spec; [apply Hg1|done]|].
  intros r s2 [Hg2 Hr]. split; [by etrans|]. unfold notify_post in Hr. rewrite Hdest in Hr. destruct Hr as [Hs Hr].
  destruct r as [[]|[e|]|]; simpl; [|done..]. by destruct Hr.
Qed.

Lemma attach_spec s dest s1 g conf :
  goes s s1 → (∀ ev, C ev) → conf = wanted_attached (rc_self s) g → tgt_attached (re_intent (rc_self s)) = Some dest →
  rc_self s1 = rc_self s <| re_generation := Some g |> → fresh s (n_id dest) g → renewed s g →
  (P → owned (rc_trace s1) (n_id dest) conf) →
  wp (_ ← location_config dest conf None true; convert ErrNotify compute_notify) (λ r s', goes s s' ∧
    match r with Ok _ => attached_post s dest s' | Err _ => True | Panic => False end) s1.
Proof.
  intros Hg1 HC -> Hdest Hs1 Hf Hrn Hown. wp_step. eapply wp_mono; [apply location_config_spec; [apply Hg1|done|done]|].
  intros r s2 [Hg2 Hr]. assert (H2 : goes s s2) by (by etrans). destruct r as [[]|i|]; [|by split..].
  destruct (accepted_config _ _ _ _ _ Hr ltac:(done) eq_refl) as [Hs2 _].
  eapply wp_mono; [apply (notify_attached s dest); [done|by rewrite Hs2, Hs1|done]|].
  intros r s3 [Hg3 Hr3]. split; [done|]. destruct r as [[]|i|]; [|done..]. destruct Hr3 as [Htold Hs3].
  exists g. split; [destruct Hs3 as [-> | ->]; by rewrite Hs2, Hs1|].
  split; [destruct Hs3 as [-> | ->]; by rewrite Hs2, Hs1|]. split; [done|]. split; [done|]. by exists s2.
Qed.

Lemma reconcile_attached_spec s refreshed :
  ok s → (∀ ev, C ev) → refreshed = bool_decide (is_Some (tgt_attached (re_intent (rc_self s)))) →
  wp (reconcile_attached refreshed) (λ r s', goes s s' ∧
    match r with
    | Ok _ => match tgt_attached (re_intent (rc_self s)) with
        | Some dest => attached_post s dest s'
        | None => s' = s
        end
    | Err _ => True
    | Panic => False
    end) s.
Proof.
  intros Hok HC ->. unfold reconcile_attached, get_self, modify_self, fail. do 4 wp_step.
  destruct (tgt_attached _) as [dest|] eqn:Hdest; [|wp_step; by split; [apply goes_refl|]].
  rewrite (bool_decide_true _ (mk_is_Some _ _ eq_refl)).
  destruct (re_generation (rc_self s)) as [g|] eqn:Hgen; [|wp_step; by split; [apply goes_refl|]].
  fold (wanted_attached (rc_self s) g).
  assert (Hsame : rc_self s = rc_self s <| re_generation := Some g |>) by (rewrite <- Hgen; by destruct (rc_self s)).
  case_bool_decide as Hobs.
  { eapply wp_mono; [by apply (notify_attached s dest); [apply goes_refl|..]|]. intros r s1 [Hg1 Hr1]. split; [done|].
    destruct r as [[]|i|]; [|done..]. destruct Hr1 as [Htold Hs1]. exists g.
    split; [by destruct Hs1 as [-> | ->]|]. split; [|split; [|split; [by left|]]].
    - rewrite insert_id by done. by destruct Hs1 as [-> | ->].
    - left. by eexists.
    - exists s. by split; [apply goes_refl|]. }
  set (inc := match _ with None | Some None => true | _ => _ end). wp_step. destruct inc eqn:Hinc; subst inc.
  - wp_step. eapply wp_mono; [by apply increment_generation_spec|]. intros [gen|i|] s1 [[Hg1 Hs1] Hr1]; [|done..].
    destruct Hr1 as (v & -> & Hiss & Hb). do 3 wp_step.
    pose proof (goes_generation s1 (Some (GenValid v)) (go_ok _ _ Hg1)) as Hg2.
    eapply (attach_spec s dest _ (GenValid v)); [by etrans|done|done|done|simpl; by rewrite Hs1|right; by eauto|right; by eauto|].
    intros _ g' _ [= <-]. done.
  - wp_step. destruct (re_observed (rc_self s) !! n_id dest) as [[c|]|] eqn:Hc; [|done..].
    apply orb_false_iff in Hinc as [Hcg%negb_false_iff%bool_decide_eq_true Hcm%negb_false_iff%bool_decide_eq_true].
    apply (attach_spec s dest _ g); [by apply goes_refl|done|done|done|done|left; by exists c|by left|].
    intros HP g' _ Hg'. eapply (ok_observed s Hok HP); [done|by rewrite Hcm|congruence].
Qed.

(** ** Secondary locations and detaching *)

Definition wanted_secondary (r : Reconciler) : LocationConfig := secondary_location_conf (re_shard r) (re_config r).

(** Only the observed locations of the nodes in [ids] have changed. *)
Definition touches (ids : list NodeId) (s s' : Recon) : Prop :=
  ∃ o, rc_self s' = rc_self s <| re_observed := o |> ∧ ∀ k, k ∉ ids → o !! k = re_observed (rc_self s) !! k.

Lemma touches_refl ids s s' : rc_self s' = rc_self s → touches ids s s'.
Proof. intros Hs. exists (re_observed (rc_self s)). split; [rewrite Hs; by destruct (rc_self s)|done]. Qed.

Lemma touches_trans ids1 ids2 ids s s' s'' :
  touches ids1 s s' → touches ids2 s' s'' → ids1 ⊆ ids → ids2 ⊆ ids → touches ids s s''.
Proof.
  intros (o & Hs & Ho) (o' & Hs' & Ho') H1 H2. exists o'. split; [by rewrite Hs', Hs|]. intros k Hk.
  rewrite Ho' by set_solver. rewrite Hs. simpl. apply Ho. set_solver.
Qed.

Lemma touches_lookup ids s s' k : touches ids s s' → k ∉ ids → re_observed (rc_self s') !! k = re_observed (rc_self s) !! k.
Proof. intros (o & -> & Ho) Hk. by apply Ho. Qed.

(** The location is as wanted, or unknown on a node that is down. *)
Definition settled (s : Recon) (node : Node) (c : LocationConfig) : Prop :=
  re_observed (rc_self s) !! n_id node = Some (Some c) ∨
  re_observed (rc_self s) !! n_id node = Some None ∧ is_up node s = false.

Lemma is_up_mono s s' node : goes s s' → is_up node s = false → is_up node s' = false.
Proof.
  intros Hg. unfold is_up. rewrite !andb_false_iff, !bool_decide_eq_false. intros [|Hd]; [by left|right].
  intros Hn. apply Hd. intros Hin. by apply Hn, (go_down _ _ Hg).
Qed.

Lemma settled_mono s s' ids node c :
  settled s node c → goes s s' → touches ids s s' → n_id node ∉ ids → settled s' node c.
Proof.
  intros Hs Hg Ht Hk. unfold settled. rewrite (touches_lookup _ _ _ _ Ht Hk).
  destruct Hs as [|[? ?]]; [by left|right]. split; [done|by eapply is_up_mono].
Qed.

Lemma touches_insert n loc s s1 :
  rc_self s1 = rc_self s → touches [n] s (s1 <| rc_self := rc_self s1 <| re_observed := <[n := loc]> (re_observed (rc_self s1)) |> |>).
Proof.
  intros Hs. exists (<[n := loc]> (re_observed (rc_self s))). simpl. rewrite Hs. split; [done|].
  intros k Hk. rewrite lookup_insert_ne; [done|]. set_solver.
Qed.

Lemma plan_secondary_spec n w s :
  ok s →
  wp (if bool_decide (re_observed (rc_self s) !! n_id n = Some (Some w)) then mret []
      else is_up ← available n; if (is_up : bool) then mret [(n, w)] else _ ← insert_observed (n_id n) None; mret [])
    (λ (r : outcome (Interrupt ReconcileError) (list (Node * LocationConfig))) s', goes s s' ∧
    match r with
    | Ok change => touches [n_id n] s s' ∧ (change = [(n, w)] ∨ change = [] ∧ settled s' n w)
    | Err _ => True
    | Panic => False
    end) s.
Proof.
  intros Hok. case_bool_decide as Hobs.
  { wp_step. split; [by apply goes_refl|]. split; [by apply touches_refl|]. right. by split; [|left]. }
  wp_step. eapply wp_mono; [by apply available_spec|]. intros [b|i|] s1 [[Hg1 Hs1] Hr1]; [|done..].
  destruct Hr1 as [Hb _]. destruct b; [wp_step; split; [done|]; split; [by apply touches_refl|]; by left|].
  unfold insert_observed, modify_self. do 3 wp_step.
  assert (Hg2 := goes_insert s1 (n_id n) None (go_ok _ _ Hg1) ltac:(done)). split; [by etrans|].
  split; [by apply touches_insert|]. right. split; [done|]. right. simpl. rewrite lookup_insert_eq. by split.
Qed.

Lemma secondary_changes_spec nodes : ∀ s,
  ok s → NoDup (n_id <$> nodes) →
  wp (secondary_changes nodes) (λ r s', goes s s' ∧
    match r with
    | Ok changes =>
      touches (n_id <$> nodes) s s' ∧
      (∃ l, changes = (λ n, (n, wanted_secondary (rc_self s))) <$> l ∧ l `sublist_of` nodes ∧
        ∀ n, n ∈ nodes → n ∈ l ∨ settled s' n (wanted_secondary (rc_self s)))
    | Err _ => True
    | Panic => False
    end) s.
Proof.
  induction nodes as [|n nodes IH]; intros s Hok Hnd; cbn [secondary_changes].
  { wp_step. split; [by apply goes_refl|]. split; [by apply touches_refl|]. exists []. split; [done|]. split; [done|]. by intros n ?%elem_of_nil. }
  unfold get_self. do 4 wp_step. fold (wanted_secondary (rc_self s)). rewrite fmap_cons in *. apply NoDup_cons in Hnd as [Hn Hnd].
  wp_step. eapply wp_mono; [by apply plan_secondary_spec|].
  intros [change|i|] s1 [Hg1 Hr1]; [|done..]. destruct Hr1 as [Ht1 Hch].
  wp_step. eapply wp_mono; [apply IH; [apply Hg1|done]|]. intros [changes|i|] s2 [Hg2 Hr2]; [|by split; [etrans|]|done].
  destruct Hr2 as (Ht2 & l & -> & Hl & Hset). wp_step. split; [by etrans|].
  assert (Hw : wanted_secondary (rc_self s1) = wanted_secondary (rc_self s)) by (by destruct Ht1 as (o & -> & _)). rewrite Hw in *.
  split; [eapply touches_trans; [done..|set_solver|set_solver]|].
  destruct Hch as [-> |[-> Hset1]]; [exists (n :: l)|exists l].
  - split; [done|]. split; [by apply sublist_skip|]. intros m [->|Hm]%elem_of_cons; [left; by left|].
    destruct (Hset m Hm); [left; by right|by right].
  - split; [done|]. split; [by apply sublist_cons|]. intros m [->|Hm]%elem_of_cons; [|by apply Hset].
    right. by eapply settled_mono.
Qed.

(** The change was made, or the node is down. *)
Definition changed (s : Recon) (change : Node * LocationConfig) : Prop :=
  let '(node, c) := change in
  if bool_decide (lc_mode c = LocDetached) then re_observed (rc_self s) !! n_id node = None ∨ is_up node s = false
  else settled s node c.

Lemma changed_mono s s' ids change :
  changed s change → goes s s' → touches ids s s' → n_id change.1 ∉ ids → changed s' change.
Proof.
  destruct change as [node c]. simpl. intros Hch Hg Ht Hk. case_bool_decide; [|by eapply settled_mono].
  rewrite (touches_lookup _ _ _ _ Ht Hk). destruct Hch; [by left|right; by eapply is_up_mono].
Qed.

Lemma apply_change_spec node c s :
  ok s → exclusive (lc_mode c) = false → (∀ a, C (EvLocationConfig (n_id node) c a)) →
  wp (is_up ← available node;
      if (is_up : bool) then location_config node c None false else insert_observed (n_id node) None)
    (λ r s', goes s s' ∧
    match r with
    | Ok _ => touches [n_id node] s s' ∧ changed s' (node, c)
    | Err _ => True
    | Panic => False
    end) s.
Proof.
  intros Hok Hex HC. wp_step. eapply wp_mono; [by apply available_spec|]. intros [b|i|] s1 [[Hg1 Hs1] Hr1]; [|done..].
  destruct Hr1 as [Hb _]. destruct b.
  - eapply wp_mono; [apply location_config_spec; [apply Hg1| |done]|].
    { intros _ g. by rewrite Hex. }
    intros r s2 [Hg2 Hr2]. split; [by etrans|]. destruct r as [[]|i|]; [|done..].
    destruct Hr2 as [(Hm & Hs2 & Hup)|(Hs2 & _)].
    + split; [apply touches_refl; congruence|]. simpl. rewrite bool_decide_true by done. by right.
    + rewrite Hs1 in Hs2. split.
      * exists (configured (n_id node) c (re_observed (rc_self s))). split; [done|]. intros k Hk. unfold configured.
        assert (n_id node ≠ k) by set_solver. destruct (lc_mode c); by rewrite ?lookup_insert_ne, ?lookup_delete_ne.
      * simpl. unfold settled. rewrite Hs2. simpl. unfold configured.
        case_bool_decide as Hd; [rewrite Hd, lookup_delete_eq; by left|]. destruct (lc_mode c); rewrite ?lookup_insert_eq; by left.
  - unfold insert_observed, modify_self. wp_step.
    assert (Hg2 := goes_insert s1 (n_id node) None (go_ok _ _ Hg1) ltac:(done)). split; [by etrans|].
    split; [by apply touches_insert|]. simpl. unfold settled. simpl. rewrite lookup_insert_eq.
    case_bool_decide; right; by rewrite ?Hb.
Qed.

Lemma apply_changes_spec l : ∀ s,
  ok s → NoDup ((λ i, n_id i.1) <$> l) → Forall (λ i, exclusive (lc_mode i.2) = false) l →
  (∀ n c a, exclusive (lc_mode c) = false → C (EvLocationConfig n c a)) →
  wp (apply_changes l) (λ r s', goes s s' ∧
    match r with
    | Ok _ => touches ((λ i, n_id i.1) <$> l) s s' ∧ ∀ i, i ∈ l → changed s' i
    | Err _ => True
    | Panic => False
    end) s.
Proof.
  induction l as [|[node c] l IH]; intros s Hok Hnd Hex HC; cbn [apply_changes].
  { wp_step. split; [by apply goes_refl|]. split; [by apply touches_refl|]. by intros i ?%elem_of_nil. }
  rewrite fmap_cons in *. apply NoDup_cons in Hnd as [Hn Hnd]. apply Forall_cons in Hex as [Hc Hex]. simpl in Hc, Hn.
  wp_step. eapply wp_mono; [by apply is_cancelled_spec|]. intros [b|i|] s1 [[Hg1 Hs1] Hr1]; [|done..].
  destruct b; [by apply wp_fail|]. apply wp_bind_assoc. wp_step.
  eapply wp_mono; [apply apply_change_spec; [apply Hg1|done|auto]|].
  intros r s2 [Hg2 Hr2]. assert (H2 : goes s s2) by (by etrans). destruct r as [[]|i|]; [|by split..].
  destruct Hr2 as [Ht2 Hch]. eapply wp_mono; [by apply IH; [apply Hg2|..]|]. intros r s3 [Hg3 Hr3].
  split; [by etrans|]. destruct r as [[]|i|]; [|done..]. destruct Hr3 as [Ht3 Hall].
  split; [eapply touches_trans; [|exact Ht3|..]; [eapply touches_trans; [by apply touches_refl|exact Ht2|..]|..]; set_solver|].
  intros i [->|Hi]%elem_of_cons; [|by apply Hall]. by eapply changed_mono.
Qed.
End progress.

(** ** What [reconcile] achieves *)

Lemma goes_weaken P C C' s s' : goes P C s s' → (∀ ev, C ev → C' ev) → goes P C' s s'.
Proof.
  intros [H1 (l & Hl & HC) H3 H4 H5 H6 H7] HC'. split; [done| |done..]. exists l. split; [done|].
  intros ev Hev. destruct (HC ev Hev); [by left|right; auto].
Qed.

(** Not an event that attaches *)
Definition plain (ev : Event) : Prop :=
  match ev with EvLocationConfig _ c _ => exclusive (lc_mode c) = false | _ => True end.

Abbreviation anything := (λ _ : Event, True).

Record reconciled (P : Prop) (s s' : Recon) : Prop := mkReconciled {
  (** the attached location is configured, with the generation of the reconciler, and the
      computes were told after the last location was attached *)
  rd_attached : ∀ dest, tgt_attached (re_intent (rc_self s)) = Some dest →
    ∃ g, re_generation (rc_self s') = Some g ∧
      re_observed (rc_self s') !! n_id dest = Some (Some (wanted_attached (rc_self s) g)) ∧
      (∃ s1 s2, rc_trace s `suffix_of` rc_trace s1 ∧ told s1 dest s2 ∧ goes P plain s2 s') ∧ renewed P s g ∧
      (P → ∀ c v, re_observed (rc_self s) !! n_id dest = Some (Some c) → lc_generation c = Some v → v ≤ bound (rc_row s) →
        ∃ v', g = GenValid v' ∧ v ≤ v');
  rd_secondary : ∀ n, n ∈ tgt_secondary (re_intent (rc_self s)) → settled s' n (wanted_secondary (rc_self s));
  rd_detach : ∀ n, n ∈ re_detach (rc_self s) → re_observed (rc_self s') !! n_id n = None ∨ is_up n s' = false;
  rd_keys : ∀ k, is_Some (re_observed (rc_self s') !! k) →
    is_Some (re_observed (rc_self s) !! k) ∨ k ∈ n_id <$> targets (rc_self s);
  rd_none : tgt_attached (re_intent (rc_self s)) = None → re_generation (rc_self s') = re_generation (rc_self s);
}.

(** The hook was told that the shard is not attached any more. *)
Definition detach_told (s s' : Recon) : Prop :=
  tgt_attached (re_intent (rc_self s)) = None → re_detach (rc_self s) ≠ [] → head (rc_trace s') = Some EvDetach.

Section reconcile.
Context (P : Prop).
Local Abbreviation moves := (goes P anything).

(** The state before the secondary locations are looked at *)
Definition attached_part (s s' : Recon) : Prop :=
  (∀ k, is_Some (re_observed (rc_self s') !! k) →
    is_Some (re_observed (rc_self s) !! k) ∨ ∃ dest, tgt_attached (re_intent (rc_self s)) = Some dest ∧ k = n_id dest) ∧
  match tgt_attached (re_intent (rc_self s)) with
  | None => re_generation (rc_self s') = re_generation (rc_self s)
  | Some dest => ∃ g, re_generation (rc_self s') = Some g ∧
      re_observed (rc_self s') !! n_id dest = Some (Some (wanted_attached (rc_self s) g)) ∧
      (∃ s1, rc_trace s `suffix_of` rc_trace s1 ∧ told s1 dest s') ∧ renewed P s g ∧
      (P → ∀ c v, re_observed (rc_self s) !! n_id dest = Some (Some c) → lc_generation c = Some v → v ≤ bound (rc_row s) →
        ∃ v', g = GenValid v' ∧ v ≤ v')
  end.

Lemma migrated_observed dest g o r r' : migrated_to dest g o r r' → re_observed r' = o.
Proof. by intros [-> | ->]. Qed.

(** The keys and the generation at the destination after refreshing and migrating *)
Lemma before_attach s s1 o s2 dest :
  moves s s1 → rc_self s1 = rc_self s <| re_observed := o |> →
  (∀ k, is_Some (o !! k) → is_Some (re_observed (rc_self s) !! k)) →
  (∀ k c, re_observed (rc_self s) !! k = Some (Some c) → o !! k = Some (Some c)) →
  (rc_self s2 = rc_self s1 ∨
    ∃ d, tgt_attached (re_intent (rc_self s1)) = Some d ∧ migration_post P s1 d s2) →
  tgt_attached (re_intent (rc_self s)) = Some dest →
  (∀ k, is_Some (re_observed (rc_self s2) !! k) → is_Some (re_observed (rc_self s) !! k) ∨ k = n_id dest) ∧
  (P → ∀ c c' v v', re_observed (rc_self s) !! n_id dest = Some (Some c) → lc_generation c = Some v → v ≤ bound (rc_row s) →
    re_observed (rc_self s2) !! n_id dest = Some (Some c') → lc_generation c' = v' → ∃ v'', v' = Some v'' ∧ v ≤ v'') ∧
  (∀ g, renewed P s2 g → moves s s2 → renewed P s g).
Proof.
  intros Hg1 Hs1 Hk1 Hc1 [Hs2|(d & Hd & g & o2 & Hm & _ & Hb & Hk & Hc)] Hdest.
  - rewrite Hs2, Hs1. simpl. split; [intros k Hk; left; by apply Hk1|]. split.
    { intros _ c c' v v' Hobs Hv _ Ho <-. apply Hc1 in Hobs. exists v. split; [congruence|lia]. }
    intros g [Hg|Hg] H2; [left; by rewrite Hs2, Hs1 in Hg|right]. intros HP. destruct (Hg HP) as (v & ? & ?). exists v.
    split; [done|]. pose proof (go_row _ _ _ _ H2). lia.
  - rewrite (migrated_observed _ _ _ _ _ Hm). assert (d = dest) as -> by (rewrite Hs1 in Hd; simpl in Hd; congruence). split.
    + intros k [Hk'| ->]%Hk; [|by right]. left. rewrite Hs1 in Hk'. by apply Hk1.
    + split.
      { intros HP c c' v v' _ _ Hle Ho <-. rewrite (Hc _ Ho). exists g. split; [done|]. specialize (Hb HP). pose proof (go_row _ _ _ _ Hg1). lia. }
      intros g' Hg' H2. right. intros HP. destruct Hg' as [Hg'|Hg'].
      * exists g. split; [destruct Hm as [Hm|Hm]; by rewrite Hm in Hg'; simplify_eq/=|]. specialize (Hb HP). pose proof (go_row _ _ _ _ Hg1). lia.
      * destruct (Hg' HP) as (v & ? & ?). exists v. split; [done|]. pose proof (go_row _ _ _ _ H2). lia.
Qed.

Lemma same_task_wanted r r' g : same_task r r' → wanted_attached r' g = wanted_attached r g.
Proof. by intros ->. Qed.

Lemma reconcile_attachment_spec order s :
  ok P s → valid_generation (re_generation (rc_self s)) →
  wp (reconcile_attachment order)
    (λ r s', moves s s' ∧ match r with Ok _ => attached_part s s' | Err _ => True | Panic => False end) s.
Proof.
  intros Hok Hv. unfold reconcile_attachment. wp_step. eapply wp_mono; [by apply (maybe_refresh_observed_spec P anything)|].
  intros [b|i|] s1 [Hg1 Hr1]; [|done..]. destruct Hr1 as (Hb & o & Hs1 & Hk1 & Hc1).
  wp_step. eapply wp_mono; [apply (maybe_live_migrate_spec P anything); [apply Hg1|by rewrite Hs1|done]|].
  intros r s2 [Hg2 Hr2]. assert (H2 : moves s s2) by (by etrans). destruct r as [[]|i|]; [|by split..].
  assert (Hint : re_intent (rc_self s2) = re_intent (rc_self s)) by (by rewrite (go_task _ _ _ _ H2)).
  eapply wp_mono; [by apply (reconcile_attached_spec P anything); [apply H2|done|rewrite Hint]|].
  intros r s3 [Hg3 Hr3]. split; [by etrans|]. destruct r as [[]|i|]; [|done..]. rewrite Hint in Hr3.
  unfold attached_part. destruct (tgt_attached (re_intent (rc_self s))) as [dest|] eqn:Hdest.
  - destruct (before_attach s s1 o s2 dest Hg1 Hs1 Hk1 Hc1 Hr2 Hdest) as (Hkeys & Hnew & Hren).
    destruct Hr3 as (g & Hgen & Hobs & Hf & Hrn & s' & Hg' & Htold). split.
    + intros k. rewrite Hobs. intros [<-|[_ Hk]]%lookup_insert_is_Some; [right; by exists dest|].
      apply Hkeys in Hk as [|]; [by left|right; by exists dest].
    + exists g. split; [done|]. rewrite Hobs, lookup_insert_eq, (same_task_wanted _ _ g (go_task _ _ _ _ H2)). split; [done|].
      split; [exists s'; split; [|done]; etrans; [exact (go_trace _ _ _ _ H2)|exact (go_trace _ _ _ _ Hg')]|].
      split; [by apply Hren|].
      intros HP c v Hc Hcv Hle. destruct Hf as [(c' & Hc' & Hcg)|Hf].
      * destruct (Hnew HP _ _ _ _ Hc Hcv Hle Hc' Hcg) as (v' & Hv' & ?). exists v'. by destruct g; simplify_eq/=.
      * destruct (Hf HP) as (v' & -> & ?). exists v'. split; [done|]. pose proof (go_row _ _ _ _ H2). lia.
  - subst s3. destruct Hr2 as [Hs2|(d & Hd & _)]; [|rewrite Hs1 in Hd; simpl in Hd; congruence].
    rewrite Hs2, Hs1. split; [intros k Hk; left; auto|done].
Qed.

Lemma NoDup_fmap_inj {A B} (f : A → B) (l : list A) x y : NoDup (f <$> l) → x ∈ l → y ∈ l → f x = f y → x = y.
Proof.
  induction l as [|z l IH]; [by intros _ ?%elem_of_nil|]. rewrite fmap_cons. intros [Hz Hnd]%NoDup_cons.
  intros [->|Hx]%elem_of_cons [->|Hy]%elem_of_cons Hf; [done| | |by apply IH]; destruct Hz.
  - rewrite Hf. by apply list_elem_of_fmap_2.
  - rewrite <- Hf. by apply list_elem_of_fmap_2.
Qed.

Lemma sublist_elem {A} (l k : list A) x : l `sublist_of` k → x ∈ l → x ∈ k.
Proof. intros Hl Hx. eapply elem_of_submseteq; [exact Hx|by apply sublist_submseteq]. Qed.

Lemma fst_change_ids c (l : list Node) : (λ i : Node * LocationConfig, n_id i.1) <$> ((λ n, (n, c)) <$> l) = n_id <$> l.
Proof. by rewrite <- list_fmap_compose. Qed.

(** The rest of [reconcile], from the state [s] on *)
Lemma reconcile_rest_spec s :
  ok P s → NoDup (n_id <$> targets (rc_self s)) →
  let self := rc_self s in
  wp (changes ← secondary_changes (tgt_secondary (re_intent self));
      apply_changes (changes ++ ((λ node, (node, detached_conf self)) <$> re_detach self)))
    (λ r s', goes P plain s s' ∧
    match r with
    | Ok _ =>
      touches (n_id <$> (tgt_secondary (re_intent self) ++ re_detach self)) s s' ∧
      (∀ n, n ∈ tgt_secondary (re_intent self) → settled s' n (wanted_secondary self)) ∧
      (∀ n, n ∈ re_detach self → re_observed (rc_self s') !! n_id n = None ∨ is_up n s' = false)
    | Err _ => True
    | Panic => False
    end) s.
Proof.
  intros Hok Hnd self. unfold targets in Hnd. rewrite !fmap_app in Hnd. apply NoDup_app in Hnd as (_ & _ & Hnd).
  pose proof Hnd as (Hnds & Hdis & Hndd)%NoDup_app. wp_step.
  eapply wp_mono; [by apply (secondary_changes_spec P plain)|]. intros [changes|i|] s1 [Hg1 Hr1]; [|done..].
  destruct Hr1 as (Ht1 & l & -> & Hl & Hset). fold self in Hset, Ht1 |- *.
  assert (Hid : (λ i : Node * LocationConfig, n_id i.1) <$> (((λ n, (n, wanted_secondary self)) <$> l) ++
      ((λ node, (node, detached_conf self)) <$> re_detach self)) = (n_id <$> l) ++ (n_id <$> re_detach self)).
  { by rewrite fmap_app, !fst_change_ids. }
  assert (Hsub : (n_id <$> l) ++ (n_id <$> re_detach self) `sublist_of` (n_id <$> tgt_secondary (re_intent self)) ++ (n_id <$> re_detach self)).
  { apply sublist_app; [by apply fmap_sublist|done]. }
  eapply wp_mono; [apply (apply_changes_spec P plain); [apply Hg1|rewrite Hid; exact (sublist_NoDup _ _ Hnd Hsub)| |by intros n c a Hc]|].
  { apply Forall_forall. intros i [(n & -> & _)%list_elem_of_fmap|(n & -> & _)%list_elem_of_fmap]%elem_of_app; done. }
  intros r s2 [Hg2 Hr2]. split; [by etrans|]. destruct r as [[]|i|]; [|done..]. rewrite Hid in Hr2. destruct Hr2 as [Ht2 Hch].
  split; [|split].
  - eapply touches_trans; [exact Ht1|exact Ht2|rewrite fmap_app; set_solver|rewrite fmap_app].
    intros k Hk. by eapply sublist_elem.
  - assert (Hin : ∀ m, (m, wanted_secondary self) ∈ (λ n, (n, wanted_secondary self)) <$> l → settled s2 m (wanted_secondary self)).
    { intros m Hm. specialize (Hch (m, wanted_secondary self)). simpl in Hch.
      apply Hch, elem_of_app. by left. }
    intros n Hn. destruct (Hset n Hn) as [Hnl|Hs].
    + apply Hin. by apply list_elem_of_fmap_2' with n.
    + destruct (decide (n_id n ∈ n_id <$> l)) as [(m & Hm & Hml)%list_elem_of_fmap|Hnl].
      * assert (n = m) as -> by (eapply NoDup_fmap_inj; [exact Hnds|done|by eapply sublist_elem|done]).
        apply Hin. by apply list_elem_of_fmap_2' with m.
      * eapply settled_mono; [exact Hs|exact Hg2|exact Ht2|]. rewrite elem_of_app. intros [|Hd]; [done|].
        eapply Hdis; [|exact Hd]. by apply list_elem_of_fmap_2.
  - intros n Hn. specialize (Hch (n, detached_conf self)). simpl in Hch. apply Hch. apply elem_of_app. right. by apply list_elem_of_fmap_2' with n.
Qed.

Lemma reconcile_locations_spec order s :
  ok P s → valid_generation (re_generation (rc_self s)) → NoDup (n_id <$> targets (rc_self s)) →
  wp (reconcile_locations order) (λ r s', moves s s' ∧
    match r with Ok _ => reconciled P s s' | Err _ => True | Panic => False end) s.
Proof.
  intros Hok Hv Hnd. unfold reconcile_locations, get_self. wp_step. eapply wp_mono; [by apply reconcile_attachment_spec|].
  intros r s1 [Hg1 Hr1]. destruct r as [[]|i|]; [|done..]. destruct Hr1 as [Hkeys Hatt]. do 4 wp_step.
  pose proof (go_task _ _ _ _ Hg1) as Ht. assert (Htg : targets (rc_self s1) = targets (rc_self s)) by (by rewrite Ht).
  assert (Hint : re_intent (rc_self s1) = re_intent (rc_self s)) by (by rewrite Ht).
  assert (Hdet : re_detach (rc_self s1) = re_detach (rc_self s)) by (by rewrite Ht).
  assert (Hws : wanted_secondary (rc_self s1) = wanted_secondary (rc_self s)) by (by rewrite Ht). clear Ht.
  eapply wp_mono; [apply reconcile_rest_spec; [apply Hg1|by rewrite Htg]|]. intros r s2 [Hg2 Hr2].
  split; [etrans; [exact Hg1|by eapply goes_weaken]|]. destruct r as [[]|i|]; [|done..].
  rewrite Hint, Hdet, Hws in Hr2. destruct Hr2 as (Htch & Hsec & Hdetach). split; [| |done..| |].
  - intros dest Hdest. rewrite Hdest in Hatt. destruct Hatt as (g & Hgen & Hobs & (s0 & Hsuf & Htold) & Hrn & Hnew). exists g.
    split; [destruct Htch as (o & -> & _); done|]. split; [|split; [by exists s0, s1|by split]].
    rewrite (touches_lookup _ _ _ _ Htch); [done|]. unfold targets in Hnd. rewrite Hdest, fmap_app in Hnd. simpl in Hnd.
    by apply NoDup_cons in Hnd as [? _].
  - done.
  - intros k Hk. destruct (decide (k ∈ n_id <$> (tgt_secondary (re_intent (rc_self s)) ++ re_detach (rc_self s)))) as [Hin|Hni].
    { right. unfold targets. rewrite fmap_app. apply elem_of_app. by right. }
    rewrite (touches_lookup _ _ _ _ Htch Hni) in Hk. apply Hkeys in Hk as [|(dest & Hdest & ->)]; [by left|right].
    unfold targets. rewrite Hdest. simpl. by left.
  - intros Hnone. rewrite Hnone in Hatt. by destruct Htch as (o & -> & _).
Qed.

Lemma reconciled_detach s s1 :
  reconciled P s s1 → moves s s1 →
  let s2 := s1 <| rc_trace := EvDetach :: rc_trace s1 |> in reconciled P s s2 ∧ moves s s2.
Proof.
  intros [Ha Hs Hd Hk Hn] Hg s2. split.
  - split; [|done..]. intros dest Hdest. destruct (Ha dest Hdest) as (g & Hg' & Ho & (sa & sb & Hsuf & Ht & Hgo) & Hr). exists g.
    split; [done|]. split; [done|]. split; [|done]. exists sa, sb. split; [done|]. split; [done|].
    etrans; [exact Hgo|]. apply quiet_record; [exact (go_ok _ _ _ _ Hgo)|done..].
  - etrans; [exact Hg|]. apply quiet_record; [exact (go_ok _ _ _ _ Hg)|done..].
Qed.

Lemma reconcile_spec order s :
  ok P s → valid_generation (re_generation (rc_self s)) → NoDup (n_id <$> targets (rc_self s)) →
  wp (reconcile order) (λ r s', moves s s' ∧
    match r with Ok _ => reconciled P s s' ∧ detach_told s s' | Err _ => True | Panic => False end) s.
Proof.
  intros Hok Hv Hnd. unfold reconcile, handle_detached, get_self. wp_step. eapply wp_mono; [by apply reconcile_locations_spec|].
  intros r s1 [Hg1 Hr1]. destruct r as [[]|i|]; [|done..]. do 4 wp_step. unfold detach_told.
  assert (Hint : re_intent (rc_self s1) = re_intent (rc_self s)) by (by rewrite (go_task _ _ _ _ Hg1)).
  assert (Hdet : re_detach (rc_self s1) = re_detach (rc_self s)) by (by rewrite (go_task _ _ _ _ Hg1)). rewrite Hint, Hdet.
  destruct (andb _ _) eqn:Hb; wp_step.
  - destruct (reconciled_detach s s1 Hr1 Hg1) as [Hr2 Hg2]. split; [exact Hg2|]. by split.
  - split; [exact Hg1|]. split; [exact Hr1|]. intros Hn Hne. by rewrite (bool_decide_true (tgt_attached _ = None)), (bool_decide_false (_ = [])) in Hb.
Qed.
End reconcile.
