(* ===== verification/ReconcilerRuns.v ===== *)
(** * Reconcilers in the storage controller

    What a single reconciler promises: it reaches the intent, a live migration keeps the
    shard served.  Then the composition with the shard that spawned it, and the system of a
    shard, its row in the database and its reconcilers over time. *)

From S2P Require Import Prelude Bytes Text Membership Ids Lsn Key Shard.
From S2P Require Import Scheduler IntentState TenantShard Reconciler ReconcilerProps.

Lemma ok_false s : ok False s.
Proof. by intros ?. Qed.

(** ** A single reconciler *)

(** The computes were told of the destination, or the origin does not serve the shard *)
Definition released (self : Reconciler) (origin dest : Node) (ev : Event) : Prop :=
  ev = EvNotify (n_id dest) (inl tt) ∨
  ev = EvNotify (n_id dest) (inr (NotifyUnexpected STATUS_NOT_FOUND)) ∧ re_tenant_creation_hint self = true ∨
  ∃ a, ev = EvGetLocationConfig (n_id origin) a ∧ gone a = true.

(** The trace [l] before the origin of a migration loses its location, which ends in [s'] *)
Definition served_before (self : Reconciler) (origin dest : Node) (l : Trace) (s' : Recon) : Prop :=
  ∃ stale multi baseline ev, lc_mode stale = AttachedStale ∧ lc_mode multi = AttachedMulti ∧
    caught_up (n_id dest) baseline ev ∧
    let before := served origin dest stale multi baseline ev in
    (∃ h, released self origin dest h ∧ h :: before `sublist_of` l) ∨
    is_up origin s' = false ∧ re_compute_notify_failure (rc_self s') = true ∧ before `sublist_of` l.

Lemma handed_over_served P C self origin dest s s' l :
  handed_over origin dest s → goes P C s s' → same_task self (rc_self s) → rc_trace s `suffix_of` l →
  served_before self origin dest l s'.
Proof.
  intros (s0 & stale & multi & baseline & ev & H1 & H2 & H3 & Hsub & Hsuf & Hhint & Hgo) Hg Hself Hl.
  exists stale, multi, baseline, ev. split; [done|]. split; [done|]. split; [done|].
  assert (Hh : re_tenant_creation_hint (rc_self s0) = re_tenant_creation_hint self) by (rewrite Hhint; by rewrite Hself).
  assert (Hcons : ∀ h tr, rc_trace s = h :: tr → rc_trace s0 `suffix_of` tr →
    h :: served origin dest stale multi baseline ev `sublist_of` l).
  { intros h tr Htr Htr0. etrans; [|by apply sublist_suffix]. by eapply sublist_after. }
  destruct Hgo as [(a & tr & Htr & Htr0 & Ha)|(Hflag & [Hup|(a & tr & Htr & Htr0 & Ha)])].
  - left. eexists. split; [|by eapply Hcons]. destruct Ha as [->|(-> & Hc & _)]; [by left|right; left]. by rewrite <- Hh.
  - right. split; [by eapply is_up_mono|]. split; [by apply (go_flag _ _ _ _ Hg)|].
    etrans; [exact Hsub|]. apply sublist_suffix. by etrans.
  - left. eexists. split; [|by eapply Hcons]. right. right. by exists a.
Qed.

(** An event that demotes is not in the part of the trace before the hand-over. *)
Lemma demotes_after P origin (s s1 : Recon) l1 l2 ev :
  goes P (λ ev, ¬ demotes (n_id origin) ev) s s1 → demotes (n_id origin) ev →
  rc_trace s1 `suffix_of` l1 ++ ev :: l2 → rc_trace s `suffix_of` l2 → rc_trace s1 `suffix_of` l2.
Proof.
  intros [_ (l & Hl & HC) _ _ _ _ _] Hev [k Hk] [m ->].
  assert (Hno : ∀ k', rc_trace s1 = k' ++ ev :: m ++ rc_trace s → False).
  { intros k' Hk'. rewrite Hl, app_comm_cons, app_assoc in Hk'. apply app_inv_tail in Hk' as ->.
    destruct (HC ev) as [Hi|?]; [set_solver|by destruct ev|done]. }
  apply app_eq_inv in Hk as [(k' & _ & Hk')|(k' & _ & Hk')]; [by apply Hno in Hk'|].
  destruct k' as [|e k']; simplify_eq/=; [by destruct (Hno [])|]. by exists k'.
Qed.

(** C12: during a live migration the shard is served all the time: before the origin is
    configured as anything else than stale, however the migration ends, it was made stale,
    the positions of its timelines were read after that, the destination was attached and has
    caught up with these positions, and then the computes were told of the destination, or
    the origin was found not to serve the shard any more (or the notification failed and the
    origin is down, and it is to be repeated).  The migration does not panic. *)
Theorem live_migrate_keeps_serving origin dest s :
  tgt_attached (re_intent (rc_self s)) = Some dest → n_id origin ≠ n_id dest →
  valid_generation (re_generation (rc_self s)) →
  let '(r, s') := live_migrate origin dest s in
  r ≠ Panic ∧
  ∀ l1 ev l2, rc_trace s' = l1 ++ ev :: l2 → rc_trace s `suffix_of` l2 → demotes (n_id origin) ev →
    served_before (rc_self s) origin dest l2 s'.
Proof.
  intros Hdest Hne Hv.
  assert (H : wp (live_migrate origin dest) (λ r s', r ≠ Panic ∧ ∀ l1 ev l2, rc_trace s' = l1 ++ ev :: l2 →
    rc_trace s `suffix_of` l2 → demotes (n_id origin) ev → served_before (rc_self s) origin dest l2 s') s).
  { unfold live_migrate. wp_step. wp_step; [|by bool_prop]. wp_step.
    eapply wp_mono; [apply (switch_over_spec False (λ ev, ¬ demotes (n_id origin) ev)); [apply ok_false|done..]|].
    intros r s1 [Hg1 Hr1]. assert (Hearly : r ≠ Ok tt → r ≠ Panic → ∀ l1 ev l2, rc_trace s1 = l1 ++ ev :: l2 →
      rc_trace s `suffix_of` l2 → demotes (n_id origin) ev → served_before (rc_self s) origin dest l2 s1).
    { intros _ _ l1 ev l2 Heq Hsuf Hev. assert (Hbad : rc_trace s1 `suffix_of` l2) by (by eapply demotes_after; [..|rewrite <- Heq|]).
      apply suffix_length in Hbad. rewrite Heq, length_app in Hbad. simpl in Hbad. lia. }
    destruct r as [[]|i|]; [clear Hearly|by split; [|apply Hearly]|done]. destruct Hr1 as (Hho & g & o & Hm & _).
    assert (Hgen : re_generation (rc_self s1) = Some (GenValid g)) by (by destruct Hm as [-> | ->]).
    eapply wp_mono; [by apply (finish_migration_spec False anything origin dest g); [apply ok_false|done|..]|].
    intros r s2 [Hg2 Hr2]. split; [by destruct r|]. intros l1 ev l2 Heq Hsuf Hev.
    eapply handed_over_served; [exact Hho|exact Hg2|exact (go_task _ _ _ _ Hg1)|].
    eapply demotes_after; [exact Hg1|exact Hev| |exact Hsuf]. rewrite <- Heq. exact (go_trace _ _ _ _ Hg2). }
  unfold wp in H. by destruct (live_migrate origin dest s).
Qed.

(** The computes were told of [dest] after the last location of the shard was attached; while
    the tenant is created, that the tenant is not known yet (404) is enough, and is remembered
    as a failure. *)
Definition computes_told (s : Recon) (dest : Node) (s' : Recon) : Prop :=
  ∃ l a l', rc_trace s' = l ++ EvNotify (n_id dest) a :: l' ∧ rc_trace s `suffix_of` l' ∧ (∀ ev, ev ∈ l → plain ev) ∧
    (a = inl tt ∨
     a = inr (NotifyUnexpected STATUS_NOT_FOUND) ∧ re_tenant_creation_hint (rc_self s') = true ∧
       re_compute_notify_failure (rc_self s') = true).

Lemma told_computes P s s1 dest s2 s' :
  rc_trace s `suffix_of` rc_trace s1 → told s1 dest s2 → goes P plain s2 s' → computes_told s dest s'.
Proof.
  intros Hsuf (a & tr & Htr & Htr1 & Ha) Hg. destruct (go_new _ _ _ _ Hg) as (l & Hl & HC).
  exists l, a, tr. rewrite Hl, Htr. split; [done|]. split; [by etrans|]. split.
  - intros ev Hev. destruct (HC ev Hev) as [Hi|]; [by destruct ev|done].
  - destruct Ha as [|(? & _ & Hf & Hh)]; [by left|right]. split; [done|]. split; [|by apply (go_flag _ _ _ _ Hg)].
    by rewrite (go_task _ _ _ _ Hg).
Qed.

(** C16: a reconciler never panics, and when it succeeds it has reached the intent it was
    started with: the attached location is configured with the reconciler's generation, and
    the computes were told of it after the last attachment (or, if the tenant is being
    created, the control plane answered that it does not know the tenant yet); each secondary
    location is configured, or is on a node that went down and is unknown; each other location is
    detached, or its node went down; and a shard that is not attached any more is reported
    to the hook of the computes. *)
Theorem reconcile_reaches_intent order s :
  valid_generation (re_generation (rc_self s)) → NoDup (n_id <$> targets (rc_self s)) →
  match reconcile order s with
  | (Ok _, s') =>
    (∀ dest, tgt_attached (re_intent (rc_self s)) = Some dest →
      ∃ g, re_generation (rc_self s') = Some g ∧ computes_told s dest s' ∧
        re_observed (rc_self s') !! n_id dest = Some (Some (wanted_attached (rc_self s) g))) ∧
    (∀ n, n ∈ tgt_secondary (re_intent (rc_self s)) → settled s' n (wanted_secondary (rc_self s))) ∧
    (∀ n, n ∈ re_detach (rc_self s) → re_observed (rc_self s') !! n_id n = None ∨ is_up n s' = false) ∧
    detach_told s s'
  | (Err _, _) => True
  | (Panic, _) => False
  end.
Proof.
  intros Hv Hnd. pose proof (reconcile_spec False order s (ok_false s) Hv Hnd) as H. unfold wp in H.
  destruct (reconcile order s) as [[[]|i|] s']; simpl in H; [|done|by destruct H]. destruct H as [_ [[Ha Hs Hd _ _] Htold]]. split; [|done].
  intros dest Hdest. destruct (Ha dest Hdest) as (g & Hg & Ho & (s1 & s2 & Hsuf & Ht & Hgo) & _). exists g.
  split; [done|]. split; [|done]. by eapply told_computes.
Qed.

(** ** The result of a reconciler *)

Lemma apply_delta_other d o k : k ≠ delta_node_id d → apply_observed_delta d o !! k = o !! k.
Proof.
  destruct d as [n loc|n]; simpl; intros Hk; [|by rewrite lookup_delete_ne].
  repeat case_match; by rewrite lookup_insert_ne by done.
Qed.

Lemma apply_deltas_other ds : ∀ o k, k ∉ delta_node_id <$> ds →
  foldl (λ o d, apply_observed_delta d o) o ds !! k = o !! k.
Proof.
  induction ds as [|d ds IH]; intros o k Hk; simpl; [done|]. rewrite fmap_cons in Hk.
  apply not_elem_of_cons in Hk as [Hd Hk]. rewrite IH by done. by apply apply_delta_other.
Qed.

Lemma apply_delta_local d o o' k : o !! k = o' !! k → apply_observed_delta d o !! k = apply_observed_delta d o' !! k.
Proof.
  intros Hk. destruct (decide (k = delta_node_id d)) as [->|]; [|by rewrite !apply_delta_other].
  destruct d as [n loc|n]; simpl in *; [|by rewrite !lookup_delete_eq]. rewrite Hk.
  repeat case_match; by rewrite !lookup_insert_eq.
Qed.

(** Deltas for different nodes do not interfere. *)
Lemma apply_deltas_lookup ds : ∀ o d,
  NoDup (delta_node_id <$> ds) → d ∈ ds →
  foldl (λ o d, apply_observed_delta d o) o ds !! delta_node_id d = apply_observed_delta d o !! delta_node_id d.
Proof.
  induction ds as [|e ds IH]; intros o d Hnd Hd; [by apply elem_of_nil in Hd|]. rewrite fmap_cons in Hnd.
  apply NoDup_cons in Hnd as [He Hnd]. simpl. apply elem_of_cons in Hd as [->|Hd]; [by apply apply_deltas_other|].
  rewrite IH by done. apply apply_delta_local, apply_delta_other.
  intros Heq. apply He. rewrite <- Heq. by apply list_elem_of_fmap_2.
Qed.

Lemma elem_of_observed_deltas r d :
  d ∈ observed_deltas r ↔
  match d with
  | DeltaUpsert k loc => re_observed r !! k = Some loc ∧ re_original_observed r !! k ≠ Some loc
  | DeltaDelete k => re_observed r !! k = None ∧ is_Some (re_original_observed r !! k)
  end.
Proof.
  unfold observed_deltas. rewrite elem_of_app, !list_elem_of_omap. split.
  - intros [([k loc] & Hin & Hd)|([k loc] & Hin & Hd)]; apply elem_of_map_to_list in Hin;
      case_bool_decide; simplify_eq/=; by eauto.
  - destruct d as [k loc|k]; [intros [Ho Hne]; left; exists (k, loc)|intros [Hn [loc Ho]]; right; exists (k, loc)];
      rewrite elem_of_map_to_list; (split; [done|]); simpl; [by rewrite bool_decide_false|by rewrite bool_decide_true].
Qed.

Lemma NoDup_omap_ids {A} (f : A → option ObservedStateDelta) (id : A → NodeId) l :
  (∀ x d, f x = Some d → delta_node_id d = id x) → NoDup (id <$> l) → NoDup (delta_node_id <$> omap f l).
Proof.
  intros Hf. induction l as [|x l IH]; [constructor|]. rewrite fmap_cons. intros [Hx Hnd]%NoDup_cons. simpl.
  destruct (f x) as [d|] eqn:Hd; [|by apply IH]. rewrite fmap_cons. apply NoDup_cons. split; [|by apply IH].
  rewrite (Hf x d Hd). intros (e & He & (y & Hy & Hye)%list_elem_of_omap)%list_elem_of_fmap. apply Hx. rewrite He, (Hf y e Hye).
  by apply list_elem_of_fmap_2.
Qed.

Lemma observed_deltas_NoDup r : NoDup (delta_node_id <$> observed_deltas r).
Proof.
  unfold observed_deltas. rewrite fmap_app. apply NoDup_app. split; [|split].
  - apply (NoDup_omap_ids _ fst); [|apply NoDup_fst_map_to_list]. intros [k loc] d. case_bool_decide; naive_solver.
  - intros k (d & -> & (i & Hi & Hd)%list_elem_of_omap)%list_elem_of_fmap (e & He & (j & Hj & Hej)%list_elem_of_omap)%list_elem_of_fmap.
    destruct i as [i loc], j as [j loc']. apply elem_of_map_to_list in Hi, Hj. repeat case_bool_decide; naive_solver.
  - apply (NoDup_omap_ids _ fst); [|apply NoDup_fst_map_to_list]. intros [k loc] d. case_bool_decide; naive_solver.
Qed.

(** The generation of the location on a node, as far as it is known *)
Definition generation_at (o : ObservedState) (k : NodeId) : option Z := conf ← mjoin (o !! k); lc_generation conf.

Definition regressed (o o' : ObservedState) (k : NodeId) : bool :=
  match generation_at o k, generation_at o' k with Some old, Some new => new <? old | _, _ => false end.

Lemma apply_observed_deltas_lookup r k :
  foldl (λ o d, apply_observed_delta d o) (re_original_observed r) (observed_deltas r) !! k =
    if regressed (re_original_observed r) (re_observed r) k then Some None else re_observed r !! k.
Proof.
  set (o := re_original_observed r).
  assert (Hsame : re_observed r !! k = o !! k → o !! k = (if regressed o (re_observed r) k then Some None else re_observed r !! k)).
  { intros Heq. unfold regressed, generation_at. rewrite Heq. destruct (mjoin (o !! k) ≫= lc_generation); [|done]. by rewrite Z.ltb_irrefl. }
  assert (Hnone : k ∉ delta_node_id <$> observed_deltas r → re_observed r !! k = o !! k).
  { intros Hk. destruct (re_observed r !! k) as [loc|] eqn:Hr; destruct (o !! k) as [loc'|] eqn:Ho; [|exfalso; apply Hk..|done].
    - destruct (decide (loc = loc')) as [->|]; [done|]. destruct Hk. apply list_elem_of_fmap. exists (DeltaUpsert k loc).
      split; [done|]. apply elem_of_observed_deltas. fold o. rewrite Ho. by split; [|congruence].
    - apply list_elem_of_fmap. exists (DeltaUpsert k loc). split; [done|]. apply elem_of_observed_deltas. fold o. by rewrite Ho.
    - apply list_elem_of_fmap. exists (DeltaDelete k). split; [done|]. apply elem_of_observed_deltas. fold o. by rewrite Ho. }
  destruct (decide (k ∈ delta_node_id <$> observed_deltas r)) as [(d & -> & Hd)%list_elem_of_fmap|Hk].
  - rewrite apply_deltas_lookup by (done || apply observed_deltas_NoDup). clear Hsame Hnone. apply elem_of_observed_deltas in Hd. fold o in Hd.
    destruct d as [k loc|k]; simpl; destruct Hd as [Hr Ho]; unfold regressed, generation_at; rewrite Hr; simpl.
    + destruct (mjoin (o !! k) ≫= lc_generation), (loc ≫= lc_generation); rewrite ?lookup_insert_eq; try done.
      by case_match; rewrite lookup_insert_eq.
    + rewrite lookup_delete_eq. by destruct (mjoin (o !! k) ≫= lc_generation).
  - rewrite apply_deltas_other by done. auto.
Qed.

(** the deltas that a reconciler reports, applied to the locations that it started with,
    give the locations that it ended with, on every node; where the generation of a location
    would go back, the location becomes unknown. *)
Theorem observed_deltas_roundtrip r t k :
  ts_observed (apply_observed_deltas (observed_deltas r) (t <| ts_observed := re_original_observed r |>)) !! k =
    if regressed (re_original_observed r) (re_observed r) k then Some None else re_observed r !! k.
Proof. apply apply_observed_deltas_lookup. Qed.

(** ** The shard after a reconciler has finished *)

Lemma reconcile_task_spec P order seq must_notify s :
  ok P s → valid_generation (re_generation (rc_self s)) → NoDup (n_id <$> targets (rc_self s)) →
  wp (reconcile_task order seq must_notify) (λ r s', goes P anything s s' ∧
    match r with
    | Ok res =>
      res = mkReconcileResult seq (rr_ok res) (re_generation (rc_self s')) (observed_deltas (rc_self s'))
        (re_compute_notify_failure (rc_self s')) ∧
      (rr_ok res = true → ∃ s1, reconciled P s s1 ∧ goes P anything s1 s' ∧
        (rc_self s' = rc_self s1 ∨ rc_self s' = flagged (rc_self s1)))
    | Err i => i = Suspended
    | Panic => False
    end) s.
Proof.
  intros Hok Hv Hnd. unfold reconcile_task, get_self, modify_self. wp_step. apply wp_attempt.
  eapply wp_mono; [by apply reconcile_spec|]. intros r s1 [Hg1 Hr1]. destruct r as [[]|[e|]|]; [| |done..].
  - destruct Hr1 as [Hr1 _]. wp_step. destruct must_notify; simpl.
    + wp_step. apply wp_attempt. eapply wp_mono; [apply (compute_notify_spec P anything); [apply Hg1|done]|].
      intros r s2 [Hg2 Hr2]. assert (H2 : goes P anything s s2) by (by etrans). unfold notify_post in Hr2.
      assert (Hs2 : rc_self s2 = rc_self s1 ∨ rc_self s2 = flagged (rc_self s1)).
      { destruct (tgt_attached _); [by destruct Hr2|]. destruct Hr2 as [_ ->]. by left. }
      destruct r as [[]|[e|]|]; [|do 6 wp_step; simpl|done|by destruct (tgt_attached _), Hr2].
      all: try do 6 wp_step; split; [done|]; split; [done|]; intros _; by exists s1.
    + do 6 wp_step. split; [done|]. split; [done|]. intros _. exists s1. split; [done|]. split; [|by left]. by apply goes_refl, Hg1.
  - wp_step. destruct must_notify; simpl.
    + wp_step. do 5 wp_step. simpl. split; [|done]. etrans; [exact Hg1|]. by apply goes_flagged, Hg1.
    + do 6 wp_step. by split.
Qed.

(** The nodes of the service are stored under their identifiers. *)
Definition keyed (nodes : gmap NodeId Node) : Prop := ∀ k n, nodes !! k = Some n → n_id n = k.

Lemma nodes_of_elems {E} nodes ids : ∀ l, keyed nodes → nodes_of (E := E) nodes ids = Ok l →
  n_id <$> l = ids ∧ ∀ n, n ∈ l → nodes !! n_id n = Some n.
Proof.
  unfold nodes_of. induction ids as [|k ids IH]; intros l Hkey; simpl; [intros [= <-]; split; [done|by intros n ?%elem_of_nil]|].
  destruct (foldr _ _ ids) as [acc|e|]; [|done..]. specialize (IH acc Hkey eq_refl) as [Hid Hall].
  simpl. destruct (nodes !! k) as [n|] eqn:Hn; [|done]. intros [= <-]. pose proof (Hkey _ _ Hn) as Hk. split.
  - by rewrite fmap_cons, Hid, Hk.
  - intros m [->|Hm]%elem_of_cons; [by rewrite Hk|by apply Hall].
Qed.

(** What a reconciler knows of the shard that spawned it *)
Record spawn_ok (nodes : gmap NodeId Node) (t t1 : TenantShard) (intent : TargetState) (detach : list Node) : Prop := mkSpawnOk {
  sp_shard : ts_observed t1 = ts_observed t ∧ ts_intent t1 = ts_intent t ∧ ts_generation t1 = ts_generation t;
  sp_attached : n_id <$> tgt_attached intent = is_attached (ts_intent t);
  sp_secondary : n_id <$> tgt_secondary intent = is_secondary (ts_intent t);
  sp_detach : ∀ k, k ∈ n_id <$> detach ↔ is_Some (ts_observed t !! k) ∧ k ∉ all_pageservers (ts_intent t);
  sp_detach_nodup : NoDup (n_id <$> detach);
  sp_known : ∀ n, n ∈ option_list (tgt_attached intent) ++ tgt_secondary intent ++ detach → nodes !! n_id n = Some n;
}.

Lemma ensure_sequence_same t :
  ts_observed (ensure_sequence_ahead t) = ts_observed t ∧ ts_intent (ensure_sequence_ahead t) = ts_intent t ∧
  ts_generation (ensure_sequence_ahead t) = ts_generation t.
Proof. unfold ensure_sequence_ahead. by case_match. Qed.

Lemma spawn_reconciler_spec {E} nodes t intent detach seq t1 :
  keyed nodes → spawn_reconciler (E := E) nodes t = Ok (intent, detach, seq, t1) → spawn_ok nodes t t1 intent detach.
Proof.
  intros Hkey. unfold spawn_reconciler. destruct (nodes_of nodes (filter _ _)) as [d|e|] eqn:Hd; [|done..]. simpl.
  destruct (ensure_sequence_same t) as (Ho & Hi & Hg). rewrite Hi. unfold TargetState_from_intent.
  destruct (nodes_of nodes (option_list _)) as [a|e|] eqn:Ha; [|done..]. simpl.
  destruct (nodes_of nodes (is_secondary _)) as [l|e|] eqn:Hl; [|done..]. simpl. intros [= <- <- _ <-].
  apply nodes_of_elems in Hd as [Hdid Hdn], Ha as [Haid Han], Hl as [Hlid Hln]; [|done..].
  assert (Hah : n_id <$> head a = is_attached (ts_intent t) ∧ option_list (head a) = a).
  { destruct (is_attached (ts_intent t)), a as [|n [|m a]]; simplify_eq/=; by split. }
  split; simpl; [by rewrite Ho, Hi, Hg|apply Hah|done| | |].
  - intros k. rewrite Hdid, list_elem_of_filter, list_elem_of_fmap. split.
    + intros [Hk ([k' loc] & -> & Hin%elem_of_map_to_list)]. split; [by eexists|done].
    + intros [[loc Hloc] Hk]. split; [done|]. exists (k, loc). split; [done|]. by apply elem_of_map_to_list.
  - rewrite Hdid. apply NoDup_filter, NoDup_fst_map_to_list.
  - intros n. rewrite (proj2 Hah), !elem_of_app. naive_solver.
Qed.

(** The generations that the shard knows of are not above that of the row. *)
Definition generations_below (t : TenantShard) (b : Z) : Prop :=
  generation_rank (ts_generation t) ≤ b ∧
  ∀ k c v, ts_observed t !! k = Some (Some c) → lc_generation c = Some v → v ≤ b.

(** The task of a reconciler, from the shard that spawned it *)
Definition task_state (t1 : TenantShard) (intent : TargetState) (detach : list Node) (warmup download : option Z) (hint : bool)
    (row : option ShardRow) (down : list NodeId) (cancelled : bool) (tr : Trace) (env : list EnvStep) : Recon :=
  mkRecon (spawned t1 intent detach warmup download hint) row down cancelled tr env.

Lemma spawn_targets nodes t t1 intent detach warmup download hint :
  spawn_ok nodes t t1 intent detach → NoDup (all_pageservers (ts_intent t)) →
  NoDup (n_id <$> targets (spawned t1 intent detach warmup download hint)).
Proof.
  intros [_ Ha Hs Hd Hnd _] Hint. unfold targets. simpl. rewrite app_assoc, fmap_app.
  assert (Hids : n_id <$> option_list (tgt_attached intent) ++ tgt_secondary intent = all_pageservers (ts_intent t)).
  { unfold all_pageservers. rewrite fmap_app, Hs, <- Ha. by destruct (tgt_attached intent). }
  rewrite Hids. apply NoDup_app. split; [done|]. split; [|done]. intros k Hk [_ ?]%Hd. done.
Qed.

Section settles.
Context (nodes : gmap NodeId Node) (t t1 : TenantShard) (intent : TargetState) (detach : list Node).
Context (s s1 : Recon) (r' : Reconciler) (warmup download : option Z) (hint : bool).
Hypothesis Hspawn : spawn_ok nodes t t1 intent detach.
Hypothesis Hnd : NoDup (all_pageservers (ts_intent t)).
Hypothesis Hself : rc_self s = spawned t1 intent detach warmup download hint.
Hypothesis Hbelow : generations_below t (bound (rc_row s)).
Hypothesis Hrec : reconciled True s s1.
Hypothesis Hr' : r' = rc_self s1 ∨ r' = flagged (rc_self s1).
Hypothesis Hup : ∀ n, n ∈ targets (rc_self s) → is_up n s1 = true.

Lemma settles_observed : re_observed r' = re_observed (rc_self s1).
Proof. by destruct Hr' as [-> | ->]. Qed.

Lemma settles_generation : re_generation r' = re_generation (rc_self s1).
Proof. by destruct Hr' as [-> | ->]. Qed.

Lemma targets_intent k : k ∈ n_id <$> targets (rc_self s) ↔ k ∈ all_pageservers (ts_intent t) ∨ k ∈ n_id <$> detach.
Proof.
  rewrite Hself. unfold targets, all_pageservers. simpl. rewrite !fmap_app, !elem_of_app, (sp_secondary _ _ _ _ _ Hspawn).
  rewrite <- (sp_attached _ _ _ _ _ Hspawn). destruct (tgt_attached intent); simpl; tauto.
Qed.

(** The locations after a success, without nodes that went down: those of the intent *)
Lemma settles_attached k : is_attached (ts_intent t) = Some k →
  ∃ g, re_generation r' = Some g ∧ renewed True s g ∧
    re_observed r' !! k = Some (Some (attached_location_conf g (ts_shard t1) (ts_config t1) (ts_policy t1))) ∧
    regressed (ts_observed t) (re_observed r') k = false.
Proof.
  rewrite <- (sp_attached _ _ _ _ _ Hspawn), settles_observed, settles_generation.
  destruct (tgt_attached intent) as [dest|] eqn:Hdest; [|done]. intros [= <-].
  destruct (rd_attached _ _ _ Hrec dest) as (g & Hg & Ho & _ & Hrn & Hnew); [by rewrite Hself|]. exists g.
  split; [done|]. split; [done|]. rewrite Ho, Hself. split; [done|]. unfold regressed, generation_at. rewrite Ho. simpl.
  destruct (ts_observed t !! n_id dest) as [[c|]|] eqn:Hc; [|done..]. simpl.
  destruct (lc_generation c) as [v|] eqn:Hv; [|done].
  assert (Hts : re_observed (rc_self s) !! n_id dest = Some (Some c)).
  { rewrite Hself. simpl. by rewrite (proj1 (sp_shard _ _ _ _ _ Hspawn)). }
  destruct (Hnew I c v Hts Hv) as (v' & -> & Hle); [by eapply (proj2 Hbelow)|]. simpl. by apply Z.ltb_ge.
Qed.

Lemma settles_secondary k : k ∈ is_secondary (ts_intent t) →
  re_observed r' !! k = Some (Some (secondary_location_conf (ts_shard t1) (ts_config t1))) ∧
  regressed (ts_observed t) (re_observed r') k = false.
Proof.
  rewrite <- (sp_secondary _ _ _ _ _ Hspawn), settles_observed. intros (n & -> & Hn)%list_elem_of_fmap.
  assert (Hn' : n ∈ tgt_secondary (re_intent (rc_self s))) by (by rewrite Hself).
  destruct (rd_secondary _ _ _ Hrec n Hn') as [Ho|[_ Hd]].
  - unfold regressed, generation_at. rewrite Ho, Hself. split; [done|]. simpl. by destruct (mjoin _ ≫= _).
  - rewrite Hup in Hd; [done|]. unfold targets. set_solver.
Qed.

Lemma settles_other k : k ∉ all_pageservers (ts_intent t) → re_observed r' !! k = None.
Proof.
  rewrite settles_observed. intros Hk. destruct (re_observed (rc_self s1) !! k) eqn:Ho; [|done]. exfalso.
  assert (Hdet : k ∈ n_id <$> detach).
  { destruct (rd_keys _ _ _ Hrec k) as [Hs|Ht]; [by rewrite Ho| |by apply targets_intent in Ht as [|]].
    apply (sp_detach _ _ _ _ _ Hspawn). split; [|done]. rewrite Hself in Hs. simpl in Hs.
    by rewrite (proj1 (sp_shard _ _ _ _ _ Hspawn)) in Hs. }
  apply list_elem_of_fmap in Hdet as (n & -> & Hn). destruct (rd_detach _ _ _ Hrec n) as [Hnone|Hd]; [by rewrite Hself|congruence|].
  rewrite Hup in Hd; [done|]. unfold targets. rewrite Hself. simpl. set_solver.
Qed.

Lemma settles_not_regressed k : regressed (ts_observed t) (re_observed r') k = false.
Proof.
  destruct (decide (k ∈ all_pageservers (ts_intent t))) as [Hk|Hk].
  - unfold all_pageservers in Hk. apply elem_of_app in Hk as [Hk|Hk]; [|by apply settles_secondary].
    destruct (is_attached (ts_intent t)) as [k'|] eqn:Ha; [|by apply elem_of_nil in Hk].
    apply list_elem_of_singleton in Hk as ->. by destruct (settles_attached k' Ha) as (g & _ & _ & _ & ?).
  - unfold regressed, generation_at. rewrite (settles_other k Hk). simpl. by destruct (mjoin _ ≫= _).
Qed.

Lemma settles_known k : k ∈ all_pageservers (ts_intent t) ∨ is_Some (ts_observed t !! k) →
  ∃ n, nodes !! k = Some n ∧ is_available n = true.
Proof.
  intros Hk. assert (Ht : k ∈ n_id <$> targets (rc_self s)).
  { apply targets_intent. destruct (decide (k ∈ all_pageservers (ts_intent t))); [by left|right].
    apply (sp_detach _ _ _ _ _ Hspawn). tauto. }
  apply list_elem_of_fmap in Ht as (n & -> & Hn). exists n. split.
  - apply (sp_known _ _ _ _ _ Hspawn). by rewrite Hself in Hn.
  - apply Hup in Hn. unfold is_up in Hn. by apply andb_true_iff in Hn as [? _].
Qed.

Hypothesis Horig : re_original_observed r' = ts_observed t.

Lemma settles_deltas : omap (filter_delta nodes) (observed_deltas r') = observed_deltas r'.
Proof.
  assert (Hall : ∀ d, d ∈ observed_deltas r' → filter_delta nodes d = Some d).
  { intros d Hd. apply elem_of_observed_deltas in Hd. rewrite Horig in Hd.
    destruct (settles_known (delta_node_id d)) as (n & Hn & Ha).
    - destruct d as [k loc|k]; simpl; [|right; apply Hd]. left. destruct (decide (k ∈ all_pageservers (ts_intent t))) as [|Hk]; [done|].
      rewrite (settles_other k Hk) in Hd. by destruct Hd.
    - unfold filter_delta. rewrite Hn. simpl. by rewrite Ha. }
  induction (observed_deltas r') as [|d l IH]; [done|]. simpl. rewrite (Hall d) by (by left). f_equal. apply IH. set_solver.
Qed.

(** The generation of the shard after the result has been processed *)
Lemma settles_max g : renewed True s g → generation_max (ts_generation t) (Some g) = Some g.
Proof.
  intros Hrn. unfold generation_max. destruct Hbelow as [Hb _].
  destruct Hrn as [Hg|(v & -> & Hv)%(λ H, H I)].
  - rewrite Hself in Hg. simpl in Hg. rewrite (proj2 (proj2 (sp_shard _ _ _ _ _ Hspawn))) in Hg. by rewrite Hg, Z.ltb_irrefl.
  - simpl. destruct (Z.ltb_spec v (generation_rank (ts_generation t))); [lia|done].
Qed.

(** The shard after the result has been processed *)
Lemma settles_shard {E} t2 :
  ts_observed t2 = re_observed r' → ts_intent t2 = ts_intent t → ts_shard t2 = ts_shard t1 → ts_config t2 = ts_config t1 →
  ts_policy t2 = ts_policy t1 → ts_generation t2 = generation_max (ts_generation t) (re_generation r') →
  dirty_nodes (E := E) t2 = Ok [] ∧ dirty_observed (E := E) nodes (map_to_list (ts_observed t2)) = Ok false.
Proof.
  intros Ho Hi Hsh Hcf Hpo Hg. split.
  - unfold dirty_nodes. rewrite Ho, Hi, Hsh, Hcf, Hpo, Hg.
    rewrite (filter_none _ (is_secondary _)) by (apply Forall_forall; intros k Hk Hne; by apply Hne, settles_secondary).
    rewrite (filter_none (λ k, k ∉ all_pageservers _)).
    2: { apply Forall_forall. intros k ([k' loc] & -> & Hin%elem_of_map_to_list)%list_elem_of_fmap Hk. simpl in Hk.
         rewrite (settles_other k' Hk) in Hin. done. }
    destruct (is_attached (ts_intent t)) as [k|] eqn:Ha; [|done].
    destruct (settles_attached k Ha) as (g & Hgen & Hrn & Hobs & _). rewrite Hgen, (settles_max g Hrn). simpl.
    by rewrite bool_decide_true.
  - rewrite Ho. assert (Hall : ∀ i, i ∈ map_to_list (re_observed r') → is_Some (nodes !! i.1) ∧ i.2 ≠ None).
    { intros [k loc] Hin%elem_of_map_to_list. simpl. destruct (decide (k ∈ all_pageservers (ts_intent t))) as [Hk|Hk].
      - split; [destruct (settles_known k) as (n & Hn & _); [by left|by eexists]|]. unfold all_pageservers in Hk.
        apply elem_of_app in Hk as [Hk|Hk]; [|rewrite (proj1 (settles_secondary k Hk)) in Hin; congruence].
        destruct (is_attached (ts_intent t)) as [k'|] eqn:Ha; [|by apply elem_of_nil in Hk].
        apply list_elem_of_singleton in Hk as ->. destruct (settles_attached k' Ha) as (g & _ & _ & Hobs & _). congruence.
      - rewrite (settles_other k Hk) in Hin. done. }
    induction (map_to_list (re_observed r')) as [|[k loc] l IH]; [done|]. simpl.
    destruct (Hall (k, loc)) as [[n Hn] Hl]; [by left|]. simpl in *. rewrite Hn. simpl. rewrite bool_decide_false by done. simpl.
    apply IH. intros i Hi'. apply Hall. by right.
Qed.
End settles.

Lemma process_result_ok_fields nodes res t1 :
  rr_ok res = true →
  let t2 := process_result nodes res t1 in
  ts_observed t2 = foldl (λ o d, apply_observed_delta d o) (ts_observed t1) (omap (filter_delta nodes) (rr_observed_deltas res)) ∧
  ts_intent t2 = ts_intent t1 ∧ ts_shard t2 = ts_shard t1 ∧ ts_config t2 = ts_config t1 ∧ ts_policy t2 = ts_policy t1 ∧
  ts_generation t2 = generation_max (ts_generation t1) (rr_generation res) ∧
  ts_pending_compute_notification t2 = rr_pending_compute_notification res ∧ rr_sequence res ≤ ts_waiter t2.
Proof.
  intros Hok. unfold process_result. rewrite Hok. simpl. unfold seq_advance, reconcile_complete.
  assert (Hseq : ∀ w, rr_sequence res ≤ (if rr_sequence res <=? w then w else rr_sequence res)).
  { intros w. destruct (Z.leb_spec (rr_sequence res) w); lia. }
  simpl. destruct (ts_reconciler t1) as [h|]; simpl; [case_match|]; simpl; auto 10.
Qed.

(** C13: a reconciler that has succeeded settles its shard: when its result is processed, and
    no node went down meanwhile, the shard has the observed locations of the reconciler, and
    there is nothing left to reconcile, unless a compute could not be told; waiters for the
    sequence of the reconciler see it as done. *)
Theorem successful_reconcile_settles nodes t intent detach seq t1 s order must_notify res s' warmup download hint :
  keyed nodes → NoDup (all_pageservers (ts_intent t)) → valid_generation (ts_generation t) →
  spawn_reconciler (E := ScheduleError) nodes t = Ok (intent, detach, seq, t1) →
  rc_self s = spawned t1 intent detach warmup download hint → safe s → generations_below t (bound (rc_row s)) →
  reconcile_task order seq must_notify s = (Ok res, s') → rr_ok res = true →
  (∀ n, n ∈ targets (rc_self s) → is_up n s' = true) →
  let t2 := process_result nodes res t1 in
  ts_observed t2 = re_observed (rc_self s') ∧ get_status seq t2 = StatusDone ∧
  (rr_pending_compute_notification res = false → get_reconcile_needed (E := ScheduleError) nodes t2 = Ok RecNo).
Proof.
  intros Hkey Hnd Hv Hsp Hself Hsafe Hbelow Hrun Hok Hup t2.
  pose proof (spawn_reconciler_spec nodes t intent detach seq t1 Hkey Hsp) as Hspawn.
  destruct (sp_shard _ _ _ _ _ Hspawn) as (Ho1 & Hi1 & Hg1).
  pose proof (reconcile_task_spec True order seq must_notify s (λ _, Hsafe)) as Hw. rewrite Hself in Hw at 1 2.
  specialize (Hw ltac:(simpl; by rewrite Hg1) (spawn_targets _ _ _ _ _ _ _ _ Hspawn Hnd)).
  unfold wp in Hw. rewrite Hrun in Hw. simpl in Hw. destruct Hw as (Hg & Hres & Hrec). destruct (Hrec Hok) as (s1 & Hr1 & Hg1' & Hs1).
  assert (Hup1 : ∀ n, n ∈ targets (rc_self s) → is_up n s1 = true).
  { intros n Hn. destruct (is_up n s1) eqn:Hd; [done|]. pose proof (is_up_mono _ _ _ _ _ Hg1' Hd). rewrite Hup in H; done. }
  assert (Horig : re_original_observed (rc_self s') = ts_observed t) by (rewrite (go_task _ _ _ _ Hg), Hself; simpl; done).
  pose proof (process_result_ok_fields nodes res t1 Hok) as (Hf1 & Hf2 & Hf3 & Hf4 & Hf5 & Hf6 & Hf7 & Hf8).
  fold t2 in Hf1, Hf2, Hf3, Hf4, Hf5, Hf6, Hf7, Hf8. clearbody t2.
  rewrite Hres in Hf1, Hf6, Hf7, Hf8. simpl in Hf1, Hf6, Hf7, Hf8. rewrite Hg1 in Hf6.
  assert (Hobs : ts_observed t2 = re_observed (rc_self s')).
  { rewrite Hf1, Ho1, <- Horig, (settles_deltas nodes t t1 intent detach s s1 (rc_self s')
      warmup download hint) by done. apply map_eq. intros k. rewrite apply_observed_deltas_lookup, Horig.
    by rewrite (settles_not_regressed nodes t t1 intent detach s s1 (rc_self s') warmup download hint). }
  split; [done|]. split.
  - unfold get_status. by rewrite (proj2 (Z.leb_le _ _) Hf8).
  - intros Hp. rewrite Hres in Hp. simpl in Hp. assert (Hd : dirty_nodes (E := ScheduleError) t2 = Ok [] ∧
      dirty_observed (E := ScheduleError) nodes (map_to_list (ts_observed t2)) = Ok false).
    { eapply (settles_shard nodes t t1 intent detach s s1 (rc_self s') warmup download hint); try done. by rewrite Hf2. }
    destruct Hd as [Hd1 Hd2].
    unfold get_reconcile_needed, dirty. rewrite Hd1, Hd2. simpl. by rewrite Hf7, Hp.
Qed.

(** ** A shard that moves

    It is attached to node 1 with generation 1 and is to be on node 2, with a secondary location
    on node 1; node 3 has an old secondary location.  Everything answers. *)

Definition test_answer (tr : Trace) (R : Type) (q : Request R) : R :=
  match q in Request R return R with
  | ReqLocationConfig _ _ _ _ => inl tt
  | ReqGetLocationConfig _ => inl None
  | ReqTimelineList _ => inl ∅
  | ReqWaitLsn _ _ => inl STATUS_OK
  | ReqSecondaryDownload _ _ => inl STATUS_OK
  | ReqElapsed => 0
  | ReqNotify _ => inl tt
  | ReqIncrement _ => DbDone
  end.
Definition test_step : EnvStep := mkEnvStep [] [] false test_answer.

Lemma test_env_honest n : Forall honest (replicate n test_step).
Proof. apply Forall_replicate. by intros tr k c H. Qed.

Definition moving_identity : ShardIdentity := mkShardIdentity 0 0 32768 LAYOUT_V1.
Definition moving_config : TenantConfig := TenantShard.ts_config (TenantShard_new moving_identity (PolicyAttached 1) None).
Definition moving_observed : ObservedState :=
  {[ 1 := Some (attached_location_conf (GenValid 1) moving_identity moving_config (PolicyAttached 1));
     3 := Some (secondary_location_conf moving_identity moving_config) ]}.
Definition moving_shard : TenantShard :=
  TenantShard_new moving_identity (PolicyAttached 1) None
    <| ts_generation := Some (GenValid 1) |> <| ts_observed := moving_observed |>
    <| ts_intent := mkIntentState (Some 2) [1] None |>.
Definition moving_node (k : NodeId) : Node := test_node k 1 97.
Definition moving_nodes : gmap NodeId Node := {[ 1 := moving_node 1; 2 := moving_node 2; 3 := moving_node 3 ]}.
Definition moving_trace : Trace := [EvGeneration 1 1].
Definition moving_task : Recon :=
  task_state moving_shard (mkTargetState (Some (moving_node 2)) [moving_node 1]) [moving_node 3] None None false
    (Some (mkShardRow (Some 1) (Some 1))) [] false moving_trace (replicate 60 test_step).

(** The migration takes place. *)
Lemma live_migrate_keeps_serving_witness :
  let '(r, s') := live_migrate (moving_node 1) (moving_node 2) moving_task in
  r = Ok tt ∧ (∃ ev, ev ∈ rc_trace s' ∧ demotes 1 ev) ∧
  ∀ l1 ev l2, rc_trace s' = l1 ++ ev :: l2 → moving_trace `suffix_of` l2 → demotes 1 ev →
    served_before (rc_self moving_task) (moving_node 1) (moving_node 2) l2 s'.
Proof.
  pose proof (live_migrate_keeps_serving (moving_node 1) (moving_node 2) moving_task eq_refl ltac:(done) ltac:(done)) as H.
  assert (Hr : (live_migrate (moving_node 1) (moving_node 2) moving_task).1 = Ok tt) by (vm_compute; reflexivity).
  assert (Ht : existsb (λ ev, match ev with
    | EvLocationConfig n c _ => (n =? 1) && negb (bool_decide (lc_mode c = AttachedStale)) | _ => false end)
    (rc_trace (live_migrate (moving_node 1) (moving_node 2) moving_task).2) = true) by (vm_compute; reflexivity).
  destruct (live_migrate _ _ _) as [r s']. simpl in *. subst r. split; [done|]. split; [|apply H].
  apply existsb_exists in Ht as (ev & Hin & Hev). exists ev. split; [by apply list_elem_of_In|].
  destruct ev; try done. apply andb_true_iff in Hev as [->%Z.eqb_eq Hm%negb_true_iff%bool_decide_eq_false]. done.
Defined.

Lemma moving_targets : NoDup (n_id <$> targets (rc_self moving_task)).
Proof. by apply (bool_decide_unpack _). Qed.

Lemma reconcile_reaches_intent_witness :
  (reconcile [1] moving_task).1 = Ok tt ∧
  re_observed (rc_self (reconcile [1] moving_task).2) !! 2 =
    Some (Some (attached_location_conf (GenValid 2) moving_identity moving_config (PolicyAttached 1))) ∧
  settled (reconcile [1] moving_task).2 (moving_node 1) (secondary_location_conf moving_identity moving_config) ∧
  re_observed (rc_self (reconcile [1] moving_task).2) !! 3 = None.
Proof.
  pose proof (reconcile_reaches_intent [1] moving_task ltac:(done) moving_targets) as H.
  assert (Hr : (reconcile [1] moving_task).1 = Ok tt) by (vm_compute; reflexivity).
  assert (Hg : re_generation (rc_self (reconcile [1] moving_task).2) = Some (GenValid 2)) by (vm_compute; reflexivity).
  assert (Hd : rc_down (reconcile [1] moving_task).2 = []) by (vm_compute; reflexivity).
  destruct (reconcile [1] moving_task) as [r s']. simpl in *. subst r. destruct H as (Ha & Hs & Hdet & _). split; [done|].
  split; [destruct (Ha (moving_node 2) eq_refl) as (g & Hg' & _ & Ho); simplify_eq; exact Ho|].
  split; [apply Hs; by left|]. destruct (Hdet (moving_node 3)) as [|Hup]; [by left|done|]. unfold is_up in Hup. by rewrite Hd in Hup.
Defined.

Lemma moving_observed_inv k loc : moving_observed !! k = Some loc →
  k = 1 ∧ loc = Some (attached_location_conf (GenValid 1) moving_identity moving_config (PolicyAttached 1)) ∨
  k = 3 ∧ loc = Some (secondary_location_conf moving_identity moving_config).
Proof.
  unfold moving_observed. intros [[<- <-]|[_ [<- <-]%lookup_singleton_Some]]%lookup_insert_Some; auto.
Qed.

Lemma moving_safe : safe moving_task.
Proof.
  split; simpl; [split| | |apply (test_env_honest 60)].
  - intros r g [= <-] [= <-]. unfold i32_max. lia.
  - by intros r n g [= <-] [= -> ->]%list_elem_of_singleton.
  - by intros n n' g [= -> ->]%list_elem_of_singleton [= ->]%list_elem_of_singleton.
  - by intros n g [= -> ->]%list_elem_of_singleton.
  - by intros n c r ?%list_elem_of_singleton.
  - intros n c [[-> [= ->]]|[-> [= ->]]]%moving_observed_inv g; simpl; [|done]. intros _ [= <-]. by left.
Qed.

Lemma moving_keyed : keyed moving_nodes.
Proof.
  intros k n. unfold moving_nodes.
  intros [[<- <-]|[_ [[<- <-]|[_ [<- <-]%lookup_singleton_Some]]%lookup_insert_Some]]%lookup_insert_Some; done.
Qed.

Lemma moving_NoDup : NoDup (all_pageservers (ts_intent moving_shard)).
Proof. by apply (bool_decide_unpack _). Qed.

Lemma moving_below : generations_below moving_shard (bound (rc_row moving_task)).
Proof.
  split; [done|]. intros k c v [[-> [= ->]]|[-> [= ->]]]%moving_observed_inv; simpl; [|done]. by intros [= <-].
Qed.

Lemma moving_up s' : rc_down s' = [] → ∀ n, n ∈ targets (rc_self moving_task) → is_up n s' = true.
Proof.
  intros Hd n. unfold is_up. rewrite Hd, bool_decide_true by apply not_elem_of_nil. unfold targets. simpl.
  intros [->|[->|[->|[]%elem_of_nil]%elem_of_cons]%elem_of_cons]%elem_of_cons; done.
Qed.

Lemma successful_reconcile_settles_witness :
  ∃ intent detach seq t1 res s',
    spawn_reconciler (E := ScheduleError) moving_nodes moving_shard = Ok (intent, detach, seq, t1) ∧
    reconcile_task [1] seq true moving_task = (Ok res, s') ∧
    let t2 := process_result moving_nodes res t1 in
    ts_observed t2 = re_observed (rc_self s') ∧ get_status seq t2 = StatusDone ∧
    get_reconcile_needed (E := ScheduleError) moving_nodes t2 = Ok RecNo.
Proof.
  set (t1 := ensure_sequence_ahead moving_shard). set (seq := ts_sequence t1).
  set (t1' := t1 <| ts_reconciler := Some seq |>).
  assert (Hsp : spawn_reconciler (E := ScheduleError) moving_nodes moving_shard =
    Ok (re_intent (rc_self moving_task), re_detach (rc_self moving_task), seq, t1')) by (vm_compute; reflexivity).
  assert (Hself : rc_self moving_task = spawned t1' (re_intent (rc_self moving_task)) (re_detach (rc_self moving_task)) None None false)
    by (vm_compute; reflexivity).
  assert (Hres : ∃ res, (reconcile_task [1] seq true moving_task).1 = Ok res ∧ rr_ok res = true ∧
    rr_pending_compute_notification res = false) by (eexists; split; [vm_compute; reflexivity|by split]).
  assert (Hd : rc_down (reconcile_task [1] seq true moving_task).2 = []) by (vm_compute; reflexivity).
  destruct Hres as (res & Hr & Hok & Hp). destruct (reconcile_task [1] seq true moving_task) as [r s'] eqn:Hrun. simpl in Hr, Hd. subst r.
  destruct (successful_reconcile_settles moving_nodes moving_shard _ _ _ _ moving_task [1] true res s' None None false
    moving_keyed moving_NoDup ltac:(done) Hsp Hself moving_safe moving_below Hrun Hok) as (H1 & H2 & H3).
  { exact (moving_up s' Hd). }
  eexists _, _, _, _, res, s'. split; [exact Hsp|]. split; [exact Hrun|]. split; [exact H1|]. split; [exact H2|]. exact (H3 Hp).
Defined.

(** A generation that was issued for one node reaches another, as a stale location: node 2, whose
    location is not known, gets generation 2 but cannot be attached; the next reconciler finds no
    location there, and migrates from node 1 with generation 2. *)
Example stale_generation_shared :
  let answering (a : option LocationConfig + MgmtError) (c : unit + MgmtError) : EnvStep :=
    mkEnvStep [] [] false (λ tr R q,
      match q in Request R return R with
      | ReqLocationConfig n _ _ _ => if n =? 2 then c else inl tt
      | ReqGetLocationConfig n => a
      | q => test_answer tr _ q
      end) in
  let self := rc_self moving_task <| re_observed := <[2 := None]> moving_observed |> in
  let s := moving_task <| rc_self := self |>
    <| rc_env := replicate 20 (answering (inl None) (inr (MgmtApiError 500))) |> in
  let s1 := (reconcile [1] s).2 in
  let s2 := s1 <| rc_env := replicate 60 (answering (inr (MgmtApiError STATUS_NOT_FOUND)) (inl tt)) |> in
  (reconcile [1] s).1 = Err (Failed (ErrRemote (MgmtApiError 500))) ∧
  existsb (λ ev, match ev with EvGeneration n g => (n =? 2) && (g =? 2) | _ => false end) (rc_trace s1) = true ∧
  (reconcile [1] s2).1 = Ok tt ∧
  existsb (λ ev, match ev with
    | EvLocationConfig n c _ => (n =? 1) && bool_decide (lc_mode c = AttachedStale ∧ lc_generation c = Some 2)
    | _ => false
    end) (rc_trace (reconcile [1] s2).2) = true.
Proof. vm_compute. auto. Qed.
