(* ===== verification/GenerationSafety.v ===== *)
(** * Generations over the life of a shard

    A shard of the storage controller, its row in the database, its reconcilers and their
    results, as a step relation: reconcilers run against any honest environment and are
    abandoned anywhere, results are processed late, pageservers attach again, the controller
    changes the shard and restarts.  A generation is used by one pageserver only. *)

From S2P Require Import Prelude Bytes Text Membership Ids Lsn Key Shard.
From S2P Require Import Scheduler IntentState TenantShard Reconciler ReconcilerProps ReconcilerRuns.

(** [sys_results]: results that were sent and not yet processed *)
Record Sys := mkSys {
  sys_row : option ShardRow;
  sys_trace : Trace;
  sys_shard : TenantShard;
  sys_results : list ReconcileResult;
}.
#[export] Instance Sys_settable : Settable Sys := λ s,
  mkSys (sys_row s) (sys_trace s) (sys_shard s) (sys_results s).

(** A write to the row by another task or another controller *)
Definition sys_write (w : RowWrite) (s : Sys) : Sys :=
  match sys_row s with
  | None => s
  | Some row =>
    let '(row', tr) := written row (row_write w row) (sys_trace s) in s <| sys_row := Some row' |> <| sys_trace := tr |>
  end.

(** A reconciler that is spawned for the shard and runs until it has sent its result or is
    abandoned *)
Definition sys_run (t1 : TenantShard) (order : list NodeId) (seq : Sequence) (must_notify : bool) (task : Recon) (s : Sys) : Sys :=
  let '(r, task') := reconcile_task order seq must_notify task in
  mkSys (rc_row task') (rc_trace task') t1
    (match r with Ok res => sys_results s ++ [res] | _ => sys_results s end).

Inductive sys_step (s : Sys) : Sys → Prop :=
| sys_step_write w : sys_step s (sys_write w s)
(** the shard takes over a generation that was issued when a node attached again *)
| sys_step_re_attach n g :
    EvGeneration n g ∈ sys_trace s →
    sys_step s (s <| sys_shard := re_attach_shard n (GenValid g) (sys_shard s) |>)
(** anything but the observed locations changes: intent, policies, configuration *)
| sys_step_change t : ts_observed t = ts_observed (sys_shard s) → sys_step s (s <| sys_shard := t |>)
(** a location becomes unknown, when its node goes offline or reports something else *)
| sys_step_forget n :
    sys_step s (s <| sys_shard := sys_shard s <| ts_observed := <[n := None]> (ts_observed (sys_shard s)) |> |>)
| sys_step_run nodes intent detach seq t1 order must_notify warmup download hint down cancelled env :
    keyed nodes → NoDup (all_pageservers (ts_intent (sys_shard s))) → valid_generation (ts_generation (sys_shard s)) →
    spawn_reconciler (E := ScheduleError) nodes (sys_shard s) = Ok (intent, detach, seq, t1) → Forall honest env →
    sys_step s (sys_run t1 order seq must_notify
      (task_state t1 intent detach warmup download hint (sys_row s) down cancelled (sys_trace s) env) s)
| sys_step_result nodes l1 res l2 :
    sys_results s = l1 ++ res :: l2 →
    sys_step s (s <| sys_shard := process_result nodes res (sys_shard s) |> <| sys_results := l1 ++ l2 |>)
(** the controller starts again, with what the pageservers report *)
| sys_step_restart t :
    (∀ n c, ts_observed t !! n = Some (Some c) → reported (sys_trace s) n c) →
    sys_step s (s <| sys_shard := t |> <| sys_results := [] |>).

(** A new shard: no generation was issued, nothing was observed. *)
Definition sys_init (s : Sys) : Prop :=
  sys_trace s = [] ∧ sys_results s = [] ∧ ts_observed (sys_shard s) = ∅ ∧
  ∀ row g, sys_row s = Some row → row_generation row = Some g → 0 ≤ g ≤ i32_max.

Inductive sys_reachable : Sys → Prop :=
| sys_reachable_init s : sys_init s → sys_reachable s
| sys_reachable_step s s' : sys_reachable s → sys_step s s' → sys_reachable s'.

(** ** The invariant *)

Definition delta_owned (tr : Trace) (d : ObservedStateDelta) : Prop :=
  match d with DeltaUpsert n (Some c) => owned tr n c | _ => True end.

Record sys_inv (s : Sys) : Prop := mkSysInv {
  si_issued : issued_ok (sys_row s) (sys_trace s);
  si_sent : sent_owned (sys_trace s);
  si_observed : observed_owned (sys_trace s) (ts_observed (sys_shard s));
  si_results : ∀ res d, res ∈ sys_results s → d ∈ rr_observed_deltas res → delta_owned (sys_trace s) d;
}.

Lemma delta_owned_mono tr tr' d : delta_owned tr d → tr `suffix_of` tr' → delta_owned tr' d.
Proof. destruct d as [n [c|]|n]; simpl; [|done..]. apply owned_mono. Qed.

Lemma apply_delta_owned tr d o : delta_owned tr d → observed_owned tr o → observed_owned tr (apply_observed_delta d o).
Proof.
  destruct d as [n loc|n]; simpl; intros Hd Ho; [|by apply observed_owned_delete].
  repeat case_match; apply observed_owned_insert; try done; intros c' [= ->]; done.
Qed.

Lemma apply_deltas_owned tr (ds : list ObservedStateDelta) : ∀ o, (∀ d, d ∈ ds → delta_owned tr d) → observed_owned tr o →
  observed_owned tr (foldl (λ o d, apply_observed_delta d o) o ds).
Proof.
  induction ds as [|d ds IH]; intros o Hd Ho; simpl; [done|]. apply IH; [set_solver|]. apply apply_delta_owned; [|done]. apply Hd. by left.
Qed.

Lemma filter_delta_owned tr nodes (ds : list ObservedStateDelta) d :
  (∀ d, d ∈ ds → delta_owned tr d) → d ∈ omap (filter_delta nodes) ds → delta_owned tr d.
Proof.
  intros Hds (e & He & Hd)%list_elem_of_omap. unfold filter_delta in Hd. destruct (nodes !! _); [|done]. simpl in Hd.
  case_match; simplify_eq; [by apply Hds|done].
Qed.

Lemma process_result_owned tr nodes res t :
  (∀ d, d ∈ rr_observed_deltas res → delta_owned tr d) → observed_owned tr (ts_observed t) →
  observed_owned tr (ts_observed (process_result nodes res t)).
Proof.
  intros Hd Ho. assert (Hc : ts_observed (reconcile_complete (rr_sequence res)
    (t <| ts_generation := generation_max (ts_generation t) (rr_generation res) |>
       <| ts_pending_compute_notification := rr_pending_compute_notification res |>)) = ts_observed t).
  { unfold reconcile_complete. simpl. by repeat case_match. }
  unfold process_result. destruct (rr_ok res); simpl; rewrite Hc; apply apply_deltas_owned; try done.
  - intros d. by apply filter_delta_owned.
  - intros d [_ Hin]%list_elem_of_filter. by eapply filter_delta_owned.
Qed.

Lemma re_attach_owned tr n g t :
  EvGeneration n g ∈ tr → observed_owned tr (ts_observed t) →
  observed_owned tr (ts_observed (re_attach_shard n (GenValid g) t)).
Proof.
  intros Hi Ho. unfold re_attach_shard. simpl. destruct (ts_observed t !! n) as [[c|]|] eqn:Hn; simpl; [|done|].
  - apply observed_owned_insert; [done|]. intros c' [= <-] g' _ Hg'. by simplify_eq/=.
  - by apply observed_owned_insert.
Qed.

Lemma sys_write_inv w s : sys_inv s → sys_inv (sys_write w s).
Proof.
  intros [His Hs Ho Hr]. unfold sys_write. destruct (sys_row s) as [row|] eqn:Hrow; [|by split; [rewrite Hrow|..]].
  pose proof (issued_written row (row_write w row) (sys_trace s) His (λ new, row_write_advances w row new)) as Hi.
  pose proof (written_configs row (row_write w row) (sys_trace s)) as Hc.
  destruct (written _ _ _) as [row' tr]. simpl in *. destruct Hi as [Hi Hext].
  split; simpl; [done| |by eapply observed_owned_mono|].
  - intros n c r Hin%Hc. eapply owned_mono; [by eapply Hs|done].
  - intros res d Hres Hd. eapply delta_owned_mono; [by eapply Hr|done].
Qed.

Lemma sys_run_inv nodes intent detach seq t1 order must_notify warmup download hint down cancelled env s :
  sys_inv s → keyed nodes → NoDup (all_pageservers (ts_intent (sys_shard s))) → valid_generation (ts_generation (sys_shard s)) →
  spawn_reconciler (E := ScheduleError) nodes (sys_shard s) = Ok (intent, detach, seq, t1) → Forall honest env →
  sys_inv (sys_run t1 order seq must_notify
      (task_state t1 intent detach warmup download hint (sys_row s) down cancelled (sys_trace s) env) s).
Proof.
  intros [His Hs Ho Hr] Hkey Hnd Hv Hsp Hh. pose proof (spawn_reconciler_spec _ _ _ _ _ _ Hkey Hsp) as Hspawn.
  destruct (sp_shard _ _ _ _ _ Hspawn) as (Ho1 & Hi1 & Hg1). unfold sys_run. set (task := task_state _ _ _ _ _ _ _ _ _ _ _).
  assert (Hsafe : safe task) by (split; simpl; [done|done|by rewrite Ho1|done]).
  pose proof (reconcile_task_spec True order seq must_notify task (λ _, Hsafe)) as Hw.
  specialize (Hw ltac:(simpl; by rewrite Hg1) (spawn_targets _ _ _ _ _ _ _ _ Hspawn Hnd)). unfold wp in Hw.
  destruct (reconcile_task order seq must_notify task) as [r task']. simpl in Hw. destruct Hw as [Hg Hres].
  pose proof (go_trace _ _ _ _ Hg) as Hext. destruct (go_ok _ _ _ _ Hg I) as [His' Hs' Hob' _].
  split; simpl; [done|done|rewrite Ho1; by eapply observed_owned_mono|]. intros res d Hin Hd.
  assert (Hold : res ∈ sys_results s → delta_owned (rc_trace task') d).
  { intros Hold. eapply delta_owned_mono; [by eapply Hr|done]. }
  destruct r as [res'|i|]; [|by auto..]. apply elem_of_app in Hin as [Hin| ->%list_elem_of_singleton]; [by auto|].
  destruct Hres as [Hres _]. rewrite Hres in Hd. simpl in Hd. apply elem_of_observed_deltas in Hd.
  destruct d as [n [c|]|n]; simpl; [|done..]. apply Hob', Hd.
Qed.

Lemma shard_sys_step_inv s s' : sys_inv s → sys_step s s' → sys_inv s'.
Proof.
  intros Hs Hstep. pose proof Hs as [His Hsent Ho Hr]. destruct Hstep.
  - by apply sys_write_inv.
  - split; simpl; [done|done|by apply re_attach_owned|done].
  - split; simpl; [done|done|by rewrite H|done].
  - split; simpl; [done|done|by apply observed_owned_insert|done].
  - by eapply sys_run_inv.
  - split; simpl; [done|done| |].
    + apply process_result_owned; [|done]. intros d. apply Hr. rewrite H. set_solver.
    + intros res' d Hin. apply Hr. rewrite H. set_solver.
  - split; simpl; [done|done| |by intros res d ?%elem_of_nil]. intros n c Hc. by apply owned_reported; [|apply H].
Qed.

Lemma shard_sys_reachable_inv s : sys_reachable s → sys_inv s.
Proof.
  induction 1 as [s (Htr & Hres & Hobs & Hrow)|s s' _ IH Hstep]; [|by eapply shard_sys_step_inv]. split.
  - rewrite Htr. split; [done|by intros ? ? ? _ ?%elem_of_nil|by intros ? ? ? ?%elem_of_nil|by intros ? ? ?%elem_of_nil].
  - rewrite Htr. by intros n c r ?%elem_of_nil.
  - rewrite Hobs. intros n c Hc. by rewrite lookup_empty in Hc.
  - rewrite Hres. by intros res d ?%elem_of_nil.
Qed.

(** C11: a generation is given to one pageserver only, in the modes [AttachedSingle] and
    [AttachedMulti].  Over the whole life of a shard, with reconcilers that fail or are
    abandoned anywhere, lost and repeated requests, results that are processed late,
    pageservers that attach again, writes of other controllers and restarts: a location is
    configured in one of these two modes only with a generation that the database issued for
    its node, the database issues every generation once, and so two nodes never get the same.
    Not so in the mode [AttachedStale]: the origin of a live migration is made stale with the
    generation that the shard has then, which may be that of another node
    ([stale_generation_shared]).  What pageservers report when the controller starts is what
    they were configured with ([reported]), and answers are honest ([honest]). *)
Theorem generations_exclusive s n1 c1 a1 n2 c2 a2 g :
  sys_reachable s →
  EvLocationConfig n1 c1 a1 ∈ sys_trace s → exclusive (lc_mode c1) = true → lc_generation c1 = Some g →
  EvLocationConfig n2 c2 a2 ∈ sys_trace s → exclusive (lc_mode c2) = true → lc_generation c2 = Some g →
  n1 = n2 ∧ EvGeneration n1 g ∈ sys_trace s.
Proof.
  intros Hs H1 Hm1 Hg1 H2 Hm2 Hg2. destruct (shard_sys_reachable_inv s Hs) as [[_ _ Hu _] Hsent _ _].
  pose proof (Hsent _ _ _ H1 g Hm1 Hg1) as Hi1. pose proof (Hsent _ _ _ H2 g Hm2 Hg2) as Hi2.
  split; [by eapply Hu|done].
Qed.

(** A new shard is attached to node 1, then moved to node 2. *)
Definition life_start : Sys :=
  mkSys (Some (mkShardRow (Some 0) None)) [] (moving_shard <| ts_generation := Some (GenValid 0) |> <| ts_observed := ∅ |>
    <| ts_intent := mkIntentState (Some 1) [] None |>) [].

Definition life_run (s : Sys) : Sys :=
  match spawn_reconciler (E := ScheduleError) moving_nodes (sys_shard s) with
  | Ok (intent, detach, seq, t1) =>
    sys_run t1 [1] seq false
      (task_state t1 intent detach None None false (sys_row s) [] false (sys_trace s) (replicate 60 test_step)) s
  | _ => s
  end.

Definition life_result (s : Sys) : Sys :=
  match sys_results s with
  | res :: l => s <| sys_shard := process_result moving_nodes res (sys_shard s) |> <| sys_results := l |>
  | [] => s
  end.

Definition life_move (s : Sys) : Sys :=
  s <| sys_shard := sys_shard s <| ts_intent := mkIntentState (Some 2) [1] None |> |>.

Definition life : Sys := life_run (life_move (life_result (life_run life_start))).

Lemma life_run_reachable s :
  sys_reachable s → NoDup (all_pageservers (ts_intent (sys_shard s))) → valid_generation (ts_generation (sys_shard s)) →
  sys_reachable (life_run s).
Proof.
  intros Hs Hnd Hv. unfold life_run. destruct (spawn_reconciler _ _) as [[[[intent detach] seq] t1]|e|] eqn:Hsp; [|done..].
  eapply sys_reachable_step; [done|]. by eapply sys_step_run; [apply moving_keyed|..|apply test_env_honest].
Qed.

Lemma life_result_reachable s : sys_reachable s → sys_reachable (life_result s).
Proof.
  intros Hs. unfold life_result. destruct (sys_results s) as [|res l] eqn:Hr; [done|].
  eapply sys_reachable_step; [done|]. by apply (sys_step_result s moving_nodes [] res l).
Qed.

Lemma life_reachable : sys_reachable life.
Proof.
  unfold life. apply life_run_reachable; [|by apply (bool_decide_unpack _)|by vm_compute].
  eapply sys_reachable_step; [|by apply sys_step_change]. apply life_result_reachable, life_run_reachable.
  - apply sys_reachable_init. repeat split; simplify_eq/=; unfold i32_max; lia.
  - by apply (bool_decide_unpack _).
  - done.
Qed.

(** Node 2 is attached with generation 2, in two modes. *)
Lemma generations_exclusive_witness :
  ∃ c1 c2, EvLocationConfig 2 c1 (inl tt) ∈ sys_trace life ∧ lc_mode c1 = AttachedMulti ∧
    EvLocationConfig 2 c2 (inl tt) ∈ sys_trace life ∧ lc_mode c2 = AttachedSingle ∧
    2 = 2 ∧ EvGeneration 2 2 ∈ sys_trace life.
Proof.
  assert (H1 : ∃ c, sys_trace life !! 7%nat = Some (EvLocationConfig 2 c (inl tt)) ∧ lc_mode c = AttachedMulti ∧
    lc_generation c = Some 2) by (eexists; split; [vm_compute; reflexivity|by split]).
  assert (H2 : ∃ c, sys_trace life !! 3%nat = Some (EvLocationConfig 2 c (inl tt)) ∧ lc_mode c = AttachedSingle ∧
    lc_generation c = Some 2) by (eexists; split; [vm_compute; reflexivity|by split]).
  destruct H1 as (c1 & H1%list_elem_of_lookup_2 & Hm1 & Hg1), H2 as (c2 & H2%list_elem_of_lookup_2 & Hm2 & Hg2).
  exists c1, c2. split; [exact H1|]. split; [exact Hm1|]. split; [exact H2|]. split; [exact Hm2|].
  apply (generations_exclusive life 2 c1 (inl tt) 2 c2 (inl tt) 2 life_reachable H1); [by rewrite Hm1|done..|by rewrite Hm2|done].
Defined.
