(* ===== verification/ReconcilerProgress.v ===== *)
(** * Reconcilers finish

    With an environment that answers and nodes that stay up, a reconciler returns with
    success after a number of steps that depends on the shard only. *)

From S2P Require Import Prelude Bytes Text Membership Ids Lsn Key Shard.
From S2P Require Import Scheduler IntentState TenantShard Reconciler ReconcilerProps ReconcilerRuns.

(** ** Environments that answer *)

Definition good_answer {R} (q : Request R) : R → Prop :=
  match q in Request R return R → Prop with
  | ReqLocationConfig _ _ _ _ => λ a, a = inl tt
  | ReqGetLocationConfig _ => λ a, ∃ loc, a = inl loc
  | ReqTimelineList _ => λ a, ∃ lsns, a = inl lsns
  | ReqWaitLsn _ _ => λ a, a = inl STATUS_OK
  | ReqSecondaryDownload _ _ => λ a, a = inl STATUS_OK
  | ReqElapsed => λ _, True
  | ReqNotify _ => λ a, a = inl tt
  | ReqIncrement _ => λ a, a = DbDone
  end.

Record benign (e : EnvStep) : Prop := mkBenign {
  bn_writes : env_writes e = [];
  bn_down : env_down e = [];
  bn_cancel : env_cancel e = false;
  bn_answer : ∀ tr R (q : Request R), good_answer q (env_answer e tr R q);
}.

(** Nothing is in the way, and the generation can be incremented [k] times. *)
Record smooth (k : Z) (s : Recon) : Prop := mkSmooth {
  sm_env : Forall benign (rc_env s);
  sm_cancelled : rc_cancelled s = false;
  sm_down : rc_down s = [];
  sm_row : ∃ row g, rc_row s = Some row ∧ row_generation row = Some g ∧ g + k ≤ i32_max;
}.

Lemma smooth_weaken k k' s : smooth k s → k' ≤ k → smooth k' s.
Proof. intros [? ? ? (row & g & ? & ? & ?)] ?. split; [done..|]. exists row, g. split; [done|]. split; [done|]. lia. Qed.

Lemma smooth_self k s r : smooth k s → smooth k (s <| rc_self := r |>).
Proof. by intros []. Qed.

(** What a reconciler keeps: its task, and a generation *)
Definition has_valid (r : Reconciler) : Prop := ∃ v, re_generation r = Some (GenValid v).
Definition tame (r r' : Reconciler) : Prop := same_task r r' ∧ (has_valid r → has_valid r').

#[export] Instance tame_preorder : PreOrder tame.
Proof.
  split; [intros r; split; [apply same_task_refl|done]|]. intros r r' r'' [? ?] [? ?]. split; [by eapply same_task_trans|auto].
Qed.

(** ** A logic of success

    [does n k m s Q]: after at most [n] steps of the environment and [k] increments [m]
    succeeds with a value and a state of which [Q] holds. *)
Definition does {E A} (n : nat) (k : Z) (m : RM E A) (s : Recon) (Q : A → Recon → Prop) : Prop :=
  ∀ j, 0 ≤ j → smooth (k + j) s → (n ≤ length (rc_env s))%nat →
    ∃ a s', m s = (Ok a, s') ∧ smooth j s' ∧ (length (rc_env s) ≤ length (rc_env s') + n)%nat ∧ tame (rc_self s) (rc_self s') ∧ Q a s'.

Section does.
Context {E : Type}.

Lemma does_ret {A} (a : A) s (Q : A → Recon → Prop) : Q a s → does (E := E) 0 0 (mret a) s Q.
Proof. intros HQ j Hj Hs Hlen. exists a, s. split; [done|]. split; [eapply smooth_weaken; [exact Hs|lia]|]. split; [lia|]. by split. Qed.

Lemma does_bind {A B} n1 n2 n k1 k2 k (m : RM E A) (f : A → RM E B) s Q :
  does n1 k1 m s (λ a s', tame (rc_self s) (rc_self s') → does n2 k2 (f a) s' Q) →
  (n1 + n2 ≤ n)%nat → k1 + k2 ≤ k → 0 ≤ k2 → does n k (m ≫= f) s Q.
Proof.
  intros Hm Hn Hk Hk2 j Hj Hs Hlen. destruct (Hm (k2 + j)) as (a & s1 & Hm1 & Hs1 & Hl1 & Ht1 & HQ1);
    [lia|eapply smooth_weaken; [exact Hs|lia]|lia|].
  destruct (HQ1 Ht1 j) as (b & s2 & Hf & Hs2 & Hl2 & Ht2 & HQ2); [done|done|lia|].
  exists b, s2. unfold mbind, ST_bind. rewrite Hm1. split; [done|]. split; [done|]. split; [lia|]. split; [by etrans|done].
Qed.

Lemma does_mono {A} n n' k k' (m : RM E A) s (Q Q' : A → Recon → Prop) :
  does n k m s Q → (n ≤ n')%nat → k ≤ k' → (∀ a s', m s = (Ok a, s') → tame (rc_self s) (rc_self s') → Q a s' → Q' a s') →
  does n' k' m s Q'.
Proof.
  intros Hm Hn Hk HQ j Hj Hs Hlen. destruct (Hm j) as (a & s1 & Hm1 & Hs1 & Hl1 & Ht & HQ1); [done|eapply smooth_weaken; [exact Hs|lia]|lia|].
  exists a, s1. split; [done|]. split; [done|]. split; [lia|]. split; [done|]. by apply HQ.
Qed.

Lemma does_modify_self f s (Q : unit → Recon → Prop) :
  tame (rc_self s) (f (rc_self s)) → Q tt (s <| rc_self := f (rc_self s) |>) → does (E := E) 0 0 (modify_self f) s Q.
Proof.
  intros Ht HQ j Hj Hs Hlen. exists tt, (s <| rc_self := f (rc_self s) |>). split; [done|].
  split; [apply smooth_self; eapply smooth_weaken; [exact Hs|lia]|]. split; [simpl; lia|]. by split.
Qed.

Lemma does_env_step s :
  does (E := E) 1 0 env_step s (λ e s', benign e ∧ rc_self s' = rc_self s ∧ rc_down s' = [] ∧ rc_cancelled s' = false).
Proof.
  intros j Hj Hs Hlen. destruct Hs as [Hb Hc Hd Hr]. unfold env_step. destruct (rc_env s) as [|e env] eqn:He; [simpl in Hlen; lia|].
  apply Forall_cons in Hb as [[Hw Hdn Hcn Ha] Hb]. rewrite Hw, Hdn, Hcn, Hc, Hd. simpl. eexists e, _. split; [done|].
  split; [split; simpl; [done..|]|split; [simpl; lia|split; [done|]]]; [by replace j with (0 + j) by lia|]. done.
Qed.

Lemma does_request {R} (q : Request R) s :
  does (E := E) 1 0 (request q) s (λ a s', good_answer q a ∧ rc_self s' = rc_self s).
Proof.
  unfold request. eapply (does_bind 1 0 _ 0 0); [|done..]. eapply does_mono; [apply does_env_step|done..|].
  intros e s1 _ _ (He & Hs1 & _ & _) _. intros j Hj Hs Hlen. destruct Hs as [Hb Hc Hd Hr].
  eexists _, _. split; [done|]. split; [split; simpl; done|]. split; [simpl; lia|]. split; [done|]. split; [apply He|done].
Qed.
End does.

(** ** The operations *)

Section operations.
Context {E : Type}.

Lemma does_available node s :
  is_available node = true → does (E := E) 1 0 (available node) s (λ b s', b = true ∧ rc_self s' = rc_self s).
Proof.
  intros Ha. unfold available. eapply (does_bind 1 0 _ 0 0); [|done..]. eapply does_mono; [apply does_env_step|done..|].
  intros e s1 _ _ (_ & Hs1 & Hd & _) _. eapply (does_bind 0 0 _ 0 0); [|done..].
  intros j Hj Hs Hlen. exists s1, s1. split; [done|]. split; [done|]. split; [lia|]. split; [done|]. intros _.
  apply does_ret. rewrite Ha, Hd. split; [|done]. by rewrite bool_decide_true by apply not_elem_of_nil.
Qed.

Lemma does_is_cancelled s : does (E := E) 1 0 is_cancelled s (λ b s', b = false ∧ rc_self s' = rc_self s).
Proof.
  unfold is_cancelled. eapply (does_bind 1 0 _ 0 0); [|done..]. eapply does_mono; [apply does_env_step|done..|].
  intros e s1 _ _ (_ & Hs1 & _ & Hc) _. eapply (does_bind 0 0 _ 0 0); [|done..].
  intros j Hj Hs Hlen. exists s1, s1. split; [done|]. split; [done|]. split; [lia|]. split; [done|]. intros _. by apply does_ret.
Qed.

Lemma does_retries {T} w mx (q : Request (T + MgmtError)) s :
  (∀ a, good_answer q a → ∃ t, a = inl t) →
  does (E := E) 2 0 (with_client_retries w mx q) s (λ a s', ∃ t, a = Some (inl t) ∧ good_answer q (inl t) ∧ rc_self s' = rc_self s).
Proof.
  intros Hq. unfold with_client_retries, retry. cbn [retry_from]. eapply (does_bind 1 1 _ 0 0); [|done..].
  eapply does_mono; [apply does_is_cancelled|done..|]. intros b s1 _ _ [-> Hs1] _.
  eapply (does_bind 1 0 _ 0 0); [|done..]. eapply does_mono; [apply does_request|done..|].
  intros a s2 _ _ [Ha Hs2] _. destruct (Hq a Ha) as [t ->]. apply does_ret. exists t. split; [done|]. split; [done|congruence].
Qed.

Lemma does_get_self {A} (f : Reconciler → RM E A) n k s Q : does n k (f (rc_self s)) s Q → does n k (self ← get_self; f self) s Q.
Proof. intros H j Hj Hs Hlen. destruct (H j Hj Hs Hlen) as (a & s' & Hf & Hr). exists a, s'. by split. Qed.
End operations.

Lemma tame_observed r o : tame r (r <| re_observed := o |>).
Proof. split; [|done]. by destruct r. Qed.

Lemma tame_generation r v : tame r (r <| re_generation := Some (GenValid v) |>).
Proof. split; [by destruct r|]. intros _. by exists v. Qed.

Definition done_tt (_ : unit) (_ : Recon) : Prop := True.

Lemma does_insert_observed {E} n loc s : does (E := E) 0 0 (insert_observed n loc) s done_tt.
Proof. apply does_modify_self; [apply tame_observed|done]. Qed.

Lemma does_location_config node c fl lz s :
  is_available node = true → does 3 0 (location_config node c fl lz) s done_tt.
Proof.
  intros Ha. unfold location_config. eapply (does_bind 1 2 _ 0 0); [|done..].
  assert (Hup : does (E := ReconcileError) 1 0 (if bool_decide (lc_mode c = LocDetached) then available node else mret true) s
    (λ (b : bool) s', b = true)).
  { case_bool_decide; [eapply does_mono; [by apply does_available|done|done|naive_solver]|].
    eapply does_mono; [by apply (does_ret (E := ReconcileError) _ _ (λ b _, b = true))|lia|done|done]. }
  eapply does_mono; [exact Hup|done..|]. intros b s1 _ _ -> _. cbn [negb].
  eapply (does_bind 0 2 _ 0 0); [|done..]. eapply does_mono; [apply does_insert_observed|done..|]. intros [] s2 _ _ _ _.
  eapply (does_bind 2 0 _ 0 0); [|done..]. eapply does_mono; [apply does_retries; intros a ->; by eexists|done..|].
  intros a s3 _ _ (t & -> & _) _. eapply (does_bind 0 0 _ 0 0); [|done..]. apply does_ret. intros _.
  destruct (lc_mode c); first [apply does_insert_observed|apply does_modify_self; [apply tame_observed|done]].
Qed.

Lemma does_increment n s : does 1 1 (increment_generation n) s (λ g s', ∃ v, g = GenValid v).
Proof.
  unfold increment_generation. eapply (does_bind 1 0 _ 0 1); [|done..]. eapply does_mono; [apply does_request|done..|].
  intros a s1 _ _ [Ha Hs1] _. simpl in Ha. subst a. intros j Hj Hs Hlen. pose proof Hs as [Hb Hc Hd (row & g & Hrow & Hg & Hle)].
  assert (Hinc : row_increment n row = Some (mkShardRow (Some (g + 1)) (Some n))).
  { unfold row_increment, sql_increment. by rewrite Hg, (proj2 (Z.ltb_lt g i32_max)) by lia. }
  unfold mbind, ST_bind, st_get, st_modify. rewrite Hrow. simpl. rewrite Hinc. simpl. rewrite (write_increment n g row s1) by (done || lia).
  eexists _, _. split; [done|]. split; [|split; [simpl; lia|split; [done|by eexists]]].
  split; simpl; [done..|]. eexists _, _. split; [done|]. simpl. split; [done|]. lia.
Qed.

Lemma does_loop {E A} n (body : RM E (option A)) s (Q : A → Recon → Prop) :
  does n 0 body s (λ a s', ∃ x, a = Some x ∧ Q x s') → does n 0 (loop body) s Q.
Proof.
  intros Hb j Hj Hs Hlen. destruct (Hb j Hj Hs Hlen) as (a & s1 & Hm & Hs1 & Hl & Ht & x & -> & HQ). exists x, s1.
  split; [|done]. unfold loop. simpl. unfold mbind, ST_bind. by rewrite Hm.
Qed.

Lemma does_get_lsns node s : does 1 0 (get_lsns node) s (λ _ _, True).
Proof.
  unfold get_lsns. eapply (does_bind 1 0 _ 0 0); [|done..]. eapply does_mono; [apply does_request|done..|].
  intros a s1 _ _ [[lsns ->] _] _. by apply does_ret.
Qed.

Lemma does_secondary_download node s : does 2 0 (secondary_download node) s done_tt.
Proof.
  unfold secondary_download. apply does_get_self, does_loop. eapply (does_bind 2 0 _ 0 0); [|done..].
  eapply does_mono; [apply does_retries; intros a ->; by eexists|done..|].
  intros a s1 _ _ (t & -> & Ha & _) _. simpl in Ha. simplify_eq/=. apply does_ret. by exists tt.
Qed.

Lemma does_await_lsn node baseline s : does 2 0 (await_lsn node baseline) s done_tt.
Proof.
  unfold await_lsn. eapply (does_bind 2 0 _ 0 0); [|done..].
  apply (does_loop _ _ _ (λ b s', tame (rc_self s) (rc_self s') → does 0 0 (if (b : bool) then mret tt else _) s' done_tt)).
  eapply (does_bind 1 1 _ 0 0); [|done..]. eapply does_mono; [apply does_is_cancelled|done..|]. intros b s1 _ _ [-> _] _.
  eapply (does_bind 1 0 _ 0 0); [|done..]. eapply does_mono; [apply does_request|done..|]. intros a s2 _ _ [Ha _] _.
  simpl in Ha. subst a. apply does_ret. exists true. split; [done|]. intros _. by apply does_ret.
Qed.

Lemma does_compute_notify s : does 1 0 compute_notify s done_tt.
Proof.
  unfold compute_notify. apply does_get_self. destruct (tgt_attached _) as [dest|].
  - eapply (does_bind 1 0 _ 0 0); [|done..]. eapply does_mono; [apply does_request|done..|]. intros a s1 _ _ [Ha _] _.
    simpl in Ha. subst a. by apply does_ret.
  - eapply does_mono; [by apply (does_ret (E := NotifyError) tt s done_tt)|lia|done|done].
Qed.

Lemma does_attempt {E E' A} n k (m : RM E A) s (Q : A → Recon → Prop) :
  does n k m s Q → does n k (attempt (E' := E') m) s (λ r s', ∃ a, r = inl a ∧ Q a s').
Proof.
  intros Hm j Hj Hs Hlen. destruct (Hm j Hj Hs Hlen) as (a & s1 & Hm1 & Hs1 & Hl & Ht & HQ). exists (inl a), s1.
  unfold attempt. rewrite Hm1. split; [done|]. split; [done|]. split; [done|]. split; [done|]. by exists a.
Qed.

Lemma does_convert {E E' A} (f : E → E') n k (m : RM E A) s Q : does n k m s Q → does n k (convert f m) s Q.
Proof.
  intros Hm j Hj Hs Hlen. destruct (Hm j Hj Hs Hlen) as (a & s1 & Hm1 & Hr). exists a, s1.
  unfold convert, st_map_err. rewrite Hm1. by split.
Qed.

Lemma does_notify_blocking origin s : does 1 0 (compute_notify_blocking origin) s done_tt.
Proof.
  unfold compute_notify_blocking. apply does_loop. eapply (does_bind 1 0 _ 0 0); [|done..].
  eapply does_mono; [apply does_attempt, does_compute_notify|done..|]. intros r s1 _ _ (a & -> & _) _. apply does_ret. by exists tt.
Qed.

(** ** Migration *)

Lemma does_assert {E} b s : b = true → does (E := E) 0 0 (st_assert b) s done_tt.
Proof. intros ->. by apply does_ret. Qed.

Lemma does_self_location_config mode sec s :
  has_valid (rc_self s) → does 0 0 (self_location_config mode sec) s (λ _ _, True).
Proof.
  intros [v Hv]. unfold self_location_config. apply does_get_self. unfold build_location_config.
  case_bool_decide; rewrite ?Hv; by apply does_ret.
Qed.

(** Run the next operation of a sequence. *)
Ltac does_next n1 n2 k1 k2 lem :=
  eapply (does_bind n1 n2 _ k1 k2); [|lia..]; eapply does_mono; [lem|done..|].

Lemma does_prepare_migration origin dest s :
  is_available origin = true → has_valid (rc_self s) → does 6 0 (prepare_migration origin dest) s (λ _ _, True).
Proof.
  intros Ho Hv. unfold prepare_migration.
  does_next 0%nat 6%nat 0 0 ltac:(by apply does_self_location_config). intros c s1 _ _ _ _.
  does_next 3%nat 3%nat 0 0 ltac:(by apply does_location_config). intros [] s2 _ _ _ _.
  does_next 1%nat 2%nat 0 0 ltac:(apply does_get_lsns). intros lsns s3 _ _ _ _. apply does_get_self.
  eapply (does_bind 2 0 _ 0 0); [|lia..]. apply (does_mono 2 2 0 0 _ _ (λ _ _, True)); [|done|done|].
  - destruct (mjoin _); [case_bool_decide|]; [apply does_secondary_download|..];
      (eapply does_mono; [by apply (does_ret (E := ReconcileError) tt s3 (λ _ _, True))|lia|done|done]).
  - intros [] s4 _ _ _ _. by apply does_ret.
Qed.

Lemma does_switch_over origin dest s :
  is_available origin = true → is_available dest = true → has_valid (rc_self s) → does 13 1 (switch_over origin dest) s done_tt.
Proof.
  intros Ho Hd Hv. unfold switch_over.
  does_next 6%nat 7%nat 0 1 ltac:(by apply does_prepare_migration). intros lsns s1 _ _ _ _.
  does_next 1%nat 6%nat 1 0 ltac:(apply does_increment). intros gen s2 _ _ [v ->] _.
  eapply (does_bind 0 6 _ 0 0); [|lia..]. apply does_modify_self; [apply tame_generation|]. intros _.
  does_next 0%nat 6%nat 0 0 ltac:(by apply does_self_location_config; exists v). intros c s4 _ _ _ _.
  does_next 3%nat 3%nat 0 0 ltac:(by apply does_location_config). intros [] s5 _ _ _ _.
  does_next 2%nat 1%nat 0 0 ltac:(apply does_await_lsn). intros [] s6 _ _ _ _. apply does_notify_blocking.
Qed.

Lemma does_finish_migration origin dest s :
  is_available origin = true → is_available dest = true → has_valid (rc_self s) → does 6 0 (finish_migration origin dest) s done_tt.
Proof.
  intros Ho Hd Hv. unfold finish_migration.
  does_next 0%nat 6%nat 0 0 ltac:(by apply does_self_location_config). intros c s1 _ [_ H1] _ _.
  does_next 3%nat 3%nat 0 0 ltac:(by apply does_location_config). intros [] s2 _ [_ H2] _ _.
  does_next 0%nat 3%nat 0 0 ltac:(apply does_insert_observed). intros [] s3 _ [_ H3] _ _.
  does_next 0%nat 3%nat 0 0 ltac:(apply does_self_location_config; auto). intros c' s4 _ _ _ _.
  does_next 3%nat 0%nat 0 0 ltac:(by apply does_location_config). intros [] s5 _ _ _ _. apply does_insert_observed.
Qed.

Lemma does_live_migrate origin dest s :
  is_available origin = true → is_available dest = true → n_id origin ≠ n_id dest → has_valid (rc_self s) →
  does 19 1 (live_migrate origin dest) s done_tt.
Proof.
  intros Ho Hd Hne Hv. unfold live_migrate.
  does_next 0%nat 19%nat 0 1 ltac:(by apply does_assert, negb_true_iff, Z.eqb_neq). intros [] s1 _ [_ H1] _ _.
  does_next 13%nat 6%nat 1 0 ltac:(apply does_switch_over; auto). intros [] s2 _ [_ H2] _ _. apply does_finish_migration; auto.
Qed.

(** All nodes of the task are available. *)
Definition all_available (r : Reconciler) : Prop := ∀ n, n ∈ targets r → is_available n = true.

Lemma tame_targets r r' : tame r r' → targets r' = targets r ∧ re_intent r' = re_intent r ∧ re_detach r' = re_detach r.
Proof. by intros [-> _]. Qed.

Lemma does_find_origin order : ∀ s, all_available (rc_self s) →
  does (length order) 0 (find_origin order) s (λ o s', ∀ n, o = Some n → is_available n = true).
Proof.
  induction order as [|k order IH]; intros s Ha; cbn [find_origin length]; [by apply does_ret|].
  apply does_get_self. destruct (mjoin _ ≫= _) as [n|] eqn:Hn; [|by eapply does_mono; [by apply IH|lia|done|done]].
  assert (Hav : is_available n = true).
  { apply Ha. destruct (mjoin _); [|done]. simpl in Hn. case_bool_decide; [|done]. by apply get_node_spec in Hn as [_ ?]. }
  does_next 1%nat (length order) 0 0 ltac:(by apply does_available). intros b s1 _ _ [-> _] _.
  eapply does_mono; [apply (does_ret (E := ReconcileError) (Some n) s1 (λ o _, ∀ m, o = Some m → is_available m = true)); by intros ? [= <-]|lia|done|done].
Qed.

Lemma does_maybe_live_migrate order s :
  all_available (rc_self s) → has_valid (rc_self s) → does (length order + 19) 1 (maybe_live_migrate order) s done_tt.
Proof.
  intros Ha Hv. unfold maybe_live_migrate. apply does_get_self.
  assert (Hskip : does (E := ReconcileError) (length order + 19) 1 (mret tt) s done_tt).
  { eapply does_mono; [by apply (does_ret (E := ReconcileError) tt s done_tt)|lia|lia|done]. }
  destruct (tgt_attached _) as [dest|] eqn:Hdest; [|done].
  assert (Hd : is_available dest = true). { apply Ha. unfold targets. rewrite Hdest. by left. }
  assert (Hmig : (∀ c, re_observed (rc_self s) !! n_id dest = Some (Some c) → lc_mode c ≠ AttachedSingle) →
    does (length order + 19) 1 (origin ← find_origin order; match origin with None => mret tt | Some origin => live_migrate origin dest end) s done_tt).
  { intros Hm. does_next (length order) 19%nat 0 1 ltac:(by apply does_find_origin). intros o s1 Hrun Ht Ho _.
    pose proof (wp_run _ _ _ _ _ (find_origin_spec False anything order s (ok_false s)) Hrun) as [_ Hr]. simpl in Hr.
    destruct o as [origin|].
    - destruct Hr as (c & Hc & Hmode). apply does_live_migrate; [auto|done| |by apply Ht].
      intros Heq. rewrite Heq in Hc. by apply Hm in Hc.
    - eapply does_mono; [by apply (does_ret (E := ReconcileError) tt s1 done_tt)|lia|lia|done]. }
  destruct (re_observed (rc_self s) !! n_id dest) as [[c|]|] eqn:Hobs; [|done|by apply Hmig].
  case_bool_decide as Hc; [|done]. apply Hmig. intros ? [= <-]. by rewrite Hc.
Qed.

(** ** Reconciliation *)

Lemma does_maybe_refresh s : does 2 0 maybe_refresh_observed s (λ _ _, True).
Proof.
  unfold maybe_refresh_observed. apply does_get_self. destruct (tgt_attached _) as [dest|].
  - eapply (does_bind 2 0 _ 0 0); [|lia..]. apply (does_mono 2 2 0 0 _ _ done_tt); [|done..|by intros [] s1 _ _ _ _; apply does_ret].
    case_bool_decide; [|eapply does_mono; [by apply (does_ret (E := ReconcileError) tt s done_tt)|lia|lia|done]].
    does_next 2%nat 0%nat 0 0 ltac:(apply does_retries; intros a [loc ->]; by eexists).
    intros a s1 _ _ (loc & -> & _) _. apply does_insert_observed.
  - eapply does_mono; [by apply (does_ret (E := ReconcileError) false s (λ _ _, True))|lia|lia|done].
Qed.

Lemma does_attach dest conf s :
  is_available dest = true →
  does 4 0 (_ ← location_config dest conf None true; convert ErrNotify compute_notify) s done_tt.
Proof.
  intros Hd. does_next 3%nat 1%nat 0 0 ltac:(by apply does_location_config). intros [] s1 _ _ _ _.
  apply does_convert, does_compute_notify.
Qed.

Lemma does_reconcile_attached refreshed s :
  all_available (rc_self s) → has_valid (rc_self s) → does 5 1 (reconcile_attached refreshed) s done_tt.
Proof.
  intros Ha [v Hv]. unfold reconcile_attached. apply does_get_self.
  assert (Hskip : does (E := ReconcileError) 5 1 (mret tt) s done_tt).
  { eapply does_mono; [by apply (does_ret (E := ReconcileError) tt s done_tt)|lia|lia|done]. }
  destruct (tgt_attached _) as [dest|] eqn:Hdest; [|done].
  assert (Hd : is_available dest = true). { apply Ha. unfold targets. rewrite Hdest. by left. }
  rewrite Hv. case_bool_decide.
  { destruct refreshed; [|done]. eapply does_mono; [apply does_convert, does_compute_notify|lia|lia|done]. }
  eapply (does_bind 1 4 _ 1 0); [|lia..]. apply (does_mono 1 1 1 1 _ _ (λ _ _, True)); [|done..|].
  - match goal with |- does _ _ (if ?b then _ else _) _ _ => destruct b end.
    + does_next 1%nat 0%nat 1 0 ltac:(apply does_increment). intros gen s1 _ _ [w ->] _.
      eapply (does_bind 0 0 _ 0 0); [|lia..]. apply does_modify_self; [apply tame_generation|]. intros _. by apply does_ret.
    + match goal with |- does _ _ (mret ?x) _ _ =>
        eapply does_mono; [by apply (does_ret (E := ReconcileError) x s (λ _ _, True))|lia|lia|done] end.
  - intros conf s1 _ _ _ _. by apply does_attach.
Qed.

Lemma does_secondary_changes nodes : ∀ s, Forall (λ n, is_available n = true) nodes →
  does (length nodes) 0 (secondary_changes nodes) s (λ l _,
    Forall (λ i, i.1 ∈ nodes) l ∧ (length l ≤ length nodes)%nat).
Proof.
  induction nodes as [|n nodes IH]; intros s Ha; cbn [secondary_changes length]; [by apply does_ret|].
  apply Forall_cons in Ha as [Hn Ha]. apply does_get_self.
  eapply (does_bind 1 (length nodes) _ 0 0); [|lia..].
  apply (does_mono 1 1 0 0 _ _ (λ l _, Forall (λ i, i.1 = n) l ∧ (length l ≤ 1)%nat)); [|done..|].
  - case_bool_decide.
    + eapply does_mono; [apply (does_ret (E := ReconcileError) [] s (λ (l : list (Node * LocationConfig)) _, Forall (λ i, i.1 = n) l ∧ (length l ≤ 1)%nat));
        simpl; split; [constructor|lia]|lia|lia|done].
    + does_next 1%nat 0%nat 0 0 ltac:(by apply does_available). intros b s1 _ _ [-> _] _.
      apply does_ret. split; [by repeat constructor|simpl; lia].
  - intros l1 s1 _ _ [H1 Hl1] _. does_next (length nodes) 0%nat 0 0 ltac:(by apply IH). intros l2 s2 _ _ [H2 Hl2] _.
    apply does_ret. split; [|rewrite length_app; lia]. apply Forall_app. split; eapply Forall_impl; [exact H1| |exact H2|]; simpl.
    + intros i ->. by left.
    + intros i Hi. by right.
Qed.

Lemma does_apply_changes l : ∀ s, Forall (λ i, is_available i.1 = true) l → does (5 * length l) 0 (apply_changes l) s done_tt.
Proof.
  induction l as [|[n c] l IH]; intros s Ha; cbn [apply_changes length]; [by apply does_ret|].
  apply Forall_cons in Ha as [Hn Ha]. simpl in Hn.
  does_next 1%nat (4 + 5 * length l)%nat 0 0 ltac:(apply does_is_cancelled). intros b s1 _ _ [-> _] _.
  does_next 1%nat (3 + 5 * length l)%nat 0 0 ltac:(by apply does_available). intros b s2 _ _ [-> _] _.
  does_next 3%nat (5 * length l)%nat 0 0 ltac:(by apply does_location_config). intros [] s3 _ _ _ _. by apply IH.
Qed.

(** The number of steps that are enough *)
Definition reconcile_steps (order : list NodeId) (r : Reconciler) : nat :=
  26 + length order + 6 * length (tgt_secondary (re_intent r)) + 5 * length (re_detach r).

Lemma does_reconcile_locations order s :
  all_available (rc_self s) → has_valid (rc_self s) → does (reconcile_steps order (rc_self s)) 2 (reconcile_locations order) s done_tt.
Proof.
  intros Ha Hv. unfold reconcile_locations. set (ns := length (tgt_secondary (re_intent (rc_self s)))).
  set (nd := length (re_detach (rc_self s))).
  eapply (does_bind (26 + length order) (6 * ns + 5 * nd) _ 2 0); [|unfold reconcile_steps; subst ns nd; lia|lia|lia].
  apply (does_mono (26 + length order) (26 + length order) 2 2 _ _ done_tt); [|done..|].
  - unfold reconcile_attachment. does_next 2%nat (24 + length order)%nat 0 2 ltac:(apply does_maybe_refresh). intros b s1 _ H1 _ _.
    assert (Ha1 : all_available (rc_self s1)) by (unfold all_available; by rewrite (proj1 (tame_targets _ _ H1))).
    does_next (length order + 19)%nat 5%nat 1 1 ltac:(apply does_maybe_live_migrate; [done|by apply H1]). intros [] s2 _ H2 _ _.
    assert (Ha2 : all_available (rc_self s2)) by (unfold all_available; by rewrite (proj1 (tame_targets _ _ H2))).
    apply does_reconcile_attached; [done|]. by apply H2, H1.
  - intros [] s1 _ H1 _ _. apply does_get_self. destruct (tame_targets _ _ H1) as (_ & Hi & Hd). rewrite Hi.
    assert (Hsec : Forall (λ n, is_available n = true) (tgt_secondary (re_intent (rc_self s)))).
    { apply Forall_forall. intros n Hn. apply Ha. unfold targets. set_solver. }
    does_next ns (5 * ns + 5 * nd)%nat 0 0 ltac:(by apply does_secondary_changes). intros l s2 _ _ [Hl Hlen] _.
    eapply does_mono; [apply does_apply_changes| |done|done].
    + apply Forall_app. split; [|apply Forall_fmap, Forall_forall; intros n Hn; simpl; rewrite Hd in Hn; apply Ha; unfold targets; set_solver].
      rewrite Forall_forall in Hsec. eapply Forall_impl; [exact Hl|]. simpl. auto.
    + rewrite length_app, length_fmap, Hd. subst ns nd. lia.
Qed.

Lemma does_handle_detached {E} s : does (E := E) 0 0 handle_detached s done_tt.
Proof.
  apply does_get_self. destruct (andb _ _); [|by apply does_ret]. intros j Hj [? ? ? ?] Hlen.
  eexists _, _. split; [done|]. split; [by split; simpl; try replace j with (0 + j) by lia|]. split; [simpl; lia|]. by split.
Qed.

Lemma does_reconcile order s :
  all_available (rc_self s) → has_valid (rc_self s) → does (reconcile_steps order (rc_self s)) 2 (reconcile order) s done_tt.
Proof.
  intros Ha Hv. unfold reconcile. does_next (reconcile_steps order (rc_self s)) 0%nat 2 0 ltac:(by apply does_reconcile_locations).
  intros [] s1 _ _ _ _. apply does_handle_detached.
Qed.

(** C17: a reconciler finishes.  If the pageservers, the computes and the database answer, no
    node goes down and the task is not cancelled, then the reconciler returns [Ok] after a
    number of steps that depends on the numbers of locations only, whatever the observed state
    is, live migration or not. *)
Theorem reconcile_finishes order s :
  smooth 2 s → all_available (rc_self s) → has_valid (rc_self s) →
  (reconcile_steps order (rc_self s) ≤ length (rc_env s))%nat →
  ∃ s', reconcile order s = (Ok tt, s').
Proof.
  intros Hs Ha Hv Hlen. destruct (does_reconcile order s Ha Hv 0) as ([] & s' & H & _); [lia|done|done|]. by exists s'.
Qed.

Lemma reconcile_finishes_witness :
  reconcile_steps [1] (rc_self moving_task) = 38%nat ∧ ∃ s', reconcile [1] moving_task = (Ok tt, s').
Proof.
  split; [done|]. apply (reconcile_finishes [1] moving_task).
  - split; [|done..|].
    + apply Forall_replicate. split; [done..|]. intros tr R q. by destruct q; eexists.
    + exists (mkShardRow (Some 1) (Some 1)), 1. split; [done|]. split; [done|]. unfold i32_max. lia.
  - intros n Hn. assert (Hup : is_up n moving_task = true) by (by apply moving_up). by apply andb_true_iff in Hup as [? _].
  - by exists 1.
  - apply (bool_decide_unpack _). vm_compute. exact I.
Defined.
