(* ===== verification/LwLsn.v ===== *)
(** * Last-written LSNs of the compute

    [pgxn/neon/neon_lwlsncache.c]: for the pages that a compute has evicted from its
    buffers, the LSN at which each was written, in a cache of limited size with a maximum
    for all others; [neon_get_request_lsns] of [pagestore_smgr.c], which asks the pageserver
    for pages at these LSNs; [neon_prefetch_response_usable] of [communicator.c].

    What is done under one acquisition of [LastWrittenLsnLock] is one operation: a lookup
    that releases the lock and takes it again is two. *)

From S2P Require Import Prelude Lsn.

(** ** The cache *)

Definition InvalidOid : Z := 0.
Definition REL_METADATA_PSEUDO_BLOCKNO : Z := 2 ^ 32 - 1.
Definition MAIN_FORKNUM : Z := 0.

Record NRelFileInfo := mkRelFileInfo { spcOid : Z; dbOid : Z; relNumber : Z }.

(** [BufferTag] *)
Record BlockTag := mkBlockTag { bt_rinfo : NRelFileInfo; bt_forknum : Z; bt_blockNum : Z }.

#[export] Instance NRelFileInfo_eq_dec : EqDecision NRelFileInfo.
Proof. solve_decision. Defined.
#[export] Instance BlockTag_eq_dec : EqDecision BlockTag.
Proof. solve_decision. Defined.
#[export] Instance BlockTag_countable : Countable BlockTag.
Proof.
  apply (inj_countable' (λ t, (spcOid (bt_rinfo t), dbOid (bt_rinfo t), relNumber (bt_rinfo t), bt_forknum t, bt_blockNum t))
    (λ '(s, d, r, f, b), mkBlockTag (mkRelFileInfo s d r) f b)). by intros [[? ? ?] ? ?].
Defined.

(** [lastWrittenLsnLRU] lists the entries of the hash table, the least recently used
    first. *)
Record LwLsnCache := mkLwLsnCache {
  lastWrittenLsnCacheSize : Z;
  maxLastWrittenLsn : Lsn;
  lastWrittenLsnLRU : list BlockTag;
  lastWrittenLsnCache : gmap BlockTag Lsn;
}.
#[export] Instance LwLsnCache_settable : Settable LwLsnCache := λ c,
  mkLwLsnCache (lastWrittenLsnCacheSize c) (maxLastWrittenLsn c) (lastWrittenLsnLRU c) (lastWrittenLsnCache c).

Definition shmeminit (lwlsn_cache_size : Z) (redo : Lsn) : LwLsnCache := mkLwLsnCache lwlsn_cache_size redo [] ∅.

Section operations.
Context {E : Type}.
Local Abbreviation M A := (ST LwLsnCache E A).

(** Popping from an empty list is undefined. *)
Definition replace_lru : M unit :=
  self ← st_get;
  match lastWrittenLsnLRU self with
  | [] => st_panic
  | victim :: lru =>
    victim_lsn ← st_lift (unwrap (lastWrittenLsnCache self !! victim));
    st_modify (λ self, self
      <| maxLastWrittenLsn := if maxLastWrittenLsn self <? victim_lsn then victim_lsn else maxLastWrittenLsn self |>
      <| lastWrittenLsnLRU := lru |>
      <| lastWrittenLsnCache := delete victim (lastWrittenLsnCache self) |>)
  end.

(** The entry of one block; the LSN that it has then *)
Definition enter (key : BlockTag) (lsn : Lsn) : M Lsn :=
  self ← st_get;
  lsn ←
    match lastWrittenLsnCache self !! key with
    | Some entry_lsn =>
      let lsn := if entry_lsn <? lsn then lsn else entry_lsn in
      _ ← st_modify (λ self, self <| lastWrittenLsnCache := <[key := lsn]> (lastWrittenLsnCache self) |>
        <| lastWrittenLsnLRU := filter (λ k, k ≠ key) (lastWrittenLsnLRU self) |>);
      mret lsn
    | None =>
      _ ← st_modify (λ self, self <| lastWrittenLsnCache := <[key := lsn]> (lastWrittenLsnCache self) |>);
      self ← st_get;
      _ ← (if lastWrittenLsnCacheSize self <? Z.of_nat (size (lastWrittenLsnCache self)) then replace_lru
           else mret tt);
      mret lsn
    end;
  _ ← st_modify (λ self, self <| lastWrittenLsnLRU := lastWrittenLsnLRU self ++ [key] |>);
  mret lsn.

(** The loop over the blocks of a range; what is learned of one block is used for the next. *)
Fixpoint enter_range (lsn : Lsn) (rlocator : NRelFileInfo) (forknum from : Z) (i : Z) (n : nat) : M Lsn :=
  match n with
  | O => mret lsn
  | S n =>
    lsn ← enter (mkBlockTag rlocator forknum (wrapping_add 32 from i)) lsn;
    enter_range lsn rlocator forknum from (i + 1) n
  end.

Definition SetLastWrittenLSNForBlockRangeInternal (lsn : Lsn) (rlocator : NRelFileInfo) (forknum from n_blocks : Z) : M Lsn :=
  if relNumber rlocator =? InvalidOid then
    self ← st_get;
    if maxLastWrittenLsn self <? lsn then
      _ ← st_modify (λ self, self <| maxLastWrittenLsn := lsn |>); mret lsn
    else mret (maxLastWrittenLsn self)
  else enter_range lsn rlocator forknum from 0 (Z.to_nat n_blocks).

Definition neon_set_lwlsn_block_range (lsn : Lsn) (rlocator : NRelFileInfo) (forknum from n_blocks : Z) : M Lsn :=
  self ← st_get;
  if (lsn =? Lsn_INVALID) || (n_blocks =? 0) || (lastWrittenLsnCacheSize self =? 0) then mret lsn
  else SetLastWrittenLSNForBlockRangeInternal lsn rlocator forknum from n_blocks.

Fixpoint enter_each (lsns : list Lsn) (relfilenode : NRelFileInfo) (forknum blockno : Z) (i : Z) (max : Lsn) : M Lsn :=
  match lsns with
  | [] => mret max
  | lsn :: lsns =>
    max ←
      (if lsn =? Lsn_INVALID then mret max
       else
         lsn ← enter (mkBlockTag relfilenode forknum (wrapping_add 32 blockno i)) lsn;
         mret (Z.max max lsn));
    enter_each lsns relfilenode forknum blockno (i + 1) max
  end.

Definition neon_set_lwlsn_block_v (lsns : list Lsn) (relfilenode : NRelFileInfo) (forknum blockno : Z) : M Lsn :=
  self ← st_get;
  if (Z.of_nat (length lsns) =? 0) || (lastWrittenLsnCacheSize self =? 0) || (relNumber relfilenode =? InvalidOid)
  then mret Lsn_INVALID
  else enter_each lsns relfilenode forknum blockno 0 Lsn_INVALID.

Definition neon_set_lwlsn_block (lsn : Lsn) (rlocator : NRelFileInfo) (forknum blkno : Z) : M Lsn :=
  neon_set_lwlsn_block_range lsn rlocator forknum blkno 1.

Definition neon_set_lwlsn_relation (lsn : Lsn) (rlocator : NRelFileInfo) (forknum : Z) : M Lsn :=
  neon_set_lwlsn_block lsn rlocator forknum REL_METADATA_PSEUDO_BLOCKNO.

Definition neon_set_lwlsn_db (lsn : Lsn) : M Lsn :=
  neon_set_lwlsn_block lsn (mkRelFileInfo InvalidOid InvalidOid InvalidOid) MAIN_FORKNUM 0.

Definition neon_set_max_lwlsn (lsn : Lsn) : M unit := st_modify (λ self, self <| maxLastWrittenLsn := lsn |>).

(** The maximum of all entries and of the rest *)
Definition max_lwlsn (self : LwLsnCache) : Lsn :=
  foldl (λ lsn i, if lsn <? i.2 then i.2 else lsn) (maxLastWrittenLsn self) (map_to_list (lastWrittenLsnCache self)).

(** [neon_get_lwlsn] with the shared lock: the LSN, or that of all blocks that are not in the
    cache, with which it goes on *)
Definition get_lwlsn_shared (rlocator : NRelFileInfo) (forknum blkno : Z) : M (Lsn + Lsn) :=
  self ← st_get;
  if relNumber rlocator =? InvalidOid then mret (inl (max_lwlsn self))
  else
    mret (match lastWrittenLsnCache self !! mkBlockTag rlocator forknum blkno with
      | Some lsn => inl lsn
      | None => inr (maxLastWrittenLsn self)
      end).

(** With the exclusive lock *)
Definition get_lwlsn_exclusive (lsn : Lsn) (rlocator : NRelFileInfo) (forknum blkno : Z) : M Lsn :=
  SetLastWrittenLSNForBlockRangeInternal lsn rlocator forknum blkno 1.

Definition neon_get_lwlsn (rlocator : NRelFileInfo) (forknum blkno : Z) : M Lsn :=
  r ← get_lwlsn_shared rlocator forknum blkno;
  match r with
  | inl lsn => mret lsn
  | inr lsn => get_lwlsn_exclusive lsn rlocator forknum blkno
  end.

(** [neon_get_lwlsn_v] with the shared lock: the LSNs, [InvalidXLogRecPtr] for the blocks that are
    not in the cache, and whether there are any *)
Definition get_lwlsn_v_shared (relfilenode : NRelFileInfo) (forknum blkno nblocks : Z) : M (list Lsn * bool) :=
  self ← st_get;
  if relNumber relfilenode =? InvalidOid then mret (replicate (Z.to_nat nblocks) (max_lwlsn self), false)
  else
    let entries := (λ i, lastWrittenLsnCache self !! mkBlockTag relfilenode forknum (wrapping_add 32 blkno i))
      <$> seqZ 0 nblocks in
    mret (default Lsn_INVALID <$> entries, existsb (λ e, bool_decide (e = None)) entries).

Fixpoint enter_missing (lsn : Lsn) (lsns : list Lsn) (relfilenode : NRelFileInfo) (forknum blkno : Z) (i : Z) :
    M (list Lsn) :=
  match lsns with
  | [] => mret []
  | l :: lsns =>
    l ←
      (if l =? Lsn_INVALID then
         _ ← SetLastWrittenLSNForBlockRangeInternal lsn relfilenode forknum (wrapping_add 32 blkno i) 1; mret lsn
       else mret l);
    lsns ← enter_missing lsn lsns relfilenode forknum blkno (i + 1);
    mret (l :: lsns)
  end.

(** With the exclusive lock *)
Definition get_lwlsn_v_exclusive (lsns : list Lsn) (relfilenode : NRelFileInfo) (forknum blkno : Z) : M (list Lsn) :=
  self ← st_get;
  enter_missing (maxLastWrittenLsn self) lsns relfilenode forknum blkno 0.

Definition neon_get_lwlsn_v (relfilenode : NRelFileInfo) (forknum blkno nblocks : Z) : M (list Lsn) :=
  r ← get_lwlsn_v_shared relfilenode forknum blkno nblocks;
  let '(lsns, missed_keys) := r in
  if (missed_keys : bool) then get_lwlsn_v_exclusive lsns relfilenode forknum blkno else mret lsns.
End operations.

(** ** Requests *)

Definition SizeOfXLogShortPHD : Z := 24.
Definition SizeOfXLogLongPHD : Z := 40.

Definition nm_adjust_lsn (wal_segment_size : Z) (lsn : Lsn) : Lsn :=
  if Z.land lsn (XLOG_BLCKSZ - 1) =? SizeOfXLogShortPHD then wrapping_sub 64 lsn SizeOfXLogShortPHD
  else if Z.land lsn (wal_segment_size - 1) =? SizeOfXLogLongPHD then wrapping_sub 64 lsn SizeOfXLogLongPHD
  else lsn.

Record neon_request_lsns := mkRequestLsns {
  request_lsn : Lsn;
  not_modified_since : Lsn;
  effective_request_lsn : Lsn;
}.

(** The answers of Postgres: whether it is in recovery, and then the end of the last record
    that was replayed, otherwise the end of the WAL that was flushed *)
Inductive WalPosition := InRecovery (replay_lsn : Lsn) | InNormalOperation (flushlsn : Lsn).

(** The requests, and the arguments of the calls of [XLogFlush] *)
Definition request_lsns_of (wal_segment_size : Z) (position : WalPosition) (lsns : list Lsn) :
    list neon_request_lsns * list Lsn :=
  let last_written_lsns := nm_adjust_lsn wal_segment_size <$> lsns in
  match position with
  | InRecovery replay_lsn =>
    ((λ last_written_lsn,
        let lsn := if replay_lsn <? last_written_lsn then last_written_lsn else replay_lsn in
        mkRequestLsns lsn last_written_lsn lsn) <$> last_written_lsns, [])
  | InNormalOperation flushlsn =>
    ((λ last_written_lsn, mkRequestLsns u64_max last_written_lsn last_written_lsn) <$> last_written_lsns,
     filter (λ last_written_lsn, flushlsn < last_written_lsn) last_written_lsns)
  end.

Definition neon_get_request_lsns {E} (wal_segment_size : Z) (position : WalPosition)
    (rinfo : NRelFileInfo) (forknum blkno nblocks : Z) : ST LwLsnCache E (list neon_request_lsns * list Lsn) :=
  lsns ← neon_get_lwlsn_v rinfo forknum blkno nblocks;
  mret (request_lsns_of wal_segment_size position lsns).

Definition neon_prefetch_response_usable (request_lsns slot : neon_request_lsns) : bool :=
  if (effective_request_lsn request_lsns <? effective_request_lsn slot)
     || (not_modified_since request_lsns <? not_modified_since slot) then false
  else not_modified_since request_lsns <=? effective_request_lsn slot.
