(* ===== verification/LwLsnProps.v ===== *)
(** * Last-written LSNs are never too old

    The cache of last-written LSNs as a concurrent system: backends write and look up in any
    interleaving of the sections under the lock.  The code may lose the LSN of a block in three
    ways; such a block is doubtful until it is written again, and all others are safe. *)

From S2P Require Import Prelude Lsn LwLsn.

(** ** The cache *)

Record cache_wf (c : LwLsnCache) : Prop := mkCacheWf {
  cw_size : 1 ≤ lastWrittenLsnCacheSize c;
  cw_nodup : NoDup (lastWrittenLsnLRU c);
  cw_keys k : k ∈ lastWrittenLsnLRU c ↔ is_Some (lastWrittenLsnCache c !! k);
  cw_length : Z.of_nat (length (lastWrittenLsnLRU c)) ≤ lastWrittenLsnCacheSize c;
  cw_max : in_u 64 (maxLastWrittenLsn c);
  cw_lsn k e : lastWrittenLsnCache c !! k = Some e → in_u 64 e;
}.

(** The LSN that is known for a block *)
Definition bound (c : LwLsnCache) (k : BlockTag) : Lsn := default (maxLastWrittenLsn c) (lastWrittenLsnCache c !! k).

Definition cached (c : LwLsnCache) (k : BlockTag) : Prop := is_Some (lastWrittenLsnCache c !! k).

Lemma cache_entries c : cache_wf c → size (lastWrittenLsnCache c) = length (lastWrittenLsnLRU c).
Proof.
  intros [_ Hnd Hk _ _ _]. rewrite <- size_dom, <- (size_list_to_set (C := gset BlockTag) (lastWrittenLsnLRU c)) by done.
  f_equal. apply leibniz_equiv. intros k. by rewrite elem_of_list_to_set, Hk, elem_of_dom.
Qed.

(** What the use of a block does to the list *)
Definition touch (n : Z) (k : BlockTag) (lru : list BlockTag) : list BlockTag :=
  (if bool_decide (k ∈ lru) then filter (λ x, x ≠ k) lru
   else if Z.of_nat (length lru) <? n then lru else tail lru) ++ [k].

(** A block is used with an LSN. *)
Record entered (c : LwLsnCache) (k : BlockTag) (lsn l : Lsn) (c' : LwLsnCache) : Prop := mkEntered {
  en_wf : cache_wf c';
  en_result : l = match lastWrittenLsnCache c !! k with Some e => Z.max e lsn | None => lsn end;
  en_bound : bound c' k = l;
  en_other j : j ≠ k → bound c j ≤ bound c' j;
  en_max : maxLastWrittenLsn c ≤ maxLastWrittenLsn c';
  en_size : lastWrittenLsnCacheSize c' = lastWrittenLsnCacheSize c;
  en_lru : lastWrittenLsnLRU c' = touch (lastWrittenLsnCacheSize c) k (lastWrittenLsnLRU c);
}.

Lemma filter_absent (k : BlockTag) (l : list BlockTag) : k ∉ l → filter (λ x, x ≠ k) l = l.
Proof.
  induction l as [|x l IH]; [done|]. intros [Hx Hl]%not_elem_of_cons. rewrite filter_cons_True by auto. f_equal. auto.
Qed.

Lemma filter_length_nodup (k : BlockTag) l : NoDup l → k ∈ l → length l = S (length (filter (λ x, x ≠ k) l)).
Proof.
  induction l as [|x l IH]; [by intros _ ?%elem_of_nil|]. intros [Hx Hnd]%NoDup_cons Hk. simpl.
  destruct (decide (x = k)) as [->|Hne].
  - by rewrite filter_cons_False, filter_absent by auto.
  - rewrite filter_cons_True by done. simpl. f_equal. apply IH; [done|]. set_solver.
Qed.

Section enter.
Context {E : Type} (c : LwLsnCache) (k : BlockTag) (lsn : Lsn).
Hypotheses (Hwf : cache_wf c) (Hlsn : in_u 64 lsn).

Lemma enter_cached e :
  lastWrittenLsnCache c !! k = Some e →
  ∃ l c', enter (E := E) k lsn c = (Ok l, c') ∧ entered c k lsn l c'.
Proof.
  intros He. unfold enter, mbind, ST_bind, st_get, st_modify, mret, ST_ret. rewrite He. eexists _, _. split; [done|].
  destruct Hwf as [Hs Hnd Hk Hl Hm Hu]. assert (Hin : k ∈ lastWrittenLsnLRU c) by (apply Hk; by eexists).
  pose proof (filter_length_nodup k _ Hnd Hin) as Hlen.
  split; simpl; try done.
  - split; simpl; [done| | | |done|].
    + apply NoDup_app. split; [by apply NoDup_filter|]. split; [|apply NoDup_singleton].
      intros x [Hx _]%list_elem_of_filter ->%list_elem_of_singleton. done.
    + intros j. rewrite elem_of_app, list_elem_of_filter, list_elem_of_singleton, lookup_insert_is_Some', Hk. destruct (decide (j = k)); naive_solver.
    + rewrite length_app. simpl. lia.
    + intros j x [[_ <-]|[_ Hx]]%lookup_insert_Some; [|by eapply Hu]. destruct (_ <? _); [done|by eapply Hu].
  - rewrite He. destruct (Z.ltb_spec e lsn); lia.
  - unfold bound. simpl. by rewrite lookup_insert_eq.
  - intros j Hj. unfold bound. simpl. by rewrite lookup_insert_ne.
  - unfold touch. by rewrite bool_decide_true.
Qed.

Lemma enter_new : lastWrittenLsnCache c !! k = None → ∃ l c', enter (E := E) k lsn c = (Ok l, c') ∧ entered c k lsn l c'.
Proof.
  intros He. pose proof (cache_entries c Hwf) as Hsz. destruct Hwf as [Hs Hnd Hk Hl Hm Hu].
  assert (Hni : k ∉ lastWrittenLsnLRU c) by (intros Hin%Hk; rewrite He in Hin; by destruct Hin).
  unfold enter, mbind, ST_bind, st_get, st_modify, mret, ST_ret. rewrite He. simpl. rewrite map_size_insert_None, Hsz by done.
  destruct (Z.ltb_spec (lastWrittenLsnCacheSize c) (Z.of_nat (S (length (lastWrittenLsnLRU c))))) as [Hfull|Hroom].
  - unfold replace_lru, mbind, ST_bind, st_get, st_lift, unwrap, st_modify. simpl.
    destruct (lastWrittenLsnLRU c) as [|v lru] eqn:Hlru; [simpl in *; lia|].
    assert (Hv : cached c v) by (apply Hk; by left). destruct Hv as [ve Hve].
    assert (Hvk : v ≠ k) by (intros ->; congruence). simpl. rewrite lookup_insert_ne, Hve by done. simpl. eexists _, _. split; [done|].
    apply NoDup_cons in Hnd as [Hvl Hnd].
    split; simpl; try done.
    + split; simpl; [done| | | |destruct (_ <? _); [by eapply Hu|done]|].
      * apply NoDup_app. split; [done|]. split; [|apply NoDup_singleton]. intros x Hx ->%list_elem_of_singleton. set_solver.
      * intros j. rewrite elem_of_app, list_elem_of_singleton, lookup_delete_is_Some, lookup_insert_is_Some', <- Hk.
        set_solver.
      * rewrite length_app. simpl in *. lia.
      * intros j x [_ [[_ <-]|[_ Hx]]%lookup_insert_Some]%lookup_delete_Some; [done|by eapply Hu].
    + by rewrite He.
    + unfold bound. simpl. by rewrite lookup_delete_ne, lookup_insert_eq.
    + intros j Hj. unfold bound. simpl. destruct (decide (j = v)) as [->|Hjv].
      * rewrite lookup_delete_eq, Hve. simpl. destruct (Z.ltb_spec (maxLastWrittenLsn c) ve); lia.
      * rewrite lookup_delete_ne, lookup_insert_ne by done. destruct (lastWrittenLsnCache c !! j); simpl; [lia|].
        destruct (Z.ltb_spec (maxLastWrittenLsn c) ve); lia.
    + destruct (Z.ltb_spec (maxLastWrittenLsn c) ve); lia.
    + unfold touch. rewrite Hlru, bool_decide_false by done. simpl in *. by rewrite (proj2 (Z.ltb_ge _ _)) by lia.
  - eexists _, _. split; [done|]. split; simpl; try done.
    + split; simpl; [done| | | |done|].
      * apply NoDup_app. split; [done|]. split; [|apply NoDup_singleton]. by intros x Hx ->%list_elem_of_singleton.
      * intros j. rewrite elem_of_app, list_elem_of_singleton, lookup_insert_is_Some', <- Hk. set_solver.
      * rewrite length_app. simpl. lia.
      * intros j x [[_ <-]|[_ Hx]]%lookup_insert_Some; [done|by eapply Hu].
    + by rewrite He.
    + unfold bound. simpl. by rewrite lookup_insert_eq.
    + intros j Hj. unfold bound. simpl. by rewrite lookup_insert_ne.
    + unfold touch. rewrite bool_decide_false by done. by rewrite (proj2 (Z.ltb_lt _ _)) by lia.
Qed.

Lemma enter_spec : wp (enter (E := E) k lsn) (λ r c', ∃ l, r = Ok l ∧ entered c k lsn l c') c.
Proof.
  unfold wp. destruct (lastWrittenLsnCache c !! k) as [e|] eqn:He.
  - destruct (enter_cached e He) as (l & c' & -> & H). by exists l.
  - destruct (enter_new He) as (l & c' & -> & H). by exists l.
Qed.
End enter.

(** ** What is known of the blocks *)

(** [w]: the LSN at which each block was written last *)
Definition covers (w : BlockTag → Lsn) (c : LwLsnCache) : Prop := cache_wf c ∧ ∀ k, w k ≤ bound c k.

Lemma bound_nonneg c k : cache_wf c → 0 ≤ bound c k.
Proof.
  intros Hwf. unfold bound. destruct (lastWrittenLsnCache c !! k) as [e|] eqn:He; simpl; [by eapply (cw_lsn _ Hwf)|apply (cw_max _ Hwf)].
Qed.

Lemma covers_less w w' c : covers w c → (∀ k, w' k ≤ w k ∨ w' k = 0) → covers w' c.
Proof.
  intros [Hwf Hw] Hle. split; [done|]. intros k. destruct (Hle k) as [Hk|Hk]; [specialize (Hw k); lia|].
  rewrite Hk. by apply bound_nonneg.
Qed.

(** A write of one block *)
Definition write_block (w : BlockTag → Lsn) (k : BlockTag) (lsn : Lsn) : BlockTag → Lsn :=
  λ j, if decide (j = k) then Z.max (w j) lsn else w j.

Fixpoint write_blocks (w : BlockTag → Lsn) (l : list (BlockTag * Lsn)) : BlockTag → Lsn :=
  match l with [] => w | (k, lsn) :: l => write_blocks (write_block w k lsn) l end.

(** The LSN of a page does not go back. *)
Fixpoint in_order (w : BlockTag → Lsn) (l : list (BlockTag * Lsn)) : Prop :=
  match l with [] => True | (k, lsn) :: l => w k ≤ lsn ∧ in_order (write_block w k lsn) l end.

(** The sections under the lock go on from [c] to [c']. *)
Record goes_on (c c' : LwLsnCache) : Prop := mkGoesOn {
  go_max : maxLastWrittenLsn c ≤ maxLastWrittenLsn c';
  go_size : lastWrittenLsnCacheSize c' = lastWrittenLsnCacheSize c;
}.

#[export] Instance goes_on_preorder : PreOrder goes_on.
Proof. split; [by intros c|]. intros c1 c2 c3 [? ?] [? ?]. split; [lia|congruence]. Qed.

Lemma entered_goes_on c k lsn l c' : entered c k lsn l c' → goes_on c c'.
Proof. by intros []. Qed.

Lemma entered_u64 c k lsn l c' : entered c k lsn l c' → in_u 64 lsn → cache_wf c → in_u 64 l.
Proof.
  intros [_ -> _ _ _ _ _] Hl Hwf. destruct (_ !! _) as [e|] eqn:He; [|done]. pose proof (cw_lsn _ Hwf _ _ He). unfold in_u in *. lia.
Qed.

Lemma entered_ge c k lsn l c' : entered c k lsn l c' → lsn ≤ l.
Proof. intros [_ -> _ _ _ _ _]. destruct (_ !! _); lia. Qed.

(** A lookup enters the block with an LSN that is not too old. *)
Lemma entered_covers w c k lsn l c' :
  covers w c → (¬ cached c k → w k ≤ lsn) → entered c k lsn l c' → covers w c'.
Proof.
  intros [Hwf Hw] Hk Hen. split; [apply Hen|]. intros j. destruct (decide (j = k)) as [->|Hj].
  - rewrite (en_bound _ _ _ _ _ Hen), (en_result _ _ _ _ _ Hen). specialize (Hw k). unfold bound in Hw. unfold cached in Hk.
    destruct (lastWrittenLsnCache c !! k); simpl in Hw; [lia|]. apply Hk. by intros [].
  - pose proof (en_other _ _ _ _ _ Hen j Hj). specialize (Hw j). lia.
Qed.

Lemma entered_writes w c k lsn lsn' l c' :
  covers w c → w k ≤ lsn → lsn ≤ lsn' → entered c k lsn' l c' → covers (write_block w k lsn) c'.
Proof.
  intros Hc Hk Hle Hen. destruct (entered_covers w c k lsn' l c' Hc) as [Hwf Hw]; [lia|done|]. split; [done|]. intros j.
  unfold write_block. destruct (decide (j = k)) as [->|]; [|done]. specialize (Hw k).
  pose proof (entered_ge _ _ _ _ _ Hen). pose proof (en_bound _ _ _ _ _ Hen). lia.
Qed.

Definition range_writes (lsn : Lsn) (rinfo : NRelFileInfo) (forknum from i : Z) (n : nat) : list (BlockTag * Lsn) :=
  (λ j, (mkBlockTag rinfo forknum (wrapping_add 32 from j), lsn)) <$> seqZ i (Z.of_nat n).

Lemma seqZ_S i n : seqZ i (Z.of_nat (S n)) = i :: seqZ (i + 1) (Z.of_nat n).
Proof. rewrite seqZ_cons by lia. do 2 f_equal; lia. Qed.

Section writes.
Context {E : Type}.

Lemma enter_range_spec rinfo forknum from lsn0 n : ∀ i lsn w c,
  covers w c → in_u 64 lsn → lsn0 ≤ lsn → in_order w (range_writes lsn0 rinfo forknum from i n) →
  wp (enter_range (E := E) lsn rinfo forknum from i n)
    (λ r c', ∃ l, r = Ok l ∧ lsn ≤ l ∧ covers (write_blocks w (range_writes lsn0 rinfo forknum from i n)) c' ∧ goes_on c c') c.
Proof.
  induction n as [|n IH]; intros i lsn w c Hc Hu Hle Ho; [exists lsn; done|].
  unfold range_writes in *. rewrite seqZ_S, fmap_cons in *. destruct Ho as [Hk Ho]. simpl. wp_step.
  eapply wp_mono; [by apply enter_spec; [apply Hc|]|]. intros r c1 (l & -> & Hen). eapply wp_mono.
  - apply (IH _ l); [by eapply entered_writes|by eapply entered_u64; [|..|apply Hc]|apply entered_ge in Hen; lia|done].
  - intros r c2 (l' & -> & Hl & Hc2 & Hg). exists l'. split; [done|]. pose proof (entered_ge _ _ _ _ _ Hen). split; [lia|]. split; [done|].
    etrans; [by eapply entered_goes_on|done].
Qed.

(** The blocks of [neon_set_lwlsn_block_v] *)
Fixpoint each_writes (lsns : list Lsn) (rinfo : NRelFileInfo) (forknum blockno i : Z) : list (BlockTag * Lsn) :=
  match lsns with
  | [] => []
  | lsn :: lsns =>
    (if lsn =? Lsn_INVALID then [] else [(mkBlockTag rinfo forknum (wrapping_add 32 blockno i), lsn)])
    ++ each_writes lsns rinfo forknum blockno (i + 1)
  end.

Lemma enter_each_spec rinfo forknum blockno lsns : ∀ i m w c,
  covers w c → Forall (in_u 64) lsns → in_order w (each_writes lsns rinfo forknum blockno i) →
  wp (enter_each (E := E) lsns rinfo forknum blockno i m)
    (λ r c', (∃ l, r = Ok l) ∧ covers (write_blocks w (each_writes lsns rinfo forknum blockno i)) c' ∧ goes_on c c') c.
Proof.
  induction lsns as [|lsn lsns IH]; intros i m w c Hc Hus Ho; [by split; [eexists|]|]. apply Forall_cons in Hus as [Hu Hus]. simpl in *. wp_step.
  destruct (lsn =? Lsn_INVALID); [wp_step; by apply IH|]. destruct Ho as [Hk Ho]. wp_step.
  eapply wp_mono; [by apply enter_spec; [apply Hc|]|]. intros r c1 (l & -> & Hen). wp_step. eapply wp_mono.
  - apply IH; [|done|exact Ho]. by eapply entered_writes.
  - intros r c2 (Hr & Hc2 & Hg). split; [done|]. split; [done|]. etrans; [by eapply entered_goes_on|done].
Qed.
End writes.

Lemma each_writes_u64 lsns rinfo forknum blockno i :
  Forall (in_u 64) lsns → Forall (λ e : BlockTag * Lsn, in_u 64 e.2) (each_writes lsns rinfo forknum blockno i).
Proof.
  intros Hu. revert i. induction Hu as [|lsn lsns Hl _ IH]; intros i; simpl; [done|]. apply Forall_app. split; [|done].
  destruct (_ =? _); [done|]. by apply Forall_singleton.
Qed.

(** ** Lookups *)

Lemma max_lwlsn_bound c k : bound c k ≤ max_lwlsn c.
Proof.
  unfold max_lwlsn, bound. assert (Hfold : ∀ (l : list (BlockTag * Lsn)) m,
    m ≤ foldl (λ lsn i, if lsn <? i.2 then i.2 else lsn) m l ∧
    ∀ i, i ∈ l → i.2 ≤ foldl (λ lsn i, if lsn <? i.2 then i.2 else lsn) m l).
  { induction l as [|x l IH]; intros m; simpl; [split; [lia|by intros i ?%elem_of_nil]|].
    destruct (IH (if m <? x.2 then x.2 else m)) as [H1 H2]. destruct (Z.ltb_spec m x.2); (split; [lia|]);
      intros i [->|Hi]%elem_of_cons; auto; lia. }
  destruct (Hfold (map_to_list (lastWrittenLsnCache c)) (maxLastWrittenLsn c)) as [H1 H2].
  destruct (lastWrittenLsnCache c !! k) as [e|] eqn:He; simpl; [|done]. apply (H2 (k, e)), elem_of_map_to_list, He.
Qed.

Lemma take_mono {A} (l : list A) n m : (n ≤ m)%nat → take n l ⊆ take m l.
Proof. intros Hle. rewrite <- (Nat.min_l n m), <- take_take by done. apply subseteq_take. Qed.

Lemma filter_take_sub (k : BlockTag) l : ∀ n, NoDup l → take n (filter (λ x, x ≠ k) l) ⊆ take (S n) l.
Proof.
  induction l as [|x l IH]; intros n; [by rewrite filter_nil, !take_nil|]. intros [Hx Hnd]%NoDup_cons. rewrite firstn_cons.
  destruct (decide (x = k)) as [->|Hne].
  - rewrite filter_cons_False, filter_absent by auto. set_solver.
  - rewrite filter_cons_True by done. destruct n as [|n]; [set_solver|]. rewrite firstn_cons. specialize (IH n Hnd). set_solver.
Qed.

(** An entry that is not among the least recently used ones stays for a while. *)
Lemma touch_keeps n k j r lru :
  NoDup lru → j ≠ k → j ∈ lru → j ∉ take (S r) lru → j ∈ touch n k lru ∧ j ∉ take r (touch n k lru).
Proof.
  intros Hnd Hjk Hj Hnt. unfold touch.
  assert (Happ : ∀ x l, x ∈ take r (l ++ [k]) → x ∈ take r l ∨ x = k).
  { intros x l. rewrite take_app. intros [?|Hx]%elem_of_app; [by left|right].
    assert (x ∈ [k]) as ->%list_elem_of_singleton; [|done]. eapply subseteq_take. exact Hx. }
  case_bool_decide as Hk; [|case_match].
  - split; [apply elem_of_app; left; by apply list_elem_of_filter|]. intros [Hx| ->]%Happ; [|done].
    by apply Hnt, (filter_take_sub k lru r Hnd).
  - split; [set_solver|]. intros [Hx| ->]%Happ; [|done]. apply Hnt. by apply (take_mono lru r (S r)); [lia|].
  - destruct lru as [|y l]; [by apply elem_of_nil in Hj|]. rewrite firstn_cons in Hnt. simpl. split; [set_solver|].
    intros [Hx| ->]%Happ; [|done]. set_solver.
Qed.

Definition block (rinfo : NRelFileInfo) (forknum blkno i : Z) : BlockTag :=
  mkBlockTag rinfo forknum (wrapping_add 32 blkno i).

Lemma block_inj rinfo forknum blkno i j :
  0 ≤ i < 2 ^ 32 → 0 ≤ j < 2 ^ 32 → block rinfo forknum blkno i = block rinfo forknum blkno j → i = j.
Proof.
  unfold block, wrapping_add, wrap. intros Hi Hj [= H].
  assert (Hd : (i - j) mod 2 ^ 32 = 0).
  { replace (i - j) with ((blkno + i) - (blkno + j)) by lia. rewrite Zminus_mod, H, Z.sub_diag. done. }
  apply Z.mod_divide in Hd as [q Hq]; [|done]. nia.
Qed.

(** The remaining blocks that were missing: their LSN is not above [m], or they are in the cache
    and will stay for as many entries as are to be made. *)
Definition missing_ok (w : BlockTag → Lsn) (m : Lsn) (c : LwLsnCache) rinfo forknum blkno (i : Z) (lsns : list Lsn) : Prop :=
  ∀ j, lsns !! j = Some Lsn_INVALID →
    let k := block rinfo forknum blkno (i + Z.of_nat j) in
    w k ≤ m ∨ cached c k ∧ k ∉ take (length lsns) (lastWrittenLsnLRU c).

Lemma enter_missing_spec {E} m rinfo forknum blkno : relNumber rinfo ≠ InvalidOid → in_u 64 m →
  ∀ lsns i w c, 0 ≤ i → i + Z.of_nat (length lsns) ≤ 2 ^ 32 →
  covers w c → missing_ok w m c rinfo forknum blkno i lsns →
  wp (enter_missing (E := E) m lsns rinfo forknum blkno i)
    (λ r c', r = Ok ((λ l, if l =? Lsn_INVALID then m else l) <$> lsns) ∧ covers w c' ∧ goes_on c c') c.
Proof.
  intros Hrel Hu. induction lsns as [|l lsns IH]; intros i w c Hi Hn Hc Hok; [done|]. simpl in Hn |- *. wp_step.
  assert (Hnext : ∀ c1, covers w c1 → goes_on c c1 → missing_ok w m c1 rinfo forknum blkno (i + 1) lsns →
    wp (lsns' ← enter_missing (E := E) m lsns rinfo forknum blkno (i + 1); mret ((if l =? Lsn_INVALID then m else l) :: lsns'))
    (λ r c', r = Ok ((if l =? Lsn_INVALID then m else l) :: ((λ l, if l =? Lsn_INVALID then m else l) <$> lsns)) ∧ covers w c' ∧ goes_on c c') c1).
  { intros c1 Hc1 Hg1 Hok1. wp_step. eapply wp_mono; [apply IH; [lia|lia|done|done]|]. intros r c2 (-> & Hc2 & Hg2). wp_step.
    split; [done|]. split; [done|]. by etrans. }
  assert (Hrest : ∀ j, lsns !! j = Some Lsn_INVALID →
    let k := block rinfo forknum blkno (i + 1 + Z.of_nat j) in
    k ≠ block rinfo forknum blkno i ∧ (w k ≤ m ∨ cached c k ∧ k ∉ take (S (length lsns)) (lastWrittenLsnLRU c))).
  { intros j Hj k. pose proof (lookup_lt_Some _ _ _ Hj). split; [intros Heq%block_inj; lia|].
    specialize (Hok (S j) Hj). simpl in Hok. by replace (i + Z.of_nat (S j)) with (i + 1 + Z.of_nat j) in Hok by lia. }
  destruct (Z.eqb_spec l Lsn_INVALID) as [->|Hl].
  - wp_step. unfold SetLastWrittenLSNForBlockRangeInternal. rewrite (proj2 (Z.eqb_neq _ _)) by done. simpl. wp_step.
    replace (wrapping_add 32 (wrapping_add 32 blkno i) 0) with (wrapping_add 32 blkno i)
      by (unfold wrapping_add, wrap; by rewrite Z.add_0_r, Zmod_mod).
    eapply wp_mono; [by apply enter_spec; [apply Hc|]|]. intros r c1 (l1 & -> & Hen). do 2 wp_step. fold (block rinfo forknum blkno i) in Hen.
    apply Hnext; [|by eapply entered_goes_on|].
    + eapply entered_covers; [done| |exact Hen]. intros Hnc. destruct (Hok 0%nat eq_refl) as [Hw|[Hc0 _]]; rewrite Z.add_0_r in *; [done|].
      done.
    + intros j Hj k. destruct (Hrest j Hj) as [Hne [Hw|[Hk Hnt]]]; [by left|right]. fold k in Hne, Hk, Hnt.
      destruct (touch_keeps (lastWrittenLsnCacheSize c) (block rinfo forknum blkno i) k (length lsns) (lastWrittenLsnLRU c)) as [Hin Hnt'];
        [apply Hc|done|by apply Hc|done|]. rewrite (en_lru _ _ _ _ _ Hen). split; [|done].
      apply (cw_keys _ (en_wf _ _ _ _ _ Hen)). by rewrite (en_lru _ _ _ _ _ Hen).
  - wp_step. apply Hnext; [done|done|]. intros j Hj k. destruct (Hrest j Hj) as [_ [Hw|[Hk Hnt]]]; [by left|right]. split; [done|].
    intros Hin. apply Hnt. by apply (take_mono _ (length lsns)); [lia|].
Qed.

(** ** The system *)

(** A lookup between its two sections, with the LSNs that were known of the blocks when it began *)
Inductive Call :=
| GetCall (rinfo : NRelFileInfo) (forknum blkno : Z) (lsn low : Lsn)
| GetVCall (rinfo : NRelFileInfo) (forknum blkno : Z) (lsns : list Lsn) (lows : list (BlockTag * Lsn)).

(** A finished lookup: the block, the LSN that was known of it when the lookup began, the LSN that
    is returned *)
Record Read := mkRead { rd_block : BlockTag; rd_low : Lsn; rd_lsn : Lsn }.

Record Lw := mkLw {
  lw_cache : LwLsnCache;
  lw_written : BlockTag → Lsn;
  lw_doubtful : BlockTag → bool;
  lw_calls : list Call;
  lw_reads : list Read;
}.
#[export] Instance Lw_settable : Settable Lw := λ s,
  mkLw (lw_cache s) (lw_written s) (lw_doubtful s) (lw_calls s) (lw_reads s).

(** The LSN at which a block was written last, nothing (0) if it is doubtful *)
Definition known (s : Lw) (k : BlockTag) : Lsn := if lw_doubtful s k then 0 else lw_written s k.

(** Writes make blocks certain. *)
Definition certain (l : list (BlockTag * Lsn)) (doubtful : BlockTag → bool) : BlockTag → bool :=
  λ k, doubtful k && negb (bool_decide (k ∈ l.*1)).

(** When the second section of [neon_get_lwlsn] enters a block that is not in the cache with a
    maximum that has been raised since the first *)
Definition late (c : LwLsnCache) (k : BlockTag) (lsn : Lsn) : bool :=
  negb (bool_decide (cached c k)) && negb (maxLastWrittenLsn c =? lsn).

(** The missing blocks that were entered since the first section of [neon_get_lwlsn_v], and that the
    second one may evict before it enters them *)
Definition late_v (c : LwLsnCache) (rinfo : NRelFileInfo) (forknum blkno : Z) (lsns : list Lsn) (k : BlockTag) : bool :=
  existsb (λ '(i, lsn), (lsn =? Lsn_INVALID) && bool_decide (k = mkBlockTag rinfo forknum (wrapping_add 32 blkno i)))
    (zip (seqZ 0 (Z.of_nat (length lsns))) lsns)
  && bool_decide (k ∈ take (length lsns) (lastWrittenLsnLRU c)).

Definition asked (w : BlockTag → Lsn) (rinfo : NRelFileInfo) (forknum blkno nblocks : Z) : list (BlockTag * Lsn) :=
  (λ i, let k := block rinfo forknum blkno i in (k, w k)) <$> seqZ 0 nblocks.

Definition reads_of (lows : list (BlockTag * Lsn)) (lsns : list Lsn) : list Read :=
  zip_with (λ b lsn, mkRead b.1 b.2 lsn) lows lsns.

Inductive lw_step (s : Lw) : Lw → Prop :=
(** the pages of a range are written with an LSN that is not below the one they had *)
| lw_step_set lsn rinfo forknum from n l c' :
    relNumber rinfo ≠ InvalidOid → lsn ≠ Lsn_INVALID → in_u 64 lsn → 0 < n →
    in_order (lw_written s) (range_writes lsn rinfo forknum from 0 (Z.to_nat n)) →
    neon_set_lwlsn_block_range (E := Empty_set) lsn rinfo forknum from n (lw_cache s) = (Ok l, c') →
    lw_step s (s <| lw_cache := c' |>
      <| lw_written := write_blocks (lw_written s) (range_writes lsn rinfo forknum from 0 (Z.to_nat n)) |>
      <| lw_doubtful := certain (range_writes lsn rinfo forknum from 0 (Z.to_nat n)) (lw_doubtful s) |>)
| lw_step_set_v lsns rinfo forknum blkno l c' :
    relNumber rinfo ≠ InvalidOid → Forall (in_u 64) lsns →
    in_order (lw_written s) (each_writes lsns rinfo forknum blkno 0) →
    neon_set_lwlsn_block_v (E := Empty_set) lsns rinfo forknum blkno (lw_cache s) = (Ok l, c') →
    lw_step s (s <| lw_cache := c' |> <| lw_written := write_blocks (lw_written s) (each_writes lsns rinfo forknum blkno 0) |>
      <| lw_doubtful := certain (each_writes lsns rinfo forknum blkno 0) (lw_doubtful s) |>)
(** a database is created; blocks of it that are in the cache keep their LSN *)
| lw_step_set_db lsn db l c' :
    lsn ≠ Lsn_INVALID → in_u 64 lsn →
    neon_set_lwlsn_db (E := Empty_set) lsn (lw_cache s) = (Ok l, c') →
    lw_step s (s <| lw_cache := c' |>
      <| lw_written := λ k, if decide (dbOid (bt_rinfo k) = db) then Z.max (lw_written s k) lsn else lw_written s k |>
      <| lw_doubtful := λ k, lw_doubtful s k || bool_decide (dbOid (bt_rinfo k) = db) && bool_decide (cached (lw_cache s) k) |>)
| lw_step_set_max lsn c' :
    in_u 64 lsn → maxLastWrittenLsn (lw_cache s) ≤ lsn → neon_set_max_lwlsn (E := Empty_set) lsn (lw_cache s) = (Ok tt, c') →
    lw_step s (s <| lw_cache := c' |>)
(** lookups *)
| lw_step_get_all rinfo forknum blkno k lsn c' :
    relNumber rinfo = InvalidOid → get_lwlsn_shared (E := Empty_set) rinfo forknum blkno (lw_cache s) = (Ok (inl lsn), c') →
    lw_step s (s <| lw_reads := mkRead k (known s k) lsn :: lw_reads s |>)
| lw_step_get rinfo forknum blkno lsn c' :
    relNumber rinfo ≠ InvalidOid → get_lwlsn_shared (E := Empty_set) rinfo forknum blkno (lw_cache s) = (Ok (inl lsn), c') →
    lw_step s (s <| lw_reads := let k := mkBlockTag rinfo forknum blkno in mkRead k (known s k) lsn :: lw_reads s |>)
| lw_step_get_begin rinfo forknum blkno lsn c' :
    relNumber rinfo ≠ InvalidOid → 0 ≤ blkno < 2 ^ 32 →
    get_lwlsn_shared (E := Empty_set) rinfo forknum blkno (lw_cache s) = (Ok (inr lsn), c') →
    lw_step s (s <| lw_calls := GetCall rinfo forknum blkno lsn (known s (mkBlockTag rinfo forknum blkno)) :: lw_calls s |>)
| lw_step_get_end l1 rinfo forknum blkno lsn low l2 lsn' c' :
    lw_calls s = l1 ++ GetCall rinfo forknum blkno lsn low :: l2 →
    get_lwlsn_exclusive (E := Empty_set) lsn rinfo forknum blkno (lw_cache s) = (Ok lsn', c') →
    lw_step s (s <| lw_cache := c' |> <| lw_calls := l1 ++ l2 |>
      <| lw_reads := mkRead (mkBlockTag rinfo forknum blkno) low lsn' :: lw_reads s |>
      <| lw_doubtful := λ k, lw_doubtful s k
           || bool_decide (k = mkBlockTag rinfo forknum blkno) && late (lw_cache s) k lsn |>)
| lw_step_get_v rinfo forknum blkno nblocks lsns missed c' :
    relNumber rinfo ≠ InvalidOid → 0 ≤ nblocks ≤ 2 ^ 32 →
    get_lwlsn_v_shared (E := Empty_set) rinfo forknum blkno nblocks (lw_cache s) = (Ok (lsns, missed), c') →
    lw_step s
      (let lows := asked (known s) rinfo forknum blkno nblocks in
       if missed then s <| lw_calls := GetVCall rinfo forknum blkno lsns lows :: lw_calls s |>
       else s <| lw_reads := reads_of lows lsns ++ lw_reads s |>)
| lw_step_get_v_end l1 rinfo forknum blkno lsns lows l2 lsns' c' :
    lw_calls s = l1 ++ GetVCall rinfo forknum blkno lsns lows :: l2 →
    get_lwlsn_v_exclusive (E := Empty_set) lsns rinfo forknum blkno (lw_cache s) = (Ok lsns', c') →
    lw_step s (s <| lw_cache := c' |> <| lw_calls := l1 ++ l2 |> <| lw_reads := reads_of lows lsns' ++ lw_reads s |>
      <| lw_doubtful := λ k, lw_doubtful s k || late_v (lw_cache s) rinfo forknum blkno lsns k |>).

(** After startup, with nothing written behind the redo position *)
Definition lw_init (s : Lw) : Prop :=
  ∃ n redo, 1 ≤ n ∧ in_u 64 redo ∧ lw_cache s = shmeminit n redo ∧ (∀ k, lw_written s k ≤ redo) ∧
    (∀ k, lw_doubtful s k = false) ∧ lw_calls s = [] ∧ lw_reads s = [].

Inductive lw_reachable : Lw → Prop :=
| lw_reachable_init s : lw_init s → lw_reachable s
| lw_reachable_step s s' : lw_reachable s → lw_step s s' → lw_reachable s'.

Definition call_ok (c : LwLsnCache) (call : Call) : Prop :=
  match call with
  | GetCall rinfo _ blkno lsn low => relNumber rinfo ≠ InvalidOid ∧ 0 ≤ blkno < 2 ^ 32 ∧ in_u 64 lsn ∧ low ≤ lsn
  | GetVCall rinfo _ _ lsns lows =>
    relNumber rinfo ≠ InvalidOid ∧ Z.of_nat (length lsns) ≤ 2 ^ 32 ∧
    Forall2 (λ b lsn, if lsn =? Lsn_INVALID then b.2 ≤ maxLastWrittenLsn c else b.2 ≤ lsn) lows lsns
  end.

Definition read_ok (r : Read) : Prop := rd_low r ≤ rd_lsn r.

Record lw_inv (s : Lw) : Prop := mkLwInv {
  li_covers : covers (known s) (lw_cache s);
  li_calls : Forall (call_ok (lw_cache s)) (lw_calls s);
  li_reads : Forall read_ok (lw_reads s);
}.

Lemma call_ok_mono c c' call : call_ok c call → maxLastWrittenLsn c ≤ maxLastWrittenLsn c' → call_ok c' call.
Proof.
  destruct call; simpl; [done|]. intros (? & ? & H) Hle. split; [done|]. split; [done|]. eapply Forall2_impl; [exact H|].
  intros b lsn. simpl. destruct (_ =? _); lia.
Qed.

Lemma inv_goes_on s c' w' d' :
  lw_inv s → covers (λ k, if d' k : bool then 0 else w' k) c' → maxLastWrittenLsn (lw_cache s) ≤ maxLastWrittenLsn c' →
  lw_inv (s <| lw_cache := c' |> <| lw_written := w' |> <| lw_doubtful := d' |>).
Proof.
  intros [Hc Hcalls Hr] Hc' Hle. split; simpl; [done| |done]. eapply Forall_impl; [exact Hcalls|]. intros call H. by eapply call_ok_mono.
Qed.

(** *** What is known, and writes *)

Lemma in_order_less l : ∀ w w', (∀ k, w' k ≤ w k ∨ w' k = 0) → Forall (λ i, in_u 64 i.2) l → in_order w l → in_order w' l.
Proof.
  induction l as [|[k lsn] l IH]; intros w w' Hle Hu; [done|]. apply Forall_cons in Hu as [Hlsn Hu]. simpl in *. intros [Hk Ho].
  split; [destruct (Hle k) as [?| ->]; unfold in_u in *; lia|]. eapply IH; [|done|exact Ho].
  intros j. unfold write_block. destruct (decide _) as [->|]; [|done]. destruct (Hle k) as [?| ->]; unfold in_u in *; lia.
Qed.

Lemma write_blocks_fresh l : ∀ w k, k ∉ l.*1 → write_blocks w l k = w k.
Proof.
  induction l as [|[j lsn] l IH]; intros w k Hk; [done|]. simpl in *. apply not_elem_of_cons in Hk as [Hne Hk].
  rewrite IH by done. unfold write_block. by rewrite decide_False.
Qed.

Lemma write_blocks_last l : ∀ w w' k, k ∈ l.*1 → in_order w l → write_blocks w l k ≤ write_blocks w' l k.
Proof.
  induction l as [|[j lsn] l IH]; intros w w' k; simpl; [by intros ?%elem_of_nil|]. intros Hk [Hj Ho].
  destruct (decide (k ∈ l.*1)) as [Hin|Hni]; [by apply IH|]. apply elem_of_cons in Hk as [->|]; [|done].
  rewrite !write_blocks_fresh by done. unfold write_block. rewrite !decide_True by done. lia.
Qed.

(** The blocks that are written are known, the others as before. *)
Lemma covers_writes s l c' :
  in_order (lw_written s) l → covers (write_blocks (known s) l) c' →
  covers (λ k, if certain l (lw_doubtful s) k then 0 else write_blocks (lw_written s) l k) c'.
Proof.
  intros Ho Hc. eapply covers_less; [exact Hc|]. intros k. simpl. unfold certain. case_bool_decide as Hk; simpl.
  - rewrite andb_false_r. left. by apply write_blocks_last.
  - rewrite andb_true_r, !write_blocks_fresh by done. unfold known. left. by destruct (lw_doubtful s k).
Qed.

Lemma known_less s k : known s k ≤ lw_written s k ∨ known s k = 0.
Proof. unfold known. destruct (lw_doubtful s k); auto; by left. Qed.

Section operations.
Context {E : Type}.

Lemma set_range_spec w c lsn rinfo forknum from n :
  covers w c → relNumber rinfo ≠ InvalidOid → lsn ≠ Lsn_INVALID → in_u 64 lsn → 0 < n →
  in_order w (range_writes lsn rinfo forknum from 0 (Z.to_nat n)) →
  wp (neon_set_lwlsn_block_range (E := E) lsn rinfo forknum from n) (λ r c', (∃ l, r = Ok l) ∧
    covers (write_blocks w (range_writes lsn rinfo forknum from 0 (Z.to_nat n))) c' ∧ goes_on c c') c.
Proof.
  intros Hc Hrel Hlsn Hu Hn Ho. unfold neon_set_lwlsn_block_range, SetLastWrittenLSNForBlockRangeInternal. wp_step. wp_step.
  pose proof (cw_size _ (proj1 Hc)) as Hsz.
  rewrite !(proj2 (Z.eqb_neq _ _)) by (done || lia). simpl. eapply wp_mono; [by apply (enter_range_spec _ _ _ lsn)|].
  intros r c' (l & -> & _ & Hc' & Hg). split; [by exists l|done].
Qed.

Lemma set_v_spec w c lsns rinfo forknum blkno :
  covers w c → relNumber rinfo ≠ InvalidOid → Forall (in_u 64) lsns → in_order w (each_writes lsns rinfo forknum blkno 0) →
  wp (neon_set_lwlsn_block_v (E := E) lsns rinfo forknum blkno) (λ r c', (∃ l, r = Ok l) ∧
    covers (write_blocks w (each_writes lsns rinfo forknum blkno 0)) c' ∧ goes_on c c') c.
Proof.
  intros Hc Hrel Hu Ho. unfold neon_set_lwlsn_block_v. wp_step. wp_step.
  pose proof (cw_size _ (proj1 Hc)) as Hsz. rewrite (proj2 (Z.eqb_neq (lastWrittenLsnCacheSize c) _)), (proj2 (Z.eqb_neq (relNumber _) _)) by (done || lia).
  rewrite !orb_false_r. destruct lsns as [|lsn lsns]; [simpl; wp_step; by split; [eexists|]|]. simpl length. rewrite (proj2 (Z.eqb_neq _ _)) by lia.
  by apply enter_each_spec.
Qed.

Lemma set_db_spec w c lsn db :
  covers w c → lsn ≠ Lsn_INVALID → in_u 64 lsn →
  wp (neon_set_lwlsn_db (E := E) lsn) (λ r c', (∃ l, r = Ok l) ∧
    covers (λ k, if decide (dbOid (bt_rinfo k) = db ∧ ¬ cached c k) then Z.max (w k) lsn else w k) c' ∧ goes_on c c') c.
Proof.
  intros [Hwf Hw] Hlsn Hu. unfold neon_set_lwlsn_db, neon_set_lwlsn_block, neon_set_lwlsn_block_range, SetLastWrittenLSNForBlockRangeInternal.
  wp_step. wp_step. pose proof (cw_size _ Hwf) as Hsz. rewrite !(proj2 (Z.eqb_neq _ _)) by (done || lia). simpl.
  assert (Hcov : ∀ c', cache_wf c' → lastWrittenLsnCache c' = lastWrittenLsnCache c →
    lsn ≤ maxLastWrittenLsn c' → maxLastWrittenLsn c ≤ maxLastWrittenLsn c' →
    covers (λ k, if decide (dbOid (bt_rinfo k) = db ∧ ¬ cached c k) then Z.max (w k) lsn else w k) c').
  { intros c' Hwf' Heq Hl Hm. split; [done|]. intros k. specialize (Hw k). unfold bound, cached in *. rewrite Heq.
    destruct (decide _) as [[_ Hn]|], (lastWrittenLsnCache c !! k); simpl in *; [|lia..]. by destruct Hn. }
  wp_step. wp_step. destruct (Z.ltb_spec (maxLastWrittenLsn c) lsn) as [Hlt|Hge].
  - wp_step. wp_step. wp_step. split; [by exists lsn|]. split; [|split; simpl; [lia|done]].
    apply Hcov; simpl; [by destruct Hwf; split|done|lia|lia].
  - wp_step. split; [by eexists|]. split; [|done]. by apply Hcov.
Qed.

Lemma get_exclusive_spec w c lsn rinfo forknum blkno :
  let k := mkBlockTag rinfo forknum blkno in
  covers w c → relNumber rinfo ≠ InvalidOid → 0 ≤ blkno < 2 ^ 32 → in_u 64 lsn → (¬ cached c k → w k ≤ lsn) →
  wp (get_lwlsn_exclusive (E := E) lsn rinfo forknum blkno) (λ r c', ∃ l, r = Ok l ∧ lsn ≤ l ∧ covers w c' ∧ goes_on c c') c.
Proof.
  intros k Hc Hrel Hb Hu Hk. unfold get_lwlsn_exclusive, SetLastWrittenLSNForBlockRangeInternal.
  rewrite (proj2 (Z.eqb_neq _ _)) by done. simpl. wp_step.
  replace (wrapping_add 32 blkno 0) with blkno by (unfold wrapping_add, wrap; rewrite Z.add_0_r, Z.mod_small; lia). fold k.
  eapply wp_mono; [by apply enter_spec; [apply Hc|]|]. intros r c1 (l & -> & Hen). wp_step. exists l. split; [done|].
  split; [by eapply entered_ge|]. split; [by eapply entered_covers|by eapply entered_goes_on].
Qed.

Lemma get_v_exclusive_spec w c lsns rinfo forknum blkno :
  covers w c → relNumber rinfo ≠ InvalidOid → Z.of_nat (length lsns) ≤ 2 ^ 32 →
  (∀ j, lsns !! j = Some Lsn_INVALID →
     w (block rinfo forknum blkno (Z.of_nat j)) = 0 ∨ block rinfo forknum blkno (Z.of_nat j) ∉ take (length lsns) (lastWrittenLsnLRU c)) →
  wp (get_lwlsn_v_exclusive (E := E) lsns rinfo forknum blkno)
    (λ r c', r = Ok ((λ l, if l =? Lsn_INVALID then maxLastWrittenLsn c else l) <$> lsns) ∧ covers w c' ∧ goes_on c c') c.
Proof.
  intros Hc Hrel Hlen Hj. unfold get_lwlsn_v_exclusive. wp_step. wp_step.
  apply enter_missing_spec; [done|apply Hc|done|done|done|]. intros j Hm k.
  destruct (Hj j Hm) as [Hz|Hnt].
  { left. change (w k = 0) in Hz. rewrite Hz. apply (cw_max _ (proj1 Hc)). }
  destruct Hc as [_ Hw]. specialize (Hw k). unfold bound in Hw. destruct (lastWrittenLsnCache c !! k) as [e|] eqn:He; [right|by left].
  split; [by eexists|done].
Qed.
End operations.

Lemma reads_of_ok lows lsns : Forall2 (λ b lsn, b.2 ≤ lsn) lows lsns → Forall read_ok (reads_of lows lsns).
Proof. unfold reads_of. induction 1; simpl; [done|]. by apply Forall_cons. Qed.

Lemma get_v_shared_ok {E} w c rinfo forknum blkno nblocks lsns missed c' :
  covers w c → relNumber rinfo ≠ InvalidOid → 0 ≤ nblocks ≤ 2 ^ 32 →
  get_lwlsn_v_shared (E := E) rinfo forknum blkno nblocks c = (Ok (lsns, missed), c') →
  c' = c ∧ Forall (in_u 64) lsns ∧
  call_ok c (GetVCall rinfo forknum blkno lsns (asked w rinfo forknum blkno nblocks)) ∧
  (missed = false → Forall2 (λ b lsn, b.2 ≤ lsn) (asked w rinfo forknum blkno nblocks) lsns) ∧
  ∀ j, lsns !! j = Some Lsn_INVALID → cached c (block rinfo forknum blkno (Z.of_nat j)) → bound c (block rinfo forknum blkno (Z.of_nat j)) = 0.
Proof.
  intros [Hwf Hw] Hrel Hn. unfold get_lwlsn_v_shared, mbind, ST_bind, st_get, mret, ST_ret.
  rewrite (proj2 (Z.eqb_neq _ _)) by done. intros [= <- <- <-]. unfold asked.
  assert (Hall : Forall (λ i, 0 ≤ i) (seqZ 0 nblocks)) by (apply Forall_forall; intros i Hi%elem_of_seqZ; lia).
  split; [done|]. split; [|split; [|split]].
  - apply Forall_fmap, Forall_forall. intros i (j & -> & _)%list_elem_of_fmap. simpl.
    destruct (lastWrittenLsnCache c !! _) as [e|] eqn:He; [by eapply (cw_lsn _ Hwf)|done].
  - simpl. split; [done|]. rewrite !length_fmap, length_seqZ, Z2Nat.id by lia. split; [lia|]. rewrite <- list_fmap_compose.
    apply Forall2_fmap, Forall_Forall2_diag. apply Forall_forall. intros i _. simpl. specialize (Hw (block rinfo forknum blkno i)).
    unfold bound, block in *. destruct (lastWrittenLsnCache c !! _) as [e|] eqn:He; simpl in *; [|done].
    destruct (Z.eqb_spec e Lsn_INVALID) as [->|]; [|done]. pose proof (cw_max _ Hwf). unfold in_u, Lsn_INVALID in *. lia.
  - intros Hm. rewrite <- list_fmap_compose. apply Forall2_fmap, Forall_Forall2_diag. apply Forall_forall. intros i Hi. simpl.
    specialize (Hw (block rinfo forknum blkno i)). unfold bound, block in *.
    destruct (lastWrittenLsnCache c !! _) as [e|] eqn:He; simpl in *; [done|]. exfalso.
    assert (Ht : existsb (λ e : option Z, bool_decide (e = None))
      ((λ i, lastWrittenLsnCache c !! mkBlockTag rinfo forknum (wrapping_add 32 blkno i)) <$> seqZ 0 nblocks) = true); [|congruence].
    apply existsb_exists. exists None. split; [|done]. apply list_elem_of_In, list_elem_of_fmap. by exists i.
  - intros j Hj [e He]. rewrite !list_lookup_fmap in Hj. destruct (seqZ 0 nblocks !! j) as [i|] eqn:Hi; [|done].
    apply lookup_seqZ in Hi as [-> _]. rewrite Z.add_0_l in Hj. unfold bound, block in *. cbn in Hj. rewrite He in *. by injection Hj as ->.
Qed.

(** After the second section of a lookup *)
Lemma doubt_covers s (d : BlockTag → bool) :
  covers (known s) (lw_cache s) → covers (λ k, if lw_doubtful s k || d k then 0 else lw_written s k) (lw_cache s).
Proof.
  intros Hc. eapply covers_less; [exact Hc|]. intros k. unfold known. destruct (lw_doubtful s k), (d k); auto; by left.
Qed.

Lemma get_end_covers s lsn rinfo forknum blkno lsn' c' :
  let k := mkBlockTag rinfo forknum blkno in
  covers (known s) (lw_cache s) → relNumber rinfo ≠ InvalidOid → 0 ≤ blkno < 2 ^ 32 → in_u 64 lsn →
  get_lwlsn_exclusive (E := Empty_set) lsn rinfo forknum blkno (lw_cache s) = (Ok lsn', c') →
  lsn ≤ lsn' ∧ maxLastWrittenLsn (lw_cache s) ≤ maxLastWrittenLsn c' ∧
  covers (λ j, if lw_doubtful s j || bool_decide (j = k) && late (lw_cache s) j lsn then 0 else lw_written s j) c'.
Proof.
  intros k Hc Hrel Hb Hu Hrun. pose proof (doubt_covers s (λ j, bool_decide (j = k) && late (lw_cache s) j lsn) Hc) as Hc1.
  assert (Hk : ¬ cached (lw_cache s) k →
    (if lw_doubtful s k || bool_decide (k = k) && late (lw_cache s) k lsn then 0 else lw_written s k) ≤ lsn).
  { intros Hnc. unfold late. rewrite !bool_decide_true, bool_decide_false by done. simpl. destruct (Z.eqb_spec (maxLastWrittenLsn (lw_cache s)) lsn) as [He|];
      simpl; rewrite ?orb_true_r, ?orb_false_r; [|apply Hu]. pose proof (proj2 Hc k) as Hw. unfold known, bound, cached in *.
    destruct (lastWrittenLsnCache (lw_cache s) !! k); [by destruct Hnc|]. simpl in Hw. by rewrite He in Hw. }
  destruct (wp_run _ _ _ _ _ (get_exclusive_spec _ _ lsn rinfo forknum blkno Hc1 Hrel Hb Hu Hk) Hrun) as (l & [= ->] & Hle & Hc2 & [Hg _]).
  done.
Qed.

Lemma late_v_missing c rinfo forknum blkno lsns j :
  lsns !! j = Some Lsn_INVALID → late_v c rinfo forknum blkno lsns (block rinfo forknum blkno (Z.of_nat j)) = false →
  block rinfo forknum blkno (Z.of_nat j) ∉ take (length lsns) (lastWrittenLsnLRU c).
Proof.
  intros Hj Hl Hin. unfold late_v in Hl. rewrite (bool_decide_true (_ ∈ _)) in Hl by done. rewrite andb_true_r in Hl.
  rewrite <- not_true_iff_false in Hl. apply Hl, existsb_exists. exists (Z.of_nat j, Lsn_INVALID).
  split; [|by rewrite bool_decide_true]. apply list_elem_of_In, list_elem_of_lookup. exists j. apply lookup_zip_with_Some.
  exists (Z.of_nat j), Lsn_INVALID. split; [done|]. split; [|done]. apply lookup_seqZ. apply lookup_lt_Some in Hj. lia.
Qed.

Lemma get_v_end_covers s lsns rinfo forknum blkno lsns' c' :
  covers (known s) (lw_cache s) → relNumber rinfo ≠ InvalidOid → Z.of_nat (length lsns) ≤ 2 ^ 32 →
  get_lwlsn_v_exclusive (E := Empty_set) lsns rinfo forknum blkno (lw_cache s) = (Ok lsns', c') →
  lsns' = (λ l, if l =? Lsn_INVALID then maxLastWrittenLsn (lw_cache s) else l) <$> lsns ∧
  maxLastWrittenLsn (lw_cache s) ≤ maxLastWrittenLsn c' ∧
  covers (λ j, if lw_doubtful s j || late_v (lw_cache s) rinfo forknum blkno lsns j then 0 else lw_written s j) c'.
Proof.
  intros Hc Hrel Hlen Hrun. pose proof (doubt_covers s (late_v (lw_cache s) rinfo forknum blkno lsns) Hc) as Hc1.
  assert (Hm : ∀ j, lsns !! j = Some Lsn_INVALID →
    (λ k, if lw_doubtful s k || late_v (lw_cache s) rinfo forknum blkno lsns k then 0 else lw_written s k)
      (block rinfo forknum blkno (Z.of_nat j)) = 0
    ∨ block rinfo forknum blkno (Z.of_nat j) ∉ take (length lsns) (lastWrittenLsnLRU (lw_cache s))).
  { intros j Hj. simpl. destruct (late_v _ _ _ _ _ _) eqn:Hl; [left; by rewrite orb_true_r|right; by eapply late_v_missing]. }
  destruct (wp_run _ _ _ _ _ (get_v_exclusive_spec _ _ lsns rinfo forknum blkno Hc1 Hrel Hlen Hm) Hrun) as ([= ->] & Hc2 & [Hg _]).
  done.
Qed.

Lemma set_db_covers s lsn db l c' :
  covers (known s) (lw_cache s) → lsn ≠ Lsn_INVALID → in_u 64 lsn → neon_set_lwlsn_db (E := Empty_set) lsn (lw_cache s) = (Ok l, c') →
  maxLastWrittenLsn (lw_cache s) ≤ maxLastWrittenLsn c' ∧
  covers (λ k, if lw_doubtful s k || bool_decide (dbOid (bt_rinfo k) = db) && bool_decide (cached (lw_cache s) k) then 0
               else if decide (dbOid (bt_rinfo k) = db) then Z.max (lw_written s k) lsn else lw_written s k) c'.
Proof.
  intros Hc Hlsn Hu Hrun. destruct (wp_run _ _ _ _ _ (set_db_spec _ _ _ db Hc Hlsn Hu) Hrun) as (_ & Hc' & [Hg _]). split; [done|].
  eapply covers_less; [exact Hc'|]. intros k. simpl. unfold known. destruct (lw_doubtful s k); simpl; [by right|].
  repeat case_bool_decide; simpl; repeat case_decide; auto; try (left; lia); naive_solver lia.
Qed.

Lemma lw_step_inv s s' : lw_inv s → lw_step s s' → lw_inv s'.
Proof.
  intros Hinv Hstep. pose proof Hinv as [Hc Hcalls Hr]. destruct Hstep.
  - assert (Hl : Forall (λ i : BlockTag * Lsn, in_u 64 i.2) (range_writes lsn rinfo forknum from 0 (Z.to_nat n))) by (by apply Forall_fmap, Forall_true).
    pose proof (in_order_less _ _ _ (known_less s) Hl H3) as Ho.
    destruct (wp_run _ _ _ _ _ (set_range_spec _ _ _ _ _ _ _ Hc H H0 H1 H2 Ho) H4) as (_ & Hc' & [Hg _]).
    apply inv_goes_on; [done|by apply covers_writes|done].
  - pose proof (in_order_less _ _ _ (known_less s) (each_writes_u64 _ rinfo forknum blkno 0 H0) H1) as Ho.
    destruct (wp_run _ _ _ _ _ (set_v_spec _ _ _ _ _ _ Hc H H0 Ho) H2) as (_ & Hc' & [Hg _]).
    apply inv_goes_on; [done|by apply covers_writes|done].
  - destruct (set_db_covers _ _ db _ _ Hc H H0 H1) as [Hg Hc']. by apply inv_goes_on.
  - injection H1 as <-. split; simpl; [|eapply Forall_impl; [exact Hcalls|]; intros call Hcall; by eapply call_ok_mono|done].
    destruct Hc as [[] Hw]. split; [by split|].
    intros k. specialize (Hw k). unfold known, bound in *. simpl. destruct (_ !! _); simpl in *; lia.
  - unfold get_lwlsn_shared, mbind, ST_bind, st_get, mret, ST_ret in H0. rewrite H in H0. simpl in H0. injection H0 as <- <-.
    split; simpl; [done..|]. apply Forall_cons. split; [|done]. unfold read_ok. simpl. etrans; [apply (proj2 Hc)|apply max_lwlsn_bound].
  - unfold get_lwlsn_shared, mbind, ST_bind, st_get, mret, ST_ret in H0. rewrite (proj2 (Z.eqb_neq _ _)) in H0 by done.
    pose proof (proj2 Hc (mkBlockTag rinfo forknum blkno)) as Hw. unfold bound in Hw.
    destruct (lastWrittenLsnCache _ !! _); simplify_eq/=. split; simpl; [done..|]. by apply Forall_cons.
  - unfold get_lwlsn_shared, mbind, ST_bind, st_get, mret, ST_ret in H1. rewrite (proj2 (Z.eqb_neq _ _)) in H1 by done.
    pose proof (proj2 Hc (mkBlockTag rinfo forknum blkno)) as Hw. unfold bound in Hw.
    destruct (lastWrittenLsnCache _ !! _); simplify_eq/=. split; simpl; [done| |done]. apply Forall_cons. split; [|done].
    split; [done|]. split; [done|]. split; [apply Hc|done].
  - rewrite H in Hcalls. apply Forall_app in Hcalls as [Hl1 [(Hrel & Hb & Hu & Hlow) Hl2]%Forall_cons].
    destruct (get_end_covers _ _ _ _ _ _ _ Hc Hrel Hb Hu H0) as (Hle & Hg & Hc').
    split; simpl; [done|eapply Forall_impl; [by apply Forall_app|]; intros call Hcall; by eapply call_ok_mono|].
    apply Forall_cons. split; [|done]. unfold read_ok. simpl. lia.
  - destruct (get_v_shared_ok _ _ _ _ _ _ _ _ _ Hc H H0 H1) as (_ & _ & Hcall & Hread & _). destruct missed; simpl.
    + split; simpl; [done| |done]. by apply Forall_cons.
    + split; simpl; [done..|]. apply Forall_app. split; [|done]. by apply reads_of_ok, Hread.
  - rewrite H in Hcalls. apply Forall_app in Hcalls as [Hl1 [(Hrel & Hlen & Hlow) Hl2]%Forall_cons].
    destruct (get_v_end_covers _ _ _ _ _ _ _ Hc Hrel Hlen H0) as (-> & Hg & Hc').
    split; simpl; [done|eapply Forall_impl; [by apply Forall_app|]; intros call Hcall; by eapply call_ok_mono|].
    apply Forall_app. split; [|done]. apply reads_of_ok. apply Forall2_fmap_r. eapply Forall2_impl; [exact Hlow|].
    intros b lsn. simpl. by destruct (_ =? _).
Qed.

Lemma shmeminit_wf n redo : 1 ≤ n → in_u 64 redo → cache_wf (shmeminit n redo).
Proof.
  intros Hn Hu. split; simpl; [done|by apply NoDup_nil| |lia|done|by intros k e].
  intros k. rewrite lookup_empty. split; [by intros ?%elem_of_nil|by intros []].
Qed.

Lemma lw_reachable_inv s : lw_reachable s → lw_inv s.
Proof.
  induction 1 as [s (n & redo & Hn & Hu & Hc & Hw & Hd & Hcalls & Hr)|s s' _ IH Hstep]; [|by eapply lw_step_inv].
  split; [|by rewrite Hcalls|by rewrite Hr]. rewrite Hc. split; [by apply shmeminit_wf|].
  intros k. unfold known. rewrite Hd. apply Hw.
Qed.

(** C9: the cache knows an LSN that is not too old for every block that is not doubtful: with any
    interleaving of writes, evictions and lookups, also of lookups that take the lock twice and are
    overtaken in between, the LSN of the block is not below the one at which it was written last; and
    no lookup has returned an LSN below the one at which its block had been written when it began,
    if the block was not doubtful then ([known]).  The cache stays well formed and within its size.
    A block becomes doubtful only when the second section of a lookup enters it with a maximum that
    is out of date ([late], [late_v]), or when its database is created while it is in the cache; a
    write ends that.  The LSNs of a page do not go back ([in_order]), and the maximum is not set
    back. *)
Theorem lwlsn_never_stale s :
  lw_reachable s →
  cache_wf (lw_cache s) ∧ (∀ k, lw_doubtful s k = false → lw_written s k ≤ bound (lw_cache s) k) ∧
  ∀ r, r ∈ lw_reads s → rd_low r ≤ rd_lsn r.
Proof.
  intros [[Hwf Hw] _ Hr]%lw_reachable_inv. split; [done|]. split; [|by apply Forall_forall].
  intros k Hk. specialize (Hw k). unfold known in Hw. by rewrite Hk in Hw.
Qed.

(** ** Requests *)

Lemma Forall2_with_r {A B} (P : B → Prop) (R : A → B → Prop) l k :
  Forall P k → Forall2 R l k → Forall2 (λ x y, P y ∧ R x y) l k.
Proof. intros Hk H. induction H; [done|]. apply Forall_cons in Hk as [? ?]. constructor; auto. Qed.

Lemma get_v_spec {E} w c rinfo forknum blkno nblocks :
  covers w c → relNumber rinfo ≠ InvalidOid → 0 ≤ nblocks ≤ 2 ^ 32 →
  wp (neon_get_lwlsn_v (E := E) rinfo forknum blkno nblocks)
    (λ r c', ∃ lsns, r = Ok lsns ∧ Forall2 (λ b lsn, b.2 ≤ lsn ∧ in_u 64 lsn) (asked w rinfo forknum blkno nblocks) lsns ∧ covers w c') c.
Proof.
  intros Hc Hrel Hn. unfold neon_get_lwlsn_v. wp_step. apply run_wp. intros r c1 Hrun.
  assert (Hr : ∃ lsns missed, r = Ok (lsns, missed)).
  { revert Hrun. unfold get_lwlsn_v_shared, mbind, ST_bind, st_get, mret, ST_ret. rewrite (proj2 (Z.eqb_neq _ _)) by done.
    intros [= <- _]. by eexists _, _. }
  destruct Hr as (lsns & missed & ->). destruct (get_v_shared_ok _ _ _ _ _ _ _ _ _ Hc Hrel Hn Hrun) as (-> & Hu & (_ & Hlen & Hcall) & Hread & Hzero).
  pose proof Hc as [Hwf Hw]. pose proof (cw_max _ Hwf) as Hm. destruct missed.
  - unfold get_lwlsn_v_exclusive. wp_step. wp_step. eapply wp_mono; [apply enter_missing_spec; [done|apply Hwf|done|done|exact Hc|]|].
    + intros j Hj. left. rewrite ?Z.add_0_l. specialize (Hzero j Hj). set (k := block _ _ _ _) in *. specialize (Hw k). unfold bound, cached in *.
      destruct (lastWrittenLsnCache c !! k); simpl in *; [|done]. rewrite Hzero in Hw by by eexists. unfold in_u in Hm. lia.
    + intros r c2 (-> & Hc2 & _). eexists. split; [done|]. split; [|done]. apply Forall2_fmap_r.
      eapply Forall2_impl; [exact (Forall2_with_r _ _ _ _ Hu Hcall)|].
      simpl. intros b lsn [Hl Hb]. destruct (_ =? _); done.
  - wp_step. exists lsns. split; [done|]. split; [|done]. eapply Forall2_impl; [exact (Forall2_with_r _ _ _ _ Hu (Hread eq_refl))|].
    simpl. tauto.
Qed.

(** WAL records do not end in or behind a page header. *)
Definition record_end (wal_segment_size : Z) (lsn : Lsn) : Prop :=
  ¬ 0 < lsn mod XLOG_BLCKSZ ≤ SizeOfXLogShortPHD ∧ ¬ 0 < lsn mod wal_segment_size ≤ SizeOfXLogLongPHD.

Lemma sub_mod_header m lsn n h : 0 < n → m ≤ lsn → lsn mod n = h → ¬ 0 < m mod n ≤ h → m ≤ lsn - h.
Proof.
  intros Hn Hle Hh Hm. destruct (Z_le_gt_dec m (lsn - h)) as [|Hgt]; [done|]. destruct Hm.
  pose proof (Z.div_mod lsn n ltac:(lia)). assert (Hq : m mod n = m - n * (lsn / n)); [|lia].
  rewrite <- (Z.mod_small (m - n * (lsn / n)) n); [|pose proof (Z.mod_pos_bound lsn n Hn); lia].
  rewrite Z.mul_comm, <- Zminus_mod_idemp_r, Z_mod_mult, Z.sub_0_r. done.
Qed.

Lemma nm_adjust_lsn_spec b m lsn :
  0 ≤ b → in_u 64 lsn → record_end (2 ^ b) m → m ≤ lsn → m ≤ nm_adjust_lsn (2 ^ b) lsn ≤ lsn.
Proof.
  intros Hb Hu [H1 H2] Hle. unfold nm_adjust_lsn, wrapping_sub.
  rewrite <- (Z.ones_equiv b : Z.ones b = 2 ^ b - 1), Z.land_ones by done. change (XLOG_BLCKSZ - 1) with (Z.ones 13). rewrite Z.land_ones by done.
  change (2 ^ 13) with XLOG_BLCKSZ. pose proof (Z.mod_le lsn XLOG_BLCKSZ ltac:(apply Hu) ltac:(done)).
  pose proof (Z.mod_le lsn (2 ^ b) ltac:(apply Hu) ltac:(lia)). unfold SizeOfXLogShortPHD, SizeOfXLogLongPHD in *.
  destruct (Z.eqb_spec (lsn mod XLOG_BLCKSZ) 24) as [He|]; [|destruct (Z.eqb_spec (lsn mod 2 ^ b) 40) as [He|]; [|lia]];
    (rewrite wrap_small by (unfold in_u in *; lia)).
  - pose proof (sub_mod_header m lsn XLOG_BLCKSZ 24 ltac:(done) Hle He H1). lia.
  - pose proof (sub_mod_header m lsn (2 ^ b) 40 ltac:(lia) Hle He H2). lia.
Qed.

Definition request_ok (position : WalPosition) (flushed : list Lsn) (low : Lsn) (req : neon_request_lsns) : Prop :=
  low ≤ not_modified_since req ∧ not_modified_since req ≤ effective_request_lsn req ≤ request_lsn req ∧
  (∀ slot, neon_prefetch_response_usable req slot = true → low ≤ effective_request_lsn slot) ∧
  match position with
  | InRecovery replay_lsn => effective_request_lsn req = request_lsn req ∧ replay_lsn ≤ request_lsn req
  | InNormalOperation flushlsn =>
    request_lsn req = u64_max ∧ (not_modified_since req ≤ flushlsn ∨ not_modified_since req ∈ flushed)
  end.

Lemma usable_low req slot low :
  low ≤ not_modified_since req → neon_prefetch_response_usable req slot = true → low ≤ effective_request_lsn slot.
Proof. unfold neon_prefetch_response_usable. intros Hle. destruct (_ || _); [done|]. intros H. bool_prop. lia. Qed.

Lemma request_lsns_of_ok b position lows lsns :
  0 ≤ b → Forall (λ i : BlockTag * Lsn, record_end (2 ^ b) i.2) lows → Forall2 (λ b lsn, b.2 ≤ lsn ∧ in_u 64 lsn) lows lsns →
  let '(reqs, flushed) := request_lsns_of (2 ^ b) position lsns in
  Forall2 (λ i req, request_ok position flushed i.2 req) lows reqs.
Proof.
  intros Hb Hends Hlows.
  assert (H : ∀ all : list Lsn, (∀ x, x ∈ lsns → x ∈ all) → Forall2 (λ i lsn, i.2 ≤ nm_adjust_lsn (2 ^ b) lsn ≤ u64_max ∧ lsn ∈ all) lows lsns).
  { intros all Hin. induction Hlows as [|i lsn lows lsns [Hle Hu] _ IH]; [constructor|]. apply Forall_cons in Hends as [Hi Hends]. constructor.
    - pose proof (nm_adjust_lsn_spec b i.2 lsn Hb Hu Hi Hle). unfold in_u, u64_max in *. split; [lia|set_solver].
    - apply IH; [done|]. set_solver. }
  specialize (H lsns (λ _ Hx, Hx)).
  destruct position as [replay|flush]; simpl; rewrite <- list_fmap_compose; apply Forall2_fmap_r; (eapply Forall2_impl; [exact H|]);
    simpl; intros i lsn [[Hlo Hhi] Hin]; set (a := nm_adjust_lsn _ _) in *; (split; [done|split; [simpl|split; [intros slot; by apply usable_low|simpl]]]).
  - destruct (Z.ltb_spec replay a); lia.
  - split; [done|]. destruct (Z.ltb_spec replay a); lia.
  - lia.
  - split; [done|]. destruct (Z_le_gt_dec a flush); [by left|right]. apply list_elem_of_filter. split; [lia|]. apply list_elem_of_fmap.
    by exists lsn.
Qed.

(** C20: requests to the pageserver see every write: in every state that the backends can reach,
    for blocks that are not doubtful (as in C9), [neon_get_request_lsns], when no other backend comes
    between its two sections, returns for each block LSNs with which the pageserver has to wait for
    the last write of the block, in the order that the protocol asks for.  In normal operation the
    WAL up to there is flushed; in recovery nothing is flushed, and the request is not below the
    replay position.  A prefetched page is used for the request only if it has that write.  WAL
    records do not end in or right behind a page header ([record_end]). *)
Theorem request_lsns_cover_writes s b position rinfo forknum blkno nblocks :
  lw_reachable s → relNumber rinfo ≠ InvalidOid → 0 ≤ nblocks ≤ 2 ^ 32 → 0 ≤ b →
  (∀ i, 0 ≤ i < nblocks → lw_doubtful s (block rinfo forknum blkno i) = false) →
  (∀ k, record_end (2 ^ b) (lw_written s k)) →
  ∃ reqs flushed c',
    neon_get_request_lsns (E := Empty_set) (2 ^ b) position rinfo forknum blkno nblocks (lw_cache s) = (Ok (reqs, flushed), c') ∧
    Forall2 (λ i req, request_ok position flushed i.2 req) (asked (lw_written s) rinfo forknum blkno nblocks) reqs.
Proof.
  intros Hs%lw_reachable_inv Hrel Hn Hb Hsure Hends.
  pose proof (get_v_spec (E := Empty_set) _ _ rinfo forknum blkno nblocks (li_covers _ Hs) Hrel Hn) as H. unfold wp in H.
  unfold neon_get_request_lsns, mbind, ST_bind. destruct (neon_get_lwlsn_v _ _ _ _ _) as [r c']. simpl in H. destruct H as (lsns & -> & Hl & _).
  assert (Hk : asked (known s) rinfo forknum blkno nblocks = asked (lw_written s) rinfo forknum blkno nblocks).
  { apply list_fmap_ext. intros j i [-> Hi]%lookup_seqZ. unfold known. by rewrite Hsure by lia. }
  rewrite Hk in Hl. assert (Ha : Forall (λ i : BlockTag * Lsn, record_end (2 ^ b) i.2) (asked (lw_written s) rinfo forknum blkno nblocks)).
  { apply Forall_fmap, Forall_true. intros i. apply Hends. }
  pose proof (request_lsns_of_ok b position _ _ Hb Ha Hl) as Hok.
  unfold mret, ST_ret. destruct (request_lsns_of _ _ _) as [reqs flushed]. by exists reqs, flushed, c'.
Qed.

(** ** The replacement *)

(** The blocks that were used, each once, the most recent first; [l] is the sequence of uses, the
    latest first. *)
Fixpoint recent (l : list BlockTag) : list BlockTag :=
  match l with [] => [] | k :: l => k :: filter (λ x, x ≠ k) (recent l) end.

Fixpoint enter_all {E} (l : list (BlockTag * Lsn)) : ST LwLsnCache E unit :=
  match l with [] => mret tt | (k, lsn) :: l => _ ← enter k lsn; enter_all l end.

Lemma recent_NoDup l : NoDup (recent l).
Proof. induction l as [|k l IH]; simpl; [apply NoDup_nil_2|]. apply NoDup_cons. split; [|by apply NoDup_filter]. by intros [? _]%list_elem_of_filter. Qed.

Lemma take_filter_in (k : BlockTag) l : ∀ n, NoDup l → k ∈ take (S n) l → filter (λ x, x ≠ k) (take (S n) l) = take n (filter (λ x, x ≠ k) l).
Proof.
  induction l as [|x l IH]; intros n; [by rewrite take_nil; intros _ ?%elem_of_nil|]. intros [Hx Hnd]%NoDup_cons. rewrite firstn_cons.
  destruct (decide (x = k)) as [->|Hne].
  - intros _. rewrite !filter_cons_False by auto. rewrite (filter_absent k l), (filter_absent k (take n l)); [done| |done].
    intros Hk. apply Hx. by eapply subseteq_take.
  - intros Hk. rewrite !filter_cons_True by done. destruct n as [|n]; [rewrite take_0 in Hk; set_solver|]. rewrite firstn_cons. f_equal.
    apply IH; [done|]. set_solver.
Qed.

Lemma take_filter_out (k : BlockTag) l : ∀ n, k ∉ take n l → take n (filter (λ x, x ≠ k) l) = take n l.
Proof.
  induction l as [|x l IH]; intros n Hk; [done|]. destruct n as [|n]; [done|]. rewrite firstn_cons in Hk. apply not_elem_of_cons in Hk as [Hx Hk].
  rewrite filter_cons_True, !firstn_cons by auto. f_equal. auto.
Qed.

Lemma touch_recent n k l :
  1 ≤ n → touch n k (reverse (take (Z.to_nat n) (recent l))) = reverse (take (Z.to_nat n) (recent (k :: l))).
Proof.
  intros Hn. replace (Z.to_nat n) with (S (Z.to_nat n - 1)) by lia. set (m := (Z.to_nat n - 1)%nat). simpl recent.
  rewrite firstn_cons, reverse_cons. unfold touch. f_equal. pose proof (recent_NoDup l) as Hnd.
  case_bool_decide as Hk; rewrite elem_of_reverse in Hk.
  - rewrite filter_reverse. f_equal. by apply take_filter_in.
  - rewrite length_reverse, length_take. destruct (Z.ltb_spec (Z.of_nat (S m `min` length (recent l))) n) as [Hlt|Hge].
    + rewrite (take_ge (recent l) (S m)) in Hk |- * by lia. f_equal. rewrite filter_absent by done. rewrite take_ge; [done|lia].
    + destruct (lookup_lt_is_Some_2 (recent l) m) as [x Hx]; [lia|]. rewrite (take_S_r _ _ _ Hx), reverse_app in *. simpl. f_equal.
      symmetry. apply take_filter_out. set_solver.
Qed.

(** the cache keeps the blocks that were used most recently: after any sequence of uses, the
    list of the cache has the last blocks that were used, as many as fit, in the order of
    their last use, and they are the ones that are in the cache. *)
Theorem cache_keeps_most_recent n redo l :
  1 ≤ n → in_u 64 redo → Forall (λ i, in_u 64 i.2) l →
  ∃ c, enter_all (E := Empty_set) l (shmeminit n redo) = (Ok tt, c) ∧
    lastWrittenLsnLRU c = reverse (take (Z.to_nat n) (recent (reverse l.*1))) ∧
    ∀ k, cached c k ↔ k ∈ take (Z.to_nat n) (recent (reverse l.*1)).
Proof.
  intros Hn Hu Hl.
  assert (H : ∀ c p, cache_wf c → lastWrittenLsnCacheSize c = n → lastWrittenLsnLRU c = reverse (take (Z.to_nat n) (recent p)) →
    ∃ c', enter_all (E := Empty_set) l c = (Ok tt, c') ∧ cache_wf c' ∧
      lastWrittenLsnLRU c' = reverse (take (Z.to_nat n) (recent (reverse l.*1 ++ p)))).
  { induction l as [|[k lsn] l IH]; intros c p Hwf Hsz Hlru; [by exists c|]. apply Forall_cons in Hl as [Hlsn Hl]. simpl in Hlsn |- *.
    pose proof (enter_spec (E := Empty_set) c k lsn Hwf Hlsn) as Hen. unfold wp in Hen. unfold mbind, ST_bind.
    destruct (enter k lsn c) as [r c1]. simpl in Hen. destruct Hen as (v & -> & Hen).
    destruct (IH Hl c1 (k :: p)) as (c' & Hc' & Hwf' & Hlru'); [apply Hen|by rewrite (en_size _ _ _ _ _ Hen)| |].
    - by rewrite (en_lru _ _ _ _ _ Hen), Hsz, Hlru, touch_recent.
    - exists c'. split; [done|]. split; [done|]. by rewrite reverse_cons, <- app_assoc. }
  destruct (H (shmeminit n redo) []) as (c & Hc & Hwf & Hlru); [by apply shmeminit_wf|done|simpl; by rewrite take_nil|].
  rewrite app_nil_r in Hlru. exists c. split; [done|]. split; [done|]. intros k. unfold cached. rewrite <- (cw_keys _ Hwf), Hlru. apply elem_of_reverse.
Qed.

(** ** Examples *)

Definition test_rel (db rel : Z) : NRelFileInfo := mkRelFileInfo 1663 db rel.
Definition test_block (i : Z) : BlockTag := mkBlockTag (test_rel 5 16384) MAIN_FORKNUM i.

Definition lw_start : Lw := mkLw (shmeminit 2 1000) (λ _, 0) (λ _, false) [] [].

(** Block 7 is written at LSN 2000, block 8 looked up; the lookup of both. *)
Definition lw_written_once : Lw :=
  lw_start <| lw_cache := (neon_set_lwlsn_block_range (E := Empty_set) 2000 (test_rel 5 16384) 0 7 1 (lw_cache lw_start)).2 |>
    <| lw_written := write_blocks (λ _, 0) (range_writes 2000 (test_rel 5 16384) 0 7 0 1) |>
    <| lw_doubtful := certain (range_writes 2000 (test_rel 5 16384) 0 7 0 1) (λ _, false) |>.
Definition lw_looked_up : Lw :=
  lw_written_once <| lw_reads := [mkRead (test_block 7) 2000 2000] |>.

Lemma lw_looked_up_reachable : lw_reachable lw_looked_up.
Proof.
  apply (lw_reachable_step lw_written_once); [apply (lw_reachable_step lw_start); [apply lw_reachable_init|]|].
  - exists 2, 1000. split; [done|]. split; [done|]. split; [done|]. split; [|done]. intros k. simpl. lia.
  - apply (lw_step_set lw_start 2000 (test_rel 5 16384) 0 7 1 2000); done.
  - apply (lw_step_get lw_written_once (test_rel 5 16384) 0 7 2000 (lw_cache lw_written_once)); [done|vm_compute; reflexivity].
Qed.

Lemma lwlsn_never_stale_witness :
  rd_low <$> lw_reads lw_looked_up = [2000] ∧ bound (lw_cache lw_looked_up) (test_block 7) = 2000 ∧
  ∀ r, r ∈ lw_reads lw_looked_up → rd_low r ≤ rd_lsn r.
Proof.
  split; [vm_compute; reflexivity|]. split; [vm_compute; reflexivity|].
  apply (lwlsn_never_stale lw_looked_up lw_looked_up_reachable).
Defined.

Lemma request_lsns_cover_writes_witness :
  ∃ reqs flushed c',
    neon_get_request_lsns (E := Empty_set) (2 ^ 24) (InNormalOperation 1500) (test_rel 5 16384) 0 7 2 (lw_cache lw_looked_up)
      = (Ok (reqs, flushed), c') ∧ not_modified_since <$> reqs = [2000; 1000] ∧ flushed = [2000] ∧
    Forall2 (λ i req, request_ok (InNormalOperation 1500) flushed i.2 req) (asked (lw_written lw_looked_up) (test_rel 5 16384) 0 7 2) reqs.
Proof.
  destruct (request_lsns_cover_writes lw_looked_up 24 (InNormalOperation 1500) (test_rel 5 16384) 0 7 2 lw_looked_up_reachable)
    as (reqs & flushed & c' & Hrun & Hok); [done|done|done|done| |].
  { intros k. simpl. unfold write_block, record_end. destruct (decide _); apply (bool_decide_unpack _); by vm_compute. }
  exists reqs, flushed, c'. split; [exact Hrun|]. vm_compute in Hrun. injection Hrun as <- <- _. by split; [|split].
Defined.

Lemma cache_keeps_most_recent_witness :
  ∃ c, enter_all (E := Empty_set) [(test_block 1, 10); (test_block 2, 20); (test_block 1, 30); (test_block 3, 40)] (shmeminit 2 5) = (Ok tt, c) ∧
    lastWrittenLsnLRU c = [test_block 1; test_block 3] ∧ maxLastWrittenLsn c = 20.
Proof.
  destruct (cache_keeps_most_recent 2 5 [(test_block 1, 10); (test_block 2, 20); (test_block 1, 30); (test_block 3, 40)]) as (c & Hc & Hl & _);
    [done|done|by repeat constructor|].
  exists c. split; [exact Hc|]. split; [exact Hl|]. vm_compute in Hc. by injection Hc as <-.
Defined.

(** A lookup of block 7 finds nothing, with the maximum at 1000.  Before it takes the lock again the
    block is written at LSN 2000 and evicted.  It is then entered with LSN 1000, at which later
    lookups find it. *)
Example get_lwlsn_races :
  let c0 := shmeminit 2 1000 in
  let run {A} (m : ST LwLsnCache Empty_set A) c := (m c).2 in
  let set i lsn := run (neon_set_lwlsn_block lsn (test_rel 5 16384) 0 i) in
  get_lwlsn_shared (E := Empty_set) (test_rel 5 16384) 0 7 c0 = (Ok (inr 1000), c0) ∧
  let c1 := set 9 2002 (set 8 2001 (set 7 2000 c0)) in
  bound c1 (test_block 7) = 2000 ∧
  let c2 := run (get_lwlsn_exclusive 1000 (test_rel 5 16384) 0 7) c1 in
  (neon_get_lwlsn (E := Empty_set) (test_rel 5 16384) 0 7 c2).1 = Ok 1000.
Proof. vm_compute. auto. Qed.

(** The same with several blocks: block 8 was written meanwhile and is the oldest entry when block
    7 is entered. *)
Example get_lwlsn_v_races :
  let c0 := shmeminit 2 1000 in
  let run {A} (m : ST LwLsnCache Empty_set A) c := (m c).2 in
  let set i lsn := run (neon_set_lwlsn_block lsn (test_rel 5 16384) 0 i) in
  get_lwlsn_v_shared (E := Empty_set) (test_rel 5 16384) 0 7 2 c0 = (Ok ([0; 0], true), c0) ∧
  let c1 := set 9 2001 (set 8 2000 c0) in
  let c2 := run (get_lwlsn_v_exclusive [0; 0] (test_rel 5 16384) 0 7) c1 in
  bound c1 (test_block 8) = 2000 ∧ (neon_get_lwlsn (E := Empty_set) (test_rel 5 16384) 0 8 c2).1 = Ok 1000.
Proof. vm_compute. auto. Qed.

(** The maximum is not raised for a block that is in the cache. *)
Example set_db_skips_cached :
  let c := (neon_set_lwlsn_block (E := Empty_set) 2000 (test_rel 5 16384) 0 7 (shmeminit 2 1000)).2 in
  (neon_get_lwlsn (E := Empty_set) (test_rel 5 16384) 0 7 (neon_set_lwlsn_db (E := Empty_set) 3000 c).2).1 = Ok 2000.
Proof. by vm_compute. Qed.
