(* ===== verification/Pagestream.v ===== *)
(** * The protocol between compute and pageserver

    [libs/pageserver_api/src/models.rs]: the messages of the pagestream protocol in its versions 2
    and 3, [PagestreamFeMessage::serialize] and [parse], [PagestreamBeMessage::serialize] and
    [deserialize].  [pgxn/neon/communicator.c]: the side of the compute, [nm_pack_request],
    [nm_unpack_response] and the checks of a response against its request.

    The buffers that are written are those of the [bytes] crate, a [StringInfo] is one of them.  What
    the readers are built on is a parameter: the [byteorder] crate, and the functions of Postgres
    that read from a message.  Messages of the feature [testing] are left out. *)

From S2P Require Import Prelude Bytes Lsn Key.

(** [BLCKSZ], [SLRU_PAGES_PER_SEGMENT] *)
Definition PAGE_SIZE : Z := 8192.
Definition SLRU_PAGES_PER_SEGMENT : Z := 32.

Inductive PagestreamProtocolVersion := V2 | V3.

(** ** Messages *)

Record PagestreamRequest := mkPagestreamRequest {
  psr_reqid : Z;
  psr_request_lsn : Lsn;
  psr_not_modified_since : Lsn;
}.

Record PagestreamExistsRequest := mkExistsRequest { exq_hdr : PagestreamRequest; exq_rel : RelTag }.
Record PagestreamNblocksRequest := mkNblocksRequest { nbq_hdr : PagestreamRequest; nbq_rel : RelTag }.
Record PagestreamGetPageRequest := mkGetPageRequest {
  gpq_hdr : PagestreamRequest;
  gpq_rel : RelTag;
  gpq_blkno : Z;
}.
Record PagestreamDbSizeRequest := mkDbSizeRequest { dbq_hdr : PagestreamRequest; dbq_dbnode : Z }.
Record PagestreamGetSlruSegmentRequest := mkGetSlruSegmentRequest {
  slq_hdr : PagestreamRequest;
  slq_kind : Z;
  slq_segno : Z;
}.

Inductive PagestreamFeMessage :=
| FeExists (req : PagestreamExistsRequest)
| FeNblocks (req : PagestreamNblocksRequest)
| FeGetPage (req : PagestreamGetPageRequest)
| FeDbSize (req : PagestreamDbSizeRequest)
| FeGetSlruSegment (req : PagestreamGetSlruSegmentRequest).

Record PagestreamExistsResponse := mkExistsResponse { exp_req : PagestreamExistsRequest; exp_exists : bool }.
Record PagestreamNblocksResponse := mkNblocksResponse { nbp_req : PagestreamNblocksRequest; nbp_n_blocks : Z }.
Record PagestreamGetPageResponse := mkGetPageResponse { gpp_req : PagestreamGetPageRequest; gpp_page : bytes }.
Record PagestreamErrorResponse := mkErrorResponse { erp_req : PagestreamRequest; erp_message : bytes }.
Record PagestreamDbSizeResponse := mkDbSizeResponse { dbp_req : PagestreamDbSizeRequest; dbp_db_size : Z }.
Record PagestreamGetSlruSegmentResponse := mkGetSlruSegmentResponse {
  slp_req : PagestreamGetSlruSegmentRequest;
  slp_segment : bytes;
}.

Inductive PagestreamBeMessage :=
| BeExists (resp : PagestreamExistsResponse)
| BeNblocks (resp : PagestreamNblocksResponse)
| BeGetPage (resp : PagestreamGetPageResponse)
| BeError (resp : PagestreamErrorResponse)
| BeDbSize (resp : PagestreamDbSizeResponse)
| BeGetSlruSegment (resp : PagestreamGetSlruSegmentResponse).

Inductive PagestreamFeMessageTag := FeTagExists | FeTagNblocks | FeTagGetPage | FeTagDbSize | FeTagGetSlruSegment.
Inductive PagestreamBeMessageTag :=
| BeTagExists | BeTagNblocks | BeTagGetPage | BeTagError | BeTagDbSize | BeTagGetSlruSegment.

(** [as u8] *)
Definition fe_tag (t : PagestreamFeMessageTag) : Z :=
  match t with FeTagExists => 0 | FeTagNblocks => 1 | FeTagGetPage => 2 | FeTagDbSize => 3 | FeTagGetSlruSegment => 4 end.
Definition be_tag (t : PagestreamBeMessageTag) : Z :=
  match t with
  | BeTagExists => 100 | BeTagNblocks => 101 | BeTagGetPage => 102 | BeTagError => 103 | BeTagDbSize => 104
  | BeTagGetSlruSegment => 105
  end.

Definition PagestreamFeMessageTag_try_from (value : Z) : outcome Z PagestreamFeMessageTag :=
  if value =? 0 then Ok FeTagExists
  else if value =? 1 then Ok FeTagNblocks
  else if value =? 2 then Ok FeTagGetPage
  else if value =? 3 then Ok FeTagDbSize
  else if value =? 4 then Ok FeTagGetSlruSegment
  else Err value.
Definition PagestreamBeMessageTag_try_from (value : Z) : outcome Z PagestreamBeMessageTag :=
  if value =? 100 then Ok BeTagExists
  else if value =? 101 then Ok BeTagNblocks
  else if value =? 102 then Ok BeTagGetPage
  else if value =? 103 then Ok BeTagError
  else if value =? 104 then Ok BeTagDbSize
  else if value =? 105 then Ok BeTagGetSlruSegment
  else Err value.

(** ** Writing *)

Section writing.
Context {M : Type} `{BufMut M}.

Definition put_hdr (hdr : PagestreamRequest) (b : M) : M :=
  put_u64 (psr_not_modified_since hdr) (put_u64 (psr_request_lsn hdr) (put_u64 (psr_reqid hdr) b)).
Definition put_rel (rel : RelTag) (b : M) : M :=
  put_u8 (forknum rel) (put_u32 (relnode rel) (put_u32 (dbnode rel) (put_u32 (spcnode rel) b))).

(** On a new buffer *)
Definition PagestreamFeMessage_serialize (self : PagestreamFeMessage) (b : M) : M :=
  match self with
  | FeExists req => put_rel (exq_rel req) (put_hdr (exq_hdr req) (put_u8 (fe_tag FeTagExists) b))
  | FeNblocks req => put_rel (nbq_rel req) (put_hdr (nbq_hdr req) (put_u8 (fe_tag FeTagNblocks) b))
  | FeGetPage req =>
    put_u32 (gpq_blkno req) (put_rel (gpq_rel req) (put_hdr (gpq_hdr req) (put_u8 (fe_tag FeTagGetPage) b)))
  | FeDbSize req => put_u32 (dbq_dbnode req) (put_hdr (dbq_hdr req) (put_u8 (fe_tag FeTagDbSize) b))
  | FeGetSlruSegment req =>
    put_u32 (slq_segno req) (put_u8 (slq_kind req) (put_hdr (slq_hdr req) (put_u8 (fe_tag FeTagGetSlruSegment) b)))
  end.

(** [(resp.segment.len() / BLCKSZ as usize) as u32] *)
Definition segment_blocks (segment : bytes) : Z := wrap 32 (Z.of_nat (length segment) / PAGE_SIZE).

Definition PagestreamBeMessage_serialize (self : PagestreamBeMessage) (protocol_version : PagestreamProtocolVersion) (b : M) : M :=
  match protocol_version with
  | V2 =>
    match self with
    | BeExists resp => put_u8 (Z.b2z (exp_exists resp)) (put_u8 (be_tag BeTagExists) b)
    | BeNblocks resp => put_u32 (nbp_n_blocks resp) (put_u8 (be_tag BeTagNblocks) b)
    | BeGetPage resp => put_slice (gpp_page resp) (put_u8 (be_tag BeTagGetPage) b)
    | BeError resp => put_u8 0 (put_slice (erp_message resp) (put_u8 (be_tag BeTagError) b))
    | BeDbSize resp => put_i64 (dbp_db_size resp) (put_u8 (be_tag BeTagDbSize) b)
    | BeGetSlruSegment resp =>
      put_slice (slp_segment resp) (put_u32 (segment_blocks (slp_segment resp)) (put_u8 (be_tag BeTagGetSlruSegment) b))
    end
  | V3 =>
    match self with
    | BeExists resp =>
      let b := put_hdr (exq_hdr (exp_req resp)) (put_u8 (be_tag BeTagExists) b) in
      put_u8 (Z.b2z (exp_exists resp)) (put_rel (exq_rel (exp_req resp)) b)
    | BeNblocks resp =>
      let b := put_hdr (nbq_hdr (nbp_req resp)) (put_u8 (be_tag BeTagNblocks) b) in
      put_u32 (nbp_n_blocks resp) (put_rel (nbq_rel (nbp_req resp)) b)
    | BeGetPage resp =>
      let b := put_hdr (gpq_hdr (gpp_req resp)) (put_u8 (be_tag BeTagGetPage) b) in
      let b := put_u32 (gpq_blkno (gpp_req resp)) (put_rel (gpq_rel (gpp_req resp)) b) in
      put_slice (gpp_page resp) b
    | BeError resp =>
      let b := put_hdr (erp_req resp) (put_u8 (be_tag BeTagError) b) in
      put_u8 0 (put_slice (erp_message resp) b)
    | BeDbSize resp =>
      let b := put_hdr (dbq_hdr (dbp_req resp)) (put_u8 (be_tag BeTagDbSize) b) in
      put_i64 (dbp_db_size resp) (put_u32 (dbq_dbnode (dbp_req resp)) b)
    | BeGetSlruSegment resp =>
      let b := put_hdr (slq_hdr (slp_req resp)) (put_u8 (be_tag BeTagGetSlruSegment) b) in
      let b := put_u32 (slq_segno (slp_req resp)) (put_u8 (slq_kind (slp_req resp)) b) in
      put_slice (slp_segment resp) (put_u32 (segment_blocks (slp_segment resp)) b)
    end
  end.

(** The compute: [pq_sendint32] and the like append in network order. *)
Definition T_NeonExistsRequest : Z := 0.
Definition T_NeonNblocksRequest : Z := 1.
Definition T_NeonGetPageRequest : Z := 2.
Definition T_NeonDbSizeRequest : Z := 3.
Definition T_NeonGetSlruSegmentRequest : Z := 4.
Definition T_NeonExistsResponse : Z := 100.
Definition T_NeonNblocksResponse : Z := 101.
Definition T_NeonGetPageResponse : Z := 102.
Definition T_NeonErrorResponse : Z := 103.
Definition T_NeonDbSizeResponse : Z := 104.
Definition T_NeonGetSlruSegmentResponse : Z := 105.

Definition messageTag (msg : PagestreamFeMessage) : Z :=
  match msg with
  | FeExists _ => T_NeonExistsRequest | FeNblocks _ => T_NeonNblocksRequest | FeGetPage _ => T_NeonGetPageRequest
  | FeDbSize _ => T_NeonDbSizeRequest | FeGetSlruSegment _ => T_NeonGetSlruSegmentRequest
  end.
Definition request_hdr (msg : PagestreamFeMessage) : PagestreamRequest :=
  match msg with
  | FeExists req => exq_hdr req | FeNblocks req => nbq_hdr req | FeGetPage req => gpq_hdr req
  | FeDbSize req => dbq_hdr req | FeGetSlruSegment req => slq_hdr req
  end.

Definition send_rinfo (rel : RelTag) (s : M) : M :=
  put_u8 (forknum rel) (put_u32 (relnode rel) (put_u32 (dbnode rel) (put_u32 (spcnode rel) s))).

Definition nm_pack_request (neon_protocol_version : PagestreamProtocolVersion) (msg : PagestreamFeMessage) (s : M) : M :=
  let s := put_u8 (messageTag msg) s in
  let s := match neon_protocol_version with V3 => put_u64 (psr_reqid (request_hdr msg)) s | V2 => s end in
  let s := put_u64 (psr_request_lsn (request_hdr msg)) s in
  let s := put_u64 (psr_not_modified_since (request_hdr msg)) s in
  match msg with
  | FeExists msg_req => send_rinfo (exq_rel msg_req) s
  | FeNblocks msg_req => send_rinfo (nbq_rel msg_req) s
  | FeDbSize msg_req => put_u32 (dbq_dbnode msg_req) s
  | FeGetPage msg_req => put_u32 (gpq_blkno msg_req) (send_rinfo (gpq_rel msg_req) s)
  | FeGetSlruSegment msg_req => put_u32 (slq_segno msg_req) (put_u8 (slq_kind msg_req) s)
  end.
End writing.

(** ** Reading *)

(** A reader that takes [n] bytes and decodes them, or fails *)
Definition takes {A} (n : nat) (dec : bytes → A) (f : ST bytes string A) : Prop :=
  ∀ b, if decide (n ≤ length b)%nat then f b = (Ok (dec (take n b)), drop n b) else ∃ e b', f b = (Err e, b').

(** [byteorder::ReadBytesExt], in network order *)
Class ReadBytesExt := {
  read_u8 : ST bytes string Z;
  read_u32 : ST bytes string Z;
  read_u64 : ST bytes string Z;
  read_i64 : ST bytes string Z;
}.
Class ReadBytesExtLaws `{ReadBytesExt} := {
  read_u8_takes : takes 1 be_value read_u8;
  read_u32_takes : takes 4 be_value read_u32;
  read_u64_takes : takes 8 be_value read_u64;
  read_i64_takes : takes 8 (to_signed 64 ∘ be_value) read_i64;
}.

(** [std::io::Read::read_exact] *)
Definition read_exact (n : Z) : ST bytes string bytes := λ b,
  if Z.of_nat (length b) <? n then (Err "failed to fill whole buffer"%string, b)
  else (Ok (take (Z.to_nat n) b), drop (Z.to_nat n) b).

(** The bytes before the first zero, and what is left after it *)
Definition cstring (b : bytes) : option (bytes * bytes) :=
  i ← fst <$> list_find (λ x, x = x00) b; Some (take i b, drop (S i) b).

Section parsing.
Context `{ReadBytesExt}.

(** [buf.read_until(0)], [CString::from_vec_with_nul] and [to_str] *)
Definition read_message : ST bytes string bytes := λ b,
  match cstring b with
  | None => (Err "data provided is not nul terminated"%string, [])
  | Some (message, rest) =>
    if utf8_valid message then (Ok message, rest) else (Err "invalid utf-8"%string, rest)
  end.

Definition read_rel : ST bytes string RelTag :=
  spcnode ← read_u32;
  dbnode ← read_u32;
  relnode ← read_u32;
  forknum ← read_u8;
  mret {| forknum := forknum; spcnode := spcnode; dbnode := dbnode; relnode := relnode |}.

Definition read_hdr (protocol_version : PagestreamProtocolVersion) : ST bytes string PagestreamRequest :=
  reqid ← match protocol_version with V2 => mret 0 | V3 => read_u64 end;
  request_lsn ← read_u64;
  not_modified_since ← read_u64;
  mret (mkPagestreamRequest reqid request_lsn not_modified_since).

Definition PagestreamFeMessage_parse (protocol_version : PagestreamProtocolVersion) : ST bytes string PagestreamFeMessage :=
  msg_tag ← read_u8;
  hdr ← read_hdr protocol_version;
  match PagestreamFeMessageTag_try_from msg_tag with
  | Ok FeTagExists => rel ← read_rel; mret (FeExists (mkExistsRequest hdr rel))
  | Ok FeTagNblocks => rel ← read_rel; mret (FeNblocks (mkNblocksRequest hdr rel))
  | Ok FeTagGetPage => rel ← read_rel; blkno ← read_u32; mret (FeGetPage (mkGetPageRequest hdr rel blkno))
  | Ok FeTagDbSize => dbnode ← read_u32; mret (FeDbSize (mkDbSizeRequest hdr dbnode))
  | Ok FeTagGetSlruSegment =>
    kind ← read_u8; segno ← read_u32; mret (FeGetSlruSegment (mkGetSlruSegmentRequest hdr kind segno))
  | _ => st_fail "invalid tag"%string
  end.

Definition read_response (t : PagestreamBeMessageTag) : ST bytes string PagestreamBeMessage :=
  hdr ← read_hdr V3;
  match t with
  | BeTagExists =>
    rel ← read_rel; exists_ ← read_u8;
    mret (BeExists (mkExistsResponse (mkExistsRequest hdr rel) (negb (exists_ =? 0))))
  | BeTagNblocks =>
    rel ← read_rel; n_blocks ← read_u32; mret (BeNblocks (mkNblocksResponse (mkNblocksRequest hdr rel) n_blocks))
  | BeTagGetPage =>
    rel ← read_rel; blkno ← read_u32; page ← read_exact 8192;
    mret (BeGetPage (mkGetPageResponse (mkGetPageRequest hdr rel blkno) page))
  | BeTagError => message ← read_message; mret (BeError (mkErrorResponse hdr message))
  | BeTagDbSize =>
    dbnode ← read_u32; db_size ← read_i64; mret (BeDbSize (mkDbSizeResponse (mkDbSizeRequest hdr dbnode) db_size))
  | BeTagGetSlruSegment =>
    kind ← read_u8; segno ← read_u32; n_blocks ← read_u32;
    segment ← read_exact (n_blocks * PAGE_SIZE);
    mret (BeGetSlruSegment (mkGetSlruSegmentResponse (mkGetSlruSegmentRequest hdr kind segno) segment))
  end.

Definition PagestreamBeMessage_deserialize : ST bytes string PagestreamBeMessage :=
  msg_tag ← read_u8;
  t ← match PagestreamBeMessageTag_try_from msg_tag with Ok t => mret t | _ => st_fail "invalid tag"%string end;
  ok ← read_response t;
  remaining ← st_get;
  if bool_decide (remaining = []) then mret ok else st_fail "remaining bytes in msg"%string.
End parsing.

(** ** The compute *)

(** [pq_getmsgbyte] and the others of Postgres, that raise an error when there is not enough; an
    [int64] is signed. *)
Class PqFormat := {
  pq_getmsgbyte : ST bytes string Z;
  pq_getmsgint4 : ST bytes string Z;
  pq_getmsgint64 : ST bytes string Z;
  pq_getmsgbytes : Z → ST bytes string bytes;
  pq_getmsgrawstring : ST bytes string bytes;
  pq_getmsgend : ST bytes string unit;
}.
Class PqFormatLaws `{PqFormat} := {
  pq_getmsgbyte_takes : takes 1 be_value pq_getmsgbyte;
  pq_getmsgint4_takes : takes 4 be_value pq_getmsgint4;
  pq_getmsgint64_takes : takes 8 (to_signed 64 ∘ be_value) pq_getmsgint64;
  pq_getmsgbytes_takes n : 0 ≤ n → takes (Z.to_nat n) id (pq_getmsgbytes n);
  pq_getmsgrawstring_spec b :
    match cstring b with
    | Some (s, rest) => pq_getmsgrawstring b = (Ok s, rest)
    | None => ∃ e b', pq_getmsgrawstring b = (Err e, b')
    end;
  pq_getmsgend_spec b : if decide (b = []) then pq_getmsgend b = (Ok tt, b) else ∃ e b', pq_getmsgend b = (Err e, b');
}.

Section unpacking.
Context `{PqFormat}.
Variable neon_protocol_version : PagestreamProtocolVersion.

(** [if (neon_protocol_version >= 3)]: otherwise the memory is zero *)
Definition if_v3 {A} (m : ST bytes string A) (zero : A) : ST bytes string A :=
  match neon_protocol_version with V3 => m | V2 => mret zero end.

Definition zero_hdr : PagestreamRequest := mkPagestreamRequest 0 0 0.
Definition zero_rel : RelTag := {| forknum := 0; spcnode := 0; dbnode := 0; relnode := 0 |}.

Definition getmsg_uint64 : ST bytes string Z := x ← pq_getmsgint64; mret (wrap 64 x).

Definition getmsg_hdr : ST bytes string PagestreamRequest :=
  if_v3 (reqid ← getmsg_uint64; lsn ← getmsg_uint64; not_modified_since ← getmsg_uint64;
         mret (mkPagestreamRequest reqid lsn not_modified_since)) zero_hdr.

Definition getmsg_rinfo : ST bytes string RelTag :=
  spcOid ← pq_getmsgint4;
  dbOid ← pq_getmsgint4;
  relNumber ← pq_getmsgint4;
  forknum ← pq_getmsgbyte;
  mret {| forknum := forknum; spcnode := spcOid; dbnode := dbOid; relnode := relNumber |}.

(** Into an [int] *)
Definition getmsg_int : ST bytes string Z := x ← pq_getmsgint4; mret (to_signed 32 x).

(** More blocks than fit into the response are copied behind it, an overflow of [n_blocks * BLCKSZ]
    is undefined. *)
Definition getmsg_segment : ST bytes string bytes :=
  n_blocks ← getmsg_int;
  _ ← st_assert (bool_decide (- 2 ^ 31 ≤ n_blocks * PAGE_SIZE < 2 ^ 31));
  data ← pq_getmsgbytes (n_blocks * PAGE_SIZE);
  _ ← st_assert (n_blocks <=? SLRU_PAGES_PER_SEGMENT);
  mret data.

Definition nm_unpack_response : ST bytes string PagestreamBeMessage :=
  tag ← pq_getmsgbyte;
  resp_hdr ← getmsg_hdr;
  if tag =? T_NeonExistsResponse then
    rel ← if_v3 getmsg_rinfo zero_rel;
    exists_ ← pq_getmsgbyte;
    _ ← pq_getmsgend;
    mret (BeExists (mkExistsResponse (mkExistsRequest resp_hdr rel) (negb (exists_ =? 0))))
  else if tag =? T_NeonNblocksResponse then
    rel ← if_v3 getmsg_rinfo zero_rel;
    n_blocks ← pq_getmsgint4;
    _ ← pq_getmsgend;
    mret (BeNblocks (mkNblocksResponse (mkNblocksRequest resp_hdr rel) n_blocks))
  else if tag =? T_NeonGetPageResponse then
    rel ← if_v3 getmsg_rinfo zero_rel;
    blkno ← if_v3 pq_getmsgint4 0;
    page ← pq_getmsgbytes PAGE_SIZE;
    _ ← pq_getmsgend;
    mret (BeGetPage (mkGetPageResponse (mkGetPageRequest resp_hdr rel blkno) page))
  else if tag =? T_NeonDbSizeResponse then
    dbNode ← if_v3 pq_getmsgint4 0;
    db_size ← pq_getmsgint64;
    _ ← pq_getmsgend;
    mret (BeDbSize (mkDbSizeResponse (mkDbSizeRequest resp_hdr dbNode) db_size))
  else if tag =? T_NeonErrorResponse then
    message ← pq_getmsgrawstring;
    _ ← pq_getmsgend;
    mret (BeError (mkErrorResponse resp_hdr message))
  else if tag =? T_NeonGetSlruSegmentResponse then
    kind ← if_v3 pq_getmsgbyte 0;
    segno ← if_v3 getmsg_int 0;
    data ← getmsg_segment;
    _ ← pq_getmsgend;
    mret (BeGetSlruSegment (mkGetSlruSegmentResponse (mkGetSlruSegmentRequest resp_hdr kind segno) data))
  else st_fail "unexpected neon message tag"%string.

(** *** The response to a request

    An error of the pageserver is raised as an error; a response to another request, or of another
    kind, is a panic of the connection. *)

Definition equal_requests (a b : PagestreamRequest) : bool :=
  (psr_reqid a =? psr_reqid b) && (psr_request_lsn a =? psr_request_lsn b)
  && (psr_not_modified_since a =? psr_not_modified_since b).

Definition RelFileInfoEquals (a b : RelTag) : bool :=
  (spcnode a =? spcnode b) && (dbnode a =? dbnode b) && (relnode a =? relnode b).

(** [if (neon_protocol_version >= 3) { if (mismatch) PANIC }] *)
Definition matching {A} (matches : bool) (a : A) : outcome bytes A :=
  match neon_protocol_version with V2 => Ok a | V3 => if matches then Ok a else Panic end.

Definition communicator_exists (request : PagestreamExistsRequest) (resp : PagestreamBeMessage) : outcome bytes bool :=
  match resp with
  | BeExists r =>
    matching (equal_requests (exq_hdr (exp_req r)) (exq_hdr request)
      && RelFileInfoEquals (exq_rel (exp_req r)) (exq_rel request)
      && (forknum (exq_rel (exp_req r)) =? forknum (exq_rel request))) (exp_exists r)
  | BeError r => Err (erp_message r)
  | _ => Panic
  end.

Definition communicator_nblocks (request : PagestreamNblocksRequest) (resp : PagestreamBeMessage) : outcome bytes Z :=
  match resp with
  | BeNblocks r =>
    matching (equal_requests (nbq_hdr (nbp_req r)) (nbq_hdr request)
      && RelFileInfoEquals (nbq_rel (nbp_req r)) (nbq_rel request)
      && (forknum (nbq_rel (nbp_req r)) =? forknum (nbq_rel request))) (nbp_n_blocks r)
  | BeError r => Err (erp_message r)
  | _ => Panic
  end.

Definition communicator_dbsize (request : PagestreamDbSizeRequest) (resp : PagestreamBeMessage) : outcome bytes Z :=
  match resp with
  | BeDbSize r =>
    matching (equal_requests (dbq_hdr (dbp_req r)) (dbq_hdr request)
      && (dbq_dbnode (dbp_req r) =? dbq_dbnode request)) (dbp_db_size r)
  | BeError r => Err (erp_message r)
  | _ => Panic
  end.

(** A page of [communicator_read_at_lsnv], read for the request of a slot *)
Definition communicator_read_page (request : PagestreamGetPageRequest) (resp : PagestreamBeMessage) : outcome bytes bytes :=
  match resp with
  | BeGetPage r =>
    matching (equal_requests (gpq_hdr (gpp_req r)) (gpq_hdr request)
      && RelFileInfoEquals (gpq_rel (gpp_req r)) (gpq_rel request)
      && (forknum (gpq_rel (gpp_req r)) =? forknum (gpq_rel request))
      && (gpq_blkno (gpp_req r) =? gpq_blkno request)) (gpp_page r)
  | BeError r => Err (erp_message r)
  | _ => Panic
  end.

Definition communicator_read_slru_segment (request : PagestreamGetSlruSegmentRequest) (resp : PagestreamBeMessage) :
    outcome bytes bytes :=
  match resp with
  | BeGetSlruSegment r =>
    matching (equal_requests (slq_hdr (slp_req r)) (slq_hdr request)
      && (slq_kind (slp_req r) =? slq_kind request) && (slq_segno (slp_req r) =? slq_segno request)) (slp_segment r)
  | BeError r => Err (erp_message r)
  | _ => Panic
  end.
End unpacking.
