(* ===== verification/PagestreamProps.v ===== *)
(** * Compute and pageserver understand each other

    What the C code of the compute packs is what the Rust code of the pageserver parses, and the
    other way round for the responses, in both versions of the protocol; messages that are cut off
    or too long are refused. *)

From S2P Require Import Prelude Bytes Lsn Key Pagestream.

(** ** Readers and what they read *)

(** On a buffer that starts with [enc] the reader returns [a] and leaves the rest; on a part of
    [enc] it fails. *)
Record reads_as {A} (m : ST bytes string A) (enc : bytes) (a : A) : Prop := mkReadsAs {
  ra_ok t : m (enc ++ t) = (Ok a, t);
  ra_short p x : enc = p ++ x → x ≠ [] → ∃ e b, m p = (Err e, b);
}.

(** The same for a reader of whole messages: it also fails when bytes are left. *)
Record ends_as {A} (m : ST bytes string A) (enc : bytes) (a : A) : Prop := mkEndsAs {
  ea_ok : m enc = (Ok a, []);
  ea_short p x : enc = p ++ x → x ≠ [] → ∃ e b, m p = (Err e, b);
  ea_long t : t ≠ [] → ∃ e b, m (enc ++ t) = (Err e, b);
}.

Lemma ra_ret {A} (a : A) : reads_as (mret a) [] a.
Proof. split; [done|]. intros p x [-> ->]%eq_sym%app_nil. done. Qed.

Lemma ra_bind {A B} (m : ST bytes string A) (f : A → ST bytes string B) enc1 enc2 a b :
  reads_as m enc1 a → reads_as (f a) enc2 b → reads_as (m ≫= f) (enc1 ++ enc2) b.
Proof.
  intros [Hm Hms] [Hf Hfs]. unfold mbind, ST_bind. split.
  - intros t. by rewrite <- app_assoc, Hm.
  - intros p x [(l & -> & ->)|(l & -> & ->)]%app_eq_inv Hx.
    + destruct l as [|c l]; [|destruct (Hms p (c :: l)) as (e & b' & ->); [done..|by exists e, b']].
      rewrite app_nil_r in Hm. pose proof (Hm []) as Hm0. rewrite app_nil_r in Hm0. rewrite Hm0. by apply (Hfs [] enc2).
    + rewrite Hm. by apply (Hfs l x).
Qed.

Lemma ea_bind {A B} (m : ST bytes string A) (f : A → ST bytes string B) enc1 enc2 a b :
  reads_as m enc1 a → ends_as (f a) enc2 b → ends_as (m ≫= f) (enc1 ++ enc2) b.
Proof.
  intros [Hm Hms] [Hf Hfs Hfl]. unfold mbind, ST_bind. split.
  - by rewrite Hm.
  - intros p x [(l & -> & ->)|(l & -> & ->)]%app_eq_inv Hx.
    + destruct l as [|c l]; [|destruct (Hms p (c :: l)) as (e & b' & ->); [done..|by exists e, b']].
      rewrite app_nil_r in Hm. pose proof (Hm []) as Hm0. rewrite app_nil_r in Hm0. rewrite Hm0. by apply (Hfs [] enc2).
    + rewrite Hm. by apply (Hfs l x).
  - intros t Ht. rewrite <- app_assoc, Hm. by apply Hfl.
Qed.

Lemma ra_bind_r {A B} (m : ST bytes string A) (f : A → ST bytes string B) enc a b :
  reads_as m enc a → reads_as (f a) [] b → reads_as (m ≫= f) enc b.
Proof. intros Hm Hf. rewrite <- (app_nil_r enc). by eapply ra_bind. Qed.

Lemma takes_reads_as {A} n (dec : bytes → A) f enc a :
  takes n dec f → length enc = n → dec enc = a → reads_as f enc a.
Proof.
  intros Hf Hl <-. split.
  - intros t. specialize (Hf (enc ++ t)). rewrite decide_True in Hf by (rewrite length_app; lia).
    rewrite Hf, take_app_length', drop_app_length' by done. done.
  - intros p x -> Hx. specialize (Hf p). rewrite decide_False in Hf; [done|]. rewrite length_app in Hl.
    destruct x; [done|]. simpl in Hl. lia.
Qed.

Lemma read_exact_reads_as enc n : n = Z.of_nat (length enc) → reads_as (read_exact n) enc enc.
Proof.
  intros ->. unfold read_exact. split.
  - intros t. rewrite length_app, (proj2 (Z.ltb_ge _ _)) by lia. by rewrite Nat2Z.id, take_app_length, drop_app_length.
  - intros p x -> Hx. rewrite length_app, (proj2 (Z.ltb_lt _ _)); [by eexists _, _|]. destruct x; [done|]. simpl. lia.
Qed.

Lemma cstring_app s t : x00 ∉ s → cstring (s ++ x00 :: t) = Some (s, t).
Proof.
  intros Hs. unfold cstring. assert (Hf : list_find (λ x, x = x00) (s ++ x00 :: t) = Some (length s, x00)).
  { apply list_find_Some. split; [by rewrite list_lookup_middle|]. split; [done|]. intros j y Hj Hlt ->.
    rewrite lookup_app_l in Hj by done. apply Hs. by eapply list_elem_of_lookup_2. }
  rewrite Hf. simpl. rewrite take_app_length. replace (S (length s)) with (length s + 1)%nat by lia.
  by rewrite <- drop_drop, drop_app_length.
Qed.

Lemma cstring_none b : x00 ∉ b → cstring b = None.
Proof.
  intros Hb. unfold cstring. rewrite (proj2 (list_find_None _ _)); [done|]. apply Forall_forall. intros x Hx ->. done.
Qed.

(** A part of a terminated string has no terminator. *)
Lemma cstring_short s p x : x00 ∉ s → s ++ [x00] = p ++ x → x ≠ [] → cstring p = None.
Proof.
  intros Hs Heq Hx. apply cstring_none. destruct (exists_last Hx) as (x' & c & ->). rewrite app_assoc in Heq.
  apply app_inj_tail in Heq as [-> _]. set_solver.
Qed.

Lemma read_message_reads_as s : x00 ∉ s → utf8_valid s = true → reads_as read_message (s ++ [x00]) s.
Proof.
  intros Hs Hu. unfold read_message. split.
  - intros t. rewrite <- app_assoc. simpl. by rewrite cstring_app, Hu.
  - intros p x Heq Hx. rewrite (cstring_short s p x) by done. by eexists _, _.
Qed.

(** ** Messages as bytes *)

Definition enc_hdr (v : PagestreamProtocolVersion) (hdr : PagestreamRequest) : bytes :=
  match v with V3 => be_bytes 8 (psr_reqid hdr) | V2 => [] end ++
  be_bytes 8 (psr_request_lsn hdr) ++ be_bytes 8 (psr_not_modified_since hdr).
Definition enc_rel (rel : RelTag) : bytes :=
  be_bytes 4 (spcnode rel) ++ be_bytes 4 (dbnode rel) ++ be_bytes 4 (relnode rel) ++ be_bytes 1 (forknum rel).

Definition enc_request (msg : PagestreamFeMessage) : bytes :=
  match msg with
  | FeExists req => enc_rel (exq_rel req)
  | FeNblocks req => enc_rel (nbq_rel req)
  | FeGetPage req => enc_rel (gpq_rel req) ++ be_bytes 4 (gpq_blkno req)
  | FeDbSize req => be_bytes 4 (dbq_dbnode req)
  | FeGetSlruSegment req => be_bytes 1 (slq_kind req) ++ be_bytes 4 (slq_segno req)
  end.
Definition enc_fe (v : PagestreamProtocolVersion) (msg : PagestreamFeMessage) : bytes :=
  be_bytes 1 (messageTag msg) ++ enc_hdr v (request_hdr msg) ++ enc_request msg.

Definition response_hdr (msg : PagestreamBeMessage) : PagestreamRequest :=
  match msg with
  | BeExists resp => exq_hdr (exp_req resp)
  | BeNblocks resp => nbq_hdr (nbp_req resp)
  | BeGetPage resp => gpq_hdr (gpp_req resp)
  | BeError resp => erp_req resp
  | BeDbSize resp => dbq_hdr (dbp_req resp)
  | BeGetSlruSegment resp => slq_hdr (slp_req resp)
  end.
Definition response_tag (msg : PagestreamBeMessage) : PagestreamBeMessageTag :=
  match msg with
  | BeExists _ => BeTagExists | BeNblocks _ => BeTagNblocks | BeGetPage _ => BeTagGetPage | BeError _ => BeTagError
  | BeDbSize _ => BeTagDbSize | BeGetSlruSegment _ => BeTagGetSlruSegment
  end.
(** The request that a response repeats *)
Definition enc_repeated (msg : PagestreamBeMessage) : bytes :=
  match msg with
  | BeExists resp => enc_rel (exq_rel (exp_req resp))
  | BeNblocks resp => enc_rel (nbq_rel (nbp_req resp))
  | BeGetPage resp => enc_rel (gpq_rel (gpp_req resp)) ++ be_bytes 4 (gpq_blkno (gpp_req resp))
  | BeError _ => []
  | BeDbSize resp => be_bytes 4 (dbq_dbnode (dbp_req resp))
  | BeGetSlruSegment resp => be_bytes 1 (slq_kind (slp_req resp)) ++ be_bytes 4 (slq_segno (slp_req resp))
  end.
Definition enc_result (msg : PagestreamBeMessage) : bytes :=
  match msg with
  | BeExists resp => be_bytes 1 (Z.b2z (exp_exists resp))
  | BeNblocks resp => be_bytes 4 (nbp_n_blocks resp)
  | BeGetPage resp => gpp_page resp
  | BeError resp => erp_message resp ++ [x00]
  | BeDbSize resp => be_bytes 8 (dbp_db_size resp)
  | BeGetSlruSegment resp => be_bytes 4 (segment_blocks (slp_segment resp)) ++ slp_segment resp
  end.
Definition enc_be (v : PagestreamProtocolVersion) (msg : PagestreamBeMessage) : bytes :=
  be_bytes 1 (be_tag (response_tag msg)) ++
  match v with V2 => [] | V3 => enc_hdr V3 (response_hdr msg) ++ enc_repeated msg end ++ enc_result msg.

Section views.
Context {M : Type} `{BufMutLaws M}.

Ltac views := autorewrite with buf_view; simpl; rewrite <- ?app_assoc; reflexivity.

Lemma nm_pack_request_view v msg (b : M) : bufmut_view (nm_pack_request v msg b) = bufmut_view b ++ enc_fe v msg.
Proof. unfold nm_pack_request, enc_fe, enc_hdr, send_rinfo. destruct msg, v; simpl; unfold enc_rel; views. Qed.

Lemma fe_serialize_view msg (b : M) : bufmut_view (PagestreamFeMessage_serialize msg b) = bufmut_view b ++ enc_fe V3 msg.
Proof. unfold PagestreamFeMessage_serialize, enc_fe, enc_hdr, put_rel, put_hdr. destruct msg; simpl; unfold enc_rel; views. Qed.

Lemma be_serialize_view v msg (b : M) : bufmut_view (PagestreamBeMessage_serialize msg v b) = bufmut_view b ++ enc_be v msg.
Proof. unfold PagestreamBeMessage_serialize, enc_be, enc_hdr, put_rel, put_hdr. destruct msg, v; simpl; unfold enc_rel; views. Qed.
End views.

(** ** Well-formed messages

    The fields fit into the types of both sides; the number of a segment is an [int] in C. *)

Definition hdr_ok (hdr : PagestreamRequest) : Prop :=
  in_u 64 (psr_reqid hdr) ∧ in_u 64 (psr_request_lsn hdr) ∧ in_u 64 (psr_not_modified_since hdr).
Definition rel_ok (rel : RelTag) : Prop :=
  in_u 32 (spcnode rel) ∧ in_u 32 (dbnode rel) ∧ in_u 32 (relnode rel) ∧ in_u 8 (forknum rel).
Definition fe_ok (msg : PagestreamFeMessage) : Prop :=
  hdr_ok (request_hdr msg) ∧
  match msg with
  | FeExists req => rel_ok (exq_rel req)
  | FeNblocks req => rel_ok (nbq_rel req)
  | FeGetPage req => rel_ok (gpq_rel req) ∧ in_u 32 (gpq_blkno req)
  | FeDbSize req => in_u 32 (dbq_dbnode req)
  | FeGetSlruSegment req => in_u 8 (slq_kind req) ∧ in_u 31 (slq_segno req)
  end.

(** The request that a response is for *)
Definition response_req (msg : PagestreamBeMessage) : option PagestreamFeMessage :=
  match msg with
  | BeExists resp => Some (FeExists (exp_req resp))
  | BeNblocks resp => Some (FeNblocks (nbp_req resp))
  | BeGetPage resp => Some (FeGetPage (gpp_req resp))
  | BeError _ => None
  | BeDbSize resp => Some (FeDbSize (dbp_req resp))
  | BeGetSlruSegment resp => Some (FeGetSlruSegment (slp_req resp))
  end.

(** Pages have the size of a page; a segment has whole blocks, not more than the compute has room
    for; a message is text without zero bytes. *)
Definition be_ok (msg : PagestreamBeMessage) : Prop :=
  hdr_ok (response_hdr msg) ∧ (∀ req, response_req msg = Some req → fe_ok req) ∧
  match msg with
  | BeExists _ => True
  | BeNblocks resp => in_u 32 (nbp_n_blocks resp)
  | BeGetPage resp => Z.of_nat (length (gpp_page resp)) = PAGE_SIZE
  | BeError resp => x00 ∉ erp_message resp ∧ utf8_valid (erp_message resp) = true
  | BeDbSize resp => - 2 ^ 63 ≤ dbp_db_size resp < 2 ^ 63
  | BeGetSlruSegment resp =>
    ∃ n, 0 ≤ n ≤ SLRU_PAGES_PER_SEGMENT ∧ Z.of_nat (length (slp_segment resp)) = n * PAGE_SIZE
  end.

(** What is left of a request in version 2 *)
Definition seen_hdr (v : PagestreamProtocolVersion) (hdr : PagestreamRequest) : PagestreamRequest :=
  match v with V3 => hdr | V2 => mkPagestreamRequest 0 (psr_request_lsn hdr) (psr_not_modified_since hdr) end.
Definition seen_fe (v : PagestreamProtocolVersion) (msg : PagestreamFeMessage) : PagestreamFeMessage :=
  match msg with
  | FeExists req => FeExists (mkExistsRequest (seen_hdr v (exq_hdr req)) (exq_rel req))
  | FeNblocks req => FeNblocks (mkNblocksRequest (seen_hdr v (nbq_hdr req)) (nbq_rel req))
  | FeGetPage req => FeGetPage (mkGetPageRequest (seen_hdr v (gpq_hdr req)) (gpq_rel req) (gpq_blkno req))
  | FeDbSize req => FeDbSize (mkDbSizeRequest (seen_hdr v (dbq_hdr req)) (dbq_dbnode req))
  | FeGetSlruSegment req =>
    FeGetSlruSegment (mkGetSlruSegmentRequest (seen_hdr v (slq_hdr req)) (slq_kind req) (slq_segno req))
  end.
(** and of a response *)
Definition seen_be (v : PagestreamProtocolVersion) (msg : PagestreamBeMessage) : PagestreamBeMessage :=
  match v with
  | V3 => msg
  | V2 =>
    match msg with
    | BeExists resp => BeExists (mkExistsResponse (mkExistsRequest zero_hdr zero_rel) (exp_exists resp))
    | BeNblocks resp => BeNblocks (mkNblocksResponse (mkNblocksRequest zero_hdr zero_rel) (nbp_n_blocks resp))
    | BeGetPage resp => BeGetPage (mkGetPageResponse (mkGetPageRequest zero_hdr zero_rel 0) (gpp_page resp))
    | BeError resp => BeError (mkErrorResponse zero_hdr (erp_message resp))
    | BeDbSize resp => BeDbSize (mkDbSizeResponse (mkDbSizeRequest zero_hdr 0) (dbp_db_size resp))
    | BeGetSlruSegment resp =>
      BeGetSlruSegment (mkGetSlruSegmentResponse (mkGetSlruSegmentRequest zero_hdr 0 0) (slp_segment resp))
    end
  end.

(** ** The readers of the pageserver *)

Lemma in_u_31 x : in_u 31 x → in_u 32 x.
Proof. unfold in_u. lia. Qed.

Lemma be_u n w x : w = 8 * Z.of_nat n → in_u w x → be_value (be_bytes n x) = x.
Proof. apply be_roundtrip. Qed.

Section rust.
Context `{ReadBytesExtLaws}.

Lemma read_u8_as x : in_u 8 x → reads_as read_u8 (be_bytes 1 x) x.
Proof. intros Hx. eapply takes_reads_as; [apply read_u8_takes|apply length_be_bytes|by apply (be_u 1 8)]. Qed.
Lemma read_u32_as x : in_u 32 x → reads_as read_u32 (be_bytes 4 x) x.
Proof. intros Hx. eapply takes_reads_as; [apply read_u32_takes|apply length_be_bytes|by apply (be_u 4 32)]. Qed.
Lemma read_u64_as x : in_u 64 x → reads_as read_u64 (be_bytes 8 x) x.
Proof. intros Hx. eapply takes_reads_as; [apply read_u64_takes|apply length_be_bytes|by apply (be_u 8 64)]. Qed.

Lemma be_i64 x : - 2 ^ 63 ≤ x < 2 ^ 63 → to_signed 64 (be_value (be_bytes 8 x)) = x.
Proof. intros Hx. rewrite be_value_bytes. by apply (to_signed_roundtrip 64). Qed.

Lemma read_i64_as x : - 2 ^ 63 ≤ x < 2 ^ 63 → reads_as read_i64 (be_bytes 8 x) x.
Proof. intros Hx. eapply takes_reads_as; [apply read_i64_takes|apply length_be_bytes|by apply be_i64]. Qed.

Lemma read_rel_as rel : rel_ok rel → reads_as read_rel (enc_rel rel) rel.
Proof.
  intros (H1 & H2 & H3 & H4). unfold read_rel, enc_rel. eapply ra_bind; [by apply read_u32_as|]. eapply ra_bind; [by apply read_u32_as|].
  eapply ra_bind; [by apply read_u32_as|]. eapply ra_bind_r; [by apply read_u8_as|]. destruct rel. apply ra_ret.
Qed.

Lemma read_hdr_as v hdr : hdr_ok hdr → reads_as (read_hdr v) (enc_hdr v hdr) (seen_hdr v hdr).
Proof.
  intros (H1 & H2 & H3). unfold read_hdr, enc_hdr. eapply (ra_bind _ _ _ _ (psr_reqid (seen_hdr v hdr))).
  { destruct v; [apply ra_ret|by apply read_u64_as]. }
  eapply ra_bind; [by apply read_u64_as|]. eapply ra_bind_r; [by apply read_u64_as|]. destruct v, hdr; apply ra_ret.
Qed.

Lemma fe_parse_as v msg : fe_ok msg → reads_as (PagestreamFeMessage_parse v) (enc_fe v msg) (seen_fe v msg).
Proof.
  intros [Hh Hm]. unfold PagestreamFeMessage_parse, enc_fe. eapply ra_bind; [by apply read_u8_as; destruct msg|].
  eapply ra_bind; [by apply read_hdr_as|]. destruct msg as [req|req|req|req|req]; simpl in *.
  - eapply ra_bind_r; [by apply read_rel_as|apply ra_ret].
  - eapply ra_bind_r; [by apply read_rel_as|apply ra_ret].
  - destruct Hm. eapply ra_bind; [by apply read_rel_as|]. eapply ra_bind_r; [by apply read_u32_as|apply ra_ret].
  - eapply ra_bind_r; [by apply read_u32_as|apply ra_ret].
  - destruct Hm. eapply ra_bind; [by apply read_u8_as|]. eapply ra_bind_r; [by apply read_u32_as, in_u_31|apply ra_ret].
Qed.

Lemma segment_blocks_eq segment n :
  0 ≤ n < 2 ^ 32 → Z.of_nat (length segment) = n * PAGE_SIZE → segment_blocks segment = n.
Proof. intros Hn Hl. unfold segment_blocks. rewrite Hl, Z.div_mul by done. unfold wrap. by rewrite Z.mod_small by lia. Qed.

Lemma read_response_as msg :
  be_ok msg → reads_as (read_response (response_tag msg)) (enc_hdr V3 (response_hdr msg) ++ enc_repeated msg ++ enc_result msg) msg.
Proof.
  intros (Hh & Hq & Hm). unfold read_response. eapply ra_bind; [by apply read_hdr_as|]. change (seen_hdr V3 (response_hdr msg)) with (response_hdr msg).
  destruct msg as [[[hdr rel] e]|[[hdr rel] n]|[[hdr rel blkno] page]|[hdr message]|[[hdr db] size]|[[hdr kind segno] segment]]; simpl in *;
    try (specialize (Hq _ eq_refl) as [_ Hq]; simpl in Hq).
  - eapply ra_bind; [by apply read_rel_as|]. eapply ra_bind_r; [apply read_u8_as; by destruct e|]. destruct e; apply ra_ret.
  - eapply ra_bind; [by apply read_rel_as|]. eapply ra_bind_r; [by apply read_u32_as|apply ra_ret].
  - destruct Hq. rewrite <- app_assoc. eapply ra_bind; [by apply read_rel_as|]. eapply ra_bind; [by apply read_u32_as|].
    eapply ra_bind_r; [by apply read_exact_reads_as|apply ra_ret].
  - destruct Hm. eapply ra_bind_r; [by apply read_message_reads_as|apply ra_ret].
  - eapply ra_bind; [by apply read_u32_as|]. eapply ra_bind_r; [by apply read_i64_as|apply ra_ret].
  - destruct Hq, Hm as (n & Hn & Hl). assert (Hn' : 0 ≤ n < 2 ^ 32) by (unfold SLRU_PAGES_PER_SEGMENT in Hn; lia).
    rewrite (segment_blocks_eq segment n) by done. rewrite <- app_assoc. eapply ra_bind; [by apply read_u8_as|]. eapply ra_bind; [by apply read_u32_as, in_u_31|].
    eapply ra_bind; [by apply read_u32_as|]. eapply ra_bind_r; [by apply read_exact_reads_as|apply ra_ret].
Qed.

Lemma be_try_from t : PagestreamBeMessageTag_try_from (be_tag t) = Ok t.
Proof. by destruct t. Qed.

Lemma be_deserialize_as msg : be_ok msg → ends_as PagestreamBeMessage_deserialize (enc_be V3 msg) msg.
Proof.
  intros Hm. assert (Heq : enc_be V3 msg = be_bytes 1 (be_tag (response_tag msg)) ++ [] ++
    (enc_hdr V3 (response_hdr msg) ++ enc_repeated msg ++ enc_result msg) ++ []) by (unfold enc_be; by rewrite app_nil_r, <- !app_assoc).
  rewrite Heq. unfold PagestreamBeMessage_deserialize. eapply ea_bind; [by apply read_u8_as; destruct msg|].
  rewrite be_try_from. eapply ea_bind; [apply ra_ret|]. eapply ea_bind; [by apply read_response_as|].
  unfold mbind, ST_bind, st_get, mret, ST_ret. split; [done| |].
  - intros p x [-> ->]%eq_sym%app_nil. done.
  - intros t Ht. simpl. rewrite bool_decide_false by done. by eexists _, _.
Qed.
End rust.

(** ** The readers of the compute *)

Section compute.
Context `{PqFormatLaws}.

Lemma getmsgbyte_as x : in_u 8 x → reads_as pq_getmsgbyte (be_bytes 1 x) x.
Proof. intros Hx. eapply takes_reads_as; [apply pq_getmsgbyte_takes|apply length_be_bytes|by apply (be_u 1 8)]. Qed.
Lemma getmsgint4_as x : in_u 32 x → reads_as pq_getmsgint4 (be_bytes 4 x) x.
Proof. intros Hx. eapply takes_reads_as; [apply pq_getmsgint4_takes|apply length_be_bytes|by apply (be_u 4 32)]. Qed.
Lemma getmsgint64_as x : - 2 ^ 63 ≤ x < 2 ^ 63 → reads_as pq_getmsgint64 (be_bytes 8 x) x.
Proof. intros Hx. eapply takes_reads_as; [apply pq_getmsgint64_takes|apply length_be_bytes|by apply be_i64]. Qed.

Lemma wrap_to_signed x : in_u 64 x → wrap 64 (to_signed 64 x) = x.
Proof.
  unfold in_u, wrap, to_signed. intros Hx. destruct (_ <? _); [by apply Z.mod_small|].
  rewrite <- Zminus_mod_idemp_r, Z_mod_same_full, Z.sub_0_r. by apply Z.mod_small.
Qed.

Lemma getmsg_uint64_as x : in_u 64 x → reads_as getmsg_uint64 (be_bytes 8 x) x.
Proof.
  intros Hx. unfold getmsg_uint64. eapply ra_bind_r.
  - eapply takes_reads_as; [apply pq_getmsgint64_takes|apply length_be_bytes|done].
  - simpl. rewrite (be_u 8 64), wrap_to_signed by done. apply ra_ret.
Qed.

Lemma getmsgbytes_as enc n : n = Z.of_nat (length enc) → reads_as (pq_getmsgbytes n) enc enc.
Proof. intros ->. eapply takes_reads_as; [apply pq_getmsgbytes_takes; lia|by rewrite Nat2Z.id|done]. Qed.

Lemma getmsgrawstring_as s : x00 ∉ s → reads_as pq_getmsgrawstring (s ++ [x00]) s.
Proof.
  intros Hs. split.
  - intros t. pose proof (pq_getmsgrawstring_spec ((s ++ [x00]) ++ t)) as Hr. rewrite <- app_assoc in Hr |- *. simpl in Hr |- *.
    by rewrite cstring_app in Hr.
  - intros p x Heq Hx. pose proof (pq_getmsgrawstring_spec p) as Hr. by rewrite (cstring_short s p x) in Hr.
Qed.

Lemma getmsgend_as {A} (a : A) : ends_as (_ ← pq_getmsgend; mret a) [] a.
Proof.
  unfold mbind, ST_bind. split.
  - pose proof (pq_getmsgend_spec []) as Hr. rewrite decide_True in Hr by done. by rewrite Hr.
  - intros p x [-> ->]%eq_sym%app_nil. done.
  - intros t Ht. pose proof (pq_getmsgend_spec t) as Hr. rewrite decide_False in Hr by done. destruct Hr as (e & b & Hr). simpl. rewrite Hr. by eexists _, _.
Qed.

Lemma ea_last {A B} (m : ST bytes string A) (f : A → B) enc a :
  reads_as m enc a → ends_as (x ← m; _ ← pq_getmsgend; mret (f x)) enc (f a).
Proof. intros Hm. rewrite <- (app_nil_r enc). eapply ea_bind; [exact Hm|apply getmsgend_as]. Qed.

Lemma if_v3_as {A} v (m : ST bytes string A) zero enc a :
  reads_as m enc a → reads_as (if_v3 v m zero) (match v with V3 => enc | V2 => [] end) (match v with V3 => a | V2 => zero end).
Proof. intros Hm. destruct v; [apply ra_ret|exact Hm]. Qed.

Lemma getmsg_hdr_as v hdr :
  hdr_ok hdr → reads_as (getmsg_hdr v) (match v with V3 => enc_hdr V3 hdr | V2 => [] end) (match v with V3 => hdr | V2 => zero_hdr end).
Proof.
  intros (H1 & H2 & H3). apply if_v3_as. unfold enc_hdr. eapply ra_bind; [by apply getmsg_uint64_as|]. eapply ra_bind; [by apply getmsg_uint64_as|].
  eapply ra_bind_r; [by apply getmsg_uint64_as|]. destruct hdr. apply ra_ret.
Qed.

Lemma getmsg_rinfo_as rel : rel_ok rel → reads_as getmsg_rinfo (enc_rel rel) rel.
Proof.
  intros (H1 & H2 & H3 & H4). unfold getmsg_rinfo, enc_rel. eapply ra_bind; [by apply getmsgint4_as|]. eapply ra_bind; [by apply getmsgint4_as|].
  eapply ra_bind; [by apply getmsgint4_as|]. eapply ra_bind_r; [by apply getmsgbyte_as|]. destruct rel. apply ra_ret.
Qed.

Lemma to_signed_small w x : in_u (w - 1) x → to_signed w x = x.
Proof. unfold in_u, to_signed. intros [_ Hx]. by rewrite (proj2 (Z.ltb_lt _ _)). Qed.

Lemma getmsg_int_as x : in_u 31 x → reads_as getmsg_int (be_bytes 4 x) x.
Proof.
  intros Hx. eapply ra_bind_r; [apply getmsgint4_as; by apply in_u_31|]. rewrite (to_signed_small 32) by done. apply ra_ret.
Qed.

Lemma ra_assert c : c = true → reads_as (st_assert c) [] tt.
Proof. intros ->. apply ra_ret. Qed.

Lemma getmsg_segment_as segment n :
  0 ≤ n ≤ SLRU_PAGES_PER_SEGMENT → Z.of_nat (length segment) = n * PAGE_SIZE →
  reads_as getmsg_segment (be_bytes 4 n ++ segment) segment.
Proof.
  unfold SLRU_PAGES_PER_SEGMENT. intros Hn Hl. unfold getmsg_segment. eapply ra_bind; [apply getmsg_int_as; unfold in_u; lia|].
  eapply (ra_bind _ _ []); [apply ra_assert, bool_decide_eq_true; unfold PAGE_SIZE; lia|].
  eapply ra_bind_r; [by apply getmsgbytes_as|]. eapply ra_bind_r; [apply ra_assert, Z.leb_le; unfold SLRU_PAGES_PER_SEGMENT; lia|apply ra_ret].
Qed.

Lemma unpack_as v msg : be_ok msg → ends_as (nm_unpack_response v) (enc_be v msg) (seen_be v msg).
Proof.
  intros (Hh & Hq & Hm).
  assert (Heq : enc_be v msg = be_bytes 1 (be_tag (response_tag msg)) ++ match v with V3 => enc_hdr V3 (response_hdr msg) | V2 => [] end
    ++ match v with V3 => enc_repeated msg | V2 => [] end ++ enc_result msg) by (unfold enc_be; destruct v; by rewrite <- ?app_assoc).
  rewrite Heq. unfold nm_unpack_response. eapply ea_bind; [by apply getmsgbyte_as; destruct msg|]. eapply ea_bind; [by apply getmsg_hdr_as|].
  destruct msg as [[[hdr rel] e]|[[hdr rel] n]|[[hdr rel blkno] page]|[hdr message]|[[hdr db] size]|[[hdr kind segno] segment]]; simpl in *;
    try (specialize (Hq _ eq_refl) as [_ Hq]; simpl in Hq).
  - eapply ea_bind; [by apply if_v3_as, getmsg_rinfo_as|].
    pose proof (ea_last pq_getmsgbyte (λ x, BeExists (mkExistsResponse (mkExistsRequest (match v with V3 => hdr | V2 => zero_hdr end)
      (match v with V3 => rel | V2 => zero_rel end)) (negb (x =? 0)))) _ _ (getmsgbyte_as (Z.b2z e) ltac:(by destruct e))) as Hl.
    destruct v, e; exact Hl.
  - eapply ea_bind; [by apply if_v3_as, getmsg_rinfo_as|].
    pose proof (ea_last pq_getmsgint4 (λ x, BeNblocks (mkNblocksResponse (mkNblocksRequest (match v with V3 => hdr | V2 => zero_hdr end)
      (match v with V3 => rel | V2 => zero_rel end)) x)) _ _ (getmsgint4_as n Hm)) as Hl. destruct v; exact Hl.
  - destruct Hq as [Hrel Hblk].
    assert (Hsplit : match v with V3 => enc_rel rel ++ be_bytes 4 blkno | V2 => [] end ++ page =
      match v with V3 => enc_rel rel | V2 => [] end ++ match v with V3 => be_bytes 4 blkno | V2 => [] end ++ page) by (destruct v; by rewrite <- ?app_assoc).
    rewrite Hsplit. eapply ea_bind; [by apply if_v3_as, getmsg_rinfo_as|]. eapply ea_bind; [by apply if_v3_as, getmsgint4_as|].
    pose proof (ea_last (pq_getmsgbytes PAGE_SIZE) (λ x, BeGetPage (mkGetPageResponse (mkGetPageRequest (match v with V3 => hdr | V2 => zero_hdr end)
      (match v with V3 => rel | V2 => zero_rel end) (match v with V3 => blkno | V2 => 0 end)) x)) _ _ (getmsgbytes_as page _ (eq_sym Hm))) as Hl.
    destruct v; exact Hl.
  - destruct Hm as [Hz _].
    pose proof (ea_last pq_getmsgrawstring (λ x, BeError (mkErrorResponse (match v with V3 => hdr | V2 => zero_hdr end) x)) _ _ (getmsgrawstring_as message Hz)) as Hl.
    destruct v; exact Hl.
  - eapply ea_bind; [by apply if_v3_as, getmsgint4_as|].
    pose proof (ea_last pq_getmsgint64 (λ x, BeDbSize (mkDbSizeResponse (mkDbSizeRequest (match v with V3 => hdr | V2 => zero_hdr end)
      (match v with V3 => db | V2 => 0 end)) x)) _ _ (getmsgint64_as size Hm)) as Hl. destruct v; exact Hl.
  - destruct Hq as [Hk Hs], Hm as (n & Hn & Hlen).
    rewrite (segment_blocks_eq segment n) by (unfold SLRU_PAGES_PER_SEGMENT in Hn; done || lia).
    assert (Hsplit : match v with V3 => be_bytes 1 kind ++ be_bytes 4 segno | V2 => [] end ++ be_bytes 4 n ++ segment =
      match v with V3 => be_bytes 1 kind | V2 => [] end ++ match v with V3 => be_bytes 4 segno | V2 => [] end ++ be_bytes 4 n ++ segment)
      by (destruct v; by rewrite <- ?app_assoc).
    rewrite Hsplit. eapply ea_bind; [by apply if_v3_as, getmsgbyte_as|]. eapply ea_bind; [by apply if_v3_as, getmsg_int_as|].
    pose proof (ea_last getmsg_segment (λ x, BeGetSlruSegment (mkGetSlruSegmentResponse (mkGetSlruSegmentRequest (match v with V3 => hdr | V2 => zero_hdr end)
      (match v with V3 => kind | V2 => 0 end) (match v with V3 => segno | V2 => 0 end)) x)) _ _ (getmsg_segment_as segment n Hn Hlen)) as Hl.
    destruct v; exact Hl.
Qed.
End compute.

(** ** Requests and answers *)

Inductive Answer :=
| AnsExists (exists_ : bool)
| AnsNblocks (n_blocks : Z)
| AnsPage (page : bytes)
| AnsDbSize (db_size : Z)
| AnsSegment (data : bytes).

(** What the compute makes of a response to its request *)
Definition communicator_answer (v : PagestreamProtocolVersion) (req : PagestreamFeMessage) (resp : PagestreamBeMessage) :
    outcome bytes Answer :=
  match req with
  | FeExists r => AnsExists <$> communicator_exists v r resp
  | FeNblocks r => AnsNblocks <$> communicator_nblocks v r resp
  | FeGetPage r => AnsPage <$> communicator_read_page v r resp
  | FeDbSize r => AnsDbSize <$> communicator_dbsize v r resp
  | FeGetSlruSegment r => AnsSegment <$> communicator_read_slru_segment v r resp
  end.

(** What the pageserver answered *)
Definition answer_of (resp : PagestreamBeMessage) : outcome bytes Answer :=
  match resp with
  | BeExists r => Ok (AnsExists (exp_exists r))
  | BeNblocks r => Ok (AnsNblocks (nbp_n_blocks r))
  | BeGetPage r => Ok (AnsPage (gpp_page r))
  | BeError r => Err (erp_message r)
  | BeDbSize r => Ok (AnsDbSize (dbp_db_size r))
  | BeGetSlruSegment r => Ok (AnsSegment (slp_segment r))
  end.

(** A response that repeats the request, or an error *)
Definition responds_to (req : PagestreamFeMessage) (resp : PagestreamBeMessage) : Prop :=
  match response_req resp with Some req' => req' = req | None => response_hdr resp = request_hdr req end.

Lemma seen_fe_ok v req : fe_ok req → fe_ok (seen_fe v req).
Proof. intros [(H1 & H2 & H3) Hr]. destruct v, req; simpl in *; (split; [by split|done]). Qed.

Lemma equal_requests_iff a b : equal_requests a b = true ↔ a = b.
Proof. destruct a, b. unfold equal_requests. simpl. rewrite !andb_true_iff, !Z.eqb_eq. split; [by intros [[-> ->] ->]|intros ?; by simplify_eq]. Qed.

Lemma rel_equal a b : RelFileInfoEquals a b = true → forknum a = forknum b → a = b.
Proof. destruct a, b. unfold RelFileInfoEquals. simpl. rewrite !andb_true_iff, !Z.eqb_eq. by intros [[-> ->] ->] ->. Qed.
Lemma rel_equal_refl a : RelFileInfoEquals a a = true.
Proof. unfold RelFileInfoEquals. by rewrite !Z.eqb_refl. Qed.

#[export] Instance PagestreamRequest_eq_dec : EqDecision PagestreamRequest.
Proof. solve_decision. Defined.
#[export] Instance RelTag_eq_dec : EqDecision RelTag.
Proof. solve_decision. Defined.
#[export] Instance PagestreamFeMessage_eq_dec : EqDecision PagestreamFeMessage.
Proof. unfold EqDecision, Decision. repeat decide equality; apply RelTag_eq_dec || apply PagestreamRequest_eq_dec || apply Z.eq_dec. Defined.

Lemma matching_v3 {A B} (b : bool) (f : A → B) (a : A) (P : Prop) `{Decision P} :
  (b = true ↔ P) → f <$> matching V3 b a = if decide P then Ok (f a) else Panic.
Proof. intros Hb. unfold matching. destruct b, (decide P); try done; exfalso; naive_solver. Qed.

(** In version 3 the compute takes the answer exactly when the response repeats its request. *)
Lemma answer_v3 req resp req' :
  response_req resp = Some req' →
  communicator_answer V3 req resp = if decide (req' = req) then answer_of resp else Panic.
Proof.
  intros Hr. destruct resp as [[r ?]|[r ?]|[r ?]|?|[r ?]|[r ?]]; simplify_eq/=; destruct req as [q|q|q|q|q]; cbn -[fmap matching decide]; try (by rewrite decide_False).
  all: erewrite matching_v3; [reflexivity|destruct r, q; simpl; rewrite ?andb_true_iff, ?equal_requests_iff, ?Z.eqb_eq].
  all: split; [intros; destruct_and!; subst; repeat f_equal; auto using rel_equal|intros ?; simplify_eq; auto 10 using rel_equal_refl].
Qed.

(** What the compute reads from the answer of the pageserver *)
Lemma answer_seen v req resp :
  responds_to (seen_fe v req) resp → communicator_answer v req (seen_be v resp) = answer_of resp.
Proof.
  destruct (response_req resp) as [req'|] eqn:Hr; unfold responds_to; rewrite Hr.
  - destruct v; intros ->.
    + destruct resp, req; simplify_eq/=; done.
    + rewrite (answer_v3 _ _ _ Hr). replace (seen_fe V3 req) with req by (by destruct req as [[]|[]|[]|[]|[]]). by rewrite decide_True.
  - intros _. destruct resp; simplify_eq/=. by destruct v, req.
Qed.

(** ** The protocol as a whole *)

Section protocol.
Context `{BufMutLaws StringInfo, BufMutLaws BytesMut, ReadBytesExtLaws, PqFormatLaws}.
Variables (empty_s : StringInfo) (empty_b : BytesMut).
Hypothesis Hs : bufmut_view empty_s = [].
Hypothesis Hb : bufmut_view empty_b = [].

(** C10: A request of the compute is answered by what the pageserver says to it, in both versions
    of the protocol.  The pageserver parses the packed request to the same request (without its id
    in version 2), and whatever well-formed response to it or error it serializes, the compute
    unpacks it, accepts it and returns the answer in it, or raises its error. *)
Theorem pagestream_call v req (serve : PagestreamFeMessage → PagestreamBeMessage) :
  fe_ok req → (∀ r, fe_ok r → be_ok (serve r) ∧ responds_to r (serve r)) →
  ∃ r resp,
    PagestreamFeMessage_parse v (bufmut_view (nm_pack_request v req empty_s)) = (Ok r, []) ∧
    r = seen_fe v req ∧
    nm_unpack_response v (bufmut_view (PagestreamBeMessage_serialize (serve r) v empty_b)) = (Ok resp, []) ∧
    communicator_answer v req resp = answer_of (serve r).
Proof.
  intros Hreq Hserve. destruct (Hserve (seen_fe v req)) as [Hok Hto]; [by apply seen_fe_ok|].
  eexists _, (seen_be v (serve (seen_fe v req))). rewrite nm_pack_request_view, be_serialize_view, Hs, Hb. simpl.
  split; [|split; [reflexivity|split]].
  - rewrite <- (app_nil_r (enc_fe v req)). by apply (ra_ok _ _ _ (fe_parse_as v req Hreq)).
  - apply (ea_ok _ _ _ (unpack_as v _ Hok)).
  - by apply answer_seen.
Qed.

(** C33: What is not a message is refused.  The pageserver fails on a request that is cut off, the
    compute on a response that is cut off or has bytes after its end; in version 3 it takes the
    answer of a response exactly when the response repeats its own request, and panics otherwise. *)
Theorem pagestream_refuses v req resp :
  fe_ok req → be_ok resp →
  (∀ p x, bufmut_view (nm_pack_request v req empty_s) = p ++ x → x ≠ [] →
    ∃ e b, PagestreamFeMessage_parse v p = (Err e, b)) ∧
  (∀ p x, bufmut_view (PagestreamBeMessage_serialize resp v empty_b) = p ++ x → x ≠ [] →
    ∃ e b, nm_unpack_response v p = (Err e, b)) ∧
  (∀ t, t ≠ [] → ∃ e b, nm_unpack_response v (bufmut_view (PagestreamBeMessage_serialize resp v empty_b) ++ t) = (Err e, b)) ∧
  (∀ req', response_req resp = Some req' → ∃ resp',
    nm_unpack_response V3 (bufmut_view (PagestreamBeMessage_serialize resp V3 empty_b)) = (Ok resp', []) ∧
    communicator_answer V3 req resp' = if decide (req' = req) then answer_of resp else Panic).
Proof.
  intros Hreq Hresp. rewrite nm_pack_request_view, !be_serialize_view, Hs, Hb. simpl. split_and!.
  - apply (ra_short _ _ _ (fe_parse_as v req Hreq)).
  - apply (ea_short _ _ _ (unpack_as v resp Hresp)).
  - apply (ea_long _ _ _ (unpack_as v resp Hresp)).
  - intros req' Hr. exists resp. split; [apply (ea_ok _ _ _ (unpack_as V3 resp Hresp))|by apply answer_v3].
Qed.

(** The Rust code of the two directions, used by clients of the pageserver written in Rust:
    [parse] inverts [PagestreamFeMessage::serialize], leaving what follows the request, and
    [deserialize] inverts [PagestreamBeMessage::serialize] and refuses a response that is cut off
    or too long. *)
Theorem pagestream_roundtrip req resp :
  fe_ok req → be_ok resp →
  (∀ t, PagestreamFeMessage_parse V3 (bufmut_view (PagestreamFeMessage_serialize req empty_b) ++ t) = (Ok req, t)) ∧
  PagestreamBeMessage_deserialize (bufmut_view (PagestreamBeMessage_serialize resp V3 empty_b)) = (Ok resp, []) ∧
  (∀ p x, bufmut_view (PagestreamBeMessage_serialize resp V3 empty_b) = p ++ x → x ≠ [] →
    ∃ e b, PagestreamBeMessage_deserialize p = (Err e, b)) ∧
  (∀ t, t ≠ [] → ∃ e b, PagestreamBeMessage_deserialize (bufmut_view (PagestreamBeMessage_serialize resp V3 empty_b) ++ t) = (Err e, b)).
Proof.
  intros Hreq Hresp. rewrite fe_serialize_view, !be_serialize_view, Hb. simpl.
  destruct (be_deserialize_as resp Hresp) as [Hok Hshort Hlong]. split_and!; [|done..].
  intros t. rewrite (ra_ok _ _ _ (fe_parse_as V3 req Hreq)). by destruct req as [[]|[]|[]|[]|[]].
Qed.
End protocol.

(** ** Readers of byte lists, and the theorems at a request for a page *)

Module ListReaders.
Definition take_bytes {A} (n : nat) (dec : bytes → A) : ST bytes string A := λ b,
  if decide (n ≤ length b)%nat then (Ok (dec (take n b)), drop n b) else (Err "unexpected end"%string, b).

#[export] Instance list_ReadBytesExt : ReadBytesExt := {|
  read_u8 := take_bytes 1 be_value;
  read_u32 := take_bytes 4 be_value;
  read_u64 := take_bytes 8 be_value;
  read_i64 := take_bytes 8 (to_signed 64 ∘ be_value);
|}.
#[export] Instance list_PqFormat : PqFormat := {|
  pq_getmsgbyte := take_bytes 1 be_value;
  pq_getmsgint4 := take_bytes 4 be_value;
  pq_getmsgint64 := take_bytes 8 (to_signed 64 ∘ be_value);
  pq_getmsgbytes n := take_bytes (Z.to_nat n) id;
  pq_getmsgrawstring b := match cstring b with Some (s, rest) => (Ok s, rest) | None => (Err "invalid string in message"%string, b) end;
  pq_getmsgend b := if decide (b = []) then (Ok tt, b) else (Err "invalid message format"%string, b);
|}.

Lemma take_bytes_takes {A} n (dec : bytes → A) : takes n dec (take_bytes n dec).
Proof. intros b. unfold take_bytes. case_decide; [done|by eexists _, _]. Qed.

#[export] Instance list_ReadBytesExtLaws : ReadBytesExtLaws.
Proof. split; apply take_bytes_takes. Qed.
#[export] Instance list_PqFormatLaws : PqFormatLaws.
Proof.
  split; intros; try apply take_bytes_takes; simpl.
  - destruct (cstring b) as [[s rest]|]; [done|by eexists _, _].
  - case_decide; [done|by eexists _, _].
Qed.

Definition page_hdr : PagestreamRequest := mkPagestreamRequest 7 (2 ^ 63) 16.
Definition page_request : PagestreamFeMessage :=
  FeGetPage (mkGetPageRequest page_hdr {| forknum := 0; spcnode := 1663; dbnode := 5; relnode := 16384 |} 3).
(** A server with one page and one database, that says no to the rest *)
Definition serve (r : PagestreamFeMessage) : PagestreamBeMessage :=
  match r with
  | FeDbSize q => BeDbSize (mkDbSizeResponse q 8192)
  | FeGetPage q => BeGetPage (mkGetPageResponse q (repeat x01 8192))
  | _ => BeError (mkErrorResponse (request_hdr r) [x6e; x6f])
  end.

Lemma view_nil : bufmut_view ([] : bytes) = [].
Proof. reflexivity. Qed.

Lemma page_request_ok : fe_ok page_request.
Proof. by repeat split. Qed.

Lemma serve_ok r : fe_ok r → be_ok (serve r) ∧ responds_to r (serve r).
Proof.
  intros Hr. pose proof Hr as [Hh Hq].
  assert (Hno : x00 ∉ [x6e; x6f] ∧ utf8_valid [x6e; x6f] = true) by (split; [set_solver|by vm_compute]).
  destruct r; (split; [|done]); (split; [done|]); (split; [by intros ? [= <-]|]); done.
Qed.
End ListReaders.

Section witnesses.
Import ListReaders.

Lemma pagestream_call_witness : ∃ r resp,
  PagestreamFeMessage_parse V2 (bufmut_view (nm_pack_request V2 page_request ([] : bytes))) = (Ok r, []) ∧
  r = seen_fe V2 page_request ∧
  nm_unpack_response V2 (bufmut_view (PagestreamBeMessage_serialize (serve r) V2 ([] : bytes))) = (Ok resp, []) ∧
  communicator_answer V2 page_request resp = answer_of (serve r).
Proof. apply (pagestream_call ([] : bytes) ([] : bytes) view_nil view_nil V2 page_request serve page_request_ok serve_ok). Defined.

Lemma pagestream_refuses_witness : ∃ e b,
  PagestreamFeMessage_parse V3 (take 20 (bufmut_view (nm_pack_request V3 page_request ([] : bytes)))) = (Err e, b).
Proof.
  destruct (pagestream_refuses ([] : bytes) ([] : bytes) view_nil view_nil V3 page_request (serve page_request) page_request_ok (proj1 (serve_ok _ page_request_ok))) as [Hshort _].
  apply (Hshort _ (drop 20 (bufmut_view (nm_pack_request V3 page_request ([] : bytes)))));
    [symmetry; apply take_drop|by vm_compute].
Defined.

Lemma pagestream_roundtrip_witness :
  PagestreamBeMessage_deserialize (bufmut_view (PagestreamBeMessage_serialize (serve page_request) V3 ([] : bytes))) = (Ok (serve page_request), []).
Proof. apply (pagestream_roundtrip ([] : bytes) view_nil page_request (serve page_request) page_request_ok (proj1 (serve_ok _ page_request_ok))). Defined.
End witnesses.
