(* ===== verification/ComputeHook.v ===== *)
(** * Notifications to the computes

    [storage_controller/src/compute_hook.rs]: for every tenant the pageservers of its shards, the
    lock that a notification of the control plane is sent under, with what the control plane is
    known to have, and the two phases of [ComputeHook::notify].

    The locks are in a store, an [Arc] is an index into it; a guard is the lock being held, and
    dropping it releases the lock.  What is done under the lock of the hook is one operation.  The
    notification of [neon_local] is left out. *)

From S2P Require Import Prelude Bytes Text Membership Ids Scheduler Reconciler.

(** ** The state *)

Record ComputeHookNotifyRequestShard := mkNotifyRequestShard { nrs_node_id : NodeId; nrs_shard_number : ShardNumber }.

Record ComputeHookNotifyRequest := mkNotifyRequest {
  nr_tenant_id : TenantId;
  nr_preferred_az : option AvailabilityZone;
  nr_stripe_size : option Z;
  nr_shards : list ComputeHookNotifyRequestShard;
}.
#[export] Instance ComputeHookNotifyRequestShard_eq_dec : EqDecision ComputeHookNotifyRequestShard.
Proof. solve_decision. Defined.
#[export] Instance ComputeHookNotifyRequest_eq_dec : EqDecision ComputeHookNotifyRequest.
Proof. solve_decision. Defined.

Record ComputeRemoteState := mkComputeRemoteState { crs_request : ComputeHookNotifyRequest; crs_applied : bool }.
#[export] Instance ComputeRemoteState_eq_dec : EqDecision ComputeRemoteState.
Proof. solve_decision. Defined.

(** [Arc<tokio::sync::Mutex<Option<ComputeRemoteState>>>] *)
Abbreviation LockId := nat.
Record SendLock := mkSendLock { sl_held : bool; sl_content : option ComputeRemoteState }.

Record UnshardedComputeHookTenant := mkUnshardedTenant {
  uct_node_id : NodeId;
  uct_preferred_az : option AvailabilityZone;
  uct_send_lock : LockId;
}.
Record ShardedComputeHookTenant := mkShardedTenant {
  sct_stripe_size : Z;
  sct_shard_count : ShardCount;
  sct_shards : list (ShardNumber * NodeId);
  sct_preferred_az : option AvailabilityZone;
  sct_send_lock : LockId;
}.
#[export] Instance ShardedComputeHookTenant_settable : Settable ShardedComputeHookTenant := λ t,
  mkShardedTenant (sct_stripe_size t) (sct_shard_count t) (sct_shards t) (sct_preferred_az t) (sct_send_lock t).

Inductive ComputeHookTenant := Unsharded (t : UnshardedComputeHookTenant) | Sharded (t : ShardedComputeHookTenant).

Record ShardUpdate := mkShardUpdate {
  su_tenant_shard_id : TenantShardId;
  su_node_id : NodeId;
  su_stripe_size : Z;
  su_preferred_az : option AvailabilityZone;
}.

Record ComputeHook := mkComputeHook {
  ch_state : gmap TenantId ComputeHookTenant;
  ch_locks : list SendLock;
}.
#[export] Instance ComputeHook_settable : Settable ComputeHook := λ h, mkComputeHook (ch_state h) (ch_locks h).

Definition ComputeHook_new : ComputeHook := mkComputeHook ∅ [].

Definition get_send_lock (self : ComputeHookTenant) : LockId :=
  match self with Unsharded t => uct_send_lock t | Sharded t => sct_send_lock t end.
Definition is_sharded (self : ComputeHookTenant) : bool := match self with Sharded _ => true | Unsharded _ => false end.

Inductive MaybeSendResult :=
| Transmit (request : ComputeHookNotifyRequest) (lock : LockId)
| AwaitLock (lock : LockId)
| Noop.

Definition number_le (a b : ShardNumber * NodeId) : Prop := a.1 ≤ b.1.
#[export] Instance number_le_dec : RelDecision number_le := λ a b, Z_le_dec a.1 b.1.

(** ** Locks *)

Section hook.
Context {E : Type}.
Local Abbreviation M A := (ST ComputeHook E A).

(** [Arc::default()] *)
Definition new_lock : M LockId :=
  self ← st_get;
  _ ← st_modify (λ self, self <| ch_locks := ch_locks self ++ [mkSendLock false None] |>);
  mret (length (ch_locks self)).

Definition get_lock (lock : LockId) : M SendLock := self ← st_get; st_lift (unwrap (ch_locks self !! lock)).
Definition set_lock (lock : LockId) (l : SendLock) : M unit :=
  st_modify (λ self, self <| ch_locks := <[lock := l]> (ch_locks self) |>).

(** [try_lock_owned] *)
Definition try_lock (lock : LockId) : M bool :=
  l ← get_lock lock;
  if sl_held l then mret false else _ ← set_lock lock (mkSendLock true (sl_content l)); mret true.

(** The guard is dropped. *)
Definition unlock (lock : LockId) : M unit :=
  l ← get_lock lock; set_lock lock (mkSendLock false (sl_content l)).

(** ** One tenant *)

Definition ComputeHookTenant_new (tenant_shard_id : TenantShardId) (stripe_size : Z) (preferred_az : option AvailabilityZone)
    (node_id : NodeId) : M ComputeHookTenant :=
  send_lock ← new_lock;
  mret (if 1 <? ShardCount_count (shard_count tenant_shard_id) then
          Sharded (mkShardedTenant stripe_size (shard_count tenant_shard_id) [(shard_number tenant_shard_id, node_id)]
            preferred_az send_lock)
        else Unsharded (mkUnshardedTenant node_id preferred_az send_lock)).

(** The index of a shard *)
Definition shard_position (number : ShardNumber) (shards : list (ShardNumber * NodeId)) : option nat :=
  fst <$> list_find (λ s, s.1 = number) shards.

(** The stripe size and count of the shard are only compared for a warning. *)
Definition remove_shard (self : ComputeHookTenant) (tenant_shard_id : TenantShardId) (stripe_size : Z) :
    outcome E ComputeHookTenant :=
  match self with
  | Sharded sharded =>
    match shard_position (shard_number tenant_shard_id) (sct_shards sharded) with
    | Some shard_idx => Ok (Sharded (sharded <| sct_shards := delete shard_idx (sct_shards sharded) |>))
    | None => Ok self
    end
  | Unsharded _ => Panic
  end.

(** [sort_by_key(|s| s.0)] *)
Definition sort_shards (shards : list (ShardNumber * NodeId)) : list (ShardNumber * NodeId) :=
  merge_sort number_le shards.

Definition set_shard (number : ShardNumber) (node_id : NodeId) (shards : list (ShardNumber * NodeId)) :
    list (ShardNumber * NodeId) :=
  match shard_position number shards with
  | Some existing => alter (λ s, (s.1, node_id)) existing shards
  | None => sort_shards (shards ++ [(number, node_id)])
  end.

Definition ComputeHookTenant_update (self : ComputeHookTenant) (shard_update : ShardUpdate) : M ComputeHookTenant :=
  let tenant_shard_id := su_tenant_shard_id shard_update in
  let node_id := su_node_id shard_update in
  let stripe_size := su_stripe_size shard_update in
  let preferred_az := su_preferred_az shard_update in
  let reset := ComputeHookTenant_new tenant_shard_id stripe_size preferred_az node_id in
  match self with
  | Unsharded unsharded_tenant =>
    if ShardCount_count (shard_count tenant_shard_id) =? 1 then
      mret (Unsharded (mkUnshardedTenant node_id preferred_az (uct_send_lock unsharded_tenant)))
    else reset
  | Sharded sharded_tenant =>
    if (sct_stripe_size sharded_tenant =? stripe_size) && (sct_shard_count sharded_tenant =? shard_count tenant_shard_id)
    then
      mret (Sharded (sharded_tenant
        <| sct_shards := set_shard (shard_number tenant_shard_id) node_id (sct_shards sharded_tenant) |>
        <| sct_preferred_az := preferred_az |>))
    else reset
  end.

(** The request of [maybe_send]: [None] while not all shards are known *)
Definition notify_request (self : ComputeHookTenant) (tenant_id : TenantId) : option ComputeHookNotifyRequest :=
  match self with
  | Unsharded t =>
    Some (mkNotifyRequest tenant_id (uct_preferred_az t) None [mkNotifyRequestShard (uct_node_id t) 0])
  | Sharded t =>
    if Z.of_nat (length (sct_shards t)) =? ShardCount_count (sct_shard_count t) then
      Some (mkNotifyRequest tenant_id (sct_preferred_az t) (Some (sct_stripe_size t))
        ((λ s, mkNotifyRequestShard s.2 s.1) <$> sct_shards t))
    else None
  end.

Definition maybe_send (self : ComputeHookTenant) (tenant_id : TenantId) (lock : option LockId) : M MaybeSendResult :=
  locked ←
    match lock with
    | Some already_locked => mret (Some already_locked)
    | None => ok ← try_lock (get_send_lock self); mret (if (ok : bool) then Some (get_send_lock self) else None)
    end;
  match locked with
  | None => mret (AwaitLock (get_send_lock self))
  | Some locked =>
    l ← get_lock locked;
    match notify_request self tenant_id with
    | None => _ ← unlock locked; mret Noop
    | Some request =>
      if bool_decide (Some request = crs_request <$> sl_content l) && default false (crs_applied <$> sl_content l)
      then _ ← unlock locked; mret Noop
      else mret (Transmit request locked)
    end
  end.

(** ** Notifications *)

Definition notify_prepare (shard_update : ShardUpdate) : M MaybeSendResult :=
  let id := tenant_id (su_tenant_shard_id shard_update) in
  self ← st_get;
  tenant ←
    match ch_state self !! id with
    | None =>
      ComputeHookTenant_new (su_tenant_shard_id shard_update) (su_stripe_size shard_update)
        (su_preferred_az shard_update) (su_node_id shard_update)
    | Some tenant => ComputeHookTenant_update tenant shard_update
    end;
  _ ← st_modify (λ self, self <| ch_state := <[id := tenant]> (ch_state self) |>);
  maybe_send tenant id None.

(** [notify_execute] after [AwaitLock], once it has the lock: what to send, if anything *)
Definition notify_locked (id : TenantId) (send_locked : LockId) : M (option (ComputeHookNotifyRequest * LockId)) :=
  self ← st_get;
  match ch_state self !! id with
  | None => _ ← unlock send_locked; mret None
  | Some tenant =>
    r ← maybe_send tenant id (Some send_locked);
    match r with
    | AwaitLock _ => st_panic
    | Noop => mret None
    | Transmit request lock => mret (Some (request, lock))
    end
  end.

(** The end of [notify_execute]: what is known of the control plane then *)
Definition store_result (request : ComputeHookNotifyRequest) (lock : LockId) (result : unit + NotifyError) : M unit :=
  set_lock lock (mkSendLock false
    match result with
    | inl _ => Some (mkComputeRemoteState request true)
    | inr NotifyBusy => Some (mkComputeRemoteState request false)
    | inr _ => None
    end).

Definition handle_detach (tenant_shard_id : TenantShardId) (stripe_size : Z) : M unit :=
  self ← st_get;
  match ch_state self !! tenant_id tenant_shard_id with
  | None => mret tt
  | Some tenant =>
    if negb (is_sharded tenant) then
      st_modify (λ self, self <| ch_state := delete (tenant_id tenant_shard_id) (ch_state self) |>)
    else
      tenant ← st_lift (remove_shard tenant tenant_shard_id stripe_size);
      st_modify (λ self, self <| ch_state := <[tenant_id tenant_shard_id := tenant]> (ch_state self) |>)
  end.

(** The synchronous part of [notify_background]; the rest executes each of them. *)
Fixpoint notify_background (notifications : list ShardUpdate) : M (list (TenantShardId * MaybeSendResult)) :=
  match notifications with
  | [] => mret []
  | shard_update :: notifications =>
    maybe_send_result ← notify_prepare shard_update;
    maybe_sends ← notify_background notifications;
    mret ((su_tenant_shard_id shard_update, maybe_send_result) :: maybe_sends)
  end.
End hook.

(** ** The request to the control plane *)

(** The status of the response, [None] for a request that fails *)
Definition do_notify_iteration (answer : option StatusCode) : unit + NotifyError :=
  match answer with
  | None => inr NotifyRequest
  | Some status =>
    if (200 <=? status) && (status <? 300) then inl tt
    else if status =? 429 then inr NotifySlowDown
    else if status =? 423 then inr NotifyBusy
    else if (status =? 503) || (status =? 504) || (status =? 502) then inr (NotifyUnavailable status)
    else if (status =? 400) || (status =? 401) || (status =? 403) then inr (NotifyFatal status)
    else inr (NotifyUnexpected status)
  end.

Definition notify_permanent (e : NotifyError) : bool :=
  match e with NotifyFatal _ | NotifyUnexpected _ | NotifyBusy => true | _ => false end.

(** [backoff::retry] with the answers to the attempts; after them the token is cancelled. *)
Fixpoint do_notify_from (attempts : Z) (answers : list (option StatusCode)) : unit + NotifyError :=
  match answers with
  | [] => inr NotifyShuttingDown
  | answer :: answers =>
    match do_notify_iteration answer with
    | inl _ => inl tt
    | inr e =>
      if notify_permanent e then inr e
      else if (attempts <? 3) || (attempts <? 10) then do_notify_from (attempts + 1) answers
      else inr e
    end
  end.
Definition do_notify (answers : list (option StatusCode)) : unit + NotifyError := do_notify_from 0 answers.
