(* ===== verification/ComputeHookProps.v ===== *)
(** * What the computes are told

    The hook keeps for every tenant the layout of its shards, and has a request exactly when every
    shard has a pageserver; with calls of [notify] that wait for each other, fail and are cancelled,
    the computes have the current layout once the call for the last change has succeeded, unless the
    tenant got another lock while a call was under way. *)

From S2P Require Import Prelude Bytes Text Membership Ids Scheduler Reconciler ComputeHook.

(** ** Layouts *)

(** Where the shards of a tenant are; [lo_sharding] is the stripe size and the count of a sharded
    tenant. *)
Record Layout := mkLayout {
  lo_sharding : option (Z * ShardCount);
  lo_nodes : gmap ShardNumber NodeId;
  lo_az : option AvailabilityZone;
}.

Inductive HookOp := OpUpdate (shard_update : ShardUpdate) | OpDetach (tenant_shard_id : TenantShardId) (stripe_size : Z).

Definition op_tenant (op : HookOp) : TenantId :=
  match op with OpUpdate su => tenant_id (su_tenant_shard_id su) | OpDetach id _ => tenant_id id end.

(** The sharding of an update; an unsharded tenant has one shard, with number 0 *)
Definition sharding_of (id : TenantShardId) (stripe_size : Z) : option (Z * ShardCount) :=
  if 1 <? ShardCount_count (shard_count id) then Some (stripe_size, shard_count id) else None.
Definition number_of (id : TenantShardId) : ShardNumber :=
  if 1 <? ShardCount_count (shard_count id) then shard_number id else 0.

(** An update with the sharding of the layout adds to it, with another one it starts a new layout;
    a detach removes the shard, the last layout of an unsharded tenant with it. *)
Definition layout_op (op : HookOp) (l : option Layout) : option Layout :=
  match op, l with
  | OpUpdate su, _ =>
    let id := su_tenant_shard_id su in
    let sharding := sharding_of id (su_stripe_size su) in
    let nodes := match l with
      | Some l => if decide (lo_sharding l = sharding) then lo_nodes l else ∅
      | None => ∅
      end in
    Some (mkLayout sharding (<[number_of id := su_node_id su]> nodes) (su_preferred_az su))
  | OpDetach _ _, None => None
  | OpDetach id _, Some l =>
    match lo_sharding l with
    | None => None
    | Some _ => Some (mkLayout (lo_sharding l) (delete (shard_number id) (lo_nodes l)) (lo_az l))
    end
  end.

Definition layout_count (l : Layout) : Z := match lo_sharding l with Some (_, count) => ShardCount_count count | None => 1 end.

(** A request lists all shards in order, if all have a node. *)
Definition layout_request (l : Layout) (id : TenantId) : option ComputeHookNotifyRequest :=
  shards ← mapM (λ k, (λ n, mkNotifyRequestShard n k) <$> lo_nodes l !! k) (seqZ 0 (layout_count l));
  Some (mkNotifyRequest id (lo_az l) (fst <$> lo_sharding l) shards).

(** *** The tenant of the hook *)

Definition tenant_layout (t : ComputeHookTenant) : Layout :=
  match t with
  | Unsharded t => mkLayout None {[ 0 := uct_node_id t ]} (uct_preferred_az t)
  | Sharded t => mkLayout (Some (sct_stripe_size t, sct_shard_count t)) (list_to_map (sct_shards t)) (sct_preferred_az t)
  end.

Definition tenant_wf (t : ComputeHookTenant) : Prop :=
  match t with
  | Unsharded _ => True
  | Sharded t =>
    1 < ShardCount_count (sct_shard_count t) ∧ StronglySorted Z.lt (sct_shards t).*1 ∧
    Forall (λ k, 0 ≤ k < ShardCount_count (sct_shard_count t)) (sct_shards t).*1
  end.

(** The number of a shard is below the count. *)
Definition hook_op_ok (op : HookOp) : Prop :=
  match op with
  | OpUpdate su => 0 ≤ shard_number (su_tenant_shard_id su) < ShardCount_count (shard_count (su_tenant_shard_id su))
  | OpDetach _ _ => True
  end.

Lemma sorted_lt_NoDup (l : list Z) : StronglySorted Z.lt l → NoDup l.
Proof.
  induction 1 as [|k l Hs IH Hall]; [apply NoDup_nil_2|]. apply NoDup_cons. split; [|done]. intros Hk.
  rewrite Forall_forall in Hall. specialize (Hall k Hk). lia.
Qed.

(** As many distinct numbers below [n] in order as there are, are all of them. *)
Lemma sorted_range (l : list Z) : ∀ lo n,
  StronglySorted Z.lt l → Forall (λ k, lo ≤ k < lo + n) l → Z.of_nat (length l) = n → l = seqZ lo n.
Proof.
  induction l as [|k l IH]; intros lo n Hs Hall Hlen; simpl in Hlen; [by subst|].
  apply Forall_cons in Hall as [Hk Hall]. inversion Hs as [|? ? Hs' Hgt]; subst.
  assert (Hle : (length l ≤ Z.to_nat (lo + Z.of_nat (S (length l)) - (k + 1)))%nat).
  { rewrite <- (length_seqZ (k + 1)). apply submseteq_length, NoDup_submseteq; [by apply sorted_lt_NoDup|].
    intros x Hx. rewrite Forall_forall in Hall, Hgt. specialize (Hall x Hx). specialize (Hgt x Hx). apply elem_of_seqZ. lia. }
  assert (k = lo) as -> by lia. rewrite seqZ_cons by lia. f_equal. apply (IH (lo + 1)); [done| |lia].
  apply Forall_forall. intros x Hx. rewrite Forall_forall in Hall, Hgt. specialize (Hall x Hx). specialize (Hgt x Hx). lia.
Qed.

Lemma shard_position_Some k (l : list (ShardNumber * NodeId)) i :
  shard_position k l = Some i → ∃ n l1 l2, l = l1 ++ (k, n) :: l2 ∧ i = length l1.
Proof.
  unfold shard_position. intros ([j [k' n]] & (Hl & Hk & _)%list_find_Some & ->)%fmap_Some. simpl in *. subst.
  destruct (list_elem_of_split_length _ _ _ Hl) as (l1 & l2 & -> & ->). by exists n, l1, l2.
Qed.

Lemma shard_position_None k (l : list (ShardNumber * NodeId)) : shard_position k l = None → k ∉ l.*1.
Proof.
  unfold shard_position. intros Hn%fmap_None. apply list_find_None in Hn. intros ([k' n] & -> & Hin)%list_elem_of_fmap.
  rewrite Forall_forall in Hn. by apply (Hn _ Hin).
Qed.

Lemma list_to_map_middle k n (l1 l2 : list (ShardNumber * NodeId)) :
  NoDup (l1.*1 ++ k :: l2.*1) →
  list_to_map (M := gmap Z NodeId) (l1 ++ (k, n) :: l2) = <[k := n]> (list_to_map (l1 ++ l2)) ∧
  list_to_map (M := gmap Z NodeId) (l1 ++ l2) !! k = None.
Proof.
  intros Hnd. rewrite <- Permutation_middle in Hnd. apply NoDup_cons in Hnd as [Hk Hnd].
  assert (Hnone : list_to_map (M := gmap Z NodeId) (l1 ++ l2) !! k = None).
  { apply not_elem_of_list_to_map_1. by rewrite fmap_app. }
  split; [|done]. change (<[k := n]> (list_to_map (l1 ++ l2))) with (list_to_map (M := gmap Z NodeId) ((k, n) :: l1 ++ l2)).
  apply list_to_map_proper; [|by rewrite Permutation_middle]. rewrite fmap_app. simpl. rewrite <- Permutation_middle. by apply NoDup_cons.
Qed.

Lemma sort_shards_sorted (l : list (ShardNumber * NodeId)) : NoDup l.*1 → StronglySorted Z.lt (sort_shards l).*1.
Proof.
  intros Hnd. unfold sort_shards. pose proof (merge_sort_Permutation number_le l) as Hp.
  assert (Hs : StronglySorted number_le (merge_sort number_le l)).
  { apply StronglySorted_merge_sort; unfold number_le; [intros ? ? ?; lia|intros ? ?; lia]. }
  rewrite <- Hp in Hnd. clear Hp. revert Hnd. induction Hs as [|x k Hs IH Hall]; intros Hnd; simpl in *; [constructor|]. apply NoDup_cons in Hnd as [Hx Hnd].
  constructor; [by apply IH|]. apply Forall_fmap, Forall_forall. intros y Hy. rewrite Forall_forall in Hall.
  specialize (Hall y Hy). unfold number_le in Hall. simpl. destruct (decide (x.1 = y.1)) as [He|]; [|lia].
  exfalso. apply Hx. rewrite He. apply list_elem_of_fmap. by exists y.
Qed.

(** Setting a shard in the list sets it in the map, and keeps the list sorted. *)
Lemma set_shard_spec k n (l : list (ShardNumber * NodeId)) :
  StronglySorted Z.lt l.*1 →
  list_to_map (M := gmap Z NodeId) (set_shard k n l) = <[k := n]> (list_to_map l) ∧
  StronglySorted Z.lt (set_shard k n l).*1 ∧ ∀ x, x ∈ (set_shard k n l).*1 → x = k ∨ x ∈ l.*1.
Proof.
  intros Hs. pose proof (sorted_lt_NoDup _ Hs) as Hnd. unfold set_shard. destruct (shard_position k l) as [i|] eqn:Hp.
  - apply shard_position_Some in Hp as (n' & l1 & l2 & -> & ->). rewrite fmap_app in *. simpl in *.
    replace (length l1) with (length l1 + 0)%nat by lia. rewrite alter_app_r. simpl. rewrite fmap_app. simpl. split; [|auto].
    destruct (list_to_map_middle k n l1 l2 Hnd) as [-> _]. destruct (list_to_map_middle k n' l1 l2 Hnd) as [-> _]. by rewrite insert_insert_eq.
  - apply shard_position_None in Hp.
    assert (Hnd' : NoDup (l ++ [(k, n)]).*1).
    { rewrite fmap_app. apply NoDup_app. split; [done|]. split; [|apply NoDup_singleton]. intros x Hx ->%list_elem_of_singleton. done. }
    assert (Hperm : sort_shards (l ++ [(k, n)]) ≡ₚ (k, n) :: l) by (unfold sort_shards; rewrite merge_sort_Permutation; by rewrite Permutation_app_comm).
    split; [|split; [by apply sort_shards_sorted|]].
    + change (<[k := n]> (list_to_map l)) with (list_to_map (M := gmap Z NodeId) ((k, n) :: l)). apply list_to_map_proper; [|done].
      by apply sorted_lt_NoDup, sort_shards_sorted.
    + intros x. rewrite Hperm. simpl. by rewrite elem_of_cons.
Qed.

Lemma remove_shard_spec k i (l : list (ShardNumber * NodeId)) :
  StronglySorted Z.lt l.*1 → shard_position k l = Some i →
  list_to_map (M := gmap Z NodeId) (delete i l) = delete k (list_to_map l) ∧
  StronglySorted Z.lt (delete i l).*1 ∧ ∀ x, x ∈ (delete i l).*1 → x ∈ l.*1.
Proof.
  intros Hs Hp. pose proof (sorted_lt_NoDup _ Hs) as Hnd. apply shard_position_Some in Hp as (n' & l1 & l2 & -> & ->).
  rewrite fmap_app in *. simpl in *. rewrite delete_middle, fmap_app.
  destruct (list_to_map_middle k n' l1 l2 Hnd) as [-> Hnone]. split; [by rewrite delete_insert_id|]. split; [|set_solver].
  clear -Hs. induction l1 as [|x l1 IH]; simpl in *; inversion Hs as [|? ? Hs' Hall]; subst; [done|]. constructor; [by apply IH|].
  apply Forall_app in Hall as [Ha Hb]. apply Forall_cons in Hb as [_ Hb]. by apply Forall_app.
Qed.

Lemma wf_length t :
  tenant_wf (Sharded t) →
  Z.of_nat (length (sct_shards t)) = ShardCount_count (sct_shard_count t) ↔
  ∀ k, 0 ≤ k < ShardCount_count (sct_shard_count t) → k ∈ (sct_shards t).*1.
Proof.
  intros (Hc & Hs & Hall). pose proof (sorted_lt_NoDup _ Hs) as Hnd. split.
  - intros Hl k Hk. rewrite (sorted_range (sct_shards t).*1 0 (ShardCount_count (sct_shard_count t))); [|done|done|by rewrite length_fmap].
    by apply elem_of_seqZ.
  - intros Hk. rewrite <- (length_fmap fst). set (n := ShardCount_count (sct_shard_count t)) in *.
    assert ((sct_shards t).*1 ≡ₚ seqZ 0 n) as ->; [|rewrite length_seqZ; lia].
    apply NoDup_Permutation; [done|apply NoDup_seqZ|]. intros k. rewrite elem_of_seqZ. split; [|intros; apply Hk; lia].
    rewrite Forall_forall in Hall. intros Hin. specialize (Hall k Hin). simpl in Hall. lia.
Qed.

(** The request of the hook is the one of the layout. *)
Lemma notify_request_layout t id : tenant_wf t → notify_request t id = layout_request (tenant_layout t) id.
Proof.
  intros Hwf. destruct t as [t|t]; [done|]. pose proof Hwf as (Hc & Hs & Hall). pose proof (wf_length t Hwf) as Hlen.
  pose proof (sorted_lt_NoDup _ Hs) as Hnd. unfold notify_request, layout_request. simpl.
  set (n := ShardCount_count (sct_shard_count t)) in *. change (layout_count _) with n.
  destruct (Z.eqb_spec (Z.of_nat (length (sct_shards t))) n) as [Hl|Hl].
  - assert (Hm : mapM (λ k, (λ m, mkNotifyRequestShard m k) <$> (list_to_map (sct_shards t) : gmap Z NodeId) !! k) (seqZ 0 n) =
      Some ((λ s, mkNotifyRequestShard s.2 s.1) <$> sct_shards t)).
    { apply mapM_Some. rewrite <- (sorted_range (sct_shards t).*1 0 n) by (done || by rewrite length_fmap).
      apply Forall2_fmap_l, Forall2_fmap_r, Forall_Forall2_diag, Forall_forall. intros [k m] Hin. simpl.
      by rewrite (elem_of_list_to_map_1 _ _ m). }
    unfold fmap in Hm. unfold fmap. by rewrite Hm.
  - destruct (mapM _ _) as [shards|] eqn:Hm; [|done]. exfalso. apply Hl, Hlen. intros k Hk. apply mapM_Some in Hm.
    assert (Hin : k ∈ seqZ 0 n) by (apply elem_of_seqZ; lia). apply list_elem_of_lookup in Hin as [i Hi].
    destruct (Forall2_lookup_l _ _ _ _ _ Hm Hi) as (y & _ & Hy). apply fmap_Some in Hy as (m & Hm' & _).
    apply elem_of_list_to_map_2 in Hm'. apply list_elem_of_fmap. by exists (k, m).
Qed.

(** *** Changes of a tenant *)

Definition free_lock : SendLock := mkSendLock false None.

(** The tenant keeps its lock, or gets a new one. *)
Definition lock_after (h h' : ComputeHook) (ot : option ComputeHookTenant) (lock : LockId) : Prop :=
  (h' = h ∧ get_send_lock <$> ot = Some lock) ∨
  (h' = h <| ch_locks := ch_locks h ++ [free_lock] |> ∧ lock = length (ch_locks h)).

Lemma count_positive count : 1 ≤ ShardCount_count count.
Proof. unfold ShardCount_count. destruct (Z.ltb_spec 0 count); lia. Qed.

Lemma new_tenant_spec {E} h ot su :
  hook_op_ok (OpUpdate su) →
  (∀ l, tenant_layout <$> ot = Some l → lo_sharding l ≠ sharding_of (su_tenant_shard_id su) (su_stripe_size su)) →
  ∃ t' h', ComputeHookTenant_new (E := E) (su_tenant_shard_id su) (su_stripe_size su) (su_preferred_az su) (su_node_id su) h = (Ok t', h') ∧
    lock_after h h' ot (get_send_lock t') ∧ tenant_wf t' ∧
    Some (tenant_layout t') = layout_op (OpUpdate su) (tenant_layout <$> ot).
Proof.
  intros Hok Hne. eexists _, _. split; [reflexivity|]. split.
  { right. split; [done|]. by destruct (1 <? _). }
  assert (Hnodes : match tenant_layout <$> ot with Some l => if decide (lo_sharding l = sharding_of (su_tenant_shard_id su) (su_stripe_size su))
    then lo_nodes l else ∅ | None => ∅ end = (∅ : gmap Z NodeId)).
  { destruct (tenant_layout <$> ot) as [l|]; [|done]. rewrite decide_False; [done|]. by apply Hne. }
  unfold layout_op. cbv zeta. rewrite Hnodes. unfold sharding_of, number_of. simpl in Hok.
  destruct (Z.ltb_spec 1 (ShardCount_count (shard_count (su_tenant_shard_id su)))) as [Hc|Hc]; [|done].
  split; [|done]. split; [done|]. split; [by repeat constructor|]. by apply Forall_singleton.
Qed.

Lemma update_spec {E} h t su :
  hook_op_ok (OpUpdate su) → tenant_wf t →
  ∃ t' h', ComputeHookTenant_update (E := E) t su h = (Ok t', h') ∧
    lock_after h h' (Some t) (get_send_lock t') ∧ tenant_wf t' ∧
    Some (tenant_layout t') = layout_op (OpUpdate su) (Some (tenant_layout t)).
Proof.
  intros Hok Hwf. pose proof (count_positive (shard_count (su_tenant_shard_id su))) as Hpos.
  destruct t as [t|t]; unfold ComputeHookTenant_update; cbv zeta.
  - destruct (Z.eqb_spec (ShardCount_count (shard_count (su_tenant_shard_id su))) 1) as [Hc|Hc].
    + eexists _, _. split; [reflexivity|]. split; [by left|]. split; [done|]. unfold layout_op. cbv zeta. unfold sharding_of, number_of. rewrite Hc.
      rewrite decide_True by done. simpl. by rewrite insert_singleton_eq.
    + apply (new_tenant_spec h (Some (Unsharded t))); [done|]. intros l [= <-]. simpl. unfold sharding_of. by rewrite (proj2 (Z.ltb_lt _ _)) by lia.
  - destruct Hwf as (Hc & Hs & Hall). destruct ((sct_stripe_size t =? su_stripe_size su) && (sct_shard_count t =? shard_count (su_tenant_shard_id su))) eqn:Heq.
    + apply andb_true_iff in Heq as [He1%Z.eqb_eq He2%Z.eqb_eq]. eexists _, _. split; [reflexivity|]. split; [by left|].
      destruct (set_shard_spec (shard_number (su_tenant_shard_id su)) (su_node_id su) (sct_shards t) Hs) as (Hmap & Hs' & Hin).
      split.
      * split; [done|]. split; [done|]. simpl. rewrite Forall_forall in *. intros k [->|Hk]%Hin; [|by apply Hall]. simpl in Hok. by rewrite He2.
      * unfold layout_op. cbv zeta. unfold sharding_of, number_of. rewrite <- He1, <- He2, (proj2 (Z.ltb_lt _ _)) by done.
        rewrite decide_True by done. simpl. by rewrite Hmap.
    + apply (new_tenant_spec h (Some (Sharded t))); [done|]. intros l [= <-]. simpl. unfold sharding_of.
      destruct (1 <? _); [|done]. intros [= He1 He2]. rewrite He1, He2, !Z.eqb_refl in Heq. done.
Qed.

(** What [maybe_send] sends, given the content of the lock *)
Definition to_send (t : ComputeHookTenant) (id : TenantId) (c : option ComputeRemoteState) : option ComputeHookNotifyRequest :=
  r ← notify_request t id; if decide (c = Some (mkComputeRemoteState r true)) then None else Some r.

Lemma known_iff r (c : option ComputeRemoteState) :
  bool_decide (Some r = crs_request <$> c) && default false (crs_applied <$> c) = bool_decide (c = Some (mkComputeRemoteState r true)).
Proof.
  apply Bool.eq_iff_eq_true. rewrite andb_true_iff, !bool_decide_eq_true. destruct c as [[r' a]|]; simpl; [|naive_solver].
  destruct a; naive_solver.
Qed.

Lemma maybe_send_locked {E} h t id l b c :
  ch_locks h !! l = Some (mkSendLock b c) →
  maybe_send (E := E) t id (Some l) h =
    match to_send t id c with
    | Some r => (Ok (Transmit r l), h)
    | None => (Ok Noop, h <| ch_locks := <[l := mkSendLock false c]> (ch_locks h) |>)
    end.
Proof.
  intros Hl. unfold maybe_send, unlock, get_lock, st_get, st_lift, mbind, ST_bind, mret, ST_ret. rewrite Hl. simpl. unfold to_send.
  destruct (notify_request t id) as [r|]; simpl; [|by rewrite Hl]. rewrite known_iff. case_bool_decide; case_decide; try done. by rewrite Hl.
Qed.

Lemma maybe_send_free {E} h t id c :
  ch_locks h !! get_send_lock t = Some (mkSendLock false c) →
  maybe_send (E := E) t id None h =
    match to_send t id c with
    | Some r => (Ok (Transmit r (get_send_lock t)), h <| ch_locks := <[get_send_lock t := mkSendLock true c]> (ch_locks h) |>)
    | None => (Ok Noop, h)
    end.
Proof.
  intros Hl. set (l := get_send_lock t) in *. pose proof (maybe_send_locked (E := E) (h <| ch_locks := <[l := mkSendLock true c]> (ch_locks h) |>) t id l true c) as Hs.
  transitivity (maybe_send (E := E) t id (Some l) (h <| ch_locks := <[l := mkSendLock true c]> (ch_locks h) |>)).
  { unfold maybe_send, try_lock, get_lock, st_get, st_lift, mbind, ST_bind, mret, ST_ret. fold l. rewrite Hl. done. }
  rewrite Hs; [|apply list_lookup_insert_eq; by eapply lookup_lt_Some]. destruct (to_send t id c); [done|]. simpl. destruct h as [st locks]. simpl in *.
  by rewrite list_insert_insert_eq, list_insert_id.
Qed.

Lemma maybe_send_held {E} h t id c :
  ch_locks h !! get_send_lock t = Some (mkSendLock true c) → maybe_send (E := E) t id None h = (Ok (AwaitLock (get_send_lock t)), h).
Proof. intros Hl. unfold maybe_send, try_lock, get_lock, st_get, st_lift, mbind, ST_bind, mret, ST_ret. by rewrite Hl. Qed.

(** ** Calls of [notify] *)

(** A call that waits for the lock; that has it, but has not looked at the tenant yet; that is sending
    the request it found, when there had been [seen] changes of the tenant, and the control plane may
    have applied it. *)
Inductive Phase :=
| Waiting (lock : LockId)
| Locked (lock : LockId)
| Sending (request : ComputeHookNotifyRequest) (lock : LockId) (seen : nat) (delivered : bool).

Definition phase_lock (p : Phase) : LockId := match p with Waiting l | Locked l | Sending _ l _ _ => l end.
Definition holds (p : Phase) : option LockId := match p with Waiting _ => None | Locked l | Sending _ l _ _ => Some l end.

(** [cl_change] is the number of changes of the tenant up to the one of the call. *)
Record HookCall := mkHookCall { cl_tenant : TenantId; cl_change : nat; cl_phase : Phase }.

(** [hs_computes] is what the control plane has applied to the computes, [hs_history] the changes,
    the latest first, and [hs_results] the results of the calls.  [hs_overtaken] are the tenants that
    got another lock while a call for them was not finished. *)
Record HookSys := mkHookSys {
  hs_hook : ComputeHook;
  hs_calls : gmap nat HookCall;
  hs_computes : gmap TenantId ComputeHookNotifyRequest;
  hs_history : list HookOp;
  hs_results : list (TenantId * nat * (unit + NotifyError));
  hs_overtaken : gset TenantId;
}.
#[export] Instance HookSys_settable : Settable HookSys := λ s,
  mkHookSys (hs_hook s) (hs_calls s) (hs_computes s) (hs_history s) (hs_results s) (hs_overtaken s).

Definition history_of (id : TenantId) (history : list HookOp) : list HookOp := filter (λ op, op_tenant op = id) history.
Definition layout_of (history : list HookOp) (id : TenantId) : option Layout := foldr layout_op None (history_of id history).
Definition changes (history : list HookOp) (id : TenantId) : nat := length (history_of id history).

Definition goes_on_with (c : nat) (call : HookCall) (s : HookSys) : HookSys := s <| hs_calls := <[c := call]> (hs_calls s) |>.
Definition ends_with (c : nat) (id : TenantId) (n : nat) (result : unit + NotifyError) (s : HookSys) : HookSys :=
  s <| hs_calls := delete c (hs_calls s) |> <| hs_results := (id, n, result) :: hs_results s |>.

(** A tenant that changes keeps the lock that the calls for it wait for or hold.  The code does not
    ensure it: with another number of shards, or after a detach, a tenant gets a new lock. *)
Definition locks_kept (s : HookSys) (id : TenantId) (h' : ComputeHook) : Prop :=
  map_Forall (λ _ call, cl_tenant call = id → get_send_lock <$> ch_state h' !! id = Some (phase_lock (cl_phase call))) (hs_calls s).
#[export] Instance locks_kept_dec s id h' : Decision (locks_kept s id h').
Proof. unfold locks_kept. apply _. Defined.

(** The tenants that were overtaken, after a change of [id] *)
Definition overtaken_by (s : HookSys) (id : TenantId) (h' : ComputeHook) : gset TenantId :=
  if decide (locks_kept s id h') then hs_overtaken s else {[ id ]} ∪ hs_overtaken s.

Definition started (r : MaybeSendResult) (n : nat) : option Phase :=
  match r with Transmit request l => Some (Sending request l n false) | AwaitLock l => Some (Waiting l) | Noop => None end.

Inductive hook_step (s : HookSys) : HookSys → Prop :=
| step_notify su c r h' id n :
  id = tenant_id (su_tenant_shard_id su) → n = S (changes (hs_history s) id) →
  hook_op_ok (OpUpdate su) → hs_calls s !! c = None →
  notify_prepare (E := Empty_set) su (hs_hook s) = (Ok r, h') →
  hook_step s
    (let s := s <| hs_hook := h' |> <| hs_history := OpUpdate su :: hs_history s |> <| hs_overtaken := overtaken_by s id h' |> in
     match started r n with Some p => goes_on_with c (mkHookCall id n p) s | None => ends_with c id n (inl tt) s end)
| step_acquire c id n l content :
  hs_calls s !! c = Some (mkHookCall id n (Waiting l)) → ch_locks (hs_hook s) !! l = Some (mkSendLock false content) →
  hook_step s (goes_on_with c (mkHookCall id n (Locked l))
    (s <| hs_hook := hs_hook s <| ch_locks := <[l := mkSendLock true content]> (ch_locks (hs_hook s)) |> |>))
| step_cancel c id n l :
  hs_calls s !! c = Some (mkHookCall id n (Waiting l)) → hook_step s (ends_with c id n (inr NotifyShuttingDown) s)
| step_look c id n l r h' :
  hs_calls s !! c = Some (mkHookCall id n (Locked l)) → notify_locked (E := Empty_set) id l (hs_hook s) = (Ok r, h') →
  hook_step s
    (match r with
     | Some (request, l) =>
       goes_on_with c (mkHookCall id n (Sending request l (changes (hs_history s) id) false)) (s <| hs_hook := h' |>)
     | None => ends_with c id n (inl tt) (s <| hs_hook := h' |>)
     end)
| step_deliver c id n request l seen delivered :
  hs_calls s !! c = Some (mkHookCall id n (Sending request l seen delivered)) →
  hook_step s (goes_on_with c (mkHookCall id n (Sending request l seen true)) (s <| hs_computes := <[id := request]> (hs_computes s) |>))
| step_answer c id n request l seen delivered answers h' :
  hs_calls s !! c = Some (mkHookCall id n (Sending request l seen delivered)) →
  (do_notify answers = inl tt → delivered = true) →
  store_result (E := Empty_set) request l (do_notify answers) (hs_hook s) = (Ok tt, h') →
  hook_step s (ends_with c id n (do_notify answers) (s <| hs_hook := h' |>))
| step_detach id stripe_size h' :
  handle_detach (E := Empty_set) id stripe_size (hs_hook s) = (Ok tt, h') →
  hook_step s (s <| hs_hook := h' |> <| hs_history := OpDetach id stripe_size :: hs_history s |>).

Definition hook_init : HookSys := mkHookSys ComputeHook_new ∅ ∅ [] [] ∅.

Inductive hook_reachable : HookSys → Prop :=
| hook_reachable_init : hook_reachable hook_init
| hook_reachable_step s s' : hook_reachable s → hook_step s s' → hook_reachable s'.

(** *** The invariant *)

Definition not_sending (s : HookSys) (id : TenantId) : Prop :=
  ∀ c n r l seen d, hs_calls s !! c ≠ Some (mkHookCall id n (Sending r l seen d)).

(** A tenant of the hook that was not overtaken *)
Definition kept_tenant (s : HookSys) (id : TenantId) (t : ComputeHookTenant) : Prop :=
  ch_state (hs_hook s) !! id = Some t ∧ id ∉ hs_overtaken s.

(** Every lock belongs to one tenant.  The calls for a tenant that was not overtaken use its lock, and
    what that says was applied is what the computes have, unless a call is sending. *)
Record hook_inv (owner : LockId → TenantId) (s : HookSys) : Prop := {
  hi_tenant id t : ch_state (hs_hook s) !! id = Some t →
    tenant_wf t ∧ owner (get_send_lock t) = id ∧ (get_send_lock t < length (ch_locks (hs_hook s)))%nat;
  hi_layout id : tenant_layout <$> ch_state (hs_hook s) !! id = layout_of (hs_history s) id;
  hi_call c id n p : hs_calls s !! c = Some (mkHookCall id n p) →
    owner (phase_lock p) = id ∧ (phase_lock p < length (ch_locks (hs_hook s)))%nat ∧ (n ≤ changes (hs_history s) id)%nat;
  hi_lock c id n p t : hs_calls s !! c = Some (mkHookCall id n p) → kept_tenant s id t → phase_lock p = get_send_lock t;
  hi_held l k : ch_locks (hs_hook s) !! l = Some k →
    sl_held k = true ↔ ∃ c id n p, hs_calls s !! c = Some (mkHookCall id n p) ∧ holds p = Some l;
  hi_unique c1 c2 call1 call2 l : hs_calls s !! c1 = Some call1 → hs_calls s !! c2 = Some call2 →
    holds (cl_phase call1) = Some l → holds (cl_phase call2) = Some l → c1 = c2;
  hi_sending c id n r l seen d t :
    hs_calls s !! c = Some (mkHookCall id n (Sending r l seen d)) → kept_tenant s id t →
    (d = true → hs_computes s !! id = Some r) ∧ (n ≤ seen)%nat ∧ (seen ≤ changes (hs_history s) id)%nat ∧
    (seen = changes (hs_history s) id → notify_request t id = Some r);
  hi_known id t b r : kept_tenant s id t →
    ch_locks (hs_hook s) !! get_send_lock t = Some (mkSendLock b (Some (mkComputeRemoteState r true))) →
    not_sending s id → hs_computes s !! id = Some r;
  hi_result id n : (id, n, inl tt) ∈ hs_results s →
    (n ≤ changes (hs_history s) id)%nat ∧
    (n = changes (hs_history s) id → ∀ t r, kept_tenant s id t → notify_request t id = Some r →
      not_sending s id ∧ ∃ b, ch_locks (hs_hook s) !! get_send_lock t = Some (mkSendLock b (Some (mkComputeRemoteState r true))));
}.

Definition idle (op : option Phase) : Prop := ∀ r l seen d, op ≠ Some (Sending r l seen d).

(** A call of a tenant begins, goes on or ends, when no other call holds the lock: its new phase is
    [op], the lock is [k], the rest is as before. *)
Section call.
Context (owner : LockId → TenantId) (s : HookSys) (c : nat) (id : TenantId) (n : nat) (l : LockId) (k0 k : SendLock).
Context (op : option Phase) (computes : gmap TenantId ComputeHookNotifyRequest) (results : list (TenantId * nat * (unit + NotifyError))).
Hypothesis Hinv : hook_inv owner s.
Hypothesis Hc : ∀ call, hs_calls s !! c = Some call → cl_tenant call = id ∧ phase_lock (cl_phase call) = l.
Hypothesis Hown : owner l = id.
Hypothesis Hl : ch_locks (hs_hook s) !! l = Some k0.
Hypothesis Hn : (n ≤ changes (hs_history s) id)%nat.
Hypothesis Hlock : ∀ t, kept_tenant s id t → get_send_lock t = l.
Hypothesis Hexcl : ∀ c' call, hs_calls s !! c' = Some call → c' ≠ c → holds (cl_phase call) ≠ Some l.
Hypothesis Hop : ∀ p, op = Some p → phase_lock p = l.
Hypothesis Hheld : sl_held k = true ↔ op ≫= holds = Some l.
Hypothesis Hcomp : ∀ id', id' ≠ id → computes !! id' = hs_computes s !! id'.
Hypothesis Hsend : ∀ r seen d t, op = Some (Sending r l seen d) → kept_tenant s id t →
  (d = true → computes !! id = Some r) ∧ (n ≤ seen)%nat ∧ (seen ≤ changes (hs_history s) id)%nat ∧
  (seen = changes (hs_history s) id → notify_request t id = Some r).
Hypothesis Hknown : ∀ t r, kept_tenant s id t → sl_content k = Some (mkComputeRemoteState r true) → idle op →
  computes !! id = Some r.
Hypothesis Hkept : ∀ t r, kept_tenant s id t → notify_request t id = Some r →
  sl_content k0 = Some (mkComputeRemoteState r true) → not_sending s id → sl_content k = Some (mkComputeRemoteState r true) ∧ idle op.
Hypothesis Hres : ∀ id' n', (id', n', inl tt) ∈ results → (id', n', inl tt) ∈ hs_results s ∨
  id' = id ∧ n' = n ∧ (n = changes (hs_history s) id → ∀ t r, kept_tenant s id t → notify_request t id = Some r →
    sl_content k = Some (mkComputeRemoteState r true) ∧ idle op).

Let calls := partial_alter (λ _, mkHookCall id n <$> op) c (hs_calls s).
Let s' := mkHookSys (hs_hook s <| ch_locks := <[l := k]> (ch_locks (hs_hook s)) |>) calls computes (hs_history s) results (hs_overtaken s).

Lemma calls_cases c' call : calls !! c' = Some call →
  (c' = c ∧ ∃ p, op = Some p ∧ call = mkHookCall id n p) ∨ (c' ≠ c ∧ hs_calls s !! c' = Some call).
Proof.
  unfold calls. destruct (decide (c' = c)) as [->|Hne].
  - rewrite lookup_partial_alter_eq. intros (p & Hp & ->)%fmap_Some. left. split; [done|]. by exists p.
  - rewrite lookup_partial_alter_ne by done. auto.
Qed.

Lemma calls_others c' call l' : calls !! c' = Some call → holds (cl_phase call) = Some l' →
  (c' = c ∧ l' = l) ∨ (c' ≠ c ∧ l' ≠ l ∧ hs_calls s !! c' = Some call).
Proof.
  intros [[-> (p & Hp & ->)]|[Hne Hc']]%calls_cases Hh; simpl in *.
  - left. split; [done|]. specialize (Hop _ Hp). destruct p; simplify_eq/=; done.
  - right. split; [done|]. split; [|done]. intros ->. by eapply Hexcl.
Qed.

Lemma idle_not_sending t : kept_tenant s id t → idle op ↔ not_sending s' id.
Proof.
  intros Ht. split.
  - intros Hidle c' n' r l' seen d Hc'. simpl in Hc'. destruct (calls_cases _ _ Hc') as [[-> (p & Hp & [=])]|[Hne Hc'']].
    + subst p. by eapply Hidle.
    + apply (Hexcl _ _ Hc'' Hne). simpl. f_equal. rewrite <- (Hlock _ Ht). by apply (hi_lock _ _ Hinv _ _ _ _ _ Hc'' Ht).
  - intros Hn' r l' seen d Hp. apply (Hn' c n r l' seen d). unfold s', calls. simpl. by rewrite lookup_partial_alter_eq, Hp.
Qed.

Lemma not_sending_others id' : id' ≠ id → not_sending s' id' ↔ not_sending s id'.
Proof.
  intros Hne. split; intros Hn' c' n' r l' seen d Hc'.
  - apply (Hn' c' n' r l' seen d). unfold s', calls. simpl. rewrite lookup_partial_alter_ne; [done|]. intros <-. by apply Hc in Hc' as [? _].
  - simpl in Hc'. destruct (calls_cases _ _ Hc') as [[-> (p & Hp & [=])]|[_ Hc'']]; [done|]. by eapply Hn'.
Qed.

Lemma lock_of_other id' t : ch_state (hs_hook s) !! id' = Some t → id' ≠ id → get_send_lock t ≠ l.
Proof. intros Ht Hne Heq. destruct (hi_tenant _ _ Hinv _ _ Ht) as (_ & Ho & _). congruence. Qed.

Lemma call_held l' k' : <[l := k]> (ch_locks (hs_hook s)) !! l' = Some k' →
  sl_held k' = true ↔ ∃ c id n p, calls !! c = Some (mkHookCall id n p) ∧ holds p = Some l'.
Proof.
  assert (Hlt : (l < length (ch_locks (hs_hook s)))%nat) by (by eapply lookup_lt_Some). intros Hk'. destruct (decide (l' = l)) as [->|Hne].
  - rewrite list_lookup_insert_eq in Hk' by done. injection Hk' as <-. rewrite Hheld. split.
    + intros (p & Hp & Hh)%bind_Some. exists c, id, n, p. unfold calls. by rewrite lookup_partial_alter_eq, Hp.
    + intros (c' & id' & n' & p & Hc' & Hp). destruct (calls_cases _ _ Hc') as [[-> (p' & Hp' & [= -> -> ->])]|[Hne Hc'']]; [by rewrite Hp'|].
      by destruct (Hexcl _ _ Hc'' Hne).
  - rewrite list_lookup_insert_ne in Hk' by done. rewrite (hi_held _ _ Hinv _ _ Hk'). split; intros (c' & id' & n' & p & Hc' & Hp).
    + exists c', id', n', p. split; [|done]. unfold calls. rewrite lookup_partial_alter_ne; [done|]. intros <-.
      apply Hc in Hc' as [_ Hl']. simpl in Hl'. destruct p; simplify_eq/=.
    + destruct (calls_others _ _ _ Hc' Hp) as [[_ ?]|(_ & _ & ?)]; [done|]. by exists c', id', n', p.
Qed.

Lemma call_result id' n' : (id', n', inl tt) ∈ results →
  (n' ≤ changes (hs_history s) id')%nat ∧
  (n' = changes (hs_history s) id' → ∀ t r, kept_tenant s id' t → notify_request t id' = Some r →
    not_sending s' id' ∧ ∃ b, <[l := k]> (ch_locks (hs_hook s)) !! get_send_lock t = Some (mkSendLock b (Some (mkComputeRemoteState r true)))).
Proof.
  assert (Hlt : (l < length (ch_locks (hs_hook s)))%nat) by (by eapply lookup_lt_Some).
  assert (Hlast : ∀ t r, kept_tenant s id t → sl_content k = Some (mkComputeRemoteState r true) ∧ idle op →
    not_sending s' id ∧ ∃ b, <[l := k]> (ch_locks (hs_hook s)) !! get_send_lock t = Some (mkSendLock b (Some (mkComputeRemoteState r true)))).
  { intros t r Ht [Hk Hi]. split; [by eapply idle_not_sending|]. rewrite (Hlock _ Ht), list_lookup_insert_eq by done. exists (sl_held k).
    destruct k; simplify_eq/=; done. }
  intros [Hr|(-> & -> & Hr)]%Hres.
  - destruct (hi_result _ _ Hinv _ _ Hr) as [Hle Hold]. split; [done|]. intros Heq t r Ht Hreq. destruct (Hold Heq t r Ht Hreq) as [Hns [b Hb]].
    destruct (decide (id' = id)) as [->|Hne].
    + apply Hlast; [done|]. eapply (Hkept t r); [done|done| |done]. rewrite (Hlock _ Ht) in Hb. by simplify_eq/=.
    + split; [by apply not_sending_others|]. exists b. rewrite list_lookup_insert_ne; [done|]. apply not_eq_sym. by eapply lock_of_other; [apply Ht|].
  - split; [done|]. intros Heq t r Ht Hreq. apply Hlast; [done|]. by eapply Hr.
Qed.

Lemma call_inv : hook_inv owner s'.
Proof.
  assert (Hlt : (l < length (ch_locks (hs_hook s)))%nat) by (by eapply lookup_lt_Some). split; simpl; rewrite ?length_insert.
  - apply Hinv.
  - apply Hinv.
  - intros c' id' n' p [[-> (p' & Hp & [= -> -> ->])]|[_ Hc']]%calls_cases; [by rewrite (Hop _ Hp)|by apply (hi_call _ _ Hinv _ _ _ _ Hc')].
  - intros c' id' n' p t [[-> (p' & Hp & [= -> -> ->])]|[_ Hc']]%calls_cases Ht; [by rewrite (Hop _ Hp), (Hlock _ Ht)|by apply (hi_lock _ _ Hinv _ _ _ _ _ Hc')].
  - apply call_held.
  - intros c1 c2 call1 call2 l' H1 H2 Hp1 Hp2. destruct (calls_others _ _ _ H1 Hp1) as [[-> ->]|(? & ? & H1')], (calls_others _ _ _ H2 Hp2) as [[-> ?]|(? & ? & H2')]; try done.
    by apply (hi_unique _ _ Hinv _ _ _ _ l' H1' H2').
  - intros c' id' n' r l' seen d t [[-> (p' & Hp & [= -> -> <-])]|[Hne Hc']]%calls_cases Ht.
    + eapply Hsend; [|done]. by rewrite Hp, <- (Hop _ Hp).
    + destruct (decide (id' = id)) as [->|Hid]; [|rewrite Hcomp by done; by apply (hi_sending _ _ Hinv _ _ _ _ _ _ _ _ Hc')].
      destruct (Hexcl _ _ Hc' Hne). simpl. f_equal. rewrite <- (Hlock _ Ht). by apply (hi_lock _ _ Hinv _ _ _ _ _ Hc' Ht).
  - intros id' t b r Ht Hk Hns. destruct (decide (id' = id)) as [->|Hid].
    + eapply Hknown; [done| |by eapply idle_not_sending]. rewrite (Hlock _ Ht), list_lookup_insert_eq in Hk by done. by simplify_eq/=.
    + rewrite Hcomp by done. eapply (hi_known _ _ Hinv); [done| |by apply not_sending_others].
      rewrite list_lookup_insert_ne in Hk; [done|]. apply not_eq_sym. by eapply lock_of_other; [apply Ht|].
  - apply call_result.
Qed.
End call.

(** The call that holds the lock is the only one. *)
Lemma holder_only owner s c id n p l :
  hook_inv owner s → hs_calls s !! c = Some (mkHookCall id n p) → holds p = Some l →
  ∀ c' call, hs_calls s !! c' = Some call → c' ≠ c → holds (cl_phase call) ≠ Some l.
Proof. intros Hinv Hc Hp c' call Hc' Hne Hp'. apply Hne. by apply (hi_unique _ _ Hinv _ _ _ _ l Hc' Hc). Qed.

(** The lock of a call that holds it *)
Lemma holder_lock owner s c id n p l :
  hook_inv owner s → hs_calls s !! c = Some (mkHookCall id n p) → holds p = Some l →
  phase_lock p = l ∧ ∃ content, ch_locks (hs_hook s) !! l = Some (mkSendLock true content).
Proof.
  intros Hinv Hc Hp. assert (Hpl : phase_lock p = l) by (destruct p; by simplify_eq/=). split; [done|].
  destruct (hi_call _ _ Hinv _ _ _ _ Hc) as (_ & Hlt & _). rewrite Hpl in Hlt. apply lookup_lt_is_Some_2 in Hlt as [[b x] Hk].
  assert (b = true) as ->; [|by exists x]. apply (hi_held _ _ Hinv _ _ Hk). by exists c, id, n, p.
Qed.

Lemma acquire_inv owner s c id n l content :
  hook_inv owner s → hs_calls s !! c = Some (mkHookCall id n (Waiting l)) → ch_locks (hs_hook s) !! l = Some (mkSendLock false content) →
  hook_inv owner (goes_on_with c (mkHookCall id n (Locked l))
    (s <| hs_hook := hs_hook s <| ch_locks := <[l := mkSendLock true content]> (ch_locks (hs_hook s)) |> |>)).
Proof.
  intros Hinv Hc Hl. destruct (hi_call _ _ Hinv _ _ _ _ Hc) as (Ho & _ & Hn).
  assert (Hfree : ∀ c' call, hs_calls s !! c' = Some call → holds (cl_phase call) ≠ Some l).
  { intros c' [id' n' p] Hc' Hp. destruct (hi_held _ _ Hinv _ _ Hl) as [_ Hh]. discriminate Hh. by exists c', id', n', p. }
  apply (call_inv owner s c id n l (mkSendLock false content) (mkSendLock true content) (Some (Locked l)) (hs_computes s) (hs_results s)); try done.
  - intros call Hc'. by simplify_eq/=.
  - intros t Ht. symmetry. by apply (hi_lock _ _ Hinv _ _ _ _ _ Hc Ht).
  - intros c' call Hc' _. by eapply Hfree.
  - by intros p [= <-].
  - intros t r Ht Hk _. eapply (hi_known _ _ Hinv); [done| |].
    + rewrite <- (hi_lock _ _ Hinv _ _ _ _ _ Hc Ht). simpl in *. by rewrite Hl, Hk.
    + intros c' n' r' l' seen d Hc'. eapply Hfree; [done|]. simpl. f_equal.
      pose proof (hi_lock _ _ Hinv _ _ _ _ _ Hc' Ht) as H1. pose proof (hi_lock _ _ Hinv _ _ _ _ _ Hc Ht) as H2. simpl in *. congruence.
  - auto.
Qed.

Lemma deliver_inv owner s c id n request l seen delivered :
  hook_inv owner s → hs_calls s !! c = Some (mkHookCall id n (Sending request l seen delivered)) →
  hook_inv owner (goes_on_with c (mkHookCall id n (Sending request l seen true)) (s <| hs_computes := <[id := request]> (hs_computes s) |>)).
Proof.
  intros Hinv Hc. destruct (hi_call _ _ Hinv _ _ _ _ Hc) as (Ho & _ & Hn). destruct (holder_lock _ _ _ _ _ _ l Hinv Hc eq_refl) as [_ [x Hl]].
  pose proof (call_inv owner s c id n l (mkSendLock true x) (mkSendLock true x) (Some (Sending request l seen true)) (<[id := request]> (hs_computes s)) (hs_results s)) as Hci.
  rewrite list_insert_id in Hci by done. destruct s as [[st locks] calls computes history results overtaken]. apply Hci; simpl in *; try done.
  - intros call Hc'. by simplify_eq/=.
  - intros t Ht. symmetry. by apply (hi_lock _ _ Hinv _ _ _ _ _ Hc Ht).
  - exact (holder_only _ _ _ _ _ _ l Hinv Hc eq_refl).
  - by intros p [= <-].
  - intros id' Hne. by rewrite lookup_insert_ne.
  - intros r seen' d t [= <- <- <-] Ht. split; [by rewrite lookup_insert_eq|]. by apply (hi_sending _ _ Hinv _ _ _ _ _ _ _ _ Hc Ht).
  - intros t r Ht _ Hi. by destruct (Hi request l seen true).
  - intros t r Ht _ _ Hns. by destruct (Hns _ _ _ _ _ _ Hc).
  - auto.
Qed.

Lemma answer_inv owner s c id n request l seen delivered answers h' :
  hook_inv owner s → hs_calls s !! c = Some (mkHookCall id n (Sending request l seen delivered)) →
  (do_notify answers = inl tt → delivered = true) →
  store_result (E := Empty_set) request l (do_notify answers) (hs_hook s) = (Ok tt, h') →
  hook_inv owner (ends_with c id n (do_notify answers) (s <| hs_hook := h' |>)).
Proof.
  intros Hinv Hc Hd [= <-]. destruct (hi_call _ _ Hinv _ _ _ _ Hc) as (Ho & _ & Hn). destruct (holder_lock _ _ _ _ _ _ l Hinv Hc eq_refl) as [_ [x Hl]].
  assert (Hsend := λ t, hi_sending _ _ Hinv c id n request l seen delivered t Hc).
  eapply (call_inv owner s c id n l _ _ None (hs_computes s) ((id, n, do_notify answers) :: hs_results s)); try done.
  - intros call Hc'. by simplify_eq/=.
  - intros t Ht. symmetry. by apply (hi_lock _ _ Hinv _ _ _ _ _ Hc Ht).
  - exact (holder_only _ _ _ _ _ _ l Hinv Hc eq_refl).
  - intros t r Ht Hk _. destruct (Hsend _ Ht) as [Hdel _]. simpl in Hk. destruct (do_notify answers) as [[]|[]]; simplify_eq/=; auto.
  - intros t r Ht _ _ Hns. by destruct (Hns _ _ _ _ _ _ Hc).
  - intros id' n' [[= -> -> Hr]|Hr]%elem_of_cons; [|by left]. right. split; [done|]. split; [done|]. intros Heq t r Ht Hreq.
    rewrite <- Hr. split; [|done]. simpl. do 2 f_equal. destruct (Hsend _ Ht) as (_ & Hle & Hle' & Hlast). rewrite Hlast in Hreq by lia. by simplify_eq.
Qed.

(** A call looks at its tenant when no other call holds the lock: it is done, or sends. *)
Section look.
Context (owner : LockId → TenantId) (s : HookSys) (c : nat) (id : TenantId) (n : nat) (l : LockId) (b : bool).
Context (x : option ComputeRemoteState).
Hypothesis Hinv : hook_inv owner s.
Hypothesis Hc : ∀ call, hs_calls s !! c = Some call →
  cl_tenant call = id ∧ phase_lock (cl_phase call) = l ∧ idle (Some (cl_phase call)).
Hypothesis Hown : owner l = id.
Hypothesis Hl : ch_locks (hs_hook s) !! l = Some (mkSendLock b x).
Hypothesis Hn : (n ≤ changes (hs_history s) id)%nat.
Hypothesis Hlock : ∀ t, kept_tenant s id t → get_send_lock t = l.
Hypothesis Hexcl : ∀ c' call, hs_calls s !! c' = Some call → c' ≠ c → holds (cl_phase call) ≠ Some l.

Lemma look_known t r : kept_tenant s id t → x = Some (mkComputeRemoteState r true) → hs_computes s !! id = Some r.
Proof.
  intros Ht ->. eapply (hi_known _ _ Hinv); [done|by rewrite (Hlock _ Ht)|]. intros c' n' r' l' seen d Hc'.
  destruct (decide (c' = c)) as [->|Hne]; [apply Hc in Hc' as (_ & _ & Hi); by destruct (Hi r' l' seen d)|].
  apply (Hexcl _ _ Hc' Hne). simpl. f_equal. rewrite <- (Hlock _ Ht). by apply (hi_lock _ _ Hinv _ _ _ _ _ Hc' Ht).
Qed.

Lemma look_done_inv :
  (∀ t r, kept_tenant s id t → notify_request t id = Some r → x = Some (mkComputeRemoteState r true)) →
  hook_inv owner (ends_with c id n (inl tt)
    (s <| hs_hook := hs_hook s <| ch_locks := <[l := mkSendLock false x]> (ch_locks (hs_hook s)) |> |>)).
Proof.
  intros Hx. eapply (call_inv owner s c id n l _ (mkSendLock false x) None (hs_computes s) ((id, n, inl tt) :: hs_results s)); try done.
  - intros call Hc'. by destruct (Hc _ Hc') as (? & ? & _).
  - intros t r Ht Hk _. by eapply look_known.
  - intros id' n' [[= -> ->]|Hr]%elem_of_cons; [|by left]. right. split; [done|]. split; [done|]. intros _ t r Ht Hreq. split; [by eapply Hx|done].
Qed.

Lemma look_send_inv t r :
  ch_state (hs_hook s) !! id = Some t → notify_request t id = Some r → x ≠ Some (mkComputeRemoteState r true) →
  hook_inv owner (goes_on_with c (mkHookCall id n (Sending r l (changes (hs_history s) id) false))
    (s <| hs_hook := hs_hook s <| ch_locks := <[l := mkSendLock true x]> (ch_locks (hs_hook s)) |> |>)).
Proof.
  intros Ht Hr Hx.
  eapply (call_inv owner s c id n l _ (mkSendLock true x) (Some (Sending r l (changes (hs_history s) id) false)) (hs_computes s) (hs_results s)); try done.
  - intros call Hc'. by destruct (Hc _ Hc') as (? & ? & _).
  - by intros p [= <-].
  - intros r' seen d t' [= <- <- <-] [Ht' _]. simplify_eq. split_and!; done || lia || auto.
  - intros t' r' Ht' Hk Hi. by destruct (Hi r l (changes (hs_history s) id) false).
  - intros t' r' [Ht' _] Hreq Hk _. simplify_eq/=.
  - auto.
Qed.
End look.

Lemma look_inv owner s c id n l r h' :
  hook_inv owner s → hs_calls s !! c = Some (mkHookCall id n (Locked l)) → notify_locked (E := Empty_set) id l (hs_hook s) = (Ok r, h') →
  hook_inv owner
    (match r with
     | Some (request, l) =>
       goes_on_with c (mkHookCall id n (Sending request l (changes (hs_history s) id) false)) (s <| hs_hook := h' |>)
     | None => ends_with c id n (inl tt) (s <| hs_hook := h' |>)
     end).
Proof.
  intros Hinv Hc Hr. destruct (hi_call _ _ Hinv _ _ _ _ Hc) as (Ho & _ & Hn). destruct (holder_lock _ _ _ _ _ _ l Hinv Hc eq_refl) as [_ [x Hl]].
  pose proof (holder_only _ _ _ _ _ _ l Hinv Hc eq_refl) as Honly.
  assert (Hlock : ∀ t, kept_tenant s id t → get_send_lock t = l).
  { intros t Ht. symmetry. by apply (hi_lock _ _ Hinv _ _ _ _ _ Hc Ht). }
  assert (Hc' : ∀ call, hs_calls s !! c = Some call → cl_tenant call = id ∧ phase_lock (cl_phase call) = l ∧ idle (Some (cl_phase call))).
  { intros call Hc'. rewrite Hc in Hc'. by injection Hc' as <-. }
  pose proof (look_done_inv owner s c id n l true x Hinv Hc' Ho Hl Hn Hlock Honly) as Hdone.
  pose proof (look_send_inv owner s c id n l true x Hinv Hc' Ho Hl Hn Hlock Honly) as Hsend.
  unfold notify_locked, st_get, mbind, ST_bind in Hr. destruct (ch_state (hs_hook s) !! id) as [t|] eqn:Ht.
  - rewrite (maybe_send_locked _ _ _ _ _ _ Hl) in Hr. unfold to_send in Hr. destruct (notify_request t id) as [q|] eqn:Hq; simpl in Hr.
    + case_decide as Hx; injection Hr as <- <-.
      * apply Hdone. intros t' r [Ht' _] Hr. congruence.
      * rewrite list_insert_id in Hsend by done. destruct s as [[st locks] calls computes history results overtaken]. by apply (Hsend t q).
    + injection Hr as <- <-. apply Hdone. intros t' r [Ht' _] Hr. congruence.
  - unfold unlock, get_lock, st_get, st_lift, mbind, ST_bind in Hr. rewrite Hl in Hr. injection Hr as <- <-. apply Hdone. intros t' r [Ht' _]. congruence.
Qed.

(** Calls that wait for the lock come and go. *)
Lemma waiting_inv owner s s' :
  hook_inv owner s → hs_hook s' = hs_hook s → hs_computes s' = hs_computes s → hs_history s' = hs_history s →
  hs_overtaken s' = hs_overtaken s →
  (∀ x, x ∈ hs_results s' → x ∈ hs_results s ∨ x.2 ≠ inl tt) →
  (∀ c id n p, holds p ≠ None → hs_calls s' !! c = Some (mkHookCall id n p) ↔ hs_calls s !! c = Some (mkHookCall id n p)) →
  (∀ c id n l, hs_calls s' !! c = Some (mkHookCall id n (Waiting l)) → hs_calls s !! c = Some (mkHookCall id n (Waiting l)) ∨
    owner l = id ∧ (l < length (ch_locks (hs_hook s)))%nat ∧ (n ≤ changes (hs_history s) id)%nat ∧
    ∀ t, kept_tenant s id t → l = get_send_lock t) →
  hook_inv owner s'.
Proof.
  intros Hinv Hh Hco Hhi Hov Hres Hcalls Hwait.
  assert (Hkt : ∀ id t, kept_tenant s' id t ↔ kept_tenant s id t) by (intros id t; unfold kept_tenant; by rewrite Hh, Hov).
  assert (Hns : ∀ id, not_sending s' id ↔ not_sending s id).
  { intros id. split; intros Hn c n r l seen d Hc; apply (Hn c n r l seen d); by apply Hcalls. }
  split; rewrite ?Hh, ?Hco, ?Hhi; try apply Hinv.
  - intros c id n p Hc. destruct p as [l| |]; [|by apply (hi_call _ _ Hinv c), Hcalls..].
    destruct (Hwait _ _ _ _ Hc) as [Hc'|(? & ? & ? & _)]; [by apply (hi_call _ _ Hinv c)|done].
  - intros c id n p t Hc Ht%Hkt. destruct p as [l| |]; [|by apply (hi_lock _ _ Hinv c id n); [apply Hcalls|]..].
    destruct (Hwait _ _ _ _ Hc) as [Hc'|(_ & _ & _ & Hl)]; [by apply (hi_lock _ _ Hinv c id n)|by apply Hl].
  - intros l k Hk. rewrite (hi_held _ _ Hinv _ _ Hk). split; intros (c & id & n & p & Hc & Hp); exists c, id, n, p;
      (split; [|done]); apply Hcalls; congruence.
  - intros c1 c2 [i1 n1 p1] [i2 n2 p2] l H1 H2 Hp1 Hp2. simpl in *. apply Hcalls in H1; [|congruence]. apply Hcalls in H2; [|congruence].
    by apply (hi_unique _ _ Hinv _ _ _ _ l H1 H2).
  - intros c id n r l seen d t Hc Ht%Hkt. apply Hcalls in Hc; [|done]. by apply (hi_sending _ _ Hinv _ _ _ _ _ _ _ _ Hc).
  - intros id t b r Ht%Hkt Hk Hn. by apply (hi_known _ _ Hinv _ _ _ _ Ht Hk), Hns.
  - intros id n Hr. destruct (Hres _ Hr) as [Hr'|Hr']; [|done]. destruct (hi_result _ _ Hinv _ _ Hr') as [Hle Hlast]. split; [done|].
    intros Heq t r Ht%Hkt Hreq. rewrite Hns. by apply Hlast.
Qed.

Lemma cancel_inv owner s c id n l :
  hook_inv owner s → hs_calls s !! c = Some (mkHookCall id n (Waiting l)) → hook_inv owner (ends_with c id n (inr NotifyShuttingDown) s).
Proof.
  intros Hinv Hc. apply (waiting_inv owner s); try done; simpl.
  - intros x [->|?]%elem_of_cons; auto.
  - intros c' id' n' p Hp. rewrite lookup_delete_Some. split; [by intros [_ ?]|]. intros Hc'. split; [|done]. intros <-. by simplify_eq.
  - intros c' id' n' l' [_ ?]%lookup_delete_Some. auto.
Qed.

Lemma wait_inv owner s c id n l :
  hook_inv owner s → hs_calls s !! c = None → owner l = id → (l < length (ch_locks (hs_hook s)))%nat → (n ≤ changes (hs_history s) id)%nat →
  (∀ t, kept_tenant s id t → l = get_send_lock t) → hook_inv owner (goes_on_with c (mkHookCall id n (Waiting l)) s).
Proof.
  intros Hinv Hc Ho Hlt Hn Hl. apply (waiting_inv owner s); try done; simpl.
  - auto.
  - intros c' id' n' p Hp. rewrite lookup_insert_Some. split; [by intros [[_ [=]]|[_ ?]]; subst|]. intros Hc'. right. split; [|done]. intros <-. by simplify_eq.
  - intros c' id' n' l' [[_ [=]]|[_ ?]]%lookup_insert_Some; [|by left]. subst. by right.
Qed.

Lemma layout_of_cons op history id :
  layout_of (op :: history) id = if decide (op_tenant op = id) then layout_op op (layout_of history id) else layout_of history id.
Proof. unfold layout_of, history_of. rewrite filter_cons. by destruct (decide (op_tenant op = id)). Qed.

Lemma changes_cons op history id :
  changes (op :: history) id = if decide (op_tenant op = id) then S (changes history id) else changes history id.
Proof. unfold changes, history_of. rewrite filter_cons. by destruct (decide (op_tenant op = id)). Qed.

(** A tenant changes; [h] has its lock if that is new. *)
Section change.
Context (owner : LockId → TenantId) (s : HookSys) (id : TenantId) (op : HookOp) (h : ComputeHook) (ot : option ComputeHookTenant).
Context (overtaken : gset TenantId).
Hypothesis Hinv : hook_inv owner s.
Hypothesis Hop : op_tenant op = id.
Hypothesis Hh : ot = None ∧ h = hs_hook s ∨ ∃ t, ot = Some t ∧ tenant_wf t ∧
  lock_after (hs_hook s) h (ch_state (hs_hook s) !! id) (get_send_lock t).
Hypothesis Hlay : tenant_layout <$> ot = layout_op op (tenant_layout <$> ch_state (hs_hook s) !! id).
Hypothesis Hover : overtaken = hs_overtaken s ∨ overtaken = {[ id ]} ∪ hs_overtaken s.
Hypothesis Hkept : id ∉ overtaken → ∀ c n p t, hs_calls s !! c = Some (mkHookCall id n p) → ot = Some t → phase_lock p = get_send_lock t.

Let state := partial_alter (λ _, ot) id (ch_state (hs_hook s)).
Let locks := ch_locks (hs_hook s).
Let owner' l := if decide (length locks ≤ l)%nat then id else owner l.
Let s' := s <| hs_hook := mkComputeHook state (ch_locks h) |> <| hs_history := op :: hs_history s |>
  <| hs_overtaken := overtaken |>.

Lemma change_state id' t : state !! id' = Some t → (id' = id ∧ ot = Some t) ∨ (id' ≠ id ∧ ch_state (hs_hook s) !! id' = Some t).
Proof.
  unfold state. destruct (decide (id' = id)) as [->|Hne]; [rewrite lookup_partial_alter_eq; auto|]. rewrite lookup_partial_alter_ne by done. auto.
Qed.

Lemma change_locks l k : ch_locks h !! l = Some k → locks !! l = Some k ∨ (l = length locks ∧ k = free_lock).
Proof.
  destruct Hh as [[_ ->]|(t & _ & _ & [[-> _]|[-> _]])]; auto. simpl. intros [Hk|[Hge Hk]]%lookup_app_Some; [by left|]. right.
  apply list_lookup_singleton_Some in Hk as [? <-]. split; [|done]. unfold locks. lia.
Qed.

Lemma change_length : (length locks ≤ length (ch_locks h))%nat.
Proof. destruct Hh as [[_ ->]|(t & _ & _ & [[-> _]|[-> _]])]; simpl; rewrite ?length_app; unfold locks; lia. Qed.

Lemma owner_old l : (l < length locks)%nat → owner' l = owner l.
Proof. intros Hl. unfold owner'. rewrite decide_False; [done|lia]. Qed.

(** The lock of the tenant afterwards: that it had, or a new one *)
Lemma change_lock t : ot = Some t →
  (∃ t0, ch_state (hs_hook s) !! id = Some t0 ∧ get_send_lock t0 = get_send_lock t) ∨
  (get_send_lock t = length locks ∧ ch_locks h = locks ++ [free_lock] ∧ (id ∉ overtaken → ∀ c n p, hs_calls s !! c ≠ Some (mkHookCall id n p))).
Proof.
  intros Ht. destruct Hh as [[? _]|(t' & Ht' & _ & Hl)]; [congruence|]. assert (t' = t) as -> by congruence.
  destruct Hl as [[_ Ho]|[-> Ho]].
  - left. by apply fmap_Some in Ho as (t0 & Ht0 & ->); exists t0.
  - right. split; [done|]. split; [done|]. intros Hno c n p Hc. destruct (hi_call _ _ Hinv _ _ _ _ Hc) as (_ & Hlt & _).
    rewrite (Hkept Hno _ _ _ _ Hc Ht) in Hlt. lia.
Qed.

(** The tenants that were not overtaken, afterwards *)
Lemma change_kept id' t : kept_tenant s' id' t →
  (id' = id ∧ ot = Some t ∧ id ∉ overtaken ∧ id ∉ hs_overtaken s) ∨ (id' ≠ id ∧ kept_tenant s id' t).
Proof.
  intros [Ht Hno]. simpl in Ht, Hno.
  assert (Hno' : id' ∉ hs_overtaken s) by (destruct Hover as [-> | ->]; set_solver).
  apply change_state in Ht as [[-> Ht]|[Hne Ht]]; [by left|by right].
Qed.

Lemma change_tenant id' t : state !! id' = Some t →
  tenant_wf t ∧ owner' (get_send_lock t) = id' ∧ (get_send_lock t < length (ch_locks h))%nat.
Proof.
  pose proof change_length as Hle. intros [[-> Ht]|[Hne Ht]]%change_state.
  - assert (Hwf : tenant_wf t) by (destruct Hh as [[? _]|(? & ? & ? & _)]; by simplify_eq). split; [done|].
    destruct (change_lock _ Ht) as [(t0 & Ht0 & <-)|(-> & -> & _)].
    + destruct (hi_tenant _ _ Hinv _ _ Ht0) as (_ & Ho & Hlt). split; [by rewrite owner_old|]. unfold locks in Hle. lia.
    + rewrite length_app. simpl. split; [|lia]. unfold owner'. by rewrite decide_True by lia.
  - destruct (hi_tenant _ _ Hinv _ _ Ht) as (Hwf & Ho & Hlt). split; [done|]. split; [by rewrite owner_old|]. unfold locks in Hle. lia.
Qed.

Lemma change_inv : hook_inv owner' s'.
Proof.
  pose proof change_length as Hle. split; simpl.
  - apply change_tenant.
  - intros id'. rewrite layout_of_cons, Hop. unfold state. destruct (decide (id = id')) as [<-|Hne].
    + by rewrite lookup_partial_alter_eq, Hlay, (hi_layout _ _ Hinv).
    + rewrite lookup_partial_alter_ne by done. apply Hinv.
  - intros c id' n p Hc. destruct (hi_call _ _ Hinv _ _ _ _ Hc) as (Ho & Hlt & Hn). split; [by rewrite owner_old|]. split; [unfold locks in Hle; lia|].
    rewrite changes_cons. case_decide; lia.
  - intros c id' n p t Hc [(-> & Ht & Hno & _)|[Hne Ht]]%change_kept; [by eapply Hkept|]. by apply (hi_lock _ _ Hinv _ _ _ _ _ Hc Ht).
  - intros l k [Hk|[-> ->]]%change_locks; [by apply (hi_held _ _ Hinv)|]. split; [done|]. intros (c & id' & n & p & Hc & Hp). exfalso.
    destruct (hi_call _ _ Hinv _ _ _ _ Hc) as (_ & Hlt & _). unfold locks in Hp. destruct p; simplify_eq/=; lia.
  - apply Hinv.
  - intros c id' n r l seen d t Hc [(-> & Ht & Hno & Hno')|[Hne Ht]]%change_kept; rewrite changes_cons, Hop.
    + rewrite decide_True by done. destruct (change_lock _ Ht) as [(t0 & Ht0 & _)|(_ & _ & Hnone)]; [|by destruct (Hnone Hno _ _ _ Hc)].
      destruct (hi_sending _ _ Hinv _ _ _ _ _ _ _ _ Hc (conj Ht0 Hno')) as (? & ? & ? & _). split_and!; auto; lia.
    + rewrite decide_False by done. by apply (hi_sending _ _ Hinv _ _ _ _ _ _ _ _ Hc Ht).
  - intros id' t b r [(-> & Ht & Hno & Hno')|[Hne Ht]]%change_kept [Hk|[Hl Hk]]%change_locks Hns; try done.
    + destruct (change_lock _ Ht) as [(t0 & Ht0 & Heq)|(Hl & _)]; [|rewrite Hl in Hk; apply lookup_lt_Some in Hk; lia].
      rewrite <- Heq in Hk. by apply (hi_known _ _ Hinv _ _ _ _ (conj Ht0 Hno') Hk).
    + by apply (hi_known _ _ Hinv _ _ _ _ Ht Hk).
  - intros id' n Hr. destruct (hi_result _ _ Hinv _ _ Hr) as [Hn Hlast]. rewrite changes_cons, Hop. case_decide as Hid; [subst; split; lia|].
    split; [done|]. intros Heq t r [[-> _]|[Hne Ht]]%change_kept Hreq; [done|]. destruct (Hlast Heq t r Ht Hreq) as [Hns [b Hk]]. split; [done|].
    exists b. destruct Hh as [[_ ->]|(? & _ & _ & [[-> _]|[-> _]])]; [done..|]. by apply lookup_app_l_Some.
Qed.
End change.

Lemma detach_inv owner s id stripe_size h' :
  hook_inv owner s → handle_detach (E := Empty_set) id stripe_size (hs_hook s) = (Ok tt, h') →
  ∃ owner', hook_inv owner' (s <| hs_hook := h' |> <| hs_history := OpDetach id stripe_size :: hs_history s |>).
Proof.
  intros Hinv Hd. set (T := tenant_id id).
  assert (Hch := λ ot, change_inv owner s T (OpDetach id stripe_size) (hs_hook s) ot (hs_overtaken s) Hinv eq_refl).
  assert (Hsame : ∀ h, s <| hs_hook := h |> <| hs_history := OpDetach id stripe_size :: hs_history s |> <| hs_overtaken := hs_overtaken s |> =
    s <| hs_hook := h |> <| hs_history := OpDetach id stripe_size :: hs_history s |>) by (intros h; by destruct s).
  unfold handle_detach, st_get, st_lift, st_modify, mbind, ST_bind, mret, ST_ret in Hd. fold T in Hd.
  destruct (ch_state (hs_hook s) !! T) as [[t|t]|] eqn:Ht; simpl in Hd.
  - injection Hd as <-. eexists. rewrite <- Hsame. apply (Hch None); try done; by left.
  - destruct (hi_tenant _ _ Hinv _ _ Ht) as ((Hc & Hs & Hall) & _).
    assert (∃ t', h' = mkComputeHook (<[T := Sharded t']> (ch_state (hs_hook s))) (ch_locks (hs_hook s)) ∧ tenant_wf (Sharded t') ∧
      sct_send_lock t' = sct_send_lock t ∧
      tenant_layout (Sharded t') = mkLayout (Some (sct_stripe_size t, sct_shard_count t))
        (delete (shard_number id) (list_to_map (sct_shards t))) (sct_preferred_az t)) as (t' & -> & Hwf & Hl & Hlay).
    { destruct (shard_position (shard_number id) (sct_shards t)) as [i|] eqn:Hp; injection Hd as <-.
      - destruct (remove_shard_spec _ _ _ Hs Hp) as (Hmap & Hs' & Hin). eexists. split; [reflexivity|]. simpl. rewrite Hmap. split_and!; try done.
        rewrite Forall_forall in *. intros k Hk. by apply Hall, Hin.
      - exists t. split; [done|]. simpl. split_and!; try done. rewrite delete_id; [done|]. apply not_elem_of_list_to_map_1.
        by apply shard_position_None. }
    eexists. rewrite <- Hsame. apply (Hch (Some (Sharded t'))); try done.
    + right. exists (Sharded t'). split; [done|]. split; [done|]. left. split; [done|]. simpl. by rewrite Hl.
    + change (Some (tenant_layout (Sharded t')) = layout_op (OpDetach id stripe_size) (Some (tenant_layout (Sharded t)))). by rewrite Hlay.
    + by left.
    + intros Hno c n p t0 Hcall [= <-]. simpl. rewrite Hl. by apply (hi_lock _ _ Hinv _ _ _ _ (Sharded t) Hcall).
  - injection Hd as <-. eexists. specialize (Hch None).
    assert (Hdel : partial_alter (λ _, None) T (ch_state (hs_hook s)) = ch_state (hs_hook s)) by exact (delete_id _ _ Ht). rewrite Hdel in Hch.
    destruct s as [[st locks] calls computes history results overtaken]. apply Hch; try done; by left.
Qed.

(** [notify_prepare]: the tenant changes, then [maybe_send]. *)
Lemma prepare_spec su h :
  let id := tenant_id (su_tenant_shard_id su) in
  hook_op_ok (OpUpdate su) → (∀ t, ch_state h !! id = Some t → tenant_wf t) →
  ∃ t h1, notify_prepare (E := Empty_set) su h = maybe_send t id None (mkComputeHook (<[id := t]> (ch_state h)) (ch_locks h1)) ∧
    lock_after h h1 (ch_state h !! id) (get_send_lock t) ∧ tenant_wf t ∧
    Some (tenant_layout t) = layout_op (OpUpdate su) (tenant_layout <$> ch_state h !! id).
Proof.
  cbv zeta. intros Hok Hwf. set (id := tenant_id (su_tenant_shard_id su)).
  assert (Hst : ∀ h' ot l, lock_after h h' ot l → ch_state h' = ch_state h) by (by intros h' ot l [[-> _]|[-> _]]).
  unfold notify_prepare, st_get, st_modify, mbind, ST_bind. fold id. destruct (ch_state h !! id) as [t|] eqn:Ht.
  - destruct (update_spec (E := Empty_set) h t su Hok (Hwf _ Ht)) as (t' & h1 & -> & Hl & Hwf' & Hlay). exists t', h1.
    split; [|done]. by rewrite <- (Hst _ _ _ Hl).
  - destruct (new_tenant_spec (E := Empty_set) h None su Hok) as (t' & h1 & -> & Hl & Hwf' & Hlay); [done|]. exists t', h1.
    split; [|done]. by rewrite <- (Hst _ _ _ Hl).
Qed.

Lemma maybe_send_state {E} t id h r h' : maybe_send (E := E) t id None h = (Ok r, h') → ch_state h' = ch_state h.
Proof.
  destruct (ch_locks h !! get_send_lock t) as [[[] c]|] eqn:Hl.
  - rewrite (maybe_send_held _ _ _ _ Hl). by intros [= _ <-].
  - rewrite (maybe_send_free _ _ _ _ Hl). destruct (to_send t id c); by intros [= _ <-].
  - unfold maybe_send, try_lock, get_lock, st_get, st_lift, mbind, ST_bind. by rewrite Hl.
Qed.

Lemma notify_inv owner s su c r h' id n :
  hook_inv owner s → id = tenant_id (su_tenant_shard_id su) → n = S (changes (hs_history s) id) →
  hook_op_ok (OpUpdate su) → hs_calls s !! c = None →
  notify_prepare (E := Empty_set) su (hs_hook s) = (Ok r, h') →
  ∃ owner', hook_inv owner'
    (let s := s <| hs_hook := h' |> <| hs_history := OpUpdate su :: hs_history s |> <| hs_overtaken := overtaken_by s id h' |> in
     match started r n with Some p => goes_on_with c (mkHookCall id n p) s | None => ends_with c id n (inl tt) s end).
Proof.
  intros Hinv Hid Hn Hok Hc Hprep.
  destruct (prepare_spec su (hs_hook s) Hok) as (t & h1 & Heq & Hl & Hwf & Hlay); rewrite <- Hid in *.
  { intros t Ht. by apply (hi_tenant _ _ Hinv _ _ Ht). }
  rewrite Heq in Hprep. pose proof (maybe_send_state _ _ _ _ _ Hprep) as Hst. simpl in Hst.
  pose proof (change_inv owner s id (OpUpdate su) h1 (Some t) (overtaken_by s id h') Hinv (eq_sym Hid)) as Hch.
  match type of Hch with _ → _ → _ → _ → hook_inv ?o ?x => set (owner' := o) in *; set (s1 := x) in * end.
  assert (Hinv1 : hook_inv owner' s1).
  { apply Hch; [right; by exists t|done|unfold overtaken_by; case_decide; auto|]. intros Hno c' n' p t' Hc' [= <-].
    unfold overtaken_by in Hno. case_decide as Hkept; [|set_solver]. specialize (Hkept _ _ Hc' eq_refl). simpl in Hkept.
    rewrite Hst, lookup_insert_eq in Hkept. by injection Hkept. }
  clear Hch. exists owner'. assert (Hn1 : n = changes (hs_history s1) id) by (simpl; by rewrite changes_cons, decide_True).
  assert (Ht1 : ch_state (hs_hook s1) !! id = Some t) by (simpl; apply lookup_partial_alter_eq).
  destruct (hi_tenant _ _ Hinv1 _ _ Ht1) as (_ & Ho & Hlt). pose proof (lookup_lt_is_Some_2 _ _ Hlt) as [[b x] Hk].
  assert (Hlock : ∀ t0, kept_tenant s1 id t0 → get_send_lock t0 = get_send_lock t) by (intros t0 [Ht0 _]; congruence).
  destruct b.
  - rewrite (maybe_send_held _ _ _ _ Hk) in Hprep. injection Hprep as <- <-. apply (wait_inv owner' s1); try done; [lia|]. intros t0 [Ht0 _]. congruence.
  - assert (Hfree : ∀ c' call, hs_calls s1 !! c' = Some call → c' ≠ c → holds (cl_phase call) ≠ Some (get_send_lock t)).
    { intros c' [i' n' p] Hc' _ Hp. destruct (hi_held _ _ Hinv1 _ _ Hk) as [_ Hh]. discriminate Hh. by exists c', i', n', p. }
    assert (Hc1 : ∀ call, hs_calls s1 !! c = Some call → cl_tenant call = id ∧ phase_lock (cl_phase call) = get_send_lock t ∧ idle (Some (cl_phase call))).
    { intros call Hc'. simpl in Hc'. congruence. }
    rewrite (maybe_send_free _ _ _ _ Hk) in Hprep. unfold to_send in Hprep.
    pose proof (look_done_inv owner' s1 c id n (get_send_lock t) false x Hinv1 Hc1 Ho Hk ltac:(lia) Hlock Hfree) as Hdone.
    pose proof (look_send_inv owner' s1 c id n (get_send_lock t) false x Hinv1 Hc1 Ho Hk ltac:(lia) Hlock Hfree t) as Hsend.
    rewrite list_insert_id in Hdone by done. rewrite <- Hn1 in Hsend.
    destruct (notify_request t id) as [q|] eqn:Hq; simpl in Hprep.
    + case_decide as Hx; injection Hprep as <- <-; [|by apply (Hsend q)]. apply Hdone. intros t0 r [Ht0 _] Hr. congruence.
    + injection Hprep as <- <-. apply Hdone. intros t0 r [Ht0 _] Hr. congruence.
Qed.

Lemma hook_step_inv owner s s' : hook_inv owner s → hook_step s s' → ∃ owner', hook_inv owner' s'.
Proof.
  intros Hinv Hstep. destruct Hstep; [by eapply notify_inv|eexists..|by eapply detach_inv].
  - by eapply acquire_inv.
  - by eapply cancel_inv.
  - by eapply look_inv.
  - by eapply deliver_inv.
  - by eapply answer_inv.
Qed.

Lemma hook_reachable_inv s : hook_reachable s → ∃ owner, hook_inv owner s.
Proof.
  induction 1 as [|s s' _ [owner IH] Hstep]; [|by eapply hook_step_inv]. exists (λ _, []).
  split; simpl; try done. intros id n Hr. by apply elem_of_nil in Hr.
Qed.



(** ** Examples *)

Definition hook_tenant : TenantId := repeat x07 16.
Definition hook_update (number count : Z) (node : NodeId) : ShardUpdate :=
  mkShardUpdate (mkTenantShardId hook_tenant number count) node 32768 None.
Definition hook_request (stripe_size : option Z) (nodes : list NodeId) : ComputeHookNotifyRequest :=
  mkNotifyRequest hook_tenant None stripe_size (imap (λ i node, mkNotifyRequestShard node (Z.of_nat i)) nodes).

(** The steps as functions *)
Definition exec_notify (su : ShardUpdate) (c : nat) (s : HookSys) : option HookSys :=
  let id := tenant_id (su_tenant_shard_id su) in
  let n := S (changes (hs_history s) id) in
  match notify_prepare (E := Empty_set) su (hs_hook s), hs_calls s !! c with
  | (Ok r, h'), None =>
    let s := s <| hs_hook := h' |> <| hs_history := OpUpdate su :: hs_history s |> <| hs_overtaken := overtaken_by s id h' |> in
    Some match started r n with Some p => goes_on_with c (mkHookCall id n p) s | None => ends_with c id n (inl tt) s end
  | _, _ => None
  end.

Definition exec_deliver (c : nat) (s : HookSys) : option HookSys :=
  match hs_calls s !! c with
  | Some (mkHookCall id n (Sending request l seen _)) =>
    Some (goes_on_with c (mkHookCall id n (Sending request l seen true)) (s <| hs_computes := <[id := request]> (hs_computes s) |>))
  | _ => None
  end.

Definition exec_answer (c : nat) (answers : list (option Z)) (s : HookSys) : option HookSys :=
  match hs_calls s !! c with
  | Some (mkHookCall id n (Sending request l seen delivered)) =>
    match store_result (E := Empty_set) request l (do_notify answers) (hs_hook s) with
    | (Ok _, h') =>
      if delivered || match do_notify answers with inl _ => false | inr _ => true end
      then Some (ends_with c id n (do_notify answers) (s <| hs_hook := h' |>)) else None
    | _ => None
    end
  | _ => None
  end.

Lemma exec_notify_reachable su c s s' :
  hook_op_ok (OpUpdate su) → exec_notify su c s = Some s' → hook_reachable s → hook_reachable s'.
Proof.
  intros Hok He Hs. eapply hook_reachable_step; [done|]. unfold exec_notify in He.
  destruct (notify_prepare su (hs_hook s)) as [[r|e|] h'] eqn:Hp; [|done..]. destruct (hs_calls s !! c) eqn:Hc; [done|].
  injection He as <-. by eapply (step_notify s su c r h').
Qed.

Lemma exec_deliver_reachable c s s' : exec_deliver c s = Some s' → hook_reachable s → hook_reachable s'.
Proof.
  intros He Hs. eapply hook_reachable_step; [done|]. unfold exec_deliver in He.
  destruct (hs_calls s !! c) as [[id n [| |request l seen d]]|] eqn:Hc; try done. injection He as <-. by eapply step_deliver.
Qed.

Lemma exec_answer_reachable c answers s s' : exec_answer c answers s = Some s' → hook_reachable s → hook_reachable s'.
Proof.
  intros He Hs. eapply hook_reachable_step; [done|]. unfold exec_answer in He.
  destruct (hs_calls s !! c) as [[id n [| |request l seen d]]|] eqn:Hc; try done.
  destruct (store_result _ _ _ _) as [[[]|e|] h'] eqn:Hr; try done. destruct (d || _) eqn:Hd; [|done]. injection He as <-.
  eapply step_answer; [done| |done]. intros Hok. rewrite Hok in Hd. by destruct d.
Qed.

Definition hook_or (s : option HookSys) : HookSys := default hook_init s.

(** A tenant with two shards is announced: nothing is sent for the first one. *)
Definition announced1 : HookSys := hook_or (exec_notify (hook_update 0 2 10) 0 hook_init).
Definition announced2 : HookSys := hook_or (exec_notify (hook_update 1 2 20) 0 announced1).
Definition announced3 : HookSys := hook_or (exec_deliver 0 announced2).
Definition announced : HookSys := hook_or (exec_answer 0 [Some 200] announced3).

Lemma announced_reachable : hook_reachable announced.
Proof.
  apply (exec_answer_reachable 0 [Some 200] announced3); [by vm_compute|].
  apply (exec_deliver_reachable 0 announced2); [by vm_compute|].
  apply (exec_notify_reachable (hook_update 1 2 20) 0 announced1); [by vm_compute..|].
  apply (exec_notify_reachable (hook_update 0 2 10) 0 hook_init); [by vm_compute..|]. apply hook_reachable_init.
Qed.


(** A notification that is refused is sent again by the next call. *)
Definition refused1 : HookSys := hook_or (exec_notify (hook_update 0 0 10) 0 hook_init).
Definition refused : HookSys := hook_or (exec_answer 0 [None; Some 503; Some 423] refused1).

Lemma refused_reachable : hook_reachable refused.
Proof.
  apply (exec_answer_reachable 0 [None; Some 503; Some 423] refused1); [by vm_compute|].
  apply (exec_notify_reachable (hook_update 0 0 10) 0 hook_init); [by vm_compute..|]. apply hook_reachable_init.
Qed.


(** The hooks of the following examples *)
Definition run_hook {A} (m : ST ComputeHook Empty_set A) (h : ComputeHook) : option A * ComputeHook :=
  let '(r, h) := m h in (match r with Ok a => Some a | _ => None end, h).

(** A split gives the tenant a new lock: the children are announced while the request for the parent
    is still being sent, under the old lock.  That request arrives last: the call for the last change
    has succeeded, but the computes are back at the parent, and the next call sends nothing. *)
Definition overtaken1 : HookSys := hook_or (exec_notify (hook_update 0 1 10) 0 hook_init).
Definition overtaken2 : HookSys := hook_or (exec_notify (hook_update 0 2 10) 1 overtaken1).
Definition overtaken3 : HookSys := hook_or (exec_notify (hook_update 1 2 20) 1 overtaken2).
Definition overtaken4 : HookSys := hook_or (exec_deliver 1 overtaken3).
Definition overtaken5 : HookSys := hook_or (exec_answer 1 [Some 200] overtaken4).
Definition overtaken : HookSys := hook_or (exec_deliver 0 overtaken5).

Example notify_overtaken :
  hook_reachable overtaken ∧ hook_tenant ∈ hs_overtaken overtaken ∧
  (hook_tenant, changes (hs_history overtaken) hook_tenant, inl tt) ∈ hs_results overtaken ∧
  (layout_of (hs_history overtaken) hook_tenant ≫= λ l, layout_request l hook_tenant) = Some (hook_request (Some 32768) [10; 20]) ∧
  hs_computes overtaken !! hook_tenant = Some (hook_request None [10]) ∧
  (run_hook (notify_prepare (hook_update 1 2 20)) (hs_hook overtaken)).1 = Some Noop.
Proof.
  split.
  - apply (exec_deliver_reachable 0 overtaken5); [by vm_compute|].
    apply (exec_answer_reachable 1 [Some 200] overtaken4); [by vm_compute|].
    apply (exec_deliver_reachable 1 overtaken3); [by vm_compute|].
    apply (exec_notify_reachable (hook_update 1 2 20) 1 overtaken2); [by vm_compute..|].
    apply (exec_notify_reachable (hook_update 0 2 10) 1 overtaken1); [by vm_compute..|].
    apply (exec_notify_reachable (hook_update 0 1 10) 0 hook_init); [by vm_compute..|]. apply hook_reachable_init.
  - split; [by vm_compute|]. split; [vm_compute; apply list_elem_of_here|]. by vm_compute.
Qed.

(** The detach of a shard of the parent, after the split, removes the child with the same number. *)
Example detach_removes_child :
  let '(_, h) := run_hook (notify_prepare (hook_update 0 4 10)) ComputeHook_new in
  let '(_, h) := run_hook (notify_prepare (hook_update 1 4 10)) h in
  let '(_, h) := run_hook (notify_prepare (hook_update 2 4 20)) h in
  let '(_, h) := run_hook (notify_prepare (hook_update 3 4 20)) h in
  let '(_, h') := run_hook (handle_detach (mkTenantShardId hook_tenant 1 2) 32768) h in
  (λ t, notify_request t hook_tenant) <$> ch_state h !! hook_tenant = Some (Some (hook_request (Some 32768) [10; 10; 20; 20])) ∧
  (λ t, notify_request t hook_tenant) <$> ch_state h' !! hook_tenant = Some None.
Proof. vm_compute. done. Qed.
