(* ===== verification/SeqWait.v ===== *)
(** * Waiting for a sequence number

    [libs/utils/src/seqwait.rs]: a counter that only grows, with tasks that wait until it reaches
    a number.  What is done under the mutex is one operation; the waiters that [advance] has taken
    from the heap are woken one by one after it, those of [shutdown] are dropped one by one.

    A [BinaryHeap] of waiters, lowest number first, is a sorted list.  A [watch] channel with one
    sender and one receiver is in one of three states; what has been sent is received even if the
    sender is gone. *)

From S2P Require Import Prelude Lsn TenantShard.

(** ** The counter *)

Class MonotonicCounter (S : Type) := {
  cnt_value : S → Z;
  cnt_advance {E} : Z → ST S E unit;
}.
Class MonotonicCounterLaws (S : Type) `{MonotonicCounter S} := {
  cnt_advance_spec {E} v s : cnt_value s ≤ v → ∃ s', cnt_advance (E := E) v s = (Ok tt, s') ∧ cnt_value s' = v;
}.

#[export] Instance RecordLsn_counter : MonotonicCounter RecordLsn := {|
  cnt_value := RecordLsn_cnt_value;
  cnt_advance _ := RecordLsn_cnt_advance;
|}.
#[export] Instance RecordLsn_counter_laws : MonotonicCounterLaws RecordLsn.
Proof.
  split. simpl. intros E v s Hv. unfold RecordLsn_cnt_advance, RecordLsn_cnt_value, st_get, st_assert, st_put, mbind, ST_bind, mret, ST_ret in *.
  rewrite (proj2 (Z.leb_le _ _)) by done. by eexists.
Qed.

Definition Sequence_cnt_advance {E} (v : Sequence) : ST Sequence E unit :=
  self ← st_get; _ ← st_assert (self <=? v); st_put v.
#[export] Instance Sequence_counter : MonotonicCounter Sequence := {|
  cnt_value self := self;
  cnt_advance _ := Sequence_cnt_advance;
|}.
#[export] Instance Sequence_counter_laws : MonotonicCounterLaws Sequence.
Proof.
  split. simpl. intros E v s Hv. unfold Sequence_cnt_advance, st_get, st_assert, st_put, mbind, ST_bind, mret, ST_ret.
  rewrite (proj2 (Z.leb_le _ _)) by done. by eexists.
Qed.

(** ** Waiters *)

Inductive SeqWaitError := Timeout | Shutdown.

(** Nothing happened yet, the number has arrived, the sender was dropped *)
Inductive Channel := ChOpen | ChSent | ChClosed.
Abbreviation ChannelId := nat.
#[export] Instance Channel_eq_dec : EqDecision Channel.
Proof. solve_decision. Defined.

Record Waiter := mkWaiter { wake_num : Z; wake_channel : ChannelId }.

(** [status_channel] has the number of the first waiter; [sw_channels] are the channels of all
    waiters there have been. *)
Record SeqWait (S : Type) := mkSeqWait {
  sw_heap : list Waiter;
  sw_status_channel : option Z;
  sw_current : S;
  sw_shutdown : bool;
  sw_channels : list Channel;
}.
Arguments mkSeqWait {S}.
Arguments sw_heap {S}.
Arguments sw_status_channel {S}.
Arguments sw_current {S}.
Arguments sw_shutdown {S}.
Arguments sw_channels {S}.
#[export] Instance SeqWait_settable {S} : Settable (SeqWait S) := λ s,
  mkSeqWait (sw_heap s) (sw_status_channel s) (sw_current s) (sw_shutdown s) (sw_channels s).

(** [BinaryHeap::push] *)
Fixpoint heap_push (w : Waiter) (heap : list Waiter) : list Waiter :=
  match heap with
  | [] => [w]
  | x :: heap' => if wake_num w <? wake_num x then w :: heap else x :: heap_push w heap'
  end.

(** [while let Some(n) = self.heap.peek()]: what is woken, what is left *)
Fixpoint pop_while (num : Z) (heap : list Waiter) : list ChannelId * list Waiter :=
  match heap with
  | [] => ([], [])
  | n :: heap' =>
    if num <? wake_num n then ([], heap)
    else let '(wake_these, rest) := pop_while num heap' in (wake_channel n :: wake_these, rest)
  end.

Section operations.
Context {S : Type} `{MonotonicCounter S}.
Local Abbreviation M E A := (ST (SeqWait S) E A).

Definition SeqWait_new (starting_num : S) : SeqWait S := mkSeqWait [] None starting_num false [].

Definition update_status {E} : M E unit :=
  st_modify (λ self, self <| sw_status_channel := wake_num <$> head (sw_heap self) |>).

Definition add {E} (num : Z) : M E ChannelId :=
  self ← st_get;
  let rx := length (sw_channels self) in
  _ ← st_modify (λ self, self <| sw_channels := sw_channels self ++ [ChOpen] |>
    <| sw_heap := heap_push (mkWaiter num rx) (sw_heap self) |>);
  _ ← update_status;
  mret rx.

Definition pop_leq {E} (num : Z) : M E (list ChannelId) :=
  self ← st_get;
  let '(wake_these, rest) := pop_while num (sw_heap self) in
  _ ← st_modify (λ self, self <| sw_heap := rest |>);
  _ ← (match wake_these with [] => mret tt | _ => update_status end);
  mret wake_these.

Definition take_all {E} : M E (list Waiter) :=
  self ← st_get;
  _ ← st_modify (λ self, self <| sw_heap := [] |>);
  _ ← update_status;
  mret (sw_heap self).

(** The part of [shutdown] under the mutex *)
Definition shutdown_locked {E} : M E (list ChannelId) :=
  _ ← st_modify (λ self, self <| sw_shutdown := true |>);
  heap ← take_all;
  mret (wake_channel <$> heap).

Definition queue_for_wait (num : Z) : M SeqWaitError (option ChannelId) :=
  internal ← st_get;
  if num <=? cnt_value (sw_current internal) then mret None
  else if sw_shutdown internal then st_fail Shutdown
  else rx ← add num; mret (Some rx).

Definition would_wait_for (self : SeqWait S) (num : Z) : unit + Z :=
  let cnt := cnt_value (sw_current self) in if num <=? cnt then inl tt else inr cnt.

(** The part of [advance] under the mutex: the old number, and what to wake *)
Definition advance_locked {E} (num : Z) : M E (Z * list ChannelId) :=
  internal ← st_get;
  let old_value := cnt_value (sw_current internal) in
  if num <=? old_value then mret (old_value, [])
  else
    _ ← st_zoom sw_current (λ c self, self <| sw_current := c |>) (cnt_advance num);
    wake_these ← pop_leq num;
    mret (old_value, wake_these).

(** [tx.send(())]; the sender is dropped afterwards. *)
Definition send {E} (tx : ChannelId) : M E unit :=
  st_modify (λ self, self <| sw_channels := <[tx := ChSent]> (sw_channels self) |>).

(** A sender that has not sent is dropped. *)
Definition drop_sender {E} (tx : ChannelId) : M E unit :=
  st_modify (λ self, self <| sw_channels := <[tx := ChClosed]> (sw_channels self) |>).

(** [rx.changed()] with [map_err]: [None] while it waits *)
Definition wait_changed (rx : ChannelId) (self : SeqWait S) : option (unit + SeqWaitError) :=
  match sw_channels self !! rx with
  | Some ChSent => Some (inl tt)
  | Some ChClosed => Some (inr Shutdown)
  | _ => None
  end.
End operations.

(** ** Tasks *)

(** Tasks that wait, numbers that [advance] still has to send, senders that [shutdown] still has to
    drop, and the results of the waits; [ws_nums] are the numbers of the channels. *)
Record WaitSys (S : Type) := mkWaitSys {
  ws_seq : SeqWait S;
  ws_nums : list Z;
  ws_waits : list (Z * ChannelId);
  ws_sends : list ChannelId;
  ws_drops : list ChannelId;
  ws_results : list (Z * (unit + SeqWaitError));
}.
Arguments mkWaitSys {S}.
Arguments ws_seq {S}.
Arguments ws_nums {S}.
Arguments ws_waits {S}.
Arguments ws_sends {S}.
Arguments ws_drops {S}.
Arguments ws_results {S}.
#[export] Instance WaitSys_settable {S} : Settable (WaitSys S) := λ s,
  mkWaitSys (ws_seq s) (ws_nums s) (ws_waits s) (ws_sends s) (ws_drops s) (ws_results s).

Section system.
Context {S : Type} `{MonotonicCounterLaws S}.

Inductive wait_step (s : WaitSys S) : WaitSys S → Prop :=
| step_arrived num q :
  queue_for_wait num (ws_seq s) = (Ok None, q) →
  wait_step s (s <| ws_seq := q |> <| ws_results := (num, inl tt) :: ws_results s |>)
| step_refused num e q :
  queue_for_wait num (ws_seq s) = (Err e, q) →
  wait_step s (s <| ws_seq := q |> <| ws_results := (num, inr e) :: ws_results s |>)
| step_queued num rx q :
  queue_for_wait num (ws_seq s) = (Ok (Some rx), q) →
  wait_step s (s <| ws_seq := q |> <| ws_nums := ws_nums s ++ [num] |> <| ws_waits := (num, rx) :: ws_waits s |>)
| step_woken num rx r waits :
  ws_waits s ≡ₚ (num, rx) :: waits → wait_changed rx (ws_seq s) = Some r →
  wait_step s (s <| ws_waits := waits |> <| ws_results := (num, r) :: ws_results s |>)
| step_timeout num rx waits :
  ws_waits s ≡ₚ (num, rx) :: waits →
  wait_step s (s <| ws_waits := waits |> <| ws_results := (num, inr Timeout) :: ws_results s |>)
| step_advance num old wake_these q :
  advance_locked (E := Empty_set) num (ws_seq s) = (Ok (old, wake_these), q) →
  wait_step s (s <| ws_seq := q |> <| ws_sends := wake_these ++ ws_sends s |>)
| step_send tx sends q :
  ws_sends s ≡ₚ tx :: sends → send (E := Empty_set) tx (ws_seq s) = (Ok tt, q) →
  wait_step s (s <| ws_seq := q |> <| ws_sends := sends |>)
| step_shutdown txs q :
  shutdown_locked (E := Empty_set) (ws_seq s) = (Ok txs, q) →
  wait_step s (s <| ws_seq := q |> <| ws_drops := txs ++ ws_drops s |>)
| step_drop tx drops q :
  ws_drops s ≡ₚ tx :: drops → drop_sender (E := Empty_set) tx (ws_seq s) = (Ok tt, q) →
  wait_step s (s <| ws_seq := q |> <| ws_drops := drops |>).

Definition wait_init (starting_num : S) : WaitSys S := mkWaitSys (SeqWait_new starting_num) [] [] [] [] [].

Inductive wait_reachable : WaitSys S → Prop :=
| wait_reachable_init starting_num : wait_reachable (wait_init starting_num)
| wait_reachable_step s s' : wait_reachable s → wait_step s s' → wait_reachable s'.

(** *** The invariant *)

Definition waiter_le (a b : Waiter) : Prop := wake_num a ≤ wake_num b.
Definition now (s : WaitSys S) : Z := cnt_value (sw_current (ws_seq s)).
Definition channels_of (s : WaitSys S) : list ChannelId := (wake_channel <$> sw_heap (ws_seq s)) ++ ws_sends s ++ ws_drops s.

Record wait_inv (s : WaitSys S) : Prop := {
  wi_length : length (ws_nums s) = length (sw_channels (ws_seq s));
  wi_sorted : StronglySorted waiter_le (sw_heap (ws_seq s));
  wi_heap w : w ∈ sw_heap (ws_seq s) → ws_nums s !! wake_channel w = Some (wake_num w) ∧ now s < wake_num w;
  wi_nodup : NoDup (channels_of s);
  wi_open i : sw_channels (ws_seq s) !! i = Some ChOpen ↔ i ∈ channels_of s;
  wi_sends i : i ∈ ws_sends s → ∃ n, ws_nums s !! i = Some n ∧ n ≤ now s;
  wi_sent i : sw_channels (ws_seq s) !! i = Some ChSent → ∃ n, ws_nums s !! i = Some n ∧ n ≤ now s;
  wi_closed i : sw_channels (ws_seq s) !! i = Some ChClosed ∨ i ∈ ws_drops s → sw_shutdown (ws_seq s) = true;
  wi_shutdown : sw_shutdown (ws_seq s) = true → sw_heap (ws_seq s) = [];
  wi_waits n i : (n, i) ∈ ws_waits s → ws_nums s !! i = Some n;
  wi_arrived n : (n, inl tt) ∈ ws_results s → n ≤ now s;
  wi_refused n : (n, inr Shutdown) ∈ ws_results s → sw_shutdown (ws_seq s) = true;
  wi_status : sw_status_channel (ws_seq s) = wake_num <$> head (sw_heap (ws_seq s));
}.

Lemma heap_push_perm w heap : heap_push w heap ≡ₚ w :: heap.
Proof.
  induction heap as [|x heap IH]; simpl; [done|]. destruct (_ <? _); [done|]. rewrite IH. apply Permutation_swap.
Qed.

Lemma heap_push_sorted w heap : StronglySorted waiter_le heap → StronglySorted waiter_le (heap_push w heap).
Proof.
  induction 1 as [|x heap Hs IH Hall]; simpl; [by repeat constructor|]. destruct (Z.ltb_spec (wake_num w) (wake_num x)) as [Hlt|Hge].
  - constructor; [by constructor|]. constructor; [unfold waiter_le; lia|]. eapply Forall_impl; [exact Hall|]. unfold waiter_le. intros y. simpl. lia.
  - constructor; [done|]. rewrite heap_push_perm. constructor; [unfold waiter_le; lia|done].
Qed.

(** What is woken are the waiters up to the number. *)
Lemma pop_while_spec num heap :
  StronglySorted waiter_le heap →
  ∃ popped, heap = popped ++ (pop_while num heap).2 ∧ (pop_while num heap).1 = wake_channel <$> popped ∧
    Forall (λ w, wake_num w ≤ num) popped ∧ Forall (λ w, num < wake_num w) (pop_while num heap).2.
Proof.
  induction 1 as [|x heap Hs IH Hall]; simpl; [by exists []|]. destruct (Z.ltb_spec num (wake_num x)) as [Hlt|Hge].
  - exists []. split; [done|]. split; [done|]. split; [done|]. simpl. constructor; [done|]. eapply Forall_impl; [exact Hall|]. unfold waiter_le. intros y. simpl. lia.
  - destruct IH as (popped & Heq & Hch & Hle & Hgt). destruct (pop_while num heap) as [wake rest]. simpl in *. exists (x :: popped). simpl.
    split; [by rewrite Heq|]. split; [by rewrite Hch|]. by split; [constructor|].
Qed.

Lemma queue_cases num (q q' : SeqWait S) r :
  queue_for_wait num q = (r, q') →
  (num ≤ cnt_value (sw_current q) ∧ r = Ok None ∧ q' = q) ∨
  (sw_shutdown q = true ∧ r = Err Shutdown ∧ q' = q) ∨
  (cnt_value (sw_current q) < num ∧ sw_shutdown q = false ∧ r = Ok (Some (length (sw_channels q))) ∧
    q' = mkSeqWait (heap_push (mkWaiter num (length (sw_channels q))) (sw_heap q))
      (wake_num <$> head (heap_push (mkWaiter num (length (sw_channels q))) (sw_heap q))) (sw_current q) (sw_shutdown q) (sw_channels q ++ [ChOpen])).
Proof.
  unfold queue_for_wait, add, update_status, st_modify, st_get, st_fail, mret, ST_ret, mbind, ST_bind.
  intros Hq. destruct q as [heap status current sd channels]. simpl in *.
  destruct (Z.leb_spec num (cnt_value current)) as [Hle|Hgt]; [injection Hq as <- <-; by left|right].
  destruct sd; injection Hq as <- <-; [by left|by right].
Qed.

Lemma queued_inv s num :
  wait_inv s → now s < num → sw_shutdown (ws_seq s) = false →
  let q := ws_seq s in
  let rx := length (sw_channels q) in
  wait_inv (s <| ws_seq := mkSeqWait (heap_push (mkWaiter num rx) (sw_heap q)) (wake_num <$> head (heap_push (mkWaiter num rx) (sw_heap q)))
      (sw_current q) (sw_shutdown q) (sw_channels q ++ [ChOpen]) |> <| ws_nums := ws_nums s ++ [num] |> <| ws_waits := (num, rx) :: ws_waits s |>).
Proof.
  intros Hinv Hnow Hsd. cbv zeta. set (rx := length (sw_channels (ws_seq s))). pose proof (wi_length _ Hinv) as Hlen. fold rx in Hlen.
  assert (Hold : ∀ i n, ws_nums s !! i = Some n → (ws_nums s ++ [num]) !! i = Some n) by (intros i n Hi; by apply lookup_app_l_Some).
  assert (Hnew : (ws_nums s ++ [num]) !! rx = Some num) by (rewrite <- Hlen; by apply list_lookup_middle).
  assert (Hch : ∀ i x, (sw_channels (ws_seq s) ++ [ChOpen]) !! i = Some x → sw_channels (ws_seq s) !! i = Some x ∨ i = rx ∧ x = ChOpen).
  { intros i x [Hi|[Hge Hi]]%lookup_app_Some; [by left|]. apply list_lookup_singleton_Some in Hi as [? <-]. right. split; [|done]. unfold rx. lia. }
  assert (Hperm : ∀ l, ((wake_channel <$> heap_push (mkWaiter num rx) (sw_heap (ws_seq s))) ++ l) ≡ₚ rx :: (wake_channel <$> sw_heap (ws_seq s)) ++ l)
    by (intros l; by rewrite heap_push_perm).
  assert (Hnotin : rx ∉ channels_of s) by (intros Hin; apply (wi_open _ Hinv), lookup_lt_Some in Hin; unfold rx in Hin; lia).
  split; unfold channels_of, now; simpl.
  - rewrite !length_app, Hlen. done.
  - apply heap_push_sorted, Hinv.
  - intros w. rewrite heap_push_perm, elem_of_cons. intros [->|Hw]; [done|]. destruct (wi_heap _ Hinv _ Hw). split; [by apply Hold|done].
  - rewrite Hperm. apply NoDup_cons. split; [exact Hnotin|apply Hinv].
  - intros i. rewrite Hperm, elem_of_cons. split.
    + intros [Hi|[-> _]]%Hch; [right; by apply (wi_open _ Hinv)|by left].
    + intros [->|Hi]; [by apply list_lookup_middle|]. apply lookup_app_l_Some. by apply (wi_open _ Hinv).
  - intros i (n & Hi & Hn)%(wi_sends _ Hinv). eauto.
  - intros i [Hi|[_ ?]]%Hch; [|done]. apply (wi_sent _ Hinv) in Hi as (n & Hi & Hn). eauto.
  - intros i [[Hi|[_ ?]]%Hch|Hi]; [|done|]; apply (wi_closed _ Hinv i); auto.
  - congruence.
  - intros n i [[= -> ->]|Hi]%elem_of_cons; [done|]. by apply Hold, Hinv.
  - apply Hinv.
  - apply Hinv.
  - done.
Qed.

Lemma woken_inv s num rx r waits :
  wait_inv s → ws_waits s ≡ₚ (num, rx) :: waits → (r = inr Timeout ∨ wait_changed rx (ws_seq s) = Some r) →
  wait_inv (s <| ws_waits := waits |> <| ws_results := (num, r) :: ws_results s |>).
Proof.
  intros Hinv Hw Hr. assert (Hrx : ws_nums s !! rx = Some num) by (apply (wi_waits _ Hinv); rewrite Hw; apply list_elem_of_here).
  split; try apply Hinv; simpl.
  - intros n i Hi. apply (wi_waits _ Hinv). rewrite Hw. by apply list_elem_of_further.
  - intros n [[= -> <-]|Hn]%elem_of_cons; [|by apply Hinv]. destruct Hr as [?|Hr]; [done|]. unfold wait_changed in Hr.
    destruct (sw_channels (ws_seq s) !! rx) as [[]|] eqn:Hc; try done. apply (wi_sent _ Hinv) in Hc as (n' & Hn' & Hle). by simplify_eq.
  - intros n [[= -> <-]|Hn]%elem_of_cons; [|by apply (wi_refused _ Hinv n)]. destruct Hr as [?|Hr]; [done|]. unfold wait_changed in Hr.
    destruct (sw_channels (ws_seq s) !! rx) as [[]|] eqn:Hc; try done. apply (wi_closed _ Hinv rx). by left.
Qed.

Lemma advance_cases num (q q' : SeqWait S) old wake_these :
  StronglySorted waiter_le (sw_heap q) → advance_locked (E := Empty_set) num q = (Ok (old, wake_these), q') →
  (num ≤ cnt_value (sw_current q) ∧ wake_these = [] ∧ q' = q) ∨
  (cnt_value (sw_current q) < num ∧ cnt_value (sw_current q') = num ∧ sw_shutdown q' = sw_shutdown q ∧ sw_channels q' = sw_channels q ∧
    ∃ popped, sw_heap q = popped ++ sw_heap q' ∧ wake_these = wake_channel <$> popped ∧ Forall (λ w, wake_num w ≤ num) popped ∧
      Forall (λ w, num < wake_num w) (sw_heap q') ∧ (sw_status_channel q = wake_num <$> head (sw_heap q) → sw_status_channel q' = wake_num <$> head (sw_heap q'))).
Proof.
  intros Hs Hq. unfold advance_locked, pop_leq, update_status, st_zoom, st_modify, st_get, mret, ST_ret, mbind, ST_bind in Hq.
  destruct (Z.leb_spec num (cnt_value (sw_current q))) as [Hle|Hgt]; [injection Hq as <- <- <-; by left|right]. split; [done|].
  destruct (cnt_advance_spec (E := Empty_set) num (sw_current q)) as (c' & Hadv & Hval); [lia|]. rewrite Hadv in Hq. simpl in Hq.
  destruct (pop_while_spec num (sw_heap q) Hs) as (popped & Heq & Hch & Hle & Hrest). destruct (pop_while num (sw_heap q)) as [wake rest]. simpl in *.
  destruct wake as [|w wake]; injection Hq as <- <- <-; simpl; (split; [done|]); (split; [done|]); (split; [done|]); exists popped; (split; [done|]); (split; [done|]);
    (split; [done|]); (split; [done|]); [|done]. destruct popped; [|done]. by rewrite Heq.
Qed.

Lemma advance_inv s num old wake_these q :
  wait_inv s → advance_locked (E := Empty_set) num (ws_seq s) = (Ok (old, wake_these), q) →
  wait_inv (s <| ws_seq := q |> <| ws_sends := wake_these ++ ws_sends s |>).
Proof.
  intros Hinv Hadv. destruct (advance_cases _ _ _ _ _ (wi_sorted _ Hinv) Hadv) as [(_ & -> & ->)|(Hgt & Hnow & Hsd & Hch & popped & Heq & -> & Hle & Hrest & Hst)].
  { by destruct s. }
  assert (Hperm : (wake_channel <$> sw_heap q) ++ ((wake_channel <$> popped) ++ ws_sends s) ++ ws_drops s ≡ₚ channels_of s).
  { unfold channels_of. rewrite Heq, fmap_app, <- !app_assoc. rewrite !app_assoc. do 2 f_equiv. apply Permutation_app_comm. }
  assert (Hmono : ∀ n, n ≤ now s → n ≤ cnt_value (sw_current q)) by (unfold now; intros; lia).
  assert (Hin : ∀ w, w ∈ sw_heap q → w ∈ sw_heap (ws_seq s)) by (intros w Hw; rewrite Heq; set_solver).
  assert (Hpop : ∀ w, w ∈ popped → ws_nums s !! wake_channel w = Some (wake_num w)).
  { intros w Hw. apply (wi_heap _ Hinv). rewrite Heq. set_solver. }
  split; unfold channels_of, now in *; simpl; rewrite ?Hch, ?Hsd.
  - apply Hinv.
  - pose proof (wi_sorted _ Hinv) as Hs. rewrite Heq in Hs. by eapply StronglySorted_app_1_r.
  - intros w Hw. rewrite Forall_forall in Hrest. split; [by apply (wi_heap _ Hinv), Hin|]. rewrite Hnow. by apply Hrest.
  - rewrite Hperm. apply Hinv.
  - intros i. rewrite Hperm. apply Hinv.
  - intros i [(w & -> & Hw)%list_elem_of_fmap|Hi]%elem_of_app.
    + exists (wake_num w). split; [by apply Hpop|]. rewrite Forall_forall in Hle. rewrite Hnow. by apply Hle.
    + apply (wi_sends _ Hinv) in Hi as (n & Hi & Hn). eauto.
  - intros i (n & Hi & Hn)%(wi_sent _ Hinv). eauto.
  - apply Hinv.
  - intros Hs%(wi_shutdown _ Hinv). rewrite Heq in Hs. by apply app_nil in Hs as [_ ?].
  - apply Hinv.
  - intros n Hn%(wi_arrived _ Hinv). auto.
  - apply Hinv.
  - apply Hst, Hinv.
Qed.

Lemma send_inv s tx sends :
  wait_inv s → ws_sends s ≡ₚ tx :: sends →
  wait_inv (s <| ws_seq := ws_seq s <| sw_channels := <[tx := ChSent]> (sw_channels (ws_seq s)) |> |> <| ws_sends := sends |>).
Proof.
  intros Hinv Hs. assert (Hperm : channels_of s ≡ₚ tx :: (wake_channel <$> sw_heap (ws_seq s)) ++ sends ++ ws_drops s).
  { unfold channels_of. rewrite Hs. simpl. by rewrite <- Permutation_middle. }
  pose proof (wi_nodup _ Hinv) as Hnd. rewrite Hperm in Hnd. apply NoDup_cons in Hnd as [Hnotin Hnd].
  destruct (wi_sends _ Hinv tx) as (n & Hn & Hle); [rewrite Hs; apply list_elem_of_here|].
  split; unfold channels_of, now in *; simpl; rewrite ?length_insert; try apply Hinv; try done.
  - intros i. split.
    + intros [(_ & [=] & _)|[Hne Hi]]%list_lookup_insert_Some. apply (wi_open _ Hinv) in Hi. unfold channels_of in Hi. rewrite Hperm in Hi. set_solver.
    + intros Hi. rewrite list_lookup_insert_ne by (intros ->; done). apply (wi_open _ Hinv). unfold channels_of. rewrite Hperm. set_solver.
  - intros i Hi. apply (wi_sends _ Hinv). rewrite Hs. set_solver.
  - intros i [(<- & _ & _)|[Hne Hi]]%list_lookup_insert_Some; [eauto|by apply (wi_sent _ Hinv)].
  - intros i [[(_ & [=] & _)|[Hne Hi]]%list_lookup_insert_Some|Hi]; apply (wi_closed _ Hinv i); auto.
Qed.

Lemma drop_inv s tx drops :
  wait_inv s → ws_drops s ≡ₚ tx :: drops →
  wait_inv (s <| ws_seq := ws_seq s <| sw_channels := <[tx := ChClosed]> (sw_channels (ws_seq s)) |> |> <| ws_drops := drops |>).
Proof.
  intros Hinv Hs. assert (Hperm : channels_of s ≡ₚ tx :: (wake_channel <$> sw_heap (ws_seq s)) ++ ws_sends s ++ drops).
  { unfold channels_of. rewrite Hs, !app_assoc. by rewrite <- Permutation_middle. }
  pose proof (wi_nodup _ Hinv) as Hnd. rewrite Hperm in Hnd. apply NoDup_cons in Hnd as [Hnotin Hnd].
  assert (Hsd : sw_shutdown (ws_seq s) = true) by (apply (wi_closed _ Hinv tx); right; rewrite Hs; apply list_elem_of_here).
  split; unfold channels_of, now in *; simpl; rewrite ?length_insert; try apply Hinv; try done.
  - intros i. split.
    + intros [(_ & [=] & _)|[Hne Hi]]%list_lookup_insert_Some. apply (wi_open _ Hinv) in Hi. unfold channels_of in Hi. rewrite Hperm in Hi. set_solver.
    + intros Hi. rewrite list_lookup_insert_ne by (intros ->; done). apply (wi_open _ Hinv). unfold channels_of. rewrite Hperm. set_solver.
  - intros i [(_ & [=] & _)|[Hne Hi]]%list_lookup_insert_Some. by apply (wi_sent _ Hinv).
Qed.

Lemma shutdown_inv s txs q :
  wait_inv s → shutdown_locked (E := Empty_set) (ws_seq s) = (Ok txs, q) → wait_inv (s <| ws_seq := q |> <| ws_drops := txs ++ ws_drops s |>).
Proof.
  intros Hinv [= <- <-]. split; unfold channels_of, now in *; simpl; try apply Hinv; try done.
  - constructor.
  - by intros w ?%elem_of_nil.
  - pose proof (wi_nodup _ Hinv) as Hnd. unfold channels_of in Hnd. rewrite !app_assoc in *. by rewrite (Permutation_app_comm (ws_sends s)).
  - intros i. rewrite (wi_open _ Hinv). unfold channels_of. set_solver.
Qed.

Lemma wait_step_inv s s' : wait_inv s → wait_step s s' → wait_inv s'.
Proof.
  intros Hinv Hstep. destruct Hstep as [num q Hq|num e q Hq|num rx q Hq|num rx r waits Hw Hr|num rx waits Hw|num old wake q Hq|tx sends q Hs [= <-]|txs q Hq|tx drops q Hs [= <-]].
  - apply queue_cases in Hq as [(Hle & _ & ->)|[(_ & ? & _)|(_ & _ & ? & _)]]; try done. split; try apply Hinv. simpl.
    intros n [[= ->]|Hn]%elem_of_cons; [done|by apply Hinv]. simpl. by intros n [?|Hn%(wi_refused _ Hinv)]%elem_of_cons.
  - apply queue_cases in Hq as [(_ & ? & _)|[(Hsd & [= ->] & ->)|(_ & _ & ? & _)]]; try done. split; try apply Hinv. simpl.
    + intros n [?|Hn%(wi_arrived _ Hinv)]%elem_of_cons; done.
    + simpl. intros n _. done.
  - apply queue_cases in Hq as [(_ & ? & _)|[(_ & ? & _)|(Hgt & Hsd & [= ->] & ->)]]; try done. by apply queued_inv.
  - eapply woken_inv; [done..|by right].
  - eapply woken_inv; [done..|by left].
  - by eapply advance_inv.
  - by apply send_inv.
  - by apply shutdown_inv.
  - by apply drop_inv.
Qed.

Lemma wait_reachable_inv s : wait_reachable s → wait_inv s.
Proof.
  induction 1 as [n|s s' _ IH Hstep]; [|by eapply wait_step_inv].
  split; unfold channels_of; simpl; try done; try (by intros; set_solver); try constructor; try set_solver.
Qed.

(** C28: no wakeup is lost and none comes too early.  A wait that returned without error was for a
    number that has arrived, one that was shut down returned after [shutdown]; when [advance] and
    [shutdown] have finished with their senders, a task is still waiting exactly while its number
    has not arrived and there was no [shutdown]; and the status is the least number waited for. *)
Theorem no_lost_wakeup s :
  wait_reachable s →
  (∀ n, (n, inl tt) ∈ ws_results s → n ≤ now s) ∧
  (∀ n, (n, inr Shutdown) ∈ ws_results s → sw_shutdown (ws_seq s) = true) ∧
  (∀ n rx, (n, rx) ∈ ws_waits s → ws_sends s = [] → ws_drops s = [] →
    wait_changed rx (ws_seq s) = None ↔ now s < n ∧ sw_shutdown (ws_seq s) = false) ∧
  (∀ w, w ∈ sw_heap (ws_seq s) → ∃ n, sw_status_channel (ws_seq s) = Some n ∧ n ≤ wake_num w).
Proof.
  intros Hinv%wait_reachable_inv. split; [apply Hinv|]. split; [apply Hinv|]. split.
  - intros n rx Hw%(wi_waits _ Hinv) Hs Hd. unfold wait_changed.
    assert (Hlt : (rx < length (sw_channels (ws_seq s)))%nat) by (rewrite <- (wi_length _ Hinv); by eapply lookup_lt_Some).
    apply lookup_lt_is_Some_2 in Hlt as [[] Hc]; rewrite Hc.
    + split; [|done]. intros _. apply (wi_open _ Hinv) in Hc. unfold channels_of in Hc. rewrite Hs, Hd, !app_nil_r in Hc.
      apply list_elem_of_fmap in Hc as (w & -> & Hin). destruct (wi_heap _ Hinv _ Hin) as [Hn Hlt]. simplify_eq. split; [done|].
      destruct (sw_shutdown (ws_seq s)) eqn:Hsd; [|done]. rewrite (wi_shutdown _ Hinv Hsd) in Hin. by apply elem_of_nil in Hin.
    + split; [done|]. intros [Hlt _]. apply (wi_sent _ Hinv) in Hc as (n' & Hn' & Hle). simplify_eq. lia.
    + split; [done|]. intros [_ Hsd]. rewrite (wi_closed _ Hinv rx) in Hsd by auto. done.
  - intros w Hw. rewrite (wi_status _ Hinv). pose proof (wi_sorted _ Hinv) as Hs. destruct (sw_heap (ws_seq s)) as [|x heap]; [by apply elem_of_nil in Hw|].
    exists (wake_num x). split; [done|]. apply elem_of_cons in Hw as [->|Hw]; [done|]. inversion Hs as [|? ? _ Hall]; subst.
    rewrite Forall_forall in Hall. by apply Hall.
Qed.
End system.

(** Two tasks wait for 5 and 9 of a sequence; it advances to 7 while they wait. *)
Lemma wait_example : ∃ s : WaitSys Sequence, wait_reachable s ∧ ws_waits s = [(9, 1%nat)] ∧ ws_sends s = [] ∧ ws_drops s = [] ∧
  ws_results s = [(5, inl tt)] ∧ now s = 7 ∧ sw_shutdown (ws_seq s) = false.
Proof.
  eexists. split.
  - eapply wait_reachable_step; [eapply wait_reachable_step; [eapply wait_reachable_step; [eapply wait_reachable_step;
      [eapply wait_reachable_step; [apply (wait_reachable_init (S := Sequence) 3)|]|]|]|]|].
    + eapply (step_queued _ 5). reflexivity.
    + eapply (step_queued _ 9). reflexivity.
    + eapply (step_advance _ 7). vm_compute. reflexivity.
    + eapply (step_send _ 0%nat []); [done|reflexivity].
    + eapply (step_woken _ 5 0%nat _ [(9, 1%nat)]); [apply Permutation_swap|reflexivity].
  - done.
Qed.

Lemma no_lost_wakeup_witness : ∃ s : WaitSys Sequence, wait_reachable s ∧ 5 ≤ now s ∧ wait_changed 1%nat (ws_seq s) = None.
Proof.
  destruct wait_example as (s & Hs & Hw & Hsends & Hdrops & Hr & Hnow & Hsd). exists s. split; [exact Hs|].
  destruct (no_lost_wakeup s Hs) as (Harr & Href & Hwait & _). split.
  - apply Harr. rewrite Hr. apply list_elem_of_here.
  - apply (Hwait 9 1%nat); [rewrite Hw; apply list_elem_of_here|done|done|]. rewrite Hnow. split; [lia|done].
Defined.
